(* ===== verification/_CoqProject ===== *)
-Q . S2P
Prelude.v
Message.v
Scheduler.v
Recording.v
InputTracker.v
InputMapping.v
Channel.v
Pending.v
Dataflow.v
Routing.v
Frames.v
Counters.v
Tokens.v
Breaker.v
Delivery.v
Stderr.v
Tail.v
Daemon.v
Isolation.v
Lifecycle.v
RestartLoop.v
Framing.v
Listener.v
Arrow.v
EventThread.v
EventStream.v
Text.v
Types.v
Descriptor.v
DoraNode.v
Regions.v
Expand.v
Validate.v
TypeCheck.v
LogFiles.v
NodeOutput.v
LogReader.v
Store.v
CoordState.v
GitBuild.v
Lockfile.v
Runtime.v
RecordReplay.v
StateLog.v
Coordinator.v
CoordLogic.v
CoordInv.v
CoordSample.v
CoordSpawn.v
CoordBarrier.v
CoordParams.v
CoordRecovery.v
ShmemChannel.v
WsDaemon.v
WsControl.v
