(* ===== verification/Prelude.v ===== *)
(** * Dora: a Rocq model of the dataflow daemon, the coordinator and the node library

    ** The program

    A dora dataflow is a graph of node processes that exchange messages.  On every machine
    a daemon ([binaries/daemon]) spawns the nodes, routes their outputs to the inputs
    mapped to them, passes outputs for other machines to Zenoh, and keeps their logs.  A
    coordinator ([binaries/coordinator]) places the nodes of a dataflow on the daemons,
    starts, stops and recovers dataflows, and serves the command line ([binaries/cli]).  A
    node talks to its daemon through the node library ([apis/rust/node]) over TCP or shared
    memory ([libraries/shared-memory-server]).  Dataflows are described by a descriptor
    ([libraries/core]), which is expanded, resolved, validated and type checked.  The message
    crate ([libraries/message]) holds the shared types, [libraries/coordinator-store] the
    persistent state, [libraries/recording] the format of recorded dataflows, and
    [libraries/log-utils] helpers for logs.

    ** Files

    Shared:
    - [Prelude]: results ([Ok], [Err], [Panic]), machine-width integers, the iteration
      order of [BTreeMap] (sorted) and of [HashMap] (the class [HashOrder]: some
      permutation, chosen by the instance), list lemmas, tactics.
    - [Text]: the functions of [str] on byte strings.
    - [Message]: [libraries/message/src/{id,metadata,config,common,daemon_to_node}.rs].
    - [InputMapping]: [Display] and [FromStr] of [InputMapping] in
      [libraries/message/src/config.rs].
    - [Recording]: [libraries/recording/src/lib.rs], writer and reader on byte lists.

    Node library ([apis/rust/node/src]):
    - [Scheduler], [InputTracker]: [event_stream/{scheduler,input_tracker}.rs].
    - [Arrow]: [node/arrow_utils.rs] and [event_stream/data_conversion.rs], arrays as bytes.
    - [EventThread]: [event_stream/thread.rs] and [node/drop_stream.rs], round by round.
    - [EventStream]: [event_stream/mod.rs], receiving in all variants.
    - [DoraNode]: [node/mod.rs] and [node/control_channel.rs], sending; the content of the
      shared-memory regions is part of the state.  [Regions]: who owns a region.

    Descriptors ([libraries/core/src]):
    - [Types]: [types.rs].  [Descriptor]: the types of a descriptor, [descriptor/mod.rs] and
      the wiring check.  [Expand]: [descriptor/expand.rs].  [Validate], [TypeCheck]:
      [descriptor/validate.rs].
    - [GitBuild]: [build/{mod,git,build_command}.rs], with the builds of the daemon
      ([build_dataflow]) and of [dora build] ([command/build/local.rs]); a build is a tree of
      operations on the machine.  [Lockfile]: [binaries/cli/src/command/build], the resolution
      of git sources and the lockfile.

    Operators and recordings:
    - [Runtime]: [binaries/runtime/src/lib.rs] and [operator/channel.rs], the loop that passes
      events to operators, and the buffer in front of each, as interleaved steps.
    - [RecordReplay]: [dora record] and [dora replay] ([binaries/cli/src/command]) on YAML
      values, and the nodes [binaries/{record-node,replay-node}].

    Daemon ([binaries/daemon/src]):
    - [Channel]: [event_types.rs]; tokio's bounded channels with the pending counter beside
      each of them, drop channels and process channels.
    - [Pending]: [pending.rs], [fault_tolerance.rs] and the connection to the coordinator.
    - [Dataflow]: [running_dataflow.rs], the record [RunningDataflow] and its methods.
      Shared objects (channels, counters, processes) live in stores and are referred to by
      handles, so that two holders of one channel see the same queue.
    - [Routing]: the functions of [lib.rs] that work on one dataflow.
    - [Daemon]: the [Daemon] of [lib.rs] with every event handler and the loop [run_inner],
      in a state and error monad.
    - [Stderr], [Tail], [RestartLoop]: [extract_err_from_stderr.rs], [read_last_n_lines] of
      [lib.rs], and [restart_loop] of [spawn/prepared.rs].
    - [LogFiles], [NodeOutput]: [log.rs] and the tasks of [spawn/prepared.rs] that read what a
      process prints, write and rotate its log files, and report its end.
    - [Listener], [Framing]: the task that serves a node's connection
      ([node_communication/mod.rs]), with its waits as states, and the framing of messages
      over TCP.
    - [Frames], [Counters], [Tokens], [Breaker], [Delivery], [Isolation], [Lifecycle]:
      theorems about [Dataflow], [Routing] and [Daemon].

    Coordinator ([binaries/coordinator/src]) and its clients:
    - [Store]: [libraries/coordinator-store], both stores as instances of one class.
    - [CoordState]: [state.rs] and the messages.  [Coordinator]: [lib.rs], [handlers.rs] and
      [run/mod.rs], every arm of the event loop, over any store.
    - [StateLog], [CoordLogic], [CoordInv], [CoordSpawn], [CoordBarrier], [CoordParams],
      [CoordRecovery]: theorems; [CoordSample]: a concrete environment for evaluation.
    - [ShmemChannel]: [libraries/shared-memory-server], as interleaved atomic steps.
    - [WsDaemon]: [ws_daemon.rs], the connection to a daemon.  [WsControl]: [ws_control.rs]
      and [binaries/cli/src/ws_client.rs], both ends of a control session.
    - [LogReader]: [dora logs] ([binaries/cli/src/command/logs.rs], [output.rs]) and
      [libraries/log-utils].

    ** What the theorems show

    - Receiving ([Scheduler], [InputTracker], [EventStream], [EventThread]): no input starves
      another; queues are bounded, first-in first-out, and the drop counters account for every
      event that is missing; requests and goals are evicted only when nothing else is left; a
      drop token is reported once the node has dropped the message, and not before.
    - Sending ([Arrow], [DoraNode], [Regions]): arrays within the limits of the receiver
      survive the way through a sample; a region is not written again before its drop token
      has come back, and is closed with its node; stream positions increase.
    - Data formats ([Recording], [InputMapping], [Framing]): round trips, reading of cut
      input, and the inputs on which the code panics or loses data.
    - Descriptors ([Types], [Descriptor], [Expand], [Validate], [TypeCheck]): the
      compatibility search is the reachability it stands for; expansion replaces every module by
      its nodes and rewires to them what named it; a descriptor that passes is wired, with
      its sources in place; and no warning means well typed, where ports are named apart.
    - Builds ([GitBuild], [Lockfile]): after a successful build that started from clean
      clones, every node finds exactly the commit of its source in its directory, whatever is
      shared, and the clones are clean again; a locked build repeats the
      commits of the build that wrote the lockfile.
    - Operators ([Runtime]): every operator gets exactly its part of the events of the node;
      its queue keeps the order and the newest inputs, is bounded in live inputs, and drains.
    - Recordings ([RecordReplay]): a replay sends what was recorded, in order, and arrays
      arrive as they were; the rewritten descriptors connect the right topics and nodes.
    - Inside a dataflow ([Counters], [Tokens], [Breaker], [Delivery], [Pending]): a message
      is delivered exactly once per mapped input and reopens a broken one; pending counters are exact through any
      sequence of events; a shared-memory region is held for exactly the receivers that
      have it; the circuit breaker opens, closes and recovers the right inputs; no node
      starts before all have subscribed; a stop request reaches everybody.
    - Across dataflows ([Isolation], [Lifecycle], [RestartLoop]): an event changes only the
      dataflow it concerns; a dataflow finishes with its last ordinary node; it is spawned
      completely or not at all; restarts are rate limited.
    - Logs ([LogFiles], [NodeOutput], [LogReader], [Tail]): from the bytes a process prints to
      what [dora logs] shows; over all starts of a node the rotated files are the most recent
      full ones, while a start empties the file it continues in; the end of a
      process is always reported once its streams have ended.
    - Between processes ([Listener], [ShmemChannel], [WsDaemon], [WsControl]): events arrive
      in order, once and completely, and a reply belongs to the very request that waits for
      it, under every interleaving; over shared memory, calls without drops and time limits do
      not hang if requests are not empty and shorter than the region.
    - Coordinator ([Store], [StateLog], [CoordInv] and the others): the persistent store and
      the store in memory refine one view; the bounded log of changes brings a daemon up to
      date; the tables stay consistent and bounded through any events; a dataflow is placed
      where it may run, accepted by every daemon, or rolled back; nodes are released together; parameters
      change in store and log together or not at all, and the request succeeds exactly when the
      daemon confirms; recovery waits for every dataflow that
      had not ended.
    - Theorems of the kind "error" document behaviour the code does not intend.

    ** Conventions and bounds

    Time is a number of nanoseconds given to the handlers.  Counters wrap at their width.
    Every [async] handler of the daemon and of the coordinator runs to its end before the
    next event, as in their single event loops; tasks that run beside them (kill tasks, the
    restart loop, listeners, the tasks of a process, both ends of a connection) are steps of
    their own.  Requests the coordinator sends to several daemons at once are sent in order.

    Loops with fuel: reading the entries of a recording (the length of the file is enough,
    since every entry takes at least four bytes); reading a log backwards (every round moves
    towards the start); trimming white space (every step removes a byte); the search for a
    conversion (every round visits a new type, shown by [is_compatible_total]).  A replay in a
    loop takes the number of its rounds.  The
    theorems show that the result is reached.  The depth of modules ([MAX_MODULE_DEPTH]) and
    of types ([MAX_TYPE_DEPTH]) are limits of the code itself.  Waiting loops of the node
    take the answers of the daemon and the clock as a list of rounds; their termination is
    stated over these rounds.

    Outside code is a parameter of the definitions that use it, in a class with the laws the
    code relies on: the Arrow library ([ArrowLib]), JSON, UUID and date texts ([LogLib]), the
    codec of the store, the daemons and clients of the coordinator ([World]), the daemon as a
    node sees it ([NodeWorld]), git and the file system ([GitWorld]), bincode and the YAML
    parser of recordings; whether Zenoh declarations, file operations and the spawning
    of processes succeed is an input of each step.  Error texts are abbreviated where nothing
    reads them.

    ** Not modelled

    Reading YAML text and the derived serialization; HLC timestamps; trace queries and metrics
    of the coordinator and its HTTP server; the environment and the start of node processes;
    the link of a daemon to the coordinator below its messages; node initialisation and the
    sockets themselves; the command line apart from control sessions, logs, builds and
    recordings; the loading and calling of operators, the foreign-language interfaces and the
    ROS 2 bridge, which are wrappers around code outside the repository. *)

From Stdlib Require Import ZArith Lia.
From stdpp Require Import base gmap sets list strings sorting.

(** ** Identifiers

    [NodeId], [DataId] and [OperatorId] are newtypes over [String]; UUIDs
    ([DataflowId], [DropToken], session and build ids) are 128-bit numbers that
    the modelled code only compares. *)

Abbreviation NodeId := string (only parsing).
Abbreviation DataId := string (only parsing).
Abbreviation OperatorId := string (only parsing).
Abbreviation Uuid := N (only parsing).
Abbreviation DataflowId := N (only parsing).
Abbreviation DropToken := N (only parsing).
(** [std::time::Duration] and [Instant], in nanoseconds. *)
Abbreviation Duration := Z (only parsing).
Abbreviation Instant := Z (only parsing).

(** ** Fallible code

    [eyre::Result] and [Result<_, String>] become [Ok]/[Err]; a Rust panic
    (slice out of range, a panicking [From] impl) is a third outcome. *)

Inductive res (A : Type) : Type :=
| Ok (a : A)
| Err (msg : string)
| Panic.
Arguments Ok {A} _.
Arguments Err {A} _.
Arguments Panic {A}.

#[export] Instance res_ret : MRet res := @Ok.
#[export] Instance res_bind : MBind res := λ A B f r,
  match r with Ok a => f a | Err e => Err e | Panic => Panic end.
#[export] Instance res_fmap : FMap res := λ A B f r,
  match r with Ok a => Ok (f a) | Err e => Err e | Panic => Panic end.
#[export] Instance res_eq_dec {A} `{EqDecision A} : EqDecision (res A).
Proof. solve_decision. Defined.

Definition res_of_option {A} (e : string) (o : option A) : res A :=
  match o with Some a => Ok a | None => Err e end.

Lemma res_bind_Ok {A B} (r : res A) (f : A → res B) b :
  r ≫= f = Ok b ↔ ∃ a, r = Ok a ∧ f a = Ok b.
Proof. destruct r; simpl; split; try naive_solver. Qed.

Definition is_ok {A} (r : res A) : bool := match r with Ok _ => true | _ => false end.
Lemma is_ok_inv {A} (r : res A) : is_ok r = true → ∃ a, r = Ok a.
Proof. destruct r; [by eexists|done..]. Qed.

(** ** Machine integers *)

Definition u64_max : Z := 2 ^ 64 - 1.
Definition u64_wrap (z : Z) : Z := z mod 2 ^ 64.

(** [usize::saturating_mul], [u64::saturating_sub], and the wrapping
    [fetch_add]/[fetch_sub] of [AtomicU64] on a 64-bit target. *)
Definition saturating_mul (a b : Z) : Z := Z.min (a * b) u64_max.
Definition saturating_sub (a b : Z) : Z := Z.max (a - b) 0.
Definition fetch_add (c n : Z) : Z := u64_wrap (c + n).
Definition fetch_sub (c n : Z) : Z := u64_wrap (c - n).

Lemma u64_wrap_small z : (0 ≤ z < 2 ^ 64)%Z → u64_wrap z = z.
Proof. intros. by apply Z.mod_small. Qed.

Lemma fetch_sub_add c : (0 ≤ c < 2 ^ 64)%Z → fetch_sub (fetch_add c 1) 1 = c.
Proof.
  intros Hc. unfold fetch_sub, fetch_add, u64_wrap.
  rewrite Zminus_mod_idemp_l. replace (c + 1 - 1)%Z with c by lia.
  by apply Z.mod_small.
Qed.

(** ** Iteration orders

    A [BTreeMap]/[BTreeSet] is iterated in key order; [str]'s [Ord] compares
    bytes lexicographically, which is [String.compare].  A [HashMap] is iterated
    in an unspecified order: every definition that iterates one takes that order
    from the class [HashOrder], whose only law is that each entry is visited
    exactly once. *)

Class KeyOrd (A : Type) := key_leb : A → A → bool.

#[export] Instance string_KeyOrd : KeyOrd string := String.leb.
#[export] Instance N_KeyOrd : KeyOrd N := N.leb.
#[export] Instance Z_KeyOrd : KeyOrd Z := Z.leb.
#[export] Instance prod_KeyOrd {A B} `{KeyOrd A, KeyOrd B} : KeyOrd (A * B) :=
  λ p q, if key_leb p.1 q.1
         then (if key_leb q.1 p.1 then key_leb p.2 q.2 else true)
         else false.

Definition key_le {A} `{KeyOrd A} (x y : A) : Prop := key_leb x y = true.
Definition entry_le {A V} `{KeyOrd A} (p q : A * V) : Prop := key_leb p.1 q.1 = true.
#[export] Instance key_le_dec {A} `{KeyOrd A} (x y : A) : Decision (key_le x y).
Proof. unfold key_le. apply _. Defined.
#[export] Instance entry_le_dec {A V} `{KeyOrd A} (p q : A * V) : Decision (entry_le p q).
Proof. unfold entry_le. apply _. Defined.

Definition btree_iter {K V} `{Countable K, !KeyOrd K} (m : gmap K V) : list (K * V) :=
  merge_sort entry_le (map_to_list m).
Definition btree_keys {K V} `{Countable K, !KeyOrd K} (m : gmap K V) : list K :=
  (btree_iter m).*1.
Definition btree_elems {K} `{Countable K, !KeyOrd K} (X : gset K) : list K :=
  merge_sort key_le (elements X).

Class HashOrder := {
  hash_iter : ∀ {K V} `{Countable K}, gmap K V → list (K * V);
  hash_iter_perm : ∀ {K V} `{Countable K} (m : gmap K V), hash_iter m ≡ₚ map_to_list m
}.
(** One admissible order, for evaluating the definitions on concrete inputs. *)
#[export] Instance hash_order_default : HashOrder | 100 := {|
  hash_iter := λ K V _ _ m, map_to_list m;
  hash_iter_perm := λ K V _ _ m, reflexivity _
|}.

Definition hash_keys `{HashOrder} {K V} `{Countable K} (m : gmap K V) : list K :=
  (hash_iter m).*1.
Definition hash_values `{HashOrder} {K V} `{Countable K} (m : gmap K V) : list V :=
  (hash_iter m).*2.

Section iteration.
Context {K V : Type} `{Countable K}.
Implicit Types m : gmap K V.

Lemma btree_iter_perm `{!KeyOrd K} m : btree_iter m ≡ₚ map_to_list m.
Proof. apply merge_sort_Permutation. Qed.

Lemma elem_of_btree_iter `{!KeyOrd K} m k v : (k, v) ∈ btree_iter m ↔ m !! k = Some v.
Proof. by rewrite btree_iter_perm, elem_of_map_to_list. Qed.

Lemma elem_of_btree_elems `{!KeyOrd K} (X : gset K) x : x ∈ btree_elems X ↔ x ∈ X.
Proof. unfold btree_elems. by rewrite merge_sort_Permutation, elem_of_elements. Qed.

Lemma NoDup_btree_elems `{!KeyOrd K} (X : gset K) : NoDup (btree_elems X).
Proof. unfold btree_elems. rewrite merge_sort_Permutation. apply NoDup_elements. Qed.

Lemma elem_of_btree_keys `{!KeyOrd K} m k : k ∈ btree_keys m ↔ is_Some (m !! k).
Proof.
  unfold btree_keys. rewrite list_elem_of_fmap. split.
  - intros ([k' v] & -> & Hin). apply elem_of_btree_iter in Hin. eauto.
  - intros [v Hv]. exists (k, v). by rewrite elem_of_btree_iter.
Qed.

Lemma NoDup_btree_keys `{!KeyOrd K} m : NoDup (btree_keys m).
Proof. unfold btree_keys. rewrite btree_iter_perm. apply NoDup_fst_map_to_list. Qed.

Lemma elem_of_hash_iter `{HashOrder} m k v : (k, v) ∈ hash_iter m ↔ m !! k = Some v.
Proof. by rewrite hash_iter_perm, elem_of_map_to_list. Qed.

Lemma NoDup_hash_keys `{HashOrder} m : NoDup (hash_keys m).
Proof. unfold hash_keys. rewrite hash_iter_perm. apply NoDup_fst_map_to_list. Qed.

Lemma elem_of_hash_keys `{HashOrder} m k : k ∈ hash_keys m ↔ is_Some (m !! k).
Proof.
  unfold hash_keys. rewrite list_elem_of_fmap. split.
  - intros ([k' v] & -> & Hin). apply elem_of_hash_iter in Hin. eauto.
  - intros [v Hv]. exists (k, v). by rewrite elem_of_hash_iter.
Qed.
End iteration.

(** ** Key orders *)

(** The [Ord] of a key type is a total order, which [KeyOrdLaws] records; [Option]'s
    derived [Ord] puts [None] first, and slices compare lexicographically. *)
Class KeyOrdLaws (A : Type) `{KeyOrd A} := {
  key_leb_total : ∀ x y : A, key_leb x y = true ∨ key_leb y x = true;
  key_leb_antisym : ∀ x y : A, key_leb x y = true → key_leb y x = true → x = y;
  key_leb_trans : ∀ x y z : A, key_leb x y = true → key_leb y z = true → key_leb x z = true
}.

#[export] Instance option_KeyOrd {A} `{KeyOrd A} : KeyOrd (option A) := λ x y,
  match x, y with
  | None, _ => true
  | Some _, None => false
  | Some x, Some y => key_leb x y
  end.

Fixpoint list_leb {A} `{KeyOrd A} (l k : list A) : bool :=
  match l, k with
  | [], _ => true
  | _ :: _, [] => false
  | x :: l, y :: k => if key_leb x y then (if key_leb y x then list_leb l k else true) else false
  end.
#[export] Instance list_KeyOrd {A} `{KeyOrd A} : KeyOrd (list A) := list_leb.
#[export] Instance byte_KeyOrd : KeyOrd Byte.byte := λ x y, (Byte.to_N x <=? Byte.to_N y)%N.

#[export] Instance N_KeyOrdLaws : KeyOrdLaws N.
Proof. split; unfold key_leb, N_KeyOrd; intros *; rewrite ?N.leb_le; lia. Qed.

#[export] Instance Z_KeyOrdLaws : KeyOrdLaws Z.
Proof. split; unfold key_leb, Z_KeyOrd; intros *; rewrite ?Z.leb_le; lia. Qed.

#[export] Instance byte_KeyOrdLaws : KeyOrdLaws Byte.byte.
Proof.
  split; unfold key_leb, byte_KeyOrd; intros *; rewrite ?N.leb_le; try lia.
  intros ??. apply (inj Some). rewrite <- (Byte.of_to_N x), <- (Byte.of_to_N y). f_equal. lia.
Qed.

Lemma string_leb_cons a s b t :
  String.leb (String a s) (String b t) =
  match N.compare (Ascii.N_of_ascii a) (Ascii.N_of_ascii b) with
  | Lt => true | Eq => String.leb s t | Gt => false
  end.
Proof. unfold String.leb. simpl. unfold Ascii.compare. by destruct (N.compare _ _). Qed.

#[export] Instance string_KeyOrdLaws : KeyOrdLaws string.
Proof.
  split; unfold key_leb, string_KeyOrd.
  - apply String.leb_total.
  - apply String.leb_antisym.
  - induction x as [|a s IH]; intros [|b t] [|c u]; try done.
    rewrite !string_leb_cons.
    destruct (N.compare_spec (Ascii.N_of_ascii a) (Ascii.N_of_ascii b)),
      (N.compare_spec (Ascii.N_of_ascii b) (Ascii.N_of_ascii c)),
      (N.compare_spec (Ascii.N_of_ascii a) (Ascii.N_of_ascii c)); try done; try lia; eauto.
Qed.

#[export] Instance option_KeyOrdLaws {A} `{KeyOrdLaws A} : KeyOrdLaws (option A).
Proof.
  split; unfold key_leb, option_KeyOrd.
  - intros [x|] [y|]; auto. apply key_leb_total.
  - intros [x|] [y|]; try done. intros. f_equal. by apply key_leb_antisym.
  - intros [x|] [y|] [z|]; try done. apply key_leb_trans.
Qed.

(** Lexicographic comparison of a pair, with its second components compared by [b]. *)
Lemma lex_trans {A} `{KeyOrdLaws A} (x y z : A) (b c d : bool) :
  (b = true → c = true → d = true) →
  (if key_leb x y then if key_leb y x then b else true else false) = true →
  (if key_leb y z then if key_leb z y then c else true else false) = true →
  (if key_leb x z then if key_leb z x then d else true else false) = true.
Proof.
  intros Hd Hxy Hyz. destruct (key_leb x y) eqn:E1; [|done].
  destruct (key_leb y z) eqn:E2; [|done]. rewrite (key_leb_trans x y z) by done.
  destruct (key_leb z x) eqn:E3; [|done].
  rewrite (key_leb_trans y z x) in Hxy by done. rewrite (key_leb_trans z x y) in Hyz by done. auto.
Qed.

#[export] Instance prod_KeyOrdLaws {A B} `{KeyOrdLaws A, KeyOrdLaws B} : KeyOrdLaws (A * B).
Proof.
  split; unfold key_leb, prod_KeyOrd; intros [x1 x2] [y1 y2]; simpl.
  - destruct (key_leb x1 y1) eqn:E1, (key_leb y1 x1) eqn:E2; auto; [apply key_leb_total|].
    destruct (key_leb_total x1 y1); congruence.
  - destruct (key_leb x1 y1) eqn:E1, (key_leb y1 x1) eqn:E2; try done.
    intros. f_equal; by apply key_leb_antisym.
  - intros [z1 z2]; simpl. apply lex_trans, key_leb_trans.
Qed.

#[export] Instance list_KeyOrdLaws {A} `{KeyOrdLaws A} : KeyOrdLaws (list A).
Proof.
  split; unfold key_leb, list_KeyOrd.
  - induction x as [|x l IH]; intros [|y k]; simpl; auto.
    destruct (key_leb x y) eqn:E1, (key_leb y x) eqn:E2; auto.
    destruct (key_leb_total x y); congruence.
  - induction x as [|x l IH]; intros [|y k]; simpl; try done.
    destruct (key_leb x y) eqn:E1, (key_leb y x) eqn:E2; try done.
    intros. f_equal; [by apply key_leb_antisym|eauto].
  - induction x as [|x l IH]; intros [|y k] [|z j]; simpl; try done. apply lex_trans, IH.
Qed.

Lemma key_leb_refl {A} `{KeyOrdLaws A} (x : A) : key_leb x x = true.
Proof. by destruct (key_leb_total x x). Qed.

#[export] Instance key_le_Transitive {A} `{KeyOrdLaws A} : Transitive (key_le (A:=A)).
Proof. intros x y z. apply key_leb_trans. Qed.
#[export] Instance key_le_Total {A} `{KeyOrdLaws A} : Total (key_le (A:=A)).
Proof. intros x y. apply key_leb_total. Qed.
#[export] Instance entry_le_Transitive {A V} `{KeyOrdLaws A} : Transitive (entry_le (A:=A) (V:=V)).
Proof. intros x y z. apply key_leb_trans. Qed.
#[export] Instance entry_le_Total {A V} `{KeyOrdLaws A} : Total (entry_le (A:=A) (V:=V)).
Proof. intros x y. apply key_leb_total. Qed.

Lemma btree_iter_sorted {K V} `{Countable K, !KeyOrd K, !KeyOrdLaws K} (m : gmap K V) :
  StronglySorted entry_le (btree_iter m).
Proof. apply StronglySorted_merge_sort; apply _. Qed.

(** ** Automation *)

Create HintDb dora.
Create Rewrite HintDb dora_rw.
#[export] Hint Resolve NoDup_btree_elems NoDup_btree_keys NoDup_hash_keys : dora.
#[export] Hint Rewrite @elem_of_btree_elems @elem_of_btree_keys @elem_of_hash_keys
  using typeclasses eauto : dora_rw.

(** Inverts a successful chain of binds. *)
Ltac res_inv H :=
  repeat match type of H with
  | (_ ≫= _) = Ok _ => apply res_bind_Ok in H as (? & ? & H); cbv beta iota in H
  | (let '(_, _) := ?p in _) = Ok _ => destruct p; cbv beta iota in H
  end.

(** Case analysis on every [match] or [if] of the goal, closing trivial branches. *)
Ltac break_match :=
  match goal with
  | |- context [match ?x with _ => _ end] => destruct x eqn:?
  end.
Ltac break_match_in H :=
  match type of H with
  | context [match ?x with _ => _ end] => destruct x eqn:?
  end.
Ltac break_all := repeat (break_match; simplify_eq/=; try done).

(** Splits a lookup in an updated map on equality of the keys. *)
Ltac map_cases :=
  repeat match goal with
  | |- context [<[?i:=_]> _ !! ?j] =>
      destruct (decide (i = j)); [subst; rewrite ?lookup_insert_eq | rewrite ?lookup_insert_ne by done]
  | |- context [delete ?i _ !! ?j] =>
      destruct (decide (i = j)); [subst; rewrite ?lookup_delete_eq | rewrite ?lookup_delete_ne by done]
  end.

(** ** Lists *)

(** Index of the first element satisfying a boolean test ([Iterator::position]). *)
Fixpoint position {A} (p : A → bool) (l : list A) : option nat :=
  match l with
  | [] => None
  | x :: l => if p x then Some O else S <$> position p l
  end.

(** [Vec::remove]/[VecDeque::remove] of one index. *)
Definition remove_at {A} (i : nat) (l : list A) : list A := take i l ++ drop (S i) l.

(** [retain]/[Iterator::filter] with a boolean test. *)
Definition retain {A} (p : A → bool) (l : list A) : list A := filter (λ x, p x = true) l.

(** [Iterator::take_while] and [BTreeMap::range(start..)]. *)
Fixpoint take_while {A} (p : A → bool) (l : list A) : list A :=
  match l with
  | [] => []
  | x :: l => if p x then x :: take_while p l else []
  end.
Definition btree_range_from {K V} `{Countable K, !KeyOrd K} (start : K) (m : gmap K V)
    : list (K * V) :=
  retain (λ e, key_leb start e.1) (btree_iter m).

Section lists.
Context {A : Type}.
Implicit Types (l : list A) (p : A → bool).

Lemma position_Some p l i :
  position p l = Some i →
  ∃ x, l !! i = Some x ∧ p x = true ∧ Forall (λ y, p y = false) (take i l).
Proof.
  revert i. induction l as [|x l IH]; intros i; [done|]. simpl.
  destruct (p x) eqn:Hx.
  - intros [= <-]. exists x. split_and!; done || constructor.
  - destruct (position p l) as [j|]; [|done]. intros [= <-].
    destruct (IH j eq_refl) as (y & ? & ? & ?). exists y. simpl. auto.
Qed.

Lemma position_None p l : position p l = None ↔ Forall (λ y, p y = false) l.
Proof.
  induction l as [|x l IH]; simpl; [by split|].
  destruct (p x) eqn:Hx; rewrite Forall_cons; [naive_solver congruence|].
  destruct (position p l); simpl; naive_solver.
Qed.

Lemma length_remove_at l i : i < length l → S (length (remove_at i l)) = length l.
Proof. intros. unfold remove_at. rewrite length_app, length_take, length_drop. lia. Qed.

Lemma remove_at_sublist l i : remove_at i l `sublist_of` l.
Proof.
  unfold remove_at. rewrite <- (take_drop i l) at 3.
  apply sublist_app; [done|].
  replace (drop (S i) l) with (drop 1 (drop i l)) by (rewrite drop_drop; f_equal; lia).
  apply sublist_drop.
Qed.

Lemma remove_at_split l i x :
  l !! i = Some x → l = take i l ++ x :: drop (S i) l.
Proof. intros. by rewrite <- drop_S, take_drop. Qed.

Lemma retain_app p l k : retain p (l ++ k) = retain p l ++ retain p k.
Proof. apply filter_app. Qed.

Lemma retain_retain p l : retain p (retain p l) = retain p l.
Proof.
  unfold retain. rewrite list_filter_filter. apply list_filter_iff. naive_solver.
Qed.

Lemma Exists_singleton (P : A → Prop) x : Exists P [x] → P x.
Proof. rewrite Exists_cons, Exists_nil. tauto. Qed.

Lemma retain_singleton_false p x : p x = false → retain p [x] = [].
Proof. intros Hp. unfold retain. rewrite filter_cons_False by congruence. done. Qed.

Lemma length_retain p l : length (retain p l) ≤ length l.
Proof. apply length_filter. Qed.

Lemma Forall_retain (P : A → Prop) p l : Forall P l → Forall P (retain p l).
Proof.
  rewrite !Forall_forall. intros HP x Hx. apply list_elem_of_filter in Hx as [_ Hx]. auto.
Qed.

Lemma retain_remove_at p l i x :
  l !! i = Some x → p x = false → retain p (remove_at i l) = retain p l.
Proof.
  intros Hi Hp. rewrite (remove_at_split _ _ _ Hi) at 2.
  unfold remove_at. rewrite !retain_app. unfold retain at 4. rewrite filter_cons.
  rewrite decide_False by congruence. done.
Qed.

Lemma take_while_all p l : Forall (λ x, p x = true) l → take_while p l = l.
Proof. induction 1 as [|x l Hx _ IH]; [done|]. simpl. by rewrite Hx, IH. Qed.

Lemma retain_cons p x l : retain p (x :: l) = if p x then x :: retain p l else retain p l.
Proof. unfold retain. rewrite filter_cons. case_decide; destruct (p x); done. Qed.

Lemma elem_of_retain p l x : x ∈ retain p l ↔ p x = true ∧ x ∈ l.
Proof. unfold retain. by rewrite list_elem_of_filter. Qed.

Lemma retain_none p l : Forall (λ x, p x = false) l → retain p l = [].
Proof. induction 1 as [|x l Hx _ IH]; [done|]. by rewrite retain_cons, Hx. Qed.

Lemma retain_ext p q l : (∀ x, x ∈ l → p x = q x) → retain p l = retain q l.
Proof.
  induction l as [|x l IH]; intros Heq; [done|].
  rewrite !retain_cons, Heq by constructor. rewrite IH; [done|].
  intros y Hy. apply Heq. by constructor.
Qed.
End lists.

Lemma filter_all {A} (P : A → Prop) `{∀ x, Decision (P x)} l : Forall P l → filter P l = l.
Proof. induction 1 as [|x l Hx _ IH]; [done|]. rewrite filter_cons, decide_True by done. by rewrite IH. Qed.

Lemma mapM_res_Forall2 {A B} (f : A → res B) l k :
  mapM f l = Ok k ↔ Forall2 (λ x y, f x = Ok y) l k.
Proof.
  revert k. induction l as [|x l IH]; intros k; cbn.
  - split; [intros [= <-]; constructor|]. by inversion 1.
  - rewrite res_bind_Ok. setoid_rewrite res_bind_Ok. split.
    + intros (y & Hy & k' & Hk & [= <-]). constructor; [done|]. by apply IH.
    + inversion 1 as [|? y ? k' Hy Hk]; subst. exists y. split; [done|]. exists k'.
      split; [by apply IH|done].
Qed.

(** A scan of a sorted sequence from [start] on that stops at the first entry outside a
    block finds the whole block, when the block starts at [start] and nothing outside it
    that follows [start] precedes a part of it. *)
Lemma scan_block {K V} `{Countable K, !KeyOrd K, !KeyOrdLaws K} (p : K → bool) start (m : gmap K V) :
  (∀ k, p k = true → key_leb start k = true) →
  (∀ k k', key_leb start k = true → p k = false → key_leb k k' = true → p k' = false) →
  take_while (λ e, p e.1) (btree_range_from start m) = retain (λ e, p e.1) (btree_iter m).
Proof.
  intros Hstart Hblock. unfold btree_range_from.
  induction (btree_iter_sorted m) as [|e l Hl IH He]; [done|]. rewrite !retain_cons.
  destruct (key_leb start e.1) eqn:Es; simpl.
  - destruct (p e.1) eqn:Ep; [by rewrite IH|]. symmetry. apply retain_none.
    eapply Forall_impl; [exact He|]. intros e' He'. by apply (Hblock e.1).
  - destruct (p e.1) eqn:Ep; [|done]. rewrite Hstart in Es; done.
Qed.
