(* ===== verification/Message.v ===== *)
(** * The message crate: identifiers, metadata, node events, input configuration

    Models [libraries/message/src/{id,metadata,config,common,daemon_to_node}.rs].
    Identifiers are byte strings; [f64] values are kept as their 64-bit pattern;
    JSON values ([serde_json::Value]) are kept as their text, since the modelled
    code only forwards them.  Arrow type information and HLC timestamps are
    carried by no decision of the modelled code and are left out. *)

From Stdlib Require Import ZArith Lia Ascii.
From stdpp Require Import base gmap list strings pretty.
From S2P Require Import Prelude.

(** ** Identifier validation (id.rs) *)

Definition is_ascii_alphanumeric (c : ascii) : bool :=
  let n := N_of_ascii c in
  ((48 <=? n) && (n <=? 57) || (65 <=? n) && (n <=? 90) || (97 <=? n) && (n <=? 122))%N.

Definition node_id_char (c : ascii) : bool :=
  is_ascii_alphanumeric c || bool_decide (c = "_"%char) || bool_decide (c = "-"%char)
  || bool_decide (c = "."%char).

Definition data_id_char (c : ascii) : bool :=
  node_id_char c || bool_decide (c = "/"%char).

Fixpoint string_forall (p : ascii → bool) (s : string) : bool :=
  match s with
  | EmptyString => true
  | String c s => p c && string_forall p s
  end.

Definition validate_node_id (id : string) : res unit :=
  if bool_decide (id = "") then Err "identifier must not be empty"
  else if negb (string_forall node_id_char id)
  then Err "identifier contains invalid character"
  else Ok tt.

(** [id.starts_with('/') || id.ends_with('/') || id.contains("//")] in one scan;
    [after_slash] says that the previous byte was a slash (or that the scan is at
    the start of the string). *)
Fixpoint has_empty_segment (after_slash : bool) (s : string) : bool :=
  match s with
  | EmptyString => after_slash
  | String c s =>
      if bool_decide (c = "/"%char) then after_slash || has_empty_segment true s
      else has_empty_segment false s
  end.

Definition validate_data_id (id : string) : res unit :=
  if bool_decide (id = "") then Err "identifier must not be empty"
  else if negb (string_forall data_id_char id)
  then Err "identifier contains invalid character"
  else if has_empty_segment true id
  then Err "identifier has empty path segment"
  else Ok tt.

(** [impl From<String> for NodeId] and [for DataId] panic on an invalid string. *)
Definition node_id_from (s : string) : res NodeId :=
  match validate_node_id s with Ok _ => Ok s | _ => Panic end.
Definition data_id_from (s : string) : res DataId :=
  match validate_data_id s with Ok _ => Ok s | _ => Panic end.

(** ** Metadata (metadata.rs) *)

Inductive ParameterValue :=
| PBool (b : bool)
| PInteger (n : Z)
| PString (s : string)
| PListInt (l : list Z)
| PFloat (bits : Z)
| PListFloat (l : list Z)
| PListString (l : list string)
| PTimestamp (nanos : Z).

Record Metadata := mkMetadata { parameters : gmap string ParameterValue }.

Definition get_string_param (ps : gmap string ParameterValue) (key : string) : option string :=
  match ps !! key with Some (PString s) => Some s | _ => None end.
Definition get_bool_param (ps : gmap string ParameterValue) (key : string) : option bool :=
  match ps !! key with Some (PBool b) => Some b | _ => None end.

Definition REQUEST_ID : string := "request_id".
Definition GOAL_ID : string := "goal_id".
Definition GOAL_STATUS : string := "goal_status".
Definition FLUSH : string := "flush".

Definition contains_key {V} (ps : gmap string V) (key : string) : bool :=
  match ps !! key with Some _ => true | None => false end.

(** ** Data messages and node events (common.rs, daemon_to_node.rs) *)

Inductive DataMessage :=
| DMVec (bytes : list Byte.byte)
| DMSharedMemory (shared_memory_id : string) (len : Z) (token : DropToken).

Definition drop_token (d : DataMessage) : option DropToken :=
  match d with DMVec _ => None | DMSharedMemory _ _ t => Some t end.

Inductive NodeEvent :=
| Stop
| Reload (operator_id : option OperatorId)
| Input (id : DataId) (metadata : Metadata) (data : option DataMessage)
| InputClosed (id : DataId)
| InputRecovered (id : DataId)
| NodeRestarted (id : NodeId)
| AllInputsClosed
| ParamUpdate (key : string) (value : string)
| ParamDeleted (key : string)
| NodeFailed (affected_input_ids : list DataId) (error : string) (source_node_id : NodeId).

Inductive NodeDropEvent :=
| OutputDropped (token : DropToken).

#[export] Instance ParameterValue_eq_dec : EqDecision ParameterValue.
Proof. solve_decision. Defined.
#[export] Instance Metadata_eq_dec : EqDecision Metadata.
Proof. solve_decision. Defined.
#[export] Instance byte_eq_dec : EqDecision Byte.byte := Byte.byte_eq_dec.
#[export] Instance DataMessage_eq_dec : EqDecision DataMessage.
Proof. solve_decision. Defined.
#[export] Instance NodeEvent_eq_dec : EqDecision NodeEvent.
Proof. solve_decision. Defined.
#[export] Instance NodeDropEvent_eq_dec : EqDecision NodeDropEvent.
Proof. solve_decision. Defined.

(** ** Exit status and error cause of a node (common.rs) *)

Inductive NodeExitStatus :=
| ExitSuccess
| IoError (msg : string)
| ExitCode (code : Z)
| Signal (signal : Z)
| UnknownExit.

Definition is_success (s : NodeExitStatus) : bool :=
  match s with ExitSuccess => true | _ => false end.

Inductive NodeErrorCause :=
| GraceDuration
| Cascading (caused_by_node : NodeId)
| FailedToSpawn (msg : string)
| OtherCause (stderr : list string).

Record NodeError := mkNodeError { cause : NodeErrorCause; exit_status : NodeExitStatus }.

(** ** Restart and queue policies (descriptor.rs, config.rs) *)

Inductive RestartPolicy := Never | OnFailure | Always.
Inductive QueuePolicy := DropOldest | Backpressure.
#[export] Instance QueuePolicy_eq_dec : EqDecision QueuePolicy.
Proof. solve_decision. Defined.

Definition DEFAULT_QUEUE_SIZE : Z := 10.

Definition effective_cap (p : QueuePolicy) (queue_size : Z) : Z :=
  match p with
  | DropOldest => queue_size
  | Backpressure => Z.max (saturating_mul queue_size 10) 100
  end.

Lemma effective_cap_pos p n : (1 ≤ n)%Z → (1 ≤ effective_cap p n)%Z.
Proof. destruct p; simpl; unfold saturating_mul, u64_max; lia. Qed.

(** ** Log levels (common.rs)

    [log::Level] orders [Error < Warn < Info < Debug < Trace]. *)

Inductive LogLevel := LError | LWarn | LInfo | LDebug | LTrace.
Definition level_rank (l : LogLevel) : Z :=
  match l with LError => 1 | LWarn => 2 | LInfo => 3 | LDebug => 4 | LTrace => 5 end.

Inductive LogLevelOrStdout := LStdout | LLevel (l : LogLevel).
#[export] Instance LogLevel_eq_dec : EqDecision LogLevel.
Proof. solve_decision. Defined.
#[export] Instance LogLevelOrStdout_eq_dec : EqDecision LogLevelOrStdout.
Proof. solve_decision. Defined.

Definition passes (self min : LogLevelOrStdout) : bool :=
  match self, min with
  | LStdout, LStdout => true
  | LStdout, _ => false
  | LLevel _, LStdout => true
  | LLevel msg, LLevel max => (level_rank msg <=? level_rank max)%Z
  end.

(** ** Durations from [f64] seconds

    [Duration::from_secs_f64] on the bit pattern of its argument: it panics on a
    negative, infinite, NaN or too large value and otherwise rounds to the nearest
    nanosecond, ties to even. *)

(** Round-half-even of [n / d], for [0 <= n] and [0 < d]. *)
Definition div_round_even (n d : Z) : Z :=
  let q := (n / d)%Z in
  let r := (n mod d)%Z in
  if (2 * r <? d)%Z then q
  else if (d <? 2 * r)%Z then (q + 1)%Z
  else if Z.even q then q else (q + 1)%Z.

Definition duration_from_secs_f64 (bits : Z) : res Duration :=
  let negative := Z.testbit bits 63 in
  let magnitude := Z.land bits (2 ^ 63 - 1) in
  let mant := Z.lor (Z.land bits (2 ^ 52 - 1)) (2 ^ 52) in
  let exp := (Z.land (Z.shiftr bits 52) (2 ^ 11 - 1) - 1023)%Z in
  if ((2 ^ 11 - 1) * 2 ^ 52 <? magnitude)%Z then Panic (* NaN *)
  else if negative && negb (magnitude =? 0)%Z then Panic
  else if (exp <? -31)%Z then Ok 0%Z
  else if (exp <? 64)%Z then
    (* value = mant * 2^(exp - 52) seconds *)
    Ok (if (exp <? 52)%Z
        then div_round_even (mant * 1000000000) (2 ^ (52 - exp))
        else mant * 2 ^ (exp - 52) * 1000000000)%Z
  else Panic.

(** ** Input mappings and input configuration (config.rs) *)

Record LogSubscriptionFilter := mkLogFilter {
  min_level : option LogLevelOrStdout;
  node_filter : option NodeId
}.
Record UserInputMapping := mkUserMapping { source : NodeId; output : DataId }.

Inductive InputMapping :=
| MTimer (interval : Duration)
| MLogs (filter : LogSubscriptionFilter)
| MUser (mapping : UserInputMapping).

#[export] Instance LogSubscriptionFilter_eq_dec : EqDecision LogSubscriptionFilter.
Proof. solve_decision. Defined.
#[export] Instance UserInputMapping_eq_dec : EqDecision UserInputMapping.
Proof. solve_decision. Defined.
#[export] Instance InputMapping_eq_dec : EqDecision InputMapping.
Proof. solve_decision. Defined.

(** [config::Input]; [input_timeout] is the bit pattern of the [f64]. *)
Record InputConfig := mkInputConfig {
  mapping : InputMapping;
  queue_size : option Z;
  input_timeout : option Z;
  queue_policy : option QueuePolicy
}.

Inductive InputDef :=
| MappingOnly (m : InputMapping)
| WithOptions (m : InputMapping) (size : option Z) (timeout : option Z)
              (policy : option QueuePolicy).

Definition input_to_def (input : InputConfig) : InputDef :=
  match queue_size input, input_timeout input, queue_policy input with
  | None, None, None => MappingOnly (mapping input)
  | size, timeout, policy => WithOptions (mapping input) size timeout policy
  end.

Definition input_of_def (value : InputDef) : InputConfig :=
  match value with
  | MappingOnly m => mkInputConfig m None None None
  | WithOptions m size timeout policy => mkInputConfig m size timeout policy
  end.

Lemma input_def_roundtrip input : input_of_def (input_to_def input) = input.
Proof. by destruct input as [? [] [] []]. Qed.

(** ** Display of a node error (common.rs) *)

Definition newline : string := String (ascii_of_nat 10) EmptyString.

(** [str::trim_end] on the reversed bytes: strips the UTF-8 encodings of the characters
    with the Unicode property White_Space. *)
Fixpoint trim_start_rev (fuel : nat) (l : list N) : list N :=
  match fuel with
  | O => l
  | S fuel =>
      match l with
      | (9 | 10 | 11 | 12 | 13 | 32) :: l => trim_start_rev fuel l
      | (133 | 160) :: 194 :: l => trim_start_rev fuel l
      | 128 :: 154 :: 225 :: l => trim_start_rev fuel l
      | c :: 128 :: 226 :: l' =>
          if (128 <=? c) && (c <=? 138) || (c =? 168) || (c =? 169) || (c =? 175)
          then trim_start_rev fuel l' else l
      | 159 :: 129 :: 226 :: l => trim_start_rev fuel l
      | 128 :: 128 :: 227 :: l => trim_start_rev fuel l
      | _ => l
      end
  end%N.

Definition trim_end (s : string) : string :=
  let l := rev (N_of_ascii <$> String.list_ascii_of_string s) in
  String.string_of_list_ascii (ascii_of_N <$> rev (trim_start_rev (length l) l)).

Definition signal_name (signal : Z) : string :=
  match signal with
  | 1 => "SIGHUP" | 2 => "SIGINT" | 3 => "SIGQUIT" | 4 => "SIGILL" | 6 => "SIGABRT"
  | 8 => "SIGFPE" | 9 => "SIGKILL" | 11 => "SIGSEGV" | 13 => "SIGPIPE" | 14 => "SIGALRM"
  | 15 => "SIGTERM" | 22 => "SIGABRT" | 23 => "NSIG"
  | other => pretty other
  end%Z.

Definition display_exit_status (e : NodeError) : string :=
  match exit_status e with
  | ExitSuccess => "<success>"
  | IoError err => String.append "I/O error while reading exit status: " err
  | ExitCode code => String.append "exited with code " (pretty code)
  | Signal signal =>
      match cause e with
      | GraceDuration =>
          String.concat EmptyString
            ["node was killed by dora because it didn't react to a stop message in time (";
             signal_name signal; ")"]
      | _ => String.append "exited because of signal " (signal_name signal)
      end
  | UnknownExit => "unknown exit status"
  end.

Definition separator_line : string :=
  String.append
    "---------------------------------------------------------------------------------" newline.

Definition display_node_error (e : NodeError) : string :=
  match cause e with
  | FailedToSpawn err => String.append "failed to spawn node: " err
  | GraceDuration => display_exit_status e
  | Cascading caused_by_node =>
      String.concat EmptyString
        [display_exit_status e; ". This error occurred because node `"; caused_by_node;
         "` exited before connecting to dora."]
  | OtherCause lines =>
      let stderr := String.concat EmptyString lines in
      if bool_decide (stderr = EmptyString) then display_exit_status e
      else String.concat EmptyString
             [display_exit_status e; " with stderr output:"; newline; separator_line;
              trim_end stderr; newline; separator_line]
  end.

(** ** Daemon identifiers (common.rs) *)

Record DaemonId := mkDaemonId { machine_id : option string; daemon_uuid : Uuid }.
#[export] Instance DaemonId_eq_dec : EqDecision DaemonId.
Proof. solve_decision. Defined.
#[export] Instance DaemonId_countable : Countable DaemonId :=
  inj_countable' (λ d, (machine_id d, daemon_uuid d)) (λ p, mkDaemonId p.1 p.2)
    (λ d, match d with mkDaemonId _ _ => eq_refl end).
(** The derived [Ord]: by machine, then by UUID. *)
#[export] Instance DaemonId_KeyOrd : KeyOrd DaemonId := λ x y,
  key_leb (machine_id x, daemon_uuid x) (machine_id y, daemon_uuid y).
Lemma DaemonId_leb (x y : DaemonId) :
  key_leb x y = key_leb (machine_id x, daemon_uuid x) (machine_id y, daemon_uuid y).
Proof. done. Qed.
#[export] Instance DaemonId_KeyOrdLaws : KeyOrdLaws DaemonId.
Proof.
  split; intros x y; rewrite ?DaemonId_leb.
  - apply key_leb_total.
  - intros Hxy Hyx. pose proof (key_leb_antisym _ _ Hxy Hyx). destruct x, y. by simplify_eq/=.
  - intros z. rewrite !DaemonId_leb. apply key_leb_trans.
Qed.

Definition matches_machine_id (self : DaemonId) (machine : string) : bool :=
  match machine_id self with Some id => bool_decide (id = machine) | None => false end.

(** ** State catch-up (coordinator_to_daemon.rs) *)

Inductive StateCatchUpOperation :=
| CatchUpSetParam (node_id : NodeId) (key value : string)
| CatchUpDeleteParam (node_id : NodeId) (key : string).

Record StateCatchUpEntry := mkCatchUpEntry { sequence : Z; operation : StateCatchUpOperation }.
