(* ===== verification/Scheduler.v ===== *)
(** * The node-side event scheduler

    Models [apis/rust/node/src/event_stream/scheduler.rs]: one bounded FIFO queue
    per input id, a priority queue for non-input events, least-recently-used
    selection between inputs, and the eviction rule that protects events carrying
    request/goal correlation metadata. *)

From Stdlib Require Import ZArith Lia.
From stdpp Require Import base gmap list strings.
From S2P Require Import Prelude Message.

(** ** Data *)

(** [EventItem] (thread.rs).  An ack channel is a handle; error reports are their
    text; a Zenoh payload is its bytes. *)
Inductive EventItem :=
| ItemNodeEvent (event : NodeEvent) (ack_channel : N)
| ItemZenohInput (id : DataId) (metadata : Metadata) (payload : list Byte.byte)
| ItemFatalError (report : string)
| ItemTimeoutError (report : string).

Definition NON_INPUT_EVENT : DataId := "dora.non_input_event".

Record Scheduler := mkScheduler {
  last_used : list DataId;
  event_queues : gmap DataId (Z * list EventItem);
  queue_policies : gmap DataId QueuePolicy;
  dropped : gmap DataId Z
}.

Inductive Eviction := RemoveAt (idx : nat) | DropIncoming | DropFrontLoud.

(** ** Operations *)

Definition is_correlated (event : EventItem) : bool :=
  match event with
  | ItemNodeEvent (Input _ metadata _) _ | ItemZenohInput _ metadata _ =>
      contains_key (parameters metadata) REQUEST_ID
      || contains_key (parameters metadata) GOAL_ID
      || contains_key (parameters metadata) GOAL_STATUS
  | _ => false
  end.

Definition select_eviction (queue : list EventItem) (incoming : EventItem) : Eviction :=
  match position (λ e, negb (is_correlated e)) queue with
  | Some idx => RemoveAt idx
  | None => if negb (is_correlated incoming) then DropIncoming else DropFrontLoud
  end.

Definition with_policies `{HashOrder} (queues : gmap DataId (Z * list EventItem))
    (policies : gmap DataId QueuePolicy) : Scheduler :=
  {| last_used := retain (λ t, negb (bool_decide (t = NON_INPUT_EVENT))) (hash_keys queues);
     event_queues := queues;
     queue_policies := policies;
     dropped := ∅ |}.

Definition drain_drop_counts (s : Scheduler) : gmap DataId Z * Scheduler :=
  (dropped s, {| last_used := last_used s; event_queues := event_queues s;
                 queue_policies := queue_policies s; dropped := ∅ |}).

(** The queue an event belongs to, and whether it asks for a flush. *)
Definition event_key (event : EventItem) : DataId :=
  match event with
  | ItemNodeEvent (Input id _ _) _ | ItemZenohInput id _ _ => id
  | _ => NON_INPUT_EVENT
  end.

Definition should_flush (event : EventItem) : bool :=
  match event with
  | ItemNodeEvent (Input _ metadata _) _ | ItemZenohInput _ metadata _ =>
      bool_decide (get_bool_param (parameters metadata) FLUSH = Some true)
  | _ => false
  end.

(** The eviction and the final [push_back], for a queue of capacity [cap]; the
    boolean says whether a drop is counted. *)
Definition push_bounded (cap : Z) (queue : list EventItem) (event : EventItem)
    : bool * list EventItem :=
  if (cap <=? Z.of_nat (length queue))%Z then
    match select_eviction queue event with
    | RemoveAt idx => (true, remove_at idx queue ++ [event])
    | DropIncoming => (true, queue)
    | DropFrontLoud => (true, tail queue ++ [event])
    end
  else (false, queue ++ [event]).

Definition add_event (s : Scheduler) (event : EventItem) : Scheduler :=
  let event_id := event_key event in
  (* flush stale events of this input, keeping correlated ones *)
  let queues :=
    if should_flush event then
      alter (λ '(size, queue), (size, retain is_correlated queue)) event_id (event_queues s)
    else event_queues s in
  (* entry(event_id).or_insert_with(..) *)
  let '(lru, size, queue) :=
    match queues !! event_id with
    | Some (size, queue) => (last_used s, size, queue)
    | None => (last_used s ++ [event_id], DEFAULT_QUEUE_SIZE, [])
    end in
  let policy := default DropOldest (queue_policies s !! event_id) in
  let '(drop, queue') := push_bounded (effective_cap policy size) queue event in
  {| last_used := lru;
     event_queues := <[event_id := (size, queue')]> queues;
     queue_policies := queue_policies s;
     dropped := if drop
                then <[event_id := (default 0 (dropped s !! event_id) + 1)%Z]> (dropped s)
                else dropped s |}.

(** The [for (index, id) in self.last_used.clone().iter().enumerate()] loop: the
    first id whose queue is not empty, with its index, size, head and tail. *)
Fixpoint scan_queues (queues : gmap DataId (Z * list EventItem)) (index : nat)
    (ids : list DataId) : option (nat * DataId * Z * EventItem * list EventItem) :=
  match ids with
  | [] => None
  | id :: ids =>
      match queues !! id with
      | Some (size, event :: queue) => Some (index, id, size, event, queue)
      | _ => scan_queues queues (S index) ids
      end
  end.

Definition next (s : Scheduler) : option EventItem * Scheduler :=
  match event_queues s !! NON_INPUT_EVENT with
  | Some (size, event :: queue) =>
      (Some event, {| last_used := last_used s;
                      event_queues := <[NON_INPUT_EVENT := (size, queue)]> (event_queues s);
                      queue_policies := queue_policies s; dropped := dropped s |})
  | _ =>
      match scan_queues (event_queues s) 0 (last_used s) with
      | Some (index, id, size, event, queue) =>
          (Some event, {| last_used := remove_at index (last_used s) ++ [id];
                          event_queues := <[id := (size, queue)]> (event_queues s);
                          queue_policies := queue_policies s; dropped := dropped s |})
      | None => (None, s)
      end
  end.

Definition is_empty (s : Scheduler) : bool :=
  forallb (λ '(_, (_, queue)), bool_decide (queue = [])) (map_to_list (event_queues s)).

(** ** The scheduler's queue configuration (EventStream::init) *)

Definition init_scheduler `{HashOrder} (input_config : gmap DataId InputConfig) : Scheduler :=
  let queue_size_limit :=
    (λ config, (default DEFAULT_QUEUE_SIZE (queue_size config), [])) <$> input_config in
  let queue_size_limit := <[NON_INPUT_EVENT := (1000%Z, [])]> queue_size_limit in
  let queue_policies := omap queue_policy input_config in
  with_policies queue_size_limit queue_policies.

(** ** Sequences of operations *)

Inductive op := OpAdd (event : EventItem) | OpNext | OpDrain.

Definition step (s : Scheduler) (o : op) : option EventItem * Scheduler :=
  match o with
  | OpAdd event => (None, add_event s event)
  | OpNext => next s
  | OpDrain => (None, (drain_drop_counts s).2)
  end.

(** Events yielded by a run, oldest first, and the final state. *)
Fixpoint run (s : Scheduler) (ops : list op) : list EventItem * Scheduler :=
  match ops with
  | [] => ([], s)
  | o :: ops =>
      let '(out, s1) := step s o in
      let '(outs, s2) := run s1 ops in
      (option_list out ++ outs, s2)
  end.

(** ** Invariant *)

Definition queue_cap (s : Scheduler) (id : DataId) (size : Z) : Z :=
  effective_cap (default DropOldest (queue_policies s !! id)) size.

Record wf (s : Scheduler) : Prop := {
  wf_nodup : NoDup (last_used s);
  wf_control : is_Some (event_queues s !! NON_INPUT_EVENT);
  wf_lru : ∀ id, id ∈ last_used s ↔ id ≠ NON_INPUT_EVENT ∧ is_Some (event_queues s !! id);
  wf_keyed : ∀ id size queue, event_queues s !! id = Some (size, queue) →
    Forall (λ e, event_key e = id) queue;
  wf_bounded : ∀ id size queue, event_queues s !! id = Some (size, queue) →
    (Z.of_nat (length queue) ≤ Z.max 1 (queue_cap s id size))%Z
}.

Definition queued (s : Scheduler) (id : DataId) : list EventItem :=
  match event_queues s !! id with Some (_, queue) => queue | None => [] end.

(** ** Lemmas on the queue primitives *)

Lemma push_bounded_length cap queue event :
  (Z.of_nat (length queue) ≤ Z.max 1 cap)%Z →
  (Z.of_nat (length (push_bounded cap queue event).2) ≤ Z.max 1 cap)%Z.
Proof.
  intros Hlen. unfold push_bounded, select_eviction.
  destruct (Z.leb_spec cap (Z.of_nat (length queue))) as [Hfull|Hroom]; simpl.
  - destruct (position _ queue) as [idx|] eqn:Hpos; simpl.
    + apply position_Some in Hpos as (x & Hx & _). apply lookup_lt_Some in Hx.
      rewrite length_app. simpl. pose proof (length_remove_at queue idx Hx). lia.
    + destruct (is_correlated event); simpl; [|done].
      rewrite length_app. simpl. destruct queue; simpl in *; lia.
  - rewrite length_app. simpl. lia.
Qed.

Lemma push_bounded_Forall (P : EventItem → Prop) cap queue event :
  Forall P queue → P event → Forall P (push_bounded cap queue event).2.
Proof.
  intros Hq He. unfold push_bounded. repeat case_match; simpl;
    rewrite ?Forall_app, ?Forall_singleton; try done; split; try done.
  - unfold remove_at. rewrite Forall_app. auto using Forall_take, Forall_drop.
  - destruct queue; [done|]. by inv Hq.
Qed.

(** A queue with room for one event never becomes empty by an insertion. *)
Lemma push_bounded_nonempty cap queue event :
  (1 ≤ cap)%Z → (push_bounded cap queue event).2 ≠ [].
Proof.
  intros Hcap. unfold push_bounded.
  destruct (Z.leb_spec cap (Z.of_nat (length queue))); [|by destruct queue].
  destruct (select_eviction queue event); simpl.
  - by destruct (remove_at idx queue).
  - destruct queue; [simpl in *; lia|done].
  - by destruct (tail queue).
Qed.

(** Eviction spares correlated events whenever an uncorrelated one can be given up. *)
Lemma push_bounded_correlated cap queue event :
  (Z.of_nat (length queue) < cap)%Z
    ∨ Exists (λ e, is_correlated e = false) (queue ++ [event]) →
  retain is_correlated (push_bounded cap queue event).2 =
    retain is_correlated (queue ++ [event]).
Proof.
  intros Hspare. unfold push_bounded.
  destruct (Z.leb_spec cap (Z.of_nat (length queue))) as [Hfull|]; [|done].
  destruct Hspare as [?|Hspare]; [lia|]. unfold select_eviction.
  destruct (position _ queue) as [idx|] eqn:Hpos; simpl.
  - apply position_Some in Hpos as (x & Hx & Hxc & _). apply negb_true_iff in Hxc.
    rewrite !retain_app. f_equal. by eapply retain_remove_at.
  - apply position_None in Hpos.
    assert (is_correlated event = false) as Hev.
    { apply Exists_app in Hspare as [Hq|Hq]; [|by apply Exists_singleton in Hq].
      apply Exists_exists in Hq as (y & Hy & Hyc).
      rewrite Forall_forall in Hpos. specialize (Hpos y Hy). simpl in Hpos.
      by rewrite Hyc in Hpos. }
    rewrite Hev. simpl. by rewrite retain_app, (retain_singleton_false _ _ Hev), app_nil_r.
Qed.

Lemma scan_queues_Some queues index ids j id size event queue :
  scan_queues queues index ids = Some (j, id, size, event, queue) →
  ∃ k, j = index + k ∧ ids !! k = Some id ∧ queues !! id = Some (size, event :: queue) ∧
    Forall (λ i, match queues !! i with Some (_, _ :: _) => False | _ => True end) (take k ids).
Proof.
  revert index. induction ids as [|i ids IH]; intros index; simpl; [done|].
  destruct (queues !! i) as [[sz [|e q]]|] eqn:Hi; intros Hs.
  2: { simplify_eq. exists 0. rewrite Nat.add_0_r. split_and!; done || constructor. }
  all: apply IH in Hs as (k & -> & Hk & Hq & Hall); exists (S k); simpl;
    (split_and!; [lia|done|done|]); rewrite Forall_cons, Hi; done.
Qed.

Lemma scan_queues_None queues index ids :
  scan_queues queues index ids = None →
  Forall (λ i, match queues !! i with Some (_, _ :: _) => False | _ => True end) ids.
Proof.
  revert index. induction ids as [|i ids IH]; intros index; simpl; [done|].
  destruct (queues !! i) as [[sz [|e q]]|] eqn:Hi; intros Hs; [|done|];
    rewrite Forall_cons, Hi; eauto.
Qed.

(** ** What [add_event] does to each queue *)

Lemma add_event_lookup_ne s event id :
  id ≠ event_key event →
  event_queues (add_event s event) !! id = event_queues s !! id.
Proof.
  intros Hne. unfold add_event. repeat case_match; simpl;
    rewrite lookup_insert_ne by done; by rewrite ?lookup_alter_ne by done.
Qed.

(** The size and the (possibly flushed) queue the event is pushed on. *)
Definition target_queue (s : Scheduler) (event : EventItem) : Z * list EventItem :=
  match event_queues s !! event_key event with
  | Some (size, queue) =>
      (size, if should_flush event then retain is_correlated queue else queue)
  | None => (DEFAULT_QUEUE_SIZE, [])
  end.

Lemma add_event_lookup_eq s event :
  event_queues (add_event s event) !! event_key event =
  Some ((target_queue s event).1,
        (push_bounded (queue_cap s (event_key event) (target_queue s event).1)
                      (target_queue s event).2 event).2).
Proof.
  unfold add_event, target_queue, queue_cap.
  destruct (should_flush event); rewrite ?lookup_alter_eq;
    destruct (event_queues s !! event_key event) as [[size queue]|]; simpl;
    destruct (push_bounded _ _ _) eqn:Hpb; simpl; by rewrite lookup_insert_eq.
Qed.

Lemma add_event_last_used s event :
  last_used (add_event s event) =
  match event_queues s !! event_key event with
  | Some _ => last_used s
  | None => last_used s ++ [event_key event]
  end.
Proof.
  unfold add_event.
  destruct (should_flush event); rewrite ?lookup_alter_eq;
    destruct (event_queues s !! event_key event) as [[size queue]|]; simpl;
    by destruct (push_bounded _ _ _).
Qed.

Lemma add_event_policies s event :
  queue_policies (add_event s event) = queue_policies s.
Proof. unfold add_event. by repeat case_match. Qed.

Lemma target_queue_bounded s event :
  wf s → (Z.of_nat (length (target_queue s event).2)
          ≤ Z.max 1 (queue_cap s (event_key event) (target_queue s event).1))%Z.
Proof.
  intros Hwf. unfold target_queue.
  destruct (event_queues s !! event_key event) as [[size queue]|] eqn:Hq; simpl; [|lia].
  apply (wf_bounded s Hwf) in Hq. case_match; [|done].
  pose proof (length_retain is_correlated queue). lia.
Qed.

Lemma target_queue_keyed s event :
  wf s → Forall (λ e, event_key e = event_key event) (target_queue s event).2.
Proof.
  intros Hwf. unfold target_queue.
  destruct (event_queues s !! event_key event) as [[size queue]|] eqn:Hq; simpl; [|constructor].
  apply (wf_keyed s Hwf) in Hq. case_match; [|done]. by apply Forall_retain.
Qed.

(** ** What [next] does *)

(** The three ways [next] can go, in a well-formed state. *)
Variant next_cases (s : Scheduler) : option EventItem * Scheduler → Prop :=
| next_nothing :
    (∀ id, queued s id = []) → next_cases s (None, s)
| next_control size event queue :
    event_queues s !! NON_INPUT_EVENT = Some (size, event :: queue) →
    next_cases s (Some event,
      {| last_used := last_used s;
         event_queues := <[NON_INPUT_EVENT := (size, queue)]> (event_queues s);
         queue_policies := queue_policies s; dropped := dropped s |})
| next_input index id size event queue :
    queued s NON_INPUT_EVENT = [] →
    id ≠ NON_INPUT_EVENT →
    last_used s !! index = Some id →
    (∀ i j, i < index → last_used s !! i = Some j → queued s j = []) →
    event_queues s !! id = Some (size, event :: queue) →
    next_cases s (Some event,
      {| last_used := remove_at index (last_used s) ++ [id];
         event_queues := <[id := (size, queue)]> (event_queues s);
         queue_policies := queue_policies s; dropped := dropped s |}).

Lemma queued_empty s id :
  match event_queues s !! id with Some (_, _ :: _) => False | _ => True end →
  queued s id = [].
Proof. unfold queued. by destruct (event_queues s !! id) as [[? []]|]. Qed.

Lemma next_spec s : wf s → next_cases s (next s).
Proof.
  intros Hwf. unfold next.
  destruct (event_queues s !! NON_INPUT_EVENT) as [[size [|event queue]]|] eqn:Hc.
  2: by apply next_control.
  2: by destruct (wf_control s Hwf); simplify_eq.
  assert (queued s NON_INPUT_EVENT = []) as Hctl by by apply queued_empty; rewrite Hc.
  destruct (scan_queues _ 0 _) as [[[[[j id] sz] e] q]|] eqn:Hscan.
  - apply scan_queues_Some in Hscan as (k & -> & Hk & Hq & Hall). simpl.
    apply next_input; try done.
    + apply list_elem_of_lookup_2, (wf_lru s Hwf) in Hk. by destruct Hk.
    + intros i j Hi Hj. apply queued_empty. rewrite Forall_forall in Hall.
      apply Hall, list_elem_of_lookup. exists i. by rewrite lookup_take_lt.
  - apply scan_queues_None in Hscan. apply next_nothing. intros id.
    destruct (decide (id = NON_INPUT_EVENT)) as [->|Hne]; [done|].
    destruct (event_queues s !! id) as [[sz q]|] eqn:Hq.
    + apply queued_empty. rewrite Forall_forall in Hscan. apply Hscan.
      apply (wf_lru s Hwf). eauto.
    + unfold queued. by rewrite Hq.
Qed.

(** ** The invariant is preserved *)

Lemma wf_add_event s event : wf s → wf (add_event s event).
Proof.
  intros Hwf. constructor.
  - rewrite add_event_last_used. case_match eqn:Hq; [apply wf_nodup, Hwf|].
    apply NoDup_app. split_and!; [apply wf_nodup, Hwf| |apply NoDup_singleton].
    intros id Hid Heq%list_elem_of_singleton. subst.
    apply (wf_lru s Hwf) in Hid as [_ [? ?]]. congruence.
  - destruct (decide (NON_INPUT_EVENT = event_key event)) as [Heq|];
      [rewrite Heq, add_event_lookup_eq; eauto|].
    rewrite add_event_lookup_ne by done. apply Hwf.
  - intros id. rewrite add_event_last_used.
    destruct (decide (id = event_key event)) as [->|Hne].
    + rewrite add_event_lookup_eq.
      destruct (event_queues s !! event_key event) eqn:Hq.
      * rewrite (wf_lru s Hwf). rewrite Hq. naive_solver.
      * rewrite elem_of_app, list_elem_of_singleton.
        destruct (wf_control s Hwf) as [? Hc]. split; [|naive_solver].
        intros _. split; [congruence|eauto].
    + rewrite add_event_lookup_ne by done.
      case_match; rewrite ?elem_of_app, ?list_elem_of_singleton, (wf_lru s Hwf); naive_solver.
  - intros id size queue. destruct (decide (id = event_key event)) as [->|Hne].
    + rewrite add_event_lookup_eq. intros [= <- <-].
      by apply push_bounded_Forall; [apply target_queue_keyed|].
    + rewrite add_event_lookup_ne by done. apply Hwf.
  - intros id size queue. unfold queue_cap. rewrite add_event_policies.
    destruct (decide (id = event_key event)) as [->|Hne].
    + rewrite add_event_lookup_eq. intros [= <- <-].
      by apply push_bounded_length, target_queue_bounded.
    + rewrite add_event_lookup_ne by done. apply Hwf.
Qed.

(** Popping the head of one queue and permuting the LRU list keeps the invariant. *)
Lemma wf_pop s lru id size event queue :
  wf s → event_queues s !! id = Some (size, event :: queue) → lru ≡ₚ last_used s →
  wf {| last_used := lru; event_queues := <[id := (size, queue)]> (event_queues s);
        queue_policies := queue_policies s; dropped := dropped s |}.
Proof.
  intros Hwf Hq Hperm. constructor; simpl.
  - rewrite Hperm. apply Hwf.
  - rewrite lookup_insert_is_Some'. right. apply Hwf.
  - intros i. rewrite Hperm, (wf_lru s Hwf), lookup_insert_is_Some'. naive_solver.
  - intros i sz q. rewrite lookup_insert. case_decide as Hi; [|apply Hwf].
    intros [= <- <-]. subst. apply (wf_keyed s Hwf) in Hq. by inv Hq.
  - intros i sz q. unfold queue_cap. simpl. rewrite lookup_insert. case_decide as Hi; [|apply Hwf].
    intros [= <- <-]. subst. apply (wf_bounded s Hwf) in Hq. unfold queue_cap in Hq. simpl in Hq. lia.
Qed.

Lemma remove_at_snoc_perm {A} (l : list A) i x :
  l !! i = Some x → remove_at i l ++ [x] ≡ₚ l.
Proof.
  intros Hi. rewrite (remove_at_split l i x Hi) at 2. unfold remove_at.
  rewrite <- app_assoc. apply Permutation_app_head. by rewrite Permutation_app_comm.
Qed.

Lemma wf_next s : wf s → wf (next s).2.
Proof.
  intros Hwf. destruct (next_spec s Hwf); simpl; [done| |].
  - by eapply wf_pop.
  - eapply wf_pop; [done..|]. by apply remove_at_snoc_perm.
Qed.

Lemma wf_drain s : wf s → wf (drain_drop_counts s).2.
Proof. intros []. by constructor. Qed.

#[export] Hint Resolve wf_add_event wf_next wf_drain : dora.

Lemma wf_step s o : wf s → wf (step s o).2.
Proof. destruct o; intros; [by apply wf_add_event|by apply wf_next|by apply wf_drain]. Qed.

Lemma wf_run s ops : wf s → wf (run s ops).2.
Proof.
  revert s. induction ops as [|o ops IH]; intros s Hwf; [done|]. simpl.
  pose proof (wf_step s o Hwf). destruct (step s o) as [out s1]. simpl in *.
  specialize (IH s1). destruct (run s1 ops). simpl in *. auto.
Qed.

Lemma wf_with_policies `{HashOrder} queues policies :
  is_Some (queues !! NON_INPUT_EVENT) →
  (∀ id size queue, queues !! id = Some (size, queue) → queue = []) →
  wf (with_policies queues policies).
Proof.
  intros Hc Hempty. unfold with_policies. constructor; simpl.
  - apply NoDup_filter; auto with dora.
  - done.
  - intros id. unfold retain. rewrite list_elem_of_filter, elem_of_hash_keys.
    rewrite negb_true_iff, bool_decide_eq_false. done.
  - intros id size queue Hq. by rewrite (Hempty _ _ _ Hq).
  - intros id size queue Hq. rewrite (Hempty _ _ _ Hq). simpl. lia.
Qed.

Lemma wf_init_scheduler `{HashOrder} config : wf (init_scheduler config).
Proof.
  apply wf_with_policies; [by rewrite lookup_insert_eq|].
  intros id size queue. rewrite lookup_insert. case_decide; [naive_solver|].
  rewrite lookup_fmap. destruct (config !! id); naive_solver.
Qed.

(** ** Fairness *)

(** Every queue has room for at least one event. *)
Definition positive_sizes (s : Scheduler) : Prop :=
  ∀ id size queue, event_queues s !! id = Some (size, queue) → (1 ≤ size)%Z.

Lemma positive_sizes_step s o : wf s → positive_sizes s → positive_sizes (step s o).2.
Proof.
  intros Hwf Hpos. destruct o as [event| |]; simpl.
  - intros id size queue. destruct (decide (id = event_key event)) as [->|].
    + rewrite add_event_lookup_eq. intros [= <- _]. unfold target_queue.
      case_match eqn:Hq; [|done]. case_match; simpl. eauto.
    + rewrite add_event_lookup_ne by done. eauto.
  - destruct (next_spec s Hwf); simpl; [done|..];
      intros i sz q; simpl; rewrite lookup_insert; case_decide; naive_solver.
  - done.
Qed.

Lemma add_event_keeps_nonempty s event id :
  positive_sizes s → queued s id ≠ [] → queued (add_event s event) id ≠ [].
Proof.
  intros Hpos. unfold queued. destruct (decide (id = event_key event)) as [->|].
  - intros _. rewrite add_event_lookup_eq. apply push_bounded_nonempty, effective_cap_pos.
    unfold target_queue. case_match eqn:Hq; [|done]. case_match; simpl. eauto.
  - by rewrite add_event_lookup_ne.
Qed.

Lemma remove_at_lookup_before {A} (l : list A) i p x :
  l !! i = Some x → i < p → remove_at i l !! (p - 1) = l !! p.
Proof.
  intros Hi Hp. unfold remove_at. apply lookup_lt_Some in Hi.
  rewrite lookup_app_r; rewrite length_take; [|lia]. rewrite lookup_drop. f_equal. lia.
Qed.

(** One step: an input that waits at position [p] of the LRU list is either
    served, or has moved up by one place for each input event that was yielded. *)
Lemma wait_step s o id p :
  wf s → positive_sizes s → last_used s !! p = Some id → queued s id ≠ [] →
  (∃ event, (step s o).1 = Some event ∧ event_key event = id) ∨
  ∃ p', last_used (step s o).2 !! p' = Some id ∧ queued (step s o).2 id ≠ [] ∧
    length (filter (λ e, event_key e ≠ NON_INPUT_EVENT) (option_list (step s o).1)) + p' = p.
Proof.
  intros Hwf Hpos Hp Hne. destruct o as [event| |]; simpl.
  - right. exists p. split_and!; [|by apply add_event_keeps_nonempty|done].
    rewrite add_event_last_used. case_match; [done|].
    by rewrite lookup_app_l by by eapply lookup_lt_Some.
  - assert (id ≠ NON_INPUT_EVENT) as Hid.
    { by apply list_elem_of_lookup_2, (wf_lru s Hwf) in Hp as [? _]. }
    destruct (next_spec s Hwf) as [Hall|size event queue Hq|i j size event queue Hc Hj Hi Hbefore Hq];
      simpl.
    + by rewrite Hall in Hne.
    + right. exists p. assert (event_key event = NON_INPUT_EVENT) as Hk.
      { apply (wf_keyed s Hwf) in Hq. by inv Hq. }
      split_and!; [done| |].
      * unfold queued in *. simpl. by rewrite lookup_insert_ne.
      * by rewrite filter_cons_False by naive_solver.
    + assert (event_key event = j) as Hk.
      { apply (wf_keyed s Hwf) in Hq. by inv Hq. }
      destruct (decide (j = id)) as [->|Hji]; [left; eauto|].
      assert (i < p) as Hip.
      { destruct (decide (p < i)) as [Hpi|]; [by rewrite (Hbefore p id) in Hne|].
        destruct (decide (i = p)); [congruence|lia]. }
      right. exists (p - 1). split_and!.
      * rewrite lookup_app_l; [by rewrite (remove_at_lookup_before _ _ _ j)|].
        apply lookup_lt_Some in Hp. pose proof (length_remove_at (last_used s) i). lia.
      * unfold queued in *. simpl. by rewrite lookup_insert_ne.
      * rewrite filter_cons_True by congruence. simpl. lia.
  - right. exists p. done.
Qed.

Lemma wait_bound ops : ∀ s id p,
  wf s → positive_sizes s → last_used s !! p = Some id → queued s id ≠ [] →
  Forall (λ e, event_key e ≠ id) (run s ops).1 →
  length (filter (λ e, event_key e ≠ NON_INPUT_EVENT) (run s ops).1) ≤ p.
Proof.
  induction ops as [|o ops IH]; intros s id p Hwf Hpos Hp Hne Hnot; simpl; [lia|].
  pose proof (wf_step s o Hwf) as Hwf1.
  pose proof (positive_sizes_step s o Hwf Hpos) as Hpos1.
  pose proof (wait_step s o id p Hwf Hpos Hp Hne) as Hstep. simpl in Hnot.
  destruct (step s o) as [out s1]. simpl in *.
  specialize (IH s1 id). destruct (run s1 ops) as [outs s2]. simpl in *.
  apply Forall_app in Hnot as [Hnot1 Hnot2]. rewrite filter_app, length_app.
  destruct Hstep as [(event & -> & <-)|(p' & Hp' & Hq' & <-)].
  - simpl in Hnot1. by inv Hnot1.
  - specialize (IH p' Hwf1 Hpos1 Hp' Hq' Hnot2). lia.
Qed.

(** ** Per-input order and accounting *)

Definition adds_of (ops : list op) : list EventItem :=
  ops ≫= λ o, match o with OpAdd event => [event] | _ => [] end.

Definition of_key (id : DataId) (l : list EventItem) : list EventItem :=
  filter (λ e, event_key e = id) l.

Lemma push_bounded_sublist cap queue event :
  (push_bounded cap queue event).2 `sublist_of` queue ++ [event].
Proof.
  unfold push_bounded. repeat case_match; simpl; [| | |done].
  - apply sublist_app; [apply remove_at_sublist|done].
  - by apply sublist_inserts_r.
  - apply sublist_app; [destruct queue; [done|by apply sublist_cons]|done].
Qed.

Lemma target_queue_sublist s event :
  (target_queue s event).2 `sublist_of` queued s (event_key event).
Proof.
  unfold target_queue, queued. repeat case_match; simplify_eq/=; try done.
  apply sublist_filter.
Qed.

Lemma fifo_step s o id :
  wf s →
  of_key id (option_list (step s o).1) ++ queued (step s o).2 id
    `sublist_of` queued s id ++ of_key id (adds_of [o]).
Proof.
  intros Hwf. destruct o as [event| |]; simpl.
  - unfold adds_of, of_key. simpl. destruct (decide (event_key event = id)) as [<-|Hne].
    + rewrite filter_cons_True by done. simpl. unfold queued at 1. rewrite add_event_lookup_eq.
      etrans; [apply push_bounded_sublist|].
      apply sublist_app; [apply target_queue_sublist|done].
    + rewrite filter_cons_False by done. simpl. rewrite app_nil_r. unfold queued.
      by rewrite add_event_lookup_ne.
  - unfold adds_of, of_key. simpl. rewrite app_nil_r.
    destruct (next_spec s Hwf) as [Hall|size event queue Hq|i j size event queue Hc Hj Hi Hbefore Hq];
      simpl; [done|..]; pose proof (wf_keyed s Hwf _ _ _ Hq) as Hk;
      apply Forall_cons_1 in Hk as [Hk _]; unfold queued; simpl; rewrite lookup_insert;
      case_decide as Hd; subst; simpl.
    all: first [ rewrite filter_cons_True by done; simpl; by rewrite Hq
               | rewrite filter_cons_False by congruence; simpl; done ].
  - unfold adds_of, of_key. simpl. by rewrite app_nil_r.
Qed.

Lemma fifo_run ops : ∀ s id,
  wf s →
  of_key id (run s ops).1 ++ queued (run s ops).2 id
    `sublist_of` queued s id ++ of_key id (adds_of ops).
Proof.
  induction ops as [|o ops IH]; intros s id Hwf; simpl.
  - unfold adds_of, of_key. simpl. by rewrite app_nil_r.
  - pose proof (wf_step s o Hwf) as Hwf1. pose proof (fifo_step s o id Hwf) as Hstep.
    destruct (step s o) as [out s1]. simpl in *. specialize (IH s1 id Hwf1).
    destruct (run s1 ops) as [outs s2]. simpl in *. unfold adds_of, of_key in *. simpl in *.
    rewrite app_nil_r in Hstep. rewrite !filter_app.
    rewrite <- app_assoc. etrans; [by apply sublist_app; [done|apply IH]|].
    rewrite !app_assoc. by apply sublist_app.
Qed.

(** The capacity of the queue of an input; one that is not there yet gets the default size. *)
Definition input_capacity (s : Scheduler) (id : DataId) : Z :=
  queue_cap s id (match event_queues s !! id with Some (size, _) => size | None => DEFAULT_QUEUE_SIZE end).

Lemma input_capacity_add s event id : input_capacity (add_event s event) id = input_capacity s id.
Proof.
  unfold input_capacity, queue_cap. rewrite add_event_policies.
  destruct (decide (id = event_key event)) as [->|Hne]; [|by rewrite add_event_lookup_ne].
  rewrite add_event_lookup_eq. unfold target_queue. by destruct (event_queues s !! event_key event) as [[]|].
Qed.

Lemma input_capacity_next s id : wf s → input_capacity (next s).2 id = input_capacity s id.
Proof.
  intros Hwf. destruct (next_spec s Hwf) as [?|size event queue Hq|i j size event queue _ _ _ _ Hq]; [done|..];
    unfold input_capacity, queue_cap; simpl; rewrite lookup_insert; case_decide; subst; by rewrite ?Hq.
Qed.

(** [next] takes the oldest event of one input. *)
Lemma next_exact s id :
  wf s → of_key id (option_list (next s).1) ++ queued (next s).2 id = queued s id.
Proof.
  intros Hwf. destruct (next_spec s Hwf) as [?|size event queue Hq|i j size event queue _ _ _ _ Hq]; [done|..];
    pose proof (wf_keyed s Hwf _ _ _ Hq) as Hk; apply Forall_cons_1 in Hk as [Hk _];
    unfold of_key, queued; simpl; rewrite lookup_insert; case_decide as Hd; subst; simpl;
    first [rewrite filter_cons_True by done; by rewrite Hq | by rewrite filter_cons_False by congruence].
Qed.

(** Events that fit into the queue of their input are all added to it. *)
Lemma adds_exact items s id :
  (∀ e, e ∈ items → event_key e = id → should_flush e = false) →
  (Z.of_nat (length (queued s id ++ of_key id items)) ≤ input_capacity s id)%Z →
  queued (foldl add_event s items) id = queued s id ++ of_key id items ∧
  input_capacity (foldl add_event s items) id = input_capacity s id.
Proof.
  revert s. induction items as [|e items IH]; intros s Hf Hlen; simpl; [by rewrite app_nil_r|].
  assert (queued (add_event s e) id = queued s id ++ of_key id [e]) as He.
  { unfold of_key in *. rewrite filter_cons. destruct (decide (event_key e = id)) as [<-|Hne]; simpl.
    - rewrite filter_cons_True in Hlen by done. rewrite length_app in Hlen. simpl in Hlen.
      unfold queued at 1. rewrite add_event_lookup_eq.
      unfold input_capacity, target_queue, queued, push_bounded in *. rewrite (Hf e) by (left || done).
      destruct (event_queues s !! event_key e) as [[size queue]|]; simpl in *;
        (destruct (_ <=? _)%Z eqn:El; [apply Z.leb_le in El; simpl in *; lia|done]).
    - rewrite app_nil_r. unfold queued. by rewrite add_event_lookup_ne. }
  assert (of_key id (e :: items) = of_key id [e] ++ of_key id items) as Ho by apply (filter_app _ [e]).
  destruct (IH (add_event s e)) as [Hq Hc].
  - intros e' He'. apply Hf. by right.
  - rewrite input_capacity_add, He, <- app_assoc, <- Ho. done.
  - rewrite Hq, Hc, He, Ho, input_capacity_add, app_assoc. done.
Qed.

Definition drop_count (s : Scheduler) (id : DataId) : Z := default 0%Z (dropped s !! id).

Lemma push_bounded_account cap queue event :
  (1 ≤ cap)%Z →
  (Z.of_nat (length (push_bounded cap queue event).2)
   + (if (push_bounded cap queue event).1 then 1 else 0)
   = Z.of_nat (length queue) + 1)%Z.
Proof.
  intros Hcap. unfold push_bounded.
  destruct (Z.leb_spec cap (Z.of_nat (length queue))) as [Hfull|]; simpl;
    [|rewrite length_app; simpl; lia].
  unfold select_eviction. destruct (position _ queue) as [idx|] eqn:Hpos; simpl.
  - apply position_Some in Hpos as (x & Hx & _). apply lookup_lt_Some in Hx.
    pose proof (length_remove_at queue idx Hx). rewrite length_app. simpl. lia.
  - destruct (is_correlated event); simpl; [|lia].
    rewrite length_app. destruct queue; simpl in *; lia.
Qed.

Lemma add_event_drop_count s event id :
  drop_count (add_event s event) id =
  (drop_count s id +
   if decide (id = event_key event) then
     if (push_bounded (queue_cap s id (target_queue s event).1)
                      (target_queue s event).2 event).1 then 1 else 0
   else 0)%Z.
Proof.
  unfold drop_count, add_event, target_queue, queue_cap.
  destruct (should_flush event); rewrite ?lookup_alter_eq;
    destruct (event_queues s !! event_key event) as [[size queue]|]; simpl;
    case_decide as Hid; subst; destruct (push_bounded _ _ _) as [[] ?] eqn:Hpb; simpl;
    rewrite ?lookup_insert_eq, ?lookup_insert_ne by done; simpl; lia.
Qed.

Lemma account_step s o id :
  wf s → positive_sizes s →
  (match o with OpAdd event => event_key event = id → should_flush event = false
              | OpNext => True | OpDrain => False end) →
  (Z.of_nat (length (queued s id)) + Z.of_nat (length (of_key id (adds_of [o]))) + drop_count s id
   = Z.of_nat (length (of_key id (option_list (step s o).1)))
     + Z.of_nat (length (queued (step s o).2 id)) + drop_count (step s o).2 id)%Z.
Proof.
  intros Hwf Hpos Ho. destruct o as [event| |]; simpl; [| |done].
  - rewrite add_event_drop_count. unfold adds_of, of_key, queued. simpl.
    destruct (decide (id = event_key event)) as [->|Hne].
    + rewrite filter_cons_True, add_event_lookup_eq by done. simpl.
      assert (1 ≤ queue_cap s (event_key event) (target_queue s event).1)%Z as Hcap.
      { apply effective_cap_pos. unfold target_queue. case_match eqn:Hq; [|done].
        case_match; simpl. eauto. }
      pose proof (push_bounded_account _ (target_queue s event).2 event Hcap) as Hacc.
      assert (length (target_queue s event).2 = length (queued s (event_key event))) as Hlen.
      { unfold target_queue, queued. rewrite Ho by done. by repeat case_match; simplify_eq/=. }
      unfold queued in Hlen. rewrite Hlen in Hacc. lia.
    + rewrite filter_cons_False, add_event_lookup_ne by done. simpl. lia.
  - unfold adds_of, of_key. simpl.
    destruct (next_spec s Hwf) as [Hall|size event queue Hq|i j size event queue Hc Hj Hi Hbefore Hq];
      simpl; [lia|..]; pose proof (wf_keyed s Hwf _ _ _ Hq) as Hk;
      apply Forall_cons_1 in Hk as [Hk _]; unfold queued, drop_count; simpl; rewrite lookup_insert;
      case_decide as Hd; subst; simpl.
    all: first [ rewrite filter_cons_True by done; rewrite Hq; simpl; lia
               | rewrite filter_cons_False by congruence; simpl; lia ].
Qed.

Lemma scheduler_count ops s id :
  wf s → positive_sizes s →
  Forall (λ o, match o with OpAdd event => event_key event = id → should_flush event = false
                          | OpNext => True | OpDrain => False end) ops →
  (Z.of_nat (length (queued s id)) + Z.of_nat (length (of_key id (adds_of ops))) + drop_count s id
   = Z.of_nat (length (of_key id (run s ops).1))
     + Z.of_nat (length (queued (run s ops).2 id)) + drop_count (run s ops).2 id)%Z.
Proof.
  revert s. induction ops as [|o ops IH]; intros s Hwf Hpos Hops; simpl.
  { unfold adds_of, of_key. simpl. lia. }
  apply Forall_cons in Hops as [Ho Hops].
  pose proof (wf_step s o Hwf) as Hwf1. pose proof (positive_sizes_step s o Hwf Hpos) as Hpos1.
  pose proof (account_step s o id Hwf Hpos Ho) as Hstep.
  destruct (step s o) as [out s1]. simpl in *. specialize (IH s1 Hwf1 Hpos1 Hops).
  destruct (run s1 ops) as [outs s2]. simpl in *. unfold adds_of, of_key in *. simpl in *.
  rewrite app_nil_r in Hstep. rewrite !filter_app, !length_app. lia.
Qed.

(** ** Properties *)

(** Runs of a freshly configured scheduler stay well formed. *)
Lemma reachable_wf `{HashOrder} config ops : wf (run (init_scheduler config) ops).2.
Proof. apply wf_run, wf_init_scheduler. Qed.

Lemma positive_sizes_run ops : ∀ s,
  wf s → positive_sizes s → positive_sizes (run s ops).2.
Proof.
  induction ops as [|o ops IH]; intros s Hwf Hpos; [done|]. simpl.
  pose proof (wf_step s o Hwf). pose proof (positive_sizes_step s o Hwf Hpos).
  destruct (step s o) as [out s1]. simpl in *. specialize (IH s1).
  destruct (run s1 ops). simpl in *. auto.
Qed.

Definition config_positive (config : gmap DataId InputConfig) : Prop :=
  map_Forall (λ _ c, (1 ≤ default DEFAULT_QUEUE_SIZE (queue_size c))%Z) config.

Lemma init_positive_sizes `{HashOrder} config :
  config_positive config → positive_sizes (init_scheduler config).
Proof.
  intros Hc id size queue. unfold init_scheduler, with_policies. simpl.
  rewrite lookup_insert. case_decide; [intros; simplify_eq; lia|]. rewrite lookup_fmap.
  destruct (config !! id) eqn:Hid; simpl; intros Hq; simplify_eq/=. exact (Hc _ _ Hid).
Qed.

(** C24. No starvation between inputs.  In any reachable state of a scheduler whose
    queue sizes are positive, an input with a waiting event is served before
    [length last_used] input events have been yielded, whatever events arrive in
    the meantime (new inputs, flushes and evictions included). *)
Theorem scheduler_no_starvation `{HashOrder} config before after id :
  config_positive config →
  let s := (run (init_scheduler config) before).2 in
  id ≠ NON_INPUT_EVENT → queued s id ≠ [] →
  length (last_used s)
    ≤ length (filter (λ e, event_key e ≠ NON_INPUT_EVENT) (run s after).1) →
  Exists (λ e, event_key e = id) (run s after).1.
Proof.
  intros Hcfg s Hid Hne Hlen.
  destruct (decide (Exists (λ e, event_key e = id) (run s after).1)) as [|Hnot]; [done|exfalso].
  apply not_Exists_Forall in Hnot; [|apply _].
  pose proof (reachable_wf config before) as Hwf. fold s in Hwf.
  assert (positive_sizes s) as Hpos
    by by apply positive_sizes_run; [apply wf_init_scheduler|apply init_positive_sizes].
  assert (id ∈ last_used s) as [p Hp]%list_elem_of_lookup_1.
  { apply (wf_lru s Hwf). split; [done|]. unfold queued in Hne. by destruct (_ !! id). }
  pose proof (wait_bound after s id p Hwf Hpos Hp Hne Hnot).
  apply lookup_lt_Some in Hp. lia.
Qed.

(** Adding an event never discards a queued event that carries a request or
    goal correlation, and never discards a correlated incoming event, unless the
    queue is full and every queued event and the incoming one are correlated. *)
Theorem add_event_keeps_correlations s event :
  wf s →
  let id := event_key event in
  (Z.of_nat (length (queued s id)) < queue_cap s id (target_queue s event).1)%Z
    ∨ Exists (λ e, is_correlated e = false) (queued s id ++ [event]) →
  retain is_correlated (queued (add_event s event) id)
    = retain is_correlated (queued s id ++ [event]).
Proof.
  intros Hwf id Hspare. unfold id in *. clear id.
  unfold queued at 1. rewrite add_event_lookup_eq.
  pose proof (target_queue_bounded s event Hwf) as Hb.
  pose proof (target_queue_sublist s event) as Hsub%sublist_length.
  unfold queued, target_queue in *.
  destruct (event_queues s !! event_key event) as [[size queue]|] eqn:Hq; simpl in *.
  2: { apply push_bounded_correlated. simpl. destruct Hspare; [left; lia|by right]. }
  apply (wf_bounded s Hwf) in Hq. destruct (should_flush event) eqn:Hfl; simpl in *.
  2: by apply push_bounded_correlated.
  replace (retain is_correlated (queue ++ [event]))
    with (retain is_correlated (retain is_correlated queue ++ [event]))
    by by rewrite !retain_app, retain_retain.
  destruct (is_correlated event) eqn:Hev.
  2: { apply push_bounded_correlated. right. apply Exists_app. right. by constructor. }
  destruct (Z_lt_dec (Z.of_nat (length (retain is_correlated queue)))
              (queue_cap s (event_key event) size)) as [|Hfull].
  { apply push_bounded_correlated. by left. }
  destruct Hspare as [|Hex]; [lia|]. apply Exists_app in Hex as [Hex|Hex].
  2: { apply Exists_singleton in Hex. congruence. }
  assert (length (retain is_correlated queue) < length queue) as Hlt.
  { apply Exists_exists in Hex as (x & Hx & Hxc). apply list_elem_of_lookup in Hx as [i Hi].
    rewrite <- (retain_remove_at is_correlated queue i x Hi Hxc).
    pose proof (length_retain is_correlated (remove_at i queue)).
    pose proof (length_remove_at queue i (lookup_lt_Some _ _ _ Hi)). lia. }
  destruct (retain is_correlated queue) eqn:Hr; simpl in *; [|lia].
  unfold push_bounded, select_eviction. simpl. by rewrite Hev; case_match.
Qed.

(** Memory bound and shape.  In every reachable state each queue holds at most
    its effective capacity (one event if that is zero), holds only events of its
    own input, and the LRU list names each input queue exactly once. *)
Theorem scheduler_bounded `{HashOrder} config ops :
  let s := (run (init_scheduler config) ops).2 in
  NoDup (last_used s) ∧
  (∀ id, id ∈ last_used s ↔ id ≠ NON_INPUT_EVENT ∧ is_Some (event_queues s !! id)) ∧
  ∀ id size queue, event_queues s !! id = Some (size, queue) →
    (Z.of_nat (length queue) ≤ Z.max 1 (queue_cap s id size))%Z ∧
    Forall (λ e, event_key e = id) queue.
Proof.
  intros s. pose proof (reachable_wf config ops) as []. split_and!; eauto.
Qed.

(** Per-input FIFO, without duplication or invention: the events of one input
    that a run yields, followed by those still queued, form a subsequence of the
    events of that input that were added, in order of arrival. *)
Theorem scheduler_fifo `{HashOrder} config ops id :
  of_key id (run (init_scheduler config) ops).1
    ++ queued (run (init_scheduler config) ops).2 id
    `sublist_of` of_key id (adds_of ops).
Proof.
  pose proof (fifo_run ops (init_scheduler config) id (wf_init_scheduler config)) as Hf.
  assert (queued (init_scheduler config) id = []) as Hq; [|by rewrite Hq in Hf].
  unfold queued, init_scheduler, with_policies. simpl. rewrite lookup_insert.
  case_decide; [done|]. rewrite lookup_fmap. by destruct (config !! id).
Qed.

(** Nothing disappears silently.  Over a run without flush requests for an input, every
    event of the input is yielded, still queued, or counted by the drop counter
    that [drain_drop_counts] reports. *)
Theorem scheduler_accounts ops s id :
  wf s → positive_sizes s →
  Forall (λ o, match o with OpAdd event => event_key event = id → should_flush event = false
                          | OpNext => True | OpDrain => False end) ops →
  (Z.of_nat (length (queued s id)) + Z.of_nat (length (of_key id (adds_of ops))) + drop_count s id
   = Z.of_nat (length (of_key id (run s ops).1))
     + Z.of_nat (length (queued (run s ops).2 id)) + drop_count (run s ops).2 id)%Z.
Proof. apply scheduler_count. Qed.

(** [next] is exhaustive and puts control events first: it yields nothing
    exactly when [is_empty], and if a non-input event is queued it yields the
    oldest one. *)
Theorem next_complete s :
  wf s →
  ((next s).1 = None ↔ is_empty s = true) ∧
  (queued s NON_INPUT_EVENT ≠ [] → (next s).1 = head (queued s NON_INPUT_EVENT)).
Proof.
  intros Hwf.
  assert (is_empty s = true ↔ ∀ id, queued s id = []) as Hemp.
  { unfold is_empty. rewrite <- Is_true_true, forallb_True, Forall_forall. split.
    - intros Hall id. unfold queued. destruct (_ !! id) as [[size queue]|] eqn:Hq; [|done].
      specialize (Hall (id, (size, queue))). rewrite elem_of_map_to_list in Hall.
      specialize (Hall Hq). by apply bool_decide_unpack in Hall.
    - intros Hall [id [size queue]] Hin%elem_of_map_to_list. apply bool_decide_pack.
      specialize (Hall id). unfold queued in Hall. by rewrite Hin in Hall. }
  rewrite Hemp. destruct (next_spec s Hwf) as [Hall|size event queue Hq|i j size event queue Hc Hj Hi Hb Hq];
    simpl; split.
  - done.
  - by rewrite Hall.
  - split; [done|]. intros Hall. specialize (Hall NON_INPUT_EVENT).
    unfold queued in Hall. by rewrite Hq in Hall.
  - unfold queued. by rewrite Hq.
  - split; [done|]. intros Hall. specialize (Hall j). unfold queued in Hall. by rewrite Hq in Hall.
  - done.
Qed.

(** ** The properties at concrete inputs *)

Definition demo_input (id : DataId) (ps : list (string * ParameterValue)) (ack : N) : EventItem :=
  ItemNodeEvent (Input id (mkMetadata (list_to_map ps)) None) ack.
Definition demo_config : gmap DataId InputConfig :=
  list_to_map [("camera", mkInputConfig (MTimer 1) (Some 2%Z) None None);
               ("lidar", mkInputConfig (MTimer 1) None None (Some Backpressure))].
Definition demo_before : list op :=
  [OpAdd (demo_input "camera" [] 1); OpAdd (demo_input "camera" [] 2);
   OpAdd (demo_input "lidar" [] 3); OpAdd (ItemNodeEvent Stop 4)].
(** A full queue holding one response and one stale frame. *)
Definition demo_full : Scheduler :=
  (run (init_scheduler demo_config)
     [OpAdd (demo_input "camera" [(REQUEST_ID, PString "r")] 1);
      OpAdd (demo_input "camera" [] 2)]).2.

Lemma demo_config_positive : config_positive demo_config.
Proof. apply (bool_decide_unpack _). vm_compute. exact I. Qed.

Lemma scheduler_no_starvation_witness :
  Exists (λ e, event_key e = "lidar")
    (run (run (init_scheduler demo_config) demo_before).2 [OpNext; OpNext; OpNext]).1.
Proof.
  apply (scheduler_no_starvation demo_config demo_before [OpNext; OpNext; OpNext] "lidar").
  - exact demo_config_positive.
  - discriminate.
  - discriminate.
  - vm_compute. lia.
Defined.

Lemma add_event_keeps_correlations_witness :
  retain is_correlated (queued (add_event demo_full (demo_input "camera" [] 3)) "camera")
    = [demo_input "camera" [(REQUEST_ID, PString "r")] 1].
Proof.
  etrans; [apply (add_event_keeps_correlations demo_full (demo_input "camera" [] 3))|].
  - apply reachable_wf.
  - right. vm_compute. do 2 right. left. reflexivity.
  - vm_compute. reflexivity.
Defined.

Lemma scheduler_accounts_witness :
  let ops := [OpAdd (demo_input "camera" [] 3); OpNext] in
  (2 + 1 + 0 = Z.of_nat (length (of_key "camera" (run demo_full ops).1))
     + Z.of_nat (length (queued (run demo_full ops).2 "camera"))
     + drop_count (run demo_full ops).2 "camera")%Z.
Proof.
  apply (scheduler_accounts [OpAdd (demo_input "camera" [] 3); OpNext] demo_full "camera").
  - apply reachable_wf.
  - apply positive_sizes_run; [apply wf_init_scheduler|].
    apply init_positive_sizes, demo_config_positive.
  - repeat constructor.
Defined.

Lemma next_complete_witness :
  (next (run (init_scheduler demo_config) demo_before).2).1 = Some (ItemNodeEvent Stop 4).
Proof.
  etrans; [apply (next_complete (run (init_scheduler demo_config) demo_before).2)|].
  - apply reachable_wf.
  - vm_compute. discriminate.
  - vm_compute. reflexivity.
Defined.
