(* ===== verification/Recording.v ===== *)
(** * The recording format

    Models [libraries/recording/src/lib.rs]: the [.drec] writer and reader.  A file
    (and the buffered writer or reader over it) is its list of bytes; I/O errors
    other than the end of the file are not modelled.  A Rust [String] is a byte list
    that passes [utf8_valid], the check of [std::str::from_utf8].  The reader's
    slicing panics when out of range, as in Rust. *)

From Stdlib Require Import ZArith Lia.
From stdpp Require Import base list strings.
From S2P Require Import Prelude Message.

Abbreviation bytes := (list Byte.byte) (only parsing).

(** ** Little-endian integers *)

Definition byte_val (b : Byte.byte) : Z := Z.of_N (Byte.to_N b).
Definition byte_of (z : Z) : Byte.byte :=
  default Byte.x00 (Byte.of_N (Z.to_N (z mod 256))).

Fixpoint to_le_bytes (n : nat) (z : Z) : bytes :=
  match n with
  | O => []
  | S n => byte_of z :: to_le_bytes n (z / 256)
  end.

Fixpoint from_le_bytes (l : bytes) : Z :=
  match l with
  | [] => 0
  | b :: l => (byte_val b + 256 * from_le_bytes l)%Z
  end.

(** ** UTF-8 validity ([std::str::from_utf8]) *)

Definition between (lo hi : Z) (b : Byte.byte) : bool :=
  ((lo <=? byte_val b) && (byte_val b <=? hi))%Z.
Definition continuation (b : Byte.byte) : bool := between 0x80 0xBF b.

Fixpoint utf8_valid (s : bytes) : bool :=
  match s with
  | [] => true
  | b0 :: s0 =>
      if between 0 0x7F b0 then utf8_valid s0
      else match s0 with
      | [] => false
      | b1 :: s1 =>
          if between 0xC2 0xDF b0 then continuation b1 && utf8_valid s1
          else match s1 with
          | [] => false
          | b2 :: s2 =>
              if between 0xE0 0xEF b0 then
                (if between 0xE0 0xE0 b0 then between 0xA0 0xBF b1
                 else if between 0xED 0xED b0 then between 0x80 0x9F b1
                 else continuation b1)
                && continuation b2 && utf8_valid s2
              else match s2 with
              | [] => false
              | b3 :: s3 =>
                  between 0xF0 0xF4 b0
                  && (if between 0xF0 0xF0 b0 then between 0x90 0xBF b1
                      else if between 0xF4 0xF4 b0 then between 0x80 0x8F b1
                      else continuation b1)
                  && continuation b2 && continuation b3 && utf8_valid s3
              end
          end
      end
  end.

Definition from_utf8 (err : string) (s : bytes) : res bytes :=
  if utf8_valid s then Ok s else Err err.

(** ** Data *)

Definition MAGIC : bytes := String.list_byte_of_string "DORAREC" ++ [Byte.x00].
Definition FOOTER_MAGIC : bytes := String.list_byte_of_string "DORAEND" ++ [Byte.x00].
Definition FORMAT_VERSION : Z := 1.
Definition MAX_RECORD_BYTES : Z := 64 * 1024 * 1024.

(** [dataflow_id] is the sixteen bytes of the UUID. *)
Record RecordingHeader := mkHeader {
  version : Z;
  start_nanos : Z;
  dataflow_id : bytes;
  descriptor_yaml : bytes
}.

Record RecordEntry := mkEntry {
  node_id : bytes;
  output_id : bytes;
  timestamp_offset_nanos : Z;
  event_bytes : bytes
}.

Record RecordingFooter := mkFooter {
  footer_messages : Z;
  footer_bytes : Z
}.

Record RecordingWriter := mkWriter {
  written : bytes;
  total_messages : Z;
  total_bytes : Z
}.

Definition blen (l : bytes) : Z := Z.of_nat (length l).

(** ** Writer *)

Definition write_header (header : RecordingHeader) : res bytes :=
  if (MAX_RECORD_BYTES <? blen (descriptor_yaml header))%Z
  then Err "descriptor YAML too large to write"
  else Ok (MAGIC
           ++ to_le_bytes 2 (version header)
           ++ to_le_bytes 8 (start_nanos header)
           ++ dataflow_id header
           ++ to_le_bytes 4 (blen (descriptor_yaml header))
           ++ descriptor_yaml header).

Definition writer_new (header : RecordingHeader) : res RecordingWriter :=
  head ← write_header header; Ok (mkWriter head 0 0).

Definition record_len_usize (entry : RecordEntry) : Z :=
  2 + blen (node_id entry) + 2 + blen (output_id entry) + 8 + 4 + blen (event_bytes entry).

(** The record after its length field; the casts [as u16] and [as u32] keep the low bytes. *)
Definition record_body (entry : RecordEntry) : bytes :=
  to_le_bytes 2 (blen (node_id entry)) ++ node_id entry
  ++ to_le_bytes 2 (blen (output_id entry)) ++ output_id entry
  ++ to_le_bytes 8 (timestamp_offset_nanos entry)
  ++ to_le_bytes 4 (blen (event_bytes entry)) ++ event_bytes entry.

Definition write_entry (w : RecordingWriter) (entry : RecordEntry) : res RecordingWriter :=
  let len := record_len_usize entry in
  if (MAX_RECORD_BYTES <? len)%Z then Err "record too large to write"
  else if (2 ^ 32 <=? len)%Z then Err "record length exceeds u32::MAX"
  else Ok {| written := written w ++ to_le_bytes 4 len ++ record_body entry;
             total_messages := u64_wrap (total_messages w + 1);
             total_bytes := u64_wrap (total_bytes w + (len + 4)) |}.

Definition finish (w : RecordingWriter) : bytes * RecordingFooter :=
  let footer := mkFooter (total_messages w) (total_bytes w) in
  (written w ++ FOOTER_MAGIC ++ to_le_bytes 8 (footer_messages footer)
     ++ to_le_bytes 8 (footer_bytes footer), footer).

Definition stats (w : RecordingWriter) : Z * Z := (total_messages w, total_bytes w).

(** ** Reader *)

(** [Read::read_exact]: the bytes read, or [None] at an unexpected end of file, which
    leaves the reader at its end; and the bytes still to be read. *)
Definition read_exact (n : nat) (r : bytes) : option bytes * bytes :=
  if decide (n ≤ length r) then (Some (take n r), drop n r) else (None, []).

Definition read_field (n : nat) (err : string) (r : bytes) : res (bytes * bytes) :=
  match read_exact n r with
  | (Some l, r) => Ok (l, r)
  | (None, _) => Err err
  end.

Definition read_header (r : bytes) : res (RecordingHeader * bytes) :=
  '(magic, r) ← read_field 8 "failed to read magic bytes" r;
  if negb (bool_decide (magic = MAGIC)) then Err "not an dora recording file (invalid magic)" else
  '(version_buf, r) ← read_field 2 "unexpected end of file" r;
  let version := from_le_bytes version_buf in
  if (FORMAT_VERSION <? version)%Z then Err "unsupported recording format version" else
  '(nanos_buf, r) ← read_field 8 "unexpected end of file" r;
  '(uuid_buf, r) ← read_field 16 "unexpected end of file" r;
  '(yaml_len_buf, r) ← read_field 4 "unexpected end of file" r;
  let yaml_len := from_le_bytes yaml_len_buf in
  if (MAX_RECORD_BYTES <? yaml_len)%Z then Err "descriptor YAML too large" else
  '(yaml, r) ← read_field (Z.to_nat yaml_len) "unexpected end of file" r;
  Ok (mkHeader version (from_le_bytes nanos_buf) uuid_buf yaml, r).

(** [read_array::<N>(buf, &mut pos)]: the array and the new position. *)
Definition read_array (n : nat) (buf : bytes) (pos : nat) : res (bytes * nat) :=
  if decide (length buf < pos + n) then Err "buffer too short"
  else Ok (take n (drop pos buf), pos + n).

(** [&buf[pos..pos + len]]. *)
Definition slice (buf : bytes) (pos len : nat) : res bytes :=
  if decide (pos + len ≤ length buf) then Ok (take len (drop pos buf)) else Panic.

Definition parse_record (record_buf : bytes) : res RecordEntry :=
  '(l, pos) ← read_array 2 record_buf 0;
  let node_id_len := Z.to_nat (from_le_bytes l) in
  node_id ← slice record_buf pos node_id_len;
  node_id ← from_utf8 "invalid node_id utf8" node_id;
  '(l, pos) ← read_array 2 record_buf (pos + node_id_len);
  let output_id_len := Z.to_nat (from_le_bytes l) in
  output_id ← slice record_buf pos output_id_len;
  output_id ← from_utf8 "invalid output_id utf8" output_id;
  '(l, pos) ← read_array 8 record_buf (pos + output_id_len);
  let timestamp := from_le_bytes l in
  '(l, pos) ← read_array 4 record_buf pos;
  event ← slice record_buf pos (Z.to_nat (from_le_bytes l));
  Ok (mkEntry node_id output_id timestamp event).

(** [next_entry]: its result and the bytes left for the next call. *)
Definition next_entry (r : bytes) : res (option RecordEntry) * bytes :=
  match read_exact 4 r with
  | (None, r) => (Ok None, r)
  | (Some len_buf, r) =>
      if bool_decide (len_buf = take 4 FOOTER_MAGIC) then (Ok None, (read_exact 4 r).2)
      else
        let record_len := from_le_bytes len_buf in
        if (MAX_RECORD_BYTES <? record_len)%Z then (Err "record too large", r)
        else match read_exact (Z.to_nat record_len) r with
        | (None, r) => (Err "truncated record", r)
        | (Some record_buf, r) => (Some <$> parse_record record_buf, r)
        end
  end.

(** The clients' loop [while let Some(entry) = reader.next_entry()?]: the entries it
    visits, and how it ends.  Every entry takes at least the four bytes of its length
    field, so as many rounds as there are bytes are enough ([read_entries_fuel]). *)
Fixpoint read_entries (fuel : nat) (r : bytes) : list RecordEntry * res unit :=
  match fuel with
  | O => ([], Err "out of fuel")
  | S fuel =>
      match next_entry r with
      | (Ok None, _) => ([], Ok tt)
      | (Ok (Some entry), r) =>
          let '(entries, result) := read_entries fuel r in (entry :: entries, result)
      | (Err e, _) => ([], Err e)
      | (Panic, _) => ([], Panic)
      end
  end.

Definition read_file (file : bytes) : res (RecordingHeader * (list RecordEntry * res unit)) :=
  '(header, r) ← read_header file;
  Ok (header, read_entries (S (length r)) r).

(** A whole recording: header, entries in order, footer. *)
Fixpoint write_entries (w : RecordingWriter) (entries : list RecordEntry) : res RecordingWriter :=
  match entries with
  | [] => Ok w
  | entry :: entries => w ← write_entry w entry; write_entries w entries
  end.

Definition write_file (header : RecordingHeader) (entries : list RecordEntry) : res bytes :=
  w ← writer_new header;
  w ← write_entries w entries;
  Ok (finish w).1.

(** ** What the writer is given *)

Record header_ok (h : RecordingHeader) : Prop := {
  ho_version : (0 ≤ version h ≤ FORMAT_VERSION)%Z;
  ho_start : (0 ≤ start_nanos h < 2 ^ 64)%Z;
  ho_uuid : length (dataflow_id h) = 16;
  ho_yaml : (blen (descriptor_yaml h) ≤ MAX_RECORD_BYTES)%Z
}.

(** Identifiers of less than 64 KiB in a record of at most 64 MiB. *)
Record entry_ok (e : RecordEntry) : Prop := {
  eo_node : (blen (node_id e) < 2 ^ 16)%Z;
  eo_node_utf8 : utf8_valid (node_id e) = true;
  eo_output : (blen (output_id e) < 2 ^ 16)%Z;
  eo_output_utf8 : utf8_valid (output_id e) = true;
  eo_time : (0 ≤ timestamp_offset_nanos e < 2 ^ 64)%Z;
  eo_size : (record_len_usize e ≤ MAX_RECORD_BYTES)%Z
}.

(** ** Integer codec *)

Lemma byte_val_of z : byte_val (byte_of z) = (z mod 256)%Z.
Proof.
  unfold byte_val, byte_of. pose proof (Z.mod_pos_bound z 256 ltac:(lia)).
  destruct (Byte.of_N _) eqn:Hb; simpl.
  - apply Byte.to_of_N in Hb. rewrite Hb. lia.
  - apply Byte.of_N_None_iff in Hb. lia.
Qed.

Lemma byte_val_bound b : (0 ≤ byte_val b < 256)%Z.
Proof. unfold byte_val. pose proof (Byte.to_N_bounded b). lia. Qed.

Lemma length_to_le_bytes n z : length (to_le_bytes n z) = n.
Proof. revert z. induction n; intros z; simpl; auto. Qed.
#[export] Hint Rewrite length_to_le_bytes : dora_rw.

Lemma from_to_le_bytes n z :
  (0 ≤ z < 256 ^ Z.of_nat n)%Z → from_le_bytes (to_le_bytes n z) = z.
Proof.
  revert z. induction n as [|n IH]; intros z Hz; simpl; [simpl in Hz; lia|].
  rewrite byte_val_of, IH.
  - pose proof (Z.div_mod z 256 ltac:(lia)). lia.
  - rewrite Nat2Z.inj_succ, Z.pow_succ_r in Hz by lia.
    split; [apply Z.div_pos; lia|apply Z.div_lt_upper_bound; lia].
Qed.

Lemma from_le_bytes_bound l : (0 ≤ from_le_bytes l < 256 ^ Z.of_nat (length l))%Z.
Proof.
  induction l as [|b l IH]; simpl; [lia|]. pose proof (byte_val_bound b).
  replace (Z.of_nat (S (length l))) with (Z.of_nat (length l) + 1)%Z by lia.
  rewrite Z.pow_add_r, Z.pow_1_r by lia. lia.
Qed.

Lemma blen_nonneg l : (0 ≤ blen l)%Z.
Proof. unfold blen. lia. Qed.
#[export] Hint Resolve blen_nonneg : dora.

(** ** Reading back what was written *)

Lemma read_exact_app l r : read_exact (length l) (l ++ r) = (Some l, r).
Proof.
  unfold read_exact. rewrite decide_True by (rewrite length_app; lia).
  by rewrite take_app_length, drop_app_length.
Qed.

Lemma read_field_app n err l r : length l = n → read_field n err (l ++ r) = Ok (l, r).
Proof. intros <-. unfold read_field. by rewrite read_exact_app. Qed.

Lemma bind_field {A} n err l r (k : bytes * bytes → res A) :
  length l = n → (read_field n err (l ++ r) ≫= k) = k (l, r).
Proof. intros Hl. by rewrite read_field_app. Qed.

Lemma read_array_app n buf pre l post pos :
  buf = pre ++ l ++ post → pos = length pre → length l = n →
  read_array n buf pos = Ok (l, length pre + n).
Proof.
  intros -> -> <-. unfold read_array. rewrite decide_False by (rewrite !length_app; lia).
  by rewrite drop_app_length, take_app_length.
Qed.

Lemma slice_app buf pre l post pos len :
  buf = pre ++ l ++ post → pos = length pre → length l = len →
  slice buf pos len = Ok l.
Proof.
  intros -> -> <-. unfold slice. rewrite decide_True by (rewrite !length_app; lia).
  by rewrite drop_app_length, take_app_length.
Qed.

Lemma from_utf8_ok err s : utf8_valid s = true → from_utf8 err s = Ok s.
Proof. unfold from_utf8. by intros ->. Qed.

Lemma from_le_len n l :
  (blen l < 256 ^ Z.of_nat n)%Z → Z.to_nat (from_le_bytes (to_le_bytes n (blen l))) = length l.
Proof.
  intros Hl. rewrite from_to_le_bytes by (pose proof (blen_nonneg l); lia).
  unfold blen. lia.
Qed.

(** Solves a split of the record buffer and the position reached in it. *)
Ltac buffer_split := by rewrite <- ?app_assoc; simpl; rewrite ?app_nil_r.
Ltac buffer_length := rewrite ?length_app; simpl; lia.

Lemma parse_record_body e : entry_ok e → parse_record (record_body e) = Ok e.
Proof.
  intros [Hn Hnu Ho Hou Ht Hs]. destruct e as [n o t ev]; simpl in *.
  assert (blen ev < 2 ^ 32)%Z as Hev.
  { unfold record_len_usize, MAX_RECORD_BYTES in Hs. simpl in Hs.
    pose proof (blen_nonneg n). pose proof (blen_nonneg o). lia. }
  unfold parse_record, record_body. simpl node_id. simpl output_id. simpl event_bytes.
  simpl timestamp_offset_nanos.
  pose proof (from_le_len 2 n ltac:(simpl; lia)) as Vn.
  pose proof (from_le_len 2 o ltac:(simpl; lia)) as Vo.
  pose proof (from_le_len 4 ev ltac:(simpl; lia)) as Ve.
  pose proof (from_to_le_bytes 8 t ltac:(simpl; lia)) as Vt.
  pose proof (length_to_le_bytes 2 (blen n)). pose proof (length_to_le_bytes 2 (blen o)).
  pose proof (length_to_le_bytes 8 t). pose proof (length_to_le_bytes 4 (blen ev)).
  generalize dependent (to_le_bytes 2 (blen n)). intros ln Vn Hl1.
  generalize dependent (to_le_bytes 2 (blen o)). intros lo Vo Hl2.
  generalize dependent (to_le_bytes 8 t). intros lt Vt Hl3.
  generalize dependent (to_le_bytes 4 (blen ev)). intros le Ve Hl4.
  rewrite (read_array_app 2 _ [] ln (n ++ lo ++ o ++ lt ++ le ++ ev)) by done. simpl.
  rewrite Vn, (slice_app _ ln n (lo ++ o ++ lt ++ le ++ ev)) by (done || buffer_length). simpl.
  rewrite from_utf8_ok by done. simpl.
  rewrite (read_array_app 2 _ (ln ++ n) lo (o ++ lt ++ le ++ ev))
    by (buffer_split || buffer_length). simpl.
  rewrite Vo, (slice_app _ (ln ++ n ++ lo) o (lt ++ le ++ ev))
    by (buffer_split || buffer_length). simpl.
  rewrite from_utf8_ok by done. simpl.
  rewrite (read_array_app 8 _ (ln ++ n ++ lo ++ o) lt (le ++ ev))
    by (buffer_split || buffer_length). simpl.
  rewrite (read_array_app 4 _ (ln ++ n ++ lo ++ o ++ lt) le ev)
    by (buffer_split || buffer_length). simpl.
  rewrite Ve, (slice_app _ (ln ++ n ++ lo ++ o ++ lt ++ le) ev [])
    by (buffer_split || buffer_length). simpl.
  by rewrite Vt.
Qed.

Lemma length_record_body e : Z.of_nat (length (record_body e)) = record_len_usize e.
Proof.
  unfold record_body, record_len_usize, blen. rewrite !length_app, !length_to_le_bytes. lia.
Qed.

(** The bytes of one record. *)
Definition record_bytes (e : RecordEntry) : bytes :=
  to_le_bytes 4 (record_len_usize e) ++ record_body e.

Lemma record_len_pos e : (16 ≤ record_len_usize e)%Z.
Proof.
  unfold record_len_usize. pose proof (blen_nonneg (node_id e)).
  pose proof (blen_nonneg (output_id e)). pose proof (blen_nonneg (event_bytes e)). lia.
Qed.

(** A length field never looks like the footer marker: "DORA" read as a length is
    more than the limit. *)
Lemma len_not_footer len :
  (0 ≤ len ≤ MAX_RECORD_BYTES)%Z → to_le_bytes 4 len ≠ take 4 FOOTER_MAGIC.
Proof.
  intros Hl Heq. assert (from_le_bytes (to_le_bytes 4 len) = 1095913284)%Z as Hv
    by (rewrite Heq; by vm_compute).
  unfold MAX_RECORD_BYTES in Hl. rewrite from_to_le_bytes in Hv by (simpl; lia). lia.
Qed.

Lemma next_entry_record e r :
  entry_ok e → next_entry (record_bytes e ++ r) = (Ok (Some e), r).
Proof.
  intros He. pose proof (record_len_pos e). pose proof (eo_size e He) as Hs.
  unfold next_entry, record_bytes. rewrite <- app_assoc.
  replace 4 with (length (to_le_bytes 4 (record_len_usize e))) at 1 by done.
  rewrite read_exact_app. rewrite bool_decide_false by (apply len_not_footer; lia).
  rewrite from_to_le_bytes by (unfold MAX_RECORD_BYTES in Hs; simpl; lia).
  rewrite (proj2 (Z.ltb_ge _ _)) by lia.
  rewrite <- (length_record_body e), Nat2Z.id, read_exact_app. by rewrite parse_record_body.
Qed.

Definition footer_of (w : RecordingWriter) : bytes :=
  FOOTER_MAGIC ++ to_le_bytes 8 (total_messages w) ++ to_le_bytes 8 (total_bytes w).

Lemma write_entry_ok w e :
  (record_len_usize e ≤ MAX_RECORD_BYTES)%Z →
  write_entry w e = Ok {| written := written w ++ record_bytes e;
                          total_messages := u64_wrap (total_messages w + 1);
                          total_bytes := u64_wrap (total_bytes w + (record_len_usize e + 4)) |}.
Proof.
  intros He. unfold write_entry, MAX_RECORD_BYTES in *.
  by rewrite (proj2 (Z.ltb_ge _ _)), (proj2 (Z.leb_gt _ _)) by lia.
Qed.

Lemma write_entries_ok w es :
  Forall entry_ok es →
  ∃ w', write_entries w es = Ok w' ∧ written w' = written w ++ concat (record_bytes <$> es).
Proof.
  revert w. induction es as [|e es IH]; intros w Hes.
  { exists w. by rewrite app_nil_r. }
  apply Forall_cons in Hes as [He Hes]. simpl write_entries.
  rewrite write_entry_ok by apply He.
  edestruct IH as (w' & Hrun & Hw); [done|]. exists w'. split; [exact Hrun|].
  rewrite Hw, fmap_cons, concat_cons. by rewrite app_assoc.
Qed.

Lemma read_header_bytes h r :
  header_ok h → ∃ head, write_header h = Ok head ∧ read_header (head ++ r) = Ok (h, r).
Proof.
  intros [Hv Hs Hu Hy]. destruct h as [v s u y].
  unfold write_header, read_header in *.
  cbn [version start_nanos dataflow_id descriptor_yaml] in *.
  rewrite (proj2 (Z.ltb_ge _ _)) by lia.
  assert (blen y < 256 ^ Z.of_nat 4)%Z by (unfold MAX_RECORD_BYTES in *; lia).
  pose proof (blen_nonneg y).
  eexists. split; [done|]. rewrite <- !app_assoc.
  rewrite bind_field by done. rewrite bool_decide_true by done. cbn [negb].
  rewrite bind_field by apply length_to_le_bytes.
  rewrite from_to_le_bytes by (unfold FORMAT_VERSION in *; lia).
  rewrite (proj2 (Z.ltb_ge _ _)) by lia.
  rewrite bind_field by apply length_to_le_bytes.
  rewrite bind_field by done.
  rewrite bind_field by apply length_to_le_bytes.
  rewrite (from_to_le_bytes 4), (proj2 (Z.ltb_ge _ _)) by lia.
  rewrite bind_field by (unfold blen; lia).
  by rewrite from_to_le_bytes by lia.
Qed.

(** ** The reader's loop *)

Lemma read_exact_length n r l r' : read_exact n r = (Some l, r') → length l = n ∧ length r = n + length r'.
Proof.
  unfold read_exact. case_decide; intros; simplify_eq. rewrite length_take, length_drop. lia.
Qed.

Lemma next_entry_shrinks r e r' : next_entry r = (Ok (Some e), r') → length r' + 4 ≤ length r.
Proof.
  unfold next_entry. destruct (read_exact 4 r) as [[len_buf|] r1] eqn:H4; [|done].
  apply read_exact_length in H4 as [_ H4]. case_bool_decide; [done|]. case_match; [done|].
  destruct (read_exact _ r1) as [[buf|] r2] eqn:Hb; [|done].
  apply read_exact_length in Hb as [_ Hb]. destruct (parse_record buf); simpl; [|done..].
  intros; simplify_eq. lia.
Qed.

(** The loop ends within as many rounds as there are bytes. *)
Lemma read_entries_fuel fuel r :
  length r < fuel → read_entries fuel r = read_entries (S (length r)) r.
Proof.
  revert r. induction fuel as [fuel IH] using lt_wf_ind. intros r Hf.
  destruct fuel as [|fuel]; [lia|]. simpl.
  destruct (next_entry r) as [[[e|]| |] r'] eqn:Hn; [|done..].
  apply next_entry_shrinks in Hn. destruct (length r) as [|n] eqn:Hr; [lia|].
  rewrite (IH fuel), (IH (S n)) by lia. done.
Qed.

Lemma read_entries_record fuel e r :
  entry_ok e → length r < fuel →
  read_entries (S fuel) (record_bytes e ++ r) =
  (let '(es, result) := read_entries (S (length r)) r in (e :: es, result)).
Proof.
  intros He Hf. cbn [read_entries]. rewrite next_entry_record by done.
  by rewrite read_entries_fuel.
Qed.

Lemma length_record_bytes e : length (record_bytes e) = 4 + length (record_body e).
Proof. unfold record_bytes. by rewrite length_app, length_to_le_bytes. Qed.

Lemma read_entries_records es tail :
  Forall entry_ok es →
  read_entries (S (length (concat (record_bytes <$> es) ++ tail)))
    (concat (record_bytes <$> es) ++ tail)
  = (let '(es', result) := read_entries (S (length tail)) tail in (es ++ es', result)).
Proof.
  induction es as [|e es IH]; intros Hes.
  { cbn [fmap list_fmap concat app]. by destruct (read_entries _ tail). }
  apply Forall_cons in Hes as [He Hes].
  rewrite fmap_cons, concat_cons, <- app_assoc.
  rewrite read_entries_record, IH by (done || rewrite !length_app, length_record_bytes; lia).
  by destruct (read_entries _ tail).
Qed.

Lemma next_entry_footer r : (next_entry (FOOTER_MAGIC ++ r)).1 = Ok None.
Proof. done. Qed.

Lemma next_entry_short r : length r < 4 → next_entry r = (Ok None, []).
Proof. intros Hr. unfold next_entry, read_exact. by rewrite decide_False by lia. Qed.

(** A record cut short is never taken for an entry. *)
Lemma next_entry_truncated e n :
  entry_ok e → n < length (record_bytes e) →
  (next_entry (take n (record_bytes e))).1 = Ok None
  ∨ (next_entry (take n (record_bytes e))).1 = Err "truncated record".
Proof.
  intros He Hn. destruct (decide (n < 4)) as [H4|H4].
  { left. rewrite next_entry_short; [done|]. rewrite length_take. lia. }
  right. pose proof (record_len_pos e). pose proof (eo_size e He) as Hs.
  unfold record_bytes in *. rewrite length_app, length_to_le_bytes in Hn.
  rewrite take_app_ge by (rewrite length_to_le_bytes; lia). rewrite length_to_le_bytes.
  unfold next_entry.
  replace 4 with (length (to_le_bytes 4 (record_len_usize e))) at 1 by done.
  rewrite read_exact_app. rewrite bool_decide_false by (apply len_not_footer; lia).
  rewrite from_to_le_bytes by (unfold MAX_RECORD_BYTES in Hs; lia).
  rewrite (proj2 (Z.ltb_ge _ _)) by lia.
  unfold read_exact at 1. rewrite decide_False; [done|].
  rewrite length_take. pose proof (length_record_body e). lia.
Qed.

Lemma next_entry_footer_prefix n rest :
  (next_entry (take n (FOOTER_MAGIC ++ rest))).1 = Ok None.
Proof.
  destruct (decide (n < 4)); [rewrite next_entry_short; [done|rewrite length_take; lia]|].
  do 4 (destruct n as [|n]; [lia|]). by cbn [FOOTER_MAGIC app take].
Qed.

(** Reading the first [n] bytes of a sequence of records and a footer: a prefix of the
    entries, holding at least those written in full. *)
Lemma read_entries_truncated es rest n :
  Forall entry_ok es →
  let r := take n (concat (record_bytes <$> es) ++ FOOTER_MAGIC ++ rest) in
  ∃ k result, read_entries (S (length r)) r = (take k es, result) ∧ k ≤ length es ∧
    (result = Ok tt ∨ result = Err "truncated record") ∧
    ∀ j, j ≤ length es → length (concat (record_bytes <$> take j es)) ≤ n → j ≤ k.
Proof.
  revert n. induction es as [|e es IH]; intros n Hes.
  { cbn [fmap list_fmap concat app]. exists 0, (Ok tt). cbn [read_entries].
    pose proof (next_entry_footer_prefix n rest) as Hf. cbn [app] in Hf.
    destruct (next_entry _) as [x y]. simpl in Hf. subst. simpl.
    split_and!; [done|lia|by left|simpl; lia]. }
  apply Forall_cons in Hes as [He Hes].
  rewrite fmap_cons, concat_cons, <- app_assoc. cbv zeta.
  destruct (decide (n < length (record_bytes e))) as [Hn|Hn].
  - rewrite take_app_le by lia. exists 0. cbn [read_entries].
    destruct (next_entry_truncated e n He Hn) as [Ht|Ht]; destruct (next_entry _) as [x y];
      cbn [fst] in Ht; subst; eexists; (split_and!; [done|simpl; lia|by auto|]);
      intros [|j] Hj; try lia; rewrite firstn_cons, fmap_cons, concat_cons, length_app; lia.
  - rewrite take_app_ge by lia. 
    rewrite read_entries_record by (done || rewrite length_app, length_record_bytes; lia).
    destruct (IH (n - length (record_bytes e)) Hes) as (k & result & Hr & Hk & Hres & Hall).
    cbv zeta in Hr. rewrite Hr. exists (S k), result. cbn [take length].
    split_and!; [done|lia|done|]. intros [|j] Hj; [lia|].
    rewrite firstn_cons, fmap_cons, concat_cons, length_app. intros Hlen.
    apply le_n_S, Hall; lia.
Qed.

Lemma write_file_bytes h es file :
  header_ok h → Forall entry_ok es → write_file h es = Ok file →
  ∃ head rest, write_header h = Ok head ∧ (∀ r, read_header (head ++ r) = Ok (h, r)) ∧
    file = head ++ concat (record_bytes <$> es) ++ FOOTER_MAGIC ++ rest.
Proof.
  intros Hh Hes. unfold write_file, writer_new.
  destruct (read_header_bytes h [] Hh) as (head & Hhead & _). rewrite Hhead. cbn [mbind res_bind].
  destruct (write_entries_ok (mkWriter head 0 0) es Hes) as (w & -> & Hw). cbn [mbind res_bind].
  intros [= <-]. exists head. eexists. split_and!; [done| |].
  - intros r. destruct (read_header_bytes h r Hh) as (head' & Hhead' & Hr). congruence.
  - unfold finish. cbn [fst]. rewrite Hw. cbn [written]. by rewrite <- app_assoc.
Qed.

Lemma written_readable h es :
  header_ok h → Forall entry_ok es →
  ∃ file, write_file h es = Ok file ∧ read_file file = Ok (h, (es, Ok tt)).
Proof.
  intros Hh Hes. unfold write_file at 1, writer_new.
  destruct (read_header_bytes h [] Hh) as (head & Hhead & _).
  destruct (write_entries_ok (mkWriter head 0 0) es Hes) as (w & Hw & _).
  rewrite Hhead. cbn [mbind res_bind]. rewrite Hw. cbn [mbind res_bind].
  eexists. split; [done|].
  assert (write_file h es = Ok (finish w).1) as Hfile.
  { unfold write_file, writer_new. rewrite Hhead. cbn [mbind res_bind]. by rewrite Hw. }
  destruct (write_file_bytes h es _ Hh Hes Hfile) as (head' & rest & _ & Hr & ->).
  unfold read_file. rewrite Hr. cbn [mbind res_bind]. rewrite read_entries_records by done.
  cbn [read_entries]. pose proof (next_entry_footer rest) as Hf.
  destruct (next_entry _) as [x y]. cbn [fst] in Hf. subst. by rewrite app_nil_r.
Qed.

(** ** Theorems *)

(** Round trip of a whole recording.  Writing a header and any entries whose
    identifiers fit their 16-bit length fields succeeds, and opening the file yields
    the same header and exactly the same entries in order, ending normally. *)
Theorem recording_roundtrip h es :
  header_ok h → Forall entry_ok es →
  ∃ file, write_file h es = Ok file ∧ read_file file = Ok (h, (es, Ok tt)).
Proof. apply written_readable. Qed.

(** Crash consistency.  If a recording is cut anywhere after its header, the
    reader yields a prefix of the recorded entries that contains every entry written
    in full, and then ends normally or with the error "truncated record"; it never
    yields a damaged entry and never panics. *)
Theorem recording_truncated h es file n :
  header_ok h → Forall entry_ok es → write_file h es = Ok file →
  ∃ head k result, write_header h = Ok head ∧
    (length head ≤ n → read_file (take n file) = Ok (h, (take k es, result))) ∧
    (result = Ok tt ∨ result = Err "truncated record") ∧ k ≤ length es ∧
    ∀ j, j ≤ length es →
      length head + length (concat (record_bytes <$> take j es)) ≤ n → j ≤ k.
Proof.
  intros Hh Hes Hfile.
  destruct (write_file_bytes h es _ Hh Hes Hfile) as (head & rest & Hhead & Hr & ->).
  destruct (read_entries_truncated es rest (n - length head) Hes)
    as (k & result & Hread & Hk & Hres & Hall).
  exists head, k, result. split_and!; [done| |done|done|].
  - intros Hn. rewrite take_app_ge by done. unfold read_file. rewrite Hr. cbn [mbind res_bind].
    cbv zeta in Hread. by rewrite Hread.
  - intros j Hj Hlen. apply Hall; lia.
Qed.

Lemma read_array_bound n buf pos l pos' :
  read_array n buf pos = Ok (l, pos') → (0 ≤ from_le_bytes l < 256 ^ Z.of_nat n)%Z.
Proof.
  unfold read_array. case_decide; [done|]. intros [= <- _].
  pose proof (from_le_bytes_bound (take n (drop pos buf))) as Hb.
  rewrite length_take, length_drop in Hb. by rewrite Nat.min_l in Hb by lia.
Qed.

Lemma slice_length buf pos len l : slice buf pos len = Ok l → length l = len.
Proof. unfold slice. case_decide; [|done]. intros [= <-]. rewrite length_take, length_drop. lia. Qed.

Lemma parse_record_node_id buf e :
  parse_record buf = Ok e → (blen (node_id e) < 2 ^ 16)%Z.
Proof.
  unfold parse_record. intros Hp. res_inv Hp. injection Hp as <-. cbn [node_id].
  repeat match goal with
  | H : slice _ _ _ = Ok _ |- _ => apply slice_length in H
  | H : read_array _ _ _ = Ok _ |- _ => apply read_array_bound in H
  | H : from_utf8 _ _ = Ok _ |- _ => unfold from_utf8 in H; case_match; [injection H as <-|done]
  end.
  unfold blen. lia.
Qed.

(** Identifiers of 64 KiB or more do not survive.  [write_entry] accepts such an
    entry, because only the total record size is checked, but the 16-bit length field
    wraps and reading never gives the entry back. *)
Theorem long_node_id_corrupts w e r :
  (2 ^ 16 ≤ blen (node_id e))%Z → (record_len_usize e ≤ MAX_RECORD_BYTES)%Z →
  (∃ w', write_entry w e = Ok w' ∧ written w' = written w ++ record_bytes e) ∧
  (next_entry (record_bytes e ++ r)).1 ≠ Ok (Some e).
Proof.
  intros Hid Hs. split; [rewrite write_entry_ok by done; by eexists|].
  pose proof (record_len_pos e). unfold next_entry, record_bytes. rewrite <- app_assoc.
  replace 4 with (length (to_le_bytes 4 (record_len_usize e))) at 1 by done.
  rewrite read_exact_app. rewrite bool_decide_false by (apply len_not_footer; lia).
  rewrite from_to_le_bytes by (unfold MAX_RECORD_BYTES in Hs; lia).
  rewrite (proj2 (Z.ltb_ge _ _)) by lia.
  rewrite <- (length_record_body e), Nat2Z.id, read_exact_app. cbn [fst].
  destruct (parse_record (record_body e)) as [e'| |] eqn:Hp; cbn; [|done..].
  intros [= ->]. apply parse_record_node_id in Hp. lia.
Qed.

(** A record whose identifier length points past its end makes the reader panic
    instead of returning an error. *)
Lemma malformed_record_panics buf id_len :
  2 ≤ length buf → id_len = from_le_bytes (take 2 buf) →
  (Z.of_nat (length buf) < 2 + id_len)%Z → parse_record buf = Panic.
Proof.
  intros H2 Hid Hlen. unfold parse_record.
  assert (read_array 2 buf 0 = Ok (take 2 buf, 2)) as ->
    by (unfold read_array; by rewrite decide_False by lia).
  cbn [mbind res_bind]. rewrite <- Hid.
  assert (slice buf 2 (Z.to_nat id_len) = Panic) as ->
    by (unfold slice; by rewrite decide_False by lia).
  done.
Qed.

Lemma write_entry_inv w e w' :
  write_entry w e = Ok w' →
  (record_len_usize e ≤ MAX_RECORD_BYTES)%Z ∧ written w' = written w ++ record_bytes e ∧
  total_messages w' = u64_wrap (total_messages w + 1) ∧
  total_bytes w' = u64_wrap (total_bytes w + blen (record_bytes e)).
Proof.
  unfold write_entry. destruct (Z.ltb_spec MAX_RECORD_BYTES (record_len_usize e)); [done|].
  case_match; [done|]. intros [= <-]. split_and!; [done..|]. cbn [total_bytes].
  unfold blen. rewrite length_record_bytes. pose proof (length_record_body e). f_equal. lia.
Qed.

Lemma u64_wrap_add_l a b : u64_wrap (u64_wrap a + b) = u64_wrap (a + b).
Proof. apply Zplus_mod_idemp_l. Qed.

Lemma write_entries_counts es m b w w' :
  total_messages w = u64_wrap m → total_bytes w = u64_wrap (blen (written w) - b) →
  write_entries w es = Ok w' →
  total_messages w' = u64_wrap (m + Z.of_nat (length es)) ∧
  total_bytes w' = u64_wrap (blen (written w') - b).
Proof.
  revert m w. induction es as [|e es IH]; intros m w Hm Hb Hw; cbn [write_entries] in Hw.
  { injection Hw as <-. rewrite Z.add_0_r. done. }
  res_inv Hw. match goal with H : write_entry _ _ = Ok _ |- _ =>
    apply write_entry_inv in H as (_ & Hwr & Hm1 & Hb1) end.
  replace (m + Z.of_nat (length (e :: es)))%Z with ((m + 1) + Z.of_nat (length es))%Z
    by (cbn [length]; lia).
  eapply IH; [| |exact Hw].
  - by rewrite Hm1, Hm, u64_wrap_add_l.
  - rewrite Hb1, Hb, u64_wrap_add_l, Hwr. f_equal. unfold blen. rewrite length_app. lia.
Qed.

(** The footer is accurate: the counters it records are the number of entries and
    the number of record bytes in the file, modulo 2^64. *)
Lemma recording_footer_accurate h es w w' :
  writer_new h = Ok w → write_entries w es = Ok w' →
  footer_messages (finish w').2 = u64_wrap (Z.of_nat (length es)) ∧
  footer_bytes (finish w').2 = u64_wrap (blen (written w') - blen (written w)).
Proof.
  unfold writer_new. intros Hn Hw. res_inv Hn. injection Hn as <-.
  apply (write_entries_counts es 0 (blen (written (mkWriter x 0 0)))) in Hw; [done..|].
  cbn [total_bytes]. by rewrite Z.sub_diag.
Qed.

(** ** The properties at concrete inputs *)

Definition demo_header : RecordingHeader :=
  mkHeader 1 1000000000 (replicate 16 Byte.x07) (String.list_byte_of_string "nodes: []").
Definition demo_entry : RecordEntry :=
  mkEntry (String.list_byte_of_string "sensor") (String.list_byte_of_string "image") 42
    [Byte.x01; Byte.xff].

Lemma demo_header_ok : header_ok demo_header.
Proof. by split. Qed.
Lemma demo_entry_ok : entry_ok demo_entry.
Proof. by split. Qed.

Lemma recording_roundtrip_witness :
  ∃ file, write_file demo_header [demo_entry; demo_entry] = Ok file
    ∧ read_file file = Ok (demo_header, ([demo_entry; demo_entry], Ok tt)).
Proof.
  apply (recording_roundtrip demo_header [demo_entry; demo_entry]).
  - exact demo_header_ok.
  - repeat constructor; exact demo_entry_ok || apply demo_entry_ok.
Defined.

Lemma recording_truncated_witness :
  ∃ head k result, write_header demo_header = Ok head ∧
    (length head ≤ 50 →
     read_file (take 50 (default [] (match write_file demo_header [demo_entry] with
                                     | Ok f => Some f | _ => None end)))
     = Ok (demo_header, (take k [demo_entry], result))) ∧
    (result = Ok tt ∨ result = Err "truncated record") ∧ k ≤ length [demo_entry] ∧
    ∀ j, j ≤ length [demo_entry] →
      length head + length (concat (record_bytes <$> take j [demo_entry])) ≤ 50 → j ≤ k.
Proof.
  apply (recording_truncated demo_header [demo_entry] _ 50).
  - exact demo_header_ok.
  - constructor; [exact demo_entry_ok|constructor].
  - vm_compute. reflexivity.
Defined.

Definition demo_long_entry : RecordEntry :=
  mkEntry (replicate (Z.to_nat (2 ^ 16)) Byte.x61) [] 0 [].

Lemma long_node_id_corrupts_witness :
  (next_entry (record_bytes demo_long_entry ++ [])).1 ≠ Ok (Some demo_long_entry).
Proof.
  apply (long_node_id_corrupts (mkWriter [] 0 0) demo_long_entry []).
  - vm_compute. discriminate.
  - vm_compute. discriminate.
Defined.

Lemma malformed_record_panics_witness : parse_record [Byte.x05; Byte.x00; Byte.x61] = Panic.
Proof.
  apply (malformed_record_panics [Byte.x05; Byte.x00; Byte.x61] 5).
  - simpl. lia.
  - reflexivity.
  - simpl. lia.
Defined.

Lemma recording_footer_accurate_witness :
  ∃ w w', writer_new demo_header = Ok w ∧ write_entries w [demo_entry] = Ok w' ∧
    footer_messages (finish w').2 = 1%Z.
Proof.
  eexists _, _. split; [reflexivity|]. split; [reflexivity|].
  exact (proj1 (recording_footer_accurate demo_header [demo_entry] _ _ eq_refl eq_refl)).
Defined.
