(* ===== verification/InputTracker.v ===== *)
(** * The node-side input tracker

    Models [apis/rust/node/src/event_stream/input_tracker.rs] and the [Event] type of
    [event.rs].  Arrow data is a type parameter: the tracker only stores it. *)

From stdpp Require Import base gmap list strings.
From S2P Require Import Prelude Message.

Inductive StopCause := Manual | CauseAllInputsClosed.

Inductive Event (A : Type) :=
| EvInput (id : DataId) (metadata : Metadata) (data : A)
| EvInputClosed (id : DataId)
| EvInputRecovered (id : DataId)
| EvNodeRestarted (id : NodeId)
| EvStop (cause : StopCause)
| EvReload (operator_id : option OperatorId)
| EvParamUpdate (key value : string)
| EvParamDeleted (key : string)
| EvNodeFailed (affected_input_ids : list DataId) (error : string) (source_node_id : NodeId)
| EvError (msg : string).
Arguments EvInput {A}. Arguments EvInputClosed {A}. Arguments EvInputRecovered {A}.
Arguments EvNodeRestarted {A}. Arguments EvStop {A}. Arguments EvReload {A}.
Arguments EvParamUpdate {A}. Arguments EvParamDeleted {A}. Arguments EvNodeFailed {A}.
Arguments EvError {A}.

Inductive InputState := Healthy | Closed.
#[export] Instance InputState_eq_dec : EqDecision InputState.
Proof. solve_decision. Defined.

Section tracker.
Context {A : Type} `{HashOrder}.

Record InputTracker := mkTracker {
  states : gmap DataId InputState;
  cache : gmap DataId A;
  source_map : gmap DataId NodeId
}.

Definition tracker_new : InputTracker := mkTracker ∅ ∅ ∅.
Definition with_source_map (sources : gmap DataId NodeId) : InputTracker :=
  mkTracker ∅ ∅ sources.

(** One round of the [NodeRestarted] loop over the source map. *)
Definition recover_input (restarted : NodeId) (states : gmap DataId InputState)
    (entry : DataId * NodeId) : gmap DataId InputState :=
  if bool_decide (entry.2 = restarted) && bool_decide (states !! entry.1 = Some Closed)
  then <[entry.1 := Healthy]> states
  else states.

Definition process_event (t : InputTracker) (event : Event A) : bool * InputTracker :=
  match event with
  | EvInput id _ data =>
      (true, mkTracker (<[id := Healthy]> (states t)) (<[id := data]> (cache t)) (source_map t))
  | EvInputClosed id =>
      (true, mkTracker (<[id := Closed]> (states t)) (cache t) (source_map t))
  | EvInputRecovered id =>
      (true, mkTracker (<[id := Healthy]> (states t)) (cache t) (source_map t))
  | EvNodeRestarted restarted =>
      (true, mkTracker (foldl (recover_input restarted) (states t) (hash_iter (source_map t)))
               (cache t) (source_map t))
  | _ => (false, t)
  end.

Definition state (t : InputTracker) (id : DataId) : option InputState := states t !! id.
Definition is_closed (t : InputTracker) (id : DataId) : bool :=
  bool_decide (states t !! id = Some Closed).
Definition last_value (t : InputTracker) (id : DataId) : option A := cache t !! id.
Definition closed_inputs (t : InputTracker) : list DataId :=
  (retain (λ p, bool_decide (p.2 = Closed)) (hash_iter (states t))).*1.
Definition any_closed (t : InputTracker) : bool :=
  existsb (λ p, bool_decide (p.2 = Closed)) (hash_iter (states t)).

Definition process_all (t : InputTracker) (events : list (Event A)) : InputTracker :=
  foldl (λ t e, (process_event t e).2) t events.

(** ** What one input sees of an event *)

Definition input_step (source : option NodeId) (id : DataId) (st : option InputState)
    (event : Event A) : option InputState :=
  match event with
  | EvInput id' _ _ | EvInputRecovered id' => if decide (id' = id) then Some Healthy else st
  | EvInputClosed id' => if decide (id' = id) then Some Closed else st
  | EvNodeRestarted n =>
      if decide (source = Some n ∧ st = Some Closed) then Some Healthy else st
  | _ => st
  end.

Definition cache_step (id : DataId) (value : option A) (event : Event A) : option A :=
  match event with
  | EvInput id' _ data => if decide (id' = id) then Some data else value
  | _ => value
  end.

Lemma recover_input_lookup restarted entries states0 id :
  NoDup entries.*1 →
  foldl (recover_input restarted) states0 entries !! id
  = if decide ((id, restarted) ∈ entries ∧ states0 !! id = Some Closed)
    then Some Healthy else states0 !! id.
Proof.
  revert states0. induction entries as [|[i n] entries IH]; intros states0 Hnd; cbn [foldl].
  { case_decide as Hd; [|done]. by destruct Hd as [[]%not_elem_of_nil _]. }
  apply NoDup_cons in Hnd as [Hi Hnd]. rewrite IH by done. clear IH. unfold recover_input. cbn [fst snd].
  assert (∀ m, (i, m) ∉ entries) as Hnot.
  { intros m Hm. apply Hi, list_elem_of_fmap. by exists (i, m). }
  repeat (case_bool_decide || case_decide); simplify_eq/=;
    rewrite ?elem_of_cons, ?lookup_insert in *; repeat case_decide; naive_solver.
Qed.

(** One input's state and cached value evolve on their own, whatever order the source
    map is iterated in. *)
Lemma process_event_lookup t event id :
  states (process_event t event).2 !! id
    = input_step (source_map t !! id) id (states t !! id) event ∧
  cache (process_event t event).2 !! id = cache_step id (cache t !! id) event ∧
  source_map (process_event t event).2 = source_map t.
Proof.
  destruct event; simpl; rewrite ?lookup_insert; try done.
  rewrite recover_input_lookup by apply NoDup_hash_keys.
  split; [|done]. pose proof (elem_of_hash_iter (source_map t) id id0).
  repeat case_decide; naive_solver.
Qed.

(** The tracker is a function of each input's own history: after any events, the
    state of an input is obtained by folding only the events about it (a restart of its
    source reopens it if closed), its last value is the data of its last [Input] event
    even when closed, and neither depends on the iteration order of the source map. *)
Theorem tracker_refines_history t events id :
  state (process_all t events) id
    = foldl (input_step (source_map t !! id) id) (state t id) events ∧
  last_value (process_all t events) id = foldl (cache_step id) (last_value t id) events.
Proof.
  unfold process_all, state, last_value. revert t.
  induction events as [|e events IH]; intros t; simpl; [done|].
  destruct (process_event_lookup t e id) as (Hs & Hc & Hm).
  specialize (IH (process_event t e).2). by rewrite Hs, Hc, Hm in IH.
Qed.

(** The closed-input queries agree with the per-input state: [closed_inputs] lists
    exactly the inputs [is_closed] accepts, once each, and [any_closed] says whether
    there is one. *)
Lemma closed_inputs_spec t :
  NoDup (closed_inputs t) ∧
  (∀ id, id ∈ closed_inputs t ↔ is_closed t id = true) ∧
  (any_closed t = true ↔ closed_inputs t ≠ []).
Proof.
  assert (∀ id, id ∈ closed_inputs t ↔ states t !! id = Some Closed) as Hin.
  { intros id. unfold closed_inputs, retain. rewrite list_elem_of_fmap. split.
    - intros ([i s] & -> & [Hs Hi]%list_elem_of_filter). simpl in *.
      apply bool_decide_eq_true in Hs. by apply elem_of_hash_iter in Hi; subst.
    - intros Hs. exists (id, Closed). split; [done|]. apply list_elem_of_filter.
      split; [done|]. by apply elem_of_hash_iter. }
  split_and!.
  - eapply sublist_NoDup; [apply (NoDup_hash_keys (states t))|].
    apply fmap_sublist, sublist_filter.
  - intros id. rewrite Hin. unfold is_closed. by rewrite bool_decide_eq_true.
  - unfold any_closed. rewrite existsb_exists. split.
    + intros ([i s] & Hi%list_elem_of_In & Hs%bool_decide_eq_true). simpl in Hs. subst.
      apply elem_of_hash_iter, Hin in Hi. intros Hnil. rewrite Hnil in Hi. by apply not_elem_of_nil in Hi.
    + destruct (closed_inputs t) as [|i l] eqn:Hl; [done|]. intros _.
      exists (i, Closed). split; [|by apply bool_decide_eq_true].
      apply list_elem_of_In, elem_of_hash_iter, Hin. left.
Qed.
End tracker.
Arguments InputTracker : clear implicits.
