(* ===== verification/InputMapping.v ===== *)
(** * Textual input mappings

    Models the [Display] and [FromStr] implementations of [InputMapping] in
    [libraries/message/src/config.rs] (also its serde form, which goes through both).
    The standard library functions they use are written out: [str::split_once],
    [u64::from_str], [f64::from_str] (grammar and correct rounding), [f64] division
    and [Duration::from_secs_f64].  [to_lowercase] is the ASCII one: the level names
    it is compared with contain no letter that a non-ASCII character lowers to. *)

From Stdlib Require Import ZArith Lia Ascii DecimalString DecimalN DecimalFacts.
From stdpp Require Import base list strings.
From S2P Require Import Prelude Message.

(** ** Strings *)

Fixpoint split_once (sep : ascii) (s : string) : option (string * string) :=
  match s with
  | EmptyString => None
  | String c s =>
      if bool_decide (c = sep) then Some (EmptyString, s)
      else match split_once sep s with
           | Some (a, b) => Some (String c a, b)
           | None => None
           end
  end.

Definition ascii_lower (c : ascii) : ascii :=
  let n := N_of_ascii c in
  if ((65 <=? n) && (n <=? 90))%N then ascii_of_N (n + 32) else c.
Fixpoint to_lowercase (s : string) : string :=
  match s with EmptyString => EmptyString | String c s => String (ascii_lower c) (to_lowercase s) end.

(** ** Integers *)

Definition print_u64 (z : Z) : string := NilZero.string_of_uint (N.to_uint (Z.to_N z)).

(** [u64::from_str]: an optional plus sign, then one or more digits. *)
Definition strip_plus (s : string) : string :=
  match s with String "+" rest => rest | _ => s end.
Definition parse_u64 (s : string) : option Z :=
  match NilZero.uint_of_string (strip_plus s) with
  | Some d => let z := Z.of_N (N.of_uint d) in if (z <=? u64_max)%Z then Some z else None
  | None => None
  end.

(** ** Floating point: non-negative [f64] values as bit patterns *)

Definition f64_inf : Z := 2047 * 2 ^ 52.

(** The [f64] nearest to [n / d], ties to even, for [0 <= n] and [0 < d]. *)
Definition f64_of_ratio (n d : Z) : Z :=
  if (n =? 0)%Z then 0%Z else
  let e0 := (Z.log2 n - Z.log2 d)%Z in
  (* e0 or e0 - 1 is the binary exponent of the quotient *)
  let e := if (n * 2 ^ Z.max 0 (- e0) <? d * 2 ^ Z.max 0 e0)%Z then (e0 - 1)%Z else e0 in
  let e := Z.max e (-1022) in
  let q := div_round_even (n * 2 ^ Z.max 0 (52 - e)) (d * 2 ^ Z.max 0 (e - 52)) in
  Z.min ((e + 1022) * 2 ^ 52 + q) f64_inf.

(** The value of a finite non-negative [f64] as a ratio. *)
Definition f64_ratio (bits : Z) : Z * Z :=
  let exp := Z.shiftr bits 52 in
  let frac := Z.land bits (2 ^ 52 - 1) in
  let mant := if (exp =? 0)%Z then frac else (frac + 2 ^ 52)%Z in
  let e := (Z.max exp 1 - 1075)%Z in
  (mant * 2 ^ Z.max 0 e, 2 ^ Z.max 0 (- e))%Z.

(** [1.0 / x]. *)
Definition f64_recip (bits : Z) : Z :=
  let '(n, d) := f64_ratio bits in f64_of_ratio d n.

Inductive f64_class := FNan | FInf | FFinite (negative : bool) (bits : Z).

Fixpoint span_digits (s : string) : list Z * string :=
  match s with
  | String c rest =>
      let n := Z.of_N (N_of_ascii c) in
      if ((48 <=? n) && (n <=? 57))%Z
      then let '(ds, r) := span_digits rest in ((n - 48)%Z :: ds, r)
      else ([], s)
  | EmptyString => ([], EmptyString)
  end.
Definition digits_val (ds : list Z) : Z := foldl (λ acc d, acc * 10 + d)%Z 0%Z ds.

Definition span_sign (s : string) : bool * string :=
  match s with
  | String "-" r => (true, r)
  | String "+" r => (false, r)
  | _ => (false, s)
  end.

Definition parse_exponent (s : string) : option Z :=
  match s with
  | EmptyString => Some 0%Z
  | String c r =>
      if bool_decide (c = "e"%char) || bool_decide (c = "E"%char) then
        let '(neg, r) := span_sign r in
        match span_digits r with
        | (d :: ds, EmptyString) =>
            let v := digits_val (d :: ds) in Some (if neg then (- v)%Z else v)
        | _ => None
        end
      else None
  end.

(** [f64::from_str]. *)
Definition parse_f64 (s : string) : option f64_class :=
  let '(neg, r) := span_sign s in
  let lower := to_lowercase r in
  if bool_decide (lower = "inf") || bool_decide (lower = "infinity") then Some FInf
  else if bool_decide (lower = "nan") then Some FNan
  else
    let '(int, r) := span_digits r in
    let '(frac, r) := match r with String "." r => span_digits r | _ => ([], r) end in
    match int ++ frac, parse_exponent r with
    | [], _ | _, None => None
    | ds, Some e =>
        let k := (e - Z.of_nat (length frac))%Z in
        let bits := f64_of_ratio (digits_val ds * 10 ^ Z.max 0 k) (10 ^ Z.max 0 (- k)) in
        Some (if (bits =? f64_inf)%Z then FInf else FFinite neg bits)
    end.

(** ** Log levels *)

Definition parse_log_level_str (s : string) : res LogLevelOrStdout :=
  let l := to_lowercase s in
  if bool_decide (l = "stdout") then Ok LStdout
  else if bool_decide (l = "error") then Ok (LLevel LError)
  else if bool_decide (l = "warn") then Ok (LLevel LWarn)
  else if bool_decide (l = "info") then Ok (LLevel LInfo)
  else if bool_decide (l = "debug") then Ok (LLevel LDebug)
  else if bool_decide (l = "trace") then Ok (LLevel LTrace)
  else Err "unknown log level".

Definition format_log_level (level : LogLevelOrStdout) : string :=
  match level with
  | LStdout => "stdout"
  | LLevel LError => "error"
  | LLevel LWarn => "warn"
  | LLevel LInfo => "info"
  | LLevel LDebug => "debug"
  | LLevel LTrace => "trace"
  end.

(** ** Durations *)

Definition NANOS_PER_SEC : Z := 1000000000.
Definition NANOS_PER_MILLI : Z := 1000000.

Definition format_duration (interval : Duration) : string :=
  let subsec_millis := ((interval mod NANOS_PER_SEC) / NANOS_PER_MILLI)%Z in
  if (subsec_millis =? 0)%Z then "secs/" ++ print_u64 (interval / NANOS_PER_SEC)
  else "millis/" ++ print_u64 (interval / NANOS_PER_MILLI).

(** ** [Display] and [FromStr] *)

Definition mapping_source (m : InputMapping) : NodeId :=
  match m with MUser u => source u | MTimer _ | MLogs _ => "dora" end.

Definition display (m : InputMapping) : string :=
  match m with
  | MTimer interval => "dora/timer/" ++ format_duration interval
  | MLogs filter =>
      "dora/logs" ++
      match min_level filter with
      | Some level =>
          "/" ++ format_log_level level ++
          match node_filter filter with Some node => "/" ++ node | None => EmptyString end
      | None => EmptyString
      end
  | MUser u => source u ++ "/" ++ output u
  end.

Definition parse_interval (unit value : string) : res Duration :=
  if bool_decide (unit = "secs") then
    v ← res_of_option "secs must be an integer" (parse_u64 value); Ok (v * NANOS_PER_SEC)%Z
  else if bool_decide (unit = "millis") then
    v ← res_of_option "millis must be an integer" (parse_u64 value); Ok (v * NANOS_PER_MILLI)%Z
  else if bool_decide (unit = "hz") then
    hz ← res_of_option "hz must be a positive number" (parse_f64 value);
    match hz with
    | FFinite false bits =>
        if (bits =? 0)%Z then Err "hz must be a positive finite number"
        else duration_from_secs_f64 (f64_recip bits)
    | _ => Err "hz must be a positive finite number"
    end
  else Err "timer unit must be `secs`, `millis`, or `hz`".

Definition parse_logs (rest : string) : res InputMapping :=
  let '(level_str, node) :=
    match split_once "/" rest with
    | Some (level, node) => (Some level, Some node)
    | None => if bool_decide (rest = EmptyString) then (None, None) else (Some rest, None)
    end in
  min ← match level_str with
        | Some l => Some <$> parse_log_level_str l
        | None => Ok None
        end;
  Ok (MLogs (mkLogFilter min node)).

Definition from_str (s : string) : res InputMapping :=
  '(src, out) ← res_of_option "input must start with `<source>/`" (split_once "/" s);
  if bool_decide (src = "dora") then
    match split_once "/" out with
    | Some (kind, rest) =>
        if bool_decide (kind = "timer") then
          '(unit, value) ← res_of_option "timer input must specify unit and value"
                             (split_once "/" rest);
          MTimer <$> parse_interval unit value
        else if bool_decide (kind = "logs") then parse_logs rest
        else Err "unknown dora input"
    | None =>
        if bool_decide (out = "logs") then Ok (MLogs (mkLogFilter None None))
        else Err "dora input has invalid format"
    end
  else
    (* the [From<String>] conversions of the two identifiers panic when invalid *)
    src ← node_id_from src;
    out ← data_id_from out;
    Ok (MUser (mkUserMapping src out)).

(** ** Lemmas *)

Open Scope string_scope.

Definition no_sep (sep : ascii) (s : string) : bool :=
  string_forall (λ c, negb (bool_decide (c = sep))) s.

Lemma split_once_app sep a b :
  no_sep sep a = true → split_once sep (a ++ String sep b) = Some (a, b).
Proof.
  unfold no_sep. induction a as [|c a IH]; simpl; [by rewrite bool_decide_true|].
  intros [Hc Ha]%andb_true_iff. apply negb_true_iff in Hc. rewrite Hc. by rewrite IH.
Qed.

Lemma split_once_inv sep s a b : split_once sep s = Some (a, b) → s = a ++ String sep b.
Proof.
  revert a. induction s as [|c s IH]; intros a; simpl; [done|]. case_bool_decide.
  { intros; by simplify_eq. }
  destruct (split_once sep s) as [[a' b']|]; [|done]. intros; simplify_eq.
  change (String c s = String c (a' ++ String sep b)). f_equal. by apply IH.
Qed.

Lemma string_forall_impl (p q : ascii → bool) s :
  (∀ c, p c = true → q c = true) → string_forall p s = true → string_forall q s = true.
Proof.
  intros Hpq. induction s as [|c s IH]; simpl; [done|]. rewrite !andb_true_iff. naive_solver.
Qed.

Lemma node_id_no_slash s : validate_node_id s = Ok () → no_sep "/" s = true.
Proof.
  unfold validate_node_id. case_bool_decide; [done|].
  destruct (string_forall node_id_char s) eqn:Hs; [|done]. intros _.
  eapply string_forall_impl; [|exact Hs]. intros c Hc. apply negb_true_iff, bool_decide_eq_false.
  intros ->. by vm_compute in Hc.
Qed.

Lemma to_uint_nonnil n : N.to_uint n ≠ Decimal.Nil.
Proof. destruct n; [done|]. apply DecimalPos.Unsigned.to_uint_nonnil. Qed.

Lemma parse_print_u64 z : (0 ≤ z ≤ u64_max)%Z → parse_u64 (print_u64 z) = Some z.
Proof.
  intros Hz. unfold parse_u64, print_u64. pose proof (to_uint_nonnil (Z.to_N z)) as Hnil.
  assert (∀ d, d ≠ Decimal.Nil → strip_plus (NilZero.string_of_uint d) = NilZero.string_of_uint d)
    as Hplus by by intros [].
  rewrite Hplus by done.
  rewrite NilZero.usu, Unsigned.of_to by done.
  rewrite Z2N.id by lia. by rewrite (proj2 (Z.leb_le _ _)) by lia.
Qed.

Lemma parse_u64_bound s z : parse_u64 s = Some z → (0 ≤ z ≤ u64_max)%Z.
Proof.
  unfold parse_u64. case_match; [|done]. case_match eqn:Hz; [|done].
  intros; simplify_eq. apply Z.leb_le in Hz. lia.
Qed.

Lemma parse_format_level l : parse_log_level_str (format_log_level l) = Ok l.
Proof. by destruct l as [|[]]. Qed.

Lemma format_level_no_slash l : no_sep "/" (format_log_level l) = true.
Proof. by destruct l as [|[]]. Qed.

(** The mappings whose text determines them. *)
Definition printable (m : InputMapping) : Prop :=
  match m with
  | MTimer i =>
      (0 ≤ i)%Z ∧ (i mod NANOS_PER_MILLI = 0)%Z ∧
      ((i / NANOS_PER_MILLI ≤ u64_max)%Z ∨
       (i mod NANOS_PER_SEC = 0)%Z ∧ (i / NANOS_PER_SEC ≤ u64_max)%Z)
  | MLogs f => is_Some (node_filter f) → is_Some (min_level f)
  | MUser u =>
      validate_node_id (source u) = Ok () ∧ validate_data_id (output u) = Ok () ∧
      source u ≠ "dora"
  end.

Lemma interval_parts i :
  (0 ≤ i)%Z → (i mod NANOS_PER_MILLI = 0)%Z →
  ((i mod NANOS_PER_SEC) / NANOS_PER_MILLI = 0 ↔ i mod NANOS_PER_SEC = 0)%Z.
Proof.
  unfold NANOS_PER_SEC, NANOS_PER_MILLI. intros Hi Hm.
  pose proof (Z.mod_pos_bound i 1000000000 ltac:(lia)).
  split; [|by intros ->]. intros Hq. apply Z.div_small_iff in Hq; [|lia].
  assert ((i mod 1000000000) mod 1000000 = 0)%Z as Hmm.
  { rewrite <- Hm. rewrite <- Znumtheory.Zmod_div_mod; [done|lia|lia|]. by exists 1000%Z. }
  rewrite Z.mod_small in Hmm by lia. done.
Qed.

Lemma format_duration_truncated i :
  (0 ≤ i)%Z → format_duration (i / NANOS_PER_MILLI * NANOS_PER_MILLI) = format_duration i.
Proof.
  intros Hi. unfold format_duration, NANOS_PER_SEC, NANOS_PER_MILLI.
  replace 1000000000%Z with (1000000 * 1000)%Z by done.
  rewrite <- !Z.div_div, !Z.rem_mul_r by lia.
  rewrite Z.div_mul, Z.mod_mul, Z.add_0_l by lia.
  rewrite (Z.mul_comm 1000000 (_ mod 1000)), Z.div_mul, Z.div_add by lia.
  by rewrite (Z.div_small (i mod 1000000)) by (apply Z.mod_pos_bound; lia).
Qed.

Lemma parse_format_duration i :
  printable (MTimer i) →
  ∃ unit value, format_duration i = unit ++ String "/" value ∧ no_sep "/" unit = true ∧
    parse_interval unit value = Ok i.
Proof.
  intros (Hi & Hm & Hb). unfold format_duration.
  pose proof (interval_parts i Hi Hm) as Hparts.
  pose proof (Z.div_mod i NANOS_PER_SEC ltac:(done)) as Hs.
  pose proof (Z.div_mod i NANOS_PER_MILLI ltac:(done)) as Hms.
  pose proof (Z.div_pos i NANOS_PER_SEC Hi ltac:(done)) as Hs0.
  pose proof (Z.div_pos i NANOS_PER_MILLI Hi ltac:(done)) as Hms0.
  destruct (Z.eqb_spec ((i mod NANOS_PER_SEC) / NANOS_PER_MILLI) 0) as [H0|H0].
  - apply Hparts in H0. exists "secs", (print_u64 (i / NANOS_PER_SEC)). split_and!; [done..|].
    unfold parse_interval. rewrite bool_decide_true by done.
    rewrite parse_print_u64 by (unfold NANOS_PER_SEC, NANOS_PER_MILLI in *; lia).
    simpl. f_equal. lia.
  - exists "millis", (print_u64 (i / NANOS_PER_MILLI)). split_and!; [done..|].
    unfold parse_interval. rewrite bool_decide_false, bool_decide_true by done.
    rewrite parse_print_u64; [simpl; f_equal; lia|]. rewrite Hparts in H0. lia.
Qed.

(** Runs the next bind or comparison with a literal. *)
Ltac res_step :=
  cbn [mbind res_bind res_of_option]; repeat (rewrite bool_decide_true by done);
  repeat (rewrite bool_decide_false by (by vm_compute)).

(** ** Theorems *)

Lemma from_str_display m : printable m → from_str (display m) = Ok m.
Proof.
  intros Hm. destruct m as [i|[lvl node]|[src out]]; unfold display, from_str.
  - destruct (parse_format_duration i Hm) as (unit & value & -> & Hu & Hp).
    change (split_once "/" ("dora/timer/" ++ unit ++ String "/" value))
      with (Some ("dora", "timer/" ++ unit ++ String "/" value)). res_step.
    change (split_once "/" ("timer/" ++ unit ++ String "/" value))
      with (Some ("timer", unit ++ String "/" value)). res_step.
    rewrite split_once_app by done. res_step. by rewrite Hp.
  - destruct lvl as [lvl|]; simpl in Hm.
    2: { destruct node; [by destruct Hm|]. done. }
    cbn [min_level node_filter]. set (suffix := match node with Some _ => _ | None => _ end).
    change (split_once "/" ("dora/logs" ++ "/" ++ format_log_level lvl ++ suffix))
      with (Some ("dora", "logs/" ++ format_log_level lvl ++ suffix)). res_step.
    change (split_once "/" ("logs/" ++ format_log_level lvl ++ suffix))
      with (Some ("logs", format_log_level lvl ++ suffix)). res_step. unfold parse_logs, suffix.
    destruct node as [node|].
    + change ("/" ++ node) with (String "/" node).
      rewrite split_once_app by apply format_level_no_slash. by rewrite parse_format_level.
    + by destruct lvl as [|[]].
  - destruct Hm as (Hs & Ho & Hd). cbn [source output] in *.
    change ("/" ++ out) with (String "/" out).
    rewrite split_once_app by by apply node_id_no_slash. res_step.
    unfold node_id_from, data_id_from. rewrite Hs. res_step. by rewrite Ho.
Qed.

Lemma parse_interval_printable unit value i :
  parse_interval unit value = Ok i → unit ≠ "hz" → printable (MTimer i).
Proof.
  unfold parse_interval, NANOS_PER_SEC, NANOS_PER_MILLI. intros Hp Hhz.
  case_bool_decide; [|case_bool_decide; [|by case_bool_decide]]; res_inv Hp;
    match goal with H : res_of_option _ ?o = Ok ?x |- _ =>
      destruct o eqn:Hv; [|done]; cbn in H; injection H as <- end;
    apply parse_u64_bound in Hv; injection Hp as <-;
    unfold printable, NANOS_PER_SEC, NANOS_PER_MILLI; split_and!; try lia.
  - replace (z * 1000000000)%Z with (z * 1000 * 1000000)%Z by lia. by rewrite Z.mod_mul.
  - right. rewrite Z.mod_mul, Z.div_mul by lia. lia.
  - by rewrite Z.mod_mul.
  - left. rewrite Z.div_mul by lia. lia.
Qed.

Lemma parse_logs_printable rest m : parse_logs rest = Ok m → printable m.
Proof.
  unfold parse_logs. intros Hp. destruct (split_once "/" rest) as [[l n]|].
  - res_inv Hp. injection Hp as <-. destruct (parse_log_level_str l); simplify_eq/=. by eexists.
  - case_bool_decide; res_inv Hp; injection Hp as <-; intros [? [=]].
Qed.

(** What the parser accepts is printable, except timers given in hertz: so any
    other accepted text survives being stored as its mapping and printed again. *)
Theorem from_str_stable s m :
  from_str s = Ok m → (∀ v, s ≠ "dora/timer/hz/" ++ v) → from_str (display m) = Ok m.
Proof.
  intros Hp Hhz. apply from_str_display.
  unfold from_str in Hp. destruct (split_once "/" s) as [[src out]|] eqn:Hs; [|done].
  apply split_once_inv in Hs. cbn [res_of_option mbind res_bind] in Hp. case_bool_decide as Hd.
  - destruct (split_once "/" out) as [[kind rest]|] eqn:Ho.
    2: { case_bool_decide; [|done]. injection Hp as <-. by intros [? [=]]. }
    apply split_once_inv in Ho. case_bool_decide; [|case_bool_decide; [|done]].
    2: by eapply parse_logs_printable.
    destruct (split_once "/" rest) as [[unit value]|] eqn:Hr; [|done].
    apply split_once_inv in Hr. cbn [res_of_option mbind res_bind] in Hp.
    destruct (parse_interval unit value) as [i| |] eqn:Hi; [|done..].
    injection Hp as <-. eapply parse_interval_printable; [exact Hi|].
    intros ->. by apply (Hhz value); subst.
  - res_inv Hp. unfold node_id_from, data_id_from in *. injection Hp as <-.
    destruct (validate_node_id src) as [[]| |] eqn:?; simplify_eq/=.
    destruct (validate_data_id out) as [[]| |] eqn:?; simplify_eq/=. done.
Qed.

(** Timers are printed in whole milliseconds: an interval that is none, as those of
    timers in hertz, comes back truncated. *)
Theorem timer_truncated i :
  (0 ≤ i)%Z → (i / NANOS_PER_MILLI < 2 ^ 64)%Z →
  from_str (display (MTimer i)) = Ok (MTimer (i / NANOS_PER_MILLI * NANOS_PER_MILLI)).
Proof.
  intros Hi Hb. rewrite <- (from_str_display (MTimer (i / NANOS_PER_MILLI * NANOS_PER_MILLI))).
  - unfold display. by rewrite format_duration_truncated.
  - pose proof (Z.div_pos i NANOS_PER_MILLI Hi ltac:(done)). unfold printable, NANOS_PER_MILLI in *.
    split_and!; [lia|by apply Z.mod_mul|left; rewrite Z.div_mul; unfold u64_max; lia].
Qed.

(** Printing then parsing gives the mapping back, for every mapping with valid
    identifiers, a timer interval of whole milliseconds in range, and no node filter
    without a level. *)
Theorem input_mapping_roundtrip m : printable m → from_str (display m) = Ok m.
Proof. exact (from_str_display m). Qed.

(** A source or output with characters outside the identifier alphabet, or an empty
    one, makes the parser panic; it is not reported as an error. *)
Theorem from_str_invalid_id_panics s src out :
  split_once "/" s = Some (src, out) → src ≠ "dora" →
  validate_node_id src ≠ Ok () ∨ validate_data_id out ≠ Ok () →
  from_str s = Panic.
Proof.
  intros Hs Hd Hid. unfold from_str. rewrite Hs. cbn [res_of_option mbind res_bind].
  rewrite bool_decide_false by done. unfold node_id_from, data_id_from.
  destruct (validate_node_id src) as [[]| |]; [|done..]. cbn [mbind res_bind].
  destruct (validate_data_id out) as [[]| |]; [by destruct Hid|done..].
Qed.

(** ** The properties at concrete inputs *)

Lemma input_mapping_roundtrip_witness :
  from_str (display (MTimer 2500000000)) = Ok (MTimer 2500000000).
Proof.
  apply (input_mapping_roundtrip (MTimer 2500000000)).
  split_and!; [lia|reflexivity|left; vm_compute; discriminate].
Defined.

Lemma timer_truncated_witness :
  from_str "dora/timer/hz/30" = Ok (MTimer 33333333) ∧
  from_str (display (MTimer 33333333)) = Ok (MTimer 33000000) ∧
  from_str "dora/timer/hz/2000" = Ok (MTimer 500000) ∧
  from_str (display (MTimer 500000)) = Ok (MTimer 0).
Proof.
  split_and!; [by vm_compute| |by vm_compute|].
  - apply (timer_truncated 33333333); [lia|reflexivity].
  - apply (timer_truncated 500000); [lia|reflexivity].
Defined.

Lemma from_str_stable_witness :
  from_str (display (MLogs (mkLogFilter (Some (LLevel LInfo)) (Some "cam"))))
  = Ok (MLogs (mkLogFilter (Some (LLevel LInfo)) (Some "cam"))).
Proof.
  apply (from_str_stable "dora/logs/INFO/cam"); [vm_compute; reflexivity|].
  intros v Hv. discriminate Hv.
Defined.

Lemma from_str_invalid_id_panics_witness : from_str "camera/" = Panic.
Proof.
  apply (from_str_invalid_id_panics "camera/" "camera" EmptyString);
    [reflexivity|discriminate|right; discriminate].
Defined.
