(* ===== verification/Channel.v ===== *)
(** * Event channels of the daemon

    Models [binaries/daemon/src/event_types.rs] (channel helpers and constants) and the
    channel operations of tokio and flume the daemon uses.  A handle (an [mpsc::Sender],
    an [Arc<AtomicU64>] counter, a process-operation sender) is a number; the object it
    points to is in a store kept beside the dataflow that owns the handle.  The node
    event channel and the pending counter of one [Subscribe] request are created
    together by the listener, so they share a handle and a store entry.  Timestamps
    attached to messages are left out. *)

From Stdlib Require Import ZArith Lia.
From stdpp Require Import base gmap list strings.
From S2P Require Import Prelude Message.

Abbreviation OutputId := (NodeId * DataId)%type (only parsing).
Abbreviation SubId := N (only parsing).
Abbreviation DropSubId := N (only parsing).
Abbreviation ProcId := N (only parsing).
Abbreviation ReplyId := N (only parsing).

Definition NODE_EVENT_CHANNEL_CAPACITY : Z := 1000.
Definition CONTROL_EVENT_HEADROOM : Z := 50.

(** ** Node event channels *)

(** One [mpsc::channel(NODE_EVENT_CHANNEL_CAPACITY)] with its pending counter: the
    events in flight, those the listener has taken, whether the receiver exists. *)
Record Subscription := mkSub {
  in_flight : list NodeEvent;
  taken : list NodeEvent;
  rx_alive : bool;
  counter : Z
}.

Definition new_subscription : Subscription := mkSub [] [] true 0.

Definition is_control (event : NodeEvent) : bool :=
  match event with Input _ _ _ => false | _ => true end.

Definition capacity (s : Subscription) : Z :=
  NODE_EVENT_CHANNEL_CAPACITY - Z.of_nat (length (in_flight s)).

Inductive TrySend := Sent | SendFull | SendClosed.

Definition try_send (s : Subscription) (event : NodeEvent) : TrySend * Subscription :=
  if negb (rx_alive s) then (SendClosed, s)
  else if (capacity s <=? 0)%Z then (SendFull, s)
  else (Sent, {| s with in_flight := in_flight s ++ [event] |}).

(** [Ok(b)] is [Some b]; the error of a closed channel is [None]. *)
Definition send_with_timestamp (s : Subscription) (event : NodeEvent)
    : option bool * Subscription :=
  if negb (is_control event) && (capacity s <? CONTROL_EVENT_HEADROOM)%Z
  then (Some false, s)
  else match try_send s event with
       | (Sent, s) => (Some true, s)
       | (SendClosed, s) => (None, s)
       | (SendFull, s) => (Some false, s)
       end.

(** [counter.fetch_add(1)] by the daemon. *)
Definition inc_counter (s : Subscription) : Subscription :=
  {| s with counter := fetch_add (counter s) 1 |}.

(** The listener takes the oldest event and does [counter.fetch_sub(1)]. *)
Definition recv_event (s : Subscription) : option NodeEvent * Subscription :=
  match in_flight s with
  | [] => (None, s)
  | event :: rest =>
      (Some event, {| s with in_flight := rest; taken := taken s ++ [event];
                             counter := fetch_sub (counter s) 1 |})
  end.

(** The receiver is dropped: the channel closes and its content is lost. *)
Definition drop_receiver (s : Subscription) : Subscription :=
  {| s with in_flight := []; rx_alive := false |}.

(** [Sender::send(msg).await] on a full channel: it resumes when the listener has taken
    an event; the error of a closed channel is [false]. *)
Definition send_blocking (s : Subscription) (event : NodeEvent) : bool * Subscription :=
  if negb (rx_alive s) then (false, s)
  else
    let s := if (capacity s <=? 0)%Z then (recv_event s).2 else s in
    (true, {| s with in_flight := in_flight s ++ [event] |}).

(** ** Drop-event channels: unbounded *)

Record DropSubscription := mkDropSub {
  drop_events : list NodeDropEvent;
  drop_rx_alive : bool
}.

Definition send_drop_with_timestamp (s : DropSubscription) (event : NodeDropEvent)
    : bool * DropSubscription :=
  if drop_rx_alive s
  then (true, {| s with drop_events := drop_events s ++ [event] |})
  else (false, s).

(** ** Process-operation channels

    The receiving end lives as long as the supervised process.  [submit] is assumed not
    to find the two-slot channel full: the supervisor takes operations as they come. *)

Inductive ProcessOperation := SoftKill | Kill.

Record ProcessChannel := mkProc {
  operations : list ProcessOperation;
  op_rx_alive : bool
}.

Definition submit (p : ProcessChannel) (operation : ProcessOperation) : bool * ProcessChannel :=
  if op_rx_alive p
  then (true, {| p with operations := operations p ++ [operation] |})
  else (false, p).

(** ** Channel invariant

    The pending counter of a live channel is the number of events in flight, and data
    events fill at most all but 49 of the slots (a data event is accepted when at least
    50 are free). *)

Definition is_data (event : NodeEvent) : bool := negb (is_control event).
Definition data_count (l : list NodeEvent) : Z := Z.of_nat (length (retain is_data l)).
Definition control_count (l : list NodeEvent) : Z := Z.of_nat (length (retain is_control l)).
Definition MAX_DATA_EVENTS : Z := NODE_EVENT_CHANNEL_CAPACITY - CONTROL_EVENT_HEADROOM + 1.

Record sub_ok (s : Subscription) : Prop := {
  sub_bounded : (Z.of_nat (length (in_flight s)) ≤ NODE_EVENT_CHANNEL_CAPACITY)%Z;
  sub_headroom : (data_count (in_flight s) ≤ MAX_DATA_EVENTS)%Z;
  sub_counted : rx_alive s = true → counter s = Z.of_nat (length (in_flight s))
}.

(** When the daemon may put an event into a channel. *)
Definition has_room (s : Subscription) (event : NodeEvent) : Prop :=
  rx_alive s = true ∧ (0 < capacity s)%Z ∧
  (is_data event = true → (CONTROL_EVENT_HEADROOM ≤ capacity s)%Z).

Definition push_event (s : Subscription) (event : NodeEvent) : Subscription :=
  {| s with in_flight := in_flight s ++ [event] |}.

(** Sending and, when it succeeded, counting. *)
Definition send_counted (s : Subscription) (event : NodeEvent) : option bool * Subscription :=
  match send_with_timestamp s event with
  | (Some true, s) => (Some true, inc_counter s)
  | r => r
  end.

Lemma count_split l : (data_count l + control_count l = Z.of_nat (length l))%Z.
Proof.
  unfold data_count, control_count, retain, is_data. induction l as [|e l IH]; [done|].
  rewrite !filter_cons. destruct (is_control e); simpl; lia.
Qed.

Lemma data_count_snoc l e :
  data_count (l ++ [e]) = (data_count l + if is_data e then 1 else 0)%Z.
Proof.
  unfold data_count. rewrite retain_app, length_app. unfold retain at 2. rewrite filter_cons, filter_nil.
  destruct (is_data e); simpl; lia.
Qed.

Lemma data_count_le l : (data_count l ≤ Z.of_nat (length l))%Z.
Proof. unfold data_count. pose proof (length_retain is_data l). lia. Qed.

Lemma sub_ok_new : sub_ok new_subscription.
Proof. by split. Qed.

Lemma push_event_counted s event :
  sub_ok s → has_room s event → sub_ok (inc_counter (push_event s event)).
Proof.
  intros [Hb Hh Hc] (Hrx & Hcap & Hroom). unfold capacity in *. pose proof (data_count_le (in_flight s)).
  split; simpl; rewrite ?length_app, ?data_count_snoc; simpl.
  - lia.
  - unfold MAX_DATA_EVENTS in *. destruct (is_data event); [|lia]. specialize (Hroom eq_refl). lia.
  - intros _. rewrite Hc by done. unfold fetch_add, NODE_EVENT_CHANNEL_CAPACITY in *.
    rewrite u64_wrap_small; lia.
Qed.

Lemma try_send_Sent s event s' :
  try_send s event = (Sent, s') →
  rx_alive s = true ∧ (0 < capacity s)%Z ∧ s' = push_event s event.
Proof.
  unfold try_send. destruct (negb (rx_alive s)) eqn:Hrx; [done|]. apply negb_false_iff in Hrx.
  destruct (Z.leb_spec (capacity s) 0); [done|]. intros; by simplify_eq.
Qed.

Lemma try_send_unsent s event r s' : try_send s event = (r, s') → r ≠ Sent → s' = s.
Proof. unfold try_send. repeat case_match; intros; by simplify_eq. Qed.

Lemma send_with_timestamp_true s event s' :
  send_with_timestamp s event = (Some true, s') → has_room s event ∧ s' = push_event s event.
Proof.
  unfold send_with_timestamp, has_room, is_data. case_match eqn:Hc; [done|].
  destruct (try_send s event) as [[] s1] eqn:Ht; intros; simplify_eq.
  apply try_send_Sent in Ht as (Hrx & Hcap & ->). split_and!; [done..| |done].
  intros Hd. rewrite Hd in Hc. simpl in Hc. lia.
Qed.

Lemma send_with_timestamp_other s event r s' :
  send_with_timestamp s event = (r, s') → r ≠ Some true → s' = s.
Proof.
  unfold send_with_timestamp. case_match; [by intros; simplify_eq|].
  destruct (try_send s event) as [[] s1] eqn:Ht; intros ??; simplify_eq;
    by eapply try_send_unsent.
Qed.

Lemma send_counted_cases s event :
  (has_room s event ∧ send_counted s event = (Some true, inc_counter (push_event s event)))
  ∨ ∃ r, r ≠ Some true ∧ send_counted s event = (r, s).
Proof.
  unfold send_counted. destruct (send_with_timestamp s event) as [[[]|] s'] eqn:Hsend.
  - apply send_with_timestamp_true in Hsend as [Hroom ->]. by left.
  - rewrite (send_with_timestamp_other _ _ _ _ Hsend) by done. right. by exists (Some false).
  - rewrite (send_with_timestamp_other _ _ _ _ Hsend) by done. right. by exists None.
Qed.

(** Sending succeeds exactly when the event is admissible. *)
Lemma send_counted_room s event :
  has_room s event → send_counted s event = (Some true, inc_counter (push_event s event)).
Proof.
  intros (Hrx & Hcap & Hd). unfold send_counted, send_with_timestamp, try_send, is_data in *.
  replace (negb (rx_alive s)) with false by by rewrite Hrx.
  rewrite (proj2 (Z.leb_gt (capacity s) 0)) by lia.
  destruct (negb (is_control event)) eqn:Hc; simpl; [|done].
  specialize (Hd eq_refl). by rewrite (proj2 (Z.ltb_ge _ _)) by lia.
Qed.

Lemma sub_ok_send_counted s event : sub_ok s → sub_ok (send_counted s event).2.
Proof.
  intros Hs. destruct (send_counted_cases s event) as [[Hroom ->]|(r & _ & ->)]; [|done].
  by apply push_event_counted.
Qed.

Lemma sub_ok_recv s : sub_ok s → sub_ok (recv_event s).2.
Proof.
  intros Hs. unfold recv_event. destruct (in_flight s) as [|e rest] eqn:Hq; simpl; [done|].
  destruct Hs as [Hb Hh Hc]. rewrite Hq in Hb, Hh, Hc.
  change (e :: rest) with ([e] ++ rest) in Hh. unfold data_count in *. rewrite retain_app, length_app in Hh.
  simpl in *. split; simpl; [lia|unfold data_count; lia|]. intros Hrx. rewrite Hc by done.
  unfold fetch_sub, NODE_EVENT_CHANNEL_CAPACITY in *. rewrite u64_wrap_small; lia.
Qed.

Lemma sub_ok_drop s : sub_ok (drop_receiver s).
Proof. by split. Qed.

Lemma sub_ok_send_blocking s event r s' :
  is_control event = true → sub_ok s → send_blocking s event = (r, s') →
  sub_ok (if r then inc_counter s' else s').
Proof.
  intros Hctl Hs. unfold send_blocking.
  destruct (negb (rx_alive s)) eqn:Hrx; intros; simplify_eq; [done|]. apply negb_false_iff in Hrx.
  assert (is_data event = true → False) as Hd by (unfold is_data; by rewrite Hctl).
  destruct (Z.leb_spec (capacity s) 0) as [Hfull|].
  2: { apply (push_event_counted s event); [done|]. split_and!; [done..|by intros ?%Hd]. }
  apply (push_event_counted (recv_event s).2 event); [by apply sub_ok_recv|].
  pose proof (sub_bounded s Hs) as Hb.
  unfold has_room, recv_event, capacity, NODE_EVENT_CHANNEL_CAPACITY in *.
  destruct (in_flight s); simpl in *; [lia|]. split_and!; [done|lia|by intros ?%Hd].
Qed.

(** Control headroom.  In a channel that satisfies the invariant a control event is
    lost only if the receiver is gone or at least 49 other control events are waiting;
    data events alone can never crowd it out. *)
Lemma control_event_dropped s event r s' :
  sub_ok s → is_control event = true → send_with_timestamp s event = (r, s') →
  r ≠ Some true → rx_alive s = false ∨ (CONTROL_EVENT_HEADROOM - 1 ≤ control_count (in_flight s))%Z.
Proof.
  intros Hs Hctl Hsend Hr. destruct (rx_alive s) eqn:Hrx; [right|by left].
  unfold send_with_timestamp, try_send in Hsend. rewrite Hctl, Hrx in Hsend. simpl in Hsend.
  destruct (Z.leb_spec (capacity s) 0) as [Hfull|]; [|by simplify_eq].
  pose proof (sub_headroom s Hs). pose proof (count_split (in_flight s)).
  unfold capacity, MAX_DATA_EVENTS in *. lia.
Qed.

Definition demo_full_sub : Subscription :=
  mkSub (replicate 1000 Stop) [] true 1000.

Lemma control_event_dropped_witness :
  rx_alive demo_full_sub = false
  ∨ (CONTROL_EVENT_HEADROOM - 1 ≤ control_count (in_flight demo_full_sub))%Z.
Proof.
  apply (control_event_dropped demo_full_sub Stop (Some false) demo_full_sub).
  - split; vm_compute; intros; congruence.
  - reflexivity.
  - vm_compute. reflexivity.
  - discriminate.
Defined.
