(* ===== verification/Pending.v ===== *)
(** * Start barrier of a dataflow

    Models [binaries/daemon/src/pending.rs] ([PendingNodes]: subscribe requests are held
    back until all nodes are ready), [fault_tolerance.rs], and the outgoing side the
    daemon's handlers share: replies to nodes and the coordinator connection of
    [coordinator.rs].  Log output is left out; messages are kept unserialised. *)

From Stdlib Require Import ZArith Lia.
From stdpp Require Import base gmap sets list strings.
From S2P Require Import Prelude Message Channel.

(** ** Outgoing messages *)

(** The part of [NodeConfig] the daemon reads. *)
Record NodeConfig := mkNodeConfig {
  config_dataflow_id : DataflowId;
  config_node_id : NodeId;
  dynamic : bool;
  config_restart_count : Z
}.

Inductive DaemonReply :=
| ReplyResult (result : res unit)
| ReplyNextEvents (events : list NodeEvent)
| ReplyNextDropEvents (events : list NodeDropEvent)
| ReplyNodeConfig (result : res NodeConfig)
| ReplyEmpty.

(** [Result<(), NodeError>]. *)
Abbreviation NodeResult := (sum unit NodeError) (only parsing).

Inductive InterDaemonEvent :=
| InterOutput (dataflow_id : DataflowId) (node_id : NodeId) (output_id : DataId)
    (metadata : Metadata) (data : option (list Byte.byte))
| InterOutputClosed (dataflow_id : DataflowId) (node_id : NodeId) (output_id : DataId).

Record FaultToleranceStats := mkStats {
  restarts : Z;
  health_check_kills : Z;
  input_timeouts : Z;
  circuit_breaker_recoveries : Z
}.

Definition any_nonzero (s : FaultToleranceStats) : bool :=
  ((0 <? restarts s) || (0 <? health_check_kills s) || (0 <? input_timeouts s)
   || (0 <? circuit_breaker_recoveries s))%Z.

(** The events the modelled handlers send (node metrics and log forwarding are not
    modelled). *)
Inductive DaemonEvent :=
| EvBuildResult (build_id : Uuid) (result : res unit)
| EvSpawnResult (dataflow_id : DataflowId) (result : res unit)
| EvAllNodesReady (dataflow_id : DataflowId) (exited_before_subscribe : list NodeId)
| EvAllNodesFinished (dataflow_id : DataflowId) (result : gmap NodeId NodeResult)
| EvHeartbeat (ft_stats : FaultToleranceStats)
| EvStatusReport (running_dataflows : list (DataflowId * list NodeId))
| EvExit
| EvTopicDebugData (dataflow_id : DataflowId) (subscription_ids : list Uuid)
    (payload : InterDaemonEvent)
| EvStateCatchUpAck (dataflow_id : DataflowId) (ack_sequence : Z).

(** [CoordinatorSender]: what went out, whether the WebSocket task still takes
    messages, and whether its queue is full at the moment. *)
Record Coordinator := mkCoordinator {
  sent : list DaemonEvent;
  ws_open : bool;
  ws_full : bool
}.

Record Io := mkIo {
  coordinator_sender : option Coordinator;
  replies : list (ReplyId * DaemonReply)
}.

Definition reply (io : Io) (to : ReplyId) (r : DaemonReply) : Io :=
  {| io with replies := replies io ++ [(to, r)] |}.

(** [sender.send_event(..).await]. *)
Definition send_event (c : Coordinator) (event : DaemonEvent) : res unit * Coordinator :=
  if ws_open c then (Ok tt, {| c with sent := sent c ++ [event] |})
  else (Err "WS send channel closed", c).

(** ** Cascading errors (fault_tolerance.rs) *)

Abbreviation CascadingErrorCauses := (gmap NodeId NodeId) (only parsing).

Definition error_caused_by (causes : CascadingErrorCauses) (node : NodeId) : option NodeId :=
  causes !! node.

Definition report_cascading_error (causes : CascadingErrorCauses)
    (causing_node affected_node : NodeId) : CascadingErrorCauses :=
  match causes !! affected_node with
  | Some _ => causes
  | None => <[affected_node := causing_node]> causes
  end.

(** ** Pending nodes *)

Record PendingNodes := mkPending {
  pending_dataflow_id : DataflowId;
  local_nodes : gset NodeId;
  external_nodes : bool;
  waiting_subscribers : gmap NodeId ReplyId;
  exited_before_subscribe : list NodeId;
  reported_init_to_coordinator : bool
}.

Inductive DataflowStatus := AllNodesReady | StatusPending.

Definition pending_new (dataflow_id : DataflowId) : PendingNodes :=
  mkPending dataflow_id ∅ false ∅ [] false.

Definition pending_insert (p : PendingNodes) (node_id : NodeId) : PendingNodes :=
  {| p with local_nodes := {[node_id]} ∪ local_nodes p |}.

Definition set_external_nodes (p : PendingNodes) (value : bool) : PendingNodes :=
  {| p with external_nodes := value |}.

Definition local_nodes_pending (p : PendingNodes) : bool := negb (bool_decide (local_nodes p = ∅)).

(** The mutable state the methods work on: the pending nodes, the outgoing side and the
    cascading error causes of the dataflow. *)
Record PendingCtx := mkPendingCtx {
  pending : PendingNodes;
  pending_io : Io;
  pending_causes : CascadingErrorCauses
}.

Section pending.
Context `{HashOrder}.

Definition first_exited (p : PendingNodes) (external : list NodeId) : option NodeId :=
  match exited_before_subscribe p with
  | first :: _ => Some first
  | [] => head external
  end.

Definition subscribe_result (causing_node : option NodeId) : res unit :=
  match causing_node with
  | Some n => Err (String.append "Node " (String.append n " exited before initializing dora."))
  | None => Ok tt
  end.

(** One round of the loop over the waiting subscribers. *)
Definition answer_subscriber (causing_node : option NodeId)
    (acc : Io * CascadingErrorCauses) (entry : NodeId * ReplyId) : Io * CascadingErrorCauses :=
  let '(io, causes) := acc in
  let causes := match causing_node with
                | Some c => report_cascading_error causes c entry.1
                | None => causes
                end in
  (reply io entry.2 (ReplyResult (subscribe_result causing_node)), causes).

Definition answer_subscribe_requests (c : PendingCtx) (external : list NodeId) : PendingCtx :=
  let causing_node := first_exited (pending c) external in
  let subscribe_replies := waiting_subscribers (pending c) in
  let '(io, causes) :=
    foldl (answer_subscriber causing_node) (pending_io c, pending_causes c)
      (hash_iter subscribe_replies) in
  {| pending := (let p := pending c in {| p with waiting_subscribers := ∅ |});
     pending_io := io; pending_causes := causes |}.

Definition report_nodes_ready (c : PendingCtx) : res unit * PendingCtx :=
  match coordinator_sender (pending_io c) with
  | None => (Err "no coordinator sender to send AllNodesReady", c)
  | Some sender =>
      let p := pending c in
      let '(r, sender) :=
        send_event sender (EvAllNodesReady (pending_dataflow_id p) (exited_before_subscribe p)) in
      (r, {| c with pending_io :=
               (let io := pending_io c in {| io with coordinator_sender := Some sender |}) |})
  end.

Definition update_dataflow_status (c : PendingCtx) : res DataflowStatus * PendingCtx :=
  let p := pending c in
  if bool_decide (local_nodes p = ∅) then
    if external_nodes p then
      if reported_init_to_coordinator p then (Ok StatusPending, c)
      else match report_nodes_ready c with
           | (Ok _, c) =>
               (Ok StatusPending,
                {| c with pending :=
                     (let p := pending c in {| p with reported_init_to_coordinator := true |}) |})
           | (Err e, c) => (Err e, c)
           | (Panic, c) => (Panic, c)
           end
    else (Ok AllNodesReady, answer_subscribe_requests c [])
  else (Ok StatusPending, c).

Definition handle_node_subscription (c : PendingCtx) (node_id : NodeId) (reply_sender : ReplyId)
    : res DataflowStatus * PendingCtx :=
  let p := pending c in
  update_dataflow_status
    {| c with pending := {| p with waiting_subscribers := <[node_id := reply_sender]> (waiting_subscribers p);
                                   local_nodes := local_nodes p ∖ {[node_id]} |} |}.

Definition pending_node_stop (c : PendingCtx) (node_id : NodeId) : res unit * PendingCtx :=
  let p := pending c in
  if bool_decide (node_id ∈ local_nodes p) then
    let '(r, c) :=
      update_dataflow_status
        {| c with pending :=
             {| p with local_nodes := local_nodes p ∖ {[node_id]};
                       exited_before_subscribe := exited_before_subscribe p ++ [node_id] |} |} in
    (const tt <$> r, c)
  else (Ok tt, c).

(** The loop over the dynamic nodes, in the order of the [BTreeSet]; an error returns. *)
Fixpoint stop_dynamic_nodes (c : PendingCtx) (nodes : list NodeId) : res unit * PendingCtx :=
  match nodes with
  | [] => (Ok tt, c)
  | node_id :: nodes =>
      let p := pending c in
      if bool_decide (node_id ∈ local_nodes p) then
        match update_dataflow_status
                {| c with pending := {| p with local_nodes := local_nodes p ∖ {[node_id]} |} |} with
        | (Ok _, c) => stop_dynamic_nodes c nodes
        | (Err e, c) => (Err e, c)
        | (Panic, c) => (Panic, c)
        end
      else stop_dynamic_nodes c nodes
  end.

Definition handle_dataflow_stop (c : PendingCtx) (dynamic_nodes : gset NodeId) : res unit * PendingCtx :=
  stop_dynamic_nodes c (btree_elems dynamic_nodes).

Definition handle_external_all_nodes_ready (c : PendingCtx) (exited : list NodeId)
    : res unit * PendingCtx :=
  (Ok tt, answer_subscribe_requests c exited).

(** ** Runs *)

Inductive pending_op :=
| POpSubscribe (node_id : NodeId) (reply_sender : ReplyId)
| POpNodeStop (node_id : NodeId)
| POpDataflowStop (dynamic_nodes : gset NodeId)
| POpAllNodesReady (exited : list NodeId).

Definition pending_step (c : PendingCtx) (o : pending_op) : PendingCtx :=
  match o with
  | POpSubscribe node_id r => (handle_node_subscription c node_id r).2
  | POpNodeStop node_id => (pending_node_stop c node_id).2
  | POpDataflowStop dynamic_nodes => (handle_dataflow_stop c dynamic_nodes).2
  | POpAllNodesReady exited => (handle_external_all_nodes_ready c exited).2
  end.

Definition pending_run : PendingCtx → list pending_op → PendingCtx := foldl pending_step.

(** The reply handle of a node's most recent subscribe request. *)
Fixpoint last_subscription (n : NodeId) (ops : list pending_op) : option ReplyId :=
  match ops with
  | [] => None
  | o :: ops =>
      match last_subscription n ops with
      | Some r => Some r
      | None => match o with
                | POpSubscribe m r => if decide (m = n) then Some r else None
                | _ => None
                end
      end
  end.

Definition is_local_op (o : pending_op) : Prop :=
  match o with POpAllNodesReady _ => False | _ => True end.

Definition ctx_replies (c : PendingCtx) : list (ReplyId * DaemonReply) := replies (pending_io c).

(** ** Lemmas *)

Lemma last_subscription_snoc n ops o :
  last_subscription n (ops ++ [o]) =
  match o with
  | POpSubscribe m r => if decide (m = n) then Some r else last_subscription n ops
  | _ => last_subscription n ops
  end.
Proof.
  induction ops as [|o' ops IH]; simpl; [by destruct o; try case_decide|].
  rewrite IH. destruct o; try done. case_decide; [done|]. by destruct (last_subscription n ops).
Qed.

Lemma foldl_answer cn entries io causes :
  (foldl (answer_subscriber cn) (io, causes) entries).1 =
  {| io with replies := replies io ++ ((λ e, (e.2, ReplyResult (subscribe_result cn))) <$> entries) |}.
Proof.
  revert io causes. induction entries as [|e entries IH]; intros io causes; simpl.
  - rewrite app_nil_r. by destruct io.
  - rewrite IH. simpl. by rewrite <- app_assoc.
Qed.

Lemma answer_pending c external :
  pending (answer_subscribe_requests c external)
  = (let p := pending c in {| p with waiting_subscribers := ∅ |}).
Proof. unfold answer_subscribe_requests. by destruct (foldl _ _ _). Qed.

Lemma answer_io c external :
  let io := pending_io c in
  pending_io (answer_subscribe_requests c external)
  = {| io with replies := replies io ++
         ((λ e, (e.2, ReplyResult (subscribe_result (first_exited (pending c) external))))
            <$> hash_iter (waiting_subscribers (pending c))) |}.
Proof.
  simpl. unfold answer_subscribe_requests.
  pose proof (foldl_answer (first_exited (pending c) external)
    (hash_iter (waiting_subscribers (pending c))) (pending_io c) (pending_causes c)) as Hf.
  destruct (foldl _ _ _) as [io causes]. simpl in *. by rewrite Hf.
Qed.

Lemma answer_replies_in c external n r :
  waiting_subscribers (pending c) !! n = Some r →
  (r, ReplyResult (subscribe_result (first_exited (pending c) external)))
    ∈ ctx_replies (answer_subscribe_requests c external).
Proof.
  intros Hw. unfold ctx_replies. rewrite answer_io. simpl. apply elem_of_app. right.
  apply list_elem_of_fmap. exists (n, r). split; [done|]. by apply elem_of_hash_iter.
Qed.

Lemma answer_replies_mono c external x :
  x ∈ ctx_replies c → x ∈ ctx_replies (answer_subscribe_requests c external).
Proof. intros Hx. unfold ctx_replies. rewrite answer_io. simpl. apply elem_of_app. by left. Qed.

(** Without external nodes a status update answers everybody as soon as no local node
    is left, and does nothing before. *)
Lemma update_status_local c :
  external_nodes (pending c) = false →
  (update_dataflow_status c).2
  = if bool_decide (local_nodes (pending c) = ∅) then answer_subscribe_requests c [] else c.
Proof. intros He. unfold update_dataflow_status. rewrite He. by case_bool_decide. Qed.

(** The invariant of a run without external nodes. *)
Record barrier_inv (c0 c : PendingCtx) (ops : list pending_op) : Prop := {
  bi_external : external_nodes (pending c) = false;
  bi_silent : local_nodes (pending c) ≠ ∅ → ctx_replies c = ctx_replies c0;
  bi_waiting : ∀ n r, last_subscription n ops = Some r → local_nodes (pending c) ≠ ∅ →
    waiting_subscribers (pending c) !! n = Some r;
  bi_answered : ∀ n r, last_subscription n ops = Some r → local_nodes (pending c) = ∅ →
    (r, ReplyResult (subscribe_result (head (exited_before_subscribe (pending c))))) ∈ ctx_replies c
}.

(** The state between a change of the pending nodes and the status update that follows. *)
Record barrier_pre (c0 c : PendingCtx) (ops : list pending_op) : Prop := {
  bp_external : external_nodes (pending c) = false;
  bp_silent : local_nodes (pending c) ≠ ∅ → ctx_replies c = ctx_replies c0;
  bp_waiting : ∀ n r, last_subscription n ops = Some r →
    waiting_subscribers (pending c) !! n = Some r
    ∨ local_nodes (pending c) = ∅ ∧
      (r, ReplyResult (subscribe_result (head (exited_before_subscribe (pending c))))) ∈ ctx_replies c
}.

Lemma barrier_update c0 c ops :
  barrier_pre c0 c ops → barrier_inv c0 (update_dataflow_status c).2 ops.
Proof.
  intros [He Hs Hw]. rewrite update_status_local by done. case_bool_decide as Hl.
  - split.
    + by rewrite answer_pending.
    + rewrite answer_pending. simpl. by intros [].
    + rewrite answer_pending. simpl. by intros ? ? ? [].
    + intros n r Hlast _. rewrite answer_pending. simpl.
      destruct (Hw n r Hlast) as [Hwait|[_ Hin]]; [|by apply answer_replies_mono].
      apply (answer_replies_in c []) in Hwait. unfold first_exited in Hwait.
      by destruct (exited_before_subscribe (pending c)).
  - split; [done..| |done]. intros n r Hlast _. by destruct (Hw n r Hlast) as [?|[? _]].
Qed.

Lemma barrier_stop_dynamic c0 c ops nodes :
  barrier_inv c0 c ops → barrier_inv c0 (stop_dynamic_nodes c nodes).2 ops.
Proof.
  revert c. induction nodes as [|n nodes IH]; intros c Hi; simpl; [done|].
  case_bool_decide as Hn; [|by apply IH].
  set (c1 := {| c with pending := _ |}).
  assert (barrier_inv c0 (update_dataflow_status c1).2 ops) as Hi1.
  { apply barrier_update. destruct Hi as [He Hs Hw Ha].
    assert (local_nodes (pending c) ≠ ∅) as Hne by set_solver.
    split; simpl; [done|by intros _; apply Hs|]. intros m r Hlast. left. by apply Hw. }
  destruct (update_dataflow_status c1) as [[] c2]; simpl in *; [by apply IH|done..].
Qed.

Lemma barrier_step c0 c ops o :
  is_local_op o → barrier_inv c0 c ops → barrier_inv c0 (pending_step c o) (ops ++ [o]).
Proof.
  intros Ho Hi. assert (∀ c1, barrier_inv c0 c1 ops →
    (∀ n, last_subscription n (ops ++ [o]) = last_subscription n ops) →
    barrier_inv c0 c1 (ops ++ [o])) as Hext.
  { intros c1 [] Hlast. split; try done; intros n r; rewrite Hlast; eauto. }
  destruct o as [n r|n|dyn|]; simpl; [| | |done].
  - apply barrier_update. destruct Hi as [He Hs Hw Ha]. split; simpl; [done| |].
    + intros Hne. apply Hs. set_solver.
    + intros m r'. rewrite last_subscription_snoc. case_decide as Hmn.
      { intros [= <-]. left. subst. by rewrite lookup_insert_eq. }
      intros Hlast. rewrite lookup_insert_ne by done.
      destruct (decide (local_nodes (pending c) = ∅)) as [Hl|Hl]; [|left; by apply Hw].
      right. split; [set_solver|by eapply Ha].
  - apply Hext; [|by intros; rewrite last_subscription_snoc]. unfold pending_node_stop.
    case_bool_decide as Hn; [|done].
    destruct (update_dataflow_status _) as [r c1] eqn:Hu. simpl.
    apply (f_equal snd) in Hu. simpl in Hu. rewrite <- Hu. apply barrier_update.
    destruct Hi as [He Hs Hw Ha]. assert (local_nodes (pending c) ≠ ∅) as Hne by set_solver.
    split; simpl; [done|by intros _; apply Hs|]. intros m r' Hlast. left. by apply Hw.
  - apply Hext; [|by intros; rewrite last_subscription_snoc]. by apply barrier_stop_dynamic.
Qed.

Lemma barrier_run c0 ops :
  external_nodes (pending c0) = false → Forall is_local_op ops →
  barrier_inv c0 (pending_run c0 ops) ops.
Proof.
  intros He. induction ops as [|o ops IH] using rev_ind; intros Hops.
  - split; done.
  - apply Forall_app in Hops as [Hops Ho]. unfold pending_run. rewrite foldl_snoc.
    apply barrier_step; [by inv Ho|by apply IH].
Qed.

(** C25. The start barrier.  On a machine that runs all nodes of a dataflow, no subscribe
    request is answered while some local node has neither subscribed nor stopped; once
    there is none left, the latest subscribe request of every node has been answered,
    with an error naming the first node that exited before subscribing, if any. *)
Theorem start_barrier c0 ops :
  external_nodes (pending c0) = false → Forall is_local_op ops →
  let c := pending_run c0 ops in
  (local_nodes (pending c) ≠ ∅ → ctx_replies c = ctx_replies c0) ∧
  (local_nodes (pending c) = ∅ → ∀ n r, last_subscription n ops = Some r →
    (r, ReplyResult (subscribe_result (head (exited_before_subscribe (pending c)))))
      ∈ ctx_replies c).
Proof.
  intros He Hops c. destruct (barrier_run c0 ops He Hops) as [_ Hs _ Ha]. eauto.
Qed.

(** A node that subscribes again after the local init was reported (a restarted node,
    or one added at run time) on a machine with external nodes is never answered: the
    request is stored, no reply is sent, and the coordinator is not told, so it has no
    reason to send another [AllNodesReady]. *)
Theorem resubscribe_unanswered c n r :
  external_nodes (pending c) = true → reported_init_to_coordinator (pending c) = true →
  local_nodes (pending c) ⊆ {[n]} →
  ∃ c', handle_node_subscription c n r = (Ok StatusPending, c') ∧
    pending_io c' = pending_io c ∧ waiting_subscribers (pending c') !! n = Some r.
Proof.
  intros He Hrep Hl. unfold handle_node_subscription, update_dataflow_status. simpl.
  rewrite bool_decide_true by set_solver. rewrite He, Hrep. eexists. split; [done|].
  simpl. by rewrite lookup_insert_eq.
Qed.
End pending.

(** ** The properties at concrete inputs *)

Definition demo_pending (external reported : bool) : PendingCtx :=
  mkPendingCtx (mkPending 7 {["cam"; "plot"]} external ∅ [] reported)
    (mkIo (Some (mkCoordinator [] true false)) []) ∅.

Lemma start_barrier_witness :
  (1%N, ReplyResult (subscribe_result (Some "plot")))
    ∈ ctx_replies (pending_run (demo_pending false false)
                     [POpSubscribe "cam" 1; POpNodeStop "plot"]).
Proof.
  refine (proj2 (start_barrier (demo_pending false false)
                   [POpSubscribe "cam" 1; POpNodeStop "plot"] _ _) _ "cam" 1%N _).
  - reflexivity.
  - repeat constructor.
  - vm_compute. reflexivity.
  - vm_compute. reflexivity.
Defined.

Lemma resubscribe_unanswered_witness :
  ∃ c', handle_node_subscription
          (mkPendingCtx (mkPending 7 ∅ true ∅ [] true) (mkIo None []) ∅) "cam" 5
        = (Ok StatusPending, c') ∧
    pending_io c' = mkIo None [] ∧ waiting_subscribers (pending c') !! "cam" = Some 5%N.
Proof.
  apply (resubscribe_unanswered (mkPendingCtx (mkPending 7 ∅ true ∅ [] true) (mkIo None []) ∅));
    [reflexivity|reflexivity|apply empty_subseteq].
Defined.
