(* ===== verification/Dataflow.v ===== *)
(** * Running dataflows

    Models [binaries/daemon/src/running_dataflow.rs]: the state the daemon keeps for a
    dataflow and its methods.  The record has the source's fields; the channels,
    counters and processes its handles point to, and the kill tasks it has spawned, are
    the last four fields.  Not kept: the network byte counters, the broadcast channel
    that ends the Zenoh subscriber tasks, and [empty_set] (a constant).  Time is
    measured in nanoseconds; [now] is the reading of the clock. *)

From Stdlib Require Import ZArith Lia.
From stdpp Require Import base gmap sets list strings.
From S2P Require Import Prelude Message Channel Pending.

(** ** Data *)

Definition DEFAULT_STOP_GRACE : Duration := 10000000000.
Definition DEFAULT_RESTART_GRACE : Duration := 5000000000.

Record InputDeadline := mkDeadline { timeout : Duration; last_received : option Instant }.

Definition is_timed_out (now : Instant) (d : InputDeadline) : bool :=
  match last_received d with
  | Some t => (timeout d <? saturating_sub now t)%Z
  | None => false
  end.

Record RunningNode := mkRunningNode {
  process : option ProcId;
  node_config : NodeConfig;
  pid : option Z;
  restart_count : Z;
  restart_policy : RestartPolicy;
  disable_restart : bool;
  last_activity : Z;
  health_check_timeout : option Duration
}.

Definition restarts_disabled (n : RunningNode) : bool := disable_restart n.
Definition set_disable_restart (value : bool) (n : RunningNode) : RunningNode :=
  {| n with disable_restart := value |}.
(** [node.process.take()]. *)
Definition take_process (n : RunningNode) : RunningNode := {| n with process := None |}.

Record DropTokenInformation := mkTokenInfo { owner : NodeId; pending_receivers : gset NodeId }.

Record LogSubscriber := mkLogSubscriber {
  log_node_id : NodeId;
  log_input_id : DataId;
  log_filter : LogSubscriptionFilter
}.

(** The part of a descriptor node the daemon consults. *)
Record DescriptorNode := mkDescriptorNode {
  desc_id : NodeId;
  desc_inputs : gmap DataId InputConfig
}.

(** A spawned task that kills processes in two phases; [kill_reported] is set for the
    task of [stop_all], which records the nodes it had to kill. *)
Record KillTask := mkKillTask {
  kill_processes : list (NodeId * option ProcId);
  kill_grace : Duration;
  kill_reported : bool
}.

Record RunningDataflow := mkDataflow {
  df_id : DataflowId;
  descriptor : list DescriptorNode;
  pending_nodes : PendingNodes;
  dataflow_started : bool;
  subscribe_channels : gmap NodeId SubId;
  pending_messages : gmap NodeId SubId;
  drop_channels : gmap NodeId DropSubId;
  mappings : gmap OutputId (gset (NodeId * DataId));
  timers : gmap Duration (gset (NodeId * DataId));
  log_subscribers : list LogSubscriber;
  open_inputs : gmap NodeId (gset DataId);
  input_deadlines : gmap (NodeId * DataId) InputDeadline;
  broken_inputs : gmap (NodeId * DataId) Duration;
  running_nodes : gmap NodeId RunningNode;
  dynamic_nodes : gset NodeId;
  open_external_mappings : gset OutputId;
  pending_drop_tokens : gmap DropToken DropTokenInformation;
  timer_handles : gset Duration;
  stop_sent : bool;
  cascading_error_causes : CascadingErrorCauses;
  grace_duration_kills : gset NodeId;
  node_stderr_most_recent : gmap NodeId (list string);
  publishers : gset OutputId;
  debug_topic_watchers : gmap OutputId (gset Uuid);
  listener_shutdown : bool;
  enable_debug_inspection : bool;
  subscriptions : gmap SubId Subscription;
  drop_subscriptions : gmap DropSubId DropSubscription;
  processes : gmap ProcId ProcessChannel;
  kill_tasks : list KillTask
}.

(** Field updates. *)
Definition upd_descriptor f (df : RunningDataflow) :=
  {| df with descriptor := f (descriptor df) |}.
Definition upd_pending_nodes f (df : RunningDataflow) :=
  {| df with pending_nodes := f (pending_nodes df) |}.
Definition upd_dataflow_started f (df : RunningDataflow) :=
  {| df with dataflow_started := f (dataflow_started df) |}.
Definition upd_subscribe_channels f (df : RunningDataflow) :=
  {| df with subscribe_channels := f (subscribe_channels df) |}.
Definition upd_pending_messages f (df : RunningDataflow) :=
  {| df with pending_messages := f (pending_messages df) |}.
Definition upd_drop_channels f (df : RunningDataflow) :=
  {| df with drop_channels := f (drop_channels df) |}.
Definition upd_mappings f (df : RunningDataflow) := {| df with mappings := f (mappings df) |}.
Definition upd_timers f (df : RunningDataflow) := {| df with timers := f (timers df) |}.
Definition upd_log_subscribers f (df : RunningDataflow) :=
  {| df with log_subscribers := f (log_subscribers df) |}.
Definition upd_open_inputs f (df : RunningDataflow) :=
  {| df with open_inputs := f (open_inputs df) |}.
Definition upd_input_deadlines f (df : RunningDataflow) :=
  {| df with input_deadlines := f (input_deadlines df) |}.
Definition upd_broken_inputs f (df : RunningDataflow) :=
  {| df with broken_inputs := f (broken_inputs df) |}.
Definition upd_running_nodes f (df : RunningDataflow) :=
  {| df with running_nodes := f (running_nodes df) |}.
Definition upd_dynamic_nodes f (df : RunningDataflow) :=
  {| df with dynamic_nodes := f (dynamic_nodes df) |}.
Definition upd_open_external_mappings f (df : RunningDataflow) :=
  {| df with open_external_mappings := f (open_external_mappings df) |}.
Definition upd_pending_drop_tokens f (df : RunningDataflow) :=
  {| df with pending_drop_tokens := f (pending_drop_tokens df) |}.
Definition upd_timer_handles f (df : RunningDataflow) :=
  {| df with timer_handles := f (timer_handles df) |}.
Definition upd_stop_sent f (df : RunningDataflow) := {| df with stop_sent := f (stop_sent df) |}.
Definition upd_cascading_error_causes f (df : RunningDataflow) :=
  {| df with cascading_error_causes := f (cascading_error_causes df) |}.
Definition upd_grace_duration_kills f (df : RunningDataflow) :=
  {| df with grace_duration_kills := f (grace_duration_kills df) |}.
Definition upd_node_stderr_most_recent f (df : RunningDataflow) :=
  {| df with node_stderr_most_recent := f (node_stderr_most_recent df) |}.
Definition upd_publishers f (df : RunningDataflow) :=
  {| df with publishers := f (publishers df) |}.
Definition upd_debug_topic_watchers f (df : RunningDataflow) :=
  {| df with debug_topic_watchers := f (debug_topic_watchers df) |}.
Definition upd_listener_shutdown f (df : RunningDataflow) :=
  {| df with listener_shutdown := f (listener_shutdown df) |}.
Definition upd_subscriptions f (df : RunningDataflow) :=
  {| df with subscriptions := f (subscriptions df) |}.
Definition upd_drop_subscriptions f (df : RunningDataflow) :=
  {| df with drop_subscriptions := f (drop_subscriptions df) |}.
Definition upd_processes f (df : RunningDataflow) := {| df with processes := f (processes df) |}.
Definition upd_kill_tasks f (df : RunningDataflow) :=
  {| df with kill_tasks := f (kill_tasks df) |}.

Inductive FinishDataflowWhen := Now | WaitForNodes.

Definition dataflow_new (dataflow_id : DataflowId) (nodes : list DescriptorNode)
    (debug_inspection : bool) : RunningDataflow :=
  {| df_id := dataflow_id; descriptor := nodes; pending_nodes := pending_new dataflow_id;
     dataflow_started := false; subscribe_channels := ∅; pending_messages := ∅;
     drop_channels := ∅; mappings := ∅; timers := ∅; log_subscribers := [];
     open_inputs := ∅; input_deadlines := ∅; broken_inputs := ∅; running_nodes := ∅;
     dynamic_nodes := ∅; open_external_mappings := ∅; pending_drop_tokens := ∅;
     timer_handles := ∅; stop_sent := false; cascading_error_causes := ∅;
     grace_duration_kills := ∅; node_stderr_most_recent := ∅; publishers := ∅;
     debug_topic_watchers := ∅; listener_shutdown := false;
     enable_debug_inspection := debug_inspection; subscriptions := ∅;
     drop_subscriptions := ∅; processes := ∅; kill_tasks := [] |}.

(** ** Channels and counters *)

(** [send_with_timestamp] on the channel behind a handle. *)
Definition send_to (df : RunningDataflow) (channel : SubId) (event : NodeEvent)
    : option bool * RunningDataflow :=
  match subscriptions df !! channel with
  | Some s =>
      let '(r, s) := send_with_timestamp s event in
      (r, (upd_subscriptions <[channel := s]> df))
  | None => (None, df)
  end.

Definition inc_pending (df : RunningDataflow) (node_id : NodeId) : RunningDataflow :=
  match pending_messages df !! node_id with
  | Some c => upd_subscriptions (alter inc_counter c) df
  | None => df
  end.

(** [if send_with_timestamp(..).ok() == Some(true) { inc_pending(node) }], with the
    outcome of the send. *)
Definition send_and_count (df : RunningDataflow) (node_id : NodeId) (channel : SubId)
    (event : NodeEvent) : option bool * RunningDataflow :=
  let '(r, df) := send_to df channel event in
  (r, if bool_decide (r = Some true) then inc_pending df node_id else df).

(** ** Processes *)

Definition submit_to (df : RunningDataflow) (p : ProcId) (operation : ProcessOperation)
    : bool * RunningDataflow :=
  match processes df !! p with
  | Some ch =>
      let '(r, ch) := submit ch operation in
      (r, (upd_processes <[p := ch]> df))
  | None => (false, df)
  end.

(** [impl Drop for ProcessHandle]. *)
Definition drop_process (df : RunningDataflow) (p : ProcId) : RunningDataflow :=
  (submit_to df p Kill).2.

Definition drop_processes (df : RunningDataflow) (ps : list (NodeId * option ProcId))
    : RunningDataflow :=
  foldl (λ df entry, match entry.2 with Some p => drop_process df p | None => df end) df ps.

Definition schedule_kill (t : KillTask) (df : RunningDataflow) : RunningDataflow :=
  upd_kill_tasks (λ l, l ++ [t]) df.

(** The first phase of a kill task, when its grace period has passed. *)
Definition kill_task_soft (df : RunningDataflow) (t : KillTask) : RunningDataflow :=
  foldl (λ df entry,
    match entry.2 with
    | Some p =>
        let '(r, df) := submit_to df p SoftKill in
        if r && kill_reported t
        then upd_grace_duration_kills (union {[entry.1]}) df
        else df
    | None => df
    end) df (kill_processes t).

(** The second phase, half a grace period later; then the task ends and drops its
    process handles. *)
Definition kill_task_hard (df : RunningDataflow) (t : KillTask) : RunningDataflow :=
  let df :=
    foldl (λ df entry,
      match entry.2 with
      | Some p =>
          let '(r, df) := submit_to df p Kill in
          if r && kill_reported t
          then upd_grace_duration_kills (union {[entry.1]}) df
          else df
      | None => df
      end) df (kill_processes t) in
  drop_processes df (kill_processes t).

(** ** Methods *)

(** [start]: one timer task per interval. *)
Definition start (df : RunningDataflow) : RunningDataflow :=
  foldl (λ df interval,
    if bool_decide (interval ∈ timer_handles df) then df
    else upd_timer_handles (union {[interval]}) df)
    df (btree_keys (timers df)).

Definition open_inputs_of (df : RunningDataflow) (node_id : NodeId) : gset DataId :=
  default ∅ (open_inputs df !! node_id).

Definition should_finish_immediately (df : RunningDataflow) : FinishDataflowWhen :=
  if negb (local_nodes_pending (pending_nodes df))
     && forallb (λ '(_, n), dynamic (node_config n)) (btree_iter (running_nodes df))
     && stop_sent df
  then Now else WaitForNodes.

Section methods.
Context `{HashOrder}.

(** Runs an operation on the pending nodes of a dataflow. *)
Definition with_pending {A} (df : RunningDataflow) (io : Io)
    (f : PendingCtx → res A * PendingCtx) : res A * RunningDataflow * Io :=
  let '(r, c) := f (mkPendingCtx (pending_nodes df) io (cascading_error_causes df)) in
  (r, upd_cascading_error_causes (λ _, pending_causes c)
        (upd_pending_nodes (λ _, pending c) df), pending_io c).

(** Draining the subscribe channels, sending [Stop] to each. *)
Definition send_stop_to (df : RunningDataflow) (entry : NodeId * SubId) : RunningDataflow :=
  (send_and_count df entry.1 entry.2 Stop).2.

Definition send_stops (df : RunningDataflow) : RunningDataflow :=
  foldl send_stop_to (upd_subscribe_channels (λ _, ∅) df) (hash_iter (subscribe_channels df)).

(** Killing the processes, at once or by a task after the grace period. *)
Definition end_processes (df : RunningDataflow) (grace_duration : option Duration) (force : bool)
    : RunningDataflow :=
  let running_processes := (λ e, (e.1, process e.2)) <$> btree_iter (running_nodes df) in
  let df := upd_running_nodes (fmap take_process) df in
  if force then
    let df := foldl (λ df entry, match entry.2 with
                                 | Some p => (submit_to df p Kill).2
                                 | None => df end) df running_processes in
    drop_processes df running_processes
  else
    schedule_kill
      (mkKillTask running_processes (default DEFAULT_STOP_GRACE grace_duration) true) df.

Definition stop_all (df : RunningDataflow) (io : Io) (grace_duration : option Duration)
    (force : bool) : res FinishDataflowWhen * RunningDataflow * Io :=
  match with_pending df io (λ c, handle_dataflow_stop c (dynamic_nodes df)) with
  | (Err e, df, io) => (Err e, df, io)
  | (Panic, df, io) => (Panic, df, io)
  | (Ok _, df, io) =>
      let df := upd_running_nodes (fmap (set_disable_restart true)) df in
      let df := send_stops df in
      let df := end_processes df grace_duration force in
      let df := upd_stop_sent (λ _, true) df in
      (Ok (should_finish_immediately df), df, io)
  end.

Definition send_stop_and_schedule_kill (df : RunningDataflow) (node_id : NodeId)
    (proc : option ProcId) (grace_duration : option Duration) (default_grace : Duration)
    : RunningDataflow :=
  let df := match subscribe_channels df !! node_id with
            | Some channel => (send_and_count df node_id channel Stop).2
            | None => df
            end in
  match proc with
  | Some p =>
      schedule_kill (mkKillTask [(node_id, Some p)] (default default_grace grace_duration) false) df
  | None => df
  end.

Definition stop_single_node (df : RunningDataflow) (node_id : NodeId)
    (grace_duration : option Duration) : res unit * RunningDataflow :=
  match running_nodes df !! node_id with
  | None => (Err "node not found in running dataflow", df)
  | Some node =>
      let df1 := upd_running_nodes
        <[node_id := {| node with disable_restart := true; process := None |}]> df in
      (Ok tt, send_stop_and_schedule_kill df1 node_id (process node) grace_duration
                DEFAULT_STOP_GRACE)
  end.

Definition restart_single_node (df : RunningDataflow) (node_id : NodeId)
    (grace_duration : option Duration) : res unit * RunningDataflow :=
  match running_nodes df !! node_id with
  | None => (Err "node not found in running dataflow", df)
  | Some node =>
      let df1 := upd_running_nodes
        <[node_id := {| node with disable_restart := false; process := None |}]> df in
      (Ok tt, send_stop_and_schedule_kill df1 node_id (process node) grace_duration
                DEFAULT_RESTART_GRACE)
  end.

Definition check_drop_token (df : RunningDataflow) (token : DropToken) : RunningDataflow :=
  match pending_drop_tokens df !! token with
  | Some info =>
      if bool_decide (pending_receivers info = ∅) then
        let df := upd_pending_drop_tokens (delete token) df in
        match drop_channels df !! owner info with
        | Some channel =>
            match drop_subscriptions df !! channel with
            | Some s =>
                upd_drop_subscriptions
                  <[channel := (send_drop_with_timestamp s (OutputDropped token)).2]> df
            | None => df (* send failed: warning only *)
            end
        | None => df (* no channel of the owner: warning only *)
        end
      else df
  | None => df (* already closed: warning only *)
  end.
End methods.
