(* ===== verification/Routing.v ===== *)
(** * Message routing inside a dataflow

    Models the functions of [binaries/daemon/src/lib.rs] that route events between the
    nodes of one dataflow: delivery of outputs to local receivers with the input circuit
    breaker and shared-memory drop tokens, closing and breaking of inputs, subscription,
    timers, logs, parameters, and the notifications about restarts and failures. *)

From Stdlib Require Import ZArith Lia.
From stdpp Require Import base gmap sets list strings.
From S2P Require Import Prelude Message Channel Pending Dataflow.

Section routing.
Context `{HashOrder}.

(** ** Inputs *)

Definition has_broken_input (df : RunningDataflow) (receiver_id : NodeId) : bool :=
  existsb (λ '((nid, _), _), bool_decide (nid = receiver_id)) (hash_iter (broken_inputs df)).

Definition disable_node_restart (df : RunningDataflow) (node_id : NodeId) : RunningDataflow :=
  (upd_running_nodes (alter (set_disable_restart true) node_id) df).

(** [open_inputs.get_mut(node).map(|inputs| inputs.remove(input))]. *)
Definition remove_open_input (df : RunningDataflow) (receiver_id : NodeId) (input_id : DataId)
    : option bool * RunningDataflow :=
  match open_inputs df !! receiver_id with
  | Some inputs =>
      (Some (bool_decide (input_id ∈ inputs)),
       (upd_open_inputs <[receiver_id := inputs ∖ {[input_id]}]> df))
  | None => (None, df)
  end.

(** The common end of [close_input] and [break_input]. *)
Definition report_all_inputs_closed (df : RunningDataflow) (receiver_id : NodeId) (channel : SubId)
    : RunningDataflow :=
  if bool_decide (open_inputs_of df receiver_id = ∅) && negb (has_broken_input df receiver_id)
  then (send_and_count (disable_node_restart df receiver_id) receiver_id channel AllInputsClosed).2
  else df.

Definition close_input (df : RunningDataflow) (receiver_id : NodeId) (input_id : DataId)
    : RunningDataflow :=
  let was_broken := bool_decide (is_Some (broken_inputs df !! (receiver_id, input_id))) in
  let df := upd_broken_inputs (delete (receiver_id, input_id)) df in
  let '(removed, df) := remove_open_input df receiver_id input_id in
  let was_open := default false removed in
  if negb was_open && negb was_broken then df
  else match subscribe_channels df !! receiver_id with
       | Some channel =>
           let df := if was_open
                     then (send_and_count df receiver_id channel (InputClosed input_id)).2
                     else df in
           report_all_inputs_closed df receiver_id channel
       | None => df
       end.

Definition close_inputs (df : RunningDataflow) (inputs : list (NodeId * DataId)) : RunningDataflow :=
  foldl (λ df '(receiver_id, input_id), close_input df receiver_id input_id) df inputs.

Definition break_input (df : RunningDataflow) (receiver_id : NodeId) (input_id : DataId)
    : RunningDataflow :=
  let '(removed, df) := remove_open_input df receiver_id input_id in
  if bool_decide (removed = Some false) then df
  else match subscribe_channels df !! receiver_id with
       | Some channel =>
           let df := (send_and_count df receiver_id channel (InputClosed input_id)).2 in
           report_all_inputs_closed df receiver_id channel
       | None => df
       end.

(** The part of [check_input_timeouts] for one dataflow. *)
Definition timed_out_inputs (now : Instant) (df : RunningDataflow) : list (NodeId * DataId * Duration) :=
  (λ e, (e.1, timeout e.2)) <$>
    retain (λ e, negb (bool_decide (is_Some (broken_inputs df !! e.1))) && is_timed_out now e.2)
      (hash_iter (input_deadlines df)).

Definition break_timed_out (acc : RunningDataflow * FaultToleranceStats)
    (entry : NodeId * DataId * Duration) : RunningDataflow * FaultToleranceStats :=
  let '(df, stats) := acc in
  let '(node_id, input_id, t) := entry in
  let stats := {| stats with input_timeouts := fetch_add (input_timeouts stats) 1 |} in
  let df := upd_broken_inputs <[(node_id, input_id) := t]> df in
  (break_input df node_id input_id, stats).

Definition check_input_timeouts (now : Instant) (df : RunningDataflow) (stats : FaultToleranceStats)
    : RunningDataflow * FaultToleranceStats :=
  let timed_out := timed_out_inputs now df in
  let '(df, stats) := foldl break_timed_out (df, stats) timed_out in
  (foldl (λ df entry, (upd_input_deadlines (delete entry.1) df)) df timed_out,
   stats).

(** ** Outputs *)

Definition insert_open_input (df : RunningDataflow) (node_id : NodeId) (input_id : DataId)
    : RunningDataflow :=
  (upd_open_inputs <[node_id := {[input_id]} ∪ open_inputs_of df node_id]> df).

(** [pending_drop_tokens.entry(token).or_insert_with(..)], then adding the receivers. *)
Definition register_token (df : RunningDataflow) (token : DropToken) (token_owner : NodeId)
    (receivers : gset NodeId) : RunningDataflow :=
  let info := default (mkTokenInfo token_owner ∅) (pending_drop_tokens df !! token) in
  upd_pending_drop_tokens
    <[token := {| info with pending_receivers := receivers ∪ pending_receivers info |}]> df.

(** [deadline.last_received = Some(now)]. *)
Definition touch_deadline (now : Instant) (d : InputDeadline) : InputDeadline :=
  {| d with last_received := Some now |}.

(** Re-opening an input whose circuit breaker had fired. *)
Definition recover_input (now : Instant) (df : RunningDataflow) (stats : FaultToleranceStats)
    (receiver_id : NodeId) (input_id : DataId) (channel : SubId)
    : RunningDataflow * FaultToleranceStats :=
  match broken_inputs df !! (receiver_id, input_id) with
  | Some t =>
      let stats := {| stats with circuit_breaker_recoveries :=
                        fetch_add (circuit_breaker_recoveries stats) 1 |} in
      let df := upd_broken_inputs (delete (receiver_id, input_id)) df in
      let df := insert_open_input df receiver_id input_id in
      let df := upd_input_deadlines <[(receiver_id, input_id) := mkDeadline t (Some now)]> df in
      ((send_and_count df receiver_id channel (InputRecovered input_id)).2, stats)
  | None => (df, stats)
  end.

Record delivery := mkDelivery {
  dl_df : RunningDataflow;
  dl_stats : FaultToleranceStats;
  dl_closed : list NodeId
}.

(** One receiver of an output. *)
Definition deliver_output (now : Instant) (node_id : NodeId) (metadata : Metadata)
    (data : option DataMessage) (acc : delivery) (receiver : NodeId * DataId) : delivery :=
  let '(receiver_id, input_id) := receiver in
  let df := dl_df acc in
  match subscribe_channels df !! receiver_id with
  | None => acc
  | Some channel =>
      match subscriptions df !! channel with
      | None => {| acc with dl_closed := dl_closed acc ++ [receiver_id] |}
      | Some s =>
          if (capacity s <? CONTROL_EVENT_HEADROOM)%Z then acc
          else match try_send s (Input input_id metadata data) with
          | (Sent, s) =>
              let df := upd_subscriptions <[channel := s]> df in
              let df := inc_pending df receiver_id in
              let df := upd_input_deadlines (alter (touch_deadline now) (receiver_id, input_id)) df in
              let '(df, stats) := recover_input now df (dl_stats acc) receiver_id input_id channel in
              let df := match data ≫= drop_token with
                        | Some token => register_token df token node_id {[receiver_id]}
                        | None => df
                        end in
              {| acc with dl_df := df; dl_stats := stats |}
          | (SendClosed, _) => {| acc with dl_closed := dl_closed acc ++ [receiver_id] |}
          | (SendFull, _) => acc
          end
      end
  end.

Definition remove_channels (df : RunningDataflow) (closed : list NodeId) : RunningDataflow :=
  foldl (λ df id, (upd_subscribe_channels (delete id) df)) df closed.

(** The bytes for remote receivers and the drop token.  Mapping a shared-memory region is
    a call into the shared_memory crate: [read_shmem] gives the content of a region, or
    [None] when it cannot be mapped. *)
Definition output_bytes (read_shmem : string → option (list Byte.byte)) (data : option DataMessage)
    (need_data_bytes : bool) : res (option (list Byte.byte) * option DropToken) :=
  if need_data_bytes then
    match data with
    | None => Ok (None, None)
    | Some (DMSharedMemory id len token) =>
        match read_shmem id with
        | None => Err "failed to map shared memory output"
        | Some mem =>
            if (Z.of_nat (length mem) <? len)%Z then Err "shared memory length exceeds region size"
            else Ok (Some (take (Z.to_nat len) mem), Some token)
        end
    | Some (DMVec v) => Ok (Some v, None)
    end
  else Ok (None, data ≫= drop_token).

Definition send_output_to_local_receivers (read_shmem : string → option (list Byte.byte))
    (now : Instant) (df : RunningDataflow) (stats : FaultToleranceStats)
    (node_id : NodeId) (output_id : DataId) (metadata : Metadata) (data : option DataMessage)
    (need_data_bytes : bool)
    : res (option (list Byte.byte)) * RunningDataflow * FaultToleranceStats :=
  let local_receivers := default ∅ (mappings df !! (node_id, output_id)) in
  let acc := foldl (deliver_output now node_id metadata data) (mkDelivery df stats [])
               (btree_elems local_receivers) in
  let df := remove_channels (dl_df acc) (dl_closed acc) in
  match output_bytes read_shmem data need_data_bytes with
  | Ok (data_bytes, token) =>
      let df := match token with
                | Some token => check_drop_token (register_token df token node_id ∅) token
                | None => df
                end in
      (Ok data_bytes, df, dl_stats acc)
  | Err e => (Err e, df, dl_stats acc)
  | Panic => (Panic, df, dl_stats acc)
  end.

(** [DaemonNodeEvent::ReportDrop]. *)
Definition report_drop_token (df : RunningDataflow) (node_id : NodeId) (token : DropToken)
    : RunningDataflow :=
  match pending_drop_tokens df !! token with
  | Some info =>
      if bool_decide (node_id ∈ pending_receivers info) then
        check_drop_token
          (upd_pending_drop_tokens
             <[token := {| info with pending_receivers := pending_receivers info ∖ {[node_id]} |}]>
             df) token
      else df
  | None => df
  end.

Definition report_drop (df : RunningDataflow) (node_id : NodeId) (tokens : list DropToken)
    : RunningDataflow :=
  foldl (λ df token, report_drop_token df node_id token) df tokens.

(** ** Subscription *)

(** The inputs of a node that are mapped but not open. *)
Definition closed_inputs_of (df : RunningDataflow) (node_id : NodeId) : list DataId :=
  retain (λ input, match open_inputs df !! node_id with
                   | Some open => negb (bool_decide (input ∈ open))
                   | None => true
                   end)
    (retain (λ r, bool_decide (r.1 = node_id))
       (hash_values (mappings df) ≫= btree_elems)).*2.

Definition subscribe (df : RunningDataflow) (node_id : NodeId) (event_sender : SubId)
    : RunningDataflow :=
  let df := foldl (λ df input_id, (send_and_count df node_id event_sender (InputClosed input_id)).2)
              df (closed_inputs_of df node_id) in
  let df :=
    if bool_decide (open_inputs_of df node_id = ∅) then
      let df := disable_node_restart df node_id in
      match list_find (λ n, desc_id n = node_id) (descriptor df) with
      | Some (_, node) =>
          if bool_decide (desc_inputs node = ∅) then df
          else (send_and_count df node_id event_sender AllInputsClosed).2
      | None => df
      end
    else df in
  let df :=
    if stop_sent df then
      (send_and_count (disable_node_restart df node_id) node_id event_sender Stop).2
    else df in
  (upd_subscribe_channels <[node_id := event_sender]> df).

(** ** Timers and logs

    Both loops send an input event to a list of receivers and then forget the channels
    that turned out to be closed. *)

Definition deliver_input (acc : RunningDataflow * list NodeId)
    (entry : NodeId * NodeEvent) : RunningDataflow * list NodeId :=
  let '(df, closed) := acc in
  let '(receiver_id, event) := entry in
  match subscribe_channels df !! receiver_id with
  | None => acc
  | Some channel =>
      match send_and_count df receiver_id channel event with
      | (None, df) => (df, closed ++ [receiver_id])
      | (_, df) => (df, closed)
      end
  end.

Definition deliver_inputs (df : RunningDataflow) (entries : list (NodeId * NodeEvent))
    : RunningDataflow * list NodeId :=
  let '(df, closed) := foldl deliver_input (df, []) entries in
  (remove_channels df closed, closed).

(** [DoraEvent::Timer]. *)
Definition handle_timer (df : RunningDataflow) (interval : Duration) (metadata : Metadata)
    : RunningDataflow :=
  match timers df !! interval with
  | None => df
  | Some subscribers =>
      (deliver_inputs df ((λ r, (r.1, Input r.2 metadata None)) <$> btree_elems subscribers)).1
  end.

(** [DoraEvent::Logs]. *)
Definition handle_logs (df : RunningDataflow) (output_id : OutputId) (message : DataMessage)
    (metadata : Metadata) : RunningDataflow :=
  match mappings df !! output_id with
  | None => df
  | Some subscribers =>
      (deliver_inputs df ((λ r, (r.1, Input r.2 metadata (Some message))) <$> btree_elems subscribers)).1
  end.

(** The fields of [LogMessage] that decide who gets it; [log_sample] is the Arrow
    buffer that the JSON text of the message is converted to. *)
Record LogMessage := mkLogMessage {
  msg_level : LogLevelOrStdout;
  msg_node_id : option NodeId;
  log_sample : list Byte.byte
}.

Definition log_wanted (m : LogMessage) (sub : LogSubscriber) : bool :=
  (match min_level (log_filter sub) with
   | Some min => passes (msg_level m) min
   | None => true
   end)
  && (match node_filter (log_filter sub) with
      | Some n => bool_decide (msg_node_id m = Some n)
      | None => true
      end)
  && negb (bool_decide (msg_node_id m = Some (log_node_id sub))).

(** [DoraEvent::LogBroadcast]. *)
Definition handle_log_broadcast (df : RunningDataflow) (m : LogMessage) : RunningDataflow :=
  let '(df, closed) :=
    deliver_inputs df
      ((λ sub, (log_node_id sub, Input (log_input_id sub) (mkMetadata ∅) (Some (DMVec (log_sample m)))))
         <$> retain (log_wanted m) (log_subscribers df)) in
  (upd_log_subscribers (retain (λ sub, negb (bool_decide (log_node_id sub ∈ closed)))) df).

(** ** Parameters and reload *)

Definition deliver_strict (df : RunningDataflow) (node_id : NodeId) (event : NodeEvent)
    : res unit * RunningDataflow :=
  match subscribe_channels df !! node_id with
  | None => (Err "node not connected", df)
  | Some channel =>
      match send_and_count df node_id channel event with
      | (Some true, df) => (Ok tt, df)
      | (Some false, df) => (Err "node channel full", df)
      | (None, df) => (Err "node channel closed", df)
      end
  end.

Definition deliver_param_update_strict (df : RunningDataflow) (node_id : NodeId)
    (key value : string) : res unit * RunningDataflow :=
  deliver_strict df node_id (ParamUpdate key value).

Definition deliver_param_delete_strict (df : RunningDataflow) (node_id : NodeId)
    (key : string) : res unit * RunningDataflow :=
  deliver_strict df node_id (ParamDeleted key).

Definition send_reload (df : RunningDataflow) (node_id : NodeId) (operator_id : option OperatorId)
    : RunningDataflow :=
  match subscribe_channels df !! node_id with
  | None => df
  | Some channel =>
      match send_and_count df node_id channel (Reload operator_id) with
      | (None, df) => upd_subscribe_channels (delete node_id) df
      | (_, df) => df
      end
  end.

Definition catch_up_target (o : StateCatchUpOperation) : NodeId * NodeEvent :=
  match o with
  | CatchUpSetParam n key value => (n, ParamUpdate key value)
  | CatchUpDeleteParam n key => (n, ParamDeleted key)
  end.

(** [apply_state_catch_up_entries]: stops at the first entry that is not delivered. *)
Fixpoint apply_state_catch_up_entries (df : RunningDataflow) (applied_through : Z)
    (entries : list StateCatchUpEntry) : Z * RunningDataflow :=
  match entries with
  | [] => (applied_through, df)
  | entry :: entries =>
      let '(node_id, event) := catch_up_target (operation entry) in
      match subscribe_channels df !! node_id with
      | None => (applied_through, df)
      | Some channel =>
          match send_and_count df node_id channel event with
          | (Some true, df) => apply_state_catch_up_entries df (sequence entry) entries
          | (_, df) => (applied_through, df)
          end
      end
  end.

(** ** Restart and failure notifications *)

(** The receivers of the outputs of a node, in the order of a [BTreeSet]. *)
Definition downstream_nodes (df : RunningDataflow) (node_id : NodeId) : list NodeId :=
  btree_elems (list_to_set (
    (retain (λ e, bool_decide (e.1.1 = node_id)) (hash_iter (mappings df))) ≫= λ e,
      (btree_elems e.2).*1) : gset NodeId).

Definition notify_restarted (node_id : NodeId) (df : RunningDataflow) (receiver_id : NodeId)
    : RunningDataflow :=
  match subscribe_channels df !! receiver_id with
  | None => df
  | Some channel =>
      match send_and_count df receiver_id channel (NodeRestarted node_id) with
      | (Some false, df) =>
          (* channel full: wait for the receiver *)
          match subscriptions df !! channel with
          | Some s =>
              match send_blocking s (NodeRestarted node_id) with
              | (true, s) =>
                  inc_pending (upd_subscriptions <[channel := s]> df) receiver_id
              | (false, _) => df
              end
          | None => df
          end
      | (_, df) => df
      end
  end.

Definition notify_downstream_restarted (df : RunningDataflow) (node_id : NodeId) : RunningDataflow :=
  foldl (notify_restarted node_id) df (downstream_nodes df node_id).

(** The receivers of a failed node with their affected inputs. *)
Definition affected_by_receiver (df : RunningDataflow) (node_id : NodeId)
    : gmap NodeId (list DataId) :=
  foldl (λ m r, <[r.1 := default [] (m !! r.1) ++ [r.2]]> m) ∅
    ((retain (λ e, bool_decide (e.1.1 = node_id)) (hash_iter (mappings df))) ≫= λ e,
       btree_elems e.2).

(** The event is sent, but the pending counter of the receiver is not incremented. *)
Definition notify_failed (node_id : NodeId) (error_msg : string) (df : RunningDataflow)
    (entry : NodeId * list DataId) : RunningDataflow :=
  match subscribe_channels df !! entry.1 with
  | None => df
  | Some channel => (send_to df channel (NodeFailed entry.2 error_msg node_id)).2
  end.

Definition notify_downstream_failed (df : RunningDataflow) (node_id : NodeId) (error_msg : string)
    : RunningDataflow :=
  foldl (notify_failed node_id error_msg) df (btree_iter (affected_by_receiver df node_id)).

(** ** Topology *)

(** Registering one input of a local node, as at spawn and in [AddNode].  The conversion
    of the timeout panics when it is negative, not finite or too large. *)
Definition register_input (df : RunningDataflow) (node_id : NodeId)
    (entry : DataId * InputConfig) : res RunningDataflow :=
  let '(input_id, input) := entry in
  let df := insert_open_input df node_id input_id in
  match mapping input with
  | MUser m =>
      df ← match input_timeout input with
           | Some secs =>
               t ← duration_from_secs_f64 secs;
               Ok (upd_input_deadlines <[(node_id, input_id) := mkDeadline t None]> df)
           | None => Ok df
           end;
      let key := (source m, output m) in
      Ok (upd_mappings <[key := {[(node_id, input_id)]} ∪ default ∅ (mappings df !! key)]> df)
  | MTimer interval =>
      Ok (upd_timers <[interval := {[(node_id, input_id)]} ∪ default ∅ (timers df !! interval)]> df)
  | MLogs filter =>
      Ok (upd_log_subscribers (λ l, l ++ [mkLogSubscriber node_id input_id filter]) df)
  end.

Fixpoint register_inputs (df : RunningDataflow) (node_id : NodeId)
    (inputs : list (DataId * InputConfig)) : res RunningDataflow :=
  match inputs with
  | [] => Ok df
  | entry :: inputs => df ← register_input df node_id entry; register_inputs df node_id inputs
  end.

(** [AddNode] after the process has been spawned. *)
Definition add_node (df : RunningDataflow) (node_id : NodeId) (inputs : gmap DataId InputConfig)
    (is_dynamic : bool) (running_node : RunningNode) : res RunningDataflow :=
  df ← register_inputs df node_id (btree_iter inputs);
  let df := if is_dynamic
            then upd_dynamic_nodes (union {[node_id]}) df
            else upd_pending_nodes (λ p, pending_insert p node_id) df in
  let df := upd_running_nodes <[node_id := running_node]> df in
  Ok (upd_descriptor (λ l, l ++ [mkDescriptorNode node_id inputs]) df).

(** Removing the outputs of a node from the routing table and closing their receivers. *)
Definition remove_output (df : RunningDataflow) (output_id : OutputId) : RunningDataflow :=
  match mappings df !! output_id with
  | Some receivers =>
      close_inputs (upd_mappings (delete output_id) df) (btree_elems receivers)
  | None => df
  end.

Definition remove_node (df : RunningDataflow) (node_id : NodeId) (grace_duration : option Duration)
    : RunningDataflow :=
  let df := (stop_single_node df node_id grace_duration).2 in
  let outputs_to_remove := retain (λ o, bool_decide (o.1 = node_id)) (hash_keys (mappings df)) in
  let df := foldl remove_output df outputs_to_remove in
  let df := upd_mappings (fmap (filter (λ r, r.1 ≠ node_id))) df in
  let df := upd_running_nodes (delete node_id) df in
  let df := upd_open_inputs (delete node_id) df in
  let df := upd_subscribe_channels (delete node_id) df in
  let df := upd_drop_channels (delete node_id) df in
  let df := upd_pending_messages (delete node_id) df in
  upd_descriptor (retain (λ n, negb (bool_decide (desc_id n = node_id)))) df.

Definition add_mapping (df : RunningDataflow) (source_output : OutputId)
    (target_node : NodeId) (target_input : DataId) : RunningDataflow :=
  let receivers := default ∅ (mappings df !! source_output) in
  let df := upd_mappings <[source_output := {[(target_node, target_input)]} ∪ receivers]> df in
  insert_open_input df target_node target_input.

Definition remove_mapping (df : RunningDataflow) (source_output : OutputId)
    (target_node : NodeId) (target_input : DataId) : RunningDataflow :=
  match mappings df !! source_output with
  | Some receivers =>
      let df := upd_mappings <[source_output := receivers ∖ {[(target_node, target_input)]}]> df in
      if bool_decide ((target_node, target_input) ∈ receivers)
      then close_input df target_node target_input
      else df
  | None => df
  end.

Definition start_topic_debug_stream (df : RunningDataflow) (outputs : list OutputId)
    (subscription_id : Uuid) : RunningDataflow :=
  foldl (λ df o,
    let watchers := default ∅ (debug_topic_watchers df !! o) in
    upd_debug_topic_watchers <[o := {[subscription_id]} ∪ watchers]> df)
    df outputs.

Definition stop_topic_debug_stream (df : RunningDataflow) (subscription_id : Uuid) : RunningDataflow :=
  upd_debug_topic_watchers
    (omap (λ watchers, let w := watchers ∖ {[subscription_id]} in
                       if bool_decide (w = ∅) then None else Some w)) df.

(** [send_output_closed_events], local part. *)
Definition close_local_receivers (df : RunningDataflow) (node_id : NodeId) (outputs : list DataId)
    : RunningDataflow :=
  let local_node_inputs : gset (NodeId * DataId) :=
    list_to_set (
      (retain (λ e, bool_decide (e.1.1 = node_id) && bool_decide (e.1.2 ∈ outputs))
         (hash_iter (mappings df))) ≫= λ e, btree_elems e.2) in
  close_inputs df (btree_elems local_node_inputs).
End routing.
