(* ===== verification/Frames.v ===== *)
(** * Frame lemmas

    Most handlers of a dataflow touch a few of its fields.  A projection [F] of the
    dataflow that does not look at the fields a handler updates is unchanged by it.  The
    class [Insensitive] says that [F] does not look at a field; its instances are found by
    computation, so one lemma per handler serves every projection. *)

From Stdlib Require Import ZArith Lia.
From stdpp Require Import base gmap sets list strings.
From S2P Require Import Prelude Message Channel Pending Dataflow Routing.

Class Insensitive {A B : Type} (F : RunningDataflow → A)
    (upd : (B → B) → RunningDataflow → RunningDataflow) : Prop :=
  insensitive : ∀ f df, F (upd f df) = F df.
#[export] Hint Mode Insensitive - - + + : typeclass_instances.
#[export] Hint Extern 0 (Insensitive _ _) =>
  (let f := fresh in let df := fresh in intros f df; reflexivity) : typeclass_instances.

(** Nor does it see whether a node may restart. *)
Class RestartBlind {A : Type} (F : RunningDataflow → A) : Prop :=
  restart_blind : ∀ df n, F (disable_node_restart df n) = F df.
#[export] Hint Mode RestartBlind - + : typeclass_instances.
#[export] Hint Extern 0 (RestartBlind _) =>
  (let df := fresh in let n := fresh in intros df n; reflexivity) : typeclass_instances.

Lemma foldl_frame {A B X} (F : A → X) (f : A → B → A) (l : list B) a :
  (∀ a b, F (f a b) = F a) → F (foldl f a l) = F a.
Proof. intros Hf. revert a. induction l as [|b l IH]; intros a; simpl; [done|]. by rewrite IH. Qed.

(** ** What a send does to the channels *)

(** The events in flight on a channel. *)
Definition flight (df : RunningDataflow) (c : SubId) : option (list NodeEvent) :=
  in_flight <$> subscriptions df !! c.

Lemma flight_inc_pending df n c : flight (inc_pending df n) c = flight df c.
Proof.
  unfold inc_pending, flight. destruct (pending_messages df !! n) as [c'|]; [|done]. simpl.
  rewrite lookup_alter. case_decide; [subst|done]. by destruct (_ !! c).
Qed.

Lemma send_with_timestamp_flight s e :
  in_flight (send_with_timestamp s e).2
  = in_flight s ++ (if bool_decide ((send_with_timestamp s e).1 = Some true) then [e] else []).
Proof.
  unfold send_with_timestamp, try_send. repeat case_match; simplify_eq; simpl; by rewrite ?app_nil_r.
Qed.

Lemma flight_send_and_count df n c e c' :
  flight (send_and_count df n c e).2 c'
  = if decide (c' = c)
    then (λ l, l ++ (if bool_decide ((send_and_count df n c e).1 = Some true) then [e] else []))
           <$> flight df c
    else flight df c'.
Proof.
  unfold send_and_count, send_to.
  destruct (subscriptions df !! c) as [s|] eqn:Hs.
  - pose proof (send_with_timestamp_flight s e) as Hf.
    destruct (send_with_timestamp s e) as [r s']. simpl in *.
    match goal with |- context [flight (if ?b then inc_pending ?x ?y else ?x) c'] =>
      replace (flight (if b then inc_pending x y else x) c') with (flight x c')
        by (destruct b; by rewrite ?flight_inc_pending) end.
    unfold flight. rewrite Hs. simpl. destruct (decide (c' = c)).
    + subst. rewrite lookup_insert_eq. simpl. by rewrite Hf.
    + by rewrite lookup_insert_ne.
  - simpl. case_decide; [|done]. subst. unfold flight. by rewrite Hs.
Qed.

Section frames.
Context `{HashOrder} {A : Type} (F : RunningDataflow → A).

(** ** Channels *)
Section channels.
Context `{HS : !Insensitive F upd_subscriptions}.

Lemma send_to_frame df c e : F (send_to df c e).2 = F df.
Proof.
  unfold send_to. destruct (_ !! c) as [s|]; [|done].
  destruct (send_with_timestamp s e). apply HS.
Qed.

Lemma inc_pending_frame df n : F (inc_pending df n) = F df.
Proof. unfold inc_pending. destruct (_ !! n); [apply HS|done]. Qed.

Lemma send_and_count_frame df n c e : F (send_and_count df n c e).2 = F df.
Proof.
  unfold send_and_count. rewrite <- (send_to_frame df c e). destruct (send_to df c e) as [r df']. simpl.
  case_bool_decide; [apply inc_pending_frame|done].
Qed.

Lemma deliver_strict_frame df n e : F (deliver_strict df n e).2 = F df.
Proof.
  unfold deliver_strict. destruct (_ !! n) as [c|]; [|done].
  rewrite <- (send_and_count_frame df n c e). by destruct (send_and_count df n c e) as [[[]|] ?].
Qed.

Lemma catch_up_frame df k entries : F (apply_state_catch_up_entries df k entries).2 = F df.
Proof.
  revert df k. induction entries as [|entry entries IH]; intros df k; simpl; [done|].
  destruct (catch_up_target _) as [n e]. destruct (_ !! n) as [c|]; [|done].
  rewrite <- (send_and_count_frame df n c e).
  destruct (send_and_count df n c e) as [[[]|] ?]; simpl; [apply IH|done..].
Qed.

Lemma notify_restarted_frame m df n : F (notify_restarted m df n) = F df.
Proof.
  unfold notify_restarted. destruct (_ !! n) as [c|]; [|done].
  rewrite <- (send_and_count_frame df n c (NodeRestarted m)).
  destruct (send_and_count _ _ _ _) as [[[]|] df']; simpl; [done| |done].
  destruct (_ !! c) as [s|]; [|done]. destruct (send_blocking s _) as [[] s']; [|done].
  rewrite inc_pending_frame. apply HS.
Qed.

Lemma notify_downstream_restarted_frame df n : F (notify_downstream_restarted df n) = F df.
Proof. apply foldl_frame. intros. apply notify_restarted_frame. Qed.

Lemma notify_downstream_failed_frame df n msg : F (notify_downstream_failed df n msg) = F df.
Proof.
  apply foldl_frame. intros df' [m ids]. unfold notify_failed. simpl.
  destruct (_ !! m); [apply send_to_frame|done].
Qed.

Context `{HC : !Insensitive F upd_subscribe_channels}.

Lemma remove_channels_frame df closed : F (remove_channels df closed) = F df.
Proof. apply foldl_frame. intros. apply HC. Qed.

Lemma deliver_inputs_frame df entries : F (deliver_inputs df entries).1 = F df.
Proof.
  unfold deliver_inputs.
  assert (F (foldl deliver_input (df, []) entries).1 = F df) as Hf.
  { apply (foldl_frame (λ acc, F acc.1)). intros [df' closed] [n e]. unfold deliver_input. simpl.
    destruct (_ !! n) as [c|]; [|done]. rewrite <- (send_and_count_frame df' n c e).
    by destruct (send_and_count _ _ _ _) as [[|] ?]. }
  destruct (foldl _ _ _) as [df' closed]. simpl in *. by rewrite remove_channels_frame.
Qed.

Lemma handle_timer_frame df i m : F (handle_timer df i m) = F df.
Proof. unfold handle_timer. destruct (_ !! i); [apply deliver_inputs_frame|done]. Qed.

Lemma handle_logs_frame df o d m : F (handle_logs df o d m) = F df.
Proof. unfold handle_logs. destruct (_ !! o); [apply deliver_inputs_frame|done]. Qed.

Lemma send_reload_frame df n op : F (send_reload df n op) = F df.
Proof.
  unfold send_reload. destruct (_ !! n) as [c|]; [|done].
  rewrite <- (send_and_count_frame df n c (Reload op)).
  destruct (send_and_count _ _ _ _) as [[|] df']; simpl; [done|apply HC].
Qed.

Lemma handle_log_broadcast_frame `{HL : !Insensitive F upd_log_subscribers} df m :
  F (handle_log_broadcast df m) = F df.
Proof.
  unfold handle_log_broadcast.
  match goal with |- context [deliver_inputs df ?l] =>
    rewrite <- (deliver_inputs_frame df l); destruct (deliver_inputs df l) as [df' closed] end.
  simpl. apply HL.
Qed.
End channels.

(** ** Inputs *)
Section inputs.
Context `{HS : !Insensitive F upd_subscriptions} `{HR : !RestartBlind F}
        `{HO : !Insensitive F upd_open_inputs} `{HB : !Insensitive F upd_broken_inputs}.

Lemma remove_open_input_frame df n i : F (remove_open_input df n i).2 = F df.
Proof. unfold remove_open_input. destruct (_ !! n); [apply HO|done]. Qed.

Lemma report_all_inputs_closed_frame df n c : F (report_all_inputs_closed df n c) = F df.
Proof.
  unfold report_all_inputs_closed. destruct (_ && _); [|done].
  rewrite send_and_count_frame. apply HR.
Qed.

Lemma close_input_frame df n i : F (close_input df n i) = F df.
Proof.
  unfold close_input.
  set (df0 := upd_broken_inputs _ df). assert (F df0 = F df) as <- by apply HB.
  rewrite <- (remove_open_input_frame df0 n i).
  destruct (remove_open_input df0 n i) as [removed df1]. simpl.
  destruct (_ && _); [done|]. destruct (_ !! n) as [c|]; [|done].
  rewrite report_all_inputs_closed_frame. destruct (default false removed); [|done].
  apply send_and_count_frame.
Qed.

Lemma close_inputs_frame df l : F (close_inputs df l) = F df.
Proof. apply foldl_frame. intros df' [n i]. apply close_input_frame. Qed.

Lemma close_local_receivers_frame df n outputs : F (close_local_receivers df n outputs) = F df.
Proof. apply close_inputs_frame. Qed.

Lemma remove_mapping_frame `{HM : !Insensitive F upd_mappings} df o n i :
  F (remove_mapping df o n i) = F df.
Proof.
  unfold remove_mapping. destruct (_ !! o) as [r|]; [|done].
  case_bool_decide; [rewrite close_input_frame|]; apply HM.
Qed.

Lemma break_input_frame df n i : F (break_input df n i) = F df.
Proof.
  unfold break_input. rewrite <- (remove_open_input_frame df n i).
  destruct (remove_open_input df n i) as [removed df1]. simpl.
  case_bool_decide; [done|]. destruct (_ !! n) as [c|]; [|done].
  by rewrite report_all_inputs_closed_frame, send_and_count_frame.
Qed.

Context `{HD : !Insensitive F upd_input_deadlines}.

Lemma check_input_timeouts_frame now df stats : F (check_input_timeouts now df stats).1 = F df.
Proof.
  unfold check_input_timeouts.
  assert (F (foldl break_timed_out (df, stats) (timed_out_inputs now df)).1 = F df) as Hf.
  { apply (foldl_frame (λ acc, F acc.1)). intros [df' stats'] [[n i] t]. simpl.
    rewrite break_input_frame. apply HB. }
  destruct (foldl break_timed_out _ _) as [df' stats']. simpl in *. rewrite <- Hf.
  apply foldl_frame. intros. apply HD.
Qed.

Lemma recover_input_frame now df stats n i c : F (recover_input now df stats n i c).1 = F df.
Proof.
  unfold recover_input. destruct (_ !! (n, i)); [|done]. simpl.
  rewrite send_and_count_frame. unfold insert_open_input. by rewrite HD, HO, HB.
Qed.

Lemma subscribe_frame `{HC : !Insensitive F upd_subscribe_channels} df n c :
  F (subscribe df n c) = F df.
Proof.
  unfold subscribe. rewrite HC. set (closed := closed_inputs_of df n).
  assert (F (foldl (λ df i, (send_and_count df n c (InputClosed i)).2) df closed) = F df) as <-.
  { apply foldl_frame. intros. apply send_and_count_frame. }
  set (df1 := foldl _ df closed). clearbody df1.
  case_bool_decide.
  - destruct (list_find _ _) as [[k node]|].
    + case_bool_decide; case_match; rewrite ?send_and_count_frame, ?HR, ?send_and_count_frame, ?HR; done.
    + case_match; rewrite ?send_and_count_frame, ?HR; done.
  - case_match; rewrite ?send_and_count_frame, ?HR; done.
Qed.
End inputs.

(** ** Processes *)
Section procs.
Context `{HP : !Insensitive F upd_processes}.

Lemma submit_to_frame df p o : F (submit_to df p o).2 = F df.
Proof. unfold submit_to. destruct (_ !! p) as [ch|]; [|done]. destruct (submit ch o). apply HP. Qed.

Lemma drop_process_frame df p : F (drop_process df p) = F df.
Proof. apply submit_to_frame. Qed.

Lemma drop_processes_frame df l : F (drop_processes df l) = F df.
Proof. apply foldl_frame. intros df' [n [p|]]; [apply drop_process_frame|done]. Qed.

Context `{HS : !Insensitive F upd_subscriptions} `{HR : !Insensitive F upd_running_nodes}
        `{HK : !Insensitive F upd_kill_tasks}.

Lemma send_stop_and_schedule_kill_frame df n p g d :
  F (send_stop_and_schedule_kill df n p g d) = F df.
Proof.
  unfold send_stop_and_schedule_kill, schedule_kill.
  destruct (_ !! n) as [c|]; destruct p; rewrite ?HK, ?send_and_count_frame; done.
Qed.

Lemma stop_single_node_frame df n g : F (stop_single_node df n g).2 = F df.
Proof.
  unfold stop_single_node. destruct (_ !! n); [|done]. simpl.
  rewrite send_stop_and_schedule_kill_frame. apply HR.
Qed.

Lemma restart_single_node_frame df n g : F (restart_single_node df n g).2 = F df.
Proof.
  unfold restart_single_node. destruct (_ !! n); [|done]. simpl.
  rewrite send_stop_and_schedule_kill_frame. apply HR.
Qed.

Lemma end_processes_frame df g force : F (end_processes df g force) = F df.
Proof.
  unfold end_processes. destruct force.
  - rewrite drop_processes_frame, foldl_frame; [apply HR|].
    intros df' [n [p|]]; [apply submit_to_frame|done].
  - unfold schedule_kill. by rewrite HK, HR.
Qed.

Context `{HC : !Insensitive F upd_subscribe_channels}.

Lemma send_stops_frame df : F (send_stops df) = F df.
Proof.
  unfold send_stops. rewrite foldl_frame; [apply HC|]. intros ? [n c]. apply send_and_count_frame.
Qed.

Context `{HPn : !Insensitive F upd_pending_nodes}
        `{HCe : !Insensitive F upd_cascading_error_causes} `{HSt : !Insensitive F upd_stop_sent}.

Lemma with_pending_frame {X} df io (f : PendingCtx → res X * PendingCtx) :
  F (with_pending df io f).1.2 = F df.
Proof. unfold with_pending. destruct (f _) as [r c]. simpl. by rewrite HCe, HPn. Qed.

Lemma stop_all_frame df io g force : F (stop_all df io g force).1.2 = F df.
Proof.
  unfold stop_all. rewrite <- (with_pending_frame df io (λ c, handle_dataflow_stop c (dynamic_nodes df))).
  destruct (with_pending _ _ _) as [[[] df1] io']; simpl; [|done..].
  by rewrite HSt, end_processes_frame, send_stops_frame, HR.
Qed.
End procs.
End frames.
