(* ===== verification/Counters.v ===== *)
(** * Pending counters and channel bounds

    Every handler that routes events keeps each node's pending counter equal to the
    number of events in flight to it, and respects the channel bounds; the notification
    of a failed node is the exception. *)

From Stdlib Require Import ZArith Lia.
From stdpp Require Import base gmap sets list strings.
From S2P Require Import Prelude Message Channel Pending Dataflow Routing.

(** ** The invariant and how handlers preserve it *)

Definition subs_ok (df : RunningDataflow) : Prop :=
  ∀ c s, subscriptions df !! c = Some s → sub_ok s.

(** A subscribed node's counter belongs to its channel. *)
Definition counted (df : RunningDataflow) : Prop :=
  subscribe_channels df ⊆ pending_messages df.

Record counters_inv (df : RunningDataflow) : Prop := {
  ci_counted : counted df;
  ci_subs : subs_ok df
}.

(** [df'] comes from [df] by counted sends and by forgetting channels. *)
Record counted_step (df df' : RunningDataflow) : Prop := {
  cs_subs : subs_ok df → subs_ok df';
  cs_pending : pending_messages df' = pending_messages df;
  cs_channels : subscribe_channels df' ⊆ subscribe_channels df
}.

#[export] Instance counted_step_refl : Reflexive counted_step.
Proof. by split. Qed.
#[export] Instance counted_step_trans : Transitive counted_step.
Proof.
  intros x y z [S1 P1 C1] [S2 P2 C2]. split; [auto|congruence|by etrans].
Qed.

Lemma counted_step_counted df df' : counted_step df df' → counted df → counted df'.
Proof. intros [_ P C] Hc. unfold counted in *. rewrite P. by etrans. Qed.

Lemma counted_step_inv df df' : counted_step df df' → counters_inv df → counters_inv df'.
Proof. intros Hs [Hc Hok]. split; [by eapply counted_step_counted|by apply Hs]. Qed.

Lemma counted_lookup df n c :
  counted df → subscribe_channels df !! n = Some c → pending_messages df !! n = Some c.
Proof. intros Hc Hn. exact (lookup_weaken _ _ _ _ Hn Hc). Qed.

#[export] Hint Resolve counted_lookup counted_step_counted : dora.

(** Changes to other fields do not matter. *)
Lemma counted_step_frame df df' df'' :
  counted_step df df' → subscriptions df'' = subscriptions df' →
  pending_messages df'' = pending_messages df' →
  subscribe_channels df'' = subscribe_channels df' → counted_step df df''.
Proof.
  intros [S P C] Hs Hp Hc. split; [|congruence|by rewrite Hc].
  intros Hok c s. rewrite Hs. by apply S.
Qed.

Lemma counted_step_same df df' :
  subscriptions df' = subscriptions df → pending_messages df' = pending_messages df →
  subscribe_channels df' = subscribe_channels df → counted_step df df'.
Proof. intros. eapply counted_step_frame; [reflexivity|done..]. Qed.

Lemma counted_step_foldl {A} (f : RunningDataflow → A → RunningDataflow) l df :
  (∀ df x, counted df → counted_step df (f df x)) →
  counted df → counted_step df (foldl f df l).
Proof.
  intros Hf. revert df. induction l as [|x l IH]; intros df Hc; simpl; [done|].
  etrans; [by apply Hf|]. apply IH. by eapply counted_step_counted; [apply Hf|].
Qed.

(** ** Sending *)

Lemma send_and_count_eq df n c event :
  pending_messages df !! n = Some c →
  send_and_count df n c event =
  match subscriptions df !! c with
  | Some s => ((send_counted s event).1,
               (upd_subscriptions <[c := (send_counted s event).2]> df))
  | None => (None, df)
  end.
Proof.
  intros Hp. unfold send_and_count, send_to, inc_pending, send_counted.
  destruct (subscriptions df !! c) as [s|] eqn:Hs; [|by rewrite bool_decide_false].
  destruct (send_with_timestamp s event) as [[[]|] s']; simpl; [|done..].
  rewrite Hp. unfold upd_subscriptions. simpl. by rewrite alter_insert_eq.
Qed.

Lemma counted_step_insert df c s s' :
  subscriptions df !! c = Some s → (sub_ok s → sub_ok s') →
  counted_step df (upd_subscriptions <[c := s']> df).
Proof.
  intros Hc Hs. split; simpl; [|done..]. intros Hok c' s''. simpl. rewrite lookup_insert.
  case_decide; [|by apply Hok]. intros; simplify_eq. eauto.
Qed.

Lemma counted_step_send df n c event :
  pending_messages df !! n = Some c → counted_step df (send_and_count df n c event).2.
Proof.
  intros Hp. rewrite send_and_count_eq by done.
  destruct (subscriptions df !! c) as [s|] eqn:Hs; simpl; [|reflexivity].
  eapply counted_step_insert; [done|]. apply sub_ok_send_counted.
Qed.

Lemma counted_step_send_eq df n c event r df' :
  send_and_count df n c event = (r, df') → pending_messages df !! n = Some c → counted_step df df'.
Proof.
  intros Heq Hp. pose proof (counted_step_send df n c event Hp) as Hstep. by rewrite Heq in Hstep.
Qed.

(** ** Handlers *)

Section handlers.
Context `{HashOrder}.

Lemma counted_step_report_all df n c :
  pending_messages df !! n = Some c → counted_step df (report_all_inputs_closed df n c).
Proof.
  intros Hp. unfold report_all_inputs_closed. case_match; [|done].
  etrans; [apply (counted_step_same df (disable_node_restart df n)); done|].
  by apply counted_step_send.
Qed.

Lemma remove_open_input_channels df n i :
  ∃ m, (remove_open_input df n i).2 = upd_open_inputs m df.
Proof.
  unfold remove_open_input. destruct (open_inputs df !! n); [by eexists|].
  exists id. by destruct df.
Qed.

Lemma close_input_counted df n i : counted df → counted_step df (close_input df n i).
Proof.
  intros Hc. unfold close_input.
  destruct (remove_open_input_channels (upd_broken_inputs (delete (n, i)) df) n i)
    as [m Hm].
  destruct (remove_open_input _ n i) as [removed df1]. simpl in Hm. subst df1.
  case_match; [by apply counted_step_same|]. simpl.
  destruct (subscribe_channels df !! n) as [c|] eqn:Hch; [|by apply counted_step_same].
  apply (counted_lookup _ _ _ Hc) in Hch.
  set (df1 := upd_open_inputs m (upd_broken_inputs (delete (n, i)) df)).
  assert (counted_step df df1) as H1 by by apply counted_step_same.
  assert (counted_step df1 (if default false removed
      then (send_and_count df1 n c (InputClosed i)).2 else df1)) as H2
    by (case_match; [by apply counted_step_send|done]).
  etrans; [exact H1|]. etrans; [exact H2|]. apply counted_step_report_all.
  by rewrite (cs_pending _ _ H2).
Qed.

Lemma close_inputs_counted df inputs : counted df → counted_step df (close_inputs df inputs).
Proof. apply counted_step_foldl. intros df' [n i]. apply close_input_counted. Qed.

Lemma break_input_counted df n i : counted df → counted_step df (break_input df n i).
Proof.
  intros Hc. unfold break_input. destruct (remove_open_input_channels df n i) as [m Hm].
  destruct (remove_open_input df n i) as [removed df1]. simpl in Hm. subst df1.
  case_bool_decide; [by apply counted_step_same|]. simpl.
  destruct (subscribe_channels df !! n) as [c|] eqn:Hch; [|by apply counted_step_same].
  apply (counted_lookup _ _ _ Hc) in Hch.
  set (df1 := upd_open_inputs m df).
  assert (counted_step df1 (send_and_count df1 n c (InputClosed i)).2) as H2
    by by apply counted_step_send.
  etrans; [by apply (counted_step_same df df1)|]. etrans; [exact H2|].
  apply counted_step_report_all. by rewrite (cs_pending _ _ H2).
Qed.

Lemma check_input_timeouts_counted now df stats :
  counted df → counted_step df (check_input_timeouts now df stats).1.
Proof.
  intros Hc. unfold check_input_timeouts. generalize (timed_out_inputs now df). intros l.
  assert (counted_step df (foldl break_timed_out (df, stats) l).1) as Hb.
  { revert df stats Hc. induction l as [|[[n i] t] l IH]; intros df stats Hc; simpl; [done|].
    assert (counted_step df (break_input (upd_broken_inputs <[(n, i):=t]> df) n i)) as H1.
    { etrans; [apply (counted_step_same df (upd_broken_inputs <[(n, i):=t]> df)); done|].
      by apply break_input_counted. }
    etrans; [exact H1|]. apply IH. by eapply counted_step_counted. }
  destruct (foldl break_timed_out (df, stats) l) as [df1 stats1]. simpl in *.
  etrans; [exact Hb|]. apply counted_step_foldl; [|by eapply counted_step_counted].
  intros; by apply counted_step_same.
Qed.

Lemma recover_input_counted now df stats n i c :
  pending_messages df !! n = Some c → counted_step df (recover_input now df stats n i c).1.
Proof.
  intros Hp. unfold recover_input. destruct (broken_inputs df !! (n, i)); [|done]. simpl.
  etrans; [|by apply counted_step_send]. by apply counted_step_same.
Qed.

Lemma deliver_output_counted now owner metadata data acc receiver :
  counted (dl_df acc) →
  counted_step (dl_df acc) (dl_df (deliver_output now owner metadata data acc receiver)).
Proof.
  intros Hc. destruct receiver as [n i], acc as [df stats closed]. unfold deliver_output.
  cbn [dl_df dl_stats dl_closed] in *.
  destruct (subscribe_channels df !! n) as [c|] eqn:Hch; [|done].
  apply (counted_lookup _ _ _ Hc) in Hch.
  destruct (subscriptions df !! c) as [s|] eqn:Hs; [|done].
  destruct (Z.ltb_spec (capacity s) CONTROL_EVENT_HEADROOM) as [|Hcap]; [done|].
  destruct (try_send s (Input i metadata data)) as [[] s'] eqn:Ht; [|done..].
  apply try_send_Sent in Ht as (Hrx & Hpos & ->).
  unfold inc_pending. simpl pending_messages. rewrite Hch.
  match goal with |- context [recover_input now ?x stats n i c] => set (df2 := x) end.
  assert (counted_step df df2) as H2.
  { eapply counted_step_frame;
      [eapply (counted_step_insert df c s (inc_counter (push_event s (Input i metadata data)))); [done|]
      | |done..].
    - intros Hok. by apply push_event_counted; [|split_and!].
    - unfold df2. simpl. by rewrite alter_insert_eq. }
  pose proof (recover_input_counted now df2 stats n i c) as H3.
  destruct (recover_input now df2 stats n i c) as [df3 stats3]. cbn [fst] in H3.
  etrans; [exact H2|]. etrans; [apply H3; by rewrite (cs_pending _ _ H2)|].
  cbn [dl_df]. case_match; by apply counted_step_same.
Qed.

Lemma remove_channels_counted df closed : counted_step df (remove_channels df closed).
Proof.
  unfold remove_channels. revert df. induction closed as [|n closed IH]; intros df; simpl; [done|].
  etrans; [|apply IH]. split; simpl; [done..|]. apply delete_subseteq.
Qed.

Lemma check_drop_token_frame df token :
  ∃ f g, check_drop_token df token = upd_drop_subscriptions f (upd_pending_drop_tokens g df).
Proof.
  assert (df = upd_drop_subscriptions id (upd_pending_drop_tokens id df)) as Hid by by destruct df.
  unfold check_drop_token. destruct (pending_drop_tokens df !! token) as [info|]; [|by exists id, id].
  case_bool_decide; [|by exists id, id]. simpl.
  destruct (drop_channels df !! owner info) as [c|]; [|by exists id, (delete token)].
  destruct (drop_subscriptions df !! c); [|by exists id, (delete token)].
  by eexists _, (delete token).
Qed.

Lemma check_drop_token_counted df token : counted_step df (check_drop_token df token).
Proof. destruct (check_drop_token_frame df token) as (f & g & ->). by apply counted_step_same. Qed.

Lemma deliver_outputs_counted now owner metadata data l acc :
  counted (dl_df acc) →
  counted_step (dl_df acc) (dl_df (foldl (deliver_output now owner metadata data) acc l)).
Proof.
  revert acc. induction l as [|x l IH]; intros acc Hc; simpl; [done|].
  pose proof (deliver_output_counted now owner metadata data acc x Hc) as Hd.
  etrans; [exact Hd|]. apply IH. by eapply counted_step_counted.
Qed.

Lemma send_output_counted shm now df stats n o metadata data need :
  counted df →
  counted_step df (send_output_to_local_receivers shm now df stats n o metadata data need).1.2.
Proof.
  intros Hc. unfold send_output_to_local_receivers.
  pose proof (deliver_outputs_counted now n metadata data
    (btree_elems (default ∅ (mappings df !! (n, o)))) (mkDelivery df stats []) Hc) as Hd.
  destruct (foldl _ _ _) as [df1 stats1 closed]. simpl in *.
  pose proof (remove_channels_counted df1 closed) as Hr.
  destruct (output_bytes shm data need) as [[bytes [token|]]| |]; simpl;
    try by etrans.
  etrans; [exact Hd|]. etrans; [exact Hr|]. etrans; [|apply check_drop_token_counted].
  by apply counted_step_same.
Qed.

Lemma report_drop_counted df n tokens : counted df → counted_step df (report_drop df n tokens).
Proof.
  apply counted_step_foldl. intros df' token _. unfold report_drop_token.
  destruct (pending_drop_tokens df' !! token); [|done]. case_bool_decide; [|done].
  etrans; [|apply check_drop_token_counted]. by apply counted_step_same.
Qed.

Lemma deliver_inputs_counted df entries :
  counted df → counted_step df (deliver_inputs df entries).1.
Proof.
  intros Hc. unfold deliver_inputs.
  assert (∀ closed, counted_step df (foldl deliver_input (df, closed) entries).1) as Hf.
  { revert df Hc. induction entries as [|[n ev] entries IH]; intros df Hc closed; simpl; [done|].
    destruct (subscribe_channels df !! n) as [c|] eqn:Hch; [|by apply IH].
    destruct (send_and_count df n c ev) as [r df'] eqn:Hs.
    apply counted_step_send_eq in Hs; [|by apply counted_lookup].
    etrans; [exact Hs|]. destruct r; apply IH; by eapply counted_step_counted. }
  specialize (Hf []). destruct (foldl _ _ _) as [df1 closed]. simpl in *.
  etrans; [exact Hf|]. apply remove_channels_counted.
Qed.

Lemma handle_timer_counted df interval metadata :
  counted df → counted_step df (handle_timer df interval metadata).
Proof. intros Hc. unfold handle_timer. case_match; [by apply deliver_inputs_counted|done]. Qed.

Lemma handle_logs_counted df o message metadata :
  counted df → counted_step df (handle_logs df o message metadata).
Proof. intros Hc. unfold handle_logs. case_match; [by apply deliver_inputs_counted|done]. Qed.

Lemma handle_log_broadcast_counted df m :
  counted df → counted_step df (handle_log_broadcast df m).
Proof.
  intros Hc. unfold handle_log_broadcast.
  match goal with |- context [deliver_inputs df ?l] =>
    pose proof (deliver_inputs_counted df l Hc) as Hd; destruct (deliver_inputs df l) end.
  by eapply counted_step_frame; [exact Hd|..].
Qed.

Lemma deliver_strict_counted df n ev : counted df → counted_step df (deliver_strict df n ev).2.
Proof.
  intros Hc. unfold deliver_strict. destruct (subscribe_channels df !! n) as [c|] eqn:Hch; [|done].
  pose proof (counted_step_send df n c ev (counted_lookup _ _ _ Hc Hch)) as Hs.
  by destruct (send_and_count df n c ev) as [[[]|] df'].
Qed.

Lemma send_reload_counted df n op : counted df → counted_step df (send_reload df n op).
Proof.
  intros Hc. unfold send_reload. destruct (subscribe_channels df !! n) as [c|] eqn:Hch; [|done].
  pose proof (counted_step_send df n c (Reload op) (counted_lookup _ _ _ Hc Hch)) as Hs.
  destruct (send_and_count df n c (Reload op)) as [[[]|] df']; [done..|]. simpl in Hs.
  etrans; [exact Hs|]. split; simpl; [done..|]. apply delete_subseteq.
Qed.

Lemma catch_up_counted df applied entries :
  counted df → counted_step df (apply_state_catch_up_entries df applied entries).2.
Proof.
  revert df applied. induction entries as [|e entries IH]; intros df applied Hc; simpl; [done|].
  destruct (catch_up_target (operation e)) as [n ev].
  destruct (subscribe_channels df !! n) as [c|] eqn:Hch; [|done].
  destruct (send_and_count df n c ev) as [r df'] eqn:Hs.
  apply counted_step_send_eq in Hs; [|by apply counted_lookup].
  destruct r as [[]|]; simpl; [|done..]. etrans; [exact Hs|]. apply IH. by eapply counted_step_counted.
Qed.

Lemma notify_restarted_counted n df r : counted df → counted_step df (notify_restarted n df r).
Proof.
  intros Hc. unfold notify_restarted. destruct (subscribe_channels df !! r) as [c|] eqn:Hch; [|done].
  apply (counted_lookup _ _ _ Hc) in Hch.
  destruct (send_and_count df r c (NodeRestarted n)) as [o df'] eqn:Hs.
  apply counted_step_send_eq in Hs; [|done]. destruct o as [[]|]; [done| |done].
  destruct (subscriptions df' !! c) as [s|] eqn:Hsub; [|done].
  destruct (send_blocking s (NodeRestarted n)) as [b s'] eqn:Hb. destruct b; [|done].
  unfold inc_pending. simpl. rewrite (cs_pending _ _ Hs), Hch. etrans; [exact Hs|].
  eapply counted_step_frame; [apply (counted_step_insert df' c s (inc_counter s')); [done|]| |done..].
  - intros Hok. exact (sub_ok_send_blocking s (NodeRestarted n) true s' eq_refl Hok Hb).
  - simpl. by rewrite alter_insert_eq.
Qed.

Lemma notify_downstream_restarted_counted df n :
  counted df → counted_step df (notify_downstream_restarted df n).
Proof. apply counted_step_foldl. intros. by apply notify_restarted_counted. Qed.

Lemma schedule_kill_counted df n p grace default_grace :
  counted df → counted_step df (send_stop_and_schedule_kill df n p grace default_grace).
Proof.
  intros Hc. unfold send_stop_and_schedule_kill.
  assert (counted_step df (match subscribe_channels df !! n with
    | Some c => (send_and_count df n c Stop).2 | None => df end)) as Hs.
  { destruct (subscribe_channels df !! n) as [c|] eqn:Hch; [|done].
    apply counted_step_send. by apply counted_lookup. }
  destruct p; [|done]. by eapply counted_step_frame; [exact Hs|..].
Qed.

Lemma stop_single_node_counted df n grace :
  counted df → counted_step df (stop_single_node df n grace).2.
Proof.
  intros Hc. unfold stop_single_node. case_match; [|done]. simpl.
  etrans; [|by apply schedule_kill_counted]. by apply counted_step_same.
Qed.

Lemma restart_single_node_counted df n grace :
  counted df → counted_step df (restart_single_node df n grace).2.
Proof.
  intros Hc. unfold restart_single_node. case_match; [|done]. simpl.
  etrans; [|by apply schedule_kill_counted]. by apply counted_step_same.
Qed.

Lemma send_stops_counted df l :
  Forall (λ e, pending_messages df !! e.1 = Some e.2) l →
  counted_step df (foldl send_stop_to df l).
Proof.
  revert df. induction l as [|[n c] l IH]; intros df Hl; simpl; [done|].
  apply Forall_cons in Hl as [Hn Hl]. pose proof (counted_step_send df n c Stop Hn) as Hs.
  etrans; [exact Hs|]. apply IH. unfold send_stop_to. simpl. by rewrite (cs_pending _ _ Hs).
Qed.

Lemma submit_to_channels df p o : ∃ f, (submit_to df p o).2 = upd_processes f df.
Proof.
  unfold submit_to. destruct (processes df !! p) as [ch|]; [|exists id; by destruct df].
  destruct (submit ch o) as [r ch']. by eexists.
Qed.

Lemma submit_to_counted df p o : counted_step df (submit_to df p o).2.
Proof. destruct (submit_to_channels df p o) as [f ->]. by apply counted_step_same. Qed.

Lemma submit_all_counted df o (ps : list (NodeId * option ProcId)) :
  counted df →
  counted_step df (foldl (λ df entry, match entry.2 with
                                      | Some p => (submit_to df p o).2 | None => df end) df ps).
Proof. apply counted_step_foldl. intros df' [n [p|]] _; [apply submit_to_counted|done]. Qed.

Lemma stop_all_inv df io grace force :
  counters_inv df → counters_inv (stop_all df io grace force).1.2.
Proof.
  intros [Hc Hok]. unfold stop_all, with_pending, send_stops, end_processes.
  destruct (handle_dataflow_stop _ _) as [r c].
  assert (counters_inv (upd_cascading_error_causes (λ _, pending_causes c)
            (upd_pending_nodes (λ _, pending c) df))) as Hinv by by split.
  destruct r; simpl; [|done..]. clear Hinv.
  set (df1 := upd_subscribe_channels (λ _, ∅) _).
  set (l := hash_iter (subscribe_channels df)).
  assert (counted_step df1 (foldl send_stop_to df1 l)) as Hstop.
  { apply send_stops_counted, Forall_forall. intros [n s] Hin%elem_of_hash_iter.
    exact (counted_lookup df n s Hc Hin). }
  assert (counters_inv (foldl send_stop_to df1 l)) as H2.
  { eapply counted_step_inv; [exact Hstop|]. split; [apply map_empty_subseteq|done]. }
  revert H2. generalize (foldl send_stop_to df1 l). intros df2 H2.
  set (df3 := upd_running_nodes (fmap take_process) df2).
  assert (counters_inv df3) as H3
    by (eapply counted_step_inv; [by apply (counted_step_same df2 df3)|done]).
  destruct force; (eapply counted_step_inv; [|exact H3]).
  - generalize ((λ e : NodeId * RunningNode, (e.1, process e.2)) <$> btree_iter (running_nodes df2)).
    intros ps. pose proof (submit_all_counted df3 Kill ps (ci_counted _ H3)) as Hk.
    pose proof (submit_all_counted _ Kill ps (counted_step_counted _ _ Hk (ci_counted _ H3))) as Hd.
    eapply counted_step_frame; [etrans; [exact Hk|exact Hd]|reflexivity..].
  - by apply counted_step_same.
Qed.

Lemma subscribe_inv df n sub :
  counters_inv df →
  counters_inv (subscribe (upd_pending_messages <[n := sub]>
    (upd_subscriptions <[sub := new_subscription]> df)) n sub).
Proof.
  intros [Hc Hok]. unfold subscribe.
  set (df1 := upd_pending_messages _ _).
  assert (subs_ok df1) as Hok1.
  { intros c s. simpl. rewrite lookup_insert. case_decide; [|by apply Hok].
    intros; simplify_eq. apply sub_ok_new. }
  assert (pending_messages df1 !! n = Some sub) as Hp by apply lookup_insert_eq.
  assert (∀ l, counted_step df1
    (foldl (λ df i, (send_and_count df n sub (InputClosed i)).2) df1 l)) as Hl.
  { assert (∀ l df, pending_messages df !! n = Some sub → counted_step df
      (foldl (λ df i, (send_and_count df n sub (InputClosed i)).2) df l)) as Hg; [|by intros; apply Hg].
    intros l. induction l as [|i l IH]; intros df' Hp'; simpl; [done|].
    pose proof (counted_step_send df' n sub (InputClosed i) Hp') as Hs.
    etrans; [exact Hs|]. apply IH. by rewrite (cs_pending _ _ Hs). }
  specialize (Hl (closed_inputs_of df1 n)). revert Hl.
  generalize (foldl (λ df i, (send_and_count df n sub (InputClosed i)).2) df1 (closed_inputs_of df1 n)).
  intros df2 H2.
  match goal with |- counters_inv (upd_subscribe_channels _ ?x) => set (df4 := x) end.
  assert (counted_step df1 df4) as [S4 P4 C4].
  { unfold df4. set (df3 := if bool_decide (open_inputs_of df2 n = ∅) then _ else df2).
    assert (counted_step df1 df3) as H3.
    { etrans; [exact H2|]. unfold df3. case_bool_decide; [|done].
      etrans; [apply (counted_step_same df2 (disable_node_restart df2 n)); done|].
      case_match; [|done]. case_match. case_bool_decide; [done|].
      apply counted_step_send. simpl. by rewrite (cs_pending _ _ H2). }
    case_match; [|done]. etrans; [exact H3|].
    etrans; [apply (counted_step_same df3 (disable_node_restart df3 n)); done|].
    apply counted_step_send. simpl. by rewrite (cs_pending _ _ H3). }
  clearbody df4. split; [|intros c s; simpl; by apply S4]. unfold counted. simpl. rewrite P4.
  apply insert_mono. etrans; [exact C4|exact Hc].
Qed.

Lemma remove_output_counted df o : counted df → counted_step df (remove_output df o).
Proof.
  intros Hc. unfold remove_output. case_match; [|done].
  etrans; [|by apply close_inputs_counted]. by apply counted_step_same.
Qed.

Lemma remove_node_inv df n grace : counters_inv df → counters_inv (remove_node df n grace).
Proof.
  intros [Hc Hok]. unfold remove_node.
  pose proof (stop_single_node_counted df n grace Hc) as H1.
  revert H1. generalize (stop_single_node df n grace).2. intros df1 H1.
  pose proof (counted_step_counted _ _ H1 Hc) as Hc1.
  pose proof (counted_step_foldl remove_output
    (retain (λ o, bool_decide (o.1 = n)) (hash_keys (mappings df1))) df1
    (λ df o, remove_output_counted df o) Hc1) as H2.
  revert H2. generalize (foldl remove_output df1
    (retain (λ o, bool_decide (o.1 = n)) (hash_keys (mappings df1)))). intros df2 H2.
  pose proof (counted_step_counted _ _ H2 Hc1) as Hc2.
  split; [|intros c s; simpl; by apply H2, H1]. unfold counted. simpl. by apply delete_mono.
Qed.

Lemma remove_mapping_counted df o n i : counted df → counted_step df (remove_mapping df o n i).
Proof.
  intros Hc. unfold remove_mapping. case_match; [|done].
  case_bool_decide; [|by apply counted_step_same].
  etrans; [|by apply close_input_counted]. by apply counted_step_same.
Qed.

Lemma close_local_receivers_counted df n outputs :
  counted df → counted_step df (close_local_receivers df n outputs).
Proof. apply close_inputs_counted. Qed.

Lemma register_input_counted df n e df' : register_input df n e = Ok df' → counted_step df df'.
Proof.
  destruct e as [i input]. unfold register_input. intros Hr.
  destruct (mapping input); [injection Hr as <-; by apply counted_step_same..|].
  res_inv Hr. injection Hr as <-. destruct (input_timeout input) as [secs|].
  - destruct (duration_from_secs_f64 secs); simplify_eq/=. by apply counted_step_same.
  - simplify_eq/=. by apply counted_step_same.
Qed.

Lemma register_inputs_counted df n l df' : register_inputs df n l = Ok df' → counted_step df df'.
Proof.
  revert df. induction l as [|e l IH]; intros df Hr; simpl in Hr; [by injection Hr as <-|].
  res_inv Hr. etrans; [by eapply register_input_counted|by apply IH].
Qed.

Lemma add_node_counted df n inputs dyn node df' :
  add_node df n inputs dyn node = Ok df' → counted_step df df'.
Proof.
  unfold add_node. intros Hr. res_inv Hr. injection Hr as <-.
  etrans; [by eapply register_inputs_counted|]. destruct dyn; by apply counted_step_same.
Qed.

(** ** Runs of a dataflow *)

(** What can happen to a running dataflow: the events the daemon handles for it, and the
    listener of a subscription taking an event or going away. *)
Inductive df_op :=
| OpSubscribe (node_id : NodeId) (event_sender : SubId)
| OpEventStreamDropped (node_id : NodeId)
| OpSendOut (now : Instant) (node_id : NodeId) (output_id : DataId) (metadata : Metadata)
    (data : option DataMessage) (need_data_bytes : bool)
| OpReportDrop (node_id : NodeId) (tokens : list DropToken)
| OpCloseOutputs (node_id : NodeId) (outputs : list DataId)
| OpInputTimeouts (now : Instant)
| OpTimer (interval : Duration) (metadata : Metadata)
| OpLogs (output_id : OutputId) (message : DataMessage) (metadata : Metadata)
| OpLogBroadcast (m : LogMessage)
| OpSetParam (node_id : NodeId) (key value : string)
| OpDeleteParam (node_id : NodeId) (key : string)
| OpReload (node_id : NodeId) (operator_id : option OperatorId)
| OpCatchUp (entries : list StateCatchUpEntry)
| OpNodeRestarted (node_id : NodeId)
| OpNodeFailed (node_id : NodeId) (error_msg : string)
| OpStopAll (io : Io) (grace : option Duration) (force : bool)
| OpStopNode (node_id : NodeId) (grace : option Duration)
| OpRestartNode (node_id : NodeId) (grace : option Duration)
| OpAddNode (node_id : NodeId) (inputs : gmap DataId InputConfig) (is_dynamic : bool)
    (running_node : RunningNode)
| OpRemoveNode (node_id : NodeId) (grace : option Duration)
| OpAddMapping (o : OutputId) (node_id : NodeId) (input_id : DataId)
| OpRemoveMapping (o : OutputId) (node_id : NodeId) (input_id : DataId)
| OpListenerRecv (channel : SubId)
| OpListenerDropped (channel : SubId).

Definition zero_stats : FaultToleranceStats := mkStats 0 0 0 0.

Definition df_step (shm : string → option (list Byte.byte)) (df : RunningDataflow) (o : df_op)
    : RunningDataflow :=
  match o with
  | OpSubscribe n c =>
      subscribe (upd_pending_messages <[n := c]> (upd_subscriptions <[c := new_subscription]> df)) n c
  | OpEventStreamDropped n => upd_subscribe_channels (delete n) df
  | OpSendOut now n o metadata data need =>
      (send_output_to_local_receivers shm now df zero_stats n o metadata data need).1.2
  | OpReportDrop n tokens => report_drop df n tokens
  | OpCloseOutputs n outputs => close_local_receivers df n outputs
  | OpInputTimeouts now => (check_input_timeouts now df zero_stats).1
  | OpTimer interval metadata => handle_timer df interval metadata
  | OpLogs o message metadata => handle_logs df o message metadata
  | OpLogBroadcast m => handle_log_broadcast df m
  | OpSetParam n key value => (deliver_param_update_strict df n key value).2
  | OpDeleteParam n key => (deliver_param_delete_strict df n key).2
  | OpReload n op => send_reload df n op
  | OpCatchUp entries => (apply_state_catch_up_entries df 0 entries).2
  | OpNodeRestarted n => notify_downstream_restarted df n
  | OpNodeFailed n msg => notify_downstream_failed df n msg
  | OpStopAll io grace force => (stop_all df io grace force).1.2
  | OpStopNode n grace => (stop_single_node df n grace).2
  | OpRestartNode n grace => (restart_single_node df n grace).2
  | OpAddNode n inputs dyn node =>
      match add_node df n inputs dyn node with Ok df => df | _ => df end
  | OpRemoveNode n grace => remove_node df n grace
  | OpAddMapping o n i => add_mapping df o n i
  | OpRemoveMapping o n i => remove_mapping df o n i
  | OpListenerRecv c => upd_subscriptions (alter (λ s, (recv_event s).2) c) df
  | OpListenerDropped c => upd_subscriptions (alter drop_receiver c) df
  end.

Definition df_run (shm : string → option (list Byte.byte)) : RunningDataflow → list df_op → RunningDataflow :=
  foldl (df_step shm).

Definition not_failure (o : df_op) : Prop :=
  match o with OpNodeFailed _ _ => False | _ => True end.

Lemma alter_subs_inv df c f :
  (∀ s, sub_ok s → sub_ok (f s)) → counters_inv df → counters_inv (upd_subscriptions (alter f c) df).
Proof.
  intros Hf [Hc Hok]. split; [done|]. intros c' s. simpl. rewrite lookup_alter.
  case_decide; [|by apply Hok]. subst. destruct (subscriptions df !! c') as [s0|] eqn:Hs; [|done].
  simpl. intros [= <-]. eauto.
Qed.

Lemma df_step_inv shm df o : not_failure o → counters_inv df → counters_inv (df_step shm df o).
Proof.
  intros Ho Hi. assert (counted df) as Hc by apply Hi.
  destruct o; cbn [df_step]; try done;
    try by (eapply counted_step_inv; [|exact Hi]; eauto using send_output_counted,
      report_drop_counted, close_local_receivers_counted, check_input_timeouts_counted,
      handle_timer_counted, handle_logs_counted, handle_log_broadcast_counted,
      deliver_strict_counted, send_reload_counted, catch_up_counted,
      notify_downstream_restarted_counted, stop_single_node_counted,
      restart_single_node_counted, remove_mapping_counted).
  - by apply subscribe_inv.
  - eapply counted_step_inv; [|exact Hi]. split; simpl; [done..|]. apply delete_subseteq.
  - by apply stop_all_inv.
  - destruct (add_node df node_id inputs is_dynamic running_node) as [df'| |] eqn:Ha; [|done..].
    eapply counted_step_inv; [|exact Hi]. by eapply add_node_counted.
  - by apply remove_node_inv.
  - apply alter_subs_inv; [apply sub_ok_recv|done].
  - apply alter_subs_inv; [|done]. intros; apply sub_ok_drop.
Qed.

Lemma df_run_inv shm df ops :
  Forall not_failure ops → counters_inv df → counters_inv (df_run shm df ops).
Proof.
  unfold df_run. revert df. induction ops as [|o ops IH]; intros df Hops Hi; simpl; [done|].
  apply Forall_cons in Hops as [Ho Hops]. apply IH; [done|]. by apply df_step_inv.
Qed.

(** C7. Exact accounting of pending messages.  Whatever sequence of events a dataflow
    goes through (failure notifications aside), every node channel whose receiver exists
    has a pending counter equal to the number of events in flight, holds at most its
    capacity, and at most 951 of its slots hold data. *)
Theorem pending_counters_exact shm dataflow_id nodes debug ops c s :
  Forall not_failure ops →
  subscriptions (df_run shm (dataflow_new dataflow_id nodes debug) ops) !! c = Some s →
  (rx_alive s = true → counter s = Z.of_nat (length (in_flight s))) ∧
  (Z.of_nat (length (in_flight s)) ≤ NODE_EVENT_CHANNEL_CAPACITY)%Z ∧
  (data_count (in_flight s) ≤ MAX_DATA_EVENTS)%Z.
Proof.
  intros Hops Hs. assert (counters_inv (df_run shm (dataflow_new dataflow_id nodes debug) ops)) as [_ Hok].
  { apply df_run_inv; [done|]. by split. }
  destruct (Hok c s Hs). auto.
Qed.

Lemma notify_failed_uncounted n msg df entry c s :
  counted df → subscribe_channels df !! entry.1 = Some c → subscriptions df !! c = Some s →
  rx_alive s = true → (0 < capacity s)%Z →
  subscriptions (notify_failed n msg df entry) !! c
    = Some (push_event s (NodeFailed entry.2 msg n)).
Proof.
  intros Hc Hch Hs Hrx Hcap. unfold notify_failed, send_to. rewrite Hch, Hs.
  unfold send_with_timestamp, try_send. simpl.
  replace (negb (rx_alive s)) with false by by rewrite Hrx.
  rewrite (proj2 (Z.leb_gt _ _)) by lia. simpl. by rewrite lookup_insert_eq.
Qed.

(** The failure notification is not counted.  It is sent to a connected receiver
    without incrementing its pending counter; when the listener then takes all events in
    flight, the counter wraps around to 2^64 - 1. *)
Theorem node_failed_wraps_counter n msg df entry c s :
  counters_inv df → subscribe_channels df !! entry.1 = Some c → subscriptions df !! c = Some s →
  rx_alive s = true → (0 < capacity s)%Z →
  ∃ s', subscriptions (notify_failed n msg df entry) !! c = Some s' ∧
    counter (Nat.iter (length (in_flight s')) (λ s, (recv_event s).2) s') = u64_max.
Proof.
  intros [Hc Hok] Hch Hs Hrx Hcap. eexists. split; [by eapply notify_failed_uncounted|].
  pose proof (Hok c s Hs) as [_ _ Hcount].
  assert (∀ q s1, in_flight s1 = q → (0 ≤ counter s1 < 2 ^ 64)%Z →
    counter (Nat.iter (length q) (λ s, (recv_event s).2) s1)
    = u64_wrap (counter s1 - Z.of_nat (length q))) as Hdrain.
  { clear. induction q as [|e q IH]; intros s1 Hq Hr; cbn [length].
    { simpl. rewrite Z.sub_0_r. by rewrite u64_wrap_small. }
    rewrite Nat.iter_succ_r. rewrite IH.
    - unfold recv_event. rewrite Hq. simpl. unfold fetch_sub, u64_wrap.
      rewrite Zminus_mod_idemp_l. f_equal. lia.
    - unfold recv_event. by rewrite Hq.
    - unfold recv_event. rewrite Hq. simpl. unfold fetch_sub, u64_wrap. apply Z.mod_pos_bound. lia. }
  pose proof (sub_bounded s (Hok c s Hs)). unfold NODE_EVENT_CHANNEL_CAPACITY in *.
  rewrite (Hdrain (in_flight s ++ [NodeFailed entry.2 msg n])); [|done|].
  - rewrite length_app. simpl. rewrite Hcount by done.
    replace (Z.of_nat (length (in_flight s)) - Z.of_nat (length (in_flight s) + 1))%Z with (-1)%Z by lia.
    done.
  - simpl. rewrite Hcount by done. lia.
Qed.
End handlers.

(** ** The properties at concrete inputs *)

Definition demo_subscribed : RunningDataflow :=
  df_run (λ _, None) (dataflow_new 1 [] false)
    [OpAddMapping ("cam", "image") "plot" "image"; OpSubscribe "plot" 5].

Lemma pending_counters_exact_witness :
  counter (default new_subscription (subscriptions (df_run (λ _, None) (dataflow_new 1 [] false)
    [OpAddMapping ("cam", "image") "plot" "image"; OpSubscribe "plot" 5;
     OpSendOut 0 "cam" "image" (mkMetadata ∅) None false]) !! 5%N)) = 1%Z.
Proof.
  refine (proj1 (pending_counters_exact (λ _, None) 1 [] false
    [OpAddMapping ("cam", "image") "plot" "image"; OpSubscribe "plot" 5;
     OpSendOut 0 "cam" "image" (mkMetadata ∅) None false] 5 _ _ _) _).
  - repeat constructor.
  - vm_compute. reflexivity.
  - vm_compute. reflexivity.
Defined.

Lemma node_failed_wraps_counter_witness :
  ∃ s', subscriptions (notify_failed "cam" "boom" demo_subscribed ("plot", ["image"])) !! 5%N = Some s' ∧
    counter (Nat.iter (length (in_flight s')) (λ s, (recv_event s).2) s') = u64_max.
Proof.
  apply (node_failed_wraps_counter "cam" "boom" demo_subscribed ("plot", ["image"]) 5
           new_subscription).
  - apply df_run_inv; [repeat constructor|by split].
  - vm_compute. reflexivity.
  - vm_compute. reflexivity.
  - reflexivity.
  - vm_compute. reflexivity.
Defined.
