(* ===== verification/Tokens.v ===== *)
(** * Shared-memory drop tokens

    A message in shared memory carries a drop token; the sender may reuse the region when
    the daemon reports the token back.  Proved here about [send_output_to_local_receivers],
    [ReportDrop] and [check_drop_token]: the daemon waits for exactly the nodes it handed
    the message to, through any sequence of events, and then tells the sender once. *)

From Stdlib Require Import ZArith Lia.
From stdpp Require Import base gmap sets list strings.
From S2P Require Import Prelude Message Channel Pending Dataflow Routing Frames Counters.

(** The entry of a token whose receivers [R] have not reported yet. *)
Definition token_entry (token_owner : NodeId) (R : gset NodeId) : option DropTokenInformation :=
  if decide (R = ∅) then None else Some (mkTokenInfo token_owner R).

(** The token an event carries to a node. *)
Definition event_token (e : NodeEvent) : option DropToken :=
  match e with Input _ _ data => data ≫= drop_token | _ => None end.

(** The channel of node [m] holds a message with token [t]. *)
Definition handed (channels : gmap NodeId SubId) (df : RunningDataflow)
    (t : DropToken) (m : NodeId) : Prop :=
  ∃ c l, channels !! m = Some c ∧ flight df c = Some l ∧ Exists (λ e, event_token e = Some t) l.

Definition channels_injective (channels : gmap NodeId SubId) : Prop :=
  ∀ m m' c, channels !! m = Some c → channels !! m' = Some c → m = m'.

(** Nodes that report a token in a run, and operations that send a message with it. *)
Fixpoint reporters (t : DropToken) (ops : list df_op) : gset NodeId :=
  match ops with
  | [] => ∅
  | OpReportDrop n tokens :: ops =>
      if decide (t ∈ tokens) then {[n]} ∪ reporters t ops else reporters t ops
  | _ :: ops => reporters t ops
  end.
Definition sends_token (t : DropToken) (o : df_op) : bool :=
  match o with
  | OpSendOut _ _ _ _ data _ => bool_decide (data ≫= drop_token = Some t)
  | _ => false
  end.

(** What the daemon waits for. *)
Definition waiting_for (df : RunningDataflow) (t : DropToken) : gset NodeId :=
  default ∅ (pending_receivers <$> pending_drop_tokens df !! t).

Section tokens.
Context `{HashOrder}.
Implicit Types df : RunningDataflow.

(** ** Reports *)

Lemma check_drop_token_lookup df t :
  pending_drop_tokens (check_drop_token df t)
  = match pending_drop_tokens df !! t with
    | Some info => if bool_decide (pending_receivers info = ∅)
                   then delete t (pending_drop_tokens df) else pending_drop_tokens df
    | None => pending_drop_tokens df
    end.
Proof.
  unfold check_drop_token. destruct (pending_drop_tokens df !! t) as [info|]; [|done].
  case_bool_decide; [|done]. by repeat case_match.
Qed.

Lemma report_drop_token_other df n t t' :
  t ≠ t' → pending_drop_tokens (report_drop_token df n t') !! t = pending_drop_tokens df !! t.
Proof.
  intros Hne. unfold report_drop_token. destruct (pending_drop_tokens df !! t') as [info|] eqn:Ht; [|done].
  case_bool_decide; [|done]. rewrite check_drop_token_lookup. simpl. rewrite lookup_insert_eq. simpl.
  case_bool_decide; by rewrite ?lookup_delete_ne, lookup_insert_ne by done.
Qed.

Lemma report_drop_token_same df n t o R :
  pending_drop_tokens df !! t = token_entry o R →
  pending_drop_tokens (report_drop_token df n t) !! t = token_entry o (R ∖ {[n]}).
Proof.
  unfold report_drop_token, token_entry. intros Ht. case_decide as HR; rewrite Ht.
  - rewrite decide_True by set_solver. done.
  - simpl. case_bool_decide as Hn.
    + rewrite check_drop_token_lookup. simpl. rewrite lookup_insert_eq. simpl.
      case_bool_decide; case_decide; try done; [apply lookup_delete_eq|apply lookup_insert_eq].
    + rewrite Ht. replace (R ∖ {[n]}) with R by set_solver. by rewrite decide_False.
Qed.

Lemma report_drop_lookup df n tokens t o R :
  pending_drop_tokens df !! t = token_entry o R →
  pending_drop_tokens (report_drop df n tokens) !! t
  = token_entry o (if decide (t ∈ tokens) then R ∖ {[n]} else R).
Proof.
  unfold report_drop. revert df R. induction tokens as [|t' tokens IH]; intros df R HR.
  - rewrite decide_False by set_solver. done.
  - cbn [foldl]. destruct (decide (t' = t)) as [->|Hne].
    + erewrite IH; [|by apply report_drop_token_same].
      rewrite (decide_True (P := t ∈ t :: tokens)) by set_solver.
      case_decide; f_equal; set_solver.
    + erewrite IH; [|rewrite report_drop_token_other by done; exact HR].
      f_equal. by case_decide; case_decide; set_solver.
Qed.

(** ** Sending *)

Lemma register_token_waiting df t o R :
  waiting_for (register_token df t o R) t = R ∪ waiting_for df t.
Proof.
  unfold waiting_for, register_token. simpl. rewrite lookup_insert_eq. simpl.
  by destruct (_ !! t).
Qed.

Lemma register_token_other df t t' o R :
  t ≠ t' → pending_drop_tokens (register_token df t' o R) !! t = pending_drop_tokens df !! t.
Proof. intros. unfold register_token. simpl. by rewrite lookup_insert_ne. Qed.

(** One receiver: nothing changes, or its channel gets the message and the token is
    registered for it. *)
Lemma deliver_output_tokens now n md data acc r i :
  let acc' := deliver_output now n md data acc (r, i) in
  pending_drop_tokens (dl_df acc')
  = pending_drop_tokens (dl_df acc) ∨
  ∃ t, data ≫= drop_token = Some t ∧
    pending_drop_tokens (dl_df acc')
    = pending_drop_tokens (register_token (dl_df acc) t n {[r]}).
Proof.
  simpl. unfold deliver_output. destruct (subscribe_channels _ !! r) as [c|]; [|by left].
  destruct (subscriptions _ !! c) as [s|]; [|by left].
  case_match; [by left|]. destruct (try_send s _) as [[] s']; [|by left..].
  match goal with |- context [recover_input now ?d ?st r i c] =>
    pose proof (recover_input_frame pending_drop_tokens now d st r i c) as Hrec;
    destruct (recover_input now d st r i c) as [df2 st2] end.
  cbn [fst] in Hrec. rewrite (insensitive (F := pending_drop_tokens)) in Hrec.
  rewrite (inc_pending_frame pending_drop_tokens) in Hrec. simpl in Hrec. cbn [dl_df].
  destruct (data ≫= drop_token) as [t|]; [right|by left].
  exists t. split; [done|]. unfold register_token. simpl. by rewrite Hrec.
Qed.

Lemma deliver_outputs_other now n md data acc receivers t :
  data ≫= drop_token ≠ Some t →
  pending_drop_tokens (dl_df (foldl (deliver_output now n md data) acc receivers)) !! t
  = pending_drop_tokens (dl_df acc) !! t.
Proof.
  intros Hd. apply (foldl_frame (λ acc, pending_drop_tokens (dl_df acc) !! t)). intros acc' [r i].
  destruct (deliver_output_tokens now n md data acc' r i) as [->|(t' & Ht' & ->)]; [done|].
  apply register_token_other. congruence.
Qed.

Lemma output_bytes_token shm data need bytes tok :
  output_bytes shm data need = Ok (bytes, tok) → tok = data ≫= drop_token.
Proof.
  unfold output_bytes. destruct need; [|naive_solver].
  destruct data as [[]|]; simpl; [naive_solver| |naive_solver]. repeat case_match; naive_solver.
Qed.

Lemma send_output_other shm now df stats n o md data need t :
  data ≫= drop_token ≠ Some t →
  pending_drop_tokens
    (send_output_to_local_receivers shm now df stats n o md data need).1.2 !! t
  = pending_drop_tokens df !! t.
Proof.
  intros Hd. unfold send_output_to_local_receivers.
  set (acc := foldl _ _ _).
  assert (pending_drop_tokens (remove_channels (dl_df acc) (dl_closed acc)) !! t
          = pending_drop_tokens df !! t) as Hacc.
  { rewrite (remove_channels_frame pending_drop_tokens). by apply deliver_outputs_other. }
  destruct (output_bytes shm data need) as [[bytes [tok|]]| |] eqn:Hb; [|exact Hacc..].
  apply output_bytes_token in Hb. cbn [fst snd].
  rewrite check_drop_token_lookup, <- Hacc.
  assert (t ≠ tok) by congruence.
  destruct (_ !! tok); [|by rewrite register_token_other].
  case_bool_decide; rewrite ?lookup_delete_ne by done; by rewrite register_token_other.
Qed.

(** *** The receivers of a message *)

Definition handed_inv (channels : gmap NodeId SubId) (n : NodeId) (t : DropToken)
    (df : RunningDataflow) : Prop :=
  subscribe_channels df = channels ∧
  pending_drop_tokens df !! t = token_entry n (waiting_for df t) ∧
  ∀ m, m ∈ waiting_for df t ↔ handed channels df t m.

(** In-flight lists that are extended by events without the token. *)
Lemma recover_input_flight now df stats r i c c' :
  ∃ l', flight (recover_input now df stats r i c).1 c' = (λ l, l ++ l') <$> flight df c' ∧
        Forall (λ e, event_token e = None) l'.
Proof.
  unfold recover_input. destruct (_ !! (r, i)).
  - cbn [fst]. rewrite flight_send_and_count.
    change (flight (upd_input_deadlines ?f ?x) ?y) with (flight x y).
    change (flight (insert_open_input ?x ?u ?v) ?y) with (flight x y).
    change (flight (upd_broken_inputs ?f ?x) ?y) with (flight x y).
    case_decide; [subst|].
    + eexists. split; [done|]. case_bool_decide; by repeat constructor.
    + exists []. split; [|constructor]. destruct (flight df c'); simpl; by rewrite ?app_nil_r.
  - exists []. split; [|constructor]. simpl. destruct (flight df c'); simpl; by rewrite ?app_nil_r.
Qed.

Lemma handed_frame channels df df' t m :
  (∀ c, channels !! m = Some c →
     ∃ l', flight df' c = (λ l, l ++ l') <$> flight df c ∧ Forall (λ e, event_token e = None) l') →
  handed channels df' t m ↔ handed channels df t m.
Proof.
  intros Hf. split; intros (c & l & Hc & Hl & He); destruct (Hf c Hc) as (l' & Hl' & Hnone).
  - rewrite Hl' in Hl. destruct (flight df c) as [l0|] eqn:H0; [|done]. simpl in Hl. simplify_eq.
    apply Exists_app in He as [He|He]; [by exists c, l0|].
    exfalso. apply Exists_exists in He as (e & Hin & He).
    rewrite Forall_forall in Hnone. specialize (Hnone e Hin). congruence.
  - exists c, (l ++ l'). rewrite Hl', Hl. split_and!; [done..|]. apply Exists_app. by left.
Qed.

(** The daemon accepts a message for a receiver. *)
Lemma deliver_output_cases now n md data acc r i :
  let acc' := deliver_output now n md data acc (r, i) in
  dl_df acc' = dl_df acc ∨
  ∃ c l, subscribe_channels (dl_df acc) !! r = Some c ∧ flight (dl_df acc) c = Some l ∧
    subscribe_channels (dl_df acc') = subscribe_channels (dl_df acc) ∧
    pending_drop_tokens (dl_df acc')
    = match data ≫= drop_token with
      | Some t => pending_drop_tokens (register_token (dl_df acc) t n {[r]})
      | None => pending_drop_tokens (dl_df acc)
      end ∧
    ∀ c', ∃ l', flight (dl_df acc') c'
      = (if decide (c' = c) then Some (l ++ [Input i md data] ++ l')
         else (λ x, x ++ l') <$> flight (dl_df acc) c') ∧
      Forall (λ e, event_token e = None) l'.
Proof.
  simpl. unfold deliver_output. destruct (subscribe_channels _ !! r) as [c|] eqn:Hc; [|by left].
  destruct (subscriptions _ !! c) as [s|] eqn:Hs; [|by left].
  case_match; [by left|]. unfold try_send. destruct (negb (rx_alive s)); [by left|].
  destruct (capacity s <=? 0)%Z; [by left|]. right. exists c, (in_flight s).
  match goal with |- context [recover_input now ?d ?st r i c] =>
    pose proof (recover_input_frame pending_drop_tokens now d st r i c) as Htok;
    pose proof (recover_input_frame subscribe_channels now d st r i c) as Hch;
    pose proof (recover_input_flight now d st r i c) as Hfl;
    destruct (recover_input now d st r i c) as [df2 st2] end.
  cbn [fst dl_df] in *. rewrite (insensitive (F := pending_drop_tokens)) in Htok.
  rewrite (inc_pending_frame pending_drop_tokens) in Htok.
  rewrite (insensitive (F := subscribe_channels)), (inc_pending_frame subscribe_channels) in Hch.
  simpl in Htok, Hch.
  split_and!; [done|unfold flight; by rewrite Hs| | |].
  - by destruct (data ≫= drop_token).
  - destruct (data ≫= drop_token); simpl; [|done]. by rewrite Htok.
  - intros c'. destruct (Hfl c') as (l' & Hl' & Hnone). exists l'. split; [|done].
    transitivity (flight df2 c'); [by destruct (data ≫= drop_token)|]. rewrite Hl'.
    change (flight (upd_input_deadlines ?f ?x) ?y) with (flight x y).
    rewrite flight_inc_pending. unfold flight. simpl. case_decide.
    + subst. rewrite lookup_insert_eq. simpl. by rewrite <- app_assoc.
    + by rewrite lookup_insert_ne.
Qed.

Lemma deliver_output_handed channels now n md data t acc r i :
  channels_injective channels → data ≫= drop_token = Some t →
  handed_inv channels n t (dl_df acc) →
  handed_inv channels n t (dl_df (deliver_output now n md data acc (r, i))).
Proof.
  intros Hinj Hd (Hch & Hent & Hw).
  destruct (deliver_output_cases now n md data acc r i) as [->|(c & l & Hc & Hl & Hch' & Htok & Hfl)];
    [done|].
  set (df' := dl_df (deliver_output now n md data acc (r, i))) in *. clearbody df'. rewrite Hd in Htok.
  assert (waiting_for df' t = {[r]} ∪ waiting_for (dl_df acc) t) as Hw'.
  { rewrite <- (register_token_waiting _ _ n). unfold waiting_for. by rewrite Htok. }
  split_and!; [congruence| |].
  - rewrite Hw', Htok. unfold register_token. simpl. rewrite lookup_insert_eq. rewrite Hent.
    unfold token_entry. rewrite (decide_False (P := {[r]} ∪ _ = ∅)) by set_solver.
    case_decide as Hz; simpl; [|done]. by rewrite Hz.
  - intros m. rewrite Hw'. destruct (decide (m = r)) as [->|Hne].
    + split; [intros _|set_solver]. destruct (Hfl c) as (l' & Hl' & _).
      rewrite decide_True in Hl' by done. exists c, (l ++ [Input i md data] ++ l').
      split_and!; [by rewrite <- Hch|done|]. apply Exists_app. right. by left.
    + rewrite (handed_frame channels (dl_df acc) df').
      * rewrite <- Hw. set_solver.
      * intros c' Hc'. destruct (Hfl c') as (l' & Hl' & Hnone). exists l'. split; [|done].
        rewrite decide_False in Hl'; [done|]. intros ->. rewrite Hch in Hc. by apply Hne, (Hinj _ _ c).
Qed.

Lemma deliver_outputs_handed channels now n md data t acc receivers :
  channels_injective channels → data ≫= drop_token = Some t →
  handed_inv channels n t (dl_df acc) →
  handed_inv channels n t (dl_df (foldl (deliver_output now n md data) acc receivers)).
Proof.
  intros Hinj Hd. revert acc. induction receivers as [|[r i] receivers IH]; intros acc Hi; simpl; [done|].
  apply IH. by apply deliver_output_handed.
Qed.

Lemma check_registered_entry df t n :
  pending_drop_tokens df !! t = token_entry n (waiting_for df t) →
  pending_drop_tokens (check_drop_token (register_token df t n ∅) t) !! t
  = token_entry n (waiting_for df t).
Proof.
  intros Hent. rewrite check_drop_token_lookup. unfold register_token. simpl. rewrite lookup_insert_eq.
  unfold token_entry in *. case_decide as Hz; rewrite Hent; simpl.
  - rewrite bool_decide_true by set_solver. by rewrite lookup_delete_eq.
  - rewrite bool_decide_false by set_solver. rewrite lookup_insert_eq. do 2 f_equal. set_solver.
Qed.

Lemma check_drop_token_flight df t c : flight (check_drop_token df t) c = flight df c.
Proof. unfold check_drop_token. by repeat case_match. Qed.

(** C5. The daemon waits for exactly the nodes it handed the message to.  When a node sends
    a message with a fresh drop token, then afterwards the token is registered for it, and
    the receivers waited for are precisely the nodes whose channel holds the message; if
    there is none, the token is not kept. *)
Theorem send_token_safe shm now df stats n o md data need t :
  channels_injective (subscribe_channels df) →
  data ≫= drop_token = Some t → pending_drop_tokens df !! t = None →
  (∀ m, ¬ handed (subscribe_channels df) df t m) →
  let df' := (send_output_to_local_receivers shm now df stats n o md data need).1.2 in
  ∃ R, pending_drop_tokens df' !! t = token_entry n R ∧
       ∀ m, m ∈ R ↔ handed (subscribe_channels df) df' t m.
Proof.
  intros Hinj Hd Hfresh Hno. cbv zeta. unfold send_output_to_local_receivers.
  set (acc0 := mkDelivery df stats []).
  assert (handed_inv (subscribe_channels df) n t (dl_df acc0)) as Hi.
  { split_and!; [done| |]; simpl; unfold waiting_for; rewrite Hfresh; simpl; [done|].
    intros m. specialize (Hno m). set_solver. }
  apply (deliver_outputs_handed _ now n md data t acc0
    (btree_elems (default ∅ (mappings df !! (n, o)))) Hinj Hd) in Hi.
  set (acc := foldl _ _ _) in *. clearbody acc. destruct Hi as (Hch & Hent & Hw).
  set (df1 := remove_channels (dl_df acc) (dl_closed acc)).
  assert (pending_drop_tokens df1 = pending_drop_tokens (dl_df acc)) as Htok
    by apply (remove_channels_frame pending_drop_tokens).
  assert (∀ c, flight df1 c = flight (dl_df acc) c) as Hfl.
  { intros c. unfold df1, flight. by rewrite (remove_channels_frame subscriptions). }
  assert (waiting_for df1 t = waiting_for (dl_df acc) t) as Hwf by (unfold waiting_for; by rewrite Htok).
  assert (∀ df', (∀ c, flight df' c = flight df1 c) →
            ∀ m, m ∈ waiting_for df1 t ↔ handed (subscribe_channels df) df' t m) as Hhand.
  { intros df' Hf m. rewrite Hwf, Hw. unfold handed. by setoid_rewrite Hf; setoid_rewrite Hfl. }
  rewrite <- Htok, <- Hwf in Hent. exists (waiting_for df1 t).
  destruct (output_bytes shm data need) as [[bytes tok]| |] eqn:Hb; cbn [fst snd]; [|by split; auto..].
  apply output_bytes_token in Hb. rewrite Hd in Hb. subst tok.
  split; [by apply check_registered_entry|]. apply Hhand. intros c.
  by rewrite check_drop_token_flight.
Qed.

(** The last report is passed on to the sender.  When the only node a token waits for
    reports it, the daemon forgets the token and the drop channel of its owner gets exactly
    one notification; a report that is not the last one sends none. *)
Theorem report_drop_notifies df n t o R c ds :
  pending_drop_tokens df !! t = Some (mkTokenInfo o R) → n ∈ R →
  drop_channels df !! o = Some c → drop_subscriptions df !! c = Some ds → drop_rx_alive ds = true →
  drop_subscriptions (report_drop df n [t]) !! c
  = Some (if decide (R = {[n]})
          then {| ds with drop_events := drop_events ds ++ [OutputDropped t] |} else ds).
Proof.
  intros Ht Hn Ho Hc Hrx. unfold report_drop. cbn [foldl]. unfold report_drop_token. rewrite Ht. simpl.
  rewrite bool_decide_true by done. unfold check_drop_token. simpl. rewrite lookup_insert_eq. simpl.
  destruct (decide (R = {[n]})) as [->|Hne].
  - rewrite bool_decide_true by set_solver. simpl. rewrite Ho, Hc. simpl.
    rewrite lookup_insert_eq. unfold send_drop_with_timestamp. by rewrite Hrx.
  - rewrite bool_decide_false; [done|]. intros Hz. apply Hne. apply set_eq. intros m.
    destruct (decide (m = n)); set_solver.
Qed.

(** ** Runs *)

Lemma add_node_tokens df n inputs dyn node df' :
  add_node df n inputs dyn node = Ok df' → pending_drop_tokens df' = pending_drop_tokens df.
Proof.
  unfold add_node. intros Ha. res_inv Ha. injection Ha as <-.
  assert (pending_drop_tokens x = pending_drop_tokens df) as Hx; [|by destruct dyn].
  clear -H0. revert df H0. generalize (btree_iter inputs). intros l.
  induction l as [|[i input] l IH]; intros df Hr; simpl in Hr; [by simplify_eq|].
  apply res_bind_Ok in Hr as (df1 & Hi & Hr). apply IH in Hr. rewrite Hr. clear -Hi.
  unfold register_input, insert_open_input in Hi. destruct (mapping input); [by simplify_eq..|].
  apply res_bind_Ok in Hi as (df2 & Ht & Hi). injection Hi as <-. simpl.
  destruct (input_timeout input); [|by simplify_eq].
  apply res_bind_Ok in Ht as (d & _ & Ht). by simplify_eq.
Qed.

Lemma remove_node_tokens df n g :
  pending_drop_tokens (remove_node df n g) = pending_drop_tokens df.
Proof.
  unfold remove_node. simpl.
  rewrite (foldl_frame pending_drop_tokens).
  - apply (stop_single_node_frame pending_drop_tokens).
  - intros df' o. unfold remove_output. destruct (_ !! o); [|done].
    by rewrite (close_inputs_frame pending_drop_tokens).
Qed.

Lemma df_step_token shm df op t o R :
  sends_token t op = false → pending_drop_tokens df !! t = token_entry o R →
  pending_drop_tokens (df_step shm df op) !! t = token_entry o (R ∖ reporters t [op]).
Proof.
  intros Hs Ht. destruct op; cbn [df_step reporters];
    try replace (R ∖ ∅) with R by set_solver; try exact Ht;
    try (rewrite <- Ht; f_equal; by (
      apply (check_input_timeouts_frame pending_drop_tokens)
      || apply (close_local_receivers_frame pending_drop_tokens)
      || apply (handle_timer_frame pending_drop_tokens)
      || apply (handle_logs_frame pending_drop_tokens)
      || apply (handle_log_broadcast_frame pending_drop_tokens)
      || apply (deliver_strict_frame pending_drop_tokens)
      || apply (send_reload_frame pending_drop_tokens)
      || apply (catch_up_frame pending_drop_tokens)
      || apply (notify_downstream_restarted_frame pending_drop_tokens)
      || apply (notify_downstream_failed_frame pending_drop_tokens)
      || apply (stop_all_frame pending_drop_tokens)
      || apply (stop_single_node_frame pending_drop_tokens)
      || apply (restart_single_node_frame pending_drop_tokens)
      || apply (remove_mapping_frame pending_drop_tokens)
      || apply remove_node_tokens)).
  - by rewrite (subscribe_frame pending_drop_tokens).
  - rewrite send_output_other; [done|]. simpl in Hs. by case_bool_decide.
  - rewrite (report_drop_lookup _ _ _ _ o R) by done. f_equal. case_decide; set_solver.
  - destruct (add_node _ _ _ _ _) eqn:Ha; [|done..]. by rewrite (add_node_tokens _ _ _ _ _ _ Ha).
Qed.

Lemma reporters_cons t op ops : reporters t (op :: ops) = reporters t [op] ∪ reporters t ops.
Proof. destruct op; simpl; try case_decide; set_solver. Qed.

(** C6. A token is held until everybody has reported it.  Through any sequence of events
    that does not send the token again, the daemon waits for exactly those receivers that
    have not reported it; it forgets the token when there is none left, and never before
    (a receiver that crashes without reporting keeps it pending for good). *)
Theorem token_release shm df ops t o R :
  pending_drop_tokens df !! t = Some (mkTokenInfo o R) → R ≠ ∅ →
  Forall (λ op, sends_token t op = false) ops →
  pending_drop_tokens (df_run shm df ops) !! t = token_entry o (R ∖ reporters t ops).
Proof.
  intros Ht HR Hops.
  assert (pending_drop_tokens df !! t = token_entry o R) as Hentry.
  { unfold token_entry. by rewrite decide_False. }
  clear Ht HR. unfold df_run. revert df R Hentry.
  induction Hops as [|op ops Hop Hops IH]; intros df R Hentry; cbn [foldl].
  - replace (R ∖ reporters t []) with R by set_solver. done.
  - rewrite (IH _ (R ∖ reporters t [op])) by by apply df_step_token.
    rewrite (reporters_cons t op ops). f_equal. set_solver.
Qed.
End tokens.

(** ** Witnesses *)

(** A camera with two receivers, one of them connected. *)
Definition example_df : RunningDataflow :=
  upd_mappings <[("camera", "image") := {[("plot", "image"); ("store", "image")]}]>
  (upd_subscribe_channels <["plot" := 1%N]>
  (upd_subscriptions <[1%N := new_subscription]> (dataflow_new 7 [] false))).
Definition example_data : option DataMessage := Some (DMSharedMemory "region" 4 42).

Lemma example_not_handed m : ¬ handed (subscribe_channels example_df) example_df 42 m.
Proof.
  intros (c & l & Hc & Hl & He). unfold flight in Hl. simpl in Hl.
  apply fmap_Some in Hl as (s & Hs & ->). apply lookup_insert_Some in Hs as [[_ <-]|[_ Hs]]; [|done].
  simpl in He. by apply Exists_nil in He.
Qed.

Lemma send_token_safe_witness :
  ∃ R, pending_drop_tokens
         (send_output_to_local_receivers (λ _, None) 5 example_df (mkStats 0 0 0 0)
            "camera" "image" (mkMetadata ∅) example_data false).1.2 !! 42%N
       = token_entry "camera" R ∧
       ∀ m, m ∈ R ↔ handed (subscribe_channels example_df)
         (send_output_to_local_receivers (λ _, None) 5 example_df (mkStats 0 0 0 0)
            "camera" "image" (mkMetadata ∅) example_data false).1.2 42 m.
Proof.
  apply (send_token_safe (λ _, None) 5 example_df (mkStats 0 0 0 0) "camera" "image"
           (mkMetadata ∅) example_data false 42).
  - intros m m' c. simpl. intros [[<- _]|[_ Hm]]%lookup_insert_Some; [|done].
    by intros [[<- _]|[_ Hm]]%lookup_insert_Some.
  - reflexivity.
  - reflexivity.
  - apply example_not_handed.
Defined.

Definition pending_df : RunningDataflow :=
  upd_pending_drop_tokens <[42%N := mkTokenInfo "camera" {["plot"; "store"]}]>
  (upd_drop_channels <["camera" := 3%N]>
  (upd_drop_subscriptions <[3%N := mkDropSub [] true]> (dataflow_new 7 [] false))).

Lemma token_release_witness :
  pending_drop_tokens
    (df_run (λ _, None) pending_df [OpReportDrop "plot" [42%N]; OpListenerDropped 9]) !! 42%N
  = token_entry "camera" ({["plot"; "store"]} ∖ reporters 42 [OpReportDrop "plot" [42%N]; OpListenerDropped 9]).
Proof.
  apply (token_release (λ _, None) pending_df [OpReportDrop "plot" [42%N]; OpListenerDropped 9]
           42 "camera" {["plot"; "store"]}).
  - reflexivity.
  - set_solver.
  - repeat constructor.
Defined.

Lemma report_drop_notifies_witness :
  drop_subscriptions (report_drop pending_df "plot" [42%N]) !! 3%N
  = Some (if decide (({["plot"; "store"]} : gset NodeId) = {["plot"]})
          then mkDropSub [OutputDropped 42] true else mkDropSub [] true).
Proof.
  apply (report_drop_notifies pending_df "plot" 42 "camera" {["plot"; "store"]} 3 (mkDropSub [] true));
    [reflexivity|set_solver|reflexivity..].
Defined.
