(* ===== verification/Breaker.v ===== *)
(** * Closing, breaking and recovering inputs

    Proved here about [close_input], [break_input], [check_input_timeouts], [subscribe]
    and the delivery path of [binaries/daemon/src/lib.rs]: which inputs the circuit breaker
    opens, what a node is told when its inputs close, and that a message recovers a broken
    input. *)

From Stdlib Require Import ZArith Lia.
From stdpp Require Import base gmap sets list strings.
From S2P Require Import Prelude Message Channel Pending Dataflow Routing Frames Counters.

(** A channel whose receiver exists, with the events in flight. *)
Definition open_channel (df : RunningDataflow) (c : SubId) (l : list NodeEvent) : Prop :=
  ∃ s, subscriptions df !! c = Some s ∧ rx_alive s = true ∧ in_flight s = l.

(** The circuit breaker fires for an input: its deadline has passed since the last
    message, and it is not broken already. *)
Definition breaks (now : Instant) (df : RunningDataflow) (k : NodeId * DataId) : option Duration :=
  match input_deadlines df !! k, broken_inputs df !! k with
  | Some d, None => if is_timed_out now d then Some (timeout d) else None
  | _, _ => None
  end.

(** Some other input of the node is broken. *)
Definition other_broken (df : RunningDataflow) (n : NodeId) (i : DataId) : Prop :=
  ∃ j, j ≠ i ∧ is_Some (broken_inputs df !! (n, j)).

Section breaker.
Context `{HashOrder}.
Implicit Types df : RunningDataflow.

(** ** Sends on an open channel *)

Lemma open_channel_inc df n c l : open_channel df c l → open_channel (inc_pending df n) c l.
Proof.
  intros (s & Hs & Hrx & Hl). unfold inc_pending. destruct (_ !! n) as [c'|]; [|by exists s].
  destruct (decide (c' = c)) as [->|Hne].
  - exists (inc_counter s). simpl. by rewrite lookup_alter_eq, Hs.
  - exists s. simpl. by rewrite lookup_alter_ne.
Qed.

Lemma send_control df n c e l :
  open_channel df c l → is_control e = true → (Z.of_nat (length l) < NODE_EVENT_CHANNEL_CAPACITY)%Z →
  open_channel (send_and_count df n c e).2 c (l ++ [e]).
Proof.
  intros (s & Hs & Hrx & <-) He Hlen. unfold send_and_count, send_to. rewrite Hs.
  unfold send_with_timestamp, try_send. rewrite He. simpl.
  replace (negb (rx_alive s)) with false by by rewrite Hrx.
  assert ((capacity s <=? 0)%Z = false) as -> by (unfold capacity in *; lia). simpl.
  apply open_channel_inc. eexists. simpl. by rewrite lookup_insert_eq.
Qed.

Lemma send_controls df n c es l :
  open_channel df c l → Forall (λ e, is_control e = true) es →
  (Z.of_nat (length l + length es) ≤ NODE_EVENT_CHANNEL_CAPACITY)%Z →
  open_channel (foldl (λ df e, (send_and_count df n c e).2) df es) c (l ++ es).
Proof.
  revert df l. induction es as [|e es IH]; intros df l Ho Hes Hlen; simpl; [by rewrite app_nil_r|].
  apply Forall_cons in Hes as [He Hes]. simpl in Hlen.
  rewrite cons_middle, app_assoc. apply IH; [|done|].
  - apply send_control; [done..|lia].
  - rewrite length_app. simpl. lia.
Qed.

(** ** Timeouts *)

Lemma timed_out_inputs_elem now df k t : (k, t) ∈ timed_out_inputs now df ↔ breaks now df k = Some t.
Proof.
  unfold timed_out_inputs, breaks. rewrite list_elem_of_fmap. split.
  - intros ([k' d] & Heq & Hin). simpl in Heq. simplify_eq.
    apply list_elem_of_filter in Hin as [Hp Hin]. apply elem_of_hash_iter in Hin. simpl in Hp.
    apply andb_true_iff in Hp as [Hb Ht]. rewrite Hin, Ht.
    destruct (broken_inputs df !! k'); [|done]. rewrite bool_decide_true in Hb by done. done.
  - intros Hbr. destruct (input_deadlines df !! k) as [d|] eqn:Hd; [|done].
    destruct (broken_inputs df !! k) eqn:Hb; [done|]. destruct (is_timed_out now d) eqn:Ht; [|done].
    simplify_eq. exists (k, d). split; [done|]. apply list_elem_of_filter. simpl.
    rewrite Hb, Ht. split; [done|]. by apply elem_of_hash_iter.
Qed.

Lemma timed_out_inputs_keys now df k :
  k ∈ (timed_out_inputs now df).*1 ↔ is_Some (breaks now df k).
Proof.
  rewrite list_elem_of_fmap. split.
  - intros ([k' t] & -> & Hin). exists t. by apply timed_out_inputs_elem.
  - intros [t Ht]. exists (k, t). split; [done|]. by apply timed_out_inputs_elem.
Qed.

Lemma break_input_open df n i m :
  open_inputs_of (break_input df n i) m
  = if decide (m = n) then open_inputs_of df n ∖ {[i]} else open_inputs_of df m.
Proof.
  assert (open_inputs (break_input df n i) = open_inputs (remove_open_input df n i).2) as Hframe.
  { unfold break_input. destruct (remove_open_input df n i) as [removed df1]. simpl.
    case_bool_decide; [done|]. destruct (_ !! n) as [c|]; [|done].
    by rewrite (report_all_inputs_closed_frame open_inputs), (send_and_count_frame open_inputs). }
  unfold open_inputs_of. rewrite Hframe. unfold remove_open_input.
  destruct (open_inputs df !! n) as [X|] eqn:Hn; simpl.
  - case_decide; [subst; by rewrite lookup_insert_eq|by rewrite lookup_insert_ne].
  - case_decide; [subst; rewrite Hn; set_solver|done].
Qed.

Lemma fold_breaks df stats l :
  NoDup l.*1 →
  let df' := (foldl break_timed_out (df, stats) l).1 in
  (∀ k t, (k, t) ∈ l → broken_inputs df' !! k = Some t) ∧
  (∀ k, k ∉ l.*1 → broken_inputs df' !! k = broken_inputs df !! k) ∧
  input_deadlines df' = input_deadlines df ∧
  (∀ n i, i ∈ open_inputs_of df' n ↔ i ∈ open_inputs_of df n ∧ (n, i) ∉ l.*1).
Proof.
  revert df stats. induction l as [|[[n i] t] l IH]; intros df stats Hnd; cbn [foldl].
  { split_and!; set_solver. }
  rewrite fmap_cons in Hnd. simpl in Hnd. apply NoDup_cons in Hnd as [Hni Hnd].
  cbn [break_timed_out]. set (df1 := break_input (upd_broken_inputs <[(n, i):=t]> df) n i).
  assert (broken_inputs df1 = <[(n, i):=t]> (broken_inputs df)) as Hb
    by apply (break_input_frame broken_inputs).
  assert (input_deadlines df1 = input_deadlines df) as Hdl
    by (unfold df1; by rewrite (break_input_frame input_deadlines)).
  match goal with |- context [foldl break_timed_out (_, ?st) l] =>
    destruct (IH df1 st Hnd) as (H1 & H2 & H3 & H4) end.
  split_and!.
  - intros k t'. rewrite elem_of_cons. intros [Heq|Hin]; [|by apply H1].
    injection Heq as -> ->. rewrite H2 by done. by rewrite Hb, lookup_insert_eq.
  - intros k Hk. rewrite H2 by set_solver. rewrite Hb. apply lookup_insert_ne. set_solver.
  - by rewrite H3.
  - intros m j. rewrite H4. unfold df1. rewrite break_input_open.
    change (open_inputs_of (upd_broken_inputs ?f df) ?x) with (open_inputs_of df x).
    clear -Hni. case_decide; [subst|]; set_solver.
Qed.

Lemma fold_delete_deadlines (l : list (NodeId * DataId * Duration)) df :
  let df' := foldl (λ df entry, upd_input_deadlines (delete entry.1) df) df l in
  broken_inputs df' = broken_inputs df ∧ open_inputs df' = open_inputs df ∧
  ∀ k, input_deadlines df' !! k = if decide (k ∈ l.*1) then None else input_deadlines df !! k.
Proof.
  simpl. split_and!; [by apply foldl_frame..|]. revert df.
  induction l as [|e l IH]; intros df k; cbn [foldl].
  { by rewrite decide_False by set_solver. }
  rewrite IH. cbn [input_deadlines upd_input_deadlines]. case_decide; [by rewrite decide_True by set_solver|].
  destruct (decide (k = e.1)) as [->|Hne].
  - rewrite lookup_delete_eq. by rewrite decide_True by set_solver.
  - rewrite lookup_delete_ne by done. by rewrite decide_False by set_solver.
Qed.

Lemma NoDup_timed_out now df : NoDup (timed_out_inputs now df).*1.
Proof.
  unfold timed_out_inputs. rewrite <- list_fmap_compose.
  eapply sublist_NoDup; [apply (NoDup_hash_keys (input_deadlines df))|].
  unfold hash_keys. apply fmap_sublist, sublist_filter.
Qed.

(** The circuit breaker opens exactly the inputs whose deadline has passed.  After the
    periodic check an input is broken if it was before or if a message on it is overdue;
    the overdue inputs are no longer open and their deadlines are disarmed; every other
    input keeps its state. *)
Theorem check_input_timeouts_spec now df stats n i :
  let df' := (check_input_timeouts now df stats).1 in
  broken_inputs df' !! (n, i)
  = match breaks now df (n, i) with Some t => Some t | None => broken_inputs df !! (n, i) end ∧
  input_deadlines df' !! (n, i)
  = match breaks now df (n, i) with Some _ => None | None => input_deadlines df !! (n, i) end ∧
  (i ∈ open_inputs_of df' n ↔ i ∈ open_inputs_of df n ∧ breaks now df (n, i) = None).
Proof.
  cbv zeta. unfold check_input_timeouts.
  pose proof (fold_breaks df stats _ (NoDup_timed_out now df)) as (H1 & H2 & H3 & H4).
  destruct (foldl break_timed_out _ _) as [df1 st1]. cbn [fst] in *.
  destruct (fold_delete_deadlines (timed_out_inputs now df) df1) as (Hb & Ho & Hd).
  rewrite Hb, Hd, H3. unfold open_inputs_of in *. rewrite Ho, H4.
  pose proof (timed_out_inputs_keys now df (n, i)) as Hk.
  destruct (breaks now df (n, i)) as [t|] eqn:Hbr.
  - rewrite (H1 _ t) by by apply timed_out_inputs_elem.
    rewrite decide_True by (apply Hk; eauto). split_and!; [done..|].
    split; [|naive_solver]. intros [_ []]. apply Hk. eauto.
  - assert ((n, i) ∉ (timed_out_inputs now df).*1) as Hni by (rewrite Hk; by intros []).
    rewrite H2 by done. rewrite decide_False by done. naive_solver.
Qed.

(** ** Closing *)

Lemma has_broken_input_true df n :
  has_broken_input df n = true ↔ ∃ i, is_Some (broken_inputs df !! (n, i)).
Proof.
  unfold has_broken_input. rewrite existsb_exists. split.
  - intros ([[m i] d] & Hin & Heq). apply bool_decide_eq_true in Heq as ->.
    exists i. apply list_elem_of_In, elem_of_hash_iter in Hin. eauto.
  - intros (i & d & Hd). exists ((n, i), d). split; [|by apply bool_decide_eq_true].
    by apply list_elem_of_In, elem_of_hash_iter.
Qed.

(** Closing the input leaves the node with no open and no broken input. *)
Definition closes_all (df : RunningDataflow) (n : NodeId) (i : DataId) : Prop :=
  (i ∈ open_inputs_of df n ∨ is_Some (broken_inputs df !! (n, i))) ∧
  open_inputs_of df n ⊆ {[i]} ∧ ¬ other_broken df n i.

Lemma has_broken_after_delete df n i :
  has_broken_input (upd_broken_inputs (delete (n, i)) df) n = true ↔ other_broken df n i.
Proof.
  rewrite has_broken_input_true. unfold other_broken. simpl. split.
  - intros (j & Hj). destruct (decide (j = i)) as [->|Hne]; [|rewrite lookup_delete_ne in Hj by congruence; eauto].
    rewrite lookup_delete_eq in Hj. by destruct Hj.
  - intros (j & Hne & Hj). exists j. by rewrite lookup_delete_ne by congruence.
Qed.

Lemma remove_open_input_spec df n i :
  default false (remove_open_input df n i).1 = bool_decide (i ∈ open_inputs_of df n) ∧
  open_inputs_of (remove_open_input df n i).2 n = open_inputs_of df n ∖ {[i]}.
Proof.
  unfold remove_open_input, open_inputs_of. destruct (open_inputs df !! n) as [X|] eqn:Hn; simpl.
  - by rewrite lookup_insert_eq.
  - rewrite Hn. simpl. rewrite bool_decide_false by set_solver. split; [done|set_solver].
Qed.

Lemma report_all_spec df n c l :
  open_channel df c l → (Z.of_nat (length l) < NODE_EVENT_CHANNEL_CAPACITY)%Z →
  let df' := report_all_inputs_closed df n c in
  if bool_decide (open_inputs_of df n = ∅) && negb (has_broken_input df n)
  then open_channel df' c (l ++ [AllInputsClosed]) ∧
       running_nodes df' !! n = set_disable_restart true <$> running_nodes df !! n
  else open_channel df' c l ∧ running_nodes df' = running_nodes df.
Proof.
  intros Ho Hl. simpl. unfold report_all_inputs_closed. destruct (_ && _); [|done]. split.
  - by apply send_control.
  - rewrite (send_and_count_frame running_nodes). simpl. apply lookup_alter_eq.
Qed.

Lemma close_input_all df n i c l :
  subscribe_channels df !! n = Some c → open_channel df c l →
  (Z.of_nat (length l + 2) ≤ NODE_EVENT_CHANNEL_CAPACITY)%Z →
  let df' := close_input df n i in
  let closed := if decide (i ∈ open_inputs_of df n) then [InputClosed i] else [] in
  if bool_decide (i ∈ open_inputs_of df n) || bool_decide (is_Some (broken_inputs df !! (n, i)))
  then if bool_decide (open_inputs_of df n ∖ {[i]} = ∅)
          && negb (has_broken_input (upd_broken_inputs (delete (n, i)) df) n)
       then open_channel df' c (l ++ closed ++ [AllInputsClosed]) ∧
            running_nodes df' !! n = set_disable_restart true <$> running_nodes df !! n
       else open_channel df' c (l ++ closed) ∧ running_nodes df' = running_nodes df
  else open_channel df' c (l ++ closed) ∧ running_nodes df' = running_nodes df.
Proof.
  intros Hc Ho Hl. cbv zeta. unfold close_input.
  set (df0 := upd_broken_inputs _ df).
  destruct (remove_open_input_spec df0 n i) as [Hwas Hopen].
  assert (∀ A (F : RunningDataflow → A) `{!Insensitive F upd_open_inputs},
    F (remove_open_input df0 n i).2 = F df0) as Hframe
    by (intros; apply (remove_open_input_frame F)).
  destruct (remove_open_input df0 n i) as [removed df1]. cbn [fst snd] in *.
  change (open_inputs_of df0 n) with (open_inputs_of df n) in *. rewrite Hwas.
  assert (open_channel df1 c l) as Ho1.
  { unfold open_channel in *. by rewrite (Hframe _ subscriptions _). }
  assert (has_broken_input df1 n = has_broken_input df0 n) as Hbr.
  { unfold has_broken_input. by rewrite (Hframe _ broken_inputs _). }
  pose proof (Hframe _ running_nodes _) as Hrun. cbv beta in Hrun.
  rewrite (Hframe _ subscribe_channels _). change (subscribe_channels df0) with (subscribe_channels df).
  rewrite Hc. clear Hframe Hwas removed.
  destruct (bool_decide (i ∈ open_inputs_of df n)) eqn:Hw.
  - cbn [negb andb orb]. apply bool_decide_eq_true in Hw. rewrite (decide_True (P := i ∈ _)) by done.
    pose proof (report_all_spec (send_and_count df1 n c (InputClosed i)).2 n c (l ++ [InputClosed i])) as Hr.
    unfold has_broken_input, open_inputs_of in *.
    rewrite (send_and_count_frame open_inputs), (send_and_count_frame broken_inputs),
      (send_and_count_frame running_nodes), Hopen, Hbr, Hrun in Hr.
    assert (open_channel (send_and_count df1 n c (InputClosed i)).2 c (l ++ [InputClosed i])) as Hs
      by (apply send_control; [done..|lia]).
    specialize (Hr Hs ltac:(rewrite length_app; simpl; lia)). cbv zeta in Hr.
    destruct (_ && _); by rewrite ?app_assoc.
  - apply bool_decide_eq_false in Hw. rewrite (decide_False (P := i ∈ _)) by done.
    cbn [negb andb orb app]. rewrite app_nil_r. destruct (bool_decide (is_Some _)); cbn [negb]; [|done].
    pose proof (report_all_spec df1 n c l Ho1 ltac:(lia)) as Hr. cbv zeta in Hr.
    rewrite Hopen, Hbr, Hrun in Hr. by destruct (_ && _).
Qed.

(** What a connected node is told when an input closes.  It gets [InputClosed] if the
    input was open, and [AllInputsClosed] with it exactly when the input was open or broken
    and no open and no broken input is left; only then is the node barred from restarting. *)
Theorem close_input_events df n i c l :
  subscribe_channels df !! n = Some c → open_channel df c l →
  (Z.of_nat (length l + 2) ≤ NODE_EVENT_CHANNEL_CAPACITY)%Z →
  let df' := close_input df n i in
  let closed := if decide (i ∈ open_inputs_of df n) then [InputClosed i] else [] in
  (closes_all df n i → open_channel df' c (l ++ closed ++ [AllInputsClosed]) ∧
     running_nodes df' !! n = set_disable_restart true <$> running_nodes df !! n) ∧
  (¬ closes_all df n i → open_channel df' c (l ++ closed) ∧ running_nodes df' = running_nodes df).
Proof.
  intros Hc Ho Hl. pose proof (close_input_all df n i c l Hc Ho Hl) as Hspec. cbv zeta in *.
  pose proof (has_broken_after_delete df n i) as Hbr.
  unfold closes_all. split.
  - intros ([Hw|Hw] & Hsub & Hno);
      rewrite (bool_decide_true _ Hw), ?orb_true_r in Hspec; cbn [orb] in Hspec;
      rewrite (bool_decide_true (_ ∖ _ = ∅)) in Hspec by set_solver;
      destruct (has_broken_input (upd_broken_inputs _ df) n); naive_solver.
  - intros Hnot. destruct (_ || _) eqn:Hw; [|done].
    destruct (_ && _) eqn:Hall; [|done]. exfalso. apply Hnot.
    apply orb_true_iff in Hw. rewrite !bool_decide_eq_true in Hw.
    apply andb_true_iff in Hall as [He Hb]. apply bool_decide_eq_true in He.
    refine (conj Hw (conj _ _)).
    + intros j Hj. destruct (decide (j = i)); set_solver.
    + rewrite <- Hbr. by destruct (has_broken_input _ _).
Qed.

(** ** Recovery *)

(** A message recovers a broken input.  When an output is delivered to an input whose
    circuit breaker had fired, the node gets the message and then [InputRecovered]; the
    input is open again, its deadline is armed with the same timeout from now on, and it
    is no longer counted as broken. *)
Theorem delivery_recovers_input now src md data acc n i c l t :
  subscribe_channels (dl_df acc) !! n = Some c → open_channel (dl_df acc) c l →
  (Z.of_nat (length l) ≤ NODE_EVENT_CHANNEL_CAPACITY - CONTROL_EVENT_HEADROOM)%Z →
  broken_inputs (dl_df acc) !! (n, i) = Some t →
  let df' := dl_df (deliver_output now src md data acc (n, i)) in
  open_channel df' c (l ++ [Input i md data; InputRecovered i]) ∧
  i ∈ open_inputs_of df' n ∧
  input_deadlines df' !! (n, i) = Some (mkDeadline t (Some now)) ∧
  broken_inputs df' = delete (n, i) (broken_inputs (dl_df acc)).
Proof.
  intros Hc (s & Hs & Hrx & <-) Hl Hb. cbv zeta. unfold deliver_output. rewrite Hc, Hs.
  assert ((capacity s <? CONTROL_EVENT_HEADROOM)%Z = false) as -> by (unfold capacity; lia).
  unfold try_send. replace (negb (rx_alive s)) with false by by rewrite Hrx.
  assert ((capacity s <=? 0)%Z = false) as -> by (unfold capacity, CONTROL_EVENT_HEADROOM in *; lia).
  set (s' := {| s with in_flight := in_flight s ++ [Input i md data] |}).
  match goal with |- context [recover_input now ?x _ n i c] => set (df1 := x) end.
  assert (open_channel df1 c (in_flight s ++ [Input i md data])) as Ho1.
  { apply open_channel_inc. exists s'. simpl. by rewrite lookup_insert_eq. }
  assert (broken_inputs df1 = broken_inputs (dl_df acc)) as Hb1.
  { unfold df1. rewrite (insensitive (F := broken_inputs)). by rewrite (inc_pending_frame broken_inputs). }
  unfold recover_input. rewrite Hb1, Hb. cbn [fst dl_df].
  match goal with |- context [send_and_count ?x n c _] => set (df2 := x) end.
  assert (open_channel (send_and_count df2 n c (InputRecovered i)).2 c
            (in_flight s ++ [Input i md data; InputRecovered i])) as Ho2.
  { change ([?a; ?b]) with ([a] ++ [b]). rewrite app_assoc.
    apply send_control; [done..|]. rewrite length_app. simpl.
    unfold NODE_EVENT_CHANNEL_CAPACITY, CONTROL_EVENT_HEADROOM in *. lia. }
  assert (∀ A (F : RunningDataflow → A) `{!Insensitive F upd_pending_drop_tokens}
            `{!Insensitive F upd_subscriptions},
    F (match data ≫= drop_token with
       | Some token => register_token (send_and_count df2 n c (InputRecovered i)).2 token src {[n]}
       | None => (send_and_count df2 n c (InputRecovered i)).2
       end) = F df2) as Hframe.
  { intros A F ??. destruct (data ≫= drop_token); unfold register_token; rewrite ?insensitive;
      apply (send_and_count_frame F). }
  split_and!.
  - by destruct (data ≫= drop_token).
  - unfold open_inputs_of. rewrite (Hframe _ open_inputs _ _). simpl. rewrite lookup_insert_eq. set_solver.
  - rewrite (Hframe _ input_deadlines _ _). simpl. by rewrite lookup_insert_eq.
  - rewrite (Hframe _ broken_inputs _ _). simpl. by rewrite <- Hb1.
Qed.

(** ** Subscription *)

Lemma foldl_fmap {X Y Z} (f : X → Y → X) (g : Z → Y) l x :
  foldl (λ x z, f x (g z)) x l = foldl f x (g <$> l).
Proof. revert x. induction l as [|z l IH]; intros x; simpl; [done|]. apply IH. Qed.

(** What a subscribing node is told at once. *)
Definition subscribe_events (df : RunningDataflow) (n : NodeId) : list NodeEvent :=
  (InputClosed <$> closed_inputs_of df n)
  ++ (if decide (open_inputs_of df n = ∅)
      then match list_find (λ d, desc_id d = n) (descriptor df) with
           | Some (_, d) => if decide (desc_inputs d = ∅) then [] else [AllInputsClosed]
           | None => []
           end
      else [])
  ++ (if stop_sent df then [Stop] else []).

(** A subscribing node learns the state it missed.  On its fresh channel it finds
    [InputClosed] for exactly the mapped inputs that are not open, [AllInputsClosed] if
    none is open and it is not a source, and [Stop] if the dataflow is being stopped, in
    this order, and the channel becomes the node's channel.  Broken inputs count as closed
    here, although a message could still recover them. *)
Theorem subscribe_reports df n c :
  subscriptions df !! c = Some new_subscription →
  (Z.of_nat (length (subscribe_events df n)) ≤ NODE_EVENT_CHANNEL_CAPACITY)%Z →
  open_channel (subscribe df n c) c (subscribe_events df n) ∧
  subscribe_channels (subscribe df n c) = <[n := c]> (subscribe_channels df).
Proof.
  intros Hc Hlen. unfold subscribe_events in *. rewrite !length_app, length_fmap in Hlen.
  unfold subscribe. rewrite (foldl_fmap (λ df e, (send_and_count df n c e).2) InputClosed).
  set (df1 := foldl _ df _).
  assert (open_channel df1 c (InputClosed <$> closed_inputs_of df n)) as Ho1.
  { apply (send_controls df n c _ []); [by exists new_subscription| |].
    - apply Forall_fmap, Forall_true. done.
    - rewrite length_fmap. simpl. lia. }
  assert (∀ A (F : RunningDataflow → A) `{!Insensitive F upd_subscriptions}, F df1 = F df) as Hf1.
  { intros A F ?. apply (foldl_frame F). intros. apply (send_and_count_frame F). }
  change (descriptor (disable_node_restart ?x ?m)) with (descriptor x).
  unfold open_inputs_of. rewrite (Hf1 _ open_inputs _), (Hf1 _ descriptor _).
  change (default ∅ (open_inputs df !! n)) with (open_inputs_of df n).
  set (events2 := if decide (open_inputs_of df n = ∅) then _ else []) in *.
  match goal with |- context [upd_subscribe_channels _ (if stop_sent ?x then _ else _)] =>
    set (df2 := x) end.
  assert (open_channel df2 c ((InputClosed <$> closed_inputs_of df n) ++ events2) ∧
          stop_sent df2 = stop_sent df ∧ subscribe_channels df2 = subscribe_channels df)
    as (Ho2 & Hst & Hch).
  { unfold df2, events2, disable_node_restart in *.
    rewrite <- (Hf1 _ stop_sent _), <- (Hf1 _ subscribe_channels _).
    case_bool_decide; case_decide; try done; [|by rewrite app_nil_r].
    destruct (list_find _ _) as [[k d]|]; [|by rewrite app_nil_r].
    case_bool_decide; case_decide; try done; [by rewrite app_nil_r|].
    rewrite (send_and_count_frame stop_sent), (send_and_count_frame subscribe_channels).
    split_and!; [|done..]. apply send_control; [done..|]. rewrite length_fmap. simpl in Hlen. lia. }
  clearbody df2 events2. rewrite <- Hst in *. rewrite app_assoc. split.
  - destruct (stop_sent df2); [|by rewrite app_nil_r].
    change (open_channel (upd_subscribe_channels ?f ?x)) with (open_channel x).
    apply send_control; [done..|]. rewrite length_app, length_fmap. simpl in Hlen. lia.
  - simpl. f_equal. rewrite <- Hch. destruct (stop_sent df2); [|done].
    by rewrite (send_and_count_frame subscribe_channels).
Qed.
End breaker.

(** ** Examples and witnesses *)

Definition one_second : Z := 4607182418800017408. (* the bits of 1.0 *)
Definition example_node : RunningNode :=
  mkRunningNode None (mkNodeConfig 7 "sink" false 0) None 0 Never false 0 None.
Definition example_inputs : gmap DataId InputConfig :=
  <["a" := mkInputConfig (MUser (mkUserMapping "src1" "a")) None (Some one_second) None]>
  {["b" := mkInputConfig (MUser (mkUserMapping "src2" "b")) None None None]}.
Definition no_metadata : Metadata := mkMetadata ∅.

(** A sink with two inputs, the first with a timeout; the source of the first input sends
    a message and ends, and then the source of the second input ends. *)
Definition sink_run (between : list df_op) : RunningDataflow :=
  df_run (λ _, None) (dataflow_new 7 [] false)
    ([OpAddNode "sink" example_inputs false example_node; OpSubscribe "sink" 1;
      OpSendOut 0 "src1" "a" no_metadata None false; OpCloseOutputs "src1" ["a"]]
     ++ between ++ [OpCloseOutputs "src2" ["b"]]).

(** A stale deadline silences [AllInputsClosed].  Closing an input leaves its deadline
    armed.  If the periodic check comes after it has passed, the closed input is marked as
    broken; when the last open input closes, the node is not told that all its inputs are
    closed, although none can deliver anything any more.  Without the check it is told. *)
Theorem stale_deadline_hides_end :
  flight (sink_run []) 1
    = Some [Input "a" no_metadata None; InputClosed "a"; InputClosed "b"; AllInputsClosed] ∧
  flight (sink_run [OpInputTimeouts 2000000000]) 1
    = Some [Input "a" no_metadata None; InputClosed "a"; InputClosed "b"] ∧
  open_inputs_of (sink_run [OpInputTimeouts 2000000000]) "sink" = ∅.
Proof. vm_compute. done. Qed.

(** A node with one open input, connected. *)
Definition connected_df : RunningDataflow :=
  upd_open_inputs <["sink" := {["a"]}]>
  (upd_subscribe_channels <["sink" := 1%N]>
  (upd_subscriptions <[1%N := new_subscription]> (dataflow_new 7 [] false))).

Lemma close_input_events_witness :
  (closes_all connected_df "sink" "a" →
     open_channel (close_input connected_df "sink" "a") 1 [InputClosed "a"; AllInputsClosed]) ∧
  closes_all connected_df "sink" "a".
Proof.
  split.
  - intros Hall.
    apply (close_input_events connected_df "sink" "a" 1 []); [reflexivity| |vm_compute; discriminate|done].
    by exists new_subscription.
  - split; [left; vm_compute; done|]. split; [vm_compute; tauto|]. intros (j & _ & x & Hx). done.
Defined.

Definition broken_acc : delivery :=
  mkDelivery (upd_broken_inputs <[("sink", "a") := 5%Z]> connected_df) (mkStats 0 0 0 0) [].

Lemma delivery_recovers_input_witness :
  open_channel (dl_df (deliver_output 9 "src1" no_metadata None broken_acc ("sink", "a"))) 1
    [Input "a" no_metadata None; InputRecovered "a"].
Proof.
  apply (delivery_recovers_input 9 "src1" no_metadata None broken_acc "sink" "a" 1 [] 5).
  - reflexivity.
  - by exists new_subscription.
  - vm_compute. discriminate.
  - reflexivity.
Defined.

Lemma subscribe_reports_witness :
  let df := upd_stop_sent (λ _, true) connected_df in
  subscribe_events df "sink" = [Stop] ∧
  open_channel (subscribe df "sink" 1) 1 (subscribe_events df "sink").
Proof.
  split; [vm_compute; reflexivity|].
  apply (subscribe_reports (upd_stop_sent (λ _, true) connected_df) "sink" 1);
    [reflexivity|vm_compute; discriminate].
Defined.
