(* ===== verification/Delivery.v ===== *)
(** * Delivery guarantees of a dataflow

    Proved here about [send_output_to_local_receivers], [stop_all] and
    [apply_state_catch_up_entries]: an output reaches every connected receiver with room
    exactly once per mapped input, a stop request reaches every connected node, and a
    state catch-up acknowledges exactly the prefix it delivered. *)

From Stdlib Require Import ZArith Lia.
From stdpp Require Import base gmap sets list strings.
From S2P Require Import Prelude Message Channel Pending Dataflow Routing Frames Counters Tokens Breaker.

(** What a node gets for an output, in the order of its inputs: the message once per mapped
    input, and after it, for an input that the circuit breaker had closed, the notice that the
    input is open again. *)
Definition events_for {A} (broken : gmap (NodeId * DataId) A) (n : NodeId) (md : Metadata)
    (data : option DataMessage) (receivers : list (NodeId * DataId)) : list NodeEvent :=
  concat ((λ r, if bool_decide (r.1 = n) then
                  Input r.2 md data :: (if broken !! r then [InputRecovered r.2] else [])
                else []) <$> receivers).

Lemma events_for_ext {A} (b1 b2 : gmap (NodeId * DataId) A) n md data receivers :
  (∀ r, r ∈ receivers → b1 !! r = b2 !! r) →
  events_for b1 n md data receivers = events_for b2 n md data receivers.
Proof.
  intros Hb. unfold events_for. f_equal. apply list_fmap_ext. intros i r Hr%list_elem_of_lookup_2.
  by rewrite Hb.
Qed.

Section delivery.
Context `{HashOrder}.
Implicit Types df : RunningDataflow.

(** ** Outputs *)

Lemma open_channel_send_other df n c c' e l :
  c ≠ c' → open_channel df c l → open_channel (send_and_count df n c' e).2 c l.
Proof.
  intros Hne (s & Hs & Hrx & Hl). unfold send_and_count, send_to.
  destruct (subscriptions df !! c') as [s'|]; simpl; [|by exists s].
  destruct (send_with_timestamp s' e) as [r s2]. simpl.
  assert (open_channel (upd_subscriptions <[c':=s2]> df) c l) as Ho
    by (exists s; simpl; by rewrite lookup_insert_ne).
  case_bool_decide; [by apply open_channel_inc|done].
Qed.

Lemma recover_input_open_channel now df stats r i c c' l :
  c ≠ c' → open_channel df c l → open_channel (recover_input now df stats r i c').1 c l.
Proof.
  intros Hne Ho. unfold recover_input. destruct (_ !! (r, i)); [|done]. cbn [fst].
  apply open_channel_send_other; [done|]. exact Ho.
Qed.

Lemma deliver_output_other_channel now n md data acc r i c c' l :
  subscribe_channels (dl_df acc) !! r = Some c' → c ≠ c' → open_channel (dl_df acc) c l →
  open_channel (dl_df (deliver_output now n md data acc (r, i))) c l.
Proof.
  intros Hr Hne Ho. unfold deliver_output. rewrite Hr.
  destruct (subscriptions _ !! c') as [s|]; [|done]. case_match; [done|].
  destruct (try_send s _) as [[] s']; [|done..].
  match goal with |- context [recover_input now ?x ?st r i c'] =>
    assert (open_channel x c l) as Ho1; [|
    pose proof (recover_input_open_channel now x st r i c c' l Hne Ho1) as Ho2;
    destruct (recover_input now x st r i c') as [df2 st2]] end.
  { apply open_channel_inc. destruct Ho as (s0 & Hs0 & ? & ?). exists s0. simpl.
    by rewrite lookup_insert_ne. }
  by destruct (data ≫= drop_token).
Qed.

Lemma recover_input_accepts now df stats n i c l :
  open_channel df c l → (Z.of_nat (length l) < NODE_EVENT_CHANNEL_CAPACITY)%Z →
  open_channel (recover_input now df stats n i c).1 c
    (l ++ (if broken_inputs df !! (n, i) then [InputRecovered i] else [])).
Proof.
  intros Ho Hl. unfold recover_input. destruct (_ !! (n, i)); [|by rewrite app_nil_r].
  cbn [fst]. by apply send_control.
Qed.

Lemma recover_input_broken now df stats n i c :
  broken_inputs (recover_input now df stats n i c).1 = delete (n, i) (broken_inputs df).
Proof.
  unfold recover_input. destruct (_ !! (n, i)) eqn:E; [|by rewrite delete_id].
  cbn [fst]. by rewrite (send_and_count_frame broken_inputs).
Qed.

(** A receiver with room gets the message and, for a broken input, the notice; the input is
    no longer broken, and no other one changes. *)
Lemma deliver_output_accepts now src md data acc n i c l :
  subscribe_channels (dl_df acc) !! n = Some c → open_channel (dl_df acc) c l →
  (Z.of_nat (length l) ≤ NODE_EVENT_CHANNEL_CAPACITY - CONTROL_EVENT_HEADROOM)%Z →
  let df' := dl_df (deliver_output now src md data acc (n, i)) in
  open_channel df' c
    (l ++ Input i md data :: (if broken_inputs (dl_df acc) !! (n, i) then [InputRecovered i] else [])) ∧
  broken_inputs df' = delete (n, i) (broken_inputs (dl_df acc)).
Proof.
  intros Hc (s & Hs & Hrx & <-) Hl. unfold deliver_output. rewrite Hc, Hs.
  assert ((capacity s <? CONTROL_EVENT_HEADROOM)%Z = false) as -> by (unfold capacity; lia).
  unfold try_send. replace (negb (rx_alive s)) with false by by rewrite Hrx.
  assert ((capacity s <=? 0)%Z = false) as -> by (unfold capacity, CONTROL_EVENT_HEADROOM in *; lia).
  match goal with |- context [recover_input now ?x ?st n i c] =>
    assert (open_channel x c (in_flight s ++ [Input i md data])) as Ho;
    [|assert (broken_inputs x = broken_inputs (dl_df acc)) as Hb;
      [|pose proof (recover_input_accepts now x st n i c _ Ho) as Hacc;
        pose proof (recover_input_broken now x st n i c) as Hbr; rewrite Hb in Hacc, Hbr;
        destruct (recover_input now x st n i c) as [df2 st2]]] end.
  { apply open_channel_inc. eexists. simpl. by rewrite lookup_insert_eq. }
  { rewrite (insensitive (F := broken_inputs)). by rewrite (inc_pending_frame broken_inputs). }
  cbn [fst] in Hacc, Hbr. rewrite <- app_assoc in Hacc. rewrite length_app in Hacc. simpl in Hacc.
  unfold CONTROL_EVENT_HEADROOM in *. specialize (Hacc ltac:(lia)).
  by destruct (data ≫= drop_token).
Qed.

(** Deliveries change neither the channels of the nodes nor, to an unbroken input, the
    set of broken inputs. *)
Lemma deliver_output_channels now src md data acc r :
  subscribe_channels (dl_df (deliver_output now src md data acc r)) = subscribe_channels (dl_df acc).
Proof.
  destruct r as [n i].
  destruct (deliver_output_cases now src md data acc n i) as [->|(c & l & _ & _ & Hch & _)]; done.
Qed.

Lemma deliver_output_broken now src md data acc r k :
  r ≠ k →
  broken_inputs (dl_df (deliver_output now src md data acc r)) !! k = broken_inputs (dl_df acc) !! k.
Proof.
  intros Hk. destruct r as [n i]. unfold deliver_output.
  destruct (_ !! n) as [c|]; [|done]. destruct (_ !! c) as [s|]; [|done].
  case_match; [done|]. destruct (try_send _ _) as [[] s']; [|done..].
  match goal with |- context [recover_input now ?x ?st n i c] =>
    pose proof (recover_input_broken now x st n i c) as Hbr;
    destruct (recover_input now x st n i c) as [df2 st2] end.
  rewrite (insensitive (F := broken_inputs)), (inc_pending_frame broken_inputs) in Hbr.
  change (broken_inputs (upd_subscriptions _ (dl_df acc))) with (broken_inputs (dl_df acc)) in Hbr. cbn [fst] in Hbr.
  rewrite <- (lookup_delete_ne (broken_inputs (dl_df acc)) _ _ Hk), <- Hbr. by destruct (data ≫= drop_token).
Qed.

Lemma deliver_outputs_keep now src md data acc receivers k :
  k ∉ receivers →
  broken_inputs (dl_df (foldl (deliver_output now src md data) acc receivers)) !! k = broken_inputs (dl_df acc) !! k.
Proof.
  revert acc. induction receivers as [|r receivers IH]; intros acc Hk; cbn [foldl]; [done|].
  apply not_elem_of_cons in Hk as [Hk ?]. rewrite IH by done. by apply deliver_output_broken.
Qed.

Lemma deliver_outputs_exact now src md data acc receivers n c l :
  NoDup receivers →
  channels_injective (subscribe_channels (dl_df acc)) →
  subscribe_channels (dl_df acc) !! n = Some c → open_channel (dl_df acc) c l →
  (Z.of_nat (length l + length (events_for (broken_inputs (dl_df acc)) n md data receivers))
     ≤ NODE_EVENT_CHANNEL_CAPACITY - CONTROL_EVENT_HEADROOM + 1)%Z →
  let df' := dl_df (foldl (deliver_output now src md data) acc receivers) in
  open_channel df' c (l ++ events_for (broken_inputs (dl_df acc)) n md data receivers) ∧
  (∀ i, (n, i) ∈ receivers → broken_inputs df' !! (n, i) = None).
Proof.
  cbv zeta. revert acc l. induction receivers as [|[r i] receivers IH]; intros acc l Hnd Hinj Hc Ho Hlen; cbn [foldl].
  { split; [by rewrite app_nil_r|set_solver]. }
  apply NoDup_cons in Hnd as [Hfresh Hnd].
  pose proof (deliver_output_channels now src md data acc (r, i)) as Hch.
  assert (events_for (broken_inputs (dl_df (deliver_output now src md data acc (r, i)))) n md data receivers =
          events_for (broken_inputs (dl_df acc)) n md data receivers) as Hev.
  { apply events_for_ext. intros k Hk. apply deliver_output_broken. by intros <-. }
  change (events_for (broken_inputs (dl_df acc)) n md data ((r, i) :: receivers)) with
    ((if bool_decide (r = n) then Input i md data :: (if broken_inputs (dl_df acc) !! (r, i) then [InputRecovered i] else [])
      else []) ++ events_for (broken_inputs (dl_df acc)) n md data receivers)%list in *.
  rewrite length_app in Hlen. case_bool_decide as Hr.
  - subst r. rewrite app_assoc.
    destruct (deliver_output_accepts now src md data acc n i c l) as [Hopen Hbr]; [done..|simpl in Hlen; lia|].
    destruct (IH _ _ Hnd ltac:(by rewrite Hch) ltac:(by rewrite Hch) Hopen) as [Hrest Hnone].
    { rewrite Hev, length_app. simpl in *. lia. }
    rewrite Hev in Hrest. split; [done|]. intros j [[= ->]|Hj]%elem_of_cons; [|by apply Hnone].
    rewrite deliver_outputs_keep by done. rewrite Hbr. apply lookup_delete_eq.
  - destruct (IH (deliver_output now src md data acc (r, i)) l) as [Hrest Hnone];
      [done|by rewrite Hch..| |simpl in *; rewrite Hev; lia|].
    { destruct (subscribe_channels (dl_df acc) !! r) as [c'|] eqn:Hr'.
      + eapply deliver_output_other_channel; [done| |done]. intros <-. by eapply Hr, Hinj.
      + unfold deliver_output. by rewrite Hr'. }
    rewrite Hev in Hrest. split; [done|]. intros j [[= -> ->]|Hj]%elem_of_cons; [done|by apply Hnone].
Qed.


(** ** Stopping *)

Lemma send_stops_other df channels c l :
  c ∉ channels.*2 → open_channel df c l → open_channel (foldl send_stop_to df channels) c l.
Proof.
  revert df. induction channels as [|[n c'] channels IH]; intros df Hc Ho; cbn [foldl]; [done|].
  rewrite fmap_cons in Hc. apply not_elem_of_cons in Hc as [Hne Hc].
  apply IH; [done|]. apply open_channel_send_other; [|done]. exact Hne.
Qed.

Lemma send_stops_open df channels n c l :
  NoDup channels.*2 → (n, c) ∈ channels → open_channel df c l →
  (Z.of_nat (length l) < NODE_EVENT_CHANNEL_CAPACITY)%Z →
  open_channel (foldl send_stop_to df channels) c (l ++ [Stop]).
Proof.
  revert df. induction channels as [|[n' c'] channels IH]; intros df Hnd Hin Ho Hl; [set_solver|].
  cbn [foldl]. rewrite fmap_cons in Hnd. apply NoDup_cons in Hnd as [Hc' Hnd].
  apply elem_of_cons in Hin as [Heq|Hin].
  - injection Heq as <- <-. apply send_stops_other; [done|]. by apply send_control.
  - apply IH; [done..| |done]. apply open_channel_send_other; [|done].
    intros ->. apply Hc'. apply list_elem_of_fmap. by exists (n, c').
Qed.

Lemma NoDup_channel_values (m : gmap NodeId SubId) :
  channels_injective m → NoDup (hash_iter m).*2.
Proof.
  intros Hinj. apply NoDup_fmap_2_strong; [|apply (NoDup_fmap_1 fst), (NoDup_hash_keys m)].
  intros [n c] [n' c'] Hn Hn' Heq. simpl in Heq. subst c'.
  apply elem_of_hash_iter in Hn, Hn'. by rewrite (Hinj n n' c).
Qed.

(** A process that runs, and one that has been told to end. *)
Definition proc_alive df (p : ProcId) : Prop :=
  ∃ ch, processes df !! p = Some ch ∧ op_rx_alive ch = true.
Definition proc_killed df (p : ProcId) : Prop :=
  ∃ ch, processes df !! p = Some ch ∧ Kill ∈ operations ch.

Lemma submit_to_mono df q o p :
  (proc_alive df p → proc_alive (submit_to df q o).2 p) ∧
  (proc_killed df p → proc_killed (submit_to df q o).2 p).
Proof.
  unfold submit_to. destruct (processes df !! q) as [ch|] eqn:Hq; [|done].
  unfold proc_alive, proc_killed, submit. destruct (op_rx_alive ch) eqn:Ha; simpl;
    (destruct (decide (q = p)) as [<-|Hne];
      [rewrite lookup_insert_eq|rewrite lookup_insert_ne by done]); try done; rewrite Hq;
    split; intros (ch' & [= <-] & ?); eexists; split; try done; simpl; set_solver.
Qed.

Lemma submit_kill df p : proc_alive df p → proc_killed (submit_to df p Kill).2 p.
Proof.
  intros (ch & Hp & Ha). unfold submit_to, submit. rewrite Hp, Ha. eexists. simpl.
  rewrite lookup_insert_eq. split; [done|]. simpl. set_solver.
Qed.

Lemma drop_processes_killed df ps p : proc_killed df p → proc_killed (drop_processes df ps) p.
Proof.
  unfold drop_processes. revert df.
  induction ps as [|[m [q|]] ps IH]; intros df Hk; cbn [foldl snd]; [done| |by apply IH].
  apply IH. by apply submit_to_mono.
Qed.

Lemma kill_all df ps n p :
  (n, Some p) ∈ ps → proc_alive df p → proc_killed (drop_processes df ps) p.
Proof.
  revert df. induction ps as [|[m [q|]] ps IH]; intros df Hin Ha; [set_solver| |].
  - apply elem_of_cons in Hin as [Heq|Hin].
    + injection Heq as <- <-. apply (drop_processes_killed _ ps). by apply submit_kill.
    + apply (IH (drop_process df q)); [done|]. by apply submit_to_mono.
  - apply IH; [set_solver|done].
Qed.

(** The loop that sends [Kill] to every process of a list. *)
Lemma submit_kills_alive df (ps : list (NodeId * option ProcId)) p :
  proc_alive df p →
  proc_alive (foldl (λ df entry, match entry.2 with
                                 | Some p => (submit_to df p Kill).2
                                 | None => df end) df ps) p.
Proof.
  revert df. induction ps as [|[m [q|]] ps IH]; intros df Ha; [done| |by apply IH].
  apply IH. by apply submit_to_mono.
Qed.

Lemma end_processes_nodes df g force :
  running_nodes (end_processes df g force) = take_process <$> running_nodes df.
Proof.
  unfold end_processes. destruct force; [|done].
  rewrite (drop_processes_frame running_nodes), (foldl_frame running_nodes); [done|].
  intros ? [n [p|]]; [apply (submit_to_frame running_nodes)|done].
Qed.

Lemma end_processes_ends df g (force : bool) n node p :
  running_nodes df !! n = Some node → process node = Some p → proc_alive df p →
  if force then proc_killed (end_processes df g force) p
  else ∃ t, t ∈ kill_tasks (end_processes df g force) ∧ (n, Some p) ∈ kill_processes t ∧
            kill_grace t = default DEFAULT_STOP_GRACE g.
Proof.
  intros Hn Hp Ha. unfold end_processes.
  assert ((n, Some p) ∈ ((λ e : NodeId * RunningNode, (e.1, process e.2)) <$> btree_iter (running_nodes df))) as Hin.
  { apply list_elem_of_fmap. exists (n, node). rewrite elem_of_btree_iter. simpl. by rewrite Hp. }
  destruct force.
  - eapply kill_all; [exact Hin|]. by apply submit_kills_alive.
  - eexists. split; [simpl; apply elem_of_app; right; apply list_elem_of_here|]. by split.
Qed.

Lemma stop_all_Ok df io g force w df' io' :
  stop_all df io g force = (Ok w, df', io') →
  ∃ df1, running_nodes df1 = running_nodes df ∧ subscribe_channels df1 = subscribe_channels df ∧
    subscriptions df1 = subscriptions df ∧ processes df1 = processes df ∧
    df' = upd_stop_sent (λ _, true) (end_processes (send_stops
            (upd_running_nodes (fmap (set_disable_restart true)) df1)) g force).
Proof.
  unfold stop_all, with_pending. destruct (handle_dataflow_stop _ _) as [[] c]; [|done..].
  intros [= _ <- _]. eexists. split_and!; [..|reflexivity]; done.
Qed.

(** A stop request reaches everybody.  When [stop_all] succeeds, every connected node
    with room has got [Stop]; no node may restart any more, and a node that subscribes
    later will be told to stop; every running process is killed at once if the stop is
    forced, and otherwise handed to the task that kills it after the grace period. *)
Theorem stop_all_notifies df io g (force : bool) w df' io' :
  stop_all df io g force = (Ok w, df', io') → channels_injective (subscribe_channels df) →
  (∀ n c l, subscribe_channels df !! n = Some c → open_channel df c l →
     (Z.of_nat (length l) < NODE_EVENT_CHANNEL_CAPACITY)%Z → open_channel df' c (l ++ [Stop])) ∧
  stop_sent df' = true ∧
  (∀ n node, running_nodes df' !! n = Some node → disable_restart node = true) ∧
  (∀ n node p, running_nodes df !! n = Some node → process node = Some p → proc_alive df p →
     if force then proc_killed df' p
     else ∃ t, t ∈ kill_tasks df' ∧ (n, Some p) ∈ kill_processes t ∧
               kill_grace t = default DEFAULT_STOP_GRACE g).
Proof.
  intros Hstop Hinj. apply stop_all_Ok in Hstop as (df1 & Hrun & Hch & Hsub & Hproc & ->).
  set (df2 := upd_running_nodes (fmap (set_disable_restart true)) df1).
  split_and!.
  - intros n c l Hc Ho Hl. unfold open_channel.
    change (open_channel (end_processes (send_stops df2) g force) c (l ++ [Stop])).
    unfold open_channel. rewrite (end_processes_frame subscriptions).
    apply (send_stops_open _ _ n); [| | |done].
    + apply NoDup_channel_values. simpl. by rewrite Hch.
    + apply elem_of_hash_iter. simpl. by rewrite Hch.
    + unfold open_channel in *. simpl. by rewrite Hsub.
  - done.
  - intros n node. change (running_nodes (upd_stop_sent ?f ?x)) with (running_nodes x).
    rewrite end_processes_nodes, (send_stops_frame running_nodes). simpl.
    rewrite !lookup_fmap. destruct (running_nodes df1 !! n); simpl; [|done]. by intros [= <-].
  - intros n node p Hn Hp Ha.
    apply (end_processes_ends (send_stops df2) g force n (set_disable_restart true node) p); [|done|].
    + rewrite (send_stops_frame running_nodes). simpl. by rewrite lookup_fmap, Hrun, Hn.
    + unfold proc_alive in *. rewrite (send_stops_frame processes). simpl. by rewrite Hproc.
Qed.

(** ** State catch-up *)

(** Delivering one entry, or a list of entries none of which fails, as [SetParam] and
    [DeleteParam] would. *)
Definition deliver_entry df (entry : StateCatchUpEntry) : res unit * RunningDataflow :=
  let '(n, e) := catch_up_target (operation entry) in deliver_strict df n e.

Fixpoint deliver_all df (entries : list StateCatchUpEntry) : option RunningDataflow :=
  match entries with
  | [] => Some df
  | entry :: entries =>
      match deliver_entry df entry with
      | (Ok _, df) => deliver_all df entries
      | _ => None
      end
  end.

(** A catch-up acknowledges exactly what it delivered.  The entries are delivered in
    order up to the first one that cannot be, and the acknowledged sequence number is that
    of the last entry delivered, so that the coordinator can resume behind it. *)
Theorem catch_up_acks_prefix df k entries :
  let '(acked, df') := apply_state_catch_up_entries df k entries in
  ∃ applied rest df1, entries = applied ++ rest ∧ deliver_all df applied = Some df1 ∧
    acked = default k (sequence <$> last applied) ∧
    match rest with
    | [] => df' = df1
    | entry :: _ => ∃ msg, (deliver_entry df1 entry).1 = Err msg
    end.
Proof.
  revert df k. induction entries as [|entry entries IH]; intros df k; cbn [apply_state_catch_up_entries].
  { by exists [], [], df. }
  destruct (catch_up_target (operation entry)) as [n e] eqn:Ht.
  assert (∀ df' msg, (deliver_entry df entry).1 = Err msg →
    ∃ applied rest df1, entry :: entries = applied ++ rest ∧ deliver_all df applied = Some df1 ∧
      k = default k (sequence <$> last applied) ∧
      match rest with [] => df' = df1 | entry :: _ => ∃ msg, (deliver_entry df1 entry).1 = Err msg end)
    as Hfail by (intros df' msg Hd; exists [], (entry :: entries), df; eauto).
  assert (deliver_entry df entry = deliver_strict df n e) as Hd by (unfold deliver_entry; by rewrite Ht).
  unfold deliver_strict in Hd.
  destruct (subscribe_channels df !! n) as [c|]; [|by eapply Hfail; rewrite Hd].
  destruct (send_and_count df n c e) as [[[]|] df']; cbv iota; [|by eapply Hfail; rewrite Hd..].
  specialize (IH df' (sequence entry)).
  destruct (apply_state_catch_up_entries df' (sequence entry) entries) as [acked df''].
  destruct IH as (applied & rest & df1 & -> & Hall & -> & Hrest).
  exists (entry :: applied), rest, df1. split_and!; [done| | |done].
  - cbn [deliver_all]. by rewrite Hd.
  - rewrite last_cons. by destruct (last applied).
Qed.
End delivery.

(** ** Witnesses *)

Lemma connected_injective : channels_injective (subscribe_channels connected_df).
Proof.
  intros m m' c. simpl. intros [[<- _]|[_ Hm]]%lookup_insert_Some; [|done].
  by intros [[<- _]|[_ Hm]]%lookup_insert_Some.
Qed.

(** Two inputs of the node are mapped to the output, and the circuit breaker has closed one. *)
Definition mapped_df : RunningDataflow :=
  upd_broken_inputs <[("sink", "b") := 5%Z]>
    (upd_mappings <[("camera", "image") := {[("sink", "a"); ("sink", "b")]}]> connected_df).


Lemma stop_all_notifies_witness :
  ∃ w df' io', stop_all connected_df (mkIo None []) None true = (Ok w, df', io') ∧
    open_channel df' 1 [Stop].
Proof.
  eexists _, _, _. split; [reflexivity|].
  refine (proj1 (stop_all_notifies connected_df (mkIo None []) None true _ _ _ eq_refl
                   connected_injective) "sink" 1%N [] eq_refl _ eq_refl).
  by exists new_subscription.
Defined.
