(* ===== verification/Stderr.v ===== *)
(** * Extraction of the error message from a node's stderr

    Models [binaries/daemon/src/extract_err_from_stderr.rs].  The result is kept as the
    list of lines whose concatenation the source returns. *)

From Stdlib Require Import Ascii Lia.
From stdpp Require Import base list strings.
From S2P Require Import Prelude.

(** [str::starts_with] and [str::contains]. *)
Definition starts_with (line pattern : string) : bool := String.prefix pattern line.
Fixpoint contains (line pattern : string) : bool :=
  String.prefix pattern line
  || match line with EmptyString => false | String _ rest => contains rest pattern end.

(** The matcher's state is [python_syntax_error_found]. *)
Definition is_error_start_marker (found : bool) (line : string) : bool * bool :=
  if starts_with line "Error:" || starts_with line "Traceback (most recent call last):"
  then (true, found)
  else if starts_with line "SyntaxError: " then (false, true)
  else if found && starts_with line "  File " then (true, found)
  else if starts_with line "thread '" && contains line " panicked at " then (true, found)
  else (false, found).

Definition is_negative_marker (line : string) : bool := starts_with line "Warning:".

(** The loop over the lines from the last one backwards. *)
Fixpoint find_start (found : bool) (idx : nat) (rev_lines : list string) : option nat :=
  match rev_lines with
  | [] => None
  | line :: rest =>
      let '(marker, found) := is_error_start_marker found line in
      if marker then Some idx
      else if is_negative_marker line then Some (idx - 1)
      else find_start found (S idx) rest
  end.

Definition extract_err_from_stderr (stderr : list string) : list string :=
  let start_line_idx_from_end := default 10 (find_start false 0 (rev stderr)) in
  drop (length stderr - 1 - start_line_idx_from_end) stderr.

(** ** Lemmas *)

Lemma find_start_bounds found idx l k :
  find_start found idx l = Some k → idx - 1 ≤ k < idx + length l.
Proof.
  revert found idx. induction l as [|line l IH]; intros found idx; simpl; [done|].
  destruct (is_error_start_marker found line) as [[] found']; [intros; simplify_eq; lia|].
  case_match; [intros; simplify_eq; lia|]. intros Hf%IH. lia.
Qed.

(** A line that starts an error whatever was seen before. *)
Definition plain_marker (line : string) : bool :=
  starts_with line "Error:" || starts_with line "Traceback (most recent call last):".

Lemma find_start_marker found idx l line rest :
  Forall (λ x, (∀ b, (is_error_start_marker b x).1 = false) ∧ is_negative_marker x = false) l →
  plain_marker line = true → find_start found idx (l ++ line :: rest) = Some (idx + length l).
Proof.
  intros Hl Hm. revert found idx. induction Hl as [|x l [Hx Hneg] Hl IH]; intros found idx; simpl.
  - unfold plain_marker in Hm. unfold is_error_start_marker. rewrite Hm. f_equal. lia.
  - destruct (is_error_start_marker found x) as [m found'] eqn:Hxm.
    specialize (Hx found). rewrite Hxm in Hx. simpl in Hx. subst m. rewrite Hneg, IH. f_equal. lia.
Qed.

(** When the log has a line that starts an error followed only by ordinary lines, the
    extracted text is exactly the log from that line on, whatever comes before. *)
Lemma extract_err_spec before line after :
  plain_marker line = true →
  Forall (λ x, (∀ b, (is_error_start_marker b x).1 = false) ∧ is_negative_marker x = false) after →
  extract_err_from_stderr (before ++ line :: after) = line :: after.
Proof.
  intros Hm Ha. unfold extract_err_from_stderr.
  rewrite rev_app_distr. simpl. rewrite <- app_assoc. simpl.
  rewrite (find_start_marker false 0 (rev after)); [|by apply Forall_rev|done].
  simpl. rewrite length_rev, length_app. simpl.
  replace (length before + S (length after) - 1 - length after) with (length before) by lia.
  apply drop_app_length.
Qed.

(** Without any marker the last eleven lines are kept (the source's comment says
    ten). *)
Lemma extract_err_default stderr :
  find_start false 0 (rev stderr) = None → 11 ≤ length stderr →
  length (extract_err_from_stderr stderr) = 11.
Proof.
  intros Hf Hl. unfold extract_err_from_stderr. rewrite Hf. simpl. rewrite length_drop. lia.
Qed.

Lemma extract_err_spec_witness :
  extract_err_from_stderr ["starting"; "Error: no camera"; "  at main.rs"]
  = ["Error: no camera"; "  at main.rs"].
Proof.
  apply (extract_err_spec ["starting"] "Error: no camera" ["  at main.rs"]).
  - reflexivity.
  - repeat constructor; intros []; reflexivity.
Defined.

Lemma extract_err_default_witness :
  length (extract_err_from_stderr (replicate 20 "tick")) = 11.
Proof. apply (extract_err_default (replicate 20 "tick")); [reflexivity|simpl; lia]. Defined.
