(* ===== verification/Tail.v ===== *)
(** * The tail of a log file

    Models [read_last_n_lines] of [binaries/daemon/src/lib.rs], which answers log requests
    by reading a file backwards in chunks of growing size, and proves that it returns
    exactly the last lines.  The file is its content; it does not change while it is read.
    The loop runs on fuel, and the theorem shows that the length of the file is enough. *)

From Stdlib Require Import ZArith Lia.
From stdpp Require Import base list.
From S2P Require Import Prelude Message.

Definition newline_byte : Byte.byte := Byte.x0a.

(** [u8::is_ascii_whitespace] and [trim_ascii_end]. *)
Definition is_ascii_whitespace (b : Byte.byte) : bool :=
  match b with Byte.x20 | Byte.x09 | Byte.x0a | Byte.x0c | Byte.x0d => true | _ => false end.

Fixpoint skip_whitespace (l : list Byte.byte) : list Byte.byte :=
  match l with
  | b :: l' => if is_ascii_whitespace b then skip_whitespace l' else l
  | [] => []
  end.
Definition trim_ascii_end (l : list Byte.byte) : list Byte.byte := rev (skip_whitespace (rev l)).

(** [memchr::memrchr_iter]: the positions of the newlines, from the last to the first. *)
Fixpoint newline_positions (i : nat) (l : list Byte.byte) : list nat :=
  match l with
  | [] => []
  | b :: l =>
      if bool_decide (b = newline_byte) then i :: newline_positions (S i) l
      else newline_positions (S i) l
  end.
Definition memrchr_iter (l : list Byte.byte) : list nat := rev (newline_positions 0 l).

(** The inner loop: the part of the chunk to keep when the last line is found in it, the
    number of lines seen, and the number of lines still wanted. *)
Fixpoint scan_chunk (read_buf : list Byte.byte) (iter : list nat) (lines tail : nat)
    : option (list Byte.byte) * nat * nat :=
  match iter with
  | [] => (None, lines, tail)
  | pos :: iter =>
      let lines := S lines in
      let tail := tail - 1 in
      if Nat.eqb tail 0 then (Some (drop (S pos) read_buf), lines, tail)
      else scan_chunk read_buf iter lines tail
  end.

Record TailState := mkTail {
  tail_pos : nat;
  tail_left : nat;
  tail_output : list Byte.byte;
  buffer_len : nat;
  estimated_line_length : nat;
  at_end : bool
}.

Definition div_ceil (a b : nat) : nat := (a + b - 1) / b.

(** The outer loop; [usize] products wrap around. *)
Fixpoint tail_loop (fuel : nat) (file : list Byte.byte) (s : TailState) : option (list Byte.byte) :=
  if (0 <? tail_left s) && (0 <? tail_pos s) then
    match fuel with
    | O => None
    | S fuel =>
        let new_pos := tail_pos s - buffer_len s in
        let read_len := tail_pos s - new_pos in
        let buffer := take read_len (drop new_pos file) in
        let read_buf := if at_end s then trim_ascii_end buffer else buffer in
        match scan_chunk read_buf (memrchr_iter read_buf) 1 (tail_left s) with
        | (Some part, _, _) => Some (part ++ tail_output s)
        | (None, lines, tail) =>
            let estimate := Nat.max (estimated_line_length s) (div_ceil (length read_buf + 1) lines) in
            let wanted := u64_wrap (Z.of_nat estimate * Z.of_nat tail) in
            let len := if (Z.of_nat (buffer_len s) * 2 <=? wanted)%Z
                       then buffer_len s * 2 else buffer_len s in
            tail_loop fuel file
              (mkTail new_pos tail (read_buf ++ tail_output s) len estimate false)
        end
    end
  else Some (tail_output s).

Definition INITIAL_BUFFER : nat := 2048.

Definition read_last_n_lines (fuel : nat) (file : list Byte.byte) (tail : nat)
    : option (list Byte.byte) :=
  tail_loop fuel file (mkTail (length file) tail [] INITIAL_BUFFER 0 true).

(** ** Specification *)

Definition newlines (l : list Byte.byte) : nat := length (newline_positions 0 l).

(** [r] is the last [n] lines of [l]: a suffix with at most [n - 1] newlines that is all of
    [l] or starts behind a newline and has exactly that many. *)
Definition last_lines (n : nat) (l r : list Byte.byte) : Prop :=
  ∃ p, l = p ++ r ∧
    (p = [] ∧ newlines r < n ∨ (∃ p', p = p' ++ [newline_byte]) ∧ S (newlines r) = n).

(** Trailing white space is cut off, if it is not longer than the first chunk. *)
Definition trimmed (l : list Byte.byte) : list Byte.byte :=
  let k := length l - INITIAL_BUFFER in take k l ++ trim_ascii_end (drop k l).

(** ** Lemmas *)

Lemma newline_positions_shift i l :
  newline_positions i l = (λ p, i + p) <$> newline_positions 0 l.
Proof.
  revert i. induction l as [|b l IH]; intros i; simpl; [done|].
  rewrite (IH (S i)), (IH 1). case_bool_decide; simpl; rewrite <- list_fmap_compose.
  - f_equal; [lia|]. apply list_fmap_ext. intros; simpl; lia.
  - apply list_fmap_ext. intros; simpl; lia.
Qed.

Lemma newlines_cons b l :
  newlines (b :: l) = (if bool_decide (b = newline_byte) then 1 else 0) + newlines l.
Proof.
  unfold newlines. simpl. rewrite newline_positions_shift.
  case_bool_decide; simpl; by rewrite length_fmap.
Qed.

Lemma newlines_app l k : newlines (l ++ k) = newlines l + newlines k.
Proof. induction l as [|b l IH]; [done|]. simpl. rewrite !newlines_cons, IH. lia. Qed.

(** The j-th newline of a list splits it. *)
Lemma newline_position_split l j p :
  newline_positions 0 l !! j = Some p →
  ∃ a b, l = a ++ newline_byte :: b ∧ length a = p ∧ newlines a = j.
Proof.
  revert j p. induction l as [|x l IH]; intros j p; [done|]. simpl. rewrite newline_positions_shift.
  case_bool_decide as Hx.
  - destruct j as [|j]; simpl.
    + intros [= <-]. subst. by exists [], l.
    + rewrite list_lookup_fmap. intros (q & Hq & ->)%fmap_Some.
      destruct (IH _ _ Hq) as (a & b & -> & <- & <-). exists (x :: a), b.
      rewrite newlines_cons, bool_decide_true by done. simpl. split_and!; [done|lia|lia].
  - rewrite list_lookup_fmap. intros (q & Hq & ->)%fmap_Some.
    destruct (IH _ _ Hq) as (a & b & -> & <- & <-). exists (x :: a), b.
    rewrite newlines_cons, bool_decide_false by done. simpl. split_and!; [done|lia|lia].
Qed.

Lemma scan_chunk_spec buf iter lines k :
  1 ≤ k →
  scan_chunk buf iter lines k
  = match iter !! (k - 1) with
    | Some p => (Some (drop (S p) buf), lines + k, 0)
    | None => (None, lines + length iter, k - length iter)
    end.
Proof.
  revert lines k. induction iter as [|p iter IH]; intros lines k Hk; simpl.
  - f_equal; [f_equal|]; lia.
  - destruct (Nat.eqb_spec (k - 1) 0) as [Hz|Hz].
    + replace k with 1 by lia. simpl. f_equal. f_equal. lia.
    + rewrite IH by lia. destruct k as [|[|k]]; [lia..|]. simpl. rewrite !Nat.sub_0_r.
      destruct (iter !! k); f_equal; try f_equal; lia.
Qed.

(** A chunk either has fewer newlines than lines wanted, or is cut behind one of them. *)
Lemma scan_chunk_cases buf k :
  1 ≤ k →
  (newlines buf < k ∧
     scan_chunk buf (memrchr_iter buf) 1 k = (None, 1 + newlines buf, k - newlines buf)) ∨
  (∃ a b, buf = a ++ newline_byte :: b ∧ S (newlines b) = k ∧
     scan_chunk buf (memrchr_iter buf) 1 k = (Some b, 1 + k, 0)).
Proof.
  intros Hk. rewrite scan_chunk_spec by done. unfold memrchr_iter.
  destruct (decide (newlines buf < k)) as [Hlt|Hge].
  - left. split; [done|]. unfold newlines in *.
    rewrite lookup_ge_None_2; rewrite length_rev; [done|lia].
  - right. unfold newlines in Hge. set (P := newline_positions 0 buf) in *.
    assert (rev P !! (k - 1) = P !! (length P - k)) as Hrev.
    { rewrite rev_alt. change (rev_append P []) with (reverse P). rewrite reverse_lookup by lia. f_equal. lia. }
    rewrite Hrev. destruct (lookup_lt_is_Some_2 P (length P - k)) as [p Hp]; [lia|]. rewrite Hp.
    destruct (newline_position_split buf _ p Hp) as (a & b & Hbuf & Hlen & Hnl).
    exists a, b. split_and!; [done| |].
    + assert (length P = newlines buf) as HP by done. rewrite Hbuf in HP.
      rewrite newlines_app, newlines_cons, bool_decide_true in HP by done. lia.
    + rewrite Hbuf at 1. rewrite <- Hlen. f_equal. f_equal. f_equal.
      change (S (length a)) with (1 + length a). rewrite Nat.add_comm, <- drop_drop, drop_app_length.
      done.
Qed.

Lemma tail_loop_spec fuel file body n s :
  tail_pos s < fuel → tail_pos s ≤ length file → 1 ≤ buffer_len s → at_end s = false →
  body = take (tail_pos s) file ++ tail_output s →
  1 ≤ tail_left s → newlines (tail_output s) + tail_left s = n →
  ∃ r, tail_loop fuel file s = Some r ∧ last_lines n body r.
Proof.
  revert s. induction fuel as [|fuel IH]; intros s Hfuel Hpos Hbuf Hend Hbody Hleft Hn; [lia|].
  cbn [tail_loop]. rewrite (proj2 (Nat.ltb_lt 0 (tail_left s))) by lia. cbn [andb].
  destruct (Nat.ltb_spec 0 (tail_pos s)) as [Hp|Hp].
  2: { eexists. split; [done|]. exists []. replace (tail_pos s) with 0 in Hbody by lia. simpl in Hbody.
       split; [done|]. left. split; [done|lia]. }
  rewrite Hend. set (new_pos := tail_pos s - buffer_len s).
  set (buffer := take (tail_pos s - new_pos) (drop new_pos file)).
  assert (take (tail_pos s) file = take new_pos file ++ buffer) as Hsplit.
  { unfold buffer. rewrite take_take_drop. f_equal. lia. }
  destruct (scan_chunk_cases buffer (tail_left s) Hleft) as [[Hlt ->]|(a & b & Hab & Hnb & ->)].
  - apply IH; cbn [tail_pos tail_left tail_output buffer_len at_end]; try done; try lia.
    + case_match; lia.
    + rewrite Hbody, Hsplit. by rewrite <- app_assoc.
    + rewrite newlines_app. lia.
  - eexists. split; [done|]. exists (take new_pos file ++ a ++ [newline_byte]). split.
    + rewrite Hbody, Hsplit, Hab, <- !app_assoc. done.
    + right. split; [exists (take new_pos file ++ a); by rewrite app_assoc|].
      rewrite newlines_app. lia.
Qed.

Lemma read_last_n_lines_spec file n :
  1 ≤ n →
  ∃ r, read_last_n_lines (S (length file)) file n = Some r ∧ last_lines n (trimmed file) r.
Proof.
  intros Hn. unfold read_last_n_lines. cbn [tail_loop tail_pos tail_left].
  rewrite (proj2 (Nat.ltb_lt 0 n)) by lia. cbn [andb].
  destruct (Nat.ltb_spec 0 (length file)) as [Hp|Hp].
  2: { destruct file; [|simpl in Hp; lia]. eexists. split; [done|]. exists [].
       split; [done|]. left. split; [done|]. unfold newlines. simpl. lia. }
  cbn [at_end buffer_len tail_output estimated_line_length].
  set (new_pos := length file - INITIAL_BUFFER).
  replace (take (length file - new_pos) (drop new_pos file)) with (drop new_pos file)
    by (symmetry; apply take_ge; rewrite length_drop; lia).
  set (buf := trim_ascii_end (drop new_pos file)).
  assert (trimmed file = take new_pos file ++ buf) as Htrim by done.
  destruct (scan_chunk_cases buf n Hn) as [[Hlt ->]|(a & b & Hab & Hnb & ->)].
  - rewrite app_nil_r. apply tail_loop_spec; cbn [tail_pos tail_left tail_output buffer_len at_end];
      try done; try (unfold new_pos, INITIAL_BUFFER in *; case_match; lia);
      unfold new_pos, INITIAL_BUFFER in *; lia.
  - rewrite app_nil_r. eexists. split; [done|]. exists (take new_pos file ++ a ++ [newline_byte]). split.
    + rewrite Htrim, Hab, <- !app_assoc. done.
    + right. split; [exists (take new_pos file ++ a); by rewrite app_assoc|]. done.
Qed.

(** The last lines of a log.  For every file and every number of lines, reading
    backwards terminates and yields exactly the last lines of the file, however the chunk
    sizes are chosen on the way; white space at the end of the last chunk is cut off
    first. *)
Theorem read_last_n_lines_correct file n :
  1 ≤ n →
  ∃ r, read_last_n_lines (S (length file)) file n = Some r ∧ last_lines n (trimmed file) r.
Proof. apply read_last_n_lines_spec. Qed.

Lemma read_last_n_lines_correct_witness :
  ∃ r, read_last_n_lines 8 [Byte.x61; Byte.x0a; Byte.x62; Byte.x0a; Byte.x63; Byte.x0a; Byte.x0a] 2 = Some r ∧
       last_lines 2 [Byte.x61; Byte.x0a; Byte.x62; Byte.x0a; Byte.x63] r.
Proof.
  apply (read_last_n_lines_correct
           [Byte.x61; Byte.x0a; Byte.x62; Byte.x0a; Byte.x63; Byte.x0a; Byte.x0a] 2). lia.
Defined.
