(* ===== verification/Daemon.v ===== *)
(** * The daemon's event handlers

    Models the [Daemon] of [binaries/daemon/src/lib.rs] and its handlers for node,
    coordinator, inter-daemon and internal events, composed as [run_inner] composes them.
    A handler is a computation in a small state and error monad over the daemon: an
    [Err] is an error propagated with [?], which ends [run_inner]; [Panic] unwinds it.
    Events the daemon sends to itself, to the Zenoh drain task, to nodes and to the
    coordinator are collected in order.  Outside code enters as parameters: whether a
    Zenoh declaration succeeds, the content of a shared-memory region or of a log file, the
    checks of the working directory, and the outcome of preparing or spawning a process. *)

From Stdlib Require Import ZArith Lia.
From stdpp Require Import base gmap sets list strings.
From S2P Require Import Prelude Message Channel Pending Dataflow Routing Stderr Tail.

(** ** Events *)

Inductive DaemonNodeEvent :=
| OutputsDone (reply_sender : ReplyId)
| Subscribe (event_sender : SubId) (reply_sender : ReplyId)
| SubscribeDrop (event_sender : DropSubId) (reply_sender : ReplyId)
| CloseOutputs (outputs : list DataId) (reply_sender : ReplyId)
| SendOut (output_id : DataId) (metadata : Metadata) (data : option DataMessage)
| ReportDrop (tokens : list DropToken)
| EventStreamDropped (reply_sender : ReplyId).

Inductive DoraEvent :=
| DoraTimer (dataflow_id : DataflowId) (interval : Duration) (metadata : Metadata)
| DoraLogs (dataflow_id : DataflowId) (output_id : OutputId) (message : DataMessage)
    (metadata : Metadata)
| DoraLogBroadcast (dataflow_id : DataflowId) (log_message : LogMessage)
| SpawnedNodeResult (dataflow_id : DataflowId) (node_id : NodeId) (dynamic_node : bool)
    (exit_status : NodeExitStatus) (restart : bool) (restart_count : Z)
| ProcessHandleReplaced (dataflow_id : DataflowId) (node_id : NodeId) (new_handle : ProcId).

(** The part of [ResolvedNode] the daemon reads. *)
Record ResolvedNode := mkResolvedNode {
  resolved_id : NodeId;
  resolved_inputs : gmap DataId InputConfig;
  resolved_dynamic : bool;
  resolved_git_source : bool
}.

Record SpawnDataflowNodes := mkSpawn {
  spawn_build_id : option Uuid;
  spawn_dataflow_id : DataflowId;
  spawn_local_working_dir : option string;
  spawn_session_id : Uuid;
  spawn_all_nodes : gmap NodeId ResolvedNode;
  spawn_descriptor : list DescriptorNode;
  spawn_debug_inspection : bool;
  spawn_nodes : gset NodeId
}.

(** [AddNode] carries the outcome of preparing and spawning the process. *)
Inductive CoordinatorEvent :=
| CSpawn (request : SpawnDataflowNodes)
| CAllNodesReady (dataflow_id : DataflowId) (exited : list NodeId)
| CStopDataflow (dataflow_id : DataflowId) (grace_duration : option Duration) (force : bool)
| CLogs (dataflow_id : DataflowId) (node_id : NodeId) (tail : option nat)
| CReloadDataflow (dataflow_id : DataflowId) (node_id : NodeId) (operator_id : option OperatorId)
| CRestartNode (dataflow_id : DataflowId) (node_id : NodeId) (grace_duration : option Duration)
| CStopNode (dataflow_id : DataflowId) (node_id : NodeId) (grace_duration : option Duration)
| CSetParam (dataflow_id : DataflowId) (node_id : NodeId) (key value : string)
| CDeleteParam (dataflow_id : DataflowId) (node_id : NodeId) (key : string)
| CDestroy
| CHeartbeat
| CPeerDaemonDisconnected (daemon_id : string)
| CAddNode (dataflow_id : DataflowId) (node : ResolvedNode) (spawned : res RunningNode)
| CRemoveNode (dataflow_id : DataflowId) (node_id : NodeId) (grace_duration : option Duration)
| CAddMapping (dataflow_id : DataflowId) (source_output : OutputId)
    (target_node : NodeId) (target_input : DataId)
| CRemoveMapping (dataflow_id : DataflowId) (source_output : OutputId)
    (target_node : NodeId) (target_input : DataId)
| CStartTopicDebugStream (dataflow_id : DataflowId) (outputs : list OutputId) (subscription_id : Uuid)
| CStopTopicDebugStream (dataflow_id : DataflowId) (subscription_id : Uuid)
| CStateCatchUp (dataflow_id : DataflowId) (entries : list StateCatchUpEntry).

Inductive CoordinatorReply :=
| TriggerSpawnResult (r : res unit)
| LogsReply (r : res (list Byte.byte))
| ReloadResult (r : res unit)
| StopResult (r : res unit)
| DestroyResult
| RestartNodeResult (r : res unit)
| StopNodeResult (r : res unit)
| SetParamResult (r : res unit)
| DeleteParamResult (r : res unit)
| StartTopicDebugStreamResult (r : res unit)
| StopTopicDebugStreamResult (r : res unit).

Inductive Event :=
| ENode (dataflow_id : DataflowId) (node_id : NodeId) (event : DaemonNodeEvent)
| ECoordinator (event : CoordinatorEvent) (reply_tx : ReplyId)
| EDaemon (event : InterDaemonEvent)
| EDora (event : DoraEvent)
| EDynamicNode (node_id : NodeId) (reply_tx : ReplyId)
| EHeartbeatInterval
| EMetricsInterval
| ENodeHealthCheckInterval (now_millis : Z)
| ECtrlC
| EStopAfter
| ESecondCtrlC
| EDaemonError (err : string)
| ESpawnNodeResult (dataflow_id : DataflowId) (node_id : NodeId) (dynamic_node : bool)
    (result : RunningNode + NodeError)
| EBuildDataflowResult (build_id session_id : Uuid) (result : res (gset NodeId))
| ESpawnDataflowResult (dataflow_id : DataflowId) (result : res unit)
| ENodeStopped (dataflow_id : DataflowId) (node_id : NodeId).

(** ** State *)

Definition ZENOH_PUBLISH_CHANNEL_CAPACITY : nat := 256.

(** [builds] maps a build to the nodes it has a working directory for; [spawn_tasks] are
    the spawned tasks that run [spawn_prepared_nodes]; [coordinator_replies] and
    [events_tx] collect what was sent on the reply channels and on the daemon's own
    event channel. *)
Record Daemon := mkDaemon {
  running : gmap DataflowId RunningDataflow;
  working_dir : gmap DataflowId string;
  events_tx : list Event;
  io : Io;
  coordinator_replies : list (ReplyId * option CoordinatorReply);
  last_coordinator_heartbeat : Instant;
  exit_when_done : option (gset (DataflowId * NodeId));
  exit_when_all_finished : bool;
  dataflow_node_results : gmap DataflowId (gmap NodeId NodeResult);
  ft_stats : FaultToleranceStats;
  zenoh_queue : list (OutputId * InterDaemonEvent);
  zenoh_drain_alive : bool;
  has_remote_daemon_events_tx : bool;
  sessions : gmap Uuid Uuid;
  builds : gmap Uuid (gset NodeId);
  clones_in_use : gmap string (gset DataflowId);
  spawn_tasks : list (DataflowId * list (NodeId * bool))
}.

Definition upd_running f (d : Daemon) := {| d with running := f (running d) |}.
Definition upd_working_dir f (d : Daemon) := {| d with working_dir := f (working_dir d) |}.
Definition upd_events_tx f (d : Daemon) := {| d with events_tx := f (events_tx d) |}.
Definition upd_io f (d : Daemon) := {| d with io := f (io d) |}.
Definition upd_coordinator_replies f (d : Daemon) :=
  {| d with coordinator_replies := f (coordinator_replies d) |}.
Definition upd_last_coordinator_heartbeat f (d : Daemon) :=
  {| d with last_coordinator_heartbeat := f (last_coordinator_heartbeat d) |}.
Definition upd_exit_when_done f (d : Daemon) := {| d with exit_when_done := f (exit_when_done d) |}.
Definition upd_exit_when_all_finished f (d : Daemon) :=
  {| d with exit_when_all_finished := f (exit_when_all_finished d) |}.
Definition upd_dataflow_node_results f (d : Daemon) :=
  {| d with dataflow_node_results := f (dataflow_node_results d) |}.
Definition upd_ft_stats f (d : Daemon) := {| d with ft_stats := f (ft_stats d) |}.
Definition upd_zenoh_queue f (d : Daemon) := {| d with zenoh_queue := f (zenoh_queue d) |}.
Definition upd_sessions f (d : Daemon) := {| d with sessions := f (sessions d) |}.
Definition upd_builds f (d : Daemon) := {| d with builds := f (builds d) |}.
Definition upd_clones_in_use f (d : Daemon) := {| d with clones_in_use := f (clones_in_use d) |}.
Definition upd_spawn_tasks f (d : Daemon) := {| d with spawn_tasks := f (spawn_tasks d) |}.

(** ** The handler monad *)

Definition DM (A : Type) : Type := Daemon → res A * Daemon.

#[export] Instance DM_ret : MRet DM := λ A a d, (Ok a, d).
#[export] Instance DM_bind : MBind DM := λ A B f m d,
  match m d with
  | (Ok a, d) => f a d
  | (Err e, d) => (Err e, d)
  | (Panic, d) => (Panic, d)
  end.

Lemma DM_bind_Ok {A B} (m : DM A) (f : A → DM B) d a d' :
  m d = (Ok a, d') → (m ≫= f) d = f a d'.
Proof. intros Hm. unfold mbind, DM_bind. by rewrite Hm. Qed.

Definition gets {A} (f : Daemon → A) : DM A := λ d, (Ok (f d), d).
Definition modify (f : Daemon → Daemon) : DM unit := λ d, (Ok tt, f d).
Definition fail {A} (e : string) : DM A := λ d, (Err e, d).
Definition lift {A} (r : res A) : DM A := λ d, (r, d).
(** The result of a computation, with its error caught. *)
Definition catch {A} (m : DM A) : DM (res A) := λ d,
  match m d with
  | (Panic, d) => (Panic, d)
  | (r, d) => (Ok r, d)
  end.

Definition modify_dataflow (id : DataflowId) (df : RunningDataflow) : DM unit :=
  modify (upd_running <[id := df]>).
Definition reply_to (to : ReplyId) (r : DaemonReply) : DM unit :=
  modify (upd_io (λ io, reply io to r)).
Definition coordinator_reply (to : ReplyId) (r : option CoordinatorReply) : DM unit :=
  modify (upd_coordinator_replies (λ l, l ++ [(to, r)])).
Definition send_self (event : Event) : DM unit := modify (upd_events_tx (λ l, l ++ [event])).

(** [sender.send_event(..).await], where an error is returned. *)
Definition notify_coordinator (event : DaemonEvent) : DM unit := λ d,
  match coordinator_sender (io d) with
  | Some sender =>
      let '(r, sender) := send_event sender event in
      (r, upd_io (λ io, {| io with coordinator_sender := Some sender |}) d)
  | None => (Ok tt, d)
  end.

(** [self.running.get_mut(&dataflow_id).wrap_err(..)?]. *)
Definition get_dataflow (id : DataflowId) (err : string) : DM RunningDataflow := λ d,
  (res_of_option err (running d !! id), d).

(** An operation on the pending nodes of a dataflow. *)
Definition run_pending {A} (id : DataflowId) (df : RunningDataflow)
    (f : PendingCtx → res A * PendingCtx) : DM A := λ d,
  let '(r, df, io) := with_pending df (io d) f in
  (r, upd_io (λ _, io) (upd_running <[id := df]> d)).

Definition insert_node_result (id : DataflowId) (node_id : NodeId) (r : NodeResult) : DM unit :=
  modify (upd_dataflow_node_results
    (λ m, <[id := <[node_id := r]> (default ∅ (m !! id))]> m)).

Section daemon.
Context `{HashOrder}.

(** Whether declaring a Zenoh publisher or subscriber for an output succeeds, and the
    content of a shared-memory region (or [None] when it cannot be mapped). *)
Context (declare_publisher declare_subscriber : OutputId → bool).
Context (read_shmem : string → option (list Byte.byte)).

(** ** Outputs *)

Definition send_to_remote_receivers (dataflow_id : DataflowId) (output_id : OutputId)
    (event : InterDaemonEvent) : DM unit :=
  df ← get_dataflow dataflow_id "send out failed: no running dataflow";
  if bool_decide (output_id ∈ publishers df) || declare_publisher output_id then
    modify_dataflow dataflow_id (upd_publishers (union {[output_id]}) df);;
    modify (λ d,
      if zenoh_drain_alive d && (length (zenoh_queue d) <? ZENOH_PUBLISH_CHANNEL_CAPACITY)%nat
      then upd_zenoh_queue (λ q, q ++ [(output_id, event)]) d
      else d)
  else fail "failed to create zenoh publisher".

Definition send_topic_debug_frames (dataflow_id : DataflowId) (output_id : OutputId)
    (event : InterDaemonEvent) : DM unit := λ d,
  match coordinator_sender (io d), running d !! dataflow_id with
  | Some sender, Some df =>
      match debug_topic_watchers df !! output_id with
      | Some ids =>
          (* try_send_event: dropped with a warning when full or closed *)
          if ws_open sender && negb (ws_full sender) then
            let message := EvTopicDebugData dataflow_id (btree_elems ids) event in
            (Ok tt, upd_io (λ io, {| io with coordinator_sender :=
                                       Some {| sender with sent := sent sender ++ [message] |} |}) d)
          else (Ok tt, d)
      | None => (Ok tt, d)
      end
  | _, _ => (Ok tt, d)
  end.

Definition local_output (now : Instant) (dataflow_id : DataflowId) (df : RunningDataflow)
    (node_id : NodeId) (output_id : DataId) (metadata : Metadata) (data : option DataMessage)
    (need_data_bytes : bool) : DM (option (list Byte.byte)) := λ d,
  let '(r, df, stats) :=
    send_output_to_local_receivers read_shmem now df (ft_stats d) node_id output_id metadata data
      need_data_bytes in
  (r, upd_ft_stats (λ _, stats) (upd_running <[dataflow_id := df]> d)).

Definition send_out (now : Instant) (dataflow_id : DataflowId) (node_id : NodeId)
    (output_id : DataId) (metadata : Metadata) (data : option DataMessage) : DM unit :=
  df ← get_dataflow dataflow_id "send out failed: no running dataflow";
  let key := (node_id, output_id) in
  let remote_receivers :=
    bool_decide (key ∈ open_external_mappings df) || enable_debug_inspection df in
  let has_debug_watchers := bool_decide (is_Some (debug_topic_watchers df !! key)) in
  data_bytes ← local_output now dataflow_id df node_id output_id metadata data remote_receivers;
  if negb remote_receivers && negb has_debug_watchers then mret tt
  else
    let event := InterOutput dataflow_id node_id output_id metadata data_bytes in
    (if has_debug_watchers then send_topic_debug_frames dataflow_id key event else mret tt);;
    (if remote_receivers then send_to_remote_receivers dataflow_id key event else mret tt).

Fixpoint send_closed_events (dataflow_id : DataflowId) (closed : list OutputId) : DM unit :=
  match closed with
  | [] => mret tt
  | o :: closed =>
      send_to_remote_receivers dataflow_id o (InterOutputClosed dataflow_id o.1 o.2);;
      send_closed_events dataflow_id closed
  end.

Definition send_output_closed_events (dataflow_id : DataflowId) (node_id : NodeId)
    (outputs : list DataId) : DM unit :=
  df ← get_dataflow dataflow_id "no running dataflow";
  modify_dataflow dataflow_id (close_local_receivers df node_id outputs);;
  send_closed_events dataflow_id
    (retain (λ o, bool_decide (o.1 = node_id) && bool_decide (o.2 ∈ outputs))
       (btree_elems (open_external_mappings df))).

(** ** End of a node and of a dataflow *)

(** The outputs of a node that have local receivers. *)
Definition mapped_outputs (df : RunningDataflow) (node_id : NodeId) : list DataId :=
  (retain (λ o, bool_decide (o.1 = node_id)) (hash_keys (mappings df))).*2.

Definition handle_outputs_done (dataflow_id : DataflowId) (node_id : NodeId)
    (might_restart : bool) : DM unit :=
  df ← get_dataflow dataflow_id "no running dataflow";
  let outputs := mapped_outputs df node_id in
  (if might_restart then mret tt else send_output_closed_events dataflow_id node_id outputs);;
  df ← get_dataflow dataflow_id "no running dataflow";
  modify_dataflow dataflow_id (upd_drop_channels (delete node_id) df).

(** The handles of the running nodes of a dataflow are dropped with it. *)
Definition finish_dataflow (dataflow_id : DataflowId) : DM unit :=
  results ← gets (λ d, default ∅ (dataflow_node_results d !! dataflow_id));
  modify (upd_clones_in_use (fmap (λ dataflows, dataflows ∖ {[dataflow_id]})));;
  notify_coordinator (EvAllNodesFinished dataflow_id results);;
  modify (upd_running (alter (upd_listener_shutdown (λ _, true)) dataflow_id));;
  modify (upd_running (delete dataflow_id)).

(** Dropping the [RunningNode] of a removed node drops its process handle. *)
Definition remove_running_node (df : RunningDataflow) (node_id : NodeId) : RunningDataflow :=
  let df1 := upd_running_nodes (delete node_id) df in
  match running_nodes df !! node_id with
  | Some node => match process node with Some p => drop_process df1 p | None => df1 end
  | None => df1
  end.

Definition only_dynamic_left (df : RunningDataflow) : bool :=
  negb (local_nodes_pending (pending_nodes df))
  && forallb (λ '(_, n), dynamic (node_config n)) (btree_iter (running_nodes df)).

Definition handle_node_stop_inner (dataflow_id : DataflowId) (node_id : NodeId)
    (dynamic_node : bool) : DM unit :=
  found ← gets (λ d, running d !! dataflow_id);
  match found with
  | None =>
      if dynamic_node then mret tt
      else fail "failed to get downstream nodes: no running dataflow"
  | Some df =>
      run_pending dataflow_id df (λ c, pending_node_stop c node_id);;
      handle_outputs_done dataflow_id node_id false;;
      df ← get_dataflow dataflow_id "failed to get downstream nodes: no running dataflow";
      let df := remove_running_node df node_id in
      modify_dataflow dataflow_id df;;
      if only_dynamic_left df then finish_dataflow dataflow_id else mret tt
  end.

Definition handle_node_stop (dataflow_id : DataflowId) (node_id : NodeId) (dynamic_node : bool)
    : DM unit :=
  result ← catch (handle_node_stop_inner dataflow_id node_id dynamic_node);
  send_self (ENodeStopped dataflow_id node_id);;
  lift result.

(** ** Node events *)

Definition might_restart (d : Daemon) (dataflow_id : DataflowId) (node_id : NodeId) : option bool :=
  df ← running d !! dataflow_id;
  node ← running_nodes df !! node_id;
  Some (match restart_policy node with
        | Never => false
        | _ => negb (restarts_disabled node)
        end).

(** The handles in a request are fresh; the objects behind them are put into the store
    when the request is handled. *)
Definition handle_subscribe (dataflow_id : DataflowId) (node_id : NodeId)
    (event_sender : SubId) (reply_sender : ReplyId) : DM unit :=
  found ← gets (λ d, running d !! dataflow_id);
  match found with
  | None => reply_to reply_sender (ReplyResult (Err "subscribe failed: no running dataflow"))
  | Some df =>
      let df := upd_subscriptions <[event_sender := new_subscription]> df in
      let df := upd_pending_messages <[node_id := event_sender]> df in
      let df := subscribe df node_id event_sender in
      status ← run_pending dataflow_id df (λ c, handle_node_subscription c node_id reply_sender);
      df ← get_dataflow dataflow_id "unreachable";
      match status with
      | AllNodesReady =>
          if dataflow_started df then mret tt
          else modify_dataflow dataflow_id (upd_dataflow_started (λ _, true) (start df))
      | StatusPending => mret tt
      end
  end.

Definition handle_node_event (now : Instant) (event : DaemonNodeEvent)
    (dataflow_id : DataflowId) (node_id : NodeId) : DM unit :=
  match event with
  | Subscribe event_sender reply_sender =>
      handle_subscribe dataflow_id node_id event_sender reply_sender
  | SubscribeDrop event_sender reply_sender =>
      found ← gets (λ d, running d !! dataflow_id);
      match found with
      | Some df =>
          modify_dataflow dataflow_id
            (upd_drop_channels <[node_id := event_sender]>
               (upd_drop_subscriptions <[event_sender := mkDropSub [] true]> df));;
          reply_to reply_sender (ReplyResult (Ok tt))
      | None =>
          reply_to reply_sender (ReplyResult (Err "failed to subscribe: no running dataflow"))
      end
  | CloseOutputs outputs reply_sender =>
      restart ← gets (λ d, default false (might_restart d dataflow_id node_id));
      r ← (if restart : bool then mret (Ok tt)
           else catch (send_output_closed_events dataflow_id node_id outputs));
      reply_to reply_sender (ReplyResult r)
  | OutputsDone reply_sender =>
      restart ← gets (λ d, default false (might_restart d dataflow_id node_id));
      r ← catch (handle_outputs_done dataflow_id node_id restart);
      reply_to reply_sender (ReplyResult r)
  | SendOut output_id metadata data =>
      send_out now dataflow_id node_id output_id metadata data
  | ReportDrop tokens =>
      modify (upd_running (alter (λ df, report_drop df node_id tokens) dataflow_id))
  | EventStreamDropped reply_sender =>
      found ← gets (λ d, running d !! dataflow_id);
      match found with
      | Some df =>
          modify_dataflow dataflow_id (upd_subscribe_channels (delete node_id) df);;
          reply_to reply_sender (ReplyResult (Ok tt))
      | None => reply_to reply_sender (ReplyResult (Err "no running dataflow"))
      end
  end.

(** ** Internal events *)

Definition STDERR_LOG_LINES_MAX : nat := 500.

(** Draining the ring buffer of recent stderr lines. *)
Definition drained_lines (queue : list string) : list string :=
  if (STDERR_LOG_LINES_MAX <=? length queue)%nat then "[...]" :: queue else queue.

(** The cause of an unsuccessful exit, and the dataflow with the stderr lines drained. *)
Definition exit_cause (df : option RunningDataflow) (node_id : NodeId)
    : NodeErrorCause * option RunningDataflow :=
  match df ≫= λ df, error_caused_by (cascading_error_causes df) node_id with
  | Some caused_by_node => (Cascading caused_by_node, df)
  | None =>
      if default false ((λ df, bool_decide (node_id ∈ grace_duration_kills df)) <$> df)
      then (GraceDuration, df)
      else match df ≫= λ df, node_stderr_most_recent df !! node_id with
           | Some queue =>
               (OtherCause (extract_err_from_stderr (drained_lines queue)),
                upd_node_stderr_most_recent <[node_id := []]> <$> df)
           | None => (OtherCause [], df)
           end
  end.

Definition node_result (dataflow_id : DataflowId) (node_id : NodeId) (status : NodeExitStatus)
    : DM NodeResult := λ d,
  match status with
  | ExitSuccess => (Ok (inl tt), d)
  | _ =>
      let '(cause, df) := exit_cause (running d !! dataflow_id) node_id in
      (Ok (inr (mkNodeError cause status)),
       match df with Some df => upd_running <[dataflow_id := df]> d | None => d end)
  end.

Definition handle_spawned_node_result (dataflow_id : DataflowId) (node_id : NodeId)
    (dynamic_node : bool) (status : NodeExitStatus) (restart : bool) : DM unit :=
  result ← node_result dataflow_id node_id status;
  if restart then
    modify (upd_running (alter (λ df, notify_downstream_restarted df node_id) dataflow_id))
  else
    match result with
    | inr e =>
        modify (upd_running
          (alter (λ df, notify_downstream_failed df node_id (display_node_error e)) dataflow_id))
    | inl _ => mret tt
    end;;
    insert_node_result dataflow_id node_id result;;
    handle_node_stop dataflow_id node_id dynamic_node.

(** Overwriting a node's process handle drops the old one. *)
Definition replace_process (df : RunningDataflow) (node_id : NodeId) (new_handle : ProcId)
    : RunningDataflow :=
  match running_nodes df !! node_id with
  | Some node =>
      let df := upd_processes <[new_handle := mkProc [] true]> df in
      let df := match process node with Some p => drop_process df p | None => df end in
      upd_running_nodes <[node_id := {| node with process := Some new_handle |}]> df
  | None => df
  end.

Definition handle_dora_event (event : DoraEvent) : DM unit :=
  match event with
  | DoraTimer dataflow_id interval metadata =>
      modify (upd_running (alter (λ df, handle_timer df interval metadata) dataflow_id))
  | DoraLogs dataflow_id output_id message metadata =>
      modify (upd_running (alter (λ df, handle_logs df output_id message metadata) dataflow_id))
  | DoraLogBroadcast dataflow_id log_message =>
      modify (upd_running (alter (λ df, handle_log_broadcast df log_message) dataflow_id))
  | SpawnedNodeResult dataflow_id node_id dynamic_node status restart _ =>
      handle_spawned_node_result dataflow_id node_id dynamic_node status restart
  | ProcessHandleReplaced dataflow_id node_id new_handle =>
      modify (upd_running (alter (λ df, replace_process df node_id new_handle) dataflow_id))
  end.

(** ** Inter-daemon events: an error is logged, not returned. *)

Definition handle_inter_daemon_event (now : Instant) (event : InterDaemonEvent) : DM unit :=
  match event with
  | InterOutput dataflow_id node_id output_id metadata data =>
      catch (
        df ← get_dataflow dataflow_id "send out failed: no running dataflow";
        local_output now dataflow_id df node_id output_id metadata (DMVec <$> data) false);;
      mret tt
  | InterOutputClosed dataflow_id node_id output_id =>
      modify (upd_running (alter (λ df,
        match mappings df !! (node_id, output_id) with
        | Some inputs => close_inputs df (btree_elems inputs)
        | None => df
        end) dataflow_id))
  end.

(** ** Periodic checks *)

Definition is_unresponsive (now_millis : Z) (node : RunningNode) : bool :=
  match health_check_timeout node with
  | None => false
  | Some t =>
      negb (last_activity node =? 0)%Z
      && (u64_wrap (t / 1000000) <? saturating_sub now_millis (last_activity node))%Z
  end.

Definition check_health_of (now_millis : Z) (acc : RunningDataflow * FaultToleranceStats)
    (entry : NodeId * RunningNode) : RunningDataflow * FaultToleranceStats :=
  let '(df, stats) := acc in
  if is_unresponsive now_millis entry.2 then
    (match process entry.2 with Some p => (submit_to df p Kill).2 | None => df end,
     {| stats with health_check_kills := fetch_add (health_check_kills stats) 1 |})
  else acc.

(** A check of every running dataflow, threading the statistics. *)
Definition for_each_dataflow
    (check : RunningDataflow → FaultToleranceStats → RunningDataflow * FaultToleranceStats)
    (d : Daemon) : Daemon :=
  foldl (λ d '(id, df),
    let '(df, stats) := check df (ft_stats d) in
    upd_ft_stats (λ _, stats) (upd_running <[id := df]> d))
    d (hash_iter (running d)).

Definition check_node_health (now_millis : Z) : DM unit :=
  modify (for_each_dataflow (λ df stats,
    foldl (check_health_of now_millis) (df, stats) (btree_iter (running_nodes df)))).

Definition check_all_input_timeouts (now : Instant) : DM unit :=
  modify (for_each_dataflow (check_input_timeouts now)).

(** ** Stopping *)

Definition run_stop_all (dataflow_id : DataflowId) (grace_duration : option Duration)
    (force : bool) (df : RunningDataflow) : DM FinishDataflowWhen := λ d,
  let '(r, df, io) := stop_all df (io d) grace_duration force in
  (r, upd_io (λ _, io) (upd_running <[dataflow_id := df]> d)).

Fixpoint stop_dataflows (dataflows : list DataflowId) : DM (list DataflowId) :=
  match dataflows with
  | [] => mret []
  | id :: dataflows =>
      df ← get_dataflow id "unreachable";
      finish_when ← run_stop_all id None false df;
      rest ← stop_dataflows dataflows;
      mret (match finish_when with Now => df_id df :: rest | WaitForNodes => rest end)
  end.

Fixpoint finish_dataflows (dataflows : list DataflowId) : DM unit :=
  match dataflows with
  | [] => mret tt
  | id :: dataflows => finish_dataflow id;; finish_dataflows dataflows
  end.

Definition trigger_manual_stop : DM unit :=
  ids ← gets (λ d, hash_keys (running d));
  dataflows_to_finish ← stop_dataflows ids;
  finish_dataflows dataflows_to_finish;;
  modify (upd_exit_when_all_finished (λ _, true)).

(** ** Spawning *)

(** Whether a path exists, the daemon's working directory, the text of a UUID; the error
    of preparing a node's command or of its build task, if any, and the outcome of
    starting it. *)
Context (path_exists : string → bool) (current_dir : res string) (uuid_text : Uuid → string).
Context (spawn_node prepare_node : NodeId → option string)
        (start_node : NodeId → res RunningNode).

Definition base_working_dir (local_working_dir : option string) (session_id : Uuid) : res string :=
  match local_working_dir with
  | Some working_dir =>
      if path_exists working_dir then Ok working_dir
      else Err (String.append "working directory does not exist: " working_dir)
  | None =>
      daemon_working_dir ← current_dir;
      Ok (String.append daemon_working_dir (String.append "/_work/" (uuid_text session_id)))
  end.

(** First loop: the routing tables. *)
Definition register_external_input (df : RunningDataflow) (input : InputConfig) : RunningDataflow :=
  match mapping input with
  | MUser m => upd_open_external_mappings (union {[(source m, output m)]}) df
  | _ => df
  end.

Definition register_node (spawn_nodes : gset NodeId) (df : RunningDataflow) (node : ResolvedNode)
    : res RunningDataflow :=
  if bool_decide (resolved_id node ∈ spawn_nodes)
  then register_inputs df (resolved_id node) (btree_iter (resolved_inputs node))
  else Ok (foldl (λ df entry, register_external_input df entry.2) df
             (btree_iter (resolved_inputs node))).

Fixpoint register_nodes (spawn_nodes : gset NodeId) (df : RunningDataflow)
    (nodes : list ResolvedNode) : res RunningDataflow :=
  match nodes with
  | [] => Ok df
  | node :: nodes =>
      df ← register_node spawn_nodes df node;
      register_nodes spawn_nodes df nodes
  end.

(** [node_stderr_most_recent.entry(node_id).or_insert_with(..)]. *)
Definition ensure_stderr (node_id : NodeId) (df : RunningDataflow) : RunningDataflow :=
  match node_stderr_most_recent df !! node_id with
  | Some _ => df
  | None => upd_node_stderr_most_recent <[node_id := []]> df
  end.

(** Second loop, for a local node; [None] is a node that failed to spawn. *)
Definition spawn_local_node (dataflow_id : DataflowId) (node_dirs : gset NodeId)
    (node : ResolvedNode) : DM (option (NodeId * bool)) :=
  let node_id := resolved_id node in
  df ← get_dataflow dataflow_id "unreachable";
  let df := if resolved_dynamic node then upd_dynamic_nodes (union {[node_id]}) df
            else upd_pending_nodes (λ p, pending_insert p node_id) df in
  modify_dataflow dataflow_id (ensure_stderr node_id df);;
  if negb (bool_decide (node_id ∈ node_dirs)) && resolved_git_source node
  then fail "node has git source, but no git clone directory was found for it"
  else match spawn_node node_id with
       | None => mret (Some (node_id, resolved_dynamic node))
       | Some err =>
           insert_node_result dataflow_id node_id
             (inr (mkNodeError (FailedToSpawn err) UnknownExit));;
           mret None
       end.

(** Second loop, for a node of another daemon: declaring the subscribers for the outputs
    that are mapped to local inputs. *)
Fixpoint declare_subscribers (outputs : list OutputId) : DM unit :=
  match outputs with
  | [] => mret tt
  | o :: outputs =>
      has_tx ← gets has_remote_daemon_events_tx;
      if negb has_tx then fail "no remote_daemon_events_tx channel"
      else if declare_subscriber o then declare_subscribers outputs
      else fail "failed to subscribe"
  end.

Definition spawn_remote_node (dataflow_id : DataflowId) (node : ResolvedNode) : DM unit :=
  df ← get_dataflow dataflow_id "unreachable";
  modify_dataflow dataflow_id (upd_pending_nodes (λ p, set_external_nodes p true) df);;
  declare_subscribers (retain (λ o, bool_decide (o.1 = resolved_id node)) (hash_keys (mappings df))).

(** The tasks of the nodes that could be spawned and the nodes that could not. *)
Fixpoint spawn_nodes_loop (dataflow_id : DataflowId) (node_dirs local : gset NodeId)
    (nodes : list ResolvedNode) : DM (list (NodeId * bool) * list (NodeId * bool)) :=
  match nodes with
  | [] => mret ([], [])
  | node :: nodes =>
      if bool_decide (resolved_id node ∈ local) then
        task ← spawn_local_node dataflow_id node_dirs node;
        rest ← spawn_nodes_loop dataflow_id node_dirs local nodes;
        mret (match task with
              | Some t => (t :: rest.1, rest.2)
              | None => (rest.1, (resolved_id node, resolved_dynamic node) :: rest.2)
              end)
      else
        spawn_remote_node dataflow_id node;;
        spawn_nodes_loop dataflow_id node_dirs local nodes
  end.

Fixpoint stop_failed_nodes (dataflow_id : DataflowId) (stopped : list (NodeId * bool)) : DM unit :=
  match stopped with
  | [] => mret tt
  | n :: stopped => handle_node_stop dataflow_id n.1 n.2;; stop_failed_nodes dataflow_id stopped
  end.

Definition spawn_dataflow (request : SpawnDataflowNodes) (working_dir : string)
    : DM (list (NodeId * bool)) :=
  let dataflow_id := spawn_dataflow_id request in
  let nodes := (btree_iter (spawn_all_nodes request)).*2 in
  found ← gets (λ d, running d !! dataflow_id);
  match found with
  | Some _ => fail "there is already a running dataflow with this ID"
  | None =>
      let df := dataflow_new dataflow_id (spawn_descriptor request) (spawn_debug_inspection request) in
      modify (upd_working_dir <[dataflow_id := working_dir]>);;
      modify_dataflow dataflow_id df;;
      build_info ← gets (λ d, spawn_build_id request ≫= λ b, builds d !! b);
      if existsb resolved_git_source nodes && bool_decide (build_info = None)
      then fail "node has git source, but no `dora build` was run yet"
      else
        df ← lift (register_nodes (spawn_nodes request) df nodes);
        modify_dataflow dataflow_id df;;
        tasks ← spawn_nodes_loop dataflow_id (default ∅ build_info) (spawn_nodes request) nodes;
        stop_failed_nodes dataflow_id tasks.2;;
        mret tasks.1
  end.

(** [spawn_prepared_nodes], which runs as a task of its own: the events it sends to the
    daemon and its result. *)
Definition failed_spawn (dataflow_id : DataflowId) (task : NodeId * bool) (cause : NodeErrorCause)
    : Event :=
  ESpawnNodeResult dataflow_id task.1 task.2 (inr (mkNodeError cause UnknownExit)).

Fixpoint start_prepared (dataflow_id : DataflowId) (tasks : list (NodeId * bool))
    : list Event * res unit :=
  match tasks with
  | [] => ([], Ok tt)
  | task :: tasks =>
      let '(events, result) := start_prepared dataflow_id tasks in
      match start_node task.1 with
      | Err err =>
          (failed_spawn dataflow_id task (FailedToSpawn (String.append "spawn failed: " err)) :: events,
           match result with
           | Panic => Panic
           | _ => Err (String.append "failed to spawn " task.1)
           end)
      | Ok node => (ESpawnNodeResult dataflow_id task.1 task.2 (inl node) :: events, result)
      | Panic => ([], Panic)
      end
  end.

Definition spawn_prepared_nodes (dataflow_id : DataflowId) (tasks : list (NodeId * bool))
    : list Event * res unit :=
  let failed := omap (λ t, (λ err, (t, err)) <$> prepare_node t.1) tasks in
  let prepared_nodes := retain (λ t, bool_decide (prepare_node t.1 = None)) tasks in
  match failed with
  | (first, _) :: _ =>
      (((λ '(t, err), failed_spawn dataflow_id t
           (FailedToSpawn (String.append "preparing for spawn failed: " err))) <$> failed)
       ++ ((λ t, failed_spawn dataflow_id t (Cascading first.1)) <$> prepared_nodes),
       Err (String.append "failed to prepare node " first.1))
  | [] => start_prepared dataflow_id prepared_nodes
  end.
(** Such a task runs to its end. *)
Definition run_spawn_task (d : Daemon) : Daemon :=
  match spawn_tasks d with
  | [] => d
  | (dataflow_id, tasks) :: rest =>
      let '(events, result) := spawn_prepared_nodes dataflow_id tasks in
      let events := match result with
                    | Panic => events
                    | _ => events ++ [ESpawnDataflowResult dataflow_id result]
                    end in
      upd_spawn_tasks (λ _, rest) (upd_events_tx (λ l, l ++ events) d)
  end.

(** ** Coordinator events *)

Inductive RunStatus := Continue | Exit.

Definition handle_spawn (request : SpawnDataflowNodes) (reply_tx : ReplyId) : DM unit :=
  working_dir ← lift (base_working_dir (spawn_local_working_dir request) (spawn_session_id request));
  result ← catch (spawn_dataflow request working_dir);
  coordinator_reply reply_tx (Some (TriggerSpawnResult (const tt <$> result)));;
  match result with
  | Ok tasks => modify (upd_spawn_tasks (λ l, l ++ [(spawn_dataflow_id request, tasks)]))
  | _ => mret tt
  end.

(** The content of a node's log file, or [None] when it cannot be opened. *)
Context (log_file : DataflowId → NodeId → option (list Byte.byte)).

Definition read_log (dataflow_id : DataflowId) (node_id : NodeId) (tail : option nat)
    : res (list Byte.byte) :=
  match log_file dataflow_id node_id with
  | None => Err "Could not open log file"
  | Some file =>
      contents ← match tail with
                 | None | Some O => Ok file
                 | Some tail =>
                     res_of_option "Could not read last n lines of log file"
                       (read_last_n_lines (S (length file)) file tail)
                 end;
      Ok (if bool_decide (last contents = Some newline_byte) then contents
          else (contents ++ [newline_byte])%list)
  end.

(** The file is read by a task of its own, which sends the reply. *)
Definition handle_logs_request (dataflow_id : DataflowId) (node_id : NodeId) (tail : option nat)
    (reply_tx : ReplyId) : DM unit :=
  dir ← gets (λ d, working_dir d !! dataflow_id);
  coordinator_reply reply_tx
    (match dir with
     | Some _ => Some (LogsReply (read_log dataflow_id node_id tail))
     | None => None
     end).

(** A method of a dataflow that returns a result for the coordinator. *)
Definition with_dataflow (dataflow_id : DataflowId)
    (f : RunningDataflow → res unit * RunningDataflow) : DM (res unit) := λ d,
  match running d !! dataflow_id with
  | Some df => let '(r, df) := f df in (Ok r, upd_running <[dataflow_id := df]> d)
  | None => (Ok (Err "no running dataflow"), d)
  end.

Definition update_dataflow (dataflow_id : DataflowId) (f : RunningDataflow → RunningDataflow)
    : DM unit :=
  modify (upd_running (alter f dataflow_id)).

Definition handle_all_nodes_ready (dataflow_id : DataflowId) (exited : list NodeId) : DM unit :=
  found ← gets (λ d, running d !! dataflow_id);
  match found with
  | Some df =>
      run_pending dataflow_id df (λ c, handle_external_all_nodes_ready c exited);;
      if bool_decide (exited = []) then update_dataflow dataflow_id start else mret tt
  | None => mret tt
  end.

Definition handle_stop_dataflow (dataflow_id : DataflowId) (grace_duration : option Duration)
    (force : bool) (reply_tx : ReplyId) : DM unit :=
  found ← gets (λ d, running d !! dataflow_id);
  match found with
  | Some df =>
      coordinator_reply reply_tx (Some (StopResult (Ok tt)));;
      finish_when ← run_stop_all dataflow_id grace_duration force df;
      match finish_when with
      | Now => finish_dataflow dataflow_id
      | WaitForNodes => mret tt
      end
  | None => coordinator_reply reply_tx (Some (StopResult (Err "no running dataflow")))
  end.

(** The registration is done after the process has been spawned; errors are logged. *)
Definition handle_add_node (dataflow_id : DataflowId) (node : ResolvedNode)
    (spawned : res RunningNode) : DM unit :=
  found ← gets (λ d, running d !! dataflow_id);
  match found with
  | None => mret tt
  | Some df =>
      let df := ensure_stderr (resolved_id node) df in
      modify_dataflow dataflow_id df;;
      match spawned with
      | Ok running_node =>
          let df := match process running_node with
                    | Some p => upd_processes <[p := mkProc [] true]> df
                    | None => df
                    end in
          df ← lift (add_node df (resolved_id node) (resolved_inputs node)
                       (resolved_dynamic node) running_node);
          modify_dataflow dataflow_id df
      | Err _ => mret tt
      | Panic => lift Panic
      end
  end.

Definition handle_state_catch_up (dataflow_id : DataflowId) (entries : list StateCatchUpEntry)
    : DM unit :=
  found ← gets (λ d, running d !! dataflow_id);
  match found with
  | Some df =>
      let '(applied_through, df) := apply_state_catch_up_entries df 0 entries in
      modify_dataflow dataflow_id df;;
      if (0 <? applied_through)%Z
      then catch (notify_coordinator (EvStateCatchUpAck dataflow_id applied_through));; mret tt
      else mret tt
  | None => mret tt
  end.

Definition handle_coordinator_event (now : Instant) (event : CoordinatorEvent) (reply_tx : ReplyId)
    : DM RunStatus :=
  let no_reply := coordinator_reply reply_tx None;; mret Continue in
  let reply_result (f : res unit → CoordinatorReply) (r : res unit) :=
    coordinator_reply reply_tx (Some (f r));; mret Continue in
  match event with
  | CSpawn request => handle_spawn request reply_tx;; mret Continue
  | CAllNodesReady dataflow_id exited => handle_all_nodes_ready dataflow_id exited;; no_reply
  | CLogs dataflow_id node_id tail =>
      handle_logs_request dataflow_id node_id tail reply_tx;; mret Continue
  | CReloadDataflow dataflow_id node_id operator_id =>
      with_dataflow dataflow_id (λ df, (Ok tt, send_reload df node_id operator_id))
        ≫= reply_result ReloadResult
  | CRestartNode dataflow_id node_id grace_duration =>
      with_dataflow dataflow_id (λ df, restart_single_node df node_id grace_duration)
        ≫= reply_result RestartNodeResult
  | CStopNode dataflow_id node_id grace_duration =>
      with_dataflow dataflow_id (λ df, stop_single_node df node_id grace_duration)
        ≫= reply_result StopNodeResult
  | CSetParam dataflow_id node_id key value =>
      with_dataflow dataflow_id (λ df, deliver_param_update_strict df node_id key value)
        ≫= reply_result SetParamResult
  | CDeleteParam dataflow_id node_id key =>
      with_dataflow dataflow_id (λ df, deliver_param_delete_strict df node_id key)
        ≫= reply_result DeleteParamResult
  | CStopDataflow dataflow_id grace_duration force =>
      handle_stop_dataflow dataflow_id grace_duration force reply_tx;; mret Continue
  | CDestroy => coordinator_reply reply_tx (Some DestroyResult);; mret Exit
  | CHeartbeat => modify (upd_last_coordinator_heartbeat (λ _, now));; no_reply
  | CPeerDaemonDisconnected _ => no_reply
  | CAddNode dataflow_id node spawned => handle_add_node dataflow_id node spawned;; no_reply
  | CRemoveNode dataflow_id node_id grace_duration =>
      update_dataflow dataflow_id (λ df, remove_node df node_id grace_duration);; no_reply
  | CAddMapping dataflow_id source_output target_node target_input =>
      update_dataflow dataflow_id (λ df, add_mapping df source_output target_node target_input);;
      no_reply
  | CRemoveMapping dataflow_id source_output target_node target_input =>
      update_dataflow dataflow_id (λ df, remove_mapping df source_output target_node target_input);;
      no_reply
  | CStartTopicDebugStream dataflow_id outputs subscription_id =>
      with_dataflow dataflow_id (λ df, (Ok tt, start_topic_debug_stream df outputs subscription_id))
        ≫= reply_result StartTopicDebugStreamResult
  | CStopTopicDebugStream dataflow_id subscription_id =>
      with_dataflow dataflow_id (λ df, (Ok tt, stop_topic_debug_stream df subscription_id))
        ≫= reply_result StopTopicDebugStreamResult
  | CStateCatchUp dataflow_id entries => handle_state_catch_up dataflow_id entries;; no_reply
  end.

(** ** Dynamic nodes *)

Definition dynamic_node_config (d : Daemon) (node_id : NodeId) : res NodeConfig :=
  match retain (λ e, bool_decide (is_Some (running_nodes e.2 !! node_id))) (hash_iter (running d)) with
  | [] => Err "no node with this ID"
  | [(_, df)] =>
      match running_nodes df !! node_id with
      | Some node => if dynamic (node_config node) then Ok (node_config node)
                     else Err "node is not dynamic"
      | None => Err "no node with this ID within the given dataflow"
      end
  | _ => Err "multiple dataflows contain dynamic node id"
  end.

Definition handle_dynamic_node_event (node_id : NodeId) (reply_tx : ReplyId) : DM unit :=
  result ← gets (λ d, dynamic_node_config d node_id);
  reply_to reply_tx (ReplyNodeConfig result).

(** ** The event loop *)

Definition HEARTBEAT_TIMEOUT : Duration := 20000000000.

Definition handle_heartbeat_interval (now : Instant) : DM unit :=
  sender ← gets (λ d, coordinator_sender (io d));
  match sender with
  | Some _ =>
      stats ← gets ft_stats;
      notify_coordinator (EvHeartbeat stats);;
      last ← gets last_coordinator_heartbeat;
      if (HEARTBEAT_TIMEOUT <? saturating_sub now last)%Z
      then fail "coordinator heartbeat timeout (20s)" else mret tt
  | None => mret tt
  end.

Definition handle_spawn_node_result (dataflow_id : DataflowId) (node_id : NodeId)
    (dynamic_node : bool) (result : RunningNode + NodeError) : DM unit :=
  match result with
  | inl running_node =>
      update_dataflow dataflow_id (λ df,
        let df := match process running_node with
                  | Some p => upd_processes <[p := mkProc [] true]> df
                  | None => df
                  end in
        upd_running_nodes <[node_id := running_node]> df)
  | inr error =>
      insert_node_result dataflow_id node_id (inr error);;
      handle_node_stop dataflow_id node_id dynamic_node
  end.

Definition handle_build_result (build_id session_id : Uuid) (result : res (gset NodeId)) : DM unit :=
  match result with
  | Ok build_info =>
      old ← gets (λ d, sessions d !! session_id);
      modify (upd_builds <[build_id := build_info]>);;
      modify (upd_sessions <[session_id := build_id]>);;
      match old with
      | Some old_build_id => modify (upd_builds (delete old_build_id))
      | None => mret tt
      end
  | _ => mret tt
  end;;
  notify_coordinator (EvBuildResult build_id (const tt <$> result)).

Definition handle_node_stopped (dataflow_id : DataflowId) (node_id : NodeId) : DM RunStatus := λ d,
  let remaining := (λ nodes, nodes ∖ {[(dataflow_id, node_id)]}) <$> exit_when_done d in
  let d := upd_exit_when_done (λ _, remaining) d in
  (Ok (if bool_decide (remaining = Some ∅) then Exit
       else if exit_when_all_finished d && bool_decide (running d = ∅) then Exit
       else Continue), d).

Definition stop_and_exit : DM RunStatus :=
  trigger_manual_stop;;
  gets (λ d, if bool_decide (running d = ∅) then Exit else Continue).

(** The [match] of [run_inner] on one event. *)
Definition handle_event (now : Instant) (event : Event) : DM RunStatus :=
  match event with
  | ECoordinator event reply_tx => handle_coordinator_event now event reply_tx
  | EDaemon event => handle_inter_daemon_event now event;; mret Continue
  | ENode dataflow_id node_id event => handle_node_event now event dataflow_id node_id;; mret Continue
  | EDora event => handle_dora_event event;; mret Continue
  | EDynamicNode node_id reply_tx => handle_dynamic_node_event node_id reply_tx;; mret Continue
  | EHeartbeatInterval => handle_heartbeat_interval now;; mret Continue
  | EMetricsInterval => mret Continue (* spawns a task that reads a snapshot *)
  | ENodeHealthCheckInterval now_millis =>
      check_node_health now_millis;; check_all_input_timeouts now;; mret Continue
  | ECtrlC => stop_and_exit
  | EStopAfter => stop_and_exit
  | ESecondCtrlC => fail "received second ctrl-c signal"
  | EDaemonError _ => mret Continue
  | ESpawnNodeResult dataflow_id node_id dynamic_node result =>
      handle_spawn_node_result dataflow_id node_id dynamic_node result;; mret Continue
  | EBuildDataflowResult build_id session_id result =>
      handle_build_result build_id session_id result;; mret Continue
  | ESpawnDataflowResult dataflow_id result =>
      notify_coordinator (EvSpawnResult dataflow_id result);; mret Continue
  | ENodeStopped dataflow_id node_id => handle_node_stopped dataflow_id node_id
  end.

(** The status report at the start; a failure to send it is only logged. *)
Definition status_report : DM unit :=
  dataflows ← gets (λ d, (λ e, (e.1, btree_keys (running_nodes e.2))) <$> hash_iter (running d));
  catch (notify_coordinator (EvStatusReport dataflows));; mret tt.

(** After the loop; a failure to send is only logged, and the sender is given up. *)
Definition send_exit : DM unit :=
  catch (notify_coordinator EvExit);; mret tt.

(** [while let Some(event) = events.next().await]. *)
Fixpoint event_loop (events : list (Instant * Event)) : DM unit :=
  match events with
  | [] => mret tt
  | (now, event) :: events =>
      status ← handle_event now event;
      match status with
      | Exit => mret tt
      | Continue => event_loop events
      end
  end.

Definition run_inner (events : list (Instant * Event)) : DM (gmap DataflowId (gmap NodeId NodeResult)) :=
  status_report;; event_loop events;; send_exit;; gets dataflow_node_results.
End daemon.
