(* ===== verification/Isolation.v ===== *)
(** * Isolation of dataflows

    An event that concerns one dataflow never changes another one.  [touches id m] says
    that a handler leaves every other dataflow alone; it is closed under the monad's
    operations, so the proof for the whole event loop is a walk over the handlers. *)

From Stdlib Require Import ZArith Lia.
From stdpp Require Import base gmap sets list strings.
From S2P Require Import Prelude Message Channel Pending Dataflow Routing Daemon.

Definition touches {A} (id : DataflowId) (m : DM A) : Prop :=
  ∀ d other, other ≠ id → running (m d).2 !! other = running d !! other.

(** The dataflows an event may change: the one it names; the health check and a stop
    request of the user concern all of them. *)
Definition concerns (e : Event) (id : DataflowId) : bool :=
  match e with
  | ENode dataflow_id _ _ => bool_decide (dataflow_id = id)
  | EDaemon (InterOutput dataflow_id _ _ _ _) | EDaemon (InterOutputClosed dataflow_id _ _) =>
      bool_decide (dataflow_id = id)
  | EDora (DoraTimer dataflow_id _ _) | EDora (DoraLogs dataflow_id _ _ _)
  | EDora (DoraLogBroadcast dataflow_id _) | EDora (SpawnedNodeResult dataflow_id _ _ _ _ _)
  | EDora (ProcessHandleReplaced dataflow_id _ _) => bool_decide (dataflow_id = id)
  | ESpawnNodeResult dataflow_id _ _ _ => bool_decide (dataflow_id = id)
  | ECoordinator e _ =>
      match e with
      | CSpawn request => bool_decide (spawn_dataflow_id request = id)
      | CAllNodesReady dataflow_id _ | CStopDataflow dataflow_id _ _
      | CReloadDataflow dataflow_id _ _ | CRestartNode dataflow_id _ _ | CStopNode dataflow_id _ _
      | CSetParam dataflow_id _ _ _ | CDeleteParam dataflow_id _ _ | CAddNode dataflow_id _ _
      | CRemoveNode dataflow_id _ _ | CAddMapping dataflow_id _ _ _
      | CRemoveMapping dataflow_id _ _ _ | CStartTopicDebugStream dataflow_id _ _
      | CStopTopicDebugStream dataflow_id _ | CStateCatchUp dataflow_id _ =>
          bool_decide (dataflow_id = id)
      | CDestroy | CHeartbeat | CPeerDaemonDisconnected _ | CLogs _ _ _ => false
      end
  | EDynamicNode _ _ | EHeartbeatInterval | EMetricsInterval | EDaemonError _ | ESecondCtrlC
  | EBuildDataflowResult _ _ _ | ESpawnDataflowResult _ _ | ENodeStopped _ _ => false
  | ENodeHealthCheckInterval _ | ECtrlC | EStopAfter => true
  end.

Section isolation.
Context (id : DataflowId).
Local Abbreviation touches := (touches id).

Lemma touches_bind {A B} (m : DM A) (f : A → DM B) :
  touches m → (∀ a, touches (f a)) → touches (m ≫= f).
Proof.
  intros Hm Hf d other Hne. unfold mbind, DM_bind. specialize (Hm d other Hne).
  destruct (m d) as [[a| |] d']; simpl in *; [|done..]. by rewrite Hf.
Qed.

Lemma touches_ret {A} (a : A) : touches (mret a).
Proof. done. Qed.
Lemma touches_gets {A} (f : Daemon → A) : touches (gets f).
Proof. done. Qed.
Lemma touches_fail {A} e : touches (fail (A := A) e).
Proof. done. Qed.
Lemma touches_lift {A} (r : res A) : touches (lift r).
Proof. done. Qed.
Lemma touches_get_dataflow i e : touches (get_dataflow i e).
Proof. done. Qed.

Lemma touches_modify f : (∀ d, running (f d) = running d) → touches (modify f).
Proof. intros Hf d other _. simpl. by rewrite Hf. Qed.

Lemma touches_catch {A} (m : DM A) : touches m → touches (catch m).
Proof.
  intros Hm d other Hne. unfold catch. specialize (Hm d other Hne). by destruct (m d) as [[] d'].
Qed.

Lemma touches_modify_dataflow df : touches (modify_dataflow id df).
Proof. intros d other Hne. simpl. by rewrite lookup_insert_ne. Qed.

Lemma touches_alter f : touches (modify (upd_running (alter f id))).
Proof. intros d other Hne. simpl. by rewrite lookup_alter_ne. Qed.

Lemma touches_delete : touches (modify (upd_running (delete id))).
Proof. intros d other Hne. simpl. by rewrite lookup_delete_ne. Qed.

Lemma touches_notify e : touches (notify_coordinator e).
Proof.
  intros d other _. unfold notify_coordinator. destruct (coordinator_sender _); [|done].
  by destruct (send_event _ _).
Qed.

Lemma touches_run_pending {A} df (f : PendingCtx → res A * PendingCtx) :
  touches (run_pending id df f).
Proof.
  intros d other Hne. unfold run_pending. destruct (with_pending _ _ _) as [[r df'] io'].
  simpl. by rewrite lookup_insert_ne.
Qed.

Lemma touches_with_dataflow f : touches (with_dataflow id f).
Proof.
  intros d other Hne. unfold with_dataflow. destruct (running d !! id) as [df|]; [|done].
  destruct (f df). simpl. by rewrite lookup_insert_ne.
Qed.
End isolation.

Create HintDb touches.
#[export] Hint Resolve touches_ret touches_gets touches_fail touches_lift touches_get_dataflow touches_catch touches_modify_dataflow
  touches_alter touches_delete touches_notify touches_run_pending touches_with_dataflow : touches.

(** Walks over a handler. *)
Ltac walk :=
  repeat first
    [ progress intros
    | solve [eauto 2 with touches]
    | apply touches_bind
    | apply touches_catch
    | apply touches_alter
    | apply touches_modify_dataflow
    | apply touches_notify
    | apply touches_run_pending
    | apply touches_with_dataflow
    | apply touches_delete
    | apply touches_modify; done
    | apply touches_ret | apply touches_gets | apply touches_fail | apply touches_lift
    | apply touches_get_dataflow
    | match goal with |- touches _ (match ?x with _ => _ end) => destruct x end ].

Section handlers.
Context `{HashOrder} (declare_publisher declare_subscriber : OutputId → bool).
Context (read_shmem : string → option (list Byte.byte)).

Lemma send_to_remote_receivers_touches id o e :
  touches id (send_to_remote_receivers declare_publisher id o e).
Proof. unfold send_to_remote_receivers. walk. apply touches_modify. intros. by case_match. Qed.

Lemma send_topic_debug_frames_touches id id' o e : touches id (send_topic_debug_frames id' o e).
Proof. intros d other _. unfold send_topic_debug_frames. by repeat case_match. Qed.

Lemma local_output_touches now id df n o md data need :
  touches id (local_output read_shmem now id df n o md data need).
Proof.
  intros d other Hne. unfold local_output. destruct (send_output_to_local_receivers _ _ _ _ _ _ _ _ _) as [[r df'] st].
  simpl. by rewrite lookup_insert_ne.
Qed.
Hint Resolve send_to_remote_receivers_touches send_topic_debug_frames_touches
  local_output_touches : touches.

Lemma send_out_touches now id n o md data :
  touches id (send_out declare_publisher read_shmem now id n o md data).
Proof. unfold send_out. walk. Qed.

Lemma send_closed_events_touches id closed :
  touches id (send_closed_events declare_publisher id closed).
Proof. induction closed as [|o closed IH]; simpl; walk. Qed.
Hint Resolve send_out_touches send_closed_events_touches : touches.

Lemma send_output_closed_events_touches id n outputs :
  touches id (send_output_closed_events declare_publisher id n outputs).
Proof. unfold send_output_closed_events. walk. Qed.
Hint Resolve send_output_closed_events_touches : touches.

Lemma handle_outputs_done_touches id n b : touches id (handle_outputs_done declare_publisher id n b).
Proof. unfold handle_outputs_done. walk. Qed.

Lemma finish_dataflow_touches id : touches id (finish_dataflow id).
Proof. unfold finish_dataflow. walk. Qed.
Hint Resolve handle_outputs_done_touches finish_dataflow_touches : touches.

Lemma handle_node_stop_touches id n dyn : touches id (handle_node_stop declare_publisher id n dyn).
Proof. unfold handle_node_stop, handle_node_stop_inner, send_self. walk. Qed.
Hint Resolve handle_node_stop_touches : touches.

Lemma handle_node_event_touches now id n e :
  touches id (handle_node_event declare_publisher read_shmem now e id n).
Proof. unfold handle_node_event, handle_subscribe, reply_to. walk. Qed.

Lemma node_result_touches id n st : touches id (node_result id n st).
Proof.
  intros d other Hne. unfold node_result. destruct st; [done|..];
    destruct (exit_cause _ _) as [c [df|]]; simpl; by rewrite ?lookup_insert_ne.
Qed.
Hint Resolve handle_node_event_touches node_result_touches : touches.

Lemma handle_spawned_node_result_touches id n dyn st restart :
  touches id (handle_spawned_node_result declare_publisher id n dyn st restart).
Proof. unfold handle_spawned_node_result, insert_node_result. walk. Qed.
Hint Resolve handle_spawned_node_result_touches : touches.

Context (path_exists : string → bool) (current_dir : res string) (uuid_text : Uuid → string).
Context (spawn_node : NodeId → option string).
Context (log_file : DataflowId → NodeId → option (list Byte.byte)).

Lemma run_stop_all_touches id g force df : touches id (run_stop_all id g force df).
Proof.
  intros d other Hne. unfold run_stop_all. destruct (stop_all _ _ _ _) as [[r df'] io'].
  simpl. by rewrite lookup_insert_ne.
Qed.

Lemma spawn_local_node_touches id dirs node : touches id (spawn_local_node spawn_node id dirs node).
Proof. unfold spawn_local_node, insert_node_result. walk. Qed.

Lemma declare_subscribers_touches id outputs :
  touches id (declare_subscribers declare_subscriber outputs).
Proof. induction outputs as [|o outputs IH]; simpl; walk. Qed.
Hint Resolve run_stop_all_touches spawn_local_node_touches declare_subscribers_touches : touches.

Lemma spawn_remote_node_touches id node : touches id (spawn_remote_node declare_subscriber id node).
Proof. unfold spawn_remote_node. walk. Qed.
Hint Resolve spawn_remote_node_touches : touches.

Lemma spawn_nodes_loop_touches id dirs local nodes :
  touches id (spawn_nodes_loop declare_subscriber spawn_node id dirs local nodes).
Proof. induction nodes as [|node nodes IH]; cbn [spawn_nodes_loop]; walk. Qed.

Lemma stop_failed_nodes_touches id stopped :
  touches id (stop_failed_nodes declare_publisher id stopped).
Proof. induction stopped as [|n stopped IH]; cbn [stop_failed_nodes]; walk. Qed.
Hint Resolve spawn_nodes_loop_touches stop_failed_nodes_touches : touches.

Lemma spawn_dataflow_touches request dir :
  touches (spawn_dataflow_id request)
    (spawn_dataflow declare_publisher declare_subscriber spawn_node request dir).
Proof. unfold spawn_dataflow. walk. Qed.
Hint Resolve spawn_dataflow_touches : touches.

Lemma handle_coordinator_event_touches now e r id :
  concerns (ECoordinator e r) id = false →
  ∀ d, running (handle_coordinator_event declare_publisher declare_subscriber path_exists current_dir
                  uuid_text spawn_node log_file now e r d).2 !! id = running d !! id.
Proof.
  assert (∀ A (m : DM A) i, touches i m → i ≠ id → ∀ d, running (m d).2 !! id = running d !! id)
    as Hm by (intros A m i Ht Hne d; apply Ht; congruence).
  intros Hc d. destruct e; cbn [concerns] in Hc; try apply bool_decide_eq_false in Hc;
    cbn [handle_coordinator_event]; try done;
    match goal with
    | Hne : ?i ≠ id |- _ => eapply (Hm _ _ i); [|done]
    end;
    unfold handle_spawn, handle_all_nodes_ready, handle_stop_dataflow, handle_add_node,
      handle_state_catch_up, update_dataflow, coordinator_reply; walk.
Qed.

(** C28. Dataflows are isolated.  Whatever an event does, and whether handling it succeeds
    or fails, the state of every dataflow the event does not concern is unchanged. *)
Theorem dataflow_isolation now e id d :
  concerns e id = false →
  running (handle_event declare_publisher declare_subscriber read_shmem path_exists current_dir
             uuid_text spawn_node log_file now e d).2 !! id = running d !! id.
Proof.
  assert (∀ A (m : DM A) i, touches i m → i ≠ id → running (m d).2 !! id = running d !! id)
    as Hm by (intros A m i Ht Hne; apply Ht; congruence).
  intros Hc. destruct e as [| |[]|[]| | | | | | | | | | | |]; cbn [handle_event];
    try by apply handle_coordinator_event_touches.
  all: try (apply bool_decide_eq_false in Hc; eapply Hm; [|exact Hc];
            unfold handle_inter_daemon_event, handle_dora_event, handle_spawn_node_result,
              insert_node_result, update_dataflow; walk; fail).
  all: try done.
  all: apply (Hm _ _ (id + 1)%N); [|lia].
  all: unfold handle_heartbeat_interval, handle_build_result; walk.
Qed.
End handlers.

Lemma dataflow_isolation_witness :
  concerns (ENode 7 "camera" (ReportDrop [])) 8 = false ∧
  ∀ d : Daemon,
  running (handle_event (λ _, true) (λ _, true) (λ _, None) (λ _, true) (Ok "/") (λ _, "session")
             (λ _, None) (λ _ _, None) 0 (ENode 7 "camera" (ReportDrop [])) d).2 !! 8%N = running d !! 8%N.
Proof.
  split; [reflexivity|]. intros d.
  apply (dataflow_isolation (λ _, true) (λ _, true) (λ _, None) (λ _, true) (Ok "/") (λ _, "session")
           (λ _, None) (λ _ _, None) 0 (ENode 7 "camera" (ReportDrop [])) 8 d). reflexivity.
Defined.
