(* ===== verification/Lifecycle.v ===== *)
(** * Life cycle of nodes and dataflows

    Proved here about the handlers of [Daemon]: when a dataflow finishes and what the
    coordinator is told, that a dataflow is spawned completely or not at all, and two gaps:
    outputs that only remote nodes receive stay open when their node crashes, and an output
    for a dataflow that has ended ends the event loop. *)

From Stdlib Require Import ZArith Lia.
From stdpp Require Import base gmap sets list strings.
From S2P Require Import Prelude Message Channel Pending Dataflow Routing Frames Stderr Daemon.

(** What decides whether a dataflow is finished: the nodes that have not subscribed and
    the running nodes with whether they are dynamic. *)
Definition node_flags (df : RunningDataflow) : PendingNodes * gmap NodeId bool :=
  (pending_nodes df, (λ n, dynamic (node_config n)) <$> running_nodes df).

#[export] Instance node_flags_restart_blind : RestartBlind node_flags.
Proof.
  intros df n. unfold node_flags, disable_node_restart. simpl. f_equal. apply map_eq. intros m.
  rewrite !lookup_fmap, lookup_alter. case_decide; [subst|done]. by destruct (_ !! m).
Qed.

(** [n] is the last node that is not dynamic. *)
Definition last_node (df : RunningDataflow) (n : NodeId) : Prop :=
  local_nodes (pending_nodes df) = ∅ ∧
  ∀ m node, running_nodes df !! m = Some node → m ≠ n → dynamic (node_config node) = true.

(** The parts of the daemon the handlers of a node's end leave alone. *)
Definition outside (d : Daemon) : Io * list Event * gmap DataflowId (gmap NodeId NodeResult) :=
  (io d, events_tx d, dataflow_node_results d).

Definition sent_events (d : Daemon) : list DaemonEvent :=
  match coordinator_sender (io d) with Some c => sent c | None => [] end.

Section lifecycle.
Context `{HashOrder} (declare_publisher : OutputId → bool).

(** ** Finishing *)

Section finish.
Hypothesis declare_ok : ∀ o, declare_publisher o = true.

Lemma send_to_remote_ok d id df o e :
  running d !! id = Some df →
  ∃ d' df', send_to_remote_receivers declare_publisher id o e d = (Ok tt, d') ∧
    running d' !! id = Some df' ∧ node_flags df' = node_flags df ∧ outside d' = outside d.
Proof.
  intros Hd. unfold send_to_remote_receivers, get_dataflow, mbind, DM_bind, res_of_option.
  rewrite Hd, declare_ok, orb_true_r. simpl. eexists _, _. split; [done|].
  split; [|split]; [case_match; simpl; apply lookup_insert_eq|done|by case_match].
Qed.

Lemma send_closed_ok d id df closed :
  running d !! id = Some df →
  ∃ d' df', send_closed_events declare_publisher id closed d = (Ok tt, d') ∧
    running d' !! id = Some df' ∧ node_flags df' = node_flags df ∧ outside d' = outside d.
Proof.
  revert d df. induction closed as [|o closed IH]; intros d df Hd; cbn [send_closed_events].
  { by exists d, df. }
  destruct (send_to_remote_ok d id df o (InterOutputClosed id o.1 o.2) Hd)
    as (d1 & df1 & Hs & Hd1 & Hf1 & Ho1).
  destruct (IH d1 df1 Hd1) as (d2 & df2 & Hc & Hd2 & Hf2 & Ho2).
  exists d2, df2. unfold mbind, DM_bind. rewrite Hs. split_and!; [done..|congruence|congruence].
Qed.

Lemma outputs_done_ok d id df n :
  running d !! id = Some df →
  ∃ d' df', handle_outputs_done declare_publisher id n false d = (Ok tt, d') ∧
    running d' !! id = Some df' ∧ node_flags df' = node_flags df ∧ outside d' = outside d.
Proof.
  intros Hd. unfold handle_outputs_done, send_output_closed_events, get_dataflow, modify_dataflow,
    modify, mbind, DM_bind. rewrite !Hd. cbn [res_of_option].
  set (df1 := close_local_receivers df n _). set (d1 := upd_running _ d).
  assert (running d1 !! id = Some df1) as Hd1 by (simpl; apply lookup_insert_eq).
  match goal with |- context [send_closed_events declare_publisher id ?l] =>
    destruct (send_closed_ok d1 id df1 l Hd1) as (d2 & df2 & -> & Hd2 & Hf2 & Ho2) end.
  rewrite Hd2. cbn [res_of_option]. eexists _, _. split; [done|].
  split; [simpl; apply lookup_insert_eq|]. split; [|exact Ho2].
  transitivity (node_flags df2); [done|]. rewrite Hf2.
  apply (close_local_receivers_frame node_flags).
Qed.

Lemma only_dynamic_left_spec df n :
  only_dynamic_left (remove_running_node df n) = true ↔ last_node df n.
Proof.
  unfold only_dynamic_left, last_node.
  assert (running_nodes (remove_running_node df n) = delete n (running_nodes df) ∧
          pending_nodes (remove_running_node df n) = pending_nodes df) as [Hr Hp].
  { unfold remove_running_node. destruct (_ !! n) as [node|]; [|done].
    destruct (process node); [|done].
    by rewrite (drop_process_frame running_nodes), (drop_process_frame pending_nodes). }
  rewrite Hr, Hp. unfold local_nodes_pending.
  rewrite andb_true_iff, negb_involutive, bool_decide_eq_true, forallb_forall.
  split; intros [Hl Hall]; (split; [done|]).
  - intros m node Hm Hne. apply (Hall (m, node)). apply list_elem_of_In, elem_of_btree_iter.
    by rewrite lookup_delete_ne.
  - intros [m node] Hin. apply list_elem_of_In, elem_of_btree_iter in Hin.
    apply lookup_delete_Some in Hin as [Hne Hm]. by apply (Hall m).
Qed.

Lemma last_node_flags df df' n : node_flags df = node_flags df' → last_node df n → last_node df' n.
Proof.
  unfold node_flags. intros [= Hp Hr] [Hl Hall]. split; [by rewrite <- Hp|].
  intros m node Hm Hne. apply (f_equal (lookup m)) in Hr. rewrite !lookup_fmap, Hm in Hr.
  destruct (running_nodes df !! m) as [node'|] eqn:Hm'; [|done]. injection Hr as <-. by apply (Hall m).
Qed.

Lemma pending_stop_noop d id df n :
  running d !! id = Some df → n ∉ local_nodes (pending_nodes df) →
  run_pending id df (λ c, pending_node_stop c n) d = (Ok tt, d).
Proof.
  intros Hd Hn. unfold run_pending, with_pending, pending_node_stop. cbn [pending].
  rewrite bool_decide_false by done. cbn [pending pending_io pending_causes].
  replace (upd_cascading_error_causes _ _) with df by by destruct df.
  unfold upd_running. rewrite insert_id by done. by destruct d.
Qed.

(** The state after the outputs of a node are closed and the node is removed. *)
Lemma node_stop_inner_eval d id df n dyn :
  running d !! id = Some df → n ∉ local_nodes (pending_nodes df) →
  ∃ d2 df2, running d2 !! id = Some df2 ∧ node_flags df2 = node_flags df ∧ outside d2 = outside d ∧
    let df3 := remove_running_node df2 n in
    handle_node_stop_inner declare_publisher id n dyn d
    = (if only_dynamic_left df3 then finish_dataflow id else mret tt)
        (upd_running <[id := df3]> d2).
Proof.
  intros Hd Hn. destruct (outputs_done_ok d id df n Hd) as (d2 & df2 & Ho & Hd2 & Hf & Hout).
  exists d2, df2. split_and!; [done..|]. cbv zeta. unfold handle_node_stop_inner.
  rewrite (DM_bind_Ok _ _ d (running d !! id) d) by done. rewrite Hd.
  rewrite (DM_bind_Ok _ _ d tt d) by by apply pending_stop_noop.
  rewrite (DM_bind_Ok _ _ d tt d2) by done.
  rewrite (DM_bind_Ok _ _ d2 df2 d2) by (unfold get_dataflow; by rewrite Hd2).
  by rewrite (DM_bind_Ok _ _ d2 tt (upd_running <[id := remove_running_node df2 n]> d2)).
Qed.

(** A dataflow that finishes, with the coordinator connected. *)
Lemma finish_dataflow_eval d id sender :
  coordinator_sender (io d) = Some sender → ws_open sender = true →
  let '(r, d') := finish_dataflow id d in
  r = Ok tt ∧ running d' !! id = None ∧ events_tx d' = events_tx d ∧
  sent_events d' = sent_events d ++
    [EvAllNodesFinished id (default ∅ (dataflow_node_results d !! id))].
Proof.
  intros Hs Hopen. unfold finish_dataflow, notify_coordinator, gets, modify, mbind, DM_bind. simpl.
  rewrite Hs. unfold send_event. rewrite Hopen. simpl. split_and!; [done| |done|].
  - apply lookup_delete_eq.
  - unfold sent_events. simpl. by rewrite Hs.
Qed.

Lemma remove_running_node_removes df n : running_nodes (remove_running_node df n) !! n = None.
Proof.
  unfold remove_running_node.
  destruct (running_nodes df !! n) as [node|] eqn:Hnode; [destruct (process node)|];
    rewrite ?(drop_process_frame running_nodes); simpl; apply lookup_delete_eq.
Qed.

(** The result of a node's end and the state after it. *)
Lemma handle_node_stop_eval d id df n dyn sender :
  running d !! id = Some df → n ∉ local_nodes (pending_nodes df) →
  coordinator_sender (io d) = Some sender → ws_open sender = true →
  let '(r, d') := handle_node_stop declare_publisher id n dyn d in
  r = Ok tt ∧ events_tx d' = events_tx d ++ [ENodeStopped id n] ∧
  (last_node df n →
     running d' !! id = None ∧
     sent_events d' = sent_events d ++
       [EvAllNodesFinished id (default ∅ (dataflow_node_results d !! id))]) ∧
  (¬ last_node df n →
     sent_events d' = sent_events d ∧
     ∃ df', running d' !! id = Some df' ∧ running_nodes df' !! n = None).
Proof.
  intros Hd Hn Hs Hopen.
  destruct (node_stop_inner_eval d id df n dyn Hd Hn) as (d2 & df2 & Hd2 & Hflags & Hout & Hinner).
  pose proof (only_dynamic_left_spec df2 n) as Hod. injection Hout as Hio Hev Hres.
  set (df3 := remove_running_node df2 n) in *. set (d3 := upd_running <[id := df3]> d2) in *.
  assert (sent_events d3 = sent_events d) as Hse by (unfold sent_events; simpl; by rewrite Hio).
  cbv zeta in Hinner. unfold handle_node_stop.
  destruct (only_dynamic_left df3).
  - pose proof (finish_dataflow_eval d3 id sender) as Hfin. simpl in Hfin.
    rewrite Hio, Hev, Hres in Hfin. specialize (Hfin Hs Hopen).
    destruct (finish_dataflow id d3) as [r d4] eqn:Hf. destruct Hfin as (-> & Hrun & Hev' & Hsent).
    rewrite (DM_bind_Ok _ _ d (Ok tt) d4) by (unfold catch; rewrite Hinner; fold d3; by rewrite Hf).
    simpl. rewrite Hev'. split_and!; [done..| |].
    + intros _. split; [done|]. rewrite <- Hse. exact Hsent.
    + intros Hno. destruct Hno. by apply (last_node_flags df2), Hod.
  - rewrite (DM_bind_Ok _ _ d (Ok tt) d3) by (unfold catch; by rewrite Hinner).
    simpl. rewrite Hev. split_and!; [done..| |].
    + intros Hlast. exfalso. by apply (last_node_flags _ df2), Hod in Hlast.
    + intros _. split; [exact Hse|].
      exists df3. split; [apply lookup_insert_eq|]. apply remove_running_node_removes.
Qed.
(** C27. A dataflow finishes exactly with its last node.  When a node that had subscribed
    ends, the daemon announces it; if all other running nodes are dynamic and none is still
    awaited, the dataflow is removed and the coordinator gets the results of its nodes,
    and otherwise the dataflow goes on without the node and nothing is reported. *)
Theorem node_stop_finishes d id df n dyn sender :
  running d !! id = Some df → n ∉ local_nodes (pending_nodes df) →
  coordinator_sender (io d) = Some sender → ws_open sender = true →
  let '(r, d') := handle_node_stop declare_publisher id n dyn d in
  r = Ok tt ∧ events_tx d' = events_tx d ++ [ENodeStopped id n] ∧
  (last_node df n →
     running d' !! id = None ∧
     sent_events d' = sent_events d ++
       [EvAllNodesFinished id (default ∅ (dataflow_node_results d !! id))]) ∧
  (¬ last_node df n →
     sent_events d' = sent_events d ∧
     ∃ df', running d' !! id = Some df' ∧ running_nodes df' !! n = None).
Proof. apply handle_node_stop_eval. Qed.

(** ** Late outputs *)

(** An output that arrives late ends the event loop.  When the last ordinary node of a
    dataflow ends, the dataflow is finished even if dynamic nodes are still connected; the
    next output of such a node is an error that the event loop returns, so that none of
    the events behind it, of whatever dataflow, is handled. *)
Theorem late_output_ends_loop declare_subscriber read_shmem path_exists current_dir uuid_text spawn_node log_file
    d id df n m sender t1 t2 k o md data events :
  running d !! id = Some df → n ∉ local_nodes (pending_nodes df) → last_node df n →
  coordinator_sender (io d) = Some sender → ws_open sender = true →
  (event_loop declare_publisher declare_subscriber read_shmem path_exists current_dir uuid_text spawn_node log_file
     ((t1, EDora (SpawnedNodeResult id n false ExitSuccess false k))
        :: (t2, ENode id m (SendOut o md data)) :: events) d).1
  = Err "send out failed: no running dataflow".
Proof.
  intros Hd Hn Hlast Hs Hopen. cbn [event_loop handle_event handle_dora_event].
  set (d1 := upd_dataflow_node_results
    (λ m, <[id := <[n := inl tt]> (default ∅ (m !! id))]> m) d).
  pose proof (handle_node_stop_eval d1 id df n false sender Hd Hn Hs Hopen) as Hstop.
  destruct (handle_node_stop declare_publisher id n false d1) as [r d2] eqn:Heq.
  destruct Hstop as (-> & _ & Hfin & _). destruct (Hfin Hlast) as [Hgone _].
  rewrite (DM_bind_Ok _ _ d Continue d2).
  - simpl. unfold send_out, get_dataflow, mbind, DM_bind, res_of_option. by rewrite Hgone.
  - rewrite (DM_bind_Ok _ _ d tt d2); [done|]. exact Heq.
Qed.
End finish.

(** ** Outputs for remote receivers *)

Lemma retain_false {A} (p : A → bool) l : (∀ x, x ∈ l → p x = false) → retain p l = [].
Proof.
  intros Hp. unfold retain. induction l as [|x l IH]; [done|]. rewrite filter_cons, decide_False.
  - apply IH. set_solver.
  - rewrite Hp by set_solver. done.
Qed.

Lemma closed_events_nothing d id df n :
  running d !! id = Some df →
  ∃ df', send_output_closed_events declare_publisher id n [] d = (Ok tt, upd_running <[id := df']> d).
Proof.
  intros Hd. unfold send_output_closed_events, get_dataflow, mbind, DM_bind. rewrite Hd. cbn [res_of_option].
  unfold modify_dataflow, modify. rewrite retain_false; [by eexists|].
  intros o _. rewrite (bool_decide_false (o.2 ∈ [])) by set_solver. apply andb_false_r.
Qed.

Lemma outputs_done_nothing d id df n :
  running d !! id = Some df → mapped_outputs df n = [] →
  ∃ df', handle_outputs_done declare_publisher id n false d = (Ok tt, upd_running <[id := df']> d).
Proof.
  intros Hd Hout. destruct (closed_events_nothing d id df n Hd) as [df1 Hc]. unfold handle_outputs_done.
  rewrite (DM_bind_Ok _ _ d df d) by (unfold get_dataflow; by rewrite Hd).
  rewrite Hout, (DM_bind_Ok _ _ d tt (upd_running <[id := df1]> d)) by done.
  rewrite (DM_bind_Ok _ _ _ df1 (upd_running <[id := df1]> d))
    by (unfold get_dataflow; simpl; by rewrite lookup_insert_eq).
  eexists. unfold modify_dataflow, modify, upd_running. simpl. by rewrite insert_insert_eq.
Qed.

Lemma finish_dataflow_zenoh id d : zenoh_queue (finish_dataflow id d).2 = zenoh_queue d.
Proof.
  unfold finish_dataflow, notify_coordinator, gets, modify, mbind, DM_bind. simpl.
  destruct (coordinator_sender (io d)); [|done]. by destruct (send_event _ _) as [[] ?].
Qed.

(** A crash does not close outputs that only remote nodes receive.  The outputs closed
    when a node ends are those with a local receiver; if it has none, nothing is announced
    to other daemons, whatever remote receivers its outputs have. *)
Theorem crash_keeps_remote_outputs_open d id df n dyn :
  running d !! id = Some df → (∀ o, mappings df !! (n, o) = None) →
  zenoh_queue (handle_node_stop declare_publisher id n dyn d).2 = zenoh_queue d.
Proof.
  intros Hd Hmap. unfold handle_node_stop.
  assert (zenoh_queue (handle_node_stop_inner declare_publisher id n dyn d).2 = zenoh_queue d) as Hz.
  { unfold handle_node_stop_inner. rewrite (DM_bind_Ok _ _ d (running d !! id) d) by done. rewrite Hd.
    unfold run_pending, with_pending. unfold mbind at 1, DM_bind at 1.
    destruct (pending_node_stop _ n) as [[] c]; [|done..].
    set (df1 := upd_cascading_error_causes _ _). set (d1 := upd_io _ _).
    destruct (outputs_done_nothing d1 id df1 n) as [df2 Hdone];
      [simpl; apply lookup_insert_eq| |].
    { unfold mapped_outputs. rewrite retain_false; [done|]. intros [m o] Hin.
      apply elem_of_hash_keys in Hin. apply bool_decide_eq_false. simpl in *. intros ->.
      rewrite Hmap in Hin. by destruct Hin. }
    rewrite (DM_bind_Ok _ _ d1 tt _) by exact Hdone.
    rewrite (DM_bind_Ok _ _ _ df2 (upd_running <[id := df2]> d1))
      by (unfold get_dataflow; simpl; by rewrite lookup_insert_eq).
    unfold mbind, DM_bind, modify_dataflow, modify. cbv beta iota.
    destruct (only_dynamic_left _); [by rewrite finish_dataflow_zenoh|done]. }
  unfold catch, mbind, DM_bind. destruct (handle_node_stop_inner _ _ _ _ d) as [[] d']; done.
Qed.
End lifecycle.

(** ** Spawning *)

Section spawning.
Context (prepare_node : NodeId → option string) (start_node : NodeId → res RunningNode).

(** The task an event answers, and whether it reports a failure. *)
Definition spawn_task_of (e : Event) : option (NodeId * bool) :=
  match e with ESpawnNodeResult _ n dyn _ => Some (n, dyn) | _ => None end.
Definition is_failure (e : Event) : Prop :=
  match e with ESpawnNodeResult _ _ _ (inr _) => True | _ => False end.

Lemma start_prepared_tasks id tasks :
  (∀ t, t ∈ tasks → start_node t.1 ≠ Panic) →
  spawn_task_of <$> (start_prepared start_node id tasks).1 = Some <$> tasks.
Proof.
  induction tasks as [|[n dyn] tasks IH]; intros Hp; [done|]. cbn [start_prepared].
  destruct (start_prepared start_node id tasks) as [events r]. cbn [fst] in *.
  assert (spawn_task_of <$> events = Some <$> tasks) as Hev by (apply IH; set_solver).
  specialize (Hp (n, dyn)). change ((n, dyn).1) with n in *.
  destruct (start_node n); cbn [fst]; rewrite ?fmap_cons, ?Hev; [done..|].
  by destruct Hp; [left|].
Qed.

Lemma failed_tasks (tasks : list (NodeId * bool)) :
  (omap (λ t, (λ err, (t, err)) <$> prepare_node t.1) tasks).*1
  = retain (λ t, negb (bool_decide (prepare_node t.1 = None))) tasks.
Proof.
  unfold retain. induction tasks as [|t tasks IH]; [done|]. rewrite filter_cons, <- IH.
  cbn. by destruct (prepare_node t.1) as [err|].
Qed.

Lemma retain_split {A} (p : A → bool) l :
  retain p l ++ retain (λ x, negb (p x)) l ≡ₚ l.
Proof.
  unfold retain. induction l as [|x l IH]; [done|]. rewrite !filter_cons.
  destruct (p x); simpl; [by rewrite IH|]. rewrite <- Permutation_middle. by rewrite IH.
Qed.

(** A dataflow is spawned completely or not at all.  Every task gets exactly one
    answer; if preparing some node fails, every answer is a failure and no node is started. *)
Theorem spawn_all_or_nothing id tasks :
  (∀ t, t ∈ tasks → start_node t.1 ≠ Panic) →
  let '(events, r) := spawn_prepared_nodes prepare_node start_node id tasks in
  spawn_task_of <$> events ≡ₚ Some <$> tasks ∧
  (Exists (λ t, prepare_node t.1 ≠ None) tasks → Forall is_failure events ∧ ∃ e, r = Err e).
Proof.
  intros Hp. unfold spawn_prepared_nodes.
  pose proof (failed_tasks tasks) as Hfailed.
  pose proof (retain_split (λ t : NodeId * bool, bool_decide (prepare_node t.1 = None)) tasks) as Hsplit.
  rewrite Permutation_app_comm, <- Hfailed in Hsplit.
  destruct (omap _ tasks) as [|[first err] failed].
  - simpl in Hsplit. destruct (start_prepared start_node id _) as [events r] eqn:Hst. split.
    + etransitivity; [|apply fmap_Permutation, Hsplit]. change events with (events, r).1. rewrite <- Hst.
      rewrite start_prepared_tasks; [done|]. intros t Ht. apply Hp. by apply list_elem_of_filter in Ht as [].
    + intros Hex. exfalso. apply Exists_exists in Hex as (t & Ht & Hne).
      assert (t ∈ retain (λ t, negb (bool_decide (prepare_node t.1 = None))) tasks) as Hin.
      { apply list_elem_of_filter. by rewrite bool_decide_false. }
      rewrite <- Hfailed in Hin. set_solver.
  - split.
    + etransitivity; [|apply fmap_Permutation, Hsplit]. rewrite !fmap_app, <- !list_fmap_compose.
      apply Permutation_app; [apply reflexive_eq, list_fmap_ext; by intros ? [[] ?]|].
      apply reflexive_eq, list_fmap_ext. by intros ? [].
    + intros _. split; [|by eexists]. apply Forall_app. split; apply Forall_fmap, Forall_true; [by intros []|done].
Qed.
End spawning.

(** ** Witnesses *)

Definition example_coordinator : Coordinator := mkCoordinator [] true false.
Definition example_daemon (df : RunningDataflow) : Daemon :=
  {| running := {[7%N := df]}; working_dir := ∅; events_tx := [];
     io := mkIo (Some example_coordinator) []; coordinator_replies := [];
     last_coordinator_heartbeat := 0; exit_when_done := None; exit_when_all_finished := false;
     dataflow_node_results := ∅; ft_stats := mkStats 0 0 0 0; zenoh_queue := [];
     zenoh_drain_alive := true; has_remote_daemon_events_tx := true; sessions := ∅; builds := ∅;
     clones_in_use := ∅; spawn_tasks := [] |}.
Definition example_running (n : NodeId) (dyn : bool) : RunningNode :=
  mkRunningNode None (mkNodeConfig 7 n dyn 0) None 0 Never false 0 None.
(** A dataflow with an ordinary node and a dynamic one; the output of the ordinary node
    goes to another daemon. *)
Definition example_lifecycle_df : RunningDataflow :=
  upd_open_external_mappings (union {[("camera", "image")]})
  (upd_running_nodes (λ _, {["camera" := example_running "camera" false;
                             "viewer" := example_running "viewer" true]})
     (dataflow_new 7 [] false)).

Lemma example_last_node : last_node example_lifecycle_df "camera".
Proof.
  split; [reflexivity|]. intros m node Hm Hne. simpl in Hm.
  rewrite lookup_insert_ne in Hm by done. by apply lookup_singleton_Some in Hm as [_ <-].
Qed.

Lemma node_stop_finishes_witness :
  running (handle_node_stop (λ _, true) 7 "camera" false (example_daemon example_lifecycle_df)).2 !! 7%N
  = None.
Proof.
  pose proof (node_stop_finishes (λ _, true) (λ _, eq_refl) (example_daemon example_lifecycle_df) 7
    example_lifecycle_df "camera" false example_coordinator eq_refl (not_elem_of_empty _) eq_refl eq_refl)
    as Hfin.
  destruct (handle_node_stop (λ _, true) 7 "camera" false (example_daemon example_lifecycle_df)) as [r d'].
  destruct Hfin as (_ & _ & Hlast & _). exact (proj1 (Hlast example_last_node)).
Defined.

Lemma late_output_ends_loop_witness :
  (event_loop (λ _, true) (λ _, true) (λ _, None) (λ _, true) (Ok "/") (λ _, "session") (λ _, None) (λ _ _, None)
     [(0%Z, EDora (SpawnedNodeResult 7 "camera" false ExitSuccess false 0));
      (1%Z, ENode 7 "viewer" (SendOut "clicks" (mkMetadata ∅) None));
      (2%Z, ECoordinator CHeartbeat 1)] (example_daemon example_lifecycle_df)).1
  = Err "send out failed: no running dataflow".
Proof.
  apply (late_output_ends_loop (λ _, true) (λ _, eq_refl) (λ _, true) (λ _, None) (λ _, true) (Ok "/")
           (λ _, "session") (λ _, None) (λ _ _, None) (example_daemon example_lifecycle_df) 7 example_lifecycle_df
           "camera" "viewer" example_coordinator).
  - reflexivity.
  - apply not_elem_of_empty.
  - apply example_last_node.
  - reflexivity.
  - reflexivity.
Defined.

Lemma crash_keeps_remote_outputs_open_witness :
  ("camera", "image") ∈ open_external_mappings example_lifecycle_df ∧
  zenoh_queue (handle_node_stop (λ _, true) 7 "camera" false (example_daemon example_lifecycle_df)).2 = [].
Proof.
  split; [set_solver|].
  apply (crash_keeps_remote_outputs_open (λ _, true) (example_daemon example_lifecycle_df) 7
           example_lifecycle_df "camera" false); [reflexivity|]. intros o. reflexivity.
Defined.

Lemma spawn_all_or_nothing_witness :
  Forall is_failure
    (spawn_prepared_nodes (λ n, if decide (n = "b") then Some "no such file" else None)
       (λ n, Ok (example_running n false)) 7 [("a", false); ("b", false)]).1.
Proof.
  refine (proj1 (proj2 (spawn_all_or_nothing (λ n, if decide (n = "b") then Some "no such file" else None)
    (λ n, Ok (example_running n false)) 7 [("a", false); ("b", false)] _) _)).
  - by intros t _.
  - right. left. done.
Defined.
