(* ===== verification/RestartLoop.v ===== *)
(** * The restart loop of a node

    Models [restart_loop] of [binaries/daemon/src/spawn/prepared.rs], the task that waits
    for a node's process to end, reports to the daemon and restarts it under the node's
    policy, restart limit and backoff.  A run of the loop is a list of rounds; a round
    carries what the loop reads from outside: the exit status (none if the task that waits
    for the process is gone), the clock, the
    [disable_restart] flag before and after the backoff, and the outcome of spawning the
    replacement.  Counters are 32 bits wide and wrap around. *)

From Stdlib Require Import ZArith Lia.
From stdpp Require Import base gmap sets list strings.
From S2P Require Import Prelude Message InputMapping Channel Pending Dataflow Routing Frames Daemon.

Local Open Scope list_scope.

Definition u32_wrap (z : Z) : Z := z mod 2 ^ 32.

Record RestartConfig := mkRestartConfig {
  max_restarts : Z;
  restart_delay : option Duration;
  max_restart_delay : option Duration;
  restart_window : option Duration
}.

(** [CustomNode]'s restart settings; the [f64] values as bit patterns. *)
Record RestartSettings := mkRestartSettings {
  set_restart_policy : RestartPolicy;
  set_max_restarts : Z;
  set_restart_delay : option Z;
  set_max_restart_delay : option Z;
  set_restart_window : option Z
}.

Definition option_duration (o : option Z) : res (option Duration) :=
  match o with
  | Some bits => d ← duration_from_secs_f64 bits; Ok (Some d)
  | None => Ok None
  end.

(** [None] is a runtime node. *)
Definition node_restart_policy (n : option RestartSettings) : RestartPolicy :=
  match n with Some n => set_restart_policy n | None => Never end.

Definition restart_config (n : option RestartSettings) : res RestartConfig :=
  match n with
  | Some n =>
      delay ← option_duration (set_restart_delay n);
      max_delay ← option_duration (set_max_restart_delay n);
      window ← option_duration (set_restart_window n);
      Ok (mkRestartConfig (set_max_restarts n) delay max_delay window)
  | None => Ok (mkRestartConfig 0 None None None)
  end.

(** [Duration::as_secs_f64] and [Duration::mul_f64] by a power of two. *)
Definition as_secs_f64 (d : Duration) : Z :=
  let '(n1, d1) := f64_ratio (f64_of_ratio (d / 1000000000) 1) in
  let '(n2, d2) := f64_ratio (f64_of_ratio (d mod 1000000000) 1000000000) in
  f64_of_ratio (n1 * d2 + n2 * d1) (d1 * d2).

Definition mul_pow2 (d : Duration) (exp : Z) : res Duration :=
  let '(n, m) := f64_ratio (as_secs_f64 d) in
  duration_from_secs_f64 (f64_of_ratio (n * 2 ^ exp) m).

Inductive Respawn := RespawnedAs (pid : Z) (handle : ProcId) | RespawnDynamic | RespawnFailed.

Record Round := mkRound {
  round_exit : option NodeExitStatus;
  round_now : Instant;
  round_disabled : bool;
  round_disabled_later : bool;
  round_respawn : Respawn
}.

Record LoopState := mkLoop {
  loop_restart_count : Z;
  window_start : Instant;
  window_count : Z;
  shared_restart_count : Z;
  loop_pid : Z;
  ft_restarts : Z
}.

(** How the loop goes on: another round, a final report, an end after announcing a
    restart that does not happen, or an end without an exit status. *)
Inductive LoopEnd := Again (s : LoopState) | Reported | Cancelled | Panicked | Lost.

Section restart_loop.
Context (dataflow_id : DataflowId) (node_id : NodeId) (dynamic_node : bool).
Context (policy : RestartPolicy) (config : RestartConfig).

Definition wants_restart (status : NodeExitStatus) : bool :=
  match policy with
  | Always => true
  | OnFailure => negb (is_success status)
  | Never => false
  end.

(** The restart limit: the window is reset if it has expired, and the attempt counted. *)
Definition check_limit (s : LoopState) (now : Instant) : bool * LoopState :=
  let s := match restart_window config with
           | Some window =>
               if (window <? saturating_sub now (window_start s))%Z
               then {| s with window_count := 0; window_start := now |} else s
           | None => s
           end in
  let s := {| s with window_count := u32_wrap (window_count s + 1) |} in
  (negb ((0 <? max_restarts config)%Z && (max_restarts config <? window_count s)%Z), s).

Definition backoff (s : LoopState) (base_delay : Duration) : res Duration :=
  let exp := Z.min (u32_wrap (window_count s - 1)) 16 in
  b ← mul_pow2 base_delay exp;
  Ok (match max_restart_delay config with Some max => Z.min b max | None => b end).

Definition result_event (s : LoopState) (status : NodeExitStatus) (restart : bool) : DoraEvent :=
  SpawnedNodeResult dataflow_id node_id dynamic_node status restart (loop_restart_count s).

(** Spawning the replacement. *)
Definition respawn (s : LoopState) (r : Respawn) : list DoraEvent * LoopEnd :=
  let count := u32_wrap (loop_restart_count s + 1) in
  let s := {| s with loop_restart_count := count; shared_restart_count := count;
                     ft_restarts := fetch_add (ft_restarts s) 1 |} in
  match r with
  | RespawnedAs pid handle =>
      ([ProcessHandleReplaced dataflow_id node_id handle], Again {| s with loop_pid := pid |})
  | RespawnDynamic | RespawnFailed => ([], Cancelled)
  end.

Definition handle_exit (s : LoopState) (r : Round) (status : NodeExitStatus)
    : list DoraEvent * LoopEnd :=
  let restart := wants_restart status && negb (round_disabled r) in
  let '(restart, s) := if restart then check_limit s (round_now r) else (false, s) in
  let event := result_event s status restart in
  if restart then
    match restart_delay config with
    | Some base_delay =>
        match backoff s base_delay with
        | Ok _ =>
            if round_disabled_later r then ([event], Cancelled)
            else let '(events, e) := respawn s (round_respawn r) in (event :: events, e)
        | _ => ([event], Panicked)
        end
    | None => let '(events, e) := respawn s (round_respawn r) in (event :: events, e)
    end
  else ([event], Reported).

Definition loop_round (s : LoopState) (r : Round) : list DoraEvent * LoopEnd :=
  match round_exit r with
  | Some status => handle_exit s r status
  | None => ([], Lost)
  end.

(** The events of a run and how it ended; when the list of rounds is used up the loop is
    waiting for the process. *)
Fixpoint restart_loop (s : LoopState) (rounds : list Round) : list DoraEvent * LoopEnd :=
  match rounds with
  | [] => ([], Again s)
  | r :: rounds =>
      match loop_round s r with
      | (events, Again s) =>
          let '(more, e) := restart_loop s rounds in (events ++ more, e)
      | (events, e) => (events, e)
      end
  end.

Definition loop_start (now : Instant) (pid : Z) : LoopState := mkLoop 0 now 0 0 pid 0.
End restart_loop.

(** ** Restart limits *)

Definition announces_restart (e : DoraEvent) : bool :=
  match e with SpawnedNodeResult _ _ _ _ restart _ => restart | _ => false end.
Definition restarts_of (events : list DoraEvent) : Z :=
  Z.of_nat (length (retain announces_restart events)).

Lemma restarts_of_app l k : restarts_of (l ++ k) = (restarts_of l + restarts_of k)%Z.
Proof. unfold restarts_of. rewrite retain_app, length_app. lia. Qed.

Lemma restarts_of_cons e l :
  restarts_of (e :: l) = ((if announces_restart e then 1 else 0) + restarts_of l)%Z.
Proof.
  change (e :: l) with ([e] ++ l). rewrite restarts_of_app. f_equal.
  unfold restarts_of, retain. rewrite filter_cons. by destruct (announces_restart e).
Qed.

Lemma restarts_of_nonneg l : (0 ≤ restarts_of l)%Z.
Proof. unfold restarts_of. lia. Qed.

Section limits.
Context (dataflow_id : DataflowId) (node_id : NodeId) (dynamic_node : bool).
Context (policy : RestartPolicy) (config : RestartConfig).
Local Abbreviation run := (restart_loop dataflow_id node_id dynamic_node policy config).
Local Abbreviation round := (loop_round dataflow_id node_id dynamic_node policy config).

(** The window a round works with. *)
Definition same_window (s s' : LoopState) : Prop :=
  window_count s' = window_count s ∧ window_start s' = window_start s.

Lemma respawn_cases s r :
  let '(events, e) := respawn dataflow_id node_id s r in
  restarts_of events = 0%Z ∧ ∀ s', e = Again s' → same_window s s'.
Proof. destruct r; simpl; (split; [done|]); intros s' [=]; by subst. Qed.

(** A round announces a restart or ends the loop. *)
Lemma round_cases s r events e :
  round s r = (events, e) →
  (restarts_of events = 0%Z ∧ ∀ s', e ≠ Again s') ∨
  (restarts_of events = 1%Z ∧ (check_limit config s (round_now r)).1 = true ∧
   ∀ s', e = Again s' → same_window (check_limit config s (round_now r)).2 s').
Proof.
  unfold loop_round, handle_exit. destruct (round_exit r) as [status|]; [|intros [= <- <-]; by left].
  destruct (wants_restart policy status && negb (round_disabled r)); [|intros [= <- <-]; by left].
  destruct (check_limit config s (round_now r)) as [[] s1]; [|intros [= <- <-]; by left].
  intros Hr. right.
  pose proof (respawn_cases s1 (round_respawn r)) as Hre.
  destruct (respawn _ _ s1 _) as [more e'].
  destruct (restart_delay config) as [base|]; [destruct (backoff _ _ _)|].
  1: destruct (round_disabled_later r).
  all: injection Hr as <- <-; try (split_and!; [done..|intros ? [=]]).
  all: destruct Hre as [Hz Hs]; split_and!; [|done..].
  all: rewrite restarts_of_cons, Hz; done.
Qed.

Section bounded.
Hypothesis limited : (0 < max_restarts config < 2 ^ 32 - 1)%Z.

(** Restarts left in the current window. *)
Definition budget (s : LoopState) : Z := max_restarts config - window_count s.

Lemma check_limit_no_reset s now :
  (0 ≤ window_count s ≤ max_restarts config)%Z →
  (∀ w, restart_window config = Some w → saturating_sub now (window_start s) ≤ w)%Z →
  let '(b, s') := check_limit config s now in
  window_start s' = window_start s ∧
  (b = true → window_count s' = window_count s + 1 ∧ window_count s' ≤ max_restarts config)%Z.
Proof.
  intros Hc Hw. unfold check_limit.
  assert ((match restart_window config with
           | Some window => if (window <? saturating_sub now (window_start s))%Z
               then {| s with window_count := 0%Z; window_start := now |} else s
           | None => s end) = s) as ->.
  { destruct (restart_window config) as [w|]; [|done].
    specialize (Hw w eq_refl). by rewrite (proj2 (Z.ltb_ge _ _)). }
  simpl. split; [done|]. unfold u32_wrap. rewrite Z.mod_small by lia. lia.
Qed.

Lemma check_limit_reset s now w :
  restart_window config = Some w → (w < saturating_sub now (window_start s))%Z →
  let '(b, s') := check_limit config s now in window_start s' = now ∧ window_count s' = 1%Z.
Proof.
  intros Hw Hlt. unfold check_limit. rewrite Hw, (proj2 (Z.ltb_lt _ _)) by done. done.
Qed.

(** While no window expires, restarts use up the budget. *)
Lemma restarts_in_window s rounds t :
  (0 ≤ window_count s ≤ max_restarts config)%Z →
  (∀ w, restart_window config = Some w → t ≤ window_start s)%Z →
  Forall (λ r, ∀ w, restart_window config = Some w → (t ≤ round_now r ≤ t + w)%Z) rounds →
  (∀ w, restart_window config = Some w → 0 ≤ w)%Z →
  (restarts_of (run s rounds).1 ≤ budget s)%Z.
Proof.
  intros Hc Hst Hr Hw. revert s Hc Hst. induction Hr as [|r rounds Hnow Hr IH]; intros s Hc Hst; cbn [restart_loop].
  { unfold budget, restarts_of. simpl. lia. }
  pose proof (round_cases s r) as Hround.
  destruct (round s r) as [events e]. specialize (Hround _ _ eq_refl).
  pose proof (check_limit_no_reset s (round_now r) Hc) as Hlim.
  destruct (check_limit config s (round_now r)) as [b s1].
  destruct Hlim as [Hstart Hcount].
  { intros w Hsome. specialize (Hnow w Hsome). specialize (Hst w Hsome). unfold saturating_sub.
    specialize (Hw w Hsome). lia. }
  unfold budget in *. destruct Hround as [[Hz Hend]|(Hone & Hb & Hagain)].
  - destruct e as [s'| | | |]; [by destruct (Hend s')|simpl; lia..].
  - simpl in Hb. subst b. specialize (Hcount eq_refl). destruct e as [s'| | | |]; [|simpl; lia..].
    destruct (Hagain s' eq_refl) as [Hc' Hs']. simpl in Hc', Hs'.
    destruct (run s' rounds) as [more e'] eqn:Hrun. simpl. rewrite restarts_of_app.
    specialize (IH s'). rewrite Hrun in IH. simpl in IH.
    assert (restarts_of more ≤ max_restarts config - window_count s')%Z; [|lia].
    apply IH; [lia|]. intros w Hsome. rewrite Hs', Hstart. by apply (Hst w).
Qed.

(** C39. Restarts are rate limited.  With a restart limit [m] and a restart window [w], the
    loop restarts the node at most [2 * m] times within any period of length [w], from
    whatever point of its life the period starts; without a window it restarts it at most
    as often as the limit still allows. *)
Theorem restart_rate_limited s rounds t :
  (0 ≤ window_count s ≤ max_restarts config)%Z →
  (∀ w, restart_window config = Some w → 0 ≤ w)%Z →
  Forall (λ r, ∀ w, restart_window config = Some w → (t ≤ round_now r ≤ t + w)%Z) rounds →
  (restarts_of (run s rounds).1
   ≤ match restart_window config with
     | Some _ => 2 * max_restarts config
     | None => max_restarts config - window_count s
     end)%Z.
Proof.
  intros Hc Hw Hr. destruct (restart_window config) as [w|] eqn:Hwin.
  2: { apply (restarts_in_window s rounds t); [done|by rewrite Hwin|by rewrite Hwin..]. }
  specialize (Hw w eq_refl).
  assert (restarts_of (run s rounds).1 ≤ budget s + max_restarts config)%Z as Hmain;
    [|unfold budget in Hmain; lia].
  revert s Hc. induction Hr as [|r rounds Hnow Hr IH]; intros s Hc; cbn [restart_loop].
  { unfold budget, restarts_of. simpl. lia. }
  pose proof (round_cases s r) as Hround. specialize (Hnow w eq_refl).
  destruct (round s r) as [events e]. specialize (Hround _ _ eq_refl). unfold budget in *.
  destruct Hround as [[Hz Hend]|(Hone & Hb & Hagain)].
  { destruct e as [s'| | | |]; [by destruct (Hend s')|simpl; lia..]. }
  destruct (decide (w < saturating_sub (round_now r) (window_start s))%Z) as [Hreset|Hno].
  - pose proof (check_limit_reset s (round_now r) w Hwin Hreset) as Hlim.
    destruct (check_limit config s (round_now r)) as [b s1]. destruct Hlim as [Hstart Hcount].
    destruct e as [s'| | | |]; [|simpl; lia..].
    destruct (Hagain s' eq_refl) as [Hc' Hs']. simpl in Hc', Hs'.
    pose proof (restarts_in_window s' rounds t) as Hin. unfold budget in Hin.
    destruct (run s' rounds) as [more e']. simpl in *. rewrite restarts_of_app.
    rewrite Hc', Hs', Hstart, Hcount, Hwin in Hin.
    assert (restarts_of more ≤ max_restarts config - 1)%Z; [|lia].
    apply Hin; [lia|lia|done|]. intros w' [= <-]. done.
  - pose proof (check_limit_no_reset s (round_now r) Hc) as Hlim.
    destruct (check_limit config s (round_now r)) as [b s1]. simpl in Hb. subst b.
    destruct Hlim as [Hstart Hcount]; [intros w' Hw'; rewrite Hwin in Hw'; injection Hw' as <-; lia|].
    specialize (Hcount eq_refl). destruct e as [s'| | | |]; [|simpl; lia..].
    destruct (Hagain s' eq_refl) as [Hc' Hs']. simpl in Hc'.
    specialize (IH s'). destruct (run s' rounds) as [more e']. simpl in *. rewrite restarts_of_app.
    assert (restarts_of more ≤ max_restarts config - window_count s' + max_restarts config)%Z; [|lia].
    apply IH. lia.
Qed.
End bounded.
End limits.

(** ** Cancelled restarts *)

Section cancelled.
Context `{HashOrder} (declare_publisher : OutputId → bool).
Context (id : DataflowId) (n : NodeId) (dynamic_node : bool).
Context (policy : RestartPolicy) (config : RestartConfig).
Local Abbreviation run := (restart_loop id n dynamic_node policy config).

(** A message of the loop that leaves the node registered with the daemon. *)
Definition keeps_node (e : DoraEvent) : Prop :=
  match e with
  | SpawnedNodeResult i m _ _ restart _ => i = id ∧ m = n ∧ restart = true
  | ProcessHandleReplaced i m _ => i = id ∧ m = n
  | _ => False
  end.

Lemma respawn_keeps s r : Forall keeps_node (respawn id n s r).1.
Proof. destruct r; repeat constructor. Qed.

Lemma round_cancelled s r events e :
  loop_round id n dynamic_node policy config s r = (events, e) → e ≠ Reported →
  Forall keeps_node events.
Proof.
  unfold loop_round, handle_exit. destruct (round_exit r) as [status|]; [|by intros [= <- _]].
  destruct (if wants_restart policy status && negb (round_disabled r)
            then check_limit config s (round_now r) else (false, s)) as [[] s1]; [|by intros [= _ <-]].
  pose proof (respawn_keeps s1 (round_respawn r)) as Hre. destruct (respawn id n s1 _) as [more e'].
  destruct (restart_delay config) as [base|]; [destruct (backoff _ _ _)|].
  1: destruct (round_disabled_later r).
  all: intros [= <- _] _; by repeat constructor.
Qed.

Lemma run_cancelled s rounds : (run s rounds).2 ≠ Reported → Forall keeps_node (run s rounds).1.
Proof.
  revert s. induction rounds as [|r rounds IH]; intros s; cbn [restart_loop]; [constructor|].
  destruct (loop_round _ _ _ _ _ s r) as [events e] eqn:Hr.
  pose proof (round_cancelled s r events e Hr) as Hc. destruct e as [s'| | | |]; try by auto.
  specialize (IH s'). destruct (run s' rounds) as [more e']. simpl in *. intros Hend.
  apply Forall_app. by split; [apply Hc|apply IH].
Qed.

(** The node is registered in a running dataflow. *)
Definition registered (d : Daemon) : Prop :=
  ∃ df, running d !! id = Some df ∧ is_Some (running_nodes df !! n).

Lemma node_result_registered d status :
  registered d → registered (node_result id n status d).2 ∧ ∃ r, (node_result id n status d).1 = Ok r.
Proof.
  intros (df & Hd & Hn). unfold node_result, exit_cause. rewrite Hd. simpl.
  destruct status; simpl; [split; [by exists df|by eexists]|..];
    destruct (error_caused_by _ n); simpl;
    try (split; [eexists; split; [apply lookup_insert_eq|done]|by eexists]);
    case_bool_decide; simpl;
    try (split; [eexists; split; [apply lookup_insert_eq|done]|by eexists]);
    destruct (node_stderr_most_recent df !! n); simpl;
    (split; [eexists; split; [apply lookup_insert_eq|done]|by eexists]).
Qed.

Lemma event_registered d e :
  keeps_node e → registered d → registered (handle_dora_event declare_publisher e d).2.
Proof.
  destruct e; simpl; try done.
  - intros (-> & -> & ->) Hreg. unfold handle_spawned_node_result.
    destruct (node_result_registered d exit_status Hreg) as ((df & Hd & Hn) & r & Hr).
    destruct (node_result id n exit_status d) as [r' d'] eqn:Heq. simpl in *. subst r'.
    rewrite (DM_bind_Ok _ _ d r d') by done. exists (notify_downstream_restarted df n). simpl.
    rewrite lookup_alter_eq, Hd. split; [done|].
    by rewrite (notify_downstream_restarted_frame running_nodes).
  - intros [-> ->] (df & Hd & Hn). exists (replace_process df n new_handle). simpl.
    rewrite lookup_alter_eq, Hd. split; [done|]. unfold replace_process.
    destruct Hn as [node Hn]. rewrite Hn. simpl. rewrite lookup_insert_eq. by eexists.
Qed.

(** A restart that does not happen is never reported.  If the loop announces a restart
    and then gives it up (the node's inputs were closed during the backoff, or the
    replacement cannot be spawned), the daemon hears nothing more: after all messages of
    the loop the node is still registered as running, so its dataflow does not finish. *)
Theorem cancelled_restart_stays_registered s rounds events d :
  run s rounds = (events, Cancelled) → registered d →
  registered (foldl (λ d e, (handle_dora_event declare_publisher e d).2) d events).
Proof.
  intros Hrun. pose proof (run_cancelled s rounds) as Hk. rewrite Hrun in Hk. simpl in Hk.
  specialize (Hk ltac:(done)). clear Hrun. revert d.
  induction Hk as [|e events He Hk IH]; intros d Hreg; simpl; [done|].
  apply IH. by apply event_registered.
Qed.
End cancelled.

(** ** Witnesses *)

Definition example_config : RestartConfig := mkRestartConfig 3 (Some 1000000000%Z) None (Some 60%Z).
(** A round at time 5 whose restart is cancelled during the backoff. *)
Definition cancelled_round : Round := mkRound (Some (ExitCode 1)) 5 false true RespawnFailed.

Lemma restart_rate_limited_witness :
  (restarts_of (restart_loop 7 "camera" false Always example_config (loop_start 0 1) [cancelled_round]).1
   ≤ 6)%Z.
Proof.
  apply (restart_rate_limited 7 "camera" false Always example_config ltac:(vm_compute; done)
           (loop_start 0 1) [cancelled_round] 0).
  - vm_compute. split; discriminate.
  - intros w [= <-]. vm_compute. discriminate.
  - repeat constructor; intros; simplify_eq/=; vm_compute; discriminate.
Defined.

Definition restarting_daemon : Daemon :=
  {| running := {[7%N := upd_running_nodes <["camera" :=
                   mkRunningNode None (mkNodeConfig 7 "camera" false 0) None 0 Always false 0 None]>
                   (dataflow_new 7 [] false)]};
     working_dir := ∅; events_tx := []; io := mkIo None []; coordinator_replies := [];
     last_coordinator_heartbeat := 0; exit_when_done := None; exit_when_all_finished := false;
     dataflow_node_results := ∅; ft_stats := mkStats 0 0 0 0; zenoh_queue := [];
     zenoh_drain_alive := true; has_remote_daemon_events_tx := true; sessions := ∅; builds := ∅;
     clones_in_use := ∅; spawn_tasks := [] |}.

Lemma cancelled_restart_stays_registered_witness :
  registered 7 "camera" (foldl (λ d e, (handle_dora_event (λ _, true) e d).2) restarting_daemon
    [SpawnedNodeResult 7 "camera" false (ExitCode 1) true 0]).
Proof.
  apply (cancelled_restart_stays_registered (λ _, true) 7 "camera" false Always example_config
           (loop_start 0 1) [cancelled_round]).
  - vm_compute. reflexivity.
  - eexists. split; [reflexivity|]. by eexists.
Defined.
