(* ===== verification/Framing.v ===== *)
(** * Framing of messages on a TCP connection

    Models [socket_stream_send] and [socket_stream_receive] of
    [binaries/daemon/src/socket_stream_utils.rs] and their counterparts [tcp_send] and
    [tcp_receive] of [apis/rust/node/src/daemon_connection/tcp.rs]: a message is preceded by
    its length in eight bytes.  A stream is the list of bytes still to be read; the read
    timeout and I/O errors other than the end of the stream are not modelled. *)

From Stdlib Require Import ZArith Lia.
From stdpp Require Import base list strings.
From S2P Require Import Prelude Recording.

Definition MAX_MESSAGE_BYTES : Z := 64 * 1024 * 1024.

(** The daemon writes the length and the message in one call, the node in two. *)
Definition socket_stream_send (stream message : bytes) : res bytes :=
  if (MAX_MESSAGE_BYTES <? blen message)%Z then Err "outgoing message size exceeds maximum"
  else let buf := to_le_bytes 8 (blen message) ++ message in Ok (stream ++ buf).

Definition tcp_send (stream message : bytes) : res bytes :=
  if (MAX_MESSAGE_BYTES <? blen message)%Z then Err "outgoing message size exceeds maximum"
  else let stream := stream ++ to_le_bytes 8 (blen message) in Ok (stream ++ message).

Definition tcp_receive (stream : bytes) : res bytes * bytes :=
  match read_exact 8 stream with
  | (None, stream) => (Err "unexpected end of file", stream)
  | (Some raw, stream) =>
      let reply_len := from_le_bytes raw in
      if (MAX_MESSAGE_BYTES <? reply_len)%Z then (Err "message size exceeds maximum", stream)
      else match read_exact (Z.to_nat reply_len) stream with
           | (None, stream) => (Err "unexpected end of file", stream)
           | (Some reply, stream) => (Ok reply, stream)
           end
  end.
Definition socket_stream_receive : bytes → res bytes * bytes := tcp_receive.

(** Sending several messages, and receiving until the stream ends; every message takes at
    least the eight bytes of its length. *)
Fixpoint send_all (stream : bytes) (messages : list bytes) : res bytes :=
  match messages with
  | [] => Ok stream
  | message :: messages => stream ← socket_stream_send stream message; send_all stream messages
  end.
Fixpoint receive_all (fuel : nat) (stream : bytes) : list bytes * res unit :=
  match fuel with
  | O => ([], Err "out of fuel")
  | S fuel =>
      match tcp_receive stream with
      | (Ok message, stream) =>
          let '(messages, result) := receive_all fuel stream in (message :: messages, result)
      | (Err e, _) => ([], Err e)
      | (Panic, _) => ([], Panic)
      end
  end.

Lemma tcp_send_same stream message : tcp_send stream message = socket_stream_send stream message.
Proof. unfold tcp_send, socket_stream_send. case_match; [done|]. by rewrite <- app_assoc. Qed.

Definition frame (message : bytes) : bytes := to_le_bytes 8 (blen message) ++ message.

Lemma send_all_frames stream messages :
  Forall (λ m, blen m ≤ MAX_MESSAGE_BYTES)%Z messages →
  send_all stream messages = Ok (stream ++ concat (frame <$> messages)).
Proof.
  intros Hall. revert stream. induction Hall as [|m messages Hm _ IH]; intros stream; simpl.
  { by rewrite app_nil_r. }
  unfold socket_stream_send. replace (MAX_MESSAGE_BYTES <? blen m)%Z with false by lia.
  cbn [mbind res_bind]. rewrite IH. by rewrite <- !app_assoc.
Qed.

Lemma receive_frame m rest :
  (blen m ≤ MAX_MESSAGE_BYTES)%Z → tcp_receive (frame m ++ rest) = (Ok m, rest).
Proof.
  intros Hm. unfold tcp_receive, frame. rewrite <- app_assoc.
  pose proof (read_exact_app (to_le_bytes 8 (blen m)) (m ++ rest)) as H8.
  rewrite length_to_le_bytes in H8. rewrite H8.
  rewrite from_to_le_bytes by (pose proof (blen_nonneg m); unfold MAX_MESSAGE_BYTES in *; lia).
  replace (MAX_MESSAGE_BYTES <? blen m)%Z with false by lia.
  unfold blen. rewrite Nat2Z.id. by rewrite read_exact_app.
Qed.

(** A frame cut short is the end of the stream. *)
Lemma receive_cut_frame m n :
  (blen m ≤ MAX_MESSAGE_BYTES)%Z → n < length (frame m) →
  (tcp_receive (take n (frame m))).1 = Err "unexpected end of file".
Proof.
  intros Hm Hn. unfold tcp_receive, frame in *. rewrite length_app, length_to_le_bytes in Hn.
  destruct (decide (n < 8)) as [H8|H8].
  - unfold read_exact. rewrite decide_False; [done|]. rewrite length_take. lia.
  - rewrite take_app, length_to_le_bytes, take_ge by (rewrite length_to_le_bytes; lia).
    pose proof (read_exact_app (to_le_bytes 8 (blen m)) (take (n - 8) m)) as He.
    rewrite length_to_le_bytes in He. rewrite He.
    rewrite from_to_le_bytes by (pose proof (blen_nonneg m); unfold MAX_MESSAGE_BYTES in *; lia).
    replace (MAX_MESSAGE_BYTES <? blen m)%Z with false by lia.
    unfold blen. rewrite Nat2Z.id. unfold read_exact. rewrite decide_False; [done|].
    rewrite length_take. lia.
Qed.

Lemma receive_all_cut messages n :
  Forall (λ m, blen m ≤ MAX_MESSAGE_BYTES)%Z messages →
  ∃ k, k ≤ length messages ∧
    receive_all (S (length messages)) (take n (concat (frame <$> messages)))
      = (take k messages, Err "unexpected end of file") ∧
    ∀ j, j ≤ length messages → length (concat (frame <$> take j messages)) ≤ n → j ≤ k.
Proof.
  intros Hall. revert n. induction Hall as [|m messages Hm _ IH]; intros n.
  { exists 0. change (concat (frame <$> [])) with (@nil Byte.byte). rewrite !take_nil.
    split_and!; [lia|by vm_compute|simpl; lia]. }
  rewrite fmap_cons. cbn [concat length receive_all].
  destruct (decide (length (frame m) ≤ n)) as [Hn|Hn].
  - destruct (IH (n - length (frame m))) as (k & Hk & Hrec & Hmax). exists (S k).
    rewrite take_app, (take_ge (frame m)), receive_frame by done. cbn [receive_all] in Hrec.
    rewrite Hrec. split_and!; [lia|done|]. intros [|j] Hj Hlen; [lia|].
    rewrite firstn_cons, fmap_cons in Hlen. cbn [concat] in Hlen. rewrite length_app in Hlen.
    assert (j ≤ k); [apply Hmax|]; lia.
  - exists 0. rewrite take_app_le by lia. pose proof (receive_cut_frame m n Hm ltac:(lia)) as Hcut.
    destruct (tcp_receive (take n (frame m))) as [r rest]. simpl in Hcut. subst r.
    split_and!; [lia|done|]. intros [|j] Hj Hlen; [lia|].
    rewrite firstn_cons, fmap_cons in Hlen. cbn [concat] in Hlen. rewrite length_app in Hlen. lia.
Qed.

(** Messages survive framing.  If the connection is cut anywhere while messages that
    respect the limit are sent, the other side receives exactly the messages that arrived
    in full, in order, and then the end of the stream. *)
Theorem framing_roundtrip messages n :
  Forall (λ m, blen m ≤ MAX_MESSAGE_BYTES)%Z messages →
  ∃ stream k, send_all [] messages = Ok stream ∧ k ≤ length messages ∧
    receive_all (S (length messages)) (take n stream)
      = (take k messages, Err "unexpected end of file") ∧
    ∀ j, j ≤ length messages → length (concat (frame <$> take j messages)) ≤ n → j ≤ k.
Proof.
  intros Hall. destruct (receive_all_cut messages n Hall) as (k & Hk & Hrec & Hmax).
  exists (concat (frame <$> messages)), k. by rewrite send_all_frames.
Qed.

Lemma framing_roundtrip_witness :
  ∃ stream k, send_all [] [[Byte.x61]; [Byte.x62; Byte.x63]] = Ok stream ∧ 1 ≤ k ∧
    receive_all 3 (take 12 stream) = (take k [[Byte.x61]; [Byte.x62; Byte.x63]], Err "unexpected end of file").
Proof.
  destruct (framing_roundtrip [[Byte.x61]; [Byte.x62; Byte.x63]] 12) as (stream & k & Hs & _ & Hr & Hmax).
  - repeat constructor; vm_compute; discriminate.
  - exists stream, k. split; [exact Hs|]. split; [apply (Hmax 1); vm_compute; lia|exact Hr].
Defined.
