(* ===== verification/Listener.v ===== *)
(** * The daemon's listener for a node

    Models [Listener] of [binaries/daemon/src/node_communication/mod.rs], the task that
    serves one connection of a node: it moves the node's events from their channel into a
    queue, hands them out on request, and passes the node's other requests to the daemon.
    Also modelled: which requests are answered over TCP ([node_to_daemon.rs] and
    [send_reply] of [tcp.rs]).  A wait of the task (for the daemon's reply, for an event)
    is a state of its own, so that the daemon's sends interleave with it.  What the
    connection and the daemon do is an input of each step. *)

From Stdlib Require Import ZArith Lia.
From stdpp Require Import base gmap list strings.
From S2P Require Import Prelude Message Channel Pending Daemon.

(** ** Requests *)

Inductive DaemonRequest :=
| ReqRegister (dataflow_id : DataflowId) (node_id : NodeId) (dora_version : string)
| ReqSubscribe
| ReqSendMessage (output_id : DataId) (metadata : Metadata) (data : option DataMessage)
| ReqCloseOutputs (outputs : list DataId)
| ReqOutputsDone
| ReqNextEvent (drop_tokens : list DropToken)
| ReqReportDropTokens (drop_tokens : list DropToken)
| ReqSubscribeDrop
| ReqNextFinishedDropTokens
| ReqEventStreamDropped
| ReqNodeConfig (node_id : NodeId).

Definition expects_tcp_bincode_reply (r : DaemonRequest) : bool :=
  match r with
  | ReqSendMessage _ _ _ | ReqNodeConfig _ | ReqReportDropTokens _ => false
  | ReqRegister _ _ _ | ReqSubscribe | ReqCloseOutputs _ | ReqOutputsDone | ReqNextEvent _
  | ReqSubscribeDrop | ReqNextFinishedDropTokens | ReqEventStreamDropped => true
  end.

Definition expects_tcp_json_reply (r : DaemonRequest) : bool :=
  match r with ReqNodeConfig _ => true | _ => false end.

(** ** State *)

(** What the task does when the awaited reply of the daemon has been passed on. *)
Inductive AfterReply := AfterNothing | AfterSubscribe (c : SubId) | AfterSubscribeDrop (c : DropSubId).

Inductive Phase := Idle | AwaitReply (after : AfterReply) | AwaitEvent (c : SubId)
| AwaitDropEvent (c : DropSubId) | Disconnected.

Record Listener := mkListener {
  listener_dataflow : DataflowId;
  listener_node : NodeId;
  subscribed_events : option SubId;
  subscribed_drop_events : option DropSubId;
  queue : list (option NodeEvent);
  listener_activity : Z;
  phase : Phase
}.

(** The listener with the channels it shares with the daemon, what it has sent to the
    daemon, and the replies written to its connection. *)
Record ListenerWorld := mkWorld {
  listener : Listener;
  event_channels : gmap SubId Subscription;
  drop_event_channels : gmap DropSubId DropSubscription;
  daemon_tx : list Event;
  connection_out : list DaemonReply
}.

(** Whether the daemon's event loop and the connection take messages, the identity of a
    new reply channel, and the clock. *)
Record Env := mkEnv {
  daemon_alive : bool;
  connection_ok : bool;
  reply_id : ReplyId;
  now_millis : Z
}.

Definition with_listener (f : Listener → Listener) (w : ListenerWorld) : ListenerWorld :=
  {| w with listener := f (listener w) |}.
Definition set_phase (p : Phase) : ListenerWorld → ListenerWorld :=
  with_listener (λ l, {| l with phase := p |}).
Definition set_queue (q : list (option NodeEvent)) : ListenerWorld → ListenerWorld :=
  with_listener (λ l, {| l with queue := q |}).

(** ** Operations *)

Definition send_reply (env : Env) (r : DaemonReply) (w : ListenerWorld) : res unit * ListenerWorld :=
  if connection_ok env then (Ok tt, {| w with connection_out := connection_out w ++ [r] |})
  else (Err "failed to send reply to node", w).

Definition send_daemon (env : Env) (event : DaemonNodeEvent) (err : string) (w : ListenerWorld)
    : res unit * ListenerWorld :=
  if daemon_alive env then
    (Ok tt, {| w with daemon_tx :=
       daemon_tx w ++ [ENode (listener_dataflow (listener w)) (listener_node (listener w)) event] |})
  else (Err err, w).

(** Closing the receiving end of a channel, when its owner is replaced or dropped. *)
Definition close_rx (c : option SubId) (w : ListenerWorld) : ListenerWorld :=
  match c with
  | Some c => {| w with event_channels := alter drop_receiver c (event_channels w) |}
  | None => w
  end.
Definition close_drop_rx (c : option DropSubId) (w : ListenerWorld) : ListenerWorld :=
  match c with
  | Some c => {| w with drop_event_channels :=
                   alter (λ s, mkDropSub [] false) c (drop_event_channels w) |}
  | None => w
  end.

(** The receiver created for a request is dropped when the request fails, and otherwise
    replaces the previous one. *)
Definition abandon (after : AfterReply) (w : ListenerWorld) : ListenerWorld :=
  match after with
  | AfterNothing => w
  | AfterSubscribe c => close_rx (Some c) w
  | AfterSubscribeDrop c => close_drop_rx (Some c) w
  end.
Definition install (after : AfterReply) (w : ListenerWorld) : ListenerWorld :=
  match after with
  | AfterNothing => w
  | AfterSubscribe c =>
      with_listener (λ l, {| l with subscribed_events := Some c |})
        (close_rx (subscribed_events (listener w)) w)
  | AfterSubscribeDrop c =>
      with_listener (λ l, {| l with subscribed_drop_events := Some c |})
        (close_drop_rx (subscribed_drop_events (listener w)) w)
  end.

(** [process_daemon_event] with a reply channel, up to the wait for the reply, and the rest
    once the reply has come ([None] if the daemon has dropped the reply channel). *)
Definition process_daemon_event (env : Env) (event : DaemonNodeEvent) (after : AfterReply)
    (w : ListenerWorld) : res unit * ListenerWorld :=
  match send_daemon env event "failed to send event to daemon" w with
  | (Ok _, w) => (Ok tt, set_phase (AwaitReply after) w)
  | (r, w) => (r, abandon after w)
  end.

Definition receive_daemon_reply (env : Env) (reply : option DaemonReply) (after : AfterReply)
    (w : ListenerWorld) : res unit * ListenerWorld :=
  let w := set_phase Idle w in
  match reply with
  | None => (Err "failed to receive reply from daemon", abandon after w)
  | Some reply =>
      match send_reply env reply w with
      | (Ok _, w) => (Ok tt, install after w)
      | (r, w) => (r, abandon after w)
      end
  end.

Definition report_drop_tokens (env : Env) (drop_tokens : list DropToken) (w : ListenerWorld)
    : res unit * ListenerWorld :=
  if bool_decide (drop_tokens = []) then (Ok tt, w)
  else send_daemon env (ReportDrop drop_tokens) "failed to report drop tokens to daemon" w.

(** Taking the oldest event of the subscribed channel, and counting it. *)
Definition take_event (c : SubId) (w : ListenerWorld) : option NodeEvent * ListenerWorld :=
  match event_channels w !! c with
  | Some s =>
      let '(event, s) := recv_event s in
      (event, {| w with event_channels := <[c := s]> (event_channels w) |})
  | None => (None, w)
  end.

Definition push_queue (event : NodeEvent) (w : ListenerWorld) : ListenerWorld :=
  set_queue (queue (listener w) ++ [Some event]) w.

(** [handle_events]: draining the channel; it holds [fuel] events at most. *)
Fixpoint drain_events (fuel : nat) (c : SubId) (w : ListenerWorld) : ListenerWorld :=
  match fuel with
  | O => w
  | S fuel =>
      match take_event c w with
      | (Some event, w) => drain_events fuel c (push_queue event w)
      | (None, w) => w
      end
  end.

Definition handle_events (w : ListenerWorld) : ListenerWorld :=
  match subscribed_events (listener w) with
  | Some c => drain_events (length (default [] (in_flight <$> event_channels w !! c))) c w
  | None => w
  end.

(** [run_inner] when [next_event] is ready before the next message. *)
Definition run_next_event (w : ListenerWorld) : ListenerWorld :=
  match subscribed_events (listener w) with
  | Some c =>
      match take_event c w with
      | (Some event, w) => handle_events (push_queue event w)
      | (None, w) => w
      end
  | None => w
  end.

Definition reply_next_events (env : Env) (events : list NodeEvent) : ListenerWorld → res unit * ListenerWorld :=
  send_reply env (ReplyNextEvents events).

Definition handle_next_event (env : Env) (drop_tokens : list DropToken) (w : ListenerWorld)
    : res unit * ListenerWorld :=
  match report_drop_tokens env drop_tokens w with
  | (Ok _, w) =>
      let queued_events := omap id (queue (listener w)) in
      let w := set_queue [] w in
      if bool_decide (queued_events = []) then
        match subscribed_events (listener w) with
        | Some c => (Ok tt, set_phase (AwaitEvent c) w)
        | None =>
            send_reply env (ReplyResult (Err
              "Ignoring event request because no subscribe message was sent yet")) w
        end
      else reply_next_events env queued_events w
  | r => r
  end.

Definition handle_message (env : Env) (message : DaemonRequest) (w : ListenerWorld)
    : res unit * ListenerWorld :=
  let w := with_listener (λ l, {| l with listener_activity := now_millis env |}) w in
  match message with
  | ReqRegister _ _ _ => send_reply env (ReplyResult (Err "unexpected register message")) w
  | ReqNodeConfig _ => send_reply env (ReplyResult (Err "unexpected node config message")) w
  | ReqOutputsDone => process_daemon_event env (OutputsDone (reply_id env)) AfterNothing w
  | ReqCloseOutputs outputs =>
      process_daemon_event env (CloseOutputs outputs (reply_id env)) AfterNothing w
  | ReqSendMessage output_id metadata data =>
      match send_daemon env (SendOut output_id metadata data) "failed to send event to daemon" w with
      | (Ok _, w) => send_reply env ReplyEmpty w
      | r => r
      end
  | ReqSubscribe =>
      let c := fresh (dom (event_channels w)) in
      process_daemon_event env (Subscribe c (reply_id env)) (AfterSubscribe c)
        {| w with event_channels := <[c := new_subscription]> (event_channels w) |}
  | ReqSubscribeDrop =>
      let c := fresh (dom (drop_event_channels w)) in
      process_daemon_event env (SubscribeDrop c (reply_id env)) (AfterSubscribeDrop c)
        {| w with drop_event_channels := <[c := mkDropSub [] true]> (drop_event_channels w) |}
  | ReqNextEvent drop_tokens => handle_next_event env drop_tokens w
  | ReqReportDropTokens drop_tokens =>
      match report_drop_tokens env drop_tokens w with
      | (Ok _, w) => send_reply env ReplyEmpty w
      | r => r
      end
  | ReqNextFinishedDropTokens =>
      match subscribed_drop_events (listener w) with
      | Some c => (Ok tt, set_phase (AwaitDropEvent c) w)
      | None =>
          send_reply env (ReplyResult (Err
            "Ignoring event request because no drop subscribe message was sent yet")) w
      end
  | ReqEventStreamDropped => process_daemon_event env (EventStreamDropped (reply_id env)) AfterNothing w
  end.

(** The end of a wait for an event: the channel has one, or all its senders are gone. *)
Definition receive_event (env : Env) (senders_gone : bool) (c : SubId) (w : ListenerWorld)
    : res unit * ListenerWorld :=
  match take_event c w with
  | (Some event, w) => reply_next_events env [event] (set_phase Idle w)
  | (None, w) => if senders_gone then reply_next_events env [] (set_phase Idle w) else (Ok tt, w)
  end.

Definition receive_drop_event (env : Env) (senders_gone : bool) (c : DropSubId) (w : ListenerWorld)
    : res unit * ListenerWorld :=
  match drop_event_channels w !! c with
  | Some s =>
      match drop_events s with
      | event :: rest =>
          send_reply env (ReplyNextDropEvents [event])
            (set_phase Idle {| w with drop_event_channels :=
               <[c := {| s with drop_events := rest |}]> (drop_event_channels w) |})
      | [] => if senders_gone then send_reply env (ReplyNextDropEvents []) (set_phase Idle w)
              else (Ok tt, w)
      end
  | None => (Ok tt, w)
  end.

(** The loop ends when the node has disconnected; the receivers are dropped with the
    listener. *)
Definition disconnect (w : ListenerWorld) : ListenerWorld :=
  set_phase Disconnected
    (close_drop_rx (subscribed_drop_events (listener w))
       (close_rx (subscribed_events (listener w)) w)).

(** [Listener::run]: the first message of a connection must be a compatible registration.
    The version check is the one of the semver library. *)
Section registration.
Context (check_version : string → res unit).

Definition run_register (env : Env) (message : DaemonRequest) (activity : Z)
    : option Listener * list DaemonReply :=
  match message with
  | ReqRegister dataflow_id node_id dora_version =>
      let result := check_version dora_version in
      (match result with
       | Ok _ => if connection_ok env
                 then Some (mkListener dataflow_id node_id None None [] activity Idle) else None
       | _ => None
       end, if connection_ok env then [ReplyResult result] else [])
  | _ => (None, if connection_ok env
                then [ReplyResult (Err "must send register message first")] else [])
  end.
End registration.

(** ** Steps *)

(** One step of the listener or of the daemon's side of its channels.  Errors of
    [handle_message] are only logged. *)
Inductive laction :=
| LDaemonSend (c : SubId) (event : NodeEvent)
| LDaemonSendDrop (c : DropSubId) (event : NodeDropEvent)
| LNextEvent
| LDisconnect
| LMessage (env : Env) (message : DaemonRequest)
| LReply (env : Env) (reply : option DaemonReply)
| LWake (env : Env) (senders_gone : bool).

Definition lstep (w : ListenerWorld) (a : laction) : ListenerWorld :=
  match a, phase (listener w) with
  | LDaemonSend c event, _ =>
      {| w with event_channels := alter (λ s, (send_counted s event).2) c (event_channels w) |}
  | LDaemonSendDrop c event, _ =>
      {| w with drop_event_channels :=
           alter (λ s, (send_drop_with_timestamp s event).2) c (drop_event_channels w) |}
  | LNextEvent, Idle => run_next_event w
  | LDisconnect, Idle => disconnect w
  | LMessage env message, Idle => (handle_message env message w).2
  | LReply env reply, AwaitReply after => (receive_daemon_reply env reply after w).2
  | LWake env senders_gone, AwaitEvent c => (receive_event env senders_gone c w).2
  | LWake env senders_gone, AwaitDropEvent c => (receive_drop_event env senders_gone c w).2
  | _, _ => w
  end.

Definition listener_run : ListenerWorld → list laction → ListenerWorld := foldl lstep.

(** ** Order of events *)

(** The events handed to the node, those in the listener's queue, and those in flight. *)
Definition delivered (w : ListenerWorld) : list NodeEvent :=
  concat ((λ r, match r with ReplyNextEvents events => events | _ => [] end) <$> connection_out w).
Definition queued (w : ListenerWorld) : list NodeEvent := omap id (queue (listener w)).
Definition in_channel (c : SubId) (w : ListenerWorld) : list NodeEvent :=
  default [] (in_flight <$> event_channels w !! c).
Definition history (c : SubId) (w : ListenerWorld) : list NodeEvent :=
  delivered w ++ queued w ++ in_channel c w.

(** The events the channel accepts from the daemon during a run. *)
Definition accepted (c : SubId) (w : ListenerWorld) (a : laction) : list NodeEvent :=
  match a with
  | LDaemonSend c' event =>
      if bool_decide (c' = c ∧ (λ s, (send_counted s event).1) <$> event_channels w !! c = Some (Some true))
      then [event] else []
  | _ => []
  end.
Fixpoint accepted_all (c : SubId) (w : ListenerWorld) (actions : list laction) : list NodeEvent :=
  match actions with
  | [] => []
  | a :: actions => accepted c w a ++ accepted_all c (lstep w a) actions
  end.

(** Steps in which the connection works and the node keeps its subscription. *)
Definition calm (a : laction) : bool :=
  match a with
  | LMessage env message =>
      connection_ok env && match message with ReqSubscribe => false | _ => true end
  | LReply env _ | LWake env _ => connection_ok env
  | LDisconnect => false
  | _ => true
  end.

(** The listener serves channel [c]; while it waits for an event its queue is empty. *)
Definition serves (c : SubId) (w : ListenerWorld) : Prop :=
  subscribed_events (listener w) = Some c ∧
  match phase (listener w) with
  | AwaitEvent c' => c' = c ∧ queue (listener w) = []
  | AwaitReply (AfterSubscribe _) => False
  | _ => True
  end.

Lemma take_event_cases c w :
  match take_event c w with
  | (Some event, w') =>
      in_channel c w = event :: in_channel c w' ∧
      ∃ chans, w' = {| w with event_channels := chans |}
  | (None, w') =>
      in_channel c w = [] ∧ in_channel c w' = [] ∧ ∃ chans, w' = {| w with event_channels := chans |}
  end.
Proof.
  unfold take_event, in_channel. destruct (event_channels w !! c) as [s|] eqn:Hc.
  - unfold recv_event. destruct (in_flight s) as [|event rest] eqn:Hf; simpl.
    + rewrite lookup_insert_eq. simpl. split_and!; [done..|]. by eexists.
    + rewrite lookup_insert_eq. simpl. split; [by rewrite Hf|]. by eexists.
  - rewrite Hc. split_and!; [done..|]. exists (event_channels w). by destruct w.
Qed.

Lemma queued_push event w : queued (push_queue event w) = queued w ++ [event].
Proof. unfold queued, push_queue. simpl. by rewrite omap_app. Qed.

Lemma drain_history fuel c w :
  history c (drain_events fuel c w) = history c w ∧
  ∃ chans q, drain_events fuel c w = set_queue q {| w with event_channels := chans |}.
Proof.
  revert w. induction fuel as [|fuel IH]; intros w; simpl.
  { split; [done|]. exists (event_channels w), (queue (listener w)). by destruct w as [[]]. }
  pose proof (take_event_cases c w) as Ht. destruct (take_event c w) as [[event|] w1].
  - destruct Ht as (Hin & chans & Hw1). destruct (IH (push_queue event w1)) as (Hh & chans' & q & Heq).
    split; [|exists chans', q; rewrite Heq; by subst].
    rewrite Hh. unfold history. rewrite queued_push, Hin, <- !app_assoc. by subst.
  - destruct Ht as (Hin & Hin1 & chans & Hw1). split; [|exists chans, (queue (listener w)); subst; by destruct w as [[]]].
    unfold history. rewrite Hin, Hin1. by subst.
Qed.

Definition events_of (r : DaemonReply) : list NodeEvent :=
  match r with ReplyNextEvents events => events | _ => [] end.

Lemma delivered_reply env r w :
  connection_ok env = true → delivered (send_reply env r w).2 = delivered w ++ events_of r.
Proof.
  unfold send_reply, delivered. intros ->. simpl. rewrite fmap_app, concat_app. simpl.
  by rewrite app_nil_r.
Qed.

Lemma send_reply_frame env r w :
  listener (send_reply env r w).2 = listener w ∧
  event_channels (send_reply env r w).2 = event_channels w.
Proof. unfold send_reply. by case_match. Qed.

(** What does not touch the events: [flow w w'] says that the events, where they are, and
    the subscription are the same. *)
Definition flow (w w' : ListenerWorld) : Prop :=
  subscribed_events (listener w') = subscribed_events (listener w) ∧
  delivered w' = delivered w ∧ queue (listener w') = queue (listener w) ∧
  event_channels w' = event_channels w.

Lemma flow_history c w w' : flow w w' → history c w' = history c w.
Proof. intros (_ & Hd & Hq & Hc). unfold history, queued, in_channel. by rewrite Hd, Hq, Hc. Qed.

Lemma flow_reply env r w : events_of r = [] → flow w (send_reply env r w).2.
Proof.
  intros Hr. destruct (connection_ok env) eqn:Hok; [|by unfold send_reply; rewrite Hok].
  destruct (send_reply_frame env r w) as [Hl Hc]. unfold flow. rewrite Hl, Hc.
  split_and!; [done| |done..]. by rewrite (delivered_reply env r w Hok), Hr, app_nil_r.
Qed.

Lemma flow_trans w1 w2 w3 : flow w1 w2 → flow w2 w3 → flow w1 w3.
Proof. intros (?&?&?&?) (?&?&?&?). unfold flow. split_and!; congruence. Qed.

Lemma flow_daemon env event err w : flow w (send_daemon env event err w).2.
Proof. unfold send_daemon. by case_match. Qed.

Lemma flow_report env tokens w : flow w (report_drop_tokens env tokens w).2.
Proof. unfold report_drop_tokens. case_match; [done|apply flow_daemon]. Qed.

Lemma send_daemon_phase env event err w :
  phase (listener (send_daemon env event err w).2) = phase (listener w).
Proof. unfold send_daemon. by case_match. Qed.

(** The phases in which the listener neither waits for an event nor for a subscription. *)
Definition quiet (p : Phase) : Prop :=
  match p with AwaitEvent _ | AwaitReply (AfterSubscribe _) => False | _ => True end.

Lemma flow_serves c w w' :
  flow w w' → quiet (phase (listener w')) → serves c w → serves c w'.
Proof.
  intros (Hs & _) Hq [Hsub _]. split; [congruence|]. by destruct (phase (listener w')) as [|[]| | |].
Qed.

Lemma process_daemon_event_quiet env event after w :
  quiet (AwaitReply after) → quiet (phase (listener w)) →
  let w' := (process_daemon_event env event after w).2 in
  flow w w' ∧ quiet (phase (listener w')).
Proof.
  intros Ha Hw. unfold process_daemon_event, send_daemon.
  destruct (daemon_alive env); [done|]. by destruct after.
Qed.

Lemma reply_quiet env r w w1 :
  flow w w1 → events_of r = [] → quiet (phase (listener w1)) →
  flow w (send_reply env r w1).2 ∧ quiet (phase (listener (send_reply env r w1).2)).
Proof.
  intros Hw Hr Hq. split; [eapply flow_trans; [exact Hw|by apply flow_reply]|].
  by destruct (send_reply_frame env r w1) as [-> _].
Qed.

Lemma handle_message_quiet env message w :
  phase (listener w) = Idle →
  match message with ReqSubscribe | ReqNextEvent _ => False | _ => True end →
  let w' := (handle_message env message w).2 in flow w w' ∧ quiet (phase (listener w')).
Proof.
  intros Hidle Hmsg. unfold handle_message.
  set (w1 := with_listener _ w). assert (flow w w1) as Hw1 by done.
  assert (quiet (phase (listener w1))) as Hq by (simpl; by rewrite Hidle).
  assert (∀ w', flow w1 w' ∧ quiet (phase (listener w')) → flow w w' ∧ quiet (phase (listener w')))
    as Hgo by (intros w' []; split; [by eapply flow_trans|done]).
  clearbody w1. destruct message; try done; try (by apply Hgo, reply_quiet);
    try (by apply Hgo, process_daemon_event_quiet).
  - apply Hgo. unfold send_daemon. destruct (daemon_alive env); [|done]. by apply reply_quiet.
  - apply Hgo. pose proof (flow_report env drop_tokens w1) as Hf.
    unfold report_drop_tokens, send_daemon in *. repeat case_match; simplify_eq; try done;
      by apply reply_quiet.
  - apply Hgo. set (w2 := {| w1 with drop_event_channels := _ |}).
    by apply (process_daemon_event_quiet env _ _ w2).
  - apply Hgo. destruct (subscribed_drop_events (listener w1)); [done|by apply reply_quiet].
Qed.

Lemma handle_next_event_history env tokens c w :
  connection_ok env = true → phase (listener w) = Idle → serves c w →
  let w' := (handle_next_event env tokens w).2 in
  serves c w' ∧ history c w' = history c w.
Proof.
  intros Hok Hidle Hs. unfold handle_next_event. pose proof (flow_report env tokens w) as Hf.
  assert (phase (listener (report_drop_tokens env tokens w).2) = Idle) as Hp.
  { unfold report_drop_tokens. case_match; [done|]. by rewrite send_daemon_phase. }
  destruct (report_drop_tokens env tokens w) as [[[]|e|] w1]; simpl in *;
    [|split; [apply (flow_serves c w); by rewrite ?Hp|by apply flow_history]..].
  pose proof (flow_history c _ _ Hf) as Hh. apply (flow_serves c _ _ Hf) in Hs; [|by rewrite Hp].
  rewrite <- Hh. destruct Hs as [Hsub _]. rewrite Hsub. case_bool_decide as Hq; simpl.
  - split; [by split|]. unfold history, queued at 2. by rewrite Hq.
  - unfold reply_next_events. destruct (send_reply_frame env (ReplyNextEvents (omap id (queue (listener w1))))
      (set_queue [] w1)) as [Hl Hc]. split.
    + unfold serves. rewrite Hl. simpl. by rewrite Hsub, Hp.
    + unfold history, queued, in_channel. rewrite Hl, Hc, delivered_reply by done. simpl.
      by rewrite <- app_assoc.
Qed.

Lemma run_next_event_history c w :
  phase (listener w) = Idle → serves c w →
  serves c (run_next_event w) ∧ history c (run_next_event w) = history c w.
Proof.
  intros Hidle [Hsub _]. unfold run_next_event. rewrite Hsub.
  pose proof (take_event_cases c w) as Ht. destruct (take_event c w) as [[event|] w1].
  - destruct Ht as (Hin & chans & ->). set (w2 := push_queue _ _). unfold handle_events.
    replace (subscribed_events (listener w2)) with (Some c) by done.
    edestruct drain_history as (Hh & chans' & q & Heq). split.
    + rewrite Heq. split; [done|]. simpl. by rewrite Hidle.
    + rewrite Hh. unfold history, w2. rewrite queued_push, Hin, <- !app_assoc. done.
  - destruct Ht as (Hin & Hin1 & chans & ->). split; [by split; [|simpl; rewrite Hidle]|].
    unfold history. by rewrite Hin, Hin1.
Qed.

Lemma receive_event_history env gone c w :
  connection_ok env = true → serves c w → phase (listener w) = AwaitEvent c →
  let w' := (receive_event env gone c w).2 in serves c w' ∧ history c w' = history c w.
Proof.
  intros Hok [Hsub Hp] Hphase. rewrite Hphase in Hp. destruct Hp as [_ Hq]. unfold receive_event.
  pose proof (take_event_cases c w) as Ht.
  assert (∀ w1 events chans, w1 = {| w with event_channels := chans |} →
    in_channel c w = events ++ in_channel c w1 →
    serves c (reply_next_events env events (set_phase Idle w1)).2 ∧
    history c (reply_next_events env events (set_phase Idle w1)).2 = history c w) as Hgo.
  { intros w1 events chans -> Hin. unfold reply_next_events.
    destruct (send_reply_frame env (ReplyNextEvents events) (set_phase Idle {| w with event_channels := chans |}))
      as [Hl Hc]. split; [unfold serves; rewrite Hl; by simpl|].
    unfold history, queued at 1, in_channel at 1. rewrite Hl, Hc, delivered_reply by done. simpl.
    unfold queued. rewrite Hq, Hin. simpl. by rewrite <- app_assoc. }
  destruct (take_event c w) as [[event|] w1].
  - destruct Ht as (Hin & chans & Hw1). by apply (Hgo w1 [event] chans).
  - destruct Ht as (Hin & Hin1 & chans & Hw1). destruct gone.
    + apply (Hgo w1 [] chans); [done|]. by rewrite Hin, Hin1.
    + simpl. subst w1. split; [split; [done|]; simpl; by rewrite Hphase|].
      unfold history. by rewrite Hin, Hin1.
Qed.

Lemma daemon_send_history c w c' event :
  history c (lstep w (LDaemonSend c' event)) = history c w ++ accepted c w (LDaemonSend c' event).
Proof.
  unfold history, accepted, in_channel. cbn [lstep delivered queued listener event_channels connection_out].
  rewrite <- !app_assoc. do 2 f_equal. destruct (decide (c' = c)) as [->|Hne].
  2: { rewrite lookup_alter_ne, bool_decide_false by naive_solver. by rewrite app_nil_r. }
  rewrite lookup_alter_eq. destruct (event_channels w !! c) as [s|]; simpl; [|by rewrite bool_decide_false by naive_solver].
  unfold send_counted. destruct (send_with_timestamp s event) as [[[]|] s'] eqn:Hsend.
  - apply send_with_timestamp_true in Hsend as [_ ->]. simpl. by rewrite bool_decide_true.
  - apply send_with_timestamp_other in Hsend as ->; [|done]. simpl.
    rewrite bool_decide_false by naive_solver. by rewrite app_nil_r.
  - apply send_with_timestamp_other in Hsend as ->; [|done]. simpl.
    rewrite bool_decide_false by naive_solver. by rewrite app_nil_r.
Qed.

Lemma receive_reply_quiet env reply after w :
  (∀ r, reply = Some r → events_of r = []) → quiet (AwaitReply after) →
  let w' := (receive_daemon_reply env reply after w).2 in
  flow w w' ∧ quiet (phase (listener w')).
Proof.
  intros Hr Ha. unfold receive_daemon_reply. assert (flow w (set_phase Idle w)) as Hw by done.
  destruct reply as [r|]; [|by destruct after].
  destruct (reply_quiet env r w (set_phase Idle w) Hw (Hr r eq_refl)) as [Hf Hq]; [done|].
  destruct (send_reply env r (set_phase Idle w)) as [[] w1]; destruct after; try done.
  simpl. by destruct (subscribed_drop_events (listener w1)).
Qed.

Lemma receive_drop_event_quiet env gone c w :
  quiet (phase (listener w)) →
  let w' := (receive_drop_event env gone c w).2 in flow w w' ∧ quiet (phase (listener w')).
Proof.
  intros Hq. unfold receive_drop_event. destruct (drop_event_channels w !! c) as [s|]; [|done].
  destruct (drop_events s) as [|event rest]; [destruct gone; [|done]|]; by apply reply_quiet.
Qed.

(** Replies of the daemon carry no node events: those come from the listener itself. *)
Definition daemon_reply (a : laction) : bool :=
  match a with LReply _ (Some (ReplyNextEvents _)) => false | _ => true end.

Lemma lstep_history c w a :
  calm a = true → daemon_reply a = true → serves c w →
  serves c (lstep w a) ∧ history c (lstep w a) = history c w ++ accepted c w a.
Proof.
  intros Hcalm Hr Hs.
  assert (∀ w', serves c w' ∧ history c w' = history c w →
    serves c w' ∧ history c w' = history c w ++ []) as Hsame by (intros w'; by rewrite app_nil_r).
  destruct a as [c' event|c' event| | |env message|env reply|env gone];
    [split; [exact Hs|apply daemon_send_history]|..];
    destruct (phase (listener w)) as [|after|c0|c0|] eqn:Hp; try done; unfold lstep; rewrite ?Hp; apply Hsame;
    try (by split); try (by split; [exact Hs|]).
  - by apply run_next_event_history.
  - apply andb_true_iff in Hcalm as [Hok Hmsg]. destruct message; try done;
      try (match goal with |- context [handle_message ?e ?m _] =>
             destruct (handle_message_quiet e m w Hp I) as [Hf Hq];
             split; [by eapply flow_serves|by apply flow_history] end).
    unfold handle_message. set (w1 := with_listener _ w). change (history c w) with (history c w1).
    by apply handle_next_event_history.
  - destruct Hs as [Hsub Hs']. rewrite Hp in Hs'.
    assert (quiet (AwaitReply after)) as Hq0 by by destruct after.
    destruct (receive_reply_quiet env reply after w) as [Hf Hq]; [by intros [] ->|done|].
    split; [|by apply flow_history]. eapply flow_serves; [done..|]. split; [done|]. by rewrite Hp.
  - destruct Hs as [Hsub Hs']. rewrite Hp in Hs'. destruct Hs' as [-> Hq].
    apply receive_event_history; [done| |done]. split; [done|]. by rewrite Hp.
  - destruct (receive_drop_event_quiet env gone c0 w) as [Hf Hq]; [by rewrite Hp|].
    split; [by eapply flow_serves|by apply flow_history].
Qed.

(** C16. A node gets its events in order, once and completely.  While the connection works,
    whatever requests the node makes and however they interleave with the daemon's sends,
    the events handed to the node, followed by those queued in the listener and those still
    in the channel, are the ones that were there before and then, in order, the ones the
    channel has accepted since. *)
Theorem listener_fifo c w actions :
  serves c w → Forall (λ a, calm a = true ∧ daemon_reply a = true) actions →
  history c (listener_run w actions) = history c w ++ accepted_all c w actions.
Proof.
  intros Hs Hall. revert w Hs. induction Hall as [|a actions [Hc Hr] _ IH]; intros w Hs; simpl.
  { by rewrite app_nil_r. }
  destruct (lstep_history c w a Hc Hr Hs) as [Hs' Hh].
  change (listener_run w (a :: actions)) with (listener_run (lstep w a) actions).
  by rewrite IH, Hh, <- app_assoc.
Qed.

(** ** Answers over TCP *)

(** [send_reply] of the TCP connection writes nothing for [Empty]. *)
Definition tcp_writes (r : DaemonReply) : bool := match r with ReplyEmpty => false | _ => true end.

(** How a wait of the listener ends when the daemon answers: with a reply that is not
    [Empty], with an event, or with the end of the channel. *)
Definition answered (w : ListenerWorld) (a : laction) : Prop :=
  match phase (listener w), a with
  | AwaitReply _, LReply env (Some r) => connection_ok env = true ∧ tcp_writes r = true
  | AwaitEvent c, LWake env gone => connection_ok env = true ∧ (gone = true ∨ in_channel c w ≠ [])
  | AwaitDropEvent c, LWake env gone =>
      connection_ok env = true ∧
      ∃ s, drop_event_channels w !! c = Some s ∧ (gone = true ∨ drop_events s ≠ [])
  | _, _ => False
  end.

Lemma wait_answered w a :
  phase (listener w) ≠ Idle → answered w a →
  phase (listener (lstep w a)) = Idle ∧
  ∃ r, tcp_writes r = true ∧ connection_out (lstep w a) = connection_out w ++ [r].
Proof.
  unfold answered, lstep. intros Hne Ha.
  destruct (phase (listener w)) as [|after|c|c|] eqn:Hp; destruct a; try done.
  - destruct reply as [r|]; [|done]. destruct Ha as [Hok Hw].
    unfold receive_daemon_reply, send_reply. rewrite Hok. destruct after; simpl.
    + split; [done|]. by exists r.
    + destruct (subscribed_events (listener w)); (split; [done|by exists r]).
    + destruct (subscribed_drop_events (listener w)); (split; [done|by exists r]).
  - destruct Ha as [Hok Hin]. unfold receive_event, reply_next_events, send_reply. rewrite Hok.
    pose proof (take_event_cases c w) as Ht. destruct (take_event c w) as [[event|] w1].
    + destruct Ht as (_ & chans & ->). split; [done|]. by exists (ReplyNextEvents [event]).
    + destruct Ht as (Hc & _ & chans & ->). destruct Hin as [->|]; [|done].
      split; [done|]. by exists (ReplyNextEvents []).
  - destruct Ha as (Hok & s & Hs & Hin). unfold receive_drop_event, send_reply. rewrite Hs, Hok.
    destruct (drop_events s) as [|event rest].
    + destruct Hin as [->|]; [|done]. split; [done|]. by exists (ReplyNextDropEvents []).
    + split; [done|]. by exists (ReplyNextDropEvents [event]).
Qed.

Lemma handle_message_answers env message w :
  phase (listener w) = Idle → connection_ok env = true → daemon_alive env = true →
  expects_tcp_json_reply message = false →
  let w1 := lstep w (LMessage env message) in
  (phase (listener w1) = Idle ∧ ∃ r, connection_out w1 = connection_out w ++ [r] ∧
     tcp_writes r = expects_tcp_bincode_reply message) ∨
  (phase (listener w1) ≠ Idle ∧ connection_out w1 = connection_out w ∧
     expects_tcp_bincode_reply message = true).
Proof.
  intros Hidle Hok Halive Hjson. unfold lstep. rewrite Hidle. unfold handle_message.
  set (w1 := with_listener _ w). assert (phase (listener w1) = Idle) as Hp by done.
  change (connection_out w) with (connection_out w1). clearbody w1.
  assert (∀ r w2, phase (listener w2) = Idle → connection_out w2 = connection_out w1 →
    tcp_writes r = expects_tcp_bincode_reply message →
    phase (listener (send_reply env r w2).2) = Idle ∧ ∃ r',
      connection_out (send_reply env r w2).2 = connection_out w1 ++ [r'] ∧
      tcp_writes r' = expects_tcp_bincode_reply message) as Hnow.
  { intros r w2 Hp2 Ho Hr. unfold send_reply. rewrite Hok. split; [done|]. exists r. by rewrite <- Ho. }
  assert (∀ tokens, (report_drop_tokens env tokens w1).1 = Ok tt ∧
    phase (listener (report_drop_tokens env tokens w1).2) = Idle ∧
    connection_out (report_drop_tokens env tokens w1).2 = connection_out w1) as Hrep.
  { intros tokens. unfold report_drop_tokens, send_daemon. rewrite Halive. by case_bool_decide. }
  unfold process_daemon_event, send_daemon. rewrite Halive.
  destruct message; try done; try (by left; apply Hnow); try (by right; split_and!).
  - unfold handle_next_event. specialize (Hrep drop_tokens).
    destruct (report_drop_tokens env drop_tokens w1) as [? w2]. simpl in Hrep.
    destruct Hrep as (-> & Hp2 & Ho2). case_bool_decide; [|by left; apply Hnow].
    cbn [listener set_queue with_listener subscribed_events].
    destruct (subscribed_events (listener w2)); [by right; split_and!|by left; apply Hnow].
  - specialize (Hrep drop_tokens). destruct (report_drop_tokens env drop_tokens w1) as [? w2].
    simpl in Hrep. destruct Hrep as (-> & Hp2 & Ho2). by left; apply Hnow.
  - destruct (subscribed_drop_events (listener w1)); [by right; split_and!|by left; apply Hnow].
Qed.

(** Listener and node agree on answers.  For every request a registered node makes,
    the listener writes exactly one message to a TCP connection if the node waits for one
    ([expects_tcp_bincode_reply]) and none otherwise: at once, or when the wait the request
    starts is over.  So the node never waits in vain and never reads an older answer. *)
Theorem tcp_reply_agrees env message w :
  phase (listener w) = Idle → connection_ok env = true → daemon_alive env = true →
  expects_tcp_json_reply message = false →
  let w1 := lstep w (LMessage env message) in
  let writes w' n := length (filter tcp_writes (connection_out w')) =
                     length (filter tcp_writes (connection_out w)) + n in
  (phase (listener w1) = Idle ∧ writes w1 (if expects_tcp_bincode_reply message then 1 else 0)) ∨
  (expects_tcp_bincode_reply message = true ∧ writes w1 0 ∧
   ∀ a, answered w1 a → phase (listener (lstep w1 a)) = Idle ∧ writes (lstep w1 a) 1).
Proof.
  intros Hidle Hok Halive Hjson. cbv zeta.
  set (w1 := lstep w (LMessage env message)).
  assert ((phase (listener w1) = Idle ∧ ∃ r, connection_out w1 = connection_out w ++ [r] ∧
             tcp_writes r = expects_tcp_bincode_reply message) ∨
          (phase (listener w1) ≠ Idle ∧ connection_out w1 = connection_out w ∧
             expects_tcp_bincode_reply message = true)) as [(Hp & r & Hout & Hr)|(Hp & Hout & Hr)].
  { apply handle_message_answers; done. }
  - left. split; [done|]. rewrite Hout, filter_app, length_app, <- Hr. f_equal.
    rewrite filter_cons, filter_nil. by destruct (tcp_writes r).
  - right. split_and!; [done|rewrite Hout; lia|]. intros a Ha.
    destruct (wait_answered w1 a Hp Ha) as (Hp2 & r & Hw & Ho). split; [done|].
    rewrite Ho, Hout, filter_app, length_app, filter_cons, filter_nil. by rewrite Hw.
Qed.

(** ** Witnesses *)

(** A node that has subscribed on channel 1, and a working connection. *)
Definition example_world : ListenerWorld :=
  mkWorld (mkListener 7 "camera" (Some 1%N) None [] 0 Idle) {[1%N := new_subscription]} ∅ [] [].
Definition working : Env := mkEnv true true 0 5.

Lemma listener_fifo_witness :
  delivered (listener_run example_world
    [LDaemonSend 1 (InputClosed "a"); LNextEvent; LDaemonSend 1 AllInputsClosed;
     LMessage working (ReqNextEvent []); LMessage working (ReqNextEvent []);
     LDaemonSend 1 Stop; LWake working false]) = [InputClosed "a"; AllInputsClosed] ∧
  history 1 (listener_run example_world
    [LDaemonSend 1 (InputClosed "a"); LNextEvent; LDaemonSend 1 AllInputsClosed;
     LMessage working (ReqNextEvent []); LMessage working (ReqNextEvent []);
     LDaemonSend 1 Stop; LWake working false]) = [InputClosed "a"; AllInputsClosed; Stop].
Proof.
  split; [vm_compute; reflexivity|].
  rewrite (listener_fifo 1 example_world); [vm_compute; reflexivity|by split|].
  repeat constructor.
Defined.

Lemma tcp_reply_agrees_witness :
  answered (lstep example_world (LMessage working (ReqNextEvent []))) (LWake working true) ∧
  phase (listener (lstep (lstep example_world (LMessage working (ReqNextEvent [])))
                     (LWake working true))) = Idle.
Proof.
  assert (answered (lstep example_world (LMessage working (ReqNextEvent []))) (LWake working true)) as Ha
    by (split; [done|by left]).
  split; [exact Ha|].
  destruct (tcp_reply_agrees working (ReqNextEvent []) example_world eq_refl eq_refl eq_refl eq_refl)
    as [[Hp _]|(_ & _ & Hw)]; [discriminate Hp|]. exact (proj1 (Hw _ Ha)).
Defined.
