(* ===== verification/Arrow.v ===== *)
(** * Arrow arrays as bytes

    Models [apis/rust/node/src/node/arrow_utils.rs], the conversion of received data in
    [event_stream/data_conversion.rs] and [data_to_arrow_array], and the type information of
    a message ([libraries/message/src/metadata.rs] and [libraries/core/src/metadata.rs]).
    A sender places the buffers of an array one after the other in a sample, with padding
    for alignment, and describes their positions in the metadata; a receiver slices them out
    again.  The Arrow library is the class [ArrowLib]. *)

From Stdlib Require Import ZArith Lia Ascii.
From stdpp Require Import base gmap list strings.
From S2P Require Import Prelude Message.
Local Open Scope nat_scope.

Abbreviation Bytes := (list Byte.byte) (only parsing).

(** ** The Arrow library *)

Inductive BufferSpec := FixedWidth (byte_width alignment : nat) | VariableWidth | BitMap | AlwaysNull.

(** [NullBuffer]: the packed validity bits, and the bit at which they start. *)
Record NullBuffer := mkNulls { null_bits : Bytes; null_offset : nat }.

(** [ArrayData], over the data types [T]. *)
Inductive ArrayData {T : Type} := mkArray {
  data_type : T;
  len : nat;
  null_count : nat;
  nulls : option NullBuffer;
  offset : nat;
  buffers : list Bytes;
  child_data : list ArrayData
}.
Arguments ArrayData : clear implicits.

(** [layout] lists the buffers of a type; [null_array] is [NullArray::new(0)]; [ipc_write] is
    the stream writer; [ipc_read] is the stream reader: an unreadable stream, no batch, a
    batch that cannot be read, or the columns of the first batch. *)
Class ArrowLib (T : Type) := {
  layout : T → list BufferSpec;
  debug_text : T → string;
  null_type : T;
  uint8_type : T;
  null_array : ArrayData T;
  new_empty : T → ArrayData T;
  try_new : T → nat → option Bytes → nat → list Bytes → list (ArrayData T) → res (ArrayData T);
  ipc_write : ArrayData T → res Bytes;
  ipc_read : Bytes → res (option (res (list (ArrayData T))))
}.

(** ** Type information *)

Record BufferOffset := mkOffset { bo_offset : nat; bo_len : nat }.

Inductive ArrowTypeInfo {T : Type} := mkInfo {
  info_type : T;
  info_len : nat;
  info_null_count : nat;
  info_validity : option Bytes;
  info_offset : nat;
  info_buffers : list BufferOffset;
  info_children : list ArrowTypeInfo;
  info_field_names : option (list string);
  info_schema_hash : option Z
}.
Arguments ArrowTypeInfo : clear implicits.

Section arrow.
Context {T : Type} `{ArrowLib T}.
Implicit Types a : ArrayData T.

Definition info_empty : ArrowTypeInfo T := mkInfo T null_type 0 0 None 0 [] [] None None.
Definition info_byte_array (data_len : nat) : ArrowTypeInfo T :=
  mkInfo T uint8_type data_len 0 None 0 [mkOffset 0 data_len] [] None None.

(** FNV-1a over the [Debug] text of the type, at 64 bits. *)
Definition compute_schema_hash (dt : T) : Z :=
  foldl (λ hash c, u64_wrap (Z.lxor hash (Z.of_N (N_of_ascii c)) * 0x100000001b3))
    0xcbf29ce484222325%Z (String.list_ascii_of_string (debug_text dt)).

(** ** Sending *)

(** [next_offset.div_ceil(alignment) * alignment] for a buffer of fixed width. *)
Definition padded (spec : BufferSpec) (next_offset : nat) : nat :=
  match spec with
  | FixedWidth _ alignment => (next_offset + alignment - 1) / alignment * alignment
  | _ => next_offset
  end.

Fixpoint required_data_size_inner (a : ArrayData T) (next_offset : nat) : nat :=
  let next_offset :=
    foldl (λ next '(buffer, spec), padded spec next + length buffer) next_offset
      (zip (buffers a) (layout (data_type a))) in
  foldl (λ next child, required_data_size_inner child next) next_offset (child_data a).

Definition required_data_size (a : ArrayData T) : nat := required_data_size_inner a 0.

(** Writing [target[at..][..len].copy_from_slice(bytes)]. *)
Definition write_at (at_ : nat) (bytes target : Bytes) : Bytes :=
  take at_ target ++ bytes ++ drop (at_ + length bytes) target.

(** A loop that threads a state through a list and collects results. *)
Definition map_state {S A B} (f : A → S → res (B * S)) : list A → S → res (list B * S) :=
  fix go l s :=
    match l with
    | [] => Ok ([], s)
    | x :: l => '(y, s) ← f x s; '(ys, s) ← go l s; Ok (y :: ys, s)
    end.

(** One buffer; the assertion looks at the offset before padding. *)
Definition copy_buffer (entry : Bytes * BufferSpec) (s : Bytes * nat) : res (BufferOffset * (Bytes * nat)) :=
  let '(buffer, spec) := entry in
  let '(target, next_offset) := s in
  if decide (length target < next_offset) then Panic
  else if decide (length target - next_offset < length buffer) then Panic
  else
    let next_offset := padded spec next_offset in
    if decide (length target < next_offset + length buffer) then Panic
    else Ok (mkOffset next_offset (length buffer),
             (write_at next_offset buffer target, next_offset + length buffer)).

Fixpoint copy_array_into_sample_inner (a : ArrayData T) (s : Bytes * nat)
    : res (ArrowTypeInfo T * (Bytes * nat)) :=
  '(buffer_offsets, s) ← map_state copy_buffer (zip (buffers a) (layout (data_type a))) s;
  '(children, s) ← map_state copy_array_into_sample_inner (child_data a) s;
  Ok (mkInfo T (data_type a) (len a) (null_count a) (null_bits <$> nulls a) (offset a)
        buffer_offsets children None (Some (compute_schema_hash (data_type a))), s).

Definition copy_array_into_sample (target : Bytes) (a : ArrayData T) : res (ArrowTypeInfo T * Bytes) :=
  '(info, (target, _)) ← copy_array_into_sample_inner a (target, 0);
  Ok (info, target).

(** ** Receiving *)

Definition MAX_IPC_BYTES : Z := 256 * 1024 * 1024.
Definition MAX_TYPE_DEPTH : nat := 32.
Definition MAX_ENTRIES : nat := 256.

(** [checked_add], the bounds check, and [slice_with_length]. *)
Definition slice_buffer (raw_buffer : Bytes) (b : BufferOffset) : res Bytes :=
  if (u64_max <? Z.of_nat (bo_offset b) + Z.of_nat (bo_len b))%Z then Err "buffer offset overflow"
  else if decide (length raw_buffer < bo_offset b + bo_len b) then Err "buffer offset out of bounds"
  else Ok (take (bo_len b) (drop (bo_offset b) raw_buffer)).

Fixpoint buffer_into_arrow_array_inner (raw_buffer : Bytes) (info : ArrowTypeInfo T) (depth : nat)
    : res (ArrayData T) :=
  if decide (MAX_TYPE_DEPTH < depth) then Err "Arrow type nesting depth exceeds maximum"
  else if decide (raw_buffer = []) then Ok (new_empty (info_type info))
  else if decide (MAX_ENTRIES < length (info_buffers info)) then Err "too many buffer offsets"
  else if decide (MAX_ENTRIES < length (info_children info)) then Err "too many child arrays"
  else
    buffers ← mapM (slice_buffer raw_buffer) (info_buffers info);
    children ← mapM (λ child, buffer_into_arrow_array_inner raw_buffer child (S depth)) (info_children info);
    try_new (info_type info) (info_len info) (info_validity info) (info_offset info) buffers children.

Definition buffer_into_arrow_array (raw_buffer : Bytes) (info : ArrowTypeInfo T) : res (ArrayData T) :=
  buffer_into_arrow_array_inner raw_buffer info 0.

Definition decode_arrow_ipc (ipc_buf : Bytes) : res (ArrayData T) :=
  if (MAX_IPC_BYTES <? Z.of_nat (length ipc_buf))%Z then Err "Arrow IPC payload too large"
  else
    batch ← ipc_read ipc_buf;
    columns ← match batch with
              | Some batch => batch
              | None => Err "Arrow IPC stream contained no record batches"
              end;
    match columns with
    | [column] => Ok column
    | _ => Err "expected 1 column in IPC record batch"
    end.

(** [RawData]: nothing, a byte vector, or a mapped region. *)
Inductive RawData := RawEmpty | RawVec (data : Bytes) | RawSharedMemory (data : Bytes).

Definition into_arrow_array (raw : RawData) (info : ArrowTypeInfo T) (is_ipc : bool) : res (ArrayData T) :=
  match raw with
  | RawEmpty => Ok null_array
  | RawVec data | RawSharedMemory data =>
      if is_ipc then decode_arrow_ipc data else buffer_into_arrow_array data info
  end.

(** [MappedInputData::map]; [open_region] is what the operating system maps for an id. *)
Definition map_region (open_region : string → option Bytes) (id : string) (len : Z) : res Bytes :=
  match open_region id with
  | None => Err "failed to map shared memory input"
  | Some memory =>
      if (Z.of_nat (length memory) <? len)%Z
      then Err "mapped input data length exceeds shared memory region size"
      else Ok (take (Z.to_nat len) memory)
  end.

Definition FRAMING : string := "_framing".
Definition FRAMING_ARROW_IPC : string := "arrow-ipc".

Definition is_ipc (params : gmap string ParameterValue) : bool :=
  bool_decide (get_string_param params FRAMING = Some FRAMING_ARROW_IPC).

Definition data_to_arrow_array (open_region : string → option Bytes) (data : option DataMessage)
    (info : ArrowTypeInfo T) (params : gmap string ParameterValue) : res (ArrayData T) :=
  raw ← match data with
        | None => Ok RawEmpty
        | Some (DMVec v) => Ok (RawVec v)
        | Some (DMSharedMemory id len _) => RawSharedMemory <$> map_region open_region id len
        end;
  into_arrow_array raw info (is_ipc params).

Definition zenoh_payload_to_arrow_array (payload : Bytes) (info : ArrowTypeInfo T)
    (params : gmap string ParameterValue) : res (ArrayData T) :=
  if decide (payload = []) then Ok null_array
  else if is_ipc params then decode_arrow_ipc payload
  else buffer_into_arrow_array payload info.

(** ** Arrays that survive the transport *)

(** What the code relies on: [valid] are the arrays the library builds.  They have the
    buffers of their layout, and are rebuilt from their parts if their validity bits start
    at the offset of the array; buffers are aligned to something; what the stream writer
    writes, the reader reads. *)
Class ArrowLaws := {
  valid : ArrayData T → Prop;
  valid_layout a : valid a → length (buffers a) = length (layout (data_type a));
  valid_children a : valid a → Forall valid (child_data a);
  try_new_valid a : valid a → (∀ n, nulls a = Some n → null_offset n = offset a) →
    try_new (data_type a) (len a) (null_bits <$> nulls a) (offset a) (buffers a) (child_data a) = Ok a;
  layout_aligned dt w alignment : FixedWidth w alignment ∈ layout dt → 0 < alignment;
  len_new_empty dt : len (new_empty dt) = 0;
  ipc_read_write a b : valid a → ipc_write a = Ok b → ipc_read b = Ok (Some (Ok [a]))
}.

Fixpoint height (a : ArrayData T) : nat := foldr (λ c h, Nat.max (S (height c)) h) 0 (child_data a).

(** The limits of the receiver, and validity bits that start at the offset of the array. *)
Fixpoint sendable (a : ArrayData T) : Prop :=
  length (buffers a) ≤ MAX_ENTRIES ∧ length (child_data a) ≤ MAX_ENTRIES ∧
  (∀ n, nulls a = Some n → null_offset n = offset a) ∧
  foldr (λ c P, sendable c ∧ P) True (child_data a).

(** Every buffer of fixed width starts at a multiple of its alignment. *)
Fixpoint aligned (info : ArrowTypeInfo T) : Prop :=
  Forall (λ '(b, spec), padded spec (bo_offset b) = bo_offset b)
    (zip (info_buffers info) (layout (info_type info))) ∧
  foldr (λ c P, aligned c ∧ P) True (info_children info).

Lemma foldr_and_Forall {A} (P : A → Prop) l : foldr (λ c Q, P c ∧ Q) True l ↔ Forall P l.
Proof. induction l; simpl; rewrite ?Forall_cons; naive_solver. Qed.

Lemma height_children a c : c ∈ child_data a → S (height c) ≤ height a.
Proof.
  destruct a as [? ? ? ? ? ? l]. simpl. induction l; simpl; [by intros ?%elem_of_nil|].
  intros [->|Hc]%elem_of_cons; [lia|]. specialize (IHl Hc). lia.
Qed.

Fixpoint array_ind (P : ArrayData T → Prop) (IH : ∀ a, Forall P (child_data a) → P a) a : P a :=
  match a with
  | mkArray _ dt n nc nu o bs l =>
      IH (mkArray _ dt n nc nu o bs l)
        ((fix go l : Forall P l :=
            match l with
            | [] => Forall_nil_2 P
            | c :: l => Forall_cons_2 P c l (array_ind P IH c) (go l)
            end) l)
  end.

(** ** Lemmas on samples *)

(** A sample that was written from [next] on. *)
Definition extends (next : nat) (t t' : Bytes) : Prop := length t' = length t ∧ take next t' = take next t.

Lemma extends_trans n m t t' t'' : n ≤ m → extends n t t' → extends m t' t'' → extends n t t''.
Proof.
  intros Hnm [Hl Ht] [Hl' Ht']. split; [congruence|]. rewrite <- Ht.
  apply (f_equal (take n)) in Ht'. rewrite !take_take in Ht'. by replace (n `min` m) with n in Ht' by lia.
Qed.

Lemma extends_le n m t t' : n ≤ m → extends m t t' → extends n t t'.
Proof. intros ? ?. by eapply (extends_trans n m t t). Qed.

Lemma padded_le spec n : (∀ w al, spec = FixedWidth w al → 0 < al) → n ≤ padded spec n.
Proof.
  intros Hal. destruct spec as [w al| | |]; simpl; [|lia..]. specialize (Hal w al eq_refl).
  pose proof (Nat.div_mod_eq (n + al - 1) al). pose proof (Nat.mod_upper_bound (n + al - 1) al). lia.
Qed.

Lemma padded_padded spec n : (∀ w al, spec = FixedWidth w al → 0 < al) → padded spec (padded spec n) = padded spec n.
Proof.
  intros Hal. destruct spec as [w al| | |]; simpl; [|done..]. specialize (Hal w al eq_refl).
  f_equal. rewrite <- Nat.add_sub_assoc by lia. rewrite Nat.div_add_l by lia.
  rewrite (Nat.div_small (al - 1)) by lia. lia.
Qed.

Lemma write_at_extends p b t : p + length b ≤ length t → extends p t (write_at p b t).
Proof.
  intros Hp. unfold extends, write_at. rewrite !length_app, length_take, length_drop, take_app_le
    by (rewrite length_take; lia). rewrite take_take. split; [lia|]. f_equal; lia.
Qed.

(** What is read back depends on the sample up to the end of the buffer. *)
Lemma slice_written p b t raw :
  p + length b ≤ length t → (Z.of_nat (length raw) ≤ u64_max)%Z → length raw = length t →
  take (p + length b) raw = take (p + length b) (write_at p b t) →
  slice_buffer raw (mkOffset p (length b)) = Ok b.
Proof.
  intros Hp Hmax Hlen Hpre. unfold slice_buffer. simpl.
  destruct (Z.ltb_spec u64_max (Z.of_nat p + Z.of_nat (length b))); [lia|].
  rewrite decide_False by lia. f_equal.
  rewrite take_drop_commute, Hpre. unfold write_at.
  rewrite take_app_ge, length_take, drop_app_ge by (rewrite length_take; lia).
  rewrite length_take. replace (p + length b - p `min` length t) with (length b) by lia.
  replace (p - p `min` length t) with 0 by lia. by rewrite drop_0, take_app_length.
Qed.

(** ** The round trip *)

Section laws.
Context `{!ArrowLaws}.

Definition place (next : nat) (entry : Bytes * BufferSpec) : nat :=
  padded entry.2 next + length entry.1.
Definition spec_ok (spec : BufferSpec) : Prop := ∀ w al, spec = FixedWidth w al → 0 < al.

Lemma layout_ok dt : Forall spec_ok (layout dt).
Proof. apply Forall_forall. intros spec Hin w al ->. by apply layout_aligned in Hin. Qed.

Lemma zip_specs_ok (bs : list Bytes) dt : Forall spec_ok (zip bs (layout dt)).*2.
Proof.
  apply Forall_forall. intros spec ([b s] & -> & Hin)%list_elem_of_fmap.
  apply elem_of_zip_r in Hin. by eapply Forall_forall; [apply layout_ok|].
Qed.

Lemma place_mono entries next : Forall spec_ok entries.*2 → next ≤ foldl place next entries.
Proof.
  revert next. induction entries as [|[b spec] entries IH]; intros next; simpl; [lia|].
  intros [Hs He]%Forall_cons. specialize (IH (place next (b, spec)) He).
  pose proof (padded_le spec next Hs). unfold place in *. simpl in *. lia.
Qed.

Lemma required_unfold a next :
  required_data_size_inner a next
  = foldl (λ next c, required_data_size_inner c next)
      (foldl place next (zip (buffers a) (layout (data_type a)))) (child_data a).
Proof.
  destruct a as [dt ? ? ? ? bs l]. simpl. f_equal. clear. generalize (zip bs (layout dt)). intros es.
  revert next. induction es as [|[b s] es IH]; intros next; simpl; [done|]. apply IH.
Qed.

Lemma copy_unfold a s :
  copy_array_into_sample_inner a s
  = ('(buffer_offsets, s) ← map_state copy_buffer (zip (buffers a) (layout (data_type a))) s;
     '(children, s) ← map_state copy_array_into_sample_inner (child_data a) s;
     Ok (mkInfo T (data_type a) (len a) (null_count a) (null_bits <$> nulls a) (offset a)
           buffer_offsets children None (Some (compute_schema_hash (data_type a))), s)).
Proof. by destruct a. Qed.

Lemma foldl_mono {A} (f : nat → A → nat) l n : Forall (λ x, ∀ n, n ≤ f n x) l → n ≤ foldl f n l.
Proof.
  revert n. induction l as [|x l IH]; intros n; simpl; [lia|].
  intros [Hx Hl]%Forall_cons. etrans; [apply Hx|by apply IH].
Qed.

Lemma required_mono a next : next ≤ required_data_size_inner a next.
Proof.
  revert next. induction a as [a IH] using array_ind. intros next. rewrite required_unfold.
  etrans; [apply place_mono, zip_specs_ok|]. by apply foldl_mono.
Qed.

Lemma take_extends e1 e raw t' t1 :
  e1 ≤ e → take e raw = take e t' → extends e1 t1 t' → take e1 raw = take e1 t1.
Proof.
  intros He Hraw [_ <-]. apply (f_equal (take e1)) in Hraw. rewrite !take_take in Hraw.
  by replace (e1 `min` e) with e1 in Hraw by lia.
Qed.

Lemma copy_buffer_Ok b spec t next :
  spec_ok spec → padded spec next + length b ≤ length t →
  copy_buffer (b, spec) (t, next)
  = Ok (mkOffset (padded spec next) (length b),
        (write_at (padded spec next) b t, padded spec next + length b)).
Proof.
  intros Hs Hle. pose proof (padded_le spec next Hs). unfold copy_buffer.
  by rewrite !decide_False by lia.
Qed.

Lemma copy_buffers_spec entries t next :
  Forall spec_ok entries.*2 → foldl place next entries ≤ length t →
  ∃ offs t', map_state copy_buffer entries (t, next) = Ok (offs, (t', foldl place next entries)) ∧
    extends next t t' ∧ length offs = length entries ∧
    Forall (λ '(b, spec), padded spec (bo_offset b) = bo_offset b) (zip offs entries.*2) ∧
    ∀ raw, length raw = length t → (Z.of_nat (length raw) ≤ u64_max)%Z →
      take (foldl place next entries) raw = take (foldl place next entries) t' →
      mapM (slice_buffer raw) offs = Ok entries.*1.
Proof.
  revert t next. induction entries as [|[b spec] entries IH]; intros t next.
  { intros _ _. exists [], t. repeat split; done. }
  intros [Hs He]%Forall_cons Hlen. cbn [foldl] in *. set (e := foldl place _ entries) in *.
  pose proof (place_mono entries (place next (b, spec)) He) as Hmono. fold e in Hmono.
  pose proof (padded_le spec next Hs) as Hpad. unfold place in Hmono. cbn [fst snd] in Hmono, Hs.
  pose proof (copy_buffer_Ok b spec t next Hs ltac:(lia)) as Hcopy.
  pose proof (padded_padded spec next Hs) as Hpp.
  set (p := padded spec next) in *. set (t1 := write_at p b t) in *.
  assert (extends p t t1) as Hext by (apply write_at_extends; lia).
  destruct (IH t1 (p + length b)) as (offs & t' & Hmap & Hext' & Hlo & Hal & Hread); [done| |].
  { destruct Hext as [-> _]. done. }
  exists (mkOffset p (length b) :: offs), t'. split; [|split; [|split; [|split]]].
  - cbn [map_state]. rewrite Hcopy. cbn. by setoid_rewrite Hmap.
  - apply (extends_le next p); [lia|]. apply (extends_trans p (p + length b) t t1 t'); [lia|done..].
  - cbn. by rewrite Hlo.
  - cbn. by constructor.
  - intros raw Hraw Hmax Hpre. cbn [mapM fmap list_fmap fst].
    rewrite (slice_written p b t raw) by (try lia; try done; by eapply take_extends). cbn.
    rewrite Hread; [done| |done|exact Hpre]. destruct Hext; congruence.
Qed.

(** What copying an array achieves: the sample is extended by it, and it can be read back
    from any sample that agrees up to its end. *)
Definition copies (a : ArrayData T) : Prop := ∀ t next,
  required_data_size_inner a next ≤ length t →
  ∃ info t', copy_array_into_sample_inner a (t, next) = Ok (info, (t', required_data_size_inner a next)) ∧
    extends next t t' ∧ aligned info ∧
    ∀ raw depth, length raw = length t → (Z.of_nat (length raw) ≤ u64_max)%Z → raw ≠ [] →
      depth + height a ≤ MAX_TYPE_DEPTH →
      take (required_data_size_inner a next) raw = take (required_data_size_inner a next) t' →
      buffer_into_arrow_array_inner raw info depth = Ok a.

Abbreviation end_of n l := (foldl (λ m c, required_data_size_inner c m) n l).

Lemma copy_children_spec l t next :
  Forall copies l → end_of next l ≤ length t →
  ∃ infos t', map_state copy_array_into_sample_inner l (t, next) = Ok (infos, (t', end_of next l)) ∧
    extends next t t' ∧ length infos = length l ∧ Forall aligned infos ∧
    ∀ raw depth, length raw = length t → (Z.of_nat (length raw) ≤ u64_max)%Z → raw ≠ [] →
      Forall (λ c, depth + height c ≤ MAX_TYPE_DEPTH) l →
      take (end_of next l) raw = take (end_of next l) t' →
      mapM (λ info, buffer_into_arrow_array_inner raw info depth) infos = Ok l.
Proof.
  revert t next. induction l as [|a l IH]; intros t next.
  { intros _ _. exists [], t. repeat split; done. }
  intros [Ha Hl]%Forall_cons Hlen. cbn [foldl] in *. set (m := required_data_size_inner a next) in *.
  assert (m ≤ end_of m l) as Hm.
  { apply foldl_mono, Forall_true. intros. apply required_mono. }
  destruct (Ha t next) as (info & t1 & Hcopy & Hext & Hal & Hread); [fold m; lia|].
  fold m in Hcopy, Hread.
  destruct (IH t1 m) as (infos & t' & Hmap & Hext' & Hli & Hals & Hreads); [done| |].
  { destruct Hext as [-> _]. lia. }
  pose proof (required_mono a next) as Hn. fold m in Hn.
  exists (info :: infos), t'. split; [|split; [|split; [|split]]].
  - cbn [map_state]. rewrite Hcopy. cbn. by rewrite Hmap.
  - by apply (extends_trans next m t t1 t').
  - cbn. by rewrite Hli.
  - by constructor.
  - intros raw depth Hraw Hmax Hne [Hd Hds]%Forall_cons Hpre. cbn [mapM].
    rewrite Hread by (try done; by eapply take_extends). cbn.
    rewrite Hreads; [done| |done..]. destruct Hext; congruence.
Qed.

Lemma copies_valid a : valid a → sendable a → copies a.
Proof.
  induction a as [a IH] using array_ind. intros Hv Hs t next Hlen.
  pose proof (valid_children a Hv) as Hvc. pose proof (valid_layout a Hv) as Hlay.
  assert (Forall sendable (child_data a) ∧ length (buffers a) ≤ MAX_ENTRIES ∧
    length (child_data a) ≤ MAX_ENTRIES ∧ ∀ n, nulls a = Some n → null_offset n = offset a)
    as (Hsc & Hb & Hc & Hn).
  { destruct a; simpl in *. rewrite foldr_and_Forall in Hs. naive_solver. }
  assert (Forall copies (child_data a)) as Hcs.
  { rewrite !Forall_forall in *. auto. }
  rewrite required_unfold in *. set (entries := zip (buffers a) (layout (data_type a))) in *.
  assert (foldl place next entries ≤ end_of (foldl place next entries) (child_data a)) as Hm.
  { apply foldl_mono, Forall_true. intros. apply required_mono. }
  destruct (copy_buffers_spec entries t next) as (offs & t1 & Hmap & Hext & Hlo & Hal & Hread);
    [apply zip_specs_ok|lia|].
  destruct (copy_children_spec (child_data a) t1 (foldl place next entries))
    as (infos & t' & Hmap' & Hext' & Hli & Hals & Hreads); [done| |].
  { destruct Hext as [-> _]. lia. }
  eexists _, t'. split; [|split; [|split]].
  - rewrite copy_unfold. fold entries. rewrite Hmap. cbn [mbind res_bind]. by rewrite Hmap'.
  - eapply extends_trans; [|done..]. apply place_mono, zip_specs_ok.
  - simpl. rewrite foldr_and_Forall. split; [|done].
    unfold entries in Hal. rewrite snd_zip in Hal by lia. done.
  - intros raw depth Hraw Hmax Hne Hd Hpre. simpl.
    assert (length offs ≤ MAX_ENTRIES) by (rewrite Hlo; unfold entries; rewrite length_zip; lia).
    rewrite !decide_False by (rewrite ?Hli; done || lia).
    rewrite Hread by (try done; by eapply take_extends). cbn [mbind res_bind].
    rewrite Hreads; [| |done|done| |done]; cycle 1.
    { destruct Hext; congruence. }
    { apply Forall_forall. intros c Hin%height_children. lia. }
    cbn [mbind res_bind]. unfold entries. rewrite fst_zip by lia. by apply try_new_valid.
Qed.

Lemma copied_readable a params target :
  valid a → sendable a → height a ≤ MAX_TYPE_DEPTH →
  (0 < Z.of_nat (required_data_size a) ≤ u64_max)%Z → get_string_param params FRAMING = None →
  length target = required_data_size a →
  ∃ info buf, copy_array_into_sample target a = Ok (info, buf) ∧
    length buf = required_data_size a ∧ aligned info ∧
    (∀ open_region, data_to_arrow_array open_region (Some (DMVec buf)) info params = Ok a) ∧
    (∀ open_region id token rest, open_region id = Some (buf ++ rest) →
       data_to_arrow_array open_region
         (Some (DMSharedMemory id (Z.of_nat (length buf)) token)) info params = Ok a).
Proof.
  intros Hv Hs Hh Hsize Hp Htarget.
  destruct (copies_valid a Hv Hs target 0) as (info & buf & Hcopy & [Hlen _] & Hal & Hread).
  { by rewrite Htarget. }
  rewrite Htarget in Hlen, Hread.
  assert (buffer_into_arrow_array buf info = Ok a) as Hdec.
  { apply Hread; [done|rewrite Hlen; lia|by intros ->; simpl in Hlen; lia|lia|done]. }
  assert (is_ipc params = false) as Hipc by (unfold is_ipc; by rewrite Hp).
  exists info, buf. split; [|split; [done|split; [done|split]]].
  - unfold copy_array_into_sample. by rewrite Hcopy.
  - intros open_region. unfold data_to_arrow_array. cbn. by rewrite Hipc.
  - intros open_region id token rest Hopen. unfold data_to_arrow_array, map_region. rewrite Hopen.
    rewrite length_app. destruct (Z.ltb_spec (Z.of_nat (length buf + length rest)) (Z.of_nat (length buf))); [lia|].
    cbn. rewrite Hipc, Nat2Z.id, take_app_length. done.
Qed.

(** With Arrow IPC framing, the array arrives unchanged if it fits into the limit. *)
Lemma ipc_roundtrip a buf params info open_region :
  valid a → ipc_write a = Ok buf → (Z.of_nat (length buf) ≤ MAX_IPC_BYTES)%Z →
  get_string_param params FRAMING = Some FRAMING_ARROW_IPC →
  data_to_arrow_array open_region (Some (DMVec buf)) info params = Ok a.
Proof.
  intros Hv Hw Hb Hp. unfold data_to_arrow_array, is_ipc. rewrite Hp, bool_decide_true by done. cbn.
  unfold decode_arrow_ipc. destruct (Z.ltb_spec MAX_IPC_BYTES (Z.of_nat (length buf))); [lia|].
  by rewrite (ipc_read_write a).
Qed.

Lemma copy_type target a info buf : copy_array_into_sample target a = Ok (info, buf) → info_type info = data_type a.
Proof.
  unfold copy_array_into_sample. intros ([i [t n]] & Hc & [= <- <-])%res_bind_Ok. rewrite copy_unfold in Hc.
  apply res_bind_Ok in Hc as ([offs s1] & _ & Hc). by apply res_bind_Ok in Hc as ([cs s2] & _ & [= <- _]).
Qed.

(** The receiver reads the [n] first bytes of a region as it reads a vector. *)
Lemma region_as_vector open_region id token buf rest info params :
  open_region id = Some (buf ++ rest) →
  data_to_arrow_array open_region (Some (DMSharedMemory id (Z.of_nat (length buf)) token)) info params =
  data_to_arrow_array open_region (Some (DMVec buf)) info params.
Proof.
  intros Hopen. unfold data_to_arrow_array, map_region. rewrite Hopen, length_app.
  destruct (Z.ltb_spec (Z.of_nat (length buf + length rest)) (Z.of_nat (length buf))); [lia|].
  cbn. by rewrite Nat2Z.id, take_app_length.
Qed.

(** C19. What arrives of an array that the receiver can rebuild: at most 256 buffers and
    children at each level and 32 levels, sizes in 64 bits, and validity bits that start at the
    offset of the array ([sendable]; the start is not sent, [null_offset_lost]).  Copied into a
    sample of the required size, as [send_output] does, the sample is filled without a panic,
    whatever it contained before, and all buffers of fixed width are aligned.  Without IPC framing
    the receiver rebuilds the array from the bytes and the type information, whether they came in
    a vector or in a (possibly larger) shared-memory region; the exception is an array that needs
    no bytes, which arrives as the empty array of its type.  With Arrow IPC framing the array is
    rebuilt if its stream is within the limit. *)
Theorem arrow_roundtrip a target :
  valid a → sendable a → height a ≤ MAX_TYPE_DEPTH →
  (Z.of_nat (required_data_size a) ≤ u64_max)%Z → length target = required_data_size a →
  let received := if decide (required_data_size a = 0) then new_empty (data_type a) else a in
  (∃ info buf, copy_array_into_sample target a = Ok (info, buf) ∧
     length buf = required_data_size a ∧ aligned info ∧
     ∀ params open_region, get_string_param params FRAMING ≠ Some FRAMING_ARROW_IPC →
       data_to_arrow_array open_region (Some (DMVec buf)) info params = Ok received ∧
       ∀ id token rest, open_region id = Some (buf ++ rest) →
         data_to_arrow_array open_region
           (Some (DMSharedMemory id (Z.of_nat (length buf)) token)) info params = Ok received) ∧
  (∀ stream params info open_region, ipc_write a = Ok stream → (Z.of_nat (length stream) ≤ MAX_IPC_BYTES)%Z →
     get_string_param params FRAMING = Some FRAMING_ARROW_IPC →
     data_to_arrow_array open_region (Some (DMVec stream)) info params = Ok a).
Proof.
  intros Hv Hs Hh Hsize Htarget received. split; [|intros; by eapply ipc_roundtrip].
  destruct (copies_valid a Hv Hs target 0) as (info & buf & Hcopy & [Hlen _] & Hal & Hread); [by rewrite Htarget|].
  assert (copy_array_into_sample target a = Ok (info, buf)) as Hcp by (unfold copy_array_into_sample; by rewrite Hcopy).
  rewrite Htarget in Hlen, Hread.
  assert (buffer_into_arrow_array buf info = Ok received) as Hdec.
  { unfold received. case_decide as Hz.
    - rewrite Hz in Hlen. apply length_zero_iff_nil in Hlen as ->. rewrite <- (copy_type _ _ _ _ Hcp).
      by destruct info.
    - apply Hread; [done|rewrite Hlen; lia|by intros ->; simpl in Hlen; lia|lia|done]. }
  exists info, buf. split_and!; [done..|]. intros params open_region Hp.
  assert (data_to_arrow_array open_region (Some (DMVec buf)) info params = Ok received) as Hvec.
  { unfold data_to_arrow_array, is_ipc. rewrite bool_decide_false by done. done. }
  split; [done|]. intros id token rest Hopen. by rewrite (region_as_vector _ _ _ _ rest).
Qed.

(** An array without buffers (nulls, or structs without fields) arrives without elements. *)
Lemma bufferless_array_emptied a params open_region :
  copies a → required_data_size a = 0 → get_string_param params FRAMING = None →
  ∃ info buf received, copy_array_into_sample [] a = Ok (info, buf) ∧
    data_to_arrow_array open_region (Some (DMVec buf)) info params = Ok received ∧ len received = 0.
Proof.
  intros Hc Hsize Hp. destruct (Hc [] 0) as (info & buf & Hcopy & [Hlen _] & _); [unfold required_data_size in *; simpl; lia|].
  apply length_zero_iff_nil in Hlen as ->.
  exists info, [], (new_empty (info_type info)). split; [unfold copy_array_into_sample; by rewrite Hcopy|].
  unfold data_to_arrow_array, is_ipc. rewrite Hp, bool_decide_false by done. cbn.
  unfold buffer_into_arrow_array. destruct info. cbn. split; [done|]. apply len_new_empty.
Qed.

End laws.

(** The bit at which the validity starts is not sent: arrays that differ in it only, such as
    an array with nulls and a slice of it, are indistinguishable to the receiver. *)
Lemma null_offset_lost dt n nc bits o1 o2 off bs l target :
  copy_array_into_sample target (mkArray T dt n nc (Some (mkNulls bits o1)) off bs l)
  = copy_array_into_sample target (mkArray T dt n nc (Some (mkNulls bits o2)) off bs l).
Proof. done. Qed.

End arrow.

(** ** An example: a struct of numbers with nulls and texts *)

Inductive sample_type := SNull | SUInt8 | SInt32 | SUtf8 | SStruct.

Definition sample_null_count (n off : nat) (bits : option Bytes) : nat :=
  match bits with
  | None => 0
  | Some bs =>
      length (filter (λ i, N.testbit (Byte.to_N (nth (i / 8) bs Byte.x00)) (N.of_nat (i mod 8)) = false)
                (seq off n))
  end.

#[local] Instance sample_arrow : ArrowLib sample_type := {|
  layout := λ dt, match dt with
                  | SNull | SStruct => []
                  | SUInt8 => [FixedWidth 1 1]
                  | SInt32 => [FixedWidth 4 4]
                  | SUtf8 => [FixedWidth 4 4; VariableWidth]
                  end;
  debug_text := λ dt, match dt with
                      | SNull => "Null" | SUInt8 => "UInt8" | SInt32 => "Int32"
                      | SUtf8 => "Utf8" | SStruct => "Struct"
                      end;
  null_type := SNull;
  uint8_type := SUInt8;
  null_array := mkArray _ SNull 0 0 None 0 [] [];
  new_empty := λ dt, mkArray _ dt 0 0 None 0 [] [];
  try_new := λ dt n bits off bs l,
    Ok (mkArray _ dt n (sample_null_count n off bits) ((λ b, mkNulls b off) <$> bits) off bs l);
  ipc_write := λ _, Err "not supported";
  ipc_read := λ _, Err "not supported"
|}.

Fixpoint sample_valid (a : ArrayData sample_type) : Prop :=
  length (buffers a) = length (layout (data_type a)) ∧
  null_count a = sample_null_count (len a) (offset a) (null_bits <$> nulls a) ∧
  foldr (λ c P, sample_valid c ∧ P) True (child_data a).

#[local] Instance sample_laws : ArrowLaws.
Proof.
  refine {| valid := sample_valid |}.
  - by intros [] [? _].
  - intros []. simpl. rewrite foldr_and_Forall. naive_solver.
  - intros [dt n nc nu off bs l] (_ & Hnc & _) Hoff. simpl in *. rewrite Hnc. do 2 f_equal.
    destruct nu as [[bits o]|]; [|done]. by rewrite <- (Hoff _ eq_refl).
  - intros [] w al; cbn; rewrite ?elem_of_cons, ?elem_of_nil; naive_solver lia.
  - done.
  - done.
Defined.

Definition sample_numbers : ArrayData sample_type :=
  mkArray _ SInt32 2 1 (Some (mkNulls [Byte.x01] 0)) 0
    [[Byte.x2a; Byte.x00; Byte.x00; Byte.x00; Byte.x00; Byte.x00; Byte.x00; Byte.x00]] [].
Definition sample_texts : ArrayData sample_type :=
  mkArray _ SUtf8 2 0 None 0
    [[Byte.x00; Byte.x00; Byte.x00; Byte.x00; Byte.x01; Byte.x00; Byte.x00; Byte.x00;
      Byte.x03; Byte.x00; Byte.x00; Byte.x00]; [Byte.x61; Byte.x62; Byte.x63]] [].
Definition sample_struct : ArrayData sample_type :=
  mkArray _ SStruct 2 0 None 0 [] [sample_texts; sample_numbers].

Lemma arrow_roundtrip_witness :
  required_data_size sample_struct = 24 ∧
  ∃ info buf, copy_array_into_sample (replicate 24 Byte.x00) sample_struct = Ok (info, buf) ∧
    data_to_arrow_array (λ _, None) (Some (DMVec buf)) info ∅ = Ok sample_struct.
Proof.
  split; [reflexivity|].
  destruct (arrow_roundtrip sample_struct (replicate 24 Byte.x00)) as [(info & buf & Hcopy & _ & _ & Hvec) _].
  - repeat split; reflexivity.
  - repeat split; simpl; unfold MAX_ENTRIES; try lia; try done;
      intros n [= <-]; reflexivity.
  - unfold MAX_TYPE_DEPTH. simpl. lia.
  - change (required_data_size sample_struct) with 24. unfold u64_max. lia.
  - reflexivity.
  - exists info, buf. split; [exact Hcopy|]. by apply (Hvec ∅ (λ _, None)).
Defined.
