(* ===== verification/EventThread.v ===== *)
(** * The node's event and drop threads

    Models [apis/rust/node/src/event_stream/thread.rs], the thread that asks the daemon for
    the events of a node, passes them to the event stream, and reports the drop token of a
    shared-memory message once the node has dropped it; and the loop of
    [node/drop_stream.rs], which passes finished tokens back to the node that owns the
    memory.  What the daemon answers, which messages the node still holds, and the clock are
    inputs of each round. *)

From Stdlib Require Import ZArith Lia.
From stdpp Require Import base gmap sets list strings.
From S2P Require Import Prelude Message Scheduler Pending Listener.
Local Open Scope list_scope.

(** ** State *)

(** What [try_recv] on the acknowledgement channel of a message says. *)
Inductive AckStatus := AckEmpty | AckDropped | AckSent.

Record PendingToken := mkPendingToken {
  pt_token : DropToken;
  pt_ack : N;
  pt_since : Instant;
  pt_warn : Z
}.

(** [tx] is open until it is set to [None]; [forwarded] are the items sent on it, and
    [requests] what the daemon was asked.  Acknowledgement channels are numbered. *)
Record EventThread := mkThread {
  tx_open : bool;
  close_tx : bool;
  thread_pending : list PendingToken;
  thread_tokens : list DropToken;
  next_ack : N;
  forwarded : list EventItem;
  requests : list DaemonRequest
}.

Definition thread_init : EventThread := mkThread true false [] [] 0 [] [].

(** ** The event loop *)

(** The draining loop; on an error the remaining tokens are dropped with the iterator. *)
Fixpoint handle_pending_drop_tokens (ack : N → AckStatus) (pending still_pending : list PendingToken)
    (drop_tokens : list DropToken) : res unit * list PendingToken * list DropToken :=
  match pending with
  | [] => (Ok tt, still_pending, drop_tokens)
  | p :: pending =>
      match ack (pt_ack p) with
      | AckSent => (Err "Node API should not send anything on ACK channel", [], drop_tokens)
      | AckDropped => handle_pending_drop_tokens ack pending still_pending (drop_tokens ++ [pt_token p])
      | AckEmpty =>
          handle_pending_drop_tokens ack pending
            (still_pending ++ [{| p with pt_warn := (pt_warn p + 1)%Z |}]) drop_tokens
      end
  end.

(** The token of an event ([data.drop_token()] of an input). *)
Definition event_drop_token (event : NodeEvent) : option DropToken :=
  match event with Input _ _ (Some data) => drop_token data | _ => None end.

(** The body of [for Timestamped { inner, .. } in events]; [None] is [break 'outer].  The
    receiver may be dropped at any time: [rx_alive] says whether the next sends succeed. *)
Definition forward_event (rx_alive : bool) (now : Instant) (event : NodeEvent) (s : EventThread)
    : bool * EventThread :=
  let close := close_tx s || match event with AllInputsClosed => true | _ => false end in
  if tx_open s then
    if rx_alive then
      let ack := next_ack s in
      let pending :=
        match event_drop_token event with
        | Some token => thread_pending s ++ [mkPendingToken token ack now 1]
        | None => thread_pending s
        end in
      (true, {| s with tx_open := negb close; close_tx := close; thread_pending := pending;
                       next_ack := (ack + 1)%N;
                       forwarded := forwarded s ++ [ItemNodeEvent event ack] |})
    else (false, {| s with close_tx := close |})
  else (true, {| s with close_tx := close |}).

Fixpoint forward_events (rx_alive : nat → bool) (now : Instant) (i : nat) (events : list NodeEvent)
    (s : EventThread) : bool * EventThread :=
  match events with
  | [] => (true, s)
  | event :: events =>
      match forward_event (rx_alive i) now event s with
      | (true, s) => forward_events rx_alive now (S i) events s
      | (false, s) => (false, s)
      end
  end.

Record RoundEnv := mkRoundEnv {
  env_ack : N → AckStatus;
  env_now : Instant;
  env_reply : res DaemonReply;
  env_rx_alive : nat → bool
}.

Inductive Round := Continue (s : EventThread) | Finished (result : res unit) (s : EventThread).

Definition thread_state (r : Round) : EventThread :=
  match r with Continue s | Finished _ s => s end.

Definition event_stream_round (env : RoundEnv) (s : EventThread) : Round :=
  match handle_pending_drop_tokens (env_ack env) (thread_pending s) [] (thread_tokens s) with
  | (Ok _, pending, tokens) =>
      let s := {| s with thread_pending := pending; thread_tokens := [];
                         requests := requests s ++ [ReqNextEvent tokens] |} in
      match env_reply env with
      | Ok (ReplyNextEvents []) => Finished (Ok tt) s
      | Ok (ReplyNextEvents events) =>
          match forward_events (env_rx_alive env) (env_now env) 0 events s with
          | (true, s) => Continue s
          | (false, s) => Finished (Ok tt) s
          end
      | Ok _ => Continue s
      | Err err => Finished (Err err) s
      | Panic => Finished Panic s
      end
  | (result, pending, tokens) =>
      Finished result {| s with thread_pending := pending; thread_tokens := tokens |}
  end.

(** The loop over the given rounds, or until it ends. *)
Fixpoint event_stream_rounds (envs : list RoundEnv) (s : EventThread) : Round :=
  match envs with
  | [] => Continue s
  | env :: envs =>
      match event_stream_round env s with
      | Continue s => event_stream_rounds envs s
      | Finished result s => Finished result s
      end
  end.

(** ** The end of the thread *)

Definition report_fatal (rx_alive : bool) (result : res unit) (s : EventThread) : EventThread :=
  match result with
  | Err err =>
      if tx_open s && rx_alive then {| s with forwarded := forwarded s ++ [ItemFatalError err] |} else s
  | _ => s
  end.

Definition report_drop_tokens (reply : res DaemonReply) (drop_tokens : list DropToken) : res unit * list DaemonRequest :=
  match drop_tokens with
  | [] => (Ok tt, [])
  | _ =>
      (match reply with
       | Ok ReplyEmpty => Ok tt
       | Ok _ => Err "unexpected ReportDropTokens reply"
       | Err e => Err e
       | Panic => Panic
       end, [ReqReportDropTokens drop_tokens])
  end.

Definition one_second : Duration := 1000000000.
Definition hundred_millis : Duration := 100000000.

(** One pass of [recv_timeout] over the pending tokens; a token whose message is older than
    a second is given up. *)
Fixpoint wait_for_drops (ack : N → AckStatus) (now : N → Instant) (pending : list PendingToken)
    : res (list PendingToken * list DropToken) :=
  match pending with
  | [] => Ok ([], [])
  | p :: pending =>
      match ack (pt_ack p) with
      | AckSent => Err "Node API should not send anything on ACK channel"
      | AckDropped => '(still, dropped) ← wait_for_drops ack now pending; Ok (still, pt_token p :: dropped)
      | AckEmpty =>
          '(still, dropped) ← wait_for_drops ack now pending;
          if (one_second <? now (pt_ack p) - pt_since p)%Z then Ok (still, dropped)
          else Ok ({| p with pt_warn := 0%Z |} :: still, dropped)
      end
  end.

(** The clock is read after the wait for each token. *)
Record RemainingEnv := mkRemainingEnv {
  rem_ack : N → AckStatus;
  rem_now : N → Instant;
  rem_reply : res DaemonReply
}.

(** [None] while the loop is still running after the given rounds. *)
Fixpoint report_remaining_drop_tokens (envs : list RemainingEnv) (drop_tokens : list DropToken)
    (pending : list PendingToken) : option (res unit) * list DaemonRequest :=
  match pending, drop_tokens, envs with
  | [], [], _ => (Some (Ok tt), [])
  | _, _, [] => (None, [])
  | _, _, env :: envs =>
      let '(result, sent) := report_drop_tokens (rem_reply env) drop_tokens in
      match result with
      | Ok _ =>
          match wait_for_drops (rem_ack env) (rem_now env) pending with
          | Ok (still, dropped) =>
              let '(result, more) := report_remaining_drop_tokens envs dropped still in
              (result, sent ++ more)
          | Err e => (Some (Err e), sent)
          | Panic => (Some Panic, sent)
          end
      | result => (Some result, sent)
      end
  end.

(** ** The drop stream *)

(** [drop_stream_loop]: the tokens passed on, and whether the loop ends ([break]). *)
Fixpoint forward_tokens (rx_alive : nat → bool) (i : nat) (events : list NodeDropEvent) : bool * list DropToken :=
  match events with
  | [] => (true, [])
  | OutputDropped token :: events =>
      if rx_alive i then
        let '(continue, tokens) := forward_tokens rx_alive (S i) events in
        (continue, token :: tokens)
      else (false, [])
  end.

Definition drop_stream_round (rx_alive : nat → bool) (reply : res DaemonReply) : bool * list DropToken :=
  match reply with
  | Ok (ReplyNextDropEvents []) => (false, [])
  | Ok (ReplyNextDropEvents events) => forward_tokens rx_alive 0 events
  | Ok _ => (true, [])
  | Err _ => (true, [])
  | Panic => (false, [])
  end.

Fixpoint drop_stream_loop (rounds : list ((nat → bool) * res DaemonReply)) : bool * list DropToken :=
  match rounds with
  | [] => (true, [])
  | (rx_alive, reply) :: rounds =>
      match drop_stream_round rx_alive reply with
      | (true, tokens) =>
          let '(continue, more) := drop_stream_loop rounds in (continue, tokens ++ more)
      | (false, tokens) => (false, tokens)
      end
  end.

(** ** What happens to the tokens *)

Definition item_token (item : EventItem) : option (DropToken * N) :=
  match item with
  | ItemNodeEvent event ack => (λ token, (token, ack)) <$> event_drop_token event
  | _ => None
  end.

Definition request_tokens (r : DaemonRequest) : list DropToken :=
  match r with ReqNextEvent tokens | ReqReportDropTokens tokens => tokens | _ => [] end.

Definition reported (s : EventThread) : list DropToken := requests s ≫= request_tokens.
Definition held (s : EventThread) : list (DropToken * N) :=
  (λ p, (pt_token p, pt_ack p)) <$> thread_pending s.

(** The messages the node has got are those it still holds and those it has dropped, whose
    tokens are reported or about to be. *)
Definition accounted (dropped : N → Prop) (s : EventThread) : Prop :=
  ∃ done, omap item_token (forwarded s) ≡ₚ done ++ held s ∧
    done.*1 ≡ₚ reported s ++ thread_tokens s ∧ Forall (λ x, dropped x.2) done.

Definition silent (env : RoundEnv) : Prop := ∀ a, env_ack env a ≠ AckSent.

Lemma accounted_mono (P Q : N → Prop) s : (∀ a, P a → Q a) → accounted P s → accounted Q s.
Proof.
  intros HPQ (done & Hf & Hd & HP). exists done. split_and!; [done..|].
  eapply Forall_impl; [done|]. intros [] ?. by apply HPQ.
Qed.

Lemma handle_pending_spec ack pending still tokens :
  (∀ a, ack a ≠ AckSent) →
  ∃ gone kept, handle_pending_drop_tokens ack pending still tokens
    = (Ok tt, still ++ kept, tokens ++ (pt_token <$> gone)) ∧
    ((λ p, (pt_token p, pt_ack p)) <$> pending)
      ≡ₚ ((λ p, (pt_token p, pt_ack p)) <$> gone) ++ ((λ p, (pt_token p, pt_ack p)) <$> kept) ∧
    Forall (λ p, ack (pt_ack p) = AckDropped) gone ∧ Forall (λ p, ack (pt_ack p) = AckEmpty) kept.
Proof.
  intros Hack. revert still tokens. induction pending as [|p pending IH]; intros still tokens; simpl.
  { exists [], []. by rewrite !app_nil_r. }
  destruct (ack (pt_ack p)) eqn:Hp; [| |by apply Hack in Hp].
  - destruct (IH (still ++ [{| p with pt_warn := (pt_warn p + 1)%Z |}]) tokens)
      as (gone & kept & -> & Hperm & Hg & Hk).
    exists gone, ({| p with pt_warn := (pt_warn p + 1)%Z |} :: kept). rewrite <- app_assoc. split_and!; [done| |done|by constructor].
    simpl. rewrite Hperm. apply Permutation_middle.
  - destruct (IH still (tokens ++ [pt_token p])) as (gone & kept & -> & Hperm & Hg & Hk).
    exists (p :: gone), kept. rewrite <- app_assoc. split_and!; [done| |by constructor|done].
    simpl. by rewrite Hperm.
Qed.

Lemma forward_event_accounted dropped rx_alive now event s :
  accounted dropped s → accounted dropped (forward_event rx_alive now event s).2.
Proof.
  intros (done & Hf & Hd & HD). unfold forward_event.
  destruct (tx_open s), rx_alive; simpl; try by exists done.
  exists done. unfold held, reported in *. simpl. split_and!; [|done..].
  rewrite omap_app, Hf. simpl. destruct (event_drop_token event); simpl; rewrite ?fmap_app, ?app_nil_r; [|done].
  by rewrite app_assoc.
Qed.

Lemma forward_events_accounted dropped rx_alive now i events s :
  accounted dropped s → accounted dropped (forward_events rx_alive now i events s).2.
Proof.
  revert i s. induction events as [|event events IH]; intros i s Hs; simpl; [done|].
  pose proof (forward_event_accounted dropped (rx_alive i) now event s Hs) as Hs'.
  destruct (forward_event _ _ _ _) as [[] s']; [by apply IH|done].
Qed.

Lemma forward_events_requests rx_alive now i events s :
  requests (forward_events rx_alive now i events s).2 = requests s.
Proof.
  revert i s. induction events as [|event events IH]; intros i s; simpl; [done|].
  unfold forward_event. destruct (tx_open s), (rx_alive i); simpl; try done; by rewrite IH.
Qed.

(** Once the channel to the event stream is closed, nothing more is forwarded. *)
Lemma forward_events_closed rx_alive now i events s :
  tx_open s = false → let s' := (forward_events rx_alive now i events s).2 in
  tx_open s' = false ∧ forwarded s' = forwarded s.
Proof.
  revert i s. induction events as [|event events IH]; intros i s Htx; simpl; [done|].
  unfold forward_event. rewrite Htx.
  match goal with |- context [forward_events _ _ _ _ ?s1] => destruct (IH (S i) s1) as [H1 H2]; [done|] end.
  split; [done|by rewrite H2].
Qed.

Lemma rounds_closed envs s :
  Forall silent envs → tx_open s = false →
  forwarded (thread_state (event_stream_rounds envs s)) = forwarded s.
Proof.
  intros Hsil. revert s. induction Hsil as [|env envs He Hes IH]; intros s Htx; simpl; [done|].
  unfold event_stream_round. destruct (handle_pending_spec (env_ack env) (thread_pending s) [] (thread_tokens s) He)
    as (gone & kept & -> & _).
  set (s1 := {| s with thread_pending := _; thread_tokens := _; requests := _ |}).
  assert (tx_open s1 = false ∧ forwarded s1 = forwarded s) as [H1 H2] by done. clearbody s1.
  destruct (env_reply env) as [[| [|event events] | | |]|e|]; try by (cbn; rewrite ?IH).
  destruct (forward_events_closed (env_rx_alive env) (env_now env) 0 (event :: events) s1 H1) as [H3 H4].
  destruct (forward_events _ _ _ _ _) as [[] s2]; simpl in *; [rewrite IH by done|]; congruence.
Qed.

(** One round, without the events it brings: all tokens of dropped messages are reported. *)
Lemma round_request env s :
  silent env → ∃ gone kept,
  handle_pending_drop_tokens (env_ack env) (thread_pending s) [] (thread_tokens s)
  = (Ok tt, kept, thread_tokens s ++ (pt_token <$> gone)) ∧
  held s ≡ₚ ((λ p, (pt_token p, pt_ack p)) <$> gone) ++ ((λ p, (pt_token p, pt_ack p)) <$> kept) ∧
  Forall (λ p, env_ack env (pt_ack p) = AckDropped) gone ∧
  Forall (λ p, env_ack env (pt_ack p) = AckEmpty) kept.
Proof. apply handle_pending_spec. Qed.

Lemma round_accounted dropped env s :
  silent env → accounted dropped s →
  accounted (λ a, dropped a ∨ env_ack env a = AckDropped) (thread_state (event_stream_round env s)).
Proof.
  intros Hsil (done & Hf & Hd & HD). unfold event_stream_round.
  destruct (round_request env s Hsil) as (gone & kept & -> & Hperm & Hg & Hk).
  set (s1 := {| s with thread_pending := kept; thread_tokens := [];
                       requests := requests s ++ [ReqNextEvent (thread_tokens s ++ (pt_token <$> gone))] |}).
  assert (accounted (λ a, dropped a ∨ env_ack env a = AckDropped) s1) as H1.
  { exists (done ++ ((λ p, (pt_token p, pt_ack p)) <$> gone)). unfold s1, held, reported. simpl. split_and!.
    - by rewrite Hf, Hperm, app_assoc.
    - rewrite fmap_app, Hd, <- list_fmap_compose, bind_app. simpl. rewrite !app_nil_r, <- app_assoc. done.
    - apply Forall_app. split; [eapply Forall_impl; [done|]; naive_solver|].
      apply Forall_fmap. eapply Forall_impl; [done|]. simpl. auto. }
  destruct (env_reply env) as [[| [|event events] | | |]|e|]; try done.
  pose proof (forward_events_accounted _ (env_rx_alive env) (env_now env) 0 (event :: events) s1 H1) as H2.
  by destruct (forward_events _ _ _ _ _) as [[] s2].
Qed.

Lemma rounds_accounted dropped envs s :
  Forall silent envs → accounted dropped s →
  accounted (λ a, dropped a ∨ Exists (λ env, env_ack env a = AckDropped) envs)
    (thread_state (event_stream_rounds envs s)).
Proof.
  intros Hsil. revert dropped s. induction Hsil as [|env envs He Hes IH]; intros dropped s Hs; simpl.
  { eapply accounted_mono; [|done]. auto. }
  pose proof (round_accounted dropped env s He Hs) as Hs'.
  destruct (event_stream_round env s) as [s'|r s']; simpl in *.
  - eapply accounted_mono; [|by apply IH]. intros a. rewrite Exists_cons. naive_solver.
  - eapply accounted_mono; [|done]. intros a. rewrite Exists_cons. naive_solver.
Qed.

Lemma accounted_init dropped : accounted dropped thread_init.
Proof. by exists []. Qed.

(** A message that the node has dropped is in the next request. *)
Lemma dropped_in_next_request env s t ack :
  silent env → (t, ack) ∈ held s → env_ack env ack = AckDropped →
  t ∈ reported (thread_state (event_stream_round env s)).
Proof.
  intros He Hin Hack. unfold event_stream_round.
  destruct (round_request env s He) as (gone & kept & -> & Hperm & _ & Hk).
  assert (t ∈ pt_token <$> gone) as Hgone.
  { rewrite Hperm in Hin.
    apply elem_of_app in Hin as [(p & ? & Hp)%list_elem_of_fmap|(p & ? & Hp)%list_elem_of_fmap]; simplify_eq.
    - apply list_elem_of_fmap. eauto.
    - eapply Forall_forall in Hk; [|done]. congruence. }
  set (s1 := {| s with thread_pending := kept; thread_tokens := []; requests := _ |}).
  assert (t ∈ reported s1) as H1.
  { unfold s1, reported. simpl. rewrite bind_app. simpl. rewrite app_nil_r. set_solver. }
  destruct (env_reply env) as [[| [|event events] | | |]|e|]; try done.
  pose proof (forward_events_requests (env_rx_alive env) (env_now env) 0 (event :: events) s1) as Hrep.
  unfold reported in *. destruct (forward_events _ _ _ _ _) as [[] s2]; simpl in *; by rewrite Hrep.
Qed.

(** *** What was received

    The rounds that were run: the loop ends with the first one that finishes it. *)
Fixpoint rounds_run (envs : list RoundEnv) (s : EventThread) : list RoundEnv :=
  match envs with
  | [] => []
  | env :: envs =>
      env :: match event_stream_round env s with Continue s => rounds_run envs s | Finished _ _ => [] end
  end.

Definition received_events (env : RoundEnv) : list NodeEvent :=
  match env_reply env with Ok (ReplyNextEvents events) => events | _ => [] end.
Definition item_event (item : EventItem) : option NodeEvent :=
  match item with ItemNodeEvent event _ => Some event | _ => None end.
Definition given_events (s : EventThread) : list NodeEvent := omap item_event (forwarded s).

Lemma given_tokens s : (omap item_token (forwarded s)).*1 = omap event_drop_token (given_events s).
Proof.
  unfold given_events. induction (forwarded s) as [|item items IH]; [done|].
  destruct item; cbn; [|exact IH..]. destruct (event_drop_token event); cbn; [f_equal|]; exact IH.
Qed.

(** Everything received is given to the node, in order, until the event that closes the channel. *)
Definition given_up_to_close (received : list NodeEvent) (s : EventThread) : Prop :=
  if tx_open s then close_tx s = false ∧ given_events s = received
  else last (given_events s) = Some AllInputsClosed ∧ ∃ rest, received = given_events s ++ rest.

Lemma forward_events_given rx_alive now i events received s :
  given_up_to_close received s →
  let '(continue, s') := forward_events rx_alive now i events s in
  if continue then given_up_to_close (received ++ events) s'
  else (∃ rest, received ++ events = given_events s' ++ rest) ∧ ∃ j, rx_alive j = false.
Proof.
  revert i received s. induction events as [|event events IH]; intros i received s Hg; simpl; [by rewrite app_nil_r|].
  unfold forward_event. unfold given_up_to_close in Hg. destruct (tx_open s) eqn:Htx; [|destruct Hg as [Hl [rest ->]]].
  - destruct Hg as [Hc <-]. destruct (rx_alive i) eqn:Hrx; [|by split; eauto].
    rewrite Hc. simpl. match goal with |- context [forward_events _ _ _ _ ?s1] =>
      specialize (IH (S i) (given_events s ++ [event]) s1) end.
    rewrite <- app_assoc in IH. apply IH. unfold given_up_to_close, given_events. simpl.
    rewrite omap_app. simpl. destruct event; simpl; try done. rewrite last_snoc. split; [done|]. exists []. by rewrite app_nil_r.
  - match goal with |- context [forward_events _ _ _ _ ?s1] =>
      specialize (IH (S i) ((given_events s ++ rest) ++ [event]) s1) end.
    rewrite <- (app_assoc _ [event]) in IH. apply IH. unfold given_up_to_close. simpl. split; [done|].
    exists (rest ++ [event]). by rewrite app_assoc.
Qed.

Lemma round_given env received s :
  silent env → given_up_to_close received s →
  match event_stream_round env s with
  | Continue s' => given_up_to_close (received ++ received_events env) s'
  | Finished _ s' => ∃ rest, received ++ received_events env = given_events s' ++ rest ∧
      (rest = [] ∨ last (given_events s') = Some AllInputsClosed ∨ ∃ j, env_rx_alive env j = false)
  end.
Proof.
  intros Hsil Hg. unfold event_stream_round, received_events.
  destruct (round_request env s Hsil) as (gone & kept & -> & _).
  set (s1 := {| s with thread_pending := kept; thread_tokens := []; requests := _ |}).
  assert (given_up_to_close received s1) as H1 by exact Hg. clearbody s1.
  assert (∃ rest, received ++ [] = given_events s1 ++ rest ∧
    (rest = [] ∨ last (given_events s1) = Some AllInputsClosed ∨ ∃ j, env_rx_alive env j = false)) as Hend.
  { rewrite app_nil_r. unfold given_up_to_close in H1. destruct (tx_open s1).
    - destruct H1 as [_ <-]. exists []. rewrite app_nil_r. auto.
    - destruct H1 as [? [rest ->]]. exists rest. auto. }
  destruct (env_reply env) as [[| [|event events] | | |]|e|]; try done; try by rewrite app_nil_r.
  pose proof (forward_events_given (env_rx_alive env) (env_now env) 0 (event :: events) received s1 H1) as H2.
  destruct (forward_events _ _ _ _ _) as [[] s2]; [done|]. destruct H2 as [[rest ?] ?]. exists rest. auto.
Qed.

Lemma rounds_given envs received s :
  Forall silent envs → given_up_to_close received s →
  let s' := thread_state (event_stream_rounds envs s) in
  ∃ rest, received ++ (rounds_run envs s ≫= received_events) = given_events s' ++ rest ∧
    (rest = [] ∨ last (given_events s') = Some AllInputsClosed ∨
     ∃ env j, env ∈ rounds_run envs s ∧ env_rx_alive env j = false).
Proof.
  intros Hsil. revert received s. induction Hsil as [|env envs He Hes IH]; intros received s Hg; simpl.
  { rewrite app_nil_r. unfold given_up_to_close in Hg. destruct (tx_open s).
    - destruct Hg as [_ <-]. exists []. rewrite app_nil_r. auto.
    - destruct Hg as [? [rest ->]]. exists rest. auto. }
  pose proof (round_given env received s He Hg) as Hr. destruct (event_stream_round env s) as [s'|r s']; simpl.
  - destruct (IH _ _ Hr) as (rest & Heq & Hrest). exists rest. rewrite app_assoc. split; [done|].
    destruct Hrest as [?|[?|(env' & j & ? & ?)]]; [auto..|]. right; right. exists env', j. split; [by right|done].
  - destruct Hr as (rest & Heq & Hrest). exists rest. rewrite app_nil_r. split; [done|].
    destruct Hrest as [?|[?|(j & ?)]]; [auto..|]. right; right. exists env, j. split; [left|done].
Qed.

(** Each round asks the daemon once; a request that fails ends the loop. *)
Lemma rounds_requests envs s :
  Forall silent envs →
  length (requests (thread_state (event_stream_rounds envs s))) = length (requests s) + length (rounds_run envs s) ∧
  ∀ i env, rounds_run envs s !! i = Some env → S i < length (rounds_run envs s) → is_ok (env_reply env) = true.
Proof.
  intros Hsil. revert s. induction Hsil as [|env envs He Hes IH]; intros s; simpl; [split; [lia|done]|].
  assert (length (requests (thread_state (event_stream_round env s))) = S (length (requests s)) ∧
    match event_stream_round env s with Continue _ => is_ok (env_reply env) = true | Finished _ _ => True end)
    as [Hlen Hok].
  { unfold event_stream_round. destruct (round_request env s He) as (gone & kept & -> & _).
    set (s1 := {| s with thread_pending := kept; thread_tokens := []; requests := _ |}).
    assert (length (requests s1) = S (length (requests s))) as H1 by (unfold s1; simpl; rewrite length_app; simpl; lia).
    destruct (env_reply env) as [[| [|event events] | | |]|e|]; try done.
    pose proof (forward_events_requests (env_rx_alive env) (env_now env) 0 (event :: events) s1) as Hrep.
    destruct (forward_events _ _ _ _ _) as [[] s2]; simpl in *; by rewrite Hrep. }
  destruct (event_stream_round env s) as [s'|r s']; simpl in *.
  - destruct (IH s') as [Hl Hi]. split; [lia|]. intros [|i] e Hin Hlt; simpl in *; [by simplify_eq|].
    eapply Hi; [done|lia].
  - split; [lia|]. intros [|i] e Hin Hlt; simpl in *; [lia|done].
Qed.

(** C20. Drop tokens over any rounds of a node's event thread, as long as the node only drops
    the acknowledgement channels.  What the thread received is given to the node in order, and
    all of it, unless the node has dropped its event stream or the thread has passed on
    [AllInputsClosed], after which it has no channel any more; tokens that arrive later are lost
    ([late_message_token_lost]).  The tokens given are accounted for exactly once, as held by the
    node, about to be reported, or put into a request.  A token is put into a request only after
    the node has dropped the message it came with, and a message that the node has dropped is in
    the next request.  There is one request per round, and all but the last were answered: only
    the one that ends the thread may not have reached the daemon. *)
Theorem tokens_reported_when_dropped envs env :
  Forall silent envs → silent env →
  let s := thread_state (event_stream_rounds envs thread_init) in
  let run := rounds_run envs thread_init in
  (∃ rest, run ≫= received_events = given_events s ++ rest ∧
     (rest = [] ∨ last (given_events s) = Some AllInputsClosed ∨
      ∃ env i, env ∈ run ∧ env_rx_alive env i = false)) ∧
  omap event_drop_token (given_events s) ≡ₚ reported s ++ thread_tokens s ++ (held s).*1 ∧
  (∀ t, t ∈ reported s → ∃ event ack, ItemNodeEvent event ack ∈ forwarded s ∧
     event_drop_token event = Some t ∧ Exists (λ env, env_ack env ack = AckDropped) envs) ∧
  (∀ t ack, (t, ack) ∈ held s → env_ack env ack = AckDropped →
     t ∈ reported (thread_state (event_stream_round env s))) ∧
  length (requests s) = length run ∧
  (∀ i env, run !! i = Some env → S i < length run → is_ok (env_reply env) = true).
Proof.
  intros Hsil He s run.
  destruct (rounds_accounted (λ _, False) envs thread_init Hsil (accounted_init _))
    as (done & Hf & Hd & HD). fold s in Hf, Hd.
  split; [by apply (rounds_given envs [] thread_init)|]. split; [|split; [|split; [|by apply (rounds_requests envs thread_init)]]].
  - by rewrite <- given_tokens, Hf, fmap_app, Hd, app_assoc.
  - intros t Ht. assert (t ∈ done.*1) as ([t' ack] & -> & Hin)%list_elem_of_fmap.
    { rewrite Hd. apply elem_of_app. by left. }
    assert ((t', ack) ∈ omap item_token (forwarded s)) as (item & Hitem & Htok)%list_elem_of_omap.
    { rewrite Hf. apply elem_of_app. by left. }
    destruct item as [event ack'| | |]; try discriminate. simpl in Htok.
    destruct (event_drop_token event) as [t''|] eqn:Hev; simplify_eq/=.
    exists event, ack. split_and!; [done..|].
    eapply Forall_forall in HD; [|done]. simpl in HD. naive_solver.
  - intros t ack Hin Hack. by eapply dropped_in_next_request.
Qed.

(** After AllInputsClosed the thread has no channel to the event stream: a message that
    still arrives, for example on an input that recovers, is dropped without its drop token
    being reported, then or when the thread ends; the token stays pending at the daemon. *)
Theorem late_message_token_lost envs s t :
  Forall silent envs → accounted (λ _, True) s → tx_open s = false →
  t ∉ (omap item_token (forwarded s)).*1 →
  let s' := thread_state (event_stream_rounds envs s) in
  t ∉ reported s' ∧ t ∉ thread_tokens s' ∧ t ∉ pt_token <$> thread_pending s'.
Proof.
  intros Hsil Hs Htx Ht s'.
  destruct (rounds_accounted _ envs s Hsil Hs) as (done & Hf & Hd & _). fold s' in Hf, Hd.
  unfold s' in Hf at 1. rewrite rounds_closed in Hf by done.
  assert (t ∉ (done ++ held s').*1) as Hn by by rewrite <- Hf.
  rewrite fmap_app, Hd in Hn. unfold held in Hn. rewrite <- list_fmap_compose in Hn. set_solver.
Qed.

(** ** The end of the thread *)

Lemma wait_for_drops_nil ack now : wait_for_drops ack now [] = Ok ([], []).
Proof. done. Qed.

Lemma wait_for_drops_expired ack now pending still dropped :
  Forall (λ p, ack (pt_ack p) = AckEmpty → one_second < now (pt_ack p) - pt_since p)%Z pending →
  wait_for_drops ack now pending = Ok (still, dropped) → still = [].
Proof.
  intros Hall. revert still dropped. induction Hall as [|p pending Hp _ IH]; intros still dropped; simpl; [by intros [= <- _]|].
  destruct (ack (pt_ack p)); [| |done].
  - intros ([still' dropped'] & Hw & Hok)%res_bind_Ok. apply IH in Hw as ->.
    destruct (Z.ltb_spec one_second (now (pt_ack p) - pt_since p)); [by simplify_eq|].
    specialize (Hp eq_refl). lia.
  - intros ([still' dropped'] & Hw & Hok)%res_bind_Ok. apply IH in Hw as ->. by simplify_eq.
Qed.

Lemma wait_for_drops_since ack now pending still dropped start :
  Forall (λ p, pt_since p ≤ start)%Z pending → wait_for_drops ack now pending = Ok (still, dropped) →
  Forall (λ p, pt_since p ≤ start)%Z still.
Proof.
  intros Hall. revert still dropped. induction Hall as [|p pending Hp _ IH]; intros still dropped; simpl; [by intros [= <- _]|].
  destruct (ack (pt_ack p)); [| |done]; intros ([still' dropped'] & Hw & Hok)%res_bind_Ok;
    apply IH in Hw; [destruct (_ <? _)%Z|]; simplify_eq; try done. by constructor.
Qed.

(** The clock of a wait: each pass waits 100 ms for every message that is still held. *)
Definition passes_time (start : Instant) (k : nat) (envs : list RemainingEnv) : Prop :=
  ∀ i env a, envs !! i = Some env → rem_ack env a = AckEmpty →
    (start + (Z.of_nat (k + i) + 1) * hundred_millis ≤ rem_now env a)%Z.

Lemma report_remaining_step env envs tokens pending :
  pending ≠ [] ∨ tokens ≠ [] →
  report_remaining_drop_tokens (env :: envs) tokens pending
  = let '(result, sent) := report_drop_tokens (rem_reply env) tokens in
    match result with
    | Ok _ =>
        match wait_for_drops (rem_ack env) (rem_now env) pending with
        | Ok (still, dropped) =>
            let '(result, more) := report_remaining_drop_tokens envs dropped still in (result, sent ++ more)
        | Err e => (Some (Err e), sent)
        | Panic => (Some Panic, sent)
        end
    | result => (Some result, sent)
    end.
Proof. intros Hne. by destruct pending, tokens; [destruct Hne|..]. Qed.

Lemma report_remaining_ends start k envs tokens pending :
  passes_time start k envs → 12 ≤ k + length envs →
  Forall (λ p, pt_since p ≤ start)%Z pending →
  (11 ≤ k → pending = []) → (12 ≤ k → tokens = []) →
  is_Some (report_remaining_drop_tokens envs tokens pending).1.
Proof.
  revert k tokens pending. induction envs as [|env envs IH]; intros k tokens pending Htime Hlen Hsince H11 H12.
  { simpl in Hlen. rewrite H11, H12 by lia. done. }
  destruct (decide (pending = [] ∧ tokens = [])) as [[-> ->]|Hne]; [done|].
  rewrite report_remaining_step by (destruct pending, tokens; naive_solver).
  destruct (report_drop_tokens (rem_reply env) tokens) as [[] sent]; [|done..].
  destruct (wait_for_drops (rem_ack env) (rem_now env) pending) as [[still dropped]| |] eqn:Hw; [|done..].
  specialize (IH (S k) dropped still). destruct (report_remaining_drop_tokens envs dropped still) as [r more].
  apply IH; simpl in *.
  - intros i env' b Hi. replace (S k + i) with (k + S i) by lia. by apply Htime.
  - lia.
  - by eapply wait_for_drops_since.
  - intros Hk. eapply wait_for_drops_expired; [|done]. eapply Forall_impl; [done|]. simpl. intros p Hp Ha.
    specialize (Htime 0 env (pt_ack p) eq_refl Ha). unfold one_second, hundred_millis in *. lia.
  - intros Hk. rewrite H11 in Hw by lia. by simplify_eq/=.
Qed.

(** A thread that ends does not wait for ever for the messages the node still holds:
    twelve passes (each at most 100 ms per message) are enough, whatever the node, the
    daemon and the connection do. *)
Theorem report_remaining_terminates start envs tokens pending :
  passes_time start 0 envs → length envs = 12 → Forall (λ p, pt_since p ≤ start)%Z pending →
  is_Some (report_remaining_drop_tokens envs tokens pending).1.
Proof. intros. eapply report_remaining_ends; [done|lia|done|lia..]. Qed.

(** ** The drop stream *)

Definition dropped_tokens (reply : res DaemonReply) : list DropToken :=
  match reply with
  | Ok (ReplyNextDropEvents events) => (λ '(OutputDropped token), token) <$> events
  | _ => []
  end.

(** While the node lives and the daemon has not closed the stream, the node gets every
    finished token, once and in order. *)
Lemma drop_stream_fifo rounds :
  Forall (λ '(alive, reply), (∀ i, alive i = true) ∧ reply ≠ Ok (ReplyNextDropEvents []) ∧ reply ≠ Panic) rounds →
  drop_stream_loop rounds = (true, rounds.*2 ≫= dropped_tokens).
Proof.
  assert (∀ alive events i, (∀ i, alive i = true) →
    forward_tokens alive i events = (true, (λ '(OutputDropped token), token) <$> events)) as Hfwd.
  { intros alive events. induction events as [|[token] events IH]; intros i Ha; simpl; [done|]. by rewrite Ha, IH. }
  induction 1 as [|[alive reply] rounds (Ha & Hne & Hp) _ IH]; simpl; [done|]. rewrite IH.
  destruct reply as [[| |[|event events]| |]| |]; try done. cbn [drop_stream_round]. by rewrite Hfwd.
Qed.

(** When the connection to the daemon is broken, the loop of the drop stream neither ends
    nor waits: it repeats its request for ever, while the event thread ends with the first
    failed request. *)
Theorem drop_stream_spins rx_alive e n env s :
  silent env → env_reply env = Err e →
  drop_stream_loop (replicate n (rx_alive, Err e)) = (true, []) ∧
  ∃ s', event_stream_round env s = Finished (Err e) s'.
Proof.
  intros He Hr. split.
  - induction n as [|n IH]; simpl; [done|]. by rewrite IH.
  - unfold event_stream_round. destruct (round_request env s He) as (gone & kept & -> & _). rewrite Hr. by eexists.
Qed.

(** ** Examples *)

Definition sample_message (t : DropToken) : NodeEvent := Input "image" (mkMetadata ∅) (Some (DMSharedMemory "region" 4096 t)).
Definition sample_round (dropped : list N) (events : list NodeEvent) : RoundEnv :=
  mkRoundEnv (λ a, if bool_decide (a ∈ dropped) then AckDropped else AckEmpty) 0 (Ok (ReplyNextEvents events)) (λ _, true).

Lemma sample_round_silent dropped events : silent (sample_round dropped events).
Proof. intros a. simpl. by case_bool_decide. Qed.

Lemma tokens_reported_when_dropped_witness :
  let envs := [sample_round [] [sample_message 7; sample_message 8]; sample_round [1%N] [Stop]] in
  let s := thread_state (event_stream_rounds envs thread_init) in
  requests s = [ReqNextEvent []; ReqNextEvent [8%N]] ∧ held s = [(7%N, 0%N)] ∧
  7%N ∈ reported (thread_state (event_stream_round (sample_round [0%N] []) s)).
Proof.
  intros envs s. split_and!; [vm_compute; reflexivity..|].
  destruct (tokens_reported_when_dropped envs (sample_round [0%N] [])) as (_ & _ & _ & H & _).
  - repeat constructor; apply sample_round_silent.
  - apply sample_round_silent.
  - apply (H 7%N 0%N); vm_compute; [left|reflexivity].
Defined.

Lemma late_message_token_lost_witness :
  let s := thread_state (event_stream_rounds [sample_round [] [AllInputsClosed]] thread_init) in
  let s' := thread_state (event_stream_rounds [sample_round [] [sample_message 7]; sample_round [] [Stop]] s) in
  tx_open s = false ∧ 7%N ∉ reported s'.
Proof.
  intros s s'. split; [reflexivity|].
  apply (late_message_token_lost [sample_round [] [sample_message 7]; sample_round [] [Stop]] s 7%N).
  - repeat constructor; apply sample_round_silent.
  - exists []. vm_compute. repeat split; constructor.
  - reflexivity.
  - vm_compute. intros H. inversion H.
Defined.

Definition sample_remaining (k : nat) : RemainingEnv :=
  mkRemainingEnv (λ _, AckEmpty) (λ _, (Z.of_nat k + 1) * hundred_millis)%Z (Ok ReplyEmpty).

Lemma report_remaining_terminates_witness :
  let pending := [mkPendingToken 7 0 0 1] in
  is_Some (report_remaining_drop_tokens (sample_remaining <$> seq 0 12) [8%N] pending).1.
Proof.
  apply (report_remaining_terminates 0).
  - intros i env a Hi _. apply list_lookup_fmap_Some in Hi as (k & -> & Hk).
    apply lookup_seq in Hk as [-> _]. simpl. lia.
  - reflexivity.
  - repeat constructor. simpl. lia.
Defined.

Lemma drop_stream_spins_witness :
  let env := mkRoundEnv (λ _, AckEmpty) 0 (Err "broken pipe") (λ _, true) in
  ∃ s', event_stream_round env thread_init = Finished (Err "broken pipe") s'.
Proof.
  intros env. destruct (drop_stream_spins (λ _, true) "broken pipe" 3 env thread_init) as [_ H].
  - intros a. discriminate.
  - reflexivity.
  - exact H.
Defined.
