(* ===== verification/EventStream.v ===== *)
(** * The node's event stream

    Models [apis/rust/node/src/event_stream/mod.rs]: receiving events through the scheduler,
    without blocking, all at once, with a timeout, as a [Stream], and the helpers that wait
    for the response of a service or the result of an action; the conversion of events; the
    check of the first message of an input; and the record of events that is written out.
    The channel from the event thread is the list of the items in it, with a flag that says
    whether anybody can still send. *)

From Stdlib Require Import ZArith Lia.
From stdpp Require Import base gmap sets list strings.
From S2P Require Import Prelude Message Scheduler InputTracker Arrow.
Local Open Scope list_scope.

Definition GOAL_STATUS_SUCCEEDED : string := "succeeded".
Definition GOAL_STATUS_ABORTED : string := "aborted".
Definition GOAL_STATUS_CANCELED : string := "canceled".

(** The result of polling a future. *)
Inductive Poll (A : Type) := Ready (a : A) | NotReady.
Arguments Ready {A} _.
Arguments NotReady {A}.

Inductive TryRecvError := TryEmpty | TryClosed.

Inductive PatternError :=
| PatternTimeout
| ServerRestarted (server : NodeId)
| StreamEnded
| StreamError (err : string).

Inductive CorrelationOutcome := CMatch | CServerRestarted | CStreamEnded | CStreamError | CPassthrough.

(** What [record_event] writes, without the time offsets. *)
Inductive RecordedEvent (J : Type) :=
| RecStop
| RecInput (id : DataId) (data : option J)
| RecInputClosed (id : DataId)
| RecInputRecovered (id : DataId)
| RecNodeRestarted (id : NodeId)
| RecAllInputsClosed.
Arguments RecStop {J}. Arguments RecInput {J}. Arguments RecInputClosed {J}.
Arguments RecInputRecovered {J}. Arguments RecNodeRestarted {J}. Arguments RecAllInputsClosed {J}.

(** Whether a message belongs to a service, action or streaming pattern. *)
Definition carries_pattern_correlation (params : gmap string ParameterValue) : bool :=
  contains_key params REQUEST_ID || contains_key params GOAL_ID || contains_key params GOAL_STATUS.

Section stream.
(** The type information of a message ([Metadata] does not hold it), what a shared-memory
    region contains, and the JSON writer of the Arrow library. *)
Context {T J : Type} `{ArrowLib T, EqDecision T}.
Context (type_info : Metadata → ArrowTypeInfo T) (open_region : string → option (list Byte.byte)).
Context (to_json : ArrayData T → res J).

Abbreviation Event := (InputTracker.Event (ArrayData T)).

Record EventStream := mkStream {
  receiver : list EventItem;
  senders_alive : bool;
  scheduler : Scheduler;
  write_events_to : option (list (RecordedEvent J));
  use_scheduler : bool;
  input_type_checks : gmap DataId T;
  type_warnings : list (DataId * T * T);
  pending_passthrough : list Event
}.

(** ** Conversion

    The Arrow library reports errors as values, so that the case [Panic] does not occur. *)

Definition convert_event_item (item : EventItem) : Event :=
  match item with
  | ItemNodeEvent Stop _ => EvStop Manual
  | ItemNodeEvent (Reload operator_id) _ => EvReload operator_id
  | ItemNodeEvent (InputClosed id) _ => EvInputClosed id
  | ItemNodeEvent (InputRecovered id) _ => EvInputRecovered id
  | ItemNodeEvent (NodeRestarted id) _ => EvNodeRestarted id
  | ItemNodeEvent (Input id metadata data) _ =>
      match data_to_arrow_array open_region data (type_info metadata) (parameters metadata) with
      | Ok data => EvInput id metadata data
      | Err err => EvError err
      | Panic => EvError "panic"
      end
  | ItemNodeEvent AllInputsClosed _ => EvStop CauseAllInputsClosed
  | ItemNodeEvent (ParamUpdate key value) _ => EvParamUpdate key value
  | ItemNodeEvent (ParamDeleted key) _ => EvParamDeleted key
  | ItemNodeEvent (NodeFailed affected error source) _ => EvNodeFailed affected error source
  | ItemZenohInput id metadata payload =>
      match zenoh_payload_to_arrow_array payload (type_info metadata) (parameters metadata) with
      | Ok data => EvInput id metadata data
      | Err err => EvError err
      | Panic => EvError "panic"
      end
  | ItemFatalError err => EvError (String.append "fatal event stream error: " err)
  | ItemTimeoutError err => EvError (String.append "Timeout event stream error: " err)
  end.

(** ** Recording *)

Definition convert_output_to_json (id : DataId) (metadata : Metadata) (data : option DataMessage)
    : res (RecordedEvent J) :=
  match data with
  | None => Ok (RecInput id None)
  | Some _ =>
      array ← data_to_arrow_array open_region data (type_info metadata) (parameters metadata);
      json ← to_json array;
      Ok (RecInput id (Some json))
  end.

Definition event_json (event : EventItem) : res (option (RecordedEvent J)) :=
  match event with
  | ItemNodeEvent Stop _ => Ok (Some RecStop)
  | ItemNodeEvent (Input id metadata data) _ => Some <$> convert_output_to_json id metadata data
  | ItemNodeEvent (InputClosed id) _ => Ok (Some (RecInputClosed id))
  | ItemNodeEvent (InputRecovered id) _ => Ok (Some (RecInputRecovered id))
  | ItemNodeEvent (NodeRestarted id) _ => Ok (Some (RecNodeRestarted id))
  | ItemNodeEvent AllInputsClosed _ => Ok (Some RecAllInputsClosed)
  | _ => Ok None
  end.

Definition record_event (s : EventStream) (event : EventItem) : res EventStream :=
  match write_events_to s with
  | None => Ok s
  | Some events_buffer =>
      json ← event_json event;
      Ok {| s with write_events_to := Some (events_buffer ++ option_list json) |}
  end.

(** [self.record_event(&event).unwrap()] panics on an error. *)
Definition add_event (s : EventStream) (event : EventItem) : res EventStream :=
  match record_event s event with
  | Ok s => Ok {| s with scheduler := Scheduler.add_event (scheduler s) event |}
  | _ => Panic
  end.

(** ** Receiving *)

(** The check of the first message of an input, which stays armed for pattern messages. *)
Definition check_first_message (event : option Event) (s : EventStream) : EventStream :=
  match event with
  | Some (EvInput id metadata data) =>
      match input_type_checks s !! id with
      | Some expected =>
          if carries_pattern_correlation (parameters metadata) then s
          else
            {| s with input_type_checks := delete id (input_type_checks s);
                      type_warnings :=
                        if bool_decide (data_type data ≠ null_type) && bool_decide (data_type data ≠ expected)
                        then type_warnings s ++ [(id, expected, data_type data)] else type_warnings s |}
      | None => s
      end
  | _ => s
  end.

(** The items in the channel are moved to the scheduler. *)
Fixpoint add_events (items : list EventItem) (s : EventStream) : res EventStream :=
  match items with
  | [] => Ok s
  | item :: items => s ← add_event s item; add_events items s
  end.

Definition recv_async (s : EventStream) : res (Poll (option Event) * EventStream) :=
  match pending_passthrough s with
  | event :: rest => Ok (Ready (Some event), {| s with pending_passthrough := rest |})
  | [] =>
      if use_scheduler s then
        s ← add_events (receiver s) {| s with receiver := [] |};
        if is_empty (scheduler s) && senders_alive s then Ok (NotReady, s)
        else
          let '(item, sched) := next (scheduler s) in
          let event := convert_event_item <$> item in
          Ok (Ready event, check_first_message event {| s with scheduler := sched |})
      else
        match receiver s with
        | item :: rest =>
            let event := Some (convert_event_item item) in
            Ok (Ready event, check_first_message event {| s with receiver := rest |})
        | [] => Ok (if senders_alive s then NotReady else Ready None, s)
        end
  end.

Definition stream_is_empty (s : EventStream) : bool :=
  bool_decide (pending_passthrough s = []) && is_empty (scheduler s) && bool_decide (receiver s = []).

Definition stream_drain_drop_counts (s : EventStream) : gmap DataId Z * EventStream :=
  let '(counts, sched) := drain_drop_counts (scheduler s) in (counts, {| s with scheduler := sched |}).

Definition try_recv (s : EventStream) : res ((Event + TryRecvError) * EventStream) :=
  '(poll, s) ← recv_async s;
  Ok (match poll with
      | Ready (Some event) => inl event
      | Ready None => inr TryClosed
      | NotReady => inr TryEmpty
      end, s).

(** The loop of [drain]; every round takes a buffered event. *)
Fixpoint drain_loop (fuel : nat) (events : list Event) (s : EventStream)
    : option (res (option (list Event) * EventStream)) :=
  match fuel with
  | O => None
  | S fuel =>
      match try_recv s with
      | Ok (inl event, s) => drain_loop fuel (events ++ [event]) s
      | Ok (inr TryEmpty, s) => Some (Ok (Some events, s))
      | Ok (inr TryClosed, s) => Some (Ok (match events with [] => None | _ => Some events end, s))
      | Err e => Some (Err e)
      | Panic => Some Panic
      end
  end.

(** A timeout that elapses before the stream is ready is an error event. *)
Definition recv_async_timeout (s : EventStream) : res (option Event * EventStream) :=
  '(poll, s) ← recv_async s;
  Ok (match poll with
      | Ready event => event
      | NotReady => Some (convert_event_item (ItemTimeoutError "Receiver timed out"))
      end, s).

(** [Stream::poll_next], which does not use the scheduler. *)
Definition poll_next (s : EventStream) : Poll (option Event) * EventStream :=
  match pending_passthrough s with
  | event :: rest => (Ready (Some event), {| s with pending_passthrough := rest |})
  | [] =>
      match receiver s with
      | item :: rest =>
          let event := Some (convert_event_item item) in
          (Ready event, check_first_message event {| s with receiver := rest |})
      | [] => (if senders_alive s then NotReady else Ready None, s)
      end
  end.

(** ** Waiting for a correlated message *)

Definition classify_correlation_event (event : Event) (expected_server : NodeId) (is_match : Event → bool)
    : CorrelationOutcome :=
  if is_match event then CMatch
  else
    match event with
    | EvNodeRestarted id => if bool_decide (id = expected_server) then CServerRestarted else CPassthrough
    | EvStop _ => CStreamEnded
    | EvError _ => CStreamError
    | _ => CPassthrough
    end.

Definition matches_request (request_id : string) (event : Event) : bool :=
  match event with
  | EvInput _ metadata _ => bool_decide (get_string_param (parameters metadata) REQUEST_ID = Some request_id)
  | _ => false
  end.

Definition matches_goal (goal_id : string) (event : Event) : bool :=
  match event with
  | EvInput _ metadata _ =>
      bool_decide (get_string_param (parameters metadata) GOAL_ID = Some goal_id)
      && bool_decide (get_string_param (parameters metadata) GOAL_STATUS
                      ∈ [Some GOAL_STATUS_SUCCEEDED; Some GOAL_STATUS_ABORTED; Some GOAL_STATUS_CANCELED])
  | _ => false
  end.

(** What happens before a round of the loop: items arrive, the last sender goes away, or the
    deadline passes. *)
Record WaitEnv := mkWaitEnv {
  arrivals : list EventItem;
  hung_up : bool;
  expired : bool
}.

Definition arrive (env : WaitEnv) (s : EventStream) : EventStream :=
  {| s with receiver := receiver s ++ arrivals env; senders_alive := senders_alive s && negb (hung_up env) |}.

(** One round: [None] is another round, either because the event was put aside or because
    there is none yet. *)
Definition correlation_round (expected_server : NodeId) (is_match : Event → bool) (env : WaitEnv)
    (s : EventStream) : res (option (Event + PatternError) * EventStream) :=
  let s := arrive env s in
  if expired env then Ok (Some (inr PatternTimeout), s)
  else
    '(poll, s) ← recv_async s;
    Ok (match poll with
        | NotReady => (None, s)
        | Ready None => (Some (inr StreamEnded), s)
        | Ready (Some event) =>
            let stash := {| s with pending_passthrough := pending_passthrough s ++ [event] |} in
            match classify_correlation_event event expected_server is_match with
            | CMatch => (Some (inl event), s)
            | CServerRestarted => (Some (inr (ServerRestarted expected_server)), stash)
            | CStreamEnded => (Some (inr StreamEnded), stash)
            | CStreamError => (Some (inr (StreamError (match event with EvError err => err | _ => "" end))), s)
            | CPassthrough => (None, stash)
            end
        end).

(** The loop over the given rounds; [None] if it is still waiting after them. *)
Fixpoint wait_for_correlation (expected_server : NodeId) (is_match : Event → bool) (envs : list WaitEnv)
    (s : EventStream) : res (option (Event + PatternError) * EventStream) :=
  match envs with
  | [] => Ok (None, s)
  | env :: envs =>
      '(outcome, s) ← correlation_round expected_server is_match env s;
      match outcome with
      | Some result => Ok (Some result, s)
      | None => wait_for_correlation expected_server is_match envs s
      end
  end.

Definition recv_service_response (request_id : string) (expected_server : NodeId) :=
  wait_for_correlation expected_server (matches_request request_id).
Definition recv_action_result (goal_id : string) (expected_server : NodeId) :=
  wait_for_correlation expected_server (matches_goal goal_id).

(** ** Order of delivery *)

(** What happens to a stream: items arrive (in the order of the channel), senders go away,
    and the node receives. *)
Inductive StreamOp := SArrive (items : list EventItem) | SHangUp | SRecv.

Definition stream_step (s : EventStream) (o : StreamOp) : res (list Event * EventStream) :=
  match o with
  | SArrive items => Ok ([], {| s with receiver := receiver s ++ items |})
  | SHangUp => Ok ([], {| s with senders_alive := false |})
  | SRecv =>
      '(poll, s) ← recv_async s;
      Ok (match poll with Ready (Some event) => [event] | _ => [] end, s)
  end.

Fixpoint stream_run (s : EventStream) (ops : list StreamOp) : res (list Event * EventStream) :=
  match ops with
  | [] => Ok ([], s)
  | o :: ops =>
      '(events, s) ← stream_step s o;
      '(more, s) ← stream_run s ops;
      Ok (events ++ more, s)
  end.

Definition arrived (ops : list StreamOp) : list EventItem :=
  ops ≫= λ o, match o with SArrive items => items | _ => [] end.

Lemma add_events_spec items s s' :
  add_events items s = Ok s' →
  scheduler s' = foldl Scheduler.add_event (scheduler s) items ∧
  receiver s' = receiver s ∧ pending_passthrough s' = pending_passthrough s ∧
  use_scheduler s' = use_scheduler s ∧ senders_alive s' = senders_alive s ∧
  (write_events_to s = None → write_events_to s' = None).
Proof.
  revert s. induction items as [|item items IH]; intros s; simpl; [by intros [= ->]|].
  intros (s1 & H1 & H2)%res_bind_Ok. apply IH in H2.
  assert (scheduler s1 = Scheduler.add_event (scheduler s) item ∧ receiver s1 = receiver s ∧
    pending_passthrough s1 = pending_passthrough s ∧ use_scheduler s1 = use_scheduler s ∧
    senders_alive s1 = senders_alive s ∧ (write_events_to s = None → write_events_to s1 = None))
    as (E1 & E2 & E3 & E4 & E5 & E6).
  { unfold add_event, record_event in H1. destruct (write_events_to s) eqn:Hw; [|by injection H1 as <-].
    destruct (event_json item) as [json| |]; simpl in H1; [|discriminate..]. by injection H1 as <-. }
  rewrite E1, E2, E3, E4, E5 in H2. naive_solver.
Qed.

Lemma add_events_unrecorded items s : write_events_to s = None → ∃ s', add_events items s = Ok s'.
Proof.
  revert s. induction items as [|item items IH]; intros s Hs; simpl; [eauto|].
  unfold add_event, record_event. rewrite Hs. simpl. by apply IH.
Qed.

Lemma run_adds sched items :
  run sched (OpAdd <$> items) = ([], foldl Scheduler.add_event sched items).
Proof. revert sched. induction items as [|item items IH]; intros sched; simpl; [done|]. by rewrite IH. Qed.

Lemma run_app sched ops1 ops2 :
  run sched (ops1 ++ ops2)
  = ((run sched ops1).1 ++ (run (run sched ops1).2 ops2).1, (run (run sched ops1).2 ops2).2).
Proof.
  revert sched. induction ops1 as [|o ops1 IH]; intros sched; simpl; [by destruct (run sched ops2)|].
  destruct (step sched o) as [out s1]. rewrite IH. destruct (run s1 ops1) as [outs s2]. simpl.
  by rewrite app_assoc.
Qed.

Lemma adds_of_adds items : adds_of (OpAdd <$> items) = items.
Proof. unfold adds_of. induction items as [|item items IH]; [done|]. cbn. f_equal. exact IH. Qed.

Lemma check_first_message_frame event s :
  let s' := check_first_message event s in
  scheduler s' = scheduler s ∧ receiver s' = receiver s ∧
  pending_passthrough s' = pending_passthrough s ∧ use_scheduler s' = use_scheduler s ∧
  senders_alive s' = senders_alive s ∧ write_events_to s' = write_events_to s.
Proof. simpl. unfold check_first_message. by repeat case_match. Qed.

(** The ways in which a receive ends. *)
Inductive recv_view (s : EventStream) : Poll (option Event) → EventStream → Prop :=
| view_stashed event rest :
    pending_passthrough s = event :: rest →
    recv_view s (Ready (Some event)) {| s with pending_passthrough := rest |}
| view_waiting s1 :
    pending_passthrough s = [] → use_scheduler s = true →
    add_events (receiver s) {| s with receiver := [] |} = Ok s1 →
    is_empty (scheduler s1) = true → senders_alive s1 = true → recv_view s NotReady s1
| view_scheduled s1 item sched :
    pending_passthrough s = [] → use_scheduler s = true →
    add_events (receiver s) {| s with receiver := [] |} = Ok s1 →
    is_empty (scheduler s1) && senders_alive s1 = false → next (scheduler s1) = (item, sched) →
    recv_view s (Ready (convert_event_item <$> item))
      (check_first_message (convert_event_item <$> item) {| s1 with scheduler := sched |})
| view_direct item rest :
    pending_passthrough s = [] → use_scheduler s = false → receiver s = item :: rest →
    recv_view s (Ready (Some (convert_event_item item)))
      (check_first_message (Some (convert_event_item item)) {| s with receiver := rest |})
| view_nothing :
    pending_passthrough s = [] → use_scheduler s = false → receiver s = [] →
    recv_view s (if senders_alive s then NotReady else Ready None) s.

Lemma recv_async_view s poll s' : recv_async s = Ok (poll, s') → recv_view s poll s'.
Proof.
  unfold recv_async. destruct (pending_passthrough s) as [|event rest] eqn:Hp.
  2: { intros [= <- <-]. by constructor. }
  destruct (use_scheduler s) eqn:Hu.
  - intros (s1 & Hadd & Hr)%res_bind_Ok. rewrite <- Hp, <- Hu in Hadd.
    destruct (is_empty (scheduler s1) && senders_alive s1) eqn:He.
    + injection Hr as <- <-. apply andb_true_iff in He as [??]. by apply view_waiting.
    + destruct (next (scheduler s1)) as [item sched] eqn:Hn. injection Hr as <- <-. by apply view_scheduled.
  - destruct (receiver s) as [|item rest] eqn:Hr; intros [= <- <-]; [by apply view_nothing|].
    rewrite <- Hp, <- Hu. by apply view_direct.
Qed.

(** The parts of the state that a receive leaves alone, and that it keeps well formed. *)
Lemma recv_async_frame s poll s' : recv_async s = Ok (poll, s') →
  use_scheduler s' = use_scheduler s ∧ senders_alive s' = senders_alive s ∧
  (write_events_to s = None → write_events_to s' = None) ∧ (wf (scheduler s) → wf (scheduler s')).
Proof.
  assert (∀ items sched, wf sched → wf (foldl Scheduler.add_event sched items)) as Hwf.
  { induction items; simpl; auto using wf_add_event. }
  intros [event rest Hp|s1 Hp Hu Hadd _ _|s1 item sched Hp Hu Hadd _ Hn|item rest Hp Hu Hr|Hp Hu Hr]%recv_async_view;
    try done.
  - apply add_events_spec in Hadd as (-> & _ & _ & -> & -> & ?). auto.
  - apply add_events_spec in Hadd as (E1 & _ & _ & E4 & E5 & ?).
    destruct (check_first_message_frame (convert_event_item <$> item) {| s1 with scheduler := sched |})
      as (-> & _ & _ & -> & -> & ->). simpl in *. split_and!; [done..|auto|].
    intros Hs. replace sched with (next (scheduler s1)).2 by by rewrite Hn. apply wf_next. rewrite E1. auto.
  - match goal with |- context [check_first_message ?e ?s2] =>
      destruct (check_first_message_frame e s2) as (-> & _ & _ & -> & -> & ->) end. done.
Qed.

(** The events of an input that wait in the stream, and none of some items asks for a flush of
    the input. *)
Definition waiting (s : EventStream) (id : DataId) : list EventItem :=
  queued (scheduler s) id ++ of_key id (receiver s).
Definition no_flush (id : DataId) (items : list EventItem) : Prop :=
  ∀ e, e ∈ items → event_key e = id → should_flush e = false.

(** A receive of a stream with nothing put aside is a run of the scheduler; what fits into the
    queue of its input is there or delivered afterwards. *)
Lemma recv_async_scheduler s poll s' :
  pending_passthrough s = [] → use_scheduler s = true → recv_async s = Ok (poll, s') →
  ∃ ops, adds_of ops = receiver s ∧ receiver s' = [] ∧ pending_passthrough s' = [] ∧
    use_scheduler s' = true ∧ senders_alive s' = senders_alive s ∧
    scheduler s' = (run (scheduler s) ops).2 ∧
    match poll with
    | Ready event => convert_event_item <$> (run (scheduler s) ops).1 = option_list event
    | NotReady => (run (scheduler s) ops).1 = []
    end ∧
    OpDrain ∉ ops ∧
    ∀ id, wf (scheduler s) → no_flush id (receiver s) →
      (Z.of_nat (length (waiting s id)) ≤ input_capacity (scheduler s) id)%Z →
      of_key id (run (scheduler s) ops).1 ++ queued (scheduler s') id = waiting s id ∧
      input_capacity (scheduler s') id = input_capacity (scheduler s) id.
Proof.
  intros Hp Hu Hr%recv_async_view.
  assert (OpDrain ∉ OpAdd <$> receiver s) as Hdrain by by intros (? & [=] & _)%list_elem_of_fmap.
  destruct Hr as [event rest Hp'|s1 _ _ Hadd He Ha|s1 item sched _ _ Hadd He Hn|item rest _ Hu'|_ Hu'];
    [congruence| | |congruence..];
    apply add_events_spec in Hadd as (E1 & E2 & E3 & E4 & E5 & _); simpl in *.
  - exists (OpAdd <$> receiver s). rewrite run_adds, adds_of_adds. simpl. split_and!; try congruence.
    intros id Hwf Hf Hfit. rewrite E1. by apply adds_exact.
  - exists ((OpAdd <$> receiver s) ++ [OpNext]).
    destruct (check_first_message_frame (convert_event_item <$> item) {| s1 with scheduler := sched |})
      as (-> & -> & -> & -> & -> & _). simpl.
    rewrite run_app, run_adds. cbn [fst snd run step]. rewrite <- E1, Hn. cbn.
    split_and!; try congruence.
    + unfold adds_of. rewrite bind_app. fold (adds_of (OpAdd <$> receiver s)).
      rewrite adds_of_adds. simpl. apply app_nil_r.
    + by destruct item.
    + rewrite elem_of_app, list_elem_of_singleton. by intros [?|[=]].
    + intros id Hwf Hf Hfit. destruct (adds_exact (receiver s) (scheduler s) id Hf Hfit) as [Hq Hc].
      assert (wf (scheduler s1)) as Hwf1.
      { rewrite E1. clear -Hwf. revert Hwf. generalize (scheduler s). induction (receiver s); simpl; auto using wf_add_event. }
      rewrite <- E1 in Hq, Hc. pose proof (next_exact (scheduler s1) id Hwf1) as Hnext.
      pose proof (input_capacity_next (scheduler s1) id Hwf1) as Hcap.
      rewrite Hn in Hnext, Hcap. simpl in Hnext, Hcap.
      split; [|congruence]. rewrite ?app_nil_r. etrans; [exact Hnext|exact Hq].
Qed.

(** The input never has more events waiting in the stream than its queue takes. *)
Definition never_over (s : EventStream) (ops : list StreamOp) (id : DataId) (cap : Z) : Prop :=
  ∀ pre post events s', ops = pre ++ post → stream_run s pre = Ok (events, s') →
    (Z.of_nat (length (waiting s' id)) ≤ cap)%Z.

Lemma never_over_step s o ops id cap events s' :
  stream_step s o = Ok (events, s') → never_over s (o :: ops) id cap →
  (Z.of_nat (length (waiting s id)) ≤ cap)%Z ∧ never_over s' ops id cap.
Proof.
  intros Hstep Hn. split; [by apply (Hn [] (o :: ops) [] s)|].
  intros pre post es s1 -> Hrun. eapply (Hn (o :: pre) post (events ++ es) s1); [done|].
  cbn [stream_run]. rewrite Hstep. cbn. by rewrite Hrun.
Qed.

Lemma no_flush_app id items1 items2 : no_flush id (items1 ++ items2) ↔ no_flush id items1 ∧ no_flush id items2.
Proof. unfold no_flush. setoid_rewrite elem_of_app. naive_solver. Qed.

Lemma stream_run_scheduler ops s events s' :
  pending_passthrough s = [] → use_scheduler s = true → stream_run s ops = Ok (events, s') →
  ∃ sops, adds_of sops ++ receiver s' = receiver s ++ arrived ops ∧
    scheduler s' = (run (scheduler s) sops).2 ∧
    convert_event_item <$> (run (scheduler s) sops).1 = events ∧ OpDrain ∉ sops ∧
    ∀ id, wf (scheduler s) → no_flush id (receiver s ++ arrived ops) →
      never_over s ops id (input_capacity (scheduler s) id) →
      of_key id (run (scheduler s) sops).1 ++ waiting s' id = waiting s id ++ of_key id (arrived ops).
Proof.
  revert s events. induction ops as [|o ops IH]; intros s events Hp Hu; cbn [stream_run].
  { intros [= <- <-]. exists []. rewrite app_nil_r. split_and!; [done..|by apply not_elem_of_nil|].
    intros. by rewrite app_nil_r. }
  intros ([es1 s1] & H1 & ([es2 s2] & H2 & [= <- <-])%res_bind_Ok)%res_bind_Ok.
  pose proof (λ id cap, never_over_step s o ops id cap es1 s1 H1) as Hno.
  destruct o as [items| |]; simpl in H1.
  - injection H1 as <- <-. apply IH in H2 as (sops & Ha & Hs & He & Hd & Hx); [|done..]. exists sops. simpl in *.
    unfold arrived. simpl. fold (arrived ops). split_and!; [by rewrite app_assoc|done..|].
    intros id Hwf Hf Hn. apply Hno in Hn as [_ Hn].
    rewrite app_assoc in Hf. rewrite (Hx id Hwf Hf Hn). unfold waiting, of_key. simpl.
    by rewrite !filter_app, !app_assoc.
  - injection H1 as <- <-. apply IH in H2 as (sops & Ha & Hs & He & Hd & Hx); [|done..]. exists sops.
    split_and!; [done..|]. intros id Hwf Hf Hn. apply Hno in Hn as [_ Hn].
    by apply Hx.
  - apply res_bind_Ok in H1 as ([poll s1'] & Hr & [= <- <-]).
    destruct (recv_async_scheduler s poll s1' Hp Hu Hr) as (ops1 & Ha1 & Hr1 & Hp1 & Hu1 & _ & Hs1 & He1 & Hd1 & Hx1).
    pose proof (recv_async_frame s poll s1' Hr) as (_ & _ & _ & Hwf1).
    apply IH in H2 as (ops2 & Ha2 & Hs2 & He2 & Hd2 & Hx2); [|done..].
    exists (ops1 ++ ops2). rewrite run_app. cbn [fst snd]. rewrite <- Hs1. split_and!; [|done| |set_solver|].
    + unfold adds_of in *. rewrite bind_app, <- app_assoc, Ha2, Ha1, Hr1. done.
    + rewrite fmap_app, He2. f_equal. destruct poll as [[event|]|]; simpl in *; [done..|by rewrite He1].
    + intros id Hwf [Hf1 Hf2]%no_flush_app Hn.
      apply Hno in Hn as [Hfit Hn].
      destruct (Hx1 id Hwf Hf1 Hfit) as [Hq Hc]. rewrite <- Hc in Hn.
      specialize (Hx2 id (Hwf1 Hwf)). rewrite Hr1 in Hx2. specialize (Hx2 Hf2 Hn).
      unfold of_key at 1. rewrite filter_app. change (filter _ ?l) with (of_key id l).
      rewrite <- app_assoc, Hx2. unfold waiting at 1. rewrite Hr1. unfold of_key at 2. simpl.
      by rewrite app_nil_r, app_assoc, Hq.
Qed.

Lemma init_queued `{HashOrder} config id : queued (init_scheduler config) id = [].
Proof.
  unfold queued, init_scheduler, with_policies. simpl. destruct (decide (id = NON_INPUT_EVENT)) as [->|Hne].
  - by rewrite lookup_insert_eq.
  - rewrite lookup_insert_ne, lookup_fmap by done. by destruct (config !! id).
Qed.

(** C21. Events of one input on the way to the node, through a stream that uses its scheduler and
    has put nothing aside, for any interleaving of arrivals and receives.  What was delivered,
    then what is queued, then what is in the channel, is a subsequence of the arrivals: the order
    is kept and nothing is delivered twice.  If no message of the input asks for a flush, then
    nothing is missing as long as the input never has more events waiting than its queue takes;
    and in general, with positive queue sizes, the missing ones are exactly those that the drop
    counter of the input counts. *)
Theorem event_stream_fifo `{HashOrder} config s0 ops events s :
  scheduler s0 = init_scheduler config → receiver s0 = [] → pending_passthrough s0 = [] →
  use_scheduler s0 = true → stream_run s0 ops = Ok (events, s) →
  ∃ items, events = convert_event_item <$> items ∧
    ∀ id, of_key id items ++ waiting s id `sublist_of` of_key id (arrived ops) ∧
      (no_flush id (arrived ops) → never_over s0 ops id (input_capacity (init_scheduler config) id) →
         of_key id items ++ waiting s id = of_key id (arrived ops)) ∧
      (no_flush id (arrived ops) → config_positive config →
         Z.of_nat (length (of_key id items ++ waiting s id)) + drop_count (scheduler s) id
         = Z.of_nat (length (of_key id (arrived ops))))%Z.
Proof.
  intros Hs0 Hr0 Hp0 Hu0 Hrun.
  destruct (stream_run_scheduler ops s0 events s Hp0 Hu0 Hrun) as (sops & Ha & Hs & He & Hd & Hx).
  rewrite Hr0 in Ha, Hx. simpl in Ha, Hx. rewrite Hs0 in Hs, He, Hx.
  pose proof (wf_init_scheduler config) as Hwf.
  exists (run (init_scheduler config) sops).1. split; [done|]. intros id.
  assert (of_key id (arrived ops) = of_key id (adds_of sops) ++ of_key id (receiver s)) as Hoa.
  { rewrite <- Ha. apply filter_app. }
  unfold waiting. rewrite Hs. split_and!.
  - rewrite Hoa, app_assoc. apply sublist_app; [|done].
    pose proof (fifo_run sops (init_scheduler config) id Hwf) as Hfifo. by rewrite init_queued in Hfifo.
  - intros Hf Hn. specialize (Hx id Hwf Hf Hn). unfold waiting in Hx. rewrite Hs, Hs0, init_queued, Hr0 in Hx. done.
  - intros Hf Hpos.
    pose proof (scheduler_count sops (init_scheduler config) id Hwf (init_positive_sizes config Hpos)) as Hacc.
    rewrite init_queued in Hacc. rewrite Hoa, !length_app. simpl in Hacc.
    rewrite <- Ha in Hf. apply no_flush_app in Hf as [Hf _].
    assert (drop_count (init_scheduler config) id = 0%Z) as Hzero by done.
    rewrite Hzero in Hacc. lapply Hacc; [lia|]. apply Forall_forall. intros o Ho. destruct o as [e| |]; [|done..].
    intros Hk. apply Hf; [|done]. apply list_elem_of_bind. exists (OpAdd e). split; [left|done].
Qed.

(** ** Draining *)

(** The number of events in the queues of a scheduler. *)
Definition backlog (sched : Scheduler) : nat :=
  sum_list_with (λ e, length e.2.2) (map_to_list (event_queues sched)).

Lemma backlog_insert sched sched' id size queue :
  event_queues sched' = <[id := (size, queue)]> (event_queues sched) →
  backlog sched' + length (queued sched id) = backlog sched + length queue.
Proof.
  intros Hq. unfold backlog, queued. rewrite Hq. destruct (event_queues sched !! id) as [[size0 queue0]|] eqn:Hid.
  - rewrite <- insert_delete_eq, map_to_list_insert by apply lookup_delete_eq.
    rewrite <- (map_to_list_delete (event_queues sched)) by done. simpl. lia.
  - rewrite map_to_list_insert by done. simpl. lia.
Qed.

Lemma backlog_add_event sched event : backlog (Scheduler.add_event sched event) ≤ S (backlog sched).
Proof.
  set (id := event_key event). set (size := (target_queue sched event).1).
  set (queue := (push_bounded (queue_cap sched id size) (target_queue sched event).2 event).2).
  assert (event_queues (Scheduler.add_event sched event) = <[id := (size, queue)]> (event_queues sched)) as Hq.
  { apply map_eq. intros i. destruct (decide (i = id)) as [->|Hne].
    - rewrite lookup_insert_eq. apply add_event_lookup_eq.
    - by rewrite lookup_insert_ne, add_event_lookup_ne. }
  apply backlog_insert in Hq.
  pose proof (sublist_length _ _ (push_bounded_sublist (queue_cap sched id size) (target_queue sched event).2 event)) as H1.
  pose proof (sublist_length _ _ (target_queue_sublist sched event)) as H2.
  rewrite length_app in H1. fold queue id in H1, H2. simpl in H1. lia.
Qed.

Lemma backlog_add_events items sched : backlog (foldl Scheduler.add_event sched items) ≤ length items + backlog sched.
Proof.
  revert sched. induction items as [|item items IH]; intros sched; simpl; [lia|].
  specialize (IH (Scheduler.add_event sched item)). pose proof (backlog_add_event sched item). lia.
Qed.

Lemma backlog_next sched item sched' : next sched = (Some item, sched') → S (backlog sched') = backlog sched.
Proof.
  intros Hn. assert (∃ id size queue, event_queues sched !! id = Some (size, item :: queue) ∧
    event_queues sched' = <[id := (size, queue)]> (event_queues sched)) as (id & size & queue & Hid & Hq).
  { unfold next in Hn. destruct (event_queues sched !! NON_INPUT_EVENT) as [[size [|event queue]]|] eqn:Hc;
      [|injection Hn as <- <-; naive_solver|];
      (destruct (scan_queues _ _ _) as [[[[[k id] size'] event] queue]|] eqn:Hscan; [|done];
       injection Hn as <- <-; apply scan_queues_Some in Hscan as (? & _ & _ & ? & _); eauto). }
  apply backlog_insert in Hq. unfold queued in Hq. rewrite Hid in Hq. simpl in Hq. lia.
Qed.

(** The events that can still be received. *)
Definition buffered (s : EventStream) : nat :=
  length (pending_passthrough s) + length (receiver s) + backlog (scheduler s).

Lemma recv_async_buffered s event s' :
  recv_async s = Ok (Ready (Some event), s') → buffered s' < buffered s.
Proof.
  intros Hr%recv_async_view. unfold buffered. inversion Hr as [? rest Hp|s1|s1 item sched Hp Hu Hadd _ Hn|item rest Hp Hu Hrcv|Hp Hu Hrcv]; subst.
  - rewrite Hp. simpl. lia.
  - apply add_events_spec in Hadd as (E1 & E2 & E3 & _). destruct item as [item|]; [|done].
    match goal with |- context [check_first_message ?e ?s2] =>
      destruct (check_first_message_frame e s2) as (-> & -> & -> & _) end. simpl in *.
    rewrite E2, E3, Hp. apply backlog_next in Hn. rewrite E1 in Hn.
    pose proof (backlog_add_events (receiver s) (scheduler s)). simpl. lia.
  - match goal with |- context [check_first_message ?e ?s2] =>
      destruct (check_first_message_frame e s2) as (-> & -> & -> & _) end. simpl. rewrite Hp, Hrcv. simpl. lia.
  - by case_match.
Qed.

(** A receive that yields nothing finds nothing. *)
Lemma recv_async_empty s poll s' :
  wf (scheduler s) → use_scheduler s = true → recv_async s = Ok (poll, s') →
  poll = NotReady ∨ poll = Ready None →
  stream_is_empty s' = true ∧ (poll = Ready None → senders_alive s = false).
Proof.
  intros Hwf Hu Hr Hpoll. pose proof (recv_async_frame s poll s' Hr) as (_ & _ & _ & Hwf').
  apply recv_async_view in Hr.
  destruct Hr as [event rest Hp|s1 Hp _ Hadd He Ha|s1 item sched Hp _ Hadd He Hn|item rest Hp Hu'|Hp Hu'];
    [by destruct Hpoll| | |congruence..].
  - apply add_events_spec in Hadd as (_ & E2 & E3 & _). unfold stream_is_empty. rewrite E2, E3, He. simpl. by rewrite Hp.
  - destruct item as [item|]; [by destruct Hpoll|]. simpl in *.
    apply add_events_spec in Hadd as (E1 & E2 & E3 & _ & E5 & _). simpl in *.
    assert (sched = scheduler s1) as -> by (unfold next in Hn; by repeat case_match; simplify_eq).
    destruct (next_complete (scheduler s1)) as [[Hnone _] _]; [auto|].
    rewrite Hn in Hnone. specialize (Hnone eq_refl). rewrite Hnone in He. simpl in He.
    unfold stream_is_empty. simpl. rewrite E2, E3, Hnone, Hp. split; [done|]. intros _. congruence.
Qed.

Lemma recv_async_unrecorded s : write_events_to s = None → ∃ poll s', recv_async s = Ok (poll, s').
Proof.
  intros Hw. unfold recv_async. destruct (pending_passthrough s); [|eauto].
  destruct (use_scheduler s); [|by destruct (receiver s); eauto].
  match goal with |- context [add_events ?l ?s1] => destruct (add_events_unrecorded l s1 Hw) as (s' & ->) end.
  simpl. case_match; [by eauto|]. destruct (next (scheduler s')). eauto.
Qed.

(** [drain] always ends and leaves nothing behind: it takes events until the channel, the
    scheduler and the helpers' buffer are empty, and returns [None] only if the stream is
    closed and there were none. *)
Theorem drain_complete s :
  wf (scheduler s) → use_scheduler s = true → write_events_to s = None →
  ∃ result s', drain_loop (S (buffered s)) [] s = Some (Ok (result, s')) ∧ stream_is_empty s' = true ∧
    (result = None → senders_alive s = false).
Proof.
  intros Hwf Hu Hw. generalize (@nil Event). remember (S (buffered s)) as fuel eqn:Hfuel.
  assert (buffered s < fuel) as Hf by lia. clear Hfuel. revert s Hwf Hu Hw Hf.
  induction fuel as [|fuel IH]; intros s Hwf Hu Hw Hf events; [lia|]. cbn [drain_loop]. unfold try_recv.
  destruct (recv_async_unrecorded s Hw) as (poll & s1 & Hr). rewrite Hr. cbn [mbind res_bind].
  destruct (recv_async_frame s poll s1 Hr) as (Hu1 & Ha1 & Hw1 & Hwf1).
  destruct poll as [[event|]|].
  - pose proof (recv_async_buffered s event s1 Hr).
    destruct (IH s1 (Hwf1 Hwf) ltac:(congruence) (Hw1 Hw) ltac:(lia) (events ++ [event])) as (result & s' & Hd & He & Hn).
    exists result, s'. split_and!; [done..|]. intros Hres. rewrite <- Ha1. auto.
  - destruct (recv_async_empty s _ s1 Hwf Hu Hr) as [He Hc]; [by right|]. eexists _, s1. split_and!; [done..|]. auto.
  - destruct (recv_async_empty s _ s1 Hwf Hu Hr) as [He Hc]; [by left|]. by eexists _, s1.
Qed.

(** ** Correlated waits *)

Abbreviation arrivals_of envs := (mjoin (arrivals <$> envs)).

Lemma correlation_round_rotates server is_match env s event rest :
  pending_passthrough s = event :: rest → expired env = false →
  classify_correlation_event event server is_match = CPassthrough →
  correlation_round server is_match env s
  = Ok (None, {| s with receiver := receiver s ++ arrivals env;
                        senders_alive := senders_alive s && negb (hung_up env);
                        pending_passthrough := rest ++ [event] |}).
Proof.
  intros Hp He Hc. unfold correlation_round, arrive, recv_async. simpl. rewrite He, Hp. simpl. by rewrite Hc.
Qed.

(** Once a helper that waits for a response has put an unrelated event aside, it gets the
    same events from [recv_async] again and again: it does not look at what arrives, and
    ends with a timeout even if the response is among the arrivals, which all stay unread in
    the channel. *)
Theorem correlation_wait_starves server is_match envs last s :
  pending_passthrough s ≠ [] →
  Forall (λ e, classify_correlation_event e server is_match = CPassthrough) (pending_passthrough s) →
  Forall (λ env, expired env = false) envs → expired last = true →
  ∃ s', wait_for_correlation server is_match (envs ++ [last]) s = Ok (Some (inr PatternTimeout), s') ∧
    receiver s' = receiver s ++ arrivals_of (envs ++ [last]) ∧ scheduler s' = scheduler s ∧
    pending_passthrough s' ≡ₚ pending_passthrough s.
Proof.
  intros Hne Hp Hlive Hlast. revert s Hne Hp. induction Hlive as [|env envs He _ IH]; intros s Hne Hp; cbn [app].
  - eexists. cbn [wait_for_correlation]. unfold correlation_round. rewrite Hlast. split_and!; [done|..]; simpl.
    + by rewrite app_nil_r.
    + done.
    + done.
  - destruct (pending_passthrough s) as [|event rest] eqn:Hs; [done|]. apply Forall_cons in Hp as [Hc Hp].
    cbn [wait_for_correlation]. erewrite correlation_round_rotates by done. cbn [mbind res_bind].
    match goal with |- context [wait_for_correlation _ _ _ ?s1] => destruct (IH s1) as (s' & Hw & Hr & Hsch & Hperm) end.
    + simpl. by destruct rest.
    + simpl. apply Forall_app. split; [done|]. by constructor.
    + exists s'. split_and!; [done| |done|]; simpl in *.
      * by rewrite Hr, app_assoc.
      * rewrite Hperm. symmetry. apply Permutation_cons_append.
Qed.

(** Without an unrelated event in between, the response is returned. *)
Lemma correlation_round_match server is_match env s event s' :
  expired env = false → recv_async (arrive env s) = Ok (Ready (Some event), s') → is_match event = true →
  correlation_round server is_match env s = Ok (Some (inl event), s').
Proof.
  intros He Hr Hm. unfold correlation_round. rewrite He, Hr. simpl. unfold classify_correlation_event. by rewrite Hm.
Qed.

(** ** Recording *)

(** A message that cannot be converted (say, of a region that is gone) is an error event
    for the node; if the node's events are recorded, it is a panic of the node instead. *)
Theorem unreadable_input_panics s id metadata data ack rest err :
  pending_passthrough s = [] → use_scheduler s = true →
  receiver s = ItemNodeEvent (Input id metadata (Some data)) ack :: rest →
  data_to_arrow_array open_region (Some data) (type_info metadata) (parameters metadata) = Err err →
  convert_event_item (ItemNodeEvent (Input id metadata (Some data)) ack) = EvError err ∧
  (∀ events, write_events_to s = Some events → recv_async s = Panic) ∧
  (write_events_to s = None → is_ok (recv_async s) = true).
Proof.
  intros Hp Hu Hr Hd. split_and!.
  - simpl. by rewrite Hd.
  - intros events Hw. unfold recv_async. rewrite Hp, Hu, Hr. simpl. unfold add_event, record_event. simpl.
    rewrite Hw. simpl. by rewrite Hd.
  - intros Hw. unfold recv_async. rewrite Hp, Hu, Hr.
    match goal with |- context [add_events ?l ?s1] => destruct (add_events_unrecorded l s1 Hw) as (s' & ->) end.
    simpl. case_match; [done|]. by destruct (next (scheduler s')).
Qed.

End stream.

(** ** Examples *)

#[local] Existing Instance sample_arrow.
#[local] Instance sample_type_eq_dec : EqDecision sample_type.
Proof. solve_decision. Defined.

Definition byte_info (_ : Metadata) : ArrowTypeInfo sample_type := info_byte_array 1.
Definition no_region (_ : string) : option (list Byte.byte) := None.
Definition sample_json (_ : ArrayData sample_type) : res unit := Ok tt.

Definition sample_inputs : gmap DataId InputConfig :=
  {[ "camera" := mkInputConfig (MUser (mkUserMapping "driver" "image")) (Some 2%Z) None None ]}.
Definition sample_stream (items : list EventItem) (recording : bool) : EventStream (T := sample_type) (J := unit) :=
  mkStream items true (init_scheduler sample_inputs) (if recording then Some [] else None) true ∅ [] [].

Definition sample_input (byte : Byte.byte) (params : gmap string ParameterValue) : EventItem :=
  ItemNodeEvent (Input "camera" (mkMetadata params) (Some (DMVec [byte]))) 0.
Definition sample_array (byte : Byte.byte) : ArrayData sample_type := mkArray _ SUInt8 1 0 None 0 [[byte]] [].

Lemma event_stream_fifo_witness :
  let ops := [SArrive [sample_input Byte.x01 ∅; sample_input Byte.x02 ∅]; SRecv; SArrive [sample_input Byte.x03 ∅]; SRecv] in
  ∃ items (s : EventStream (T := sample_type) (J := unit)),
    [EvInput "camera" (mkMetadata ∅) (sample_array Byte.x01); EvInput "camera" (mkMetadata ∅) (sample_array Byte.x02)]
           = convert_event_item byte_info no_region <$> items ∧
    of_key "camera" items ++ waiting s "camera" `sublist_of` of_key "camera" (arrived ops) ∧
    (Z.of_nat (length (of_key "camera" items ++ waiting s "camera")) + drop_count (scheduler s) "camera" = 3)%Z.
Proof.
  intros ops.
  set (s := mkStream (T := sample_type) (J := unit) [] true
                 (foldl (λ s o, (step s o).2) (init_scheduler sample_inputs)
                    [OpAdd (sample_input Byte.x01 ∅); OpAdd (sample_input Byte.x02 ∅); OpNext;
                     OpAdd (sample_input Byte.x03 ∅); OpNext])
                 None true ∅ [] []).
  destruct (event_stream_fifo byte_info no_region sample_json sample_inputs (sample_stream [] false) ops
              [EvInput "camera" (mkMetadata ∅) (sample_array Byte.x01);
               EvInput "camera" (mkMetadata ∅) (sample_array Byte.x02)] s) as (items & He & Hid);
    [vm_compute; reflexivity..|].
  exists items, s. destruct (Hid "camera") as (Hsub & _ & Hcount). split_and!; [exact He|exact Hsub|].
  apply Hcount.
  - intros e Hin _. cbn in Hin. repeat (apply elem_of_cons in Hin as [->|Hin]; [reflexivity|]).
    by apply elem_of_nil in Hin.
  - apply map_Forall_singleton. simpl. lia.
Defined.

Lemma drain_complete_witness :
  let s := sample_stream [sample_input Byte.x01 ∅; ItemNodeEvent Stop 1] false in
  ∃ result s', drain_loop byte_info no_region sample_json 3 [] s = Some (Ok (result, s')) ∧ stream_is_empty s' = true.
Proof.
  intros s. destruct (drain_complete byte_info no_region sample_json s) as (result & s' & Hd & He & _).
  - apply wf_init_scheduler.
  - reflexivity.
  - reflexivity.
  - exists result, s'. split; [|exact He]. rewrite <- Hd. vm_compute. reflexivity.
Defined.

(** A tick is put aside, then the response arrives, and the helper times out. *)
Lemma correlation_wait_starves_witness :
  let response := sample_input Byte.x01 {[ REQUEST_ID := PString "r1" ]} in
  let s := mkStream (J := unit) [] true (init_scheduler sample_inputs) None true ∅ []
             [EvInput "tick" (mkMetadata ∅) (sample_array Byte.x00)] in
  let envs := [mkWaitEnv [response] false false; mkWaitEnv [] false false] in
  matches_request "r1" (convert_event_item byte_info no_region response) = true ∧
  ∃ s', recv_service_response byte_info no_region sample_json "r1" "server" (envs ++ [mkWaitEnv [] false true]) s
        = Ok (Some (inr PatternTimeout), s') ∧ receiver s' = [response].
Proof.
  intros response s envs. split; [vm_compute; reflexivity|].
  destruct (correlation_wait_starves byte_info no_region sample_json "server" (matches_request "r1") envs
              (mkWaitEnv [] false true) s) as (s' & Hw & Hr & _).
  - discriminate.
  - repeat constructor.
  - repeat constructor.
  - reflexivity.
  - exists s'. split; [exact Hw|]. rewrite Hr. reflexivity.
Defined.

Lemma unreadable_input_panics_witness :
  let data := DMSharedMemory "gone" 4096 7 in
  recv_async byte_info no_region sample_json
    (sample_stream [ItemNodeEvent (Input "camera" (mkMetadata ∅) (Some data)) 0] true) = Panic.
Proof.
  intros data.
  destruct (unreadable_input_panics byte_info no_region sample_json
              (sample_stream [ItemNodeEvent (Input "camera" (mkMetadata ∅) (Some data)) 0] true)
              "camera" (mkMetadata ∅) data 0%N [] "failed to map shared memory input") as (_ & Hp & _);
    [reflexivity..|]. exact (Hp [] eq_refl).
Defined.
