(* ===== verification/Text.v ===== *)
(** * Strings

    The functions of Rust's [str] that the descriptor, type and coordinator code use, on
    byte strings (UTF-8 text), and [truncate_str] of the coordinator
    ([binaries/coordinator/src/state.rs]), which cuts a string at a character boundary. *)

From Stdlib Require Import ZArith Lia Ascii.
From stdpp Require Import base list strings.
From S2P Require Import Prelude Message InputMapping.
Local Open Scope nat_scope.

(** [str::split(sep)]: the parts between the separators, at least one. *)
Fixpoint split_on (sep : ascii) (s : string) : list string :=
  match s with
  | EmptyString => [EmptyString]
  | String c s =>
      if bool_decide (c = sep) then EmptyString :: split_on sep s
      else match split_on sep s with
           | [] => [String c EmptyString]
           | p :: ps => String c p :: ps
           end
  end.

Fixpoint last_char (s : string) : option ascii :=
  match s with
  | EmptyString => None
  | String c EmptyString => Some c
  | String _ s => last_char s
  end.
Fixpoint drop_last (s : string) : string :=
  match s with
  | EmptyString | String _ EmptyString => EmptyString
  | String c s => String c (drop_last s)
  end.

(** [str::strip_suffix] of one character, and [str::ends_with]. *)
Definition strip_suffix_char (c : ascii) (s : string) : option string :=
  if bool_decide (last_char s = Some c) then Some (drop_last s) else None.
Definition ends_with (s suffix : string) : bool :=
  let n := String.length s in
  let m := String.length suffix in
  (m <=? n)%nat && bool_decide (String.substring (n - m) m s = suffix).

(** [str::strip_prefix]. *)
Fixpoint str_strip_prefix (prefix s : string) : option string :=
  match prefix, s with
  | EmptyString, _ => Some s
  | String a prefix, String b s => if bool_decide (a = b) then str_strip_prefix prefix s else None
  | String _ _, EmptyString => None
  end.

(** The bytes of a string as numbers. *)
Definition bytes_of (s : string) : list N := N_of_ascii <$> String.list_ascii_of_string s.
Definition string_of (l : list N) : string := String.string_of_list_ascii (ascii_of_N <$> l).

(** [str::trim]: strips the UTF-8 encodings of the characters with the Unicode property
    White_Space from both ends. *)
Fixpoint trim_start_bytes (fuel : nat) (l : list N) : list N :=
  match fuel with
  | O => l
  | S fuel =>
      match l with
      | (9 | 10 | 11 | 12 | 13 | 32) :: l => trim_start_bytes fuel l
      | 194 :: (133 | 160) :: l => trim_start_bytes fuel l
      | 225 :: 154 :: 128 :: l => trim_start_bytes fuel l
      | 226 :: 128 :: c :: l' =>
          if (128 <=? c) && (c <=? 138) || (c =? 168) || (c =? 169) || (c =? 175)
          then trim_start_bytes fuel l' else l
      | 226 :: 129 :: 159 :: l => trim_start_bytes fuel l
      | 227 :: 128 :: 128 :: l => trim_start_bytes fuel l
      | _ => l
      end
  end%N.
Definition trim (s : string) : string :=
  let l := bytes_of (trim_end s) in string_of (trim_start_bytes (length l) l).

(** [to_uppercase] and [to_lowercase] on the ASCII letters; the texts they are compared with
    contain no letter that a non-ASCII character is mapped to. *)
Definition ascii_upper (c : ascii) : ascii :=
  let n := N_of_ascii c in
  if ((97 <=? n) && (n <=? 122))%N then ascii_of_N (n - 32) else c.
Fixpoint to_uppercase (s : string) : string :=
  match s with EmptyString => EmptyString | String c s => String (ascii_upper c) (to_uppercase s) end.

(** [char::is_ascii_alphabetic]. *)
Definition is_ascii_alphabetic (c : ascii) : bool :=
  let n := N_of_ascii c in
  ((65 <=? n) && (n <=? 90) || (97 <=? n) && (n <=? 122))%N.

(** ** Characters of UTF-8 text *)

Definition is_continuation (c : ascii) : bool :=
  let n := N_of_ascii c in ((128 <=? n) && (n <=? 191))%N.

(** [str::chars], a character given by its encoding: a byte and the continuation bytes that
    follow it. *)
Fixpoint chars (s : string) : list string :=
  match s with
  | EmptyString => []
  | String c s =>
      match chars s with
      | p :: ps =>
          match p with
          | String d _ => if is_continuation d then String c p :: ps else String c EmptyString :: p :: ps
          | EmptyString => String c EmptyString :: ps
          end
      | [] => [String c EmptyString]
      end
  end.

(** [str::is_char_boundary]. *)
Definition is_char_boundary (s : string) (i : nat) : bool :=
  if bool_decide (i = O) || bool_decide (i = String.length s) then true
  else match String.get i s with
       | Some c => negb (is_continuation c)
       | None => false
       end.

(** The loop of [truncate_str]. *)
Fixpoint boundary_below (s : string) (end_ : nat) : nat :=
  match end_ with
  | O => O
  | S e => if is_char_boundary s end_ then end_ else boundary_below s e
  end.

Definition truncate_str (s : string) (max_bytes : nat) : string :=
  if (String.length s <=? max_bytes)%nat then s
  else String.substring 0 (boundary_below s max_bytes) s.

Lemma string_append_cons a p r : String.append (String a p) r = String a (String.append p r).
Proof. done. Qed.

Lemma append_inj_l p a b : String.append p a = String.append p b → a = b.
Proof. induction p as [|c p IH]; [done|]. rewrite !string_append_cons. intros [= H]. auto. Qed.

Lemma str_strip_prefix_Some p s r : str_strip_prefix p s = Some r ↔ s = String.append p r.
Proof.
  revert s. induction p as [|a p IH]; intros s; cbn [str_strip_prefix String.append].
  - split; [by intros [=]|by intros ->].
  - destruct s as [|b s]; [done|]. case_bool_decide as E.
    + rewrite IH, E. split; [by intros ->|by intros [=]].
    + split; [done|]. intros [=]. congruence.
Qed.

Lemma split_once_no_sep sep s a b : split_once sep s = Some (a, b) → no_sep sep a = true.
Proof.
  unfold no_sep. revert a b. induction s as [|c s IH]; intros a b; cbn; [done|].
  case_bool_decide as Hc; [intros [= <- <-]; done|].
  destruct (split_once sep s) as [[a' b']|] eqn:E; [|done]. intros [= <- <-]. cbn.
  rewrite (bool_decide_eq_false_2 _ Hc). cbn. by eapply IH.
Qed.

Lemma no_sep_append sep a b : no_sep sep (String.append a (String sep b)) = false.
Proof.
  unfold no_sep. induction a as [|c a IH].
  - change (negb (bool_decide (sep = sep)) && string_forall (λ c, negb (bool_decide (c = sep))) b = false).
    by rewrite bool_decide_eq_true_2.
  - change (negb (bool_decide (c = sep)) &&
      string_forall (λ c, negb (bool_decide (c = sep))) (String.append a (String sep b)) = false).
    by rewrite IH, andb_false_r.
Qed.

(** ** Truncation *)

Lemma boundary_below_spec s n :
  boundary_below s n ≤ n ∧ is_char_boundary s (boundary_below s n) = true ∧
  ∀ i, boundary_below s n < i ≤ n → is_char_boundary s i = false.
Proof.
  induction n as [|n (IH1 & IH2 & IH3)]; cbn [boundary_below]; [split_and!; [done..|lia]|].
  destruct (is_char_boundary s (S n)) eqn:E; [split_and!; [done..|lia]|].
  split_and!; [lia|done|]. intros i Hi. destruct (decide (i = S n)) as [->|]; [done|].
  apply IH3. lia.
Qed.

Lemma substring_prefix s n :
  n ≤ String.length s → ∃ rest, s = String.append (String.substring 0 n s) rest ∧
  String.length (String.substring 0 n s) = n.
Proof.
  revert n. induction s as [|c s IH]; intros [|n] Hn; cbn in *; try lia; try by eexists.
  destruct (IH n) as (rest & Hs & Hl); [lia|]. exists rest. rewrite Hl. split; [|done].
  by rewrite Hs at 1.
Qed.

(** [truncate_str] returns the longest prefix of at most [max_bytes] bytes that ends at a
    character boundary, so that no error text is cut inside a character and slicing never
    panics. *)
Theorem truncate_str_longest (s : string) (max_bytes : nat) :
  let t := truncate_str s max_bytes in
  (∃ rest, s = String.append t rest) ∧
  String.length t ≤ max_bytes ∧
  is_char_boundary s (String.length t) = true ∧
  ∀ i, String.length t < i ≤ max_bytes → i ≤ String.length s → is_char_boundary s i = false.
Proof.
  unfold truncate_str. destruct (Nat.leb_spec (String.length s) max_bytes) as [Hle|Hgt]; cbv zeta.
  - split_and!; [|done| |lia].
    + exists EmptyString. induction s as [|c s IH]; [done|].
      change (String c s = String c (String.append s EmptyString)). f_equal. apply IH. cbn in Hle. lia.
    + unfold is_char_boundary. rewrite (bool_decide_eq_true_2 (String.length s = String.length s)) by done.
      by rewrite orb_true_r.
  - destruct (boundary_below_spec s max_bytes) as (Hb & Ht & Hmax).
    destruct (substring_prefix s (boundary_below s max_bytes)) as (rest & Hs & Hl); [lia|].
    rewrite Hl. split_and!; [by exists rest|done..|]. intros i Hi _. by apply Hmax.
Qed.
