(* ===== verification/Types.v ===== *)
(** * Type annotations

    Models [libraries/core/src/types.rs]: type URNs and their parameters, the graph of
    implicit conversions with its breadth-first search, Arrow data types of declared struct
    types, schema compatibility, and the suggestion of a name for a misspelt type by edit
    distance.  The built-in packages are YAML data read at start, so that a registry is any
    map from URNs to definitions. *)

From Stdlib Require Import ZArith Lia Ascii.
From stdpp Require Import base gmap sets list strings sorting.
From S2P Require Import Prelude Message InputMapping Text.
Local Open Scope nat_scope.
Local Open Scope list_scope.

(** ** Definitions of types *)

Record FieldDef := mkFieldDef {
  field_name : string;
  field_type : string;
  field_nullable : bool
}.

Record TypeDef := mkTypeDef {
  td_arrow : string;
  td_fields : list FieldDef
}.

Abbreviation TypeRegistry := (gmap string TypeDef) (only parsing).

(** [arrow_schema::DataType], the constructors the code builds; a list or struct holds the
    name, type and nullability of its fields. *)
Inductive DataType :=
| Float32 | Float64 | Int32 | Int64 | UInt8 | UInt32 | UInt64 | Utf8 | LargeBinary | Boolean
| LargeList (item : DataType)
| DStruct (fields : list (string * DataType * bool)).

Definition Schema : Type := list (string * DataType * bool).

Definition arrow_type_from_name (name : string) : option DataType :=
  if bool_decide (name = "Float32") then Some Float32
  else if bool_decide (name = "Float64") then Some Float64
  else if bool_decide (name = "Int32") then Some Int32
  else if bool_decide (name = "Int64") then Some Int64
  else if bool_decide (name = "UInt8") then Some UInt8
  else if bool_decide (name = "UInt32") then Some UInt32
  else if bool_decide (name = "UInt64") then Some UInt64
  else if bool_decide (name = "Utf8") then Some Utf8
  else if bool_decide (name = "LargeBinary") then Some LargeBinary
  else if bool_decide (name = "Boolean") then Some Boolean
  else None.

(** ** URNs *)

Record ParsedUrn := mkParsedUrn { urn_base : string; urn_params : gmap string string }.

(** The loop over the comma-separated parameters. *)
Fixpoint parse_urn_params (parts : list string) (params : gmap string string)
    : option (gmap string string) :=
  match parts with
  | [] => Some params
  | part :: parts =>
      match split_once "=" (trim part) with
      | None => None
      | Some (k, v) =>
          let k := trim k in
          let v := trim v in
          if bool_decide (k = EmptyString) || bool_decide (v = EmptyString) then None
          else parse_urn_params parts (<[k := v]> params)
      end
  end.

Definition parse_urn (urn : string) : option ParsedUrn :=
  if bool_decide (urn = EmptyString) then None
  else match split_once "[" urn with
       | None => Some (mkParsedUrn urn ∅)
       | Some (base, rest) =>
           match strip_suffix_char "]" rest with
           | None => None
           | Some params_str =>
               if bool_decide (params_str = EmptyString) then None
               else mkParsedUrn base <$> parse_urn_params (split_on "," params_str) ∅
           end
       end.

(** All shared keys agree. *)
Definition params_agree (pa pb : gmap string string) : bool :=
  forallb (λ '(k, va), match pb !! k with Some vb => bool_decide (va = vb) | None => true end)
    (btree_iter pa).

Definition types_match (a b : string) : bool :=
  match parse_urn a, parse_urn b with
  | Some pa, Some pb =>
      if negb (bool_decide (urn_base pa = urn_base pb)) then false
      else if bool_decide (urn_params pa = ∅) || bool_decide (urn_params pb = ∅) then true
      else params_agree (urn_params pa) (urn_params pb)
  | _, _ => bool_decide (a = b)
  end.

(** ** The registry *)

Definition registry_resolve (registry : TypeRegistry) (urn : string) : option TypeDef :=
  match registry !! urn with
  | Some def => Some def
  | None =>
      match parse_urn urn with
      | Some parsed => if bool_decide (urn_base parsed = urn) then None else registry !! urn_base parsed
      | None => None
      end
  end.

(** The definitions whose URN ends with a suffix, in the order of the map; the loop returns
    [None] at a second one. *)
Fixpoint unique_suffix (suffix : string) (found : option TypeDef) (l : list (string * TypeDef))
    : option TypeDef :=
  match l with
  | [] => found
  | (urn, def) :: l =>
      if ends_with urn suffix then
        match found with
        | Some _ => None
        | None => unique_suffix suffix (Some def) l
        end
      else unique_suffix suffix found l
  end.
Definition resolve_short_name (registry : TypeRegistry) (name : string) : option TypeDef :=
  unique_suffix (String "/" name) None (btree_iter registry).

Definition MAX_TYPE_DEPTH : nat := 8.

(** [resolve_field_type] at depth [MAX_TYPE_DEPTH + 1 - levels]: [levels] counts the depths
    that are still allowed. *)
Fixpoint resolve_field_type_at (registry : TypeRegistry) (levels : nat) (type_str : string)
    : option DataType :=
  match levels with
  | O => None
  | S levels =>
      match arrow_type_from_name type_str with
      | Some dt => Some dt
      | None =>
          match str_strip_prefix "List<" type_str ≫= strip_suffix_char ">" with
          | Some inner => LargeList <$> resolve_field_type_at registry levels (trim inner)
          | None =>
              def ← (match registry_resolve registry type_str with
                     | Some def => Some def
                     | None => resolve_short_name registry type_str
                     end);
              if bool_decide (td_fields def = []) then None
              else DStruct <$>
                     mapM (λ f, (λ dt, (field_name f, dt, field_nullable f)) <$>
                                  resolve_field_type_at registry levels (field_type f))
                       (td_fields def)
          end
      end
  end.
Definition resolve_field_type (registry : TypeRegistry) (type_str : string) : option DataType :=
  resolve_field_type_at registry (S MAX_TYPE_DEPTH) type_str.

Definition build_schema (resolve : string → option DataType) (def : TypeDef) : option Schema :=
  if bool_decide (td_fields def = []) then None
  else mapM (λ f, (λ dt, (field_name f, dt, field_nullable f)) <$> resolve (field_type f))
         (td_fields def).
Definition to_arrow_schema : TypeDef → option Schema := build_schema arrow_type_from_name.
Definition to_arrow_schema_with_registry (registry : TypeRegistry) : TypeDef → option Schema :=
  build_schema (resolve_field_type registry).

(** ** Conversions *)

Record TypeRule := mkTypeRule { rule_from : string; rule_to : string }.

Abbreviation CompatibilityGraph := (gmap string (list string)) (only parsing).

Definition add_edge (edges : CompatibilityGraph) (rule : TypeRule) : CompatibilityGraph :=
  <[rule_from rule := default [] (edges !! rule_from rule) ++ [rule_to rule]]> edges.

Definition builtin_rules : list TypeRule :=
  [mkTypeRule "std/core/v1/UInt8" "std/core/v1/UInt32";
   mkTypeRule "std/core/v1/UInt32" "std/core/v1/UInt64";
   mkTypeRule "std/core/v1/Int32" "std/core/v1/Int64";
   mkTypeRule "std/core/v1/Float32" "std/core/v1/Float64"].

Definition new_graph (user_rules : list TypeRule) : CompatibilityGraph :=
  foldl add_edge ∅ (builtin_rules ++ user_rules).

(** The inner loop over the neighbours of a type: [None] when the target is among them. *)
Fixpoint bfs_neighbors (to_base : string) (depth : nat) (neighbors : list string)
    (queue : list (string * nat)) (visited : gset string)
    : option (list (string * nat) * gset string) :=
  match neighbors with
  | [] => Some (queue, visited)
  | next :: neighbors =>
      if bool_decide (next = to_base) then None
      else if bool_decide (next ∈ visited) then bfs_neighbors to_base depth neighbors queue visited
      else bfs_neighbors to_base depth neighbors (queue ++ [(next, S depth)]) ({[next]} ∪ visited)
  end.

(** The search; [None] when [fuel] rounds do not suffice. *)
Fixpoint bfs (edges : CompatibilityGraph) (to_base : string) (fuel : nat)
    (queue : list (string * nat)) (visited : gset string) : option bool :=
  match fuel with
  | O => None
  | S fuel =>
      match queue with
      | [] => Some false
      | (current, depth) :: queue =>
          if 3 <=? depth then bfs edges to_base fuel queue visited
          else match bfs_neighbors to_base depth (default [] (edges !! current)) queue visited with
               | None => Some true
               | Some (queue, visited) => bfs edges to_base fuel queue visited
               end
      end
  end.

(** Every type enters the queue at most once: one round for each edge target, one for the
    start, and one that finds the queue empty. *)
Definition bfs_fuel (edges : CompatibilityGraph) : nat :=
  2 + length (mjoin (btree_iter edges).*2).

Definition BYTES_URN : string := "std/core/v1/Bytes".

Definition urn_base_or (urn : string) : string :=
  match parse_urn urn with Some p => urn_base p | None => urn end.

Definition is_compatible (edges : CompatibilityGraph) (from to : string) : option bool :=
  if bool_decide (to = BYTES_URN) then Some true
  else
    let from_base := urn_base_or from in
    let to_base := urn_base_or to in
    if bool_decide (from_base = to_base) then
      match parse_urn from, parse_urn to with
      | Some fp, Some tp =>
          if negb (bool_decide (urn_params fp = ∅)) && negb (bool_decide (urn_params tp = ∅))
          then Some (params_agree (urn_params fp) (urn_params tp))
          else Some true
      | _, _ => Some true
      end
    else bfs edges to_base (bfs_fuel edges) [(from_base, 0)] {[from_base]}.

(** ** Schemas *)

Fixpoint data_type_eqb (a b : DataType) : bool :=
  match a, b with
  | Float32, Float32 | Float64, Float64 | Int32, Int32 | Int64, Int64 | UInt8, UInt8
  | UInt32, UInt32 | UInt64, UInt64 | Utf8, Utf8 | LargeBinary, LargeBinary
  | Boolean, Boolean => true
  | LargeList a, LargeList b => data_type_eqb a b
  | DStruct fs, DStruct gs =>
      (fix fields_eqb (fs gs : list (string * DataType * bool)) : bool :=
         match fs, gs with
         | [], [] => true
         | (n, t, b) :: fs, (m, u, c) :: gs =>
             bool_decide (n = m) && data_type_eqb t u && Bool.eqb b c && fields_eqb fs gs
         | _, _ => false
         end) fs gs
  | _, _ => false
  end.

Inductive SchemaError :=
| MissingField (field : string)
| TypeMismatch (field : string) (expected actual : DataType).

(** [Schema::field_with_name]: the first field of that name. *)
Definition field_with_name (s : Schema) (name : string) : option (string * DataType * bool) :=
  head (retain (λ f, bool_decide (f.1.1 = name)) s).

Fixpoint schema_compatible (expected actual : Schema) : option SchemaError :=
  match expected with
  | [] => None
  | (name, dt, _) :: expected =>
      match field_with_name actual name with
      | Some (_, actual_dt, _) =>
          if data_type_eqb actual_dt dt then schema_compatible expected actual
          else Some (TypeMismatch name dt actual_dt)
      | None => Some (MissingField name)
      end
  end.

(** ** Metadata patterns *)

Definition pattern_metadata_keys (pattern : string) : option (list string) :=
  if bool_decide (pattern = "service-server") || bool_decide (pattern = "service-client")
  then Some ["request_id"%string]
  else if bool_decide (pattern = "action-server") then Some ["goal_id"; "goal_status"]%string
  else if bool_decide (pattern = "action-client") then Some ["goal_id"%string]
  else None.

(** ** Suggestions *)

(** The table [dp] of [edit_distance], with the reads and the write of one cell. *)
Definition dp_get (dp : list (list nat)) (i j : nat) : nat :=
  default 0 (dp !! i ≫= λ row, row !! j).
Definition dp_set (dp : list (list nat)) (i j v : nat) : list (list nat) :=
  alter (λ row, <[j := v]> row) i dp.

Definition dp_cell {A} `{EqDecision A} (a b : list A) (dp : list (list nat)) (i j : nat)
    : list (list nat) :=
  let cost := if bool_decide (a !! (i - 1) = b !! (j - 1)) then 0 else 1 in
  dp_set dp i j (Nat.min (Nat.min (dp_get dp (i - 1) j + 1) (dp_get dp i (j - 1) + 1))
                   (dp_get dp (i - 1) (j - 1) + cost)).

Definition dp_table {A} `{EqDecision A} (a b : list A) : list (list nat) :=
  let dp := replicate (S (length a)) (replicate (S (length b)) 0) in
  let dp := imap (λ i row, <[0 := i]> row) dp in
  let dp := alter (imap (λ j _, j)) 0 dp in
  foldl (λ dp i, foldl (λ dp j, dp_cell a b dp i j) dp (seq 1 (length b))) dp (seq 1 (length a)).

Definition usize_max : Z := u64_max.

Definition edit_distance (a b : string) : Z :=
  if (256 <? String.length a) || (256 <? String.length b) then usize_max
  else Z.of_nat (dp_get (dp_table (chars a) (chars b)) (length (chars a)) (length (chars b))).

(** [rsplit('/').next()], and [rsplit_once('/')]. *)
Definition urn_short_name (urn : string) : string :=
  let base := match split_once "[" urn with Some (b, _) => b | None => urn end in
  List.last (split_on "/" base) EmptyString.
Definition package_prefix (s : string) : option string :=
  match split_on "/" s with
  | [] | [_] => None
  | parts => Some (String.concat "/" (removelast parts))
  end.

(** [min_by_key], which keeps the first of several minima. *)
Fixpoint min_by_score (best : option (string * Z)) (l : list (string * Z)) : option (string * Z) :=
  match l with
  | [] => best
  | (k, score) :: l =>
      min_by_score
        (match best with
         | Some (_, s) => if (score <? s)%Z then Some (k, score) else best
         | None => Some (k, score)
         end) l
  end.

Definition suggest (registry : TypeRegistry) (urn : string) : option string :=
  let target_name := to_lowercase (urn_short_name urn) in
  let target_prefix :=
    package_prefix (match split_once "[" urn with Some (b, _) => b | None => urn end) in
  let score := λ k,
    let dist := edit_distance target_name (to_lowercase (urn_short_name k)) in
    if (dist <=? 2)%Z
    then Some (k, (dist + if bool_decide (target_prefix = package_prefix k) then 0 else 100)%Z)
    else None in
  fst <$> min_by_score None (omap score (btree_keys registry)).

(** ** The search is correct and ends *)

Section search.
Context (edges : CompatibilityGraph) (from_base to_base : string).

Definition converts (a b : string) : Prop := b ∈ default [] (edges !! a).

(** [chain k a]: [a] is reached from [from_base] by [k] conversions. *)
Inductive chain : nat → string → Prop :=
| chain_start : chain 0 from_base
| chain_step k a b : chain k a → converts a b → chain (S k) b.

Definition targets : gset string := list_to_set (mjoin (btree_iter edges).*2).

Lemma converts_target a b : converts a b → b ∈ targets.
Proof.
  unfold converts, targets. destruct (edges !! a) as [l|] eqn:E; cbn; [|by intros ?%elem_of_nil].
  intros Hb. rewrite elem_of_list_to_set, list_elem_of_join. exists l. split; [done|].
  apply list_elem_of_fmap. exists (a, l). by rewrite elem_of_btree_iter.
Qed.

Lemma bfs_neighbors_found depth ns q V :
  bfs_neighbors to_base depth ns q V = None → to_base ∈ ns.
Proof.
  revert q V. induction ns as [|n ns IH]; intros q V; cbn; [done|].
  case_bool_decide; [intros _; subst; constructor|].
  case_bool_decide; intros ?; right; by eapply IH.
Qed.

Lemma bfs_neighbors_queue depth ns q V q' V' :
  bfs_neighbors to_base depth ns q V = Some (q', V') →
  to_base ∉ ns ∧ ∃ new,
    q' = q ++ ((λ n, (n, S depth)) <$> new) ∧ V' = list_to_set new ∪ V ∧ NoDup new ∧
    (∀ n, n ∈ new → n ∈ ns ∧ n ∉ V) ∧ (∀ n, n ∈ ns → n ∈ V').
Proof.
  revert q V. induction ns as [|n ns IH]; intros q V; cbn.
  { intros [= <- <-]. split; [by intros ?%elem_of_nil|]. exists []. cbn.
    rewrite app_nil_r. split_and!; [done|set_solver|constructor|set_solver..]. }
  case_bool_decide as Hn; [done|]. case_bool_decide as Hv.
  - intros (Ht & new & -> & -> & Hnd & Hnew & Hall)%IH.
    split; [set_solver|]. exists new. split_and!; [done..|set_solver|set_solver].
  - intros (Ht & new & -> & -> & Hnd & Hnew & Hall)%IH.
    split; [set_solver|]. exists (n :: new). csimpl. rewrite <- app_assoc.
    split_and!; [done|set_solver| |set_solver|set_solver].
    constructor; [|done]. intros Hin. apply Hnew in Hin. set_solver.
Qed.

(** The invariant of the search, with the depths at which types entered the queue. *)
Record search_inv (q : list (string * nat)) (V : gset string) (D : gmap string nat) : Prop := {
  inv_visited : dom D = V;
  inv_start : D !! from_base = Some 0;
  inv_chain n d : D !! n = Some d → d ≤ 3 ∧ chain d n ∧ n ≠ to_base;
  inv_queue n d : (n, d) ∈ q → D !! n = Some d;
  inv_sorted : StronglySorted le q.*2;
  inv_window n d n' d' : (n, d) ∈ q → (n', d') ∈ q → d' ≤ S d;
  inv_done n d : D !! n = Some d → n ∉ q.*1 →
    (∀ n' d', (n', d') ∈ q → d ≤ d') ∧
    (d < 3 → ∀ m, converts n m → ∃ e, D !! m = Some e ∧ e ≤ S d)
}.

Lemma search_inv_end V D k :
  search_inv [] V D → k ≤ 3 → ¬ chain k to_base.
Proof.
  intros [] Hk Hc.
  assert (∀ j a, chain j a → j ≤ 3 → ∃ d, D !! a = Some d ∧ d ≤ j) as Hreach.
  { induction 1 as [|j a b _ IH Hab]; intros Hj; [by exists 0|].
    destruct IH as (d & Hd & Hdj); [lia|].
    destruct (inv_done0 a d Hd) as [_ Hnext]; [by intros ?%elem_of_nil|].
    destruct (Hnext ltac:(lia) b Hab) as (e & He & ?). exists e. split; [done|lia]. }
  destruct (Hreach _ _ Hc Hk) as (d & Hd & _). by destruct (inv_chain0 _ _ Hd) as (_ & _ & ?).
Qed.

Lemma sorted_head_le (d : nat) (q : list (string * nat)) n' d' :
  StronglySorted le (d :: q.*2) → (n', d') ∈ q → d ≤ d'.
Proof.
  intros [_ Hd]%StronglySorted_inv Hin. rewrite Forall_forall in Hd. apply Hd.
  apply list_elem_of_fmap. by exists (n', d').
Qed.

(** A type at depth 3 is dropped from the queue. *)
Lemma search_inv_pop n d q V D :
  search_inv ((n, d) :: q) V D → 3 ≤ d → search_inv q V D.
Proof.
  intros [] Hd. split; try done.
  - intros n' d' Hin. apply inv_queue0. by right.
  - by apply StronglySorted_inv in inv_sorted0 as [? _].
  - intros n1 d1 n2 d2 H1 H2. eapply inv_window0; right; done.
  - intros n' d' Hn' Hnq. destruct (decide (n' = n)) as [->|Hne].
    + rewrite (inv_queue0 n d) in Hn' by left. injection Hn' as <-. split; [|lia].
      intros n2 d2. by eapply sorted_head_le.
    + destruct (inv_done0 n' d' Hn') as [Hle Hnext]; [csimpl; by apply not_elem_of_cons|].
      split; [|done]. intros n2 d2 Hin. apply (Hle n2). by right.
Qed.

(** The depths after the neighbours of a type at depth [d] have been queued. *)
Definition new_depths (d : nat) (new : list string) (D : gmap string nat) : gmap string nat :=
  list_to_map ((λ m, (m, S d)) <$> new) ∪ D.

Lemma new_depths_lookup d new D m e :
  NoDup new → (∀ m, m ∈ new → m ∉ dom D) →
  new_depths d new D !! m = Some e ↔ (m ∈ new ∧ e = S d) ∨ D !! m = Some e.
Proof.
  intros Hnd Hdisj. unfold new_depths. rewrite lookup_union_Some.
  - rewrite <- elem_of_list_to_map, list_elem_of_fmap; [naive_solver|].
    by rewrite <- list_fmap_compose, (list_fmap_ext _ id), list_fmap_id.
  - apply map_disjoint_spec. intros x e1 e2 H1 H2.
    apply elem_of_list_to_map_2, list_elem_of_fmap in H1 as (y & [= -> ->] & Hy).
    apply (Hdisj y Hy). by apply elem_of_dom_2 in H2.
Qed.

(** One round of the search, at depth less than 3. *)
Section step.
Context (n : string) (d : nat) (q : list (string * nat)) (V : gset string) (D : gmap string nat).
Context (new : list string).
Hypothesis Hinv : search_inv ((n, d) :: q) V D.
Hypothesis Hd : d < 3.
Hypothesis Hto : to_base ∉ default [] (edges !! n).
Hypothesis Hnd : NoDup new.
Hypothesis Hnew : ∀ m, m ∈ new → m ∈ default [] (edges !! n) ∧ m ∉ V.
Hypothesis Hall : ∀ m, m ∈ default [] (edges !! n) → m ∈ list_to_set new ∪ V.

Lemma step_lookup m e :
  new_depths d new D !! m = Some e ↔ (m ∈ new ∧ e = S d) ∨ D !! m = Some e.
Proof.
  apply new_depths_lookup; [done|]. rewrite (inv_visited _ _ _ Hinv). intros m' ?. by apply Hnew.
Qed.

Lemma step_head : D !! n = Some d.
Proof. apply (inv_queue _ _ _ Hinv). left. Qed.

Lemma step_window n2 d2 : (n2, d2) ∈ q → d ≤ d2 ≤ S d.
Proof.
  intros Hin. split; [eapply sorted_head_le; [apply (inv_sorted _ _ _ Hinv)|done]|].
  eapply (inv_window _ _ _ Hinv n d); [left|right; exact Hin].
Qed.

Lemma step_queue n2 d2 :
  (n2, d2) ∈ q ++ ((λ m, (m, S d)) <$> new) → (n2, d2) ∈ q ∨ n2 ∈ new ∧ d2 = S d.
Proof. intros [?|(m & [= -> ->] & ?)%list_elem_of_fmap]%elem_of_app; auto. Qed.

Lemma step_names : ((λ m, (m, S d)) <$> new).*1 = new.
Proof. by rewrite <- list_fmap_compose, (list_fmap_ext _ id), list_fmap_id. Qed.

Lemma step_sorted : StronglySorted le (q ++ ((λ m, (m, S d)) <$> new)).*2.
Proof.
  destruct (StronglySorted_inv (inv_sorted _ _ _ Hinv)) as [Hs _]. rewrite fmap_app.
  apply StronglySorted_app_2; [|done|].
  - intros d1 d2 ([n1 e1] & -> & H1)%list_elem_of_fmap ([n2 e2] & -> & H2)%list_elem_of_fmap. cbn.
    apply list_elem_of_fmap in H2 as (m & [= -> ->] & _). apply step_window in H1. lia.
  - clear. induction new; csimpl; constructor; [done|].
    rewrite Forall_forall. intros x Hx. apply list_elem_of_fmap in Hx as ([m e] & -> & Hx).
    by apply list_elem_of_fmap in Hx as (? & [= -> ->] & _).
Qed.

(** A neighbour that was visited before was queued at most one level below. *)
Lemma step_old x e : D !! x = Some e → e ≤ S d.
Proof.
  intros He. destruct (decide (x ∈ q.*1)) as [([x' e'] & -> & Hq)%list_elem_of_fmap|Hxq].
  { pose proof (inv_queue _ _ _ Hinv x' e' ltac:(by right)) as He'. cbn in He. rewrite He in He'.
    injection He' as ->. apply step_window in Hq. lia. }
  destruct (decide (x = n)) as [->|Hxn]; [rewrite step_head in He; injection He as <-; lia|].
  destruct (inv_done _ _ _ Hinv x e He) as [Hle _]; [csimpl; by apply not_elem_of_cons|].
  specialize (Hle n d ltac:(left)). lia.
Qed.

Lemma step_done m e :
  new_depths d new D !! m = Some e → m ∉ (q ++ ((λ m, (m, S d)) <$> new)).*1 →
  (∀ n' d', (n', d') ∈ q ++ ((λ m, (m, S d)) <$> new) → e ≤ d') ∧
  (e < 3 → ∀ x, converts m x → ∃ f, new_depths d new D !! x = Some f ∧ f ≤ S e).
Proof.
  rewrite fmap_app, step_names, not_elem_of_app. intros [[Hm ->]|Hm]%step_lookup [Hmq Hmn]; [done|].
  destruct (decide (m = n)) as [->|Hne].
  - rewrite step_head in Hm. injection Hm as <-. split.
    + intros n2 d2 [H2|[_ ->]]%step_queue; [apply step_window in H2|]; lia.
    + intros _ x Hx. specialize (Hall x Hx). apply elem_of_union in Hall as [Hx'|Hx'].
      { exists (S d). rewrite step_lookup. apply elem_of_list_to_set in Hx'. auto. }
      rewrite <- (inv_visited _ _ _ Hinv) in Hx'. apply elem_of_dom in Hx' as [f Hf].
      exists f. rewrite step_lookup. eauto using step_old.
  - destruct (inv_done _ _ _ Hinv m e Hm) as [Hle Hnext]; [csimpl; by apply not_elem_of_cons|]. split.
    + intros n2 d2 [H2|[_ ->]]%step_queue; [apply (Hle n2); by right|].
      specialize (Hle n d ltac:(left)). lia.
    + intros He x Hx. destruct (Hnext He x Hx) as (f & Hf & ?). exists f. rewrite step_lookup. auto.
Qed.

Lemma search_inv_step :
  search_inv (q ++ ((λ m, (m, S d)) <$> new)) (list_to_set new ∪ V) (new_depths d new D).
Proof.
  split.
  - unfold new_depths. rewrite dom_union_L, (inv_visited _ _ _ Hinv). f_equal.
    by rewrite dom_list_to_map_L, step_names.
  - apply step_lookup. right. apply Hinv.
  - intros m e [[Hm ->]|Hm]%step_lookup; [|by apply Hinv].
    split_and!; [lia| |intros ->; apply Hto; by apply Hnew].
    econstructor; [apply (inv_chain _ _ _ Hinv n d step_head)|]. unfold converts. by apply Hnew.
  - intros m e [Hin|[Hm ->]]%step_queue; apply step_lookup; [right; apply Hinv; by right|by left].
  - apply step_sorted.
  - intros n1 d1 n2 d2 [H1|[_ ->]]%step_queue [H2|[_ ->]]%step_queue; try lia;
      repeat match goal with H : _ ∈ q |- _ => apply step_window in H end; lia.
  - apply step_done.
Qed.
End step.

(** The search returns, and tells whether the target is at most three conversions away. *)
Lemma bfs_correct fuel q V D :
  search_inv q V D → length q + size (targets ∖ V) < fuel →
  ∃ b, bfs edges to_base fuel q V = Some b ∧ (b = true ↔ ∃ k, k ≤ 3 ∧ chain k to_base).
Proof.
  revert q V D. induction fuel as [|fuel IH]; intros q V D Hinv Hfuel; [lia|]. cbn [bfs].
  destruct q as [|[n d] q].
  { exists false. split; [done|]. split; [done|]. intros (k & Hk & Hc).
    by destruct (search_inv_end V D k Hinv Hk). }
  cbn in Hfuel. destruct (Nat.leb_spec 3 d) as [Hd|Hd].
  { apply (IH _ _ D); [by eapply search_inv_pop|lia]. }
  destruct (bfs_neighbors _ _ _ _ _) as [[q' V']|] eqn:E.
  - apply bfs_neighbors_queue in E as (Hto & new & -> & -> & Hnd & Hnew & Hall).
    apply (IH _ _ (new_depths d new D)); [by eapply (search_inv_step n d q V D new)|].
    rewrite length_app, length_fmap.
    assert (size (targets ∖ (list_to_set new ∪ V)) + length new ≤ size (targets ∖ V)); [|lia].
    rewrite <- (size_list_to_set (C:=gset string) new) by done.
    rewrite <- size_union by set_solver. apply subseteq_size.
    intros x [Hx|Hx]%elem_of_union; [set_solver|]. apply elem_of_list_to_set in Hx.
    destruct (Hnew x Hx) as [Hc Hv]. apply elem_of_difference. split; [|done].
    by eapply converts_target.
  - exists true. split; [done|]. split; [intros _|done]. exists (S d). split; [lia|].
    apply bfs_neighbors_found in E. econstructor; [|exact E].
    apply (inv_chain _ _ _ Hinv n d). apply (inv_queue _ _ _ Hinv). left.
Qed.
End search.

Lemma size_list_to_set_le (l : list string) : size (list_to_set (C:=gset string) l) ≤ length l.
Proof.
  induction l as [|x l IH]; [done|]. cbn [list_to_set length]. rewrite size_union_alt, size_singleton.
  enough (size (list_to_set (C:=gset string) l ∖ {[x]}) ≤ size (list_to_set (C:=gset string) l)) by lia.
  apply subseteq_size. set_solver.
Qed.

Lemma bfs_decides edges from_base to_base :
  from_base ≠ to_base →
  ∃ b, bfs edges to_base (bfs_fuel edges) [(from_base, 0)] {[from_base]} = Some b ∧
       (b = true ↔ ∃ k, k ≤ 3 ∧ chain edges from_base k to_base).
Proof.
  intros Hne. apply (bfs_correct edges from_base to_base _ _ _ {[from_base := 0]}).
  - split.
    + by rewrite dom_singleton_L.
    + by rewrite lookup_singleton_eq.
    + intros n d [<- <-]%lookup_singleton_Some. split_and!; [lia|constructor|done].
    + intros n d [= -> ->]%list_elem_of_singleton. by rewrite lookup_singleton_eq.
    + cbn. repeat constructor.
    + intros n d n' d' [= -> ->]%list_elem_of_singleton [= -> ->]%list_elem_of_singleton. lia.
    + intros n d [<- <-]%lookup_singleton_Some Hn. exfalso. apply Hn. cbn. left.
  - cbn. unfold bfs_fuel.
    assert (size (targets edges ∖ {[from_base]}) ≤ length (mjoin (btree_iter edges).*2)); [|lia].
    etrans; [|apply size_list_to_set_le]. apply subseteq_size. unfold targets. set_solver.
Qed.

Lemma is_compatible_total edges from to : is_Some (is_compatible edges from to).
Proof.
  unfold is_compatible. case_bool_decide; [done|]. case_bool_decide as Hb.
  - destruct (parse_urn from), (parse_urn to); try done. by destruct (_ && _).
  - destruct (bfs_decides edges _ _ Hb) as (b & -> & _). done.
Qed.

Lemma converts_rules g rules a b :
  converts (foldl add_edge g rules) a b ↔ converts g a b ∨ mkTypeRule a b ∈ rules.
Proof.
  revert g. induction rules as [|[f t] rules IH]; intros g; cbn [foldl].
  { split; [by left|]. by intros [?|?%elem_of_nil]. }
  rewrite IH, elem_of_cons. unfold converts, add_edge. cbn.
  destruct (decide (f = a)) as [->|Hne].
  - rewrite lookup_insert_eq. cbn. rewrite elem_of_app, list_elem_of_singleton. naive_solver.
  - rewrite lookup_insert_ne by done. naive_solver.
Qed.

(** [conversions rules k a b]: [k] rules lead from [a] to [b]. *)
Inductive conversions (rules : list TypeRule) (a : string) : nat → string → Prop :=
| conversions_none : conversions rules a 0 a
| conversions_more k b c :
    conversions rules a k b → mkTypeRule b c ∈ rules → conversions rules a (S k) c.

Lemma chain_conversions rules a k b :
  chain (new_graph rules) a k b ↔ conversions (builtin_rules ++ rules) a k b.
Proof.
  assert (∀ x y, converts (new_graph rules) x y ↔ mkTypeRule x y ∈ builtin_rules ++ rules) as Hc.
  { intros x y. unfold new_graph. generalize (builtin_rules ++ rules). intros l.
    rewrite converts_rules. unfold converts. rewrite lookup_empty, elem_of_nil. tauto. }
  split; induction 1 as [|k x y _ IH Hxy]; econstructor; try done; by apply Hc.
Qed.

Lemma no_bracket_base s p : parse_urn s = Some p → no_sep "[" (urn_base p) = true.
Proof.
  unfold parse_urn. case_bool_decide; [done|].
  assert (∀ s, split_once "[" s = None → no_sep "[" s = true) as Hnone.
  { clear. unfold no_sep. induction s as [|c s IH]; cbn; [done|]. case_bool_decide; [done|].
    destruct (split_once "[" s) as [[]|]; [done|]. auto. }
  destruct (split_once "[" s) as [[a b]|] eqn:E; [|intros [= <-]; by apply Hnone].
  destruct (strip_suffix_char _ _); [|done]. case_bool_decide; [done|].
  destruct (parse_urn_params _ _); cbn; [|done]. intros [= <-]. by eapply split_once_no_sep.
Qed.

Lemma malformed_bracket_split s a b : split_once "[" s = Some (a, b) → no_sep "[" s = false.
Proof.
  unfold no_sep. revert a. induction s as [|c s IH]; intros a; cbn; [done|].
  case_bool_decide; [done|].
  destruct (split_once "[" s) as [[a' b']|]; [|done]. intros [= _ ->]. by rewrite (IH a').
Qed.

Lemma malformed_bracket s : parse_urn s = None → s ≠ EmptyString → no_sep "[" s = false.
Proof.
  unfold parse_urn. intros Hp Hs. rewrite bool_decide_eq_false_2 in Hp by done.
  destruct (split_once "[" s) as [[a b]|] eqn:E; [|done]. by eapply malformed_bracket_split.
Qed.

(** On URNs of one base, the search's test of the parameters is [types_match]. *)
Lemma same_base_types_match edges from to :
  from ≠ EmptyString → to ≠ EmptyString → to ≠ BYTES_URN →
  urn_base_or from = urn_base_or to →
  is_compatible edges from to = Some (types_match from to).
Proof.
  intros Hf Ht Hb Heq. unfold is_compatible, types_match.
  rewrite (bool_decide_eq_false_2 (to = BYTES_URN)) by done.
  rewrite (bool_decide_eq_true_2 (urn_base_or from = urn_base_or to)) by done.
  unfold urn_base_or in Heq.
  destruct (parse_urn from) as [fp|] eqn:Ef, (parse_urn to) as [tp|] eqn:Et.
  - rewrite (bool_decide_eq_true_2 (urn_base fp = urn_base tp)) by done. cbn.
    destruct (bool_decide (urn_params fp = ∅)), (bool_decide (urn_params tp = ∅)); done.
  - apply no_bracket_base in Ef. apply malformed_bracket in Et; [|done]. congruence.
  - apply no_bracket_base in Et. apply malformed_bracket in Ef; [|done]. congruence.
  - by rewrite (bool_decide_eq_true_2 (from = to)) by done.
Qed.

Lemma compatible_decides (rules : list TypeRule) (from to : string) :
  from ≠ EmptyString → to ≠ EmptyString →
  ∃ b, is_compatible (new_graph rules) from to = Some b ∧
    (b = true ↔
      to = BYTES_URN ∨
      (urn_base_or from = urn_base_or to ∧ types_match from to = true) ∨
      (urn_base_or from ≠ urn_base_or to ∧
        ∃ k, k ≤ 3 ∧ conversions (builtin_rules ++ rules) (urn_base_or from) k (urn_base_or to))).
Proof.
  intros Hf Ht. destruct (decide (to = BYTES_URN)) as [->|Hb].
  { exists true. unfold is_compatible. rewrite bool_decide_eq_true_2 by done. naive_solver. }
  destruct (decide (urn_base_or from = urn_base_or to)) as [Heq|Hne].
  { exists (types_match from to). rewrite same_base_types_match by done. naive_solver. }
  destruct (bfs_decides (new_graph rules) _ _ Hne) as (b & Hbfs & Hspec). exists b.
  unfold is_compatible. rewrite !bool_decide_eq_false_2 by done. split; [done|].
  rewrite Hspec. setoid_rewrite chain_conversions. naive_solver.
Qed.

(** The compatibility check always returns, and accepts exactly the pairs of types it
    should: anything into [Bytes]; two URNs of one base when their parameters agree
    ([types_match]); and two different bases when at most three conversion rules, built in or
    given by the user, lead from one to the other. *)
Theorem is_compatible_spec (rules : list TypeRule) (from to : string) :
  from ≠ EmptyString → to ≠ EmptyString →
  ∃ b, is_compatible (new_graph rules) from to = Some b ∧
    (b = true ↔
      to = BYTES_URN ∨
      (urn_base_or from = urn_base_or to ∧ types_match from to = true) ∨
      (urn_base_or from ≠ urn_base_or to ∧
        ∃ k, k ≤ 3 ∧ conversions (builtin_rules ++ rules) (urn_base_or from) k (urn_base_or to))).
Proof. apply compatible_decides. Qed.

Lemma is_compatible_spec_witness :
  ∃ b, is_compatible (new_graph [mkTypeRule "a" "b"]) "std/core/v1/UInt8" "std/core/v1/UInt64" = Some b ∧
    (b = true ↔
      "std/core/v1/UInt64" = BYTES_URN ∨
      (urn_base_or "std/core/v1/UInt8" = urn_base_or "std/core/v1/UInt64" ∧
       types_match "std/core/v1/UInt8" "std/core/v1/UInt64" = true) ∨
      (urn_base_or "std/core/v1/UInt8" ≠ urn_base_or "std/core/v1/UInt64" ∧
        ∃ k, k ≤ 3 ∧ conversions (builtin_rules ++ [mkTypeRule "a" "b"])
          (urn_base_or "std/core/v1/UInt8") k (urn_base_or "std/core/v1/UInt64"))).
Proof.
  apply (is_compatible_spec [mkTypeRule "a" "b"] "std/core/v1/UInt8" "std/core/v1/UInt64"); done.
Defined.

(** ** A rule for parameterised types has no effect *)

(** A user rule whose source URN carries parameters is never applied: the search starts
    from the URN without its parameters, while the graph keeps the rule under the full URN.
    So even the very conversion the rule declares is rejected (unless some other rule starts
    from the same type). *)
Theorem parameterized_rule_ignored (from to : string) (p : ParsedUrn) :
  parse_urn from = Some p → urn_params p ≠ ∅ →
  to ≠ EmptyString → to ≠ BYTES_URN → urn_base p ≠ urn_base_or to →
  Forall (λ r, rule_from r ≠ urn_base p) builtin_rules →
  is_compatible (new_graph [mkTypeRule from to]) from to = Some false.
Proof.
  intros Hp Hps Ht Hb Hne Hbuiltin.
  destruct (compatible_decides [mkTypeRule from to] from to) as ([] & Hc & Hspec);
    [intros ->; done|done| |done].
  assert (urn_base_or from = urn_base p) as Hbase by (unfold urn_base_or; by rewrite Hp).
  rewrite Hbase in Hspec. destruct (proj1 Hspec eq_refl) as [?|[[? _]|(_ & k & _ & Hk)]]; [done..|].
  assert (from ≠ urn_base p) as Hfrom.
  { intros Heq. apply no_bracket_base in Hp as Hnb. rewrite <- Heq in Hnb.
    unfold parse_urn in Hp. case_bool_decide; [done|].
    destruct (split_once "[" from) as [[a b]|] eqn:E.
    - pose proof (malformed_bracket_split from a b E). congruence.
    - injection Hp as <-. done. }
  assert (∀ b, conversions (builtin_rules ++ [mkTypeRule from to]) (urn_base p) k b → b = urn_base p)
    as Hstay.
  { clear Hk. induction k as [|k IH]; intros b Hk; inversion Hk as [|k' x y Hx Hr]; subst; [done|].
    rewrite (IH _ Hx) in Hr. rewrite Forall_forall in Hbuiltin.
    apply elem_of_app in Hr as [Hr|Hr%list_elem_of_singleton].
    - by destruct (Hbuiltin _ Hr).
    - by simplify_eq. }
  by rewrite (Hstay _ Hk) in Hne.
Qed.

Lemma parameterized_rule_ignored_witness :
  is_compatible (new_graph [mkTypeRule "cam/v1/Image[encoding=rgb]" "ml/v1/Tensor"])
    "cam/v1/Image[encoding=rgb]" "ml/v1/Tensor" = Some false.
Proof.
  apply (parameterized_rule_ignored "cam/v1/Image[encoding=rgb]" "ml/v1/Tensor"
    (mkParsedUrn "cam/v1/Image" {["encoding"%string := "rgb"%string]})); try done.
  repeat constructor; done.
Defined.

(** ** The edit distance *)

Section edit.
Context {A : Type} `{EqDecision A}.
Implicit Types a b : list A.

(** [edits a b n]: [n] insertions, deletions and substitutions turn [a] into [b]. *)
Inductive edits : list A → list A → nat → Prop :=
| edits_nil : edits [] [] 0
| edits_keep x a b n : edits a b n → edits (x :: a) (x :: b) n
| edits_subst x y a b n : edits a b n → edits (x :: a) (y :: b) (S n)
| edits_delete x a b n : edits a b n → edits (x :: a) b (S n)
| edits_insert y a b n : edits a b n → edits a (y :: b) (S n).

(** The Levenshtein distance. *)
Definition levenshtein a b (d : nat) : Prop := edits a b d ∧ ∀ n, edits a b n → d ≤ n.

Lemma edits_app a b n a' b' n' : edits a b n → edits a' b' n' → edits (a ++ a') (b ++ b') (n + n').
Proof. induction 1; cbn; intros; try constructor; auto. Qed.

Lemma edits_rev a b n : edits a b n → edits (reverse a) (reverse b) n.
Proof.
  induction 1 as [|x a b n _ IH|x y a b n _ IH|x a b n _ IH|y a b n _ IH]; [constructor|..];
    rewrite ?reverse_cons.
  - rewrite <- (Nat.add_0_r n). apply edits_app; [done|]. do 2 constructor.
  - rewrite <- Nat.add_1_r. apply edits_app; [done|]. do 2 constructor.
  - rewrite <- (app_nil_r (reverse b)), <- Nat.add_1_r. apply edits_app; [done|]. do 2 constructor.
  - rewrite <- (app_nil_r (reverse a)), <- Nat.add_1_r. apply edits_app; [done|]. do 2 constructor.
Qed.

(** The last step of an edit. *)
Lemma edits_snoc_inv a x b y n :
  edits (a ++ [x]) (b ++ [y]) n →
  (x = y ∧ edits a b n) ∨
  (∃ m, n = S m ∧ (edits a b m ∨ edits a (b ++ [y]) m ∨ edits (a ++ [x]) b m)).
Proof.
  intros He%edits_rev. rewrite !reverse_snoc in He.
  inversion He as [|x' a' b' n' H1|x' y' a' b' n' H1|x' a' b' n' H1|y' a' b' n' H1]; subst;
    apply edits_rev in H1; rewrite ?reverse_cons, ?reverse_involutive in H1; eauto 7.
Qed.

Lemma levenshtein_nil_l b : levenshtein [] b (length b).
Proof.
  split; [induction b; by constructor|]. intros n. revert b.
  induction n as [|n IH]; intros b He; inversion He; subst; cbn; try lia. by apply le_n_S, IH.
Qed.

Lemma levenshtein_nil_r a : levenshtein a [] (length a).
Proof.
  split; [induction a; by constructor|]. intros n. revert a.
  induction n as [|n IH]; intros a He; inversion He; subst; cbn; try lia. by apply le_n_S, IH.
Qed.

Lemma levenshtein_snoc a x b y d1 d2 d3 :
  levenshtein a (b ++ [y]) d1 → levenshtein (a ++ [x]) b d2 → levenshtein a b d3 →
  levenshtein (a ++ [x]) (b ++ [y])
    (Nat.min (Nat.min (d1 + 1) (d2 + 1)) (d3 + if bool_decide (x = y) then 0 else 1)).
Proof.
  intros [H1 M1] [H2 M2] [H3 M3].
  assert (edits (a ++ [x]) (b ++ [y]) (d1 + 1)) as E1.
  { rewrite <- (app_nil_r (b ++ [y])). apply edits_app; [done|]. do 2 constructor. }
  assert (edits (a ++ [x]) (b ++ [y]) (d2 + 1)) as E2.
  { rewrite <- (app_nil_r (a ++ [x])). apply edits_app; [done|]. do 2 constructor. }
  assert (edits (a ++ [x]) (b ++ [y]) (d3 + if bool_decide (x = y) then 0 else 1)) as E3.
  { apply edits_app; [done|]. case_bool_decide; [subst|]; do 2 constructor. }
  split.
  - destruct (Nat.min_spec (Nat.min (d1 + 1) (d2 + 1)) (d3 + if bool_decide (x = y) then 0 else 1))
      as [[_ ->]|[_ ->]]; [|done].
    by destruct (Nat.min_spec (d1 + 1) (d2 + 1)) as [[_ ->]|[_ ->]].
  - intros n [[-> He]|(m & -> & [He|[He|He]])]%edits_snoc_inv.
    + rewrite bool_decide_eq_true_2 by done. specialize (M3 _ He). lia.
    + specialize (M3 _ He). case_bool_decide; lia.
    + specialize (M1 _ He). lia.
    + specialize (M2 _ He). lia.
Qed.
End edit.

Section table.
Context {A : Type} `{EqDecision A} (a b : list A).

Definition dims (dp : list (list nat)) : Prop :=
  length dp = S (length a) ∧ ∀ i row, dp !! i = Some row → length row = S (length b).

(** Cell [(i, j)] holds the distance of the prefixes of lengths [i] and [j]. *)
Definition cell_ok (dp : list (list nat)) (i j : nat) : Prop :=
  levenshtein (take i a) (take j b) (dp_get dp i j).

(** The table up to row [i] and, in that row, up to column [j]; column 0 is complete. *)
Definition filled (dp : list (list nat)) (i j : nat) : Prop :=
  dims dp ∧ ∀ i' j', i' ≤ length a → j' ≤ length b →
    i' < i ∨ (i' = i ∧ j' ≤ j) ∨ j' = 0 → cell_ok dp i' j'.

Lemma dp_get_set dp i j v i' j' :
  dims dp → i ≤ length a → j ≤ length b →
  dp_get (dp_set dp i j v) i' j' = if decide (i = i' ∧ j = j') then v else dp_get dp i' j'.
Proof.
  intros [Hr Hc] Hi Hj. unfold dp_get, dp_set.
  destruct (lookup_lt_is_Some_2 dp i) as [row Hrow]; [lia|]. specialize (Hc _ _ Hrow).
  destruct (decide (i = i')) as [<-|Hne].
  - rewrite list_lookup_alter_eq, Hrow. cbn. destruct (decide (j = j')) as [<-|Hne].
    + rewrite list_lookup_insert_eq by lia. by rewrite decide_True.
    + rewrite list_lookup_insert_ne by done. by rewrite decide_False by naive_solver.
  - rewrite list_lookup_alter_ne by done. by rewrite decide_False by naive_solver.
Qed.

Lemma dims_set dp i j v : dims dp → dims (dp_set dp i j v).
Proof.
  intros [Hr Hc]. unfold dp_set. split; [by rewrite length_alter|].
  intros i' row'. rewrite list_lookup_alter. case_decide as Hi; [|by apply Hc]. subst i'.
  destruct (dp !! i) as [row|] eqn:E; [|done]. cbn. intros [= <-]. rewrite length_insert. by eapply Hc.
Qed.

Lemma filled_cell dp i j :
  1 ≤ i ≤ length a → j < length b → filled dp i j → filled (dp_cell a b dp i (S j)) i (S j).
Proof.
  intros Hi Hj [Hd Hok]. unfold dp_cell. split; [by apply dims_set|].
  intros i' j' Hi' Hj' Hpos. unfold cell_ok. rewrite dp_get_set by (done || lia).
  destruct (decide (i = i' ∧ S j = j')) as [[<- <-]|Hne].
  - destruct i as [|i]; [lia|]. cbn [Nat.sub]. rewrite !Nat.sub_0_r.
    destruct (lookup_lt_is_Some_2 a i) as [x Hx]; [lia|].
    destruct (lookup_lt_is_Some_2 b j) as [y Hy]; [lia|].
    rewrite (take_S_r _ _ _ Hx), (take_S_r _ _ _ Hy), Hx, Hy.
    replace (if bool_decide (Some x = Some y) then 0 else 1)
      with (if bool_decide (x = y) then 0 else 1)
      by (do 2 case_bool_decide; congruence).
    apply levenshtein_snoc.
    + rewrite <- (take_S_r _ _ _ Hy). apply Hok; lia.
    + rewrite <- (take_S_r _ _ _ Hx). apply Hok; lia.
    + apply Hok; lia.
  - apply Hok; [done..|]. destruct Hpos as [?|[[-> ?]|?]]; [lia| |lia].
    assert (j' ≠ S j) by naive_solver. lia.
Qed.

Lemma filled_row dp i j n :
  1 ≤ i ≤ length a → j + n = length b → filled dp i j →
  filled (foldl (λ dp j, dp_cell a b dp i j) dp (seq (S j) n)) i (length b).
Proof.
  revert dp j. induction n as [|n IH]; intros dp j Hi Hj Hf; cbn.
  { by replace (length b) with j by lia. }
  apply IH; [done|lia|]. apply filled_cell; [done|lia|done].
Qed.

Lemma filled_rows dp i n :
  i + n = length a → filled dp (S i) 0 →
  filled (foldl (λ dp i, foldl (λ dp j, dp_cell a b dp i j) dp (seq 1 (length b))) dp (seq (S i) n))
    (S (length a)) 0.
Proof.
  revert dp i. induction n as [|n IH]; intros dp i Hi Hf; cbn.
  { by replace (length a) with i by lia. }
  apply IH; [lia|]. destruct (filled_row dp (S i) 0 (length b)) as [Hd Hok]; [lia..|done|].
  split; [done|]. intros i' j' ?? Hpos. apply Hok; [done..|]. lia.
Qed.

Lemma init_lookup i :
  i ≤ length a →
  alter (imap (λ j _, j)) 0
    (imap (λ i row, <[0 := i]> row) (replicate (S (length a)) (replicate (S (length b)) 0))) !! i
  = Some (match i with
          | O => imap (λ j _, j) (replicate (S (length b)) 0)
          | S _ => <[0 := i]> (replicate (S (length b)) 0)
          end).
Proof.
  intros Hi. destruct i as [|i]; [done|].
  rewrite list_lookup_alter_ne, list_lookup_imap, lookup_replicate_2 by lia. done.
Qed.

Lemma filled_init :
  filled (alter (imap (λ j _, j)) 0
            (imap (λ i row, <[0 := i]> row)
               (replicate (S (length a)) (replicate (S (length b)) 0)))) 1 0.
Proof.
  assert (dims (alter (imap (λ j _, j)) 0
            (imap (λ i row, <[0 := i]> row)
               (replicate (S (length a)) (replicate (S (length b)) 0))))) as Hd.
  { split; [by rewrite length_alter, length_imap, length_replicate|]. intros i row Hrow.
    assert (i ≤ length a) as Hi.
    { apply lookup_lt_Some in Hrow. rewrite length_alter, length_imap, length_replicate in Hrow. lia. }
    rewrite init_lookup in Hrow by done. apply (inj Some) in Hrow as <-.
    destruct i; [by rewrite length_imap, length_replicate|by rewrite length_insert, length_replicate]. }
  split; [done|]. intros i j Hi Hj Hpos. unfold cell_ok, dp_get. rewrite init_lookup by done. cbn [mbind option_bind].
  destruct i as [|i].
  - rewrite list_lookup_imap, lookup_replicate_2 by lia. cbn.
    rewrite <- (length_take_le b j) at 2 by done. apply levenshtein_nil_l.
  - assert (j = 0) as -> by lia. rewrite list_lookup_insert_eq by (rewrite length_replicate; lia). cbn.
    rewrite <- (length_take_le a (S i)) at 2 by done. apply levenshtein_nil_r.
Qed.

Lemma dp_table_correct :
  levenshtein a b (dp_get (dp_table a b) (length a) (length b)).
Proof.
  destruct (filled_rows _ 0 (length a) eq_refl filled_init) as [_ Hok].
  specialize (Hok (length a) (length b) ltac:(lia) ltac:(lia) ltac:(lia)).
  unfold cell_ok in Hok. by rewrite !firstn_all in Hok.
Qed.
End table.

(** [edit_distance] computes the Levenshtein distance: the table it fills by dynamic
    programming ends with the least number of insertions, deletions and substitutions of
    characters that turn one name into the other. *)
Theorem edit_distance_levenshtein (a b : string) :
  String.length a ≤ 256 → String.length b ≤ 256 →
  ∃ d, edit_distance a b = Z.of_nat d ∧ levenshtein (chars a) (chars b) d.
Proof.
  intros Ha Hb. unfold edit_distance.
  rewrite !(proj2 (Nat.ltb_ge _ _)) by lia. cbn [orb].
  eexists. split; [done|]. apply dp_table_correct.
Qed.

Lemma edit_distance_levenshtein_witness :
  ∃ d, edit_distance "Imgae" "Image" = Z.of_nat d ∧ levenshtein (chars "Imgae") (chars "Image") d.
Proof. apply (edit_distance_levenshtein "Imgae" "Image"); vm_compute; lia. Defined.
