(* ===== verification/Descriptor.v ===== *)
(** * Dataflow descriptors and their resolution

    Models the descriptor types of [libraries/message/src/descriptor.rs] and, of
    [libraries/core/src/descriptor/mod.rs], the kind of a node and
    [resolve_aliases_and_set_defaults], which turns the nodes of a descriptor into resolved
    nodes: single operators get their default name, input mappings from them are prefixed
    with it, git sources are recognised and the environment of the dataflow is merged in.
    Of [validate.rs] it models [check_wiring].  Paths are strings; an [f64] is its bit
    pattern; the JSON text of a ROS2 configuration is a parameter. *)

From Stdlib Require Import ZArith Lia Ascii.
From stdpp Require Import base gmap sets list strings.
From S2P Require Import Prelude Message InputMapping Text.
Local Open Scope list_scope.

(** ** Descriptor types *)

Inductive OutputFraming := Raw | ArrowIpc.
Inductive EnvValue := EnvBool (b : bool) | EnvInteger (n : Z) | EnvFloat (bits : Z) | EnvString (s : string).
Inductive DistributeStrategy := DistLocal | DistScp | DistHttp.

Record Deploy := mkDeploy {
  deploy_machine : option string;
  deploy_working_dir : option string;
  deploy_labels : gmap string string;
  deploy_distribute : DistributeStrategy
}.

Inductive GitRepoRev := GitBranchRev (s : string) | GitTag (s : string) | GitRev (s : string).
Inductive NodeSource := SourceLocal | SourceGitBranch (repo : string) (rev : option GitRepoRev).

Definition is_git (s : NodeSource) : bool :=
  match s with SourceGitBranch _ _ => true | SourceLocal => false end.

Record NodeRunConfig := mkRunConfig {
  run_inputs : gmap DataId InputConfig;
  run_outputs : gset DataId;
  run_output_types : gmap DataId string;
  run_output_framing : gmap DataId OutputFraming;
  run_input_types : gmap DataId string
}.

Record PythonSource := mkPythonSource { python_source : string; conda_env : option string }.
Inductive OperatorSource :=
| SharedLibrary (path : string)
| Python (source : PythonSource)
| Wasm (path : string).

Record OperatorConfig := mkOperatorConfig {
  op_name : option string;
  op_description : option string;
  op_inputs : gmap DataId InputConfig;
  op_outputs : gset DataId;
  op_output_types : gmap DataId string;
  op_output_framing : gmap DataId OutputFraming;
  op_input_types : gmap DataId string;
  op_output_metadata : gmap DataId (list string);
  op_pattern : option string;
  op_source : OperatorSource;
  op_build : option string;
  op_send_stdout_as : option string;
  op_send_logs_as : option string;
  op_min_log_level : option string;
  op_max_log_size : option string;
  op_max_rotated_files : option Z
}.

Record OperatorDefinition := mkOperator { opdef_id : OperatorId; opdef_config : OperatorConfig }.
Record SingleOperatorDefinition := mkSingleOperator {
  single_id : option OperatorId;
  single_config : OperatorConfig
}.
Definition RuntimeNode : Type := list OperatorDefinition.

Record CustomNode := mkCustomNode {
  custom_path : string;
  custom_source : NodeSource;
  custom_args : option string;
  custom_envs : option (gmap string EnvValue);
  custom_build : option string;
  custom_send_stdout_as : option string;
  custom_send_logs_as : option string;
  custom_min_log_level : option string;
  custom_max_log_size : option string;
  custom_max_rotated_files : option Z;
  custom_restart_policy : RestartPolicy;
  custom_max_restarts : Z;
  custom_restart_delay : option Z;
  custom_max_restart_delay : option Z;
  custom_restart_window : option Z;
  custom_health_check_timeout : option Z;
  custom_run_config : NodeRunConfig
}.

Inductive Ros2Direction := Ros2Subscribe | Ros2Publish.
Inductive Ros2Role := Ros2Client | Ros2Server.
Record Ros2QosConfig := mkRos2Qos {
  qos_reliable : bool;
  qos_durability : option string;
  qos_liveliness : option string;
  qos_lease_duration : option Z;
  qos_max_blocking_time : option Z;
  qos_keep_last : option Z;
  qos_keep_all : bool
}.
Record Ros2TopicConfig := mkRos2Topic {
  topic_name : string;
  topic_message_type : string;
  topic_direction : Ros2Direction;
  topic_output : option string;
  topic_input : option string;
  topic_qos : option Ros2QosConfig
}.
Record Ros2BridgeConfig := mkRos2Bridge {
  ros2_topic : option string;
  ros2_message_type : option string;
  ros2_direction : Ros2Direction;
  ros2_topics : option (list Ros2TopicConfig);
  ros2_service : option string;
  ros2_service_type : option string;
  ros2_action : option string;
  ros2_action_type : option string;
  ros2_role : option Ros2Role;
  ros2_qos : Ros2QosConfig;
  ros2_namespace : string;
  ros2_node_name : option string
}.

Record Node := mkNode {
  n_id : NodeId;
  n_name : option string;
  n_description : option string;
  n_path : option string;
  n_args : option string;
  n_env : option (gmap string EnvValue);
  n_operators : option RuntimeNode;
  n_operator : option SingleOperatorDefinition;
  n_ros2 : option Ros2BridgeConfig;
  n_custom : option CustomNode;
  n_outputs : gset DataId;
  n_output_types : gmap DataId string;
  n_output_framing : gmap DataId OutputFraming;
  n_inputs : gmap DataId InputConfig;
  n_input_types : gmap DataId string;
  n_output_metadata : gmap DataId (list string);
  n_pattern : option string;
  n_send_stdout_as : option string;
  n_send_logs_as : option string;
  n_min_log_level : option string;
  n_max_log_size : option string;
  n_max_rotated_files : option Z;
  n_build : option string;
  n_git : option string;
  n_branch : option string;
  n_tag : option string;
  n_rev : option string;
  n_restart_policy : RestartPolicy;
  n_max_restarts : Z;
  n_restart_delay : option Z;
  n_max_restart_delay : option Z;
  n_restart_window : option Z;
  n_health_check_timeout : option Z;
  n_module : option string;
  n_params : gmap string string;
  n_cpu_affinity : option (list Z);
  n_deploy : option Deploy
}.

Record TypeRuleDef := mkTypeRuleDef { def_from : string; def_to : string }.

(** [communication] configures the transports and is passed on unread. *)
Record Descriptor := mkDescriptor {
  d_nodes : list Node;
  d_deploy : option Deploy;
  d_enable_debug_inspection : bool;
  d_health_check_interval : option Z;
  d_strict_types : option bool;
  d_type_rules : list TypeRuleDef;
  d_env : option (gmap string EnvValue)
}.

Inductive CoreNodeKind := Runtime (n : RuntimeNode) | Custom (n : CustomNode).

Record ResolvedNode := mkResolved {
  r_id : NodeId;
  r_name : option string;
  r_description : option string;
  r_env : option (gmap string EnvValue);
  r_cpu_affinity : option (list Z);
  r_deploy : option Deploy;
  r_kind : CoreNodeKind
}.

Definition has_git_source (n : ResolvedNode) : bool :=
  match r_kind n with Custom c => is_git (custom_source c) | Runtime _ => false end.

(** ** Kinds of nodes *)

Inductive NodeKind :=
| KStandard (path : string)
| KRuntime (n : RuntimeNode)
| KCustom (n : CustomNode)
| KOperator (op : SingleOperatorDefinition)
| KRos2Bridge (config : Ros2BridgeConfig)
| KModule (path : string).

Definition kind (n : Node) : res NodeKind :=
  match n_path n, n_operators n, n_custom n, n_operator n, n_ros2 n, n_module n with
  | None, None, None, None, None, None => Err "node requires a `path`, `custom`, ... field"
  | None, None, None, Some operator, None, None => Ok (KOperator operator)
  | None, None, Some custom, None, None, None => Ok (KCustom custom)
  | None, Some runtime, None, None, None, None => Ok (KRuntime runtime)
  | Some path, None, None, None, None, None => Ok (KStandard path)
  | None, None, None, None, Some ros2, None => Ok (KRos2Bridge ros2)
  | None, None, None, None, None, Some module => Ok (KModule module)
  | _, _, _, _, _, _ => Err "node has multiple exclusive fields set"
  end.

(** The source of a standard node, of [node_kind_mut]. *)
Definition standard_source (n : Node) : res NodeSource :=
  match n_git n, n_branch n, n_tag n, n_rev n with
  | None, None, None, None => Ok SourceLocal
  | Some repo, branch, tag, rev =>
      rev ← (match branch, tag, rev with
             | None, None, None => Ok None
             | Some branch, None, None => Ok (Some (GitBranchRev branch))
             | None, Some tag, None => Ok (Some (GitTag tag))
             | None, None, Some rev => Ok (Some (GitRev rev))
             | _, _, _ => Err "only one of `branch`, `tag`, and `rev` are allowed"
             end);
      Ok (SourceGitBranch repo rev)
  | None, _, _, _ => Err "`git` source required when using branch, tag, or rev"
  end.

(** ** Resolution *)

Definition SINGLE_OPERATOR_DEFAULT_ID : OperatorId := "op".

Definition single_operator_nodes (nodes : list Node) : gmap NodeId OperatorId :=
  foldl (λ m n, match n_operator n with
                | Some op => <[n_id n := default SINGLE_OPERATOR_DEFAULT_ID (single_id op)]> m
                | None => m
                end) ∅ nodes.

(** An input from a single-operator node: its output gets the operator's name in front.
    [DataId::from] panics when the result is not an identifier. *)
Definition adjust_input (ops : gmap NodeId OperatorId) (input : InputConfig) : res InputConfig :=
  match mapping input with
  | MUser m =>
      match ops !! source m with
      | Some op_name =>
          output ← data_id_from (String.append op_name (String "/" (output m)));
          Ok {| input with mapping := MUser (mkUserMapping (source m) output) |}
      | None => Ok input
      end
  | MTimer _ | MLogs _ => Ok input
  end.

Definition adjust_inputs (ops : gmap NodeId OperatorId) (inputs : gmap DataId InputConfig)
    : res (gmap DataId InputConfig) :=
  list_to_map <$> mapM (λ e : DataId * InputConfig, (λ i, (e.1, i)) <$> adjust_input ops e.2)
                    (btree_iter inputs).

Definition adjust_operator (ops : gmap NodeId OperatorId) (c : OperatorConfig) : res OperatorConfig :=
  inputs ← adjust_inputs ops (op_inputs c); Ok {| c with op_inputs := inputs |}.

Definition merge_env (global node : option (gmap string EnvValue)) : option (gmap string EnvValue) :=
  match global, node with
  | None, node => node
  | Some global, None => if bool_decide (global = ∅) then None else Some global
  | Some global, Some node => Some (node ∪ global)
  end.

Section resolve.
(** [serde_json::to_string] of a ROS2 bridge configuration. *)
Context (ros2_json : Ros2BridgeConfig → res string).

(** A node run as its own process, from the fields of a standard or ROS2 node. *)
Definition custom_of_node (n : Node) (inputs : gmap DataId InputConfig) (path : string)
    (source : NodeSource) (build : option string) (envs : option (gmap string EnvValue)) : CustomNode := {|
  custom_path := path;
  custom_source := source;
  custom_args := n_args n;
  custom_envs := envs;
  custom_build := build;
  custom_send_stdout_as := n_send_stdout_as n;
  custom_send_logs_as := n_send_logs_as n;
  custom_min_log_level := n_min_log_level n;
  custom_max_log_size := n_max_log_size n;
  custom_max_rotated_files := n_max_rotated_files n;
  custom_restart_policy := n_restart_policy n;
  custom_max_restarts := n_max_restarts n;
  custom_restart_delay := n_restart_delay n;
  custom_max_restart_delay := n_max_restart_delay n;
  custom_restart_window := n_restart_window n;
  custom_health_check_timeout := n_health_check_timeout n;
  custom_run_config := mkRunConfig inputs (n_outputs n) (n_output_types n) (n_output_framing n)
                         (n_input_types n)
|}.

Definition resolve_kind (ops : gmap NodeId OperatorId) (n : Node) : res CoreNodeKind :=
  ros2_inputs ← (if n_ros2 n then adjust_inputs ops (n_inputs n) else Ok (n_inputs n));
  k ← kind n;
  match k with
  | KModule _ => Err "module node must be expanded before resolution"
  | KStandard path =>
      source ← standard_source n;
      inputs ← adjust_inputs ops (n_inputs n);
      Ok (Custom (custom_of_node n inputs path source (n_build n) None))
  | KCustom c =>
      inputs ← adjust_inputs ops (run_inputs (custom_run_config c));
      Ok (Custom {| c with custom_run_config :=
                      (let r := custom_run_config c in {| r with run_inputs := inputs |}) |})
  | KRuntime operators =>
      operators ← mapM (λ op, (λ c, mkOperator (opdef_id op) c) <$> adjust_operator ops (opdef_config op))
                    operators;
      Ok (Runtime operators)
  | KOperator op =>
      config ← adjust_operator ops (single_config op);
      Ok (Runtime [mkOperator (default SINGLE_OPERATOR_DEFAULT_ID (single_id op)) config])
  | KRos2Bridge config =>
      json ← ros2_json config;
      Ok (Custom (custom_of_node n ros2_inputs "dora-ros2-bridge-node" SourceLocal None
                    (Some {["DORA_ROS2_BRIDGE_CONFIG"%string := EnvString json]})))
  end.

Definition resolve_node (global_env : option (gmap string EnvValue)) (ops : gmap NodeId OperatorId)
    (n : Node) : res ResolvedNode :=
  kind ← resolve_kind ops n;
  Ok {| r_id := n_id n; r_name := n_name n; r_description := n_description n;
        r_env := merge_env global_env (n_env n); r_cpu_affinity := n_cpu_affinity n;
        r_deploy := n_deploy n; r_kind := kind |}.

Fixpoint resolve_nodes (global_env : option (gmap string EnvValue)) (ops : gmap NodeId OperatorId)
    (nodes : list Node) (resolved : gmap NodeId ResolvedNode) : res (gmap NodeId ResolvedNode) :=
  match nodes with
  | [] => Ok resolved
  | n :: nodes =>
      r ← resolve_node global_env ops n;
      resolve_nodes global_env ops nodes (<[n_id n := r]> resolved)
  end.

Definition resolve_aliases_and_set_defaults (d : Descriptor) : res (gmap NodeId ResolvedNode) :=
  resolve_nodes (d_env d) (single_operator_nodes (d_nodes d)) (d_nodes d) ∅.

(** ** Wiring *)

(** The operator and output named by an output of a runtime node. *)
Definition operator_output (output : DataId) : string * string :=
  default (EmptyString, EmptyString) (split_once "/" output).

Definition check_input (input : InputConfig) (nodes : gmap NodeId ResolvedNode) : res unit :=
  match mapping input with
  | MTimer _ | MLogs _ => Ok tt
  | MUser m =>
      match head (retain (λ n, bool_decide (r_id n = source m)) (btree_iter nodes).*2) with
      | None => Err "source node mapped to input does not exist"
      | Some source_node =>
          match r_kind source_node with
          | Custom custom_node =>
              if bool_decide (output m ∈ run_outputs (custom_run_config custom_node)) then Ok tt
              else Err "output mapped to input does not exist"
          | Runtime runtime =>
              let '(operator_id, out) := operator_output (output m) in
              out ← data_id_from out;
              match head (retain (λ o, bool_decide (opdef_id o = operator_id)) runtime) with
              | None => Err "source operator used for input does not exist"
              | Some operator =>
                  if bool_decide (out ∈ op_outputs (opdef_config operator)) then Ok tt
                  else Err "output mapped to input does not exist"
              end
          end
      end
  end.

(** The inputs of a resolved node, in the order in which they are checked. *)
Definition node_inputs (n : ResolvedNode) : list InputConfig :=
  match r_kind n with
  | Custom c => (btree_iter (run_inputs (custom_run_config c))).*2
  | Runtime ops => mjoin ((λ op, (btree_iter (op_inputs (opdef_config op))).*2) <$> ops)
  end.

Fixpoint check_inputs (nodes : gmap NodeId ResolvedNode) (inputs : list InputConfig) : res unit :=
  match inputs with
  | [] => Ok tt
  | i :: inputs => _ ← check_input i nodes; check_inputs nodes inputs
  end.

Definition check_wiring (d : Descriptor) : res unit :=
  nodes ← resolve_aliases_and_set_defaults d;
  check_inputs nodes (mjoin (node_inputs <$> (btree_iter nodes).*2)).
End resolve.

(** ** Resolved nodes *)

Section resolution.
Context (ros2_json : Ros2BridgeConfig → res string).
Implicit Types (ops : gmap NodeId OperatorId) (nodes : gmap NodeId ResolvedNode).

(** Every resolved node is stored under its own identifier. *)
Definition keyed nodes : Prop := ∀ id r, nodes !! id = Some r → r_id r = id.

Lemma resolve_node_id env ops n r : resolve_node ros2_json env ops n = Ok r → r_id r = n_id n.
Proof. unfold resolve_node. intros (k & _ & [= <-])%res_bind_Ok. done. Qed.

Lemma resolve_nodes_keyed env ops l acc nodes :
  keyed acc → resolve_nodes ros2_json env ops l acc = Ok nodes → keyed nodes.
Proof.
  revert acc. induction l as [|n l IH]; intros acc Hacc; cbn; [by intros [= <-]|].
  intros (r & Hr & Hl)%res_bind_Ok. eapply IH; [|exact Hl].
  intros id r' [[<- <-]|[_ ?]]%lookup_insert_Some; [by eapply resolve_node_id|by apply Hacc].
Qed.

(** The last node of the list with an identifier decides. *)
Lemma resolve_nodes_lookup env ops l acc nodes id :
  resolve_nodes ros2_json env ops l acc = Ok nodes →
  match last (retain (λ n, bool_decide (n_id n = id)) l) with
  | Some n => ∃ r, resolve_node ros2_json env ops n = Ok r ∧ nodes !! id = Some r
  | None => nodes !! id = acc !! id
  end.
Proof.
  revert acc. induction l as [|n l IH]; intros acc; cbn [resolve_nodes]; [by intros [= <-]|].
  intros (r & Hr & Hl)%res_bind_Ok. specialize (IH _ Hl). rewrite retain_cons.
  case_bool_decide as Hid.
  - destruct (retain _ l) as [|n' l'] eqn:E.
    + cbn in *. exists r. rewrite IH, <- Hid, lookup_insert_eq. done.
    + rewrite last_cons_cons. destruct (last (n' :: l')) as [x|] eqn:El; [done|].
      by apply last_None in El.
  - destruct (last _); [done|]. by rewrite IH, lookup_insert_ne.
Qed.

Lemma resolve_keyed d nodes :
  resolve_aliases_and_set_defaults ros2_json d = Ok nodes → keyed nodes.
Proof. apply resolve_nodes_keyed. intros id r Hl. by rewrite lookup_empty in Hl. Qed.

(** *** Wiring *)

(** The output a mapping refers to exists among the resolved nodes. *)
Definition output_exists (n : ResolvedNode) (output : DataId) : Prop :=
  match r_kind n with
  | Custom c => output ∈ run_outputs (custom_run_config c)
  | Runtime ops =>
      ∃ op_id out op, output = String.append op_id (String "/" out) ∧ no_sep "/" op_id = true ∧
        validate_data_id out = Ok tt ∧
        head (retain (λ o, bool_decide (opdef_id o = op_id)) ops) = Some op ∧
        out ∈ op_outputs (opdef_config op)
  end.

Definition wired nodes (input : InputConfig) : Prop :=
  match mapping input with
  | MUser m => ∃ n, nodes !! source m = Some n ∧ output_exists n (output m)
  | MTimer _ | MLogs _ => True
  end.

Lemma find_node nodes id :
  keyed nodes → head (retain (λ n, bool_decide (r_id n = id)) (btree_iter nodes).*2) = nodes !! id.
Proof.
  intros Hk. assert (∀ n, n ∈ retain (λ n, bool_decide (r_id n = id)) (btree_iter nodes).*2 ↔
                          nodes !! id = Some n) as Hin.
  { intros n. rewrite elem_of_retain, bool_decide_eq_true, list_elem_of_fmap. split.
    - intros [Hid ([k n'] & -> & Hn)]. apply elem_of_btree_iter in Hn. cbn in *.
      by rewrite (Hk _ _ Hn) in Hid; subst.
    - intros Hn. split; [by apply Hk|]. exists (id, n). by rewrite elem_of_btree_iter. }
  destruct (retain _ _) as [|n l]; cbn.
  - destruct (nodes !! id) as [n|]; [|done]. pose proof (proj2 (Hin n) eq_refl) as Hn.
    by apply elem_of_nil in Hn.
  - symmetry. apply Hin. left.
Qed.

Lemma data_id_from_Ok s t : data_id_from s = Ok t ↔ s = t ∧ validate_data_id s = Ok tt.
Proof.
  unfold data_id_from. destruct (validate_data_id s) as [[]| |]; split; try done.
  - intros [= ->]. done.
  - by intros [-> _].
  - by intros [_ ?].
  - by intros [_ ?].
Qed.

Lemma check_input_wired input nodes :
  keyed nodes → check_input input nodes = Ok tt ↔ wired nodes input.
Proof.
  intros Hk. unfold check_input, wired. destruct (mapping input) as [| |m]; [done..|].
  rewrite find_node by done. destruct (nodes !! source m) as [n|]; [|split; [done|by intros (? & ? & _)]].
  assert (∀ P, (∃ n', Some n = Some n' ∧ P n') ↔ P n) as -> by naive_solver.
  unfold output_exists. destruct (r_kind n) as [ops|c].
  - unfold operator_output. destruct (split_once "/" (output m)) as [[a b]|] eqn:E; cbn.
    + pose proof (split_once_inv _ _ _ _ E) as Ho. split.
      * intros (out & [<- Hv]%data_id_from_Ok & Hop)%res_bind_Ok.
        destruct (head _) as [op|] eqn:Eop; [|done]. case_bool_decide; [|done].
        exists a, b, op. split_and!; try done. by eapply split_once_no_sep.
      * intros (op_id & out & op & Heq & Hns & Hv & Hop & Hin).
        rewrite Heq, split_once_app in E by done. injection E as <- <-.
        unfold data_id_from. rewrite Hv. cbn. rewrite Hop. by rewrite bool_decide_eq_true_2.
    + split; [done|]. intros (op_id & out & op & Heq & Hns & _).
      by rewrite Heq, split_once_app in E.
  - case_bool_decide; by split.
Qed.

Lemma check_inputs_wired nodes inputs :
  keyed nodes → check_inputs nodes inputs = Ok tt ↔ ∀ i, i ∈ inputs → wired nodes i.
Proof.
  intros Hk. induction inputs as [|i inputs IH]; cbn; [split; [by intros _ ? ?%elem_of_nil|done]|].
  rewrite res_bind_Ok. setoid_rewrite elem_of_cons. split.
  - intros ([] & Hi & Hl) i' [->|Hin]; [by apply check_input_wired|by apply IH].
  - intros Hall. exists tt. split; [apply check_input_wired; auto|apply IH; auto].
Qed.

Lemma check_wiring_accepts (d : Descriptor) :
  check_wiring ros2_json d = Ok tt ↔
  ∃ nodes, resolve_aliases_and_set_defaults ros2_json d = Ok nodes ∧
    ∀ id n input, nodes !! id = Some n → input ∈ node_inputs n → wired nodes input.
Proof.
  unfold check_wiring. rewrite res_bind_Ok.
  assert (∀ nodes (i : InputConfig),
    i ∈ mjoin (node_inputs <$> (btree_iter nodes).*2) ↔
    ∃ id n, nodes !! id = Some n ∧ i ∈ node_inputs n) as Hmem.
  { intros nodes i. rewrite list_elem_of_join. setoid_rewrite list_elem_of_fmap.
    setoid_rewrite list_elem_of_fmap. split.
    - intros (l & Hi & n & -> & [id n'] & -> & Hn%elem_of_btree_iter). eauto.
    - intros (id & n & Hn%elem_of_btree_iter & Hi). exists (node_inputs n). split; [done|].
      exists n. split; [done|]. by exists (id, n). }
  split; intros (nodes & Hr & Hc); exists nodes; (split; [done|]);
    apply resolve_keyed in Hr as Hk.
  - intros id n input Hn Hi. eapply check_inputs_wired; [done|exact Hc|]. apply Hmem. eauto.
  - apply check_inputs_wired; [done|]. intros i (id & n & Hn & Hi)%Hmem. eauto.
Qed.

(** [check_wiring] accepts a descriptor exactly when it resolves and every input of every
    node or operator that is mapped to another node names an output which that node, or its
    operator of the given name, declares. *)
Theorem check_wiring_spec (d : Descriptor) :
  check_wiring ros2_json d = Ok tt ↔
  ∃ nodes, resolve_aliases_and_set_defaults ros2_json d = Ok nodes ∧
    ∀ id n input, nodes !! id = Some n → input ∈ node_inputs n → wired nodes input.
Proof. apply check_wiring_accepts. Qed.

(** An input mapped to an output of a node with several operators has to name the
    operator ([node/operator/output]).  When it does not, the validation does not report an
    error: it panics, as soon as the inputs checked before it are well wired. *)
Theorem check_wiring_panics (d : Descriptor) nodes before input after m n (operators : RuntimeNode) :
  resolve_aliases_and_set_defaults ros2_json d = Ok nodes →
  mjoin (node_inputs <$> (btree_iter nodes).*2) = before ++ input :: after →
  (∀ i, i ∈ before → wired nodes i) →
  mapping input = MUser m → nodes !! source m = Some n → r_kind n = Runtime operators →
  split_once "/" (output m) = None →
  check_wiring ros2_json d = Panic.
Proof.
  intros Hr Hl Hbefore Hm Hn Hk Hs. unfold check_wiring. rewrite Hr. cbn. rewrite Hl.
  apply resolve_keyed in Hr as Hkeyed. clear Hl.
  induction before as [|i before IH]; cbn.
  - unfold check_input. rewrite Hm, find_node by done. rewrite Hn, Hk.
    unfold operator_output. by rewrite Hs.
  - rewrite (proj2 (check_input_wired i nodes Hkeyed)) by (apply Hbefore; left). cbn.
    apply IH. intros j Hj. apply Hbefore. by right.
Qed.

(** Two nodes of one identifier are not rejected: resolution keeps the last one and
    silently drops the others. *)
Theorem duplicate_node_dropped (d : Descriptor) nodes before first between second after :
  d_nodes d = before ++ first :: between ++ second :: after →
  n_id first = n_id second → Forall (λ n, n_id n ≠ n_id second) after →
  resolve_aliases_and_set_defaults ros2_json d = Ok nodes →
  ∃ r, nodes !! n_id first = Some r ∧
    resolve_node ros2_json (d_env d) (single_operator_nodes (d_nodes d)) second = Ok r.
Proof.
  intros Hd Hid Hafter Hr. unfold resolve_aliases_and_set_defaults in Hr.
  apply (resolve_nodes_lookup _ _ _ _ _ (n_id second)) in Hr.
  assert (last (retain (λ n, bool_decide (n_id n = n_id second)) (d_nodes d)) = Some second) as Hlast.
  { rewrite Hd, app_comm_cons, app_assoc, retain_app, retain_cons, bool_decide_eq_true_2 by done.
    rewrite (retain_none _ after); [by rewrite last_snoc|].
    eapply Forall_impl; [exact Hafter|]. intros n Hn. by apply bool_decide_eq_false_2. }
  rewrite Hlast in Hr. destruct Hr as (r & ? & ?). exists r. rewrite Hid. auto.
Qed.
End resolution.

(** *** Concrete descriptors *)

Definition plain_node (id : NodeId) (inputs : gmap DataId InputConfig) (outputs : gset DataId) : Node := {|
  n_id := id; n_name := None; n_description := None; n_path := Some "node"%string; n_args := None;
  n_env := None; n_operators := None; n_operator := None; n_ros2 := None; n_custom := None;
  n_outputs := outputs; n_output_types := ∅; n_output_framing := ∅; n_inputs := inputs;
  n_input_types := ∅; n_output_metadata := ∅; n_pattern := None; n_send_stdout_as := None;
  n_send_logs_as := None; n_min_log_level := None; n_max_log_size := None;
  n_max_rotated_files := None; n_build := None; n_git := None; n_branch := None; n_tag := None;
  n_rev := None; n_restart_policy := Never; n_max_restarts := 0; n_restart_delay := None;
  n_max_restart_delay := None; n_restart_window := None; n_health_check_timeout := None;
  n_module := None; n_params := ∅; n_cpu_affinity := None; n_deploy := None
|}.

Definition plain_operator (inputs : gmap DataId InputConfig) (outputs : gset DataId) : OperatorConfig := {|
  op_name := None; op_description := None; op_inputs := inputs; op_outputs := outputs;
  op_output_types := ∅; op_output_framing := ∅; op_input_types := ∅; op_output_metadata := ∅;
  op_pattern := None; op_source := SharedLibrary "lib"; op_build := None; op_send_stdout_as := None;
  op_send_logs_as := None; op_min_log_level := None; op_max_log_size := None;
  op_max_rotated_files := None
|}.

Definition runtime_node (id : NodeId) (ops : RuntimeNode) : Node :=
  let n := plain_node id ∅ ∅ in {| n with n_path := None; n_operators := Some ops |}.

Definition plain_descriptor (nodes : list Node) : Descriptor := {|
  d_nodes := nodes; d_deploy := None; d_enable_debug_inspection := false;
  d_health_check_interval := None; d_strict_types := None; d_type_rules := []; d_env := None
|}.

Definition from_node (src : NodeId) (out : DataId) : InputConfig :=
  mkInputConfig (MUser (mkUserMapping src out)) None None None.

Lemma check_wiring_panics_witness :
  let d := plain_descriptor
    [runtime_node "rt" [mkOperator "op1" (plain_operator ∅ {["image"%string]})];
     plain_node "sink" {["in"%string := from_node "rt" "image"]} ∅] in
  check_wiring (λ _, Ok EmptyString) d = Panic.
Proof.
  cbv zeta.
  eapply (check_wiring_panics (λ _, Ok EmptyString) _ _ [] (from_node "rt" "image") []
    (mkUserMapping "rt" "image") _ [mkOperator "op1" (plain_operator ∅ {["image"%string]})]).
  - vm_compute. reflexivity.
  - vm_compute. reflexivity.
  - by intros i Hi%elem_of_nil.
  - reflexivity.
  - vm_compute. reflexivity.
  - reflexivity.
  - reflexivity.
Defined.

Definition first_camera : Node := plain_node "cam" ∅ {["image"%string]}.
Definition second_camera : Node := plain_node "cam" ∅ ∅.

Lemma duplicate_node_dropped_witness :
  let d := plain_descriptor [first_camera; second_camera] in
  ∃ nodes r, resolve_aliases_and_set_defaults (λ _, Ok EmptyString) d = Ok nodes ∧
    nodes !! n_id first_camera = Some r ∧
    resolve_node (λ _, Ok EmptyString) (d_env d) (single_operator_nodes (d_nodes d)) second_camera = Ok r.
Proof.
  cbv zeta.
  destruct (is_ok_inv (resolve_aliases_and_set_defaults (λ _, Ok EmptyString)
    (plain_descriptor [first_camera; second_camera]))) as [nodes E]; [by vm_compute|].
  destruct (duplicate_node_dropped (λ _, Ok EmptyString)
    (plain_descriptor [first_camera; second_camera]) nodes
    [] first_camera [] second_camera [] eq_refl eq_refl (Forall_nil_2 _) E) as (r & H1 & H2).
  exists nodes, r. split; [exact E|]. split; [exact H1|exact H2].
Defined.
