(* ===== verification/DoraNode.v ===== *)
(** * The node's sending side

    Models [DoraNode] of [apis/rust/node/src/node/mod.rs] with the requests of
    [node/control_channel.rs]: sending outputs through the daemon or Zenoh, samples in
    vectors or shared memory, recycling of shared-memory regions by drop tokens, run-time type
    checks, closing of outputs, service requests, stream segments, and the shutdown of a node.
    The content of every region is part of the state, because receivers map the regions that
    the node writes.  Replies of the daemon, new regions and tokens, and the outcomes of Zenoh
    come from the class [NodeWorld]. *)

From Stdlib Require Import ZArith Lia.
From stdpp Require Import base gmap sets list strings sorting pretty.
From S2P Require Import Prelude Message Pending Listener Text InputMapping Descriptor Arrow EventStream.
Local Open Scope nat_scope.
Local Open Scope list_scope.

Abbreviation Bytes := (list Byte.byte) (only parsing).
Abbreviation Params := (gmap string ParameterValue) (only parsing).

(** ** Data *)

Definition ZERO_COPY_THRESHOLD : nat := 4096.
Definition MAX_CACHE_COUNT : nat := 20.
Definition MAX_CACHE_BYTES : Z := 256 * 1024 * 1024.

Inductive RuntimeTypeCheck := CheckOff | CheckWarn | CheckError.

(** [RuntimeTypeCheck::from_env], on the value of the variable if it is readable. *)
Definition runtime_type_check_from_env (value : option string) : RuntimeTypeCheck :=
  match value with
  | Some v =>
      if bool_decide (v = "error") then CheckError
      else if bool_decide (v ∈ ["1"; "warn"; "true"]) then CheckWarn
      else CheckOff
  | None => CheckOff
  end.

(** A mapped region: its identifier and size. *)
Record ShmemHandle := mkShmem { os_id : string; shmem_len : nat }.

Inductive DataSampleInner := SampleShmem (handle : ShmemHandle) | SampleVec (data : Bytes).
Record DataSample := mkSample { sample_inner : DataSampleInner; sample_len : nat }.

(** ** Streams *)

Definition SESSION_ID : string := "session_id".
Definition SEGMENT_ID : string := "segment_id".
Definition SEQ : string := "seq".
Definition FIN : string := "fin".

(** [i64] arithmetic of a release build. *)
Definition i64_wrap (z : Z) : Z := ((z + 2 ^ 63) mod 2 ^ 64 - 2 ^ 63)%Z.

Record StreamSegment := mkSegment { session_id : string; segment_id : Z; seq_number : Z }.

Definition with_session_id (session : string) : StreamSegment := mkSegment session 0 0.

Definition next_segment (s : StreamSegment) : StreamSegment :=
  mkSegment (session_id s) (i64_wrap (segment_id s + 1)) 0.

Definition chunk (fin : bool) (s : StreamSegment) : Params * StreamSegment :=
  (<[FIN := PBool fin]> (<[SEQ := PInteger (seq_number s)]> (<[SEGMENT_ID := PInteger (segment_id s)]>
     (<[SESSION_ID := PString (session_id s)]> ∅))),
   {| s with seq_number := i64_wrap (seq_number s + 1) |}).

Definition flush (s : StreamSegment) : Params * StreamSegment :=
  let '(params, s) := chunk false (next_segment s) in (<[FLUSH := PBool true]> params, s).

Section node.
Context {T : Type} `{ArrowLib T, EqDecision T}.

Record DoraNode := mkNode {
  nd_id : NodeId;
  nd_outputs : gset DataId;
  nd_output_framing : gmap DataId OutputFraming;
  sent_out_shared_memory : gmap DropToken ShmemHandle;
  (** the drop stream: tokens that wait to be received, and whether the sender is alive *)
  drop_stream : list DropToken;
  drop_stream_alive : bool;
  nd_cache : list ShmemHandle;
  (** the content of the regions the node has mapped *)
  regions : gmap string Bytes;
  zenoh_session : bool;
  zenoh_zero_copy_threshold : nat;
  zenoh_publishers : gset DataId;
  warned_unknown_output : gset DataId;
  interactive : bool;
  runtime_type_checks : option (RuntimeTypeCheck * gmap DataId T);
  (** requests sent to the daemon, with the type information of messages *)
  sent_requests : list (DaemonRequest * option (ArrowTypeInfo T));
  (** messages published by Zenoh *)
  published : list (DataId * ArrowTypeInfo T * Params * Bytes);
  regions_created : nat;
  tokens_generated : nat
}.

(** What the surroundings do: the reply to the [n]-th request, the [n]-th created region
    (identifier and content), the [n]-th token, whether Zenoh declares a publisher and takes
    the [n]-th message. *)
Class NodeWorld := {
  daemon_reply : nat → DaemonRequest → res DaemonReply;
  create_region : nat → nat → option (string * Bytes);
  generate_token : nat → DropToken;
  declare_publisher : DataId → bool;
  zenoh_put : nat → bool;
  new_request_id : nat → string
}.
Context `{NodeWorld}.

Definition NM (A : Type) : Type := DoraNode → res A * DoraNode.
#[local] Instance NM_ret : MRet NM := λ A a n, (Ok a, n).
#[local] Instance NM_bind : MBind NM := λ A B f m n,
  match m n with
  | (Ok a, n) => f a n
  | (Err e, n) => (Err e, n)
  | (Panic, n) => (Panic, n)
  end.
Definition nd_gets {A} (f : DoraNode → A) : NM A := λ n, (Ok (f n), n).
Definition nd_modify (f : DoraNode → DoraNode) : NM unit := λ n, (Ok tt, f n).
Definition nd_lift {A} (r : res A) : NM A := λ n, (r, n).

(** ** The control channel *)

Definition nd_request (request : DaemonRequest) (info : option (ArrowTypeInfo T)) : NM DaemonReply := λ n,
  (daemon_reply (length (sent_requests n)) request,
   {| n with sent_requests := sent_requests n ++ [(request, info)] |}).

Definition expect_result (what : string) (reply : DaemonReply) : res unit :=
  match reply with
  | ReplyResult result => result
  | _ => Err what
  end.

Definition report_outputs_done : NM unit :=
  reply ← nd_request ReqOutputsDone None;
  nd_lift (expect_result "unexpected outputs done reply" reply).

Definition report_closed_outputs (outputs : list DataId) : NM unit :=
  reply ← nd_request (ReqCloseOutputs outputs) None;
  nd_lift (expect_result "unexpected closed outputs reply" reply).

Definition send_message (output_id : DataId) (info : ArrowTypeInfo T) (params : Params)
    (data : option DataMessage) : NM unit :=
  reply ← nd_request (ReqSendMessage output_id (mkMetadata params) data) (Some info);
  nd_lift (match reply with ReplyEmpty => Ok tt | _ => Err "unexpected SendMessage reply" end).

(** ** Shared memory *)

(** Dropping a handle unmaps and removes its region. *)
Definition drop_handles (handles : list ShmemHandle) (n : DoraNode) : DoraNode :=
  {| n with regions := foldr (λ h m, delete (os_id h) m) (regions n) handles |}.

(** [iter().enumerate().rev().filter(..).min_by_key(..)]: the smallest region that is large
    enough, the last one among equals. *)
Fixpoint best_fit (data_len i : nat) (cache : list ShmemHandle) (best : option (nat * nat)) : option (nat * nat) :=
  match cache with
  | [] => best
  | h :: cache =>
      let better := match best with
                    | Some (_, len) => bool_decide (shmem_len h ≤ len)
                    | None => true
                    end in
      best_fit data_len (S i) cache
        (if bool_decide (data_len ≤ shmem_len h) && better then Some (i, shmem_len h) else best)
  end.

Definition allocate_shared_memory (data_len : nat) : NM ShmemHandle := λ n,
  match best_fit data_len 0 (nd_cache n) None with
  | Some (i, _) =>
      match nd_cache n !! i with
      | Some memory => (Ok memory, {| n with nd_cache := remove_at i (nd_cache n) |})
      | None => (Panic, n)
      end
  | None =>
      match create_region (regions_created n) data_len with
      | Some (id, content) =>
          let n := {| n with regions_created := S (regions_created n) |} in
          if bool_decide (data_len ≤ length content)
          then (Ok (mkShmem id (length content)), {| n with regions := <[id := content]> (regions n) |})
          else (Panic, n)
      | None => (Err "failed to allocate shared memory", {| n with regions_created := S (regions_created n) |})
      end
  end.

Definition allocate_data_sample (data_len : nat) : NM DataSample :=
  n ← nd_gets id;
  if bool_decide (ZERO_COPY_THRESHOLD ≤ data_len) && negb (interactive n) && negb (zenoh_session n) then
    memory ← allocate_shared_memory data_len;
    mret (mkSample (SampleShmem memory) data_len)
  else mret (mkSample (SampleVec (replicate data_len Byte.x00)) data_len).

(** A sample that is not sent is dropped, and its region with it. *)
Definition sample_handles (sample : option DataSample) : list ShmemHandle :=
  match sample_inner <$> sample with Some (SampleShmem handle) => [handle] | _ => [] end.

Definition or_drop {A} (handles : list ShmemHandle) (m : NM A) : NM A := λ n,
  match m n with
  | (Ok a, n) => (Ok a, n)
  | (r, n) => (r, drop_handles handles n)
  end.

(** Running [data(&mut sample)] on the bytes of a sample.  The closure has a mutable slice and
    cannot change the number of bytes. *)
Definition on_slice {A} (data : Bytes → res (A * Bytes)) (slice : Bytes) : res (A * Bytes) :=
  '(a, filled) ← data slice;
  if decide (length filled = length slice) then Ok (a, filled) else Panic.

Definition fill_sample {A} (data : Bytes → res (A * Bytes)) (sample : DataSample) : NM (A * DataSample) :=
  match sample_inner sample with
  | SampleVec bytes =>
      '(a, filled) ← nd_lift (on_slice data (take (sample_len sample) bytes));
      mret (a, mkSample (SampleVec (filled ++ drop (sample_len sample) bytes)) (sample_len sample))
  | SampleShmem handle => λ n,
      let content := default [] (regions n !! os_id handle) in
      match on_slice data (take (sample_len sample) content) with
      | Ok (a, filled) =>
          (Ok (a, sample),
           {| n with regions := <[os_id handle := filled ++ drop (sample_len sample) content]> (regions n) |})
      | Err e => (Err e, drop_handles [handle] n)
      | Panic => (Panic, drop_handles [handle] n)
      end
  end.

(** [DataSample::finalize]. *)
Definition finalize (sample : DataSample) : NM (option DataMessage * option (ShmemHandle * DropToken)) :=
  match sample_inner sample with
  | SampleShmem handle => λ n,
      let token := generate_token (tokens_generated n) in
      (Ok (Some (DMSharedMemory (os_id handle) (Z.of_nat (sample_len sample)) token), Some (handle, token)),
       {| n with tokens_generated := S (tokens_generated n) |})
  | SampleVec bytes => mret (Some (DMVec bytes), None)
  end.

(** The oldest regions are dropped beyond the count; all of them beyond the byte budget. *)
Definition add_to_cache (memory : ShmemHandle) (n : DoraNode) : DoraNode :=
  let cache := nd_cache n ++ [memory] in
  let excess := length cache - MAX_CACHE_COUNT in
  let n := drop_handles (take excess cache) n in
  let cache := drop excess cache in
  if (MAX_CACHE_BYTES <? Z.of_nat (sum_list_with shmem_len cache))%Z
  then let n := drop_handles cache n in {| n with nd_cache := [] |}
  else {| n with nd_cache := cache |}.

Definition finished_token (token : DropToken) (n : DoraNode) : DoraNode :=
  match sent_out_shared_memory n !! token with
  | Some region =>
      add_to_cache region {| n with sent_out_shared_memory := delete token (sent_out_shared_memory n) |}
  | None => n
  end.

Definition handle_finished_drop_tokens : NM unit := λ n,
  let tokens := drop_stream n in
  let n := foldl (λ n t, finished_token t n) {| n with drop_stream := [] |} tokens in
  (if drop_stream_alive n then Ok tt
   else Err "event stream was closed before sending all expected drop tokens", n).

(** ** Sending *)

Definition validate_output (output_id : DataId) : NM bool := λ n,
  if negb (bool_decide (output_id ∈ nd_outputs n)) && negb (interactive n)
  then (Ok false, {| n with warned_unknown_output := {[output_id]} ∪ warned_unknown_output n |})
  else (Ok true, n).

(** The publisher of an output is declared with its first message. *)
Definition zenoh_publish (output_id : DataId) (info : ArrowTypeInfo T) (params : Params) (data : Bytes) : NM unit := λ n,
  let declared := bool_decide (output_id ∈ zenoh_publishers n) || declare_publisher output_id in
  if declared then
    let n := {| n with zenoh_publishers := {[output_id]} ∪ zenoh_publishers n |} in
    if zenoh_put (length (published n))
    then (Ok tt, {| n with published := published n ++ [(output_id, info, params, data)] |})
    else (Err "zenoh publish failed", n)
  else (Err "failed to declare zenoh publisher", n).

Definition via_zenoh (n : DoraNode) (data : option DataMessage) : option Bytes :=
  match data with
  | Some (DMVec bytes) =>
      if zenoh_session n && bool_decide (bytes ≠ []) && bool_decide (zenoh_zero_copy_threshold n ≤ length bytes)
      then Some bytes else None
  | _ => None
  end.

Definition send_output_sample (output_id : DataId) (info : ArrowTypeInfo T) (params : Params)
    (sample : option DataSample) : NM unit :=
  n ← nd_gets id;
  or_drop (sample_handles sample)
    (if negb (interactive n) && negb (zenoh_session n) then handle_finished_drop_tokens else mret tt);;
  '(data, shmem) ← match sample with Some sample => finalize sample | None => mret (None, None) end;
  zenoh_published ←
    match via_zenoh n data with
    | Some bytes => λ n, match zenoh_publish output_id info params bytes n with
                         | (Ok _, n) => (Ok true, n)
                         | (_, n) => (Ok false, n)
                         end
    | None => mret false
    end;
  if zenoh_published : bool then mret tt
  else
    or_drop (sample_handles sample) (send_message output_id info params data);;
    nd_modify (λ n,
      match shmem with
      | Some (memory, token) =>
          {| n with sent_out_shared_memory := <[token := memory]> (sent_out_shared_memory n) |}
      | None => n
      end).

Definition send_typed_output (output_id : DataId) (info : ArrowTypeInfo T) (params : Params) (data_len : nat)
    (data : Bytes → res (unit * Bytes)) : NM unit :=
  valid ← validate_output output_id;
  if negb valid then mret tt
  else
    sample ← allocate_data_sample data_len;
    '(_, sample) ← fill_sample data sample;
    send_output_sample output_id info params (Some sample).

Definition send_output_raw (output_id : DataId) (params : Params) (data_len : nat)
    (data : Bytes → res (unit * Bytes)) : NM unit :=
  send_typed_output output_id (info_byte_array data_len) params data_len data.

(** [copy_from_slice] panics if the lengths differ. *)
Definition copy_from_slice (source target : Bytes) : res (unit * Bytes) :=
  if decide (length source = length target) then Ok (tt, source) else Panic.

Definition send_output_bytes (output_id : DataId) (params : Params) (data_len : nat) (data : Bytes) : NM unit :=
  valid ← validate_output output_id;
  if negb valid then mret tt
  else send_output_raw output_id params data_len (copy_from_slice data).

(** The run-time type check of an output. *)
Definition check_output_type (n : DoraNode) (output_id : DataId) (params : Params) (actual : T) : res unit :=
  match runtime_type_checks n ≫= λ '(mode, checks), (λ expected, (mode, expected)) <$> checks !! output_id with
  | Some (mode, expected) =>
      if negb (carries_pattern_correlation params) && bool_decide (actual ≠ expected) then
        match mode with
        | CheckError => Err "output: unexpected Arrow type"
        | CheckWarn => Ok tt
        | CheckOff => Panic
        end
      else Ok tt
  | None => Ok tt
  end.

Definition send_output (output_id : DataId) (params : Params) (a : ArrayData T) : NM unit :=
  valid ← validate_output output_id;
  if negb valid then mret tt
  else
    n ← nd_gets id;
    nd_lift (check_output_type n output_id params (data_type a));;
    match default Raw (nd_output_framing n !! output_id) with
    | Raw =>
        sample ← allocate_data_sample (required_data_size a);
        '(info, sample) ← fill_sample (λ target, copy_array_into_sample target a) sample;
        send_output_sample output_id info params (Some sample)
    | ArrowIpc =>
        ipc_buf ← nd_lift (ipc_write a);
        sample ← allocate_data_sample (length ipc_buf);
        '(_, sample) ← fill_sample (copy_from_slice ipc_buf) sample;
        send_output_sample output_id
          (mkInfo T (data_type a) (len a) (null_count a) None 0 [] [] None (Some (compute_schema_hash (data_type a))))
          (<[FRAMING := PString FRAMING_ARROW_IPC]> params) (Some sample)
    end.

Definition send_service_request (k : nat) (output_id : DataId) (params : Params) (a : ArrayData T) : NM string :=
  let request_id := new_request_id k in
  send_output output_id (<[REQUEST_ID := PString request_id]> params) a;;
  mret request_id.

Definition send_stream_chunk (output_id : DataId) (segment : StreamSegment) (fin : bool) (a : ArrayData T) :
    NM StreamSegment := λ n,
  let '(params, segment) := chunk fin segment in
  match send_output output_id params a n with
  | (Ok _, n) => (Ok segment, n)
  | (Err e, n) => (Err e, n)
  | (Panic, n) => (Panic, n)
  end.

(** Outputs are removed one by one; the daemon is told if all of them are known. *)
Fixpoint remove_outputs (outputs_ids : list DataId) : NM unit :=
  match outputs_ids with
  | [] => mret tt
  | output_id :: outputs_ids => λ n,
      if bool_decide (output_id ∈ nd_outputs n)
      then remove_outputs outputs_ids {| n with nd_outputs := nd_outputs n ∖ {[output_id]} |}
      else (Err "unknown output", n)
  end.

Definition close_outputs (outputs_ids : list DataId) : NM unit :=
  remove_outputs outputs_ids;;
  report_closed_outputs outputs_ids.

(** ** The end of a node *)

(** The wait for tokens in [Drop]: the stream yields tokens, then fails or is silent for two
    seconds.  A handle that is taken out of the table is dropped. *)
Fixpoint await_tokens (tokens : list DropToken) (n : DoraNode) : DoraNode :=
  if decide (sent_out_shared_memory n = ∅) then n
  else
    match tokens with
    | [] => n
    | token :: tokens =>
        await_tokens tokens
          (match sent_out_shared_memory n !! token with
           | Some h => drop_handles [h] {| n with sent_out_shared_memory := delete token (sent_out_shared_memory n) |}
           | None => n
           end)
    end.

(** [Drop] up to the end of the wait. *)
Definition drop_wait (late_tokens : list DropToken) (n : DoraNode) : DoraNode :=
  let n := {| n with zenoh_publishers := ∅; zenoh_session := false |} in
  let outputs := btree_elems (nd_outputs n) in
  let n := (report_closed_outputs outputs {| n with nd_outputs := ∅ |}).2 in
  await_tokens (drop_stream n ++ late_tokens) n.

(** The fields of the node are dropped after [Drop], and with them the regions that messages
    still use and those in the cache. *)
Definition drop_node (late_tokens : list DropToken) (n : DoraNode) : DoraNode :=
  let n := (report_outputs_done (drop_wait late_tokens n)).2 in
  drop_handles ((map_to_list (sent_out_shared_memory n)).*2 ++ nd_cache n)
    {| n with sent_out_shared_memory := ∅; nd_cache := [] |}.

(** ** What is sent *)

(** In the mode [error], an array of another type than the declared one is refused before
    anything happens: no request, no message, no region, no token. *)
Theorem type_error_not_sent n output_id params a checks expected :
  output_id ∈ nd_outputs n → runtime_type_checks n = Some (CheckError, checks) →
  checks !! output_id = Some expected → data_type a ≠ expected → carries_pattern_correlation params = false →
  ∃ e, send_output output_id params a n = (Err e, n).
Proof.
  intros Ho Hc He Hne Hp. eexists. unfold send_output, validate_output, mbind, NM_bind.
  rewrite bool_decide_true by done. simpl. unfold check_output_type. rewrite Hc. simpl. rewrite He, Hp. simpl.
  by rewrite bool_decide_true.
Qed.

(** If one of the outputs to be closed is unknown, the outputs before it are gone from the
    node although the daemon was told nothing, so that its receivers wait for them. *)
Theorem close_outputs_unreported n known unknown rest :
  known ∈ nd_outputs n → unknown ∉ nd_outputs n →
  ∃ e n', close_outputs (known :: unknown :: rest) n = (Err e, n') ∧
    known ∉ nd_outputs n' ∧ sent_requests n' = sent_requests n.
Proof.
  intros Hk Hu. eexists _, _. split.
  - unfold close_outputs, mbind, NM_bind. simpl. rewrite bool_decide_true by done. simpl.
    rewrite bool_decide_false by set_solver. done.
  - simpl. split; [set_solver|done].
Qed.

(** However the node ends, its outputs are reported as closed and the daemon is told that
    no output follows, in this order. *)
Theorem drop_node_reports late_tokens n :
  sent_requests (drop_node late_tokens n) =
    sent_requests n ++ [(ReqCloseOutputs (btree_elems (nd_outputs n)), None); (ReqOutputsDone, None)].
Proof.
  assert (∀ ts n, sent_requests (await_tokens ts n) = sent_requests n) as Hwait.
  { induction ts as [|t ts IH]; intros m; simpl; case_decide; [done..|]. rewrite IH. by case_match. }
  assert (∀ m, sent_requests (report_outputs_done m).2 = sent_requests m ++ [(ReqOutputsDone, None)]) as Hdone.
  { intros m. unfold report_outputs_done, mbind, NM_bind. simpl. repeat (case_match; simplify_eq/=); done. }
  unfold drop_node. cbn [drop_handles sent_requests]. rewrite Hdone. unfold drop_wait. rewrite Hwait.
  unfold report_closed_outputs, mbind, NM_bind. simpl. repeat (case_match; simplify_eq/=); by rewrite <- app_assoc.
Qed.

End node.

(** ** Stream positions *)

Inductive SegmentOp := GChunk (fin : bool) | GFlush | GNext.

Definition segment_step (s : StreamSegment) (op : SegmentOp) : list Params * StreamSegment :=
  match op with
  | GChunk fin => let '(params, s) := chunk fin s in ([params], s)
  | GFlush => let '(params, s) := flush s in ([params], s)
  | GNext => ([], next_segment s)
  end.

Fixpoint segment_run (s : StreamSegment) (ops : list SegmentOp) : list Params :=
  match ops with
  | [] => []
  | op :: ops => let '(params, s) := segment_step s op in params ++ segment_run s ops
  end.

(** The position of a message in its stream. *)
Definition position (params : Params) : option (Z * Z) :=
  match params !! SEGMENT_ID, params !! SEQ with
  | Some (PInteger segment), Some (PInteger seq) => Some (segment, seq)
  | _, _ => None
  end.
Definition before (p q : Z * Z) : Prop := (p.1 < q.1 ∨ p.1 = q.1 ∧ p.2 < q.2)%Z.

Definition at_or_after (s : StreamSegment) (p : Z * Z) : Prop :=
  (segment_id s < p.1 ∨ segment_id s = p.1 ∧ seq_number s ≤ p.2)%Z.

Definition emits (op : SegmentOp) : option bool :=
  match op with GChunk _ => Some false | GFlush => Some true | GNext => None end.
Definition asks_flush (params : Params) : bool := bool_decide (get_bool_param params FLUSH = Some true).

Lemma i64_wrap_small z : (0 ≤ z < 2 ^ 63)%Z → i64_wrap z = z.
Proof. intros Hz. unfold i64_wrap. rewrite Z.mod_small; lia. Qed.

Lemma segment_run_positions ops s :
  (0 ≤ segment_id s)%Z → (0 ≤ seq_number s)%Z →
  (segment_id s + Z.of_nat (length ops) < 2 ^ 63)%Z → (seq_number s + Z.of_nat (length ops) < 2 ^ 63)%Z →
  ∃ ps, position <$> segment_run s ops = Some <$> ps ∧ StronglySorted before ps ∧ Forall (at_or_after s) ps.
Proof.
  revert s. induction ops as [|op ops IH]; intros s Hseg Hseq Hb Hb'; [by exists []; repeat constructor|].
  cbn [length] in *. rewrite Nat2Z.inj_succ in *.
  assert (i64_wrap (segment_id s + 1) = segment_id s + 1)%Z as Hs1 by (apply i64_wrap_small; lia).
  assert (i64_wrap (seq_number s + 1) = seq_number s + 1)%Z as Hq1 by (apply i64_wrap_small; lia).
  destruct op as [fin| |]; cbn [segment_run segment_step].
  - destruct (IH {| s with seq_number := i64_wrap (seq_number s + 1) |}) as (ps & Hps & Hsort & Hall);
      cbn [segment_id seq_number]; [lia..|].
    exists ((segment_id s, seq_number s) :: ps). split_and!; [by apply (f_equal2 cons)| |].
    + constructor; [done|]. eapply Forall_impl; [exact Hall|]. unfold at_or_after, before. simpl. lia.
    + constructor; [unfold at_or_after; simpl; lia|]. eapply Forall_impl; [exact Hall|].
      unfold at_or_after. simpl. lia.
  - destruct (IH (mkSegment (session_id s) (i64_wrap (segment_id s + 1)) (i64_wrap (0 + 1)))) as (ps & Hps & Hsort & Hall);
      cbn [segment_id seq_number]; [rewrite ?i64_wrap_small; lia..|].
    exists ((segment_id s + 1, 0) :: ps)%Z.
    split_and!; [apply (f_equal2 cons); [unfold position; simpl; by rewrite Hs1|exact Hps]| |].
    + constructor; [done|]. eapply Forall_impl; [exact Hall|]. unfold at_or_after, before. simpl.
      rewrite (i64_wrap_small (0 + 1)) by lia. lia.
    + constructor; [unfold at_or_after; simpl; lia|]. eapply Forall_impl; [exact Hall|].
      unfold at_or_after. simpl. lia.
  - destruct (IH (next_segment s)) as (ps & Hps & Hsort & Hall); simpl; [lia..|].
    exists ps. split_and!; [done..|]. eapply Forall_impl; [exact Hall|]. unfold at_or_after. simpl. lia.
Qed.

Lemma segment_run_flush ops s : asks_flush <$> segment_run s ops = omap emits ops.
Proof.
  revert s. induction ops as [|op ops IH]; intros s; [done|].
  destruct op; simpl; rewrite ?fmap_app, IH; reflexivity.
Qed.

(** The messages of a stream have strictly increasing positions (segment, then sequence
    number), for any mix of chunks, flushes and new segments within the range of the
    counters, and exactly the messages of [flush] ask the receiver's queue for a flush. *)
Theorem stream_positions_increase session ops :
  (Z.of_nat (length ops) < 2 ^ 63)%Z →
  let messages := segment_run (with_session_id session) ops in
  (∃ ps, position <$> messages = Some <$> ps ∧ StronglySorted before ps) ∧
  asks_flush <$> messages = omap emits ops.
Proof.
  intros Hlen messages. split; [|apply segment_run_flush].
  destruct (segment_run_positions ops (with_session_id session)) as (ps & ? & ? & _); simpl; [lia..|eauto].
Qed.

Lemma stream_positions_increase_witness :
  let messages := segment_run (with_session_id "s") [GChunk false; GChunk true; GFlush; GNext; GChunk false] in
  position <$> messages = Some <$> [(0, 0); (0, 1); (1, 0); (2, 0)]%Z ∧
  asks_flush <$> messages = [false; false; true; false].
Proof.
  intros messages.
  destruct (stream_positions_increase "s" [GChunk false; GChunk true; GFlush; GNext; GChunk false]) as [_ Hf].
  - simpl. lia.
  - split; [vm_compute; reflexivity|exact Hf].
Defined.

(** ** A sample node *)

#[local] Existing Instance sample_arrow.
#[export] Instance sample_type_eq : EqDecision sample_type.
Proof. solve_decision. Defined.

(** A daemon that accepts everything. *)
#[local] Instance sample_world : NodeWorld := {|
  daemon_reply _ request :=
    Ok (match request with ReqSendMessage _ _ _ => ReplyEmpty | _ => ReplyResult (Ok tt) end);
  create_region i len := Some (pretty i, replicate len Byte.x00);
  generate_token i := N.of_nat i;
  declare_publisher _ := true;
  zenoh_put _ := true;
  new_request_id k := pretty k
|}.

Definition sample_node (checks : option (RuntimeTypeCheck * gmap DataId sample_type)) : DoraNode :=
  mkNode "camera" {[ "image" ]} ∅ ∅ [] true [] ∅ false 4096 ∅ ∅ false checks [] [] 0 0.

Lemma type_error_not_sent_witness :
  let n := sample_node (Some (CheckError, {[ "image" := SUtf8 ]})) in
  ∃ e, send_output "image" ∅ sample_struct n = (Err e, n).
Proof.
  intros n. apply (type_error_not_sent n "image" ∅ sample_struct {[ "image" := SUtf8 ]} SUtf8).
  - set_solver.
  - reflexivity.
  - reflexivity.
  - discriminate.
  - reflexivity.
Defined.

Lemma close_outputs_unreported_witness :
  ∃ e n', close_outputs ["image"; "depth"] (sample_node None) = (Err e, n') ∧
    "image" ∉ nd_outputs n' ∧ sent_requests n' = [].
Proof.
  destruct (close_outputs_unreported (sample_node None) "image" "depth" []) as (e & n' & Hc & Hn & Hs).
  - set_solver.
  - simpl. set_solver.
  - exists e, n'. split; [exact Hc|]. split; [exact Hn|exact Hs].
Defined.
