(* ===== verification/Regions.v ===== *)
(** * Shared-memory regions of a node

    Ownership of the regions of [DoraNode]: every region belongs to the cache, to a message
    that was sent, or to a sample that is being filled, and to one of them only.  It follows
    that a region that was sent is not written to, recycled or removed before its drop token
    has come back or the node that sent it has been dropped. *)

From Stdlib Require Import ZArith Lia.
From stdpp Require Import base gmap sets list strings pretty.
From S2P Require Import Prelude Message Scheduler Pending Listener Descriptor Arrow EventStream DoraNode.
Local Open Scope nat_scope.
Local Open Scope list_scope.

#[local] Existing Instance NM_ret.
#[local] Existing Instance NM_bind.

Section regions.
Context {T : Type} `{ArrowLib T, EqDecision T, NodeWorld}.
Implicit Types n : DoraNode (T := T).

(** Regions get new identifiers, and tokens are unique. *)
Class NodeLaws : Prop := {
  create_fresh i j k l id c c' :
    create_region i k = Some (id, c) → create_region j l = Some (id, c') → i = j;
  token_fresh i j : generate_token i = generate_token j → i = j
}.

(** ** The invariant *)

(** A handle in use outside of the node's tables, and the token it is to be sent with. *)
Abbreviation Loan := (ShmemHandle * option DropToken)%type.

Definition used n (id : string) : Prop :=
  ∃ k l c, k < regions_created n ∧ create_region k l = Some (id, c).
Definition generated n (t : DropToken) : Prop := ∃ k, k < tokens_generated n ∧ generate_token k = t.

Definition handles n (loans : list Loan) : list ShmemHandle :=
  nd_cache n ++ (map_to_list (sent_out_shared_memory n)).*2 ++ loans.*1.
Definition owned n (loans : list Loan) : list string := os_id <$> handles n loans.

(** The region of a handle exists and has the size of the handle. *)
Definition mapped n (h : ShmemHandle) : Prop := ∃ c, regions n !! os_id h = Some c ∧ length c = shmem_len h.

Definition tokens n (loans : list Loan) : list DropToken :=
  (map_to_list (sent_out_shared_memory n)).*1 ++ omap snd loans.

Record Inv n (loans : list Loan) : Prop := {
  inv_owned : NoDup (owned n loans);
  inv_used : ∀ id, id ∈ owned n loans → used n id;
  inv_tokens : NoDup (tokens n loans);
  inv_generated : ∀ t, t ∈ tokens n loans → generated n t;
  inv_mapped : ∀ h, h ∈ handles n loans → mapped n h
}.

Definition cache_ok n : Prop :=
  length (nd_cache n) ≤ MAX_CACHE_COUNT ∧ (Z.of_nat (sum_list_with shmem_len (nd_cache n)) ≤ MAX_CACHE_BYTES)%Z.

(** What an operation leaves alone: sent regions whose token has not come back, loans, and the
    bounds of the cache. *)
Record keeps (loans : list Loan) n n' : Prop := {
  keeps_sent : ∀ t h, sent_out_shared_memory n !! t = Some h → t ∉ drop_stream n →
    sent_out_shared_memory n' !! t = Some h ∧ regions n' !! os_id h = regions n !! os_id h;
  keeps_loans : ∀ l, l ∈ loans → regions n' !! os_id l.1 = regions n !! os_id l.1;
  keeps_stream : ∀ t, t ∈ drop_stream n' → t ∈ drop_stream n;
  keeps_cache : cache_ok n → cache_ok n'
}.

Lemma keeps_refl loans n : keeps loans n n.
Proof. by split. Qed.

Lemma keeps_trans loans n n' n'' : keeps loans n n' → keeps loans n' n'' → keeps loans n n''.
Proof.
  intros [S1 L1 D1 C1] [S2 L2 D2 C2]. split.
  - intros t h Ht Hd. destruct (S1 t h Ht Hd) as [Ht' Hr']. destruct (S2 t h Ht') as [? Hr'']; [naive_solver|].
    split; [done|]. congruence.
  - intros l Hl. rewrite L2, L1; done.
  - auto.
  - auto.
Qed.

Lemma used_mono n n' id : regions_created n ≤ regions_created n' → used n id → used n' id.
Proof. intros Hle (k & l & c & Hk & Hc). exists k, l, c. split; [lia|done]. Qed.
Lemma generated_mono n n' t : tokens_generated n ≤ tokens_generated n' → generated n t → generated n' t.
Proof. intros Hle (k & Hk & Hg). exists k. split; [lia|done]. Qed.

(** The invariant is kept if handles move between the tables or are given up. *)
Lemma Inv_shrink n n' loans loans' :
  (∃ rest, handles n loans ≡ₚ handles n' loans' ++ rest) → (∃ rest, tokens n loans ≡ₚ tokens n' loans' ++ rest) →
  regions_created n ≤ regions_created n' → tokens_generated n ≤ tokens_generated n' →
  (∀ h, h ∈ handles n' loans' → regions n' !! os_id h = regions n !! os_id h) →
  Inv n loans → Inv n' loans'.
Proof.
  intros (rest & Hp) (rest' & Hp') Hr Ht Hreg [Ho Hu Hs Hl Hm]. unfold owned in *. rewrite Hp in Ho. rewrite Hp' in Hs.
  rewrite fmap_app in Ho. apply NoDup_app in Ho as [Ho _]. apply NoDup_app in Hs as [Hs _]. split; [done| |done| |].
  - intros id Hid. apply (used_mono n); [done|]. apply Hu. rewrite Hp, fmap_app. set_solver.
  - intros t Hin. apply (generated_mono n); [done|]. apply Hl. rewrite Hp'. set_solver.
  - intros h Hh. unfold mapped. rewrite Hreg by done. apply Hm. rewrite Hp. set_solver.
Qed.

Lemma handles_mono n loans loans' rest : loans ≡ₚ loans' ++ rest → handles n loans ≡ₚ handles n loans' ++ rest.*1.
Proof. intros Hp. unfold handles. by rewrite Hp, !fmap_app, !app_assoc. Qed.

Lemma tokens_mono n loans loans' rest : loans ≡ₚ loans' ++ rest → tokens n loans ≡ₚ tokens n loans' ++ omap snd rest.
Proof. intros Hp. unfold tokens. rewrite Hp, omap_app. by rewrite app_assoc. Qed.

Lemma Inv_mono n loans loans' : (∃ rest, loans ≡ₚ loans' ++ rest) → Inv n loans → Inv n loans'.
Proof.
  intros (rest & Hp). apply Inv_shrink; [|..|done|done|done].
  - eexists. by apply handles_mono.
  - eexists. by apply tokens_mono.
Qed.

(** The same tables, after attempts to create a region or new tokens. *)
Lemma Inv_counted n n' loans :
  nd_cache n' = nd_cache n → sent_out_shared_memory n' = sent_out_shared_memory n →
  regions_created n ≤ regions_created n' → tokens_generated n ≤ tokens_generated n' →
  (∀ h, h ∈ handles n' loans → regions n' !! os_id h = regions n !! os_id h) → Inv n loans → Inv n' loans.
Proof.
  intros Ec Es Hr Ht. apply Inv_shrink; [..|done|done]; exists []; unfold handles, tokens;
    by rewrite ?Ec, Es, app_nil_r.
Qed.

(** An operation that takes loans [pre] and ends with loans [post], whatever else is lent. *)
Definition sound {A} (m : NM A) (pre : list Loan) (post : A → list Loan) : Prop :=
  ∀ n rest, Inv n (pre ++ rest) →
  keeps rest n (m n).2 ∧
  match (m n).1 with
  | Ok a => Inv (m n).2 (post a ++ rest)
  | _ => Inv (m n).2 rest
  end.

Lemma sound_bind {A B} (m : NM A) (f : A → NM B) pre mid post :
  sound m pre mid → (∀ a, sound (f a) (mid a) post) → sound (m ≫= f) pre post.
Proof.
  intros Hm Hf n rest Hn. destruct (Hm n rest Hn) as [Hk Hi]. unfold mbind, NM_bind.
  destruct (m n) as [[a|e|] n1]; simpl in *; [|done..].
  destruct (Hf a n1 rest Hi) as [Hk' Hi']. split; [by eapply keeps_trans|done].
Qed.

Lemma sound_ret {A} (a : A) pre post : pre = post a → sound (mret a) pre post.
Proof. intros -> n rest Hn. split; [apply keeps_refl|done]. Qed.

Lemma sound_ret_bind {A B} (a : A) (k : A → NM B) pre post : sound (k a) pre post → sound (mret a ≫= k) pre post.
Proof. done. Qed.

Lemma sound_ext {A} (m m' : NM A) pre post : (∀ n, m n = m' n) → sound m pre post → sound m' pre post.
Proof. intros E Hm n rest Hn. rewrite <- E. by apply Hm. Qed.

(** Operations that do not touch the tables of regions. *)
Definition same_tables n n' : Prop :=
  nd_cache n' = nd_cache n ∧ sent_out_shared_memory n' = sent_out_shared_memory n ∧ regions n' = regions n ∧
  drop_stream n' = drop_stream n ∧ regions_created n' = regions_created n ∧ tokens_generated n' = tokens_generated n.

Lemma Inv_same n n' loans : same_tables n n' → Inv n loans → Inv n' loans.
Proof.
  intros (Ec & Es & E & _ & Er & Et). apply Inv_counted; [done|done|by rewrite Er|by rewrite Et|by rewrite E].
Qed.

Lemma sound_same {A} (m : NM A) pre : (∀ n, same_tables n (m n).2) → sound m pre (λ _, pre).
Proof.
  intros Hm n rest Hn. specialize (Hm n). split.
  - destruct Hm as (Ec & Es & Er & Ed & _). split; unfold cache_ok; rewrite ?Es, ?Er, ?Ed, ?Ec; naive_solver.
  - apply (Inv_same _ _ _ Hm) in Hn. destruct (m n) as [[] n']; simpl in *; [done|..];
      (eapply Inv_mono; [|done]; exists pre; by rewrite Permutation_app_comm).
Qed.

Lemma sound_frame {A} (m : NM A) pre post extra :
  sound m pre post → sound m (pre ++ extra) (λ a, post a ++ extra).
Proof.
  intros Hm n rest Hn. rewrite <- app_assoc in Hn. destruct (Hm n (extra ++ rest) Hn) as [[Ks Kl Kd Kc] Hi]. split.
  - split; [done| |done|done]. intros l Hl. apply Kl. set_solver.
  - destruct (m n) as [[a| |] n']; simpl in *; [by rewrite <- app_assoc|..];
      (eapply Inv_mono; [|done]; exists extra; by rewrite Permutation_app_comm).
Qed.

(** ** Operations on regions *)

Lemma drop_handles_lookup hs n id :
  id ∉ os_id <$> hs → regions (drop_handles hs n) !! id = regions n !! id.
Proof.
  unfold drop_handles. simpl. induction hs as [|h hs IH]; simpl; [done|].
  intros [Hne Hid]%not_elem_of_cons. rewrite lookup_delete_ne by done. auto.
Qed.

Lemma handles_lend n pre rest : handles n (pre ++ rest) ≡ₚ pre.*1 ++ handles n rest.
Proof. unfold handles. rewrite fmap_app. solve_Permutation. Qed.

Lemma lent_disjoint n pre rest h : Inv n (pre ++ rest) → h ∈ handles n rest → os_id h ∉ os_id <$> pre.*1.
Proof.
  intros [Ho _ _ _ _] Hh. unfold owned in Ho. rewrite handles_lend, fmap_app in Ho.
  apply NoDup_app in Ho as (_ & Hd & _). intros Hin. apply (Hd _ Hin). apply list_elem_of_fmap. by exists h.
Qed.

Lemma drop_handles_Inv n pre rest : Inv n (pre ++ rest) → Inv (drop_handles pre.*1 n) rest.
Proof.
  intros Hn. eapply (Inv_counted n); [done..| |].
  - intros h Hh. apply drop_handles_lookup. by eapply lent_disjoint.
  - eapply Inv_mono; [|done]. exists pre. by rewrite Permutation_app_comm.
Qed.

Lemma handles_sent n loans t h : sent_out_shared_memory n !! t = Some h → h ∈ handles n loans.
Proof.
  intros Ht. unfold handles. rewrite !elem_of_app. right; left.
  apply list_elem_of_fmap. exists (t, h). split; [done|]. by apply elem_of_map_to_list.
Qed.

Lemma handles_loan n loans l : l ∈ loans → l.1 ∈ handles n loans.
Proof.
  intros Hl. unfold handles. rewrite !elem_of_app. right; right. apply list_elem_of_fmap. by exists l.
Qed.

Lemma owned_handle n loans h : h ∈ handles n loans → os_id h ∈ owned n loans.
Proof. intros Hh. apply list_elem_of_fmap. by exists h. Qed.

(** Writing to or removing regions that no message and no other loan has. *)
Lemma keeps_private loans rest n n' :
  Inv n (loans ++ rest) →
  sent_out_shared_memory n' = sent_out_shared_memory n → drop_stream n' = drop_stream n →
  (cache_ok n → cache_ok n') →
  (∀ id, id ∉ os_id <$> nd_cache n → id ∉ os_id <$> loans.*1 → regions n' !! id = regions n !! id) →
  keeps rest n n'.
Proof.
  intros Hn Es Ed Ec Hr.
  assert (∀ h, h ∈ (map_to_list (sent_out_shared_memory n)).*2 ++ rest.*1 →
    regions n' !! os_id h = regions n !! os_id h) as Hsame.
  { intros h Hh. apply Hr.
    - destruct Hn as [Ho _ _ _ _]. unfold owned, handles in Ho. rewrite fmap_app in Ho.
      apply NoDup_app in Ho as (_ & Hd & _). intros Hin. apply (Hd _ Hin). apply list_elem_of_fmap.
      exists h. set_solver.
    - eapply lent_disjoint; [done|]. unfold handles. set_solver. }
  split; [|intros l Hl|by rewrite Ed|done].
  - intros t h Ht _. rewrite Es. split; [done|]. apply Hsame, elem_of_app. left.
    apply list_elem_of_fmap. exists (t, h). split; [done|]. by apply elem_of_map_to_list.
  - apply Hsame, elem_of_app. right. apply list_elem_of_fmap. by exists l.
Qed.

Lemma sound_or_drop {A} hs (m : NM A) pre :
  sound m [] (λ _, []) → pre.*1 = hs → sound (or_drop hs m) pre (λ _, pre).
Proof.
  intros Hm <- n rest Hn. destruct (Hm n (pre ++ rest) Hn) as [Hk Hi]. unfold or_drop.
  assert (keeps rest n (m n).2) as Hk'.
  { destruct Hk as [Ks Kl Kd Kc]. split; [done| |done|done]. intros l Hl. apply Kl. set_solver. }
  assert (Inv (m n).2 (pre ++ rest)) as Hi' by by destruct (m n) as [[] ?].
  assert (keeps rest (m n).2 (drop_handles pre.*1 (m n).2) ∧ Inv (drop_handles pre.*1 (m n).2) rest) as [Hd Hdi].
  { split.
    - eapply keeps_private; [done|done|done|done|]. intros id _ Hid. by apply drop_handles_lookup.
    - by apply drop_handles_Inv. }
  destruct (m n) as [[a| |] n1]; simpl in *; (split; [by (eapply keeps_trans; done) || done|done]).
Qed.

Lemma sound_drop hs pre : pre.*1 = hs → sound (λ n, (Ok tt, drop_handles hs n)) pre (λ _, []).
Proof.
  intros <- n rest Hn. simpl. split.
  - eapply keeps_private; [done|done|done|done|]. intros id _ Hid. by apply drop_handles_lookup.
  - by apply drop_handles_Inv.
Qed.

Context `{!NodeLaws}.

Lemma create_unused n l id c : create_region (regions_created n) l = Some (id, c) → ¬ used n id.
Proof. intros Hc (k & l' & c' & Hk & Hc'). assert (k = regions_created n) by by eapply create_fresh. lia. Qed.

Lemma handles_cons n h t loans : handles n ((h, t) :: loans) ≡ₚ h :: handles n loans.
Proof. apply (handles_lend n [(h, t)]). Qed.

Lemma Inv_created n id c l rest :
  create_region (regions_created n) l = Some (id, c) → Inv n rest →
  Inv {| n with regions := <[id := c]> (regions n); regions_created := S (regions_created n) |}
      ((mkShmem id (length c), None) :: rest).
Proof.
  intros Hc Hn. pose proof (create_unused n _ _ _ Hc) as Hfresh.
  set (n' := {| n with regions := _; regions_created := _ |}).
  assert (∀ h, h ∈ handles n rest → os_id h ≠ id) as Hne.
  { intros h Hh%(owned_handle n rest) <-. by apply Hfresh, Hn. }
  assert (Inv n' rest) as Hn'.
  { eapply Inv_counted; [..|exact Hn]; simpl; [done|done|lia|lia|]. intros h Hh.
    apply lookup_insert_ne. intros E. by apply (Hne h). }
  destruct Hn as [_ Hu _ _ _]. destruct Hn' as [Ho' Hu' Hs' Hl' Hm']. unfold owned in *. split; unfold owned.
  - rewrite handles_cons. apply NoDup_cons. split; [intros Hin; by apply Hfresh, Hu|done].
  - intros id'. rewrite handles_cons. intros [->|Hin]%elem_of_cons; [|by apply Hu'].
    exists (regions_created n), l, c. simpl. split; [lia|done].
  - done.
  - done.
  - intros h. rewrite handles_cons. intros [->|Hin]%elem_of_cons; [|by apply Hm'].
    exists c. split; [|done]. apply lookup_insert_eq.
Qed.

Lemma cache_ok_removed n i : cache_ok n → cache_ok {| n with nd_cache := remove_at i (nd_cache n) |}.
Proof.
  unfold cache_ok, remove_at. cbn [nd_cache]. intros [Hl Hs].
  destruct (decide (i < length (nd_cache n))) as [Hi|Hi].
  - destruct (lookup_lt_is_Some_2 _ _ Hi) as [h Hh]. rewrite <- (take_drop_middle _ _ _ Hh) in Hl, Hs.
    rewrite length_app, sum_list_with_app in *. simpl in *. split; lia.
  - rewrite drop_ge, app_nil_r, take_ge by lia. done.
Qed.

Lemma sound_allocate_shared_memory data_len : sound (allocate_shared_memory data_len) [] (λ h, [(h, None)]).
Proof.
  intros n rest Hn. pose proof Hn as [_ Hu _ _ _]. unfold allocate_shared_memory. simpl in *.
  destruct (best_fit data_len 0 (nd_cache n) None) as [[i len]|].
  - destruct (nd_cache n !! i) as [h|] eqn:Hi; [|by split; [apply keeps_refl|]]. simpl.
    split; [split; [done..|by apply cache_ok_removed]|].
    eapply (Inv_shrink n _ rest); [|by exists []; rewrite app_nil_r|done|done|done|done].
    exists []. rewrite app_nil_r. unfold handles. simpl.
    rewrite <- (remove_at_snoc_perm (nd_cache n) i h Hi) at 1. solve_Permutation.
  - assert (∀ n', nd_cache n' = nd_cache n → sent_out_shared_memory n' = sent_out_shared_memory n →
        regions_created n' = S (regions_created n) → tokens_generated n' = tokens_generated n →
        regions n' = regions n → Inv n' rest) as Hcount.
    { intros n' Ec Es Er Et E. eapply Inv_counted; [..|exact Hn]; [done|done|lia|lia|by rewrite E]. }
    destruct (create_region (regions_created n) data_len) as [[id content]|] eqn:Hc;
      [|split; [by split|by apply Hcount]].
    case_bool_decide; [|split; [by split|by apply Hcount]]. split; [|by eapply Inv_created].
    pose proof (create_unused n _ _ _ Hc) as Hfresh. split; simpl; [|intros l Hl'|done|done].
    + intros t h Ht _. split; [done|]. apply lookup_insert_ne. intros ->. by eapply Hfresh, Hu, owned_handle, handles_sent.
    + apply lookup_insert_ne. intros ->. by eapply Hfresh, Hu, owned_handle, handles_loan.
Qed.

(** ** Samples *)

Definition sample_loans (token : option DropToken) (sample : DataSample) : list Loan :=
  (λ h, (h, token)) <$> sample_handles (Some sample).

Lemma sound_allocate_data_sample data_len : sound (allocate_data_sample data_len) [] (sample_loans None).
Proof.
  unfold allocate_data_sample. apply (sound_bind _ _ _ (λ _, [])); [by apply sound_same|]. intros n.
  destruct (_ && _ && _).
  - eapply sound_bind; [apply sound_allocate_shared_memory|]. intros h. by apply sound_ret.
  - by apply sound_ret.
Qed.

Lemma on_slice_length {A} (data : _ → res (A * _)) slice a filled :
  on_slice data slice = Ok (a, filled) → length filled = length slice.
Proof.
  unfold on_slice. destruct (data slice) as [[? ?]| |]; simpl; [|done..]. by case_decide; intros [= <- <-].
Qed.

(** Writing to a region that nothing else owns. *)
Lemma Inv_written {A} n h t rest (data : _ → res (A * _)) a filled l :
  let content := default [] (regions n !! os_id h) in
  Inv n ((h, t) :: rest) → on_slice data (take l content) = Ok (a, filled) →
  Inv {| n with regions := <[os_id h := filled ++ drop l content]> (regions n) |} ((h, t) :: rest).
Proof.
  intros content Hn Hf%on_slice_length. pose proof Hn as [Ho Hu Hs Hl Hm]. split; [done..|].
  intros h'. rewrite handles_cons. intros [->|Hin]%elem_of_cons.
  - destruct (Hm h) as (c & Hc & Hlen); [rewrite handles_cons; set_solver|].
    eexists. split; [apply lookup_insert_eq|]. subst content. rewrite Hc in *. simpl in *.
    rewrite <- Hlen, length_app, Hf, <- length_app. by rewrite take_drop.
  - destruct (Hm h') as (c & Hc & Hlen); [rewrite handles_cons; set_solver|]. exists c. split; [|done].
    simpl. rewrite lookup_insert_ne; [done|].
    pose proof (lent_disjoint n [(h, t)] rest h' Hn Hin) as Hd. simpl in Hd. set_solver.
Qed.

Lemma sound_fill_sample {A} (data : _ → res (A * _)) sample :
  sound (fill_sample data sample) (sample_loans None sample) (λ '(_, sample), sample_loans None sample).
Proof.
  unfold fill_sample. destruct sample as [[h|v] l]; simpl.
  - intros n rest Hn. destruct (on_slice data _) as [[a filled]| |] eqn:E; simpl;
      [|by apply (sound_drop [h] [(h, None)])..].
    split; [|by eapply Inv_written].
    eapply (keeps_private [(h, None)]); [done|done|done|done|]. intros id _ Hid. simpl.
    apply lookup_insert_ne. set_solver.
  - apply (sound_bind _ _ _ (λ _, [])); [by apply sound_same|]. intros [a filled]. by apply sound_ret.
Qed.

(** A sample gets its token when it is finalized. *)
Lemma sound_finalize {B} h l (k : _ → NM B) post :
  (∀ token, sound (k (Some (DMSharedMemory (os_id h) (Z.of_nat l) token), Some (h, token))) [(h, Some token)] post) →
  sound (finalize (mkSample (SampleShmem h) l) ≫= k) [(h, None)] post.
Proof.
  intros Hk n rest Hn. unfold mbind, NM_bind, finalize. cbn [sample_inner].
  set (token := generate_token (tokens_generated n)). set (n' := {| n with tokens_generated := _ |}).
  assert (¬ generated n token) as Hfresh.
  { intros (j & Hj & Hg). apply token_fresh in Hg. lia. }
  destruct (Hk token n' rest) as [[Ks Kl Kd Kc] Hi]; [|by split].
  destruct Hn as [Ho Hu Ht Hg Hm]. split.
  - done.
  - done.
  - change (NoDup (tokens n (((h, Some token) :: nil) ++ rest))). unfold tokens in *. simpl in *.
    rewrite <- Permutation_middle. apply NoDup_cons. split; [|done]. intros Hin. by apply Hfresh, Hg.
  - intros t Hin. assert (t = token ∨ t ∈ tokens n rest) as [->|Hin'].
    { unfold tokens in *. simpl in Hin. set_solver. }
    + exists (tokens_generated n). simpl. split; [lia|done].
    + eapply generated_mono; [|by apply Hg]. simpl. lia.
  - done.
Qed.

(** A message that was sent keeps its region until the token comes back. *)
Lemma sound_sent h token :
  sound (nd_modify (λ n, {| n with sent_out_shared_memory := <[token := h]> (sent_out_shared_memory n) |}))
    [(h, Some token)] (λ _, []).
Proof.
  intros n rest Hn. pose proof Hn as [_ _ Ht _ _]. simpl in *.
  assert (sent_out_shared_memory n !! token = None) as Hnone.
  { destruct (_ !! token) as [h'|] eqn:Heq; [|done]. unfold tokens in Ht. apply NoDup_app in Ht as (_ & Ht & _).
    exfalso. apply (Ht token); simpl; [|set_solver]. apply list_elem_of_fmap. exists (token, h').
    split; [done|]. by apply elem_of_map_to_list. }
  split.
  - split; simpl; [|done..]. intros t h' Ht' _. split; [|done]. rewrite lookup_insert_ne; [done|congruence].
  - eapply (Inv_shrink n); [..|exact Hn]; [| |done|done|done]; exists []; rewrite app_nil_r; unfold handles, tokens; simpl;
      rewrite map_to_list_insert by done; simpl; solve_Permutation.
Qed.

(** ** Regions that come back *)

Lemma add_to_cache_fields h n :
  sent_out_shared_memory (add_to_cache h n) = sent_out_shared_memory n ∧
  drop_stream (add_to_cache h n) = drop_stream n ∧ drop_stream_alive (add_to_cache h n) = drop_stream_alive n ∧
  regions_created (add_to_cache h n) = regions_created n ∧ tokens_generated (add_to_cache h n) = tokens_generated n ∧
  (∃ evicted, nd_cache n ++ [h] = evicted ++ nd_cache (add_to_cache h n) ∧
     ∀ id, id ∉ os_id <$> evicted → regions (add_to_cache h n) !! id = regions n !! id) ∧
  cache_ok (add_to_cache h n).
Proof.
  unfold add_to_cache. set (cache := nd_cache n ++ [h]). set (k := length cache - MAX_CACHE_COUNT).
  assert (take k cache ++ drop k cache = cache) as Hsplit by apply take_drop.
  case_match; simpl; (split_and!; [done..| |]).
  - exists cache. rewrite app_nil_r. split; [done|]. intros id Hid. rewrite <- Hsplit, fmap_app in Hid.
    apply not_elem_of_app in Hid as [Ht Hd].
    pose proof (drop_handles_lookup (drop k cache) (drop_handles (take k cache) n) id Hd) as E.
    rewrite (drop_handles_lookup _ _ _ Ht) in E. exact E.
  - unfold cache_ok. simpl. split; [lia|done].
  - exists (take k cache). split; [done|]. intros id Hid. exact (drop_handles_lookup _ _ _ Hid).
  - unfold cache_ok. simpl. split; [rewrite length_drop; lia|by apply Z.ltb_ge].
Qed.

Lemma add_to_cache_sound h t n loans :
  Inv n ((h, t) :: loans) → keeps loans n (add_to_cache h n) ∧ Inv (add_to_cache h n) loans.
Proof.
  intros Hn. destruct (add_to_cache_fields h n) as (Es & Ed & _ & Er & Et & (evicted & Ec & Hr) & Hok).
  assert (h :: nd_cache n ≡ₚ evicted ++ nd_cache (add_to_cache h n)) as Hp.
  { rewrite <- Ec. by rewrite Permutation_cons_append. }
  assert (handles n ((h, t) :: loans) ≡ₚ evicted ++ handles (add_to_cache h n) loans) as Hh.
  { rewrite handles_cons. unfold handles. by rewrite Es, app_comm_cons, Hp, <- app_assoc. }
  split.
  - eapply (keeps_private [(h, t)]); [done|done|done|done|]. intros id Hc Hid. apply Hr.
    assert (id ∉ os_id <$> h :: nd_cache n) as Hno by set_solver. rewrite Hp, fmap_app in Hno. set_solver.
  - eapply (Inv_shrink n _ ((h, t) :: loans)); [| |by rewrite Er|by rewrite Et| |done].
    + exists evicted. rewrite Hh. apply Permutation_app_comm.
    + unfold tokens. rewrite Es. simpl. destruct t as [t|]; [exists [t]; solve_Permutation|].
      exists []. by rewrite app_nil_r.
    + intros h' Hh'. apply Hr. destruct Hn as [Ho _ _ _ _]. unfold owned in Ho. rewrite Hh, fmap_app in Ho.
      apply NoDup_app in Ho as (_ & Hd & _). intros Hin. apply (Hd _ Hin), list_elem_of_fmap. by exists h'.
Qed.

Lemma sent_lent n loans t h :
  Inv n loans → sent_out_shared_memory n !! t = Some h →
  Inv {| n with sent_out_shared_memory := delete t (sent_out_shared_memory n) |} ((h, Some t) :: loans).
Proof.
  intros Hn Ht. eapply (Inv_shrink n); [..|exact Hn]; [| |done|done|done]; exists []; rewrite app_nil_r; unfold handles, tokens; simpl;
    rewrite <- (map_to_list_delete (sent_out_shared_memory n) t h Ht); simpl; solve_Permutation.
Qed.

(** What a returned token leaves alone. *)
Lemma finished_token_sound t n loans :
  Inv n loans → drop_stream n = [] →
  let n' := finished_token t n in
  Inv n' loans ∧ drop_stream n' = [] ∧ drop_stream_alive n' = drop_stream_alive n ∧
  (∀ t' h, sent_out_shared_memory n !! t' = Some h → t' ≠ t →
     sent_out_shared_memory n' !! t' = Some h ∧ regions n' !! os_id h = regions n !! os_id h) ∧
  (∀ l, l ∈ loans → regions n' !! os_id l.1 = regions n !! os_id l.1) ∧ (cache_ok n → cache_ok n').
Proof.
  intros Hn Hempty. simpl. unfold finished_token. destruct (sent_out_shared_memory n !! t) as [h|] eqn:Ht; [|naive_solver].
  set (n1 := {| n with sent_out_shared_memory := _ |}).
  pose proof (sent_lent n loans t h Hn Ht) as Hn1. fold n1 in Hn1.
  destruct (add_to_cache_fields h n1) as (_ & Ed & Ea & _ & _ & _ & Hok).
  destruct (add_to_cache_sound h (Some t) n1 loans Hn1) as [[Ks Kl _ _] Hi].
  split_and!; [done|by rewrite Ed|done| |done|done].
  intros t' h' Ht' Hne. apply Ks; simpl; [by rewrite lookup_delete_ne|]. rewrite Hempty. set_solver.
Qed.

Lemma finished_tokens_sound ts n loans :
  Inv n loans → drop_stream n = [] →
  let n' := foldl (λ n t, finished_token t n) n ts in
  Inv n' loans ∧ drop_stream n' = [] ∧
  (∀ t h, sent_out_shared_memory n !! t = Some h → t ∉ ts →
     sent_out_shared_memory n' !! t = Some h ∧ regions n' !! os_id h = regions n !! os_id h) ∧
  (∀ l, l ∈ loans → regions n' !! os_id l.1 = regions n !! os_id l.1) ∧ (cache_ok n → cache_ok n').
Proof.
  revert n. induction ts as [|t ts IH]; intros n Hn He; simpl; [naive_solver|].
  destruct (finished_token_sound t n loans Hn He) as (Hn1 & He1 & _ & Hs1 & Hl1 & Hc1).
  destruct (IH _ Hn1 He1) as (Hn2 & He2 & Hs2 & Hl2 & Hc2). split_and!; [done|done| | |auto].
  - intros t' h Ht' [Hne Hts]%not_elem_of_cons. destruct (Hs1 t' h Ht' Hne) as [Ht1 Hr1].
    destruct (Hs2 t' h Ht1 Hts) as [? ?]. split; [done|congruence].
  - intros l Hl. rewrite Hl2, Hl1; done.
Qed.

Lemma sound_handle_finished pre : sound handle_finished_drop_tokens pre (λ _, pre).
Proof.
  intros n rest Hn. unfold handle_finished_drop_tokens. set (n0 := {| n with drop_stream := [] |}).
  destruct (finished_tokens_sound (drop_stream n) n0 (pre ++ rest)) as (Hi & He & Hs & Hl & Hc); [|done|].
  { eapply Inv_counted; [..|exact Hn]; done. }
  cbn zeta. set (n' := foldl _ n0 _) in *. split.
  - split; [done|intros l Hin; apply Hl; set_solver|simpl; rewrite He; set_solver|done].
  - destruct (drop_stream_alive n'); [done|]. eapply Inv_mono; [|done]. exists pre. by rewrite Permutation_app_comm.
Qed.

(** ** Sending *)

Lemma sound_request request info pre : sound (nd_request request info) pre (λ _, pre).
Proof. by apply sound_same. Qed.

Lemma sound_lift {A} (r : res A) pre : sound (nd_lift r) pre (λ _, pre).
Proof. by apply sound_same. Qed.

Lemma sound_send_message output_id info params data pre :
  sound (send_message output_id info params data) pre (λ _, pre).
Proof. eapply sound_bind; [apply sound_request|]. intros reply. apply sound_lift. Qed.

Lemma sound_validate_output output_id pre : sound (validate_output output_id) pre (λ _, pre).
Proof. apply sound_same. intros n. unfold validate_output. by destruct (_ && _). Qed.

Lemma zenoh_publish_same output_id info params data n : same_tables n (zenoh_publish output_id info params data n).2.
Proof. unfold zenoh_publish. repeat case_match; done. Qed.

Lemma sound_send_output_sample output_id info params sample :
  sound (send_output_sample output_id info params (Some sample)) (sample_loans None sample) (λ _, []).
Proof.
  unfold send_output_sample. set (pre := sample_loans None sample).
  apply (sound_bind _ _ _ (λ _, pre)); [by apply sound_same|]. intros n0.
  apply (sound_bind _ _ _ (λ _, pre)).
  { apply sound_or_drop; [|by subst pre; destruct sample as [[] ?]].
    case_match; [apply sound_handle_finished|by apply sound_ret]. }
  intros _. subst pre. destruct sample as [[h|v] l].
  - apply sound_finalize. intros token. cbn [via_zenoh].
    apply (sound_bind _ _ _ (λ z : bool, if z then [] else [(h, Some token)])); [by apply sound_ret|].
    intros [|]; [by apply sound_ret|].
    apply (sound_bind _ _ _ (λ _, [(h, Some token)])); [|intros []; apply sound_sent].
    apply sound_or_drop; [|done]. apply sound_send_message.
  - apply sound_ret_bind. apply (sound_bind _ _ _ (λ _, [])).
    { destruct (via_zenoh _ _) as [b|]; [|by apply sound_ret]. apply sound_same. intros n.
      pose proof (zenoh_publish_same output_id info params b n) as Hs. by destruct (zenoh_publish _ _ _ _ n) as [[] ?]. }
    intros [|]; [by apply sound_ret|]. apply (sound_bind _ _ _ (λ _, [])); [|intros []; by apply sound_same].
    apply sound_or_drop; [|done]. apply sound_send_message.
Qed.

Lemma sound_send_filled {A} output_id (info : A → _) params data_len (data : _ → res (A * _)) :
  sound (sample ← allocate_data_sample data_len; '(a, sample) ← fill_sample data sample;
         send_output_sample output_id (info a) params (Some sample)) [] (λ _, []).
Proof.
  eapply sound_bind; [apply sound_allocate_data_sample|]. intros sample.
  eapply sound_bind; [apply sound_fill_sample|]. intros [a sample']. apply sound_send_output_sample.
Qed.

Lemma sound_validated {A} output_id (m : NM A) (a : A) :
  sound m [] (λ _, []) →
  sound (valid ← validate_output output_id; if negb valid then mret a else m) [] (λ _, []).
Proof.
  intros Hm. apply (sound_bind _ _ _ (λ _, [])); [apply sound_validate_output|]. intros []; [done|by apply sound_ret].
Qed.

Lemma sound_send_typed_output output_id info params data_len data :
  sound (send_typed_output output_id info params data_len data) [] (λ _, []).
Proof. apply sound_validated, (sound_send_filled _ (λ _, info)). Qed.

Lemma sound_send_output_bytes output_id params data_len data :
  sound (send_output_bytes output_id params data_len data) [] (λ _, []).
Proof. apply sound_validated, sound_send_typed_output. Qed.

Lemma sound_send_output output_id params a : sound (send_output output_id params a) [] (λ _, []).
Proof.
  apply sound_validated. apply (sound_bind _ _ _ (λ _, [])); [by apply sound_same|]. intros n0.
  apply (sound_bind _ _ _ (λ _, [])); [apply sound_lift|]. intros _. destruct (default _ _).
  - apply (sound_send_filled _ (λ info, info)).
  - apply (sound_bind _ _ _ (λ _, [])); [apply sound_lift|]. intros ipc_buf.
    apply (sound_send_filled _ (λ _, _)).
Qed.

Lemma sound_close_outputs ids : sound (close_outputs ids) [] (λ _, []).
Proof.
  apply (sound_bind _ _ _ (λ _, [])).
  - apply sound_same. induction ids as [|id ids IH]; intros n; simpl; [done|]. case_bool_decide; [|done].
    exact (IH _).
  - intros _. eapply sound_bind; [apply sound_request|]. intros reply. apply sound_lift.
Qed.

(** ** A node that runs *)

(** What a program does with its node, and tokens that arrive in between.  Samples that were
    allocated by the program stay with it until it sends or drops them. *)
Inductive NodeOp :=
  | NSendOutput (output_id : DataId) (params : Params) (a : ArrayData T)
  | NSendRaw (output_id : DataId) (info : ArrowTypeInfo T) (params : Params) (data_len : nat)
      (data : Bytes → res (unit * Bytes))
  | NSendBytes (output_id : DataId) (params : Params) (data_len : nat) (data : Bytes)
  | NServiceRequest (k : nat) (output_id : DataId) (params : Params) (a : ArrayData T)
  | NCloseOutputs (ids : list DataId)
  | NAllocate (data_len : nat)
  | NWrite (i : nat) (write : Bytes → Bytes)
  | NSendSample (i : nat) (output_id : DataId) (info : ArrowTypeInfo T) (params : Params)
  | NDropSample (i : nat)
  | NTokens (ts : list DropToken).

Record NodeRun := mkRun { run_node : DoraNode (T := T); run_samples : list DataSample }.

Definition node_step (s : NodeRun) (op : NodeOp) : NodeRun :=
  let (n, samples) := s in
  match op with
  | NSendOutput output_id params a => mkRun (send_output output_id params a n).2 samples
  | NSendRaw output_id info params data_len data =>
      mkRun (send_typed_output output_id info params data_len data n).2 samples
  | NSendBytes output_id params data_len data => mkRun (send_output_bytes output_id params data_len data n).2 samples
  | NServiceRequest k output_id params a => mkRun (send_service_request k output_id params a n).2 samples
  | NCloseOutputs ids => mkRun (close_outputs ids n).2 samples
  | NAllocate data_len =>
      match allocate_data_sample data_len n with
      | (Ok sample, n) => mkRun n (samples ++ [sample])
      | (_, n) => mkRun n samples
      end
  | NWrite i write =>
      match samples !! i with
      | Some sample =>
          match fill_sample (λ bytes, Ok (tt, write bytes)) sample n with
          | (Ok (_, sample), n) => mkRun n (remove_at i samples ++ [sample])
          | (_, n) => mkRun n (remove_at i samples)
          end
      | None => s
      end
  | NSendSample i output_id info params =>
      match samples !! i with
      | Some sample => mkRun (send_output_sample output_id info params (Some sample) n).2 (remove_at i samples)
      | None => s
      end
  | NDropSample i =>
      match samples !! i with
      | Some sample => mkRun (drop_handles (sample_handles (Some sample)) n) (remove_at i samples)
      | None => s
      end
  | NTokens ts => mkRun {| n with drop_stream := drop_stream n ++ ts |} samples
  end.

Definition node_run (s : NodeRun) (ops : list NodeOp) : NodeRun := foldl node_step s ops.

Definition RunInv (s : NodeRun) : Prop := Inv (run_node s) (run_samples s ≫= sample_loans None).

(** The tokens that arrive during an operation. *)
Definition arrivals (op : NodeOp) : list DropToken := match op with NTokens ts => ts | _ => [] end.

(** An operation keeps the invariant and the messages whose token has not come back. *)
Definition step_keeps (s : NodeRun) (op : NodeOp) (s' : NodeRun) : Prop :=
  RunInv s' ∧
  (∀ t h, sent_out_shared_memory (run_node s) !! t = Some h → t ∉ drop_stream (run_node s) →
     sent_out_shared_memory (run_node s') !! t = Some h ∧
     regions (run_node s') !! os_id h = regions (run_node s) !! os_id h) ∧
  (∀ t, t ∈ drop_stream (run_node s') → t ∈ drop_stream (run_node s) ∨ t ∈ arrivals op) ∧
  (cache_ok (run_node s) → cache_ok (run_node s')).

Lemma step_keeps_sound {A} (m : NM A) n pre samples samples' op post :
  sound m pre post → Inv n (pre ++ (samples ≫= sample_loans None)) →
  (∀ a, (m n).1 = Ok a → samples' ≫= sample_loans None ≡ₚ post a ++ (samples ≫= sample_loans None)) →
  ((∀ a, (m n).1 ≠ Ok a) → samples' ≫= sample_loans None ≡ₚ samples ≫= sample_loans None) →
  ∀ s, run_node s = n → step_keeps s op (mkRun (m n).2 samples').
Proof.
  intros Hm Hn Hok Hno s Hs. destruct (Hm n _ Hn) as [[Ks Kl Kd Kc] Hi]. unfold step_keeps, RunInv. rewrite Hs. split_and!.
  - simpl. destruct (m n) as [[a| |] n']; simpl in *.
    + eapply Inv_mono; [|done]. exists []. rewrite app_nil_r. symmetry. by apply Hok.
    + eapply Inv_mono; [|done]. exists []. rewrite app_nil_r. symmetry. by apply Hno.
    + eapply Inv_mono; [|done]. exists []. rewrite app_nil_r. symmetry. by apply Hno.
  - done.
  - auto.
  - done.
Qed.

Lemma sample_removed samples i sample :
  samples !! i = Some sample →
  samples ≫= sample_loans None ≡ₚ sample_loans None sample ++ (remove_at i samples ≫= sample_loans None).
Proof.
  intros Hi. rewrite <- (remove_at_snoc_perm samples i sample Hi) at 1. rewrite bind_app. simpl. rewrite app_nil_r.
  apply Permutation_app_comm.
Qed.

Lemma node_step_keeps s op : RunInv s → step_keeps s op (node_step s op).
Proof.
  destruct s as [n samples]. unfold RunInv. simpl. intros Hn.
  assert (∀ A (m : NM A), sound m [] (λ _, []) → step_keeps (mkRun n samples) op (mkRun (m n).2 samples)) as Hm.
  { intros A m Hm. by eapply step_keeps_sound; [exact Hm|exact Hn|..]. }
  assert (step_keeps (mkRun n samples) op (mkRun n samples)) as Hr by (split_and!; [done|done|auto|done]).
  assert (∀ i sample, samples !! i = Some sample →
    Inv n (sample_loans None sample ++ (remove_at i samples ≫= sample_loans None))) as Hs.
  { intros i sample Hi. eapply Inv_mono; [|exact Hn]. exists []. rewrite app_nil_r. by apply sample_removed. }
  destruct op as [id params a|id info params l data|id params l data|k id params a|ids|l|i write|i id info params|i|ts];
    simpl.
  - apply Hm, sound_send_output.
  - apply Hm, sound_send_typed_output.
  - apply Hm, sound_send_output_bytes.
  - apply (Hm _ (send_service_request k id params a)).
    apply (sound_bind _ _ _ (λ _, [])); [apply sound_send_output|]. intros _. by apply sound_ret.
  - apply Hm, sound_close_outputs.
  - pose proof (step_keeps_sound (allocate_data_sample l) n [] samples) as Hk.
    destruct (allocate_data_sample l n) as [[sample| |] n'] eqn:E; simpl in Hk.
    all: eapply Hk; [apply sound_allocate_data_sample|exact Hn| |naive_solver|done].
    all: intros a' [= <-]. rewrite bind_app. simpl. rewrite app_nil_r. apply Permutation_app_comm.
  - destruct (samples !! i) as [sample|] eqn:Hi; [|exact Hr].
    pose proof (step_keeps_sound (fill_sample (λ bytes, Ok (tt, write bytes)) sample) n (sample_loans None sample) (remove_at i samples)) as Hk.
    destruct (fill_sample _ sample n) as [[[[] sample']| |] n'] eqn:E; simpl in Hk.
    all: eapply Hk; [apply sound_fill_sample|by apply Hs| |naive_solver|done].
    all: intros a' [= <-]. rewrite bind_app. simpl. rewrite app_nil_r. apply Permutation_app_comm.
  - destruct (samples !! i) as [sample|] eqn:Hi; [|exact Hr].
    by eapply step_keeps_sound; [apply sound_send_output_sample|by apply Hs|..].
  - destruct (samples !! i) as [sample|] eqn:Hi; [|exact Hr].
    eapply (step_keeps_sound (λ n, (Ok tt, drop_handles (sample_handles (Some sample)) n)) n
              (sample_loans None sample) (remove_at i samples) _ _ (λ _, [])); [|by apply Hs|done..].
    apply sound_drop. by destruct sample as [[] ?].
  - split_and!; simpl.
    + eapply Inv_counted; [..|exact Hn]; done.
    + done.
    + set_solver.
    + done.
Qed.

(** Messages that were sent, over any number of operations. *)
Lemma node_run_keeps ops s t h :
  RunInv s → sent_out_shared_memory (run_node s) !! t = Some h → t ∉ drop_stream (run_node s) →
  t ∉ ops ≫= arrivals →
  RunInv (node_run s ops) ∧ sent_out_shared_memory (run_node (node_run s ops)) !! t = Some h ∧
  regions (run_node (node_run s ops)) !! os_id h = regions (run_node s) !! os_id h ∧
  t ∉ drop_stream (run_node (node_run s ops)).
Proof.
  revert s. induction ops as [|op ops IH]; intros s Hs Ht Hd Ho; simpl in *; [done|].
  destruct (node_step_keeps s op Hs) as (Hs' & Hk & Hd' & _). destruct (Hk t h Ht Hd) as [Ht' Hr'].
  destruct (IH (node_step s op)) as (? & ? & Hr'' & ?); [done|done|set_solver|set_solver|].
  split_and!; [done|done| |done]. by rewrite <- Hr'.
Qed.

Lemma node_run_Inv ops s :
  RunInv s → RunInv (node_run s ops) ∧ (cache_ok (run_node s) → cache_ok (run_node (node_run s ops))).
Proof.
  revert s. induction ops as [|op ops IH]; intros s Hs; simpl; [done|].
  destruct (node_step_keeps s op Hs) as (Hs' & _ & _ & Hc). destruct (IH _ Hs') as [? ?]. auto.
Qed.

(** A node as [DoraNode::init] makes it, with no region. *)
Definition new_node n : Prop := nd_cache n = [] ∧ sent_out_shared_memory n = ∅.

Lemma new_node_Inv n : new_node n → RunInv (mkRun n []) ∧ cache_ok n.
Proof.
  intros [Ec Es]. unfold RunInv, cache_ok. split.
  - split; unfold owned, handles, tokens; simpl; rewrite ?Ec, Es, map_to_list_empty; simpl; constructor || set_solver.
  - rewrite Ec. simpl. split; [unfold MAX_CACHE_COUNT; lia|done].
Qed.

(** ** A message in shared memory *)

Lemma best_fit_spec data_len cache i best j len :
  best_fit data_len i cache best = Some (j, len) →
  best = Some (j, len) ∨
  ∃ h, i ≤ j ∧ cache !! (j - i) = Some h ∧ shmem_len h = len ∧ data_len ≤ len.
Proof.
  revert i best. induction cache as [|h cache IH]; intros i best; simpl; [by left|].
  intros [E|(h' & Hi & Hh & Hl)]%IH.
  - destruct (bool_decide_reflect (data_len ≤ shmem_len h)); simpl in E; [|by left].
    case_match; [|by left]. injection E as <- <-. right. exists h. rewrite Nat.sub_diag. done.
  - right. exists h'. split; [lia|]. by replace (j - i) with (S (j - S i)) by lia.
Qed.

Lemma allocate_large_enough data_len n h n' :
  allocate_shared_memory data_len n = (Ok h, n') →
  data_len ≤ shmem_len h ∧ interactive n' = interactive n ∧ zenoh_session n' = zenoh_session n.
Proof.
  unfold allocate_shared_memory. destruct (best_fit _ _ _ _) as [[i len]|] eqn:E.
  - apply best_fit_spec in E as [[=]|(h' & _ & Hh & Hl & Hle)]. rewrite Nat.sub_0_r in Hh. rewrite Hh.
    intros [= <- <-]. split; [lia|done].
  - destruct (create_region _ _) as [[id c]|]; [|done]. case_bool_decide; [|done]. by intros [= <- <-].
Qed.

Lemma send_sample_shmem n rest h l output_id info params n1 content :
  Inv n ((h, None) :: rest) → interactive n = false → zenoh_session n = false →
  regions n !! os_id h = Some content →
  send_output_sample output_id info params (Some (mkSample (SampleShmem h) l)) n = (Ok tt, n1) →
  ∃ token, sent_out_shared_memory n1 !! token = Some h ∧ regions n1 !! os_id h = Some content ∧
    drop_stream n1 = [] ∧
    last (sent_requests n1) =
      Some (ReqSendMessage output_id (mkMetadata params) (Some (DMSharedMemory (os_id h) (Z.of_nat l) token)), Some info).
Proof.
  intros Hn Hi Hz Hc. unfold send_output_sample. unfold mbind at 1, NM_bind at 1. simpl. rewrite Hi, Hz. simpl.
  destruct (sound_handle_finished [] n _ Hn) as [[_ Kl _ _] _].
  specialize (Kl (h, None) ltac:(set_solver)).
  unfold mbind at 1, NM_bind at 1. unfold or_drop at 1.
  destruct (handle_finished_drop_tokens n) as [[[]| |] n2] eqn:E; [|done..]. cbn [fst snd] in Kl.
  assert (drop_stream n2 = []) as Hd2.
  { destruct (finished_tokens_sound (drop_stream n) {| n with drop_stream := [] |} ((h, None) :: rest))
      as (_ & He & _); [by eapply Inv_counted; [..|exact Hn]|done|].
    unfold handle_finished_drop_tokens in E. injection E as _ <-. done. }
  unfold mbind at 1, NM_bind at 1. simpl. unfold mbind at 1, NM_bind at 1. simpl.
  unfold mbind at 1, NM_bind at 1. unfold or_drop, send_message, mbind at 1, NM_bind at 1. simpl.
  destruct (daemon_reply _ _) as [[]| |]; simpl; intros [= <-]; simpl.
  exists (generate_token (tokens_generated n2)). split_and!; [apply lookup_insert_eq|by rewrite Kl|done|by rewrite last_snoc].
Qed.
Context `{!ArrowLaws}.

Lemma send_output_shmem n rest a output_id params n1 :
  Inv n rest → interactive n = false → zenoh_session n = false →
  output_id ∈ nd_outputs n → nd_output_framing n !! output_id = None →
  valid a → sendable a → height a ≤ MAX_TYPE_DEPTH →
  ZERO_COPY_THRESHOLD ≤ required_data_size a → (Z.of_nat (required_data_size a) ≤ u64_max)%Z →
  get_string_param params FRAMING = None →
  send_output output_id params a n = (Ok tt, n1) →
  ∃ token h info content,
    last (sent_requests n1) = Some (ReqSendMessage output_id (mkMetadata params)
      (Some (DMSharedMemory (os_id h) (Z.of_nat (required_data_size a)) token)), Some info) ∧
    sent_out_shared_memory n1 !! token = Some h ∧ regions n1 !! os_id h = Some content ∧ drop_stream n1 = [] ∧
    ∀ open_region, open_region (os_id h) = Some content →
      data_to_arrow_array open_region
        (Some (DMSharedMemory (os_id h) (Z.of_nat (required_data_size a)) token)) info params = Ok a.
Proof.
  intros Hn Hi Hz Ho Hf Hv Hs Hh Hmin Hmax Hp. unfold send_output, validate_output.
  unfold mbind at 1, NM_bind at 1. rewrite bool_decide_true, Hi by done. simpl.
  unfold mbind at 1, NM_bind at 1. simpl. unfold mbind at 1, NM_bind at 1. simpl.
  destruct (check_output_type _ _ _ _) as [[]| |]; [|done..]. rewrite Hf. simpl.
  unfold mbind at 1, NM_bind at 1, allocate_data_sample. unfold mbind at 1, NM_bind at 1. simpl.
  rewrite Hi, Hz, bool_decide_true by done. simpl. unfold mbind at 1, NM_bind at 1.
  pose proof (sound_allocate_shared_memory (required_data_size a) n rest Hn) as [_ Hal].
  destruct (allocate_shared_memory _ n) as [[h| |] n2] eqn:E; [|done..]. change (Inv n2 ((h, None) :: rest)) in Hal. simpl.
  destruct (allocate_large_enough _ _ _ _ E) as (Hlarge & Hi2 & Hz2).
  destruct (inv_mapped _ _ Hal h) as (c & Hc & Hlen); [rewrite handles_cons; set_solver|].
  unfold mbind at 1, NM_bind at 1. unfold fill_sample at 1. cbn [sample_inner sample_len]. cbn zeta.
  rewrite Hc. cbn [default from_option id].
  destruct (copied_readable a params (take (required_data_size a) c)) as (info & buf & Hcopy & Hbuf & _ & _ & Hread);
    [done|done|done|unfold ZERO_COPY_THRESHOLD in Hmin; lia|done|rewrite length_take; lia|].
  assert (on_slice (λ target, copy_array_into_sample target a) (take (required_data_size a) c) = Ok (info, buf)) as Hon.
  { unfold on_slice. rewrite Hcopy. simpl. rewrite decide_True; [done|]. rewrite length_take. lia. }
  rewrite Hon. intros Hsend.
  eapply send_sample_shmem in Hsend as (token & Hsent & Hr & Hd & Hlast).
  - exists token, h, info, (buf ++ drop (required_data_size a) c). split_and!; [done..|].
    intros open_region Hopen. rewrite <- Hbuf. by eapply Hread.
  - pose proof (Inv_written n2 h None rest (λ target, copy_array_into_sample target a) info buf
      (required_data_size a) Hal) as Hw. simpl in Hw. rewrite Hc in Hw. by apply Hw.
  - simpl. by rewrite Hi2.
  - simpl. by rewrite Hz2.
  - apply lookup_insert_eq.
Qed.

(** *** The end of a node *)

(** While the end of a node waits for tokens, the other messages keep their regions. *)
Lemma await_tokens_keeps ts n loans t h :
  Inv n loans → sent_out_shared_memory n !! t = Some h → t ∉ ts → t ∉ drop_stream n →
  Inv (await_tokens ts n) loans ∧ sent_out_shared_memory (await_tokens ts n) !! t = Some h ∧
  regions (await_tokens ts n) !! os_id h = regions n !! os_id h.
Proof.
  revert n. induction ts as [|t' ts IH]; intros n Hn Ht Hts Hd; simpl; case_decide; [done..|].
  apply not_elem_of_cons in Hts as [Hne Hts].
  destruct (sent_out_shared_memory n !! t') as [h'|] eqn:Ht'; [|by apply IH].
  set (n1 := {| n with sent_out_shared_memory := _ |}).
  destruct (sound_drop [h'] [(h', Some t')] eq_refl n1 loans (sent_lent n loans t' h' Hn Ht')) as [[Ks _ _ _] Hi].
  destruct (Ks t h) as [Hs' Hr']; [by simpl; rewrite lookup_delete_ne|done|]. simpl in Hi, Hr', Hs'.
  destruct (IH (drop_handles [h'] n1) Hi) as (Hi' & Hs'' & Hr''); [done|done|done|].
  split_and!; [done|done|]. by rewrite Hr''.
Qed.

Lemma drop_wait_keeps late n loans t h :
  Inv n loans → sent_out_shared_memory n !! t = Some h → t ∉ drop_stream n → t ∉ late →
  sent_out_shared_memory (drop_wait late n) !! t = Some h ∧ regions (drop_wait late n) !! os_id h = regions n !! os_id h.
Proof.
  intros Hn Ht Hd Hl. unfold drop_wait. set (n' := (report_closed_outputs _ _).2).
  assert (same_tables n n') as Hsame.
  { subst n'. unfold report_closed_outputs, mbind, NM_bind. simpl. repeat (case_match; simplify_eq/=); done. }
  pose proof Hsame as (_ & Es & Er & Ed & _).
  destruct (await_tokens_keeps (drop_stream n' ++ late) n' loans t h) as (_ & Hs' & Hr');
    [by eapply Inv_same|by rewrite Es|rewrite Ed; set_solver|by rewrite Ed|]. by rewrite Hr', Er.
Qed.

Lemma drop_handles_removed hs n h : h ∈ hs → regions (drop_handles hs n) !! os_id h = None.
Proof.
  unfold drop_handles. simpl. induction hs as [|x hs IH]; [by intros ?%elem_of_nil|]. intros [->|Hin]%elem_of_cons; simpl.
  - apply lookup_delete_eq.
  - apply lookup_delete_None. right. by apply IH.
Qed.

Lemma drop_node_removes late n t h :
  sent_out_shared_memory (drop_wait late n) !! t = Some h → regions (drop_node late n) !! os_id h = None.
Proof.
  intros Ht. unfold drop_node. apply drop_handles_removed, elem_of_app. left. apply list_elem_of_fmap.
  exists (t, h). split; [done|]. apply elem_of_map_to_list.
  unfold report_outputs_done, mbind, NM_bind. simpl. by repeat (case_match; simplify_eq/=).
Qed.

(** C2. A large array that a living node sends through shared memory can be read by its
    receivers.  For an output without Arrow IPC framing, a node without Zenoh session, and an
    array within the limits of the transport ([sendable], a depth of at most 32, at least
    [ZERO_COPY_THRESHOLD] bytes): the message names a region from which exactly this array is
    decoded, and this stays so whatever else the program does with the node, and also while
    the node is being dropped, as long as the drop token of the message has not come back.
    When the node is gone, so is the region, whether or not the token has come back: a
    receiver that has not mapped it by then cannot read the message. *)
Theorem sent_array_readable n0 ops output_id params a n1 :
  new_node n0 →
  let s := node_run (mkRun n0 []) ops in
  let n := run_node s in
  interactive n = false → zenoh_session n = false →
  output_id ∈ nd_outputs n → nd_output_framing n !! output_id = None →
  valid a → sendable a → height a ≤ MAX_TYPE_DEPTH →
  ZERO_COPY_THRESHOLD ≤ required_data_size a → (Z.of_nat (required_data_size a) ≤ u64_max)%Z →
  get_string_param params FRAMING = None →
  send_output output_id params a n = (Ok tt, n1) →
  ∃ token region info,
    let data := Some (DMSharedMemory region (Z.of_nat (required_data_size a)) token) in
    last (sent_requests n1) = Some (ReqSendMessage output_id (mkMetadata params) data, Some info) ∧
    ∀ ops', token ∉ ops' ≫= arrivals →
      let later := run_node (node_run (mkRun n1 (run_samples s)) ops') in
      data_to_arrow_array (λ id, regions later !! id) data info params = Ok a ∧
      ∀ late, token ∉ late →
        data_to_arrow_array (λ id, regions (drop_wait late later) !! id) data info params = Ok a ∧
        regions (drop_node late later) !! region = None.
Proof.
  intros [Hn _]%new_node_Inv s n Hi Hz Ho Hf Hv Hs Hh Hmin Hmax Hp Hsend.
  destruct (node_run_Inv ops _ Hn) as [Hs1 _]. fold s in Hs1. unfold RunInv in Hs1.
  pose proof (sound_send_output output_id params a n _ Hs1) as [_ Hinv]. rewrite Hsend in Hinv.
  destruct (send_output_shmem n _ a output_id params n1 Hs1) as (token & h & info & content & Hreq & Hsent & Hr & Hd & Hread);
    [done..|].
  exists token, (os_id h), info. split; [done|]. intros ops' Harr.
  destruct (node_run_keeps ops' (mkRun n1 (run_samples s)) token h) as (Hl & Hsl & E & Hdl);
    [done|done|simpl; rewrite Hd; set_solver|done|].
  simpl in E. split; [apply Hread; by rewrite E|]. intros late Hlate.
  destruct (drop_wait_keeps late _ _ token h Hl Hsl Hdl Hlate) as [Hsd Ed].
  split; [apply Hread; by rewrite Ed, E|]. by eapply drop_node_removes.
Qed.

(** A region that was sent belongs to the receivers until its drop token comes back:
    whatever the program does with the node in the meantime, with samples of its own and
    with other outputs, the message stays registered and the bytes of its region are those
    that were sent. *)
Theorem sent_region_stable n0 ops ops' t h :
  new_node n0 →
  let s := node_run (mkRun n0 []) ops in
  sent_out_shared_memory (run_node s) !! t = Some h →
  t ∉ drop_stream (run_node s) → t ∉ ops' ≫= arrivals →
  let s' := node_run s ops' in
  sent_out_shared_memory (run_node s') !! t = Some h ∧
  regions (run_node s') !! os_id h = regions (run_node s) !! os_id h.
Proof.
  intros [Hn _]%new_node_Inv s Ht Hd Ho s'.
  destruct (node_run_keeps ops' s t h) as (_ & Hs' & Hr' & _); [by apply node_run_Inv|done..].
Qed.

(** The cache of free regions is bounded: after any operations it has at most 20 regions
    of at most 256 MB in total. *)
Theorem cache_bounded n0 ops :
  new_node n0 →
  let n := run_node (node_run (mkRun n0 []) ops) in
  length (nd_cache n) ≤ MAX_CACHE_COUNT ∧
  (Z.of_nat (sum_list_with shmem_len (nd_cache n)) ≤ MAX_CACHE_BYTES)%Z.
Proof. intros [Hn Hc]%new_node_Inv. by apply node_run_Inv. Qed.

End regions.

(** ** A sample run *)

#[local] Existing Instance sample_arrow.
#[local] Existing Instance sample_laws.
#[local] Existing Instance sample_world.

Lemma sample_node_laws : NodeLaws.
Proof.
  split.
  - intros i j k l id c c' Hi Hj. apply (inj pretty).
    change (Some (pretty i, replicate k Byte.x00) = Some (id, c)) in Hi.
    change (Some (pretty j, replicate l Byte.x00) = Some (id, c')) in Hj. congruence.
  - intros i j Hij. change (N.of_nat i = N.of_nat j) in Hij. lia.
Qed.

Definition sample_bytes (b : Byte.byte) : ArrayData sample_type :=
  mkArray _ SUInt8 4096 0 None 0 [replicate 4096 b] [].

Lemma sent_array_readable_witness :
  ∃ n1 token region info,
    send_output "image" ∅ (sample_bytes Byte.x07) (sample_node None) = (Ok tt, n1) ∧
    let later := run_node (node_run (mkRun n1 []) [NSendOutput "image" ∅ (sample_bytes Byte.x08)]) in
    data_to_arrow_array (λ id, regions later !! id) (Some (DMSharedMemory region (Z.of_nat (required_data_size (sample_bytes Byte.x07))) token)) info ∅
    = Ok (sample_bytes Byte.x07).
Proof.
  pose proof sample_node_laws as Hlaws.
  assert ((send_output "image" ∅ (sample_bytes Byte.x07) (sample_node None)).1 = Ok tt) as Hok by (vm_compute; reflexivity).
  destruct (send_output "image" ∅ (sample_bytes Byte.x07) (sample_node None)) as [r n1] eqn:E. simpl in Hok. subst r.
  destruct (sent_array_readable (sample_node None) [] "image" ∅ (sample_bytes Byte.x07) n1)
    as (token & region & info & _ & Hread).
  - by split.
  - reflexivity.
  - reflexivity.
  - apply elem_of_singleton_2. reflexivity.
  - reflexivity.
  - repeat split; reflexivity.
  - repeat split; simpl; unfold MAX_ENTRIES; try lia; try done.
  - unfold MAX_TYPE_DEPTH. simpl. lia.
  - apply Nat.leb_le. vm_compute. reflexivity.
  - apply Z.leb_le. vm_compute. reflexivity.
  - reflexivity.
  - exact E.
  - exists n1, token, region, info. split; [done|]. refine (proj1 (Hread [NSendOutput "image" ∅ (sample_bytes Byte.x08)] _)).
    apply not_elem_of_nil.
Defined.

Definition sample_sends : list (NodeOp (T := sample_type)) :=
  [NSendOutput "image" ∅ (sample_bytes Byte.x07); NAllocate 5000; NWrite 0 (λ bytes, bytes)].

Lemma sent_region_stable_witness :
  let s := node_run (mkRun (sample_node None) []) sample_sends in
  let s' := node_run s [NDropSample 0; NSendOutput "image" ∅ (sample_bytes Byte.x08)] in
  ∃ h, sent_out_shared_memory (run_node s) !! 0%N = Some h ∧
    regions (run_node s') !! os_id h = regions (run_node s) !! os_id h.
Proof.
  pose proof sample_node_laws as Hlaws. intros s s'. exists (mkShmem "0" 4096).
  assert (sent_out_shared_memory (run_node s) !! 0%N = Some (mkShmem "0" 4096)) as Hs by (vm_compute; reflexivity).
  split; [exact Hs|].
  refine (proj2 (sent_region_stable (sample_node None) sample_sends
    [NDropSample 0; NSendOutput "image" ∅ (sample_bytes Byte.x08)] 0%N (mkShmem "0" 4096) _ Hs _ _)).
  - by split.
  - assert (drop_stream (run_node s) = []) as Hd by (vm_compute; reflexivity). fold s. rewrite Hd. apply not_elem_of_nil.
  - apply not_elem_of_nil.
Defined.

Lemma cache_bounded_witness :
  length (nd_cache (run_node (node_run (mkRun (sample_node None) []) sample_sends))) ≤ 20.
Proof.
  pose proof sample_node_laws as Hlaws.
  refine (proj1 (cache_bounded (sample_node None) sample_sends _)). by split.
Defined.
