(* ===== verification/Expand.v ===== *)
(** * Expansion of modules

    Models [libraries/core/src/descriptor/expand.rs]: module nodes of a descriptor are
    replaced by the nodes of their module files, recursively.  A path is the list of its
    components, without [.] components.  The file system is a parameter: what a path
    resolves to ([canonicalize]), and the size and parsed content of a file.  The recursion
    is limited by the code itself to [MAX_MODULE_DEPTH] levels. *)

From Stdlib Require Import ZArith Lia Ascii.
From stdpp Require Import base gmap sets list strings.
From S2P Require Import Prelude Message InputMapping Text Descriptor.
Local Open Scope list_scope.

Abbreviation Path := (list string) (only parsing).

Definition MAX_MODULE_DEPTH : nat := 8.
Definition MAX_MODULE_FILE_SIZE : Z := 1048576.
Definition MODULE_INPUT_SOURCE : string := "_mod".

Record ModuleHeader := mkModuleHeader {
  mod_name : string;
  mod_inputs : list DataId;
  mod_inputs_optional : list DataId;
  mod_outputs : list DataId
}.

Record ModuleFile := mkModuleFile {
  mf_module : ModuleHeader;
  mf_nodes : list Node;
  mf_build : option string
}.

Record ExpandedDescriptor := mkExpanded {
  ex_descriptor : Descriptor;
  ex_boundaries : gmap string (list string)
}.

(** ** Strings and paths *)

(** [Path::is_absolute] on Unix, and the check for a leading slash. *)
Definition is_absolute_any_platform (path : string) : bool := String.prefix "/" path.

Definition source_is_url (source : string) : bool :=
  String.prefix "https://" source || String.prefix "http://" source.

(** The components of a relative path, and a path as text. *)
Definition components (path : string) : Path :=
  retain (λ c, negb (bool_decide (c = EmptyString)) && negb (bool_decide (c = "."%string)))
    (split_on "/" path).
Definition path_text (p : Path) : string := String.concat "/" p.

(** [Path::starts_with] and [Path::strip_prefix]. *)
Fixpoint path_strip_prefix (base p : Path) : option Path :=
  match base, p with
  | [], _ => Some p
  | b :: base, c :: p => if bool_decide (b = c) then path_strip_prefix base p else None
  | _ :: _, [] => None
  end.
Definition path_starts_with (p base : Path) : bool :=
  match path_strip_prefix base p with Some _ => true | None => false end.

(** [Path::parent] with [expect]: the root has no parent. *)
Definition path_parent (p : Path) : res Path :=
  match p with [] => Panic | _ => Ok (removelast p) end.

(** [str::replace]: every non-overlapping occurrence from the left; [skip] bytes belong to
    the occurrence found last. *)
Fixpoint str_replace_from (pattern value : string) (skip : nat) (s : string) : string :=
  match s with
  | EmptyString => EmptyString
  | String c rest =>
      match skip with
      | S skip => str_replace_from pattern value skip rest
      | O =>
          if String.prefix pattern s
          then String.append value (str_replace_from pattern value (String.length pattern - 1) rest)
          else String c (str_replace_from pattern value O rest)
      end
  end.
Definition str_replace (s pattern value : string) : string := str_replace_from pattern value O s.

(** ** Parameters of a module *)

Definition valid_param_key (key : string) : bool :=
  string_forall (λ c, is_ascii_alphanumeric c || bool_decide (c = "_"%char)) key
  && negb (bool_decide (key = EmptyString)).

Definition substitute_params_in_str (s : string) (params : gmap string string) : string :=
  foldl (λ result '(key, value),
           str_replace result (String.append "${_param." (String.append key "}")) value)
    s (btree_iter params).

Definition substitute_params_in_node (n : Node) (params : gmap string string) : Node :=
  let env := foldl (λ env '(key, value),
                      <[String.append "PARAM_" (to_uppercase key) := EnvString value]> env)
               (default ∅ (n_env n)) (btree_iter params) in
  {| n with n_args := (λ a, substitute_params_in_str a params) <$> n_args n; n_env := Some env |}.

(** ** Inputs *)

Definition option_or {A} (x y : option A) : option A :=
  match x with Some _ => x | None => y end.

(** One input of a node inside a module; [None] when it refers to an optional input of the
    module that is not provided. *)
Definition rewrite_module_input (input : InputConfig) (module_id : string)
    (module_inputs : gmap DataId InputConfig) (inner_node_ids optional_inputs : gset string)
    : res (option InputConfig) :=
  match mapping input with
  | MTimer _ | MLogs _ => Ok (Some input)
  | MUser m =>
      if bool_decide (source m = MODULE_INPUT_SOURCE) then
        match module_inputs !! output m with
        | Some bound =>
            Ok (Some (mkInputConfig (mapping bound)
                        (option_or (queue_size input) (queue_size bound))
                        (option_or (input_timeout input) (input_timeout bound))
                        (option_or (queue_policy input) (queue_policy bound))))
        | None =>
            if bool_decide (output m ∈ optional_inputs) then Ok None
            else Err "module input reference not found in module node inputs"
        end
      else if bool_decide (source m ∈ inner_node_ids) then
        src ← node_id_from (String.append module_id (String "." (source m)));
        Ok (Some {| input with mapping := MUser (mkUserMapping src (output m)) |})
      else Ok (Some input)
  end.

(** [rewrite_inputs_map]: one input that may refer to an output of a module. *)
Definition rewrite_input (output_maps : gmap string (gmap string string)) (input : InputConfig)
    : res InputConfig :=
  match mapping input with
  | MUser m =>
      match output_maps !! source m with
      | Some omap =>
          match omap !! output m with
          | Some prefixed_node =>
              src ← node_id_from prefixed_node;
              Ok {| input with mapping := MUser (mkUserMapping src (output m)) |}
          | None => Err "module does not declare output"
          end
      | None => Ok input
      end
  | MTimer _ | MLogs _ => Ok input
  end.

(** A map rebuilt from the results for its entries, in key order. *)
Definition map_entries {V W} (f : V → res W) (m : gmap DataId V) : res (gmap DataId W) :=
  list_to_map <$> mapM (λ e : DataId * V, (λ w, (e.1, w)) <$> f e.2) (btree_iter m).

Definition rewrite_inputs_map (output_maps : gmap string (gmap string string))
    (inputs : gmap DataId InputConfig) : res (gmap DataId InputConfig) :=
  map_entries (rewrite_input output_maps) inputs.

Definition rewrite_operator (output_maps : gmap string (gmap string string)) (c : OperatorConfig)
    : res OperatorConfig :=
  inputs ← rewrite_inputs_map output_maps (op_inputs c); Ok {| c with op_inputs := inputs |}.

Definition map_option {A B} (f : A → res B) (o : option A) : res (option B) :=
  match o with Some a => Some <$> f a | None => Ok None end.

Definition rewrite_node (output_maps : gmap string (gmap string string)) (n : Node) : res Node :=
  inputs ← rewrite_inputs_map output_maps (n_inputs n);
  operators ← map_option
    (mapM (λ op, (λ c, mkOperator (opdef_id op) c) <$> rewrite_operator output_maps (opdef_config op)))
    (n_operators n);
  operator ← map_option
    (λ op, (λ c, mkSingleOperator (single_id op) c) <$> rewrite_operator output_maps (single_config op))
    (n_operator n);
  custom ← map_option
    (λ c, (λ inputs, {| c with custom_run_config :=
                          (let r := custom_run_config c in {| r with run_inputs := inputs |}) |}) <$>
            rewrite_inputs_map output_maps (run_inputs (custom_run_config c)))
    (n_custom n);
  Ok {| n with n_inputs := inputs; n_operators := operators; n_operator := operator;
               n_custom := custom |}.

Definition rewrite_external_refs (nodes : list Node) (output_maps : gmap string (gmap string string))
    : res (list Node) :=
  if bool_decide (output_maps = ∅) then Ok nodes else mapM (rewrite_node output_maps) nodes.

(** ** Modules *)

Section expand.
(** [dir.join(path).canonicalize()], and the size and the parsed content of a file. *)
Context (canonicalize : Path → string → res Path).
Context (read_file : Path → res (Z * res ModuleFile)).

Definition load_module_file (path : Path) : res ModuleFile :=
  '(len, content) ← read_file path;
  if (MAX_MODULE_FILE_SIZE <? len)%Z then Err "module file too large" else content.

(** The path of an inner node, relative to the project directory. *)
Definition resolve_inner_path (canonical_base module_dir : Path) (path : option string)
    : res (option string) :=
  match path with
  | Some p =>
      if source_is_url p || String.prefix "/" p then Ok path
      else match path_strip_prefix canonical_base (module_dir ++ components p) with
           | Some relative => Ok (Some (path_text relative))
           | None => Err "module node path resolves outside the project directory"
           end
  | None => Ok None
  end.

(** Phase 1 of [expand_module_node] on one inner node. *)
Definition prefix_node (node : Node) (file : ModuleFile) (canonical_base module_dir : Path)
    (inner : Node) : res Node :=
  let module_id := n_id node in
  let inner_node_ids : gset string := list_to_set (n_id <$> mf_nodes file) in
  let optional_inputs : gset string := list_to_set (mod_inputs_optional (mf_module file)) in
  id ← node_id_from (String.append module_id (String "." (n_id inner)));
  inputs ← map_entries
    (λ i, rewrite_module_input i module_id (n_inputs node) inner_node_ids optional_inputs)
    (n_inputs inner);
  path ← resolve_inner_path canonical_base module_dir (n_path inner);
  let n := {| inner with n_id := id; n_inputs := omap Datatypes.id inputs; n_path := path;
                         n_deploy := option_or (n_deploy inner) (n_deploy node) |} in
  let n := if bool_decide (n_params node = ∅) then n
           else substitute_params_in_node n (n_params node) in
  Ok (match mf_build file with
      | Some module_build =>
          {| n with n_build :=
               Some (match n_build n with
                     | Some existing => String.append module_build (String.append newline existing)
                     | None => module_build
                     end) |}
      | None => n
      end).

(** Phase 3: the node that produces each declared output. *)
Fixpoint build_output_map (nodes : list Node) (outputs : list DataId) (acc : gmap string string)
    : res (gmap string string) :=
  match outputs with
  | [] => Ok acc
  | o :: outputs =>
      match head (retain (λ n, bool_decide (o ∈ n_outputs n)) nodes) with
      | Some producer => build_output_map nodes outputs (<[o := n_id producer]> acc)
      | None => Err "module declares output but no inner node produces it"
      end
  end.

(** Phase 2, with [expand] for the module nodes. *)
Fixpoint expand_nested (expand : Node → gset Path → res (list Node * gmap string string * gset Path))
    (nodes : list Node) (final : list Node) (omaps : gmap string (gmap string string))
    (seen : gset Path) : res (list Node * gmap string (gmap string string) * gset Path) :=
  match nodes with
  | [] => Ok (final, omaps, seen)
  | n :: nodes =>
      match n_module n with
      | Some _ =>
          '(nested, omap, seen) ← expand n seen;
          expand_nested expand nodes (final ++ nested) (<[n_id n := omap]> omaps) seen
      | None => expand_nested expand nodes (final ++ [n]) omaps seen
      end
  end.

(** [expand_module_node] at depth [MAX_MODULE_DEPTH - levels]. *)
Fixpoint expand_module_node (levels : nat) (canonical_base base_dir : Path) (node : Node)
    (seen : gset Path) : res (list Node * gmap string string * gset Path) :=
  match levels with
  | O => Err "module nesting exceeds depth limit"
  | S levels =>
      match n_module node with
      | None => Panic
      | Some module_path =>
          if is_absolute_any_platform module_path then Err "module path must be relative" else
          canonical ← canonicalize base_dir module_path;
          if negb (path_starts_with canonical canonical_base)
          then Err "module path escapes the project directory" else
          if bool_decide (canonical ∈ seen) then Err "circular module reference detected" else
          let seen := {[canonical]} ∪ seen in
          file ← load_module_file canonical;
          module_dir ← path_parent canonical;
          if negb (forallb (λ i, bool_decide (is_Some (n_inputs node !! i))) (mod_inputs (mf_module file)))
          then Err "module declares required input but node does not provide it" else
          if negb (forallb valid_param_key (btree_keys (n_params node)))
          then Err "invalid param key" else
          prefixed ← mapM (prefix_node node file canonical_base module_dir) (mf_nodes file);
          '(final, omaps, seen) ←
            expand_nested (expand_module_node levels canonical_base module_dir) prefixed [] ∅ seen;
          final ← rewrite_external_refs final omaps;
          output_map ← build_output_map final (mod_outputs (mf_module file)) ∅;
          Ok (final, output_map, seen ∖ {[canonical]})
      end
  end.

(** The loop over the nodes of the descriptor. *)
Fixpoint expand_top (canonical_base base_dir : Path) (nodes : list Node) (flat : list Node)
    (omaps : gmap string (gmap string string)) (boundaries : gmap string (list string))
    (seen : gset Path)
    : res (list Node * gmap string (gmap string string) * gmap string (list string)) :=
  match nodes with
  | [] => Ok (flat, omaps, boundaries)
  | n :: nodes =>
      match n_module n with
      | Some _ =>
          '(expanded, omap, seen) ← expand_module_node MAX_MODULE_DEPTH canonical_base base_dir n seen;
          expand_top canonical_base base_dir nodes (flat ++ expanded) (<[n_id n := omap]> omaps)
            (<[n_id n := n_id <$> expanded]> boundaries) seen
      | None => expand_top canonical_base base_dir nodes (flat ++ [n]) omaps boundaries seen
      end
  end.

Definition has_modules (d : Descriptor) : bool :=
  existsb (λ n, bool_decide (is_Some (n_module n))) (d_nodes d).

Definition expand_modules_with_boundaries (d : Descriptor) (base_dir : Path) : res ExpandedDescriptor :=
  if negb (has_modules d) then Ok (mkExpanded d ∅)
  else
    canonical_base ← canonicalize base_dir EmptyString;
    '(flat, omaps, boundaries) ← expand_top canonical_base base_dir (d_nodes d) [] ∅ ∅ ∅;
    flat ← rewrite_external_refs flat omaps;
    if decide (NoDup (n_id <$> flat)) then Ok (mkExpanded {| d with d_nodes := flat |} boundaries)
    else Err "duplicate node ID after module expansion".

Definition expand_modules (d : Descriptor) (base_dir : Path) : res Descriptor :=
  ex_descriptor <$> expand_modules_with_boundaries d base_dir.

(** *** Checking a module file on its own *)

(** The [_mod] references of a node name declared inputs. *)
Definition mod_refs_declared (names : gset string) (n : Node) : bool :=
  forallb (λ e : DataId * InputConfig,
      match mapping e.2 with
      | MUser m => negb (bool_decide (source m = MODULE_INPUT_SOURCE)) || bool_decide (output m ∈ names)
      | MTimer _ | MLogs _ => true
      end) (btree_iter (n_inputs n)).

Fixpoint nested_outputs (module_dir : Path) (nodes : list Node) (acc : gset string)
    : res (gset string) :=
  match nodes with
  | [] => Ok acc
  | n :: nodes =>
      match n_module n with
      | None => nested_outputs module_dir nodes acc
      | Some mod_path =>
          if is_absolute_any_platform mod_path then Err "nested module path must be relative" else
          nested ← canonicalize module_dir mod_path;
          base ← canonicalize module_dir EmptyString;
          if negb (path_starts_with nested base) then Err "nested module path escapes the module directory"
          else
            file ← load_module_file nested;
            nested_outputs module_dir nodes (acc ∪ list_to_set (mod_outputs (mf_module file)))
      end
  end.

Definition check_module_file (dir : Path) (module_path : string) : res unit :=
  canonical ← canonicalize dir module_path;
  file ← load_module_file canonical;
  module_dir ← path_parent canonical;
  let names : gset string :=
    list_to_set (mod_inputs (mf_module file) ++ mod_inputs_optional (mf_module file)) in
  if negb (forallb (mod_refs_declared names) (mf_nodes file))
  then Err "node input references an undeclared module input" else
  let inner : gset string :=
    foldr (λ n acc, if bool_decide (n_module n = None) then n_outputs n ∪ acc else acc) ∅ (mf_nodes file) in
  inner_outputs ← nested_outputs module_dir (mf_nodes file) inner;
  if forallb (λ o, bool_decide (o ∈ inner_outputs)) (mod_outputs (mf_module file)) then Ok tt
  else Err "module declares output but no inner node produces it".
End expand.

(** ** What the rewriting keeps *)

(** A node after a pass that only rewrites inputs, paths, builds, environment and deployment. *)
Definition same_shape (n n' : Node) : Prop :=
  n_id n' = n_id n ∧ n_module n' = n_module n ∧ n_outputs n' = n_outputs n.

Lemma rewrite_node_shape omaps n n' : rewrite_node omaps n = Ok n' → same_shape n n'.
Proof.
  unfold rewrite_node. intros (i & _ & (o & _ & (s & _ & (c & _ & [= <-])%res_bind_Ok)%res_bind_Ok)%res_bind_Ok)%res_bind_Ok.
  done.
Qed.

Lemma rewrite_refs_shape nodes omaps nodes' :
  rewrite_external_refs nodes omaps = Ok nodes' → Forall2 same_shape nodes nodes'.
Proof.
  unfold rewrite_external_refs. case_bool_decide.
  - intros [= <-]. induction nodes; by constructor.
  - intros Hm%mapM_res_Forall2. eapply Forall2_impl; [exact Hm|]. intros ??. apply rewrite_node_shape.
Qed.

Lemma same_shape_ids nodes nodes' : Forall2 same_shape nodes nodes' → n_id <$> nodes' = n_id <$> nodes.
Proof. induction 1 as [|n n' l l' [Hid _] _ IH]; [done|]. csimpl. by rewrite IH, Hid. Qed.

Lemma same_shape_flat nodes nodes' :
  Forall2 same_shape nodes nodes' → Forall (λ n, n_module n = None) nodes →
  Forall (λ n, n_module n = None) nodes'.
Proof.
  induction 1 as [|n n' l l' (_ & Hm & _) _ IH]; intros HF; [constructor|].
  apply Forall_cons in HF as [Hn Hl]. constructor; [congruence|auto].
Qed.

(** ** What an expansion is meant to be

    The nodes that a module node stands for, with the outputs that the module declares. *)
Definition Part : Type := list Node * list DataId.

(** The first node of the list that has the output. *)
Definition first_producer (nodes : list Node) (o : DataId) (p : Node) : Prop :=
  ∃ before after, nodes = before ++ p :: after ∧ o ∈ n_outputs p ∧ ∀ q, q ∈ before → o ∉ n_outputs q.

(** An input whose source is a module names instead the node of that module which has the
    output; the output is one that the module declares.  All else is kept. *)
Definition rewired (parts : gmap string Part) (input input' : InputConfig) : Prop :=
  input' = {| input with mapping := mapping input' |} ∧
  match mapping input with
  | MUser m =>
      match parts !! source m with
      | Some part =>
          output m ∈ part.2 ∧
          ∃ p, first_producer part.1 (output m) p ∧ mapping input' = MUser (mkUserMapping (n_id p) (output m))
      | None => mapping input' = mapping input
      end
  | MTimer _ | MLogs _ => mapping input' = mapping input
  end.
Definition rewired_inputs (parts : gmap string Part) (inputs inputs' : gmap DataId InputConfig) : Prop :=
  ∀ i, option_Forall2 (rewired parts) (inputs !! i) (inputs' !! i).
Definition rewired_operator (parts : gmap string Part) (c c' : OperatorConfig) : Prop :=
  c' = {| c with op_inputs := op_inputs c' |} ∧ rewired_inputs parts (op_inputs c) (op_inputs c').
Definition rewired_custom (parts : gmap string Part) (c c' : CustomNode) : Prop :=
  c' = {| c with custom_run_config :=
            (let r := custom_run_config c in {| r with run_inputs := run_inputs (custom_run_config c') |}) |} ∧
  rewired_inputs parts (run_inputs (custom_run_config c)) (run_inputs (custom_run_config c')).

(** A node with all its inputs rewired, those of its operators included, and nothing else
    changed. *)
Definition rewired_node (parts : gmap string Part) (n n' : Node) : Prop :=
  n' = {| n with n_inputs := n_inputs n'; n_operators := n_operators n'; n_operator := n_operator n';
                 n_custom := n_custom n' |} ∧
  rewired_inputs parts (n_inputs n) (n_inputs n') ∧
  option_Forall2 (Forall2 (λ op op', opdef_id op' = opdef_id op ∧
      rewired_operator parts (opdef_config op) (opdef_config op'))) (n_operators n) (n_operators n') ∧
  option_Forall2 (λ op op', single_id op' = single_id op ∧
      rewired_operator parts (single_config op) (single_config op')) (n_operator n) (n_operator n') ∧
  option_Forall2 (rewired_custom parts) (n_custom n) (n_custom n').

(** An input of a node in the file of the module [node]: a reference to [_mod/port] becomes what
    the module node has on that port, or disappears when the port is optional and not used; a
    reference to a node of the same file gets the prefix of the module. *)
Definition inner_input (node : Node) (file : ModuleFile) (input : InputConfig) (input' : option InputConfig)
    : Prop :=
  match mapping input with
  | MUser m =>
      if decide (source m = MODULE_INPUT_SOURCE) then
        match n_inputs node !! output m with
        | Some bound =>
            input' = Some (mkInputConfig (mapping bound)
                             (option_or (queue_size input) (queue_size bound))
                             (option_or (input_timeout input) (input_timeout bound))
                             (option_or (queue_policy input) (queue_policy bound)))
        | None => output m ∈ mod_inputs_optional (mf_module file) ∧ input' = None
        end
      else if decide (source m ∈ n_id <$> mf_nodes file) then
        input' = Some {| input with mapping :=
          MUser (mkUserMapping (String.append (n_id node) (String "." (source m))) (output m)) |}
      else input' = Some input
  | MTimer _ | MLogs _ => input' = Some input
  end.

(** A node of the file as an instance of the module: its name has the prefix of the module, its
    own inputs are bound and none is lost.  The operators and the [custom] section are as in the
    file. *)
Definition inner_node (node : Node) (file : ModuleFile) (inner n : Node) : Prop :=
  n = {| inner with n_id := String.append (n_id node) (String "." (n_id inner)); n_inputs := n_inputs n;
                    n_path := n_path n; n_args := n_args n; n_env := n_env n; n_build := n_build n;
                    n_deploy := option_or (n_deploy inner) (n_deploy node) |} ∧
  ∀ i, match n_inputs inner !! i with
       | Some input => inner_input node file input (n_inputs n !! i)
       | None => n_inputs n !! i = None
       end.

(** The parts of the modules of a list of nodes, by the name of the module. *)
Definition add_part (acc : gmap string Part) (e : Node * Part) : gmap string Part :=
  match n_module e.1 with Some _ => <[n_id e.1 := e.2]> acc | None => acc end.
Definition module_parts (nodes : list Node) (parts : list Part) : gmap string Part :=
  foldl add_part ∅ (zip nodes parts).

(** A node stands for itself, a module node for its part. *)
Definition stands_for (module_part : Node → Part → Prop) (n : Node) (part : Part) : Prop :=
  match n_module n with Some _ => module_part n part | None => part = ([n], []) end.

Section specification.
Context (canonicalize : Path → string → res Path).
Context (read_file : Path → res (Z * res ModuleFile)).

(** The part of a module node, with at most [levels] modules inside each other: the instances of
    the nodes of its file, those that are modules themselves replaced by their parts, and the
    references to them rewired.  Every required input is provided, every declared output has a
    node, and all names start with that of the module. *)
Fixpoint module_part (levels : nat) (canonical_base dir : Path) (node : Node) (part : Part) : Prop :=
  match levels with
  | O => False
  | S levels =>
      ∃ path canonical file module_dir instances parts,
        n_module node = Some path ∧ canonicalize dir path = Ok canonical ∧
        path_starts_with canonical canonical_base = true ∧
        load_module_file read_file canonical = Ok file ∧ path_parent canonical = Ok module_dir ∧
        (∀ i, i ∈ mod_inputs (mf_module file) → is_Some (n_inputs node !! i)) ∧
        Forall2 (inner_node node file) (mf_nodes file) instances ∧
        Forall2 (stands_for (module_part levels canonical_base module_dir)) instances parts ∧
        Forall2 (rewired_node (module_parts instances parts)) (concat parts.*1) part.1 ∧
        part.2 = mod_outputs (mf_module file) ∧
        (∀ o, o ∈ part.2 → ∃ p, first_producer part.1 o p) ∧
        Forall (λ n, ∃ rest, n_id n = String.append (n_id node) (String "." rest)) part.1
  end.
End specification.

(** ** The rewriting of references *)

(** The output map of a module names the producers in its part. *)
Definition omap_ok (omap : gmap string string) (part : Part) : Prop :=
  ∀ o id, omap !! o = Some id → o ∈ part.2 ∧ ∃ p, first_producer part.1 o p ∧ n_id p = id.
Definition omaps_match (omaps : gmap string (gmap string string)) (parts : gmap string Part) : Prop :=
  ∀ s, option_Forall2 omap_ok (omaps !! s) (parts !! s).

Lemma omaps_match_empty : omaps_match ∅ ∅.
Proof. intros s. rewrite !lookup_empty. constructor. Qed.

Lemma omaps_match_insert omaps parts s omap part :
  omaps_match omaps parts → omap_ok omap part → omaps_match (<[s := omap]> omaps) (<[s := part]> parts).
Proof.
  intros Hm Ho t. destruct (decide (s = t)) as [<-|].
  - rewrite !lookup_insert_eq. by constructor.
  - rewrite !lookup_insert_ne by done. apply Hm.
Qed.

Lemma head_first_producer nodes o p :
  head (retain (λ n, bool_decide (o ∈ n_outputs n)) nodes) = Some p → first_producer nodes o p.
Proof.
  induction nodes as [|n nodes IH]; [done|]. rewrite retain_cons. case_bool_decide as Ho.
  - intros [= ->]. exists [], nodes. split_and!; [done..|by intros q ?%elem_of_nil].
  - intros (before & after & -> & ? & Hb)%IH. exists (n :: before), after. split_and!; [done..|].
    intros q [->|?]%elem_of_cons; auto.
Qed.

Lemma build_output_map_ok nodes outputs all acc omap :
  omap_ok acc (nodes, all) → outputs ⊆ all → build_output_map nodes outputs acc = Ok omap →
  omap_ok omap (nodes, all) ∧ ∀ o, o ∈ outputs → ∃ p, first_producer nodes o p.
Proof.
  revert acc. induction outputs as [|o outputs IH]; intros acc Hacc Hsub; cbn.
  { intros [= <-]. split; [done|]. by intros o ?%elem_of_nil. }
  destruct (head _) as [p|] eqn:E; [|done]. apply head_first_producer in E.
  intros [Hom Hall]%IH; [|..|set_solver].
  - split; [done|]. intros o' [->|?]%elem_of_cons; eauto.
  - intros o' id [[<- <-]|[_ ?]]%lookup_insert_Some; [|by apply Hacc]. cbn. split; [set_solver|eauto].
Qed.

Lemma map_entries_lookup {V W} (f : V → res W) (m : gmap DataId V) m' :
  map_entries f m = Ok m' → ∀ k, option_Forall2 (λ v w, f v = Ok w) (m !! k) (m' !! k).
Proof.
  unfold map_entries. destruct (mapM _ _) as [l| |] eqn:E; [|done..]. intros [= <-] k.
  apply mapM_res_Forall2 in E.
  assert (l.*1 = btree_keys m) as Hkeys.
  { unfold btree_keys. induction E as [|[k' v] [k'' w] l' l'' Hf _ IH]; [done|]. cbn in *.
    destruct (f v); [|done..]. injection Hf as -> ->. by rewrite IH. }
  destruct (m !! k) as [v|] eqn:Em.
  - apply elem_of_btree_iter, list_elem_of_lookup in Em as [i Hi].
    destruct (Forall2_lookup_l _ _ _ _ _ E Hi) as ([k' w] & Hi' & Hf). cbn in Hf.
    destruct (f v) as [w'| |] eqn:Ev; [|done..]. injection Hf as <- <-.
    rewrite (elem_of_list_to_map_1 l k w'); [by constructor| |by eapply list_elem_of_lookup_2].
    rewrite Hkeys. apply NoDup_btree_keys.
  - rewrite (proj1 (not_elem_of_list_to_map l k)); [constructor|]. rewrite Hkeys, elem_of_btree_keys, Em.
    by intros [? [=]].
Qed.

Section rewriting.
Context (omaps : gmap string (gmap string string)) (parts : gmap string Part).
Context (Hmatch : omaps_match omaps parts).

Lemma node_id_from_Ok s id : node_id_from s = Ok id → id = s.
Proof. unfold node_id_from. by destruct (validate_node_id s); intros; simplify_eq. Qed.

Lemma rewrite_input_rewired input input' : rewrite_input omaps input = Ok input' → rewired parts input input'.
Proof.
  unfold rewrite_input, rewired. destruct (mapping input) as [| |m] eqn:Em.
  1, 2: intros [= <-]; by destruct input.
  pose proof (Hmatch (source m)) as Hs.
  destruct (omaps !! source m) as [omap|], (parts !! source m) as [part|]; try by inversion Hs.
  - inversion Hs as [? ? Hom|]; subst. destruct (omap !! output m) as [id|] eqn:Eo; [|done].
    intros (src & ->%node_id_from_Ok & [= <-])%res_bind_Ok. split; [done|].
    destruct (Hom _ _ Eo) as (? & p & ? & <-). split; [done|]. by exists p.
  - intros [= <-]. split; [by destruct input|done].
Qed.

Lemma rewrite_inputs_rewired m m' : rewrite_inputs_map omaps m = Ok m' → rewired_inputs parts m m'.
Proof.
  intros Hm i. specialize (map_entries_lookup _ _ _ Hm i) as Hi.
  destruct Hi as [x x' ?%rewrite_input_rewired|]; by constructor.
Qed.

Lemma rewrite_operator_rewired c c' : rewrite_operator omaps c = Ok c' → rewired_operator parts c c'.
Proof. intros (inputs & ?%rewrite_inputs_rewired & [= <-])%res_bind_Ok. by split. Qed.

Lemma map_option_Ok {A B} (f : A → res B) o o' :
  map_option f o = Ok o' → option_Forall2 (λ a b, f a = Ok b) o o'.
Proof. destruct o as [a|]; cbn; [|intros [= <-]; constructor]. destruct (f a) eqn:E; [|done..]. intros [= <-]. by constructor. Qed.

Lemma fmap_res_Ok {A B} (f : A → B) (r : res A) b : f <$> r = Ok b → ∃ a, r = Ok a ∧ b = f a.
Proof. destruct r; [|done..]. intros [= <-]. eauto. Qed.

Lemma rewrite_node_rewired n n' : rewrite_node omaps n = Ok n' → rewired_node parts n n'.
Proof.
  unfold rewrite_node.
  intros (i & Hi%rewrite_inputs_rewired & (o & Ho%map_option_Ok & (s & Hs%map_option_Ok &
    (c & Hc%map_option_Ok & [= <-])%res_bind_Ok)%res_bind_Ok)%res_bind_Ok)%res_bind_Ok.
  split_and!; [done..| | |].
  - cbn. destruct Ho as [ops ops' Hops%mapM_res_Forall2|]; constructor.
    eapply Forall2_impl; [exact Hops|]. cbn. intros op op' (c' & ?%rewrite_operator_rewired & ->)%fmap_res_Ok. done.
  - cbn. destruct Hs as [op op' (c' & ?%rewrite_operator_rewired & ->)%fmap_res_Ok|]; by constructor.
  - cbn. destruct Hc as [x x' (m & ?%rewrite_inputs_rewired & ->)%fmap_res_Ok|]; by constructor.
Qed.

Lemma rewired_refl_empty n : parts = ∅ → rewired_node parts n n.
Proof.
  intros ->. assert (∀ m, rewired_inputs ∅ m m) as Hin.
  { intros m i. destruct (m !! i) as [x|]; constructor. split; [by destruct x|].
    destruct (mapping x) as [| |u]; [done..|]. by rewrite lookup_empty. }
  assert (∀ c, rewired_operator ∅ c c) as Hop by (intros []; by split).
  split_and!; [by destruct n|done|..].
  - destruct (n_operators n); constructor. by apply Forall_Forall2_diag, Forall_true.
  - destruct (n_operator n); by constructor.
  - destruct (n_custom n) as [[]|]; constructor. split; [|done]. cbn. by destruct custom_run_config.
Qed.

Lemma rewrite_refs_rewired nodes nodes' :
  rewrite_external_refs nodes omaps = Ok nodes' → Forall2 (rewired_node parts) nodes nodes'.
Proof.
  unfold rewrite_external_refs. case_bool_decide as He.
  - intros [= <-]. apply Forall_Forall2_diag, Forall_true. intros n. apply rewired_refl_empty.
    apply map_empty. intros s. specialize (Hmatch s). rewrite He, lookup_empty in Hmatch. by inversion Hmatch.
  - intros Hm%mapM_res_Forall2. eapply Forall2_impl; [exact Hm|]. apply rewrite_node_rewired.
Qed.
End rewriting.

(** ** The expansion meets the specification *)

Lemma append_dot_assoc a b c :
  String.append (String.append a (String "." b)) (String "." c)
  = String.append a (String "." (String.append b (String "." c))).
Proof.
  induction a as [|x a IH]; [done|].
  change (String x (String.append (String.append a (String "." b)) (String "." c)) =
          String x (String.append a (String "." (String.append b (String "." c))))). by rewrite IH.
Qed.

Lemma module_input_bound node file input r :
  rewrite_module_input input (n_id node) (n_inputs node) (list_to_set (n_id <$> mf_nodes file))
    (list_to_set (mod_inputs_optional (mf_module file))) = Ok r →
  inner_input node file input r.
Proof.
  unfold rewrite_module_input, inner_input. destruct (mapping input) as [| |m]; [by intros [= <-]..|].
  destruct (decide (source m = MODULE_INPUT_SOURCE)) as [Hs|Hs];
    [rewrite bool_decide_true by done|rewrite bool_decide_false by done].
  - destruct (n_inputs node !! output m); [by intros [= <-]|].
    case_bool_decide as Ho; [|done]. intros [= <-]. by rewrite elem_of_list_to_set in Ho.
  - destruct (decide (source m ∈ n_id <$> mf_nodes file)) as [Hi|Hi].
    + rewrite bool_decide_true by by apply elem_of_list_to_set.
      by intros (src & ->%node_id_from_Ok & [= <-])%res_bind_Ok.
    + rewrite bool_decide_false by by rewrite elem_of_list_to_set. by intros [= <-].
Qed.

Lemma prefix_node_inner node file cb dir inner n :
  prefix_node node file cb dir inner = Ok n → inner_node node file inner n.
Proof.
  unfold prefix_node.
  intros (id & ->%node_id_from_Ok & (inputs & Hin & (path & _ & [= <-])%res_bind_Ok)%res_bind_Ok)%res_bind_Ok.
  pose proof (map_entries_lookup _ _ _ Hin) as Hlookup.
  match goal with |- inner_node _ _ _ ?x => assert (n_inputs x = omap Datatypes.id inputs) as Hx
    by by destruct (bool_decide _), (mf_build file) end.
  split; [by destruct (bool_decide _), (mf_build file)|]. intros i. rewrite Hx, lookup_omap. cbn.
  specialize (Hlookup i). destruct (n_inputs inner !! i) as [input|], (inputs !! i) as [r|];
    try by inversion Hlookup.
  inversion Hlookup as [? ? Hr|]; subst. by apply module_input_bound.
Qed.

Lemma prefix_node_shape node file cb dir inner n :
  prefix_node node file cb dir inner = Ok n →
  n_id n = String.append (n_id node) (String "." (n_id inner)) ∧ n_module n = n_module inner.
Proof. by intros [-> _]%prefix_node_inner. Qed.

Definition prefixed_by (prefix : string) (nodes : list Node) : Prop :=
  Forall (λ n, ∃ rest, n_id n = String.append prefix (String "." rest)) nodes.

Lemma same_shape_prefixed prefix nodes nodes' :
  Forall2 same_shape nodes nodes' → prefixed_by prefix nodes → prefixed_by prefix nodes'.
Proof.
  induction 1 as [|n n' l l' [Hid _] _ IH]; intros Hp; [constructor|].
  apply Forall_cons in Hp as [[rest Hn] Hl]. constructor; [|by apply IH]. exists rest. congruence.
Qed.

(** What is proved of the expansion of one module node, for the specification [spec] of its
    part. *)
Record expansion_ok (spec : Node → Part → Prop) (node : Node) (seen : gset Path)
    (out : list Node * gmap string string * gset Path) : Prop := {
  exp_flat : Forall (λ n, n_module n = None) out.1.1;
  exp_prefix : prefixed_by (n_id node) out.1.1;
  exp_seen : out.2 = seen;
  exp_part : ∃ outputs, spec node (out.1.1, outputs) ∧ omap_ok out.1.2 (out.1.1, outputs)
}.

Lemma expand_nested_ok expand spec prefix nodes final omaps parts0 seen final' omaps' seen' :
  (∀ n seen out, expand n seen = Ok out → expansion_ok spec n seen out) →
  prefixed_by prefix nodes → Forall (λ n, n_module n = None) final → prefixed_by prefix final →
  omaps_match omaps parts0 →
  expand_nested expand nodes final omaps seen = Ok (final', omaps', seen') →
  Forall (λ n, n_module n = None) final' ∧ prefixed_by prefix final' ∧ seen' = seen ∧
  ∃ parts, Forall2 (stands_for spec) nodes parts ∧ final' = final ++ concat parts.*1 ∧
    omaps_match omaps' (foldl add_part parts0 (zip nodes parts)).
Proof.
  intros Hexp. revert final omaps parts0 seen. induction nodes as [|n nodes IH]; intros final omaps parts0 seen; cbn.
  { intros _ Hf Hp Hm [= <- <- <-]. split_and!; [done..|]. exists []. rewrite app_nil_r. by split_and!. }
  intros [[rest Hn] Hnodes]%Forall_cons Hflat Hprefix Hm. destruct (n_module n) eqn:Em.
  - intros ([[nested omap] seen1] & He & Hrest)%res_bind_Ok.
    destruct (Hexp _ _ _ He) as [Hf Hp Hs (outs & Hpart & Hom)]. cbn in *. subst seen1.
    apply (IH _ _ (<[n_id n := (nested, outs)]> parts0)) in Hrest as (? & ? & ? & parts & Hparts & -> & Hm').
    + split_and!; [done..|]. exists ((nested, outs) :: parts). split_and!.
      * constructor; [|done]. unfold stands_for. by rewrite Em.
      * cbn. by rewrite app_assoc.
      * cbn. unfold add_part at 2. cbn. by rewrite Em.
    + done.
    + by apply Forall_app.
    + apply Forall_app. split; [done|]. eapply Forall_impl; [exact Hp|]. cbn. intros x [r ->].
      rewrite Hn, append_dot_assoc. eauto.
    + by apply omaps_match_insert.
  - intros Hrest. apply (IH _ _ parts0) in Hrest as (? & ? & ? & parts & Hparts & -> & Hm');
      [|done|apply Forall_app; eauto|apply Forall_app; split; [done|]; constructor; eauto|done].
    split_and!; [done..|]. exists (([n], []) :: parts). split_and!.
    + constructor; [|done]. unfold stands_for. by rewrite Em.
    + cbn. by rewrite <- app_assoc.
    + cbn. unfold add_part at 2. cbn. by rewrite Em.
Qed.

Section expansion.
Context (canonicalize : Path → string → res Path).
Context (read_file : Path → res (Z * res ModuleFile)).
Local Notation expand_node := (expand_module_node canonicalize read_file).
Local Notation part_of := (module_part canonicalize read_file).

Lemma expand_module_node_ok levels cb dir node seen out :
  expand_node levels cb dir node seen = Ok out → expansion_ok (part_of levels cb dir) node seen out.
Proof.
  revert dir node seen out. induction levels as [|levels IH]; intros dir node seen out; cbn; [done|].
  destruct (n_module node) as [path|] eqn:Em; [|done].
  destruct (is_absolute_any_platform path); [done|].
  intros (canonical & Hcan & H1)%res_bind_Ok. destruct (path_starts_with canonical cb) eqn:Hstart; cbn in H1; [|done].
  case_bool_decide as Hseen; [done|].
  apply res_bind_Ok in H1 as (file & Hfile & H2). apply res_bind_Ok in H2 as (module_dir & Hdir & H3).
  destruct (forallb _ (mod_inputs _)) eqn:Hreq; cbn in H3; [|done]. destruct (negb _); [done|].
  apply res_bind_Ok in H3 as (prefixed & Hpre%mapM_res_Forall2 & H4).
  apply res_bind_Ok in H4 as ([[final omaps] seen1] & Hnest & H5).
  apply res_bind_Ok in H5 as (final' & Href & H6). apply res_bind_Ok in H6 as (omap & Homap & [= <-]).
  eapply (expand_nested_ok _ (part_of levels cb module_dir) (n_id node) _ _ _ ∅) in Hnest
    as (Hflat & Hprefix & -> & parts & Hparts & -> & Hm); [|by apply IH| |constructor..|apply omaps_match_empty].
  2:{ clear -Hpre. induction Hpre as [|inner n l k Hn _ IHl]; constructor; [|done].
      apply prefix_node_shape in Hn as [-> _]. eauto. }
  pose proof (rewrite_refs_rewired _ _ Hm _ _ Href) as Hrew. apply rewrite_refs_shape in Href.
  eapply (build_output_map_ok _ _ (mod_outputs (mf_module file))) in Homap as [Hom Hout]; [|by intros ??|done].
  assert (prefixed_by (n_id node) final') as Hprefix' by by eapply same_shape_prefixed.
  split; cbn; [by eapply same_shape_flat|done|set_solver|].
  exists (mod_outputs (mf_module file)). split; [|done].
  exists path, canonical, file, module_dir, prefixed, parts. split_and!; try done.
  - intros i Hi. rewrite forallb_forall in Hreq. by apply (bool_decide_eq_true_1 _), Hreq, list_elem_of_In.
  - eapply Forall2_impl; [exact Hpre|]. intros ??. apply prefix_node_inner.
Qed.

Lemma expand_top_ok cb dir nodes flat omaps parts0 bnd seen flat' omaps' bnd' :
  Forall (λ n, n_module n = None) flat → omaps_match omaps parts0 →
  expand_top canonicalize read_file cb dir nodes flat omaps bnd seen = Ok (flat', omaps', bnd') →
  Forall (λ n, n_module n = None) flat' ∧
  ∃ parts, Forall2 (stands_for (part_of MAX_MODULE_DEPTH cb dir)) nodes parts ∧
    flat' = flat ++ concat parts.*1 ∧ omaps_match omaps' (foldl add_part parts0 (zip nodes parts)).
Proof.
  revert flat omaps parts0 bnd seen. induction nodes as [|n nodes IH]; intros flat omaps parts0 bnd seen Hflat Hm;
    cbn [expand_top].
  { intros [= <- <- <-]. split; [done|]. exists []. rewrite app_nil_r. by split_and!. }
  destruct (n_module n) as [path|] eqn:Em.
  - intros ([[expanded omap] seen1] & He & Hrest)%res_bind_Ok.
    apply expand_module_node_ok in He as [Hf _ _ (outs & Hpart & Hom)]. cbn [fst snd] in *.
    apply (IH _ _ (<[n_id n := (expanded, outs)]> parts0)) in Hrest as (? & parts & Hparts & -> & Hm');
      [|by apply Forall_app|by apply omaps_match_insert].
    split; [done|]. exists ((expanded, outs) :: parts). split_and!.
    + constructor; [|done]. unfold stands_for. by rewrite Em.
    + cbn. by rewrite app_assoc.
    + cbn. unfold add_part at 2. cbn. by rewrite Em.
  - intros Hrest. apply (IH _ _ parts0) in Hrest as (? & parts & Hparts & -> & Hm'); [|apply Forall_app; auto|done].
    split; [done|]. exists (([n], []) :: parts). split_and!.
    + constructor; [|done]. unfold stands_for. by rewrite Em.
    + cbn. by rewrite <- app_assoc.
    + cbn. unfold add_part at 2. cbn. by rewrite Em.
Qed.

Lemma has_modules_false d : has_modules d = false ↔ Forall (λ n, n_module n = None) (d_nodes d).
Proof.
  unfold has_modules. induction (d_nodes d) as [|n l IH]; [by split|]. cbn.
  rewrite orb_false_iff, Forall_cons, IH, bool_decide_eq_false, eq_None_not_Some. done.
Qed.

Lemma expand_flat_id d dir :
  Forall (λ n, n_module n = None) (d_nodes d) → expand_modules canonicalize read_file d dir = Ok d.
Proof. intros Hf%has_modules_false. unfold expand_modules, expand_modules_with_boundaries. by rewrite Hf. Qed.

Lemma expand_modules_inv d dir d' :
  has_modules d = true → expand_modules canonicalize read_file d dir = Ok d' →
  Forall (λ n, n_module n = None) (d_nodes d') ∧ NoDup (n_id <$> d_nodes d') ∧
  d' = {| d with d_nodes := d_nodes d' |} ∧
  ∃ cb parts, canonicalize dir EmptyString = Ok cb ∧
    Forall2 (stands_for (part_of MAX_MODULE_DEPTH cb dir)) (d_nodes d) parts ∧
    Forall2 (rewired_node (module_parts (d_nodes d) parts)) (concat parts.*1) (d_nodes d').
Proof.
  unfold expand_modules, expand_modules_with_boundaries. intros ->. cbn [negb].
  destruct (_ ≫= _) as [out| |] eqn:E; [|done..]. intros [= <-].
  apply res_bind_Ok in E as (cb & Hcb & E). apply res_bind_Ok in E as ([[flat omaps] bnd] & Ht & E).
  apply res_bind_Ok in E as (flat' & Hr & E). destruct (decide _) as [Hnd|]; [|done].
  injection E as <-. cbn.
  apply (expand_top_ok _ _ _ _ _ ∅) in Ht as (Hf & parts & Hparts & -> & Hm);
    [|constructor|apply omaps_match_empty].
  split_and!; [|done..|].
  - eapply same_shape_flat; [by eapply rewrite_refs_shape|done].
  - exists cb, parts. split_and!; [done..|]. by eapply rewrite_refs_rewired.
Qed.

Lemma expand_modules_flat d dir d' :
  expand_modules canonicalize read_file d dir = Ok d' → Forall (λ n, n_module n = None) (d_nodes d').
Proof.
  intros Hexp. destruct (has_modules d) eqn:Em; [by eapply expand_modules_inv|].
  unfold expand_modules, expand_modules_with_boundaries in Hexp. rewrite Em in Hexp.
  injection Hexp as <-. by apply has_modules_false.
Qed.

End expansion.

(** ** What the rewriting misses *)

Lemma prefix_node_rest node file cb dir inner n :
  prefix_node node file cb dir inner = Ok n →
  n_operators n = n_operators inner ∧ n_operator n = n_operator inner ∧
  n_custom n = n_custom inner ∧ resolve_inner_path cb dir (n_path inner) = Ok (n_path n).
Proof.
  unfold prefix_node.
  intros (id & _ & (inputs & _ & (path & Hp & [= <-])%res_bind_Ok)%res_bind_Ok)%res_bind_Ok.
  rewrite Hp. destruct (bool_decide _), (mf_build file); done.
Qed.

Lemma expand_nested_flat expand nodes final omaps seen :
  Forall (λ n, n_module n = None) nodes →
  expand_nested expand nodes final omaps seen = Ok (final ++ nodes, omaps, seen).
Proof.
  intros HF. revert final. induction HF as [|n l Hn _ IH]; intros final; cbn; [by rewrite app_nil_r|].
  by rewrite Hn, IH, <- app_assoc.
Qed.

(** The nodes of a module without nested modules are its prefixed nodes. *)
Lemma expand_module_node_flat canonicalize read_file levels cb dir node seen path canonical file module_dir out :
  n_module node = Some path → canonicalize dir path = Ok canonical →
  load_module_file read_file canonical = Ok file → path_parent canonical = Ok module_dir →
  Forall (λ n, n_module n = None) (mf_nodes file) →
  expand_module_node canonicalize read_file levels cb dir node seen = Ok out →
  Forall2 (λ inner n, prefix_node node file cb module_dir inner = Ok n) (mf_nodes file) out.1.1.
Proof.
  intros Hm Hc Hf Hd Hflat. destruct levels as [|levels]; [done|]. cbn [expand_module_node].
  rewrite Hm. destruct (is_absolute_any_platform path); [done|]. rewrite Hc. cbn [mbind res_bind].
  destruct (negb _); [done|]. case_bool_decide; [done|]. rewrite Hf. cbn [mbind res_bind].
  rewrite Hd. cbn [mbind res_bind]. destruct (negb _); [done|]. destruct (negb _); [done|].
  intros (prefixed & Hpre%mapM_res_Forall2 & H1)%res_bind_Ok.
  assert (Forall (λ n, n_module n = None) prefixed) as Hpflat.
  { clear H1. induction Hpre as [|inner n l k Hn _ IH]; [constructor|].
    apply Forall_cons in Hflat as [Hi Hl]. constructor; [|auto].
    apply prefix_node_shape in Hn as [_ ->]. done. }
  rewrite expand_nested_flat in H1 by done. cbn in H1. unfold rewrite_external_refs in H1.
  rewrite bool_decide_eq_true_2 in H1 by done. cbn in H1.
  apply res_bind_Ok in H1 as (omap & _ & [= <-]). done.
Qed.

(** Inside a module only the inputs written on a node itself are rewritten.  The inputs of
    a node's operators, or of its [custom] section, are left as they are in the module file:
    their references to [_mod/port] and to other nodes of the module still have the names of
    the module file, which do not exist in the expanded dataflow. *)
Theorem module_operator_inputs_kept canonicalize read_file levels cb dir node seen path canonical
    file module_dir out i inner :
  n_module node = Some path → canonicalize dir path = Ok canonical →
  load_module_file read_file canonical = Ok file → path_parent canonical = Ok module_dir →
  Forall (λ n, n_module n = None) (mf_nodes file) →
  expand_module_node canonicalize read_file levels cb dir node seen = Ok out →
  mf_nodes file !! i = Some inner →
  ∃ n, out.1.1 !! i = Some n ∧
    n_operators n = n_operators inner ∧ n_operator n = n_operator inner ∧ n_custom n = n_custom inner.
Proof.
  intros Hm Hc Hf Hd Hflat Hexp Hi.
  pose proof (expand_module_node_flat _ _ _ _ _ _ _ _ _ _ _ _ Hm Hc Hf Hd Hflat Hexp) as HF.
  destruct (Forall2_lookup_l _ _ _ _ _ HF Hi) as (n & Hn & Hp). exists n.
  apply prefix_node_rest in Hp as (? & ? & ? & _). done.
Qed.

Lemma concat_sep_slash a b l : no_sep "/" (String.concat "/" (a :: b :: l)) = false.
Proof.
  change (String.concat "/" (a :: b :: l))
    with (String.append a (String "/" (String.concat "/" (b :: l)))). apply no_sep_append.
Qed.

Lemma path_strip_prefix_app base p : path_strip_prefix base (base ++ p) = Some p.
Proof. induction base as [|b base IH]; cbn; [done|]. by rewrite bool_decide_eq_true_2. Qed.

(** A node with the special path [dynamic] (or [shell]) loses it in a module whose file is
    in a subdirectory: the path is taken for a file and gets the directory in front, so that
    the node is no longer recognised as dynamic. *)
Theorem module_dynamic_path_lost node file (cb sub : Path) inner n special :
  special ∈ ["dynamic"; "shell"]%string → sub ≠ [] →
  n_path inner = Some special →
  prefix_node node file cb (cb ++ sub) inner = Ok n →
  n_path n = Some (path_text (sub ++ [special])) ∧ n_path n ≠ Some special.
Proof.
  intros Hs Hsub Hp Hn. apply prefix_node_rest in Hn as (_ & _ & _ & Hr). rewrite Hp in Hr.
  assert (resolve_inner_path cb (cb ++ sub) (Some special) = Ok (Some (path_text (sub ++ [special])))) as Heq.
  { unfold resolve_inner_path. rewrite <- app_assoc.
    assert (components special = [special] ∧ source_is_url special || String.prefix "/" special = false)
      as [-> ->].
    { apply elem_of_cons in Hs as [->|Hs]; [by vm_compute|].
      apply list_elem_of_singleton in Hs as ->. by vm_compute. }
    by rewrite path_strip_prefix_app. }
  rewrite Heq in Hr. injection Hr as Hr. rewrite <- Hr. split; [done|]. intros [= Htext].
  assert (no_sep "/" special = true) as Hns.
  { apply elem_of_cons in Hs as [->|Hs]; [done|]. by apply list_elem_of_singleton in Hs as ->. }
  unfold path_text in Htext. destruct sub as [|a [|b sub]]; [done|..]; cbn [app] in Htext.
  - rewrite <- Htext, concat_sep_slash in Hns. done.
  - rewrite <- Htext, concat_sep_slash in Hns. done.
Qed.

(** *** A concrete module *)

Definition sample_canonicalize (dir : Path) (path : string) : res Path := Ok (dir ++ components path).

(** Module [nav.yml]: a controller with an operator that reads the module's input, and a
    dynamic node. *)
Definition nav_controller : Node :=
  let n := plain_node "controller" {["pose"%string := from_node "_mod" "pose"]} {["cmd"%string]} in
  {| n with n_path := Some "dynamic"%string |}.
Definition nav_filter : Node :=
  runtime_node "filter" [mkOperator "op" (plain_operator {["pose"%string := from_node "_mod" "pose"]} ∅)].
Definition nav_module : ModuleFile :=
  mkModuleFile (mkModuleHeader "nav" ["pose"%string] [] ["cmd"%string]) [nav_controller; nav_filter] None.
Definition sample_read_file (path : Path) : res (Z * res ModuleFile) :=
  if bool_decide (path = ["p"; "mods"; "nav.yml"]%string) then Ok (100%Z, Ok nav_module)
  else Err "no such file".

Definition nav_node : Node :=
  let n := plain_node "nav" {["pose"%string := from_node "gps" "pose"]} ∅ in
  {| n with n_path := None; n_module := Some "mods/nav.yml"%string |}.
Definition sample_dataflow : Descriptor :=
  plain_descriptor [plain_node "gps" ∅ {["pose"%string]}; nav_node;
                    plain_node "motor" {["cmd"%string := from_node "nav" "cmd"]} ∅].


Lemma module_operator_inputs_kept_witness :
  ∃ out n, expand_module_node sample_canonicalize sample_read_file 1 ["p"%string] ["p"%string] nav_node ∅
             = Ok out ∧ out.1.1 !! 1 = Some n ∧
    n_operators n = n_operators nav_filter ∧ n_operator n = n_operator nav_filter ∧
    n_custom n = n_custom nav_filter.
Proof.
  destruct (is_ok_inv (expand_module_node sample_canonicalize sample_read_file 1 ["p"%string] ["p"%string]
    nav_node ∅)) as [out E]; [by vm_compute|].
  destruct (module_operator_inputs_kept sample_canonicalize sample_read_file 1 ["p"%string] ["p"%string]
    nav_node ∅ "mods/nav.yml" ["p"; "mods"; "nav.yml"]%string nav_module ["p"; "mods"]%string out 1 nav_filter)
    as (n & Hn & Hrest);
    [reflexivity|vm_compute; reflexivity|vm_compute; reflexivity|reflexivity|repeat constructor|exact E|
     reflexivity|].
  exists out, n. split; [exact E|]. split; [exact Hn|exact Hrest].
Defined.

Lemma module_dynamic_path_lost_witness :
  ∃ n, prefix_node nav_node nav_module ["p"%string] (["p"%string] ++ ["mods"%string]) nav_controller = Ok n ∧
    n_path n = Some (path_text (["mods"%string] ++ ["dynamic"%string])) ∧ n_path n ≠ Some "dynamic"%string.
Proof.
  destruct (is_ok_inv (prefix_node nav_node nav_module ["p"%string] (["p"%string] ++ ["mods"%string])
    nav_controller)) as [n E]; [by vm_compute|].
  exists n. split; [exact E|].
  apply (module_dynamic_path_lost nav_node nav_module ["p"%string] ["mods"%string] nav_controller n
    "dynamic"); [left|done|reflexivity|exact E].
Defined.
