(* ===== verification/Validate.v ===== *)
(** * Validation of descriptors

    Models [libraries/core/src/descriptor/validate.rs]: [check_dataflow] with the checks of
    ROS2 bridge configurations and of the log settings of a node, and the check of type
    annotations.  Whether a path exists, the lookup of executables and the check of the
    Python installation are parameters.  Products of [u64] wrap, as in a release build. *)

From Stdlib Require Import ZArith Lia Ascii DecimalString ZifyBool.
From stdpp Require Import base gmap sets list strings.
From S2P Require Import Prelude Message InputMapping Text Types Descriptor Expand.
Local Open Scope list_scope.

(** ** Log settings *)

(** [str::find] of the first ASCII letter, as the parts before and from it. *)
Fixpoint split_alpha (s : string) : option (string * string) :=
  match s with
  | EmptyString => None
  | String c rest =>
      if is_ascii_alphabetic c then Some (EmptyString, s)
      else (λ '(a, b), (String c a, b)) <$> split_alpha rest
  end.

Definition unit_multiplier (unit : string) : option Z :=
  if bool_decide (unit = "B") then Some 1%Z
  else if bool_decide (unit = "KB") || bool_decide (unit = "K") then Some 1024%Z
  else if bool_decide (unit = "MB") || bool_decide (unit = "M") then Some (1024 * 1024)%Z
  else if bool_decide (unit = "GB") || bool_decide (unit = "G") then Some (1024 * 1024 * 1024)%Z
  else None.

(** [(x * m as f64) as u64] of a number with the given sign: the product with a power of two
    is exact, and the conversion truncates and saturates; NaN becomes 0. *)
Definition scaled_to_u64 (negative : bool) (x : f64_class) (m : Z) : Z :=
  match x with
  | FNan => 0
  | FInf => if negative then 0 else u64_max
  | FFinite true _ => 0
  | FFinite false bits => let '(n, d) := f64_ratio bits in Z.min (n * m / d) u64_max
  end.

Definition parse_byte_size (s : string) : res Z :=
  let s := trim s in
  match split_alpha s with
  | None => res_of_option "invalid byte size" (parse_u64 s)
  | Some (num_str, rest) =>
      let unit := to_uppercase (trim rest) in
      let num_str := trim num_str in
      match unit_multiplier unit with
      | None => Err "unknown byte size unit"
      | Some multiplier =>
          match parse_u64 num_str with
          | Some num => Ok (u64_wrap (num * multiplier))
          | None =>
              match parse_f64 num_str with
              | Some num => Ok (scaled_to_u64 (span_sign num_str).1 num multiplier)
              | None => Err "invalid byte size number"
              end
          end
      end
  end.

(** The only value among those of the operators of a node. *)
Definition only_one {A} (l : list A) : res (option A) :=
  match l with
  | [] => Ok None
  | [x] => Ok (Some x)
  | _ => Err "more than one entry for a runtime node"
  end.

Definition op_values {A} (f : OperatorConfig → option A) (ops : RuntimeNode) : list A :=
  omap (λ op, f (opdef_config op)) ops.

(** [send_stdout_as] and [send_logs_as]: the operator's name is put in front. *)
Definition op_output_name (f : OperatorConfig → option string) (ops : RuntimeNode) : list string :=
  omap (λ op, (λ out, String.append (opdef_id op) (String "/" out)) <$> f (opdef_config op)) ops.

Definition send_stdout_as (n : ResolvedNode) : res (option string) :=
  match r_kind n with
  | Runtime ops => only_one (op_output_name op_send_stdout_as ops)
  | Custom c => Ok (custom_send_stdout_as c)
  end.
Definition send_logs_as (n : ResolvedNode) : res (option string) :=
  match r_kind n with
  | Runtime ops => only_one (op_output_name op_send_logs_as ops)
  | Custom c => Ok (custom_send_logs_as c)
  end.

Definition min_log_level (n : ResolvedNode) : res (option LogLevelOrStdout) :=
  level ← (match r_kind n with
           | Runtime ops => only_one (op_values op_min_log_level ops)
           | Custom c => Ok (custom_min_log_level c)
           end);
  map_option parse_log_level_str level.

Definition max_log_size (n : ResolvedNode) : res (option Z) :=
  size ← (match r_kind n with
          | Runtime ops => only_one (op_values op_max_log_size ops)
          | Custom c => Ok (custom_max_log_size c)
          end);
  map_option parse_byte_size size.

Definition max_rotated_files (n : ResolvedNode) : res (option Z) :=
  value ← (match r_kind n with
           | Runtime ops => only_one (op_values op_max_rotated_files ops)
           | Custom c => Ok (custom_max_rotated_files c)
           end);
  match value with
  | Some n =>
      if (n =? 0)%Z then Err "`max_rotated_files` must be at least 1"
      else if (100 <? n)%Z then Err "`max_rotated_files` must not exceed 100"
      else Ok value
  | None => Ok None
  end.

(** ** ROS2 bridges *)

Definition validate_ros2_name (name : string) : res unit :=
  if bool_decide (name = EmptyString) then Err "name must not be empty"
  else if string_forall
            (λ c, is_ascii_alphanumeric c || bool_decide (c = "_"%char) || bool_decide (c = "/"%char)) name
  then Ok tt else Err "invalid name".

Definition type_part (part : string) : bool :=
  string_forall (λ c, is_ascii_alphanumeric c || bool_decide (c = "_"%char)) part.

Definition validate_ros2_type_format (type_str : string) : res unit :=
  match split_on "/" type_str with
  | [package; name] =>
      if bool_decide (package = EmptyString) || bool_decide (name = EmptyString)
      then Err "expected format `package/TypeName`"
      else if type_part package && type_part name then Ok tt else Err "invalid type name"
  | _ => Err "expected format `package/TypeName`"
  end.

(** [t.is_finite() && t >= 0.0] on the bits of an [f64]; minus zero is not below zero. *)
Definition finite_non_negative (bits : Z) : bool :=
  let magnitude := Z.land bits (2 ^ 63 - 1) in
  (Z.shiftr magnitude 52 <? 2047)%Z && (negb (Z.testbit bits 63) || (magnitude =? 0)%Z).

Definition opt_check {A} (p : A → bool) (e : string) (o : option A) : res unit :=
  match o with Some a => if p a then Ok tt else Err e | None => Ok tt end.

Definition validate_ros2_qos (qos : Ros2QosConfig) : res unit :=
  _ ← opt_check (λ d, bool_decide (d ∈ ["volatile"; "transient_local"]%string))
        "invalid QoS durability" (qos_durability qos);
  _ ← opt_check (λ l, bool_decide (l ∈ ["automatic"; "manual_by_participant"; "manual_by_topic"]%string))
        "invalid QoS liveliness" (qos_liveliness qos);
  _ ← opt_check (λ d, (1 <=? d)%Z && (d <=? 10000)%Z) "QoS keep_last depth out of range" (qos_keep_last qos);
  _ ← opt_check finite_non_negative "QoS max_blocking_time must be finite" (qos_max_blocking_time qos);
  opt_check finite_non_negative "QoS lease_duration must be finite" (qos_lease_duration qos).

Definition count_true (l : list bool) : nat := length (retain (λ b, b) l).

Definition is_some {A} (o : option A) : bool := match o with Some _ => true | None => false end.

Fixpoint validate_ros2_topics (topics : list Ros2TopicConfig) : res unit :=
  match topics with
  | [] => Ok tt
  | t :: topics =>
      _ ← validate_ros2_name (topic_name t);
      _ ← validate_ros2_type_format (topic_message_type t);
      validate_ros2_topics topics
  end.

Definition is_subscribe (d : Ros2Direction) : bool :=
  match d with Ros2Subscribe => true | Ros2Publish => false end.

(** A client or a server of a service or an action has inputs and outputs. *)
Definition validate_ros2_role (name : string) (type_ : option string) (role : option Ros2Role)
    (no_inputs no_outputs : bool) : res unit :=
  _ ← validate_ros2_name name;
  type_ ← res_of_option "ros2 config requires a type" type_;
  _ ← validate_ros2_type_format type_;
  _ ← res_of_option "ros2 bridge requires `role`" role;
  if no_inputs then Err "requires at least one input"
  else if no_outputs then Err "requires at least one output"
  else Ok tt.

Fixpoint validate_topics_qos (topics : list Ros2TopicConfig) : res unit :=
  match topics with
  | [] => Ok tt
  | t :: topics =>
      _ ← (match topic_qos t with Some qos => validate_ros2_qos qos | None => Ok tt end);
      validate_topics_qos topics
  end.

Definition validate_ros2_config (config : Ros2BridgeConfig) (inputs : gmap DataId InputConfig)
    (outputs : gset DataId) : res unit :=
  let mode_count := count_true [is_some (ros2_topic config); is_some (ros2_topics config);
                                is_some (ros2_service config); is_some (ros2_action config)] in
  let no_inputs := bool_decide (inputs = ∅) in
  let no_outputs := bool_decide (outputs = ∅) in
  if bool_decide (mode_count = 0) then Err "ros2 config requires one of `topic`, `topics`, `service`, `action`"
  else if (1 <? mode_count)%nat then Err "ros2 config has multiple modes, only one is allowed"
  else
    _ ← (match ros2_topic config, ros2_topics config, ros2_service config, ros2_action config with
         | Some topic, _, _, _ =>
             _ ← validate_ros2_name topic;
             message_type ← res_of_option "ros2 config with `topic` requires `message_type`"
                              (ros2_message_type config);
             _ ← validate_ros2_type_format message_type;
             (match ros2_direction config with
              | Ros2Subscribe => if no_outputs then Err "ros2 subscribe bridge requires at least one output" else Ok tt
              | Ros2Publish => if no_inputs then Err "ros2 publish bridge requires at least one input" else Ok tt
              end)
         | None, Some topics, _, _ =>
             if bool_decide (topics = []) then Err "ros2 `topics` list must not be empty"
             else if (64 <? length topics)%nat then Err "ros2 `topics` list has too many entries"
             else
               _ ← validate_ros2_topics topics;
               if existsb (λ t, is_subscribe (topic_direction t)) topics && no_outputs
               then Err "ros2 multi-topic bridge with subscribe topics requires at least one output"
               else if existsb (λ t, negb (is_subscribe (topic_direction t))) topics && no_inputs
               then Err "ros2 multi-topic bridge with publish topics requires at least one input"
               else Ok tt
         | None, None, Some service, _ =>
             validate_ros2_role service (ros2_service_type config) (ros2_role config) no_inputs no_outputs
         | None, None, None, Some action =>
             validate_ros2_role action (ros2_action_type config) (ros2_role config) no_inputs no_outputs
         | None, None, None, None => Ok tt
         end);
    _ ← validate_ros2_qos (ros2_qos config);
    match ros2_topics config with
    | Some topics => validate_topics_qos topics
    | None => Ok tt
    end.

(** ** Whole dataflows *)

Definition SHELL_SOURCE : string := "shell".
Definition DYNAMIC_SOURCE : string := "dynamic".

(** [Path::extension] of a file name: there is a dot that is not its first character. *)
Definition has_extension (file_name : string) : bool :=
  match file_name with
  | EmptyString => false
  | String _ rest => negb (no_sep "." rest)
  end.

(** [DLL_PREFIX] and [DLL_SUFFIX] are those of Linux. *)
Definition adjust_shared_library_path (path : string) : res string :=
  let absolute := String.prefix "/" path in
  let components := components path in
  match last components with
  | None => Err "shared library path has no file name"
  | Some file_name =>
      if bool_decide (file_name = "..") then Err "shared library path has no file name"
      else if String.prefix "lib" file_name
      then Err "Shared library file name must not start with `lib`, prefix is added automatically"
      else if has_extension file_name
      then Err "Shared library file name must have no extension, it is added automatically"
      else
        let file_name := String.append "lib" (String.append file_name ".so") in
        let path := path_text (removelast components ++ [file_name]) in
        Ok (if absolute then String "/" path else path)
  end.

Section check.
(** [serde_json::to_string] of a ROS2 configuration; the search for an executable below the
    working directory or on the search path; [working_dir.join(path).exists()]; the check of
    the Python installation. *)
Context (ros2_json : Ros2BridgeConfig → res string).
Context (resolve_path : string → res unit) (exists_path : string → bool).
Context (check_python_runtime : res unit).

Definition check_operator_source (c : OperatorConfig) : res bool :=
  match op_source c with
  | SharedLibrary path =>
      if source_is_url path then Ok false
      else if is_some (op_build c) then Ok false
      else
        path ← adjust_shared_library_path path;
        if exists_path path then Ok false else Err "no shared library"
  | Python python =>
      let path := python_source python in
      if source_is_url path then Ok true
      else if exists_path path then Ok true else Err "no Python library"
  | Wasm path =>
      if source_is_url path then Ok false
      else if exists_path path then Ok false else Err "no WASM library"
  end.

Fixpoint check_operator_sources (ops : RuntimeNode) : res bool :=
  match ops with
  | [] => Ok false
  | op :: ops =>
      python ← check_operator_source (opdef_config op);
      rest ← check_operator_sources ops;
      Ok (python || rest)
  end.

(** The sources of a node exist; the result says whether it has a Python operator.  With
    [remote_daemon_id] given, the test for remote nodes only decides about a log message. *)
Definition check_source (remote_daemon_id : option (list string)) (coordinator_is_remote : bool)
    (n : ResolvedNode) : res bool :=
  match r_kind n with
  | Custom custom =>
      match custom_source custom with
      | SourceLocal =>
          let source := custom_path custom in
          if bool_decide (source = SHELL_SOURCE) || bool_decide (source = DYNAMIC_SOURCE) then Ok false
          else if source_is_url source then Ok false
          else match remote_daemon_id with
               | Some ids =>
                   if from_option (λ m, bool_decide (m ∈ ids) || coordinator_is_remote) false
                        (r_deploy n ≫= deploy_machine)
                   then Ok false (* logs that the check is skipped *)
                   else Ok false
               | None =>
                   if is_some (custom_build custom) then Ok false
                   else _ ← resolve_path source; Ok false
               end
      | SourceGitBranch _ _ => Ok false
      end
  | Runtime ops => check_operator_sources ops
  end.

Fixpoint check_sources (remote_daemon_id : option (list string)) (coordinator_is_remote : bool)
    (nodes : list ResolvedNode) : res bool :=
  match nodes with
  | [] => Ok false
  | n :: nodes =>
      python ← check_source remote_daemon_id coordinator_is_remote n;
      rest ← check_sources remote_daemon_id coordinator_is_remote nodes;
      Ok (python || rest)
  end.

Definition check_log_settings (n : ResolvedNode) : res unit :=
  _ ← send_stdout_as n; _ ← send_logs_as n; _ ← min_log_level n; _ ← max_log_size n;
  _ ← max_rotated_files n; Ok tt.

Fixpoint check_each {A} (f : A → res unit) (l : list A) : res unit :=
  match l with
  | [] => Ok tt
  | a :: l => _ ← f a; check_each f l
  end.

Definition check_ros2 (n : Node) : res unit :=
  match n_ros2 n with
  | Some ros2 => validate_ros2_config ros2 (n_inputs n) (n_outputs n)
  | None => Ok tt
  end.

Definition check_dataflow (dataflow : Descriptor) (remote_daemon_id : option (list string))
    (coordinator_is_remote : bool) : res unit :=
  _ ← check_each check_ros2 (d_nodes dataflow);
  nodes ← resolve_aliases_and_set_defaults ros2_json dataflow;
  has_python_operator ← check_sources remote_daemon_id coordinator_is_remote (btree_iter nodes).*2;
  _ ← check_wiring ros2_json dataflow;
  _ ← check_each check_log_settings (btree_iter nodes).*2;
  if has_python_operator : bool then check_python_runtime else Ok tt.

(** [DescriptorExt::check] and [check_in_daemon]. *)
Context (canonicalize : Path → string → res Path) (read_file : Path → res (Z * res ModuleFile)).

Definition check (d : Descriptor) (working_dir : Path) : res unit :=
  expanded ← expand_modules canonicalize read_file d working_dir;
  check_dataflow expanded None false.

Definition check_in_daemon (d : Descriptor) (working_dir : Path) (coordinator_is_remote : bool)
    : res unit :=
  expanded ← expand_modules canonicalize read_file d working_dir;
  check_dataflow expanded None coordinator_is_remote.
End check.

(** ** What an accepted dataflow satisfies *)

Lemma check_each_Ok {A} (f : A → res unit) l : check_each f l = Ok tt ↔ ∀ a, a ∈ l → f a = Ok tt.
Proof.
  induction l as [|a l IH]; cbn; [split; [by intros _ ? ?%elem_of_nil|done]|].
  rewrite res_bind_Ok. setoid_rewrite elem_of_cons. split.
  - intros ([] & Ha & Hl) a' [->|Hin]; [done|by apply IH].
  - intros Hall. exists tt. split; [auto|apply IH; auto].
Qed.

(** A bridge reads from ROS2, or writes to it. *)
Definition subscribes (c : Ros2BridgeConfig) : Prop :=
  is_Some (ros2_topic c) ∧ ros2_direction c = Ros2Subscribe ∨
  ∃ topics t, ros2_topics c = Some topics ∧ t ∈ topics ∧ topic_direction t = Ros2Subscribe.
Definition publishes (c : Ros2BridgeConfig) : Prop :=
  is_Some (ros2_topic c) ∧ ros2_direction c = Ros2Publish ∨
  ∃ topics t, ros2_topics c = Some topics ∧ t ∈ topics ∧ topic_direction t = Ros2Publish.
Definition calls (c : Ros2BridgeConfig) : Prop :=
  is_Some (ros2_service c) ∨ is_Some (ros2_action c).

(** The configuration has one mode, and the node has the ports the mode needs. *)
Record bridge_ready (c : Ros2BridgeConfig) (n : Node) : Prop := {
  bridge_mode :
    count_true [is_some (ros2_topic c); is_some (ros2_topics c);
                is_some (ros2_service c); is_some (ros2_action c)] = 1;
  bridge_outputs : subscribes c ∨ calls c → n_outputs n ≠ ∅;
  bridge_inputs : publishes c ∨ calls c → n_inputs n ≠ ∅;
  bridge_role : calls c → is_Some (ros2_role c)
}.

Lemma existsb_false_elem {A} (p : A → bool) l x : existsb p l = false → x ∈ l → p x = false.
Proof.
  intros He Hx. apply not_true_is_false. intros Hp. rewrite <- not_true_iff_false in He. apply He.
  apply existsb_exists. exists x. split; [by apply list_elem_of_In|done].
Qed.

Lemma validate_ros2_role_Ok name ty role no_in no_out :
  validate_ros2_role name ty role no_in no_out = Ok tt → is_Some role ∧ no_in = false ∧ no_out = false.
Proof.
  unfold validate_ros2_role.
  intros (? & _ & (? & _ & (? & _ & (r & Hr & H)%res_bind_Ok)%res_bind_Ok)%res_bind_Ok)%res_bind_Ok.
  destruct role; [|done]. by destruct no_in, no_out.
Qed.

Lemma validate_ros2_config_ready c n :
  validate_ros2_config c (n_inputs n) (n_outputs n) = Ok tt → bridge_ready c n.
Proof.
  unfold validate_ros2_config. case_bool_decide as H0; [done|]. destruct (1 <? _)%nat eqn:H1; [done|].
  apply Nat.ltb_ge in H1. intros ([] & Hm & _)%res_bind_Ok.
  enough ((subscribes c ∨ calls c → n_outputs n ≠ ∅) ∧ (publishes c ∨ calls c → n_inputs n ≠ ∅) ∧
          (calls c → is_Some (ros2_role c))) as (?&?&?) by (split; auto; lia).
  unfold subscribes, publishes, calls. unfold count_true in H0, H1.
  destruct (ros2_topic c) as [t|], (ros2_topics c) as [ts|], (ros2_service c) as [s|],
    (ros2_action c) as [a|]; vm_compute in H0; vm_compute in H1; try lia; clear H0 H1.
  - apply res_bind_Ok in Hm as ([] & _ & Hm). apply res_bind_Ok in Hm as (? & _ & Hm).
    apply res_bind_Ok in Hm as ([] & _ & Hm).
    destruct (ros2_direction c); case_bool_decide; naive_solver.
  - case_bool_decide; [done|]. destruct (64 <? _)%nat; [done|].
    apply res_bind_Ok in Hm as ([] & _ & Hm).
    destruct (existsb (λ t, is_subscribe _) ts && _) eqn:E1; [done|].
    destruct (existsb (λ t, negb _) ts && _) eqn:E2; [done|]. clear Hm.
    apply andb_false_iff in E1, E2. rewrite bool_decide_eq_false in E1, E2.
    split_and!; [intros [[[??]|(?&t&[= ->]&Ht&Hd)]|[[??]|[??]]]..|by intros [[??]|[??]]]; try done.
    + destruct E1 as [E1|]; [|done]. apply (existsb_false_elem _ _ t) in E1; [|done]. cbv beta in E1. by rewrite Hd in E1.
    + destruct E2 as [E2|]; [|done]. apply (existsb_false_elem _ _ t) in E2; [|done]. cbv beta in E2. by rewrite Hd in E2.
  - apply validate_ros2_role_Ok in Hm as (? & ?%bool_decide_eq_false & ?%bool_decide_eq_false). auto.
  - apply validate_ros2_role_Ok in Hm as (? & ?%bool_decide_eq_false & ?%bool_decide_eq_false). auto.
Qed.

(** The settings of the log of a node are readable and the number of files kept is bounded
    (it is a [u32]). *)
Record log_ready (n : ResolvedNode) : Prop := {
  log_outputs : is_ok (send_stdout_as n) = true ∧ is_ok (send_logs_as n) = true;
  log_level : is_ok (min_log_level n) = true;
  log_size : is_ok (max_log_size n) = true;
  log_files : ∃ v, max_rotated_files n = Ok v ∧ ∀ k, v = Some k → (k ≠ 0 ∧ k ≤ 100)%Z
}.

Lemma check_log_settings_ready n : check_log_settings n = Ok tt → log_ready n.
Proof.
  unfold check_log_settings.
  intros (o & H1 & (l & H2 & (m & H3 & (s & H4 & (v & H5 & _)%res_bind_Ok)%res_bind_Ok)%res_bind_Ok)%res_bind_Ok)%res_bind_Ok.
  split; [by rewrite H1, H2|by rewrite H3|by rewrite H4|]. exists v. split; [done|]. intros k ->.
  unfold max_rotated_files in H5. apply res_bind_Ok in H5 as ([w|] & _ & H); [|done].
  destruct (w =? 0)%Z eqn:E0; [done|]. destruct (100 <? w)%Z eqn:E1; [done|]. injection H as <-. lia.
Qed.

Section accepted.
Context (ros2_json : Ros2BridgeConfig → res string).
Context (resolve_path : string → res unit) (exists_path : string → bool).
Context (check_python_runtime : res unit).
Context (canonicalize : Path → string → res Path) (read_file : Path → res (Z * res ModuleFile)).

(** The library of an operator is downloaded, is built (a shared library only), or is there. *)
Definition operator_source_ready (c : OperatorConfig) : Prop :=
  match op_source c with
  | SharedLibrary path =>
      source_is_url path = true ∨ is_Some (op_build c) ∨
      ∃ file, adjust_shared_library_path path = Ok file ∧ exists_path file = true
  | Python python => source_is_url (python_source python) = true ∨ exists_path (python_source python) = true
  | Wasm path => source_is_url path = true ∨ exists_path path = true
  end.

(** The program of a custom node is a shell command, is started by the user, is downloaded, is
    built, comes from a git repository, or is found; the libraries of a runtime node are ready. *)
Definition source_ready (n : ResolvedNode) : Prop :=
  match r_kind n with
  | Custom c =>
      match custom_source c with
      | SourceLocal =>
          custom_path c ∈ [SHELL_SOURCE; DYNAMIC_SOURCE] ∨ source_is_url (custom_path c) = true ∨
          is_Some (custom_build c) ∨ resolve_path (custom_path c) = Ok tt
      | SourceGitBranch _ _ => True
      end
  | Runtime ops => Forall (λ op, operator_source_ready (opdef_config op)) ops
  end.
Definition has_python (n : ResolvedNode) : Prop :=
  ∃ ops op python, r_kind n = Runtime ops ∧ op ∈ ops ∧ op_source (opdef_config op) = Python python.

Lemma is_some_true {A} (o : option A) : is_some o = true → is_Some o.
Proof. by destruct o. Qed.

Lemma check_operator_source_ready c py :
  check_operator_source exists_path c = Ok py →
  operator_source_ready c ∧ (∀ python, op_source c = Python python → py = true).
Proof.
  unfold check_operator_source, operator_source_ready. destruct (op_source c) as [path|python|path].
  - destruct (source_is_url path); [by split; [left|]|].
    destruct (is_some (op_build c)) eqn:E; [by split; [right; left; apply is_some_true|]|].
    intros (file & Hf & He)%res_bind_Ok. destruct (exists_path file) eqn:Ex; [|done]. split; [eauto 6|done].
  - destruct (source_is_url _); [intros [= <-]; auto|]. destruct (exists_path _); [|done]. intros [= <-]. auto.
  - destruct (source_is_url path); [by split; [left|]|]. destruct (exists_path path); [by split; [right|]|done].
Qed.

Lemma check_operator_sources_ready ops py :
  check_operator_sources exists_path ops = Ok py →
  Forall (λ op, operator_source_ready (opdef_config op)) ops ∧
  (∀ op python, op ∈ ops → op_source (opdef_config op) = Python python → py = true).
Proof.
  revert py. induction ops as [|op ops IH]; intros py; cbn; [intros _; split; [constructor|by intros ?? ?%elem_of_nil]|].
  intros (p & [Hr Hp]%check_operator_source_ready & (rest & [Hrs Hps]%IH & [= <-])%res_bind_Ok)%res_bind_Ok.
  split; [by constructor|]. intros op' python [->|Hin]%elem_of_cons Hs; apply orb_true_iff; eauto.
Qed.

Lemma check_source_ready n py :
  check_source resolve_path exists_path None false n = Ok py → source_ready n ∧ (has_python n → py = true).
Proof.
  unfold check_source, source_ready, has_python. destruct (r_kind n) as [ops|c].
  - intros [Hr Hp]%check_operator_sources_ready. split; [done|]. intros (? & op & python & [= <-] & ? & ?). eauto.
  - intros Hc. split; [|by intros (? & ? & ? & [=] & _)]. destruct (custom_source c); [|done].
    case_bool_decide as E1; [left; set_solver|]. case_bool_decide as E2; [left; set_solver|]. cbn in Hc.
    destruct (source_is_url _); [auto|]. destruct (is_some (custom_build c)) eqn:E; [auto using is_some_true|].
    apply res_bind_Ok in Hc as ([] & ? & _). auto.
Qed.

Lemma check_sources_ready nodes py :
  check_sources resolve_path exists_path None false nodes = Ok py →
  ∀ n, n ∈ nodes → source_ready n ∧ (has_python n → py = true).
Proof.
  revert py. induction nodes as [|n nodes IH]; intros py; cbn; [by intros _ ? ?%elem_of_nil|].
  intros (p & [Hr Hp]%check_source_ready & (rest & Hrest & [= <-])%res_bind_Ok)%res_bind_Ok n' [->|Hin]%elem_of_cons.
  - split; [done|]. intros. apply orb_true_iff. auto.
  - destruct (IH _ Hrest n' Hin). split; [done|]. intros. apply orb_true_iff. auto.
Qed.

(** C36. What a dataflow accepted by [check] satisfies: it expands to a descriptor without
    modules, which resolves to a set of nodes in which every input of every node or operator is
    wired to a declared output; the source of every node and operator is there, or is built or
    downloaded or started by someone else, and with a Python operator the Python installation
    passes its check; every ROS2 bridge has one mode and the ports that mode needs; and the log
    settings of every node can be read. *)
Theorem check_sound (d : Descriptor) (dir : Path) :
  check ros2_json resolve_path exists_path check_python_runtime canonicalize read_file d dir = Ok tt →
  ∃ d' nodes,
    expand_modules canonicalize read_file d dir = Ok d' ∧
    resolve_aliases_and_set_defaults ros2_json d' = Ok nodes ∧
    Forall (λ n, n_module n = None) (d_nodes d') ∧
    (∀ n c, n ∈ d_nodes d' → n_ros2 n = Some c → bridge_ready c n) ∧
    (∀ id n input, nodes !! id = Some n → input ∈ node_inputs n → wired nodes input) ∧
    (∀ id n, nodes !! id = Some n → source_ready n) ∧
    (∀ id n, nodes !! id = Some n → has_python n → check_python_runtime = Ok tt) ∧
    (∀ id n, nodes !! id = Some n → log_ready n).
Proof.
  unfold check, check_dataflow.
  intros (d' & Hd & ([] & Hros & (nodes & Hn & (py & Hsrc & ([] & Hw & ([] & Hl & Hpy)%res_bind_Ok)%res_bind_Ok)%res_bind_Ok)%res_bind_Ok)%res_bind_Ok)%res_bind_Ok.
  assert (∀ id n, nodes !! id = Some n → n ∈ (btree_iter nodes).*2) as Hin.
  { intros id n Hid. apply list_elem_of_fmap. exists (id, n). split; [done|]. by apply elem_of_btree_iter. }
  pose proof (check_sources_ready _ _ Hsrc) as Hready.
  exists d', nodes. split_and!; [done|done|by eapply expand_modules_flat|..].
  - intros n c Hn' Hc. rewrite check_each_Ok in Hros. specialize (Hros n Hn').
    unfold check_ros2 in Hros. rewrite Hc in Hros. by apply validate_ros2_config_ready.
  - apply check_wiring_accepts in Hw as (nodes' & Hn' & Hw). rewrite Hn in Hn'. by injection Hn' as <-.
  - intros id n ?%Hin. by apply Hready.
  - intros id n ?%Hin Hp. destruct (Hready n) as [_ Hpt]; [done|]. by rewrite Hpt in Hpy.
  - intros id n ?%Hin. apply check_log_settings_ready. rewrite check_each_Ok in Hl. by apply Hl.
Qed.
End accepted.

(** ** Sizes of log files *)

Lemma trim_start_rev_id fuel c l :
  (48 ≤ c ≤ 122)%N → trim_start_rev fuel (c :: l) = c :: l.
Proof.
  intros Hc. destruct fuel as [|fuel]; [done|]. cbn [trim_start_rev].
  repeat case_match; try done; subst; exfalso; lia.
Qed.
Lemma trim_start_bytes_id fuel c l :
  (48 ≤ c ≤ 122)%N → trim_start_bytes fuel (c :: l) = c :: l.
Proof.
  intros Hc. destruct fuel as [|fuel]; [done|]. cbn [trim_start_bytes].
  repeat case_match; try done; subst; exfalso; lia.
Qed.

Lemma string_of_bytes_of s : string_of (bytes_of s) = s.
Proof.
  unfold string_of, bytes_of. rewrite <- list_fmap_compose.
  rewrite (list_fmap_ext _ id); [rewrite list_fmap_id; apply String.string_of_list_ascii_of_string|].
  intros ? c _. cbn. apply ascii_N_embedding.
Qed.

Lemma alphanumeric_bytes s c :
  string_forall is_ascii_alphanumeric s = true → c ∈ bytes_of s → (48 ≤ c ≤ 122)%N.
Proof.
  unfold bytes_of. induction s as [|a s IH]; cbn; [by intros _ ?%elem_of_nil|].
  intros [Ha Hs]%andb_prop [->|Hc]%elem_of_cons; [|by apply IH].
  unfold is_ascii_alphanumeric in Ha. lia.
Qed.

Lemma trim_alphanumeric s : string_forall is_ascii_alphanumeric s = true → trim s = s.
Proof.
  intros Hs. unfold trim.
  assert (trim_end s = s) as ->.
  { unfold trim_end. fold (bytes_of s). destruct (rev (bytes_of s)) as [|c l] eqn:E.
    - cbn. apply (f_equal (@rev N)) in E. rewrite rev_involutive in E. rewrite <- (string_of_bytes_of s), E. done.
    - rewrite trim_start_rev_id, <- E, rev_involutive; [apply string_of_bytes_of|].
      apply (alphanumeric_bytes s); [done|]. apply list_elem_of_In, in_rev. rewrite E. by left. }
  destruct (bytes_of s) as [|c l] eqn:E; [cbn; by rewrite <- (string_of_bytes_of s), E|].
  rewrite trim_start_bytes_id, <- E; [apply string_of_bytes_of|].
  apply (alphanumeric_bytes s); [done|]. rewrite E. left.
Qed.

Definition is_digit (c : ascii) : bool := let n := N_of_ascii c in ((48 <=? n) && (n <=? 57))%N.
Lemma print_u64_digits z : string_forall is_digit (print_u64 z) = true.
Proof.
  unfold print_u64, NilZero.string_of_uint. destruct (N.to_uint (Z.to_N z)) as [|d|d|d|d|d|d|d|d|d|d]; [done|..].
  all: cbn; induction d; cbn; auto.
Qed.

Lemma string_forall_append p a b :
  string_forall p (String.append a b) = string_forall p a && string_forall p b.
Proof. induction a as [|c a IH]; [done|]. rewrite string_append_cons. cbn. by rewrite IH, andb_assoc. Qed.

Lemma split_alpha_digits ds c u :
  string_forall is_digit ds = true → is_ascii_alphabetic c = true →
  split_alpha (String.append ds (String c u)) = Some (ds, String c u).
Proof.
  intros Hd Hc. induction ds as [|d ds IH].
  - change (String.append EmptyString (String c u)) with (String c u). cbn. by rewrite Hc.
  - cbn in Hd. apply andb_prop in Hd as [Hd Hds]. rewrite string_append_cons. cbn [split_alpha].
    assert (is_ascii_alphabetic d = false) as ->.
    { unfold is_digit, is_ascii_alphabetic in *. lia. }
    by rewrite IH.
Qed.

Definition byte_units : list (string * Z) :=
  [("B", 1); ("K", 1024); ("KB", 1024); ("M", 1024 ^ 2); ("MB", 1024 ^ 2); ("G", 1024 ^ 3); ("GB", 1024 ^ 3)]%string%Z.

(** A number followed by a unit is read as the number times the unit, but modulo [2^64]:
    a size that does not fit wraps around, without an error, to a limit that can be as small
    as zero. *)
Theorem parse_byte_size_wraps (n : Z) (unit : string) (m : Z) :
  (0 ≤ n ≤ u64_max)%Z → (unit, m) ∈ byte_units →
  parse_byte_size (String.append (print_u64 n) unit) = Ok ((n * m) `mod` 2 ^ 64)%Z ∧
  (n * m ≤ u64_max → parse_byte_size (String.append (print_u64 n) unit) = Ok (n * m))%Z.
Proof.
  intros Hn Hu.
  assert (parse_byte_size (String.append (print_u64 n) unit) = Ok (u64_wrap (n * m))) as ->.
  { pose proof (print_u64_digits n) as Hd.
    assert (string_forall is_ascii_alphanumeric (print_u64 n) = true) as Ha.
    { eapply string_forall_impl; [|exact Hd]. intros c. unfold is_digit, is_ascii_alphanumeric. lia. }
    unfold parse_byte_size.
    unfold byte_units in Hu. repeat (apply elem_of_cons in Hu as [[= -> ->]|Hu]); [..|by apply elem_of_nil in Hu].
    all: rewrite trim_alphanumeric by (by rewrite string_forall_append, Ha);
      rewrite split_alpha_digits by done; rewrite (trim_alphanumeric (print_u64 n)) by done;
      rewrite (trim_alphanumeric (String _ _)) by done; cbn [to_uppercase ascii_upper];
      rewrite parse_print_u64 by done; done. }
  unfold u64_wrap, u64_max in *. split; [done|]. intros Hle. f_equal. apply Z.mod_small.
  assert (Forall (λ e : string * Z, 0 < e.2)%Z byte_units) as Hpos by (repeat constructor).
  rewrite Forall_forall in Hpos. specialize (Hpos _ Hu). cbn in Hpos. nia.
Qed.

Lemma parse_byte_size_wraps_witness :
  parse_byte_size "17179869184GB" = Ok 0%Z ∧ parse_byte_size "50MB" = Ok 52428800%Z.
Proof.
  split.
  - apply (parse_byte_size_wraps 17179869184 "GB" (1024 ^ 3)); [done|by vm_compute; repeat constructor].
  - apply (parse_byte_size_wraps 50 "MB" (1024 ^ 2)); [done| |done]. vm_compute; repeat constructor.
Defined.

(** ** An accepted dataflow *)

Definition plain_qos : Ros2QosConfig := mkRos2Qos false None None None None (Some 10%Z) false.
Definition cmd_bridge : Ros2BridgeConfig :=
  mkRos2Bridge (Some "/cmd_vel"%string) (Some "geometry_msgs/Twist"%string) Ros2Publish None None None None
    None None plain_qos "/" None.
Definition bridge_node : Node :=
  let n := plain_node "bridge" {["cmd"%string := from_node "echo" "cmd"]} ∅ in
  {| n with n_path := None; n_ros2 := Some cmd_bridge |}.
Definition ticker_node : Node :=
  let n := plain_node "ticker" ∅ {["tick"%string]} in
  {| n with n_max_log_size := Some "50MB"%string; n_max_rotated_files := Some 5%Z |}.
Definition checked_dataflow : Descriptor :=
  plain_descriptor [ticker_node;
    plain_node "echo" {["tick"%string := from_node "ticker" "tick"]} {["cmd"%string]}; bridge_node].

Lemma check_sound_witness :
  ∃ d' nodes,
    expand_modules sample_canonicalize sample_read_file checked_dataflow ["p"%string] = Ok d' ∧
    resolve_aliases_and_set_defaults (λ _, Ok "{}"%string) d' = Ok nodes ∧
    Forall (λ n, n_module n = None) (d_nodes d') ∧
    (∀ n c, n ∈ d_nodes d' → n_ros2 n = Some c → bridge_ready c n) ∧
    (∀ id n input, nodes !! id = Some n → input ∈ node_inputs n → wired nodes input) ∧
    (∀ id n, nodes !! id = Some n → source_ready (λ _, Ok tt) (λ _, true) n) ∧
    (∀ id n, nodes !! id = Some n → has_python n → Ok tt = Ok tt) ∧
    (∀ id n, nodes !! id = Some n → log_ready n).
Proof.
  apply (check_sound (λ _, Ok "{}"%string) (λ _, Ok tt) (λ _, true) (Ok tt) sample_canonicalize
           sample_read_file checked_dataflow ["p"%string]).
  vm_compute. reflexivity.
Defined.
