(* ===== verification/TypeCheck.v ===== *)
(** * Type annotations of a dataflow

    Models the second half of [libraries/core/src/descriptor/validate.rs]:
    [check_type_annotations_full] with the checks of annotated ports, of metadata and patterns,
    and of the types at both ends of every edge.  The code treats a node, its single operator
    and its operators by three copies of the same calls; here each is a [Site].  The warnings
    keep the data of the messages and not their text.  The compatibility check is total
    ([is_compatible_total]), so that its fuel does not show here. *)

From Stdlib Require Import ZArith Lia Ascii.
From stdpp Require Import base gmap sets list strings.
From S2P Require Import Prelude Message InputMapping Text Types Descriptor.
Local Open Scope list_scope.

Inductive TypeMessage :=
| KeyNotFound (port_kind : string) (port : DataId)
| UnknownType (urn port_kind : string) (port : DataId) (hint : option string)
| MetadataKeyNotFound (output : DataId)
| UnknownPattern (pattern : string)
| EdgeMismatch (input : DataId) (from : UserInputMapping) (out_urn in_urn : string)
    (detail : option SchemaError)
| NotAnnotated (input : DataId) (in_urn : string) (from : UserInputMapping)
| TimerMismatch (input : DataId) (timer_urn expected_urn : string).

Record TypeWarning := mkTypeWarning { warning_node : string; warning_message : TypeMessage }.
Record TypeInference := mkTypeInference {
  inf_node : string;
  inf_port : DataId;
  inferred_urn : string;
  inf_source : UserInputMapping
}.
Record TypeCheckResult := mkTypeCheckResult {
  warnings : list TypeWarning;
  inferences : list TypeInference
}.

Definition TIMER_TYPE : string := "std/core/v1/UInt64".

(** The node itself or one of its operators: its name in warnings, what is put before its
    outputs in an input mapping, and its annotated ports. *)
Record Site := mkSite {
  site_label : string;
  site_prefix : string;
  site_outputs : gset DataId;
  site_output_types : gmap DataId string;
  site_inputs : gmap DataId InputConfig;
  site_input_types : gmap DataId string;
  site_output_metadata : gmap DataId (list string);
  site_pattern : option string
}.

Definition operator_site (label op_id : string) (c : OperatorConfig) : Site :=
  mkSite label (String.append op_id "/") (op_outputs c) (op_output_types c) (op_inputs c)
    (op_input_types c) (op_output_metadata c) (op_pattern c).

Definition node_sites (n : Node) : list Site :=
  [mkSite (n_id n) EmptyString (n_outputs n) (n_output_types n) (n_inputs n) (n_input_types n)
     (n_output_metadata n) (n_pattern n)] ++
  (match n_operator n with
   | Some op => [operator_site (n_id n) (default SINGLE_OPERATOR_DEFAULT_ID (single_id op)) (single_config op)]
   | None => []
   end) ++
  (match n_operators n with
   | Some ops =>
       (λ op, operator_site (String.append (n_id n) (String "/" (opdef_id op))) (opdef_id op)
                (opdef_config op)) <$> ops
   | None => []
   end).

(** ** Ports and metadata *)

Definition check_port_types (registry : TypeRegistry) (label : string) (type_map : gmap DataId string)
    (contains : DataId → bool) (port_kind : string) : list TypeWarning :=
  btree_iter type_map ≫= λ '(port_id, urn),
    (if contains port_id then [] else [mkTypeWarning label (KeyNotFound port_kind port_id)]) ++
    (match registry_resolve registry urn with
     | Some _ => []
     | None => [mkTypeWarning label (UnknownType urn port_kind port_id (suggest registry urn))]
     end).

Definition check_metadata_annotations (label : string) (output_metadata : gmap DataId (list string))
    (pattern : option string) (outputs : gset DataId) : list TypeWarning :=
  (btree_keys output_metadata ≫= λ output_id,
     if bool_decide (output_id ∈ outputs) then []
     else [mkTypeWarning label (MetadataKeyNotFound output_id)]) ++
  (match pattern with
   | Some pat =>
       match pattern_metadata_keys pat with
       | Some _ => []
       | None => [mkTypeWarning label (UnknownPattern pat)]
       end
   | None => []
   end).

Definition check_site (registry : TypeRegistry) (s : Site) : list TypeWarning :=
  check_port_types registry (site_label s) (site_output_types s)
    (λ id, bool_decide (id ∈ site_outputs s)) "output" ++
  check_port_types registry (site_label s) (site_input_types s)
    (λ id, bool_decide (is_Some (site_inputs s !! id))) "input" ++
  check_metadata_annotations (site_label s) (site_output_metadata s) (site_pattern s) (site_outputs s).

(** ** Types of outputs *)

Abbreviation OutputTypes := (gmap (string * string) string) (only parsing).

Definition register_outputs (registry : TypeRegistry) (nid : string) (m : OutputTypes) (s : Site)
    : OutputTypes :=
  foldl (λ (m : OutputTypes) '(output_id, urn),
      match registry_resolve registry urn with
      | Some _ => <[(nid, String.append (site_prefix s) output_id) := urn]> m
      | None => m
      end) m (btree_iter (site_output_types s)).

Definition output_type_map (registry : TypeRegistry) (nodes : list Node) : OutputTypes :=
  foldl (λ m n, foldl (register_outputs registry (n_id n)) m (node_sites n)) ∅ nodes.

(** ** Edges *)

Definition check_schema_compat (registry : TypeRegistry) (out_urn in_urn : string) : option SchemaError :=
  out_def ← registry_resolve registry out_urn;
  in_def ← registry_resolve registry in_urn;
  out_schema ← to_arrow_schema_with_registry registry out_def;
  in_schema ← to_arrow_schema_with_registry registry in_def;
  schema_compatible in_schema out_schema.

Definition timer_input_types (inputs : gmap DataId InputConfig) : gmap DataId string :=
  omap (λ i, match mapping i with MTimer _ => Some TIMER_TYPE | _ => None end) inputs.

Definition compatible (compat : CompatibilityGraph) (from to : string) : bool :=
  default false (is_compatible compat from to).

Section edges.
Context (registry : TypeRegistry) (compat : CompatibilityGraph) (strict : bool).
Context (outputs : OutputTypes).

Definition check_edge (label : string) (input_types timer_types : gmap DataId string)
    (input_id : DataId) (input : InputConfig) : list TypeWarning * list TypeInference :=
  match mapping input with
  | MUser m =>
      match outputs !! (source m, output m), input_types !! input_id with
      | Some out_urn, Some in_urn =>
          if negb (compatible compat out_urn in_urn)
          then ([mkTypeWarning label (EdgeMismatch input_id m out_urn in_urn
                   (check_schema_compat registry out_urn in_urn))], [])
          else ([], [])
      | Some out_urn, None => ([], [mkTypeInference label input_id out_urn m])
      | None, Some in_urn =>
          if strict then ([mkTypeWarning label (NotAnnotated input_id in_urn m)], []) else ([], [])
      | None, None => ([], [])
      end
  | MTimer _ =>
      match input_types !! input_id with
      | Some expected_urn =>
          let timer_urn := default TIMER_TYPE (timer_types !! input_id) in
          if negb (compatible compat timer_urn expected_urn)
          then ([mkTypeWarning label (TimerMismatch input_id timer_urn expected_urn)], [])
          else ([], [])
      | None => ([], [])
      end
  | MLogs _ => ([], [])
  end.

Definition check_edge_mismatches_with_compat (s : Site) : list TypeWarning * list TypeInference :=
  let timer_types := timer_input_types (site_inputs s) in
  let checked := (λ '(input_id, input), check_edge (site_label s) (site_input_types s) timer_types
                                          input_id input) <$> btree_iter (site_inputs s) in
  (mjoin checked.*1, mjoin checked.*2).
End edges.

(** ** The whole check *)

Definition check_type_annotations_full (d : Descriptor) (registry : TypeRegistry) (strict : bool)
    : TypeCheckResult :=
  let compat := new_graph ((λ r, mkTypeRule (def_from r) (def_to r)) <$> d_type_rules d) in
  let sites := d_nodes d ≫= node_sites in
  let outputs := output_type_map registry (d_nodes d) in
  let edges := check_edge_mismatches_with_compat registry compat strict outputs <$> sites in
  mkTypeCheckResult ((sites ≫= check_site registry) ++ mjoin edges.*1) (mjoin edges.*2).

Definition check_type_annotations (d : Descriptor) (registry : TypeRegistry) : list TypeWarning :=
  warnings (check_type_annotations_full d registry false).

(** ** No warnings: the dataflow is well typed *)

Lemma bind_nil {A B} (f : A → list B) l : l ≫= f = [] ↔ ∀ a, a ∈ l → f a = [].
Proof.
  induction l as [|a l IH]; [split; [by intros _ ? ?%elem_of_nil|done]|].
  rewrite bind_cons, app_nil, IH. setoid_rewrite elem_of_cons. naive_solver.
Qed.

Lemma join_fmap_nil {A B} (f : A → list B) l : mjoin (f <$> l) = [] ↔ ∀ a, a ∈ l → f a = [].
Proof. by rewrite list_join_bind, list_fmap_bind, <- bind_nil. Qed.

Lemma some_eq_iff {A} (a : A) (P : A → Prop) : P a ↔ ∀ a', Some a = Some a' → P a'.
Proof. split; [by intros ? ? [= <-]|by intros H; apply H]. Qed.

(** The types the outputs of the dataflow are annotated with, in the order of the nodes. *)
Definition site_declarations (nid : string) (s : Site) : list (string * string * string) :=
  (λ '(output_id, urn), (nid, String.append (site_prefix s) output_id, urn)) <$>
    btree_iter (site_output_types s).
Definition declarations (nodes : list Node) : list (string * string * string) :=
  nodes ≫= λ n, node_sites n ≫= site_declarations (n_id n).
Definition declared_type (nodes : list Node) (key : string * string) : option string :=
  snd <$> last (retain (λ e, bool_decide (e.1 = key)) (declarations nodes)).

Definition add_declaration (registry : TypeRegistry) (m : OutputTypes) (e : string * string * string)
    : OutputTypes :=
  match registry_resolve registry e.2 with Some _ => <[e.1 := e.2]> m | None => m end.

Lemma foldl_bind {A B C} (f : C → B → C) (g : A → list B) l c :
  foldl f c (l ≫= g) = foldl (λ c a, foldl f c (g a)) c l.
Proof. revert c. induction l as [|a l IH]; intros c; [done|]. by rewrite bind_cons, foldl_app, IH. Qed.

Lemma output_type_map_fold registry nodes :
  output_type_map registry nodes = foldl (add_declaration registry) ∅ (declarations nodes).
Proof.
  unfold output_type_map, declarations. rewrite foldl_bind. generalize (∅ : OutputTypes).
  induction nodes as [|n nodes IH]; intros m; [done|]. cbn [foldl]. rewrite IH. f_equal.
  rewrite foldl_bind. revert m. induction (node_sites n) as [|s sites IHs]; intros m; [done|].
  cbn [foldl]. rewrite IHs. f_equal. unfold register_outputs, site_declarations. revert m.
  induction (btree_iter (site_output_types s)) as [|[o u] l IHl]; intros m; [done|].
  cbn [foldl fmap list_fmap]. by rewrite IHl.
Qed.

Lemma fold_declarations registry l m key :
  (∀ e, e ∈ l → is_Some (registry_resolve registry e.2)) →
  foldl (add_declaration registry) m l !! key =
    match last (retain (λ e, bool_decide (e.1 = key)) l) with Some e => Some e.2 | None => m !! key end.
Proof.
  revert m. induction l as [|e l IH] using rev_ind; intros m Hl; [done|].
  rewrite foldl_snoc, retain_app, retain_cons. cbn [retain filter list_filter].
  unfold add_declaration at 1.
  destruct (Hl e) as [def ->]; [set_solver|]. case_bool_decide as Hk.
  - rewrite last_snoc, <- Hk. by rewrite lookup_insert_eq.
  - rewrite lookup_insert_ne by done. rewrite app_nil_r. apply IH. set_solver.
Qed.

Lemma output_type_map_declared registry nodes key :
  (∀ e, e ∈ declarations nodes → is_Some (registry_resolve registry e.2)) →
  output_type_map registry nodes !! key = declared_type nodes key.
Proof.
  intros H. rewrite output_type_map_fold, fold_declarations by done. unfold declared_type.
  by destruct (last _).
Qed.

(** *** What an input is fed by

    The annotation of the output that an input mapping names: one of the node itself, one of its
    single operator, or, with the name of the operator in front, one of its operators.  The check
    does not read the types of a [custom] section, and neither does this. *)
Definition port_type (nodes : list Node) (m : UserInputMapping) (u : string) : Prop :=
  ∃ n, n ∈ nodes ∧ n_id n = source m ∧
    (n_output_types n !! output m = Some u ∨
     (∃ op, n_operator n = Some op ∧ op_output_types (single_config op) !! output m = Some u) ∨
     ∃ ops op out, n_operators n = Some ops ∧ op ∈ ops ∧ output m = String.append (opdef_id op) (String "/" out) ∧
       op_output_types (opdef_config op) !! out = Some u).

(** The names of the nodes and of the operators of a node are distinct, the latter without a
    slash; annotations are either on the outputs of a node or on those of its operators; and
    none is on a node with a single operator, whose edges are not compared
    ([single_operator_edge_unchecked]). *)
Record distinct_ports (nodes : list Node) : Prop := {
  dp_nodes : NoDup (n_id <$> nodes);
  dp_single n op : n ∈ nodes → n_operator n = Some op → op_output_types (single_config op) = ∅;
  dp_operators n ops : n ∈ nodes → n_operators n = Some ops →
    NoDup (opdef_id <$> ops) ∧ n_output_types n = ∅ ∧ Forall (λ op, no_sep "/" (opdef_id op) = true) ops
}.

Lemma append_slash p s : String.append (String.append p "/") s = String.append p (String "/" s).
Proof. induction p as [|c p IH]; [done|]. by rewrite !string_append_cons, IH. Qed.

Lemma slash_inj p q s t :
  no_sep "/" p = true → no_sep "/" q = true →
  String.append p (String "/" s) = String.append q (String "/" t) → p = q ∧ s = t.
Proof.
  revert q. induction p as [|c p IH]; intros [|c' q] Hp Hq; rewrite ?string_append_cons; cbn [String.append].
  - by intros [= ->].
  - intros [= <- _]. by vm_compute in Hq.
  - intros [= -> _]. by vm_compute in Hp.
  - cbn in Hp, Hq. apply andb_true_iff in Hp as [_ Hp], Hq as [_ Hq]. intros [= -> [-> ->]%IH]; done.
Qed.

Section ports.
Context (nodes : list Node) (Hd : distinct_ports nodes).

Lemma fmap_unique {A} (f : A → string) (l : list A) a b : NoDup (f <$> l) → a ∈ l → b ∈ l → f a = f b → a = b.
Proof.
  intros Hnd [i Hi]%list_elem_of_lookup [j Hj]%list_elem_of_lookup Hf. assert (i = j) as ->; [|congruence].
  eapply NoDup_lookup; [exact Hnd|by rewrite list_lookup_fmap, Hi|]. rewrite list_lookup_fmap, Hj. cbn. by rewrite Hf.
Qed.

Lemma declaration_port m u : ((source m, output m), u) ∈ declarations nodes ↔ port_type nodes m u.
Proof.
  unfold declarations, port_type. rewrite list_elem_of_bind. apply exist_proper. intros n. rewrite list_elem_of_bind.
  unfold site_declarations. setoid_rewrite list_elem_of_fmap. split.
  - intros ((s & ([o v] & He & Hin%elem_of_btree_iter) & Hs) & Hn). injection He as -> -> ->. split; [done|]. split; [done|].
    unfold node_sites in Hs. rewrite !elem_of_app, list_elem_of_singleton in Hs.
    destruct Hs as [->|[Hs|Hs]]; [by left|..]; right.
    + left. destruct (n_operator n) as [op|] eqn:Eo; [|by apply elem_of_nil in Hs].
      apply list_elem_of_singleton in Hs as ->. cbn in Hin. by rewrite (dp_single _ Hd n op), lookup_empty in Hin.
    + right. destruct (n_operators n) as [ops|]; [|by apply elem_of_nil in Hs].
      apply list_elem_of_fmap in Hs as (op & -> & Hop). exists ops, op, o. cbn. by rewrite append_slash.
  - intros (Hn & Hid & Ht). split; [|done]. rewrite <- Hid. unfold node_sites. setoid_rewrite elem_of_app.
    destruct Ht as [Ht|[(op & Eo & Ht)|(ops & op & out & -> & Hop & -> & Ht)]].
    + eexists. split; [|left; left]. exists (output m, u). split; [done|]. by apply elem_of_btree_iter.
    + by rewrite (dp_single _ Hd n op), lookup_empty in Ht.
    + eexists. split; [|right; apply elem_of_app; right; apply list_elem_of_fmap; by exists op].
      exists (out, u). cbn. rewrite append_slash. split; [done|]. by apply elem_of_btree_iter.
Qed.

Lemma port_type_unique m u v : port_type nodes m u → port_type nodes m v → u = v.
Proof.
  intros (n & Hn & Hid & Hu) (n' & Hn' & Hid' & Hv).
  assert (n' = n) as -> by (eapply fmap_unique; [apply dp_nodes, Hd|done..|congruence]).
  destruct Hu as [Hu|[(op & Eo & Hu)|(ops & op & out & Eops & Hop & Ho & Hu)]],
    Hv as [Hv|[(op' & Eo' & Hv)|(ops' & op' & out' & Eops' & Hop' & Ho' & Hv)]];
    try (by rewrite (dp_single _ Hd n _ Hn Eo), lookup_empty in Hu);
    try (by rewrite (dp_single _ Hd n _ Hn Eo'), lookup_empty in Hv).
  - congruence.
  - destruct (dp_operators _ Hd n ops' Hn Eops') as (_ & He & _). by rewrite He, lookup_empty in Hu.
  - destruct (dp_operators _ Hd n ops Hn Eops) as (_ & He & _). by rewrite He, lookup_empty in Hv.
  - simplify_eq. destruct (dp_operators _ Hd n ops Hn Eops) as (Hnd & _ & Hsep). rewrite Forall_forall in Hsep.
    rewrite Ho in Ho'. apply slash_inj in Ho' as [Hids ->]; [|by apply Hsep..].
    assert (op = op') as -> by by eapply fmap_unique. congruence.
Qed.

Lemma declared_type_port m u : declared_type nodes (source m, output m) = Some u ↔ port_type nodes m u.
Proof.
  unfold declared_type. set (l := retain _ _).
  assert (∀ e, e ∈ l → port_type nodes m e.2) as Hl.
  { intros [k v] [Hk%bool_decide_eq_true Hin]%elem_of_retain. cbn in *. subst k. by apply declaration_port. }
  split.
  - intros (e & He & ->)%fmap_Some. by apply Hl, last_Some_elem_of.
  - intros Hu. destruct (last l) as [e|] eqn:El; cbn.
    + f_equal. eapply port_type_unique; [|done]. by apply Hl, last_Some_elem_of.
    + apply last_None in El. assert (((source m, output m), u) ∈ l) as Hin.
      { apply elem_of_retain. split; [by apply bool_decide_eq_true|]. by apply declaration_port. }
      rewrite El in Hin. by apply elem_of_nil in Hin.
Qed.
End ports.

Section well_typed.
Context (registry : TypeRegistry) (compat : CompatibilityGraph) (strict : bool) (nodes : list Node).
Context (Hports : distinct_ports nodes).

Definition sites : list Site := nodes ≫= node_sites.

(** What feeds an input has a type that converts to the annotation [t] of the input; in strict
    mode it has one. *)
Definition edge_typed (m : InputMapping) (t : string) : Prop :=
  match m with
  | MUser m =>
      (∀ u, port_type nodes m u → is_compatible compat u t = Some true) ∧
      (strict = true → ∃ u, port_type nodes m u)
  | MTimer _ => is_compatible compat TIMER_TYPE t = Some true
  | MLogs _ => True
  end.

Record site_typed (s : Site) : Prop := {
  st_outputs id urn : site_output_types s !! id = Some urn →
    id ∈ site_outputs s ∧ is_Some (registry_resolve registry urn);
  st_inputs id urn : site_input_types s !! id = Some urn →
    is_Some (site_inputs s !! id) ∧ is_Some (registry_resolve registry urn);
  st_metadata id : is_Some (site_output_metadata s !! id) → id ∈ site_outputs s;
  st_pattern p : site_pattern s = Some p → is_Some (pattern_metadata_keys p)
}.

Definition edges_typed (s : Site) : Prop :=
  ∀ id input t, site_inputs s !! id = Some input → site_input_types s !! id = Some t →
    edge_typed (mapping input) t.

Lemma check_port_types_nil label types contains kind :
  check_port_types registry label types contains kind = [] ↔
  ∀ id urn, types !! id = Some urn → contains id = true ∧ is_Some (registry_resolve registry urn).
Proof.
  unfold check_port_types. rewrite bind_nil. setoid_rewrite <- elem_of_btree_iter. split.
  - intros H id urn Hin. specialize (H _ Hin). cbn in H. apply app_nil in H as [H1 H2].
    destruct (contains id); [|done]. by destruct (registry_resolve registry urn).
  - intros H [id urn] Hin. destruct (H _ _ Hin) as [-> [def ->]]. done.
Qed.

Lemma check_metadata_nil label meta pattern outputs :
  check_metadata_annotations label meta pattern outputs = [] ↔
  (∀ id, is_Some (meta !! id) → id ∈ outputs) ∧
  (∀ p, pattern = Some p → is_Some (pattern_metadata_keys p)).
Proof.
  unfold check_metadata_annotations. rewrite app_nil, bind_nil. setoid_rewrite elem_of_btree_keys.
  apply Morphisms_Prop.and_iff_morphism.
  - split; intros H id Hid; specialize (H id Hid); [|by rewrite bool_decide_eq_true_2].
    destruct (bool_decide (id ∈ outputs)) eqn:E; [by apply bool_decide_eq_true in E|done].
  - destruct pattern as [p|]; [|done].
    destruct (pattern_metadata_keys p) eqn:E; split; [by intros _ ? [= <-]; rewrite E|done..|].
    intros H. destruct (H p eq_refl) as [? Hp]. by rewrite E in Hp.
Qed.

Lemma check_site_nil s : check_site registry s = [] ↔ site_typed s.
Proof.
  unfold check_site. rewrite !app_nil, !check_port_types_nil, check_metadata_nil.
  setoid_rewrite bool_decide_eq_true. split.
  - intros (H1 & H2 & H3 & H4). by split.
  - by intros [H1 H2 H3 H4].
Qed.

Lemma compatible_true u t : compatible compat u t = true ↔ is_compatible compat u t = Some true.
Proof.
  unfold compatible. destruct (is_compatible_total compat u t) as [b ->]. cbn. naive_solver.
Qed.

Lemma timer_type_default inputs id : default TIMER_TYPE (timer_input_types inputs !! id) = TIMER_TYPE.
Proof.
  unfold timer_input_types. rewrite lookup_omap. destruct (inputs !! id) as [i|]; [|done]. cbn.
  by destruct (mapping i).
Qed.

Lemma check_edge_nil outputs label types inputs id input :
  (∀ key, outputs !! key = declared_type nodes key) →
  (check_edge registry compat strict outputs label types (timer_input_types inputs) id input).1 = [] ↔
  ∀ t, types !! id = Some t → edge_typed (mapping input) t.
Proof.
  intros Ho. unfold check_edge, edge_typed. rewrite timer_type_default.
  assert (∀ u t (w : TypeWarning),
    (if negb (compatible compat u t) then ([w], []) else ([], [] : list TypeInference)).1 = [] ↔
    ∀ t', Some t = Some t' → is_compatible compat u t' = Some true) as Hc.
  { intros u t w. rewrite <- (some_eq_iff t (λ t', is_compatible compat u t' = Some true)), <- compatible_true.
    by destruct (compatible compat u t); split. }
  destruct (mapping input) as [i|l|m]; [destruct (types !! id) as [t|]; try done; apply Hc|by destruct (types !! id)|].
  rewrite Ho. destruct (declared_type nodes _) as [u|] eqn:Eu; destruct (types !! id) as [t|]; try done.
  - apply (declared_type_port _ Hports) in Eu. rewrite Hc. split; intros H t' Ht; specialize (H t' Ht).
    + split; [|by exists u]. intros v Hv. by rewrite (port_type_unique _ Hports m v u).
    + by apply H.
  - assert (∀ u, ¬ port_type nodes m u) as Hnone.
    { intros u Hu%(declared_type_port _ Hports). congruence. }
    rewrite <- (some_eq_iff t (λ t, (∀ u, port_type nodes m u → is_compatible compat u t = Some true) ∧ _)).
    destruct strict; split; try done.
    + intros [_ [u Hu]]; [done|]. by apply Hnone in Hu.
    + intros _. split; [|done]. intros u Hu. by apply Hnone in Hu.
Qed.

Lemma edges_typed_nil outputs s :
  (∀ key, outputs !! key = declared_type nodes key) →
  (check_edge_mismatches_with_compat registry compat strict outputs s).1 = [] ↔ edges_typed s.
Proof.
  intros Ho. unfold check_edge_mismatches_with_compat. cbn [fst]. rewrite <- list_fmap_compose.
  rewrite join_fmap_nil. unfold edges_typed. split.
  - intros H id input t Hi%elem_of_btree_iter. specialize (H _ Hi). cbn [compose] in H.
    rewrite check_edge_nil in H by done. auto.
  - intros H [id input] Hi%elem_of_btree_iter. cbn [compose]. rewrite check_edge_nil by done. eauto.
Qed.

Lemma declarations_resolve e :
  (∀ s, s ∈ sites → site_typed s) → e ∈ declarations nodes → is_Some (registry_resolve registry e.2).
Proof.
  intros Hs (n & He & Hn)%list_elem_of_bind. apply list_elem_of_bind in He as (s & He & Hin).
  apply list_elem_of_fmap in He as ([o u] & -> & Ho%elem_of_btree_iter). cbn.
  eapply st_outputs; [|exact Ho]. apply Hs. apply list_elem_of_bind. eauto.
Qed.
End well_typed.


(** ** Edges from single operators *)

Lemma fold_declarations_unique (registry : TypeRegistry) (l : list (string * string * string))
    (m : OutputTypes) (key : string * string) (u : string) :
  (∀ e, e ∈ l → e.1 = key → e.2 = u) → is_Some (registry_resolve registry u) →
  m !! key = Some u ∨ (key, u) ∈ l →
  foldl (add_declaration registry) m l !! key = Some u.
Proof.
  intros Hu [def Hr]. revert m. induction l as [|e l IH]; intros m Hm; cbn [foldl].
  - destruct Hm as [?|?%elem_of_nil]; done.
  - apply IH; [set_solver|]. unfold add_declaration. destruct (decide (e.1 = key)) as [He|He].
    + left. rewrite (Hu e) by (set_solver || done). rewrite Hr, He. by rewrite lookup_insert_eq.
    + destruct Hm as [Hm|[Heq|Hm]%elem_of_cons]; [left|by rewrite <- Heq in He|by right].
      destruct (registry_resolve registry e.2); [by rewrite lookup_insert_ne|done].
Qed.

Lemma fold_declarations_none (registry : TypeRegistry) (l : list (string * string * string))
    (m : OutputTypes) (key : string * string) :
  (∀ e, e ∈ l → e.1 ≠ key) → m !! key = None → foldl (add_declaration registry) m l !! key = None.
Proof.
  revert m. induction l as [|e l IH]; intros m Hl Hm; [done|]. cbn [foldl].
  apply IH; [set_solver|]. unfold add_declaration.
  destruct (registry_resolve registry e.2); [|done]. rewrite lookup_insert_ne; [done|]. apply Hl. left.
Qed.

Section single_operator.
Context (registry : TypeRegistry) (nodes : list Node) (n : Node) (op : SingleOperatorDefinition).
Context (Hin : n ∈ nodes) (Hids : NoDup (n_id <$> nodes)).
Context (Hop : n_operator n = Some op) (Hops : n_operators n = None) (Htypes : n_output_types n = ∅).

Definition single_name : string := default SINGLE_OPERATOR_DEFAULT_ID (single_id op).

(** The outputs declared under the name of the node are those of its operator, prefixed. *)
Lemma single_declarations e :
  e ∈ declarations nodes → e.1.1 = n_id n →
  ∃ out, e.1.2 = String.append single_name (String "/" out) ∧
         op_output_types (single_config op) !! out = Some e.2.
Proof.
  intros (n' & He & Hn')%list_elem_of_bind Hid.
  apply list_elem_of_bind in He as (s & He & Hs).
  apply list_elem_of_fmap in He as ([out u] & -> & Ho%elem_of_btree_iter). cbn in Hid.
  assert (n' = n) as ->.
  { apply list_elem_of_lookup in Hn' as [i Hi], Hin as [j Hj].
    assert (i = j) as ->; [|congruence].
    eapply NoDup_lookup; [exact Hids|by rewrite list_lookup_fmap, Hi|].
    rewrite list_lookup_fmap, Hj. cbn. by rewrite Hid. }
  unfold node_sites in Hs. rewrite Hop, Hops in Hs. cbn in Hs.
  apply elem_of_cons in Hs as [->|Hs]; [by rewrite Htypes in Ho|].
  apply list_elem_of_singleton in Hs as ->. exists out. cbn. by rewrite append_slash.
Qed.

(** The types at the two ends of an edge are never compared when the edge starts at a node
    with a single [operator]: the annotation of the output is recorded under the operator's
    name, while the input mapping, which is not resolved at this point, names the output
    alone.  No mismatch is reported, and in strict mode the output is said to have no
    annotation. *)
Theorem single_operator_edge_unchecked (compat : CompatibilityGraph) (strict : bool) (label : string)
    (types timers : gmap DataId string) (id : DataId) (input : InputConfig) (m : UserInputMapping)
    (out_urn : string) :
  mapping input = MUser m → source m = n_id n → no_sep "/" (output m) = true →
  op_output_types (single_config op) !! output m = Some out_urn →
  is_Some (registry_resolve registry out_urn) →
  let outputs := output_type_map registry nodes in
  outputs !! (n_id n, String.append single_name (String "/" (output m))) = Some out_urn ∧
  check_edge registry compat strict outputs label types timers id input =
    (match types !! id with
     | Some in_urn => if strict then [mkTypeWarning label (NotAnnotated id in_urn m)] else []
     | None => []
     end, []).
Proof.
  intros Hm Hsrc Hno Hout Hres outputs. unfold outputs. rewrite !output_type_map_fold. split.
  - apply fold_declarations_unique; [|done|right].
    + intros e He Hk. destruct (single_declarations e He) as (out & Ho & Ht); [by rewrite Hk|].
      rewrite Hk in Ho. cbn in Ho. apply append_inj_l in Ho. injection Ho as Ho. congruence.
    + apply list_elem_of_bind. exists n. split; [|done].
      apply list_elem_of_bind. exists (operator_site (n_id n) single_name (single_config op)). split.
      * apply list_elem_of_fmap. exists (output m, out_urn). split; [cbn; by rewrite append_slash|].
        by apply elem_of_btree_iter.
      * unfold node_sites. rewrite Hop. right. left.
  - unfold check_edge. rewrite Hm, Hsrc.
    rewrite fold_declarations_none; [by destruct (types !! id), strict| |apply lookup_empty].
    intros e He Hk. destruct (single_declarations e He) as (out & Ho & _); [by rewrite Hk|].
    rewrite Hk in Ho. cbn in Ho. by rewrite Ho, no_sep_append in Hno.
Qed.
End single_operator.

Definition detector_node : Node :=
  let n := plain_node "detector" ∅ ∅ in
  let c := plain_operator ∅ {["box"%string]} in
  {| n with n_path := None;
            n_operator := Some (mkSingleOperator None
              {| c with op_output_types := {["box"%string := "t/v1/Float"%string]} |}) |}.
Definition sink_node : Node :=
  let n := plain_node "sink" {["box"%string := from_node "detector" "box"]} ∅ in
  {| n with n_input_types := {["box"%string := "t/v1/Text"%string]} |}.
Definition sample_registry : TypeRegistry :=
  <["t/v1/Float"%string := mkTypeDef "Float32" []]> {["t/v1/Text"%string := mkTypeDef "Utf8" []]}.

Lemma single_operator_edge_unchecked_witness :
  let outputs := output_type_map sample_registry [detector_node; sink_node] in
  outputs !! ("detector", "op/box")%string = Some "t/v1/Float"%string ∧
  check_edge sample_registry (new_graph []) false outputs "sink" (n_input_types sink_node) ∅ "box"
    (from_node "detector" "box") = ([], []).
Proof.
  apply (single_operator_edge_unchecked sample_registry [detector_node; sink_node] detector_node
           (default (mkSingleOperator None (plain_operator ∅ ∅)) (n_operator detector_node)))
    with (m := mkUserMapping "detector" "box").
  - left.
  - repeat constructor; vm_compute; intros H; inversion H as [|? ? ? H']; inversion H'.
  - reflexivity.
  - reflexivity.
  - reflexivity.
  - reflexivity.
  - reflexivity.
  - reflexivity.
  - vm_compute. reflexivity.
  - vm_compute. by eexists.
Defined.

(** An operator and a node feed the annotated inputs of a sink. *)
Definition tracker_node : Node :=
  let c := plain_operator ∅ {["box"%string]} in
  runtime_node "tracker" [mkOperator "op"
    {| c with op_output_types := {["box"%string := "t/v1/Float"%string]} |}].
Definition camera_node : Node :=
  let n := plain_node "camera" ∅ {["image"%string]} in
  {| n with n_output_types := {["image"%string := "t/v1/Text"%string]} |}.
Definition viewer_node : Node :=
  let n := plain_node "viewer" (<["box"%string := from_node "tracker" "op/box"]>
                                {["image"%string := from_node "camera" "image"]}) ∅ in
  {| n with n_input_types := <["box"%string := "t/v1/Float"%string]> {["image"%string := "t/v1/Text"%string]} |}.
Definition typed_dataflow : Descriptor := plain_descriptor [tracker_node; camera_node; viewer_node].

Lemma typed_dataflow_ports : distinct_ports (d_nodes typed_dataflow).
Proof.
  split.
  - apply (bool_decide_unpack _). by vm_compute.
  - intros n op Hn. repeat (apply elem_of_cons in Hn as [->|Hn]; [done|]). by apply elem_of_nil in Hn.
  - intros n ops Hn. apply elem_of_cons in Hn as [->|Hn].
    + intros [= <-]. split_and!; [apply NoDup_singleton|done|by constructor].
    + repeat (apply elem_of_cons in Hn as [->|Hn]; [done|]). by apply elem_of_nil in Hn.
Qed.

