(* ===== verification/LogFiles.v ===== *)
(** * The log files of a node

    Models [binaries/daemon/src/log.rs] (paths and rotation), the conversion of printed lines
    into log messages ([libraries/message/src/common.rs]) and the task of
    [binaries/daemon/src/spawn/prepared.rs] that writes them, publishes them and rotates the
    files.

    The directory of a dataflow maps names to files; a file handle keeps writing to its file
    when the name is moved.  Every call that can fail is decided by [LineEnv].  JSON, the
    RFC 3339 format and UUID texts are the parameters [LogLib]; a [DateTime] is a number of
    nanoseconds. *)

From Stdlib Require Import ZArith Lia Ascii DecimalString DecimalN.
From stdpp Require Import base list countable gmap strings.
From S2P Require Import Prelude Message Recording InputMapping Text Arrow Descriptor Validate.
Local Open Scope nat_scope.

(** ** Lines ([str::split_inclusive], [str::lines]) *)

Definition newline : ascii := "010"%char.
Definition carriage_return : ascii := "013"%char.

Fixpoint split_inclusive (s : string) : list string :=
  match s with
  | EmptyString => []
  | String c s =>
      if bool_decide (c = newline) then String c EmptyString :: split_inclusive s
      else match split_inclusive s with
           | [] => [String c EmptyString]
           | p :: ps => String c p :: ps
           end
  end.

(** The line without its ending: a [\n], and a [\r] in front of it. *)
Definition chomp (line : string) : string :=
  match strip_suffix_char newline line with
  | Some line => default line (strip_suffix_char carriage_return line)
  | None => line
  end.
Definition lines (s : string) : list string := chomp <$> split_inclusive s.

Definition concat_strings (l : list string) : string := foldr String.append EmptyString l.

(** ** Log messages *)

Record LogMessage := mkLogMessage {
  m_build_id : option Uuid;
  m_dataflow_id : option DataflowId;
  m_node_id : option NodeId;
  m_daemon_id : option DaemonId;
  m_level : LogLevelOrStdout;
  m_target : option string;
  m_module_path : option string;
  m_file : option string;
  m_line : option Z;
  m_message : string;
  m_timestamp : Z;
  m_fields : option (gmap string string)
}.

Record LogMessageHelper := mkHelper {
  h_build_id : option Uuid;
  h_dataflow_id : option DataflowId;
  h_node_id : option NodeId;
  h_daemon_id : option DaemonId;
  h_level : LogLevelOrStdout;
  h_target : option string;
  h_module_path : option string;
  h_file : option string;
  h_line : option Z;
  h_message : option string;
  h_timestamp : Z;
  h_fields : option (gmap string string)
}.

(** [serde_json::Value]. *)
Inductive Json :=
| JNull
| JBool (b : bool)
| JNumber (text : string)
| JString (s : string)
| JArray (l : list Json)
| JObject (l : list (string * Json)).

(** [Value::get] with a key, and [Value::as_str]. *)
Definition json_get (key : string) (v : Json) : option Json :=
  match v with
  | JObject l => (λ x, x.2.2) <$> list_find (λ kv, kv.1 = key) l
  | _ => None
  end.
Definition json_str (v : Json) : option string :=
  match v with JString s => Some s | _ => None end.

Class LogLib := {
  helper_from_str : string → option LogMessageHelper;
  message_from_str : string → option LogMessage;
  message_to_string : LogMessage → option string;
  value_from_str : string → option Json;
  value_to_vec : Json → option string;
  uuid_parse_str : string → option Uuid;
  to_rfc3339_millis : Z → string;
  parse_from_rfc3339 : string → option Z
}.

(** ** The directory of a dataflow *)

Abbreviation FileId := nat (only parsing).

Record Fs := mkFs {
  dir : gmap string FileId;
  data : gmap FileId string;
  next_id : FileId
}.
Record Handle := mkHandle { h_id : FileId; h_pos : nat }.

Definition fs_exists (p : string) (f : Fs) : bool := bool_decide (is_Some (dir f !! p)).
Definition fs_read (p : string) (f : Fs) : option string := dir f !! p ≫= λ i, data f !! i.

(** [File::create]: opens and empties the file, or makes a new one. *)
Definition fs_create (p : string) (f : Fs) : Handle * Fs :=
  match dir f !! p with
  | Some i => (mkHandle i 0, mkFs (dir f) (<[i := EmptyString]> (data f)) (next_id f))
  | None =>
      let i := next_id f in
      (mkHandle i 0, mkFs (<[p := i]> (dir f)) (<[i := EmptyString]> (data f)) (S i))
  end.

(** A write at the position of the handle; a gap is filled with zero bytes. *)
Fixpoint zeros (n : nat) : string :=
  match n with O => EmptyString | S n => String "000"%char (zeros n) end.
Definition write_string (pos : nat) (text content : string) : string :=
  let n := String.length content in
  if (pos <=? n)%nat then
    String.append (String.substring 0 pos content)
      (String.append text
         (String.substring (pos + String.length text) (n - (pos + String.length text)) content))
  else String.append content (String.append (zeros (pos - n)) text).
Definition fs_write (h : Handle) (text : string) (f : Fs) : Handle * Fs :=
  (mkHandle (h_id h) (h_pos h + String.length text),
   mkFs (dir f) (alter (write_string (h_pos h) text) (h_id h) (data f)) (next_id f)).

(** [std::fs::remove_file] and [std::fs::rename]; [ok] decides whether the call succeeds. *)
Definition fs_remove (ok : bool) (p : string) (f : Fs) : res unit * Fs :=
  if ok && fs_exists p f then (Ok tt, mkFs (delete p (dir f)) (data f) (next_id f))
  else (Err "remove_file", f).
Definition fs_rename (ok : bool) (from to : string) (f : Fs) : res unit * Fs :=
  match dir f !! from with
  | Some i =>
      if ok then (Ok tt, mkFs (<[to := i]> (delete from (dir f))) (data f) (next_id f))
      else (Err "rename", f)
  | None => (Err "rename", f)
  end.

(** ** Paths and rotation (log.rs)

    Names are relative to [<working_dir>/out/<dataflow_id>]. *)

Definition log_path (node_id : NodeId) : string :=
  String.append "log_" (String.append node_id ".jsonl").
Definition log_path_rotated (node_id : NodeId) (index : nat) : string :=
  String.append "log_"
    (String.append node_id (String.append "." (String.append (print_u64 (Z.of_nat index)) ".jsonl"))).

Definition DEFAULT_MAX_ROTATED_FILES : nat := 5.

(** Which file operations of a rotation succeed; [rename_ok 0] is the current file. *)
Record RotateEnv := mkRotateEnv { remove_ok : bool; rename_ok : nat → bool }.
Definition all_ok : RotateEnv := mkRotateEnv true (λ _, true).

(** The loop [for i in (1..max_files).rev()], from [i] downwards. *)
Fixpoint shift_files (env : RotateEnv) (node_id : NodeId) (i : nat) (f : Fs) : res unit * Fs :=
  match i with
  | O => (Ok tt, f)
  | S i' =>
      if fs_exists (log_path_rotated node_id i) f then
        match fs_rename (rename_ok env i) (log_path_rotated node_id i) (log_path_rotated node_id (i + 1)) f with
        | (Ok _, f) => shift_files env node_id i' f
        | failed => failed
        end
      else shift_files env node_id i' f
  end.

Definition rotate_log_files (env : RotateEnv) (node_id : NodeId) (max_files : nat) (f : Fs)
    : res unit * Fs :=
  let oldest := log_path_rotated node_id max_files in
  let '(r, f) := if fs_exists oldest f then fs_remove (remove_ok env) oldest f else (Ok tt, f) in
  match r with
  | Ok _ =>
      let '(r, f) := shift_files env node_id (max_files - 1) f in
      match r with
      | Ok _ =>
          let current := log_path node_id in
          if fs_exists current f
          then fs_rename (rename_ok env 0) current (log_path_rotated node_id 1) f
          else (Ok tt, f)
      | _ => (r, f)
      end
  | _ => (r, f)
  end.

Section log_task.
Context `{LogLib} {T : Type} `{ArrowLib T}.

(** [IntoArrow for &str]: a string array with one element. *)
Variable str_array : string → ArrayData T.

(** ** From the printed form to a message (common.rs) *)

Definition parse_u32 (s : string) : option Z :=
  v ← parse_u64 s; if (v <=? 2 ^ 32 - 1)%Z then Some v else None.

Definition parse_daemon_id (id : string) : option DaemonId :=
  match split_once "-" id with
  | Some (machine, rest) => mkDaemonId (Some machine) <$> uuid_parse_str rest
  | None => mkDaemonId None <$> uuid_parse_str id
  end.

(** [helper.x.or(..)] with the entry of [fields]. *)
Definition or_field {A} (h : LogMessageHelper) (own : option A) (key : string)
    (parse : string → option A) : option A :=
  match own with
  | Some _ => own
  | None => fields ← h_fields h; text ← fields !! key; parse text
  end.

Definition message_of_helper (h : LogMessageHelper) : LogMessage := {|
  m_build_id := or_field h (h_build_id h) "build_id" uuid_parse_str;
  m_dataflow_id := or_field h (h_dataflow_id h) "dataflow_id" uuid_parse_str;
  m_node_id := or_field h (h_node_id h) "node_id" Some;
  m_daemon_id := or_field h (h_daemon_id h) "daemon_id" parse_daemon_id;
  m_level := h_level h;
  m_target := or_field h (h_target h) "target" Some;
  m_module_path := or_field h (h_module_path h) "module_path" Some;
  m_file := or_field h (h_file h) "file" Some;
  m_line := or_field h (h_line h) "line" parse_u32;
  m_message := default EmptyString (or_field h (h_message h) "message" Some);
  m_timestamp := h_timestamp h;
  m_fields := h_fields h
|}.

(** ** Loggers (log.rs) *)

Inductive LogDestination := ToCoordinator | ToChannel | ToTracing.
Record Logger := mkLogger { destination : LogDestination; logger_daemon : DaemonId }.
Record NodeLogger := mkNodeLogger {
  nl_node : NodeId;
  nl_dataflow : DataflowId;
  nl_daemon : DaemonId;
  nl_logger : Logger
}.

(** What the task hands on: an output of the node, a message for the [dora/logs] inputs, or a
    message for the coordinator, the channel of the CLI or the daemon's own trace. *)
Inductive LogEffect :=
| SendOutput (dataflow_id : DataflowId) (node_id : NodeId) (output : string)
    (info : ArrowTypeInfo T) (sample : Bytes)
| Broadcast (dataflow_id : DataflowId) (m : LogMessage)
| CoordinatorEvent (daemon_id : DaemonId) (m : LogMessage)
| ChannelMessage (m : LogMessage)
| TraceMessage (m : LogMessage).

(** [ok]: the connection or the channel takes the message.  Trace level messages do not go
    into the trace. *)
Definition logger_log (ok : bool) (l : Logger) (m : LogMessage) : list LogEffect :=
  match destination l with
  | ToCoordinator => if ok then [CoordinatorEvent (logger_daemon l) m] else []
  | ToChannel => if ok then [ChannelMessage m] else []
  | ToTracing => if bool_decide (m_level m = LLevel LTrace) then [] else [TraceMessage m]
  end.

Definition node_log (ok : bool) (now : Z) (l : NodeLogger) (level : LogLevel) (target : option string)
    (text : string) : list LogEffect :=
  logger_log ok (nl_logger l) {|
    m_build_id := None;
    m_dataflow_id := Some (nl_dataflow l);
    m_node_id := Some (nl_node l);
    m_daemon_id := Some (nl_daemon l);
    m_level := LLevel level;
    m_target := target;
    m_module_path := None;
    m_file := None;
    m_line := None;
    m_message := text;
    m_timestamp := now;
    m_fields := None
  |}.

(** ** The log task (prepared.rs) *)

Inductive LogStream := Stdout | Stderr.
Record LogLine := mkLogLine { content : string; stream : LogStream }.

Record TaskConfig := mkTaskConfig {
  logger : NodeLogger;
  send_stdout_to : option string;
  send_logs_to : option string;
  min_level : option LogLevelOrStdout;
  max_size : option Z;
  max_rotated : nat;
  quiet : bool                                     (* [DORA_QUIET] is set *)
}.
Definition node_id (cfg : TaskConfig) : NodeId := nl_node (logger cfg).
Definition dataflow_id (cfg : TaskConfig) : DataflowId := nl_dataflow (logger cfg).

(** The settings are read from the resolved node after the process was started. *)
Definition task_config (l : NodeLogger) (quiet : bool) (n : ResolvedNode) : res TaskConfig :=
  send_stdout_to ← send_stdout_as n;
  send_logs_to ← send_logs_as n;
  min_level ← min_log_level n;
  max_size ← max_log_size n;
  max_rotated ← max_rotated_files n;
  Ok (mkTaskConfig l send_stdout_to send_logs_to min_level max_size
        (default DEFAULT_MAX_ROTATED_FILES (Z.to_nat <$> max_rotated)) quiet).

(** What happens outside while a line is processed: the clock, whether the channels take the
    events, how many bytes a failing write wrote, and which file operations succeed. *)
Record LineEnv := mkLineEnv {
  now : Z;
  stdout_taken : bool;
  broadcast_taken : bool;
  logs_taken : bool;
  write_fault : option nat;
  rotate_env : RotateEnv;
  create_ok : bool;
  forward_ok : bool
}.

Record TaskState := mkTask { fs : Fs; file : Handle; bytes_written : Z }.

Definition publish_text (cfg : TaskConfig) (taken : bool) (output text : string) : res (list LogEffect) :=
  let a := str_array text in
  '(info, sample) ← copy_array_into_sample (replicate (required_data_size a) Byte.x00) a;
  Ok (if taken then [SendOutput (dataflow_id cfg) (node_id cfg) output info sample] else []).

(** All lines of the text, without their endings, in one. *)
Definition format_content (content : string) : string := concat_strings (lines content).

Definition build_message (cfg : TaskConfig) (now : Z) (formatted : string) : LogMessage :=
  match helper_from_str formatted with
  | Some h =>
      let m := message_of_helper h in
      {| m with m_dataflow_id := Some (dataflow_id cfg); m_node_id := Some (node_id cfg);
                m_daemon_id := Some (nl_daemon (logger cfg)) |}
  | None => {|
      m_build_id := None;
      m_dataflow_id := Some (dataflow_id cfg);
      m_node_id := Some (node_id cfg);
      m_daemon_id := Some (nl_daemon (logger cfg));
      m_level := LStdout;
      m_target := None;
      m_module_path := None;
      m_file := None;
      m_line := None;
      m_message := formatted;
      m_timestamp := now;
      m_fields := None
    |}
  end.

Definition opt_string (o : option string) : Json :=
  match o with Some s => JString s | None => JNull end.
Definition opt_fields (o : option (gmap string string)) : Json :=
  match o with Some m => JObject (prod_map id JString <$> map_to_list m) | None => JNull end.

(** The members of the [json!] object; in which order a text has them is up to [value_to_vec]. *)
Definition log_entry (cfg : TaskConfig) (stream : LogStream) (m : LogMessage) : Json :=
  JObject [("ts", JString (to_rfc3339_millis (m_timestamp m)));
           ("level", JString (format_log_level (m_level m)));
           ("node", JString (node_id cfg));
           ("stream", JString (match stream with Stdout => "stdout" | Stderr => "stderr" end));
           ("msg", JString (m_message m));
           ("target", opt_string (m_target m));
           ("fields", opt_fields (m_fields m))].

(** The bytes of an entry: one line. *)
Definition entry_text (cfg : TaskConfig) (stream : LogStream) (m : LogMessage) : string :=
  String.append (default EmptyString (value_to_vec (log_entry cfg stream m))) (String newline EmptyString).

Definition write_entry (cfg : TaskConfig) (env : LineEnv) (text : string) (s : TaskState)
    : list LogEffect * TaskState :=
  match write_fault env with
  | None =>
      let '(h, f) := fs_write (file s) text (fs s) in
      ([], mkTask f h (u64_wrap (bytes_written s + Z.of_nat (String.length text))))
  | Some k =>
      let '(h, f) := fs_write (file s) (String.substring 0 k text) (fs s) in
      (node_log (forward_ok env) (now env) (logger cfg) LError (Some "daemon") "Could not write log to file",
       mkTask f h (bytes_written s))
  end.

(** Rotates the files if the current one is full; [false] if the task stops. *)
Definition rotate_if_full (cfg : TaskConfig) (env : LineEnv) (s : TaskState)
    : list LogEffect * (TaskState * bool) :=
  match max_size cfg with
  | Some max_size =>
      if (max_size <=? bytes_written s)%Z then
        let '(r, f) := rotate_log_files (rotate_env env) (node_id cfg) (max_rotated cfg) (fs s) in
        let report text := node_log (forward_ok env) (now env) (logger cfg) LError (Some "daemon") text in
        let e := match r with Ok _ => [] | _ => report "Could not rotate log files" end in
        if create_ok env then
          let '(h, f) := fs_create (log_path (node_id cfg)) f in (e, (mkTask f h 0, true))
        else ((e ++ report "Could not create new log file after rotation")%list,
              (mkTask f (file s) (bytes_written s), false))
      else ([], (s, true))
  | None => ([], (s, true))
  end.

(** The message of a line, unless [min_log_level] drops it. *)
Definition kept_message (cfg : TaskConfig) (env : LineEnv) (line : LogLine) : option LogMessage :=
  let m := build_message cfg (now env) (format_content (content line)) in
  match min_level cfg with
  | Some min => if passes (m_level m) min then Some m else None
  | None => Some m
  end.

(** The rest of the round, for a message that is kept. *)
Definition store_message (cfg : TaskConfig) (env : LineEnv) (stream : LogStream) (m : LogMessage)
    (s : TaskState) : res (list LogEffect * (TaskState * bool)) :=
  let e1 := if broadcast_taken env then [Broadcast (dataflow_id cfg) m] else [] in
  e2 ← (match send_logs_to cfg, message_to_string m with
        | Some output, Some json => publish_text cfg (logs_taken env) output json
        | _, _ => Ok []
        end);
  let '(e3, s) := write_entry cfg env (entry_text cfg stream m) s in
  let '(e4, (s, continue)) := rotate_if_full cfg env s in
  let e5 := if continue && negb (quiet cfg)
            then logger_log (forward_ok env) (nl_logger (logger cfg)) m else [] in
  Ok ((e1 ++ e2 ++ e3 ++ e4 ++ e5)%list, (s, continue)).

(** One round of the loop. *)
Definition log_line (cfg : TaskConfig) (env : LineEnv) (line : LogLine) (s : TaskState)
    : res (list LogEffect * (TaskState * bool)) :=
  e1 ← (match send_stdout_to cfg with
        | Some output => publish_text cfg (stdout_taken env) output (content line)
        | None => Ok []
        end);
  match kept_message cfg env line with
  | Some m => '(e2, s) ← store_message cfg env (stream line) m s; Ok ((e1 ++ e2)%list, s)
  | None => Ok (e1, (s, true))
  end.

(** The loop over the lines received; it ends early when no new file can be created. *)
Fixpoint log_lines (cfg : TaskConfig) (received : list (LineEnv * LogLine)) (s : TaskState)
    : res (list LogEffect * (TaskState * bool)) :=
  match received with
  | [] => Ok ([], (s, true))
  | (env, line) :: received =>
      '(e1, (s, continue)) ← log_line cfg env line s;
      match continue with
      | true => '(e2, s) ← log_lines cfg received s; Ok ((e1 ++ e2)%list, s)
      | false => Ok (e1, (s, false))
      end
  end.

(** The file is created (and emptied) each time the process of the node is started. *)
Definition start_task (cfg : TaskConfig) (f : Fs) : TaskState :=
  let '(h, f) := fs_create (log_path (node_id cfg)) f in mkTask f h 0.

End log_task.

(** ** Lemmas on strings *)

Lemma append_nil_r s : String.append s EmptyString = s.
Proof. induction s as [|c s IH]; [done|]. by rewrite string_append_cons, IH. Qed.
Lemma append_assoc a b c : String.append (String.append a b) c = String.append a (String.append b c).
Proof. induction a as [|x a IH]; [done|]. by rewrite !string_append_cons, IH. Qed.
Lemma length_append a b : String.length (String.append a b) = String.length a + String.length b.
Proof. induction a as [|x a IH]; [done|]. rewrite string_append_cons. cbn. by rewrite IH. Qed.
Lemma append_inj_r a b c : String.append a c = String.append b c → a = b.
Proof.
  intros E. assert (String.length a = String.length b) as Hl.
  { apply (f_equal String.length) in E. rewrite !length_append in E. lia. }
  revert b E Hl. induction a as [|x a IH]; intros [|y b] E Hl; cbn in Hl; try done.
  rewrite !string_append_cons in E. injection E as -> E. f_equal. apply IH; [done|lia].
Qed.

Lemma concat_strings_app k l :
  concat_strings (k ++ l)%list = String.append (concat_strings k) (concat_strings l).
Proof.
  induction k as [|s k IH]; [done|]. rewrite <- app_comm_cons.
  change (String.append s (concat_strings (k ++ l)%list) =
          String.append (String.append s (concat_strings k)) (concat_strings l)).
  by rewrite IH, append_assoc.
Qed.

Lemma substring_all s n : n = String.length s → String.substring 0 n s = s.
Proof. intros ->. induction s as [|c s IH]; [done|]. cbn. by rewrite IH. Qed.
Lemma substring_none s n : String.substring n 0 s = EmptyString.
Proof. revert n. induction s as [|c s IH]; intros [|n]; try done. apply IH. Qed.

Lemma write_string_end c text : write_string (String.length c) text c = String.append c text.
Proof.
  unfold write_string. rewrite Nat.leb_refl, substring_all by done.
  replace (_ - _) with 0 by lia. by rewrite substring_none, append_nil_r.
Qed.

(** ** Lemmas on names *)

(** The names of the files of a node: the current one and the rotated ones. *)
Definition file_name (node_id : NodeId) (k : nat) : string :=
  match k with O => log_path node_id | S _ => log_path_rotated node_id k end.

Lemma print_u64_inj i j : print_u64 (Z.of_nat i) = print_u64 (Z.of_nat j) → i = j.
Proof.
  unfold print_u64. intros E%(f_equal NilZero.uint_of_string).
  rewrite !NilZero.usu in E by apply to_uint_nonnil. injection E as E%Unsigned.to_uint_inj. lia.
Qed.

Lemma log_path_rotated_inj n i j : log_path_rotated n i = log_path_rotated n j → i = j.
Proof. intros E%append_inj_l%append_inj_l%append_inj_l%append_inj_r%print_u64_inj. done. Qed.

Lemma length_log_path n : String.length (log_path n) = String.length n + 10.
Proof. unfold log_path. rewrite !length_append. cbn. lia. Qed.
Lemma length_log_path_rotated n i : String.length n + 10 < String.length (log_path_rotated n i).
Proof. unfold log_path_rotated. rewrite !length_append. cbn. lia. Qed.

Lemma file_name_inj n i j : file_name n i = file_name n j → i = j.
Proof.
  destruct i as [|i], j as [|j]; cbn [file_name]; [done| | |].
  - intros E%(f_equal String.length). rewrite length_log_path in E.
    pose proof (length_log_path_rotated n (S j)). lia.
  - intros E%(f_equal String.length). rewrite length_log_path in E.
    pose proof (length_log_path_rotated n (S i)). lia.
  - apply log_path_rotated_inj.
Qed.

(** ** Lemmas on the directory *)

Record fs_wf (f : Fs) : Prop := {
  wf_data p i : dir f !! p = Some i → i < next_id f ∧ is_Some (data f !! i);
  wf_inj p q i : dir f !! p = Some i → dir f !! q = Some i → p = q
}.

Lemma fs_exists_true p f : fs_exists p f = true ↔ is_Some (dir f !! p).
Proof. apply bool_decide_eq_true. Qed.
Lemma fs_exists_false p f : fs_exists p f = false ↔ dir f !! p = None.
Proof. unfold fs_exists. rewrite bool_decide_eq_false, eq_None_not_Some. done. Qed.

(** What an operation on names leaves as it was. *)
Definition same_files (f f' : Fs) : Prop := data f' = data f ∧ next_id f' = next_id f.

Lemma fs_wf_create p f : fs_wf f → fs_wf (fs_create p f).2.
Proof.
  intros [Hd Hi]. unfold fs_create. destruct (dir f !! p) as [i|] eqn:E; cbn; split; cbn.
  - intros q j Hq. destruct (Hd q j Hq) as [? ?]. split; [done|].
    destruct (decide (i = j)) as [->|]; [by rewrite lookup_insert_eq|by rewrite lookup_insert_ne].
  - done.
  - intros q j. destruct (decide (p = q)) as [->|]; [rewrite lookup_insert_eq|rewrite lookup_insert_ne by done].
    + intros [= <-]. rewrite lookup_insert_eq. split; [lia|done].
    + intros Hq. destruct (Hd q j Hq). rewrite lookup_insert_ne by lia. split; [lia|done].
  - intros q r j. rewrite !lookup_insert_Some. intros [[<- <-]|[? Hq]] [[<- Hr]|[? Hr]]; try done.
    + apply Hd in Hr. lia.
    + apply Hd in Hq. lia.
    + by eapply Hi.
Qed.

Lemma fs_wf_rename from to f : fs_wf f → fs_wf (fs_rename true from to f).2.
Proof.
  intros Hwf. pose proof Hwf as [Hd Hi]. unfold fs_rename. destruct (dir f !! from) as [i|] eqn:E; [|done].
  cbn. split; cbn.
  - intros q j. rewrite lookup_insert_Some, lookup_delete_Some. intros [[<- <-]|(? & ? & ?)]; eauto.
  - intros q r j. rewrite !lookup_insert_Some, !lookup_delete_Some.
    intros [[<- <-]|(? & Hq & Hqj)] [[<- Hr]|(? & Hr & Hrj)]; try done; subst; eauto.
    + exfalso. apply Hr. eauto.
    + exfalso. apply Hq. eauto.
Qed.

Lemma fs_wf_delete p f : fs_wf f → fs_wf (mkFs (delete p (dir f)) (data f) (next_id f)).
Proof.
  intros [Hd Hi]. split; cbn.
  - intros q i [_ ?]%lookup_delete_Some. eauto.
  - intros q r i [_ ?]%lookup_delete_Some [_ ?]%lookup_delete_Some. eauto.
Qed.

Lemma fs_read_create p q f : fs_wf f →
  fs_read q (fs_create p f).2 = if decide (q = p) then Some EmptyString else fs_read q f.
Proof.
  intros [Hd Hi]. unfold fs_read, fs_create. destruct (dir f !! p) as [i|] eqn:E; cbn.
  - case_decide as Hq; [subst; rewrite E; cbn; by rewrite lookup_insert_eq|].
    destruct (dir f !! q) as [j|] eqn:Ej; [|done]. cbn. rewrite lookup_insert_ne; [done|naive_solver].
  - case_decide as Hq; [subst; rewrite lookup_insert_eq; cbn; by rewrite lookup_insert_eq|].
    rewrite lookup_insert_ne by done. destruct (dir f !! q) as [j|] eqn:Ej; [|done]. cbn.
    apply Hd in Ej as [? ?]. rewrite lookup_insert_ne by lia. done.
Qed.

Lemma dir_create p f : dir (fs_create p f).2 !! p = Some (h_id (fs_create p f).1) ∧
  h_pos (fs_create p f).1 = 0 ∧ ∀ q, q ≠ p → dir (fs_create p f).2 !! q = dir f !! q.
Proof.
  unfold fs_create. destruct (dir f !! p) eqn:E; cbn; [done|].
  rewrite lookup_insert_eq. split_and!; [done..|]. intros q Hq. by rewrite lookup_insert_ne.
Qed.

(** ** Rotation *)

Lemma fs_rename_spec from to f i :
  dir f !! from = Some i → ∃ f', fs_rename true from to f = (Ok tt, f') ∧ same_files f f' ∧
    dir f' = <[to := i]> (delete from (dir f)).
Proof. intros E. unfold fs_rename. rewrite E. by eexists. Qed.

(** Moving one file, if it exists, to a name that is free. *)
Definition moved (from to : string) (f f' : Fs) : Prop :=
  same_files f f' ∧ dir f' !! from = None ∧ dir f' !! to = dir f !! from ∧
  ∀ q, q ≠ from → q ≠ to → dir f' !! q = dir f !! q.

Lemma move_file from to f :
  from ≠ to → dir f !! to = None → fs_wf f →
  ∃ f', (if fs_exists from f then fs_rename true from to f else (Ok tt, f)) = (Ok tt, f') ∧
    moved from to f f' ∧ fs_wf f'.
Proof.
  intros Hne Hto Hwf. destruct (fs_exists from f) eqn:E.
  - apply fs_exists_true in E as [i Hi].
    destruct (fs_rename_spec from to f i Hi) as (f' & Hr & Hs & Hdir).
    exists f'. split; [done|]. split.
    + split; [done|]. rewrite Hdir, Hi. split_and!.
      * rewrite lookup_insert_ne by done. apply lookup_delete_eq.
      * apply lookup_insert_eq.
      * intros q ??. by rewrite lookup_insert_ne, lookup_delete_ne.
    + pose proof (fs_wf_rename from to f Hwf) as H. by rewrite Hr in H.
  - apply fs_exists_false in E. exists f. split; [done|]. split; [|done]. split; [done|].
    rewrite E, Hto. done.
Qed.

Lemma same_files_trans f g h : same_files f g → same_files g h → same_files f h.
Proof. unfold same_files. intuition congruence. Qed.

Lemma shift_unfold n i f :
  shift_files all_ok n (S i) f =
  match (if fs_exists (file_name n (S i)) f
         then fs_rename true (file_name n (S i)) (file_name n (S (S i))) f else (Ok tt, f)) with
  | (Ok _, f) => shift_files all_ok n i f
  | failed => failed
  end.
Proof.
  cbn [shift_files]. rewrite Nat.add_1_r. cbn [rename_ok all_ok file_name]. by destruct (fs_exists _ f).
Qed.

Lemma shift_files_spec n i f :
  dir f !! file_name n (S i) = None → fs_wf f →
  ∃ f', shift_files all_ok n i f = (Ok tt, f') ∧ fs_wf f' ∧ same_files f f' ∧
    dir f' !! file_name n 1 = None ∧
    (∀ k, k < i → dir f' !! file_name n (S (S k)) = dir f !! file_name n (S k)) ∧
    (∀ p, (∀ k, k ≤ i → p ≠ file_name n (S k)) → dir f' !! p = dir f !! p).
Proof.
  revert f. induction i as [|i IH]; intros f Hfree Hwf.
  { exists f. split_and!; try done. intros. lia. }
  rewrite shift_unfold. assert (∀ j k, j ≠ k → file_name n j ≠ file_name n k) as Hne.
  { intros j k Hjk E. by apply Hjk, (file_name_inj n). }
  destruct (move_file (file_name n (S i)) (file_name n (S (S i))) f) as (g & -> & Hm & Hwg);
    [apply Hne; lia|done..|].
  destruct Hm as (Hs & Hfrom & Hto & Hother).
  destruct (IH g Hfrom Hwg) as (f' & -> & Hwf' & Hs' & Hone & Hshift & Hrest).
  exists f'. split_and!; [done..|by eapply same_files_trans|done| |].
  - intros k Hk. destruct (decide (k = i)) as [->|].
    + rewrite Hrest, Hto; [done|]. intros k Hki. apply Hne. lia.
    + rewrite Hshift by lia. apply Hother; apply Hne; lia.
  - intros p Hp. rewrite Hrest, Hother; [done|apply Hp; lia|apply Hp; lia|]. intros k Hk. apply Hp. lia.
Qed.

(** Without faults every file moves up by one, the oldest one is deleted, and the other files
    of the directory stay. *)
Lemma rotate_log_files_spec n max_files f :
  1 ≤ max_files → fs_wf f →
  ∃ f', rotate_log_files all_ok n max_files f = (Ok tt, f') ∧ fs_wf f' ∧ same_files f f' ∧
    dir f' !! file_name n 0 = None ∧
    (∀ k, k < max_files → dir f' !! file_name n (S k) = dir f !! file_name n k) ∧
    (∀ p, (∀ k, k ≤ max_files → p ≠ file_name n k) → dir f' !! p = dir f !! p).
Proof.
  intros Hmax Hwf. destruct max_files as [|m]; [lia|]. unfold rotate_log_files.
  assert (∀ j k, j ≠ k → file_name n j ≠ file_name n k) as Hne.
  { intros j k Hjk E. by apply Hjk, (file_name_inj n). }
  change (log_path_rotated n (S m)) with (file_name n (S m)).
  set (g := mkFs (delete (file_name n (S m)) (dir f)) (data f) (next_id f)).
  assert (fs_wf g) as Hwg by by apply fs_wf_delete.
  assert ((if fs_exists (file_name n (S m)) f then fs_remove (remove_ok all_ok) (file_name n (S m)) f
           else (Ok tt, f)) = (Ok tt, g)) as ->.
  { unfold fs_remove. destruct (fs_exists _ f) eqn:E; [done|]. apply fs_exists_false in E.
    unfold g. rewrite delete_id by done. by destruct f. }
  cbn [Nat.sub]. rewrite Nat.sub_0_r.
  destruct (shift_files_spec n m g) as (h & -> & Hwh & Hs & Hone & Hshift & Hrest);
    [apply lookup_delete_eq|done|].
  destruct (move_file (file_name n 0) (file_name n 1) h) as (f' & Hf' & Hm & Hwf'); [by apply Hne|done..|].
  cbn [rename_ok all_ok file_name] in *. exists f'. split; [done|].
  destruct Hm as (Hs' & Hfrom & Hto & Hother). split_and!; [done|by eapply same_files_trans|done| |].
  - intros [|k] Hk.
    + rewrite Hto, Hrest; [by apply lookup_delete_ne, (Hne (S m) 0)|]. intros k _. by apply (Hne 0 (S k)).
    + rewrite Hother; [|by apply (Hne (S (S k)) 0)|apply (Hne (S (S k)) 1); lia].
      rewrite Hshift by lia. apply lookup_delete_ne, (Hne (S m) (S k)). lia.
  - intros p Hp. rewrite Hother, Hrest; [|intros k Hk; apply (Hp (S k)); lia|apply (Hp 0); lia|apply (Hp 1); lia].
    apply lookup_delete_ne. apply not_eq_sym, (Hp (S m)). lia.
Qed.

(** ** What the files of a node are meant to be

    The contents of the files, the current one first: a text is appended to the current file;
    when the file has reached its limit, a new one is put in front and only [max_files] of the
    others are kept. *)
Definition log_append (max_size : option Z) (max_files : nat) (files : list string) (text : string)
    : list string :=
  match files with
  | [] => []
  | current :: rotated =>
      let current := String.append current text in
      match max_size with
      | Some m =>
          if (m <=? Z.of_nat (String.length current))%Z
          then EmptyString :: take max_files (current :: rotated)
          else current :: rotated
      | None => current :: rotated
      end
  end.

Record Represents (n : NodeId) (s : TaskState) (files : list string) : Prop := {
  rep_wf : fs_wf (fs s);
  rep_files k : fs_read (file_name n k) (fs s) = files !! k;
  rep_file : dir (fs s) !! file_name n 0 = Some (h_id (file s));
  rep_pos c : files !! 0 = Some c → h_pos (file s) = String.length c;
  rep_bytes c : files !! 0 = Some c → bytes_written s = u64_wrap (Z.of_nat (String.length c))
}.

(** The other files of the directory. *)
Definition same_others (n : NodeId) (f f' : Fs) : Prop :=
  ∀ p, (∀ k, p ≠ file_name n k) → dir f' !! p = dir f !! p ∧ fs_read p f' = fs_read p f.

Lemma same_others_refl n f : same_others n f f.
Proof. done. Qed.
Lemma same_others_trans n f g h : same_others n f g → same_others n g h → same_others n f h.
Proof. intros H1 H2 p Hp. destruct (H1 p Hp), (H2 p Hp). split; congruence. Qed.

Lemma represents_start n f files :
  fs_wf f → (∀ k, fs_read (file_name n (S k)) f = files !! k) →
  Represents n (let '(h, f) := fs_create (log_path n) f in mkTask f h 0) (EmptyString :: files) ∧
  same_others n f (fs_create (log_path n) f).2.
Proof.
  intros Hwf Hfiles. pose proof (fs_wf_create (log_path n) f Hwf) as Hwf'.
  pose proof (λ q, fs_read_create (log_path n) q f Hwf) as Hread.
  pose proof (dir_create (log_path n) f) as (Hd & Hp & Ho).
  destruct (fs_create (log_path n) f) as [h g]. cbn [fst snd] in *. split.
  - split; cbn [fs file bytes_written]; [done| |done|by intros c [= <-]|by intros c [= <-]].
    intros [|k]; rewrite Hread.
    + by rewrite decide_True.
    + rewrite decide_False; [apply Hfiles|]. intros E. by apply (file_name_inj n (S k) 0) in E.
  - intros p Hpn. specialize (Hpn 0). split; [by apply Ho|]. rewrite Hread. by rewrite decide_False.
Qed.

Lemma fs_read_write h text f q :
  fs_read q (fs_write h text f).2 =
  if decide (dir f !! q = Some (h_id h)) then write_string (h_pos h) text <$> fs_read q f else fs_read q f.
Proof.
  unfold fs_read, fs_write. cbn. case_decide as E.
  - rewrite E. cbn. by rewrite lookup_alter_eq.
  - destruct (dir f !! q) as [j|]; [|done]. cbn. rewrite lookup_alter_ne; [done|congruence].
Qed.

Lemma fs_wf_write h text f : fs_wf f → fs_wf (fs_write h text f).2.
Proof.
  intros [Hd Hi]. split; cbn; [|done]. intros p i E. destruct (Hd p i E) as [? Hs]. split; [done|].
  destruct (decide (h_id h = i)) as [->|]; [rewrite lookup_alter_eq; by apply fmap_is_Some|].
  by rewrite lookup_alter_ne.
Qed.

Lemma represents_write n s c rotated text :
  Represents n s (c :: rotated) →
  let '(h, f) := fs_write (file s) text (fs s) in
  Represents n (mkTask f h (u64_wrap (bytes_written s + Z.of_nat (String.length text))))
    (String.append c text :: rotated) ∧ same_others n (fs s) f.
Proof.
  intros [Hwf Hfiles Hfile Hpos Hbytes].
  pose proof (fs_wf_write (file s) text (fs s) Hwf) as Hwf'.
  pose proof (fs_read_write (file s) text (fs s)) as Hread.
  assert (dir (fs_write (file s) text (fs s)).2 = dir (fs s)) as Hdir by done.
  assert (h_id (fs_write (file s) text (fs s)).1 = h_id (file s) ∧
          h_pos (fs_write (file s) text (fs s)).1 = h_pos (file s) + String.length text) as [Hid Hp] by done.
  destruct (fs_write (file s) text (fs s)) as [h f]. cbn [fst snd] in *.
  specialize (Hpos c eq_refl). specialize (Hbytes c eq_refl).
  assert (∀ p, p ≠ file_name n 0 → fs_read p f = fs_read p (fs s)) as Hother.
  { intros p Hne. rewrite Hread. apply decide_False. intros E. by apply Hne, (wf_inj _ Hwf p _ _ E). }
  split; [split; cbn [fs file bytes_written]|].
  - done.
  - intros [|k].
    + rewrite Hread, decide_True by done. rewrite (Hfiles 0). cbn. by rewrite Hpos, write_string_end.
    + rewrite Hother; [apply (Hfiles (S k))|]. intros E. by apply (file_name_inj n (S k) 0) in E.
  - by rewrite Hdir, Hid.
  - intros ? [= <-]. by rewrite Hp, Hpos, length_append.
  - intros ? [= <-]. rewrite Hbytes, length_append. unfold u64_wrap. by rewrite Zplus_mod_idemp_l, Nat2Z.inj_add.
  - intros p Hp'. split; [by rewrite Hdir|]. apply Hother, Hp'.
Qed.

Lemma fs_read_dir p q f f' :
  same_files f f' → dir f' !! p = dir f !! q → fs_read p f' = fs_read q f.
Proof. intros [Hd _] E. unfold fs_read. by rewrite E, Hd. Qed.

Lemma represents_rotate n max_files s files :
  1 ≤ max_files → length files ≤ S max_files → Represents n s files →
  ∃ f, rotate_log_files all_ok n max_files (fs s) = (Ok tt, f) ∧
    let '(h, f) := fs_create (log_path n) f in
    Represents n (mkTask f h 0) (EmptyString :: take max_files files) ∧ same_others n (fs s) f.
Proof.
  intros Hmax Hlen [Hwf Hfiles _ _].
  destruct (rotate_log_files_spec n max_files (fs s) Hmax Hwf)
    as (f & Hr & Hwf' & Hsame & _ & Hshift & Hrest).
  exists f. split; [done|].
  assert (∀ k, fs_read (file_name n (S k)) f = take max_files files !! k) as Hnew.
  { intros k. destruct (decide (k < max_files)) as [Hk|Hk].
    - rewrite lookup_take_lt by done. rewrite <- Hfiles. apply fs_read_dir; [done|]. by apply Hshift.
    - rewrite lookup_take_ge by lia. rewrite (fs_read_dir _ (file_name n (S k)) (fs s)), Hfiles by
        (try done; apply Hrest; intros j Hj E%file_name_inj; lia).
      apply lookup_ge_None_2. lia. }
  destruct (represents_start n f _ Hwf' Hnew) as [Hrep Hother].
  destruct (fs_create (log_path n) f) as [h g]. cbn [snd] in Hother. split; [done|].
  apply (same_others_trans n _ f); [|done]. intros p Hp.
  assert (dir f !! p = dir (fs s) !! p) as Hdir by (apply Hrest; intros; apply Hp).
  split; [done|]. by apply fs_read_dir.
Qed.

Section task.
Context `{LogLib} {T : Type} `{ArrowLib T, !ArrowLaws}.
Context (str_array : string → ArrayData T).
Hypothesis str_array_valid : ∀ text, valid (str_array text) ∧ sendable (str_array text).

Lemma publish_text_ok cfg taken output text : ∃ e, publish_text str_array cfg taken output text = Ok e.
Proof.
  unfold publish_text. destruct (str_array_valid text) as [Hv Hs].
  destruct (copies_valid _ Hv Hs (replicate (required_data_size (str_array text)) Byte.x00) 0)
    as (info & t' & Hc & _); [by rewrite length_replicate|].
  unfold copy_array_into_sample. rewrite Hc. by eexists.
Qed.

(** A line is always processed. *)
Lemma log_line_total cfg env line s : ∃ r, log_line str_array cfg env line s = Ok r.
Proof.
  unfold log_line.
  assert (∃ e, match send_stdout_to cfg with
               | Some output => publish_text str_array cfg (stdout_taken env) output (content line)
               | None => Ok []
               end = Ok e) as [e1 ->] by (case_match; [apply publish_text_ok|by eexists]).
  cbn [mbind res_bind]. destruct (kept_message cfg env line) as [m|]; [|by eexists]. unfold store_message.
  assert (∃ e, match send_logs_to cfg, message_to_string m with
               | Some output, Some json => publish_text str_array cfg (logs_taken env) output json
               | _, _ => Ok []
               end = Ok e) as [e2 ->] by (repeat case_match; first [apply publish_text_ok|by eexists]).
  cbn [mbind res_bind]. destruct (write_entry _ _ _ _), (rotate_if_full _ _ _) as [? []]. by eexists.
Qed.

(** No file operation fails. *)
Definition calm (env : LineEnv) : Prop :=
  write_fault env = None ∧ rotate_env env = all_ok ∧ create_ok env = true.

(** The texts written for the lines received. *)
Definition entry_of (cfg : TaskConfig) (x : LineEnv * LogLine) : option string :=
  entry_text cfg (stream x.2) <$> kept_message cfg x.1 x.2.

Definition fits (cfg : TaskConfig) (text : string) : Prop :=
  ∀ m, max_size cfg = Some m → (0 ≤ m ∧ m + Z.of_nat (String.length text) ≤ u64_max)%Z.

(** The current file is below its limit. *)
Definition below_limit (max_size : option Z) (files : list string) : Prop :=
  ∀ m c, max_size = Some m → files !! 0 = Some c →
    c = EmptyString ∨ (Z.of_nat (String.length c) < m)%Z.

Lemma log_append_bounds max_size max_files files text :
  length files ≤ S max_files →
  length (log_append max_size max_files files text) ≤ S max_files ∧
  below_limit max_size (log_append max_size max_files files text).
Proof.
  unfold log_append, below_limit. destruct files as [|c rotated]; [done|]. cbn. intros Hlen.
  destruct max_size as [m|]; [|split; [cbn; lia|naive_solver]].
  destruct (Z.leb_spec m (Z.of_nat (String.length (String.append c text)))); cbn.
  - split; [rewrite length_take; lia|]. intros ?? [= <-] [= <-]. by left.
  - split; [lia|]. intros ?? [= <-] [= <-]. by right.
Qed.
Lemma rotate_if_full_refines cfg env s c rotated text :
  calm env → 1 ≤ max_rotated cfg → length rotated ≤ max_rotated cfg → fits cfg text →
  below_limit (max_size cfg) (c :: rotated) →
  Represents (node_id cfg) s (String.append c text :: rotated) →
  ∃ s', rotate_if_full (T:=T) cfg env s = ([], (s', true)) ∧ same_others (node_id cfg) (fs s) (fs s') ∧
    Represents (node_id cfg) s' (log_append (max_size cfg) (max_rotated cfg) (c :: rotated) text).
Proof.
  intros (_ & Hrot & Hcreate) Hmax Hlen Hfits Hbelow Hrep. unfold rotate_if_full, log_append.
  destruct (max_size cfg) as [m|] eqn:Em; [|by exists s].
  assert (bytes_written s = Z.of_nat (String.length (String.append c text))) as ->.
  { rewrite (rep_bytes _ _ _ Hrep _ eq_refl), length_append. unfold u64_wrap. apply Z.mod_small.
    destruct (Hfits m Em) as [Hm Hf], (Hbelow m c eq_refl eq_refl) as [->|Hc]; unfold u64_max in Hf; cbn; lia. }
  destruct (m <=? _)%Z; [|by exists s]. rewrite Hrot, Hcreate.
  destruct (represents_rotate (node_id cfg) (max_rotated cfg) s (String.append c text :: rotated))
    as (f & -> & Hnew); [done|cbn; lia|done|].
  destruct (fs_create _ f) as [h g]. destruct Hnew as [Hnew Hother]. by exists (mkTask g h 0).
Qed.

Lemma store_message_refines cfg env st m s files :
  calm env → 1 ≤ max_rotated cfg → length files ≤ S (max_rotated cfg) → files ≠ [] →
  fits cfg (entry_text cfg st m) → below_limit (max_size cfg) files →
  Represents (node_id cfg) s files →
  ∃ e s', store_message str_array cfg env st m s = Ok (e, (s', true)) ∧
    same_others (node_id cfg) (fs s) (fs s') ∧
    Represents (node_id cfg) s'
      (log_append (max_size cfg) (max_rotated cfg) files (entry_text cfg st m)).
Proof.
  intros Hcalm Hmax Hlen Hne Hfits Hbelow Hrep. destruct files as [|c rotated]; [done|].
  unfold store_message.
  assert (∃ e, match send_logs_to cfg, message_to_string m with
               | Some output, Some json => publish_text str_array cfg (logs_taken env) output json
               | _, _ => Ok []
               end = Ok e) as [e ->].
  { repeat case_match; try by eexists. apply publish_text_ok. }
  cbn [mbind res_bind]. unfold write_entry. pose proof Hcalm as (Hw & _). rewrite Hw.
  pose proof (represents_write (node_id cfg) s c rotated (entry_text cfg st m) Hrep) as Hwr.
  destruct (fs_write (file s) (entry_text cfg st m) (fs s)) as [h f]. destruct Hwr as [Hwr Hother].
  destruct (rotate_if_full_refines cfg env _ c rotated _ Hcalm Hmax (le_S_n _ _ Hlen) Hfits Hbelow Hwr)
    as (s' & -> & Hother' & Hrep').
  cbn [andb]. eexists _, s'. split; [done|]. split; [|done]. by eapply same_others_trans.
Qed.

Lemma log_append_nonempty max_size max_files files text :
  files ≠ [] → log_append max_size max_files files text ≠ [].
Proof. destruct files; [done|]. unfold log_append. repeat case_match; done. Qed.

(** Processing lines without faults does to the files what [log_append] describes. *)
Lemma log_lines_refines cfg received s files :
  Forall (λ x, calm x.1 ∧ ∀ text, entry_of cfg x = Some text → fits cfg text) received →
  1 ≤ max_rotated cfg → length files ≤ S (max_rotated cfg) → files ≠ [] →
  below_limit (max_size cfg) files → Represents (node_id cfg) s files →
  ∃ e s', log_lines str_array cfg received s = Ok (e, (s', true)) ∧
    same_others (node_id cfg) (fs s) (fs s') ∧
    Represents (node_id cfg) s'
      (foldl (log_append (max_size cfg) (max_rotated cfg)) files (omap (entry_of cfg) received)).
Proof.
  intros Hall Hmax. revert s files. induction Hall as [|[env line] received [Hcalm Hfits] _ IH];
    intros s files Hlen Hne Hbelow Hrep.
  { by exists [], s. }
  cbn [log_lines omap list_omap fst] in *. unfold entry_of in Hfits |- *. cbn [fst snd] in *. unfold log_line.
  assert (∃ e, match send_stdout_to cfg with
               | Some output => publish_text str_array cfg (stdout_taken env) output (content line)
               | None => Ok []
               end = Ok e) as [e1 ->].
  { case_match; [apply publish_text_ok|by eexists]. }
  cbn [mbind res_bind]. destruct (kept_message cfg env line) as [m|]; cbn [fmap option_fmap option_map] in *.
  - destruct (store_message_refines cfg env (stream line) m s files) as (e2 & s1 & -> & Hother & Hrep1);
      [auto..|].
    destruct (log_append_bounds (max_size cfg) (max_rotated cfg) files (entry_text cfg (stream line) m) Hlen).
    destruct (IH s1 (log_append (max_size cfg) (max_rotated cfg) files (entry_text cfg (stream line) m)))
      as (e3 & s2 & Hrun & Hother' & Hrep2); [done|by apply log_append_nonempty|done..|].
    cbn [mbind res_bind]. rewrite Hrun. cbn. eexists _, s2. split; [done|]. split; [|done].
    by eapply same_others_trans.
  - destruct (IH s files) as (e3 & s2 & Hrun & Hother' & Hrep2); [done..|].
    cbn [mbind res_bind]. rewrite Hrun. cbn. by eexists _, s2.
Qed.
End task.

(** ** What is kept *)

Local Open Scope list_scope.

Definition size (seg : list string) : Z := Z.of_nat (String.length (concat_strings seg)).

(** A rotated file reached the limit with its last entry. *)
Definition full_once (m : Z) (seg : list string) : Prop :=
  (m ≤ size seg)%Z ∧ ∃ init text, seg = init ++ [text] ∧ (init = [] ∨ (size init < m)%Z).

(** How the entries of one run are cut into files, the current one first, when no file is ever
    deleted. *)
Record Segmented (max_size : option Z) (entries : list string) (segs : list (list string)) : Prop := {
  seg_entries : entries = concat (reverse segs);
  seg_some : segs ≠ [];
  seg_unlimited : max_size = None → segs = [entries];
  seg_current m seg : max_size = Some m → segs !! 0 = Some seg → seg = [] ∨ (size seg < m)%Z;
  seg_rotated m : max_size = Some m → Forall (full_once m) (tail segs)
}.

(** What is left of them with [max_files] rotated files. *)
Record Kept (max_size : option Z) (max_files : nat) (entries dropped : list string)
    (segs : list (list string)) : Prop := {
  kept_entries : entries = dropped ++ concat (reverse segs);
  kept_count : 1 ≤ length segs ≤ S max_files;
  kept_all : dropped ≠ [] → length segs = S max_files;
  kept_unlimited : max_size = None → segs = [entries];
  kept_current m seg : max_size = Some m → segs !! 0 = Some seg → seg = [] ∨ (size seg < m)%Z;
  kept_rotated m : max_size = Some m → Forall (full_once m) (tail segs)
}.

Lemma concat_reverse_cons {A} (x : list A) l : concat (reverse (x :: l)) = concat (reverse l) ++ x.
Proof. by rewrite reverse_cons, concat_app, concat_cons, app_nil_r. Qed.

Lemma concat_reverse_take {A} n (l : list (list A)) :
  concat (reverse l) = concat (reverse (drop n l)) ++ concat (reverse (take n l)).
Proof. rewrite <- concat_app, <- reverse_app. by rewrite take_drop. Qed.

Lemma concat_strings_snoc seg text :
  concat_strings (seg ++ [text]) = String.append (concat_strings seg) text.
Proof. rewrite concat_strings_app. cbn. by rewrite append_nil_r. Qed.

Lemma take_cons_take {A} n (x : A) l : take n (x :: take n l) = take n (x :: l).
Proof. destruct n; [done|]. cbn [take]. rewrite take_take. by replace (n `min` S n) with n by lia. Qed.

Lemma take_app_take {A} n (k l : list A) : take n (k ++ take n l) = take n (k ++ l).
Proof. rewrite !take_app, take_take. by replace ((n - length k) `min` n) with (n - length k) by lia. Qed.

Lemma segmented_kept max_size max_files entries segs :
  Segmented max_size entries segs →
  Kept max_size max_files entries (concat (reverse (drop (S max_files) segs))) (take (S max_files) segs).
Proof.
  intros [He Hs Hu Hcur Hrot]. destruct segs as [|cur rot]; [done|]. split.
  - by rewrite He, <- concat_reverse_take.
  - rewrite length_take. cbn [length]. lia.
  - intros Hd. rewrite length_take. destruct (decide (S max_files ≤ length (cur :: rot))); [lia|].
    by rewrite drop_ge in Hd by lia.
  - intros E. specialize (Hu E). injection Hu as -> ->. cbn. by rewrite take_nil.
  - intros m seg E. rewrite lookup_take_lt by lia. by apply Hcur.
  - intros m E. cbn [take tail]. by apply Forall_take, (Hrot m).
Qed.

Lemma segmented_rotate m entries cur rot text :
  Segmented (Some m) entries (cur :: rot) → (m ≤ size (cur ++ [text]))%Z →
  Segmented (Some m) (entries ++ [text]) ([] :: (cur ++ [text]) :: rot).
Proof.
  intros [He _ _ Hcur Hrot] Hfull. split; try done.
  - rewrite !concat_reverse_cons, app_nil_r, He, concat_reverse_cons. by rewrite !app_assoc.
  - intros ?? _ [= <-]. by left.
  - intros ? [= <-]. cbn [tail]. constructor; [|by apply Hrot].
    split; [done|]. exists cur, text. split; [done|]. by apply (Hcur m cur).
Qed.

Lemma segmented_append max_size entries cur rot text :
  Segmented max_size entries (cur :: rot) →
  (∀ m, max_size = Some m → (size (cur ++ [text]) < m)%Z) →
  Segmented max_size (entries ++ [text]) ((cur ++ [text]) :: rot).
Proof.
  intros [He _ Hu Hcur Hrot] Hlt. split; try done.
  - by rewrite concat_reverse_cons, He, concat_reverse_cons, !app_assoc.
  - intros E. specialize (Hu E). by injection Hu as -> ->.
  - intros m seg E [= <-]. right. by apply Hlt.
Qed.

(** One run that starts with an empty current file in front of the rotated files [old]. *)
Lemma log_append_segmented max_size max_files old entries :
  1 ≤ max_files → length old ≤ max_files →
  ∃ segs, Segmented max_size entries segs ∧
    foldl (log_append max_size max_files) (EmptyString :: old) entries =
      take (S max_files) ((concat_strings <$> segs) ++ old).
Proof.
  intros Hmax Hold. induction entries as [|text entries (segs & Hk & Hf)] using rev_ind.
  { exists [[]]. split; [|cbn; by rewrite take_ge by done]. split; cbn; try done.
    intros m seg _ [= <-]. by left. }
  rewrite foldl_snoc, Hf. destruct segs as [|cur rot]; [by destruct (seg_some _ _ _ Hk)|].
  cbn [fmap list_fmap app take]. unfold log_append. rewrite <- concat_strings_snoc.
  destruct max_size as [m|].
  - fold (size (cur ++ [text])). destruct (Z.leb_spec m (size (cur ++ [text]))) as [Hfull|Hless].
    + eexists. split; [by apply segmented_rotate|]. by rewrite take_cons_take.
    + eexists. split; [apply segmented_append; [done|by intros ? [= <-]]|done].
  - eexists. split; [by apply segmented_append|done].
Qed.

(** ** The files of different nodes *)

Lemma no_sep_last sep a b a' b' :
  no_sep sep b = true → no_sep sep b' = true →
  String.append a (String sep b) = String.append a' (String sep b') → a = a' ∧ b = b'.
Proof.
  intros Hb Hb'. revert a'. induction a as [|x a IH]; intros [|y a']; rewrite ?string_append_cons; cbn [String.append].
  - by intros [= ->].
  - intros [= -> ->]. by rewrite no_sep_append in Hb.
  - intros [= -> <-]. by rewrite no_sep_append in Hb'.
  - intros [= -> [-> ->]%IH]. done.
Qed.

Lemma print_u64_no_dot z : no_sep "." (print_u64 z) = true.
Proof.
  eapply string_forall_impl; [|apply (print_u64_digits z)]. intros c Hc.
  apply negb_true_iff, bool_decide_eq_false. intros ->. by vm_compute in Hc.
Qed.

(** The name of the rotated file with index [k], seen as a node. *)
Definition dotted (n : NodeId) (k : nat) : NodeId :=
  String.append n (String "." (print_u64 (Z.of_nat k))).

Lemma log_path_rotated_dotted n k : log_path_rotated n k = log_path (dotted n k).
Proof. unfold log_path_rotated, log_path, dotted. by rewrite append_assoc. Qed.

Lemma log_path_inj a b : log_path a = log_path b → a = b.
Proof. by intros ?%append_inj_l%append_inj_r. Qed.

Lemma file_names_differ a b j k :
  a ≠ b → (∀ i, a ≠ dotted b i) → (∀ i, b ≠ dotted a i) → file_name a j ≠ file_name b k.
Proof.
  intros Hab Ha Hb. destruct j as [|j], k as [|k]; cbn [file_name]; rewrite ?log_path_rotated_dotted;
    intros E%log_path_inj; [done|by eapply Ha|by eapply Hb|].
  unfold dotted in E. apply no_sep_last in E as [? _]; [done|apply print_u64_no_dot..].
Qed.

(** ** Theorems *)

Section theorems.
Context `{LogLib} {T : Type} `{ArrowLib T, !ArrowLaws}.
Context (str_array : string → ArrayData T).
Hypothesis str_array_valid : ∀ text, valid (str_array text) ∧ sendable (str_array text).

Lemma task_config_max_rotated l q n cfg :
  task_config l q n = Ok cfg → (∀ v, max_rotated_files n = Ok (Some v) → (0 ≤ v)%Z) →
  1 ≤ max_rotated cfg ≤ 100.
Proof.
  intros Hc Hu. unfold task_config in Hc.
  destruct (send_stdout_as n), (send_logs_as n), (min_log_level n), (max_log_size n); try done.
  cbn [mbind res_bind] in Hc. destruct (max_rotated_files n) as [v| |] eqn:E; try done.
  injection Hc as <-. cbn. destruct v as [v|]; cbn; [|unfold DEFAULT_MAX_ROTATED_FILES; lia].
  specialize (Hu v eq_refl). unfold max_rotated_files in E.
  destruct (match r_kind n with Runtime _ => _ | Custom _ => _ end) as [o| |]; try done.
  cbn [mbind res_bind] in E. destruct o as [w|]; [|done].
  destruct (Z.eqb_spec w 0), (Z.ltb_spec 100 w); try done. injection E as ->. lia.
Qed.

(** The conditions on a run: no file operation fails, and the sizes stay in 64 bits. *)
Definition undisturbed (cfg : TaskConfig) (received : list (LineEnv * LogLine)) : Prop :=
  Forall (λ x, calm x.1 ∧ ∀ text, entry_of cfg x = Some text → fits cfg text) received.

(** The rotated files of a node as its earlier runs leave them: at most [max_rotated], and
    numbered from one. *)
Definition rotated_files (cfg : TaskConfig) (f : Fs) (old : list string) : Prop :=
  length old ≤ max_rotated cfg ∧ ∀ k, fs_read (file_name (node_id cfg) (S k)) f = old !! k.

Lemma log_task_run cfg f old received :
  1 ≤ max_rotated cfg → fs_wf f → rotated_files cfg f old → undisturbed cfg received →
  ∃ e s segs,
    log_lines str_array cfg received (start_task cfg f) = Ok (e, (s, true)) ∧ fs_wf (fs s) ∧
    Segmented (max_size cfg) (omap (entry_of cfg) received) segs ∧
    (∀ k, fs_read (file_name (node_id cfg) k) (fs s) =
            take (S (max_rotated cfg)) ((concat_strings <$> segs) ++ old) !! k) ∧
    rotated_files cfg (fs s) (take (max_rotated cfg) ((concat_strings <$> tail segs) ++ old)) ∧
    same_others (node_id cfg) f (fs s).
Proof.
  intros Hmax Hwf [Hlen Hold] Hall.
  destruct (represents_start (node_id cfg) f old Hwf Hold) as [Hrep Hother].
  change (Represents (node_id cfg) (start_task cfg f) (EmptyString :: old)) in Hrep.
  destruct (log_lines_refines str_array str_array_valid cfg received (start_task cfg f) (EmptyString :: old))
    as (e & s & Hrun & Hother' & Hrep'); [done..|cbn; lia|done| |done|].
  { intros m c _ [= <-]. by left. }
  destruct (log_append_segmented (max_size cfg) (max_rotated cfg) old (omap (entry_of cfg) received) Hmax Hlen)
    as (segs & Hseg & Hfold). rewrite Hfold in Hrep'.
  exists e, s, segs. split_and!; [done|apply Hrep'|done|apply Hrep'| |].
  - split; [rewrite length_take; lia|]. intros k. rewrite (rep_files _ _ _ Hrep').
    destruct segs; [by destruct (seg_some _ _ _ Hseg)|done].
  - apply (same_others_trans _ _ (fs (start_task cfg f))); [|done].
    unfold start_task. by destruct (fs_create (log_path (node_id cfg)) f).
Qed.

Lemma log_task_files l q n cfg f received :
  task_config l q n = Ok cfg → (∀ v, max_rotated_files n = Ok (Some v) → (0 ≤ v)%Z) →
  fs_wf f → (∀ k, fs_read (file_name (node_id cfg) (S k)) f = None) →
  Forall (λ x, calm x.1 ∧ ∀ text, entry_of cfg x = Some text → fits cfg text) received →
  ∃ e s dropped segs,
    log_lines str_array cfg received (start_task cfg f) = Ok (e, (s, true)) ∧
    Kept (max_size cfg) (max_rotated cfg) (omap (entry_of cfg) received) dropped segs ∧
    (∀ k, fs_read (file_name (node_id cfg) k) (fs s) = concat_strings <$> segs !! k) ∧
    same_others (node_id cfg) f (fs s).
Proof.
  intros Hc Hu Hwf Hfresh Hall. destruct (task_config_max_rotated l q n cfg Hc Hu) as [Hmax _].
  destruct (log_task_run cfg f [] received Hmax Hwf) as (e & s & segs & Hrun & _ & Hseg & Hfiles & _ & Ho);
    [split; [cbn; lia|by intros k; rewrite Hfresh]|done|].
  eexists e, s, _, _. split_and!; [done|by apply segmented_kept| |done].
  intros k. by rewrite Hfiles, app_nil_r, <- fmap_take, list_lookup_fmap.
Qed.

(** The node is started again and again, each time with a new log task in the same directory. *)
Fixpoint task_runs (cfg : TaskConfig) (runs : list (list (LineEnv * LogLine))) (f : Fs) : res Fs :=
  match runs with
  | [] => Ok f
  | received :: runs =>
      '(_, (s, _)) ← log_lines str_array cfg received (start_task cfg f);
      task_runs cfg runs (fs s)
  end.

Lemma task_runs_files cfg f old runs :
  1 ≤ max_rotated cfg → fs_wf f → rotated_files cfg f old → Forall (undisturbed cfg) runs →
  ∃ f' segss, task_runs cfg runs f = Ok f' ∧ fs_wf f' ∧
    Forall2 (λ received segs, Segmented (max_size cfg) (omap (entry_of cfg) received) segs) runs segss ∧
    rotated_files cfg f'
      (take (max_rotated cfg) ((concat_strings <$> concat (reverse (tail <$> segss))) ++ old)) ∧
    same_others (node_id cfg) f f'.
Proof.
  intros Hmax. revert f old. induction runs as [|received runs IH]; intros f old Hwf Hold Hall.
  { exists f, []. split_and!; [done..|constructor| |done]. destruct Hold. cbn. by rewrite take_ge. }
  apply Forall_cons in Hall as [Hr Hall].
  destruct (log_task_run cfg f old received Hmax Hwf Hold Hr) as (e & s & segs & Hrun & Hwf' & Hseg & _ & Hrot & Ho).
  destruct (IH _ _ Hwf' Hrot Hall) as (f' & segss & Hruns & Hwf'' & Hsegs & Hrot' & Ho').
  exists f', (segs :: segss). split_and!; [|done|by constructor| |by eapply same_others_trans].
  - cbn [task_runs]. by rewrite Hrun.
  - rewrite take_app_take in Hrot'. by rewrite fmap_cons, concat_reverse_cons, fmap_app, <- app_assoc.
Qed.

(** C12. What a node leaves on disk.  The node may be started any number of times in the
    directory of the dataflow, which may hold rotated files of the node from before.  As long
    as no file operation fails and no other task writes under the names of the node, the log
    task of every run processes every line without a panic.  The entries of a run are cut into
    files in the order received: without [max_log_size] into one; with it every file but the
    last reached the limit with its last entry and not before, and the last one is below it.
    Afterwards the current file and the rotated ones, from the newest on, are the first
    [1 + max_rotated_files] of: the files of the last run, the full files of the runs before,
    the files that were there.  So the most recent entries are kept, except that the last,
    unfinished file of each earlier run is gone: a new start empties it.  No file outside the
    names of this node is touched. *)
Theorem log_files_kept l q n cfg f old earlier received :
  task_config l q n = Ok cfg → (∀ v, max_rotated_files n = Ok (Some v) → (0 ≤ v)%Z) →
  fs_wf f → rotated_files cfg f old →
  Forall (undisturbed cfg) earlier → undisturbed cfg received →
  ∃ f1 earlier_segs e s segs,
    task_runs cfg earlier f = Ok f1 ∧
    log_lines str_array cfg received (start_task cfg f1) = Ok (e, (s, true)) ∧
    Forall2 (λ r segs, Segmented (max_size cfg) (omap (entry_of cfg) r) segs) earlier earlier_segs ∧
    Segmented (max_size cfg) (omap (entry_of cfg) received) segs ∧
    (∀ k, fs_read (file_name (node_id cfg) k) (fs s) =
            take (S (max_rotated cfg))
              ((concat_strings <$> segs ++ concat (reverse (tail <$> earlier_segs))) ++ old) !! k) ∧
    same_others (node_id cfg) f (fs s).
Proof.
  intros Hc Hu Hwf Hold Hearlier Hreceived. destruct (task_config_max_rotated l q n cfg Hc Hu) as [Hmax _].
  destruct (task_runs_files cfg f old earlier Hmax Hwf Hold Hearlier)
    as (f1 & esegs & Hruns & Hwf1 & Hesegs & Hold1 & Ho1).
  destruct (log_task_run cfg f1 _ received Hmax Hwf1 Hold1 Hreceived)
    as (e & s & segs & Hrun & _ & Hseg & Hfiles & _ & Ho).
  exists f1, esegs, e, s, segs. split_and!; [done..| |by eapply same_others_trans].
  intros k. rewrite Hfiles, fmap_app, <- app_assoc.
  destruct segs as [|cur rot]; [by destruct (seg_some _ _ _ Hseg)|]. cbn [fmap list_fmap app take].
  destruct k as [|k]; [done|]. cbn. by rewrite take_app_take.
Qed.

Lemma size_snoc seg text : size (seg ++ [text]) = (size seg + Z.of_nat (String.length text))%Z.
Proof. unfold size. rewrite concat_strings_snoc, length_append. lia. Qed.

Lemma kept_sizes m max_files entries dropped segs b :
  Kept (Some m) max_files entries dropped segs → (0 ≤ m)%Z →
  Forall (λ text, Z.of_nat (String.length text) ≤ b)%Z entries → (0 ≤ b)%Z →
  Forall (λ seg, size seg ≤ m + b)%Z segs.
Proof.
  intros [He [Hc _] _ _ Hcur Hrot] Hm Hb Hb0. destruct segs as [|cur rot]; [cbn in Hc; lia|].
  assert (Forall (Forall (λ text, Z.of_nat (String.length text) ≤ b)%Z) rot) as Hin.
  { apply Forall_forall. intros seg Hseg. eapply incl_Forall; [|exact Hb]. intros x Hx. rewrite He.
    apply list_elem_of_In, elem_of_app. right. rewrite concat_reverse_cons. apply elem_of_app. left.
    apply list_elem_of_In, in_concat. exists seg. split; [|done].
    by apply list_elem_of_In, elem_of_reverse. }
  constructor.
  - destruct (Hcur m cur eq_refl eq_refl) as [->|]; unfold size in *; cbn; lia.
  - specialize (Hrot m eq_refl). cbn [tail] in Hrot. rewrite Forall_forall in Hrot, Hin.
    apply Forall_forall. intros seg Hseg. destruct (Hrot seg Hseg) as (_ & init & text & -> & Hi).
    specialize (Hin _ Hseg). apply Forall_app in Hin as [_ [Ht _]%Forall_cons].
    rewrite size_snoc. destruct Hi as [->|]; unfold size in *; cbn in *; lia.
Qed.

(** The space a node takes.  With [max_log_size] set to [m] and entries of at most [b] bytes,
    at most [1 + max_rotated_files] files of the node exist, and each holds at most [m + b]
    bytes. *)
Theorem log_disk_bounded l q n cfg f received m b :
  task_config l q n = Ok cfg → (∀ v, max_rotated_files n = Ok (Some v) → (0 ≤ v)%Z) →
  fs_wf f → (∀ k, fs_read (file_name (node_id cfg) (S k)) f = None) →
  Forall (λ x, calm x.1 ∧ ∀ text, entry_of cfg x = Some text → fits cfg text) received →
  max_size cfg = Some m → (0 ≤ m)%Z → (0 ≤ b)%Z →
  Forall (λ text, Z.of_nat (String.length text) ≤ b)%Z (omap (entry_of cfg) received) →
  ∃ e s, log_lines str_array cfg received (start_task cfg f) = Ok (e, (s, true)) ∧
    ∀ k text, fs_read (file_name (node_id cfg) k) (fs s) = Some text →
      k ≤ max_rotated cfg ∧ (Z.of_nat (String.length text) ≤ m + b)%Z.
Proof.
  intros Hc Hu Hwf Hfresh Hall Hm Hm0 Hb0 Hb.
  destruct (log_task_files l q n cfg f received) as (e & s & dropped & segs & Hrun & Hk & Hread & _); [done..|].
  exists e, s. split; [done|]. intros k text. rewrite Hread. rewrite Hm in Hk.
  destruct (segs !! k) as [seg|] eqn:E; [|done]. intros [= <-].
  pose proof (kept_sizes m _ _ _ _ b Hk Hm0 Hb Hb0) as Hsizes. rewrite Forall_lookup in Hsizes.
  split; [|by apply (Hsizes k seg)]. apply lookup_lt_Some in E. pose proof (kept_count _ _ _ _ _ Hk). lia.
Qed.

(** ** Who a message is from *)

Definition own_message (cfg : TaskConfig) (m : LogMessage) : Prop :=
  m_node_id m = Some (node_id cfg) ∧ m_dataflow_id m = Some (dataflow_id cfg) ∧
  m_daemon_id m = Some (nl_daemon (logger cfg)).

Definition own_effect (cfg : TaskConfig) (e : LogEffect (T:=T)) : Prop :=
  match e with
  | SendOutput d n output _ _ =>
      d = dataflow_id cfg ∧ n = node_id cfg ∧ (send_stdout_to cfg = Some output ∨ send_logs_to cfg = Some output)
  | Broadcast d m => d = dataflow_id cfg ∧ own_message cfg m
  | CoordinatorEvent _ m | ChannelMessage m | TraceMessage m => own_message cfg m
  end.

Lemma build_message_own cfg now text : own_message cfg (build_message cfg now text).
Proof. unfold build_message. by destruct (helper_from_str text). Qed.

Lemma logger_log_own cfg ok l m : own_message cfg m → Forall (own_effect cfg) (logger_log ok l m).
Proof. intros Hm. unfold logger_log. repeat case_match; repeat constructor; done || apply Hm. Qed.

Lemma node_log_own cfg ok now level target text :
  Forall (own_effect cfg) (node_log ok now (logger cfg) level target text).
Proof. by apply logger_log_own. Qed.

Lemma publish_text_own cfg taken output text e :
  send_stdout_to cfg = Some output ∨ send_logs_to cfg = Some output →
  publish_text str_array cfg taken output text = Ok e → Forall (own_effect cfg) e.
Proof.
  intros Ho. unfold publish_text. destruct (copy_array_into_sample _ _) as [[info sample]| |]; try done.
  intros [= <-]. destruct taken; [|done]. by apply Forall_singleton.
Qed.

Lemma rotate_if_full_own cfg env s e r :
  rotate_if_full cfg env s = (e, r) → Forall (own_effect cfg) e.
Proof.
  unfold rotate_if_full. repeat case_match; intros; simplify_eq; rewrite ?Forall_app, ?Forall_nil;
    split_and?; done || apply node_log_own.
Qed.

Lemma store_message_own cfg env st m s e r :
  own_message cfg m → store_message str_array cfg env st m s = Ok (e, r) → Forall (own_effect cfg) e.
Proof.
  intros Hm. unfold store_message.
  destruct (match send_logs_to cfg, message_to_string m with Some _, Some _ => _ | _, _ => _ end)
    as [e2| |] eqn:E2; try done. cbn [mbind res_bind].
  destruct (write_entry cfg env (entry_text cfg st m) s) as [e3 s1] eqn:E3.
  destruct (rotate_if_full cfg env s1) as [e4 [s2 continue]] eqn:E4. intros [= <- <-].
  rewrite !Forall_app. split_and!.
  - destruct (broadcast_taken env); repeat constructor; apply Hm.
  - destruct (send_logs_to cfg) as [output|] eqn:Eo; [|by injection E2 as <-].
    destruct (message_to_string m) as [json|]; [|by injection E2 as <-].
    apply (publish_text_own cfg (logs_taken env) output json); [by right|done].
  - unfold write_entry in E3. destruct (write_fault env); cbn in E3; simplify_eq;
      [apply node_log_own|done].
  - by eapply rotate_if_full_own.
  - destruct (continue && _); [by apply logger_log_own|done].
Qed.

(** C38. Who a message is from.  Whatever a node prints, also JSON that names another node,
    dataflow or daemon, and whatever fails on the way: everything the log task sends on is
    under the node's own name: outputs are its configured ones, and every message names the
    node, its dataflow and its daemon. *)
Theorem log_identity_kept cfg received s e r :
  log_lines str_array cfg received s = Ok (e, r) → Forall (own_effect cfg) e.
Proof.
  revert s e r. induction received as [|[env line] received IH]; intros s e r; [by intros [= <- <-]|].
  cbn [log_lines]. unfold log_line.
  destruct (match send_stdout_to cfg with Some _ => _ | None => _ end) as [e1| |] eqn:E1; try done.
  assert (Forall (own_effect cfg) e1) as Hown.
  { destruct (send_stdout_to cfg) as [output|] eqn:Eo; [|by injection E1 as <-].
    apply (publish_text_own cfg (stdout_taken env) output (content line)); [by left|done]. }
  cbn [mbind res_bind]. destruct (kept_message cfg env line) as [m|] eqn:Em.
  - assert (own_message cfg m) as Hm.
    { unfold kept_message in Em. repeat case_match; simplify_eq; apply build_message_own. }
    destruct (store_message str_array cfg env (stream line) m s) as [[e2 [s1 []]]| |] eqn:E2; try done;
      cbn [mbind res_bind]; apply store_message_own in E2; try done.
    + destruct (log_lines str_array cfg received s1) as [[e3 r3]| |] eqn:E3; try done.
      intros [= <- <-]. rewrite !Forall_app. eauto.
    + intros [= <- <-]. by rewrite Forall_app.
  - cbn [mbind res_bind]. destruct (log_lines str_array cfg received s) as [[e3 r3]| |] eqn:E3; try done.
    intros [= <- <-]. rewrite Forall_app. eauto.
Qed.

(** ** Isolation, whatever fails *)

(** What a file operation on the names of a node may do. *)
Definition own_names (n : NodeId) (f f' : Fs) : Prop :=
  fs_wf f' ∧ same_files f f' ∧ ∀ p, (∀ k, p ≠ file_name n k) → dir f' !! p = dir f !! p.

Lemma own_names_trans n f g h : own_names n f g → own_names n g h → own_names n f h.
Proof.
  intros (_ & S1 & D1) (W & S2 & D2). split_and!; [done|by eapply same_files_trans|].
  intros p Hp. by rewrite D2, D1.
Qed.

Lemma rename_own ok n i j f : fs_wf f → own_names n f (fs_rename ok (file_name n i) (file_name n j) f).2.
Proof.
  intros Hwf. destruct ok; [|unfold fs_rename; by destruct (dir f !! _)].
  split; [by apply fs_wf_rename|]. unfold fs_rename. destruct (dir f !! file_name n i) eqn:E; [|done].
  split; [done|]. intros p Hp. cbn. rewrite lookup_insert_ne, lookup_delete_ne by auto. done.
Qed.

Lemma shift_own env n i f : fs_wf f → own_names n f (shift_files env n i f).2.
Proof.
  revert f. induction i as [|i IH]; intros f Hwf; [done|]. cbn [shift_files]. rewrite Nat.add_1_r.
  change (log_path_rotated n (S i)) with (file_name n (S i)).
  change (log_path_rotated n (S (S i))) with (file_name n (S (S i))).
  destruct (fs_exists (file_name n (S i)) f); [|by apply IH].
  pose proof (rename_own (rename_ok env (S i)) n (S i) (S (S i)) f Hwf) as Hr.
  destruct (fs_rename _ _ _ f) as [[] g]; [|done..]. cbn [snd] in Hr.
  eapply own_names_trans; [exact Hr|]. apply IH, Hr.
Qed.

(** A rotation with [max_files] at least one touches only the names of the node. *)
Lemma rotate_own env n m f : fs_wf f → own_names n f (rotate_log_files env n (S m) f).2.
Proof.
  intros Hwf. unfold rotate_log_files. cbv zeta. change (log_path_rotated n (S m)) with (file_name n (S m)).
  assert (own_names n f (if fs_exists (file_name n (S m)) f
    then fs_remove (remove_ok env) (file_name n (S m)) f else (Ok tt, f)).2) as Hrem.
  { destruct (fs_exists _ f); [|done]. unfold fs_remove. destruct (_ && _); [|done].
    split; [by apply fs_wf_delete|]. split; [done|]. intros p Hp. cbn. rewrite lookup_delete_ne; [done|]. apply not_eq_sym, (Hp (S m)). }
  destruct (if fs_exists (file_name n (S m)) f then _ else _) as [[] g]; [|done..]. cbn [snd] in Hrem.
  pose proof (shift_own env n (S m - 1) g ltac:(apply Hrem)) as Hs.
  destruct (shift_files env n (S m - 1) g) as [[] h]; cbn [snd] in Hs;
    (eapply own_names_trans; [exact Hrem|]); try exact Hs. eapply own_names_trans; [exact Hs|].
  change (log_path n) with (file_name n 0). change (log_path_rotated n 1) with (file_name n 1).
  destruct (fs_exists _ h); [apply rename_own, Hs|split; [apply Hs|done]].
Qed.

(** The file the task writes to is not in use under another name. *)
Definition owns (n : NodeId) (s : TaskState) : Prop :=
  fs_wf (fs s) ∧ ∀ p, (∀ k, p ≠ file_name n k) → dir (fs s) !! p ≠ Some (h_id (file s)).

Lemma start_owns cfg f :
  fs_wf f → owns (node_id cfg) (start_task cfg f) ∧ same_others (node_id cfg) f (fs (start_task cfg f)).
Proof.
  intros Hwf. pose proof (fs_wf_create (log_path (node_id cfg)) f Hwf) as Hwf'.
  pose proof (dir_create (log_path (node_id cfg)) f) as (Hd & _ & Ho).
  pose proof (λ q, fs_read_create (log_path (node_id cfg)) q f Hwf) as Hread. unfold start_task.
  destruct (fs_create _ f) as [h g]. cbn [fst snd fs file] in *. split; [split; [done|]|].
  - intros p Hp Hi. cbn in Hi. by apply (Hp 0), (wf_inj _ Hwf' p _ _ Hi).
  - intros p Hp. cbn. specialize (Hp 0). split; [by apply Ho|]. by rewrite Hread, decide_False.
Qed.

Lemma write_owns n s text :
  owns n s → let '(h, f) := fs_write (file s) text (fs s) in
  ∀ b, owns n (mkTask f h b) ∧ same_others n (fs s) f.
Proof.
  intros [Hwf Hown]. pose proof (fs_wf_write (file s) text (fs s) Hwf) as Hwf'.
  pose proof (fs_read_write (file s) text (fs s)) as Hread.
  assert (dir (fs_write (file s) text (fs s)).2 = dir (fs s)) as Hdir by done.
  assert (h_id (fs_write (file s) text (fs s)).1 = h_id (file s)) as Hid by done.
  destruct (fs_write (file s) text (fs s)) as [h f]. cbn [fst snd] in *. intros b. split.
  - split; [done|]. cbn. rewrite Hid, Hdir. done.
  - intros p Hp. rewrite Hdir. split; [done|]. by rewrite Hread, decide_False by auto.
Qed.

Lemma rotate_owns cfg env s e s' continue :
  1 ≤ max_rotated cfg → owns (node_id cfg) s →
  rotate_if_full (T:=T) cfg env s = (e, (s', continue)) →
  owns (node_id cfg) s' ∧ same_others (node_id cfg) (fs s) (fs s').
Proof.
  intros Hmax [Hwf Hown]. unfold rotate_if_full. destruct (max_size cfg) as [m|]; [|by intros [= <- <- <-]].
  destruct (m <=? bytes_written s)%Z; [|by intros [= <- <- <-]].
  destruct (max_rotated cfg) as [|k]; [lia|].
  pose proof (rotate_own (rotate_env env) (node_id cfg) k (fs s) Hwf) as (Hwf' & Hsame & Hdir).
  destruct (rotate_log_files _ _ _ _) as [r f]. cbn [snd] in *.
  assert (same_others (node_id cfg) (fs s) f) as Hother.
  { intros p Hp. split; [by apply Hdir|]. apply fs_read_dir; auto. }
  destruct (create_ok env).
  - destruct (start_owns cfg f Hwf') as [Ho Hs]. unfold start_task in *.
    destruct (fs_create _ f) as [h g]. intros [= <- <- <-]. split; [done|]. by eapply same_others_trans.
  - intros [= <- <- <-]. split; [|done]. split; [done|]. cbn. intros p Hp. rewrite Hdir by done. by apply Hown.
Qed.

Lemma store_message_owns cfg env st m s e s' continue :
  1 ≤ max_rotated cfg → owns (node_id cfg) s →
  store_message str_array cfg env st m s = Ok (e, (s', continue)) →
  owns (node_id cfg) s' ∧ same_others (node_id cfg) (fs s) (fs s').
Proof.
  intros Hmax Hown. unfold store_message.
  destruct (match send_logs_to cfg, message_to_string m with Some _, Some _ => _ | _, _ => _ end)
    as [e2| |]; try done. cbn [mbind res_bind].
  destruct (write_entry cfg env (entry_text cfg st m) s) as [e3 s1] eqn:E3.
  assert (owns (node_id cfg) s1 ∧ same_others (node_id cfg) (fs s) (fs s1)) as [Hown1 Hother1].
  { unfold write_entry in E3. destruct (write_fault env) as [k|].
    - pose proof (write_owns _ s (String.substring 0 k (entry_text cfg st m)) Hown) as Hw.
      destruct (fs_write _ _ _). injection E3 as _ <-. apply Hw.
    - pose proof (write_owns _ s (entry_text cfg st m) Hown) as Hw.
      destruct (fs_write _ _ _). injection E3 as _ <-. apply Hw. }
  destruct (rotate_if_full cfg env s1) as [e4 [s2 c]] eqn:E4. intros [= _ <- <-].
  destruct (rotate_owns cfg env s1 e4 s2 c Hmax Hown1 E4) as [? ?]. split; [done|]. by eapply same_others_trans.
Qed.

Lemma log_lines_owns cfg received s e s' continue :
  1 ≤ max_rotated cfg → owns (node_id cfg) s →
  log_lines str_array cfg received s = Ok (e, (s', continue)) →
  owns (node_id cfg) s' ∧ same_others (node_id cfg) (fs s) (fs s').
Proof.
  intros Hmax. revert s e s' continue. induction received as [|[env line] received IH]; intros s e s' continue Hown.
  { by intros [= <- <- <-]. }
  cbn [log_lines]. unfold log_line.
  destruct (match send_stdout_to cfg with Some _ => _ | None => _ end) as [e1| |]; try done.
  cbn [mbind res_bind]. destruct (kept_message cfg env line) as [m|].
  - destruct (store_message str_array cfg env (stream line) m s) as [[e2 [s1 []]]| |] eqn:E2; try done;
      cbn [mbind res_bind]; apply store_message_owns in E2 as [Hown1 Hother1]; try done.
    + destruct (log_lines str_array cfg received s1) as [[e3 [s3 c]]| |] eqn:E3; try done.
      intros [= _ <- <-]. apply IH in E3 as [? ?]; [|done]. split; [done|]. by eapply same_others_trans.
    + by intros [= _ <- <-].
  - cbn [mbind res_bind]. destruct (log_lines str_array cfg received s) as [[e3 [s3 c]]| |] eqn:E3; try done.
    intros [= _ <- <-]. by eapply IH.
Qed.

(** The logs of different nodes.  Whatever file operations fail, the log task of a node leaves
    every log file of another node of the dataflow as it is, unless the identifier of one of
    the two is the other one followed by a dot and a number. *)
Theorem node_logs_isolated cfg other f received e s continue :
  1 ≤ max_rotated cfg → fs_wf f →
  log_lines str_array cfg received (start_task cfg f) = Ok (e, (s, continue)) →
  other ≠ node_id cfg → (∀ i, other ≠ dotted (node_id cfg) i) → (∀ i, node_id cfg ≠ dotted other i) →
  ∀ k, fs_read (file_name other k) (fs s) = fs_read (file_name other k) f.
Proof.
  intros Hmax Hwf Hrun Hne Hd Hd' k. destruct (start_owns cfg f Hwf) as [Hown Hother].
  apply log_lines_owns in Hrun as [_ Hother']; [|done..].
  apply (same_others_trans _ _ _ _ Hother Hother'). intros j. by apply file_names_differ.
Qed.

(** Node identifiers may contain dots.  The current log of the node [<n>.<k>] has the name of
    the rotated file [k] of the node [n]: a rotation for [n] replaces it by the previous file
    of [n]. *)
Theorem dotted_log_replaced n k max_files f :
  1 ≤ k ≤ max_files → fs_wf f →
  fs_read (log_path (dotted n k)) (rotate_log_files all_ok n max_files f).2
  = fs_read (file_name n (k - 1)) f.
Proof.
  intros Hk Hwf. rewrite <- log_path_rotated_dotted.
  destruct (rotate_log_files_spec n max_files f) as (f' & -> & _ & Hs & _ & Hshift & _); [lia|done|].
  destruct k as [|k]; [lia|]. cbn [snd Nat.sub]. rewrite Nat.sub_0_r. apply fs_read_dir; [done|].
  apply (Hshift k). lia.
Qed.

Lemma shift_current env n i f : dir (shift_files env n i f).2 !! file_name n 0 = dir f !! file_name n 0.
Proof.
  revert f. induction i as [|i IH]; intros f; [done|]. cbn [shift_files]. rewrite Nat.add_1_r.
  destruct (fs_exists _ f); [|done].
  assert (dir (fs_rename (rename_ok env (S i)) (log_path_rotated n (S i)) (log_path_rotated n (S (S i))) f).2
    !! file_name n 0 = dir f !! file_name n 0) as Hr.
  { unfold fs_rename. destruct (dir f !! log_path_rotated n (S i)); [|done]. destruct (rename_ok _ _); [|done]. cbn.
    rewrite lookup_insert_ne, lookup_delete_ne; [done|by intros E%(file_name_inj n (S i) 0)|
      by intros E%(file_name_inj n (S (S i)) 0)]. }
  destruct (fs_rename _ _ _ f) as [[] g]; cbn [snd] in *; rewrite ?IH; done.
Qed.

Lemma rotate_stuck env n m f :
  rename_ok env 0 = false →
  dir (rotate_log_files env n (S m) f).2 !! file_name n 0 = dir f !! file_name n 0.
Proof.
  intros Hno. unfold rotate_log_files. cbv zeta.
  assert (dir (if fs_exists (log_path_rotated n (S m)) f
    then fs_remove (remove_ok env) (log_path_rotated n (S m)) f else (Ok tt, f)).2 !! file_name n 0
    = dir f !! file_name n 0) as Hrem.
  { destruct (fs_exists _ f); [|done]. unfold fs_remove. destruct (_ && _); [|done]. cbn.
    apply lookup_delete_ne. by intros E%(file_name_inj n (S m) 0). }
  destruct (if fs_exists _ f then _ else _) as [[] g]; [|done..]. cbn [snd] in Hrem.
  pose proof (shift_current env n (S m - 1) g) as Hs.
  destruct (shift_files env n (S m - 1) g) as [[] h]; cbn [snd] in *; [|congruence..].
  unfold fs_rename. rewrite Hno. destruct (fs_exists _ h), (dir h !! log_path n); cbn [snd]; congruence.
Qed.

(** When the full file cannot be moved away, it is emptied: its entries are lost. *)
Theorem failed_rotation_erases cfg env s m i :
  max_size cfg = Some m → (m ≤ bytes_written s)%Z → 1 ≤ max_rotated cfg →
  rename_ok (rotate_env env) 0 = false → create_ok env = true →
  dir (fs s) !! log_path (node_id cfg) = Some i →
  ∃ e s', rotate_if_full (T:=T) cfg env s = (e, (s', true)) ∧
    dir (fs s') !! log_path (node_id cfg) = Some i ∧ data (fs s') !! i = Some EmptyString.
Proof.
  intros Hm Hfull Hmax Hno Hc Hi. unfold rotate_if_full. rewrite Hm, (proj2 (Z.leb_le _ _) Hfull), Hc.
  destruct (max_rotated cfg) as [|k]; [lia|].
  pose proof (rotate_stuck (rotate_env env) (node_id cfg) k (fs s) Hno) as Hd.
  destruct (rotate_log_files _ _ _ _) as [r f]. cbn [snd file_name] in Hd. unfold fs_create.
  rewrite Hd, Hi. eexists _, _. split; [done|]. cbn. by rewrite Hd, lookup_insert_eq.
Qed.

End theorems.

(** ** A sample of the libraries

    Values are written as digits; one text names another node. *)

Fixpoint json_tree (v : Json) : gen_tree string :=
  match v with
  | JNull => GenNode 0 []
  | JBool b => GenNode (if b then 2 else 1) []
  | JNumber t => GenNode 3 [GenLeaf t]
  | JString s => GenLeaf s
  | JArray l => GenNode 4 (json_tree <$> l)
  | JObject l => GenNode 5 ((λ '(k, v), GenNode 6 [GenLeaf k; json_tree v]) <$> l)
  end.

Fixpoint tree_json (t : gen_tree string) : option Json :=
  match t with
  | GenLeaf s => Some (JString s)
  | GenNode 0 [] => Some JNull
  | GenNode 1 [] => Some (JBool false)
  | GenNode 2 [] => Some (JBool true)
  | GenNode 3 [GenLeaf t] => Some (JNumber t)
  | GenNode 4 l => JArray <$> mapM tree_json l
  | GenNode 5 l =>
      JObject <$> mapM (λ t, match t with
                             | GenNode 6 [GenLeaf k; t] => pair k <$> tree_json t
                             | _ => None
                             end) l
  | _ => None
  end.

Fixpoint json_ind' (P : Json → Prop) (P0 : P JNull) (P1 : ∀ b, P (JBool b)) (P2 : ∀ t, P (JNumber t))
    (P3 : ∀ s, P (JString s)) (P4 : ∀ l, Forall P l → P (JArray l))
    (P5 : ∀ l, Forall (λ kv, P kv.2) l → P (JObject l)) (v : Json) : P v :=
  let go := json_ind' P P0 P1 P2 P3 P4 P5 in
  match v with
  | JNull => P0
  | JBool b => P1 b
  | JNumber t => P2 t
  | JString s => P3 s
  | JArray l => P4 l ((fix all l : Forall P l :=
      match l with [] => Forall_nil_2 P | v :: l => Forall_cons_2 P v l (go v) (all l) end) l)
  | JObject l => P5 l ((fix all l : Forall (λ kv, P kv.2) l :=
      match l with [] => Forall_nil_2 (λ kv, P kv.2) | kv :: l => Forall_cons_2 (λ kv, P kv.2) kv l (go kv.2) (all l) end) l)
  end.

Lemma json_tree_json v : tree_json (json_tree v) = Some v.
Proof.
  induction v as [| [] | | | l IH | l IH] using json_ind'; try done; cbn [json_tree tree_json].
  - assert (mapM tree_json (json_tree <$> l) = Some l) as ->; [|done].
    apply mapM_Some. induction IH; constructor; done.
  - match goal with |- context [mapM ?f _] => assert (mapM f ((λ '(k, v), GenNode 6 [GenLeaf k; json_tree v]) <$> l)
      = Some l) as -> end; [|done].
    apply mapM_Some. induction IH as [|[k v] l Hv _ IH']; constructor; [|done]. cbn in *. by rewrite Hv.
Qed.

Fixpoint digits (p : positive) : string :=
  match p with xH => EmptyString | xO p => String "0" (digits p) | xI p => String "1" (digits p) end.
Fixpoint undigits (s : string) : positive :=
  match s with
  | EmptyString => xH
  | String c s => if bool_decide (c = "1"%char) then xI (undigits s) else xO (undigits s)
  end.
Lemma undigits_digits p : undigits (digits p) = p.
Proof. induction p as [p IH|p IH|]; cbn; by rewrite ?IH. Qed.

Definition sample_helper : LogMessageHelper := {|
  h_build_id := None; h_dataflow_id := Some 99%N; h_node_id := Some "other"; h_daemon_id := None;
  h_level := LLevel LInfo; h_target := Some "t"; h_module_path := None; h_file := None; h_line := None;
  h_message := Some "forged"; h_timestamp := 7000000; h_fields := None
|}.

#[local] Instance sample_log_lib : LogLib := {|
  helper_from_str := λ s, if bool_decide (s = "json") then Some sample_helper else None;
  message_from_str := λ _, None;
  message_to_string := λ m, Some (m_message m);
  value_from_str := λ s,
    match s with
    | String "{" s => s ← strip_suffix_char "}" s; decode (undigits s) ≫= tree_json
    | _ => None
    end;
  value_to_vec := λ v, Some (String "{" (String.append (digits (encode (json_tree v))) "}"));
  uuid_parse_str := λ _, None;
  to_rfc3339_millis := λ t, digits (encode (t / 1000000)%Z);
  parse_from_rfc3339 := λ s, (λ t, t * 1000000)%Z <$> decode (undigits s)
|}.

#[local] Existing Instance sample_arrow.
#[local] Existing Instance sample_laws.

Definition sample_str_array (s : string) : ArrayData sample_type :=
  mkArray _ SUtf8 1 0 None 0
    [replicate 4 Byte.x00 ++ to_le_bytes 4 (Z.of_nat (String.length s)); String.list_byte_of_string s] [].

Lemma sample_str_array_valid text : valid (sample_str_array text) ∧ sendable (sample_str_array text).
Proof. split; [done|]. cbn. unfold MAX_ENTRIES. split_and!; [lia..|done|done]. Qed.

Definition sample_custom : CustomNode :=
  let n := plain_node "cam" ∅ ∅ in
  custom_of_node
    {| n with n_send_stdout_as := Some "out"; n_max_log_size := Some "1K"; n_max_rotated_files := Some 1%Z |}
    ∅ "node" SourceLocal None None.
Definition sample_resolved : ResolvedNode := mkResolved "cam" None None None None None (Custom sample_custom).
Definition sample_logger : NodeLogger :=
  mkNodeLogger "cam" 5%N (mkDaemonId None 3%N) (mkLogger ToChannel (mkDaemonId None 3%N)).
Definition sample_cfg : TaskConfig :=
  mkTaskConfig sample_logger (Some "out") None None (Some 1024%Z) 1 false.
Definition sample_env (t : Z) : LineEnv := mkLineEnv t true true true None all_ok true true.
Definition sample_received : list (LineEnv * LogLine) :=
  [(sample_env 1, mkLogLine "one" Stdout); (sample_env 2, mkLogLine "json" Stdout);
   (sample_env 3, mkLogLine "two" Stderr); (sample_env 4, mkLogLine "three" Stdout);
   (sample_env 5, mkLogLine "four" Stdout)].
Definition sample_fs : Fs := mkFs {["log_other.jsonl" := 0]} {[0 := "x"]} 1.

Lemma sample_fs_wf : fs_wf sample_fs.
Proof.
  split; cbn.
  - intros p i [<- <-]%lookup_singleton_Some. split; [lia|by rewrite lookup_singleton_eq].
  - intros p q i [<- <-]%lookup_singleton_Some [<- _]%lookup_singleton_Some. done.
Qed.

Lemma sample_fresh k : fs_read (file_name "cam" (S k)) sample_fs = None.
Proof.
  unfold fs_read, sample_fs. cbn [dir]. rewrite lookup_singleton_ne; [done|].
  intros E%(f_equal (String.substring 0 5)). by vm_compute in E.
Qed.

Lemma sample_calm :
  Forall (λ x, calm x.1 ∧ ∀ text, entry_of sample_cfg x = Some text → fits sample_cfg text) sample_received.
Proof.
  assert (Forall (λ x, default 0 (String.length <$> entry_of sample_cfg x) ≤ 2000) sample_received) as Hlen.
  { apply (bool_decide_unpack _). by vm_compute. }
  rewrite Forall_forall in *. intros x Hx. split.
  - unfold sample_received in Hx. repeat (apply elem_of_cons in Hx as [->|Hx]; [done|]).
    by apply elem_of_nil in Hx.
  - intros text E m [= <-]. specialize (Hlen x Hx). rewrite E in Hlen. cbn in Hlen. unfold u64_max. lia.
Qed.

(** A rotated file from before, a first run and a second one. *)
Definition sample_fs_old : Fs := (fs_create "log_cam.1.jsonl" sample_fs).2.

Lemma sample_rotated : rotated_files sample_cfg sample_fs_old [EmptyString].
Proof.
  split; [cbn; lia|]. intros k. unfold sample_fs_old. rewrite fs_read_create by exact sample_fs_wf.
  destruct k as [|k]; [by rewrite decide_True|]. rewrite decide_False; [apply sample_fresh|].
  intros E. by apply (file_name_inj "cam" (S (S k)) 1) in E.
Qed.

Lemma log_files_kept_witness :
  ∃ f1 earlier_segs e s segs,
    task_runs sample_str_array sample_cfg [take 2 sample_received] sample_fs_old = Ok f1 ∧
    log_lines sample_str_array sample_cfg sample_received (start_task sample_cfg f1) = Ok (e, (s, true)) ∧
    Forall2 (λ r segs, Segmented (Some 1024%Z) (omap (entry_of sample_cfg) r) segs)
      [take 2 sample_received] earlier_segs ∧
    Segmented (Some 1024%Z) (omap (entry_of sample_cfg) sample_received) segs ∧
    (∀ k, fs_read (file_name "cam" k) (fs s) =
            take 2 ((concat_strings <$> segs ++ concat (reverse (tail <$> earlier_segs))) ++ [EmptyString]) !! k) ∧
    same_others "cam" sample_fs_old (fs s).
Proof.
  apply (log_files_kept sample_str_array sample_str_array_valid sample_logger false sample_resolved sample_cfg
           sample_fs_old [EmptyString] [take 2 sample_received] sample_received).
  - by vm_compute.
  - intros v E. vm_compute in E. by injection E as <-.
  - apply fs_wf_create, sample_fs_wf.
  - exact sample_rotated.
  - constructor; [|constructor]. apply Forall_take, sample_calm.
  - exact sample_calm.
Defined.

Lemma log_disk_bounded_witness :
  ∃ e s, log_lines sample_str_array sample_cfg sample_received (start_task sample_cfg sample_fs) = Ok (e, (s, true)) ∧
    ∀ k text, fs_read (file_name "cam" k) (fs s) = Some text →
      k ≤ 1 ∧ (Z.of_nat (String.length text) ≤ 1024 + 2000)%Z.
Proof.
  apply (log_disk_bounded sample_str_array sample_str_array_valid sample_logger false sample_resolved sample_cfg
           sample_fs sample_received 1024 2000).
  - by vm_compute.
  - intros v E. vm_compute in E. by injection E as <-.
  - exact sample_fs_wf.
  - exact sample_fresh.
  - exact sample_calm.
  - reflexivity.
  - lia.
  - lia.
  - apply (bool_decide_unpack _). by vm_compute.
Defined.

(** The limits of the documentation, [max_log_size * (1 + max_rotated_files)], are exceeded by
    the two files of the sample. *)
Lemma documented_disk_limit_exceeded :
  ∃ e s, log_lines sample_str_array sample_cfg (take 3 sample_received) (start_task sample_cfg sample_fs)
           = Ok (e, (s, true)) ∧
    ((1024 * (1 + 1))%Z <?
     Z.of_nat (foldr (λ k n, default 0 (String.length <$> fs_read (file_name "cam" k) (fs s)) + n)%nat 0%nat [0%nat; 1%nat]))%Z = true.
Proof. eexists _, _. split; [by vm_compute|]. by vm_compute. Qed.

Lemma log_identity_kept_witness :
  ∃ e r, log_lines sample_str_array sample_cfg sample_received (start_task sample_cfg sample_fs) = Ok (e, r) ∧
    Forall (own_effect sample_cfg) e.
Proof.
  destruct (log_lines sample_str_array sample_cfg sample_received (start_task sample_cfg sample_fs))
    as [[e r]| |] eqn:E; [|by vm_compute in E..].
  exists e, r. split; [done|]. exact (log_identity_kept sample_str_array sample_cfg _ _ _ _ E).
Defined.

Lemma node_logs_isolated_witness :
  ∃ e s c, log_lines sample_str_array sample_cfg sample_received (start_task sample_cfg sample_fs) = Ok (e, (s, c)) ∧
    ∀ k, fs_read (file_name "other" k) (fs s) = fs_read (file_name "other" k) sample_fs.
Proof.
  destruct (log_lines sample_str_array sample_cfg sample_received (start_task sample_cfg sample_fs))
    as [[e [s c]]| |] eqn:E; [|by vm_compute in E..].
  exists e, s, c. split; [done|].
  apply (node_logs_isolated sample_str_array sample_cfg "other" sample_fs sample_received e s c).
  - reflexivity.
  - exact sample_fs_wf.
  - exact E.
  - discriminate.
  - intros i [=].
  - intros i [=].
Defined.

Lemma dotted_log_replaced_witness :
  let f := mkFs {["log_cam.jsonl" := 0; "log_cam.1.jsonl" := 1]} {[0 := "cam"; 1 := "cam.1"]} 2 in
  fs_read (log_path "cam.1") f = Some "cam.1" ∧
  fs_read (log_path "cam.1") (rotate_log_files all_ok "cam" 5 f).2 = Some "cam".
Proof.
  cbv zeta. split; [reflexivity|]. apply (dotted_log_replaced "cam" 1 5).
  - lia.
  - split.
    + intros p i E. cbn in E. apply lookup_insert_Some in E as [[_ <-]|[_ [_ <-]%lookup_singleton_Some]];
        (split; [cbn; lia|by eexists; vm_compute]).
    + intros p q i E E'. cbn in E, E'.
      apply lookup_insert_Some in E as [[<- <-]|[_ [<- <-]%lookup_singleton_Some]];
        apply lookup_insert_Some in E' as [[<- ?]|[_ [<- ?]%lookup_singleton_Some]]; done.
Defined.

Lemma failed_rotation_erases_witness :
  ∃ e s', rotate_if_full (T:=sample_type) sample_cfg (mkLineEnv 1 true true true None (mkRotateEnv true (λ k, k =? 1)) true true)
            (mkTask (mkFs {["log_cam.jsonl" := 0]} {[0 := "full"]} 1) (mkHandle 0 4) 1024) = (e, (s', true)) ∧
    dir (fs s') !! "log_cam.jsonl" = Some 0 ∧ data (fs s') !! 0 = Some EmptyString.
Proof.
  apply (failed_rotation_erases sample_cfg
           (mkLineEnv 1 true true true None (mkRotateEnv true (λ k, k =? 1)) true true)
           (mkTask (mkFs {["log_cam.jsonl" := 0]} {[0 := "full"]} 1) (mkHandle 0 4) 1024) 1024 0); try reflexivity.
Defined.
