(* ===== verification/NodeOutput.v ===== *)
(** * The output of a node process

    Models [spawn_inner] of [binaries/daemon/src/spawn/prepared.rs]: the tasks that read
    stdout and stderr, the channel to the log task ([LogFiles]), and the task that waits for
    the process, executes operations on it and reports its end; with [ProcessHandle] of
    [running_dataflow.rs].

    The tasks run concurrently as a step relation.  What the pipes deliver is given in advance
    as a list of reads; [read_until] blocks when the list is used up. *)

From Stdlib Require Import ZArith Lia Ascii.
From stdpp Require Import base list gmap strings.
From S2P Require Import Prelude Message Recording InputMapping Text Arrow Descriptor Validate LogFiles.
Local Open Scope nat_scope.
Local Open Scope list_scope.

(** ** Lossy decoding ([String::from_utf8_lossy]) *)

Definition REPLACEMENT : list Byte.byte := [Byte.xef; Byte.xbf; Byte.xbd].

(** The second byte of a character of three or four bytes. *)
Definition second_ok (b0 b1 : Byte.byte) : bool :=
  if between 0xE0 0xE0 b0 then between 0xA0 0xBF b1
  else if between 0xED 0xED b0 then between 0x80 0x9F b1
  else if between 0xF0 0xF0 b0 then between 0x90 0xBF b1
  else if between 0xF4 0xF4 b0 then between 0x80 0x8F b1
  else continuation b1.

(** Every longest prefix of a character that does not go on is replaced. *)
Fixpoint from_utf8_lossy (s : list Byte.byte) : list Byte.byte :=
  match s with
  | [] => []
  | b0 :: s0 =>
      if between 0 0x7F b0 then b0 :: from_utf8_lossy s0
      else if between 0xC2 0xDF b0 then
        match s0 with
        | b1 :: s1 => if continuation b1 then b0 :: b1 :: from_utf8_lossy s1
                      else REPLACEMENT ++ from_utf8_lossy s0
        | [] => REPLACEMENT
        end
      else if between 0xE0 0xEF b0 then
        match s0 with
        | b1 :: s1 =>
            if second_ok b0 b1 then
              match s1 with
              | b2 :: s2 => if continuation b2 then b0 :: b1 :: b2 :: from_utf8_lossy s2
                            else REPLACEMENT ++ from_utf8_lossy s1
              | [] => REPLACEMENT
              end
            else REPLACEMENT ++ from_utf8_lossy s0
        | [] => REPLACEMENT
        end
      else if between 0xF0 0xF4 b0 then
        match s0 with
        | b1 :: s1 =>
            if second_ok b0 b1 then
              match s1 with
              | b2 :: s2 =>
                  if continuation b2 then
                    match s2 with
                    | b3 :: s3 => if continuation b3 then b0 :: b1 :: b2 :: b3 :: from_utf8_lossy s3
                                  else REPLACEMENT ++ from_utf8_lossy s2
                    | [] => REPLACEMENT
                    end
                  else REPLACEMENT ++ from_utf8_lossy s1
              | [] => REPLACEMENT
              end
            else REPLACEMENT ++ from_utf8_lossy s0
        | [] => REPLACEMENT
        end
      else REPLACEMENT ++ from_utf8_lossy s0
  end.

(** ** Reading a stream *)

Definition MAX_LOG_LINE_BYTES : Z := 1024 * 1024.

Definition truncate_log_line (content : string) : string :=
  if (MAX_LOG_LINE_BYTES <? Z.of_nat (String.length content))%Z
  then String.append
         (String.substring 0 (boundary_below content (Z.to_nat MAX_LOG_LINE_BYTES)) content) "... [truncated]"
  else content.

(** The result of one [read_until(b'\n')]: bytes, the end of the stream, or an error after
    some bytes. *)
Inductive Read :=
| ReadBytes (raw : list Byte.byte)
| ReadEnd
| ReadError (raw : list Byte.byte).
Definition read_raw (r : Read) : list Byte.byte :=
  match r with ReadBytes raw | ReadError raw => raw | ReadEnd => [] end.

(** Whether the loop ends: the stdout task goes on after an error, the stderr task stops. *)
Definition read_finished (st : LogStream) (r : Read) : bool :=
  match r, st with
  | ReadBytes _, _ => false
  | ReadEnd, _ => true
  | ReadError _, Stdout => false
  | ReadError _, Stderr => true
  end.

Definition decode_raw (raw : list Byte.byte) : string :=
  String.string_of_list_byte (if utf8_valid raw then raw else from_utf8_lossy raw).

(** The line sent after a read. *)
Definition read_line (st : LogStream) (r : Read) : LogLine :=
  mkLogLine (truncate_log_line (decode_raw (read_raw r))) st.

(** All lines a task sends for the reads of its stream. *)
Fixpoint stream_lines (st : LogStream) (reads : list Read) : list LogLine :=
  match reads with
  | [] => []
  | r :: reads => read_line st r :: if read_finished st r then [] else stream_lines st reads
  end.
(** Whether the task ends after them. *)
Definition stream_ends (st : LogStream) (reads : list Read) : bool := existsb (read_finished st) reads.

(** [ArrayQueue::force_push]: the oldest element makes room. *)
Definition STDERR_LOG_LINES_MAX : nat := 500.
Definition force_push (l : list string) (x : string) : list string :=
  if (length l <? STDERR_LOG_LINES_MAX)%nat then l ++ [x] else tail l ++ [x].

(** The reads of a process that prints [output] and closes the stream. *)
Definition reads_of (output : string) : list Read :=
  ((λ line, ReadBytes (String.list_byte_of_string line)) <$> split_inclusive output) ++ [ReadEnd].

(** ** The tasks of a process *)

Definition LOG_CHANNEL_CAPACITY : nat := 100.
Definition OP_CHANNEL_CAPACITY : nat := 2.

Inductive ProcessOperation := SoftKill | Kill.

(** The log task: waiting for lines, ended (the receiver is dropped), or panicked (also). *)
Inductive LogTask := Receiving (s : TaskState) | LogEnded (s : TaskState) | LogPanicked.

Record Proc := mkProc {
  stdout_reads : list Read;
  stdout_open : bool;                     (* the stdout task is running *)
  stderr_reads : list Read;
  stderr_open : bool;
  stderr_recent : list string;
  channel : list LogLine;
  log_task : LogTask;
  processed : list (LineEnv * LogLine);   (* what the log task received *)
  exit_status : option NodeExitStatus;                 (* set when [child.wait()] returned *)
  ops : list ProcessOperation;            (* the operation channel *)
  executed : list ProcessOperation;
  ops_closed : bool;                      (* [op_rx] is dropped *)
  reported : option NodeExitStatus                     (* [finished_tx] was used *)
}.

Definition log_done (p : Proc) : bool :=
  match log_task p with Receiving _ => false | _ => true end.

(** A line is sent; after the log task ended it is only traced. *)
Definition send_line (line : LogLine) (p : Proc) : list LogLine :=
  if log_done p then channel p else channel p ++ [line].
Definition has_room (p : Proc) : bool :=
  log_done p || (length (channel p) <? LOG_CHANNEL_CAPACITY)%nat.

Definition stdout_round (r : Read) (reads : list Read) (p : Proc) : Proc :=
  {| p with stdout_reads := reads; stdout_open := negb (read_finished Stdout r);
            channel := send_line (read_line Stdout r) p |}.
Definition stderr_round (r : Read) (reads : list Read) (p : Proc) : Proc :=
  {| p with stderr_reads := reads; stderr_open := negb (read_finished Stderr r);
            stderr_recent := force_push (stderr_recent p) (decode_raw (read_raw r));
            channel := send_line (read_line Stderr r) p |}.

(** The log task received a line and is in state [s]; it goes on or stops. *)
Definition log_round (env : LineEnv) (line : LogLine) (rest : list LogLine) (s : TaskState) (continue : bool)
    (p : Proc) : Proc :=
  {| p with channel := if continue then rest else [];
            log_task := if continue then Receiving s else LogEnded s;
            processed := processed p ++ [(env, line)] |}.

Definition end_log (s : TaskState) (p : Proc) : Proc := {| p with log_task := LogEnded s |}.
Definition set_exit (status : NodeExitStatus) (p : Proc) : Proc := {| p with exit_status := Some status |}.
(** The operation channel is closed when the end is reported. *)
Definition report (status : NodeExitStatus) (p : Proc) : Proc :=
  {| p with ops := []; ops_closed := true; reported := Some status |}.

(** [ProcessHandle::submit]: [None] if it blocks, else whether the operation was taken. *)
Definition submit (op : ProcessOperation) (p : Proc) : option (bool * Proc) :=
  if ops_closed p then Some (false, p)
  else if (length (ops p) <? OP_CHANNEL_CAPACITY)%nat then Some (true, {| p with ops := ops p ++ [op] |})
  else None.

#[export] Instance LogStream_eq_dec : EqDecision LogStream.
Proof. solve_decision. Defined.

Section process.
Context `{LogLib} {T : Type} `{ArrowLib T, !ArrowLaws}.
Context (str_array : string → ArrayData T) (cfg : TaskConfig).

Inductive step : Proc → Proc → Prop :=
| step_stdout p r reads :
    stdout_open p = true → stdout_reads p = r :: reads → has_room p = true →
    step p (stdout_round r reads p)
| step_stderr p r reads :
    stderr_open p = true → stderr_reads p = r :: reads → has_room p = true →
    step p (stderr_round r reads p)
| step_log p s env line rest e s' continue :
    log_task p = Receiving s → channel p = line :: rest →
    log_line str_array cfg env line s = Ok (e, (s', continue)) →
    step p (log_round env line rest s' continue p)
| step_log_panic p s env line rest :
    log_task p = Receiving s → channel p = line :: rest →
    is_ok (log_line str_array cfg env line s) = false →
    step p {| p with channel := []; log_task := LogPanicked |}
| step_log_end p s :
    log_task p = Receiving s → channel p = [] → stdout_open p = false → stderr_open p = false →
    step p (end_log s p)
| step_exit p status :
    exit_status p = None → step p (set_exit status p)
| step_op p op rest :
    exit_status p = None → ops p = op :: rest →
    step p {| p with ops := rest; executed := executed p ++ [op] |}
| step_report p status :
    exit_status p = Some status → log_done p = true → reported p = None →
    step p (report status p).

(** The daemon submits operations in between. *)
Inductive sys_step : Proc → Proc → Prop :=
| sys_internal p p' : step p p' → sys_step p p'
| sys_submit p op taken p' : submit op p = Some (taken, p') → sys_step p p'.

Definition start (f : Fs) (out err : list Read) : Proc :=
  mkProc out true err true [] [] (Receiving (start_task cfg f)) [] None [] [] false None.

Abbreviation reachable := (rtc sys_step).

(** ** Conservation *)

Lemma log_lines_snoc received env line s e s1 e2 r :
  log_lines str_array cfg received s = Ok (e, (s1, true)) →
  log_line str_array cfg env line s1 = Ok (e2, r) →
  ∃ e', log_lines str_array cfg (received ++ [(env, line)]) s = Ok (e', r).
Proof.
  intros Hr Hl. revert s e Hr. induction received as [|[env' line'] received IH]; intros s e; cbn [log_lines app].
  - intros [= <- <-]. rewrite Hl. destruct r as [s2 []]; cbn; by eexists.
  - destruct (log_line str_array cfg env' line' s) as [[e3 [s3 []]]| |]; try done. cbn [mbind res_bind].
    destruct (log_lines str_array cfg received s3) as [[e4 r4]| |] eqn:E4; try done. cbn. intros [= <- ->].
    destruct (IH s3 e4 E4) as [e' ->]. by eexists.
Qed.

Definition of_stream (st : LogStream) (lines : list LogLine) : list LogLine :=
  filter (λ l, stream l = st) lines.

(** Every line of a stream was processed, or waits in the channel, or is still to be read. *)
Definition conserved (st : LogStream) (reads : list Read) (p : Proc) : Prop :=
  of_stream st ((processed p).*2 ++ channel p) ++
  (match st with
   | Stdout => if stdout_open p then stream_lines Stdout (stdout_reads p) else []
   | Stderr => if stderr_open p then stream_lines Stderr (stderr_reads p) else []
   end) = stream_lines st reads.

Record Inv (f : Fs) (out err : list Read) (p : Proc) : Prop := {
  inv_log : match log_task p with
            | Receiving s =>
                (∃ e, log_lines str_array cfg (processed p) (start_task cfg f) = Ok (e, (s, true))) ∧
                conserved Stdout out p ∧ conserved Stderr err p
            | LogEnded s =>
                ∃ e flag, log_lines str_array cfg (processed p) (start_task cfg f) = Ok (e, (s, flag)) ∧
                (flag = true → conserved Stdout out p ∧ conserved Stderr err p ∧ channel p = [] ∧
                               stdout_open p = false ∧ stderr_open p = false)
            | LogPanicked => False
            end;
  inv_report status : reported p = Some status → log_done p = true ∧ exit_status p = Some status;
  inv_closed : ops_closed p = true → is_Some (reported p);
  inv_stdout : (if stdout_open p then stream_ends Stdout (stdout_reads p) else true) = stream_ends Stdout out;
  inv_stderr : (if stderr_open p then stream_ends Stderr (stderr_reads p) else true) = stream_ends Stderr err
}.

Lemma of_stream_app st k l : of_stream st (k ++ l) = of_stream st k ++ of_stream st l.
Proof. apply filter_app. Qed.

Lemma inv_start f out err : Inv f out err (start f out err).
Proof. split; try done. cbn. split; [by eexists|]. done. Qed.

Hypothesis str_array_valid : ∀ text, valid (str_array text) ∧ sendable (str_array text).

Lemma inv_stdout_round f out err p r reads :
  Inv f out err p → stdout_open p = true → stdout_reads p = r :: reads →
  Inv f out err (stdout_round r reads p).
Proof.
  intros [Hlog Hrep Hcl Hso Hse] Hopen Hreads. split;
    cbn [stdout_round stdout_open stdout_reads reported ops_closed stderr_open stderr_reads exit_status].
  - destruct (log_task p) as [s|s|] eqn:E; cbn [stdout_round log_task]; rewrite E.
    + destruct Hlog as (Hl & Ho & He). split; [done|]. unfold conserved, send_line, log_done in *.
      cbn [stdout_round processed channel stdout_open stdout_reads stderr_open stderr_reads] in *.
      rewrite E, Hopen, Hreads in *. unfold send_line, log_done. rewrite E. rewrite !app_assoc, !of_stream_app in *. split.
      * rewrite <- Ho. cbn [stream_lines]. rewrite <- !app_assoc. do 2 f_equal. by destruct (read_finished Stdout r).
      * rewrite <- He. cbn. by rewrite app_nil_r.
    + destruct Hlog as (e & flag & Hl & Hf). exists e, flag. split; [done|]. intros Hflag.
      destruct (Hf Hflag) as (_ & _ & _ & ? & ?). congruence.
    + done.
  - intros status Hst. destruct (Hrep status Hst). unfold log_done in *. done.
  - done.
  - rewrite <- Hso, Hopen, Hreads. cbn. by destruct (read_finished Stdout r).
  - done.
Qed.
Lemma inv_stderr_round f out err p r reads :
  Inv f out err p → stderr_open p = true → stderr_reads p = r :: reads →
  Inv f out err (stderr_round r reads p).
Proof.
  intros [Hlog Hrep Hcl Hso Hse] Hopen Hreads. split;
    cbn [stderr_round stdout_open stdout_reads reported ops_closed stderr_open stderr_reads exit_status].
  - destruct (log_task p) as [s|s|] eqn:E; cbn [stderr_round log_task]; rewrite E.
    + destruct Hlog as (Hl & Ho & He). split; [done|]. unfold conserved, send_line, log_done in *.
      cbn [stderr_round processed channel stdout_open stdout_reads stderr_open stderr_reads] in *.
      rewrite E, Hopen, Hreads in *. unfold send_line, log_done. rewrite E. rewrite !app_assoc, !of_stream_app in *. split.
      * rewrite <- Ho. cbn. by rewrite app_nil_r.
      * rewrite <- He. cbn [stream_lines]. rewrite <- !app_assoc. do 2 f_equal. by destruct (read_finished Stderr r).
    + destruct Hlog as (e & flag & Hl & Hf). exists e, flag. split; [done|]. intros Hflag.
      destruct (Hf Hflag) as (_ & _ & _ & ? & ?). congruence.
    + done.
  - intros status Hst. destruct (Hrep status Hst). unfold log_done in *. done.
  - done.
  - done.
  - rewrite <- Hse, Hopen, Hreads. cbn. by destruct (read_finished Stderr r).
Qed.

Lemma inv_log_round f out err p s env line rest e s' continue :
  Inv f out err p → log_task p = Receiving s → channel p = line :: rest →
  log_line str_array cfg env line s = Ok (e, (s', continue)) →
  Inv f out err (log_round env line rest s' continue p).
Proof.
  intros [Hlog Hrep Hcl Hso Hse] E Hch Hline. rewrite E in Hlog. destruct Hlog as ((e0 & Hl) & Ho & He).
  destruct (log_lines_snoc _ env line _ _ _ _ _ Hl Hline) as [e1 Hl1].
  split; try done.
  - cbn [log_round log_task processed channel]. destruct continue.
    + split; [by exists e1|]. unfold conserved in *.
      cbn [log_round processed channel stdout_open stdout_reads stderr_open stderr_reads].
      rewrite fmap_app, <- app_assoc. cbn. by rewrite <- Hch.
    + exists e1, false. done.
  - intros status Hst. destruct (Hrep status Hst) as [Hd _]. unfold log_done in Hd. by rewrite E in Hd.
Qed.

Lemma inv_step f out err p p' : Inv f out err p → step p p' → Inv f out err p'.
Proof.
  intros HI Hs. destruct Hs as [p r reads Ho Hr _|p r reads Ho Hr _|p s env line rest e s' continue E Hch Hl|
    p s env line rest E Hch Hl|p s E Hch Ho He|p status Hex|p op rest Hex Hops|p status Hex Hd Hn].
  - by apply inv_stdout_round.
  - by apply inv_stderr_round.
  - by eapply inv_log_round.
  - destruct (log_line_total str_array str_array_valid cfg env line s) as [r Hr]. by rewrite Hr in Hl.
  - destruct HI as [Hlog Hrep Hcl Hso Hse]. rewrite E in Hlog. destruct Hlog as ((e0 & Hl) & Hc & Hc').
    split; try done; cbn [end_log log_task processed channel stdout_open stderr_open reported].
    + exists e0, true. split; [done|]. intros _. by split_and!.
    + intros status Hst. destruct (Hrep status Hst) as [Hd _]. unfold log_done in Hd. by rewrite E in Hd.
  - destruct HI as [Hlog Hrep Hcl Hso Hse]. split; try done. cbn [set_exit reported exit_status].
    intros st Hst. destruct (Hrep st Hst). congruence.
  - by destruct HI.
  - destruct HI as [Hlog Hrep Hcl Hso Hse]. split; try done. cbn [report reported exit_status].
    by intros st [= <-].
Qed.

Lemma inv_submit f out err p op taken p' : Inv f out err p → submit op p = Some (taken, p') → Inv f out err p'.
Proof.
  intros HI. unfold submit. destruct (ops_closed p) eqn:E; [by intros [= <- <-]|].
  case_match; [|done]. intros [= <- <-]. destruct HI. by split.
Qed.

Lemma inv_reachable f out err p : rtc sys_step (start f out err) p → Inv f out err p.
Proof.
  intros Hr. remember (start f out err) as p0 eqn:E. assert (Inv f out err p0) as HI by (subst; apply inv_start).
  clear E. induction Hr as [|p0 p1 p2 Hs _ IH]; [done|]. apply IH.
  destruct Hs as [? ? Hs|? ? ? ? Hs]; [by eapply inv_step|by eapply inv_submit].
Qed.

(** ** Theorems *)

(** When the end of a process is reported and no file operation failed, everything it printed
    was processed. *)
Lemma reported_all_processed l q n f out err p status :
  task_config l q n = Ok cfg → (∀ v, max_rotated_files n = Ok (Some v) → (0 ≤ v)%Z) →
  fs_wf f → (∀ k, fs_read (file_name (node_id cfg) (S k)) f = None) →
  Forall (λ x, calm x.1 ∧ ∀ text, entry_of cfg x = Some text → fits cfg text) (processed p) →
  rtc sys_step (start f out err) p → reported p = Some status →
  exit_status p = Some status ∧
  (of_stream Stdout (processed p).*2 = stream_lines Stdout out ∧ stream_ends Stdout out = true) ∧
  (of_stream Stderr (processed p).*2 = stream_lines Stderr err ∧ stream_ends Stderr err = true) ∧
  ∃ s dropped segs, log_task p = LogEnded s ∧
    Kept (max_size cfg) (max_rotated cfg) (omap (entry_of cfg) (processed p)) dropped segs ∧
    (∀ k, fs_read (file_name (node_id cfg) k) (fs s) = concat_strings <$> segs !! k).
Proof.
  intros Hc Hu Hwf Hfresh Hall Hr Hrep. apply inv_reachable in Hr as [Hlog Hinv _ Hso Hse].
  destruct (Hinv status Hrep) as [Hdone Hex]. split; [done|].
  destruct (log_task_files str_array str_array_valid l q n cfg f (processed p))
    as (e & s & dropped & segs & Hrun & Hk & Hread & _); [done..|].
  unfold log_done in Hdone. destruct (log_task p) as [s'|s'|]; [done| |done].
  destruct Hlog as (e' & flag & Hl & Hflag). rewrite Hrun in Hl. injection Hl as <- <- <-.
  destruct (Hflag eq_refl) as (Ho & He & Hch & Hos & Hes). unfold conserved in Ho, He.
  rewrite Hch, Hos, app_nil_r, app_nil_r in Ho. rewrite Hch, Hes, app_nil_r, app_nil_r in He.
  rewrite Hos in Hso. rewrite Hes in Hse. split_and!; try done. by exists s, dropped, segs.
Qed.

(** The number of steps left. *)
Definition count (b : bool) : nat := if b then 1 else 0.
Definition measure (p : Proc) : nat :=
  2 * length (stdout_reads p) + 2 * length (stderr_reads p) + length (channel p) + length (ops p) +
  count (negb (log_done p)) + count (bool_decide (exit_status p = None)) + count (bool_decide (reported p = None)).

Lemma step_measure p p' : step p p' → measure p' < measure p.
Proof.
  intros Hs. destruct Hs as [p r reads Ho Hr Hroom|p r reads Ho Hr Hroom|p s env line rest e s' continue E Hch Hl|
    p s env line rest E Hch Hl|p s E Hch Ho He|p status Hex|p op rest Hex Hops|p status Hex Hd Hn];
    unfold measure; cbn [stdout_round stderr_round log_round end_log set_exit report stdout_reads stderr_reads channel ops log_task
      exit_status reported].
  - rewrite Hr. unfold send_line, log_done. cbn [log_task stdout_round]. destruct (log_task p); cbn;
      rewrite ?length_app; cbn; lia.
  - rewrite Hr. unfold send_line, log_done. cbn [log_task stderr_round]. destruct (log_task p); cbn;
      rewrite ?length_app; cbn; lia.
  - rewrite Hch. unfold log_done. cbn [log_task log_round]. rewrite E. destruct continue; cbn; lia.
  - rewrite Hch. unfold log_done. cbn [log_task]. rewrite E. cbn. lia.
  - unfold log_done. cbn [log_task]. rewrite E. cbn. lia.
  - rewrite Hex. unfold log_done. cbn. lia.
  - rewrite Hops. unfold log_done. cbn. lia.
  - rewrite Hn. unfold log_done. cbn. lia.
Qed.

Lemma nsteps_measure m p p' : nsteps step m p p' → m + measure p' ≤ measure p.
Proof. induction 1 as [|m p p1 p2 Hs _ IH]; [lia|]. apply step_measure in Hs. lia. Qed.

Lemma step_exists f out err p :
  Inv f out err p → stream_ends Stdout out = true → stream_ends Stderr err = true →
  reported p = None → ∃ p', step p p'.
Proof.
  intros HI Hout Herr Hn. destruct HI as [Hlog _ _ Hso Hse].
  destruct (exit_status p) as [status|] eqn:Ex; [|by eexists; apply (step_exit p ExitSuccess)].
  destruct (log_done p) eqn:Hd; [by eexists; eapply step_report|].
  unfold log_done in Hd. destruct (log_task p) as [s| |] eqn:E; [|done..].
  destruct (channel p) as [|line rest] eqn:Hch.
  - assert (has_room p = true) as Hroom by (unfold has_room; rewrite Hch; apply orb_true_r).
    destruct (stdout_open p) eqn:Eo.
    { destruct (stdout_reads p) as [|r reads] eqn:Er; [cbn in Hso; congruence|]. by eexists; eapply step_stdout. }
    destruct (stderr_open p) eqn:Ee.
    { destruct (stderr_reads p) as [|r reads] eqn:Er; [cbn in Hse; congruence|]. by eexists; eapply step_stderr. }
    by eexists; eapply step_log_end.
  - destruct (log_line_total str_array str_array_valid cfg
      (mkLineEnv 0 true true true None all_ok true true) line s) as [[e [s' c]] Hl].
    by eexists; eapply step_log.
Qed.

Lemma inv_rtc f out err p p' : Inv f out err p → rtc step p p' → Inv f out err p'.
Proof. intros HI. induction 1 as [|p p1 p2 Hs _ IH]; [done|]. by eapply IH, inv_step. Qed.

(** C23. The end of a process is always reported.  If both streams of the process reach their end,
    then from every state the tasks can get into, and whatever file operations fail, the tasks
    stop after a bounded number of steps, and they stop only when the exit status is
    reported. *)
Theorem node_end_reported f out err p :
  rtc sys_step (start f out err) p →
  stream_ends Stdout out = true → stream_ends Stderr err = true →
  (∀ m p', nsteps step m p p' → m ≤ measure p) ∧
  (∀ p', rtc step p p' → (∀ p'', ¬ step p' p'') → is_Some (reported p')).
Proof.
  intros Hr Hout Herr. apply inv_reachable in Hr. split.
  - intros m p' Hm%nsteps_measure. lia.
  - intros p' Hp' Hstuck. destruct (reported p') eqn:E; [done|].
    destruct (step_exists f out err p') as [p'' Hs]; [by eapply inv_rtc|done..|]. by destruct (Hstuck p'').
Qed.

(** ** A stream that stays open *)

(** As long as a stream of the process does not end and no file operation fails, the log task
    keeps waiting. *)
Lemma open_stream_receiving l q n f out err p :
  task_config l q n = Ok cfg → (∀ v, max_rotated_files n = Ok (Some v) → (0 ≤ v)%Z) →
  fs_wf f → (∀ k, fs_read (file_name (node_id cfg) (S k)) f = None) →
  Forall (λ x, calm x.1 ∧ ∀ text, entry_of cfg x = Some text → fits cfg text) (processed p) →
  stream_ends Stdout out = false → Inv f out err p → log_done p = false.
Proof.
  intros Hc Hu Hwf Hfresh Hall Hout [Hlog _ _ Hso _]. unfold log_done.
  destruct (log_task_files str_array str_array_valid l q n cfg f (processed p))
    as (e & s & dropped & segs & Hrun & _); [done..|].
  destruct (log_task p) as [s'|s'|]; [done| |done]. destruct Hlog as (e' & flag & Hl & Hflag).
  rewrite Hrun in Hl. injection Hl as _ _ <-. destruct (Hflag eq_refl) as (_ & _ & _ & Hos & _).
  rewrite Hos in Hso. congruence.
Qed.

Lemma processed_grows p p' : sys_step p p' → ∃ l, processed p' = processed p ++ l.
Proof.
  destruct 1 as [p p' Hs|p op taken p' Hs].
  - destruct Hs; cbn; try (exists []; by rewrite app_nil_r). by eexists.
  - unfold submit in Hs. exists []. rewrite app_nil_r. repeat case_match; by simplify_eq.
Qed.

Lemma processed_grows_rtc p p' : rtc sys_step p p' → ∃ l, processed p' = processed p ++ l.
Proof.
  induction 1 as [|p p1 p2 Hs _ [l IH]]; [exists []; by rewrite app_nil_r|].
  apply processed_grows in Hs as [k Hk]. exists (k ++ l). by rewrite IH, Hk, app_assoc.
Qed.

(** A full operation channel of a process that has exited, whose end is not reported. *)
Definition stuck_ops (p : Proc) : Prop :=
  is_Some (exit_status p) ∧ length (ops p) = OP_CHANNEL_CAPACITY ∧ ops_closed p = false ∧ reported p = None.

Lemma stuck_ops_step p p' : sys_step p p' → log_done p = false → stuck_ops p → stuck_ops p'.
Proof.
  intros Hs Hd (Hex & Hlen & Hcl & Hrep). destruct Hs as [p p' Hs|p op taken p' Hs].
  - destruct Hs; try (by split_and!); by destruct Hex; congruence.
  - unfold submit in Hs. rewrite Hcl, Hlen in Hs. done.
Qed.

Lemma stuck_ops_rtc l q n f out err p p' :
  task_config l q n = Ok cfg → (∀ v, max_rotated_files n = Ok (Some v) → (0 ≤ v)%Z) →
  fs_wf f → (∀ k, fs_read (file_name (node_id cfg) (S k)) f = None) →
  stream_ends Stdout out = false → Inv f out err p → stuck_ops p → rtc sys_step p p' →
  Forall (λ x, calm x.1 ∧ ∀ text, entry_of cfg x = Some text → fits cfg text) (processed p') →
  stuck_ops p'.
Proof.
  intros Hc Hu Hwf Hfresh Hout HI Hst Hr. revert HI Hst.
  induction Hr as [|p p1 p2 Hs Hr IH]; intros HI Hst Hall; [done|].
  assert (Inv f out err p1) as HI1.
  { destruct Hs as [? ? Hs|? ? ? ? Hs]; [by eapply inv_step|by eapply inv_submit]. }
  apply IH; [done| |done]. eapply stuck_ops_step; [done| |done].
  eapply open_stream_receiving; [done..| |done|done].
  destruct (processed_grows_rtc p p2) as [k Hk]; [by eapply rtc_l|].
  rewrite Hk in Hall. by apply Forall_app in Hall as [? _].
Qed.

(** A process that exits while another process keeps its stdout open.  Its end is not reported
    (no restart, no result), and the operations submitted to it are not executed.  Once two
    operations are waiting, every further [submit] blocks, and no step of the tasks ever
    changes that. *)
Theorem held_pipe_blocks_submit l q n f out err p p' op :
  task_config l q n = Ok cfg → (∀ v, max_rotated_files n = Ok (Some v) → (0 ≤ v)%Z) →
  fs_wf f → (∀ k, fs_read (file_name (node_id cfg) (S k)) f = None) →
  stream_ends Stdout out = false → rtc sys_step (start f out err) p → stuck_ops p →
  rtc sys_step p p' →
  Forall (λ x, calm x.1 ∧ ∀ text, entry_of cfg x = Some text → fits cfg text) (processed p') →
  reported p' = None ∧ submit op p' = None.
Proof.
  intros Hc Hu Hwf Hfresh Hout Hr Hst Hr' Hall. apply inv_reachable in Hr.
  destruct (stuck_ops_rtc l q n f out err p p') as (_ & Hlen & Hcl & Hrep); [done..|].
  split; [done|]. unfold submit. by rewrite Hcl, Hlen.
Qed.

(** C11. What a process printed and what is kept of it.  When the end of a process is reported and
    no file operation failed, every line of its stdout and of its stderr was processed, each
    stream in its order, both streams were read to their end, and the log files hold the most
    recent entries as described by [Kept]. *)
Theorem node_output_logged l q n f out err p status :
  task_config l q n = Ok cfg → (∀ v, max_rotated_files n = Ok (Some v) → (0 ≤ v)%Z) →
  fs_wf f → (∀ k, fs_read (file_name (node_id cfg) (S k)) f = None) →
  Forall (λ x, calm x.1 ∧ ∀ text, entry_of cfg x = Some text → fits cfg text) (processed p) →
  rtc sys_step (start f out err) p → reported p = Some status →
  exit_status p = Some status ∧
  (of_stream Stdout (processed p).*2 = stream_lines Stdout out ∧ stream_ends Stdout out = true) ∧
  (of_stream Stderr (processed p).*2 = stream_lines Stderr err ∧ stream_ends Stderr err = true) ∧
  ∃ s dropped segs, log_task p = LogEnded s ∧
    Kept (max_size cfg) (max_rotated cfg) (omap (entry_of cfg) (processed p)) dropped segs ∧
    (∀ k, fs_read (file_name (node_id cfg) k) (fs s) = concat_strings <$> segs !! k).
Proof. apply reported_all_processed. Qed.
End process.

(** ** Text *)

Lemma reads_of_lines st output :
  stream_lines st (reads_of output)
  = ((λ line, mkLogLine (truncate_log_line (decode_raw (String.list_byte_of_string line))) st)
       <$> split_inclusive output) ++ [mkLogLine EmptyString st].
Proof.
  unfold reads_of. induction (split_inclusive output) as [|line lines IH]; [done|].
  cbn [fmap list_fmap app stream_lines read_finished]. by rewrite IH.
Qed.

Lemma concat_split_inclusive s : concat_strings (split_inclusive s) = s.
Proof.
  induction s as [|c s IH]; [done|]. cbn [split_inclusive]. case_bool_decide.
  - change (String c (concat_strings (split_inclusive s)) = String c s). by rewrite IH.
  - destruct (split_inclusive s) as [|p ps]; cbn in *; by rewrite <- IH.
Qed.

(** After an error the stdout task goes on: it sends an empty line for every failing read and
    does not end; the stderr task ends after the first. *)
Lemma stdout_error_not_final n :
  length (stream_lines Stdout (replicate n (ReadError []))) = n ∧
  stream_ends Stdout (replicate n (ReadError [])) = false ∧
  length (stream_lines Stderr (replicate (S n) (ReadError []))) = 1.
Proof. split_and!; [|induction n; done|done]. induction n as [|n IH]; cbn; [done|by rewrite IH]. Qed.

(** *** UTF-8 *)

Lemma utf8_induction (P : list Byte.byte → Prop) :
  (∀ s, (∀ t, length t < length s → P t) → P s) → ∀ s, P s.
Proof.
  intros IH s. remember (length s) as n eqn:E. revert s E. induction n as [n IHn] using lt_wf_ind.
  intros s ->. apply IH. intros t Ht. by eapply IHn.
Qed.

(** The ranges of lead bytes exclude each other. *)
Lemma between_spec lo hi b : between lo hi b = true ↔ (lo ≤ byte_val b ≤ hi)%Z.
Proof. unfold between. rewrite andb_true_iff, !Z.leb_le. done. Qed.
Lemma between_false lo hi b : between lo hi b = false ↔ ¬ (lo ≤ byte_val b ≤ hi)%Z.
Proof. rewrite <- between_spec. by destruct (between lo hi b). Qed.

Lemma second_ok_cont b0 b1 : second_ok b0 b1 = true → continuation b1 = true.
Proof.
  unfold second_ok, continuation. repeat case_match; rewrite !between_spec; lia.
Qed.

Lemma second_ok_3 b0 b1 :
  between 0xE0 0xEF b0 = true →
  (if between 0xE0 0xE0 b0 then between 0xA0 0xBF b1
   else if between 0xED 0xED b0 then between 0x80 0x9F b1 else continuation b1) = second_ok b0 b1.
Proof.
  intros H0. unfold second_ok. apply between_spec in H0.
  rewrite (proj2 (between_false 0xF0 0xF0 b0)), (proj2 (between_false 0xF4 0xF4 b0)) by lia. done.
Qed.
Lemma second_ok_4 b0 b1 :
  between 0xF0 0xF4 b0 = true →
  (if between 0xF0 0xF0 b0 then between 0x90 0xBF b1
   else if between 0xF4 0xF4 b0 then between 0x80 0x8F b1 else continuation b1) = second_ok b0 b1.
Proof.
  intros H0. unfold second_ok. apply between_spec in H0.
  rewrite (proj2 (between_false 0xE0 0xE0 b0)), (proj2 (between_false 0xED 0xED b0)) by lia. done.
Qed.

(** The encoding of one character. *)
Definition is_char (c : list Byte.byte) : bool :=
  match c with
  | [b0] => between 0 0x7F b0
  | [b0; b1] => between 0xC2 0xDF b0 && continuation b1
  | [b0; b1; b2] => between 0xE0 0xEF b0 && second_ok b0 b1 && continuation b2
  | [b0; b1; b2; b3] => between 0xF0 0xF4 b0 && second_ok b0 b1 && continuation b2 && continuation b3
  | _ => false
  end.

Ltac out_of_range :=
  repeat match goal with
  | H : between _ _ _ = true |- _ => apply between_spec in H
  | H : between _ _ _ = false |- _ => apply between_false in H
  end; lia.

Lemma is_char_cases c :
  is_char c = true →
  (∃ b0, c = [b0] ∧ between 0 0x7F b0 = true) ∨
  (∃ b0 b1, c = [b0; b1] ∧ between 0xC2 0xDF b0 = true ∧ continuation b1 = true) ∨
  (∃ b0 b1 b2, c = [b0; b1; b2] ∧ between 0xE0 0xEF b0 = true ∧ second_ok b0 b1 = true ∧
     continuation b2 = true) ∨
  (∃ b0 b1 b2 b3, c = [b0; b1; b2; b3] ∧ between 0xF0 0xF4 b0 = true ∧ second_ok b0 b1 = true ∧
     continuation b2 = true ∧ continuation b3 = true).
Proof.
  destruct c as [|b0 [|b1 [|b2 [|b3 [|]]]]]; try done; cbn [is_char]; rewrite ?andb_true_iff.
  - intros H0. left. eauto.
  - intros [H0 H1]. right; left. eauto 6.
  - intros [[H0 H1] H2]. do 2 right; left. eauto 8.
  - intros [[[H0 H1] H2] H3]. do 3 right. eauto 10.
Qed.

Lemma utf8_valid_char c rest : is_char c = true → utf8_valid (c ++ rest) = utf8_valid rest.
Proof.
  intros [(b0 & -> & H0)|[(b0 & b1 & -> & H0 & H1)|[(b0 & b1 & b2 & -> & H0 & H1 & H2)|
    (b0 & b1 & b2 & b3 & -> & H0 & H1 & H2 & H3)]]]%is_char_cases; cbn [app utf8_valid].
  - by rewrite H0.
  - rewrite H0, H1, (proj2 (between_false 0 0x7F b0)) by out_of_range. done.
  - rewrite (second_ok_3 b0 b1 H0), H0, H1, H2, (proj2 (between_false 0 0x7F b0)),
      (proj2 (between_false 0xC2 0xDF b0)) by out_of_range. done.
  - rewrite (second_ok_4 b0 b1 H0), H0, H1, H2, H3, (proj2 (between_false 0 0x7F b0)),
      (proj2 (between_false 0xC2 0xDF b0)), (proj2 (between_false 0xE0 0xEF b0)) by out_of_range. done.
Qed.

Lemma utf8_valid_inv s :
  utf8_valid s = true → s = [] ∨ ∃ c rest, s = c ++ rest ∧ is_char c = true ∧ utf8_valid rest = true.
Proof.
  destruct s as [|b0 s0]; [by left|]. intros Hv. right. cbn [utf8_valid] in Hv.
  destruct (between 0 0x7F b0) eqn:H0; [by exists [b0], s0|].
  destruct s0 as [|b1 s1]; [done|]. destruct (between 0xC2 0xDF b0) eqn:H1.
  { apply andb_true_iff in Hv as [Hc Hv]. exists [b0; b1], s1. cbn [is_char]. by rewrite H1, Hc. }
  destruct s1 as [|b2 s2]; [done|]. destruct (between 0xE0 0xEF b0) eqn:H2.
  { rewrite (second_ok_3 b0 b1 H2) in Hv. apply andb_true_iff in Hv as [[Hs Hc]%andb_true_iff Hv].
    exists [b0; b1; b2], s2. cbn [is_char]. by rewrite H2, Hs, Hc. }
  destruct s2 as [|b3 s3]; [done|]. rewrite !andb_true_iff in Hv. destruct Hv as [[[[H3 Hs] Hc] Hc'] Hv].
  rewrite (second_ok_4 b0 b1 H3) in Hs. exists [b0; b1; b2; b3], s3. cbn [is_char]. by rewrite H3, Hs, Hc, Hc'.
Qed.

Lemma is_char_nonempty c : is_char c = true → 0 < length c ≤ 4.
Proof. destruct c as [|? [|? [|? [|? [|]]]]]; try done; cbn; lia. Qed.

Lemma utf8_valid_app a b : utf8_valid a = true → utf8_valid (a ++ b) = utf8_valid b.
Proof.
  induction a as [a IH] using utf8_induction. intros [->|(c & rest & -> & Hc & Hv)]%utf8_valid_inv; [done|].
  rewrite <- app_assoc, utf8_valid_char by done. apply IH; [|done].
  rewrite length_app. apply is_char_nonempty in Hc. lia.
Qed.

Lemma is_char_continuation c b0 rest b : is_char c = true → c = b0 :: rest → b ∈ rest → continuation b = true.
Proof.
  intros [(x & -> & _)|[(x & y & -> & _ & H1)|[(x & y & z & -> & _ & H1%second_ok_cont & H2)|
    (x & y & z & w & -> & _ & H1%second_ok_cont & H2 & H3)]]]%is_char_cases [= <- <-];
    rewrite ?elem_of_cons, elem_of_nil; naive_solver.
Qed.

(** Cutting valid text in front of a byte that is no continuation byte leaves valid text. *)
Lemma utf8_valid_cut a b :
  utf8_valid (a ++ b) = true → (∀ x, head b = Some x → continuation x = false) → utf8_valid a = true.
Proof.
  intros Hv Hb. remember (a ++ b) as s eqn:E. revert a E. induction s as [s IH] using utf8_induction. intros a E.
  destruct a as [|b0 a]; [done|].
  apply utf8_valid_inv in Hv as Hs. destruct Hs as [->|(c & rest & -> & Hc & Hr)]; [done|].
  pose proof (is_char_nonempty c Hc) as Hn. symmetry in E. apply app_eq_inv in E as [(k & Ha & Hk)|(k & Hck & Hk)].
  - rewrite Ha, utf8_valid_app; cycle 1.
    { rewrite <- (app_nil_r c). by rewrite utf8_valid_char. }
    apply (IH rest); [rewrite length_app; lia|done|done].
  - destruct k as [|x k]; [rewrite app_nil_r in Hck; subst c; by rewrite <- (app_nil_r (b0 :: a)), utf8_valid_char|].
    exfalso. rewrite Hk in Hb. specialize (Hb x eq_refl).
    rewrite (is_char_continuation c b0 (a ++ x :: k) x) in Hb; [done|done|done|set_solver].
Qed.

Lemma replacement_valid s : utf8_valid (REPLACEMENT ++ s) = utf8_valid s.
Proof. by apply utf8_valid_app. Qed.

Lemma lossy_char c rest : is_char c = true → from_utf8_lossy (c ++ rest) = c ++ from_utf8_lossy rest.
Proof.
  intros [(b0 & -> & H0)|[(b0 & b1 & -> & H0 & H1)|[(b0 & b1 & b2 & -> & H0 & H1 & H2)|
    (b0 & b1 & b2 & b3 & -> & H0 & H1 & H2 & H3)]]]%is_char_cases; cbn [app from_utf8_lossy].
  - by rewrite H0.
  - rewrite H0, H1, (proj2 (between_false 0 0x7F b0)) by out_of_range. done.
  - rewrite H0, H1, H2, (proj2 (between_false 0 0x7F b0)), (proj2 (between_false 0xC2 0xDF b0)) by out_of_range. done.
  - rewrite H0, H1, H2, H3, (proj2 (between_false 0 0x7F b0)), (proj2 (between_false 0xC2 0xDF b0)),
      (proj2 (between_false 0xE0 0xEF b0)) by out_of_range. done.
Qed.

Lemma lossy_valid_id s : utf8_valid s = true → from_utf8_lossy s = s.
Proof.
  induction s as [s IH] using utf8_induction. intros [->|(c & rest & -> & Hc & Hv)]%utf8_valid_inv; [done|].
  rewrite lossy_char by done. f_equal. apply IH; [|done].
  rewrite length_app. apply is_char_nonempty in Hc. lia.
Qed.

Lemma lossy_valid s : utf8_valid (from_utf8_lossy s) = true.
Proof.
  induction s as [s IH] using utf8_induction. destruct s as [|b0 s0]; [done|].
  assert (∀ t, length t ≤ length s0 → utf8_valid (REPLACEMENT ++ from_utf8_lossy t) = true) as Hrep.
  { intros t Ht. rewrite replacement_valid. apply IH. cbn. lia. }
  assert (∀ c t, is_char c = true → length t ≤ length s0 → utf8_valid (c ++ from_utf8_lossy t) = true) as Hkeep.
  { intros c t Hc Ht. rewrite utf8_valid_char by done. apply IH. cbn. lia. }
  cbn [from_utf8_lossy].
  destruct (between 0 0x7F b0) eqn:H0; [by apply (Hkeep [b0])|].
  destruct (between 0xC2 0xDF b0) eqn:H1.
  { destruct s0 as [|b1 s1]; [done|]. destruct (continuation b1) eqn:C1; [|by apply Hrep].
    apply (Hkeep [b0; b1]); [cbn [is_char]; by rewrite H1, C1|cbn; lia]. }
  destruct (between 0xE0 0xEF b0) eqn:H2.
  { destruct s0 as [|b1 s1]; [done|]. destruct (second_ok b0 b1) eqn:C1; [|by apply Hrep].
    destruct s1 as [|b2 s2]; [done|]. destruct (continuation b2) eqn:C2; [|apply Hrep; cbn; lia].
    apply (Hkeep [b0; b1; b2]); [cbn [is_char]; by rewrite H2, C1, C2|cbn; lia]. }
  destruct (between 0xF0 0xF4 b0) eqn:H3; [|by apply Hrep].
  destruct s0 as [|b1 s1]; [done|]. destruct (second_ok b0 b1) eqn:C1; [|by apply Hrep].
  destruct s1 as [|b2 s2]; [done|]. destruct (continuation b2) eqn:C2; [|apply Hrep; cbn; lia].
  destruct s2 as [|b3 s3]; [done|]. destruct (continuation b3) eqn:C3; [|apply Hrep; cbn; lia].
  apply (Hkeep [b0; b1; b2; b3]); [cbn [is_char]; by rewrite H3, C1, C2, C3|cbn; lia].
Qed.

(** *** Truncation *)

Abbreviation text_bytes s := (String.list_byte_of_string s).

Lemma text_bytes_append a b : text_bytes (String.append a b) = text_bytes a ++ text_bytes b.
Proof.
  induction a as [|c a IH]; [done|]. rewrite string_append_cons.
  change (byte_of_ascii c :: text_bytes (String.append a b) = byte_of_ascii c :: text_bytes a ++ text_bytes b).
  by rewrite IH.
Qed.

Lemma length_text_bytes s : length (text_bytes s) = String.length s.
Proof.
  induction s as [|c s IH]; [done|].
  change (S (length (text_bytes s)) = S (String.length s)). by rewrite IH.
Qed.

Lemma is_continuation_byte c : is_continuation c = continuation (byte_of_ascii c).
Proof. by destruct c as [[] [] [] [] [] [] [] []]. Qed.

Lemma get_append a b : String.get (String.length a) (String.append a b) = String.get 0 b.
Proof. induction a as [|c a IH]; [by destruct b|]. rewrite string_append_cons. cbn. apply IH. Qed.

(** A prefix up to a character boundary of valid text is valid. *)
Lemma boundary_valid a b :
  utf8_valid (text_bytes (String.append a b)) = true →
  is_char_boundary (String.append a b) (String.length a) = true → utf8_valid (text_bytes a) = true.
Proof.
  intros Hv Hb. rewrite text_bytes_append in Hv. apply (utf8_valid_cut _ _ Hv). intros x Hx.
  destruct b as [|c b]; [done|]. cbn in Hx. injection Hx as <-. rewrite <- is_continuation_byte.
  unfold is_char_boundary in Hb. rewrite get_append, length_append in Hb. cbn [String.get String.length] in Hb.
  destruct a as [|a0 a]; cbn in Hb.
  - (* the text cannot start with a continuation byte *)
    change (utf8_valid (byte_of_ascii c :: text_bytes b) = true) in Hv.
    destruct (is_continuation c) eqn:Ec; [|done]. exfalso. rewrite is_continuation_byte in Ec.
    unfold continuation in Ec. apply between_spec in Ec.
    apply utf8_valid_inv in Hv as [|(k & rest & E & Hk & _)]; [done|].
    apply is_char_cases in Hk as [(y & -> & Hy)|[(y & ? & -> & Hy & _)|[(y & ? & ? & -> & Hy & _)|
      (y & ? & ? & ? & -> & Hy & _)]]]; injection E as <- _; out_of_range.
  - rewrite !bool_decide_eq_false_2 in Hb by lia. by apply negb_true_iff in Hb.
Qed.

(** The text of a log line.  Whatever bytes a process prints, the line sent on is valid UTF-8
    and at most 15 bytes longer than [MAX_LOG_LINE_BYTES]; valid text that is short enough is
    sent unchanged. *)
Theorem log_line_text st r :
  let line := content (read_line st r) in
  utf8_valid (text_bytes line) = true ∧
  (Z.of_nat (String.length line) ≤ MAX_LOG_LINE_BYTES + 15)%Z ∧
  (utf8_valid (read_raw r) = true → (Z.of_nat (length (read_raw r)) ≤ MAX_LOG_LINE_BYTES)%Z →
   line = String.string_of_list_byte (read_raw r)).
Proof.
  cbv zeta. unfold read_line. cbn [content].
  set (text := decode_raw (read_raw r)).
  assert (utf8_valid (text_bytes text) = true) as Hv.
  { unfold text, decode_raw. rewrite String.list_byte_of_string_of_list_byte.
    destruct (utf8_valid (read_raw r)) eqn:E; [done|apply lossy_valid]. }
  unfold truncate_log_line. destruct (Z.ltb_spec MAX_LOG_LINE_BYTES (Z.of_nat (String.length text))) as [Hlong|Hshort].
  - set (k := boundary_below text (Z.to_nat MAX_LOG_LINE_BYTES)).
    destruct (boundary_below_spec text (Z.to_nat MAX_LOG_LINE_BYTES)) as (Hk & Hbound & _). fold k in Hk, Hbound.
    destruct (substring_prefix text k) as (rest & Hsplit & Hlen); [lia|]. split_and!.
    + rewrite text_bytes_append, utf8_valid_app; [done|].
      apply (boundary_valid _ rest); rewrite <- Hsplit; [done|by rewrite Hlen].
    + rewrite length_append, Hlen. change (String.length "... [truncated]") with 15.
      assert (0 ≤ MAX_LOG_LINE_BYTES)%Z by done. lia.
    + intros Hraw Hs. exfalso. unfold text, decode_raw in Hlong. rewrite Hraw in Hlong.
      rewrite <- (length_text_bytes (String.string_of_list_byte _)), String.list_byte_of_string_of_list_byte in Hlong.
      lia.
  - split_and!; [done|lia|]. intros Hraw _. unfold text, decode_raw. by rewrite Hraw.
Qed.

(** ** Witnesses *)

#[local] Existing Instance sample_log_lib.
#[local] Existing Instance sample_arrow.
#[local] Existing Instance sample_laws.

Abbreviation sample_step := (sys_step sample_str_array sample_cfg).
Definition sample_out : list Read := reads_of "one".
Definition sample_err : list Read := [ReadEnd].
Definition sample_start : Proc := start sample_cfg sample_fs sample_out sample_err.

(** A schedule of the tasks: which of them makes the next step. *)
Inductive Turn := TStdout | TStderr | TLog (env : LineEnv) | TLogEnd | TExit (status : NodeExitStatus) | TReport
| TSubmit (op : ProcessOperation).

Definition turn (t : Turn) (p : Proc) : option Proc :=
  match t with
  | TStdout =>
      match stdout_reads p with
      | r :: reads => if stdout_open p && has_room p then Some (stdout_round r reads p) else None
      | [] => None
      end
  | TStderr =>
      match stderr_reads p with
      | r :: reads => if stderr_open p && has_room p then Some (stderr_round r reads p) else None
      | [] => None
      end
  | TLog env =>
      match log_task p, channel p with
      | Receiving s, line :: rest =>
          match log_line sample_str_array sample_cfg env line s with
          | Ok (_, (s', continue)) => Some (log_round env line rest s' continue p)
          | _ => None
          end
      | _, _ => None
      end
  | TLogEnd =>
      match log_task p, channel p, stdout_open p, stderr_open p with
      | Receiving s, [], false, false => Some (end_log s p)
      | _, _, _, _ => None
      end
  | TExit status =>
      match exit_status p with None => Some (set_exit status p) | Some _ => None end
  | TReport =>
      match exit_status p, reported p with
      | Some status, None =>
          if log_done p then Some (report status p) else None
      | _, _ => None
      end
  | TSubmit op => snd <$> submit op p
  end.

Lemma turn_step t p p' : turn t p = Some p' → sample_step p p'.
Proof.
  destruct t as [| |env| |status| |op]; cbn [turn].
  - destruct (stdout_reads p) eqn:E; [done|]. destruct (stdout_open p) eqn:Eo, (has_room p) eqn:Er; try done.
    intros [= <-]. by apply sys_internal, step_stdout.
  - destruct (stderr_reads p) eqn:E; [done|]. destruct (stderr_open p) eqn:Eo, (has_room p) eqn:Er; try done.
    intros [= <-]. by apply sys_internal, step_stderr.
  - destruct (log_task p) eqn:E, (channel p) eqn:Ec; try done.
    destruct (log_line _ _ _ _ _) as [[e [s' c]]| |] eqn:El; try done. intros [= <-].
    apply sys_internal. by eapply step_log.
  - destruct (log_task p) eqn:E, (channel p) eqn:Ec, (stdout_open p) eqn:Eo, (stderr_open p) eqn:Ee; try done.
    intros [= <-]. by apply sys_internal, step_log_end.
  - destruct (exit_status p) eqn:E; [done|]. intros [= <-]. by apply sys_internal, step_exit.
  - destruct (exit_status p) eqn:E, (reported p) eqn:Er; try done. destruct (log_done p) eqn:Ed; [|done].
    intros [= <-]. by apply sys_internal, step_report.
  - intros ([taken q] & Hs & [= <-])%fmap_Some. by eapply sys_submit.
Qed.

Fixpoint turns (l : list Turn) (p : Proc) : option Proc :=
  match l with [] => Some p | t :: l => p ← turn t p; turns l p end.

Lemma turns_steps l p p' : turns l p = Some p' → rtc sample_step p p'.
Proof.
  revert p. induction l as [|t l IH]; intros p; cbn [turns]; [by intros [= <-]|].
  intros (p1 & Ht%turn_step & Hl)%bind_Some. eapply rtc_l; [done|by apply IH].
Qed.

Definition sample_schedule : list Turn :=
  [TStdout; TExit ExitSuccess; TStderr; TLog (sample_env 1); TStdout; TLog (sample_env 2); TLog (sample_env 3);
   TLogEnd; TReport].

Lemma small_entries_calm (l : list (LineEnv * LogLine)) :
  Forall (λ x, write_fault x.1 = None ∧ create_ok x.1 = true ∧ rotate_env x.1 = all_ok) l →
  forallb (λ x, default 0 (String.length <$> entry_of sample_cfg x) <=? 2000) l = true →
  Forall (λ x, calm x.1 ∧ ∀ text, entry_of sample_cfg x = Some text → fits sample_cfg text) l.
Proof.
  intros Hc Hs. rewrite forallb_forall in Hs. rewrite Forall_forall in *. intros x Hx.
  destruct (Hc x Hx) as (? & ? & ?). split; [done|]. intros text E m [= <-].
  specialize (Hs x (proj1 (list_elem_of_In _ _) Hx)). rewrite E in Hs. apply Nat.leb_le in Hs. cbn in Hs. unfold u64_max. lia.
Qed.

Lemma node_output_logged_witness :
  ∃ p, rtc sample_step sample_start p ∧ reported p = Some ExitSuccess ∧
    of_stream Stdout (processed p).*2 = [mkLogLine "one" Stdout; mkLogLine EmptyString Stdout].
Proof.
  destruct (turns sample_schedule sample_start) as [p|] eqn:E; [|by vm_compute in E].
  exists p. assert (rtc sample_step sample_start p) as Hr by by eapply turns_steps.
  assert (processed p = processed (default sample_start (turns sample_schedule sample_start))) as Hp
    by by rewrite E.
  assert (reported p = Some ExitSuccess) as Hrep.
  { transitivity (reported (default sample_start (turns sample_schedule sample_start))); [by rewrite E|].
    vm_compute. reflexivity. }
  split; [exact Hr|]. split; [exact Hrep|].
  destruct (node_output_logged sample_str_array sample_cfg sample_str_array_valid sample_logger false sample_resolved
              sample_fs sample_out sample_err p ExitSuccess) as (_ & [Hout _] & _).
  - by vm_compute.
  - intros v Ev. vm_compute in Ev. by injection Ev as <-.
  - exact sample_fs_wf.
  - exact sample_fresh.
  - rewrite Hp. apply small_entries_calm; [|by vm_compute]. vm_compute. by repeat constructor.
  - exact Hr.
  - exact Hrep.
  - rewrite Hout. by vm_compute.
Defined.

Lemma node_end_reported_witness :
  ∃ p, turns [TStdout; TStderr; TLog (sample_env 1)] sample_start = Some p ∧
    ∀ p', rtc (step sample_str_array sample_cfg) p p' → (∀ p'', ¬ step sample_str_array sample_cfg p' p'') →
      is_Some (reported p').
Proof.
  destruct (turns [TStdout; TStderr; TLog (sample_env 1)] sample_start) as [p|] eqn:E; [|by vm_compute in E].
  exists p. split; [done|].
  apply (node_end_reported sample_str_array sample_cfg sample_str_array_valid sample_fs sample_out sample_err p).
  - by eapply turns_steps.
  - by vm_compute.
  - by vm_compute.
Defined.

(** The process has printed a line and exited, its stdout is still open. *)
Definition held_start : Proc := start sample_cfg sample_fs [ReadBytes [Byte.x61]] sample_err.

Lemma held_pipe_blocks_submit_witness :
  ∃ p p', turns [TStdout; TExit ExitSuccess; TSubmit SoftKill; TSubmit Kill] held_start = Some p ∧
    turns [TLog (sample_env 1)] p = Some p' ∧ reported p' = None ∧ submit Kill p' = None.
Proof.
  set (l := [TStdout; TExit ExitSuccess; TSubmit SoftKill; TSubmit Kill]).
  destruct (turns l held_start) as [p|] eqn:E; [|by vm_compute in E].
  assert (p = default held_start (turns l held_start)) as Hp by by rewrite E.
  destruct (turns [TLog (sample_env 1)] p) as [p'|] eqn:E'; [|by rewrite Hp in E'; vm_compute in E'].
  assert (p' = default p (turns [TLog (sample_env 1)] p)) as Hp' by by rewrite E'.
  exists p, p'. split; [done|]. split; [done|].
  apply (held_pipe_blocks_submit sample_str_array sample_cfg sample_str_array_valid sample_logger false
           sample_resolved sample_fs [ReadBytes [Byte.x61]] sample_err p p' Kill).
  - by vm_compute.
  - intros v Ev. vm_compute in Ev. by injection Ev as <-.
  - exact sample_fs_wf.
  - exact sample_fresh.
  - reflexivity.
  - by eapply turns_steps.
  - rewrite Hp. vm_compute. split_and!; [by eexists|done..].
  - by eapply turns_steps.
  - rewrite Hp', Hp. apply small_entries_calm; [|by vm_compute]. vm_compute. by repeat constructor.
Defined.
