(* ===== verification/LogReader.v ===== *)
(** * Reading logs

    Models [dora logs] of the command line interface ([binaries/cli/src/command/logs.rs], the
    parsing and filtering of [binaries/cli/src/output.rs]) and [libraries/log-utils].

    The files are those of [LogFiles].  What is printed is the list of messages shown; colours
    and layout are left out.  Besides [LogLib], the lower-casing of Unicode text and the
    smallest [DateTime] are parameters. *)

From Stdlib Require Import ZArith Lia Ascii.
From stdpp Require Import base list gmap strings sorting.
From S2P Require Import Prelude Message Recording Stderr Tail Daemon InputMapping.
From S2P Require Import Text Arrow Descriptor Validate LogFiles NodeOutput.
Local Open Scope nat_scope.
Local Open Scope list_scope.

(** ** [slice::sort_by]: a stable sort *)

Section stable_sort.
Context {A : Type} (le : A → A → bool).

(** [x] comes before everything in the list that is not smaller. *)
Fixpoint insert_by (x : A) (l : list A) : list A :=
  match l with
  | [] => [x]
  | y :: l' => if le x y then x :: l else y :: insert_by x l'
  end.
Definition sort_by (l : list A) : list A := foldr insert_by [] l.
End stable_sort.

(** ** Names *)

(** [str::strip_suffix], and the parts around the last occurrence of a character. *)
Definition str_strip_suffix (suffix s : string) : option string :=
  if ends_with s suffix then Some (String.substring 0 (String.length s - String.length suffix) s) else None.
Fixpoint rsplit_once (sep : ascii) (s : string) : option (string * string) :=
  match s with
  | EmptyString => None
  | String c s =>
      match rsplit_once sep s with
      | Some (a, b) => Some (String c a, b)
      | None => if bool_decide (c = sep) then Some (EmptyString, s) else None
      end
  end.

Definition rotation_index (name : string) : Z :=
  default 0%Z
    (rest ← str_strip_prefix "log_" name;
     rest ← str_strip_suffix ".jsonl" rest;
     parts ← rsplit_once "." rest;
     parse_u32 parts.2).

Definition is_log_name (prefix name : string) : bool :=
  starts_with name prefix && (ends_with name ".jsonl" || ends_with name ".txt").

Definition older_first (files : list string) : list string :=
  sort_by (λ a b, (rotation_index b <=? rotation_index a)%Z) files.

(** [entries]: the names [read_dir] yields, in its order. *)
Definition find_log_files (entries : list string) : list string :=
  older_first (filter (λ name, is_log_name "log_" name) entries).
Definition find_node_log_files (entries : list string) (node : NodeId) : res (list string) :=
  match filter (λ name, is_log_name (String.append "log_" node) name) entries with
  | [] => Err "no log file found for node"
  | files => Ok (older_first files)
  end.

Section logs.
Context `{LogLib}.

(** ** Messages (output.rs) *)

Definition level_of_text (s : string) : LogLevelOrStdout :=
  if bool_decide (s = "error") then LLevel LError
  else if bool_decide (s = "warn") then LLevel LWarn
  else if bool_decide (s = "info") then LLevel LInfo
  else if bool_decide (s = "debug") then LLevel LDebug
  else if bool_decide (s = "trace") then LLevel LTrace
  else LStdout.

Definition parse_jsonl_line (line : string) : option LogMessage :=
  match message_from_str line with
  | Some m => Some m
  | None =>
      v ← value_from_str line;
      ts ← json_get "ts" v ≫= json_str;
      timestamp ← parse_from_rfc3339 ts;
      level ← json_get "level" v;
      Some {|
        m_build_id := None;
        m_dataflow_id := None;
        m_node_id := json_get "node" v ≫= json_str;
        m_daemon_id := None;
        m_level := level_of_text (default "stdout" (json_str level));
        m_target := json_get "target" v ≫= json_str;
        m_module_path := None;
        m_file := None;
        m_line := None;
        m_message := default EmptyString (json_get "msg" v ≫= json_str);
        m_timestamp := timestamp;
        m_fields := None
      |}
  end.

Record LogOutputConfig := mkOutputConfig {
  oc_min_level : LogLevelOrStdout;
  oc_node_filters : gmap string LogLevelOrStdout
}.

Definition should_display (config : LogOutputConfig) (level : LogLevelOrStdout) (node : option string) : bool :=
  passes level (default (oc_min_level config) (node ≫= λ n, oc_node_filters config !! n)).

(** Whether [print_log_message] prints a message. *)
Definition shown (config : LogOutputConfig) (m : LogMessage) : bool :=
  should_display config (m_level m) (m_node_id m).

Definition parse_level_str (s : string) : res LogLevelOrStdout :=
  let l := to_lowercase s in
  if bool_decide (l = "error") then Ok (LLevel LError)
  else if bool_decide (l = "warn") then Ok (LLevel LWarn)
  else if bool_decide (l = "info") then Ok (LLevel LInfo)
  else if bool_decide (l = "debug") then Ok (LLevel LDebug)
  else if bool_decide (l = "trace") then Ok (LLevel LTrace)
  else if bool_decide (l = "stdout") then Ok LStdout
  else Err "invalid log level".

Fixpoint parse_filter_pairs (pairs : list string) (map : gmap string LogLevelOrStdout)
    : res (gmap string LogLevelOrStdout) :=
  match pairs with
  | [] => Ok map
  | p :: pairs =>
      let p := trim p in
      if bool_decide (p = EmptyString) then parse_filter_pairs pairs map
      else
        '(node, level) ← res_of_option "invalid filter" (split_once "=" p);
        level ← parse_level_str (trim level);
        parse_filter_pairs pairs (<[trim node := level]> map)
  end.
Definition parse_log_filter (s : string) : res (gmap string LogLevelOrStdout) :=
  parse_filter_pairs (split_on "," s) ∅.

(** ** Filters (logs.rs) *)

Context (to_lower : string → string) (datetime_min : Z).

(** [now - TimeDelta::from_std(d)]: no threshold for durations that do not fit, and a panic
    below the smallest date. *)
Definition threshold (now : Z) (d : option Duration) : res (option Z) :=
  match d with
  | Some d =>
      if (d <=? (2 ^ 63 - 1) * 1000000)%Z then
        if (now - d <? datetime_min)%Z then Panic else Ok (Some (now - d)%Z)
      else Ok None
  | None => Ok None
  end.

Definition in_window (since until : option Z) (m : LogMessage) : bool :=
  negb (match since with Some t => (m_timestamp m <? t)%Z | None => false end) &&
  negb (match until with Some t => (t <? m_timestamp m)%Z | None => false end).

Definition apply_time_filters (messages : list LogMessage) (since until : option Duration) (now : Z)
    : res (list LogMessage) :=
  since ← threshold now since;
  until ← threshold now until;
  Ok (filter (λ m, in_window since until m) messages).

Definition matches_grep (pattern : option string) (m : LogMessage) : bool :=
  match pattern with
  | None => true
  | Some pattern =>
      let pattern := to_lower pattern in
      contains (to_lower (m_message m)) pattern
      || match m_node_id m with Some node => contains (to_lower node) pattern | None => false end
      || match m_target m with Some target => contains (to_lower target) pattern | None => false end
  end.

Definition apply_grep (messages : list LogMessage) (pattern : option string) : list LogMessage :=
  match pattern with
  | None => messages
  | Some _ => filter (λ m, matches_grep pattern m) messages
  end.

Definition apply_tail (messages : list LogMessage) (tail : option nat) : list LogMessage :=
  match tail with Some n => reverse (take n (reverse messages)) | None => messages end.

Record LogsArgs := mkLogsArgs {
  a_node : option NodeId;
  a_all_nodes : bool;
  a_tail : option nat;
  a_since : option Duration;
  a_until : option Duration;
  a_level : LogLevelOrStdout;
  a_log_filter : option string;
  a_grep : option string
}.

Definition build_log_config (args : LogsArgs) : res LogOutputConfig :=
  filters ← (match a_log_filter args with
             | Some filter => parse_log_filter filter
             | None => Ok ∅
             end);
  Ok (mkOutputConfig (a_level args) filters).

(** ** Local files *)

(** [Path::extension] is [jsonl]. *)
Definition is_jsonl (name : string) : bool :=
  bool_decide (snd <$> rsplit_once "." name = Some "jsonl").

(** The messages of a file; an old text file without any is printed as it is (the second
    result). *)
Definition read_log_file (f : Fs) (name : string) : res (list LogMessage * option string) :=
  content ← res_of_option "failed to read" (fs_read name f);
  if utf8_valid (String.list_byte_of_string content) then
    let messages := omap parse_jsonl_line
                      (filter (λ line, trim line ≠ EmptyString) (lines content)) in
    if is_jsonl name then Ok (messages, None)
    else Ok (messages, if decide (messages = []) then Some content else None)
  else Err "failed to read".

Definition sort_by_timestamp (messages : list LogMessage) : list LogMessage :=
  sort_by (λ a b, (m_timestamp a <=? m_timestamp b)%Z) messages.

(** The filters that all commands share. *)
Definition select_messages (args : LogsArgs) (now : Z) (messages : list LogMessage) : res (list LogMessage) :=
  filtered ← apply_time_filters messages (a_since args) (a_until args) now;
  Ok (apply_tail (apply_grep filtered (a_grep args)) (a_tail args)).

Definition chosen_files (args : LogsArgs) (entries : list string) : res (list string) :=
  match a_node args with
  | Some node => if a_all_nodes args then Ok (find_log_files entries) else find_node_log_files entries node
  | None => Ok (find_log_files entries)
  end.

(** [read_local_logs] in the directory of the dataflow. *)
Definition read_local_logs (args : LogsArgs) (now : Z) (entries : list string) (f : Fs) : res (list LogMessage) :=
  config ← build_log_config args;
  files ← chosen_files args entries;
  if decide (files = []) then Err "no log files found"
  else
    contents ← mapM (read_log_file f) files;
    messages ← select_messages args now (sort_by_timestamp (concat contents.*1));
    Ok (filter (λ m, shown config m) messages).

(** ** Following *)

(** One file of a round of [follow_local_logs]: what was appended behind the position. *)
Definition poll_file (f : Fs) (name : string) (pos : nat) : res (list LogMessage * nat) :=
  let content := default EmptyString (fs_read name f) in
  let current_size := String.length content in
  if (current_size <=? pos)%nat then Ok ([], pos)
  else
    let buf := String.substring pos (current_size - pos) content in
    if utf8_valid (String.list_byte_of_string buf)
    then Ok (omap parse_jsonl_line (lines buf), current_size)
    else Err "stream did not contain valid UTF-8".

Fixpoint poll_files (f : Fs) (files : list string) (positions : gmap string nat)
    : res (list LogMessage * gmap string nat) :=
  match files with
  | [] => Ok ([], positions)
  | name :: files =>
      '(new, pos) ← poll_file f name (default 0 (positions !! name));
      '(rest, positions) ← poll_files f files (<[name := pos]> positions);
      Ok (new ++ rest, positions)
  end.

(** A round; the positions are those after the round. *)
Definition poll (args : LogsArgs) (config : LogOutputConfig) (f : Fs) (files : list string)
    (positions : gmap string nat) : res (list LogMessage * gmap string nat) :=
  '(new, positions) ← poll_files f files positions;
  Ok (filter (λ m, shown config m)
        (filter (λ m, matches_grep (a_grep args) m) (sort_by_timestamp new)), positions).

(** ** Logs from the coordinator *)

Definition stream_log (since until : option Z) (args : LogsArgs) (config : LogOutputConfig) (m : LogMessage) : bool :=
  in_window since until m && matches_grep (a_grep args) m && shown config m.

Definition stream_logs_from_coordinator (args : LogsArgs) (config : LogOutputConfig) (now : Z)
    (received : list (option LogMessage)) : res (list LogMessage) :=
  since ← threshold now (a_since args);
  until ← threshold now (a_until args);
  Ok (filter (λ m, stream_log since until args config m) (omap id received)).

(** The number of lines asked for: all of them if they are filtered here. *)
Definition logs_request_tail (args : LogsArgs) : option nat :=
  if bool_decide (is_Some (a_since args)) || bool_decide (is_Some (a_until args)) || bool_decide (is_Some (a_grep args))
  then None else a_tail args.

(** [logs] without [follow]; [read] answers the request. *)
Definition logs (args : LogsArgs) (config : LogOutputConfig) (now : Z)
    (read : option nat → res (list Byte.byte)) : res (list LogMessage) :=
  bytes ← read (logs_request_tail args);
  let content := String.string_of_list_byte (from_utf8_lossy bytes) in
  messages ← select_messages args now (omap parse_jsonl_line (lines content));
  Ok (filter (λ m, shown config m) messages).

(** ** Log utilities *)

Definition MAX_LOG_JSON_BYTES : Z := 64 * 1024.

Definition parse_log (json : string) : res LogMessage :=
  if (MAX_LOG_JSON_BYTES <? Z.of_nat (String.length json))%Z then Err "log JSON exceeds maximum size"
  else res_of_option "failed to parse log JSON" (message_from_str json).

Definition merge_by_timestamp (streams : list (list LogMessage)) : list LogMessage :=
  sort_by_timestamp (concat streams).

Definition filter_by_level (logs : list LogMessage) (min_level : LogLevelOrStdout) : list LogMessage :=
  filter (λ m, passes (m_level m) min_level) logs.
End logs.

(** ** Lemmas on sorting *)

Section sort_lemmas.
Context {A : Type} (le : A → A → bool).
Context (le_total : ∀ x y, le x y = false → le y x = true).
Context (le_trans : ∀ x y z, le x y = true → le y z = true → le x z = true).

Lemma insert_by_Permutation x l : insert_by le x l ≡ₚ x :: l.
Proof.
  induction l as [|y l IH]; cbn; [done|]. destruct (le x y); [done|]. rewrite IH. constructor.
Qed.
Lemma sort_by_Permutation l : sort_by le l ≡ₚ l.
Proof. induction l as [|x l IH]; [done|]. cbn. by rewrite insert_by_Permutation, IH. Qed.

Lemma insert_by_sorted x l :
  StronglySorted (λ a b, le a b = true) l → StronglySorted (λ a b, le a b = true) (insert_by le x l).
Proof.
  induction 1 as [|y l Hs IH Hall]; cbn; [by repeat constructor|]. destruct (le x y) eqn:E.
  - constructor; [by constructor|]. constructor; [done|]. eapply Forall_impl; [done|]. intros z Hz.
    by eapply le_trans.
  - constructor; [done|]. rewrite insert_by_Permutation. constructor; [|done]. by apply le_total.
Qed.
Lemma sort_by_sorted l : StronglySorted (λ a b, le a b = true) (sort_by le l).
Proof. induction l as [|x l IH]; [constructor|]. by apply insert_by_sorted. Qed.

(** Elements none of which is smaller than another keep their order. *)
Lemma sort_by_stable (P : A → Prop) `{∀ x, Decision (P x)} l :
  (∀ x y, P x → P y → le x y = true) → filter P (sort_by le l) = filter P l.
Proof.
  intros HP. induction l as [|x l IH]; [done|]. cbn [sort_by foldr]. fold (sort_by le l).
  assert (∀ k, filter P (insert_by le x k) = filter P (x :: k)) as Hins.
  { induction k as [|y k IHk]; [done|]. cbn [insert_by]. destruct (le x y) eqn:E; [done|].
    rewrite filter_cons, IHk, !filter_cons. destruct (decide (P x)), (decide (P y)); try done.
    by rewrite HP in E. }
  by rewrite Hins, !filter_cons, IH.
Qed.

Lemma sort_by_id l : StronglySorted (λ a b, le a b = true) l → sort_by le l = l.
Proof.
  induction 1 as [|x l Hs IH Hall]; [done|]. cbn. fold (sort_by le l). rewrite IH.
  destruct l as [|y l]; [done|]. apply Forall_cons in Hall as [Hxy _]. cbn. by rewrite Hxy.
Qed.
End sort_lemmas.

(** ** Lemmas on names *)

Lemma rsplit_once_none sep s : no_sep sep s = true → rsplit_once sep s = None.
Proof.
  induction s as [|c s IH]; [done|]. unfold no_sep. intros Hs. apply andb_true_iff in Hs as [Hc Hs].
  cbn [rsplit_once]. rewrite IH by done. apply negb_true_iff in Hc. by rewrite Hc.
Qed.

Lemma rsplit_once_app sep a b :
  no_sep sep b = true → rsplit_once sep (String.append a (String sep b)) = Some (a, b).
Proof.
  intros Hb. induction a as [|c a IH].
  - change (rsplit_once sep (String sep b) = Some (EmptyString, b)). cbn [rsplit_once].
    by rewrite (rsplit_once_none sep b Hb), bool_decide_eq_true_2.
  - rewrite string_append_cons. cbn [rsplit_once]. by rewrite IH.
Qed.

Lemma substring_append_l a b : String.substring 0 (String.length a) (String.append a b) = a.
Proof.
  induction a as [|c a IH]; [by destruct b|]. rewrite string_append_cons. cbn. by rewrite IH.
Qed.
Lemma substring_append_r a b n : String.substring (String.length a) n (String.append a b) = String.substring 0 n b.
Proof. induction a as [|c a IH]; [done|]. rewrite string_append_cons. apply IH. Qed.

Lemma ends_with_append a b : ends_with (String.append a b) b = true.
Proof.
  unfold ends_with. rewrite length_append. apply andb_true_iff. split; [apply Nat.leb_le; lia|].
  apply bool_decide_eq_true. replace (_ - _) with (String.length a) by lia.
  rewrite substring_append_r. by apply substring_all.
Qed.

Lemma strip_suffix_append a b : str_strip_suffix b (String.append a b) = Some a.
Proof.
  unfold str_strip_suffix. rewrite ends_with_append, length_append.
  replace (_ - _) with (String.length a) by lia. by rewrite substring_append_l.
Qed.

Lemma parse_u32_print k : (Z.of_nat k < 2 ^ 32)%Z → parse_u32 (print_u64 (Z.of_nat k)) = Some (Z.of_nat k).
Proof.
  intros Hk. unfold parse_u32. rewrite parse_print_u64 by (unfold u64_max; lia). cbn [mbind option_bind].
  by rewrite (proj2 (Z.leb_le _ _)) by lia.
Qed.

(** The index of the file [k] of a node without dots in its name. *)
Lemma rotation_index_file_name n k :
  no_sep "." n = true → (Z.of_nat k < 2 ^ 32)%Z → rotation_index (file_name n k) = Z.of_nat k.
Proof.
  intros Hn Hk. unfold rotation_index. destruct k as [|k]; cbn [file_name].
  - unfold log_path. rewrite (proj2 (str_strip_prefix_Some "log_" _ (String.append n ".jsonl")) eq_refl).
    cbn [mbind option_bind]. rewrite strip_suffix_append. cbn [mbind option_bind].
    by rewrite rsplit_once_none.
  - rewrite log_path_rotated_dotted. unfold log_path.
    rewrite (proj2 (str_strip_prefix_Some "log_" _ (String.append (dotted n (S k)) ".jsonl")) eq_refl).
    cbn [mbind option_bind]. rewrite strip_suffix_append. cbn [mbind option_bind]. unfold dotted.
    rewrite rsplit_once_app by apply print_u64_no_dot. cbn [mbind option_bind snd].
    by rewrite parse_u32_print.
Qed.

Lemma prefix_append a b : String.prefix a (String.append a b) = true.
Proof. induction a as [|c a IH]; [by destruct b|]. rewrite string_append_cons. cbn. by destruct (ascii_dec c c). Qed.

Lemma is_log_name_file_name n k : is_log_name (String.append "log_" n) (file_name n k) = true.
Proof.
  unfold is_log_name, starts_with. destruct k as [|k]; cbn [file_name];
    [|rewrite log_path_rotated_dotted]; unfold log_path, dotted; rewrite <- ?append_assoc.
  - by rewrite prefix_append, ends_with_append.
  - rewrite !append_assoc, <- (append_assoc "log_" n), prefix_append. rewrite <- !append_assoc.
    by rewrite ends_with_append.
Qed.

(** ** Lemmas on lines *)

Lemma split_inclusive_line t rest :
  no_sep newline t = true →
  split_inclusive (String.append t (String newline rest))
  = String.append t (String newline EmptyString) :: split_inclusive rest.
Proof.
  unfold no_sep. induction t as [|c t IH]; [done|]. rewrite !string_append_cons. cbn [split_inclusive].
  intros Ht. apply andb_true_iff in Ht as [Hc Ht]. apply negb_true_iff in Hc. rewrite Hc, IH; done.
Qed.

Lemma last_char_append t c : last_char (String.append t (String c EmptyString)) = Some c.
Proof.
  induction t as [|d t IH]; [done|]. rewrite string_append_cons. cbn. rewrite IH.
  by destruct t.
Qed.
Lemma drop_last_append t c : drop_last (String.append t (String c EmptyString)) = t.
Proof.
  induction t as [|d t IH]; [done|]. rewrite string_append_cons. cbn [drop_last]. rewrite IH. by destruct t.
Qed.
Lemma last_char_no_sep sep t : no_sep sep t = true → last_char t ≠ Some sep.
Proof.
  unfold no_sep. induction t as [|c t IH]; [done|]. intros Ht. apply andb_true_iff in Ht as [Hc Ht].
  apply negb_true_iff, bool_decide_eq_false in Hc. cbn. destruct t; [congruence|]. by apply IH.
Qed.

(** An entry of a log file: one line of text that is not blank. *)
Record entry_ok (e : string) : Prop := {
  entry_line : e = String.append (chomp e) (String newline EmptyString);
  entry_no_newline : no_sep newline (chomp e) = true;
  entry_not_blank : trim (chomp e) ≠ EmptyString;
  entry_utf8 : utf8_valid (text_bytes e) = true;
  entry_end : ∃ b, last (text_bytes (chomp e)) = Some b ∧ is_ascii_whitespace b = false
}.

Lemma chomp_line t :
  no_sep carriage_return t = true → chomp (String.append t (String newline EmptyString)) = t.
Proof.
  intros Ht. unfold chomp, strip_suffix_char. rewrite last_char_append, bool_decide_eq_true_2 by done.
  rewrite drop_last_append. rewrite bool_decide_eq_false_2 by by apply last_char_no_sep. done.
Qed.

Lemma lines_entries seg : Forall entry_ok seg → lines (concat_strings seg) = chomp <$> seg.
Proof.
  unfold lines. induction 1 as [|e seg [He Hn _ _ _] _ IH]; [done|].
  change (concat_strings (e :: seg)) with (String.append e (concat_strings seg)).
  rewrite He at 1. rewrite append_assoc.
  change (String.append (String newline EmptyString) (concat_strings seg)) with (String newline (concat_strings seg)).
  rewrite split_inclusive_line by done.
  rewrite <- He. cbn [fmap list_fmap]. f_equal. apply IH.
Qed.

Lemma utf8_entries seg : Forall entry_ok seg → utf8_valid (text_bytes (concat_strings seg)) = true.
Proof.
  induction 1 as [|e seg [_ _ _ Hu _] _ IH]; [done|].
  change (concat_strings (e :: seg)) with (String.append e (concat_strings seg)).
  by rewrite text_bytes_append, utf8_valid_app.
Qed.

(** ** What is relied on *)

(** JSON is written on one line, without control characters, and read back; a [LogMessage] is
    read only from an object with a [timestamp]; dates with a four-digit year are read back to
    the millisecond. *)
Class LogLaws `{LogLib} := {
  value_written v : ∃ t, value_to_vec v = Some t ∧ value_from_str t = Some v;
  value_one_line v t : value_to_vec v = Some t → no_sep newline t = true ∧ no_sep carriage_return t = true;
  value_not_blank v t : value_to_vec v = Some t → trim t ≠ EmptyString;
  value_utf8 v t : value_to_vec v = Some t → utf8_valid (text_bytes t) = true;
  value_end v t : value_to_vec v = Some t →
    ∃ b, last (text_bytes t) = Some b ∧ is_ascii_whitespace b = false;
  message_timestamp t m v :
    message_from_str t = Some m → value_from_str t = Some v → is_Some (json_get "timestamp" v);
  rfc3339_read t :
    (0 ≤ t < 253402300800 * 1000000000)%Z →
    parse_from_rfc3339 (to_rfc3339_millis t) = Some (t / 1000000 * 1000000)%Z
}.

Definition four_digit_year (m : LogMessage) : Prop := (0 ≤ m_timestamp m < 253402300800 * 1000000000)%Z.

Section reading.
Context `{LogLaws}.

(** What the log file keeps of a message. *)
Definition stored (cfg : TaskConfig) (m : LogMessage) : LogMessage := {|
  m_build_id := None;
  m_dataflow_id := None;
  m_node_id := Some (node_id cfg);
  m_daemon_id := None;
  m_level := m_level m;
  m_target := m_target m;
  m_module_path := None;
  m_file := None;
  m_line := None;
  m_message := m_message m;
  m_timestamp := m_timestamp m / 1000000 * 1000000;
  m_fields := None
|}.

Lemma level_of_format l : level_of_text (format_log_level l) = l.
Proof. by destruct l as [|[]]. Qed.

Lemma entry_text_ok cfg st m :
  four_digit_year m →
  entry_ok (entry_text cfg st m) ∧ parse_jsonl_line (chomp (entry_text cfg st m)) = Some (stored cfg m).
Proof.
  intros Hy. unfold entry_text. destruct (value_written (log_entry cfg st m)) as (t & Ht & Hread).
  destruct (value_one_line _ _ Ht) as [Hn Hr]. pose proof (value_not_blank _ _ Ht) as Hb.
  pose proof (value_utf8 _ _ Ht) as Hu. rewrite Ht. cbn [default from_option id].
  assert (chomp (String.append t (String newline EmptyString)) = t) as Hc by by apply chomp_line.
  split.
  - split; rewrite ?Hc; try done; [|by eapply value_end]. by rewrite text_bytes_append, utf8_valid_app.
  - rewrite Hc. unfold parse_jsonl_line. destruct (message_from_str t) as [m'|] eqn:Em.
    { destruct (message_timestamp _ _ _ Em Hread) as [v Hv]. by vm_compute in Hv. }
    rewrite Hread. cbn [mbind option_bind].
    change (json_get "ts" (log_entry cfg st m)) with (Some (JString (to_rfc3339_millis (m_timestamp m)))).
    cbn [mbind option_bind json_str]. rewrite rfc3339_read by done. cbn [mbind option_bind].
    change (json_get "level" (log_entry cfg st m)) with (Some (JString (format_log_level (m_level m)))).
    change (json_get "node" (log_entry cfg st m)) with (Some (JString (node_id cfg))).
    change (json_get "msg" (log_entry cfg st m)) with (Some (JString (m_message m))).
    change (json_get "target" (log_entry cfg st m)) with (Some (opt_string (m_target m))).
    cbn [mbind option_bind json_str default from_option id]. rewrite level_of_format.
    unfold stored. by destruct (m_target m).
Qed.

(** The messages of a file of entries. *)
Lemma read_log_file_entries f name seg :
  fs_read name f = Some (concat_strings seg) → Forall entry_ok seg → is_jsonl name = true →
  read_log_file f name = Ok (omap (λ e, parse_jsonl_line (chomp e)) seg, None).
Proof.
  intros Hf Hseg Hj. unfold read_log_file. rewrite Hf. cbn [res_of_option mbind res_bind].
  rewrite utf8_entries, Hj, lines_entries by done. do 2 f_equal.
  rewrite filter_all.
  - clear. induction seg as [|e seg IH]; [done|]. cbn. by rewrite <- IH.
  - apply Forall_fmap. eapply Forall_impl; [done|]. by intros e [_ _ Hb _ _].
Qed.
End reading.

(** ** The order of the files *)

Lemma is_jsonl_file_name n k : is_jsonl (file_name n k) = true.
Proof.
  unfold is_jsonl. apply bool_decide_eq_true.
  assert (∀ a, rsplit_once "." (String.append a ".jsonl") = Some (a, "jsonl")) as Hr
    by (intros a; by apply (rsplit_once_app "." a "jsonl")).
  destruct k as [|k]; cbn [file_name]; [|rewrite log_path_rotated_dotted]; unfold log_path;
    rewrite <- append_assoc, Hr; done.
Qed.

(** Whatever order the directory is listed in, the files of a node are read from the oldest to
    the current one. *)
Lemma older_first_file_names n k names :
  no_sep "." n = true → (Z.of_nat k < 2 ^ 32)%Z → names ≡ₚ file_name n <$> seq 0 k →
  older_first names = reverse (file_name n <$> seq 0 k).
Proof.
  intros Hn Hk Hp. unfold older_first. set (le := λ a b, (rotation_index b <=? rotation_index a)%Z).
  assert (∀ x y, le x y = false → le y x = true) as Htotal.
  { intros x y. unfold le. rewrite Z.leb_gt, Z.leb_le. lia. }
  assert (∀ x y z, le x y = true → le y z = true → le x z = true) as Htrans.
  { intros x y z. unfold le. rewrite !Z.leb_le. lia. }
  assert (∀ x, x ∈ sort_by le names → x = file_name n (Z.to_nat (rotation_index x))) as Hidx.
  { intros x Hx. rewrite sort_by_Permutation, Hp in Hx. apply list_elem_of_fmap in Hx as (i & -> & Hi%elem_of_seq).
    rewrite rotation_index_file_name by (done || lia). by rewrite Nat2Z.id. }
  assert (∀ l, Forall (λ i, i < k) l → rotation_index <$> (file_name n <$> l) = Z.of_nat <$> l) as Hri.
  { induction 1 as [|i l Hi _ IH]; [done|].
    rewrite !fmap_cons, rotation_index_file_name by (done || lia). by f_equal. }
  assert (rotation_index <$> sort_by le names = Z.of_nat <$> reverse (seq 0 k)) as Hsorted.
  { assert (AntiSymm eq Z.ge) by (intros ????; lia). apply (StronglySorted_unique Z.ge).
    - eapply StronglySorted_fmap; [|by apply sort_by_sorted]. intros x y. unfold le. rewrite Z.leb_le. lia.
    - apply (StronglySorted_fmap Z.of_nat (λ a b, a ≥ b)); [lia|]. clear.
      induction k as [|k IH]; [constructor|]. rewrite seq_S, reverse_snoc. constructor; [done|].
      apply Forall_forall. intros i Hi%elem_of_reverse%elem_of_seq. lia.
    - rewrite sort_by_Permutation, Hp, reverse_Permutation, Hri; [done|].
      apply Forall_forall. intros i Hi%elem_of_seq. lia. }
  rewrite <- fmap_reverse. transitivity (file_name n <$> (Z.to_nat <$> (rotation_index <$> sort_by le names))).
  - rewrite <- !list_fmap_compose. rewrite <- (list_fmap_id (sort_by le names)) at 1.
    apply list_fmap_ext. intros i x Hx%list_elem_of_lookup_2. by apply Hidx.
  - rewrite Hsorted. f_equal. clear. induction (reverse (seq 0 k)) as [|i l IH]; [done|].
    rewrite !fmap_cons, IH. by rewrite Nat2Z.id.
Qed.

(** ** What the options ask for *)

(** [l'] are the elements of [l] with the property, all of them and in their order. *)
Inductive selects {A} (P : A → Prop) : list A → list A → Prop :=
  | selects_nil : selects P [] []
  | selects_keep x l l' : P x → selects P l l' → selects P (x :: l) (x :: l')
  | selects_skip x l l' : ¬ P x → selects P l l' → selects P (x :: l) l'.

Lemma selects_filter {A} (P : A → Prop) (b : A → bool) l :
  (∀ x, b x = true ↔ P x) → selects P l (filter (λ x, b x) l).
Proof.
  intros Hb. induction l as [|x l IH]; [constructor|]. rewrite filter_cons. case_decide as Hx.
  - constructor; [|done]. by apply Hb, Is_true_true.
  - constructor; [|done]. by rewrite <- Hb, <- Is_true_true.
Qed.

Lemma selects_and {A} (P Q : A → Prop) l l1 l2 :
  selects P l l1 → selects Q l1 l2 → selects (λ x, P x ∧ Q x) l l2.
Proof.
  intros HP. revert l2. induction HP as [|x l l1 Hx _ IH|x l l1 Hx _ IH]; intros l2 HQ.
  - inversion HQ. constructor.
  - inversion HQ; subst; constructor; naive_solver.
  - constructor; [naive_solver|by apply IH].
Qed.

Lemma selects_iff {A} (P Q : A → Prop) l l' : (∀ x, P x ↔ Q x) → selects Q l l' → selects P l l'.
Proof. intros HPQ. induction 1; constructor; naive_solver. Qed.

Lemma StronglySorted_mono {A} (R S : A → A → Prop) l : (∀ x y, R x y → S x y) → StronglySorted R l → StronglySorted S l.
Proof. intros HRS. induction 1; constructor; [done|]. eapply Forall_impl; [done|]. auto. Qed.

Section asked.
Context `{LogLib} (to_lower : string → string) (datetime_min : Z).

(** A duration that a [TimeDelta] can hold; a longer one sets no bound. *)
Definition counted (d : Duration) : Prop := (d ≤ (2 ^ 63 - 1) * 1000000)%Z.

(** The message is not older than [--since] and not newer than [--until], and the text of
    [--grep] is in its message, its node or its target, in any case. *)
Definition asked_for (args : LogsArgs) (now : Z) (m : LogMessage) : Prop :=
  (∀ d, a_since args = Some d → counted d → now - d ≤ m_timestamp m)%Z ∧
  (∀ d, a_until args = Some d → counted d → m_timestamp m ≤ now - d)%Z ∧
  (∀ p, a_grep args = Some p → ∃ text, text ∈ m_message m :: option_list (m_node_id m) ++ option_list (m_target m) ∧
     contains (to_lower text) (to_lower p) = true).

(** The level asked for: that of [--log-filter] for the node, or else that of [--level]. *)
Definition level_asked (config : LogOutputConfig) (m : LogMessage) : Prop :=
  passes (m_level m) (default (oc_min_level config) (m_node_id m ≫= λ n, oc_node_filters config !! n)) = true.

(** What a command shows of messages in the order of time: of those asked for the last ones of
    [--tail], and of these the ones with the level asked for. *)
Definition shown_of (args : LogsArgs) (now : Z) (messages result : list LogMessage) : Prop :=
  ∃ config matching before last,
    build_log_config args = Ok config ∧
    selects (asked_for args now) messages matching ∧ matching = before ++ last ∧
    (a_tail args = None → before = []) ∧ (∀ n, a_tail args = Some n → length last = n `min` length matching) ∧
    selects (level_asked config) last result.

Lemma in_window_asked since until m :
  in_window since until m = true ↔
  (∀ t, since = Some t → t ≤ m_timestamp m)%Z ∧ (∀ t, until = Some t → m_timestamp m ≤ t)%Z.
Proof.
  unfold in_window. rewrite andb_true_iff, !negb_true_iff.
  destruct since as [a|], until as [b|]; rewrite ?Z.ltb_ge; naive_solver.
Qed.

Lemma threshold_Ok now d t :
  threshold datetime_min now d = Ok t → ∀ x, t = Some x ↔ ∃ d', d = Some d' ∧ counted d' ∧ x = (now - d')%Z.
Proof.
  unfold threshold, counted. destruct d as [d|]; [|intros [= <-]; naive_solver].
  destruct (Z.leb_spec d ((2 ^ 63 - 1) * 1000000)); [destruct (_ <? _)%Z; [done|]|]; intros [= <-] x.
  - split; [intros [= <-]; by exists d|]. by intros (? & [= <-] & _ & ->).
  - split; [done|]. intros (? & [= <-] & ? & _). lia.
Qed.

Lemma matches_grep_asked p m :
  matches_grep to_lower p m = true ↔
  ∀ q, p = Some q → ∃ text, text ∈ m_message m :: option_list (m_node_id m) ++ option_list (m_target m) ∧
    contains (to_lower text) (to_lower q) = true.
Proof.
  destruct p as [p|]; [|by split]. cbn [matches_grep]. rewrite !orb_true_iff.
  destruct (m_node_id m) as [node|], (m_target m) as [target|]; cbn [option_list app]; split.
  all: try (intros Hor q [= <-]; set_solver).
  all: intros Hq; destruct (Hq p eq_refl) as (text & Hin & Hc); set_solver.
Qed.

Lemma apply_tail_spec messages t :
  ∃ before, messages = before ++ apply_tail messages t ∧ (t = None → before = []) ∧
    ∀ n, t = Some n → length (apply_tail messages t) = n `min` length messages.
Proof.
  destruct t as [n|]; cbn; [|by exists []]. exists (reverse (drop n (reverse messages))). split_and!; [|done|].
  - rewrite <- reverse_app, take_drop. by rewrite reverse_involutive.
  - intros ? [= <-]. by rewrite length_reverse, length_take, length_reverse.
Qed.

Lemma sort_by_timestamp_sorted l : StronglySorted (λ a b, m_timestamp a ≤ m_timestamp b)%Z (sort_by_timestamp l).
Proof.
  eapply StronglySorted_mono; [|apply sort_by_sorted].
  - intros x y. by rewrite Z.leb_le.
  - intros x y. rewrite Z.leb_gt, Z.leb_le. lia.
  - intros x y z. rewrite !Z.leb_le. lia.
Qed.
Lemma sort_by_timestamp_stable l t :
  filter (λ m, m_timestamp m = t) (sort_by_timestamp l) = filter (λ m, m_timestamp m = t) l.
Proof. apply sort_by_stable. intros x y -> Hy. apply Z.leb_le. lia. Qed.

Lemma build_log_config_no_panic args : build_log_config args ≠ Panic.
Proof.
  assert (∀ pairs m, parse_filter_pairs pairs m ≠ Panic) as Hp.
  { induction pairs as [|p pairs IH]; intros m; [done|]. cbn [parse_filter_pairs]. case_bool_decide; [done|].
    destruct (split_once _ _) as [[node level]|]; cbn; [|done]. unfold parse_level_str.
    repeat case_bool_decide; done || apply IH. }
  unfold build_log_config. destruct (a_log_filter args) as [x|]; [|done].
  specialize (Hp (split_on "," x) ∅). unfold parse_log_filter. by destruct (parse_filter_pairs _ _).
Qed.

(** The selection of the code is what the options ask for; it fails only when a bound is before
    the smallest date. *)
Lemma select_messages_shown args now config messages :
  build_log_config args = Ok config →
  match (messages ← select_messages to_lower datetime_min args now messages;
         Ok (filter (λ m, shown config m) messages)) with
  | Ok result => shown_of args now messages result
  | Err _ => False
  | Panic => ∃ d, (a_since args = Some d ∨ a_until args = Some d) ∧ (now - d < datetime_min)%Z
  end.
Proof.
  intros Hconfig. unfold select_messages, apply_time_filters.
  assert (∀ d, match threshold datetime_min now d with Ok _ => True | Err _ => False
               | Panic => ∃ x, d = Some x ∧ (now - x < datetime_min)%Z end) as Hth.
  { intros [d|]; cbn; [|done]. destruct (_ <=? _)%Z; [|done]. destruct (Z.ltb_spec (now - d) datetime_min); eauto. }
  pose proof (Hth (a_since args)) as Hs. pose proof (Hth (a_until args)) as Hu. clear Hth.
  destruct (threshold _ _ (a_since args)) as [since| |] eqn:Es; [|done|cbn; naive_solver].
  destruct (threshold _ _ (a_until args)) as [until| |] eqn:Eu; [|done|cbn; naive_solver]. cbn.
  set (matching := apply_grep _ _ _).
  assert (selects (asked_for args now) messages matching) as Hm.
  { pose proof (threshold_Ok _ _ _ Es) as Ts. pose proof (threshold_Ok _ _ _ Eu) as Tu.
    assert (matching = filter (λ m, matches_grep to_lower (a_grep args) m) (filter (λ m, in_window since until m) messages))
      as ->.
    { unfold matching, apply_grep. destruct (a_grep args); [done|]. symmetry. apply filter_all. by apply Forall_true. }
    assert (∀ m, asked_for args now m ↔
      ((∀ t, since = Some t → t ≤ m_timestamp m)%Z ∧ (∀ t, until = Some t → m_timestamp m ≤ t)%Z) ∧
      matches_grep to_lower (a_grep args) m = true) as Hiff.
    { intros m. rewrite matches_grep_asked. unfold asked_for. split.
      - intros (H1 & H2 & H3). split_and!; [intros t (d & ? & ? & ->)%Ts|intros t (d & ? & ? & ->)%Tu|]; auto.
      - intros ((H1 & H2) & H3). split_and!; [intros d ??; apply H1, Ts; eauto|intros d ??; apply H2, Tu; eauto|done]. }
    eapply selects_iff; [exact Hiff|]. eapply selects_and; apply selects_filter; [|done].
    intros m. apply in_window_asked. }
  destruct (apply_tail_spec matching (a_tail args)) as (before & Hsplit & Hnone & Hsome).
  exists config, matching, before, (apply_tail matching (a_tail args)). split_and!; try done.
  by apply selects_filter.
Qed.
End asked.

(** ** Theorems *)

Section theorems.
Context `{LogLaws} {T : Type} `{ArrowLib T, !ArrowLaws}.
Context (str_array : string → ArrayData T).
Hypothesis str_array_valid : ∀ text, valid (str_array text) ∧ sendable (str_array text).
Context (to_lower : string → string) (datetime_min : Z).

(** The messages of the lines received, without those [min_log_level] drops. *)
Definition messages_of (cfg : TaskConfig) (received : list (LineEnv * LogLine)) : list LogMessage :=
  omap (λ x, kept_message cfg x.1 x.2) received.

(** Reading the texts of the entries gives the messages back. *)
Lemma parse_entries cfg received :
  Forall four_digit_year (messages_of cfg received) →
  Forall entry_ok (omap (entry_of cfg) received) ∧
  Forall2 (λ e m, parse_jsonl_line (chomp e) = Some (stored cfg m))
    (omap (entry_of cfg) received) (messages_of cfg received).
Proof.
  unfold messages_of. induction received as [|[env line] received IH]; [done|]. cbn.
  change (entry_of cfg (env, line)) with (entry_text cfg (stream line) <$> kept_message cfg env line).
  destruct (kept_message cfg env line) as [m|]; cbn; [|exact IH]. intros [Hm Hrest]%Forall_cons.
  destruct (entry_text_ok cfg (stream line) m Hm) as [Hok Hp]. destruct (IH Hrest) as [??].
  split; by constructor.
Qed.

Lemma omap_Forall2 {A B C} (f : A → option C) (g : B → C) l k :
  Forall2 (λ a b, f a = Some (g b)) l k → omap f l = g <$> k.
Proof. induction 1 as [|a b l k Hab _ IH]; [done|]. cbn. by rewrite Hab, <- IH. Qed.

Lemma omap_app' {A B} (f : A → option B) l k : omap f (l ++ k) = omap f l ++ omap f k.
Proof. induction l as [|x l IH]; [done|]. cbn. by destruct (f x); rewrite IH. Qed.

(** Reading the files of a node from the oldest one. *)
Lemma read_files f n segs :
  Forall (Forall entry_ok) segs →
  (∀ k, fs_read (file_name n k) f = concat_strings <$> segs !! k) →
  ∃ contents, mapM (read_log_file f) (reverse (file_name n <$> seq 0 (length segs))) = Ok contents ∧
    concat contents.*1 = omap (λ e, parse_jsonl_line (chomp e)) (concat (reverse segs)).
Proof.
  intros Hok Hread.
  assert (∀ m, m ≤ length segs → ∃ contents,
    mapM (read_log_file f) (reverse (file_name n <$> seq 0 m)) = Ok contents ∧
    concat contents.*1 = omap (λ e, parse_jsonl_line (chomp e)) (concat (reverse (take m segs)))) as Hm.
  { induction m as [|m IH]; intros Hlen; [by exists []|]. destruct IH as (contents & Hc & Hmsgs); [lia|].
    destruct (segs !! m) as [seg|] eqn:E; [|apply lookup_ge_None_1 in E; lia].
    rewrite seq_S, fmap_app. cbn [fmap list_fmap Nat.add]. rewrite reverse_snoc. cbn [mapM].
    rewrite (read_log_file_entries f _ seg); [| |by eapply Forall_lookup_1|apply is_jsonl_file_name].
    2: { by rewrite Hread, E. }
    cbn [mbind res_bind]. setoid_rewrite Hc. cbn [mbind res_bind]. eexists. split; [done|].
    rewrite (take_S_r _ _ _ E), reverse_snoc. cbn [fmap list_fmap concat fst]. rewrite omap_app'. by rewrite <- Hmsgs. }
  destruct (Hm (length segs)) as (contents & Hc & Hmsgs); [done|]. exists contents. split; [done|].
  by rewrite firstn_all in Hmsgs.
Qed.

Lemma fs_read_exists p f : fs_wf f → is_Some (dir f !! p) ↔ is_Some (fs_read p f).
Proof.
  intros Hwf. unfold fs_read. split.
  - intros [i Hi]. rewrite Hi. cbn. by apply (wf_data f Hwf p i Hi).
  - intros [c Hc]. destruct (dir f !! p); [by eexists|by cbn in Hc].
Qed.

(** The directory is listed completely, in some order. *)
Definition listing_of (f : Fs) (entries : list string) : Prop :=
  NoDup entries ∧ ∀ p, p ∈ entries ↔ is_Some (dir f !! p).

(** No file of another node starts with the name of this one. *)
Definition prefix_free (n : NodeId) (f : Fs) : Prop :=
  ∀ p, is_Some (dir f !! p) → is_log_name (String.append "log_" n) p = true → ∃ k, p = file_name n k.

Lemma prefix_free_kept n f f' (segs : list (list string)) :
  fs_wf f' → same_others n f f' → (∀ k, fs_read (file_name n k) f' = concat_strings <$> segs !! k) →
  prefix_free n f → prefix_free n f'.
Proof.
  intros Hwf Hother Hread Hfree p Hp Hl.
  destruct (decide (p ∈ file_name n <$> seq 0 (length segs))) as [(k & -> & _)%list_elem_of_fmap|Hno]; [by exists k|].
  apply Hfree; [|done]. destruct (Hother p) as [<- _]; [|done]. intros k ->. apply Hno, list_elem_of_fmap.
  exists k. split; [done|]. apply elem_of_seq. rewrite fs_read_exists, Hread in Hp by done.
  apply fmap_is_Some, lookup_lt_is_Some in Hp. lia.
Qed.

Lemma segs_ok (segs : list (list string)) : Forall entry_ok (concat (reverse segs)) → Forall (Forall entry_ok) segs.
Proof.
  intros Hok. apply Forall_forall. intros seg Hseg. apply Forall_forall. intros x Hx.
  eapply Forall_forall; [exact Hok|].
  apply list_elem_of_In, in_concat. exists seg. split; apply list_elem_of_In; [by apply elem_of_reverse|done].
Qed.

Lemma node_files f n (segs : list (list string)) entries :
  fs_wf f → prefix_free n f → listing_of f entries → no_sep "." n = true →
  (Z.of_nat (length segs) < 2 ^ 32)%Z → segs ≠ [] →
  (∀ k, fs_read (file_name n k) f = concat_strings <$> segs !! k) →
  find_node_log_files entries n = Ok (reverse (file_name n <$> seq 0 (length segs))).
Proof.
  intros Hwf Hfree [Hnd Hin] Hn Hlen Hne Hread. unfold find_node_log_files.
  assert (filter (λ name, is_log_name (String.append "log_" n) name) entries ≡ₚ file_name n <$> seq 0 (length segs))
    as Hp.
  { apply NoDup_Permutation.
    - by apply NoDup_filter.
    - apply NoDup_fmap_2; [intros i j; apply file_name_inj|apply NoDup_seq].
    - intros p. rewrite list_elem_of_filter, Hin, list_elem_of_fmap. split.
      + intros [Hl Hd]. apply Is_true_true in Hl. destruct (Hfree p Hd Hl) as [k ->]. exists k. split; [done|].
        apply elem_of_seq. rewrite fs_read_exists, Hread in Hd by done. apply fmap_is_Some, lookup_lt_is_Some in Hd. lia.
      + intros (k & -> & Hk%elem_of_seq). split; [apply Is_true_true, is_log_name_file_name|].
        apply fs_read_exists; [done|]. rewrite Hread. apply fmap_is_Some, lookup_lt_is_Some. lia. }
  pose proof (older_first_file_names n _ _ Hn Hlen Hp) as Hold.
  destruct (filter _ entries) as [|p l] eqn:E; [|by rewrite Hold].
  apply Permutation_nil_l in Hp. by destruct segs.
Qed.

(** C22. From a printed line to [dora logs --local <node>].  For a node whose name has no dot and
    is not the beginning of another node's name, started once in a directory without old files of
    it, with no failing file operation and dates before the year 10000.  The command reads the
    messages of the node that are still in its files: the most recent ones, and all of them unless
    all [1 + max_rotated_files] files are in use.  They are put in the order of time, those of the
    same time in the order they were printed, and the command shows exactly those that its options
    ask for ([shown_of]).  It fails only on a [--log-filter] that cannot be read, and panics only
    on a bound before the smallest date.  The order of the directory does not matter. *)
Theorem local_logs_complete l q n cfg f received entries args now :
  task_config l q n = Ok cfg → (∀ v, max_rotated_files n = Ok (Some v) → (0 ≤ v)%Z) →
  fs_wf f → (∀ k, fs_read (file_name (node_id cfg) (S k)) f = None) →
  Forall (λ x, calm x.1 ∧ ∀ text, entry_of cfg x = Some text → fits cfg text) received →
  Forall four_digit_year (messages_of cfg received) →
  no_sep "." (node_id cfg) = true → prefix_free (node_id cfg) f →
  a_node args = Some (node_id cfg) → a_all_nodes args = false →
  ∃ e s k, log_lines str_array cfg received (start_task cfg f) = Ok (e, (s, true)) ∧
    (k ≠ 0 → ∀ i, i ≤ max_rotated cfg → is_Some (fs_read (file_name (node_id cfg) i) (fs s))) ∧
    (listing_of (fs s) entries →
     match read_local_logs to_lower datetime_min args now entries (fs s) with
     | Ok result =>
         ∃ sorted, sorted ≡ₚ (stored cfg <$> drop k (messages_of cfg received)) ∧
           StronglySorted (λ a b, m_timestamp a ≤ m_timestamp b)%Z sorted ∧
           (∀ t, filter (λ m, m_timestamp m = t) sorted =
                 filter (λ m, m_timestamp m = t) (stored cfg <$> drop k (messages_of cfg received))) ∧
           shown_of to_lower args now sorted result
     | Err _ => ∀ config, build_log_config args ≠ Ok config
     | Panic => ∃ d, (a_since args = Some d ∨ a_until args = Some d) ∧ (now - d < datetime_min)%Z
     end).
Proof.
  intros Hc Hu Hwf Hfresh Hall Hyears Hdot Hfree Hnode Hone.
  destruct (task_config_max_rotated l q n cfg Hc Hu) as [Hmax Hmax'].
  destruct (log_task_files str_array str_array_valid l q n cfg f received)
    as (e & s & dropped & segs & Hrun & Hk & Hread & Hother); [done..|].
  exists e, s, (length dropped). split; [done|].
  destruct (start_owns cfg f Hwf) as [Hown _].
  destruct (log_lines_owns str_array cfg received _ _ _ _ Hmax Hown Hrun) as [[Hwf' _] _].
  destruct Hk as [Hentries Hcount Hdrop _ _ _]. split.
  { intros Hne i Hi. rewrite Hread. apply fmap_is_Some, lookup_lt_is_Some. rewrite Hdrop; [lia|].
    by destruct dropped. }
  destruct (parse_entries cfg received Hyears) as [Hok Hparse]. intros Hlist.
  unfold read_local_logs. destruct (build_log_config args) as [config| |] eqn:Econfig;
    [|done|by apply build_log_config_no_panic in Econfig]. cbn [mbind res_bind].
  unfold chosen_files. rewrite Hnode, Hone.
  assert (prefix_free (node_id cfg) (fs s)) as Hfree' by by eapply prefix_free_kept.
  rewrite (node_files (fs s) (node_id cfg) segs entries); [|done|done|done|done|lia|by intros ->; cbn in Hcount; lia|done].
  cbn [mbind res_bind].
  assert (reverse (file_name (node_id cfg) <$> seq 0 (length segs)) ≠ []) as Hne.
  { intros E%(f_equal length). rewrite length_reverse, length_fmap, length_seq in E. cbn in E. lia. }
  rewrite decide_False by done.
  rewrite Hentries in Hok, Hparse. apply Forall_app in Hok as [_ Hok].
  destruct (read_files (fs s) (node_id cfg) segs) as (contents & -> & Hmsgs); [by apply segs_ok|done|].
  cbn [mbind res_bind]. rewrite Hmsgs.
  apply Forall2_app_inv_l in Hparse as (m1 & m2 & Hm1 & Hm2 & Hm).
  rewrite Hm, (omap_Forall2 _ (stored cfg) _ m2 Hm2), (Forall2_length _ _ _ Hm1), drop_app_length.
  pose proof (select_messages_shown to_lower datetime_min args now config
    (sort_by_timestamp (stored cfg <$> m2)) Econfig) as Hsel.
  destruct (_ ≫= _) as [result| |]; [|done..]. exists (sort_by_timestamp (stored cfg <$> m2)).
  split_and!; [apply sort_by_Permutation|apply sort_by_timestamp_sorted|apply sort_by_timestamp_stable|done].
Qed.
End theorems.

(** ** Fetching only the end of a file *)

Lemma no_newline_bytes t : no_sep newline t = true → newlines (text_bytes t) = 0.
Proof.
  unfold no_sep. induction t as [|c t IH]; [done|]. intros Ht. apply andb_true_iff in Ht as [Hc Ht].
  change (text_bytes (String c t)) with (byte_of_ascii c :: text_bytes t). rewrite newlines_cons, (IH Ht).
  rewrite bool_decide_eq_false_2; [done|]. intros E. apply negb_true_iff, bool_decide_eq_false in Hc. apply Hc.
  rewrite <- (ascii_of_byte_of_ascii c), E. done.
Qed.

Lemma entry_bytes e : entry_ok e → text_bytes e = text_bytes (chomp e) ++ [newline_byte].
Proof. intros He. rewrite (entry_line e He) at 1. by rewrite text_bytes_append. Qed.

Lemma concat_bytes_cons e es : text_bytes (concat_strings (e :: es)) = text_bytes e ++ text_bytes (concat_strings es).
Proof. apply text_bytes_append. Qed.

Lemma newlines_entries es : Forall entry_ok es → newlines (text_bytes (concat_strings es)) = length es.
Proof.
  induction 1 as [|e es He _ IH]; [done|].
  rewrite concat_bytes_cons, newlines_app, IH, (entry_bytes e He), newlines_app, no_newline_bytes by apply He.
  by vm_compute.
Qed.

(** A split of a file of entries behind a newline is a split of the entries. *)
Lemma split_entries es p q :
  Forall entry_ok es → text_bytes (concat_strings es) = p ++ q → (p = [] ∨ last p = Some newline_byte) →
  ∃ es1 es2, es = es1 ++ es2 ∧ p = text_bytes (concat_strings es1) ∧ q = text_bytes (concat_strings es2).
Proof.
  intros Hes. revert p. induction Hes as [|e es He Hes IH]; intros p Heq Hp.
  { symmetry in Heq. apply app_nil in Heq as [-> ->]. by exists [], []. }
  destruct Hp as [->|Hp]; [by exists [], (e :: es)|].
  rewrite concat_bytes_cons in Heq. apply app_eq_inv in Heq as [(k & Hk & Hq)|(k & Hpk & Hrest)].
  - (* the first entry is longer than p *)
    destruct k as [|b k]; [|exfalso].
    + rewrite app_nil_r in Hk. cbn in Hq. subst. exists [e], es. split_and!; [done| |done].
      by rewrite concat_bytes_cons, app_nil_r.
    + assert (newlines (text_bytes (chomp e)) = 0) as Hz by apply no_newline_bytes, He.
      rewrite (entry_bytes e He) in Hk. apply last_Some in Hp as [p' ->].
      destruct (exists_last (l:=b :: k)) as (k' & b' & Ek); [done|]. rewrite Ek, app_assoc in Hk.
      apply app_inj_tail in Hk as [Hk _]. rewrite Hk, !newlines_app in Hz. vm_compute (newlines [_]) in Hz. lia.
  - destruct (IH k Hrest) as (es1 & es2 & -> & -> & ->).
    { subst p. destruct k as [|b k]; [by left|right]. by rewrite last_app_cons in Hp. }
    exists (e :: es1), es2. split_and!; [done| |done]. by rewrite concat_bytes_cons.
Qed.

Lemma trim_newline l b :
  is_ascii_whitespace b = false → trim_ascii_end (l ++ [b; newline_byte]) = l ++ [b].
Proof.
  intros Hb. unfold trim_ascii_end. rewrite rev_app_distr. cbn [rev app skip_whitespace].
  change (is_ascii_whitespace newline_byte) with true. cbn. rewrite Hb. cbn. by rewrite rev_involutive.
Qed.

Lemma trimmed_newline l b :
  is_ascii_whitespace b = false → trimmed (l ++ [b; newline_byte]) = l ++ [b].
Proof.
  intros Hb. unfold trimmed. set (k := length (l ++ [b; newline_byte]) - INITIAL_BUFFER).
  assert (k ≤ length l) as Hk by (unfold k, INITIAL_BUFFER; rewrite length_app; cbn; lia).
  rewrite take_app_le, drop_app_le by done. rewrite trim_newline, app_assoc by done. by rewrite take_drop.
Qed.

Lemma last_entry_bytes es e :
  Forall entry_ok (es ++ [e]) →
  ∃ l b, is_ascii_whitespace b = false ∧ text_bytes (concat_strings (es ++ [e])) = l ++ [b; newline_byte].
Proof.
  intros [_ [He _]%Forall_cons]%Forall_app. destruct (entry_end e He) as (b & [t Hl]%last_Some & Hb).
  exists (text_bytes (concat_strings es) ++ t), b. split; [done|].
  rewrite concat_strings_snoc, text_bytes_append, (entry_bytes e He), Hl. by rewrite <- !app_assoc.
Qed.

(** The last entries, as the daemon reads them from the end of the file. *)
Lemma read_log_tail log_file d node es n :
  Forall entry_ok es → es ≠ [] → 1 ≤ n → log_file d node = Some (text_bytes (concat_strings es)) →
  read_log log_file d node (Some n) = Ok (text_bytes (concat_strings (drop (length es - n) es))).
Proof.
  intros Hes Hne Hn Hfile. unfold read_log. rewrite Hfile. destruct n as [|n]; [lia|].
  destruct (read_last_n_lines_spec (text_bytes (concat_strings es)) (S n)) as (r & -> & Hlast); [lia|].
  cbn [res_of_option mbind res_bind].
  destruct (exists_last Hne) as (es' & e & ->).
  destruct (last_entry_bytes es' e Hes) as (l & b & Hb & Hbytes). rewrite Hbytes, trimmed_newline in Hlast by done.
  destruct Hlast as (p & Hpr & Hcase). assert (b ≠ newline_byte) as Hbn by by intros ->.
  assert (r ≠ []) as Hr.
  { intros ->. rewrite app_nil_r in Hpr. destruct Hcase as [[-> _]|[[p' ->] _]]; [by destruct l|].
    by apply app_inj_tail in Hpr as [_ ?]. }
  assert (last r = Some b) as Hlr.
  { destruct (exists_last Hr) as (r' & b' & ->). rewrite app_assoc in Hpr. apply app_inj_tail in Hpr as [_ ->].
    by rewrite last_snoc. }
  rewrite Hlr, bool_decide_eq_false_2 by congruence. f_equal.
  destruct (split_entries (es' ++ [e]) p (r ++ [newline_byte]) Hes) as (es1 & es2 & Hsplit & Hp & Hq).
  { by rewrite Hbytes, app_assoc, <- Hpr, <- app_assoc. }
  { destruct Hcase as [[-> _]|[[p' ->] _]]; [by left|right]. by rewrite last_snoc. }
  rewrite Hq. assert (length es2 = S (newlines r)) as Hlen.
  { rewrite Hsplit in Hes. apply Forall_app in Hes as [_ Hes2]. rewrite <- (newlines_entries es2 Hes2), <- Hq, newlines_app.
    vm_compute (newlines [_]). lia. }
  rewrite Hsplit. destruct Hcase as [[-> Hlt]|[_ Heq]].
  - destruct es1 as [|e1 es1]; [|exfalso; rewrite Hsplit in Hes; apply Forall_cons in Hes as [He1 _];
      rewrite concat_bytes_cons, (entry_bytes e1 He1) in Hp; by destruct (text_bytes (chomp e1))].
    cbn. by replace (length es2 - S n) with 0 by lia.
  - rewrite length_app. replace (length es1 + length es2 - S n) with (length es1) by lia. by rewrite drop_app_length.
Qed.

Section tail.
Context `{LogLib} (to_lower : string → string) (datetime_min : Z).

Lemma string_of_text_bytes s : String.string_of_list_byte (text_bytes s) = s.
Proof. apply String.string_of_list_byte_of_string. Qed.

Lemma lossy_entries es :
  Forall entry_ok es →
  lines (String.string_of_list_byte (from_utf8_lossy (text_bytes (concat_strings es)))) = chomp <$> es.
Proof.
  intros Hes. rewrite lossy_valid_id by by apply utf8_entries. rewrite string_of_text_bytes. by apply lines_entries.
Qed.

(** Lines that are all messages. *)
Lemma omap_messages es :
  Forall (λ e, is_Some (parse_jsonl_line (chomp e))) es →
  ∃ ms, omap parse_jsonl_line (chomp <$> es) = ms ∧ length ms = length es ∧
    ∀ k, omap parse_jsonl_line (chomp <$> drop k es) = drop k ms.
Proof.
  induction 1 as [|e es [m Hm] _ (ms & Hms & Hlen & Hd)]; [exists []; by split_and!; [..|intros []]|].
  exists (m :: ms). cbn. rewrite Hm, Hms. split_and!; [done|by rewrite Hlen|]. intros [|k]; cbn; [|apply Hd].
  rewrite Hm. by rewrite Hms.
Qed.

Lemma apply_tail_drop (ms : list LogMessage) n : apply_tail ms (Some n) = drop (length ms - n) ms.
Proof. cbn. by rewrite take_reverse, reverse_involutive. Qed.

(** [dora logs --tail n] for one node.  Without other filters, the daemon is asked only for
    the last [n] lines, which it reads backwards from the end of the file.  For a file of
    entries that are all messages, what is shown is the same as with the whole file
    fetched. *)
Theorem logs_tail_equivalent args config now log_file d node es n :
  Forall entry_ok es → es ≠ [] → Forall (λ e, is_Some (parse_jsonl_line (chomp e))) es →
  log_file d node = Some (text_bytes (concat_strings es)) →
  a_tail args = Some n → a_since args = None → a_until args = None → a_grep args = None →
  logs to_lower datetime_min args config now (read_log log_file d node)
  = logs to_lower datetime_min args config now (λ _, read_log log_file d node None).
Proof.
  intros Hes Hne Hmsg Hfile Htail Hs Hu Hg. unfold logs, logs_request_tail.
  rewrite Hs, Hu, Hg. cbn [bool_decide is_Some_dec decide_rel orb]. rewrite Htail.
  assert (read_log log_file d node None = Ok (text_bytes (concat_strings es))) as Hall.
  { unfold read_log. rewrite Hfile. cbn [mbind res_bind]. destruct (exists_last Hne) as (es' & e & ->).
    destruct (last_entry_bytes es' e Hes) as (l & b & _ & ->).
    by rewrite (app_assoc l [b] [newline_byte] : l ++ [b; newline_byte] = _), last_snoc, bool_decide_eq_true_2. }
  destruct n as [|n].
  { change (read_log log_file d node (Some 0)) with (read_log log_file d node None). rewrite Hall. done. }
  rewrite (read_log_tail _ _ _ es (S n)), Hall by (done || lia). cbn [mbind res_bind].
  rewrite !lossy_entries by (try done; by apply Forall_drop).
  destruct (omap_messages es Hmsg) as (ms & Hms & Hlen & ->). rewrite Hms.
  unfold select_messages, apply_time_filters, threshold. rewrite Hs, Hu, Hg, Htail. cbn [mbind res_bind apply_grep].
  assert (∀ k : list LogMessage, filter (λ m, in_window None None m) k = k) as Hw.
  { intros k. apply filter_all. by apply Forall_true. }
  rewrite !Hw, !apply_tail_drop, length_drop, drop_drop. do 3 f_equal. lia.
Qed.
End tail.

(** ** Following a file, mixing of nodes, merging *)

Section more.
Context `{LogLib} (to_lower : string → string) (datetime_min : Z).

(** What is appended to a file is read by the next round, once. *)
Lemma poll_appended f name old es :
  fs_read name f = Some (String.append old (concat_strings es)) → Forall entry_ok es → es ≠ [] →
  poll_file f name (String.length old)
  = Ok (omap (λ e, parse_jsonl_line (chomp e)) es, String.length old + String.length (concat_strings es)) ∧
  poll_file f name (String.length old + String.length (concat_strings es))
  = Ok ([], String.length old + String.length (concat_strings es)).
Proof.
  intros Hf Hes Hne. unfold poll_file. rewrite Hf. cbn [default from_option id]. rewrite length_append, Nat.leb_refl.
  split; [|done]. destruct (Nat.leb_spec (String.length old + String.length (concat_strings es)) (String.length old))
    as [Hle|_].
  { exfalso. destruct Hes as [|e es He _]; [done|].
    assert (0 < String.length (concat_strings (e :: es))); [|lia].
    rewrite <- length_text_bytes, concat_bytes_cons, (entry_bytes e He), !length_app. cbn. lia. }
  rewrite substring_append_r, substring_all by lia. rewrite utf8_entries, lines_entries by done.
  do 2 f_equal. clear. induction es as [|e es IH]; [done|]. cbn. by rewrite <- IH.
Qed.

(** A follower after a rotation.  The position of the current file is the size it had; the new
    current file starts from nothing.  As long as it is not longer than the old one, its
    entries are not shown, and the bytes up to the old size are never read. *)
Theorem follow_misses_rotation n max_files s c rotated text :
  1 ≤ max_files → length rotated ≤ max_files → Represents n s (c :: rotated) →
  String.length text ≤ String.length c →
  let '(_, f) := rotate_log_files all_ok n max_files (fs s) in
  let '(h, f) := fs_create (log_path n) f in
  let '(_, f) := fs_write h text f in
  fs_read (log_path n) f = Some text ∧ poll_file f (log_path n) (String.length c) = Ok ([], String.length c).
Proof.
  intros Hmax Hlen Hrep Htext.
  destruct (represents_rotate n max_files s (c :: rotated)) as (f & -> & Hnew); [done|cbn; lia|done|].
  destruct (fs_create (log_path n) f) as [h g]. destruct Hnew as [Hnew _].
  pose proof (represents_write n _ _ _ text Hnew) as Hw. cbn [fs file] in Hw.
  destruct (fs_write h text g) as [h' g']. destruct Hw as [Hw _].
  pose proof (rep_files _ _ _ Hw 0) as Hread. cbn in Hread. split; [done|].
  unfold poll_file. rewrite Hread. cbn [default from_option id]. by rewrite (proj2 (Nat.leb_le _ _)).
Qed.

(** The files of a node are chosen by the beginning of the name: the logs of every node whose
    name starts with the one asked for are shown with them. *)
Theorem prefix_nodes_mixed entries n suffix k files :
  find_node_log_files entries n = Ok files → file_name (String.append n suffix) k ∈ entries →
  file_name (String.append n suffix) k ∈ files.
Proof.
  unfold find_node_log_files. intros Hf Hin.
  assert (is_log_name (String.append "log_" n) (file_name (String.append n suffix) k) = true) as Hl.
  { pose proof (is_log_name_file_name (String.append n suffix) k) as Ho. unfold is_log_name in *.
    apply andb_true_iff in Ho as [Hp ->]. rewrite andb_true_r. unfold starts_with in *.
    destruct k; cbn [file_name] in *; [|rewrite log_path_rotated_dotted in *]; unfold log_path, dotted;
      rewrite !append_assoc, <- (append_assoc "log_" n); apply prefix_append. }
  assert (file_name (String.append n suffix) k ∈ filter (λ name, is_log_name (String.append "log_" n) name) entries)
    as Hmem by (apply list_elem_of_filter; split; [by apply Is_true_true|done]).
  destruct (filter _ entries) as [|s l]; [done|]. assert (files = older_first (s :: l)) as -> by congruence.
  unfold older_first. by rewrite (sort_by_Permutation _ (s :: l)).
Qed.

(** The timeline of several logs: all messages, sorted by time; messages of one time keep
    their order. *)
Theorem merge_by_timestamp_correct streams :
  merge_by_timestamp streams ≡ₚ concat streams ∧
  StronglySorted (λ a b, m_timestamp a ≤ m_timestamp b)%Z (merge_by_timestamp streams) ∧
  ∀ t, filter (λ m, m_timestamp m = t) (merge_by_timestamp streams)
       = filter (λ m, m_timestamp m = t) (concat streams).
Proof.
  unfold merge_by_timestamp, sort_by_timestamp. set (le := λ a b, (m_timestamp a <=? m_timestamp b)%Z). split_and!.
  - apply sort_by_Permutation.
  - pose proof (sort_by_sorted le) as Hs.
    assert (StronglySorted (λ a b, le a b = true) (sort_by le (concat streams))) as Hsorted.
    { apply Hs; unfold le; intros *; rewrite ?Z.leb_gt, !Z.leb_le; lia. }
    clear Hs. induction Hsorted as [|x l _ IH Hall]; constructor; [done|].
    eapply Forall_impl; [done|]. intros y. unfold le. by rewrite Z.leb_le.
  - intros t. apply sort_by_stable. intros x y Hx Hy. unfold le. apply Z.leb_le. cbn in Hx, Hy. lia.
Qed.

(** The live stream selects with the same filters as the files do. *)
Lemma stream_same_filters args config now received :
  stream_logs_from_coordinator to_lower datetime_min args config now (Some <$> received)
  = (filtered ← apply_time_filters datetime_min received (a_since args) (a_until args) now;
     Ok (filter (λ m, shown config m) (apply_grep to_lower filtered (a_grep args)))).
Proof.
  unfold stream_logs_from_coordinator, apply_time_filters.
  destruct (threshold datetime_min now (a_since args)) as [since| |]; [|done..]. cbn [mbind res_bind].
  destruct (threshold datetime_min now (a_until args)) as [until| |]; [|done..]. cbn [mbind res_bind]. f_equal.
  assert (omap id (Some <$> received) = received) as -> by (clear; induction received; cbn; by f_equal).
  assert (∀ l, apply_grep to_lower l (a_grep args) = filter (λ m, matches_grep to_lower (a_grep args) m) l) as ->.
  { intros l. unfold apply_grep. destruct (a_grep args); [done|]. symmetry. apply filter_all. by apply Forall_true. }
  rewrite !list_filter_filter. apply list_filter_iff. intros m. unfold stream_log. rewrite !andb_True. tauto.
Qed.
End more.

(** ** Witnesses *)

#[local] Existing Instance sample_log_lib.
#[local] Existing Instance sample_arrow.
#[local] Existing Instance sample_laws.

(** The characters of sample texts. *)
Definition sample_char (c : ascii) : bool :=
  bool_decide (c = "0"%char) || bool_decide (c = "1"%char) || bool_decide (c = "{"%char) || bool_decide (c = "}"%char).

Lemma digits_chars p : string_forall sample_char (digits p) = true.
Proof. induction p as [p IH|p IH|]; cbn [digits string_forall]; [exact IH|exact IH|done]. Qed.

Lemma sample_text_chars v t : value_to_vec v = Some t → string_forall sample_char t = true.
Proof.
  intros [= <-]. change (string_forall sample_char (String.append (digits (encode (json_tree v))) "}") = true).
  by rewrite string_forall_append, digits_chars.
Qed.

Lemma sample_chars_utf8 t : string_forall sample_char t = true → utf8_valid (text_bytes t) = true.
Proof.
  induction t as [|c t IH]; [done|]. intros Hc. apply andb_true_iff in Hc as [Hc Ht].
  change (text_bytes (String c t)) with ([byte_of_ascii c] ++ text_bytes t). rewrite utf8_valid_char; [by apply IH|].
  unfold sample_char in Hc. rewrite !orb_true_iff, !bool_decide_eq_true in Hc.
  by destruct Hc as [[[->| ->]| ->]| ->].
Qed.

Lemma sample_not_blank s : trim (String "{" (String.append s "}")) ≠ EmptyString.
Proof.
  assert (∀ fuel l, trim_start_rev fuel (125 :: l)%N = (125 :: l)%N) as Hrev.
  { intros [|fuel] l; [done|]. cbn. repeat case_match; done. }
  assert (∀ fuel l, trim_start_bytes fuel (123 :: l)%N = (123 :: l)%N) as Hfwd.
  { intros [|fuel] l; [done|]. cbn. repeat case_match; done. }
  assert (trim_end (String "{" (String.append s "}")) = String "{" (String.append s "}")) as Hend.
  { unfold trim_end.
    assert (N_of_ascii <$> String.list_ascii_of_string (String "{" (String.append s "}"))
      = (123%N :: (N_of_ascii <$> String.list_ascii_of_string s)) ++ [125%N]) as Hb.
    { cbn. f_equal. induction s as [|c s IH]; [done|]. rewrite string_append_cons. cbn. by rewrite IH. }
    rewrite Hb, rev_app_distr. cbn [rev app]. rewrite Hrev. cbn [rev]. rewrite rev_app_distr. cbn [rev app].
    rewrite rev_involutive. cbn [fmap list_fmap app]. clear. cbn. f_equal.
    induction s as [|c s IH]; [done|]. rewrite string_append_cons. cbn. by rewrite ascii_N_embedding, IH. }
  unfold trim. rewrite Hend. unfold bytes_of. cbn [String.list_ascii_of_string fmap list_fmap length].
  rewrite (Hfwd _ (N_of_ascii <$> String.list_ascii_of_string (String.append s "}"))). done.
Qed.

#[local] Instance sample_log_laws : LogLaws.
Proof.
  split.
  - intros v. eexists. split; [done|]. cbn. unfold strip_suffix_char.
    rewrite last_char_append, bool_decide_eq_true_2 by done. rewrite drop_last_append. cbn.
    rewrite undigits_digits, decode_encode. apply json_tree_json.
  - intros v t Ht%sample_text_chars. split; eapply string_forall_impl; [|done| |done]; intros c Hc;
      apply negb_true_iff, bool_decide_eq_false; intros ->; by vm_compute in Hc.
  - intros v t [= <-]. apply sample_not_blank.
  - intros v t Ht. by eapply sample_chars_utf8, sample_text_chars.
  - intros v t [= <-]. exists Byte.x7d. split; [|done].
    change (String "{" (String.append ?s "}")) with (String.append (String "{" s) "}").
    rewrite text_bytes_append. apply last_snoc.
  - done.
  - intros t _. cbn. rewrite undigits_digits, decode_encode. done.
Defined.

Definition sample_args (tail : option nat) : LogsArgs :=
  mkLogsArgs (Some "cam") false tail None None LStdout None None.
Definition sample_task : TaskState :=
  match log_lines sample_str_array sample_cfg sample_received (start_task sample_cfg sample_fs) with
  | Ok (_, (s, _)) => s
  | _ => start_task sample_cfg sample_fs
  end.
Definition sample_listing : list string := ["log_cam.jsonl"; "log_other.jsonl"; "log_cam.1.jsonl"].

Lemma sample_listing_of : listing_of (fs sample_task) sample_listing.
Proof.
  assert (dom (dir (fs sample_task)) = list_to_set sample_listing :> gset string) as Hd.
  { apply (bool_decide_unpack _). vm_compute. exact I. }
  split; [apply (bool_decide_unpack _); by vm_compute|]. intros p.
  rewrite <- elem_of_dom, Hd. by rewrite elem_of_list_to_set.
Qed.

Lemma sample_prefix_free : prefix_free "cam" sample_fs.
Proof.
  intros p [i Hi]. unfold sample_fs in Hi. cbn [dir] in Hi. apply lookup_singleton_Some in Hi as [<- _].
  intros Hl. by vm_compute in Hl.
Qed.

Lemma local_logs_complete_witness :
  ∃ k, match read_local_logs id 0 (sample_args (Some 2)) 10 sample_listing (fs sample_task) with
       | Ok result =>
           ∃ sorted, sorted ≡ₚ (stored sample_cfg <$> drop k (messages_of sample_cfg sample_received)) ∧
             StronglySorted (λ a b, m_timestamp a ≤ m_timestamp b)%Z sorted ∧
             (∀ t, filter (λ m, m_timestamp m = t) sorted =
                   filter (λ m, m_timestamp m = t) (stored sample_cfg <$> drop k (messages_of sample_cfg sample_received))) ∧
             shown_of id (sample_args (Some 2)) 10 sorted result
       | Err _ => ∀ config, build_log_config (sample_args (Some 2)) ≠ Ok config
       | Panic => ∃ d, (a_since (sample_args (Some 2)) = Some d ∨ a_until (sample_args (Some 2)) = Some d) ∧ (10 - d < 0)%Z
       end.
Proof.
  destruct (local_logs_complete sample_str_array sample_str_array_valid id 0 sample_logger false sample_resolved
              sample_cfg sample_fs sample_received sample_listing (sample_args (Some 2)) 10)
    as (e & s & k & Hrun & _ & Hread).
  - by vm_compute.
  - intros v Ev. vm_compute in Ev. by injection Ev as <-.
  - exact sample_fs_wf.
  - exact sample_fresh.
  - exact sample_calm.
  - apply (bool_decide_unpack _). by vm_compute.
  - reflexivity.
  - exact sample_prefix_free.
  - reflexivity.
  - reflexivity.
  - assert (fs sample_task = fs s) as Hs by (unfold sample_task; by rewrite Hrun).
    rewrite Hs. exists k. apply Hread. rewrite <- Hs. exact sample_listing_of.
Defined.

(** The last two of the messages that are kept. *)
Lemma sample_local_logs :
  ∃ ms, read_local_logs id 0 (sample_args (Some 2)) 10 sample_listing (fs sample_task) = Ok ms ∧
    m_message <$> ms = ["three"; "four"].
Proof. eexists. split; vm_compute; reflexivity. Qed.

Definition sample_entries : list string := omap (entry_of sample_cfg) sample_received.

Lemma sample_entries_ok :
  Forall entry_ok sample_entries ∧ Forall (λ e, is_Some (parse_jsonl_line (chomp e))) sample_entries.
Proof.
  destruct (parse_entries sample_cfg sample_received) as [Hok Hp].
  { apply (bool_decide_unpack _). by vm_compute. }
  split; [done|]. fold sample_entries in Hp. clear Hok. induction Hp; constructor; [by eexists|done].
Qed.

Lemma logs_tail_equivalent_witness :
  let log_file (_ : DataflowId) (_ : NodeId) := Some (text_bytes (concat_strings sample_entries)) in
  logs id 0 (sample_args (Some 2)) (mkOutputConfig LStdout ∅) 10 (read_log log_file 5%N "cam")
  = logs id 0 (sample_args (Some 2)) (mkOutputConfig LStdout ∅) 10 (λ _, read_log log_file 5%N "cam" None).
Proof.
  intros log_file.
  apply (logs_tail_equivalent id 0 (sample_args (Some 2)) (mkOutputConfig LStdout ∅) 10 log_file 5%N "cam"
           sample_entries 2).
  - apply sample_entries_ok.
  - intros E%(f_equal length). by vm_compute in E.
  - apply sample_entries_ok.
  - reflexivity.
  - reflexivity.
  - reflexivity.
  - reflexivity.
  - reflexivity.
Defined.

Lemma follow_misses_rotation_witness :
  let s := mkTask (mkFs {["log_cam.jsonl" := 0]} {[0 := "old entries"]} 1) (mkHandle 0 11) 11 in
  let '(_, f) := rotate_log_files all_ok "cam" 5 (fs s) in
  let '(h, f) := fs_create (log_path "cam") f in
  let '(_, f) := fs_write h "new" f in
  fs_read (log_path "cam") f = Some "new" ∧ poll_file f (log_path "cam") 11 = Ok ([], 11).
Proof.
  cbv zeta. apply (follow_misses_rotation "cam" 5 _ "old entries" [] "new").
  - lia.
  - cbn. lia.
  - split; cbn [fs file bytes_written].
    + split; cbn.
      * intros p i [<- <-]%lookup_singleton_Some. split; [lia|]. by eexists.
      * intros p q i [<- _]%lookup_singleton_Some [<- _]%lookup_singleton_Some. done.
    + intros [|k]; [by vm_compute|]. unfold fs_read. cbn [dir]. rewrite lookup_singleton_ne; [done|].
      intros E. symmetry in E. by apply (file_name_inj "cam" (S k) 0) in E.
    + by vm_compute.
    + by intros c [= <-].
    + intros c [= <-]. by vm_compute.
  - cbn. lia.
Defined.

Lemma prefix_nodes_mixed_witness :
  ∃ files, find_node_log_files ["log_camera.jsonl"; "log_cam.jsonl"] "cam" = Ok files ∧ "log_camera.jsonl" ∈ files.
Proof.
  eexists. split; [by vm_compute|].
  apply (prefix_nodes_mixed ["log_camera.jsonl"; "log_cam.jsonl"] "cam" "era" 0).
  - by vm_compute.
  - left.
Defined.
