(* ===== verification/Store.v ===== *)
(** * The coordinator's store

    Models [libraries/coordinator-store/src/{lib,in_memory,redb_store}.rs]: the trait
    [CoordinatorStore] as a class with the laws its clients rely on, and its two
    implementations.  The laws relate every operation to a view of the store as four maps.
    [InMemoryStore] keeps these maps; [RedbStore] keeps tables of bytes, so that its laws
    depend on the encodings of keys and values.  The codec (bincode) and the text and bytes
    of a UUID are parameters; a redb transaction can fail, and is then without effect. *)

From Stdlib Require Import ZArith Lia Ascii.
From stdpp Require Import base gmap sets list strings pretty.
From S2P Require Import Prelude Message Text.

(** ** Records *)

Record DaemonInfo := mkDaemonInfo {
  info_daemon_id : DaemonId;
  info_machine_id : option string;
  info_labels : gmap string string
}.

Inductive DataflowStatus :=
| DPending | DRunning | DRecovering | DStopping | DSucceeded | DFailed (error : string).
#[export] Instance DataflowStatus_eq_dec : EqDecision DataflowStatus.
Proof. solve_decision. Defined.

Record DataflowRecord := mkDataflowRecord {
  record_uuid : Uuid;
  record_name : option string;
  record_descriptor_json : string;
  record_status : DataflowStatus;
  record_daemon_ids : list DaemonId;
  record_node_to_daemon : gmap string string;
  record_uv : bool;
  record_generation : Z;
  record_created_at : Z;
  record_updated_at : Z
}.

Inductive BuildStatus := BPending | BSucceeded | BFailed.
#[export] Instance BuildStatus_eq_dec : EqDecision BuildStatus.
Proof. solve_decision. Defined.

Record BuildRecord := mkBuildRecord {
  build_record_id : Uuid;
  build_status : BuildStatus;
  build_errors : list string;
  build_created_at : Z;
  build_updated_at : Z
}.

Abbreviation Bytes := (list Byte.byte) (only parsing).
(** The composite key of a node parameter: dataflow, node, name. *)
Abbreviation ParamKey := (Uuid * NodeId * string)%type (only parsing).

Definition MAX_PARAM_KEY_BYTES : Z := 256.
Definition MAX_PARAM_VALUE_BYTES : Z := 65536.

Definition validate_param_limits (key : string) (value : Bytes) : res unit :=
  if (MAX_PARAM_KEY_BYTES <? Z.of_nat (String.length key))%Z then Err "param key too long"
  else if (MAX_PARAM_VALUE_BYTES <? Z.of_nat (length value))%Z then Err "param value too large"
  else Ok tt.

(** ** The trait *)

Class CoordinatorStore (S : Type) := {
  register_daemon : DaemonInfo → S → res unit * S;
  unregister_daemon : DaemonId → S → res unit * S;
  list_daemons : S → res (list DaemonInfo) * S;
  get_daemon : DaemonId → S → res (option DaemonInfo) * S;
  get_daemon_by_machine : string → S → res (option DaemonId) * S;
  put_dataflow : DataflowRecord → S → res unit * S;
  get_dataflow : Uuid → S → res (option DataflowRecord) * S;
  list_dataflows : S → res (list DataflowRecord) * S;
  delete_dataflow : Uuid → S → res unit * S;
  put_build : BuildRecord → S → res unit * S;
  get_build : Uuid → S → res (option BuildRecord) * S;
  list_builds : S → res (list BuildRecord) * S;
  delete_build : Uuid → S → res unit * S;
  put_node_param : Uuid → NodeId → string → Bytes → S → res unit * S;
  get_node_param : Uuid → NodeId → string → S → res (option Bytes) * S;
  list_node_params : Uuid → NodeId → S → res (list (string * Bytes)) * S;
  delete_node_param : Uuid → NodeId → string → S → res unit * S
}.

(** What a store holds, independently of its representation. *)
Record StoreView := mkStoreView {
  view_daemons : gmap DaemonId DaemonInfo;
  view_dataflows : gmap Uuid DataflowRecord;
  view_builds : gmap Uuid BuildRecord;
  view_params : gmap ParamKey Bytes
}.
Definition empty_view : StoreView := mkStoreView ∅ ∅ ∅ ∅.
Definition upd_view_daemons f (v : StoreView) := {| v with view_daemons := f (view_daemons v) |}.
Definition upd_view_dataflows f (v : StoreView) := {| v with view_dataflows := f (view_dataflows v) |}.
Definition upd_view_builds f (v : StoreView) := {| v with view_builds := f (view_builds v) |}.
Definition upd_view_params f (v : StoreView) := {| v with view_params := f (view_params v) |}.

(** The parameters of one node. *)
Definition node_params (v : StoreView) (dataflow_id : Uuid) (node_id : NodeId)
    (l : list (string * Bytes)) : Prop :=
  NoDup l.*1 ∧ ∀ key value,
    (key, value) ∈ l ↔ view_params v !! (dataflow_id, node_id, key) = Some value.

(** A successful write changes the represented view by [f]; a failed one leaves the store
    as it was.  A read leaves the view as it was, and its answer satisfies [P]. *)
Definition writes {S} (rep : S → StoreView → Prop) (v : StoreView)
    (f : StoreView → StoreView) (out : res unit * S) : Prop :=
  match out.1 with Ok _ => rep out.2 (f v) | _ => rep out.2 v end.
Definition reads {S A} (rep : S → StoreView → Prop) (v : StoreView)
    (P : A → Prop) (out : res A * S) : Prop :=
  rep out.2 v ∧ match out.1 with Ok a => P a | _ => True end.

Definition values {K V} `{Countable K} (m : gmap K V) : list V := (map_to_list m).*2.

(** Some registered daemon of the machine, if there is one. *)
Definition daemon_of_machine (v : StoreView) (machine : string) (o : option DaemonId) : Prop :=
  match o with
  | Some id => matches_machine_id id machine = true ∧ is_Some (view_daemons v !! id)
  | None => ∀ id, is_Some (view_daemons v !! id) → matches_machine_id id machine = false
  end.

(** A store registers daemons under their own identifier. *)
Definition daemons_keyed (v : StoreView) : Prop :=
  ∀ id info, view_daemons v !! id = Some info → info_daemon_id info = id.

Class StoreLaws (S : Type) `{CoordinatorStore S} := {
  store_rep : S → StoreView → Prop;
  register_daemon_law info s v : store_rep s v →
    writes store_rep v (upd_view_daemons <[info_daemon_id info := info]>) (register_daemon info s);
  unregister_daemon_law id s v : store_rep s v →
    writes store_rep v (upd_view_daemons (delete id)) (unregister_daemon id s);
  list_daemons_law s v : store_rep s v →
    reads store_rep v (λ l, l ≡ₚ values (view_daemons v)) (list_daemons s);
  get_daemon_law id s v : store_rep s v →
    reads store_rep v (λ o, o = view_daemons v !! id) (get_daemon id s);
  get_daemon_by_machine_law machine s v : store_rep s v →
    reads store_rep v (daemon_of_machine v machine) (get_daemon_by_machine machine s);
  put_dataflow_law record s v : store_rep s v →
    writes store_rep v (upd_view_dataflows <[record_uuid record := record]>) (put_dataflow record s);
  get_dataflow_law uuid s v : store_rep s v →
    reads store_rep v (λ o, o = view_dataflows v !! uuid) (get_dataflow uuid s);
  list_dataflows_law s v : store_rep s v →
    reads store_rep v (λ l, l ≡ₚ values (view_dataflows v)) (list_dataflows s);
  delete_dataflow_law uuid s v : store_rep s v →
    writes store_rep v (upd_view_dataflows (delete uuid)) (delete_dataflow uuid s);
  put_build_law record s v : store_rep s v →
    writes store_rep v (upd_view_builds <[build_record_id record := record]>) (put_build record s);
  get_build_law id s v : store_rep s v →
    reads store_rep v (λ o, o = view_builds v !! id) (get_build id s);
  list_builds_law s v : store_rep s v →
    reads store_rep v (λ l, l ≡ₚ values (view_builds v)) (list_builds s);
  delete_build_law id s v : store_rep s v →
    writes store_rep v (upd_view_builds (delete id)) (delete_build id s);
  put_node_param_law dataflow_id node_id key value s v : store_rep s v →
    writes store_rep v (upd_view_params <[(dataflow_id, node_id, key) := value]>)
      (put_node_param dataflow_id node_id key value s);
  put_node_param_limits dataflow_id node_id key value s :
    validate_param_limits key value ≠ Ok tt →
    put_node_param dataflow_id node_id key value s = (validate_param_limits key value, s);
  get_node_param_law dataflow_id node_id key s v : store_rep s v →
    reads store_rep v (λ o, o = view_params v !! (dataflow_id, node_id, key))
      (get_node_param dataflow_id node_id key s);
  list_node_params_law dataflow_id node_id s v : store_rep s v →
    reads store_rep v (node_params v dataflow_id node_id) (list_node_params dataflow_id node_id s);
  delete_node_param_law dataflow_id node_id key s v : store_rep s v →
    writes store_rep v (upd_view_params (delete (dataflow_id, node_id, key)))
      (delete_node_param dataflow_id node_id key s)
}.

(** ** The in-memory store

    The locks are taken for one map operation each, which does not panic, so that they are
    never poisoned. *)

Record InMemoryStore := mkInMemoryStore {
  mem_daemons : gmap DaemonId DaemonInfo;
  mem_dataflows : gmap Uuid DataflowRecord;
  mem_builds : gmap Uuid BuildRecord;
  mem_params : gmap ParamKey Bytes
}.

Section in_memory.
Implicit Types s : InMemoryStore.

Definition mem_new : InMemoryStore := mkInMemoryStore ∅ ∅ ∅ ∅.

Definition mem_register_daemon (info : DaemonInfo) s : res unit * InMemoryStore :=
  (Ok tt, {| s with mem_daemons := <[info_daemon_id info := info]> (mem_daemons s) |}).
Definition mem_unregister_daemon (id : DaemonId) s : res unit * InMemoryStore :=
  (Ok tt, {| s with mem_daemons := delete id (mem_daemons s) |}).
Definition mem_list_daemons s : res (list DaemonInfo) * InMemoryStore :=
  (Ok (btree_iter (mem_daemons s)).*2, s).
Definition mem_get_daemon (id : DaemonId) s : res (option DaemonInfo) * InMemoryStore :=
  (Ok (mem_daemons s !! id), s).
Definition mem_get_daemon_by_machine (machine : string) s : res (option DaemonId) * InMemoryStore :=
  (Ok (head (retain (λ id, matches_machine_id id machine) (btree_keys (mem_daemons s)))), s).

Definition mem_put_dataflow (record : DataflowRecord) s : res unit * InMemoryStore :=
  (Ok tt, {| s with mem_dataflows := <[record_uuid record := record]> (mem_dataflows s) |}).
Definition mem_get_dataflow (uuid : Uuid) s : res (option DataflowRecord) * InMemoryStore :=
  (Ok (mem_dataflows s !! uuid), s).
Definition mem_list_dataflows s : res (list DataflowRecord) * InMemoryStore :=
  (Ok (btree_iter (mem_dataflows s)).*2, s).
Definition mem_delete_dataflow (uuid : Uuid) s : res unit * InMemoryStore :=
  (Ok tt, {| s with mem_dataflows := delete uuid (mem_dataflows s) |}).

Definition mem_put_build (record : BuildRecord) s : res unit * InMemoryStore :=
  (Ok tt, {| s with mem_builds := <[build_record_id record := record]> (mem_builds s) |}).
Definition mem_get_build (build_id : Uuid) s : res (option BuildRecord) * InMemoryStore :=
  (Ok (mem_builds s !! build_id), s).
Definition mem_list_builds s : res (list BuildRecord) * InMemoryStore :=
  (Ok (btree_iter (mem_builds s)).*2, s).
Definition mem_delete_build (build_id : Uuid) s : res unit * InMemoryStore :=
  (Ok tt, {| s with mem_builds := delete build_id (mem_builds s) |}).

Definition mem_put_node_param (dataflow_id : Uuid) (node_id : NodeId) (key : string) (value : Bytes) s
    : res unit * InMemoryStore :=
  match validate_param_limits key value with
  | Ok _ => (Ok tt, {| s with mem_params := <[(dataflow_id, node_id, key) := value]> (mem_params s) |})
  | e => (e, s)
  end.
Definition mem_get_node_param (dataflow_id : Uuid) (node_id : NodeId) (key : string) s
    : res (option Bytes) * InMemoryStore :=
  (Ok (mem_params s !! (dataflow_id, node_id, key)), s).
Definition of_node (dataflow_id : Uuid) (node_id : NodeId) (k : ParamKey) : bool :=
  bool_decide (k.1.1 = dataflow_id) && bool_decide (k.1.2 = node_id).
Definition mem_list_node_params (dataflow_id : Uuid) (node_id : NodeId) s
    : res (list (string * Bytes)) * InMemoryStore :=
  (Ok ((λ e : ParamKey * Bytes, (e.1.2, e.2)) <$>
         take_while (λ e, of_node dataflow_id node_id e.1)
           (btree_range_from ((dataflow_id, node_id, EmptyString) : ParamKey) (mem_params s))), s).
Definition mem_delete_node_param (dataflow_id : Uuid) (node_id : NodeId) (key : string) s
    : res unit * InMemoryStore :=
  (Ok tt, {| s with mem_params := delete (dataflow_id, node_id, key) (mem_params s) |}).

End in_memory.

#[export] Instance InMemoryStore_store : CoordinatorStore InMemoryStore := {|
  register_daemon := mem_register_daemon;
  unregister_daemon := mem_unregister_daemon;
  list_daemons := mem_list_daemons;
  get_daemon := mem_get_daemon;
  get_daemon_by_machine := mem_get_daemon_by_machine;
  put_dataflow := mem_put_dataflow;
  get_dataflow := mem_get_dataflow;
  list_dataflows := mem_list_dataflows;
  delete_dataflow := mem_delete_dataflow;
  put_build := mem_put_build;
  get_build := mem_get_build;
  list_builds := mem_list_builds;
  delete_build := mem_delete_build;
  put_node_param := mem_put_node_param;
  get_node_param := mem_get_node_param;
  list_node_params := mem_list_node_params;
  delete_node_param := mem_delete_node_param
|}.

(** ** The redb store *)

(** [encode] and [decode] of the store.  Decoding gives back an encoded value or fails, since
    it limits the memory it takes; different values have different encodings. *)
Class Codec (T : Type) := {
  encode : T → res Bytes;
  decode : Bytes → res T
}.
Class CodecLaws (T : Type) `{Codec T} := {
  encode_inj (x y : T) b : encode x = Ok b → encode y = Ok b → x = y;
  decode_encode (x y : T) b : encode x = Ok b → decode b = Ok y → x = y
}.

(** [Uuid::as_bytes] and the [Display] of a UUID (hexadecimal digits and dashes). *)
Class UuidFormat := {
  uuid_as_bytes : Uuid → Bytes;
  uuid_to_string : Uuid → string
}.

Definition KEY_SEPARATOR : ascii := "000"%char.

Class UuidFormatLaws `{UuidFormat} := {
  uuid_as_bytes_inj : Inj eq eq uuid_as_bytes;
  uuid_to_string_inj : Inj eq eq uuid_to_string;
  uuid_to_string_plain u :
    string_forall (λ c, negb (bool_decide (c = KEY_SEPARATOR))) (uuid_to_string u) = true
}.

#[export] Instance byte_countable : Countable Byte.byte :=
  inj_countable Byte.to_N Byte.of_N Byte.of_to_N.

(** The tables; [txn_faults] says of each coming transaction whether it fails. *)
Record RedbStore := mkRedbStore {
  tbl_daemons : gmap Bytes Bytes;
  tbl_dataflows : gmap Bytes Bytes;
  tbl_builds : gmap Bytes Bytes;
  tbl_node_params : gmap string Bytes;
  txn_faults : list bool
}.

Definition redb_new (faults : list bool) : RedbStore := mkRedbStore ∅ ∅ ∅ ∅ faults.

(** A write transaction: all of [f] or nothing. *)
Definition write_txn (f : RedbStore → RedbStore) (s : RedbStore) : res unit * RedbStore :=
  match txn_faults s with
  | true :: faults => (Err "transaction failed", {| s with txn_faults := faults |})
  | _ => let s' := {| s with txn_faults := tail (txn_faults s) |} in (Ok tt, f s')
  end.
Definition read_txn {A} (f : RedbStore → res A) (s : RedbStore) : res A * RedbStore :=
  match txn_faults s with
  | true :: faults => (Err "transaction failed", {| s with txn_faults := faults |})
  | _ => (f s, {| s with txn_faults := tail (txn_faults s) |})
  end.
(** The [?] after an encoding that precedes the transaction. *)
Definition with_key {A K} (key : res K) (f : K → RedbStore → res A * RedbStore) (s : RedbStore)
    : res A * RedbStore :=
  match key with
  | Ok k => f k s
  | Err e => (Err e, s)
  | Panic => (Panic, s)
  end.

Definition check_no_separator (str label : string) : res unit :=
  if string_forall (λ c, negb (bool_decide (c = KEY_SEPARATOR))) str then Ok tt
  else Err (String.append label " must not contain null bytes").

Definition make_param_prefix `{UuidFormat} (dataflow_id : Uuid) (node_id : NodeId) : res string :=
  _ ← check_no_separator node_id "node_id";
  Ok (String.append (uuid_to_string dataflow_id)
        (String KEY_SEPARATOR (String.append node_id (String KEY_SEPARATOR EmptyString)))).
Definition make_param_key `{UuidFormat} (dataflow_id : Uuid) (node_id : NodeId) (key : string)
    : res string :=
  _ ← check_no_separator node_id "node_id";
  _ ← check_no_separator key "param key";
  Ok (String.append (uuid_to_string dataflow_id)
        (String KEY_SEPARATOR (String.append node_id (String KEY_SEPARATOR key)))).

(** The scan of [list_node_params]: collects entries until one lacks the prefix. *)
Fixpoint scan_prefix (prefix : string) (l : list (string * Bytes)) : list (string * Bytes) :=
  match l with
  | [] => []
  | (key, value) :: l =>
      match str_strip_prefix prefix key with
      | Some param_key => (param_key, value) :: scan_prefix prefix l
      | None => []
      end
  end.

Section redb.
Context `{Codec DaemonId, Codec DaemonInfo, Codec DataflowRecord, Codec BuildRecord, UuidFormat}.
Implicit Types s : RedbStore.

Definition redb_register_daemon (info : DaemonInfo) : RedbStore → res unit * RedbStore :=
  with_key (encode (info_daemon_id info)) (λ key, with_key (encode info) (λ value,
    write_txn (λ s, {| s with tbl_daemons := <[key := value]> (tbl_daemons s) |}))).
Definition redb_unregister_daemon (id : DaemonId) : RedbStore → res unit * RedbStore :=
  with_key (encode id) (λ key,
    write_txn (λ s, {| s with tbl_daemons := delete key (tbl_daemons s) |})).
Definition redb_list_daemons : RedbStore → res (list DaemonInfo) * RedbStore :=
  read_txn (λ s, mapM decode (btree_iter (tbl_daemons s)).*2).
Definition redb_get_daemon (id : DaemonId) : RedbStore → res (option DaemonInfo) * RedbStore :=
  with_key (encode id) (λ key, read_txn (λ s,
    match tbl_daemons s !! key with
    | Some value => Some <$> decode value
    | None => Ok None
    end)).
Definition redb_get_daemon_by_machine (machine : string) s : res (option DaemonId) * RedbStore :=
  let '(daemons, s) := redb_list_daemons s in
  ((λ l, info_daemon_id <$> head (retain (λ info, matches_machine_id (info_daemon_id info) machine) l))
     <$> daemons, s).

Definition redb_put_dataflow (record : DataflowRecord) : RedbStore → res unit * RedbStore :=
  with_key (encode record) (λ value,
    write_txn (λ s, {| s with tbl_dataflows :=
                         <[uuid_as_bytes (record_uuid record) := value]> (tbl_dataflows s) |})).
Definition redb_get_dataflow (uuid : Uuid) : RedbStore → res (option DataflowRecord) * RedbStore :=
  read_txn (λ s,
    match tbl_dataflows s !! uuid_as_bytes uuid with
    | Some value => Some <$> decode value
    | None => Ok None
    end).
Definition redb_list_dataflows : RedbStore → res (list DataflowRecord) * RedbStore :=
  read_txn (λ s, mapM decode (btree_iter (tbl_dataflows s)).*2).
Definition redb_delete_dataflow (uuid : Uuid) : RedbStore → res unit * RedbStore :=
  write_txn (λ s, {| s with tbl_dataflows := delete (uuid_as_bytes uuid) (tbl_dataflows s) |}).

Definition redb_put_build (record : BuildRecord) : RedbStore → res unit * RedbStore :=
  with_key (encode record) (λ value,
    write_txn (λ s, {| s with tbl_builds :=
                         <[uuid_as_bytes (build_record_id record) := value]> (tbl_builds s) |})).
Definition redb_get_build (build_id : Uuid) : RedbStore → res (option BuildRecord) * RedbStore :=
  read_txn (λ s,
    match tbl_builds s !! uuid_as_bytes build_id with
    | Some value => Some <$> decode value
    | None => Ok None
    end).
Definition redb_list_builds : RedbStore → res (list BuildRecord) * RedbStore :=
  read_txn (λ s, mapM decode (btree_iter (tbl_builds s)).*2).
Definition redb_delete_build (build_id : Uuid) : RedbStore → res unit * RedbStore :=
  write_txn (λ s, {| s with tbl_builds := delete (uuid_as_bytes build_id) (tbl_builds s) |}).

Definition redb_put_node_param (dataflow_id : Uuid) (node_id : NodeId) (key : string) (value : Bytes)
    : RedbStore → res unit * RedbStore :=
  with_key (validate_param_limits key value) (λ _,
  with_key (make_param_key dataflow_id node_id key) (λ param_key,
    write_txn (λ s, {| s with tbl_node_params := <[param_key := value]> (tbl_node_params s) |}))).
Definition redb_get_node_param (dataflow_id : Uuid) (node_id : NodeId) (key : string)
    : RedbStore → res (option Bytes) * RedbStore :=
  with_key (make_param_key dataflow_id node_id key) (λ param_key,
    read_txn (λ s, Ok (tbl_node_params s !! param_key))).
Definition redb_list_node_params (dataflow_id : Uuid) (node_id : NodeId)
    : RedbStore → res (list (string * Bytes)) * RedbStore :=
  with_key (make_param_prefix dataflow_id node_id) (λ prefix,
    read_txn (λ s, Ok (scan_prefix prefix (btree_range_from prefix (tbl_node_params s))))).
Definition redb_delete_node_param (dataflow_id : Uuid) (node_id : NodeId) (key : string)
    : RedbStore → res unit * RedbStore :=
  with_key (make_param_key dataflow_id node_id key) (λ param_key,
    write_txn (λ s, {| s with tbl_node_params := delete param_key (tbl_node_params s) |})).

#[export] Instance RedbStore_store : CoordinatorStore RedbStore := {|
  register_daemon := redb_register_daemon;
  unregister_daemon := redb_unregister_daemon;
  list_daemons := redb_list_daemons;
  get_daemon := redb_get_daemon;
  get_daemon_by_machine := redb_get_daemon_by_machine;
  put_dataflow := redb_put_dataflow;
  get_dataflow := redb_get_dataflow;
  list_dataflows := redb_list_dataflows;
  delete_dataflow := redb_delete_dataflow;
  put_build := redb_put_build;
  get_build := redb_get_build;
  list_builds := redb_list_builds;
  delete_build := redb_delete_build;
  put_node_param := redb_put_node_param;
  get_node_param := redb_get_node_param;
  list_node_params := redb_list_node_params;
  delete_node_param := redb_delete_node_param
|}.
End redb.

(** ** The in-memory store satisfies the laws *)

Lemma values_perm {K V} `{Countable K, !KeyOrd K} (m : gmap K V) :
  (btree_iter m).*2 ≡ₚ values m.
Proof. unfold values. by rewrite btree_iter_perm. Qed.

(** The search for a daemon of a machine, on any enumeration of the registered ones. *)
Lemma find_machine v machine (l : list DaemonId) :
  (∀ id, id ∈ l ↔ is_Some (view_daemons v !! id)) →
  daemon_of_machine v machine (head (retain (λ id, matches_machine_id id machine) l)).
Proof.
  intros Hl. unfold daemon_of_machine.
  destruct (retain _ l) as [|id l'] eqn:Hr; simpl.
  - intros id Hid%Hl. destruct (matches_machine_id id machine) eqn:E; [|done].
    assert (id ∈ retain (λ id, matches_machine_id id machine) l) as Hin
      by by rewrite elem_of_retain.
    rewrite Hr in Hin. by apply elem_of_nil in Hin.
  - assert (id ∈ retain (λ id, matches_machine_id id machine) l) as [? ?]%elem_of_retain
      by (rewrite Hr; constructor).
    by rewrite <- Hl.
Qed.

(** What a listing of parameters has to return, given the entries of the node in order. *)
Lemma node_params_intro v dataflow_id node_id (l : list (ParamKey * Bytes)) :
  NoDup l.*1 →
  (∀ k value, (k, value) ∈ l ↔ k.1 = (dataflow_id, node_id) ∧ view_params v !! k = Some value) →
  node_params v dataflow_id node_id ((λ e : ParamKey * Bytes, (e.1.2, e.2)) <$> l).
Proof.
  intros Hnd Hl. split.
  - rewrite <- list_fmap_compose.
    rewrite (list_fmap_ext _ (snd ∘ fst) l) by done. rewrite list_fmap_compose.
    apply NoDup_fmap_2_strong; [|done].
    intros k k' (e & -> & He)%list_elem_of_fmap (e' & -> & He')%list_elem_of_fmap Heq.
    destruct e as [[p k] b], e' as [[p' k'] b']. simplify_eq/=.
    apply Hl in He as [? _]. apply Hl in He' as [? _]. by simplify_eq/=.
  - intros key value. rewrite list_elem_of_fmap. split.
    + intros ([[p k] b] & ? & Hin). simplify_eq/=. apply Hl in Hin as [? ?]. by simplify_eq/=.
    + intros Hv. exists ((dataflow_id, node_id, key), value). split; [done|]. by apply Hl.
Qed.

Lemma mem_list_node_params_block (dataflow_id : Uuid) (node_id : NodeId) (m : gmap ParamKey Bytes) :
  take_while (λ e, of_node dataflow_id node_id e.1)
    (btree_range_from ((dataflow_id, node_id, EmptyString) : ParamKey) m)
  = retain (λ e, of_node dataflow_id node_id e.1) (btree_iter m).
Proof.
  apply (scan_block (of_node dataflow_id node_id)); unfold of_node.
  - intros [[d n] k] Hk. simpl in Hk.
    apply andb_prop in Hk as [->%bool_decide_eq_true ->%bool_decide_eq_true].
    unfold key_leb at 1, prod_KeyOrd at 1. cbn [fst snd].
    rewrite key_leb_refl. by destruct k.
  - intros [p k] [p' k'] Hs Hp Hle. simpl in *.
    destruct (bool_decide (p'.1 = dataflow_id) && bool_decide (p'.2 = node_id)) eqn:Hp'; [|done].
    apply andb_prop in Hp' as [?%bool_decide_eq_true ?%bool_decide_eq_true].
    assert (p = (dataflow_id, node_id)) as ->.
    { destruct p' as [? ?]. simplify_eq/=.
      unfold key_leb at 1, prod_KeyOrd at 1 in Hs. unfold key_leb at 1, prod_KeyOrd at 1 in Hle.
      cbn [fst snd] in *. apply key_leb_antisym.
      - by destruct (key_leb p (_, _)).
      - by destruct (key_leb (_, _) p). }
    simpl in Hp. by rewrite !bool_decide_eq_true_2 in Hp.
Qed.

Definition mem_rep (s : InMemoryStore) (v : StoreView) : Prop :=
  v = mkStoreView (mem_daemons s) (mem_dataflows s) (mem_builds s) (mem_params s).

#[export] Instance InMemoryStore_laws : StoreLaws InMemoryStore.
Proof.
  refine {| store_rep := mem_rep |}; unfold mem_rep; intros; subst;
    try solve [unfold writes, reads; simpl; auto using @values_perm].
  - split; [done|]. simpl. apply find_machine. intros id. by rewrite elem_of_btree_keys.
  - unfold writes. simpl. unfold mem_put_node_param.
    by destruct (validate_param_limits key value) as [[]| |].
  - simpl. unfold mem_put_node_param. by destruct (validate_param_limits key value) as [[]| |].
  - split; [done|]. simpl. rewrite mem_list_node_params_block. apply node_params_intro.
    + eapply sublist_NoDup; [apply (NoDup_btree_keys (mem_params s))|]. apply fmap_sublist, sublist_filter.
    + intros [[d n] k] value. rewrite elem_of_retain, elem_of_btree_iter. unfold of_node. simpl.
      rewrite andb_true_iff, !bool_decide_eq_true. naive_solver.
Defined.

(** ** The redb store satisfies the laws *)

(** A table represents a map when its entries are the encoded entries of the map. *)
Definition table_rep {K V A B} `{Countable K, Countable A} (ek : K → res A) (ev : V → res B)
    (tbl : gmap A B) (m : gmap K V) : Prop :=
  (∀ x v, m !! x = Some v → ∃ k b, ek x = Ok k ∧ ev v = Ok b ∧ tbl !! k = Some b) ∧
  (∀ k b, tbl !! k = Some b → ∃ x v, ek x = Ok k ∧ ev v = Ok b ∧ m !! x = Some v).

Section table.
Context {K V A B : Type} `{Countable K, Countable A} (ek : K → res A) (ev : V → res B).
Context (ek_inj : ∀ x y k, ek x = Ok k → ek y = Ok k → x = y).
Implicit Types (tbl : gmap A B) (m : gmap K V).

Lemma table_rep_empty : table_rep ek ev ∅ ∅.
Proof. split; intros ?? Hl; by rewrite lookup_empty in Hl. Qed.

Lemma table_rep_insert tbl m x v k b :
  table_rep ek ev tbl m → ek x = Ok k → ev v = Ok b →
  table_rep ek ev (<[k := b]> tbl) (<[x := v]> m).
Proof.
  intros [Hm Ht] Hk Hb. split.
  - intros y w [[<- <-]|[Hne (k' & b' & ? & ? & ?)%Hm]]%lookup_insert_Some.
    + exists k, b. by rewrite lookup_insert_eq.
    + exists k', b'. rewrite lookup_insert_ne by (intros <-; apply Hne; eauto). done.
  - intros k' b' [[<- <-]|[Hne (y & w & ? & ? & ?)%Ht]]%lookup_insert_Some.
    + exists x, v. by rewrite lookup_insert_eq.
    + exists y, w. rewrite lookup_insert_ne by (intros <-; congruence). done.
Qed.

Lemma table_rep_delete tbl m x k :
  table_rep ek ev tbl m → ek x = Ok k → table_rep ek ev (delete k tbl) (delete x m).
Proof.
  intros [Hm Ht] Hk. split.
  - intros y w [Hne (k' & b' & ? & ? & ?)%Hm]%lookup_delete_Some.
    exists k', b'. rewrite lookup_delete_ne by (intros <-; apply Hne; eauto). done.
  - intros k' b' [Hne (y & w & ? & ? & ?)%Ht]%lookup_delete_Some.
    exists y, w. rewrite lookup_delete_ne by (intros <-; congruence). done.
Qed.

Lemma table_rep_lookup tbl m x k :
  table_rep ek ev tbl m → ek x = Ok k →
  match tbl !! k with Some b => ∃ v, m !! x = Some v ∧ ev v = Ok b | None => m !! x = None end.
Proof.
  intros [Hm Ht] Hk. destruct (tbl !! k) as [b|] eqn:E.
  - destruct (Ht _ _ E) as (y & v & Hy & ? & ?). rewrite (ek_inj x y k) by done. eauto.
  - destruct (m !! x) as [v|] eqn:Ex; [|done].
    destruct (Hm _ _ Ex) as (k' & b & Hk' & ? & ?). rewrite Hk in Hk'. by simplify_eq.
Qed.

(** Any enumeration of the table enumerates the map. *)
Lemma table_rep_entries tbl m l :
  table_rep ek ev tbl m → l ≡ₚ map_to_list tbl →
  ∃ l', l' ≡ₚ map_to_list m ∧ Forall2 (λ e e', ek e'.1 = Ok e.1 ∧ ev e'.2 = Ok e.2) l l'.
Proof.
  intros [Hm Ht] Hl.
  assert (∀ e, e ∈ l → ∃ e', (ek e'.1 = Ok e.1 ∧ ev e'.2 = Ok e.2) ∧ m !! e'.1 = Some e'.2) as Hex.
  { intros [k b]. rewrite Hl, elem_of_map_to_list. intros (x & v & ? & ? & ?)%Ht. by exists (x, v). }
  assert (∃ l', Forall2 (λ e e', (ek e'.1 = Ok e.1 ∧ ev e'.2 = Ok e.2) ∧ m !! e'.1 = Some e'.2) l l')
    as [l' Hl'].
  { clear Hl. induction l as [|e l IH]; [by exists []|].
    destruct (Hex e) as [e' He']; [constructor|].
    destruct IH as [l' Hl']; [intros; apply Hex; by constructor|]. exists (e' :: l'). by constructor. }
  exists l'. split; [|eapply Forall2_impl; [exact Hl'|]; naive_solver].
  apply NoDup_Permutation; [|apply NoDup_map_to_list|].
  - apply NoDup_fmap_1 with fst. apply (NoDup_fmap_1 ek).
    replace (ek <$> l'.*1) with (Ok <$> l.*1); [|].
    + apply NoDup_fmap_2; [intros ?? [=]; done|]. rewrite Hl. apply NoDup_fst_map_to_list.
    + clear -Hl'. induction Hl' as [|e e' l l' [[? ?] ?] _ IH]; [done|]. csimpl. by f_equal.
  - intros [x v]. rewrite elem_of_map_to_list. split.
    + intros [i Hi]%list_elem_of_lookup. by destruct (Forall2_lookup_r _ _ _ _ _ Hl' Hi) as (e & _ & _ & ?).
    + intros Hx. destruct (Hm _ _ Hx) as (k & b & Hk & Hb & Htb).
      assert ((k, b) ∈ l) as [i Hi]%list_elem_of_lookup by by rewrite Hl, elem_of_map_to_list.
      destruct (Forall2_lookup_l _ _ _ _ _ Hl' Hi) as ([x' v'] & Hi' & [Hk' _] & Hx'). simpl in *.
      assert (x' = x) as -> by (eapply ek_inj; [apply Hk'|done]).
      rewrite Hx in Hx'. injection Hx' as <-. by apply list_elem_of_lookup_2 with i.
Qed.
End table.

(** *** Parameter keys *)

Definition plain (s : string) : Prop :=
  string_forall (λ c, negb (bool_decide (c = KEY_SEPARATOR))) s = true.

Lemma plain_split a b x y :
  plain a → plain b →
  String.append a (String KEY_SEPARATOR x) = String.append b (String KEY_SEPARATOR y) →
  a = b ∧ x = y.
Proof.
  unfold plain. revert b.
  induction a as [|c a IH]; intros [|d b]; cbn [string_forall String.append];
    rewrite ?andb_true_iff, ?negb_true_iff, ?bool_decide_eq_false.
  - intros _ _ [=]. done.
  - intros _ [Hd _] [=]. congruence.
  - intros [Hc _] _ [=]. congruence.
  - intros [_ Ha] [_ Hb] [= -> Heq]. destruct (IH b Ha Hb Heq) as [-> ->]. done.
Qed.

Lemma check_no_separator_Ok str label : check_no_separator str label = Ok tt ↔ plain str.
Proof. unfold check_no_separator, plain. by destruct (string_forall _ str). Qed.

Lemma string_leb_append p r : key_leb p (String.append p r) = true.
Proof.
  unfold key_leb, string_KeyOrd. induction p as [|a p IH]; [by destruct r|].
  rewrite string_append_cons, string_leb_cons. by destruct (N.compare_spec (N_of_ascii a) (N_of_ascii a)); try lia.
Qed.

(** A string between a prefix and one of its extensions has the prefix. *)
Lemma string_between p k r :
  key_leb p k = true → key_leb k (String.append p r) = true → is_Some (str_strip_prefix p k).
Proof.
  unfold key_leb, string_KeyOrd. revert k. induction p as [|a p IH]; intros k; [by eexists|].
  destruct k as [|b k]; [done|]. cbn [str_strip_prefix].
  rewrite string_append_cons, !string_leb_cons.
  destruct (N.compare_spec (N_of_ascii a) (N_of_ascii b)) as [E|E|E],
    (N.compare_spec (N_of_ascii b) (N_of_ascii a)); try done; try lia.
  intros Hp Hk. rewrite bool_decide_eq_true_2; [by apply IH|].
  rewrite <- (ascii_N_embedding a), E. apply ascii_N_embedding.
Qed.

(** The scan finds every entry with the prefix. *)
Lemma scan_prefix_spec p (m : gmap string Bytes) key value :
  (key, value) ∈ scan_prefix p (btree_range_from p m) ↔ m !! String.append p key = Some value.
Proof.
  set (has := λ k, bool_decide (is_Some (str_strip_prefix p k))).
  assert (∀ l, scan_prefix p l =
      (λ e : string * Bytes, (default EmptyString (str_strip_prefix p e.1), e.2)) <$>
        take_while (λ e, has e.1) l) as ->.
  { induction l as [|[k b] l IH]; [done|]. cbn. unfold has at 1.
    destruct (str_strip_prefix p k) as [r|] eqn:E; [|done]. cbn. by rewrite E, IH. }
  rewrite (scan_block has).
  - rewrite list_elem_of_fmap. split.
    + intros ([k b] & Heq & [Hh Hin]%elem_of_retain). apply elem_of_btree_iter in Hin.
      cbn in *. apply bool_decide_eq_true in Hh as [r Hr]. rewrite Hr in Heq.
      apply str_strip_prefix_Some in Hr. by simplify_eq/=.
    + intros Hm. exists (String.append p key, value).
      assert (str_strip_prefix p (String.append p key) = Some key) as Hs
        by by apply str_strip_prefix_Some.
      cbn [fst snd]. rewrite Hs. split; [done|]. rewrite elem_of_retain, elem_of_btree_iter.
      split; [|done]. unfold has. cbn [fst]. rewrite Hs. by apply bool_decide_eq_true_2.
  - intros k [r ->%str_strip_prefix_Some]%bool_decide_eq_true. apply string_leb_append.
  - intros k k' Hs Hk Hle. apply bool_decide_eq_false. intros [r ->%str_strip_prefix_Some].
    apply bool_decide_eq_false in Hk. apply Hk. by eapply string_between.
Qed.

Lemma NoDup_scan_prefix p (m : gmap string Bytes) : NoDup (scan_prefix p (btree_range_from p m)).*1.
Proof.
  assert (NoDup (btree_range_from p m).*1) as Hnd.
  { eapply sublist_NoDup; [apply (NoDup_btree_keys m)|]. apply fmap_sublist, sublist_filter. }
  revert Hnd. generalize (btree_range_from p m) as l.
  induction l as [|[k b] l IH]; cbn; [constructor|]. intros [Hk Hl]%NoDup_cons.
  destruct (str_strip_prefix p k) as [r|] eqn:E; [|constructor]. cbn.
  constructor; [|auto]. intros Hr. apply Hk. apply str_strip_prefix_Some in E as ->.
  clear -Hr. induction l as [|[k b] l IH]; cbn in *; [by apply elem_of_nil in Hr|].
  destruct (str_strip_prefix p k) as [r'|] eqn:E; [|by apply elem_of_nil in Hr]. cbn in Hr.
  apply str_strip_prefix_Some in E as ->. apply elem_of_cons in Hr as [->|Hr]; [left|right; auto].
Qed.

Section redb_laws.
Context `{CodecLaws DaemonId, CodecLaws DaemonInfo, CodecLaws DataflowRecord, CodecLaws BuildRecord}.
Context `{UuidFormatLaws}.

Definition param_key (k : ParamKey) : res string := make_param_key k.1.1 k.1.2 k.2.
Definition uuid_key (u : Uuid) : res Bytes := Ok (uuid_as_bytes u).

Lemma make_param_key_Ok d n k str :
  make_param_key d n k = Ok str ↔
  plain n ∧ plain k ∧
  str = String.append (uuid_to_string d)
          (String KEY_SEPARATOR (String.append n (String KEY_SEPARATOR k))).
Proof.
  unfold make_param_key. rewrite res_bind_Ok. setoid_rewrite res_bind_Ok.
  rewrite <- (check_no_separator_Ok n "node_id"), <- (check_no_separator_Ok k "param key").
  split; [intros ([] & ? & [] & ? & [=]); auto|intros (? & ? & ->)].
  exists tt. split; [done|]. by exists tt.
Qed.

Lemma string_append_assoc a b c :
  String.append (String.append a b) c = String.append a (String.append b c).
Proof. induction a as [|x a IH]; [done|]. by rewrite !string_append_cons, IH. Qed.

Lemma param_prefix_append u n key :
  String.append (String.append u (String KEY_SEPARATOR
      (String.append n (String KEY_SEPARATOR EmptyString)))) key
  = String.append u (String KEY_SEPARATOR (String.append n (String KEY_SEPARATOR key))).
Proof. by rewrite string_append_assoc, string_append_cons, string_append_assoc. Qed.

Lemma param_key_inj x y str : param_key x = Ok str → param_key y = Ok str → x = y.
Proof.
  destruct x as [[d n] k], y as [[d' n'] k']. unfold param_key. cbn [fst snd].
  intros (Hn & Hk & ->)%make_param_key_Ok (Hn' & Hk' & Heq)%make_param_key_Ok.
  apply plain_split in Heq as [Hd Heq]; [|apply uuid_to_string_plain..].
  apply plain_split in Heq as [-> ->]; [|done..].
  by rewrite (uuid_to_string_inj _ _ Hd).
Qed.

Lemma uuid_key_inj x y b : uuid_key x = Ok b → uuid_key y = Ok b → x = y.
Proof. intros [= Hx] [= Hy]. apply uuid_as_bytes_inj. congruence. Qed.

Record redb_rep (s : RedbStore) (v : StoreView) : Prop := {
  rep_daemons : table_rep encode encode (tbl_daemons s) (view_daemons v);
  rep_keyed : daemons_keyed v;
  rep_dataflows : table_rep uuid_key encode (tbl_dataflows s) (view_dataflows v);
  rep_builds : table_rep uuid_key encode (tbl_builds s) (view_builds v);
  rep_params : table_rep param_key Ok (tbl_node_params s) (view_params v)
}.

Lemma redb_rep_new faults : redb_rep (redb_new faults) empty_view.
Proof. split; try apply table_rep_empty. intros ?? Hl. cbn in Hl. by rewrite lookup_empty in Hl. Qed.

Lemma redb_rep_faults s v faults : redb_rep s v → redb_rep {| s with txn_faults := faults |} v.
Proof. intros []. by split. Qed.

Lemma write_txn_law (f : RedbStore → RedbStore) (g : StoreView → StoreView) s v :
  redb_rep s v → (∀ s', redb_rep s' v → redb_rep (f s') (g v)) →
  writes redb_rep v g (write_txn f s).
Proof.
  intros Hs Hf. unfold writes, write_txn.
  destruct (txn_faults s) as [|[] faults]; simpl; eauto using redb_rep_faults.
Qed.

Lemma read_txn_law {A} (f : RedbStore → res A) (P : A → Prop) s v :
  redb_rep s v → (∀ a, f s = Ok a → P a) → reads redb_rep v P (read_txn f s).
Proof.
  intros Hs Hf. unfold reads, read_txn.
  destruct (txn_faults s) as [|[] faults]; simpl; split; eauto using redb_rep_faults;
    destruct (f s) eqn:E; auto.
Qed.

Lemma with_key_writes {K} (key : res K) f g s v :
  redb_rep s v → (∀ k, key = Ok k → writes redb_rep v g (f k s)) →
  writes redb_rep v g (with_key key f s).
Proof. intros Hs Hf. unfold with_key. destruct key; auto. Qed.

Lemma with_key_reads {K A} (key : res K) f (P : A → Prop) s v :
  redb_rep s v → (∀ k, key = Ok k → reads redb_rep v P (f k s)) →
  reads redb_rep v P (with_key key f s).
Proof. intros Hs Hf. unfold with_key. destruct key; auto; by split. Qed.

(** Reading one encoded record, and all of them. *)
Lemma lookup_decode {K V A} `{CodecLaws V} `{Countable K, Countable A} (ek : K → res A)
    (tbl : gmap A Bytes) (m : gmap K V) x k (o : option V) :
  (∀ x y k, ek x = Ok k → ek y = Ok k → x = y) →
  table_rep ek encode tbl m → ek x = Ok k →
  match tbl !! k with Some b => Some <$> decode b | None => Ok None end = Ok o →
  o = m !! x.
Proof.
  intros Hinj Hrep Hk. pose proof (table_rep_lookup ek encode Hinj tbl m x k Hrep Hk) as Hl.
  destruct (tbl !! k) as [b|]; [|congruence]. destruct Hl as (v & -> & Hb).
  destruct (decode b) as [w| |] eqn:E; [|done..]. intros [= <-].
  f_equal. symmetry. by eapply decode_encode.
Qed.

Lemma list_decode {K V A} `{CodecLaws V} `{Countable K, Countable A, !KeyOrd A} (ek : K → res A)
    (tbl : gmap A Bytes) (m : gmap K V) l :
  (∀ x y k, ek x = Ok k → ek y = Ok k → x = y) →
  table_rep ek encode tbl m → mapM decode (btree_iter tbl).*2 = Ok l → l ≡ₚ values m.
Proof.
  intros Hinj Hrep Hl.
  destruct (table_rep_entries ek encode Hinj tbl m (btree_iter tbl) Hrep (btree_iter_perm tbl))
    as (l' & Hperm & Hall).
  unfold values. rewrite <- Hperm. apply reflexive_eq. clear Hperm.
  revert l Hl. induction Hall as [|e e' es es' [_ He] _ IH]; intros l; csimpl; [by intros [=]|].
  intros (w & Hw & (ws & Hws & [= <-])%res_bind_Ok)%res_bind_Ok.
  f_equal; [symmetry; by eapply decode_encode|by apply IH].
Qed.

Lemma daemon_id_encode_inj (x y : DaemonId) k : encode x = Ok k → encode y = Ok k → x = y.
Proof. apply encode_inj. Qed.

Lemma redb_list_daemons_law s v :
  redb_rep s v → reads redb_rep v (λ l, l ≡ₚ values (view_daemons v)) (redb_list_daemons s).
Proof.
  intros Hs. apply read_txn_law; [done|]. intros l. apply list_decode with (ek := encode);
    [apply daemon_id_encode_inj|apply Hs].
Qed.

Lemma redb_get_daemon_by_machine_law machine s v :
  redb_rep s v → reads redb_rep v (daemon_of_machine v machine) (redb_get_daemon_by_machine machine s).
Proof.
  intros Hs. unfold redb_get_daemon_by_machine.
  destruct (redb_list_daemons_law s v Hs) as [Hs' Hl].
  destruct (redb_list_daemons s) as [[l| |] s']; simpl in *; [|by split..]. split; [done|]. cbn.
  replace (info_daemon_id <$> head _)
    with (head (retain (λ id, matches_machine_id id machine) (info_daemon_id <$> l))).
  - apply find_machine. intros id. rewrite Hl, list_elem_of_fmap. setoid_rewrite list_elem_of_fmap.
    split.
    + intros (? & -> & [id' info] & -> & Hin%elem_of_map_to_list). cbn.
      rewrite (rep_keyed _ _ Hs _ _ Hin). eauto.
    + intros [info Hinfo]. exists info. split; [symmetry; by apply (rep_keyed _ _ Hs)|].
      exists (id, info). by rewrite elem_of_map_to_list.
  - clear. induction l as [|info l IH]; [done|]. csimpl. rewrite !retain_cons.
    by destruct (matches_machine_id (info_daemon_id info) machine).
Qed.

Lemma redb_list_node_params_law dataflow_id node_id s v :
  redb_rep s v →
  reads redb_rep v (node_params v dataflow_id node_id) (redb_list_node_params dataflow_id node_id s).
Proof.
  intros Hs. apply with_key_reads; [done|]. intros prefix ([] & Hn & [= <-])%res_bind_Ok.
  apply check_no_separator_Ok in Hn. apply read_txn_law; [done|]. intros l [= <-].
  split; [apply NoDup_scan_prefix|]. intros key value. rewrite scan_prefix_spec.
  destruct (rep_params _ _ Hs) as [Hm Ht]. split.
  - intros (([d n] & k) & w & (Hn' & Hk & Heq)%make_param_key_Ok & [= ->] & Hv)%Ht. cbn in *.
    rewrite param_prefix_append in Heq.
    apply plain_split in Heq as [Hd Heq]; [|apply uuid_to_string_plain..].
    apply plain_split in Heq as [-> ->]; [|done..]. by rewrite (uuid_to_string_inj _ _ Hd).
  - intros (str & w & (_ & Hk & ->)%make_param_key_Ok & [= ->] & Hv)%Hm. cbn in *.
    by rewrite param_prefix_append.
Qed.

(** The steps shared by the operations on one table: an insertion and a deletion under an
    encoded key, a lookup, and a listing. *)
Ltac redb_insert inj :=
  intros; repeat (apply with_key_writes; [done|intros ? ?]);
  apply write_txn_law; [done|]; intros ? []; split; try done; unfold daemons_keyed; cbn;
  try (apply table_rep_insert; [apply inj|done..]).
Ltac redb_delete inj :=
  intros; repeat (apply with_key_writes; [done|intros ? ?]);
  apply write_txn_law; [done|]; intros ? []; split; try done; unfold daemons_keyed; cbn;
  try (apply table_rep_delete; [apply inj|done..]).
Ltac redb_get key inj :=
  intros * Hs; repeat (apply with_key_reads; [done|intros ? ?]); apply read_txn_law; [done|];
  intros ?; apply lookup_decode with (ek := key); [apply inj|apply Hs|done].
Ltac redb_list key inj :=
  intros * Hs; apply read_txn_law; [done|]; intros ?;
  apply list_decode with (ek := key); [apply inj|apply Hs].

#[export] Instance RedbStore_laws : StoreLaws RedbStore.
Proof.
  refine {| store_rep := redb_rep |}.
  - redb_insert daemon_id_encode_inj. intros id i [[<- <-]|[_ ?]]%lookup_insert_Some; auto.
  - redb_delete daemon_id_encode_inj. intros id' i [_ ?]%lookup_delete_Some; auto.
  - apply redb_list_daemons_law.
  - redb_get (encode (T:=DaemonId)) daemon_id_encode_inj.
  - apply redb_get_daemon_by_machine_law.
  - redb_insert uuid_key_inj.
  - redb_get uuid_key uuid_key_inj.
  - redb_list uuid_key uuid_key_inj.
  - redb_delete uuid_key_inj.
  - redb_insert uuid_key_inj.
  - redb_get uuid_key uuid_key_inj.
  - redb_list uuid_key uuid_key_inj.
  - redb_delete uuid_key_inj.
  - redb_insert param_key_inj.
  - intros d n key value s Hlim. cbn. unfold redb_put_node_param, with_key at 1.
    by destruct (validate_param_limits key value) as [[]| |].
  - intros d n key s v Hs. apply with_key_reads; [done|]. intros k Hk. apply read_txn_law; [done|].
    intros o [= <-].
    pose proof (table_rep_lookup param_key Ok param_key_inj _ _ (d, n, key) k (rep_params _ _ Hs) Hk)
      as Hl.
    destruct (tbl_node_params s !! k); [destruct Hl as (w & -> & [= ->])|]; done.
  - apply redb_list_node_params_law.
  - redb_delete param_key_inj.
Defined.
End redb_laws.

(** ** Runs of operations

    A store is used through a sequence of operations.  The specification of a run works on
    the view: an operation that reports success takes effect and gives the answer the view
    determines (listings in any order), and one that fails has no effect. *)

Inductive StoreOp :=
| RegisterDaemon (info : DaemonInfo)
| UnregisterDaemon (id : DaemonId)
| ListDaemons
| GetDaemon (id : DaemonId)
| GetDaemonByMachine (machine : string)
| PutDataflow (record : DataflowRecord)
| GetDataflow (uuid : Uuid)
| ListDataflows
| DeleteDataflow (uuid : Uuid)
| PutBuild (record : BuildRecord)
| GetBuild (id : Uuid)
| ListBuilds
| DeleteBuild (id : Uuid)
| PutNodeParam (dataflow_id : Uuid) (node_id : NodeId) (key : string) (value : Bytes)
| GetNodeParam (dataflow_id : Uuid) (node_id : NodeId) (key : string)
| ListNodeParams (dataflow_id : Uuid) (node_id : NodeId)
| DeleteNodeParam (dataflow_id : Uuid) (node_id : NodeId) (key : string).

Inductive StoreReply :=
| RUnit
| RDaemons (l : list DaemonInfo)
| RDaemon (o : option DaemonInfo)
| RDaemonId (o : option DaemonId)
| RDataflow (o : option DataflowRecord)
| RDataflows (l : list DataflowRecord)
| RBuild (o : option BuildRecord)
| RBuilds (l : list BuildRecord)
| RParam (o : option Bytes)
| RParams (l : list (string * Bytes)).

Section runs.
Context {S : Type} `{CoordinatorStore S}.

Definition reply_as {A} (f : A → StoreReply) (out : res A * S) : res StoreReply * S :=
  (f <$> out.1, out.2).

Definition run_op (op : StoreOp) (s : S) : res StoreReply * S :=
  match op with
  | RegisterDaemon info => reply_as (λ _, RUnit) (register_daemon info s)
  | UnregisterDaemon id => reply_as (λ _, RUnit) (unregister_daemon id s)
  | ListDaemons => reply_as RDaemons (list_daemons s)
  | GetDaemon id => reply_as RDaemon (get_daemon id s)
  | GetDaemonByMachine machine => reply_as RDaemonId (get_daemon_by_machine machine s)
  | PutDataflow record => reply_as (λ _, RUnit) (put_dataflow record s)
  | GetDataflow uuid => reply_as RDataflow (get_dataflow uuid s)
  | ListDataflows => reply_as RDataflows (list_dataflows s)
  | DeleteDataflow uuid => reply_as (λ _, RUnit) (delete_dataflow uuid s)
  | PutBuild record => reply_as (λ _, RUnit) (put_build record s)
  | GetBuild id => reply_as RBuild (get_build id s)
  | ListBuilds => reply_as RBuilds (list_builds s)
  | DeleteBuild id => reply_as (λ _, RUnit) (delete_build id s)
  | PutNodeParam d n key value => reply_as (λ _, RUnit) (put_node_param d n key value s)
  | GetNodeParam d n key => reply_as RParam (get_node_param d n key s)
  | ListNodeParams d n => reply_as RParams (list_node_params d n s)
  | DeleteNodeParam d n key => reply_as (λ _, RUnit) (delete_node_param d n key s)
  end.

Fixpoint run_ops (ops : list StoreOp) (s : S) : list (res StoreReply) * S :=
  match ops with
  | [] => ([], s)
  | op :: ops =>
      let '(r, s) := run_op op s in
      let '(rs, s) := run_ops ops s in
      (r :: rs, s)
  end.
End runs.

Definition spec_effect (op : StoreOp) : StoreView → StoreView :=
  match op with
  | RegisterDaemon info => upd_view_daemons <[info_daemon_id info := info]>
  | UnregisterDaemon id => upd_view_daemons (delete id)
  | PutDataflow record => upd_view_dataflows <[record_uuid record := record]>
  | DeleteDataflow uuid => upd_view_dataflows (delete uuid)
  | PutBuild record => upd_view_builds <[build_record_id record := record]>
  | DeleteBuild id => upd_view_builds (delete id)
  | PutNodeParam d n key value => upd_view_params <[(d, n, key) := value]>
  | DeleteNodeParam d n key => upd_view_params (delete (d, n, key))
  | _ => id
  end.

Definition spec_reply (v : StoreView) (op : StoreOp) (reply : StoreReply) : Prop :=
  match op, reply with
  | ListDaemons, RDaemons l => l ≡ₚ values (view_daemons v)
  | GetDaemon id, RDaemon o => o = view_daemons v !! id
  | GetDaemonByMachine machine, RDaemonId o => daemon_of_machine v machine o
  | GetDataflow uuid, RDataflow o => o = view_dataflows v !! uuid
  | ListDataflows, RDataflows l => l ≡ₚ values (view_dataflows v)
  | GetBuild id, RBuild o => o = view_builds v !! id
  | ListBuilds, RBuilds l => l ≡ₚ values (view_builds v)
  | GetNodeParam d n key, RParam o => o = view_params v !! (d, n, key)
  | ListNodeParams d n, RParams l => node_params v d n l
  | RegisterDaemon _, RUnit | UnregisterDaemon _, RUnit | PutDataflow _, RUnit
  | DeleteDataflow _, RUnit | PutBuild _, RUnit | DeleteBuild _, RUnit
  | DeleteNodeParam _ _ _, RUnit => True
  | PutNodeParam _ _ key value, RUnit => validate_param_limits key value = Ok tt
  | _, _ => False
  end.

Inductive spec_run : StoreView → list StoreOp → list (res StoreReply) → StoreView → Prop :=
| spec_run_nil v : spec_run v [] [] v
| spec_run_ok v op ops reply replies v' :
    spec_reply v op reply →
    spec_run (spec_effect op v) ops replies v' →
    spec_run v (op :: ops) (Ok reply :: replies) v'
| spec_run_failed v op ops r replies v' :
    (∀ reply, r ≠ Ok reply) →
    spec_run v ops replies v' →
    spec_run v (op :: ops) (r :: replies) v'.

Section run_laws.
Context {S : Type} `{StoreLaws S}.

Lemma reads_spec {A} op (f : A → StoreReply) (P : A → Prop) v out :
  (∀ a, P a → spec_reply v op (f a)) → (∀ v, spec_effect op v = v) →
  reads store_rep v P out →
  match (reply_as (S:=S) f out).1 with
  | Ok reply => spec_reply v op reply ∧ store_rep (reply_as f out).2 (spec_effect op v)
  | _ => store_rep (reply_as f out).2 v
  end.
Proof.
  intros Hf He [Hs HP]. unfold reply_as. destruct out as [[a| |] s]; cbn in *; [|done..].
  rewrite He. auto.
Qed.

Lemma writes_spec op v (out : res unit * S) :
  (out.1 = Ok tt → spec_reply v op RUnit) →
  writes store_rep v (spec_effect op) out →
  match (reply_as (λ _, RUnit) out).1 with
  | Ok reply => spec_reply v op reply ∧ store_rep (reply_as (λ _, RUnit) out).2 (spec_effect op v)
  | _ => store_rep (reply_as (λ _, RUnit) out).2 v
  end.
Proof.
  intros Hf Hs. unfold reply_as, writes in *. destruct out as [[[]| |] s]; cbn in *; auto.
Qed.

Lemma run_op_spec op s v :
  store_rep s v →
  match (run_op op s).1 with
  | Ok reply => spec_reply v op reply ∧ store_rep (run_op op s).2 (spec_effect op v)
  | _ => store_rep (run_op op s).2 v
  end.
Proof.
  intros Hs. destruct op; cbn [run_op];
    first [apply writes_spec; [try done|] | eapply reads_spec; [|done|]];
    try (first [ exact (register_daemon_law _ _ _ Hs) | exact (unregister_daemon_law _ _ _ Hs)
               | exact (list_daemons_law _ _ Hs) | exact (get_daemon_law _ _ _ Hs)
               | exact (get_daemon_by_machine_law _ _ _ Hs) | exact (put_dataflow_law _ _ _ Hs)
               | exact (get_dataflow_law _ _ _ Hs) | exact (list_dataflows_law _ _ Hs)
               | exact (delete_dataflow_law _ _ _ Hs) | exact (put_build_law _ _ _ Hs)
               | exact (get_build_law _ _ _ Hs) | exact (list_builds_law _ _ Hs)
               | exact (delete_build_law _ _ _ Hs) | exact (put_node_param_law _ _ _ _ _ _ Hs)
               | exact (get_node_param_law _ _ _ _ _ Hs) | exact (list_node_params_law _ _ _ _ Hs)
               | exact (delete_node_param_law _ _ _ _ _ Hs) ]); try (cbn; done).
  cbn. destruct (validate_param_limits key value) as [[]|e|] eqn:E; [done|..];
    rewrite put_node_param_limits by (rewrite E; done); cbn; by rewrite E.
Qed.

Lemma run_ops_spec ops s v :
  store_rep s v → ∃ v', store_rep (run_ops ops s).2 v' ∧ spec_run v ops (run_ops ops s).1 v'.
Proof.
  revert s v. induction ops as [|op ops IH]; intros s v Hs; [eauto using spec_run_nil|].
  pose proof (run_op_spec op s v Hs) as Hop. cbn. destruct (run_op op s) as [r s1].
  destruct r as [reply|e|]; cbn in Hop.
  - destruct Hop as [Hr Hs1]. destruct (IH _ _ Hs1) as (v' & ? & ?).
    destruct (run_ops ops s1). exists v'. split; [done|]. by constructor.
  - destruct (IH _ _ Hop) as (v' & ? & ?). destruct (run_ops ops s1). exists v'.
    split; [done|]. by constructor.
  - destruct (IH _ _ Hop) as (v' & ? & ?). destruct (run_ops ops s1). exists v'.
    split; [done|]. by constructor.
Qed.
End run_laws.

(** Answers that agree up to the order of listings and the choice among several daemons of
    one machine. *)
Definition reply_equiv (r1 r2 : StoreReply) : Prop :=
  match r1, r2 with
  | RDaemons l1, RDaemons l2 => l1 ≡ₚ l2
  | RDataflows l1, RDataflows l2 => l1 ≡ₚ l2
  | RBuilds l1, RBuilds l2 => l1 ≡ₚ l2
  | RParams l1, RParams l2 => l1 ≡ₚ l2
  | RDaemonId o1, RDaemonId o2 => is_Some o1 ↔ is_Some o2
  | _, _ => r1 = r2
  end.

Lemma node_params_unique v d n l1 l2 : node_params v d n l1 → node_params v d n l2 → l1 ≡ₚ l2.
Proof.
  intros [Hnd1 H1] [Hnd2 H2]. apply NoDup_Permutation; [by eapply NoDup_fmap_1..|].
  intros [key value]. by rewrite H1, H2.
Qed.

Lemma daemon_of_machine_agree v machine o1 o2 :
  daemon_of_machine v machine o1 → daemon_of_machine v machine o2 → is_Some o1 → is_Some o2.
Proof.
  destruct o1 as [id1|], o2 as [id2|]; cbn; eauto.
  intros [Hm Hs] Hnone _. by rewrite Hnone in Hm.
Qed.

Lemma spec_reply_equiv v op r1 r2 : spec_reply v op r1 → spec_reply v op r2 → reply_equiv r1 r2.
Proof.
  destruct op, r1; try done; destruct r2; try done; cbn;
    try (intros -> ->; done); eauto using node_params_unique.
  intros H1 H2. split; eauto using daemon_of_machine_agree.
Qed.

Lemma mem_op_succeeds v op reply (s : InMemoryStore) :
  spec_reply v op reply → ∃ reply', (run_op op s).1 = Ok reply'.
Proof.
  destruct op; try (intros _; by eexists). destruct reply; try done. cbn.
  unfold reply_as, mem_put_node_param. intros ->. by eexists.
Qed.

Section stores.
Context `{CodecLaws DaemonId, CodecLaws DaemonInfo, CodecLaws DataflowRecord, CodecLaws BuildRecord}.
Context `{UuidFormatLaws}.

(** C9. The redb store implements the abstract store, whatever transactions fail: from an
    empty database, every operation that reports success gives the answer determined by the
    earlier successful operations, and one that fails leaves everything as it was.  In
    particular a parameter is found again under its node and dataflow and under no other,
    although all parameters share one table of composite string keys that is scanned by
    prefix. *)
Theorem redb_refines_store (ops : list StoreOp) (faults : list bool) :
  ∃ v, spec_run empty_view ops (run_ops ops (redb_new faults)).1 v.
Proof.
  destruct (run_ops_spec ops (redb_new faults) empty_view) as (v & _ & Hv);
    [apply redb_rep_new|by exists v].
Qed.

Lemma stores_agree ops (r : RedbStore) (m : InMemoryStore) v :
  redb_rep r v → mem_rep m v →
  Forall (λ x, ∃ reply, x = Ok reply) (run_ops ops r).1 →
  Forall2 (λ x y, ∃ a b, x = Ok a ∧ y = Ok b ∧ reply_equiv a b)
    (run_ops ops r).1 (run_ops ops m).1.
Proof.
  revert r m v. induction ops as [|op ops IH]; intros r m v Hr Hm; [constructor|].
  pose proof (run_op_spec (S:=RedbStore) op r v Hr) as Hrop.
  pose proof (run_op_spec (S:=InMemoryStore) op m v Hm) as Hmop. cbn.
  destruct (run_op op r) as [x r1]. destruct (run_op op m) as [y m1] eqn:Em.
  destruct (run_ops ops r1) as [xs r2] eqn:Er1. destruct (run_ops ops m1) as [ys m2] eqn:Em1.
  cbn. intros [[a ->] Hall]%Forall_cons. cbn in Hrop. destruct Hrop as [Ha Hr1].
  destruct (mem_op_succeeds v op a m Ha) as [b Hb]. rewrite Em in Hb. cbn in *. subst y.
  destruct Hmop as [Hb Hm1]. constructor.
  - exists a, b. eauto using spec_reply_equiv.
  - specialize (IH r1 m1 _ Hr1 Hm1). rewrite Er1, Em1 in IH. by apply IH.
Qed.

(** The two stores are interchangeable for the coordinator: any sequence of operations
    that the redb store carries out without an error gives the same answers on the in-memory
    store, up to the order of listings and the choice among several daemons of one machine. *)
Theorem stores_interchangeable (ops : list StoreOp) (faults : list bool) :
  Forall (λ x, ∃ reply, x = Ok reply) (run_ops ops (redb_new faults)).1 →
  Forall2 (λ x y, ∃ a b, x = Ok a ∧ y = Ok b ∧ reply_equiv a b)
    (run_ops ops (redb_new faults)).1 (run_ops ops mem_new).1.
Proof. apply (stores_agree ops _ _ empty_view); [apply redb_rep_new|done]. Qed.
End stores.

(** ** A concrete codec

    Values are written as the bits of their number in an enumeration, one byte per bit. *)

Fixpoint pos_bits (p : positive) : list bool :=
  match p with xH => [] | xO p => false :: pos_bits p | xI p => true :: pos_bits p end.
Fixpoint bits_pos (l : list bool) : positive :=
  match l with [] => xH | false :: l => xO (bits_pos l) | true :: l => xI (bits_pos l) end.

Lemma bits_pos_bits p : bits_pos (pos_bits p) = p.
Proof. induction p; cbn; congruence. Qed.

Definition bit_byte (b : bool) : Byte.byte := if b then Byte.x01 else Byte.x00.
Definition byte_bit (b : Byte.byte) : bool := bool_decide (b = Byte.x01).

Definition bits_codec {T} `{Countable T} : Codec T := {|
  encode x := Ok (bit_byte <$> pos_bits (countable.encode x));
  decode b := res_of_option "decode error" (countable.decode (bits_pos (byte_bit <$> b)))
|}.

Lemma byte_bits (l : list bool) : byte_bit <$> (bit_byte <$> l) = l.
Proof. induction l as [|[] l IH]; csimpl; by rewrite ?IH. Qed.

Lemma bits_codec_laws {T} `{Countable T} : @CodecLaws T bits_codec.
Proof.
  assert (∀ (x : T) b, @encode T bits_codec x = Ok b → @decode T bits_codec b = Ok x) as Hd.
  { intros x b [= <-]. cbn. by rewrite byte_bits, bits_pos_bits, countable.decode_encode. }
  split; intros x y b Hx Hy; apply Hd in Hx; [apply Hd in Hy|]; congruence.
Qed.

Definition bits_uuid : UuidFormat := {|
  uuid_as_bytes u := bit_byte <$> pos_bits (N.succ_pos u);
  uuid_to_string u :=
    String.string_of_list_ascii ((λ b : bool, if b then "1" else "0")%char <$> pos_bits (N.succ_pos u))
|}.

Lemma bits_uuid_laws : @UuidFormatLaws bits_uuid.
Proof.
  assert (∀ u w, pos_bits (N.succ_pos u) = pos_bits (N.succ_pos w) → u = w) as Hinj.
  { intros u w Heq. apply (f_equal bits_pos) in Heq. rewrite !bits_pos_bits in Heq.
    apply (f_equal N.pos) in Heq. rewrite !N.succ_pos_spec in Heq. lia. }
  split.
  - intros u w Heq. apply Hinj. cbn in Heq. rewrite <- (byte_bits (pos_bits (N.succ_pos u))).
    by rewrite Heq, byte_bits.
  - intros u w Heq. apply Hinj. cbn in Heq.
    apply (f_equal String.list_ascii_of_string) in Heq.
    rewrite !String.list_ascii_of_string_of_list_ascii in Heq.
    assert (Inj eq eq (λ b : bool, if b then "1" else "0")%char) by by intros [] [].
    by apply list_fmap_eq_inj in Heq.
  - intros u. cbn. by induction (pos_bits (N.succ_pos u)) as [|[] l IH].
Qed.

#[export] Instance DaemonInfo_eq_dec : EqDecision DaemonInfo.
Proof. solve_decision. Defined.
#[export] Instance DataflowRecord_eq_dec : EqDecision DataflowRecord.
Proof. solve_decision. Defined.
#[export] Instance BuildRecord_eq_dec : EqDecision BuildRecord.
Proof. solve_decision. Defined.
#[export] Instance DaemonInfo_countable : Countable DaemonInfo.
Proof.
  refine (inj_countable' (λ i, (info_daemon_id i, info_machine_id i, info_labels i))
    (λ '(a, b, c), mkDaemonInfo a b c) _). by intros [].
Defined.
#[export] Instance DataflowStatus_countable : Countable DataflowStatus.
Proof.
  refine (inj_countable'
    (λ s, match s with
          | DPending => inl 0%N | DRunning => inl 1%N | DRecovering => inl 2%N
          | DStopping => inl 3%N | DSucceeded => inl 4%N | DFailed e => inr e
          end)
    (λ x, match x with
          | inl 0%N => DPending | inl 1%N => DRunning | inl 2%N => DRecovering
          | inl 3%N => DStopping | inl _ => DSucceeded | inr e => DFailed e
          end) _). by intros [].
Defined.
#[export] Instance BuildStatus_countable : Countable BuildStatus.
Proof.
  refine (inj_countable' (λ s, match s with BPending => 0%N | BSucceeded => 1%N | BFailed => 2%N end)
    (λ n, match n with 0%N => BPending | 1%N => BSucceeded | _ => BFailed end) _). by intros [].
Defined.
#[export] Instance DataflowRecord_countable : Countable DataflowRecord.
Proof.
  refine (inj_countable'
    (λ r, (record_uuid r, record_name r, record_descriptor_json r, record_status r,
           record_daemon_ids r, record_node_to_daemon r, record_uv r, record_generation r,
           record_created_at r, record_updated_at r))
    (λ '(a, b, c, d, e, f, g, h, i, j), mkDataflowRecord a b c d e f g h i j) _). by intros [].
Defined.
#[export] Instance BuildRecord_countable : Countable BuildRecord.
Proof.
  refine (inj_countable'
    (λ r, (build_record_id r, build_status r, build_errors r, build_created_at r, build_updated_at r))
    (λ '(a, b, c, d, e), mkBuildRecord a b c d e) _). by intros [].
Defined.

(** Two nodes whose identifiers and keys concatenate to the same text. *)
Definition sample_ops : list StoreOp :=
  [PutNodeParam 7 "cam" "fps" [Byte.x01]; PutNodeParam 7 "ca" "mfps" [Byte.x02];
   RegisterDaemon (mkDaemonInfo (mkDaemonId (Some "lab"%string) 3) (Some "lab"%string) ∅);
   ListNodeParams 7 "cam"; GetDaemonByMachine "lab"; DeleteNodeParam 7 "ca" "mfps";
   GetNodeParam 7 "cam" "fps"]%N.

Lemma redb_refines_store_witness :
  ∃ v, spec_run empty_view sample_ops
    (@run_ops _ (@RedbStore_store bits_codec bits_codec bits_codec bits_codec bits_uuid)
       sample_ops (redb_new [false; true; false])).1 v.
Proof.
  exact (@redb_refines_store _ bits_codec_laws _ bits_codec_laws _ bits_codec_laws
    _ bits_codec_laws _ bits_uuid_laws sample_ops [false; true; false]).
Defined.

Lemma stores_interchangeable_witness :
  let run := @run_ops _ (@RedbStore_store bits_codec bits_codec bits_codec bits_codec bits_uuid) in
  Forall (λ x, ∃ reply, x = Ok reply) (run sample_ops (redb_new [])).1 ∧
  Forall2 (λ x y, ∃ a b, x = Ok a ∧ y = Ok b ∧ reply_equiv a b)
    (run sample_ops (redb_new [])).1 (run_ops sample_ops mem_new).1.
Proof.
  cbv zeta.
  assert (Forall (λ x, ∃ reply, x = Ok reply)
    (@run_ops _ (@RedbStore_store bits_codec bits_codec bits_codec bits_codec bits_uuid)
      sample_ops (redb_new [])).1) as Hok.
  { vm_compute. repeat constructor; by eexists. }
  split; [exact Hok|].
  exact (@stores_interchangeable _ bits_codec_laws _ bits_codec_laws _ bits_codec_laws
    _ bits_codec_laws _ bits_uuid_laws sample_ops [] Hok).
Defined.
