(* ===== verification/CoordState.v ===== *)
(** * State of the coordinator

    Models [binaries/coordinator/src/state.rs], [control.rs], [events.rs], [log_subscriber.rs]
    and [topic_subscriber.rs], and the messages the coordinator exchanges
    ([libraries/message/src/{coordinator_to_daemon,daemon_to_coordinator,cli_to_coordinator,
    coordinator_to_cli}.rs]): the table of daemon connections, the record of a running
    dataflow with its log of state mutations, and results that are cached for waiting
    clients.  A reply channel ([oneshot]) is a number, a connection or subscriber channel too;
    a JSON value is its text; timestamps of the hybrid clock are left out. *)

From Stdlib Require Import ZArith Lia Ascii.
From stdpp Require Import base gmap sets list strings.
From S2P Require Import Prelude Message Text Descriptor Store.

Abbreviation RequestId := N (only parsing).
Abbreviation ChannelId := N (only parsing).
Abbreviation NodeResult := (sum unit NodeError) (only parsing).

(** ** Messages *)

Record GitSource := mkGitSource { git_repo : string; git_commit_hash : string }.
#[export] Instance GitSource_eq_dec : EqDecision GitSource.
Proof. solve_decision. Defined.

Record BuildDataflowNodes := mkBuildNodes {
  build_build_id : Uuid;
  build_session_id : Uuid;
  build_local_working_dir : option string;
  build_git_sources : gmap NodeId GitSource;
  build_prev_git_sources : gmap NodeId GitSource;
  build_descriptor : Descriptor;
  build_nodes_on_machine : gset NodeId;
  build_uv : bool
}.

Record SpawnDataflowNodes := mkSpawnNodes {
  spawn_build_id : option Uuid;
  spawn_session_id : Uuid;
  spawn_dataflow_id : Uuid;
  spawn_local_working_dir : option string;
  spawn_all_nodes : gmap NodeId ResolvedNode;
  spawn_descriptor : Descriptor;
  spawn_nodes : gset NodeId;
  spawn_uv : bool;
  spawn_write_events_to : option string;
  spawn_artifact_base_url : option string
}.

Inductive DaemonCoordinatorEvent :=
| Build (b : BuildDataflowNodes)
| Spawn (s : SpawnDataflowNodes)
| AllNodesReady (dataflow_id : Uuid) (exited_before_subscribe : list NodeId)
| StopDataflow (dataflow_id : Uuid) (grace_duration : option Duration) (force : bool)
| ReloadDataflow (dataflow_id : Uuid) (node_id : NodeId) (operator_id : option OperatorId)
| Logs (dataflow_id : Uuid) (node_id : NodeId) (tail : option Z)
| RestartNode (dataflow_id : Uuid) (node_id : NodeId) (grace_duration : option Duration)
| StopNode (dataflow_id : Uuid) (node_id : NodeId) (grace_duration : option Duration)
| SetParam (dataflow_id : Uuid) (node_id : NodeId) (key value : string)
| DeleteParam (dataflow_id : Uuid) (node_id : NodeId) (key : string)
| Destroy
| Heartbeat
| PeerDaemonDisconnected (daemon_id : DaemonId)
| AddNode (dataflow_id : Uuid) (node : ResolvedNode) (uv : bool)
| RemoveNode (dataflow_id : Uuid) (node_id : NodeId) (grace_duration : option Duration)
| AddMapping (dataflow_id : Uuid) (source_node : NodeId) (source_output : DataId)
    (target_node : NodeId) (target_input : DataId)
| RemoveMapping (dataflow_id : Uuid) (source_node : NodeId) (source_output : DataId)
    (target_node : NodeId) (target_input : DataId)
| StartTopicDebugStream (dataflow_id : Uuid) (outputs : list (NodeId * DataId)) (subscription_id : Uuid)
| StopTopicDebugStream (dataflow_id : Uuid) (subscription_id : Uuid)
| StateCatchUp (dataflow_id : Uuid) (entries : list StateCatchUpEntry).

(** What is sent on a connection: a command or event, or the answer to a registration. *)
Inductive ToDaemon := ToEvent (e : DaemonCoordinatorEvent) | ToRegister (r : res DaemonId).

Inductive DaemonCoordinatorReply :=
| TriggerBuildResult (r : res unit)
| TriggerSpawnResult (r : res unit)
| ReloadResult (r : res unit)
| StopResult (r : res unit)
| DestroyResult (r : res unit)
| LogsResult (r : res (list Byte.byte))
| RestartNodeResult (r : res unit)
| StopNodeResult (r : res unit)
| SetParamResult (r : res unit)
| DeleteParamResult (r : res unit)
| StartTopicDebugStreamResult (r : res unit)
| StopTopicDebugStreamResult (r : res unit).

Record FaultToleranceSnapshot := mkFtSnapshot {
  ft_restarts : Z;
  ft_health_check_kills : Z;
  ft_input_timeouts : Z;
  ft_circuit_breaker_recoveries : Z
}.

(** [cpu_usage] is the bit pattern of an [f32]. *)
Inductive NodeStatus := NodeRunning | NodeRestarting | NodeDegraded | NodeFailed.
Record NodeMetrics := mkNodeMetrics {
  metrics_pid : Z;
  metrics_cpu_usage : Z;
  metrics_memory_bytes : Z;
  metrics_disk_read_bytes : option Z;
  metrics_disk_write_bytes : option Z;
  metrics_restart_count : Z;
  metrics_broken_inputs : list string;
  metrics_status : NodeStatus;
  metrics_pending_messages : Z
}.
Record NetworkMetrics := mkNetworkMetrics {
  net_bytes_sent : Z;
  net_bytes_received : Z;
  net_messages_sent : Z;
  net_messages_received : Z;
  net_publish_failures : Z
}.

(** The fields of [LogMessage] the coordinator reads or writes; [log_text] is the message. *)
Record LogMessage := mkLog {
  log_build_id : option Uuid;
  log_dataflow_id : option Uuid;
  log_level : LogLevelOrStdout;
  log_text : string
}.

Record DataflowResult := mkDataflowResult {
  result_uuid : Uuid;
  result_node_results : gmap NodeId NodeResult
}.

Inductive ListedStatus := ListedRunning | ListedFinished | ListedFailed.
Record DataflowListEntry := mkListEntry {
  entry_uuid : Uuid;
  entry_name : option string;
  entry_status : ListedStatus
}.

(** A node as listed by [GetNodeInfo]; the metrics are passed on in other units. *)
Record NodeInfo := mkNodeInfo {
  info_dataflow_id : Uuid;
  info_dataflow_name : option string;
  info_node_id : NodeId;
  info_node_daemon : DaemonId;
  info_metrics : option NodeMetrics;
  info_network : option NetworkMetrics
}.

Inductive ControlRequestReply :=
| DataflowBuildTriggered (build_id : Uuid)
| DataflowBuildFinished (build_id : Uuid) (result : res unit)
| DataflowStartTriggered (uuid : Uuid)
| DataflowSpawned (uuid : Uuid)
| DataflowReloaded (uuid : Uuid)
| DataflowStopped (uuid : Uuid) (result : DataflowResult)
| DataflowRestarted (old_uuid new_uuid : Uuid)
| DataflowList (l : list DataflowListEntry)
| DataflowInfo (uuid : Uuid) (name : option string) (descriptor : Descriptor)
| DestroyOk
| DaemonConnected (connected : bool)
| ConnectedDaemons (l : list (DaemonId * Z * option FaultToleranceSnapshot))
| LogsReply (bytes : list Byte.byte)
| CliAndDefaultDaemonIps (same_machine : bool)
| NodeInfoList (l : list NodeInfo)
| NodeRestarted (dataflow_id : Uuid) (node_id : NodeId)
| NodeStopped (dataflow_id : Uuid) (node_id : NodeId)
| NodeAdded (dataflow_id : Uuid) (node_id : NodeId)
| NodeRemoved (dataflow_id : Uuid) (node_id : NodeId)
| MappingAdded (dataflow_id : Uuid) (source_node : NodeId) (source_output : DataId)
    (target_node : NodeId) (target_input : DataId)
| MappingRemoved (dataflow_id : Uuid) (source_node : NodeId) (source_output : DataId)
    (target_node : NodeId) (target_input : DataId)
| ParamList (params : list (string * string))
| ParamValue (key value : string)
| ParamSet
| ParamDeleted.

(** ** Daemon connections *)

Record DaemonConnection := mkConnection {
  conn_channel : ChannelId;
  conn_last_heartbeat : Instant;
  conn_labels : gmap string string;
  conn_ft_stats : option FaultToleranceSnapshot
}.
Abbreviation DaemonConnections := (gmap DaemonId DaemonConnection) (only parsing).

Definition get_matching_daemon_id (conns : DaemonConnections) (machine : string) : option DaemonId :=
  head (retain (λ id, matches_machine_id id machine) (btree_keys conns)).

Definition is_unnamed (id : DaemonId) : bool :=
  match machine_id id with None => true | Some _ => false end.
Definition unnamed (conns : DaemonConnections) : list DaemonId := retain is_unnamed (btree_keys conns).

Definition labels_match (required : gmap string string) (conn : DaemonConnection) : bool :=
  forallb (λ e : string * string, bool_decide (conn_labels conn !! e.1 = Some e.2)) (btree_iter required).
Definition get_matching_daemon_by_labels (conns : DaemonConnections) (required : gmap string string)
    : option DaemonId :=
  fst <$> head (retain (λ e, labels_match required e.2) (btree_iter conns)).

(** [DaemonId]'s [Display]. *)
Definition daemon_id_to_string `{UuidFormat} (id : DaemonId) : string :=
  match machine_id id with
  | Some machine => String.append machine (String "-" (uuid_to_string (daemon_uuid id)))
  | None => uuid_to_string (daemon_uuid id)
  end.

(** ** Cached results

    [register] and [set_result] also give the replies they send. *)

Inductive CachedResult :=
| Pending (result_senders : list RequestId)
| Cached (result : res ControlRequestReply).
Definition new_result : CachedResult := Pending [].

Abbreviation Replies := (list (RequestId * res ControlRequestReply)) (only parsing).

Definition register (c : CachedResult) (reply_sender : RequestId) : CachedResult * Replies :=
  match c with
  | Pending senders => (Pending (senders ++ [reply_sender]), [])
  | Cached result => (c, [(reply_sender, result)])
  end.

Definition set_result (c : CachedResult) (result : res ControlRequestReply) : CachedResult * Replies :=
  match c with
  | Pending senders => (Cached result, (λ s, (s, result)) <$> senders)
  | Cached _ => (c, [])
  end.

Definition is_cached (c : CachedResult) : bool :=
  match c with Cached _ => true | Pending _ => false end.

(** ** Subscribers *)

(** [LogSubscriber.level] is a [LevelFilter]: no level is [Off]. *)
Record LogSubscriber := mkLogSubscriber {
  sub_level : option LogLevel;
  sub_sender : option ChannelId
}.

Record TopicSubscriber := mkTopicSubscriber {
  topic_outputs : gmap DaemonId (list (NodeId * DataId));
  topic_sender : option ChannelId;
  consecutive_timeouts : Z
}.

(** ** Running builds and dataflows *)

Record RunningBuild := mkRunningBuild {
  rb_errors : list string;
  build_result : CachedResult;
  build_buffered_log_messages : list LogMessage;
  build_log_subscribers : list LogSubscriber;
  pending_build_results : gset DaemonId
}.

Record RunningDataflow := mkRunning {
  df_name : option string;
  df_uuid : Uuid;
  df_descriptor : Descriptor;
  daemons : gset DaemonId;
  pending_daemons : gset DaemonId;
  exited_before_subscribe : list NodeId;
  df_nodes : gmap NodeId ResolvedNode;
  node_to_daemon : gmap NodeId DaemonId;
  node_metrics : gmap NodeId NodeMetrics;
  network_metrics : option NetworkMetrics;
  spawn_result : CachedResult;
  stop_reply_senders : list RequestId;
  buffered_log_messages : list LogMessage;
  log_subscribers : list LogSubscriber;
  topic_subscribers : gmap Uuid TopicSubscriber;
  pending_spawn_results : gset DaemonId;
  df_created_at : Z;
  store_generation : Z;
  last_recovery_attempt : gmap DaemonId Instant;
  last_replay_attempt : gmap DaemonId Instant;
  df_uv : bool;
  state_log_sequence : Z;
  state_log : list StateCatchUpEntry;
  daemon_ack_sequence : gmap DaemonId Z
}.

Record ArchivedDataflow := mkArchived {
  arch_name : option string;
  arch_nodes : gmap NodeId ResolvedNode
}.
Definition archive (df : RunningDataflow) : ArchivedDataflow := mkArchived (df_name df) (df_nodes df).

(** *** The log of state mutations *)

Definition MAX_STATE_LOG_ENTRIES : nat := Z.to_nat 10000.

(** The sequence number is a [u64] and counts mutations; it does not overflow in practice. *)
Definition append_state_log (df : RunningDataflow) (operation : StateCatchUpOperation) : RunningDataflow :=
  let sequence := (state_log_sequence df + 1)%Z in
  let log := state_log df ++ [mkCatchUpEntry sequence operation] in
  {| df with state_log_sequence := sequence;
             state_log := drop (length log - MAX_STATE_LOG_ENTRIES) log |}.

Definition min_ack (acks : list Z) : Z :=
  match acks with [] => 0 | a :: acks => foldl Z.min a acks end.

Definition prune_state_log (df : RunningDataflow) : RunningDataflow :=
  let m := min_ack (btree_iter (daemon_ack_sequence df)).*2 in
  {| df with state_log := retain (λ e, (m <? sequence e)%Z) (state_log df) |}.

Definition state_log_delta (df : RunningDataflow) (last_ack : Z) : option (list StateCatchUpEntry) :=
  match state_log df with
  | [] => Some []
  | oldest :: _ =>
      if (Z.min (last_ack + 1) u64_max <? sequence oldest)%Z then None
      else Some (retain (λ e, (last_ack <? sequence e)%Z) (state_log df))
  end.

(** What a daemon has acknowledged. *)
Definition ack_of (df : RunningDataflow) (daemon_id : DaemonId) : Z :=
  default 0%Z (daemon_ack_sequence df !! daemon_id).

(** [DaemonStateCatchUpAck], clamped: an acknowledgement never goes back, nor past the log. *)
Definition acknowledge (daemon_id : DaemonId) (ack_sequence : Z) (df : RunningDataflow) : RunningDataflow :=
  if bool_decide (daemon_id ∈ daemons df) then
    let clamped := Z.max (Z.min ack_sequence (state_log_sequence df)) (ack_of df daemon_id) in
    prune_state_log {| df with daemon_ack_sequence := <[daemon_id := clamped]> (daemon_ack_sequence df) |}
  else df.

(** After a complete replay of the persisted parameters. *)
Definition mark_replayed (daemon_id : DaemonId) (df : RunningDataflow) : RunningDataflow :=
  {| df with daemon_ack_sequence := <[daemon_id := state_log_sequence df]> (daemon_ack_sequence df) |}.

(** Daemons that failed the watchdog. *)
Definition forget_daemons (gone : gset DaemonId) (df : RunningDataflow) : RunningDataflow :=
  {| df with daemons := daemons df ∖ gone;
             pending_daemons := pending_daemons df ∖ gone;
             pending_spawn_results := pending_spawn_results df ∖ gone |}.

(** *** Records *)

Definition MAX_ERROR_BYTES : nat := Z.to_nat 4096.

Definition truncate_status (status : DataflowStatus) : DataflowStatus :=
  match status with
  | DFailed error => DFailed (truncate_str error MAX_ERROR_BYTES)
  | other => other
  end.

Section records.
Context `{UuidFormat}.
(** [serde_json::to_string] of a descriptor, and the current time. *)
Context (descriptor_json : Descriptor → res string) (now_millis : Z).

(** The generation is incremented even when the descriptor cannot be serialized. *)
Definition make_record (df : RunningDataflow) (status : DataflowStatus)
    : res DataflowRecord * RunningDataflow :=
  let df := {| df with store_generation := (store_generation df + 1)%Z |} in
  (json ← descriptor_json (df_descriptor df);
   Ok {| record_uuid := df_uuid df;
         record_name := df_name df;
         record_descriptor_json := json;
         record_status := truncate_status status;
         record_daemon_ids := btree_elems (daemons df);
         record_node_to_daemon := daemon_id_to_string <$> node_to_daemon df;
         record_uv := df_uv df;
         record_generation := store_generation df;
         record_created_at := df_created_at df;
         record_updated_at := now_millis |}, df).
End records.

(** ** Events and requests *)

Inductive DataflowEvent :=
| DataflowFinishedOnDaemon (daemon_id : DaemonId) (result : gmap NodeId NodeResult)
| ReadyOnDaemon (daemon_id : DaemonId) (exited_before_subscribe : list NodeId).

Inductive ControlRequest :=
| RBuild (session_id : Uuid) (dataflow : Descriptor) (git_sources prev_git_sources : gmap NodeId GitSource)
    (local_working_dir : option string) (uv : bool)
| RWaitForBuild (build_id : Uuid)
| RStart (build_id : option Uuid) (session_id : Uuid) (dataflow : Descriptor) (name : option string)
    (local_working_dir : option string) (uv : bool) (write_events_to : option string)
| RWaitForSpawn (dataflow_id : Uuid)
| RReload (dataflow_id : Uuid) (node_id : NodeId) (operator_id : option OperatorId)
| RCheck (dataflow_uuid : Uuid)
| RStop (dataflow_uuid : Uuid) (grace_duration : option Duration) (force : bool)
| RStopByName (name : string) (grace_duration : option Duration) (force : bool)
| RRestart (dataflow_uuid : Uuid) (grace_duration : option Duration) (force : bool)
| RRestartByName (name : string) (grace_duration : option Duration) (force : bool)
| RLogs (uuid : option Uuid) (name : option string) (node : string) (tail : option Z)
| RDestroy
| RList
| RInfo (dataflow_uuid : Uuid)
| RDaemonConnected
| RConnectedMachines
| RCliAndDefaultDaemonOnSameMachine
| RGetNodeInfo
| RRestartNode (dataflow_id : Uuid) (node_id : NodeId) (grace_duration : option Duration)
| RStopNode (dataflow_id : Uuid) (node_id : NodeId) (grace_duration : option Duration)
| RGetParams (dataflow_id : Uuid) (node_id : NodeId)
| RGetParam (dataflow_id : Uuid) (node_id : NodeId) (key : string)
| RSetParam (dataflow_id : Uuid) (node_id : NodeId) (key value : string)
| RDeleteParam (dataflow_id : Uuid) (node_id : NodeId) (key : string)
| RAddNode (dataflow_id : Uuid) (node : Node)
| RRemoveNode (dataflow_id : Uuid) (node_id : NodeId) (grace_duration : option Duration)
| RAddMapping (dataflow_id : Uuid) (source_node : NodeId) (source_output : DataId)
    (target_node : NodeId) (target_input : DataId)
| RRemoveMapping (dataflow_id : Uuid) (source_node : NodeId) (source_output : DataId)
    (target_node : NodeId) (target_input : DataId)
(** [LogSubscribe], [BuildLogSubscribe], [TopicSubscribe], [TopicUnsubscribe], [TopicPublish]
    and [Hello], which are refused here. *)
| RHandledSeparately.

Inductive ControlEvent :=
| IncomingRequest (request : ControlRequest) (reply_sender : RequestId)
| LogSubscribe (dataflow_id : Uuid) (level : option LogLevel) (sender : ChannelId) (found_tx : RequestId)
| BuildLogSubscribe (build_id : Uuid) (level : option LogLevel) (sender : ChannelId) (found_tx : RequestId)
| TopicSubscribe (dataflow_id : Uuid) (topics : list (NodeId * DataId)) (sender : ChannelId)
    (done_tx : RequestId)
| TopicCheck (dataflow_id : Uuid) (topics : list (NodeId * DataId)) (found_tx : RequestId)
| TopicUnsubscribe (subscription_id : Uuid) (done_tx : RequestId)
| ControlError (err : string).

Inductive Event :=
| EDaemonHeartbeat (daemon_id : DaemonId) (ft_stats : option FaultToleranceSnapshot)
| EDataflow (uuid : Uuid) (event : DataflowEvent)
| EControl (event : ControlEvent)
| ERegister (version_check_result : res unit) (machine : option string) (labels : gmap string string)
    (channel : ChannelId) (daemon_id_tx : RequestId)
| EDaemonHeartbeatInterval
| ECtrlC
| ELog (message : LogMessage)
| EDaemonExit (daemon_id : DaemonId)
| EDataflowBuildResult (build_id : Uuid) (daemon_id : DaemonId) (result : res unit)
| EDataflowSpawnResult (dataflow_id : Uuid) (daemon_id : DaemonId) (result : res unit)
| ENodeMetrics (dataflow_id : Uuid) (metrics : gmap NodeId NodeMetrics) (network : option NetworkMetrics)
| ETopicDebugData (dataflow_id : Uuid) (subscription_ids : list Uuid) (payload : list Byte.byte)
| EDaemonStatusReport (daemon_id : DaemonId) (reported : list (Uuid * list NodeId))
| EDaemonStateCatchUpAck (daemon_id : DaemonId) (dataflow_id : Uuid) (ack_sequence : Z).
