(* ===== verification/GitBuild.v ===== *)
(** * Building nodes

    Models [libraries/core/src/build/{mod,git,build_command}.rs]: the directories of git
    clones and what is reused of them, and the build commands; [build_dataflow] of the daemon
    ([binaries/daemon/src/lib.rs]) and of the command line
    ([binaries/cli/src/command/build/local.rs]), sequential and parallel.

    A build task is the sequence of its operations on the machine, each of which may fail.
    What they do (git, the file system, the build commands) is the class [GitWorld]; the laws
    the code relies on are [GitLaws].  A path is the list of its components from the root.  Log
    messages are left out. *)

From Stdlib Require Import ZArith Lia Ascii.
From stdpp Require Import base gmap sets list strings relations.
From S2P Require Import Prelude Message Stderr Text Descriptor Expand LogFiles CoordState.
Local Open Scope nat_scope.
Local Open Scope list_scope.

(** ** Operations of a task *)

Record Url := mkUrl { url_text : string; host_str : option string; path_segments : option (list string) }.

Record Command := mkCommand {
  cmd_program : string;
  cmd_args : list string;
  cmd_envs : gmap string EnvValue;
  cmd_dir : Path
}.

(** [GitCheckout] stands for [revparse_ext], [checkout_tree] and [set_head] of git2, [GitFetch]
    for opening a repository and fetching the default branch of its remote; [RunCommand]
    fails if the command cannot be started or exits with an error. *)
Inductive Op :=
| CreateDirAll (dir : Path)
| RemoveDirAll (dir : Path)
| Rename (from to : Path)
| CopyContent (from to : Path)
| GitClone (url : string) (dir : Path)
| GitFetch (dir : Path)
| GitCheckout (dir : Path) (rev : string)
| RunCommand (c : Command).

Inductive Task (A : Type) :=
| Ret (r : res A)
| Do (op : Op) (k : res unit → Task A).
Arguments Ret {A} r.
Arguments Do {A} op k.

Fixpoint task_then {A B} (t : Task A) (k : res A → Task B) : Task B :=
  match t with
  | Ret r => k r
  | Do op f => Do op (λ r, task_then (f r) k)
  end.
#[export] Instance task_ret : MRet Task := λ A a, Ret (Ok a).
#[export] Instance task_bind : MBind Task := λ A B f t,
  task_then t (λ r, match r with Ok a => f a | Err e => Ret (Err e) | Panic => Ret Panic end).
Definition act (op : Op) : Task unit := Do op Ret.
(** The outcome of a task as a value, and an operation whose outcome is only logged. *)
Definition try {A} (t : Task A) : Task (res A) := task_then t (λ r, Ret (Ok r)).
Definition ignore (op : Op) : Task unit := Do op (λ _, Ret (Ok tt)).

Class GitWorld := {
  World : Type;
  dir_exists : World → Path → bool;
  perform : Op → World → res unit * World;
  parse_url : string → res Url;
  (** [splitty::split_unquoted_whitespace] with [unwrap_quotes]. *)
  split_command : string → list string
}.

(** [Path::join] and [PathBuf::push]. *)
Definition path_join (base : Path) (p : string) : Path :=
  if is_absolute_any_platform p then components p else base ++ components p.

(** ** The git manager *)

Record PrevGitSource := mkPrevGit { prev_source : GitSource; still_needed_for_this_build : bool }.

Record PreparedBuild := mkPrepared { planned_clone_dirs : gset Path }.
Record GitManager := mkManager {
  clones_in_use : gmap Path (gset DataflowId);
  prepared_builds : gmap Uuid PreparedBuild
}.
Definition git_manager_default : GitManager := mkManager ∅ ∅.

Inductive ReuseOptions :=
| NewClone (target_dir : Path) (repo_url : Url) (commit_hash : string)
| Reuse (dir : Path)
| CopyAndFetch (from target_dir : Path) (commit_hash : string)
| RenameAndFetch (from target_dir : Path) (commit_hash : string).
Definition GitFolder : Type := ReuseOptions.

Definition clone_dir_path (base_dir : Path) (repo_url : Url) (commit_hash : string) : res Path :=
  host ← res_of_option "git URL has no hostname" (host_str repo_url);
  segments ← res_of_option "no path in git URL" (path_segments repo_url);
  Ok (path_join (foldl path_join (path_join base_dir host) segments) commit_hash).

Definition in_use (m : GitManager) (dir : Path) : bool :=
  match clones_in_use m !! dir with Some ids => negb (bool_decide (ids = ∅)) | None => false end.

Definition register_ready_clone_dir (session_id : Uuid) (dir : Path) (m : GitManager) : GitManager :=
  let planned := default ∅ (planned_clone_dirs <$> prepared_builds m !! session_id) in
  {| m with prepared_builds := <[session_id := mkPrepared ({[dir]} ∪ planned)]> (prepared_builds m) |}.

Definition clear_planned_builds (session_id : Uuid) (m : GitManager) : GitManager :=
  {| m with prepared_builds := delete session_id (prepared_builds m) |}.

(** The part of [finish_dataflow] of the daemon that concerns the manager. *)
Definition release_clones (dataflow_id : DataflowId) (m : GitManager) : GitManager :=
  {| m with clones_in_use := (λ ids : gset DataflowId, ids ∖ {[dataflow_id]}) <$> clones_in_use m |}.

Section builds.
Context `{GitWorld}.
Implicit Types (w : World).

Definition clone_dir_ready (w : World) (session_id : Uuid) (dir : Path) (m : GitManager) : bool :=
  match prepared_builds m !! session_id with
  | Some p => bool_decide (dir ∈ planned_clone_dirs p)
  | None => false
  end || dir_exists w dir.

Definition choose_clone_dir (w : World) (session_id : Uuid) (repo commit_hash : string)
    (prev_git : option PrevGitSource) (target_dir : Path) (m : GitManager) : res GitFolder * GitManager :=
  let chosen :=
    repo_url ← parse_url repo;
    clone_dir ← clone_dir_path target_dir repo_url commit_hash;
    let prev_commit_hash :=
      p ← prev_git;
      if bool_decide (git_repo (prev_source p) = repo) then Some (git_commit_hash (prev_source p)) else None in
    if in_use m clone_dir then Err "the build directory is still in use by the following dataflows"
    else
      reuse ←
        (if clone_dir_ready w session_id clone_dir m then Ok (Reuse clone_dir)
         else match prev_commit_hash with
              | Some previous_commit_hash =>
                  prev_clone_dir ← clone_dir_path target_dir repo_url previous_commit_hash;
                  if dir_exists w prev_clone_dir then
                    let still_needed := default false (still_needed_for_this_build <$> prev_git) in
                    let used_by_others := in_use m prev_clone_dir in
                    if still_needed || used_by_others
                    then Ok (CopyAndFetch prev_clone_dir clone_dir commit_hash)
                    else Ok (RenameAndFetch prev_clone_dir clone_dir commit_hash)
                  else Ok (NewClone clone_dir repo_url commit_hash)
              | None => Ok (NewClone clone_dir repo_url commit_hash)
              end);
      Ok (reuse, clone_dir) in
  match chosen with
  | Ok (reuse, clone_dir) => (Ok reuse, register_ready_clone_dir session_id clone_dir m)
  | Err e => (Err e, m)
  | Panic => (Panic, m)
  end.

(** ** Preparing a clone *)

Definition checkout_tree (dir : Path) (commit_hash : string) : Task unit :=
  if contains commit_hash ".." || contains commit_hash ":" || contains commit_hash "^"
  then Ret (Err "invalid commit reference")
  else act (GitCheckout dir commit_hash).

Definition clone_into (repo_addr : Url) (clone_dir : Path) : Task unit :=
  match clone_dir with
  | [] => act (GitClone (url_text repo_addr) clone_dir)
  | _ => act (CreateDirAll (removelast clone_dir));; act (GitClone (url_text repo_addr) clone_dir)
  end.

Definition prepare (reuse : GitFolder) : Task Path :=
  match reuse with
  | NewClone target_dir repo_url commit_hash =>
      checkout_result ← try (clone_into repo_url target_dir;; checkout_tree target_dir commit_hash);
      match checkout_result with
      | Ok _ => mret target_dir
      | Err err => ignore (RemoveDirAll target_dir);; Ret (Err err)
      | Panic => Ret Panic
      end
  | CopyAndFetch from target_dir commit_hash =>
      act (CreateDirAll target_dir);;
      act (CopyContent from target_dir);;
      act (GitFetch target_dir);;
      checkout_tree target_dir commit_hash;;
      mret target_dir
  | RenameAndFetch from target_dir commit_hash =>
      act (Rename from target_dir);;
      act (GitFetch target_dir);;
      checkout_tree target_dir commit_hash;;
      mret target_dir
  | Reuse dir => mret dir
  end.

(** ** Build commands *)

Definition build_command (uv : bool) (envs : option (gmap string EnvValue)) (working_dir : Path)
    (build_line : string) : res Command :=
  match split_command build_line with
  | [] => Err "build command is empty"
  | program :: args =>
      let '(program, args) :=
        if uv && (bool_decide (program = "pip"%string) || bool_decide (program = "pip3"%string))
        then ("uv"%string, "pip"%string :: args) else (program, args) in
      let envs := <["CLICOLOR_FORCE"%string := EnvString "1"]> (<["CLICOLOR"%string := EnvString "1"]> (default ∅ envs)) in
      Ok (mkCommand program args envs working_dir)
  end.

Fixpoint run_lines (uv : bool) (envs : option (gmap string EnvValue)) (working_dir : Path)
    (build_lines : list string) : Task unit :=
  match build_lines with
  | [] => mret tt
  | line :: build_lines =>
      c ← Ret (build_command uv envs working_dir line);
      act (RunCommand c);;
      run_lines uv envs working_dir build_lines
  end.

Definition run_build_command (build : string) (working_dir : Path) (uv : bool)
    (envs : option (gmap string EnvValue)) : Task unit :=
  act (CreateDirAll working_dir);;
  run_lines uv envs working_dir (lines build).

(** ** Building a node *)

Record Builder := mkBuilder { session_id : Uuid; base_working_dir : Path; uv : bool }.

Fixpoint build_operators (b : Builder) (envs : option (gmap string EnvValue))
    (operators : list OperatorDefinition) : Task unit :=
  match operators with
  | [] => mret tt
  | operator :: operators =>
      match op_build (opdef_config operator) with
      | Some build => run_build_command build (base_working_dir b) (uv b) envs
      | None => mret tt
      end;;
      build_operators b envs operators
  end.

Definition build_node_inner (b : Builder) (node : ResolvedNode) (git_folder : option GitFolder) : Task Path :=
  match r_kind node with
  | Custom n =>
      node_working_dir ← match git_folder with
                         | Some git_folder => prepare git_folder
                         | None => mret (base_working_dir b)
                         end;
      match custom_build n with
      | Some build => run_build_command build node_working_dir (uv b) (r_env node)
      | None => mret tt
      end;;
      mret node_working_dir
  | Runtime operators =>
      build_operators b (r_env node) operators;;
      mret (base_working_dir b)
  end.

Definition build_node (w : World) (b : Builder) (node : ResolvedNode) (git : option GitSource)
    (prev_git : option PrevGitSource) (m : GitManager) : res (Task Path) * GitManager :=
  match git with
  | Some source =>
      let target_dir := path_join (base_working_dir b) "git" in
      let '(git_folder, m) :=
        choose_clone_dir w (session_id b) (git_repo source) (git_commit_hash source) prev_git target_dir m in
      ((λ git_folder, build_node_inner b node (Some git_folder)) <$> git_folder, m)
  | None => (Ok (build_node_inner b node None), m)
  end.

(** ** Building a dataflow *)

Definition prev_git_of (git_sources prev_git_sources : gmap NodeId GitSource) (node_id : NodeId) : option PrevGitSource :=
  (λ prev_source, mkPrevGit prev_source (existsb (λ s, bool_decide (s = prev_source)) (btree_iter git_sources).*2))
  <$> prev_git_sources !! node_id.

(** The loop that plans the tasks of the nodes; [builder_of] is the builder of a node. *)
Fixpoint plan_nodes (w : World) (builder_of : ResolvedNode → Builder)
    (git_sources prev_git_sources : gmap NodeId GitSource) (nodes : list ResolvedNode) (m : GitManager)
    : res (list (NodeId * Task Path)) * GitManager :=
  match nodes with
  | [] => (Ok [], m)
  | node :: nodes =>
      match build_node w (builder_of node) node (git_sources !! r_id node)
              (prev_git_of git_sources prev_git_sources (r_id node)) m with
      | (Ok task, m) =>
          let '(tasks, m) := plan_nodes w builder_of git_sources prev_git_sources nodes m in
          ((λ tasks, (r_id node, task) :: tasks) <$> tasks, m)
      | (Err e, m) => (Err e, m)
      | (Panic, m) => (Panic, m)
      end
  end.

(** A node may be built below the working directory, if its deployment says so. *)
Definition node_builder (b : Builder) (node : ResolvedNode) : Builder :=
  match deploy ← r_deploy node; deploy_working_dir deploy with
  | Some dir => mkBuilder (session_id b) (path_join (base_working_dir b) dir) (uv b)
  | None => b
  end.

(** The tasks one after the other, as in the daemon. *)
Fixpoint run_tasks (tasks : list (NodeId * Task Path)) (node_working_dirs : gmap NodeId Path)
    : Task (gmap NodeId Path) :=
  match tasks with
  | [] => mret node_working_dirs
  | (node_id, task) :: tasks =>
      dir ← task;
      run_tasks tasks (<[node_id := dir]> node_working_dirs)
  end.

Fixpoint run_task {A} (t : Task A) (w : World) : res A * World :=
  match t with
  | Ret r => (r, w)
  | Do op k => let '(r, w) := perform op w in run_task (k r) w
  end.

Context (ros2_json : Ros2BridgeConfig → res string).

(** [build_dataflow] of the daemon: the task, and what it leaves in the manager. *)
Definition build_dataflow (w : World) (session_id : Uuid) (base_working_dir : Path)
    (git_sources prev_git_sources : gmap NodeId GitSource) (d : Descriptor) (local_nodes : gset NodeId)
    (uv : bool) (m : GitManager) : res (Task (gmap NodeId Path)) * GitManager :=
  let b := mkBuilder session_id base_working_dir uv in
  let m := clear_planned_builds session_id m in
  match resolve_aliases_and_set_defaults ros2_json d with
  | Ok nodes =>
      let local := retain (λ n, bool_decide (r_id n ∈ local_nodes)) (btree_iter nodes).*2 in
      let '(tasks, m) := plan_nodes w (node_builder b) git_sources prev_git_sources local m in
      ((λ tasks, run_tasks tasks ∅) <$> tasks, m)
  | Err e => (Err e, m)
  | Panic => (Panic, m)
  end.

(** The tasks a local build runs. *)
Definition local_tasks (w : World) (session_id : Uuid) (base_working_dir : Path)
    (git_sources prev_git_sources : gmap NodeId GitSource) (d : Descriptor) (uv : bool)
    : res (list (NodeId * Task Path)) :=
  let b := mkBuilder session_id base_working_dir uv in
  nodes ← resolve_aliases_and_set_defaults ros2_json d;
  (plan_nodes w (λ _, b) git_sources prev_git_sources (btree_iter nodes).*2 git_manager_default).1.

(** With [--parallel], the tasks run concurrently; the first one that fails ends the build
    and aborts the others. *)
Record Pool := mkPool {
  running_tasks : list (NodeId * Task Path);
  built_dirs : gmap NodeId Path;
  pool_world : World
}.
Inductive pool_step : Pool → Pool → Prop :=
| pool_op l node op k l' dirs w r w' :
    perform op w = (r, w') →
    pool_step (mkPool (l ++ (node, Do op k) :: l') dirs w) (mkPool (l ++ (node, k r) :: l') dirs w')
| pool_join l node dir l' dirs w :
    pool_step (mkPool (l ++ (node, Ret (Ok dir)) :: l') dirs w) (mkPool (l ++ l') (<[node := dir]> dirs) w).
(** The result of the build, once it is decided. *)
Inductive pool_result : Pool → res (gmap NodeId Path) → Prop :=
| pool_done dirs w : pool_result (mkPool [] dirs w) (Ok dirs)
| pool_failed l node e l' dirs w : pool_result (mkPool (l ++ (node, Ret (Err e)) :: l') dirs w) (Err e).
End builds.

(** ** What git and the file system do *)

Definition apart (p q : Path) : Prop := ¬ p `prefix_of` q ∧ ¬ q `prefix_of` p.

(** A commit named by its full hash. *)
Definition is_hex_digit (c : ascii) : bool :=
  let n := N_of_ascii c in ((48 <=? n) && (n <=? 57) || (97 <=? n) && (n <=? 102))%N.
Definition full_hash (h : string) : bool :=
  bool_decide (String.length h = 40) && string_forall is_hex_digit h.

(** The directories an operation works on, apart from creating directories and commands. *)
Definition touched (op : Op) : option (list Path) :=
  match op with
  | CreateDirAll _ | RunCommand _ => None
  | RemoveDirAll d | GitClone _ d | GitFetch d | GitCheckout d _ => Some [d]
  | CopyContent _ d => Some [d]
  | Rename f t => Some [f; t]
  end.

Class GitLaws `{GitWorld} := {
  (** The commit that is checked out in a directory, if it holds a clone. *)
  head_commit : World → Path → option string;
  create_keeps d w r w' p :
    perform (CreateDirAll d) w = (r, w') →
    (dir_exists w p = true → dir_exists w' p = true) ∧
    (¬ p `prefix_of` d → dir_exists w' p = dir_exists w p) ∧
    head_commit w' p = head_commit w p;
  create_ok d w w' : perform (CreateDirAll d) w = (Ok tt, w') → dir_exists w' d = true;
  untouched op ds w r w' p :
    perform op w = (r, w') → touched op = Some ds → Forall (apart p) ds →
    dir_exists w' p = dir_exists w p ∧ head_commit w' p = head_commit w p;
  fetch_keeps d w r w' :
    perform (GitFetch d) w = (r, w') →
    dir_exists w' d = dir_exists w d ∧ head_commit w' d = head_commit w d;
  copy_keeps f t w r w' :
    perform (CopyContent f t) w = (r, w') → dir_exists w t = true → dir_exists w' t = true;
  clone_ok u d w w' : perform (GitClone u d) w = (Ok tt, w') → dir_exists w' d = true;
  checkout_ok d h w w' :
    perform (GitCheckout d h) w = (Ok tt, w') → full_hash h = true →
    dir_exists w' d = true ∧ head_commit w' d = Some h;
  rename_ok f t w w' :
    perform (Rename f t) w = (Ok tt, w') → f ≠ t →
    dir_exists w' f = false ∧ dir_exists w' t = true ∧ head_commit w' t = head_commit w f;
  rename_missing f t w r w' :
    perform (Rename f t) w = (r, w') → dir_exists w f = false → is_ok r = false ∧ ∀ p, dir_exists w' p = dir_exists w p
}.

(** ** Running tasks *)

Section runs.
Context `{GitWorld}.

Lemma run_then {A B} (t : Task A) (k : res A → Task B) w :
  run_task (task_then t k) w = let '(r, w') := run_task t w in run_task (k r) w'.
Proof.
  revert w. induction t as [r|op f IH]; intros w; cbn; [done|]. destruct (perform op w) as [r w']. apply IH.
Qed.
Lemma run_bind {A B} (t : Task A) (f : A → Task B) w :
  run_task (t ≫= f) w =
    let '(r, w') := run_task t w in
    match r with Ok a => run_task (f a) w' | Err e => (Err e, w') | Panic => (Panic, w') end.
Proof. unfold mbind, task_bind. rewrite run_then. by destruct (run_task t w) as [[] w']. Qed.
Lemma run_bind_Ok {A B} (t : Task A) (f : A → Task B) w b w' :
  run_task (t ≫= f) w = (Ok b, w') → ∃ a w1, run_task t w = (Ok a, w1) ∧ run_task (f a) w1 = (Ok b, w').
Proof. rewrite run_bind. destruct (run_task t w) as [[] w1]; try done. eauto. Qed.
Lemma run_act op w : run_task (act op) w = perform op w.
Proof. unfold act. cbn. by destruct (perform op w). Qed.
End runs.

Ltac run_steps :=
  repeat match goal with
    | H : run_task (mbind _ _) _ = (Ok _, _) |- _ =>
        let a := fresh "a" in let w1 := fresh "w" in let H1 := fresh "Hrun" in
        apply run_bind_Ok in H as (a & w1 & H1 & H)
    | H : run_task (act _) _ = _ |- _ => rewrite run_act in H
    | a : unit |- _ => destruct a
    end.

(** ** Where the sources of a build live *)

Section layout.
Context `{GitWorld}.
Context (builder_of : ResolvedNode → Builder) (git_sources prev_git_sources : gmap NodeId GitSource).
Context (nodes : list ResolvedNode).

Definition node_dir (n : ResolvedNode) (s : GitSource) : res Path :=
  url ← parse_url (git_repo s);
  clone_dir_path (path_join (base_working_dir (builder_of n)) "git") url (git_commit_hash s).

(** [site s d]: some node needs source [s] now or needed it before, and its clone is [d];
    [needed s d]: now. *)
Definition needed (s : GitSource) (d : Path) : Prop :=
  ∃ n, n ∈ nodes ∧ git_sources !! r_id n = Some s ∧ node_dir n s = Ok d.
Definition site (s : GitSource) (d : Path) : Prop :=
  ∃ n, n ∈ nodes ∧ (git_sources !! r_id n = Some s ∨ prev_git_sources !! r_id n = Some s) ∧ node_dir n s = Ok d.

(** Different sources have unrelated directories, and none of them contains a working
    directory; commits are given by their hashes, and only custom nodes have git sources. *)
Record layout_ok (session : Uuid) : Prop := {
  lay_spread s d s' d' : site s d → site s' d' → (s = s' ∧ d = d') ∨ apart d d';
  lay_base s d n : site s d → n ∈ nodes → ¬ d `prefix_of` base_working_dir (builder_of n);
  lay_hash s d : site s d → full_hash (git_commit_hash s) = true;
  lay_custom n s : n ∈ nodes → git_sources !! r_id n = Some s → ∃ c, r_kind n = Custom c;
  lay_session n : n ∈ nodes → session_id (builder_of n) = session
}.

(** Every clone that exists is on the commit it is named after. *)
Definition clean `{!GitLaws} (w : World) : Prop :=
  ∀ s d, site s d → dir_exists w d = true → head_commit w d = Some (git_commit_hash s).

(** Build commands leave the clones alone. *)
Definition commands_keep `{!GitLaws} : Prop :=
  ∀ c w r w' s d, perform (RunCommand c) w = (r, w') → site s d →
    dir_exists w' d = dir_exists w d ∧ head_commit w' d = head_commit w d.

Lemma needed_site s d : needed s d → site s d.
Proof. intros (n & ? & ? & ?). exists n. auto. Qed.
End layout.

Section sound.
Context `{GitLaws}.
Context {builder_of : ResolvedNode → Builder} {git_sources prev_git_sources : gmap NodeId GitSource}.
Context {nodes : list ResolvedNode} {session : Uuid}.
Abbreviation site := (site builder_of git_sources prev_git_sources nodes).
Context (Hlay : layout_ok builder_of git_sources prev_git_sources nodes session).
Context (Hcmd : commands_keep builder_of git_sources prev_git_sources nodes).

(** The clones that exist are those of [Q], on their commits, except possibly at [x]. *)
Definition sound (x : option Path) (Q : Path → Prop) (w : World) : Prop :=
  ∀ s d, site s d → Some d ≠ x →
    (dir_exists w d = true ↔ Q d) ∧ (Q d → head_commit w d = Some (git_commit_hash s)).

Lemma world_sound_ext x (Q Q' : Path → Prop) w : (∀ d, Q d ↔ Q' d) → sound x Q w → sound x Q' w.
Proof. intros HQ Hs s d Hd Hx. rewrite <- HQ. by apply Hs. Qed.

Lemma site_apart s d s' d' : site s d → site s' d' → d ≠ d' → apart d d'.
Proof. intros Hd Hd' Hne. by destruct (lay_spread _ _ _ _ _ Hlay _ _ _ _ Hd Hd') as [[_ ?]|?]. Qed.
Lemma site_eq s s' d : site s d → site s' d → s = s'.
Proof.
  intros Hd Hd'. destruct (lay_spread _ _ _ _ _ Hlay _ _ _ _ Hd Hd') as [[? _]|[Ha _]]; [done|]. by destruct Ha.
Qed.

Lemma world_sound_same x Q w w' :
  (∀ s d, site s d → Some d ≠ x → dir_exists w' d = dir_exists w d ∧ head_commit w' d = head_commit w d) →
  sound x Q w → sound x Q w'.
Proof. intros Hsame Hs s d Hd Hx. destruct (Hsame s d Hd Hx) as [-> ->]. by apply Hs. Qed.

(** Creating a directory that is no clone, or a clone that exists already. *)
Lemma sound_create x Q c w r w' :
  perform (CreateDirAll c) w = (r, w') →
  (∀ s d, site s d → Some d ≠ x → d `prefix_of` c → Q d) →
  sound x Q w → sound x Q w'.
Proof.
  intros Hop Hc Hs. eapply world_sound_same; [|exact Hs]. intros s d Hd Hx.
  destruct (create_keeps c w r w' d Hop) as (Hgrow & Hsame & ->). split; [|done].
  destruct (decide (d `prefix_of` c)) as [Hp|Hp]; [|by apply Hsame].
  assert (dir_exists w d = true) as E by (apply (Hs s d Hd Hx); eauto). rewrite E. by apply Hgrow.
Qed.

Lemma sound_touch x Q op w r w' s :
  perform op w = (r, w') → touched op = Some [x] → site s x → sound (Some x) Q w → sound (Some x) Q w'.
Proof.
  intros Hop Ht Hx Hs. eapply world_sound_same; [|exact Hs]. intros s' d Hd Hne.
  eapply untouched; [exact Hop|exact Ht|]. repeat constructor; apply (site_apart s' d s x); congruence.
Qed.

Lemma sound_weaken x Q w : sound None Q w → sound (Some x) Q w.
Proof. intros Hs s d Hd _. by apply Hs. Qed.

Lemma sound_checkout x Q w w' s :
  perform (GitCheckout x (git_commit_hash s)) w = (Ok tt, w') → site s x →
  sound (Some x) Q w → sound None (λ d, d = x ∨ Q d) w'.
Proof.
  intros Hop Hx Hs s' d Hd _. destruct (decide (d = x)) as [->|Hne].
  - rewrite (site_eq s' s x Hd Hx).
    destruct (checkout_ok x (git_commit_hash s) w w' Hop) as [-> ->]; [by eapply lay_hash|]. naive_solver.
  - destruct (sound_touch x Q _ w _ w' s Hop eq_refl Hx Hs s' d Hd) as [He Hh]; [congruence|]. naive_solver.
Qed.

Lemma sound_rename p x Q w w' s sp :
  perform (Rename p x) w = (Ok tt, w') → site s x → site sp p → p ≠ x →
  sound None Q w → sound (Some x) (λ d, d ≠ p ∧ Q d) w'.
Proof.
  intros Hop Hx Hp Hne Hs s' d Hd Hdx. destruct (decide (d = p)) as [->|Hdp].
  - destruct (rename_ok p x w w' Hop Hne) as (-> & _). naive_solver.
  - destruct (untouched (Rename p x) [p; x] w (Ok tt) w' d Hop eq_refl) as [-> ->].
    { repeat constructor; eapply site_apart; eauto; congruence. }
    destruct (Hs s' d Hd) as [He Hh]; [done|]. naive_solver.
Qed.

Lemma sound_lines Q uv envs dir build_lines w r w' :
  run_task (run_lines uv envs dir build_lines) w = (r, w') → sound None Q w → sound None Q w'.
Proof.
  revert w. induction build_lines as [|line build_lines IH]; intros w Hrun Hs; cbn [run_lines] in Hrun.
  - cbn in Hrun. by simplify_eq.
  - rewrite run_bind in Hrun. cbn [run_task] in Hrun. destruct (build_command uv envs dir line) as [c| |]; [|by simplify_eq/=..].
    rewrite run_bind, run_act in Hrun. destruct (perform (RunCommand c) w) as [r1 w1] eqn:E.
    assert (sound None Q w1) as Hs1.
    { eapply world_sound_same; [|exact Hs]. intros s d Hd _. by eapply Hcmd. }
    destruct r1; [by eapply IH|by simplify_eq..].
Qed.

Lemma sound_build Q build dir uv envs w r w' :
  run_task (run_build_command build dir uv envs) w = (r, w') →
  (∀ s d, site s d → d `prefix_of` dir → Q d) → sound None Q w → sound None Q w'.
Proof.
  intros Hrun Hdir Hs. unfold run_build_command in Hrun. rewrite run_bind, run_act in Hrun.
  destruct (perform (CreateDirAll dir) w) as [r1 w1] eqn:E.
  assert (sound None Q w1) as Hs1 by (eapply sound_create; eauto).
  destruct r1; [by eapply sound_lines|by simplify_eq..].
Qed.
End sound.

(** ** What is chosen *)

Definition planned (m : GitManager) (session : Uuid) (d : Path) : Prop :=
  ∃ p, prepared_builds m !! session = Some p ∧ d ∈ planned_clone_dirs p.
Definition moved (opt : ReuseOptions) (d : Path) : Prop :=
  match opt with RenameAndFetch from _ _ => d = from | _ => False end.

Section choice.
Context `{GitWorld}.

(** Why an option was chosen for a clone [d] of commit [hash], with [prev_dir p sp] the
    clone of the previous source. *)
Definition chosen (w : World) (m : GitManager) (session : Uuid) (hash : string) (prev : option PrevGitSource)
    (prev_dir : GitSource → Path → Prop) (d : Path) (opt : ReuseOptions) : Prop :=
  let ready := planned m session d ∨ dir_exists w d = true in
  let previous p needed := ∃ ps, prev = Some ps ∧ prev_dir (prev_source ps) p ∧ dir_exists w p = true ∧
    still_needed_for_this_build ps || in_use m p = needed in
  in_use m d = false ∧
  match opt with
  | Reuse dir => dir = d ∧ ready
  | NewClone target _ h => target = d ∧ h = hash ∧ ¬ ready
  | CopyAndFetch from target h => target = d ∧ h = hash ∧ ¬ ready ∧ previous from true
  | RenameAndFetch from target h => target = d ∧ h = hash ∧ ¬ ready ∧ previous from false
  end.

Lemma clone_dir_ready_spec w session dir m :
  clone_dir_ready w session dir m = true ↔ planned m session dir ∨ dir_exists w dir = true.
Proof.
  unfold clone_dir_ready, planned. rewrite orb_true_iff.
  destruct (prepared_builds m !! session) as [p|]; [rewrite bool_decide_eq_true|]; naive_solver.
Qed.

Lemma planned_register m session d d' :
  planned (register_ready_clone_dir session d m) session d' ↔ d' = d ∨ planned m session d'.
Proof.
  unfold planned, register_ready_clone_dir. cbn [prepared_builds]. split.
  - intros (q & Hq & Hin). rewrite lookup_insert_eq in Hq. injection Hq as <-. cbn in Hin.
    apply elem_of_union in Hin as [->%elem_of_singleton|Hin]; [by left|right].
    destruct (prepared_builds m !! session) as [p|] eqn:E; cbn in Hin; [by exists p|by apply elem_of_empty in Hin].
  - intros Hd. eexists. rewrite lookup_insert_eq. split; [done|]. cbn. apply elem_of_union.
    destruct Hd as [->|(p & -> & Hin)]; [left; by apply elem_of_singleton|by right].
Qed.
Lemma in_use_register m session d d' : in_use (register_ready_clone_dir session d m) d' = in_use m d'.
Proof. done. Qed.

Lemma choose_clone_dir_spec w session s prev target m :
  match choose_clone_dir w session (git_repo s) (git_commit_hash s) prev target m with
  | (Ok opt, m') =>
      ∃ url d, parse_url (git_repo s) = Ok url ∧ clone_dir_path target url (git_commit_hash s) = Ok d ∧
        m' = register_ready_clone_dir session d m ∧
        chosen w m session (git_commit_hash s) prev
          (λ sp p, git_repo sp = git_repo s ∧ clone_dir_path target url (git_commit_hash sp) = Ok p) d opt
  | (_, m') => m' = m
  end.
Proof.
  unfold choose_clone_dir. destruct (parse_url (git_repo s)) as [url| |] eqn:Eu; cbn [mbind res_bind]; [|done..].
  destruct (clone_dir_path target url (git_commit_hash s)) as [d| |] eqn:Ed; cbn [mbind res_bind]; [|done..].
  destruct (in_use m d) eqn:Ei; [done|].
  destruct (clone_dir_ready w session d m) eqn:Er.
  { apply clone_dir_ready_spec in Er. cbn [mbind res_bind]. exists url, d. by repeat split. }
  assert (¬ (planned m session d ∨ dir_exists w d = true)) as Hr.
  { rewrite <- clone_dir_ready_spec. by rewrite Er. }
  assert (∀ opt, opt = NewClone d url (git_commit_hash s) → ∃ url0 d0, Ok url = Ok url0 ∧
    clone_dir_path target url0 (git_commit_hash s) = Ok d0 ∧
    register_ready_clone_dir session d m = register_ready_clone_dir session d0 m ∧
    chosen w m session (git_commit_hash s) prev
      (λ sp p, git_repo sp = git_repo s ∧ clone_dir_path target url0 (git_commit_hash sp) = Ok p) d0 opt) as Hnew.
  { intros opt ->. exists url, d. by repeat split. }
  destruct prev as [ps|]; cbn [mbind option_bind]; [|cbn [mbind res_bind]; by apply Hnew].
  case_bool_decide as Erepo; [|cbn [mbind res_bind]; by apply Hnew].
  destruct (clone_dir_path target url (git_commit_hash (prev_source ps))) as [p| |] eqn:Ep;
    cbn [mbind res_bind]; [|done..].
  destruct (dir_exists w p) eqn:Ex; [|cbn [mbind res_bind]; by apply Hnew].
  cbn [fmap option_fmap option_map default from_option id].
  destruct (still_needed_for_this_build ps || in_use m p) eqn:En; cbn [mbind res_bind];
    exists url, d; do 4 (split; [done|]); (split_and!; [done..|]); exists ps; auto.
Qed.
End choice.

(** ** A task keeps the clones sound *)

Section tasks.
Context `{GitLaws}.
Context {builder_of : ResolvedNode → Builder} {git_sources prev_git_sources : gmap NodeId GitSource}.
Context {nodes : list ResolvedNode} {session : Uuid}.
Abbreviation site := (site builder_of git_sources prev_git_sources nodes).
Abbreviation sound := (sound (builder_of:=builder_of) (git_sources:=git_sources)
  (prev_git_sources:=prev_git_sources) (nodes:=nodes)).
Context (Hlay : layout_ok builder_of git_sources prev_git_sources nodes session).
Context (Hcmd : commands_keep builder_of git_sources prev_git_sources nodes).

Lemma checkout_tree_Ok dir h w w' :
  run_task (checkout_tree dir h) w = (Ok tt, w') → perform (GitCheckout dir h) w = (Ok tt, w').
Proof. unfold checkout_tree. case_match; [done|]. by rewrite run_act. Qed.

Lemma prepare_Ok w0 m s d prev (prev_dir : GitSource → Path → Prop) opt Q w dir w' :
  chosen w0 m session (git_commit_hash s) prev prev_dir d opt →
  (∀ sp p, prev_dir sp p → ∀ ps, prev = Some ps → sp = prev_source ps → site sp p) →
  site s d → (planned m session d ∨ dir_exists w0 d = true → Q d) →
  sound None Q w → run_task (prepare opt) w = (Ok dir, w') →
  dir = d ∧ sound None (λ x, x = d ∨ (¬ moved opt x ∧ Q x)) w'.
Proof.
  intros [_ Hopt] Hprev Hd HQ Hs Hrun. destruct opt as [target url h|dir0|from target h|from target h];
    cbn [prepare moved] in *.
  - destruct Hopt as (-> & -> & Hr). rewrite run_bind in Hrun. unfold try in Hrun. rewrite run_then in Hrun.
    destruct (run_task (clone_into url d;; checkout_tree d (git_commit_hash s)) w) as [r w1] eqn:E. cbn [run_task] in Hrun.
    destruct r as [[]|e|]; [|by rewrite run_bind in Hrun; cbn in Hrun; destruct (perform _ _)|done].
    cbn in Hrun. injection Hrun as <- <-. split; [done|]. run_steps. apply checkout_tree_Ok in E.
    eapply (world_sound_ext None (λ x, x = d ∨ Q x)); [naive_solver|].
    eapply (sound_checkout Hlay); [exact E|exact Hd|]. unfold clone_into in Hrun.
    assert (d ≠ []) as Hne.
    { intros ->. destruct Hd as (n & Hn & Hs' & Hdir). eapply (lay_base _ _ _ _ _ Hlay s [] n); [by exists n|done|].
      apply prefix_nil. }
    destruct d as [|c d0]; [done|]. run_steps. eapply (sound_touch Hlay); [exact Hrun|done|exact Hd|].
    eapply sound_create; [exact Hrun0| |by apply sound_weaken]. intros s' d' Hd' Hx Hp. exfalso.
    assert (d' ≠ c :: d0) as Hdd by congruence.
    destruct (site_apart Hlay s' d' s (c :: d0) Hd' Hd Hdd) as [Ha _]. apply Ha.
    etrans; [exact Hp|]. rewrite (app_removelast_last EmptyString (l:=c :: d0)) at 2 by done. by apply prefix_app_r.
  - destruct Hopt as [-> Hr]. cbn in Hrun. injection Hrun as <- <-. split; [done|].
    eapply world_sound_ext; [|exact Hs]. naive_solver.
  - destruct Hopt as (-> & -> & Hr & Hp). run_steps. cbn in Hrun. injection Hrun as <- <-. split; [done|].
    apply checkout_tree_Ok in Hrun3.
    eapply (world_sound_ext None (λ x, x = d ∨ Q x)); [naive_solver|].
    eapply (sound_checkout Hlay); [exact Hrun3|exact Hd|].
    do 2 (eapply (sound_touch Hlay); [eassumption|done|exact Hd|]).
    eapply sound_create; [exact Hrun0| |by apply sound_weaken]. intros s' d' Hd' Hx Hp'. exfalso.
    assert (d' ≠ d) as Hdd by congruence. by destruct (site_apart Hlay s' d' s d Hd' Hd Hdd).
  - destruct Hopt as (-> & -> & Hr & ps & -> & Hp & Hex & _). run_steps. cbn in Hrun. injection Hrun as <- <-. split; [done|].
    apply checkout_tree_Ok in Hrun2. eapply (sound_checkout Hlay); [exact Hrun2|exact Hd|].
    eapply (sound_touch Hlay); [eassumption|done|exact Hd|].
    eapply (sound_rename Hlay); [exact Hrun0|exact Hd|by eapply Hprev| |exact Hs]. intros ->. naive_solver.
Qed.

Lemma sound_operators b envs ops Q w r w' :
  (∀ s d, site s d → ¬ d `prefix_of` base_working_dir b) →
  run_task (build_operators b envs ops) w = (r, w') → sound None Q w → sound None Q w'.
Proof.
  intros Hb. revert w. induction ops as [|op ops IH]; intros w Hrun Hs; cbn [build_operators] in Hrun.
  { cbn in Hrun. by simplify_eq. }
  rewrite run_bind in Hrun. destruct (run_task (match op_build _ with _ => _ end) w) as [r1 w1] eqn:E.
  assert (sound None Q w1) as Hs1.
  { destruct (op_build _) as [build|]; [|cbn in E; by simplify_eq].
    eapply (sound_build Hcmd); [exact E| |exact Hs]. intros s d Hd Hp. by destruct (Hb s d Hd). }
  destruct r1; [by eapply IH|by simplify_eq..].
Qed.

(** Nodes without a git source. *)
Lemma build_plain_Ok n Q w r w' :
  n ∈ nodes → run_task (build_node_inner (builder_of n) n None) w = (r, w') →
  sound None Q w → sound None Q w'.
Proof.
  intros Hn Hrun Hs. unfold build_node_inner in Hrun.
  assert (∀ s d, site s d → ¬ d `prefix_of` base_working_dir (builder_of n)) as Hb.
  { intros s d Hd. by eapply lay_base. }
  destruct (r_kind n) as [ops|c].
  - rewrite run_bind in Hrun. destruct (run_task (build_operators _ _ _) w) as [r1 w1] eqn:E.
    eapply sound_operators in E; [|done..]. destruct r1; by simplify_eq/=.
  - change (mret (base_working_dir (builder_of n)) : Task Path) with (Ret (Ok (base_working_dir (builder_of n)))) in Hrun.
    rewrite run_bind in Hrun. cbn [run_task] in Hrun. rewrite run_bind in Hrun.
    destruct (run_task (match custom_build c with _ => _ end) w) as [r1 w1] eqn:E.
    assert (sound None Q w1) as Hs1.
    { destruct (custom_build c) as [build|]; [|cbn in E; by simplify_eq].
      eapply (sound_build Hcmd); [exact E| |exact Hs]. intros s d Hd Hp. by destruct (Hb s d Hd). }
    destruct r1; by simplify_eq/=.
Qed.

(** Nodes with a git source. *)
Lemma build_git_Ok n c w0 m s d prev (prev_dir : GitSource → Path → Prop) opt Q w dir w' :
  r_kind n = Custom c →
  chosen w0 m session (git_commit_hash s) prev prev_dir d opt →
  (∀ sp p, prev_dir sp p → ∀ ps, prev = Some ps → sp = prev_source ps → site sp p) →
  site s d → (planned m session d ∨ dir_exists w0 d = true → Q d) →
  sound None Q w → run_task (build_node_inner (builder_of n) n (Some opt)) w = (Ok dir, w') →
  dir = d ∧ sound None (λ x, x = d ∨ (¬ moved opt x ∧ Q x)) w'.
Proof.
  intros Hk Hch Hprev Hd HQ Hs Hrun. unfold build_node_inner in Hrun. rewrite Hk in Hrun.
  apply run_bind_Ok in Hrun as (a & w1 & Hrun1 & Hrun). apply run_bind_Ok in Hrun as ([] & w2 & Hrun2 & Hrun).
  cbn in Hrun. injection Hrun as <- <-.
  eapply prepare_Ok in Hrun1 as [Ea Hs1]; [|done..]. subst a. split; [done|].
  destruct (custom_build c) as [build|]; [|cbn in Hrun2; by simplify_eq].
  eapply (sound_build Hcmd); [exact Hrun2| |exact Hs1]. intros s' d' Hd' Hp.
  destruct (decide (d' = d)) as [|Hne]; [by left|].
  by destruct (site_apart Hlay s' d' s d Hd' Hd Hne) as [Ha _].
Qed.

Lemma moved_not_needed w0 m n s d opt :
  n ∈ nodes → chosen w0 m session (git_commit_hash s) (prev_git_of git_sources prev_git_sources (r_id n))
    (λ sp p, node_dir builder_of n sp = Ok p) d opt →
  ∀ s' d', needed builder_of git_sources nodes s' d' → ¬ moved opt d'.
Proof.
  intros Hn [_ Hopt] s' d' Hd' Hm. destruct opt as [| | |from target h]; cbn in Hm; try done. subst d'.
  destruct Hopt as (_ & _ & _ & ps & Hps & Hdir & _ & Hun). apply orb_false_iff in Hun as [Hun _].
  unfold prev_git_of in Hps. destruct (prev_git_sources !! r_id n) as [sp|] eqn:Ep; [|done]. cbn in Hps.
  injection Hps as <-. cbn [prev_source still_needed_for_this_build] in *.
  assert (site sp from) as Hsp by (exists n; auto).
  assert (s' = sp) as -> by (eapply (site_eq Hlay); [by apply needed_site|exact Hsp]).
  destruct Hd' as (n' & _ & Hg & _). apply not_true_iff_false in Hun. apply Hun, existsb_exists.
  exists sp. split; [|by apply bool_decide_eq_true]. apply list_elem_of_In, list_elem_of_fmap.
  exists (r_id n', sp). split; [done|]. by apply elem_of_btree_iter.
Qed.

(** What [build_node] plans for a node with a git source. *)
Lemma build_node_git w0 n s m r m' :
  n ∈ nodes → git_sources !! r_id n = Some s →
  build_node w0 (builder_of n) n (Some s) (prev_git_of git_sources prev_git_sources (r_id n)) m = (r, m') →
  match r with
  | Ok task => ∃ d opt, task = build_node_inner (builder_of n) n (Some opt) ∧ node_dir builder_of n s = Ok d ∧
      m' = register_ready_clone_dir session d m ∧
      chosen w0 m session (git_commit_hash s) (prev_git_of git_sources prev_git_sources (r_id n))
        (λ sp p, node_dir builder_of n sp = Ok p) d opt
  | _ => m' = m
  end.
Proof.
  intros Hn Eg Eb. unfold build_node in Eb. rewrite (lay_session _ _ _ _ _ Hlay n Hn) in Eb.
  pose proof (choose_clone_dir_spec w0 session s (prev_git_of git_sources prev_git_sources (r_id n))
    (path_join (base_working_dir (builder_of n)) "git") m) as Hch.
  destruct (choose_clone_dir _ _ _ _ _ _ _) as [[opt| |] m3]; cbn in Eb; injection Eb as <- <-; [|done..].
  destruct Hch as (url & d & Hu & Hd & -> & Hi & Hopt). exists d, opt.
  split; [done|]. split; [unfold node_dir; by rewrite Hu|]. split; [done|]. split; [done|].
  destruct opt; try done;
    destruct Hopt as (? & ? & ? & ps & ? & [Hr Hp] & ?); (split_and!; [done..|]); exists ps;
    (split; [done|]); (split; [|done]); unfold node_dir; by rewrite Hr, Hu.
Qed.

Lemma prev_git_site n sp p ps :
  n ∈ nodes → node_dir builder_of n sp = Ok p →
  prev_git_of git_sources prev_git_sources (r_id n) = Some ps → sp = prev_source ps → site sp p.
Proof.
  intros Hn Hp Hps ->. exists n. split; [done|]. split; [|done]. right.
  unfold prev_git_of in Hps. destruct (prev_git_sources !! r_id n); [|done]. by injection Hps as <-.
Qed.

Lemma plan_exec w0 ns m tasks m' Q w dirs0 dirs w' :
  ns ⊆ nodes → NoDup (r_id <$> ns) →
  plan_nodes w0 builder_of git_sources prev_git_sources ns m = (Ok tasks, m') →
  (∀ s d, needed builder_of git_sources nodes s d → planned m session d ∨ dir_exists w0 d = true → Q d) →
  sound None Q w → run_task (run_tasks tasks dirs0) w = (Ok dirs, w') →
  ∃ Q', sound None Q' w' ∧ (∀ s d, needed builder_of git_sources nodes s d → Q d → Q' d) ∧
    (∀ n s, n ∈ ns → git_sources !! r_id n = Some s →
       ∃ d, node_dir builder_of n s = Ok d ∧ Q' d ∧ dirs !! r_id n = Some d) ∧
    (∀ id, id ∉ r_id <$> ns → dirs !! id = dirs0 !! id).
Proof.
  revert m tasks m' Q w dirs0. induction ns as [|n ns IH]; intros m tasks m' Q w dirs0 Hns Hnd Hplan HQ Hs Hrun.
  { cbn in Hplan. injection Hplan as <- <-. cbn in Hrun. injection Hrun as <- <-.
    exists Q. split_and!; [done|done|set_solver|done]. }
  assert (n ∈ nodes) as Hn by set_solver. apply NoDup_cons in Hnd as [Hid Hnd]. cbn [plan_nodes] in Hplan.
  destruct (build_node w0 (builder_of n) n _ _ m) as [[task| |] m1] eqn:Eb; try done.
  destruct (plan_nodes w0 builder_of git_sources prev_git_sources ns m1) as [[tasks1| |] m2] eqn:Ep; try done.
  cbn in Hplan. injection Hplan as <- <-. cbn [run_tasks] in Hrun.
  apply run_bind_Ok in Hrun as (dir & w1 & Hrun1 & Hrun).
  destruct (git_sources !! r_id n) as [s|] eqn:Eg.
  - destruct (lay_custom _ _ _ _ _ Hlay n s Hn Eg) as [c Hc].
    apply build_node_git in Eb as (d & opt & -> & Hdir & -> & Hch); [|done..].
    assert (needed builder_of git_sources nodes s d) as Hneed by (exists n; auto).
    eapply (build_git_Ok n c) in Hrun1 as [Edir Hs1];
      [|done|exact Hch|by intros; eapply prev_git_site|by apply needed_site|by apply (HQ s)|exact Hs].
    subst dir. pose proof (moved_not_needed w0 m n s d opt Hn Hch) as Hmv.
    edestruct (IH (register_ready_clone_dir session d m)) as (Q' & Hs' & Hgrow & Hres & Hother);
      [set_solver|done|exact Ep| |exact Hs1|exact Hrun|].
    { intros s' d' Hd' [Hpl|Hex]; [apply planned_register in Hpl as [->|Hpl]; [by left|]|];
        right; (split; [by eapply Hmv|]); apply (HQ s'); auto. }
    exists Q'. split_and!; [done| | |].
    + intros s' d' Hd' Hq. apply (Hgrow s'); [done|]. right. split; [by eapply Hmv|done].
    + intros n' s' [->|Hn']%elem_of_cons Hg'; [|by apply Hres].
      assert (s' = s) as -> by congruence. exists d. split; [done|]. split; [apply (Hgrow s d Hneed); by left|].
      rewrite Hother by done. by rewrite lookup_insert_eq.
    + intros id Hid'. rewrite fmap_cons, not_elem_of_cons in Hid'. destruct Hid' as [Hne Hid'].
      rewrite Hother by done. by rewrite lookup_insert_ne.
  - injection Eb as <- <-. eapply build_plain_Ok in Hrun1; [|done..].
    edestruct (IH m) as (Q' & Hs' & Hgrow & Hres & Hother); [set_solver|done|exact Ep|exact HQ|exact Hrun1|exact Hrun|].
    exists Q'. split_and!; [done|done| |].
    + intros n' s' [->|Hn']%elem_of_cons Hg'; [congruence|by apply Hres].
    + intros id Hid'. rewrite fmap_cons, not_elem_of_cons in Hid'. destruct Hid' as [Hne Hid'].
      rewrite Hother by done. by rewrite lookup_insert_ne.
Qed.

(** *** Success *)

(** A machine on which nothing fails that does not have to. *)
Record reliable : Prop := {
  rel_create d w : (perform (CreateDirAll d) w).1 = Ok tt;
  rel_clone u d w : dir_exists w d = false → (perform (GitClone u d) w).1 = Ok tt;
  rel_copy f t w : dir_exists w f = true → dir_exists w t = true → (perform (CopyContent f t) w).1 = Ok tt;
  rel_rename f t w : dir_exists w f = true → dir_exists w t = false → (perform (Rename f t) w).1 = Ok tt;
  rel_fetch d w : dir_exists w d = true → (perform (GitFetch d) w).1 = Ok tt;
  rel_checkout d h w : dir_exists w d = true → full_hash h = true → (perform (GitCheckout d h) w).1 = Ok tt;
  rel_command c w : (perform (RunCommand c) w).1 = Ok tt
}.

(** The texts of the build commands of a node. *)
Definition build_texts (n : ResolvedNode) : list string :=
  match r_kind n with
  | Custom c => option_list (custom_build c)
  | Runtime ops => omap (λ op, op_build (opdef_config op)) ops
  end.
Definition commands_given : Prop :=
  ∀ n build line, n ∈ nodes → build ∈ build_texts n → line ∈ lines build → split_command line ≠ [].

Context (Hrel : reliable) (Hgiven : commands_given).

Lemma run_act_ok {A} op (f : unit → Task A) w :
  (perform op w).1 = Ok tt → run_task (act op ≫= f) w = run_task (f tt) (perform op w).2.
Proof. intros Hok. rewrite run_bind, run_act. destruct (perform op w) as [r w']. cbn in *. by subst. Qed.

Lemma contains_no_hex h c rest :
  string_forall is_hex_digit h = true → is_hex_digit c = false → contains h (String c rest) = false.
Proof.
  intros Hh Hc. induction h as [|a h IH]; [done|].
  change (is_hex_digit a && string_forall is_hex_digit h = true) in Hh. apply andb_true_iff in Hh as [Ha Hh].
  cbn [contains]. rewrite (IH Hh), orb_false_r. unfold starts_with. cbn.
  destruct (ascii_dec c a) as [->|]; [congruence|done].
Qed.
Lemma checkout_tree_hash dir h : full_hash h = true → checkout_tree dir h = act (GitCheckout dir h).
Proof.
  intros [_ Hh]%andb_true_iff. unfold checkout_tree. by rewrite !contains_no_hex.
Qed.

Lemma lines_succeed uv envs dir ls w :
  (∀ line, line ∈ ls → split_command line ≠ []) → ∃ w', run_task (run_lines uv envs dir ls) w = (Ok tt, w').
Proof.
  revert w. induction ls as [|line ls IH]; intros w Hls; [by eexists|]. cbn [run_lines].
  rewrite run_bind. cbn [run_task]. unfold build_command.
  destruct (split_command line) as [|program args] eqn:E; [by destruct (Hls line (list_elem_of_here _ _))|].
  destruct (if uv && _ then _ else _) as [program' args']. cbn beta iota zeta.
  rewrite run_act_ok by apply (rel_command Hrel). apply IH. intros l Hl. apply Hls. by right.
Qed.
Lemma build_succeeds_in n build dir uv envs w :
  n ∈ nodes → build ∈ build_texts n → ∃ w', run_task (run_build_command build dir uv envs) w = (Ok tt, w').
Proof.
  intros Hn Hb. unfold run_build_command. rewrite run_act_ok by apply (rel_create Hrel).
  apply lines_succeed. eauto.
Qed.

Lemma perform_ok op w : (perform op w).1 = Ok tt → perform op w = (Ok tt, (perform op w).2).
Proof. destruct (perform op w); cbn; congruence. Qed.

(** After the clone exists, fetching and checking out succeed. *)
Lemma checkout_succeeds s d w :
  site s d → dir_exists w d = true →
  ∃ w', run_task (checkout_tree d (git_commit_hash s);; mret d) w = (Ok d, w').
Proof.
  intros Hd Hex. pose proof (lay_hash _ _ _ _ _ Hlay s d Hd) as Hh. rewrite checkout_tree_hash by done.
  rewrite run_act_ok by by apply (rel_checkout Hrel). by eexists.
Qed.
Lemma fetch_succeeds s d w :
  site s d → dir_exists w d = true →
  ∃ w', run_task (act (GitFetch d);; checkout_tree d (git_commit_hash s);; mret d) w = (Ok d, w').
Proof.
  intros Hd Hex. pose proof (rel_fetch Hrel d w Hex) as Hok. rewrite run_act_ok by done.
  apply checkout_succeeds; [done|]. destruct (fetch_keeps d w _ _ (perform_ok _ _ Hok)) as [-> _]. done.
Qed.

Lemma prepare_succeeds w0 m s d prev (prev_dir : GitSource → Path → Prop) opt Q w :
  chosen w0 m session (git_commit_hash s) prev prev_dir d opt →
  (∀ sp p, prev_dir sp p → ∀ ps, prev = Some ps → sp = prev_source ps → site sp p) →
  site s d → (Q d → planned m session d ∨ dir_exists w0 d = true) →
  (∀ sp p ps, prev = Some ps → sp = prev_source ps → prev_dir sp p → dir_exists w0 p = true →
     ¬ planned m session d → Q p) →
  sound None Q w → ∃ w', run_task (prepare opt) w = (Ok d, w').
Proof.
  intros [_ Hopt] Hprev Hd HQ Hpq Hs. destruct opt as [target url h|dir0|from target h|from target h]; cbn [prepare].
  - destruct Hopt as (-> & -> & Hr).
    assert (dir_exists w d = false) as Hex.
    { destruct (dir_exists w d) eqn:E; [|done]. destruct Hr. apply HQ. by apply (Hs s d Hd). }
    assert (∃ w', run_task (clone_into url d;; checkout_tree d (git_commit_hash s)) w = (Ok tt, w')) as [w' Hrun].
    { assert (∀ w1, dir_exists w1 d = false → ∃ w', run_task (act (GitClone (url_text url) d);;
        checkout_tree d (git_commit_hash s)) w1 = (Ok tt, w')) as Hclone.
      { intros w1 Hw1. pose proof (rel_clone Hrel (url_text url) d w1 Hw1) as Hok. rewrite run_act_ok by done.
        pose proof (lay_hash _ _ _ _ _ Hlay s d Hd) as Hh. rewrite checkout_tree_hash, run_act by done.
        eexists. apply perform_ok, (rel_checkout Hrel); [|done]. eapply clone_ok, perform_ok, Hok. }
      unfold clone_into. destruct d as [|c d0]; [by apply Hclone|].
      rewrite run_bind, run_act_ok by apply (rel_create Hrel). rewrite <- run_bind. apply Hclone.
      destruct (create_keeps (removelast (c :: d0)) w _ _ (c :: d0) (perform_ok _ _ (rel_create Hrel _ w)))
        as (_ & Hsame & _). rewrite Hsame; [done|].
      intros Hp%prefix_length. assert (c :: d0 ≠ []) as Hne by done.
      pose proof (f_equal length (app_removelast_last EmptyString Hne)) as Hl. rewrite length_app in Hl.
      cbn [length] in *. lia. }
    rewrite run_bind. unfold try. rewrite run_then, Hrun. by eexists.
  - destruct Hopt as [-> _]. by eexists.
  - destruct Hopt as (-> & -> & Hr & ps & -> & Hp & Hex & _).
    pose proof (rel_create Hrel d w) as Hok. rewrite run_act_ok by done.
    set (w1 := (perform (CreateDirAll d) w).2).
    assert (dir_exists w1 d = true) as Hd1 by (eapply create_ok, perform_ok, Hok).
    assert (dir_exists w1 from = true) as Hf.
    { destruct (create_keeps d w _ _ from (perform_ok _ _ Hok)) as (Hg & _). apply Hg.
      apply (Hs (prev_source ps) from); [by eapply Hprev|done|]. eapply Hpq; try done. tauto. }
    pose proof (rel_copy Hrel from d w1 Hf Hd1) as Hok1. rewrite run_act_ok by done.
    apply fetch_succeeds; [done|]. by eapply copy_keeps; [apply perform_ok, Hok1|].
  - destruct Hopt as (-> & -> & Hr & ps & -> & Hp & Hex & _).
    assert (dir_exists w from = true) as Hf.
    { apply (Hs (prev_source ps) from); [by eapply Hprev|done|]. eapply Hpq; try done. tauto. }
    assert (dir_exists w d = false) as Hnd.
    { destruct (dir_exists w d) eqn:E; [|done]. destruct Hr. apply HQ. by apply (Hs s d Hd). }
    pose proof (rel_rename Hrel from d w Hf Hnd) as Hok. rewrite run_act_ok by done.
    apply fetch_succeeds; [done|]. eapply rename_ok; [apply perform_ok, Hok|]. intros ->. congruence.
Qed.

Lemma operators_succeed n b envs ops w :
  n ∈ nodes → (∀ op build, op ∈ ops → op_build (opdef_config op) = Some build → build ∈ build_texts n) →
  ∃ w', run_task (build_operators b envs ops) w = (Ok tt, w').
Proof.
  intros Hn. revert w. induction ops as [|op ops IH]; intros w Hops; [by eexists|]. cbn [build_operators].
  assert (∃ w1, run_task match op_build (opdef_config op) with
      | Some build => run_build_command build (base_working_dir b) (uv b) envs
      | None => mret tt end w = (Ok tt, w1)) as [w1 Hw1].
  { destruct (op_build (opdef_config op)) as [build|] eqn:E; [|by eexists].
    eapply build_succeeds_in; [exact Hn|]. apply (Hops op); [left|done]. }
  rewrite run_bind, Hw1. apply IH. intros op' build Hin. apply Hops. by right.
Qed.

Lemma plain_succeeds n w :
  n ∈ nodes → ∃ dir w', run_task (build_node_inner (builder_of n) n None) w = (Ok dir, w').
Proof.
  intros Hn. unfold build_node_inner. destruct (r_kind n) as [ops|c] eqn:Ek.
  - destruct (operators_succeed n (builder_of n) (r_env n) ops w) as [w' Hw']; [done| |].
    { intros op build Hop Hb. unfold build_texts. rewrite Ek. apply list_elem_of_omap. eauto. }
    rewrite run_bind, Hw'. by eexists _, _.
  - rewrite run_bind. cbn [run_task mret task_ret]. rewrite run_bind.
    destruct (custom_build c) as [build|] eqn:Eb; [|by eexists _, _].
    destruct (build_succeeds_in n build (base_working_dir (builder_of n)) (uv (builder_of n)) (r_env n) w)
      as [w' Hw']; [done| |rewrite Hw'; by eexists _, _].
    unfold build_texts. rewrite Ek, Eb. by left.
Qed.

Lemma git_succeeds n c opt d w w1 :
  n ∈ nodes → r_kind n = Custom c → run_task (prepare opt) w = (Ok d, w1) →
  ∃ w', run_task (build_node_inner (builder_of n) n (Some opt)) w = (Ok d, w').
Proof.
  intros Hn Ek Hp. unfold build_node_inner. rewrite Ek, run_bind, Hp, run_bind.
  destruct (custom_build c) as [build|] eqn:Eb; [|by eexists].
  destruct (build_succeeds_in n build d (uv (builder_of n)) (r_env n) w1) as [w' Hw']; [done| |rewrite Hw'; by eexists].
  unfold build_texts. rewrite Ek, Eb. by left.
Qed.

(** Every source has a directory, none is in use, and nodes that come from one clone go on to
    one clone, unless the old one is still needed. *)
Definition sources_readable : Prop :=
  ∀ n s, n ∈ nodes → git_sources !! r_id n = Some s → is_ok (node_dir builder_of n s) = true.
Definition idle (m : GitManager) : Prop := ∀ d, in_use m d = false.
Definition no_conflict : Prop :=
  ∀ n n' s s' sp p, n ∈ nodes → n' ∈ nodes →
    git_sources !! r_id n = Some s → git_sources !! r_id n' = Some s' →
    prev_git_sources !! r_id n = Some sp → prev_git_sources !! r_id n' = Some sp →
    node_dir builder_of n sp = Ok p → node_dir builder_of n' sp = Ok p →
    (∃ id, git_sources !! id = Some sp) ∨ node_dir builder_of n s = node_dir builder_of n' s'.

Lemma choose_succeeds w0 n s prev m :
  is_ok (node_dir builder_of n s) = true → idle m →
  is_ok (choose_clone_dir w0 (session_id (builder_of n)) (git_repo s) (git_commit_hash s) prev
    (path_join (base_working_dir (builder_of n)) "git") m).1 = true.
Proof.
  intros Hdir Hidle. unfold node_dir, choose_clone_dir in *.
  destruct (parse_url (git_repo s)) as [url| |]; cbn [mbind res_bind] in *; [|done..].
  unfold clone_dir_path in *. destruct (host_str url) as [host|]; [|done].
  destruct (path_segments url) as [segments|]; [|done]. cbn [res_of_option mbind res_bind].
  rewrite Hidle. destruct (clone_dir_ready _ _ _ _); [done|].
  destruct prev as [ps|]; [|done]. cbn [mbind option_bind]. case_bool_decide; [|done].
  cbn [res_of_option mbind res_bind]. destruct (dir_exists _ _); [|done]. by destruct (_ || _).
Qed.

Lemma plan_succeeds w0 ns m Q w dirs0 :
  sources_readable → no_conflict → idle m → ns ⊆ nodes →
  (∀ s d, needed builder_of git_sources nodes s d → planned m session d ∨ dir_exists w0 d = true ↔ Q d) →
  (∀ n s d sp p, n ∈ ns → git_sources !! r_id n = Some s → prev_git_sources !! r_id n = Some sp →
     node_dir builder_of n s = Ok d → node_dir builder_of n sp = Ok p → dir_exists w0 p = true →
     ¬ planned m session d → Q p) →
  sound None Q w →
  ∃ tasks m' dirs w', plan_nodes w0 builder_of git_sources prev_git_sources ns m = (Ok tasks, m') ∧
    run_task (run_tasks tasks dirs0) w = (Ok dirs, w').
Proof.
  intros Hread Hnc. revert m Q w dirs0. induction ns as [|n ns IH]; intros m Q w dirs0 Hidle Hns HA HB Hs.
  { by eexists _, _, _, _. }
  assert (n ∈ nodes) as Hn by set_solver. cbn [plan_nodes].
  destruct (build_node w0 (builder_of n) n _ _ m) as [r m1] eqn:Eb.
  destruct (git_sources !! r_id n) as [s|] eqn:Eg.
  - assert (is_ok r = true) as [task ->]%is_ok_inv.
    { unfold build_node in Eb.
      pose proof (choose_succeeds w0 n s (prev_git_of git_sources prev_git_sources (r_id n)) m (Hread n s Hn Eg) Hidle).
      destruct (choose_clone_dir _ _ _ _ _ _ _) as [[] ?]; cbn in *; try done. by injection Eb as <- <-. }
    destruct (lay_custom _ _ _ _ _ Hlay n s Hn Eg) as [c Hc].
    apply build_node_git in Eb as (d & opt & -> & Hdir & -> & Hch); [|done..].
    assert (needed builder_of git_sources nodes s d) as Hneed by (exists n; auto).
    assert (∃ w1, run_task (prepare opt) w = (Ok d, w1)) as [w1 Hprep].
    { eapply prepare_succeeds; [exact Hch|by intros; eapply prev_git_site|by apply needed_site|by apply (HA s)| |exact Hs].
      intros sp p ps Hps -> Hp Hex Hnp. unfold prev_git_of in Hps.
      destruct (prev_git_sources !! r_id n) as [sp|] eqn:Ep; [|done]. injection Hps as <-.
      eapply (HB n s d sp p); try done. left. }
    destruct (git_succeeds n c opt d w w1) as [w2 Hrun]; [done..|].
    pose proof Hrun as Hs2. eapply (build_git_Ok n c) in Hs2 as [_ Hs2];
      [|done|exact Hch|by intros; eapply prev_git_site|by apply needed_site|by apply (HA s)|exact Hs].
    pose proof (moved_not_needed w0 m n s d opt Hn Hch) as Hmv.
    edestruct (IH (register_ready_clone_dir session d m)) as (tasks & m' & dirs & w' & Hplan & Hrun');
      [exact Hidle|set_solver| | |exact Hs2|].
    { intros s' d' Hd'. rewrite planned_register. pose proof (Hmv s' d' Hd'). rewrite <- (HA s' d' Hd'). tauto. }
    { intros n' s' d' sp p Hn' Hg' Hp' Hd' Hdp Hex Hnp. right. rewrite planned_register in Hnp.
      split; [|eapply (HB n' s' d' sp p); try done; [by right|tauto]]. intros Hm.
      destruct opt as [| | |from target h]; cbn in Hm; try done. subst from.
      destruct Hch as (_ & _ & _ & _ & ps & Hps & Hfrom & _ & Hun). unfold prev_git_of in Hps.
      destruct (prev_git_sources !! r_id n) as [sp1|] eqn:Ep1; [|done]. injection Hps as <-. cbn in *.
      assert (sp1 = sp) as ->.
      { eapply (site_eq Hlay _ _ p); [exists n; auto|exists n'; split; [set_solver|auto]]. }
      destruct (Hnc n n' s s' sp p) as [[id Hid]|Hsame]; try done; [set_solver| |].
      - apply orb_false_iff in Hun as [Hun _]. apply not_true_iff_false in Hun. apply Hun, existsb_exists.
        exists sp. split; [|by apply bool_decide_eq_true]. apply list_elem_of_In, list_elem_of_fmap.
        exists (id, sp). split; [done|]. by apply elem_of_btree_iter.
      - apply Hnp. left. congruence. }
    rewrite Hplan. eexists _, _, dirs, w'. split; [done|]. cbn [run_tasks]. rewrite run_bind, Hrun. exact Hrun'.
  - injection Eb as <- <-. destruct (plain_succeeds n w) as (dir & w1 & Hrun); [done|].
    pose proof Hrun as Hs1. eapply build_plain_Ok in Hs1; [|done..].
    destruct (IH m Q w1 (<[r_id n := dir]> dirs0)) as (tasks & m' & dirs & w' & Hplan & Hrun');
      [done|set_solver|done| |done|].
    { intros n' s' d' sp p Hn'. apply HB. by right. }
    rewrite Hplan. eexists _, _, dirs, w'. split; [done|]. cbn [run_tasks]. rewrite run_bind, Hrun. exact Hrun'.
Qed.
End tasks.

(** ** Builds of the daemon *)

Section theorems.
Context `{GitLaws} (ros2_json : Ros2BridgeConfig → res string).

Definition local_of (nodes : gmap NodeId ResolvedNode) (local_nodes : gset NodeId) : list ResolvedNode :=
  retain (λ n, bool_decide (r_id n ∈ local_nodes)) (btree_iter nodes).*2.

Lemma elem_of_local_of nodes local_nodes n :
  keyed nodes → n ∈ local_of nodes local_nodes ↔ nodes !! r_id n = Some n ∧ r_id n ∈ local_nodes.
Proof.
  intros Hk. unfold local_of. rewrite elem_of_retain, bool_decide_eq_true, list_elem_of_fmap. split.
  - intros [Hin ([id n'] & -> & Hb)]. cbn in *. apply elem_of_btree_iter in Hb. split; [|done].
    by rewrite (Hk id n' Hb).
  - intros [Hn Hin]. split; [done|]. exists (r_id n, n). split; [done|]. by apply elem_of_btree_iter.
Qed.
Lemma NoDup_retain_fmap {A B} (f : A → B) (p : A → bool) l : NoDup (f <$> l) → NoDup (f <$> retain p l).
Proof.
  induction l as [|a l IH]; [done|]. rewrite fmap_cons, NoDup_cons. intros [Ha Hl]. unfold retain in *.
  destruct (decide (p a = true)) as [Hp|Hp]; [rewrite filter_cons_True by done|rewrite filter_cons_False by done; by apply IH].
  rewrite fmap_cons, NoDup_cons. split; [|by apply IH]. rewrite list_elem_of_fmap in *.
  intros (y & E & [_ Hy]%list_elem_of_filter). apply Ha. eauto.
Qed.
Lemma NoDup_local_of nodes local_nodes : keyed nodes → NoDup (r_id <$> local_of nodes local_nodes).
Proof.
  intros Hk. apply NoDup_retain_fmap.
  assert (r_id <$> (btree_iter nodes).*2 = btree_keys nodes) as ->; [|apply NoDup_btree_keys].
  unfold btree_keys. rewrite <- list_fmap_compose. apply list_fmap_ext. intros i [id n] Hi. cbn.
  apply list_elem_of_lookup_2, elem_of_btree_iter in Hi. by apply Hk.
Qed.

Context (w : World) (session : Uuid) (base : Path) (uv : bool).
Context (git_sources prev_git_sources : gmap NodeId GitSource) (d : Descriptor) (local_nodes : gset NodeId).
Context (nodes : gmap NodeId ResolvedNode) (Hresolve : resolve_aliases_and_set_defaults ros2_json d = Ok nodes).
Let builder := node_builder (mkBuilder session base uv).
Let local := local_of nodes local_nodes.
Context (Hlay : layout_ok builder git_sources prev_git_sources local session).
Context (Hcmd : commands_keep builder git_sources prev_git_sources local).
Context (Hclean : clean builder git_sources prev_git_sources local w).

Lemma clean_sound :
  sound (builder_of:=builder) (git_sources:=git_sources) (prev_git_sources:=prev_git_sources) (nodes:=local)
    None (λ d, dir_exists w d = true) w.
Proof. intros s dir Hd _. split; [done|]. by apply Hclean. Qed.

Lemma not_planned m dir : ¬ planned (clear_planned_builds session m) session dir.
Proof. intros (p & Hp & _). cbn in Hp. by rewrite lookup_delete_eq in Hp. Qed.

(** C31. A build that succeeds, from clones that are each on the commit they are named after
    ([clean], for example none at all), with sources given by their hashes in directories that do
    not contain each other ([layout_ok]) and build commands that leave the clones alone
    ([commands_keep]).  For every local node with a git source, the build gives the directory of
    its repository and commit, and this commit is checked out there, whatever clones it shares,
    copies or renames; and every clone that exists, old or new, is again on the commit it is named
    after, so that the next build starts as this one did.  A build that fails does not leave that
    ([failed_fetch_reused]). *)
Theorem build_checks_out m task m' dirs w' :
  build_dataflow ros2_json w session base git_sources prev_git_sources d local_nodes uv m = (Ok task, m') →
  run_task task w = (Ok dirs, w') →
  clean builder git_sources prev_git_sources local w' ∧
  ∀ id n s, nodes !! id = Some n → id ∈ local_nodes → git_sources !! id = Some s →
    ∃ dir, node_dir builder n s = Ok dir ∧ dirs !! id = Some dir ∧ head_commit w' dir = Some (git_commit_hash s).
Proof.
  unfold build_dataflow. rewrite Hresolve. fold (local_of nodes local_nodes). fold local.
  change (node_builder _) with builder.
  destruct (plan_nodes _ _ _ _ _ _) as [[tasks| |] m1] eqn:Ep; try done. cbn. intros [= <- <-] Hrun.
  pose proof (resolve_keyed _ _ _ Hresolve) as Hk.
  edestruct (plan_exec (session:=session) Hlay Hcmd w local (clear_planned_builds session m))
    as (Q & Hs & _ & Hres & _); [done|by apply NoDup_local_of|exact Ep| |exact clean_sound|exact Hrun|].
  { by intros s dir _ [?%not_planned|]. }
  split.
  - intros s dir Hd Hex. destruct (Hs s dir Hd) as [HQ Hh]; [done|]. by apply Hh, HQ.
  - intros id n s Hn Hin Hg. pose proof (Hk id n Hn) as Eid. subst id.
    assert (n ∈ local) as Hl by by apply elem_of_local_of.
    destruct (Hres n s Hl Hg) as (dir & Hdir & Hq & Hd). exists dir. split; [done|]. split; [done|].
    apply (Hs s dir); [by exists n; auto|done|done].
Qed.

(** A build succeeds on a machine on which nothing fails: its commands are not blank, its
    sources have directories, no clone is in use, and nodes that come from one old clone go on
    to one new clone. *)
Theorem build_succeeds m :
  reliable → commands_given (nodes:=local) →
  sources_readable (builder_of:=builder) (git_sources:=git_sources) (nodes:=local) →
  no_conflict (builder_of:=builder) (git_sources:=git_sources) (prev_git_sources:=prev_git_sources) (nodes:=local) →
  idle m →
  ∃ task m' dirs w',
    build_dataflow ros2_json w session base git_sources prev_git_sources d local_nodes uv m = (Ok task, m') ∧
    run_task task w = (Ok dirs, w').
Proof.
  intros Hrel Hgiven Hread Hnc Hidle. unfold build_dataflow. rewrite Hresolve.
  fold (local_of nodes local_nodes). fold local. change (node_builder _) with builder.
  edestruct (plan_succeeds (session:=session) Hlay Hcmd Hrel Hgiven w local (clear_planned_builds session m)
    (λ d, dir_exists w d = true) w ∅) as (tasks & m' & dirs & w' & -> & Hrun); [done..| | |exact clean_sound|].
  - intros s dir _. split; [by intros [?%not_planned|]|by right].
  - by intros.
  - by eexists _, _, _, _.
Qed.
End theorems.

(** ** What the clones are not protected against *)

Section unprotected.
Context `{GitLaws} (ros2_json : Ros2BridgeConfig → res string).

(** The managers the daemon can get to: it builds dataflows and finishes them. *)
Inductive daemon_manager : GitManager → Prop :=
| manager_start : daemon_manager git_manager_default
| manager_build w session base git_sources prev_git_sources d local_nodes uv m r m' :
    daemon_manager m →
    build_dataflow ros2_json w session base git_sources prev_git_sources d local_nodes uv m = (r, m') →
    daemon_manager m'
| manager_finish dataflow_id m : daemon_manager m → daemon_manager (release_clones dataflow_id m).

Lemma choose_in_use w session repo h prev target m r m' :
  choose_clone_dir w session repo h prev target m = (r, m') → clones_in_use m' = clones_in_use m.
Proof.
  intros Hc. pose proof (choose_clone_dir_spec w session (mkGitSource repo h) prev target m) as Hs.
  cbn [git_repo git_commit_hash] in Hs. rewrite Hc in Hs. destruct r; [|by subst..].
  by destruct Hs as (url & d & _ & _ & -> & _).
Qed.

Lemma plan_in_use w builder_of git_sources prev_git_sources ns m r m' :
  plan_nodes w builder_of git_sources prev_git_sources ns m = (r, m') → clones_in_use m' = clones_in_use m.
Proof.
  revert m r m'. induction ns as [|n ns IH]; intros m r m'; cbn [plan_nodes]; [by intros [= <- <-]|].
  destruct (build_node w (builder_of n) n _ _ m) as [r1 m1] eqn:Eb.
  assert (clones_in_use m1 = clones_in_use m) as <-.
  { unfold build_node in Eb. destruct (git_sources !! r_id n) as [s|]; [|by injection Eb as <- <-].
    destruct (choose_clone_dir _ _ _ _ _ _ _) as [r2 m2] eqn:Ec. injection Eb as <- <-. by eapply choose_in_use. }
  destruct r1; [|by intros [= <- <-]..].
  destruct (plan_nodes _ _ _ _ ns m1) as [r2 m2] eqn:Ep. intros [= <- <-]. by eapply IH.
Qed.

Lemma manager_in_use m : daemon_manager m → clones_in_use m = ∅.
Proof.
  induction 1 as [|w session base gs prev d local uv m r m' _ IH Hb|id m _ IH]; [done| |].
  - unfold build_dataflow in Hb. rewrite <- IH. change (clones_in_use m) with (clones_in_use (clear_planned_builds session m)).
    destruct (resolve_aliases_and_set_defaults ros2_json d) as [nodes| |]; [|by injection Hb as <- <-..].
    destruct (plan_nodes _ _ _ _ _ _) as [r1 m1] eqn:Ep. injection Hb as <- <-. by eapply plan_in_use.
  - cbn. by rewrite IH, fmap_empty.
Qed.

(** Running dataflows do not protect their clones.  No clone is ever registered as used by a
    dataflow: whatever was built and run, the daemon refuses no build because of a running
    dataflow, and a previous clone that this build does not need is moved away, whether or not
    a node runs in it. *)
Theorem running_clone_moved m w session s sp target url dir from :
  daemon_manager m → parse_url (git_repo s) = Ok url →
  clone_dir_path target url (git_commit_hash s) = Ok dir →
  clone_dir_path target url (git_commit_hash sp) = Ok from → git_repo sp = git_repo s →
  ¬ planned m session dir → dir_exists w dir = false → dir_exists w from = true →
  (choose_clone_dir w session (git_repo s) (git_commit_hash s) (Some (mkPrevGit sp false)) target m).1
  = Ok (RenameAndFetch from dir (git_commit_hash s)).
Proof.
  intros Hm Hu Hdir Hfrom Hrepo Hnp Hnex Hex. apply manager_in_use in Hm.
  assert (∀ p, in_use m p = false) as Hidle by (intros p; unfold in_use; by rewrite Hm, lookup_empty).
  unfold choose_clone_dir. rewrite Hu. cbn [mbind res_bind]. rewrite Hdir. cbn [mbind res_bind option_bind].
  rewrite Hidle. destruct (clone_dir_ready w session dir m) eqn:Er.
  { apply clone_dir_ready_spec in Er as [|]; [done|congruence]. }
  cbn [prev_source]. rewrite bool_decide_eq_true_2 by done. rewrite Hfrom. cbn [mbind res_bind].
  by rewrite Hex, Hidle.
Qed.

(** C40. A fetch that fails after the rename.  The directory already has the name of the new commit
    and still holds the old one.  The next build takes it for the new commit and succeeds. *)
Theorem failed_fetch_reused w from dir h e w1 w2 session repo prev target m url :
  from ≠ dir → perform (Rename from dir) w = (Ok tt, w1) → perform (GitFetch dir) w1 = (Err e, w2) →
  parse_url repo = Ok url → clone_dir_path target url h = Ok dir → idle m →
  run_task (prepare (RenameAndFetch from dir h)) w = (Err e, w2) ∧
  (choose_clone_dir w2 session repo h prev target m).1 = Ok (Reuse dir) ∧
  run_task (prepare (Reuse dir)) w2 = (Ok dir, w2) ∧ head_commit w2 dir = head_commit w from.
Proof.
  intros Hne Hren Hfetch Hu Hdir Hidle.
  destruct (rename_ok _ _ _ _ Hren Hne) as (_ & Hex & Hhead). destruct (fetch_keeps _ _ _ _ Hfetch) as [Hex2 Hhead2].
  split_and!.
  - cbn [prepare]. by rewrite run_bind, run_act, Hren, run_bind, run_act, Hfetch.
  - unfold choose_clone_dir. rewrite Hu. cbn [mbind res_bind]. rewrite Hdir. cbn [mbind res_bind].
    rewrite Hidle. by rewrite (proj2 (clone_dir_ready_spec w2 session dir m)) by (right; congruence).
  - done.
  - congruence.
Qed.

(** Two nodes that were built from one commit and are now to be built from two others.  Both
    plan to move the old clone: when the first has done so, the second fails, although no
    operation had to fail. *)
Theorem shared_previous_clone_fails w session s1 s2 sp target m url dir1 dir2 from :
  idle m → parse_url (git_repo sp) = Ok url → git_repo s1 = git_repo sp → git_repo s2 = git_repo sp →
  clone_dir_path target url (git_commit_hash s1) = Ok dir1 →
  clone_dir_path target url (git_commit_hash s2) = Ok dir2 →
  clone_dir_path target url (git_commit_hash sp) = Ok from →
  dir1 ≠ dir2 → apart from dir1 → (∀ p, ¬ planned m session p) →
  dir_exists w from = true → dir_exists w dir1 = false → dir_exists w dir2 = false →
  let prev := Some (mkPrevGit sp false) in
  ∃ opt1 m1 opt2 m2,
    choose_clone_dir w session (git_repo s1) (git_commit_hash s1) prev target m = (Ok opt1, m1) ∧
    choose_clone_dir w session (git_repo s2) (git_commit_hash s2) prev target m1 = (Ok opt2, m2) ∧
    ∀ w1, run_task (prepare opt1) w = (Ok dir1, w1) → is_ok (run_task (prepare opt2) w1).1 = false.
Proof.
  intros Hidle Hu Hr1 Hr2 Hd1 Hd2 Hf Hne Hap Hnp Hex Hn1 Hn2 prev.
  assert (∀ s dir m', git_repo s = git_repo sp → clone_dir_path target url (git_commit_hash s) = Ok dir →
    dir_exists w dir = false → idle m' → ¬ planned m' session dir →
    choose_clone_dir w session (git_repo s) (git_commit_hash s) prev target m'
    = (Ok (RenameAndFetch from dir (git_commit_hash s)), register_ready_clone_dir session dir m')) as Hch.
  { intros s dir m' Hr Hd Hn Hi Hp. unfold choose_clone_dir. rewrite Hr, Hu. cbn [mbind res_bind].
    rewrite Hd. cbn [mbind res_bind option_bind prev]. rewrite Hi.
    destruct (clone_dir_ready w session dir m') eqn:Er.
    { apply clone_dir_ready_spec in Er as [|]; [done|congruence]. }
    cbn [prev_source]. rewrite bool_decide_eq_true_2 by done. rewrite Hf. cbn [mbind res_bind].
    by rewrite Hex, Hi. }
  eexists _, _, _, _. split; [by apply Hch|]. split.
  { apply Hch; try done. rewrite planned_register. intros [|]; [congruence|]. by eapply Hnp. }
  intros w1 Hrun. cbn [prepare] in *. run_steps. cbn in Hrun. injection Hrun as <-.
  assert (from ≠ dir1) as Hfd by (intros ->; by destruct Hap).
  destruct (rename_ok _ _ _ _ Hrun0 Hfd) as (Hgone & _ & _).
  apply checkout_tree_Ok in Hrun2.
  destruct (untouched (GitFetch dir1) [dir1] _ _ _ from Hrun1 eq_refl) as [E1 _]; [by apply Forall_singleton|].
  destruct (untouched (GitCheckout dir1 _) [dir1] _ _ _ from Hrun2 eq_refl) as [E2 _]; [by apply Forall_singleton|].
  rewrite run_bind, run_act. destruct (perform (Rename from dir2) _) as [r w'] eqn:E.
  apply rename_missing in E as [E _]; [|congruence]. by destruct r.
Qed.

(** A blank line in a build text is an error, after the lines before it were run. *)
Lemma blank_line_fails uv envs dir w :
  split_command EmptyString = [] →
  is_ok (run_task (run_lines uv envs dir [EmptyString]) w).1 = false.
Proof. intros Hb. cbn [run_lines]. rewrite run_bind. cbn [run_task]. unfold build_command. by rewrite Hb. Qed.

(** With [--parallel], a task can run to its end before any other has started: a node that
    reuses the clone another node is to create can be built in the missing directory. *)
Lemma pool_runs_alone l node (t : Task Path) l' dirs w r w' :
  run_task t w = (r, w') →
  rtc pool_step (mkPool (l ++ (node, t) :: l') dirs w) (mkPool (l ++ (node, Ret r) :: l') dirs w').
Proof.
  revert w. induction t as [r0|op k IH]; intros w; cbn [run_task]; [by intros [= <- <-]|].
  destruct (perform op w) as [r1 w1] eqn:E. intros Hrun. eapply rtc_l; [by constructor|]. by apply IH.
Qed.
Lemma parallel_reuse_unordered node1 t1 node2 n b d dirs w :
  r_kind n = Custom b → custom_build b = None →
  rtc pool_step (mkPool [(node1, t1); (node2, build_node_inner (mkBuilder 0 [] false) n (Some (Reuse d)))] dirs w)
    (mkPool [(node1, t1)] (<[node2 := d]> dirs) w).
Proof.
  intros Hk Hb. etrans.
  - apply (pool_runs_alone [(node1, t1)] node2 _ [] dirs w (Ok d) w). unfold build_node_inner. by rewrite Hk, Hb.
  - apply rtc_once, (pool_join [(node1, t1)] node2 d []).
Qed.
End unprotected.

(** ** A concrete machine *)

(** The directories with what is checked out in them; without a connection, git fails. *)
Abbreviation Machine := (gmap Path (option string)) (only parsing).

Definition machine_perform (offline : bool) (op : Op) (w : Machine) : res unit * Machine :=
  let set d h := (Ok tt, <[d := h]> w) in
  let failed := (Err "failed", w) in
  match op with
  | CreateDirAll d => match w !! d with Some _ => (Ok tt, w) | None => set d None end
  | RemoveDirAll d => (Ok tt, delete d w)
  | Rename f t =>
      match w !! f, w !! t with
      | Some h, None => (Ok tt, <[t := h]> (delete f w))
      | _, _ => failed
      end
  | CopyContent f t => match w !! f with Some h => set t h | None => failed end
  | GitClone _ d => if offline then failed else match w !! d with Some _ => failed | None => set d None end
  | GitFetch d => if offline then failed else match w !! d with Some _ => (Ok tt, w) | None => failed end
  | GitCheckout d h => match w !! d with Some _ => set d (Some h) | None => failed end
  | RunCommand _ => (Ok tt, w)
  end.

Definition machine_world (off : bool) : GitWorld := {|
  World := Machine;
  dir_exists (w : Machine) p := bool_decide (is_Some (w !! p));
  perform := machine_perform off;
  parse_url s := Ok (mkUrl s (Some "host"%string) (Some [s]));
  split_command s := match s with EmptyString => [] | _ => [s] end
|}.

Lemma apart_ne p q : apart p q → p ≠ q.
Proof. intros [Ha _] ->. by destruct Ha. Qed.

Definition machine_laws (off : bool) : @GitLaws (machine_world off).
Proof.
  refine (Build_GitLaws (machine_world off) (λ (w : Machine) p, mjoin (w !! p)) _ _ _ _ _ _ _ _ _);
    cbn [perform dir_exists machine_world World].
  - intros d w r w' p. unfold machine_perform. destruct (w !! d) as [h|] eqn:E; intros [= <- <-]; [done|].
    destruct (decide (p = d)) as [->|Hne]; [rewrite lookup_insert_eq, E|by rewrite lookup_insert_ne by done].
    split_and!; [done| |done]. intros Hp. by destruct (Hp (reflexivity d)).
  - intros d w w'. unfold machine_perform. destruct (w !! d) as [h|] eqn:E; intros [= <-]; [by rewrite E|].
    by rewrite lookup_insert_eq.
  - intros op ds w r w' p Hop Ht Hap. assert (w' !! p = w !! p) as ->; [|done].
    destruct op; cbn [touched] in Ht; simplify_eq;
      repeat match goal with H : Forall _ (_ :: _) |- _ => apply Forall_cons in H as [?%apart_ne H] end;
      unfold machine_perform in Hop; repeat case_match; simplify_eq;
      rewrite ?lookup_insert_ne, ?lookup_delete_ne by done; done.
  - intros d w r w'. unfold machine_perform.
    destruct off; [by intros [= <- <-]|]. destruct (w !! d) eqn:E; intros [= <- <-]; by rewrite E.
  - intros f t w r w'. unfold machine_perform. destruct (w !! f); intros [= <- <-]; [|done].
    intros _. by rewrite lookup_insert_eq.
  - intros u d w w'. unfold machine_perform. destruct off, (w !! d); intros [=]; subst; by rewrite lookup_insert_eq.
  - intros d h w w'. unfold machine_perform. destruct (w !! d); intros [=] _; subst. by rewrite lookup_insert_eq.
  - intros f t w w'. unfold machine_perform. destruct (w !! f), (w !! t); intros [=] Hne; subst.
    by rewrite lookup_insert_ne, lookup_delete_eq, lookup_insert_eq by done.
  - intros f t w r w'. unfold machine_perform. destruct (w !! f); [done|]. by intros [= <- <-] _.
Defined.

Definition online : GitWorld := machine_world false.
Definition online_laws : @GitLaws online := machine_laws false.

Fixpoint sample_hash (n : nat) (c : ascii) : string :=
  match n with O => EmptyString | S n => String c (sample_hash n c) end.
Definition git_sample (c : ascii) : GitSource := mkGitSource "r" (sample_hash 40 c).
Definition sample_dir (c : ascii) : Path := ["w"; "git"; "host"; "r"; sample_hash 40 c]%string.
Definition git_node (id : NodeId) : Node :=
  let n := plain_node id ∅ ∅ in {| n with n_git := Some "r"%string; n_build := Some "make"%string |}.
Definition git_descriptor : Descriptor := plain_descriptor [git_node "a"].
Definition git_nodes : gmap NodeId ResolvedNode :=
  match resolve_aliases_and_set_defaults (λ _, Ok EmptyString) git_descriptor with Ok m => m | _ => ∅ end.
Definition sample_machine : @World online := {[sample_dir "a" := Some (sample_hash 40 "a")]}.

#[local] Existing Instance online.
#[local] Existing Instance online_laws.

Definition sample_node : ResolvedNode :=
  default (mkResolved "" None None None None None (Runtime [])) (git_nodes !! "a"%string).
Lemma local_sample n : n ∈ local_of git_nodes {["a"%string]} → n = sample_node.
Proof.
  assert (local_of git_nodes {["a"%string]} = [sample_node]) as -> by (vm_compute; reflexivity).
  apply list_elem_of_singleton.
Qed.

Abbreviation sample_site := (site (node_builder (mkBuilder 1 ["w"%string] false)) {["a"%string := git_sample "b"]}
  {["a"%string := git_sample "a"]} (local_of git_nodes {["a"%string]})).

Lemma sample_site_cases s d :
  sample_site s d → ∃ c, s = git_sample c ∧ d = sample_dir c ∧ (c = "a"%char ∨ c = "b"%char).
Proof.
  intros (n & Hn & Hs & Hd). apply local_sample in Hn as ->.
  destruct Hs as [Hs|Hs]; vm_compute in Hs; injection Hs as <-; vm_compute in Hd; injection Hd as <-;
    [exists "b"%char|exists "a"%char]; (split_and!; [vm_compute; reflexivity..|tauto]).
Qed.

Lemma sample_apart c c' : c = "a"%char ∨ c = "b"%char → c' = "a"%char ∨ c' = "b"%char →
  c = c' ∨ apart (sample_dir c) (sample_dir c').
Proof.
  intros [-> | ->] [-> | ->]; auto; right; split; apply (bool_decide_unpack _); vm_compute; exact I.
Qed.

Lemma sample_layout : layout_ok (node_builder (mkBuilder 1 ["w"%string] false)) {["a"%string := git_sample "b"]}
  {["a"%string := git_sample "a"]} (local_of git_nodes {["a"%string]}) 1.
Proof.
  split.
  - intros s d s' d' (c & -> & -> & Hc)%sample_site_cases (c' & -> & -> & Hc')%sample_site_cases.
    destruct (sample_apart c c' Hc Hc') as [->|]; auto.
  - intros s d n (c & -> & -> & Hc)%sample_site_cases Hn Hp. apply local_sample in Hn as ->. apply prefix_length in Hp. vm_compute in Hp. lia.
  - intros s d (c & -> & _ & [-> | ->])%sample_site_cases; vm_compute; reflexivity.
  - intros n s Hn _. apply local_sample in Hn as ->. eexists. vm_compute. reflexivity.
  - intros n Hn. apply local_sample in Hn as ->. vm_compute. reflexivity.
Qed.

Lemma sample_commands : commands_keep (node_builder (mkBuilder 1 ["w"%string] false)) {["a"%string := git_sample "b"]}
  {["a"%string := git_sample "a"]} (local_of git_nodes {["a"%string]}).
Proof. by intros c w r w' s d [= <- <-] _. Qed.
Lemma sample_clean : clean (node_builder (mkBuilder 1 ["w"%string] false)) {["a"%string := git_sample "b"]}
  {["a"%string := git_sample "a"]} (local_of git_nodes {["a"%string]}) sample_machine.
Proof. intros s d (c & -> & -> & [-> | ->])%sample_site_cases; vm_compute; congruence. Qed.

Definition sample_build : res (Task (gmap NodeId Path)) * GitManager :=
  build_dataflow (λ _, Ok EmptyString) sample_machine 1%N ["w"%string] {["a"%string := git_sample "b"]}
    {["a"%string := git_sample "a"]} git_descriptor {["a"%string]} false git_manager_default.
Definition sample_result : res (gmap NodeId Path) :=
  match sample_build.1 with Ok task => (run_task task sample_machine).1 | Err e => Err e | Panic => Panic end.
Definition sample_url : Url := mkUrl "r" (Some "host"%string) (Some ["r"%string]).

Lemma build_checks_out_witness :
  ∃ task m' dirs w', sample_build = (Ok task, m') ∧ run_task task sample_machine = (Ok dirs, w') ∧
    head_commit w' (sample_dir "b") = Some (sample_hash 40 "b").
Proof.
  assert (is_ok sample_result = true) as Hok by (vm_compute; reflexivity). unfold sample_result in Hok.
  destruct sample_build as [[task| |] m'] eqn:Eb; [|done..]. cbn [fst] in Hok.
  destruct (run_task task sample_machine) as [[dirs| |] w'] eqn:Er; [|done..].
  exists task, m', dirs, w'. split; [done|]. split; [done|].
  destruct (build_checks_out (λ _, Ok EmptyString) sample_machine 1%N ["w"%string] false
    {["a"%string := git_sample "b"]} {["a"%string := git_sample "a"]} git_descriptor {["a"%string]} git_nodes eq_refl
    sample_layout sample_commands sample_clean git_manager_default task m' dirs w' Eb Er) as [_ Hall].
  destruct (Hall "a"%string sample_node (git_sample "b")) as (dir & Hdir & _ & Hhead);
    [vm_compute; reflexivity|by apply elem_of_singleton|vm_compute; reflexivity|].
  assert (dir = sample_dir "b") as ->; [|exact Hhead].
  vm_compute in Hdir. injection Hdir as <-. vm_compute. reflexivity.
Defined.

Lemma machine_reliable : reliable (H:=online).
Proof.
  split; cbn [perform dir_exists online machine_world World].
  - intros d w. cbn. by destruct (w !! d).
  - intros u d w Hd. cbn. by destruct (w !! d).
  - intros f t w Hf _. cbn. by destruct (w !! f).
  - intros f t w Hf Ht. cbn. by destruct (w !! f), (w !! t).
  - intros d w Hd. cbn. by destruct (w !! d).
  - intros d h w Hd _. cbn. by destruct (w !! d).
  - done.
Qed.

Lemma build_succeeds_witness :
  ∃ task m' dirs w', sample_build = (Ok task, m') ∧ run_task task sample_machine = (Ok dirs, w').
Proof.
  apply (build_succeeds (λ _, Ok EmptyString) sample_machine 1%N ["w"%string] false
    {["a"%string := git_sample "b"]} {["a"%string := git_sample "a"]} git_descriptor {["a"%string]} git_nodes eq_refl
    sample_layout sample_commands sample_clean git_manager_default machine_reliable).
  - intros n build line ->%local_sample Hb Hl. change (build_texts sample_node) with ["make"%string] in Hb.
    apply list_elem_of_singleton in Hb as ->. change (lines "make") with ["make"%string] in Hl.
    by apply list_elem_of_singleton in Hl as ->.
  - intros n s ->%local_sample Hs. change (Some (git_sample "b") = Some s) in Hs. injection Hs as <-. vm_compute. reflexivity.
  - intros n n' s s' sp p ->%local_sample ->%local_sample Hs Hs'. right. congruence.
  - done.
Defined.

Lemma running_clone_moved_witness :
  (choose_clone_dir sample_machine 1%N "r" (sample_hash 40 "b") (Some (mkPrevGit (git_sample "a") false))
     ["w"; "git"]%string git_manager_default).1
  = Ok (RenameAndFetch (sample_dir "a") (sample_dir "b") (sample_hash 40 "b")).
Proof.
  apply (running_clone_moved (λ _, Ok EmptyString) git_manager_default sample_machine 1%N (git_sample "b") (git_sample "a")
    ["w"; "git"]%string sample_url).
  - constructor.
  - done.
  - vm_compute. reflexivity.
  - vm_compute. reflexivity.
  - done.
  - by intros (p & Hp & _).
  - vm_compute. reflexivity.
  - vm_compute. reflexivity.
Defined.

(** Without a connection, a moved clone is left on its old commit. *)
Definition moved_machine : @World (machine_world true) := {[sample_dir "b" := Some (sample_hash 40 "a")]}.
Lemma sample_dirs_differ : sample_dir "a" ≠ sample_dir "b".
Proof. intros E. vm_compute in E. discriminate. Qed.
Lemma sample_rename :
  perform (GitWorld:=machine_world true) (Rename (sample_dir "a") (sample_dir "b")) sample_machine = (Ok tt, moved_machine).
Proof.
  change (machine_perform true (Rename (sample_dir "a") (sample_dir "b")) {[sample_dir "a" := Some (sample_hash 40 "a")]}
    = (Ok tt, {[sample_dir "b" := Some (sample_hash 40 "a")]})).
  pose proof sample_dirs_differ as Hne. cbn [machine_perform].
  rewrite lookup_singleton_eq, lookup_singleton_ne by done. by rewrite delete_singleton_eq.
Qed.
Lemma failed_fetch_reused_witness :
  run_task (H:=machine_world true) (prepare (RenameAndFetch (sample_dir "a") (sample_dir "b") (sample_hash 40 "b")))
    sample_machine = (Err "failed", moved_machine) ∧
  (choose_clone_dir moved_machine 1%N "r" (sample_hash 40 "b") None ["w"; "git"]%string git_manager_default).1
  = Ok (Reuse (sample_dir "b")) ∧
  run_task (prepare (Reuse (sample_dir "b"))) moved_machine = (Ok (sample_dir "b"), moved_machine) ∧
  head_commit (GitLaws:=machine_laws true) moved_machine (sample_dir "b")
  = head_commit (GitLaws:=machine_laws true) sample_machine (sample_dir "a").
Proof.
  apply (@failed_fetch_reused (machine_world true) (machine_laws true) sample_machine (sample_dir "a") (sample_dir "b")
    (sample_hash 40 "b") "failed" moved_machine moved_machine 1%N "r" None ["w"; "git"]%string git_manager_default sample_url).
  - apply sample_dirs_differ.
  - apply sample_rename.
  - done.
  - done.
  - vm_compute. reflexivity.
  - done.
Defined.

Lemma shared_previous_clone_fails_witness :
  ∃ opt1 m1 opt2 m2,
    choose_clone_dir sample_machine 1%N "r" (sample_hash 40 "b") (Some (mkPrevGit (git_sample "a") false))
      ["w"; "git"]%string git_manager_default = (Ok opt1, m1) ∧
    choose_clone_dir sample_machine 1%N "r" (sample_hash 40 "c") (Some (mkPrevGit (git_sample "a") false))
      ["w"; "git"]%string m1 = (Ok opt2, m2) ∧
    ∀ w1, run_task (prepare opt1) sample_machine = (Ok (sample_dir "b"), w1) → is_ok (run_task (prepare opt2) w1).1 = false.
Proof.
  apply (shared_previous_clone_fails sample_machine 1%N (git_sample "b") (git_sample "c") (git_sample "a")
    ["w"; "git"]%string git_manager_default sample_url (sample_dir "b") (sample_dir "c") (sample_dir "a")).
  1-4: done.
  1-3: vm_compute; reflexivity.
  - intros E. vm_compute in E. discriminate.
  - split; apply (bool_decide_unpack _); vm_compute; exact I.
  - by intros p (q & Hq & _).
  - vm_compute. reflexivity.
  - vm_compute. reflexivity.
  - vm_compute. reflexivity.
Defined.
