(* ===== verification/Lockfile.v ===== *)
(** * Git sources of a build

    Models [binaries/cli/src/command/build/lockfile.rs], [build/git.rs] and the part of
    [build/mod.rs] that fixes the commit of every node before a build: from the references of
    the remote repositories, or from a lockfile that was written for the same sources.  YAML is
    serde's, so that reading and printing a lockfile are parameters; so is the list of
    references of a repository. *)

From Stdlib Require Import ZArith Lia Ascii.
From stdpp Require Import base gmap sets list strings.
From S2P Require Import Prelude Message InputMapping Text Descriptor LogFiles CoordState.
Local Open Scope nat_scope.
Local Open Scope list_scope.

Definition LOCKFILE_VERSION : Z := 2.
Definition MIN_SUPPORTED_LOCKFILE_VERSION : Z := 1.

Record BuildLockfile := mkLockfile {
  lock_version : Z;
  lock_fingerprint : option string;
  lock_sources : gmap NodeId GitSource
}.

#[export] Instance BuildLockfile_eq_dec : EqDecision BuildLockfile.
Proof. solve_decision. Defined.

(** ** The fingerprint of the sources *)

Definition rev_text (rev : option GitRepoRev) : string * string :=
  match rev with
  | Some (GitBranchRev v) => ("branch", v)
  | Some (GitTag v) => ("tag", v)
  | Some (GitRev v) => ("rev", v)
  | None => ("head", "")
  end%string.

Definition source_text (node_id : NodeId) (source : NodeSource) : string :=
  match source with
  | SourceLocal => EmptyString
  | SourceGitBranch repo rev =>
      let '(kind, value) := rev_text rev in
      concat_strings [node_id; String newline EmptyString; repo; String newline EmptyString;
                      kind; ":"%string; value; String newline EmptyString]
  end.

Definition canonical (sources : gmap NodeId NodeSource) : string :=
  concat_strings (concat_strings ["dora-lockfile-v"%string; print_u64 LOCKFILE_VERSION; String newline EmptyString]
                  :: ((λ e : NodeId * NodeSource, source_text e.1 e.2) <$> btree_iter sources)).

Definition FNV_OFFSET_BASIS : Z := 0xcbf29ce484222325.
Definition FNV_PRIME : Z := 0x100000001b3.
Definition fnv_step (hash : Z) (byte : ascii) : Z :=
  (Z.lxor hash (Z.of_N (N_of_ascii byte)) * FNV_PRIME) mod 2 ^ 64.
Fixpoint fnv (hash : Z) (s : string) : Z :=
  match s with EmptyString => hash | String c s => fnv (fnv_step hash c) s end.

(** [{:0nx}] of a number below [16 ^ n]. *)
Definition hex_digit (z : Z) : ascii :=
  ascii_of_N (Z.to_N (if (z <? 10)%Z then 48 + z else 87 + z)%Z).
Fixpoint hex (n : nat) (z : Z) : string :=
  match n with
  | O => EmptyString
  | S n => String.append (hex n (z / 16)) (String (hex_digit (z mod 16)) EmptyString)
  end.

Definition fingerprint_descriptor_git_sources (sources : gmap NodeId NodeSource) : string :=
  hex 16 (fnv FNV_OFFSET_BASIS (canonical sources)).

Definition ensure_descriptor_fingerprint_matches (l : BuildLockfile) (expected : string) : res unit :=
  match lock_fingerprint l with
  | None => Err "lockfile is missing `descriptor_fingerprint` (v1 format)"
  | Some actual =>
      if bool_decide (actual = expected) then Ok tt
      else Err "lockfile descriptor/source fingerprint mismatch"
  end.

Definition get_source (l : BuildLockfile) (node_id : NodeId) (repo : string) : res GitSource :=
  source ← res_of_option "no lockfile entry found for node" (lock_sources l !! node_id);
  if bool_decide (git_repo source = repo) then Ok source else Err "lockfile repo mismatch for node".

(** ** The commit of a remote reference *)

Definition is_ascii_alphanumeric (c : ascii) : bool :=
  is_ascii_alphabetic c || (let n := N_of_ascii c in (48 <=? n) && (n <=? 57))%N.

(** [references]: the names of the references of the repository and what they point to. *)
Definition fetch_commit_hash (references : string → res (list (string * string))) (repo_url : string)
    (rev : option GitRepoRev) : res GitSource :=
  references ← references repo_url;
  let expected_name :=
    match rev with
    | Some (GitBranchRev branch) => String.append "refs/heads/" branch
    | Some (GitTag tag) => String.append "refs/tags/" tag
    | Some (GitRev rev) => rev
    | None => "HEAD"%string
    end in
  let commit_hash := snd <$> head (retain (λ r : string * string, bool_decide (r.1 = expected_name)) references) in
  let commit_hash :=
    match commit_hash, rev with
    | None, Some (GitRev rev) => if string_forall is_ascii_alphanumeric rev then Some rev else None
    | _, _ => commit_hash
    end in
  match commit_hash with
  | Some commit_hash => Ok (mkGitSource repo_url commit_hash)
  | None => Err "no matching commit"
  end.

(** ** The sources of a dataflow *)

Section sources.
(** Reading and printing of lockfiles, and the remote repositories. *)
Context (parse_lockfile : string → res BuildLockfile) (print_lockfile : BuildLockfile → res string).
Context (references : string → res (list (string * string))).

Definition read_from (contents : string) : res BuildLockfile :=
  l ← parse_lockfile contents;
  if (MIN_SUPPORTED_LOCKFILE_VERSION <=? lock_version l)%Z && (lock_version l <=? LOCKFILE_VERSION)%Z then Ok l
  else Err "unsupported lockfile version".

Definition write_git_sources (git_sources : gmap NodeId GitSource) (descriptor_fingerprint : string) : res string :=
  print_lockfile (mkLockfile LOCKFILE_VERSION (Some descriptor_fingerprint) git_sources).

Definition git_source_of (node : ResolvedNode) : option NodeSource :=
  match r_kind node with
  | Custom n => match custom_source n with SourceGitBranch repo rev => Some (SourceGitBranch repo rev) | SourceLocal => None end
  | Runtime _ => None
  end.
Definition descriptor_git_sources (nodes : gmap NodeId ResolvedNode) : gmap NodeId NodeSource := omap git_source_of nodes.

(** The second pass over the nodes, in the order of their identifiers. *)
Fixpoint resolve_sources (lockfile : option BuildLockfile) (nodes : list (NodeId * ResolvedNode))
    (git_sources : gmap NodeId GitSource) : res (gmap NodeId GitSource) :=
  match nodes with
  | [] => Ok git_sources
  | (node_id, node) :: nodes =>
      match git_source_of node with
      | Some (SourceGitBranch repo rev) =>
          source ← match lockfile with
                   | Some l => get_source l node_id repo
                   | None => fetch_commit_hash references repo rev
                   end;
          resolve_sources lockfile nodes (<[node_id := source]> git_sources)
      | _ => resolve_sources lockfile nodes git_sources
      end
  end.

(** [contents]: the text of the lockfile with [--locked].  The result is the sources, and the
    text to write with [--write-lockfile]. *)
Definition build_sources (contents : option string) (write_lockfile : bool) (nodes : gmap NodeId ResolvedNode)
    : res (gmap NodeId GitSource * option string) :=
  lockfile ← match contents with
             | Some contents => Some <$> read_from contents
             | None => Ok None
             end;
  let descriptor_fingerprint := fingerprint_descriptor_git_sources (descriptor_git_sources nodes) in
  _ ← match lockfile with
      | Some l => ensure_descriptor_fingerprint_matches l descriptor_fingerprint
      | None => Ok tt
      end;
  git_sources ← resolve_sources lockfile (btree_iter nodes) ∅;
  text ← (if write_lockfile then Some <$> write_git_sources git_sources descriptor_fingerprint else Ok None);
  Ok (git_sources, text).
End sources.

(** ** Locked builds *)

Section locked.
Context (parse_lockfile : string → res BuildLockfile) (print_lockfile : BuildLockfile → res string).
Context (parse_print : ∀ l text, print_lockfile l = Ok text → parse_lockfile text = Ok l).
Implicit Types (references : string → res (list (string * string))).

Lemma fetch_repo references repo rev s : fetch_commit_hash references repo rev = Ok s → git_repo s = repo.
Proof.
  unfold fetch_commit_hash. intros (refs & _ & Hs)%res_bind_Ok. cbv zeta in Hs.
  case_match; [|done]. by injection Hs as <-.
Qed.

Lemma resolve_sources_other references lockfile nodes acc gs id :
  resolve_sources references lockfile nodes acc = Ok gs → id ∉ nodes.*1 → gs !! id = acc !! id.
Proof.
  revert acc. induction nodes as [|[id' n] nodes IH]; intros acc; cbn [resolve_sources]; [by intros [= <-]|].
  rewrite fmap_cons, not_elem_of_cons. intros Hr [Hne Hid].
  destruct (git_source_of n) as [[|repo rev]|]; [by eapply IH| |by eapply IH].
  apply res_bind_Ok in Hr as (s & _ & Hr). rewrite (IH _ Hr Hid). by rewrite lookup_insert_ne.
Qed.

Lemma resolve_sources_locked references references' l nodes acc gs :
  NoDup nodes.*1 → resolve_sources references None nodes acc = Ok gs → lock_sources l = gs →
  resolve_sources references' (Some l) nodes acc = Ok gs.
Proof.
  intros Hnd Hr Hl. revert acc Hr. induction nodes as [|[id n] nodes IH]; intros acc; cbn [resolve_sources]; [done|].
  apply NoDup_cons in Hnd as [Hid Hnd]. destruct (git_source_of n) as [[|repo rev]|]; [by apply IH| |by apply IH].
  intros (s & Hs & Hr)%res_bind_Ok. pose proof (resolve_sources_other _ _ _ _ _ id Hr Hid) as Hg.
  rewrite lookup_insert_eq in Hg. unfold get_source. rewrite Hl, Hg. cbn [res_of_option mbind res_bind].
  rewrite bool_decide_eq_true_2 by by eapply fetch_repo. cbn [mbind res_bind]. by apply IH.
Qed.

(** C32. A locked build repeats the build that wrote the lockfile.  Whatever has happened to the
    remote repositories since, and without asking them, every node gets the commit it had. *)
Theorem locked_build_reproduces references nodes gs text references' :
  build_sources parse_lockfile print_lockfile references None true nodes = Ok (gs, Some text) →
  build_sources parse_lockfile print_lockfile references' (Some text) false nodes = Ok (gs, None).
Proof.
  unfold build_sources. cbn [mbind res_bind]. intros (gs' & Hr & Hw)%res_bind_Ok.
  apply res_bind_Ok in Hw as (text' & Hw & [= -> ->]).
  unfold write_git_sources in Hw. destruct (print_lockfile _) as [t| |] eqn:Ep; [|done..].
  cbn in Hw. injection Hw as ->. unfold read_from. rewrite (parse_print _ _ Ep). cbn [mbind res_bind lock_version].
  change (((MIN_SUPPORTED_LOCKFILE_VERSION <=? LOCKFILE_VERSION) && (LOCKFILE_VERSION <=? LOCKFILE_VERSION))%Z) with true.
  cbn [fmap res_fmap mbind res_bind]. unfold ensure_descriptor_fingerprint_matches. cbn [lock_fingerprint].
  rewrite bool_decide_eq_true_2 by done. cbn [mbind res_bind].
  erewrite resolve_sources_locked; [|apply NoDup_btree_keys|exact Hr|done]. done.
Qed.
End locked.

(** ** What a fingerprint tells *)

(** Texts without a line break. *)
Definition plain_source (e : NodeId * NodeSource) : Prop :=
  match e.2 with
  | SourceLocal => False
  | SourceGitBranch repo rev =>
      no_sep newline e.1 = true ∧ no_sep newline repo = true ∧ no_sep newline (rev_text rev).2 = true
  end.
Definition plain_sources (m : gmap NodeId NodeSource) : Prop := ∀ id s, m !! id = Some s → plain_source (id, s).

Lemma cut_at sep a b a' b' :
  no_sep sep a = true → no_sep sep a' = true →
  String.append a (String sep b) = String.append a' (String sep b') → a = a' ∧ b = b'.
Proof.
  intros Ha Ha' E. apply (f_equal (split_once sep)) in E. rewrite !split_once_app in E by done. by injection E.
Qed.

Lemma rev_text_inj rev rev' rest rest' :
  no_sep newline (rev_text rev).2 = true → no_sep newline (rev_text rev').2 = true →
  concat_strings [(rev_text rev).1; ":"%string; (rev_text rev).2; String newline rest]
  = concat_strings [(rev_text rev').1; ":"%string; (rev_text rev').2; String newline rest'] →
  rev = rev' ∧ rest = rest'.
Proof.
  intros Hv Hv' E.
  assert (∀ r, no_sep ":" (rev_text r).1 = true) as Hk by (by intros [[]|]).
  cbn [concat_strings foldr] in E. change (String.append ":" ?x) with (String ":" x) in E.
  rewrite !append_nil_r in E. apply cut_at in E as [Ek E]; [|by apply Hk..].
  apply cut_at in E as [Ev ->]; [|done..]. split; [|done].
  destruct rev as [[]|], rev' as [[]|]; cbn in Ek, Ev; congruence.
Qed.

Lemma source_text_inj id s id' s' rest rest' :
  plain_source (id, s) → plain_source (id', s') →
  String.append (source_text id s) rest = String.append (source_text id' s') rest' →
  id = id' ∧ s = s' ∧ rest = rest'.
Proof.
  destruct s as [|repo rev], s' as [|repo' rev']; cbn [plain_source fst snd]; try done.
  intros (Hi & Hr & Hv) (Hi' & Hr' & Hv') E. unfold source_text in E.
  destruct (rev_text rev) as [kind value] eqn:Et, (rev_text rev') as [kind' value'] eqn:Et'.
  assert (∀ a b k v r, String.append (concat_strings [a; String newline EmptyString; b; String newline EmptyString;
            k; ":"%string; v; String newline EmptyString]) r
    = String.append a (String newline (String.append b (String newline
        (concat_strings [k; ":"%string; v; String newline r]))))) as Hshape.
  { intros. cbn [concat_strings foldr]. rewrite !append_assoc, !append_nil_r. done. }
  rewrite !Hshape in E. apply cut_at in E as [<- E]; [|done..]. apply cut_at in E as [<- E]; [|done..].
  pose proof (rev_text_inj rev rev' rest rest') as Hinj. rewrite Et, Et' in *.
  by destruct (Hinj Hv Hv' E) as [-> ->].
Qed.

Lemma source_texts_inj l l' :
  Forall plain_source l → Forall plain_source l' →
  concat_strings ((λ e : NodeId * NodeSource, source_text e.1 e.2) <$> l)
  = concat_strings ((λ e : NodeId * NodeSource, source_text e.1 e.2) <$> l') → l = l'.
Proof.
  assert (∀ e r, plain_source e → String.append (source_text e.1 e.2) r ≠ EmptyString) as Hne.
  { intros [id [|repo rev]] r; [done|]. intros _ E. apply (f_equal String.length) in E. unfold source_text in E.
    cbn [fst snd] in E. destruct (rev_text rev). cbn [concat_strings foldr] in E.
    rewrite !length_append in E. cbn in E. lia. }
  revert l'. induction l as [|[id s] l IH]; intros [|[id' s'] l'] Hl Hl' E; [done|..].
  - apply Forall_cons in Hl' as [He _]. cbn in E. symmetry in E. by apply (Hne (id', s')) in E.
  - apply Forall_cons in Hl as [He _]. cbn in E. by apply (Hne (id, s)) in E.
  - apply Forall_cons in Hl as [He Hl]. apply Forall_cons in Hl' as [He' Hl'].
    cbn [fmap list_fmap concat_strings foldr fst snd] in E.
    apply source_text_inj in E as (-> & -> & E); [|done..]. f_equal. by apply IH.
Qed.

(** The text that is hashed determines the sources: two sets of sources without line breaks
    have one text only if they are equal. *)
Theorem canonical_sources_injective m m' :
  plain_sources m → plain_sources m' → canonical m = canonical m' → m = m'.
Proof.
  intros Hm Hm' E. unfold canonical in E. cbn [concat_strings foldr] in E. apply append_inj_l in E.
  apply source_texts_inj in E.
  - apply map_eq. intros id. apply option_eq. intros s. by rewrite <- !elem_of_btree_iter, E.
  - apply Forall_forall. intros [id s] Hin. by apply Hm, elem_of_btree_iter.
  - apply Forall_forall. intros [id s] Hin. by apply Hm', elem_of_btree_iter.
Qed.

Definition FNV_PRIME_INVERSE : Z := 0xce965057aff6957b.
Lemma fnv_step_range h c : (0 ≤ fnv_step h c < 2 ^ 64)%Z.
Proof. apply Z.mod_pos_bound. lia. Qed.
Lemma mul_prime_inj x y : (0 ≤ x < 2 ^ 64)%Z → (0 ≤ y < 2 ^ 64)%Z →
  ((x * FNV_PRIME) mod 2 ^ 64 = (y * FNV_PRIME) mod 2 ^ 64)%Z → x = y.
Proof.
  intros Hx Hy E. apply (f_equal (λ z, (z * FNV_PRIME_INVERSE) mod 2 ^ 64)%Z) in E.
  rewrite !Z.mul_mod_idemp_l, <- !Z.mul_assoc in E by lia.
  rewrite <- (Z.mul_mod_idemp_r x), <- (Z.mul_mod_idemp_r y) in E by lia.
  change ((FNV_PRIME * FNV_PRIME_INVERSE) mod 2 ^ 64)%Z with 1%Z in E. rewrite !Z.mul_1_r, !Z.mod_small in E by lia. done.
Qed.
Lemma lxor_range h c : (0 ≤ h < 2 ^ 64)%Z → (0 ≤ Z.lxor h (Z.of_N (N_of_ascii c)) < 2 ^ 64)%Z.
Proof.
  intros Hh. pose proof (N_ascii_bounded c) as Hc.
  split; [apply Z.lxor_nonneg; lia|].
  destruct (decide (Z.lxor h (Z.of_N (N_of_ascii c)) = 0)%Z) as [->|Hne]; [lia|].
  apply Z.log2_lt_pow2; [pose proof (proj2 (Z.lxor_nonneg h (Z.of_N (N_of_ascii c)))); lia|].
  eapply Z.le_lt_trans; [apply Z.log2_lxor; lia|]. apply Z.max_lub_lt.
  - destruct (decide (h = 0)%Z) as [->|]; [done|]. apply Z.log2_lt_pow2; lia.
  - destruct (decide (Z.of_N (N_of_ascii c) = 0)%Z) as [->|]; [done|]. apply Z.log2_lt_pow2; lia.
Qed.
Lemma fnv_step_inj_hash h h' c : (0 ≤ h < 2 ^ 64)%Z → (0 ≤ h' < 2 ^ 64)%Z → fnv_step h c = fnv_step h' c → h = h'.
Proof.
  intros Hh Hh' E. apply mul_prime_inj in E; [|by apply lxor_range..].
  apply (f_equal (λ z, Z.lxor z (Z.of_N (N_of_ascii c)))) in E. by rewrite !Z.lxor_assoc, !Z.lxor_nilpotent, !Z.lxor_0_r in E.
Qed.
Lemma fnv_step_inj_byte h c c' : (0 ≤ h < 2 ^ 64)%Z → fnv_step h c = fnv_step h c' → c = c'.
Proof.
  intros Hh E. apply mul_prime_inj in E; [|by apply lxor_range..].
  apply (f_equal (Z.lxor h)) in E. rewrite <- !Z.lxor_assoc, !Z.lxor_nilpotent, !Z.lxor_0_l in E.
  rewrite <- (ascii_N_embedding c), <- (ascii_N_embedding c'). f_equal. lia.
Qed.
Lemma fnv_range h s : (0 ≤ h < 2 ^ 64)%Z → (0 ≤ fnv h s < 2 ^ 64)%Z.
Proof. revert h. induction s as [|c s IH]; intros h Hh; [done|]. apply IH, fnv_step_range. Qed.
Lemma fnv_inj h h' s : (0 ≤ h < 2 ^ 64)%Z → (0 ≤ h' < 2 ^ 64)%Z → fnv h s = fnv h' s → h = h'.
Proof.
  revert h h'. induction s as [|c s IH]; intros h h' Hh Hh' E; [done|]. cbn [fnv] in E.
  apply IH in E; [|apply fnv_step_range..]. by eapply fnv_step_inj_hash.
Qed.
Lemma fnv_append h a b : fnv h (String.append a b) = fnv (fnv h a) b.
Proof. revert h. induction a as [|c a IH]; intros h; [done|]. apply IH. Qed.

Lemma hex_digit_inj x y : (0 ≤ x < 16)%Z → (0 ≤ y < 16)%Z → hex_digit x = hex_digit y → x = y.
Proof.
  intros Hx Hy E. apply (f_equal N_of_ascii) in E. unfold hex_digit in E.
  assert (∀ z, (0 ≤ z < 16)%Z → (Z.to_N (if (z <? 10)%Z then 48 + z else 87 + z) < 256)%N) as Hb.
  { intros z Hz. destruct (z <? 10)%Z; lia. }
  rewrite !N_ascii_embedding in E by auto.
  destruct (Z.ltb_spec x 10), (Z.ltb_spec y 10); lia.
Qed.
Lemma hex_inj n x y : (0 ≤ x < 16 ^ Z.of_nat n)%Z → (0 ≤ y < 16 ^ Z.of_nat n)%Z → hex n x = hex n y → x = y.
Proof.
  revert x y. induction n as [|n IH]; intros x y Hx Hy; cbn [hex]; [cbn in *; lia|].
  rewrite Nat2Z.inj_succ, Z.pow_succ_r in Hx, Hy by lia. intros E.
  assert (∀ a b c d, String.append a (String c EmptyString) = String.append b (String d EmptyString) → a = b ∧ c = d) as Hsnoc.
  { clear. induction a as [|x a IH]; intros [|y b] c d E; rewrite ?string_append_cons in E; cbn in E.
    - by injection E as ->.
    - injection E as -> E. destruct b; discriminate.
    - injection E as -> E. destruct a; discriminate.
    - injection E as -> E. apply IH in E as [-> ->]. done. }
  apply Hsnoc in E as [E Ed]. apply hex_digit_inj in Ed; [|apply Z.mod_pos_bound; lia..].
  apply IH in E; [|split; [apply Z.div_pos; lia|apply Z.div_lt_upper_bound; lia]..].
  rewrite (Z.div_mod x 16), (Z.div_mod y 16) by lia. congruence.
Qed.

(** A lockfile is refused for sources whose text differs from the locked ones in one byte: no
    two such texts have one fingerprint. *)
Theorem changed_source_refused m m' pre a b post version sources :
  canonical m = String.append pre (String a post) → canonical m' = String.append pre (String b post) → a ≠ b →
  is_ok (ensure_descriptor_fingerprint_matches
           (mkLockfile version (Some (fingerprint_descriptor_git_sources m)) sources)
           (fingerprint_descriptor_git_sources m')) = false.
Proof.
  intros Hm Hm' Hab. unfold ensure_descriptor_fingerprint_matches. cbn [lock_fingerprint].
  rewrite bool_decide_eq_false_2; [done|]. unfold fingerprint_descriptor_git_sources. rewrite Hm, Hm'. intros E.
  assert (0 ≤ FNV_OFFSET_BASIS < 2 ^ 64)%Z as Hb by (unfold FNV_OFFSET_BASIS; lia).
  apply hex_inj in E; [|by apply fnv_range..]. rewrite !fnv_append in E. cbn [fnv] in E.
  apply fnv_inj in E; [|apply fnv_step_range..]. apply fnv_step_inj_byte in E; [done|]. by apply fnv_range.
Qed.

(** *** Concrete sources *)

Definition lock_nodes : gmap NodeId ResolvedNode :=
  match resolve_aliases_and_set_defaults (λ _, Ok EmptyString)
          (plain_descriptor [let n := plain_node "cam" ∅ ∅ in {| n with n_git := Some "repo"%string |}]) with
  | Ok nodes => nodes
  | _ => ∅
  end.
Definition sample_references (repo : string) : res (list (string * string)) := Ok [("HEAD", "abc")]%string.
Definition sample_lock : BuildLockfile :=
  mkLockfile LOCKFILE_VERSION (Some (fingerprint_descriptor_git_sources (descriptor_git_sources lock_nodes)))
    {["cam"%string := mkGitSource "repo" "abc"]}.
Definition sample_print (l : BuildLockfile) : res string :=
  if bool_decide (l = sample_lock) then Ok "text"%string else Err "unsupported".
Definition sample_parse (text : string) : res BuildLockfile := Ok sample_lock.

Lemma locked_build_reproduces_witness :
  build_sources sample_parse sample_print (λ _, Err "offline") (Some "text"%string) false lock_nodes
  = Ok ({["cam"%string := mkGitSource "repo" "abc"]}, None).
Proof.
  apply (locked_build_reproduces sample_parse sample_print) with (references := sample_references).
  - intros l text. unfold sample_print, sample_parse. case_bool_decide as E; [by rewrite E|done].
  - vm_compute. reflexivity.
Defined.

Lemma canonical_sources_injective_witness :
  let m := {["cam"%string := SourceGitBranch "repo" None]} : gmap NodeId NodeSource in m = m.
Proof.
  intros m. assert (plain_sources m) as Hm.
  { intros id s Hs. apply lookup_singleton_Some in Hs as [<- <-]. by vm_compute. }
  by apply canonical_sources_injective.
Defined.

(** The branch [main] is changed to [mail]. *)
Lemma changed_source_refused_witness :
  is_ok (ensure_descriptor_fingerprint_matches
    (mkLockfile 2 (Some (fingerprint_descriptor_git_sources {["cam"%string := SourceGitBranch "repo" (Some (GitBranchRev "main"))]})) ∅)
    (fingerprint_descriptor_git_sources {["cam"%string := SourceGitBranch "repo" (Some (GitBranchRev "mail"))]})) = false.
Proof.
  apply (changed_source_refused _ _
    (concat_strings ["dora-lockfile-v2"; String newline "cam"; String newline "repo"; String newline "branch:mai"]%string)
    "n" "l" (String newline EmptyString)).
  - vm_compute. reflexivity.
  - vm_compute. reflexivity.
  - done.
Defined.
