(* ===== verification/Runtime.v ===== *)
(** * The operator runtime

    Models [binaries/runtime/src/lib.rs], the loop that passes the events of a node to its
    operators and their outputs to the daemon, and [operator/channel.rs], the buffer in front
    of each operator.  The operators themselves are loaded code; what they do, and the outcome
    of sending for the node, are inputs. *)

From Stdlib Require Import ZArith Lia Ascii.
From stdpp Require Import base gmap sets list strings relations.
From S2P Require Import Prelude Message InputTracker InputMapping Text Descriptor.
Local Open Scope nat_scope.
Local Open Scope list_scope.

Section buffer.
Context {A : Type}.
Abbreviation Event := (InputTracker.Event A).

(** ** The input buffer *)

(** A dropped event leaves a [None] in the queue.  [send_out] is the event that is offered to
    the operator. *)
Record InputBuffer := mkBuffer {
  queue : list (option Event);
  effective_caps : gmap DataId (Z * QueuePolicy);
  send_out : option Event;
  incoming_closed : bool
}.

Definition buffer_new (queue_sizes : gmap DataId (Z * QueuePolicy)) : InputBuffer :=
  mkBuffer [] ((λ e : Z * QueuePolicy, (effective_cap e.2 e.1, e.2)) <$> queue_sizes) None false.

(** The loop of [drop_oldest_inputs], over the queue from its end. *)
Fixpoint drop_reversed (remaining : gmap DataId Z) (events : list (option Event)) : list (option Event) :=
  match events with
  | [] => []
  | Some (EvInput input_id metadata data) :: events =>
      match remaining !! input_id with
      | Some rem =>
          if bool_decide (rem = 0)%Z then None :: drop_reversed remaining events
          else Some (EvInput input_id metadata data) :: drop_reversed (<[input_id := Z.max 0 (rem - 1)]> remaining) events
      | None => Some (EvInput input_id metadata data) :: drop_reversed remaining events
      end
  | event :: events => event :: drop_reversed remaining events
  end.

Definition drop_oldest_inputs (b : InputBuffer) : InputBuffer :=
  {| b with queue := reverse (drop_reversed (fst <$> effective_caps b) (reverse (queue b))) |}.

Definition add_event (event : Event) (b : InputBuffer) : InputBuffer :=
  drop_oldest_inputs {| b with queue := queue b ++ [Some event] |}.

(** The next event of the queue, and what is behind it. *)
Fixpoint pop_queued (q : list (option Event)) : option Event * list (option Event) :=
  match q with
  | Some next :: q => (Some next, q)
  | None :: q => pop_queued q
  | [] => (None, [])
  end.
Definition send_next_queued (b : InputBuffer) : InputBuffer :=
  let '(next, q) := pop_queued (queue b) in {| b with queue := q; send_out := next |}.

(** The rounds of [run]: an event arrives, the senders are gone, the operator takes an
    event. *)
Definition on_event (event : Event) (b : InputBuffer) : InputBuffer :=
  let b := add_event event b in
  match send_out b with None => send_next_queued b | Some _ => b end.
Definition on_disconnect (b : InputBuffer) : InputBuffer := {| b with incoming_closed := true |}.
Definition on_sent (b : InputBuffer) : InputBuffer := send_next_queued b.
(** The condition under which the loop ends. *)
Definition buffer_done (b : InputBuffer) : bool :=
  incoming_closed b && match send_out b with None => true | Some _ => false end
  && match queue b with [] => true | _ => false end.

Definition INCOMING_CAPACITY : nat := 10.

(** The channel of an operator: [senders] says whether the runtime still holds the sender,
    [gone] whether the operator has dropped its end. *)
Record OpChannel := mkOpChannel {
  incoming : list Event;
  senders : bool;
  buffer : InputBuffer;
  gone : bool;
  ended : bool;
  accepted : list Event;
  delivered : list Event
}.

Inductive chan_step : OpChannel → OpChannel → Prop :=
| chan_event c event rest :
    ended c = false → incoming c = event :: rest →
    chan_step c {| c with incoming := rest; buffer := on_event event (buffer c);
                          ended := buffer_done (on_event event (buffer c)) |}
| chan_disconnect c :
    ended c = false → incoming c = [] → senders c = false → incoming_closed (buffer c) = false →
    chan_step c {| c with buffer := on_disconnect (buffer c); ended := buffer_done (on_disconnect (buffer c)) |}
| chan_deliver c event :
    ended c = false → gone c = false → send_out (buffer c) = Some event →
    chan_step c {| c with buffer := on_sent (buffer c); ended := buffer_done (on_sent (buffer c));
                          delivered := delivered c ++ [event] |}
| chan_dropped c event :
    ended c = false → gone c = true → send_out (buffer c) = Some event →
    chan_step c {| c with ended := true |}.

(** What the runtime and the operator do. *)
Inductive op_step : OpChannel → OpChannel → Prop :=
| op_internal c c' : chan_step c c' → op_step c c'
| op_send c event :
    senders c = true → ended c = false → length (incoming c) < INCOMING_CAPACITY →
    op_step c {| c with incoming := incoming c ++ [event]; accepted := accepted c ++ [event] |}
| op_close c : op_step c {| c with senders := false |}
| op_gone c : op_step c {| c with gone := true |}.

Definition channel_new (queue_sizes : gmap DataId (Z * QueuePolicy)) : OpChannel :=
  mkOpChannel [] true (buffer_new queue_sizes) false false [] [].
End buffer.
Arguments InputBuffer : clear implicits.
Arguments OpChannel : clear implicits.

(** ** The main loop *)

Section runtime.
Context {A : Type}.
Abbreviation Event := (InputTracker.Event A).

Inductive StopReason := InputsClosed | ExplicitStop | ExplicitStopAll.
(** [Output] carries the sample and its description, which are only passed on. *)
Inductive OperatorEvent :=
| AllocateOutputSample (len : nat)
| Output (output_id : DataId) (data : A)
| OpError (msg : string)
| OpPanic (payload : string)
| Finished (reason : StopReason).

Inductive RuntimeEvent :=
| OperatorRaised (id : OperatorId) (event : OperatorEvent)
| NodeReceived (event : Event).

(** [operator_channels] are the operators whose channel the runtime still holds. *)
Record Runtime := mkRuntime {
  operators : gmap OperatorId OperatorConfig;
  operator_channels : gset OperatorId;
  open_operator_inputs : gmap OperatorId (gset DataId)
}.

Inductive RuntimeEffect :=
| Forward (operator : OperatorId) (event : Event)
| CloseOutputs (outputs : list DataId)
| SendOutput (output_id : DataId) (data : A)
| AllocateSample (operator : OperatorId) (len : nat).

Definition queue_sizes (config : OperatorConfig) : gmap DataId (Z * QueuePolicy) :=
  (λ input, (default DEFAULT_QUEUE_SIZE (queue_size input), default DropOldest (queue_policy input))) <$> op_inputs config.

Definition runtime_new (operators : gmap OperatorId OperatorConfig) : Runtime :=
  mkRuntime operators (dom operators) ((λ config, dom (op_inputs config)) <$> operators).

Definition operator_output_id (operator_id : OperatorId) (output_id : DataId) : res DataId :=
  data_id_from (String.append operator_id (String "/" output_id)).

(** An operator raised an event.  [ok] is the outcome of the call to the node.  The result
    says whether the loop goes on. *)
Definition on_operator (ok : bool) (operator_id : OperatorId) (event : OperatorEvent) (r : Runtime)
    : res (list RuntimeEffect * bool * Runtime) :=
  match event with
  | OpError _ => Err "operator raised an error"
  | OpPanic _ => Err "operator panicked"
  | Finished ExplicitStopAll => Err "operator requested StopAll, which is not yet implemented"
  | Finished _ =>
      match operators r !! operator_id with
      | None => Ok ([], true, r)
      | Some config =>
          outputs ← mapM (operator_output_id operator_id) (btree_elems (op_outputs config));
          if ok then
            let channels := operator_channels r ∖ {[operator_id]} in
            Ok ([CloseOutputs outputs], negb (bool_decide (channels = ∅)), {| r with operator_channels := channels |})
          else Err "failed to close outputs of finished operator"
      end
  | AllocateOutputSample len => Ok ([AllocateSample operator_id len], true, r)
  | Output output_id data =>
      output_id ← operator_output_id operator_id output_id;
      if ok then Ok ([SendOutput output_id data], true, r) else Err "failed to send node output"
  end.

(** The operator and the input of an input of the node. *)
Definition operator_input (id : DataId) : option (OperatorId * DataId) := split_once "/" id.

Definition close_operator_input (operator_id : OperatorId) (input_id : DataId) (r : Runtime) : Runtime :=
  match open_operator_inputs r !! operator_id with
  | None => r
  | Some open_inputs =>
      let open_inputs := open_inputs ∖ {[input_id]} in
      if bool_decide (open_inputs = ∅)
      then {| r with open_operator_inputs := delete operator_id (open_operator_inputs r);
                     operator_channels := operator_channels r ∖ {[operator_id]} |}
      else {| r with open_operator_inputs := <[operator_id := open_inputs]> (open_operator_inputs r) |}
  end.

Definition on_node_event `{HashOrder} (event : Event) (r : Runtime) : res (list RuntimeEffect * bool * Runtime) :=
  match event with
  | EvStop cause =>
      Ok ((λ op, Forward op (EvStop cause)) <$> hash_keys (gset_to_gmap tt (operator_channels r)), true,
          {| r with operator_channels := ∅ |})
  | EvReload (Some operator_id) =>
      if bool_decide (operator_id ∈ operator_channels r)
      then Ok ([Forward operator_id (EvReload (Some operator_id))], true, r) else Panic
  | EvInput id metadata data =>
      match operator_input id with
      | None => Ok ([], true, r)
      | Some (operator_id, input_id) =>
          input_id ← data_id_from input_id;
          if bool_decide (operator_id ∈ operator_channels r)
          then Ok ([Forward operator_id (EvInput input_id metadata data)], true, r) else Ok ([], true, r)
      end
  | EvInputClosed id =>
      match operator_input id with
      | None => Ok ([], true, r)
      | Some (operator_id, input_id) =>
          input_id ← data_id_from input_id;
          if bool_decide (operator_id ∈ operator_channels r)
          then Ok ([Forward operator_id (EvInputClosed input_id)], true, close_operator_input operator_id input_id r)
          else Ok ([], true, r)
      end
  | EvError msg => Err "received error event"
  | _ => Ok ([], true, r)
  end.

Definition on_runtime_event `{HashOrder} (ok : bool) (event : RuntimeEvent) (r : Runtime)
    : res (list RuntimeEffect * bool * Runtime) :=
  match event with
  | OperatorRaised id event => on_operator ok id event r
  | NodeReceived event => on_node_event event r
  end.

(** The loop over the events, each with the outcome of the call to the node it leads to. *)
Fixpoint run `{HashOrder} (events : list (bool * RuntimeEvent)) (r : Runtime) : res (list RuntimeEffect * bool * Runtime) :=
  match events with
  | [] => Ok ([], true, r)
  | (ok, event) :: events =>
      '(effects, continue, r) ← on_runtime_event ok event r;
      match continue with
      | true =>
          '(effects', continue, r) ← run events r;
          Ok (effects ++ effects', continue, r)
      | false => Ok (effects, false, r)
      end
  end.
End runtime.

(** ** The buffer keeps the newest inputs *)

Section buffer_lemmas.
Context {A : Type}.
Abbreviation Event := (InputTracker.Event A).
Implicit Types (q l : list (option Event)) (b : InputBuffer A) (c : OpChannel A).

Definition live (q : list (option Event)) : list Event := omap id q.
Definition input_id (e : Event) : option DataId := match e with EvInput id _ _ => Some id | _ => None end.
Definition inputs_of (id : DataId) (l : list Event) : list Event := filter (λ e, input_id e = Some id) l.
(** Events that are never dropped: they are no inputs, or inputs without a queue size. *)
Definition kept {V} (caps : gmap DataId V) (e : Event) : Prop :=
  match input_id e with Some id => caps !! id = None | None => True end.
#[export] Instance kept_dec {V} (caps : gmap DataId V) e : Decision (kept caps e).
Proof. unfold kept. destruct (input_id e); apply _. Defined.

Lemma inputs_of_app id (l k : list Event) : inputs_of id (l ++ k) = inputs_of id l ++ inputs_of id k.
Proof. apply filter_app. Qed.

Lemma kept_insert (caps : gmap DataId Z) id z e : is_Some (caps !! id) → kept (<[id := z]> caps) e ↔ kept caps e.
Proof.
  intros [x Hx]. unfold kept. destruct (input_id e) as [i|]; [|done].
  destruct (decide (i = id)) as [->|]; [by rewrite lookup_insert_eq, Hx|by rewrite lookup_insert_ne].
Qed.

Lemma drop_reversed_length rem l : length (drop_reversed rem l) = length l.
Proof.
  revert rem. induction l as [|[[]|] l IH]; intros rem; cbn [drop_reversed]; [done|..];
    try (cbn [length]; by rewrite IH).
  destruct (rem !! id) as [z|]; [|cbn [length]; by rewrite IH]. case_bool_decide; cbn [length]; by rewrite IH.
Qed.

Lemma drop_reversed_sublist rem l : live (drop_reversed rem l) `sublist_of` live l.
Proof.
  revert rem. induction l as [|[e|] l IH]; intros rem; [done| |apply IH].
  assert (∀ rem', e :: live (drop_reversed rem' l) `sublist_of` live (Some e :: l)) as Hkeep.
  { intros rem'. by apply sublist_skip. }
  destruct e; try apply Hkeep. cbn [drop_reversed]. destruct (rem !! id) as [z|]; [|apply Hkeep].
  case_bool_decide; [|apply Hkeep]. cbn. apply sublist_cons, IH.
Qed.

Lemma drop_reversed_kept rem l : filter (kept rem) (live (drop_reversed rem l)) = filter (kept rem) (live l).
Proof.
  revert rem. induction l as [|[e|] l IH]; intros rem; [done| |apply IH].
  assert (filter (kept rem) (e :: live (drop_reversed rem l)) = filter (kept rem) (live (Some e :: l))) as Hkeep.
  { change (live (Some e :: l)) with (e :: live l). rewrite !filter_cons. by rewrite IH. }
  destruct e; try apply Hkeep. cbn [drop_reversed]. destruct (rem !! id) as [z|] eqn:E; [|apply Hkeep].
  change (live (Some ?e :: l)) with (e :: live l).
  assert (∀ k, filter (kept rem) (EvInput id metadata data :: k) = filter (kept rem) k) as Hskip.
  { intros k. apply filter_cons_False. unfold kept. cbn. by rewrite E. }
  rewrite Hskip. case_bool_decide; [apply IH|]. change (live (Some ?e :: ?l)) with (e :: live l). rewrite Hskip.
  erewrite (list_filter_iff (kept rem) (kept (<[id := Z.max 0 (z - 1)]> rem))), IH, <- list_filter_iff; [done|..];
    intros e; rewrite kept_insert; eauto.
Qed.

Lemma drop_reversed_inputs rem l id z :
  rem !! id = Some z → (0 ≤ z)%Z →
  inputs_of id (live (drop_reversed rem l)) = take (Z.to_nat z) (inputs_of id (live l)).
Proof.
  revert rem z. induction l as [|[e|] l IH]; intros rem z Hz Hpos; [by destruct (Z.to_nat z)| |by apply IH].
  change (live (Some e :: l)) with (e :: live l). unfold inputs_of at 2. rewrite filter_cons.
  destruct (decide (input_id e = Some id)) as [Ee|Ee].
  - destruct e; try done. injection Ee as ->. cbn [drop_reversed]. rewrite Hz. case_bool_decide as E0.
    + subst z. change (live (None :: ?k)) with (live k). by rewrite (IH rem 0%Z) by done.
    + change (live (Some ?e :: ?l)) with (e :: live l). unfold inputs_of at 1. rewrite filter_cons_True by done.
      fold (inputs_of id (live (drop_reversed (<[id:=Z.max 0 (z - 1)]> rem) l))).
      rewrite (IH _ (Z.max 0 (z - 1))) by (rewrite ?lookup_insert_eq; done || lia).
      replace (Z.to_nat z) with (S (Z.to_nat (Z.max 0 (z - 1)))) by lia. done.
  - fold (inputs_of id (live l)).
    assert (∀ rem' k, rem' !! id = Some z → k = None ∨ k = Some e →
      inputs_of id (live (k :: drop_reversed rem' l)) = take (Z.to_nat z) (inputs_of id (live l))) as Hother.
    { intros rem' k Hr [-> | ->]; [by apply IH|].
      change (live (Some e :: ?x)) with ([e] ++ live x). rewrite inputs_of_app.
      assert (inputs_of id [e] = []) as -> by (unfold inputs_of; by rewrite filter_cons_False). by apply IH. }
    destruct e as [i m d| | | | | | | | |]; cbn [drop_reversed]; auto.
    destruct (rem !! i) as [y|] eqn:Ei; [|auto]. case_bool_decide; [by auto|].
    apply Hother; [|auto]. rewrite lookup_insert_ne; [done|]. intros ->. by apply Ee.
Qed.

Lemma live_app q l : live (q ++ l) = live q ++ live l.
Proof. apply omap_app. Qed.
Lemma live_reverse q : live (reverse q) = reverse (live q).
Proof.
  induction q as [|[e|] q IH]; [done|..]; rewrite reverse_cons, live_app, IH.
  - change (live (Some e :: q)) with (e :: live q). by rewrite reverse_cons.
  - change (live [None]) with (@nil Event). by rewrite app_nil_r.
Qed.
Lemma reverse_sublist {B} (l k : list B) : l `sublist_of` k → reverse l `sublist_of` reverse k.
Proof.
  induction 1 as [|x l k _ IH|x l k _ IH]; rewrite ?reverse_cons; [done|by apply sublist_app|by apply sublist_inserts_r].
Qed.
Lemma last_drop_tail {B} (l : list B) n : 1 ≤ n → last (drop (length l - n) l) = last l.
Proof.
  intros Hn. destruct l as [|x l _] using rev_ind; [done|]. rewrite length_app. cbn [length].
  rewrite drop_app_le by lia. by rewrite !last_snoc.
Qed.

Abbreviation caps b := (fst <$> effective_caps b).

(** Adding an event. *)
Lemma add_event_spec e b :
  let q := queue (add_event e b) in
  length q = S (length (queue b)) ∧
  live q `sublist_of` live (queue b) ++ [e] ∧
  filter (kept (caps b)) (live q) = filter (kept (caps b)) (live (queue b) ++ [e]) ∧
  ∀ id z, caps b !! id = Some z → (0 ≤ z)%Z →
    let l := inputs_of id (live (queue b) ++ [e]) in inputs_of id (live q) = drop (length l - Z.to_nat z) l.
Proof.
  unfold add_event, drop_oldest_inputs. cbn [queue effective_caps].
  assert (live (queue b ++ [Some e]) = live (queue b) ++ [e]) as Hl by apply live_app. split_and!.
  - rewrite length_reverse, drop_reversed_length, length_reverse, length_app. cbn. lia.
  - rewrite live_reverse, <- Hl, <- (reverse_involutive (live (queue b ++ [Some e]))).
    apply reverse_sublist. rewrite <- live_reverse. apply drop_reversed_sublist.
  - rewrite live_reverse, filter_reverse, drop_reversed_kept, live_reverse, filter_reverse, reverse_involutive. by rewrite Hl.
  - intros id z Hz Hpos. cbv zeta. unfold inputs_of at 1. rewrite live_reverse, filter_reverse.
    change (reverse (inputs_of id (live (drop_reversed (caps b) (reverse (queue b ++ [Some e])))))
      = drop (length (inputs_of id (live (queue b) ++ [e])) - Z.to_nat z) (inputs_of id (live (queue b) ++ [e]))).
    rewrite (drop_reversed_inputs _ _ id z) by done. unfold inputs_of. rewrite live_reverse, filter_reverse, Hl.
    by rewrite take_reverse, reverse_involutive.
Qed.

Lemma pop_queued_spec q next q' :
  pop_queued q = (next, q') → live q = option_list next ++ live q' ∧ (next = None → q' = []).
Proof.
  induction q as [|[e|] q IH]; cbn [pop_queued]; [by intros [= <- <-]|by intros [= <- <-]|]. apply IH.
Qed.

Definition held (b : InputBuffer A) : list Event := option_list (send_out b) ++ live (queue b).

Lemma send_next_spec b : held (send_next_queued b) = live (queue b) ∧
  (send_out (send_next_queued b) = None → queue (send_next_queued b) = []) ∧
  live (queue (send_next_queued b)) `sublist_of` live (queue b).
Proof.
  unfold send_next_queued, held. destruct (pop_queued (queue b)) as [next q] eqn:E.
  apply pop_queued_spec in E as [-> Hn]. split_and!; [done|done|]. by apply sublist_inserts_l.
Qed.

Lemma on_event_spec e b :
  (send_out b = None → queue b = []) →
  held (on_event e b) = option_list (send_out b) ++ live (queue (add_event e b)) ∧
  (send_out (on_event e b) = None → queue (on_event e b) = []) ∧
  live (queue (on_event e b)) `sublist_of` live (queue (add_event e b)) ∧
  effective_caps (on_event e b) = effective_caps b ∧ incoming_closed (on_event e b) = incoming_closed b.
Proof.
  intros Hidle. unfold on_event. change (send_out (add_event e b)) with (send_out b).
  destruct (send_out b) as [x|] eqn:E.
  - unfold held. change (send_out (add_event e b)) with (send_out b). rewrite E. by split_and!.
  - destruct (send_next_spec (add_event e b)) as (-> & Hn & Hs). split_and!; [done..| |];
      unfold send_next_queued; by destruct (pop_queued _).
Qed.
Lemma on_sent_spec b :
  effective_caps (on_sent b) = effective_caps b ∧ incoming_closed (on_sent b) = incoming_closed b.
Proof. unfold on_sent, send_next_queued. by destruct (pop_queued _). Qed.

Lemma inputs_of_sublist id (l k : list Event) : l `sublist_of` k → length (inputs_of id l) ≤ length (inputs_of id k).
Proof.
  intros Hs. unfold inputs_of. induction Hs as [|x l k _ IH|x l k _ IH]; rewrite ?filter_cons; [done|..];
    case_decide; cbn [length]; lia.
Qed.

(** *** The invariant of a channel *)

Definition caps_of (sizes : gmap DataId (Z * QueuePolicy)) : gmap DataId Z :=
  (λ e : Z * QueuePolicy, effective_cap e.2 e.1) <$> sizes.
(** What the channel has let through or still has. *)
Definition passed (c : OpChannel A) : list Event := delivered c ++ held (buffer c) ++ incoming c.
Lemma filter_kept_caps sizes (l : list Event) : filter (kept (caps_of sizes)) l = filter (kept sizes) l.
Proof.
  apply list_filter_iff. intros e. unfold kept, caps_of. destruct (input_id e); [|done]. by rewrite lookup_fmap, fmap_None.
Qed.
Lemma lookup_caps_of sizes id (size : Z) (policy : QueuePolicy) :
  sizes !! id = Some (size, policy) → caps_of sizes !! id = Some (effective_cap policy size).
Proof. intros E. unfold caps_of. by rewrite lookup_fmap, E. Qed.

Record chan_inv (sizes : gmap DataId (Z * QueuePolicy)) (c : OpChannel A) : Prop := {
  ci_caps : caps (buffer c) = caps_of sizes;
  ci_order : passed c `sublist_of` accepted c;
  ci_kept : filter (kept (caps_of sizes)) (passed c) = filter (kept (caps_of sizes)) (accepted c);
  ci_bound id z : caps_of sizes !! id = Some z → (0 ≤ z)%Z →
    length (inputs_of id (live (queue (buffer c)))) ≤ Z.to_nat z;
  ci_newest id z : caps_of sizes !! id = Some z → (1 ≤ z)%Z →
    last (inputs_of id (passed c)) = last (inputs_of id (accepted c));
  ci_idle : send_out (buffer c) = None → queue (buffer c) = [];
  ci_closed : incoming_closed (buffer c) = true → incoming c = [] ∧ senders c = false;
  ci_done : incoming_closed (buffer c) = true → send_out (buffer c) = None → ended c = true;
  ci_end : ended c = true → (held (buffer c) = [] ∧ incoming c = []) ∨ gone c = true
}.

Lemma channel_new_inv sizes : chan_inv sizes (channel_new sizes).
Proof.
  split; try done.
  - cbn. unfold caps_of. by rewrite <- map_fmap_compose.
  - intros. cbn. lia.
Qed.

Lemma last_swap {B} (pre mid mid' post : list B) :
  last mid = last mid' → last (pre ++ mid ++ post) = last (pre ++ mid' ++ post).
Proof. intros E. by rewrite !last_app, E. Qed.

(** An event is taken from the incoming channel. *)
Lemma chan_event_inv sizes c event rest :
  chan_inv sizes c → ended c = false → incoming c = event :: rest →
  chan_inv sizes {| c with incoming := rest; buffer := on_event event (buffer c);
                           ended := buffer_done (on_event event (buffer c)) |}.
Proof.
  intros [Hcaps Hord Hkept Hb Hnew Hidle Hcl Hdone Hend] He Hi.
  destruct (on_event_spec event (buffer c) Hidle) as (Hh & Hid & Hsub & Hec & Hic).
  destruct (add_event_spec event (buffer c)) as (_ & Hs & Hk & Hin). cbv zeta in *. rewrite Hcaps in *.
  assert (passed c = (delivered c ++ option_list (send_out (buffer c))) ++ (live (queue (buffer c)) ++ [event]) ++ rest) as Hp.
  { unfold passed, held. rewrite Hi. by rewrite <- !app_assoc. }
  assert (passed {| c with incoming := rest; buffer := on_event event (buffer c);
                           ended := buffer_done (on_event event (buffer c)) |}
    = (delivered c ++ option_list (send_out (buffer c))) ++ live (queue (add_event event (buffer c))) ++ rest) as Hp'.
  { unfold passed. cbn [delivered buffer incoming]. rewrite Hh. by rewrite <- !app_assoc. }
  split; rewrite ?Hp'; cbn [buffer incoming ended senders gone accepted].
  - by rewrite Hec.
  - etrans; [|exact Hord]. rewrite Hp. by repeat apply sublist_app.
  - rewrite <- Hkept, Hp, !filter_app. by rewrite Hk, filter_app.
  - intros id z Hz Hpos. etrans; [by apply inputs_of_sublist|]. rewrite (Hin id z Hz Hpos), length_drop. lia.
  - intros id z Hz Hpos. rewrite <- (Hnew id z Hz Hpos), Hp, !(inputs_of_app _ (_ ++ option_list _)), !(inputs_of_app _ _ rest).
    apply last_swap. rewrite (Hin id z Hz) by lia. apply last_drop_tail. lia.
  - done.
  - rewrite Hic. intros Hc. apply Hcl in Hc as [Hc _]. congruence.
  - rewrite Hic. intros Hc. apply Hcl in Hc as [Hc _]. congruence.
  - unfold buffer_done. rewrite Hic. intros Hd. destruct (incoming_closed (buffer c)) eqn:Hc; [|done].
    destruct (Hcl eq_refl). congruence.
Qed.

(** The operator takes the event that is offered to it. *)
Lemma chan_deliver_inv sizes c event :
  chan_inv sizes c → send_out (buffer c) = Some event →
  chan_inv sizes {| c with buffer := on_sent (buffer c); ended := buffer_done (on_sent (buffer c));
                           delivered := delivered c ++ [event] |}.
Proof.
  intros [Hcaps Hord Hkept Hb Hnew Hidle Hcl Hdone Hend] Hs.
  destruct (send_next_spec (buffer c)) as (Hh & Hid & Hsub). destruct (on_sent_spec (buffer c)) as [Hec Hic].
  assert (passed {| c with buffer := on_sent (buffer c); ended := buffer_done (on_sent (buffer c));
                           delivered := delivered c ++ [event] |} = passed c) as Hp.
  { unfold passed. cbn [delivered buffer incoming]. unfold on_sent. rewrite Hh. unfold held. rewrite Hs.
    cbn [option_list]. by rewrite <- !app_assoc. }
  split; rewrite ?Hp; cbn [buffer incoming ended senders gone accepted]; try done.
  - by rewrite Hec.
  - intros id z Hz Hpos. etrans; [by apply inputs_of_sublist|]. eauto.
  - by rewrite Hic.
  - unfold buffer_done. intros -> Ho. specialize (Hid Ho). unfold on_sent in *. by rewrite Ho, Hid.
  - unfold buffer_done. intros [[Hc Ho]%andb_true_iff Hq]%andb_true_iff. rewrite Hic in Hc. left.
    unfold held. destruct (send_out (on_sent _)), (queue (on_sent _)); try done. split; [done|]. by apply Hcl.
Qed.

Lemma op_step_inv sizes c c' : op_step c c' → chan_inv sizes c → chan_inv sizes c'.
Proof.
  intros [d d' Hc|d event Hs He Hl|d|d] Hinv; [inversion Hc; subst| | |].
  - by apply chan_event_inv.
  - destruct Hinv as [Hcaps Hord Hkept Hb Hnew Hidle Hcl Hdone Hend]. split; try done.
    { cbn. intros _ Ho. unfold buffer_done, on_disconnect. cbn. by rewrite Ho, (Hidle Ho). }
    unfold buffer_done, on_disconnect. cbn [ended incoming_closed send_out queue andb].
    intros [Ho Hq]%andb_true_iff. left. split; [|done]. unfold held. cbn [buffer send_out queue].
    by destruct (send_out (buffer d)), (queue (buffer d)).
  - by apply chan_deliver_inv.
  - destruct Hinv. split; try done. intros _. by right.
  - destruct Hinv as [Hcaps Hord Hkept Hb Hnew Hidle Hcl Hdone Hend].
    assert (passed {| d with incoming := incoming d ++ [event]; accepted := accepted d ++ [event] |}
      = passed d ++ [event]) as Hp.
    { unfold passed. cbn [delivered buffer incoming]. by rewrite <- !app_assoc. }
    split; rewrite ?Hp; cbn [buffer incoming ended senders gone accepted]; try done.
    + by apply sublist_app.
    + by rewrite !filter_app, Hkept.
    + intros id z Hz Hpos. by rewrite !inputs_of_app, !last_app, (Hnew id z Hz Hpos).
    + intros [_ Hc]%Hcl. congruence.
    + congruence.
  - destruct Hinv as [? ? ? ? ? ? Hcl ? ?]. split; try done. intros Hc. split; [|done]. by apply Hcl.
  - destruct Hinv as [? ? ? ? ? ? ? ? Hend]. split; try done. intros _. by right.
Qed.

Lemma op_steps_inv sizes c : rtc op_step (channel_new sizes) c → chan_inv sizes c.
Proof.
  intros Hr. assert (chan_inv sizes (channel_new sizes)) as Hn by apply channel_new_inv. revert Hn.
  induction Hr as [|d d' c Hs _ IH]; [done|]. intros Hd. by apply IH, (op_step_inv sizes d).
Qed.

(** *** The channel drains *)

(** The steps of the task are bounded by what it still has to move. *)
Definition chan_measure (c : OpChannel A) : nat :=
  2 * length (incoming c) + length (held (buffer c)) + (if incoming_closed (buffer c) then 0 else 1)
  + (if ended c then 0 else 1).

Lemma held_on_event e b : (send_out b = None → queue b = []) → length (held (on_event e b)) ≤ S (length (held b)).
Proof.
  intros Hidle. destruct (on_event_spec e b Hidle) as (-> & _). destruct (add_event_spec e b) as (_ & Hs & _).
  apply sublist_length in Hs. unfold held. rewrite !length_app in *. cbn [length] in *. lia.
Qed.

Lemma chan_step_measure sizes c c' : chan_inv sizes c → chan_step c c' → chan_measure c' < chan_measure c.
Proof.
  intros Hinv Hstep. unfold chan_measure. destruct Hstep as [c e rest He Hi|c He Hi Hs Hc|c e He Hg Hs|c e He Hg Hs];
    cbn [incoming buffer ended]; rewrite He.
  - destruct (on_event_spec e (buffer c) (ci_idle _ _ Hinv)) as (_ & _ & _ & _ & ->). rewrite Hi. cbn [length].
    pose proof (held_on_event e (buffer c) (ci_idle _ _ Hinv)). destruct (buffer_done _); lia.
  - rewrite Hi, Hc. change (held (on_disconnect (buffer c))) with (held (buffer c)).
    cbn [on_disconnect incoming_closed]. destruct (buffer_done _); lia.
  - destruct (on_sent_spec (buffer c)) as [_ ->]. destruct (send_next_spec (buffer c)) as (Hh & _).
    unfold on_sent at 1. rewrite Hh. unfold held. rewrite Hs, length_app.
    change (length (option_list (Some e))) with 1. destruct (buffer_done _); lia.
  - lia.
Qed.

Lemma chan_step_frame c c' : chan_step c c' → gone c' = gone c ∧ senders c' = senders c.
Proof. by intros []. Qed.

(** A task without senders that cannot go on has ended. *)
Lemma chan_progress sizes c :
  chan_inv sizes c → senders c = false → ended c = false → ∃ c', chan_step c c'.
Proof.
  intros Hinv Hs He. destruct (incoming c) as [|e rest] eqn:Hi; [|eexists; by eapply chan_event].
  destruct (incoming_closed (buffer c)) eqn:Hc; [|eexists; by apply chan_disconnect].
  destruct (send_out (buffer c)) as [e|] eqn:Ho.
  - destruct (gone c) eqn:Hg; eexists; [by eapply chan_dropped|by eapply chan_deliver].
  - pose proof (ci_done _ _ Hinv Hc Ho). congruence.
Qed.

Lemma chan_nsteps sizes n c c' :
  chan_inv sizes c → nsteps chan_step n c c' →
  chan_inv sizes c' ∧ n + chan_measure c' ≤ chan_measure c ∧ gone c' = gone c ∧ senders c' = senders c.
Proof.
  intros Hinv Hn. induction Hn as [c|n c d c' Hs _ IH]; [by split_and!|].
  pose proof (chan_step_measure sizes _ _ Hinv Hs). destruct (chan_step_frame _ _ Hs) as [<- <-].
  destruct IH as (? & ? & ? & ?); [eapply op_step_inv; [by apply op_internal|done]|]. split_and!; try done. lia.
Qed.

(** *** Theorems *)

(** C29. The queue of an operator.  Whatever the runtime sends and the operator takes, in any
    interleaving: what reaches the operator, followed by what is still on its way, is a
    subsequence of what the runtime sent, in order and without repetition; only inputs with a
    queue size are ever missing; no more of an input are queued than its effective capacity;
    the newest of an input is never lost; and a channel that has ended while the operator was
    there has delivered all of that. *)
Theorem operator_queue_correct sizes c :
  rtc op_step (channel_new sizes) c →
  passed c `sublist_of` accepted c ∧
  filter (kept sizes) (passed c) = filter (kept sizes) (accepted c) ∧
  (∀ id size policy, sizes !! id = Some (size, policy) → (0 ≤ size)%Z →
     length (inputs_of id (live (queue (buffer c)))) ≤ Z.to_nat (effective_cap policy size)) ∧
  (∀ id size policy, sizes !! id = Some (size, policy) → (1 ≤ size)%Z →
     last (inputs_of id (passed c)) = last (inputs_of id (accepted c))) ∧
  (ended c = true → gone c = false → passed c = delivered c).
Proof.
  intros Hinv%op_steps_inv. split_and!.
  - apply (ci_order _ _ Hinv).
  - rewrite <- !filter_kept_caps. apply (ci_kept _ _ Hinv).
  - intros id size policy Hid Hpos. apply (ci_bound _ _ Hinv); [by apply lookup_caps_of|].
    cbn. destruct policy; cbn; lia.
  - intros id size policy Hid Hpos. eapply (ci_newest _ _ Hinv); [by apply lookup_caps_of|].
    by apply effective_cap_pos.
  - intros He Hg. destruct (ci_end _ _ Hinv He) as [[Hh Hi]|]; [|congruence].
    unfold passed. rewrite Hh, Hi. by rewrite !app_nil_r.
Qed.

(** The channel of an operator ends.  Once the runtime has dropped its sender, the task makes
    at most [chan_measure] steps, and when it can make none it has ended; if the operator was
    still there, everything that was queued or on its way has been delivered, up to the inputs
    dropped on the way. *)
Theorem operator_queue_drains sizes c n c' :
  rtc op_step (channel_new sizes) c → senders c = false → nsteps chan_step n c c' →
  n ≤ chan_measure c ∧
  ((∃ c'', chan_step c' c'') ∨
   (ended c' = true ∧
    (gone c = false → delivered c' `sublist_of` accepted c' ∧
       filter (kept sizes) (delivered c') = filter (kept sizes) (accepted c')))).
Proof.
  intros Hr Hs Hn. assert (rtc op_step (channel_new sizes) c') as Hr'.
  { etrans; [exact Hr|]. eapply rtc_subrel; [|by eapply rtc_nsteps_2]. by apply op_internal. }
  pose proof (op_steps_inv _ _ Hr) as Hinv. destruct (chan_nsteps sizes n c c' Hinv Hn) as (Hinv' & Hm & Hg & Hs').
  split; [lia|]. destruct (ended c') eqn:He; [right|left; eapply chan_progress; [done|congruence|done]].
  split; [done|]. intros Hg0. destruct (ci_end _ _ Hinv' He) as [[Hh Hi]|]; [|congruence].
  assert (passed c' = delivered c') as Hp by (unfold passed; rewrite Hh, Hi; by rewrite !app_nil_r).
  rewrite <- Hp. split; [apply (ci_order _ _ Hinv')|].
  rewrite <- !filter_kept_caps. apply (ci_kept _ _ Hinv').
Qed.

Lemma busy_events b x (events : list Event) :
  send_out b = Some x →
  let b' := foldl (λ b e, on_event e b) b events in
  send_out b' = Some x ∧ effective_caps b' = effective_caps b ∧ length (queue b') = length (queue b) + length events.
Proof.
  intros Hs. induction events as [|y k IH] using rev_ind; cbv zeta; [by cbn; rewrite Nat.add_0_r|].
  rewrite foldl_snoc, length_app. set (d := foldl _ _ _) in *. destruct IH as (H1 & H2 & H3). unfold on_event.
  change (send_out (add_event y d)) with (send_out d). rewrite H1. split_and!; [done|done|].
  destruct (add_event_spec y d) as (-> & _). cbn [length]. lia.
Qed.

(** Dropped events stay in the queue.  While the operator is busy with an event, every
    further event makes the queue one entry longer, although of an input no more than its
    effective capacity are live in it: what bounds the live inputs does not bound the queue. *)
Theorem dropped_events_accumulate b x events id z :
  send_out b = Some x → caps b !! id = Some z → (0 ≤ z)%Z → events ≠ [] →
  let b' := foldl (λ b e, on_event e b) b events in
  length (queue b') = length (queue b) + length events ∧
  length (inputs_of id (live (queue b'))) ≤ Z.to_nat z.
Proof.
  intros Hs Hz Hpos Hne. split; [by eapply busy_events|].
  destruct events as [|e k _] using rev_ind; [done|]. rewrite foldl_snoc.
  destruct (busy_events b x k Hs) as (H1 & H2 & _). set (d := foldl _ _ _) in *.
  unfold on_event. change (send_out (add_event e d)) with (send_out d). rewrite H1.
  destruct (add_event_spec e d) as (_ & _ & _ & Hin). rewrite H2 in Hin.
  rewrite (Hin id z Hz Hpos), length_drop. lia.
Qed.
End buffer_lemmas.

(** ** What an operator sees *)

Section routing.
Context {A : Type} `{HashOrder}.
Abbreviation Event := (InputTracker.Event A).
Implicit Types (r : Runtime) (events : list (bool * @RuntimeEvent A)).

(** What the loop sends to an operator. *)
Definition forwards (op : OperatorId) (effects : list (@RuntimeEffect A)) : list Event :=
  omap (λ eff, match eff with Forward o e => if bool_decide (o = op) then Some e else None | _ => None end) effects.

(** The contract, for one operator by itself: [open] are its inputs that are not closed yet.
    It gets its inputs under their own names, the stop, its reloads and the closing of its
    inputs; nothing comes after a stop, the closing of its last input or its own end. *)
Definition view_step (op : OperatorId) (open : gset DataId) (event : @RuntimeEvent A) : list Event * option (gset DataId) :=
  match event with
  | NodeReceived (EvStop cause) => ([EvStop cause], None)
  | NodeReceived (EvReload (Some o)) => (if bool_decide (o = op) then [EvReload (Some op)] else [], Some open)
  | NodeReceived (EvInput id metadata data) =>
      match split_once "/" id with
      | Some (o, i) => (if bool_decide (o = op) then [EvInput i metadata data] else [], Some open)
      | None => ([], Some open)
      end
  | NodeReceived (EvInputClosed id) =>
      match split_once "/" id with
      | Some (o, i) =>
          if bool_decide (o = op)
          then ([EvInputClosed i], if bool_decide (open ⊆ {[i]}) then None else Some (open ∖ {[i]}))
          else ([], Some open)
      | None => ([], Some open)
      end
  | OperatorRaised o (Finished _) => ([], if bool_decide (o = op) then None else Some open)
  | _ => ([], Some open)
  end.
Fixpoint operator_view (op : OperatorId) (open : gset DataId) events : list Event :=
  match events with
  | [] => []
  | (_, event) :: events =>
      (view_step op open event).1 ++
      match (view_step op open event).2 with Some open => operator_view op open events | None => [] end
  end.

Lemma forwards_app op (l k : list RuntimeEffect) : forwards op (l ++ k) = forwards op l ++ forwards op k.
Proof. apply omap_app. Qed.
Lemma forwards_one op o e : forwards op [Forward o e] = if bool_decide (o = op) then [e] else [].
Proof. cbn. by case_bool_decide. Qed.

Lemma forwards_stop op cause (X : gset OperatorId) :
  forwards op ((λ o, Forward o (EvStop cause)) <$> hash_keys (gset_to_gmap tt X))
  = if bool_decide (op ∈ X) then [EvStop cause] else [].
Proof.
  assert (∀ o, o ∈ hash_keys (gset_to_gmap tt X) ↔ o ∈ X) as Hin.
  { intros o. rewrite elem_of_hash_keys. unfold is_Some. setoid_rewrite lookup_gset_to_gmap_Some. naive_solver. }
  assert (∀ l : list OperatorId, NoDup l →
    forwards op ((λ o, Forward o (EvStop cause)) <$> l) = if bool_decide (op ∈ l) then [EvStop cause] else []) as Hl.
  { induction 1 as [|o l Hni _ IH]; [done|]. rewrite fmap_cons.
    change (?x :: ?y) with ([x] ++ y) at 1. rewrite forwards_app, forwards_one, IH.
    destruct (decide (o = op)) as [->|Hne].
    - rewrite bool_decide_true, bool_decide_false by done. by rewrite bool_decide_true by apply list_elem_of_here.
    - rewrite (bool_decide_false (o = op)) by done. erewrite bool_decide_ext; [done|]. rewrite elem_of_cons. naive_solver. }
  rewrite Hl by apply NoDup_hash_keys. erewrite bool_decide_ext; [done|apply Hin].
Qed.

(** The part of the runtime that concerns an operator. *)
Definition seen_as (op : OperatorId) (state : option (gset DataId)) (r : Runtime) : Prop :=
  match state with
  | Some open => op ∈ operator_channels r ∧ open_operator_inputs r !! op = Some open
  | None => op ∉ operator_channels r
  end.

Lemma close_other op o i state r :
  o ≠ op → seen_as op state r → seen_as op state (close_operator_input o i r).
Proof.
  intros Hne Hs. unfold close_operator_input. destruct (open_operator_inputs r !! o) as [X|] eqn:E; [|done].
  case_bool_decide; destruct state; cbn in *;
    rewrite ?lookup_delete_ne, ?lookup_insert_ne by done; set_solver.
Qed.
Lemma close_own op i open r :
  seen_as op (Some open) r →
  seen_as op (if bool_decide (open ⊆ {[i]}) then None else Some (open ∖ {[i]})) (close_operator_input op i r).
Proof.
  intros [Hc Ho]. unfold close_operator_input. rewrite Ho.
  assert (open ∖ {[i]} = ∅ ↔ open ⊆ {[i]}) as Hiff.
  { split; [|set_solver]. intros E x Hx. destruct (decide (x = i)); set_solver. }
  rewrite (bool_decide_ext _ _ Hiff). case_bool_decide; cbn; [set_solver|]. by rewrite lookup_insert_eq.
Qed.

(** What each event means to an operator. *)
Definition step_seen (op : OperatorId) event effects (r r' : Runtime) : Prop :=
  ∀ state, seen_as op state r →
    forwards op effects = default [] ((λ open, (view_step op open event).1) <$> state) ∧
    seen_as op (state ≫= λ open, (view_step op open event).2) r'.

Lemma idle_seen op event r :
  (∀ open, view_step op open event = ([], Some open)) → step_seen op event [] r r.
Proof. intros Hv [open|] Hs; [|done]. cbn. by rewrite Hv. Qed.

(** An event for operator [o], whose channel is looked up. *)
Lemma forward_seen op o e event r :
  (∀ open, view_step op open event = (if bool_decide (o = op) then [e] else [], Some open)) →
  step_seen op event (if bool_decide (o ∈ operator_channels r) then [Forward o e] else []) r r.
Proof.
  intros Hv state Hs. assert (seen_as op (state ≫= λ open, (view_step op open event).2) r) as Hs'.
  { destruct state; [|done]. cbn. by rewrite Hv. }
  split; [|done]. destruct state as [open|]; cbn in *; [rewrite Hv|]; clear Hv Hs'.
  - destruct (decide (o = op)) as [->|]; [rewrite (bool_decide_true (op ∈ _)) by apply Hs; apply forwards_one|].
    rewrite (bool_decide_false (o = op)) by done. case_bool_decide as Ho; [|done]. by rewrite forwards_one, bool_decide_false.
  - case_bool_decide; [|done]. rewrite forwards_one, bool_decide_false; [done|]. by intros ->.
Qed.

Lemma on_node_event_seen op event r effects continue r' :
  on_node_event event r = Ok (effects, continue, r') → step_seen op (NodeReceived event) effects r r'.
Proof.
  unfold on_node_event. destruct event as [id metadata data|id| | |cause|[o|]| | | |]; try done;
    try (intros [= <- <- <-]; by apply idle_seen).
  - unfold operator_input. destruct (split_once "/" id) as [[o i]|] eqn:E;
      [|intros [= <- <- <-]; apply idle_seen; cbn; by rewrite E].
    intros (i' & [-> _]%data_id_from_Ok & Hok)%res_bind_Ok.
    assert (effects = if bool_decide (o ∈ operator_channels r) then [Forward o (EvInput i' metadata data)] else []) as ->
      by (case_bool_decide; congruence).
    assert (r' = r) as -> by (case_bool_decide; congruence). apply forward_seen. intros open. cbn. by rewrite E.
  - unfold operator_input. destruct (split_once "/" id) as [[o i]|] eqn:E;
      [|intros [= <- <- <-]; apply idle_seen; cbn; by rewrite E].
    intros (i' & [-> _]%data_id_from_Ok & Hok)%res_bind_Ok. intros state Hs.
    case_bool_decide as Ho; injection Hok as <- <- <-.
    + rewrite forwards_one. destruct (decide (o = op)) as [->|].
      * destruct state as [open|]; [|done]. cbn. rewrite E, !(bool_decide_true (op = op)) by done.
        split; [done|]. by apply close_own.
      * rewrite bool_decide_false by done. split.
        { destruct state; cbn; [|done]. by rewrite E, bool_decide_false. }
        apply close_other; [done|]. destruct state; [|done]. cbn. by rewrite E, bool_decide_false.
    + destruct state as [open|]; [|done]. cbn. rewrite E, bool_decide_false; [done|]. intros ->. by apply Ho, Hs.
  - intros [= <- <- <-] state Hs. rewrite forwards_stop. destruct state as [open|]; cbn in *.
    + rewrite bool_decide_true by apply Hs. split; [done|set_solver].
    + by rewrite bool_decide_false.
  - intros Hok.
    assert (r' = r ∧ effects = if bool_decide (o ∈ operator_channels r) then [Forward o (EvReload (Some o))] else []) as [-> ->].
    { case_bool_decide; by simplify_eq. }
    apply forward_seen. intros open. cbn. destruct (decide (o = op)) as [->|]; [done|]. by rewrite !bool_decide_false.
Qed.

Lemma on_operator_seen op config ok o event r effects continue r' :
  operators r !! op = Some config → on_operator ok o event r = Ok (effects, continue, r') →
  step_seen op (OperatorRaised o event) effects r r' ∧ (continue = false → operator_channels r' = ∅).
Proof.
  intros Hop. unfold on_operator. destruct event as [len|out data| | |reason]; try done.
  - intros [= <- <- <-]. split; [|done]. by apply (idle_seen op _ r).
  - intros (out' & _ & Hok)%res_bind_Ok. destruct ok; [|done]. injection Hok as <- <- <-.
    split; [|done]. by apply (idle_seen op _ r).
  - assert (∀ x msg, match reason with ExplicitStopAll => Err msg | _ => x end = Ok (effects, continue, r') →
      x = Ok (effects, continue, r')) as Hr by (by destruct reason).
    intros Hok%Hr. clear Hr. destruct (operators r !! o) as [cfg|] eqn:Eo.
    + apply res_bind_Ok in Hok as (outs & _ & Hok). destruct ok; [|done]. injection Hok as <- <- <-. split.
      * intros state Hs. split; [by destruct state|]. destruct state as [open|]; cbn in *; [|set_solver].
        case_bool_decide; cbn; set_solver.
      * by intros ?%negb_false_iff%bool_decide_eq_true.
    + injection Hok as <- <- <-. split; [|done]. apply idle_seen. intros open. cbn. rewrite bool_decide_false; congruence.
Qed.

Lemma run_operators ok (event : @RuntimeEvent A) r effects continue r' :
  on_runtime_event ok event r = Ok (effects, continue, r') → operators r' = operators r.
Proof.
  destruct event as [o [len|out data| | |reason]|[id metadata data|id| | |cause|[o|]| | | |]]; cbn; try done;
    try (by intros [= <- <- <-]).
  - intros (out' & _ & Hok)%res_bind_Ok. destruct ok; by simplify_eq.
  - destruct reason, (operators r !! o); try done; try (by intros [= <- <- <-]);
      intros (outs & _ & Hok)%res_bind_Ok; destruct ok; by simplify_eq.
  - destruct (operator_input id) as [[o i]|]; [|by intros [= <- <- <-]].
    intros (i' & _ & Hok)%res_bind_Ok. case_bool_decide; by simplify_eq.
  - destruct (operator_input id) as [[o i]|]; [|by intros [= <- <- <-]].
    intros (i' & _ & Hok)%res_bind_Ok. case_bool_decide; simplify_eq; [|done].
    unfold close_operator_input. destruct (open_operator_inputs r !! o); [|done]. by case_bool_decide.
  - case_bool_decide; by intros [= <- <- <-].
Qed.

Lemma run_seen op config events r effects continue r' state :
  operators r !! op = Some config → seen_as op state r → run events r = Ok (effects, continue, r') →
  forwards op effects = default [] ((λ open, operator_view op open events) <$> state).
Proof.
  revert r effects state. induction events as [|[ok event] events IH]; intros r effects state Hop Hs; cbn [run].
  { intros [= <- <- <-]. by destruct state. }
  intros ([[eff cont] r1] & Hstep & Hrun)%res_bind_Ok. pose proof (run_operators _ _ _ _ _ _ Hstep) as Hops.
  assert (step_seen op event eff r r1 ∧ (cont = false → operator_channels r1 = ∅)) as [Hseen Hcont].
  { destruct event as [o oe|ne]; cbn in Hstep; [by eapply on_operator_seen|].
    split; [by eapply on_node_event_seen|]. intros ->. exfalso. revert Hstep. unfold on_node_event.
    destruct ne as [id m d|id| | | |[]| | | |]; try done; try case_bool_decide; try done;
      (destruct (operator_input id) as [[]|]; [|done]); intros (? & _ & Hx)%res_bind_Ok; by case_bool_decide. }
  destruct (Hseen state Hs) as [Hf Hs1].
  assert (forwards op effects = forwards op eff ++
    default [] ((λ open, operator_view op open events) <$> (state ≫= λ open, (view_step op open event).2))) as ->.
  { destruct cont.
    - apply res_bind_Ok in Hrun as ([[eff' cont'] r2] & Hrun & [= <- <- <-]). rewrite forwards_app. f_equal.
      eapply IH; [|done|done]. by rewrite Hops.
    - injection Hrun as <- <- <-. destruct (state ≫= _) as [open|]; [|by rewrite app_nil_r].
      destruct Hs1 as [Hin _]. rewrite Hcont in Hin by done. set_solver. }
  rewrite Hf. destruct state as [open|]; [|done]. cbn. by destruct (view_step op open event).2.
Qed.

Lemma runtime_new_seen op config operators :
  operators !! op = Some config → seen_as op (Some (dom (op_inputs config))) (runtime_new operators).
Proof. intros Hop. split; [by apply elem_of_dom_2 in Hop|]. cbn. by rewrite lookup_fmap, Hop. Qed.

Lemma run_before_panic before events r effects r1 :
  run before r = Ok (effects, true, r1) → run events r1 = Panic → run (before ++ events) r = Panic.
Proof.
  revert r effects. induction before as [|[ok event] before IH]; intros r effects; cbn [run app].
  { by intros [= <- <-]. }
  intros ([[eff cont] r2] & Hstep & Hrun)%res_bind_Ok Hp. rewrite Hstep. cbn. destruct cont; [|done].
  apply res_bind_Ok in Hrun as ([[eff' cont'] r3] & Hrun & [= <- -> ->]). by rewrite (IH _ _ Hrun Hp).
Qed.

(** *** Theorems *)

(** C30. The runtime passes each operator exactly its part of the events of the node.  For every
    operator, whatever the others do and whatever order the hash maps are iterated in, the
    events the loop sends to its channel are those of the contract for that operator alone. *)
Theorem operator_events_routed op config operators events effects continue r :
  operators !! op = Some config → run events (runtime_new operators) = Ok (effects, continue, r) →
  forwards op effects = operator_view op (dom (op_inputs config)) events.
Proof.
  intros Hop Hrun. apply (run_seen op config _ (runtime_new operators) _ continue r (Some (dom (op_inputs config))) Hop); [|exact Hrun].
  by apply runtime_new_seen.
Qed.

(** A reload of an operator whose channel is gone, because the node was stopped, its inputs
    were closed or it finished, makes the runtime panic. *)
Theorem reload_after_stop_panics op operators before effects r ok events :
  run before (runtime_new operators) = Ok (effects, true, r) → op ∉ operator_channels r →
  run (before ++ (ok, NodeReceived (EvReload (Some op))) :: events) (runtime_new operators) = Panic.
Proof.
  intros Hrun Hni. eapply run_before_panic; [exact Hrun|]. cbn. by rewrite bool_decide_false.
Qed.

(** An operator whose inputs have all been closed is shut for good: it gets no event after
    the last of them, although the node library can reopen a closed input and announces that
    with an event, which the runtime does not pass on. *)
Theorem recovered_input_lost op id i config operators before after effects continue r :
  operators !! op = Some config → dom (op_inputs config) = {[i]} →
  (∀ ok event, (ok, event) ∈ before → ∃ input m d, event = NodeReceived (EvInput input m d)) →
  split_once "/" id = Some (op, i) →
  run (before ++ (true, NodeReceived (EvInputClosed id)) :: (true, NodeReceived (EvInputRecovered id)) :: after)
    (runtime_new operators) = Ok (effects, continue, r) →
  last (forwards op effects) = Some (EvInputClosed i).
Proof.
  intros Hop Hdom Hbefore Hid Hrun.
  rewrite (run_seen op config _ (runtime_new operators) _ continue r _ Hop (runtime_new_seen _ _ _ Hop) Hrun).
  rewrite Hdom. clear Hrun. change (last (operator_view op {[i]}
    (before ++ (true, NodeReceived (EvInputClosed id)) :: (true, NodeReceived (EvInputRecovered id)) :: after))
    = Some (EvInputClosed i)).
  induction before as [|[ok event] before IH].
  - cbn. rewrite Hid, bool_decide_true, bool_decide_true by done. done.
  - destruct (Hbefore ok event) as (input & m & d & ->); [apply list_elem_of_here|].
    cbn. destruct (split_once "/" input) as [[o j]|]; cbn.
    + rewrite last_app, IH; [done|]. intros ok' e' Hin. apply (Hbefore ok' e'). by apply list_elem_of_further.
    + apply IH. intros ok' e' Hin. apply (Hbefore ok' e'). by apply list_elem_of_further.
Qed.

(** The output names of operators lead back to their operator, as inputs do, if the name of
    the operator has no slash. *)
Lemma operator_output_roundtrip (op output name : string) :
  no_sep "/" op = true → operator_output_id op output = Ok name → operator_input name = Some (op, output).
Proof. intros Hn [<- _]%data_id_from_Ok. by apply split_once_app. Qed.
End routing.

(** ** Witnesses *)

Section witnesses.
Abbreviation event := (InputTracker.Event nat).
Definition sample_sizes : gmap DataId (Z * QueuePolicy) := {["i" := (1%Z, DropOldest)]}.
Definition sample_event (n : nat) : event := EvInput "i" (mkMetadata ∅) n.

Definition chan_send (e : event) (c : OpChannel nat) : OpChannel nat :=
  {| c with incoming := incoming c ++ [e]; accepted := accepted c ++ [e] |}.
Definition chan_take (c : OpChannel nat) : OpChannel nat :=
  match incoming c with
  | e :: rest => {| c with incoming := rest; buffer := on_event e (buffer c); ended := buffer_done (on_event e (buffer c)) |}
  | [] => c
  end.
(** Three inputs arrive while the operator is busy with the first, then the stop. *)
Definition sample_channel : OpChannel nat :=
  {| (chan_take (chan_send (EvStop Manual) (chan_take (chan_send (sample_event 3) (chan_take (chan_send (sample_event 2)
       (chan_take (chan_send (sample_event 1) (channel_new sample_sizes)))))))))
     with senders := false |}.

Lemma send_and_take e (c : OpChannel nat) :
  senders c = true → ended c = false → incoming c = [] → rtc op_step c (chan_take (chan_send e c)).
Proof.
  intros Hs He Hi. eapply rtc_l; [apply (op_send c e); try done; rewrite Hi; unfold INCOMING_CAPACITY; cbn; lia|].
  apply rtc_once, op_internal. unfold chan_take, chan_send. cbn [incoming]. rewrite Hi. by apply chan_event.
Qed.

Lemma sample_reachable : rtc op_step (channel_new sample_sizes) sample_channel.
Proof.
  unfold sample_channel. eapply rtc_r; [|apply op_close].
  do 4 (etrans; [|apply send_and_take; by vm_compute]). reflexivity.
Qed.

Lemma operator_queue_correct_witness :
  passed sample_channel = [sample_event 1; sample_event 3; EvStop Manual] ∧
  accepted sample_channel = [sample_event 1; sample_event 2; sample_event 3; EvStop Manual] ∧
  passed sample_channel `sublist_of` accepted sample_channel.
Proof.
  split_and!; [by vm_compute..|]. exact (proj1 (operator_queue_correct sample_sizes sample_channel sample_reachable)).
Defined.

Lemma operator_queue_drains_witness :
  chan_measure sample_channel = 5 ∧ 0 ≤ chan_measure sample_channel ∧ ∃ c, chan_step sample_channel c.
Proof.
  split; [by vm_compute|].
  destruct (operator_queue_drains sample_sizes sample_channel 0 sample_channel sample_reachable eq_refl (nsteps_O _ _)) as [Hn H].
  split; [exact Hn|]. destruct H as [H|[H _]]; [exact H|]. exfalso. vm_compute in H. discriminate.
Defined.

Lemma dropped_events_accumulate_witness :
  let b := buffer (chan_take (chan_send (sample_event 1) (channel_new sample_sizes))) in
  length (queue (foldl (λ b e, on_event e b) b (sample_event <$> seq 2 30))) = 30 ∧
  length (inputs_of "i" (live (queue (foldl (λ b e, on_event e b) b (sample_event <$> seq 2 30))))) ≤ 1.
Proof.
  cbv zeta. set (b := buffer _). assert (queue b = []) as Hq by by vm_compute.
  destruct (dropped_events_accumulate b (sample_event 1) (sample_event <$> seq 2 30) "i" 1) as [H1 H2];
    [by vm_compute|by vm_compute|done|done|].
  split; [|exact H2]. rewrite H1, Hq. reflexivity.
Defined.

Definition sample_operators : gmap OperatorId OperatorConfig :=
  {["a" := plain_operator {["i" := from_node "cam" "image"]} {["o"]};
    "b" := plain_operator {["i" := from_node "cam" "image"; "j" := from_node "cam" "depth"]} ∅]}.
Definition sample_events : list (bool * RuntimeEvent) :=
  [(true, NodeReceived (EvInput "a/i" (mkMetadata ∅) 1)); (true, NodeReceived (EvInput "b/j" (mkMetadata ∅) 2));
   (true, NodeReceived (EvInputClosed "a/i")); (true, NodeReceived (EvInputRecovered "a/i"));
   (true, OperatorRaised "a" (Output "o" 3)); (true, NodeReceived (EvInput "a/i" (mkMetadata ∅) 4));
   (true, NodeReceived (EvInputClosed "b/i")); (true, NodeReceived (EvStop Manual))].

Definition sample_run := run sample_events (runtime_new sample_operators).
Lemma sample_run_ok : ∃ effects continue r, sample_run = Ok (effects, continue, r).
Proof.
  assert (is_ok sample_run = true) as Hok by by vm_compute.
  destruct sample_run as [[[effects continue] r]| |]; [by eauto|done..].
Qed.

Lemma operator_events_routed_witness :
  ∃ effects continue r, sample_run = Ok (effects, continue, r) ∧
    forwards "b" effects = [EvInput "j" (mkMetadata ∅) 2; EvInputClosed "i"; EvStop Manual].
Proof.
  destruct sample_run_ok as (effects & continue & r & E). exists effects, continue, r. split; [exact E|].
  rewrite (operator_events_routed "b" _ sample_operators sample_events effects continue r eq_refl E). by vm_compute.
Defined.

Lemma recovered_input_lost_witness :
  ∃ effects continue r, sample_run = Ok (effects, continue, r) ∧ last (forwards "a" effects) = Some (EvInputClosed "i").
Proof.
  destruct sample_run_ok as (effects & continue & r & E). exists effects, continue, r. split; [exact E|].
  eapply (recovered_input_lost "a" "a/i" "i" _ sample_operators (take 2 sample_events) (drop 4 sample_events));
    [reflexivity|by vm_compute| |reflexivity|exact E].
  intros ok e. cbn. rewrite !elem_of_cons, elem_of_nil. intros [[= -> ->]|[[= -> ->]|[]]]; by eauto.
Defined.

Lemma reload_after_stop_panics_witness :
  run (sample_events ++ [(true, NodeReceived (EvReload (Some "a")))]) (runtime_new sample_operators) = Panic.
Proof.
  destruct (run sample_events (runtime_new sample_operators)) as [[[effects continue] r]| |] eqn:E.
  - assert (((λ x, (x.1.2, x.2)) <$> sample_run) = Ok (true, mkRuntime sample_operators ∅ {["b" := {["j"]}]})) as Hr.
    { by vm_compute. }
    unfold sample_run in Hr. rewrite E in Hr. cbn in Hr. injection Hr as -> ->.
    apply (reload_after_stop_panics "a" sample_operators sample_events effects _ true [] E). cbn. set_solver.
  - by assert (is_ok sample_run = true) as Hok by (by vm_compute); unfold sample_run in Hok; rewrite E in Hok.
  - by assert (is_ok sample_run = true) as Hok by (by vm_compute); unfold sample_run in Hok; rewrite E in Hok.
Defined.
End witnesses.
