(* ===== verification/RecordReplay.v ===== *)
(** * Recording and replaying a dataflow

    Models [dora record] and [dora replay] ([binaries/cli/src/command/{record,replay}.rs]), which
    rewrite the descriptor of a dataflow, and the two nodes they put into it
    ([binaries/record-node/src/main.rs], [binaries/replay-node/src/main.rs]).  The file format is
    that of [Recording], the layout of arrays that of [Arrow].  Descriptors are YAML values here,
    as they are in the code.  JSON and bincode are parameters. *)

From Stdlib Require Import ZArith Lia Ascii.
From Stdlib Require Import Floats.SpecFloat.
From stdpp Require Import base gmap sets list strings.
From S2P Require Import Prelude Message Recording InputMapping Text Arrow.
Local Open Scope nat_scope.
Local Open Scope list_scope.

Abbreviation text_bytes := String.list_byte_of_string (only parsing).
Abbreviation text_of := String.string_of_list_byte (only parsing).

(** ** YAML values *)

Inductive Value :=
| VNull
| VBool (b : bool)
| VNumber (text : string)
| VString (s : string)
| VSequence (l : list Value)
| VMapping (m : list (Value * Value)).

Abbreviation Mapping := (list (Value * Value)).

Definition is_key (k : string) (entry : Value * Value) : bool :=
  match entry.1 with VString s => bool_decide (s = k) | _ => false end.

Fixpoint map_get (k : string) (m : Mapping) : option Value :=
  match m with
  | [] => None
  | entry :: m => if is_key k entry then Some entry.2 else map_get k m
  end.

(** [Mapping::insert] keeps the place of a key that is there. *)
Fixpoint map_insert (k : string) (v : Value) (m : Mapping) : Mapping :=
  match m with
  | [] => [(VString k, v)]
  | entry :: m => if is_key k entry then (entry.1, v) :: m else entry :: map_insert k v m
  end.

(** [Mapping::remove] moves the last entry to the place of the removed one. *)
Fixpoint map_remove (k : string) (m : Mapping) : Mapping :=
  match m with
  | [] => []
  | entry :: m =>
      if is_key k entry then match last m with Some l => l :: removelast m | None => [] end
      else entry :: map_remove k m
  end.

Definition get (k : string) (v : Value) : option Value :=
  match v with VMapping m => map_get k m | _ => None end.
Definition as_sequence (v : Value) : option (list Value) := match v with VSequence l => Some l | _ => None end.
Definition as_str (v : Value) : option string := match v with VString s => Some s | _ => None end.
Definition as_mapping (v : Value) : option Mapping := match v with VMapping m => Some m | _ => None end.

(** [value[k] = v]: a null becomes a mapping, anything but a mapping panics. *)
Definition index_set (k : string) (v : Value) (node : Value) : res Value :=
  match node with
  | VMapping m => Ok (VMapping (map_insert k v m))
  | VNull => Ok (VMapping [(VString k, v)])
  | _ => Panic
  end.

(** ** [dora record] *)

Definition node_outputs (node : Value) : list (string * string) :=
  let node_id := default EmptyString (get "id" node ≫= as_str) in
  match get "outputs" node ≫= as_sequence with
  | Some outputs => pair node_id <$> omap as_str outputs
  | None => []
  end.

Definition discover_descriptor_outputs (descriptor : Value) : res (list (string * string)) :=
  nodes ← res_of_option "descriptor has no nodes array" (get "nodes" descriptor ≫= as_sequence);
  let outputs := nodes ≫= node_outputs in
  match outputs with [] => Err "no outputs found in descriptor" | _ => Ok outputs end.

Definition topic_name (n o : string) : string := String.append n (String "/" o).
Definition record_input_id (n o : string) : string := String.append n (String.append "___" o).

(** The topics with the inputs of the record node: all, or those asked for. *)
Definition all_topics (outputs : list (string * string)) : gmap string string :=
  foldl (λ topics '(n, o), <[topic_name n o := record_input_id n o]> topics) ∅ outputs.

Fixpoint filter_topics (all : gmap string string) (requested : list string) (filtered : gmap string string)
    : res (gmap string string) :=
  match requested with
  | [] => Ok filtered
  | topic :: requested =>
      match all !! topic with
      | Some input_id => filter_topics all requested (<[topic := input_id]> filtered)
      | None => Err "topic not found in descriptor"
      end
  end.

Definition chosen_topics (all : gmap string string) (requested : list string) : res (gmap string string) :=
  match requested with [] => Ok all | _ => filter_topics all requested ∅ end.

(** The topics by the inputs of the record node; later topics replace earlier ones. *)
Definition topic_map (topics : gmap string string) : gmap string string :=
  foldl (λ m '(topic, input_id), <[input_id := topic]> m) ∅ (btree_iter topics).

Section record.
Context (topics_json : gmap string string → string).

Definition inputs_mapping (topics : gmap string string) : Mapping :=
  foldl (λ m '(topic, input_id), map_insert input_id (VString topic) m) [] (btree_iter topics).

Definition record_node (record_node_bin output_path yaml : string) (topics : gmap string string) : Value :=
  VMapping
    [(VString "id", VString "__dora_record__");
     (VString "path", VString record_node_bin);
     (VString "inputs", VMapping (inputs_mapping topics));
     (VString "env", VMapping
        [(VString "DORA_RECORD_FILE", VString output_path);
         (VString "DORA_RECORD_TOPICS", VString (topics_json (topic_map topics)));
         (VString "DORA_RECORD_DESCRIPTOR", VString yaml)])].

(** [run_record] up to the modified descriptor. *)
Definition record_descriptor (record_node_bin output_path yaml : string) (requested : list string)
    (descriptor : Value) : res (Value * gmap string string) :=
  outputs ← discover_descriptor_outputs descriptor;
  topics ← chosen_topics (all_topics outputs) requested;
  match descriptor with
  | VMapping m =>
      nodes ← res_of_option "descriptor has no nodes array" (map_get "nodes" m ≫= as_sequence);
      Ok (VMapping (map_insert "nodes" (VSequence (nodes ++ [record_node record_node_bin output_path yaml topics])) m), topics)
  | _ => Err "descriptor has no nodes array"
  end.
End record.

(** ** The messages *)

Section nodes.
Context {T : Type} `{ArrowLib T}.

(** [Metadata] of a message, and [Timestamped<InterDaemonEvent>]. *)
Record MessageMetadata := mkMessageMetadata {
  mm_timestamp : Z;
  mm_type_info : ArrowTypeInfo T;
  mm_parameters : gmap string ParameterValue
}.
Inductive RecordedEvent :=
| ROutput (dataflow_id : Uuid) (node_id : NodeId) (output_id : DataId) (metadata : MessageMetadata) (data : option Bytes)
| ROutputClosed (dataflow_id : Uuid) (node_id : NodeId) (output_id : DataId).
Record TimestampedEvent := mkTimestamped { t_inner : RecordedEvent; t_timestamp : Z }.

Context (parse_topics : string → res (gmap string string)).
Context (serialize : TimestampedEvent → res bytes) (deserialize : bytes → res TimestampedEvent).
Context (nil : Uuid).

(** ** The record node *)

(** What the loop of the record node distinguishes. *)
Inductive RecordInput :=
| RInput (id : DataId) (metadata : MessageMetadata) (data : ArrayData T)
| RStop
| RIgnored.

Fixpoint reverse_entries (topics : list (string * string)) : res (list (string * (string * string))) :=
  match topics with
  | [] => Ok []
  | (input_id, source) :: topics =>
      pair ← res_of_option "invalid topic format" (split_once "/" source);
      rest ← reverse_entries topics;
      Ok ((input_id, pair) :: rest)
  end.
Definition reverse_map `{HashOrder} (topic_map : gmap string string) : res (gmap string (string * string)) :=
  list_to_map <$> reverse_entries (hash_iter topic_map).

(** The start of [main], from the environment. *)
Definition record_setup `{HashOrder} (env : gmap string string)
    : res (string * gmap string (string * string) * string) :=
  output_file ← res_of_option "DORA_RECORD_FILE env var not set" (env !! "DORA_RECORD_FILE");
  topics_json ← res_of_option "DORA_RECORD_TOPICS env var not set" (env !! "DORA_RECORD_TOPICS");
  let descriptor_yaml := default EmptyString (env !! "DORA_RECORD_DESCRIPTOR") in
  topic_map ← parse_topics topics_json;
  reverse ← reverse_map topic_map;
  Ok (output_file, reverse, descriptor_yaml).

(** The bytes of an array, laid out in a buffer of its own. *)
Definition raw_data (a : ArrayData T) : res (option Bytes) :=
  let data_size := required_data_size a in
  if decide (0 < data_size) then
    '(_, buf) ← copy_array_into_sample (replicate data_size Byte.x00) a;
    Ok (Some buf)
  else Ok None.

(** The entry of an input; [now_nanos] is the clock. *)
Definition record_entry (start_nanos now_nanos : Z) (source_node source_output : string)
    (metadata : MessageMetadata) (data : ArrayData T) : res RecordEntry :=
  raw ← raw_data data;
  source_id ← node_id_from source_node;
  output ← data_id_from source_output;
  event_bytes ← serialize (mkTimestamped (ROutput nil source_id output metadata raw) (mm_timestamp metadata));
  Ok (mkEntry (text_bytes source_node) (text_bytes source_output) (Z.max 0 (now_nanos - start_nanos)) event_bytes).

(** The loop, over the events with the time at which each is handled. *)
Fixpoint record_loop (reverse : gmap string (string * string)) (start_nanos : Z)
    (events : list (Z * RecordInput)) (w : RecordingWriter) : res RecordingWriter :=
  match events with
  | [] => Ok w
  | (now, RInput id metadata data) :: events =>
      match reverse !! id with
      | None => record_loop reverse start_nanos events w
      | Some (source_node, source_output) =>
          entry ← record_entry start_nanos now source_node source_output metadata data;
          w ← write_entry w entry;
          record_loop reverse start_nanos events w
      end
  | (_, RStop) :: _ => Ok w
  | (_, RIgnored) :: events => record_loop reverse start_nanos events w
  end.

(** [main]: the file that is written. *)
Definition record_main `{HashOrder} (env : gmap string string) (start_nanos : Z) (dataflow_id : bytes)
    (events : list (Z * RecordInput)) : res bytes :=
  '(_, reverse, yaml) ← record_setup env;
  w ← writer_new (mkHeader 1 start_nanos dataflow_id (text_bytes yaml));
  w ← record_loop reverse start_nanos events w;
  Ok (finish w).1.

(** ** Recording through the coordinator *)

(** [run_record_proxy]: the topics it subscribes to. *)
Fixpoint proxy_topics (all : list (string * string)) (requested : list string) : res (list (string * string)) :=
  match requested with
  | [] => Ok []
  | topic :: requested =>
      topic ← res_of_option "invalid topic format" (split_once "/" topic);
      if existsb (λ t, bool_decide (t = topic)) all then
        rest ← proxy_topics all requested; Ok (topic :: rest)
      else Err "topic not found in descriptor"
  end.
Definition ws_topic (topic : string * string) : res (NodeId * DataId) :=
  _ ← validate_node_id topic.1;
  output ← data_id_from topic.2;
  Ok (topic.1, output).
Definition proxy_subscription (descriptor : Value) (requested : list string) : res (list (NodeId * DataId)) :=
  all ← discover_descriptor_outputs descriptor;
  topics ← (match requested with [] => Ok all | _ => proxy_topics all requested end);
  mapM ws_topic topics.

(** What the loop receives: a payload, an error of the subscription, or nothing in time. *)
Inductive ProxyInput := PPayload (payload : bytes) | PError | PTimeout.

Definition proxy_entry (start_nanos now_nanos : Z) (payload : bytes) : option RecordEntry :=
  match deserialize payload with
  | Ok event =>
      match t_inner event with
      | ROutput _ node_id output_id _ _ =>
          Some (mkEntry (text_bytes node_id) (text_bytes output_id) (Z.max 0 (now_nanos - start_nanos)) payload)
      | ROutputClosed _ _ _ => None
      end
  | _ => None
  end.

(** The loop, until it is interrupted or the subscription ends. *)
Fixpoint proxy_loop (start_nanos : Z) (inputs : list (Z * ProxyInput)) (w : RecordingWriter) : res RecordingWriter :=
  match inputs with
  | [] => Ok w
  | (now, PPayload payload) :: inputs =>
      match proxy_entry start_nanos now payload with
      | Some entry => w ← write_entry w entry; proxy_loop start_nanos inputs w
      | None => proxy_loop start_nanos inputs w
      end
  | (_, PError) :: inputs | (_, PTimeout) :: inputs => proxy_loop start_nanos inputs w
  end.

Definition proxy_main (yaml : bytes) (start_nanos : Z) (dataflow_id : bytes) (inputs : list (Z * ProxyInput)) : res bytes :=
  w ← writer_new (mkHeader 1 start_nanos dataflow_id yaml);
  w ← proxy_loop start_nanos inputs w;
  Ok (finish w).1.

(** ** The replay node *)

(** [f64] with the operations of IEEE 754. *)
Definition f64 : Set := spec_float.
Definition f64_of_u64 (z : Z) : f64 := binary_normalize 53 1024 z 0 false.
Definition f64_div : f64 → f64 → f64 := SFdiv 53 1024.
Definition f64_is_positive (x : f64) : bool := SFltb (S754_zero false) x.
(** [as u64]: towards zero, saturating, a NaN is zero. *)
Definition u64_of_f64 (x : f64) : Z :=
  match x with
  | S754_finite false m e =>
      Z.min u64_max (if (0 <=? e)%Z then Z.shiftl (Z.pos m) e else Z.shiftr (Z.pos m) (- e))
  | S754_infinity false => u64_max
  | _ => 0%Z
  end.
Definition sleep_nanos (delta_nanos : Z) (speed : f64) : Z := u64_of_f64 (f64_div (f64_of_u64 delta_nanos) speed).

Inductive ReplayAction :=
| Sleep (nanos : Z)
| SendTyped (output_id : DataId) (type_info : ArrowTypeInfo T) (parameters : gmap string ParameterValue) (data : Bytes).

Definition pause (speed : f64) (prev_offset : option Z) (offset : Z) : list ReplayAction :=
  match prev_offset with
  | Some prev =>
      if f64_is_positive speed then
        let nanos := sleep_nanos (Z.max 0 (offset - prev)) speed in
        if (0 <? nanos)%Z then [Sleep nanos] else []
      else []
  | None => []
  end.

(** What is done for an entry of the replayed node. *)
Definition replay_entry (entry : RecordEntry) : list ReplayAction :=
  match deserialize (event_bytes entry) with
  | Ok event =>
      match t_inner event with
      | ROutput _ _ output_id metadata data =>
          [SendTyped output_id (mm_type_info metadata) (mm_parameters metadata) (default [] data)]
      | ROutputClosed _ _ _ => []
      end
  | _ => []
  end.

(** The loop over the entries.  [send] is the outcome of sending, after the actions so far. *)
Fixpoint replay_entries (send : list ReplayAction → ReplayAction → res unit) (replay_node : string) (speed : f64)
    (entries : list RecordEntry) (prev_offset : option Z) (done : list ReplayAction)
    : res unit * list ReplayAction :=
  match entries with
  | [] => (Ok tt, done)
  | entry :: entries =>
      if bool_decide (node_id entry = text_bytes replay_node) then
        let done := done ++ pause speed prev_offset (timestamp_offset_nanos entry) in
        match replay_entry entry with
        | action :: _ =>
            match send done action with
            | Ok _ => replay_entries send replay_node speed entries (Some (timestamp_offset_nanos entry)) (done ++ [action])
            | Err e => (Err e, done)
            | Panic => (Panic, done)
            end
        | [] => replay_entries send replay_node speed entries (Some (timestamp_offset_nanos entry)) done
        end
      else replay_entries send replay_node speed entries prev_offset done
  end.

(** One pass over the file: the entries that can be read are replayed before an error of the
    reader ends it. *)
Definition replay_pass (send : list ReplayAction → ReplayAction → res unit) (replay_node : string) (speed : f64)
    (file : bytes) (done : list ReplayAction) : res unit * list ReplayAction :=
  match read_file file with
  | Ok (_, (entries, result)) =>
      match replay_entries send replay_node speed entries None done with
      | (Ok _, done) => (result, done)
      | failed => failed
      end
  | Err e => (Err e, done)
  | Panic => (Panic, done)
  end.

(** [main]; with a loop, [rounds] is how often it goes round. *)
Fixpoint replay_main (send : list ReplayAction → ReplayAction → res unit) (replay_node : string) (speed : f64)
    (do_loop : bool) (rounds : nat) (file : bytes) (done : list ReplayAction) : res unit * list ReplayAction :=
  match rounds with
  | O => (Ok tt, done)
  | S rounds =>
      match replay_pass send replay_node speed file done with
      | (Ok _, done) => if do_loop then replay_main send replay_node speed do_loop rounds file done else (Ok tt, done)
      | failed => failed
      end
  end.
End nodes.

(** ** [dora replay] *)

(** The nodes that have entries, with their outputs. *)
Definition recorded_nodes (entries : list RecordEntry) : gmap string (gset string) :=
  foldl (λ m e, <[text_of (node_id e) :=
                    default ∅ (m !! text_of (node_id e)) ∪ {[text_of (output_id e)]}]> m) ∅ entries.

Definition nodes_to_replace (recorded : gmap string (gset string)) (replace : list string) : res (gset string) :=
  match replace with
  | [] => Ok (dom recorded)
  | _ =>
      if forallb (λ name, bool_decide (is_Some (recorded !! name))) (btree_elems (list_to_set (C := gset string) replace))
      then Ok (list_to_set replace) else Err "node not found in recording"
  end.

Definition REMOVED_KEYS : list string :=
  ["build"; "git"; "branch"; "tag"; "rev"; "operator"; "operators"; "custom"; "args"].

Definition replay_env (recording_path node_id speed : string) (do_loop : bool) (env : Mapping) : Mapping :=
  let env := map_insert "DORA_REPLAY_FILE" (VString recording_path) env in
  let env := map_insert "DORA_REPLAY_NODE" (VString node_id) env in
  let env := map_insert "DORA_REPLAY_SPEED" (VString speed) env in
  if do_loop then map_insert "DORA_REPLAY_LOOP" (VString "true") env else env.

Definition on_mapping (f : Mapping → Mapping) (v : Value) : Value :=
  match v with VMapping m => VMapping (f m) | v => v end.

Definition replace_node (bin recording_path speed : string) (do_loop : bool) (to_replace : gset string)
    (node : Value) : res Value :=
  let node_id := default EmptyString (get "id" node ≫= as_str) in
  if negb (bool_decide (node_id ∈ to_replace)) then Ok node
  else
    node ← index_set "path" (VString bin) node;
    let node := on_mapping (λ m, foldl (λ m key, map_remove key m) m REMOVED_KEYS) node in
    let env := default [] (get "env" node ≫= as_mapping) in
    node ← index_set "env" (VMapping (replay_env recording_path node_id speed do_loop env)) node;
    Ok (on_mapping (map_remove "inputs") node).

(** [run_replay] up to the modified descriptor. *)
Definition replay_descriptor (parse_yaml : bytes → res Value) (bin recording_path speed : string) (do_loop : bool)
    (replace : list string) (file : bytes) : res Value :=
  '(header, (entries, result)) ← read_file file;
  yaml ← from_utf8 "invalid descriptor YAML in recording" (descriptor_yaml header);
  descriptor ← parse_yaml yaml;
  _ ← result;
  let recorded := recorded_nodes entries in
  if bool_decide (recorded = ∅) then Err "recording contains no messages"
  else
    to_replace ← nodes_to_replace recorded replace;
    match descriptor with
    | VMapping m =>
        nodes ← res_of_option "descriptor has no nodes array" (map_get "nodes" m ≫= as_sequence);
        nodes ← mapM (replace_node bin recording_path speed do_loop to_replace) nodes;
        Ok (VMapping (map_insert "nodes" (VSequence nodes) m))
    | _ => Err "descriptor has no nodes array"
    end.

(** ** Mappings *)

Section mappings.
Implicit Types (k : string) (v : Value) (m : Mapping).

Lemma is_key_true k e : is_key k e = true ↔ e.1 = VString k.
Proof. unfold is_key. destruct e as [[] v]; cbn; try done. rewrite bool_decide_eq_true. naive_solver. Qed.
Lemma is_key_false k e : is_key k e = false ↔ e.1 ≠ VString k.
Proof. rewrite <- is_key_true. by destruct (is_key k e). Qed.

Lemma map_get_insert_eq k v m : map_get k (map_insert k v m) = Some v.
Proof.
  induction m as [|e m IH]; cbn [map_insert map_get]; [by rewrite (proj2 (is_key_true k (VString k, v)))|].
  destruct (is_key k e) eqn:E; cbn [map_get]; [|by rewrite E]. apply is_key_true in E.
  by rewrite (proj2 (is_key_true k (e.1, v))).
Qed.
Lemma map_get_insert_ne k k' v m : k ≠ k' → map_get k (map_insert k' v m) = map_get k m.
Proof.
  intros Hne. induction m as [|e m IH]; cbn [map_insert map_get].
  - rewrite (proj2 (is_key_false k (VString k', v))); [done|]. cbn. congruence.
  - destruct (is_key k' e) eqn:E; cbn [map_get]; [|by rewrite IH]. apply is_key_true in E.
    rewrite !(proj2 (is_key_false k _)); cbn; congruence.
Qed.

Lemma map_get_In k v m : NoDup m.*1 → map_get k m = Some v ↔ (VString k, v) ∈ m.
Proof.
  induction m as [|e m IH]; cbn; [by rewrite elem_of_nil|]. intros [Hni Hnd]%NoDup_cons.
  rewrite elem_of_cons. destruct (is_key k e) eqn:E.
  - apply is_key_true in E. destruct e as [ek ev]. cbn in *. subst ek. split; [intros [= ->]; by left|].
    intros [[= ->]|Hin]; [done|]. destruct Hni. by apply (list_elem_of_fmap_2 fst) in Hin.
  - apply is_key_false in E. rewrite IH by done. split; [by right|]. intros [<-|]; [done|done].
Qed.

Lemma map_remove_perm k m : NoDup m.*1 → map_remove k m ≡ₚ filter (λ e, is_key k e = false) m.
Proof.
  induction m as [|e m IH]; [done|]. cbn [map_remove fmap list_fmap]. intros [Hni Hnd]%NoDup_cons.
  rewrite filter_cons. destruct (is_key k e) eqn:E.
  - rewrite decide_False by done. apply is_key_true in E.
    assert (filter (λ e, is_key k e = false) m = m) as ->.
    { apply filter_all, Forall_forall. intros x Hx. apply is_key_false. intros Hk. apply Hni.
      rewrite E, <- Hk. by apply list_elem_of_fmap_2. }
    destruct m as [|x m _] using rev_ind; [done|]. rewrite last_snoc, removelast_last. by rewrite Permutation_app_comm.
  - rewrite decide_True by done. by rewrite IH.
Qed.

Lemma map_remove_unique k m : NoDup m.*1 → NoDup (map_remove k m).*1.
Proof.
  intros Hnd. rewrite (map_remove_perm k m Hnd). eapply sublist_NoDup; [exact Hnd|]. apply fmap_sublist, sublist_filter.
Qed.
Lemma map_get_remove k k' m : NoDup m.*1 → map_get k (map_remove k' m) = if bool_decide (k = k') then None else map_get k m.
Proof.
  intros Hnd. apply option_eq. intros v. rewrite map_get_In by by apply map_remove_unique.
  rewrite map_remove_perm by done. rewrite list_elem_of_filter, is_key_false. cbn [fst]. case_bool_decide.
  - subst. split; [|done]. by intros [Hn _].
  - rewrite map_get_In by done. naive_solver.
Qed.
Lemma map_insert_keys k v m : (map_insert k v m).*1 = if bool_decide (is_Some (map_get k m)) then m.*1 else m.*1 ++ [VString k].
Proof.
  induction m as [|e m IH]; [done|]. cbn. destruct (is_key k e) eqn:E; cbn; [done|]. rewrite IH. by case_bool_decide.
Qed.
Lemma map_insert_unique k v m : NoDup m.*1 → NoDup (map_insert k v m).*1.
Proof.
  intros Hnd. rewrite map_insert_keys. case_bool_decide as Hk; [done|]. apply NoDup_app. split_and!; [done| |apply NoDup_singleton].
  intros x Hx Hs%list_elem_of_singleton. subst x. apply list_elem_of_fmap in Hx as ([k' v'] & E & Hin). cbn in E. subst k'.
  apply Hk. exists v'. by apply map_get_In.
Qed.
Lemma removes_get k ks m : NoDup m.*1 →
  NoDup (foldl (λ m key, map_remove key m) m ks).*1 ∧
  map_get k (foldl (λ m key, map_remove key m) m ks) = if bool_decide (k ∈ ks) then None else map_get k m.
Proof.
  revert m. induction ks as [|k' ks IH]; intros m Hnd; [done|]. cbn [foldl].
  destruct (IH (map_remove k' m)) as [H1 H2]; [by apply map_remove_unique|]. split; [done|]. rewrite H2.
  rewrite map_get_remove by done. destruct (decide (k ∈ ks)), (decide (k = k')); repeat case_bool_decide; set_solver.
Qed.
End mappings.

(** ** The descriptor of a recording *)

Section record_lemmas.
Context (topics_json : gmap string string → string).

Lemma all_topics_lookup outputs topic i :
  all_topics outputs !! topic = Some i → ∃ n o, (n, o) ∈ outputs ∧ topic = topic_name n o ∧ i = record_input_id n o.
Proof.
  unfold all_topics. induction outputs as [|[n o] outputs IH] using rev_ind; [done|]. rewrite foldl_snoc.
  intros [[<- <-]|[_ Hl]]%lookup_insert_Some; [exists n, o; set_solver|].
  destruct (IH Hl) as (n' & o' & Hin & -> & ->). exists n', o'. set_solver.
Qed.
Lemma filter_topics_sub all requested filtered topics :
  filter_topics all requested filtered = Ok topics → filtered ⊆ all → topics ⊆ all ∧ ∀ t, t ∈ requested → is_Some (topics !! t).
Proof.
  assert (∀ requested filtered, filter_topics all requested filtered = Ok topics → filtered ⊆ all → filtered ⊆ topics) as Hmono.
  { intros r. induction r as [|t r IH]; intros f; cbn; [by intros [= <-]|].
    destruct (all !! t) as [i|] eqn:Et; [|done]. intros Hf Hs. etrans; [|eapply IH; [exact Hf|]].
    - apply map_subseteq_spec. intros k x Hx. rewrite lookup_insert_Some. destruct (decide (t = k)) as [->|]; [left|by right].
      eapply lookup_weaken in Hx; [|exact Hs]. split; congruence.
    - by apply insert_subseteq_l. }
  revert filtered. induction requested as [|t r IH]; intros f; cbn.
  - intros [= <-] Hs. split; [done|set_solver].
  - destruct (all !! t) as [i|] eqn:Et; [|done]. intros Hf Hs.
    assert (<[t := i]> f ⊆ all) as Hs' by by apply insert_subseteq_l.
    destruct (IH _ Hf Hs') as [H1 H2]. split; [done|]. intros t' [->|Ht]%elem_of_cons; [|by apply H2].
    apply Hmono in Hf; [|done]. exists i. eapply lookup_weaken; [apply lookup_insert_eq|exact Hf].
Qed.

(** Building a map from pairs whose keys differ. *)
Lemma foldl_insert_lookup (l : list (string * string)) i t :
  NoDup l.*2 → foldl (λ (m : gmap string string) '(topic, input_id), <[input_id := topic]> m) ∅ l !! i = Some t ↔ (t, i) ∈ l.
Proof.
  induction l as [|[t' i'] l IH] using rev_ind; [cbn; by rewrite lookup_empty, elem_of_nil|].
  rewrite fmap_app, foldl_snoc. intros (Hnd & Hd & _)%NoDup_app.
  rewrite lookup_insert_Some, IH by done. rewrite elem_of_app, list_elem_of_singleton.
  split; [intros [[-> ->]|[_ Hin]]; auto|]. intros [Hin|[= -> ->]]; [|by left]. right. split; [|done].
  intros ->. apply (Hd i); [by apply (list_elem_of_fmap_2 snd) in Hin|set_solver].
Qed.
Lemma foldl_map_insert_get (l : list (string * string)) i t :
  NoDup l.*2 → map_get i (foldl (λ m '(topic, input_id), map_insert input_id (VString topic) m) [] l) = Some (VString t) ↔ (t, i) ∈ l.
Proof.
  induction l as [|[t' i'] l IH] using rev_ind; [cbn; by rewrite elem_of_nil|].
  rewrite fmap_app, foldl_snoc. intros (Hnd & Hd & _)%NoDup_app. rewrite elem_of_app, list_elem_of_singleton.
  destruct (decide (i = i')) as [->|Hne].
  - rewrite map_get_insert_eq. split; [intros [= ->]; by right|]. intros [Hin|[= ->]]; [|done].
    destruct (Hd i'); [by apply (list_elem_of_fmap_2 snd) in Hin|set_solver].
  - rewrite map_get_insert_ne, IH by done. naive_solver.
Qed.

Lemma reverse_entries_Ok l : (∀ e, e ∈ l → is_Some (split_once "/" e.2)) →
  ∃ l', reverse_entries l = Ok l' ∧ l'.*1 = l.*1 ∧
    ∀ i p, (i, p) ∈ l' ↔ ∃ source, (i, source) ∈ l ∧ split_once "/" source = Some p.
Proof.
  induction l as [|[i source] l IH]; intros Hl.
  { exists []. split_and!; [done..|]. set_solver. }
  destruct (Hl (i, source)) as [p Hp]; [set_solver|]. cbn in Hp.
  destruct IH as (l' & Hok & Hk & Hin); [set_solver|]. exists ((i, p) :: l'). cbn [reverse_entries]. rewrite Hp, Hok.
  split_and!; [done|cbn; by rewrite Hk|]. intros i' p'. rewrite elem_of_cons, Hin. split.
  - intros [[= -> ->]|(s & Hs & Hsp)]; [exists source; set_solver|exists s; set_solver].
  - intros (s & [[= -> ->]|Hs]%elem_of_cons & Hsp); [left; congruence|right; eauto].
Qed.

Lemma reverse_map_Ok `{HashOrder} (m : gmap string string) :
  (∀ i source, m !! i = Some source → is_Some (split_once "/" source)) →
  ∃ rm, reverse_map m = Ok rm ∧ ∀ i p, rm !! i = Some p ↔ ∃ source, m !! i = Some source ∧ split_once "/" source = Some p.
Proof.
  intros Hm. destruct (reverse_entries_Ok (hash_iter m)) as (l & Hok & Hk & Hin).
  { intros [i s]. rewrite hash_iter_perm, elem_of_map_to_list. apply Hm. }
  exists (list_to_map l). unfold reverse_map. rewrite Hok. split; [done|]. intros i p.
  rewrite <- elem_of_list_to_map by (rewrite Hk; apply (NoDup_hash_keys m)). rewrite Hin.
  by setoid_rewrite hash_iter_perm; setoid_rewrite elem_of_map_to_list.
Qed.
End record_lemmas.

Section record_theorems.
Context `{HashOrder} (topics_json : gmap string string → string).

(** The outputs of a dataflow that can be told apart: node identifiers have no slash, as those
    of a valid descriptor, and no two outputs lead to one input of the record node. *)
Definition distinct_outputs (outputs : list (string * string)) : Prop :=
  (∀ n o, (n, o) ∈ outputs → no_sep "/" n = true) ∧
  (∀ n o n' o', (n, o) ∈ outputs → (n', o') ∈ outputs → record_input_id n o = record_input_id n' o' → n = n' ∧ o = o').

Lemma topic_name_inj n o n' o' :
  no_sep "/" n = true → no_sep "/" n' = true → topic_name n o = topic_name n' o' → n = n' ∧ o = o'.
Proof.
  intros Hn Hn' E. apply (f_equal (split_once "/")) in E. unfold topic_name in E.
  rewrite !split_once_app in E by done. by injection E.
Qed.

Lemma all_topics_Some outputs n o :
  distinct_outputs outputs → (n, o) ∈ outputs → all_topics outputs !! topic_name n o = Some (record_input_id n o).
Proof.
  intros [Hs _] Hin. assert (is_Some (all_topics outputs !! topic_name n o)) as [i Hi].
  { clear Hs. unfold all_topics. induction outputs as [|[n' o'] outputs IH] using rev_ind; [set_solver|].
    rewrite foldl_snoc. destruct (decide (topic_name n' o' = topic_name n o)) as [->|Hne]; [by rewrite lookup_insert_eq|].
    rewrite lookup_insert_ne by done. apply IH. set_solver. }
  rewrite Hi. apply all_topics_lookup in Hi as (n' & o' & Hin' & [-> ->]%topic_name_inj & ->); [done|by eapply Hs..].
Qed.

Lemma chosen_topics_lookup outputs requested topics t i :
  distinct_outputs outputs → chosen_topics (all_topics outputs) requested = Ok topics →
  topics !! t = Some i ↔
  ∃ n o, (n, o) ∈ outputs ∧ t = topic_name n o ∧ i = record_input_id n o ∧ (requested = [] ∨ t ∈ requested).
Proof.
  intros Hd Hc. destruct requested as [|r requested].
  - cbn in Hc. injection Hc as <-. split.
    + intros (n & o & Hin & -> & ->)%all_topics_lookup. exists n, o. auto.
    + intros (n & o & Hin & -> & -> & _). by apply all_topics_Some.
  - unfold chosen_topics in Hc.
    assert (∀ k x, topics !! k = Some x → all_topics outputs !! k = Some x ∧ k ∈ r :: requested) as Hsub.
    { assert (∀ rs f, filter_topics (all_topics outputs) rs f = Ok topics →
        ∀ k x, topics !! k = Some x → f !! k = Some x ∨ all_topics outputs !! k = Some x ∧ k ∈ rs) as Hgo.
      { induction rs as [|r' rs IH]; intros f; cbn [filter_topics]; [intros [= <-]; by left|].
        destruct (all_topics outputs !! r') as [i'|] eqn:Er; [|done]. intros Hf k x Hx.
        destruct (IH _ Hf k x Hx) as [[[<- <-]|[_ Hfk]]%lookup_insert_Some|[? ?]]; [right|by left|right]; set_solver. }
      intros k x Hx. destruct (Hgo _ _ Hc k x Hx) as [Hl|Hl]; [by rewrite lookup_empty in Hl|done]. }
    apply filter_topics_sub in Hc as [_ Hreq]; [|apply map_empty_subseteq]. split.
    + intros [Ha Hr]%Hsub. apply all_topics_lookup in Ha as (n & o & Hin & -> & ->). exists n, o. auto.
    + intros (n & o & Hin & -> & -> & [|Hr]); [done|]. destruct (Hreq _ Hr) as [x Hx]. rewrite Hx.
      apply Hsub in Hx as [Hx _]. rewrite all_topics_Some in Hx by done. congruence.
Qed.

Lemma record_descriptor_Ok bin out yaml requested d d' topics :
  record_descriptor topics_json bin out yaml requested d = Ok (d', topics) →
  ∃ outputs m nodes, discover_descriptor_outputs d = Ok outputs ∧ chosen_topics (all_topics outputs) requested = Ok topics ∧
    d = VMapping m ∧ map_get "nodes" m = Some (VSequence nodes) ∧
    d' = VMapping (map_insert "nodes" (VSequence (nodes ++ [record_node topics_json bin out yaml topics])) m).
Proof.
  intros (outputs & Ho & (ts & Ht & Hd)%res_bind_Ok)%res_bind_Ok. destruct d as [| | | | |m]; try done.
  destruct (map_get "nodes" m) as [v|] eqn:Em; [|done]. destruct v as [| | | |nodes|]; try done.
  cbn in Hd. injection Hd as <- <-. by exists outputs, m, nodes.
Qed.

Lemma chosen_values_distinct outputs requested topics :
  distinct_outputs outputs → chosen_topics (all_topics outputs) requested = Ok topics →
  NoDup (btree_iter topics).*2.
Proof.
  intros Hd Hc. assert (∀ t t' i, topics !! t = Some i → topics !! t' = Some i → t = t') as Hinj.
  { intros t t' i Ht Ht'. rewrite (chosen_topics_lookup outputs requested) in Ht, Ht' by done.
    destruct Ht as (n & o & Hin & -> & -> & _), Ht' as (n' & o' & Hin' & -> & Hi & _).
    by destruct (proj2 Hd n o n' o' Hin Hin' Hi) as [-> ->]. }
  assert (∀ l, NoDup l → (∀ e, e ∈ l → topics !! e.1 = Some e.2) → NoDup l.*2) as Hgo.
  { induction 1 as [|e l Hni Hnd IH]; intros Hl; [constructor|]. cbn. constructor; [|apply IH; set_solver].
    intros ([t' i'] & Ei & Hin)%list_elem_of_fmap. apply Hni. destruct e as [t i]. cbn in Ei. subst i'.
    rewrite (Hinj t t' i); [done| |]; [apply (Hl (t, i)); set_solver|apply (Hl (t', i)); set_solver]. }
  apply Hgo; [rewrite btree_iter_perm; apply NoDup_map_to_list|]. intros [t i]. apply elem_of_btree_iter.
Qed.

(** The descriptor [dora record] runs.  It has the nodes of the dataflow as they were and one
    more; the inputs of that node are exactly the topics asked for (or all), and the record
    node maps every one of them back to the node and the output it comes from. *)
Theorem record_topics_exact bin out yaml requested d d' topics outputs :
  record_descriptor topics_json bin out yaml requested d = Ok (d', topics) →
  discover_descriptor_outputs d = Ok outputs → distinct_outputs outputs →
  (∃ nodes, get "nodes" d = Some (VSequence nodes) ∧
     get "nodes" d' = Some (VSequence (nodes ++ [record_node topics_json bin out yaml topics]))) ∧
  (∀ k, k ≠ "nodes" → get k d' = get k d) ∧
  ∃ reverse, reverse_map (topic_map topics) = Ok reverse ∧
    (∀ i n o, reverse !! i = Some (n, o) ↔
       (n, o) ∈ outputs ∧ i = record_input_id n o ∧ (requested = [] ∨ topic_name n o ∈ requested)) ∧
    (∀ i n o, reverse !! i = Some (n, o) → map_get i (inputs_mapping topics) = Some (VString (topic_name n o))).
Proof.
  intros Hr Ho Hd. apply record_descriptor_Ok in Hr as (outputs' & m & nodes & Ho' & Hc & -> & Hn & ->).
  rewrite Ho in Ho'. injection Ho' as <-. cbn [get]. split; [exists nodes; by rewrite map_get_insert_eq|].
  split; [intros k Hk; by apply map_get_insert_ne|].
  pose proof (chosen_values_distinct _ _ _ Hd Hc) as Hnd.
  assert (∀ i t, topic_map topics !! i = Some t ↔ topics !! t = Some i) as Hm.
  { intros i t. unfold topic_map. rewrite foldl_insert_lookup by done. apply elem_of_btree_iter. }
  assert (∀ n o, (n, o) ∈ outputs → split_once "/" (topic_name n o) = Some (n, o)) as Hsp.
  { intros n o Hin. apply split_once_app. by eapply (proj1 Hd). }
  destruct (reverse_map_Ok (topic_map topics)) as (rm & Hok & Hrm).
  { intros i s Hs. rewrite Hm, (chosen_topics_lookup outputs requested) in Hs by done.
    destruct Hs as (n & o & Hin & -> & _). rewrite Hsp by done. by eexists. }
  exists rm. split; [done|]. split.
  - intros i n o. rewrite Hrm. setoid_rewrite Hm. setoid_rewrite (chosen_topics_lookup outputs requested); [|done..]. split.
    + intros (s & (n' & o' & Hin & -> & -> & Hq) & E). rewrite Hsp in E by done. by injection E as -> ->.
    + intros (Hin & -> & Hq). exists (topic_name n o). rewrite Hsp by done. split; [|done]. by exists n, o.
  - intros i n o (s & Hs & E)%Hrm. unfold inputs_mapping. rewrite foldl_map_insert_get by done.
    rewrite elem_of_btree_iter. apply Hm in Hs. assert (s = topic_name n o) as <-; [|done].
    apply split_once_inv in E. done.
Qed.

(** Two outputs may lead to one input of the record node, [a___b/c] and [a/b___c] for
    instance.  Then only one of them is connected, so that the other is not recorded. *)
Theorem record_inputs_collide outputs n o n' o' topics :
  (∀ n o, (n, o) ∈ outputs → no_sep "/" n = true) → (n, o) ∈ outputs → (n', o') ∈ outputs → (n, o) ≠ (n', o') →
  record_input_id n o = record_input_id n' o' → chosen_topics (all_topics outputs) [] = Ok topics →
  ∃ lost, (lost = topic_name n o ∨ lost = topic_name n' o') ∧ ∀ i, topic_map topics !! i ≠ Some lost.
Proof.
  intros Hs Hin Hin' Hne Hid [= <-].
  assert (topic_name n o ≠ topic_name n' o') as Hnt.
  { intros [-> ->]%topic_name_inj; [done|by eapply Hs..]. }
  assert (∀ a b, (a, b) ∈ outputs → ∀ i, topic_map (all_topics outputs) !! i = Some (topic_name a b) → i = record_input_id a b) as Hi.
  { intros a b Hab i Hi. assert ((topic_name a b, i) ∈ btree_iter (all_topics outputs)) as Hbt.
    { revert Hi. unfold topic_map. generalize (btree_iter (all_topics outputs)) as l.
      induction l as [|[t j] l IH] using rev_ind; [cbn; by rewrite lookup_empty|]. rewrite foldl_snoc.
      intros [[-> ->]|[_ Hl]]%lookup_insert_Some; set_solver. }
    apply elem_of_btree_iter, all_topics_lookup in Hbt as (a' & b' & Hab' & [-> ->]%topic_name_inj & ->); [done|by eapply Hs..]. }
  destruct (decide (topic_map (all_topics outputs) !! record_input_id n o = Some (topic_name n o))) as [E|E].
  - exists (topic_name n' o'). split; [by right|]. intros i Hx. pose proof (Hi _ _ Hin' _ Hx). subst i. rewrite <- Hid in Hx. congruence.
  - exists (topic_name n o). split; [by left|]. intros i Hx. pose proof (Hi _ _ Hin _ Hx). by subst i.
Qed.
End record_theorems.

(** ** The descriptor of a replay *)

(** What replacing a node means. *)
Record replaced (bin recording_path speed : string) (do_loop : bool) (id : string) (node node' : Value) : Prop := {
  rep_path : get "path" node' = Some (VString bin);
  rep_inputs : get "inputs" node' = None;
  rep_removed k : k ∈ REMOVED_KEYS → get k node' = None;
  rep_env : ∃ env, get "env" node' = Some (VMapping env) ∧
    map_get "DORA_REPLAY_FILE" env = Some (VString recording_path) ∧
    map_get "DORA_REPLAY_NODE" env = Some (VString id) ∧
    map_get "DORA_REPLAY_SPEED" env = Some (VString speed) ∧
    (do_loop = true → map_get "DORA_REPLAY_LOOP" env = Some (VString "true")) ∧
    (∀ k, k ∉ ["DORA_REPLAY_FILE"; "DORA_REPLAY_NODE"; "DORA_REPLAY_SPEED"; "DORA_REPLAY_LOOP"] →
       map_get k env = (get "env" node ≫= as_mapping) ≫= map_get k);
  rep_rest k : k ∉ "path" :: "inputs" :: "env" :: REMOVED_KEYS → get k node' = get k node
}.

Lemma replay_env_get path id speed do_loop env :
  let env' := replay_env path id speed do_loop env in
  map_get "DORA_REPLAY_FILE" env' = Some (VString path) ∧ map_get "DORA_REPLAY_NODE" env' = Some (VString id) ∧
  map_get "DORA_REPLAY_SPEED" env' = Some (VString speed) ∧
  (do_loop = true → map_get "DORA_REPLAY_LOOP" env' = Some (VString "true")) ∧
  (∀ k, k ∉ ["DORA_REPLAY_FILE"; "DORA_REPLAY_NODE"; "DORA_REPLAY_SPEED"; "DORA_REPLAY_LOOP"] → map_get k env' = map_get k env).
Proof.
  cbv zeta. unfold replay_env. split_and!.
  - destruct do_loop; rewrite ?(map_get_insert_ne "DORA_REPLAY_FILE") by done; apply map_get_insert_eq.
  - destruct do_loop; rewrite ?(map_get_insert_ne "DORA_REPLAY_NODE" "DORA_REPLAY_LOOP"), ?(map_get_insert_ne "DORA_REPLAY_NODE" "DORA_REPLAY_SPEED") by done; apply map_get_insert_eq.
  - destruct do_loop; rewrite ?(map_get_insert_ne "DORA_REPLAY_SPEED" "DORA_REPLAY_LOOP") by done; apply map_get_insert_eq.
  - intros ->. apply map_get_insert_eq.
  - intros k Hk. rewrite !not_elem_of_cons in Hk. destruct do_loop; rewrite !map_get_insert_ne by naive_solver; done.
Qed.

Lemma replace_node_replaced bin path speed do_loop to_replace m node' :
  NoDup m.*1 → default EmptyString (get "id" (VMapping m) ≫= as_str) ∈ to_replace →
  replace_node bin path speed do_loop to_replace (VMapping m) = Ok node' →
  replaced bin path speed do_loop (default EmptyString (get "id" (VMapping m) ≫= as_str)) (VMapping m) node'.
Proof.
  intros Hnd Hin. unfold replace_node. rewrite bool_decide_true by done.
  cbn [negb index_set mbind res_bind on_mapping].
  set (id := default EmptyString _). set (m1 := map_insert "path" (VString bin) m).
  set (m2 := foldl (λ m key, map_remove key m) m1 REMOVED_KEYS).
  assert (NoDup m1.*1) as Hnd1 by by apply map_insert_unique.
  assert (∀ k, NoDup m2.*1 ∧ map_get k m2 = if bool_decide (k ∈ REMOVED_KEYS) then None else map_get k m1) as Hm2.
  { intros k. by apply removes_get. }
  assert (NoDup m2.*1) as Hnd2 by apply (Hm2 EmptyString).
  set (env := default [] (get "env" (VMapping m2) ≫= as_mapping)).
  set (m3 := map_insert "env" (VMapping (replay_env path id speed do_loop env)) m2).
  assert (NoDup m3.*1) as Hnd3 by by apply map_insert_unique.
  assert (∀ k, k ≠ "inputs" → k ≠ "env" → map_get k (map_remove "inputs" m3) = map_get k m2) as Hm3.
  { intros k H1 H2. rewrite map_get_remove, bool_decide_false by done. by apply map_get_insert_ne. }
  assert (map_get "env" m2 = map_get "env" m) as Henv.
  { rewrite (proj2 (Hm2 "env")). by apply map_get_insert_ne. }
  intros [= <-]. split; cbn [get].
  - rewrite Hm3, (proj2 (Hm2 "path")) by done. apply map_get_insert_eq.
  - by rewrite map_get_remove, bool_decide_true.
  - intros k Hk. rewrite Hm3 by (intros ->; by apply (bool_decide_pack _) in Hk). by rewrite (proj2 (Hm2 k)), bool_decide_true.
  - exists (replay_env path id speed do_loop env). split.
    { rewrite map_get_remove, bool_decide_false by done. apply map_get_insert_eq. }
    destruct (replay_env_get path id speed do_loop env) as (H1 & H2 & H3 & H4 & H5). split_and!; try done.
    intros k Hk. rewrite (H5 k Hk). unfold env. cbn [get]. rewrite Henv. by destruct (map_get "env" m) as [[]|].
  - intros k Hk. rewrite !not_elem_of_cons in Hk. destruct Hk as (K1 & K2 & K3 & K4). rewrite Hm3 by done.
    rewrite (proj2 (Hm2 k)), bool_decide_false by done. by apply map_get_insert_ne.
Qed.

(** The nodes that are mappings have no key twice: the YAML parser rejects duplicate keys. *)
Definition unique_keys (d : Value) : Prop :=
  ∀ nodes m, get "nodes" d = Some (VSequence nodes) → VMapping m ∈ nodes → NoDup m.*1.
Definition yaml_node_id (node : Value) : string := default EmptyString (get "id" node ≫= as_str).

Lemma recorded_nodes_dom entries : dom (recorded_nodes entries) = list_to_set ((λ e, text_of (node_id e)) <$> entries).
Proof.
  unfold recorded_nodes. induction entries as [|e entries IH] using rev_ind; [cbn; by rewrite dom_empty_L|].
  rewrite foldl_snoc, fmap_app, list_to_set_app_L, dom_insert_L, IH. cbn. set_solver.
Qed.

Lemma replace_node_spec bin path speed do_loop to_replace node node' :
  (∀ m, node = VMapping m → NoDup m.*1) → replace_node bin path speed do_loop to_replace node = Ok node' →
  yaml_node_id node' = yaml_node_id node ∧
  if bool_decide (yaml_node_id node ∈ to_replace)
  then replaced bin path speed do_loop (yaml_node_id node) node node' ∧ get "outputs" node' = get "outputs" node
  else node' = node.
Proof.
  intros Hnd Hnode. destruct (decide (yaml_node_id node ∈ to_replace)) as [Hin|Hni].
  - rewrite bool_decide_true by done.
    assert (replaced bin path speed do_loop (yaml_node_id node) node node') as Hrep.
    { unfold yaml_node_id in Hin. destruct node as [| | | | |m].
      - assert (replaced bin path speed do_loop EmptyString (VMapping []) node') as [].
        { apply (replace_node_replaced bin path speed do_loop to_replace []); [apply NoDup_nil_2|done|].
          unfold replace_node in *. by rewrite bool_decide_true in * by done. }
        by split.
      - unfold replace_node in Hnode. by rewrite bool_decide_true in Hnode.
      - unfold replace_node in Hnode. by rewrite bool_decide_true in Hnode.
      - unfold replace_node in Hnode. by rewrite bool_decide_true in Hnode.
      - unfold replace_node in Hnode. by rewrite bool_decide_true in Hnode.
      - apply (replace_node_replaced _ _ _ _ to_replace); auto. }
    assert (∀ k, k = "id" ∨ k = "outputs" → get k node' = get k node) as Hk.
    { intros k Hk. apply (rep_rest _ _ _ _ _ _ _ Hrep). unfold REMOVED_KEYS. rewrite !not_elem_of_cons, elem_of_nil. naive_solver. }
    split; [unfold yaml_node_id; by rewrite Hk by auto|]. split; [done|by apply Hk; right].
  - rewrite bool_decide_false by done. unfold replace_node in Hnode. fold (yaml_node_id node) in Hnode.
    rewrite bool_decide_false in Hnode by done. by injection Hnode as <-.
Qed.

(** The descriptor [dora replay] runs.  It is the one stored in the recording, in which the
    nodes that have recorded messages (or those asked for, which all must have some) are
    replaced: each gets the replay program, told to play the messages of this very node, no
    inputs, and keeps its outputs; all other nodes are as they were. *)
Theorem replay_descriptor_spec parse_yaml bin path speed do_loop replace file d' :
  (∀ y d, parse_yaml y = Ok d → unique_keys d) →
  replay_descriptor parse_yaml bin path speed do_loop replace file = Ok d' →
  ∃ header entries d nodes nodes' (to_replace : gset string),
    read_file file = Ok (header, (entries, Ok tt)) ∧ entries ≠ [] ∧ parse_yaml (descriptor_yaml header) = Ok d ∧
    (∀ id, id ∈ to_replace ↔ (replace = [] ∨ id ∈ replace) ∧ ∃ e, e ∈ entries ∧ text_of (node_id e) = id) ∧
    (∀ id, id ∈ replace → id ∈ to_replace) ∧
    get "nodes" d = Some (VSequence nodes) ∧ get "nodes" d' = Some (VSequence nodes') ∧
    (∀ k, k ≠ "nodes" → get k d' = get k d) ∧
    Forall2 (λ node node', yaml_node_id node' = yaml_node_id node ∧
               if bool_decide (yaml_node_id node ∈ to_replace)
               then replaced bin path speed do_loop (yaml_node_id node) node node' ∧ get "outputs" node' = get "outputs" node
               else node' = node) nodes nodes'.
Proof.
  intros Hyaml ([header [entries result]] & Hread & Hd)%res_bind_Ok. rewrite Hread.
  apply res_bind_Ok in Hd as (yaml & Hy & (d & Hparse & ([] & -> & Hd)%res_bind_Ok)%res_bind_Ok).
  unfold from_utf8 in Hy. destruct (utf8_valid _); [|done]. injection Hy as <-.
  cbv zeta in Hd. destruct (bool_decide (recorded_nodes entries = ∅)) eqn:He; [discriminate Hd|].
  apply bool_decide_eq_false in He. apply res_bind_Ok in Hd as (to_replace & Hrep & Hd).
  destruct d as [| | | | |m]; try done. apply res_bind_Ok in Hd as (nodes & Hn & (nodes' & Hmap & [= <-])%res_bind_Ok).
  exists header, entries, (VMapping m), nodes, nodes', to_replace.
  assert (get "nodes" (VMapping m) = Some (VSequence nodes)) as Hnodes.
  { cbn in *. destruct (map_get "nodes" m) as [[]|]; try done. cbn in Hn. congruence. }
  assert (∀ id, id ∈ dom (recorded_nodes entries) ↔ ∃ e, e ∈ entries ∧ text_of (node_id e) = id) as Hdom.
  { intros id. rewrite recorded_nodes_dom, elem_of_list_to_set, list_elem_of_fmap. naive_solver. }
  assert ((∀ id, id ∈ to_replace ↔ (replace = [] ∨ id ∈ replace) ∧ id ∈ dom (recorded_nodes entries)) ∧
          (∀ id, id ∈ replace → id ∈ to_replace)) as [Hset Hall].
  { unfold nodes_to_replace in Hrep. destruct replace as [|r replace]; [injection Hrep as <-; set_solver|].
    destruct (forallb _ _) eqn:Hf; [|done]. injection Hrep as <-. rewrite forallb_forall in Hf.
    assert (∀ id, id ∈ r :: replace → id ∈ dom (recorded_nodes entries)) as Hin.
    { intros id Hid. apply elem_of_dom. assert (In id (btree_elems (list_to_set (C := gset string) (r :: replace)))) as Hi.
      { apply list_elem_of_In, elem_of_btree_elems. set_solver. }
      by apply Hf, bool_decide_eq_true in Hi. }
    clear Hf. set_solver. }
  split_and!; [done| |done| |done|done|cbn; apply map_get_insert_eq|intros k Hk; by apply map_get_insert_ne|].
  - intros ->. done.
  - intros id. by rewrite Hset, Hdom.
  - apply mapM_res_Forall2 in Hmap. apply Forall2_same_length_lookup_2; [by eapply Forall2_length|].
    intros i node node' Hi Hi'. apply (replace_node_spec bin path speed); [|exact (Forall2_lookup_lr _ _ _ i node node' Hmap Hi Hi')].
    intros m' ->. eapply Hyaml; [done..|]. by apply list_elem_of_lookup_2 in Hi.
Qed.

(** ** What is recorded is replayed *)

Lemma id_char_ascii c : data_id_char c = true → between 0 0x7F (byte_of_ascii c) = true.
Proof. destruct c as [[] [] [] [] [] [] [] []]; vm_compute; done. Qed.

Lemma id_utf8 s : string_forall data_id_char s = true → utf8_valid (text_bytes s) = true.
Proof.
  induction s as [|c s IH]; [done|]. cbn [string_forall]. intros [Hc Hs]%andb_true_iff.
  change (text_bytes (String c s)) with (byte_of_ascii c :: text_bytes s). cbn [utf8_valid].
  rewrite id_char_ascii by done. by apply IH.
Qed.
Lemma node_id_utf8 s : validate_node_id s = Ok tt → utf8_valid (text_bytes s) = true.
Proof.
  unfold validate_node_id. case_bool_decide; [done|]. destruct (string_forall node_id_char s) eqn:E; [|done].
  intros _. apply id_utf8. eapply string_forall_impl; [|exact E]. intros c Hc. unfold data_id_char. by rewrite Hc.
Qed.
Lemma data_id_utf8 s : validate_data_id s = Ok tt → utf8_valid (text_bytes s) = true.
Proof.
  unfold validate_data_id. case_bool_decide; [done|]. destruct (string_forall data_id_char s) eqn:E; [|done].
  intros _. by apply id_utf8.
Qed.
Lemma text_bytes_inj s s' : text_bytes s = text_bytes s' → s = s'.
Proof. intros E. apply (f_equal text_of) in E. by rewrite !String.string_of_list_byte_of_string in E. Qed.

Lemma write_entries_sizes w es w' :
  write_entries w es = Ok w' → Forall (λ e, (record_len_usize e ≤ MAX_RECORD_BYTES)%Z) es.
Proof.
  revert w. induction es as [|e es IH]; intros w; [done|]. cbn. intros (w1 & Hw & Hes)%res_bind_Ok.
  apply write_entry_inv in Hw as [Hw _]. constructor; [done|by eapply IH].
Qed.

(** *** The layout of an array does not depend on the sample *)

Section layout.
Context {T : Type} `{ArrowLib T}.

Definition same_layout {B} (f : Bytes * nat → res (B * (Bytes * nat))) : Prop :=
  ∀ t1 t2 n b1 b2 t1' t2' n1 n2, length t1 = length t2 → f (t1, n) = Ok (b1, (t1', n1)) → f (t2, n) = Ok (b2, (t2', n2)) →
    b1 = b2 ∧ n1 = n2 ∧ length t1' = length t2'.

Lemma map_state_layout {A B} (f : A → Bytes * nat → res (B * (Bytes * nat))) l :
  Forall (λ x, same_layout (f x)) l → same_layout (map_state f l).
Proof.
  induction 1 as [|x l Hx _ IH]; intros t1 t2 n b1 b2 t1' t2' n1 n2 Hlen; cbn [map_state].
  { by intros [= <- <- <-] [= <- <- <-]. }
  intros ([y [u1 k1]] & Hf1 & ([ys s1] & Hm1 & [= <- ->])%res_bind_Ok)%res_bind_Ok.
  intros ([z [u2 k2]] & Hf2 & ([zs s2] & Hm2 & [= <- ->])%res_bind_Ok)%res_bind_Ok.
  destruct (Hx _ _ _ _ _ _ _ _ _ Hlen Hf1 Hf2) as (-> & -> & Hl).
  destruct (IH _ _ _ _ _ _ _ _ _ Hl Hm1 Hm2) as (-> & -> & ?). done.
Qed.

Lemma copy_buffer_layout e : same_layout (copy_buffer e).
Proof.
  intros t1 t2 n b1 b2 t1' t2' n1 n2 Hlen. destruct e as [b spec]. unfold copy_buffer. rewrite <- Hlen.
  repeat (case_decide; [done|]). intros [= <- <- <-] [= <- <- <-]. split_and!; [done..|].
  unfold write_at. rewrite !length_app, !length_take, !length_drop. lia.
Qed.

Lemma copy_array_layout (a : ArrayData T) : same_layout (copy_array_into_sample_inner a).
Proof.
  induction a as [a IH] using array_ind. intros t1 t2 n b1 b2 t1' t2' n1 n2 Hlen. rewrite !copy_unfold.
  intros ([o1 [u1 k1]] & Hb1 & ([c1 s1] & Hc1 & [= <- ->])%res_bind_Ok)%res_bind_Ok.
  intros ([o2 [u2 k2]] & Hb2 & ([c2 s2] & Hc2 & [= <- ->])%res_bind_Ok)%res_bind_Ok.
  pose proof (Forall_true _ (zip (buffers a) (layout (data_type a))) copy_buffer_layout) as Hbs.
  destruct (map_state_layout _ _ Hbs _ _ _ _ _ _ _ _ _ Hlen Hb1 Hb2) as (-> & -> & Hl).
  destruct (map_state_layout _ _ IH _ _ _ _ _ _ _ _ _ Hl Hc1 Hc2) as (-> & -> & Hl'). done.
Qed.

Lemma copy_info_unique (a : ArrayData T) t1 t2 i1 i2 b1 b2 :
  length t1 = length t2 → copy_array_into_sample t1 a = Ok (i1, b1) → copy_array_into_sample t2 a = Ok (i2, b2) → i1 = i2.
Proof.
  intros Hlen ([j1 [u1 k1]] & H1 & [= <- <-])%res_bind_Ok ([j2 [u2 k2]] & H2 & [= <- <-])%res_bind_Ok.
  by destruct (copy_array_layout a _ _ _ _ _ _ _ _ _ Hlen H1 H2).
Qed.
End layout.

Section roundtrip.
Context {T : Type} `{ArrowLib T, !ArrowLaws (T := T)} `{HashOrder}.
Context (parse_topics : string → res (gmap string string)) (nil : Uuid).
Context (serialize : @TimestampedEvent T → res bytes) (deserialize : bytes → res (@TimestampedEvent T)).
(** bincode reads back what it wrote. *)
Hypothesis deserialize_serialize : ∀ event b, serialize event = Ok b → deserialize b = Ok event.

(** *** What a replay sends *)

Definition is_send (a : @ReplayAction T) : bool := match a with SendTyped _ _ _ _ => true | Sleep _ => false end.
Definition sends (l : list (@ReplayAction T)) : list (@ReplayAction T) := filter (λ a, is_send a = true) l.
Lemma sends_app l k : sends (l ++ k) = sends l ++ sends k.
Proof. apply filter_app. Qed.

Lemma sends_pause speed prev offset : sends (pause speed prev offset) = [].
Proof. unfold pause. destruct prev; [|done]. destruct (f64_is_positive speed); [|done]. by case_match. Qed.
Lemma replay_entry_cases e :
  replay_entry deserialize e = [] ∨ ∃ o info params data, replay_entry deserialize e = [SendTyped o info params data].
Proof. unfold replay_entry. destruct (deserialize _) as [[[] ?]| |]; eauto 6. Qed.

Lemma replay_entries_sends n speed es prev dn :
  ∃ acts, replay_entries deserialize (λ _ _, Ok tt) n speed es prev dn = (Ok tt, dn ++ acts) ∧
    sends acts = concat (replay_entry deserialize <$> filter (λ e, node_id e = text_bytes n) es).
Proof.
  revert prev dn. induction es as [|e es IH]; intros prev dn; cbn [replay_entries].
  { exists []. by rewrite app_nil_r. }
  rewrite filter_cons. destruct (decide (node_id e = text_bytes n)) as [Hn|Hn];
    [rewrite bool_decide_true by done|rewrite bool_decide_false by done; apply IH].
  destruct (replay_entry_cases e) as [He|(o & info & params & data & He)]; rewrite fmap_cons, He; cbn [concat].
  - edestruct IH as (acts & -> & Hs). eexists. rewrite <- app_assoc. split; [done|].
    by rewrite sends_app, sends_pause, Hs.
  - edestruct IH as (acts & -> & Hs). eexists. rewrite <- !app_assoc. split; [done|].
    by rewrite !sends_app, sends_pause, Hs.
Qed.

Lemma replay_written h es file n speed :
  header_ok h → Forall entry_ok es → write_file h es = Ok file →
  ∃ acts, replay_pass deserialize (λ _ _, Ok tt) n speed file [] = (Ok tt, acts) ∧
    sends acts = concat (replay_entry deserialize <$> filter (λ e, node_id e = text_bytes n) es).
Proof.
  intros Hh Hes Hw. destruct (written_readable h es Hh Hes) as (file' & Hw' & Hr). rewrite Hw in Hw'. injection Hw' as <-.
  unfold replay_pass. rewrite Hr. destruct (replay_entries_sends n speed es None []) as (acts & -> & Hs). by exists acts.
Qed.

Lemma write_file_ok h es w w' :
  writer_new h = Ok w → write_entries w es = Ok w' → write_file h es = Ok (finish w').1.
Proof. intros Hw Hes. unfold write_file. rewrite Hw. cbn [mbind res_bind]. by rewrite Hes. Qed.
Lemma header_written start uuid yaml w :
  (0 ≤ start < 2 ^ 64)%Z → length uuid = 16 → writer_new (mkHeader 1 start uuid yaml) = Ok w → header_ok (mkHeader 1 start uuid yaml).
Proof.
  intros Hs Hu. unfold writer_new, write_header. cbn [descriptor_yaml].
  destruct (Z.ltb_spec MAX_RECORD_BYTES (blen yaml)); [done|]. intros _. split; cbn; [unfold FORMAT_VERSION; lia|done..].
Qed.

(** *** What the record node writes *)

(** A message that is to be recorded: when it is handled, the node and output it comes from,
    and its contents. *)
Record Message := mkMessage {
  msg_now : Z;
  msg_node : string;
  msg_output : string;
  msg_metadata : @MessageMetadata T;
  msg_data : ArrayData T
}.
Fixpoint messages_until_stop (reverse : gmap string (string * string)) (events : list (Z * @RecordInput T)) : list Message :=
  match events with
  | [] => []
  | (now, RInput id metadata data) :: events =>
      match reverse !! id with
      | Some (n, o) => mkMessage now n o metadata data :: messages_until_stop reverse events
      | None => messages_until_stop reverse events
      end
  | (_, RStop) :: _ => []
  | (_, RIgnored) :: events => messages_until_stop reverse events
  end.

Definition entry_of (start : Z) (m : Message) : res RecordEntry :=
  record_entry serialize nil start (msg_now m) (msg_node m) (msg_output m) (msg_metadata m) (msg_data m).

Lemma record_loop_Ok reverse start events w w' :
  record_loop serialize nil reverse start events w = Ok w' →
  ∃ es, Forall2 (λ m e, entry_of start m = Ok e) (messages_until_stop reverse events) es ∧ write_entries w es = Ok w'.
Proof.
  revert w. induction events as [|[now [id metadata data| |]] events IH]; intros w; cbn [record_loop messages_until_stop].
  - intros [= <-]. exists []. split; [constructor|done].
  - destruct (reverse !! id) as [[n o]|]; [|apply IH].
    intros (e & He & (w1 & Hw & (es & Hes & Hws)%IH)%res_bind_Ok)%res_bind_Ok.
    exists (e :: es). split; [by constructor|]. cbn. by rewrite Hw.
  - intros [= <-]. exists []. split; [constructor|done].
  - apply IH.
Qed.

(** An entry, taken apart. *)
Lemma entry_of_inv start m e :
  entry_of start m = Ok e →
  validate_node_id (msg_node m) = Ok tt ∧ validate_data_id (msg_output m) = Ok tt ∧
  node_id e = text_bytes (msg_node m) ∧ output_id e = text_bytes (msg_output m) ∧
  timestamp_offset_nanos e = Z.max 0 (msg_now m - start) ∧
  ∃ raw, raw_data (msg_data m) = Ok raw ∧
    replay_entry deserialize e = [SendTyped (msg_output m) (mm_type_info (msg_metadata m)) (mm_parameters (msg_metadata m)) (default [] raw)].
Proof.
  intros (raw & Hraw & (s & Hs & (o & Ho & (b & Hb & [= <-])%res_bind_Ok)%res_bind_Ok)%res_bind_Ok)%res_bind_Ok.
  unfold node_id_from in Hs. destruct (validate_node_id _) as [[]| |] eqn:Hn; try done. injection Hs as <-.
  unfold data_id_from in Ho. destruct (validate_data_id _) as [[]| |] eqn:Hd; try done. injection Ho as <-.
  split_and!; [done..|]. exists raw. split; [done|]. unfold replay_entry. cbn [event_bytes].
  by rewrite (deserialize_serialize _ _ Hb).
Qed.

(** An array that was sent without framing, as [send_output] sends it. *)
Definition sent_natively (metadata : @MessageMetadata T) (a : ArrayData T) : Prop :=
  valid a ∧ sendable a ∧ height a ≤ MAX_TYPE_DEPTH ∧ (0 < Z.of_nat (required_data_size a) ≤ u64_max)%Z ∧
  get_string_param (mm_parameters metadata) FRAMING = None ∧
  ∃ target buf, length target = required_data_size a ∧ copy_array_into_sample target a = Ok (mm_type_info metadata, buf).

(** A message is sent again: to its output, with its parameters, and so that the receiver
    rebuilds its array. *)
Definition sent_again (m : Message) (action : @ReplayAction T) : Prop :=
  ∃ info params data, action = SendTyped (msg_output m) info params data ∧
    info = mm_type_info (msg_metadata m) ∧ params = mm_parameters (msg_metadata m) ∧
    (sent_natively (msg_metadata m) (msg_data m) →
     ∀ open_region, data_to_arrow_array open_region (Some (DMVec data)) info params = Ok (msg_data m)).

Lemma raw_data_readable metadata a raw :
  sent_natively metadata a → raw_data a = Ok raw →
  ∀ open_region, data_to_arrow_array open_region (Some (DMVec (default [] raw))) (mm_type_info metadata) (mm_parameters metadata) = Ok a.
Proof.
  intros (Hv & Hs & Hh & Hsize & Hp & target & buf & Hlen & Hcopy) Hraw open_region.
  unfold raw_data in Hraw. rewrite decide_True in Hraw by lia. apply res_bind_Ok in Hraw as ([info buf'] & Hc & [= <-]).
  destruct (copied_readable a (mm_parameters metadata) (replicate (required_data_size a) Byte.x00)) as (info' & buf'' & Hc' & _ & _ & Hread & _);
    [done..|by rewrite length_replicate|].
  rewrite Hc in Hc'. injection Hc' as <- <-.
  rewrite (copy_info_unique a _ _ _ _ _ _ (eq_trans Hlen (eq_sym (length_replicate _ _))) Hcopy Hc). apply Hread.
Qed.

(** The identifiers fit the 16-bit length fields of the file. *)
Definition short_names (n o : string) : Prop := (blen (text_bytes n) < 2 ^ 16)%Z ∧ (blen (text_bytes o) < 2 ^ 16)%Z.

Lemma entries_ok start ms es w w' :
  (0 ≤ start)%Z → Forall (λ m, (msg_now m < 2 ^ 64)%Z ∧ short_names (msg_node m) (msg_output m)) ms →
  Forall2 (λ m e, entry_of start m = Ok e) ms es → write_entries w es = Ok w' → Forall entry_ok es.
Proof.
  intros Hstart Hms Hes Hw%write_entries_sizes. revert Hms Hw.
  induction Hes as [|m e ms es He _ IH]; [done|]. intros [[Hnow [Hn Ho]] Hms]%Forall_cons [Hsize Hw]%Forall_cons.
  apply entry_of_inv in He as (Hvn & Hvo & En & Eo & Et & _). constructor; [|by apply IH].
  split; rewrite ?En, ?Eo, ?Et; [done|by apply node_id_utf8|done|by apply data_id_utf8|lia|done].
Qed.

Lemma replayed_messages start n ms es :
  Forall2 (λ m e, entry_of start m = Ok e) ms es →
  Forall2 sent_again (filter (λ m, msg_node m = n) ms)
    (concat (replay_entry deserialize <$> filter (λ e, node_id e = text_bytes n) es)).
Proof.
  induction 1 as [|m e ms es He _ IH]; [constructor|].
  apply entry_of_inv in He as (_ & _ & En & _ & _ & raw & Hraw & Hrep). rewrite !filter_cons.
  destruct (decide (msg_node m = n)) as [Hn|Hn].
  - rewrite decide_True by congruence. rewrite fmap_cons, Hrep. cbn [concat app]. constructor; [|done].
    eexists _, _, _. split_and!; [done..|]. intros Hnat. by apply raw_data_readable.
  - rewrite decide_False; [done|]. rewrite En. by intros ?%text_bytes_inj.
Qed.

(** C26. Recording and replaying.  If the record node has written its file, then a replay of a node
    reads all of it and sends, in the order of the recording and to the same outputs, exactly
    the recorded messages of this node up to the stop; and every array that was sent without
    framing is the same to whoever receives it again. *)
Theorem record_replay_roundtrip env out reverse yaml start uuid events file n speed :
  record_setup parse_topics env = Ok (out, reverse, yaml) →
  record_main parse_topics serialize nil env start uuid events = Ok file →
  (0 ≤ start < 2 ^ 64)%Z → length uuid = 16 →
  Forall (λ e, (e.1 < 2 ^ 64)%Z) events → (∀ i a b, reverse !! i = Some (a, b) → short_names a b) →
  ∃ actions, replay_pass deserialize (λ _ _, Ok tt) n speed file [] = (Ok tt, actions) ∧
    Forall2 sent_again (filter (λ m, msg_node m = n) (messages_until_stop reverse events)) (sends actions).
Proof.
  intros Hsetup Hmain Hstart Huuid Hnow Hshort. unfold record_main in Hmain. rewrite Hsetup in Hmain.
  apply res_bind_Ok in Hmain as ([[out' reverse'] yaml'] & E & (w & Hw & (w' & Hloop & Hfile)%res_bind_Ok)%res_bind_Ok).
  injection E as <- <- <-. injection Hfile as <-. apply record_loop_Ok in Hloop as (es & Hes & Hws).
  assert (Forall (λ m, (msg_now m < 2 ^ 64)%Z ∧ short_names (msg_node m) (msg_output m)) (messages_until_stop reverse events)) as Hms.
  { clear -Hnow Hshort. induction Hnow as [|[now [id md a| |]] events Hn _ IH]; cbn [messages_until_stop]; [constructor| |constructor|done].
    destruct (reverse !! id) as [[a' b]|] eqn:E; [|done]. constructor; [|done]. split; [exact Hn|by eapply Hshort]. }
  destruct (replay_written (mkHeader 1 start uuid (text_bytes yaml)) es (finish w').1 n speed) as (acts & Hr & Hs);
    [by eapply header_written|eapply entries_ok; [|exact Hms|exact Hes|exact Hws]; lia|by eapply write_file_ok|].
  exists acts. split; [done|]. rewrite Hs. by eapply replayed_messages.
Qed.

(** A message with Arrow IPC framing is not replayed correctly.  The record node stores the
    plain layout of its array next to parameters that still announce the framing, so that
    whoever receives the message again takes the layout for an IPC stream. *)
Theorem ipc_recording_unreadable start m e :
  entry_of start m = Ok e → get_string_param (mm_parameters (msg_metadata m)) FRAMING = Some FRAMING_ARROW_IPC →
  0 < required_data_size (msg_data m) →
  (∀ info buf, copy_array_into_sample (replicate (required_data_size (msg_data m)) Byte.x00) (msg_data m) = Ok (info, buf) →
     is_ok (ipc_read buf) = false) →
  ∃ data, replay_entry deserialize e =
      [SendTyped (msg_output m) (mm_type_info (msg_metadata m)) (mm_parameters (msg_metadata m)) data] ∧
    ∀ open_region, is_ok (data_to_arrow_array open_region (Some (DMVec data))
      (mm_type_info (msg_metadata m)) (mm_parameters (msg_metadata m))) = false.
Proof.
  intros He Hp Hsize Hipc. apply entry_of_inv in He as (_ & _ & _ & _ & _ & raw & Hraw & Hrep).
  exists (default [] raw). split; [done|]. intros open_region.
  unfold raw_data in Hraw. rewrite decide_True in Hraw by done. apply res_bind_Ok in Hraw as ([info buf] & Hc & [= <-]).
  specialize (Hipc info buf Hc). unfold data_to_arrow_array, is_ipc. rewrite Hp, bool_decide_true by done. cbn.
  unfold decode_arrow_ipc. case_match; [done|]. by destruct (ipc_read buf).
Qed.

(** *** Recording through the coordinator *)

(** The output message of a payload. *)
Definition payload_output (input : Z * ProxyInput) : option (NodeId * DataId * @MessageMetadata T * option Bytes) :=
  match input.2 with
  | PPayload payload =>
      match deserialize payload with
      | Ok event =>
          match t_inner event with ROutput _ n o metadata data => Some (n, o, metadata, data) | _ => None end
      | _ => None
      end
  | _ => None
  end.
Definition proxy_entries (start : Z) (inputs : list (Z * ProxyInput)) : list RecordEntry :=
  omap (λ '(now, input), match input with PPayload payload => proxy_entry deserialize start now payload | _ => None end) inputs.
Definition send_again (n : NodeId) (input : Z * ProxyInput) : option (@ReplayAction T) :=
  '(n', o, metadata, data) ← payload_output input;
  if bool_decide (n' = n) then Some (SendTyped o (mm_type_info metadata) (mm_parameters metadata) (default [] data)) else None.

Lemma proxy_entries_cons start now payload inputs :
  proxy_entries start ((now, PPayload payload) :: inputs)
  = option_list (proxy_entry deserialize start now payload) ++ proxy_entries start inputs.
Proof. unfold proxy_entries. cbn [omap list_omap]. by destruct (proxy_entry deserialize start now payload). Qed.

Lemma proxy_loop_entries start inputs w :
  proxy_loop deserialize start inputs w = write_entries w (proxy_entries start inputs).
Proof.
  revert w. induction inputs as [|[now [payload| |]] inputs IH]; intros w; [done| |apply IH|apply IH].
  cbn [proxy_loop]. rewrite proxy_entries_cons.
  destruct (proxy_entry deserialize start now payload) as [e|]; [|apply IH].
  change (option_list (Some e) ++ ?l) with (e :: l). cbn [write_entries].
  destruct (write_entry w e); [|done|done]. apply IH.
Qed.

Lemma proxy_entry_inv start now payload :
  match proxy_entry deserialize start now payload with
  | Some e => ∃ n o metadata data, payload_output (now, PPayload payload) = Some (n, o, metadata, data) ∧
      node_id e = text_bytes n ∧ output_id e = text_bytes o ∧ timestamp_offset_nanos e = Z.max 0 (now - start) ∧
      replay_entry deserialize e = [SendTyped o (mm_type_info metadata) (mm_parameters metadata) (default [] data)]
  | None => payload_output (now, PPayload payload) = None
  end.
Proof.
  unfold proxy_entry, payload_output, replay_entry. cbn [snd].
  destruct (deserialize payload) as [[[? n o md data|] ts]| |] eqn:E; cbn [t_inner]; try done.
  exists n, o, md, data. cbn [event_bytes node_id output_id timestamp_offset_nanos]. rewrite E. done.
Qed.

(** The same for a recording that is streamed through the coordinator: a replay sends exactly
    the output messages of its node, in the order in which they arrived. *)
Theorem proxy_replay_roundtrip yaml start uuid inputs file n speed :
  proxy_main deserialize yaml start uuid inputs = Ok file →
  (0 ≤ start < 2 ^ 64)%Z → length uuid = 16 → Forall (λ i, (i.1 < 2 ^ 64)%Z) inputs →
  (∀ i n' o metadata data, i ∈ inputs → payload_output i = Some (n', o, metadata, data) →
     validate_node_id n' = Ok tt ∧ validate_data_id o = Ok tt ∧ short_names n' o) →
  ∃ actions, replay_pass deserialize (λ _ _, Ok tt) n speed file [] = (Ok tt, actions) ∧
    sends actions = omap (send_again n) inputs.
Proof.
  intros Hmain Hstart Huuid Hnow Hids.
  apply res_bind_Ok in Hmain as (w & Hw & (w' & Hloop & [= <-])%res_bind_Ok). rewrite proxy_loop_entries in Hloop.
  pose proof (write_entries_sizes _ _ _ Hloop) as Hsizes. rewrite Forall_forall in Hnow.
  destruct (replay_written (mkHeader 1 start uuid yaml) (proxy_entries start inputs) (finish w').1 n speed) as (acts & Hr & Hs);
    [by eapply header_written| |by eapply write_file_ok|].
  - rewrite Forall_forall in *. intros e He. specialize (Hsizes e He). unfold proxy_entries in He.
    apply list_elem_of_omap in He as ([now [payload| |]] & Hin & He); try done.
    pose proof (proxy_entry_inv start now payload) as Hp. rewrite He in Hp.
    destruct Hp as (n' & o & md & data & Hout & En & Eo & Et & _).
    destruct (Hids _ _ _ _ _ Hin Hout) as (Hvn & Hvo & Hsn & Hso). specialize (Hnow _ Hin). cbn in Hnow.
    split; rewrite ?En, ?Eo, ?Et; [done|by apply node_id_utf8|done|by apply data_id_utf8|lia|done].
  - exists acts. split; [done|]. rewrite Hs. clear. induction inputs as [|[now [payload| |]] inputs IH]; [done| |apply IH|apply IH].
    rewrite proxy_entries_cons. cbn [omap list_omap].
    pose proof (proxy_entry_inv start now payload) as Hp. unfold send_again at 1.
    destruct (proxy_entry deserialize start now payload) as [e|]; [|rewrite Hp; apply IH].
    destruct Hp as (n' & o & md & data & -> & En & _ & _ & Hrep). cbn [mbind option_bind].
    change (option_list (Some e) ++ ?l) with (e :: l). rewrite filter_cons, En.
    destruct (decide (n' = n)) as [->|Hne].
    + rewrite decide_True, bool_decide_true by done. rewrite fmap_cons, Hrep. cbn [concat app]. f_equal. apply IH.
    + rewrite decide_False, bool_decide_false; [apply IH|done|]. by intros ?%text_bytes_inj.
Qed.
End roundtrip.

(** ** Witnesses *)

Section witnesses.
#[local] Existing Instances sample_arrow sample_laws.

(** A dataflow with two outputs. *)
Definition sample_yaml : Value :=
  VMapping [(VString "nodes", VSequence
    [VMapping [(VString "id", VString "cam"); (VString "path", VString "c"); (VString "inputs", VMapping []);
               (VString "outputs", VSequence [VString "image"; VString "d"])];
     VMapping [(VString "id", VString "view"); (VString "path", VString "v")]])].
Definition sample_topics_json (m : gmap string string) : string := "topics".

Lemma sample_outputs_distinct : distinct_outputs [("cam", "image"); ("cam", "d")].
Proof.
  split.
  - intros n o. rewrite !elem_of_cons, elem_of_nil. naive_solver.
  - intros n o n' o'. rewrite !elem_of_cons, !elem_of_nil.
    intros [[= -> ->]|[[= -> ->]|[]]] [[= -> ->]|[[= -> ->]|[]]] E; try done; discriminate E.
Qed.

Lemma record_topics_exact_witness :
  ∃ d' topics reverse, record_descriptor sample_topics_json "r" "f" "y" ["cam/d"] sample_yaml = Ok (d', topics) ∧
    reverse_map (topic_map topics) = Ok reverse ∧ reverse !! "cam___d" = Some ("cam", "d") ∧
    map_get "cam___d" (inputs_mapping topics) = Some (VString "cam/d").
Proof.
  assert (is_ok (record_descriptor sample_topics_json "r" "f" "y" ["cam/d"] sample_yaml) = true) as Hok by by vm_compute.
  destruct (record_descriptor sample_topics_json "r" "f" "y" ["cam/d"] sample_yaml) as [[d' topics]| |] eqn:E;
    [|discriminate Hok..].
  destruct (record_topics_exact sample_topics_json "r" "f" "y" ["cam/d"] sample_yaml d' topics [("cam", "image"); ("cam", "d")] E eq_refl
    sample_outputs_distinct) as (_ & _ & reverse & Hr & Hin & Hget).
  assert (reverse !! "cam___d" = Some ("cam", "d")) as Hd.
  { apply Hin. split; [by apply list_elem_of_further, list_elem_of_here|]. split; [reflexivity|right; apply list_elem_of_here]. }
  exists d', topics, reverse. split; [reflexivity|]. split; [exact Hr|]. split; [exact Hd|]. exact (Hget _ _ _ Hd).
Defined.

Lemma record_inputs_collide_witness :
  ∃ lost, (lost = "a/b___c" ∨ lost = "a___b/c") ∧ ∀ i, topic_map (all_topics [("a", "b___c"); ("a___b", "c")]) !! i ≠ Some lost.
Proof.
  apply (record_inputs_collide [("a", "b___c"); ("a___b", "c")] "a" "b___c" "a___b" "c").
  - intros n o. rewrite !elem_of_cons, elem_of_nil. naive_solver.
  - apply list_elem_of_here.
  - apply list_elem_of_further, list_elem_of_here.
  - discriminate.
  - reflexivity.
  - reflexivity.
Defined.

(** A serialiser for byte arrays from [cam/image], without parameters or with the framing. *)
Definition ipc_params : gmap string ParameterValue := {[FRAMING := PString FRAMING_ARROW_IPC]}.
Definition bytes_info (n : nat) : ArrowTypeInfo sample_type :=
  mkInfo _ SUInt8 n 0 None 0 [mkOffset 0 n] [] None (Some (compute_schema_hash SUInt8)).
Definition sample_message (params : gmap string ParameterValue) (data : Bytes) : TimestampedEvent :=
  mkTimestamped (ROutput 0%N "cam" "image" (mkMessageMetadata 0 (bytes_info (length data)) params) (Some data)) 0.
Definition sample_deserialize (b : bytes) : res TimestampedEvent :=
  match b with
  | Byte.x00 :: data => Ok (sample_message ∅ data)
  | Byte.x01 :: data => Ok (sample_message ipc_params data)
  | _ => Err "invalid message"
  end.
Definition sample_serialize (e : TimestampedEvent) : res bytes :=
  match e with
  | mkTimestamped (ROutput d n o (mkMessageMetadata ts
      (mkInfo _ SUInt8 l 0 None 0 [mkOffset 0 l'] [] None (Some h)) params) (Some data)) ts' =>
      if decide (d = 0%N ∧ n = "cam" ∧ o = "image" ∧ ts = 0%Z ∧ ts' = 0%Z ∧ l = length data ∧ l' = length data ∧
                 h = compute_schema_hash SUInt8)
      then if decide (params = ∅) then Ok (Byte.x00 :: data)
           else if decide (params = ipc_params) then Ok (Byte.x01 :: data) else Err "unsupported"
      else Err "unsupported"
  | _ => Err "unsupported"
  end.
Lemma sample_serialize_ok e b : sample_serialize e = Ok b → sample_deserialize b = Ok e.
Proof.
  unfold sample_serialize. repeat (case_match; try done); intros [= <-]; destruct_and!; subst; reflexivity.
Qed.

Definition sample_bytes : ArrayData sample_type := mkArray _ SUInt8 3 0 None 0 [[Byte.x61; Byte.x62; Byte.x63]] [].
Definition sample_input (params : gmap string ParameterValue) : RecordInput :=
  RInput "cam___image" (mkMessageMetadata 0 (bytes_info 3) params) sample_bytes.
Definition sample_parse (s : string) : res (gmap string string) := Ok {["cam___image" := "cam/image"]}.
Definition sample_env : gmap string string := {["DORA_RECORD_FILE" := "f"; "DORA_RECORD_TOPICS" := "t"]}.
Definition sample_uuid : bytes := replicate 16 Byte.x00.
Definition sample_recorded : list (Z * RecordInput) :=
  [(5%Z, sample_input ∅); (6%Z, RIgnored); (9%Z, sample_input ∅); (9%Z, RStop); (10%Z, sample_input ∅)].
Definition sample_reverse : gmap string (string * string) := {["cam___image" := ("cam", "image")]}.
Definition sample_file : res bytes :=
  record_main sample_parse sample_serialize 0%N sample_env 2 sample_uuid sample_recorded.
Definition one_speed : f64 := f64_of_u64 1.

Lemma sample_setup : record_setup sample_parse sample_env = Ok ("f", sample_reverse, "").
Proof.
  unfold record_setup. assert (sample_env !! "DORA_RECORD_FILE" = Some "f") as -> by by vm_compute.
  assert (sample_env !! "DORA_RECORD_TOPICS" = Some "t") as -> by by vm_compute.
  assert (sample_env !! "DORA_RECORD_DESCRIPTOR" = None) as -> by by vm_compute.
  cbn [res_of_option mbind res_bind default sample_parse]. unfold reverse_map.
  change (hash_iter ?m) with (map_to_list m). rewrite map_to_list_singleton. reflexivity.
Qed.

Lemma record_replay_roundtrip_witness :
  ∃ file actions, sample_file = Ok file ∧
    replay_pass sample_deserialize (λ _ _, Ok tt) "cam" one_speed file [] = (Ok tt, actions) ∧
    length (sends actions) = 2.
Proof.
  assert (is_ok sample_file = true) as Hok by by vm_compute.
  destruct sample_file as [file| |] eqn:E; [|discriminate Hok..]. exists file.
  destruct (record_replay_roundtrip sample_parse 0%N sample_serialize sample_deserialize sample_serialize_ok sample_env
    "f" sample_reverse "" 2 sample_uuid sample_recorded file "cam" one_speed sample_setup E) as (actions & Hr & Hs).
  - lia.
  - reflexivity.
  - repeat constructor; cbn; lia.
  - unfold sample_reverse. intros i a b [_ [= <- <-]]%lookup_singleton_Some. split; vm_compute; reflexivity.
  - exists actions. split; [reflexivity|]. split; [exact Hr|]. apply Forall2_length in Hs. rewrite <- Hs. by vm_compute.
Defined.

Definition sample_parse_yaml (y : bytes) : res Value := Ok sample_yaml.
Lemma sample_yaml_unique : unique_keys sample_yaml.
Proof.
  intros nodes m [= <-]. rewrite !elem_of_cons, elem_of_nil.
  intros [[= ->]|[[= ->]|[]]]; cbn; rewrite !NoDup_cons, !not_elem_of_cons, !elem_of_nil; split_and!; first [done|tauto|apply NoDup_nil_2].
Qed.

Lemma replay_descriptor_spec_witness :
  ∃ file d' (nodes' : list Value), sample_file = Ok file ∧
    replay_descriptor sample_parse_yaml "replay" "f" "1" false [] file = Ok d' ∧
    get "nodes" d' = Some (VSequence nodes') ∧ length nodes' = 2.
Proof.
  assert (is_ok (sample_file ≫= replay_descriptor sample_parse_yaml "replay" "f" "1" false []) = true) as Hok by by vm_compute.
  destruct sample_file as [file| |] eqn:E; [|discriminate Hok..]. change (Ok file ≫= ?f) with (f file) in Hok.
  destruct (replay_descriptor sample_parse_yaml "replay" "f" "1" false [] file) as [d'| |] eqn:Ed; [|discriminate Hok..].
  exists file, d'.
  destruct (replay_descriptor_spec sample_parse_yaml "replay" "f" "1" false [] file d') as
    (header & entries & d & nodes & nodes' & to_replace & _ & _ & Hp & _ & _ & Hn & Hn' & _ & Hall).
  - intros y d [= <-]. exact sample_yaml_unique.
  - exact Ed.
  - exists nodes'. split; [reflexivity|]. split; [exact Ed|]. split; [exact Hn'|].
    injection Hp as <-. injection Hn as <-. apply Forall2_length in Hall. by rewrite <- Hall.
Defined.

Lemma ipc_recording_unreadable_witness :
  ∃ e data, entry_of 0%N sample_serialize 2 (mkMessage 5 "cam" "image" (mkMessageMetadata 0 (bytes_info 3) ipc_params) sample_bytes) = Ok e ∧
    replay_entry sample_deserialize e = [SendTyped "image" (bytes_info 3) ipc_params data] ∧
    is_ok (data_to_arrow_array (λ _, None) (Some (DMVec data)) (bytes_info 3) ipc_params) = false.
Proof.
  set (m := mkMessage _ _ _ _ _). assert (is_ok (entry_of 0%N sample_serialize 2 m) = true) as Hok by by vm_compute.
  destruct (entry_of 0%N sample_serialize 2 m) as [e| |] eqn:E; [|discriminate Hok..]. exists e.
  destruct (ipc_recording_unreadable 0%N sample_serialize sample_deserialize sample_serialize_ok 2 m e E) as (data & Hr & Hd).
  - reflexivity.
  - cbn. lia.
  - intros info buf _. reflexivity.
  - exists data. split; [reflexivity|]. split; [exact Hr|]. exact (Hd (λ _, None)).
Defined.

Definition sample_payloads : list (Z * ProxyInput) :=
  [(5%Z, PTimeout); (6%Z, PPayload (Byte.x00 :: [Byte.x61])); (7%Z, PError); (8%Z, PPayload [Byte.x07]);
   (9%Z, PPayload (Byte.x00 :: [Byte.x62; Byte.x63]))].

Lemma proxy_replay_roundtrip_witness :
  ∃ file actions, proxy_main sample_deserialize [] 2 sample_uuid sample_payloads = Ok file ∧
    replay_pass sample_deserialize (λ _ _, Ok tt) "cam" one_speed file [] = (Ok tt, actions) ∧
    sends actions = [SendTyped "image" (bytes_info 1) ∅ [Byte.x61]; SendTyped "image" (bytes_info 2) ∅ [Byte.x62; Byte.x63]].
Proof.
  assert (is_ok (proxy_main sample_deserialize [] 2 sample_uuid sample_payloads) = true) as Hok by by vm_compute.
  destruct (proxy_main sample_deserialize [] 2 sample_uuid sample_payloads) as [file| |] eqn:E; [|discriminate Hok..].
  exists file.
  destruct (proxy_replay_roundtrip sample_deserialize [] 2 sample_uuid sample_payloads file "cam" one_speed E) as (actions & Hr & Hs).
  - lia.
  - reflexivity.
  - repeat constructor; cbn; lia.
  - intros i n o md data Hi. unfold sample_payloads in Hi. rewrite !elem_of_cons, elem_of_nil in Hi.
    destruct Hi as [->|[->|[->|[->|[->|[]]]]]]; intros [= <- <- <- <-]; (split_and!; [reflexivity..|]); split; vm_compute; reflexivity.
  - exists actions. split; [reflexivity|]. split; [exact Hr|]. rewrite Hs. reflexivity.
Defined.
End witnesses.
