(* ===== verification/StateLog.v ===== *)
(** * The log of state mutations refines the history of a dataflow

    The coordinator keeps, per running dataflow, a bounded log of parameter changes and the
    sequence number each daemon has acknowledged ([state.rs]).  Here the log is compared with
    the full history of changes: what [state_log_delta] gives for a daemon is exactly what the
    daemon has not acknowledged, unless the cap on the log has dropped part of it; and
    applying it brings any daemon that has seen at least what it acknowledged up to date. *)

From Stdlib Require Import ZArith Lia.
From stdpp Require Import base gmap sets list strings.
From S2P Require Import Prelude Message Text Descriptor Store CoordState.
Local Open Scope list_scope.

(** ** Numbered histories *)

Fixpoint number (n : Z) (ops : list StateCatchUpOperation) : list StateCatchUpEntry :=
  match ops with
  | [] => []
  | op :: ops => mkCatchUpEntry (n + 1) op :: number (n + 1) ops
  end.

Lemma length_number n ops : length (number n ops) = length ops.
Proof. revert n. induction ops as [|op ops IH]; intros n; cbn; auto. Qed.

Lemma drop_number n k ops : k ≤ length ops → drop k (number n ops) = number (n + Z.of_nat k) (drop k ops).
Proof.
  revert n k. induction ops as [|op ops IH]; intros n [|k] Hk; cbn in *; try lia.
  - done.
  - by rewrite Z.add_0_r.
  - rewrite IH by lia. f_equal. lia.
Qed.

Lemma number_app n a b : number n (a ++ b) = number n a ++ number (n + Z.of_nat (length a)) b.
Proof.
  revert n. induction a as [|op a IH]; intros n; cbn; [by rewrite Z.add_0_r|].
  rewrite IH. do 3 f_equal. lia.
Qed.

Lemma retain_number m n ops :
  retain (λ e, (m <? sequence e)%Z) (number n ops) = drop (Z.to_nat (m - n)) (number n ops).
Proof.
  revert n. induction ops as [|op ops IH]; intros n; [by cbn; rewrite drop_nil|].
  cbn [number]. rewrite retain_cons, IH. cbn [sequence].
  destruct (Z.ltb_spec m (n + 1)).
  - replace (Z.to_nat (m - n)) with 0 by lia. replace (Z.to_nat (m - (n + 1))) with 0 by lia. done.
  - replace (Z.to_nat (m - n)) with (S (Z.to_nat (m - (n + 1)))) by lia. done.
Qed.

(** ** The representation invariant *)

(** The log holds the history without its first [k] entries; these have been acknowledged by
    every daemon, or the log is full. *)
Record log_rep (df : RunningDataflow) (hist : list StateCatchUpOperation) (k : nat) : Prop := {
  rep_k : k ≤ length hist;
  rep_sequence : state_log_sequence df = Z.of_nat (length hist);
  rep_log : state_log df = number (Z.of_nat k) (drop k hist);
  rep_acks d a : daemon_ack_sequence df !! d = Some a → (0 ≤ a ≤ Z.of_nat (length hist))%Z;
  rep_daemons : daemons df ⊆ dom (daemon_ack_sequence df);
  rep_dropped : (∀ d a, daemon_ack_sequence df !! d = Some a → (Z.of_nat k ≤ a)%Z) ∨
                MAX_STATE_LOG_ENTRIES ≤ length hist - k;
  rep_bound : length hist - k ≤ MAX_STATE_LOG_ENTRIES
}.

Lemma min_ack_foldl a l x : x ∈ a :: l → (foldl Z.min a l ≤ x)%Z.
Proof.
  revert a x. induction l as [|b l IH]; intros a x Hx; cbn.
  - apply list_elem_of_singleton in Hx as ->. done.
  - apply elem_of_cons in Hx as [->|[->|Hx]%elem_of_cons].
    + etrans; [apply (IH (Z.min a b) (Z.min a b)); left|]. lia.
    + etrans; [apply (IH (Z.min a b) (Z.min a b)); left|]. lia.
    + apply IH. by right.
Qed.
Lemma min_ack_foldl_in a l : foldl Z.min a l ∈ a :: l.
Proof.
  revert a. induction l as [|b l IH]; intros a; cbn; [left|].
  specialize (IH (Z.min a b)). apply elem_of_cons in IH as [->|H]; [|by do 2 right].
  destruct (Z.min_spec a b) as [[_ ->]|[_ ->]]; [left|right; left].
Qed.

Lemma min_ack_spec (acks : gmap DaemonId Z) :
  let m := min_ack (btree_iter acks).*2 in
  (∀ d a, acks !! d = Some a → (m ≤ a)%Z) ∧ (acks = ∅ ∨ ∃ d, acks !! d = Some m).
Proof.
  cbv zeta. destruct (btree_iter acks).*2 as [|a l] eqn:E.
  - assert (acks = ∅) as ->; [|split; [by intros d a ?%lookup_empty_Some|by left]].
    apply map_empty. intros d. apply eq_None_not_Some. intros [a Ha%elem_of_btree_iter].
    assert (a ∈ (btree_iter acks).*2) as H by (apply list_elem_of_fmap; by exists (d, a)).
    rewrite E in H. by apply elem_of_nil in H.
  - cbn [min_ack]. split.
    + intros d x Hx%elem_of_btree_iter. apply min_ack_foldl. rewrite <- E.
      apply list_elem_of_fmap. by exists (d, x).
    + right. pose proof (min_ack_foldl_in a l) as H. rewrite <- E in H.
      apply list_elem_of_fmap in H as ([d x] & Hm & Hx%elem_of_btree_iter). exists d. cbn in Hm. by rewrite Hm.
Qed.

(** ** Operations *)

Lemma append_rep df hist k op :
  log_rep df hist k → ∃ k', log_rep (append_state_log df op) (hist ++ [op]) k'.
Proof.
  intros [Hk Hseq Hlog Hacks Hdae Hdrop Hbound]. unfold append_state_log. rewrite Hlog, Hseq.
  assert (number (Z.of_nat k) (drop k hist) ++ [mkCatchUpEntry (Z.of_nat (length hist) + 1) op] =
          number (Z.of_nat k) (drop k (hist ++ [op]))) as ->.
  { rewrite drop_app_le by done. rewrite number_app, length_drop. cbn. do 3 f_equal. lia. }
  rewrite length_number, length_drop, length_app. cbn [length].
  set (j := length hist + 1 - k - MAX_STATE_LOG_ENTRIES).
  exists (k + j). split; cbn; rewrite ?length_app; cbn [length].
  - lia.
  - lia.
  - rewrite drop_number by (rewrite length_drop, length_app; cbn; lia).
    rewrite drop_drop. f_equal. lia.
  - intros d a Ha%Hacks. lia.
  - done.
  - destruct Hdrop as [Hl|Hr]; [|right; lia].
    destruct (decide (j = 0)) as [->|]; [left; intros d a Ha%Hl; lia|right; lia].
  - lia.
Qed.

Lemma prune_rep df hist k acks :
  acks ≠ ∅ → daemons df ⊆ dom acks →
  (∀ d a, acks !! d = Some a → (0 ≤ a ≤ Z.of_nat (length hist))%Z) →
  (∀ d a, acks !! d = Some a → (default 0 (daemon_ack_sequence df !! d) ≤ a)%Z) →
  (∀ d, is_Some (acks !! d) → is_Some (daemon_ack_sequence df !! d)) →
  log_rep df hist k → ∃ k', log_rep (prune_state_log {| df with daemon_ack_sequence := acks |}) hist k'.
Proof.
  intros Hne Hsub Hb Hmono Hdom [Hk Hseq Hlog Hacks Hdae Hdrop Hbound]. unfold prune_state_log. cbn [daemon_ack_sequence state_log].
  destruct (min_ack_spec acks) as [Hmin [?|[dm Hm]]]; [done|]. set (m := min_ack _) in *.
  pose proof (Hb _ _ Hm) as Hmb. rewrite Hlog, retain_number.
  exists (Nat.max k (Z.to_nat m)). split; cbn.
  - lia.
  - done.
  - rewrite drop_number by (rewrite length_drop; lia). rewrite drop_drop. f_equal; [lia|]. f_equal. lia.
  - done.
  - done.
  - destruct (decide (Z.of_nat k ≤ m)%Z) as [|Hlt].
    + left. intros d a Ha%Hmin. lia.
    + replace (Nat.max k (Z.to_nat m)) with k by lia. destruct Hdrop as [Hl|Hr]; [|by right]. exfalso.
      destruct (Hdom dm) as [a0 Ha0]; [by eexists|]. specialize (Hl _ _ Ha0).
      specialize (Hmono _ _ Hm). rewrite Ha0 in Hmono. cbn in Hmono. lia.
  - lia.
Qed.

Lemma acknowledge_rep df hist k d ack :
  log_rep df hist k → ∃ k', log_rep (acknowledge d ack df) hist k'.
Proof.
  intros Hrep. unfold acknowledge. case_bool_decide as Hd; [|by exists k].
  assert (is_Some (daemon_ack_sequence df !! d)) as [cur Hcur].
  { apply elem_of_dom, (rep_daemons _ _ _ Hrep), Hd. }
  pose proof (rep_acks _ _ _ Hrep _ _ Hcur) as Hb. assert (ack_of df d = cur) as -> by (unfold ack_of; by rewrite Hcur).
  eapply prune_rep; [..|exact Hrep].
  - apply insert_non_empty.
  - rewrite dom_insert. pose proof (rep_daemons _ _ _ Hrep). set_solver.
  - intros d' a [[<- <-]|[_ Ha]]%lookup_insert_Some; [|by eapply rep_acks].
    rewrite (rep_sequence _ _ _ Hrep). lia.
  - intros d' a [[<- <-]|[_ Ha]]%lookup_insert_Some; [rewrite Hcur; cbn; lia|by rewrite Ha].
  - intros d' [a [[<- _]|[_ Ha]]%lookup_insert_Some]; by eexists.
Qed.

Lemma mark_replayed_rep df hist k d :
  log_rep df hist k → log_rep (mark_replayed d df) hist k.
Proof.
  intros [Hk Hseq Hlog Hacks Hdae Hdrop Hbound]. split; cbn; [done..| | | |done].
  - intros d' a [[<- <-]|[_ Ha]]%lookup_insert_Some; [lia|by eapply Hacks].
  - rewrite dom_insert. set_solver.
  - destruct Hdrop as [Hl|Hr]; [left|by right].
    intros d' a [[<- <-]|[_ Ha]]%lookup_insert_Some; [lia|by eapply Hl].
Qed.

Lemma forget_rep df hist k gone :
  log_rep df hist k → log_rep (forget_daemons gone df) hist k.
Proof. intros [Hk Hseq Hlog Hacks Hdae Hdrop Hbound]. split; cbn; try done. set_solver. Qed.

(** ** Runs *)

(** What the coordinator does to the log of a dataflow: a parameter is changed, a daemon
    acknowledges, a full replay has succeeded, daemons are lost. *)
Inductive LogOp :=
| LAppend (operation : StateCatchUpOperation)
| LAck (daemon_id : DaemonId) (ack_sequence : Z)
| LReplayed (daemon_id : DaemonId)
| LForget (gone : gset DaemonId).

Definition log_apply (df : RunningDataflow) (op : LogOp) : RunningDataflow :=
  match op with
  | LAppend operation => append_state_log df operation
  | LAck daemon_id ack => acknowledge daemon_id ack df
  | LReplayed daemon_id => mark_replayed daemon_id df
  | LForget gone => forget_daemons gone df
  end.

(** The changes of a run, in order. *)
Definition history (ops : list LogOp) : list StateCatchUpOperation :=
  omap (λ op, match op with LAppend operation => Some operation | _ => None end) ops.

(** The log of a dataflow that has just been started. *)
Definition fresh_log (df : RunningDataflow) : Prop :=
  state_log_sequence df = 0%Z ∧ state_log df = [] ∧ daemon_ack_sequence df = gset_to_gmap 0%Z (daemons df).

Lemma fresh_rep df : fresh_log df → log_rep df [] 0.
Proof.
  intros (Hs & Hl & Ha). split; cbn; try done; try (rewrite Ha).
  - intros d a [_ <-]%lookup_gset_to_gmap_Some. done.
  - by rewrite dom_gset_to_gmap.
  - left. intros d a [_ <-]%lookup_gset_to_gmap_Some. done.
  - lia.
Qed.

Lemma log_run_rep df hist k ops :
  log_rep df hist k → ∃ k', log_rep (foldl log_apply df ops) (hist ++ history ops) k'.
Proof.
  revert df hist k. induction ops as [|op ops IH]; intros df hist k Hrep.
  - exists k. cbn. by rewrite app_nil_r.
  - cbn [foldl]. destruct op as [o|d a|d|gone]; cbn [history omap list_omap log_apply].
    + apply (append_rep _ _ _ o) in Hrep as [k' Hrep]. apply IH in Hrep as [k'' Hrep].
      exists k''. by rewrite <- app_assoc in Hrep.
    + apply (acknowledge_rep _ _ _ d a) in Hrep as [k' Hrep]. by eapply IH.
    + eapply IH. by apply mark_replayed_rep.
    + eapply IH. by apply forget_rep.
Qed.

(** The delta of a daemon, in terms of the history. *)
Lemma delta_rep df hist k d :
  log_rep df hist k → (Z.of_nat (length hist) < u64_max)%Z → d ∈ daemons df →
  (0 ≤ ack_of df d ≤ Z.of_nat (length hist))%Z ∧
  match state_log_delta df (ack_of df d) with
  | Some entries => entries = number (ack_of df d) (drop (Z.to_nat (ack_of df d)) hist)
  | None => (ack_of df d + Z.of_nat MAX_STATE_LOG_ENTRIES < Z.of_nat (length hist))%Z
  end.
Proof.
  intros Hrep Hlen Hd. pose proof (rep_daemons _ _ _ Hrep _ Hd) as [a Ha]%elem_of_dom.
  pose proof (rep_acks _ _ _ Hrep _ _ Ha) as Hb. assert (ack_of df d = a) as -> by (unfold ack_of; by rewrite Ha).
  split; [done|]. pose proof (rep_k _ _ _ Hrep) as Hk. pose proof (rep_log _ _ _ Hrep) as Hlog.
  pose proof (rep_dropped _ _ _ Hrep) as Hdrop. pose proof (rep_bound _ _ _ Hrep) as Hbound.
  assert (0 < MAX_STATE_LOG_ENTRIES) as Hmax by (unfold MAX_STATE_LOG_ENTRIES; lia).
  assert (Z.of_nat k ≤ a ∨ a < Z.of_nat k ∧ Z.of_nat k + Z.of_nat MAX_STATE_LOG_ENTRIES ≤ Z.of_nat (length hist))%Z as Hcase.
  { destruct (decide (Z.of_nat k ≤ a)%Z); [by left|right]. destruct Hdrop as [Hl|Hr]; [|lia].
    apply Hl in Ha. lia. }
  unfold state_log_delta. rewrite Hlog. destruct (drop k hist) as [|op rest] eqn:Ed; cbn [number].
  - assert (length hist ≤ k) by (apply (f_equal length) in Ed; rewrite length_drop in Ed; cbn in Ed; lia).
    destruct Hcase; [|lia]. rewrite drop_ge by lia. done.
  - cbn [sequence]. destruct (Z.ltb_spec (Z.min (a + 1) u64_max) (Z.of_nat k + 1)).
    + destruct Hcase; [|lia]. assert (k < length hist); [|lia].
      apply (f_equal length) in Ed. rewrite length_drop in Ed. cbn in Ed. lia.
    + change (mkCatchUpEntry (Z.of_nat k + 1) op :: number (Z.of_nat k + 1) rest)
        with (number (Z.of_nat k) (op :: rest)).
      rewrite retain_number, <- Ed.
      assert (k < length hist) by (apply (f_equal length) in Ed; rewrite length_drop in Ed; cbn in Ed; lia).
      rewrite drop_number by (rewrite length_drop; lia). rewrite drop_drop. f_equal; [lia|]. f_equal. lia.
Qed.

(** C8. The bounded log implements the full history of parameter changes: after any sequence
    of changes, acknowledgements, replays and lost daemons, what the coordinator would send to
    a daemon of the dataflow is exactly the suffix of the history behind its acknowledgement,
    numbered as it was; only a daemon that is more than ten thousand changes behind gets no
    suffix (and then a full replay).  The log never holds more than ten thousand entries. *)
Theorem state_log_refines_history (df : RunningDataflow) (ops : list LogOp) (d : DaemonId) :
  fresh_log df → (Z.of_nat (length (history ops)) < u64_max)%Z →
  let df' := foldl log_apply df ops in
  d ∈ daemons df' →
  length (state_log df') ≤ MAX_STATE_LOG_ENTRIES ∧
  match state_log_delta df' (ack_of df' d) with
  | Some entries => entries = number (ack_of df' d) (drop (Z.to_nat (ack_of df' d)) (history ops))
  | None => (ack_of df' d + Z.of_nat MAX_STATE_LOG_ENTRIES < Z.of_nat (length (history ops)))%Z
  end.
Proof.
  intros Hf Hlen df' Hd. destruct (log_run_rep df [] 0 ops (fresh_rep df Hf)) as [k Hrep].
  split; [|by eapply delta_rep]. unfold df'. rewrite (rep_log _ _ _ Hrep), length_number, length_drop.
  apply (rep_bound _ _ _ Hrep).
Qed.

(** ** Catching up *)

(** The parameters of the nodes after a sequence of changes. *)
Definition apply_change (params : gmap (NodeId * string) string) (op : StateCatchUpOperation)
    : gmap (NodeId * string) string :=
  match op with
  | CatchUpSetParam node_id key value => <[(node_id, key) := value]> params
  | CatchUpDeleteParam node_id key => delete (node_id, key) params
  end.
Definition apply_changes (params : gmap (NodeId * string) string) (ops : list StateCatchUpOperation)
    : gmap (NodeId * string) string := foldl apply_change params ops.

(** What the last change of a parameter in the list makes of it. *)
Definition changes_to (key : NodeId * string) (op : StateCatchUpOperation) : option (option string) :=
  match op with
  | CatchUpSetParam n k v => if bool_decide ((n, k) = key) then Some (Some v) else None
  | CatchUpDeleteParam n k => if bool_decide ((n, k) = key) then Some None else None
  end.

Lemma apply_changes_lookup params ops key :
  apply_changes params ops !! key = default (params !! key) (last (omap (changes_to key) ops)).
Proof.
  induction ops as [|op ops IH] using rev_ind; [done|].
  unfold apply_changes in *. rewrite foldl_snoc, omap_app. cbn [omap list_omap].
  destruct op as [n k v|n k]; cbn [apply_change changes_to]; case_bool_decide as Hk; subst.
  - rewrite last_snoc. by rewrite lookup_insert_eq.
  - rewrite app_nil_r, lookup_insert_ne by done. done.
  - rewrite last_snoc. by rewrite lookup_delete_eq.
  - rewrite app_nil_r, lookup_delete_ne by done. done.
Qed.

Lemma apply_changes_idemp params ops :
  apply_changes (apply_changes params ops) ops = apply_changes params ops.
Proof.
  apply map_eq. intros key. rewrite !apply_changes_lookup.
  by destruct (last (omap (changes_to key) ops)).
Qed.

Lemma apply_changes_app params a b :
  apply_changes params (a ++ b) = apply_changes (apply_changes params a) b.
Proof. apply foldl_app. Qed.

Lemma apply_changes_overlap params a b :
  apply_changes (apply_changes params a) (a ++ b) = apply_changes params (a ++ b).
Proof. by rewrite !apply_changes_app, apply_changes_idemp. Qed.

Lemma operation_number n ops : operation <$> number n ops = ops.
Proof. revert n. induction ops as [|op ops IH]; intros n; cbn; [done|]. by rewrite IH. Qed.

(** C33. Catch-up converges: a daemon that has received at least the changes it acknowledged
    (possibly more, since changes made while it is connected are forwarded without being
    acknowledged), and now applies the entries it is sent, has the parameters that the whole
    history gives. *)
Theorem catch_up_converges (df : RunningDataflow) (ops : list LogOp) (d : DaemonId)
    (entries : list StateCatchUpEntry) (seen : nat) (params : gmap (NodeId * string) string) :
  fresh_log df → (Z.of_nat (length (history ops)) < u64_max)%Z →
  let df' := foldl log_apply df ops in
  d ∈ daemons df' →
  state_log_delta df' (ack_of df' d) = Some entries →
  (ack_of df' d ≤ Z.of_nat seen)%Z →
  apply_changes (apply_changes params (take seen (history ops))) (operation <$> entries) =
  apply_changes params (history ops).
Proof.
  intros Hf Hlen df' Hd Hdelta Hseen.
  destruct (log_run_rep df [] 0 ops (fresh_rep df Hf)) as [k Hrep]. cbn [app] in Hrep.
  destruct (delta_rep _ _ _ d Hrep Hlen Hd) as [Hb Hent]. fold df' in Hb, Hent. rewrite Hdelta in Hent.
  rewrite Hent, operation_number. set (a := Z.to_nat (ack_of df' d)). set (h := history ops).
  assert (a ≤ seen) as Ha by lia.
  assert (take seen h = take a h ++ take (seen - a) (drop a h)) as ->.
  { rewrite <- (take_drop a h) at 1. rewrite take_app, take_take. f_equal; [f_equal; lia|].
    rewrite length_take. destruct (decide (a ≤ length h)); [by rewrite Nat.min_l|].
    rewrite (drop_ge h a) by lia. by rewrite !take_nil. }
  transitivity (apply_changes params (take a h ++ drop a h)); [|by rewrite take_drop].
  rewrite !apply_changes_app.
  pose proof (apply_changes_overlap (apply_changes params (take a h)) (take (seen - a) (drop a h))
    (drop (seen - a) (drop a h))) as Ho. by rewrite take_drop in Ho.
Qed.

(** ** Witnesses *)

Definition sample_daemon : DaemonId := mkDaemonId (Some "a"%string) 1%N.
Definition sample_running : RunningDataflow := {|
  df_name := None; df_uuid := 7%N;
  df_descriptor := mkDescriptor [] None false None None [] None;
  daemons := {[sample_daemon]}; pending_daemons := ∅; exited_before_subscribe := [];
  df_nodes := ∅; node_to_daemon := {["n"%string := sample_daemon]};
  node_metrics := ∅; network_metrics := None;
  spawn_result := new_result; stop_reply_senders := []; buffered_log_messages := []; log_subscribers := [];
  topic_subscribers := ∅; pending_spawn_results := ∅; df_created_at := 0; store_generation := 0;
  last_recovery_attempt := ∅; last_replay_attempt := ∅; df_uv := false;
  state_log_sequence := 0; state_log := []; daemon_ack_sequence := {[sample_daemon := 0%Z]} |}.

(** Two changes, the first of them acknowledged, and a third. *)
Definition sample_log_ops : list LogOp :=
  [LAppend (CatchUpSetParam "n" "gain" "1"); LAppend (CatchUpSetParam "n" "mode" "2");
   LAck sample_daemon 1; LAppend (CatchUpDeleteParam "n" "gain")].

Lemma sample_running_fresh : fresh_log sample_running.
Proof. split_and!; [done..|]. by vm_compute. Qed.

Lemma state_log_refines_history_witness :
  let df' := foldl log_apply sample_running sample_log_ops in
  length (state_log df') ≤ MAX_STATE_LOG_ENTRIES ∧
  match state_log_delta df' (ack_of df' sample_daemon) with
  | Some entries =>
      entries = number (ack_of df' sample_daemon)
                  (drop (Z.to_nat (ack_of df' sample_daemon)) (history sample_log_ops))
  | None => (ack_of df' sample_daemon + Z.of_nat MAX_STATE_LOG_ENTRIES <
             Z.of_nat (length (history sample_log_ops)))%Z
  end.
Proof.
  apply (state_log_refines_history sample_running sample_log_ops sample_daemon sample_running_fresh).
  - done.
  - vm_compute. reflexivity.
Defined.

Lemma catch_up_converges_witness :
  apply_changes (apply_changes ∅ (take 2 (history sample_log_ops)))
    (operation <$> [mkCatchUpEntry 2 (CatchUpSetParam "n" "mode" "2");
                    mkCatchUpEntry 3 (CatchUpDeleteParam "n" "gain")]) =
  apply_changes ∅ (history sample_log_ops).
Proof.
  apply (catch_up_converges sample_running sample_log_ops sample_daemon _ 2 ∅ sample_running_fresh).
  - done.
  - vm_compute. reflexivity.
  - vm_compute. reflexivity.
  - vm_compute. done.
Defined.
