(* ===== verification/Coordinator.v ===== *)
(** * The coordinator

    Models [binaries/coordinator/src/{lib,handlers}.rs] and [run/mod.rs]: every arm of the
    event loop [start_inner] and every handler it calls.  The daemons and clients at the other
    ends of the channels, the random identifiers and the encodings are the class [World]; all
    that the coordinator sends is appended to [trace], and what a channel does with a message
    may depend on everything sent before.  The store is any instance of [CoordinatorStore].

    A handler that fails inside its own [async] block answers the request with the error; a
    failure of the event loop itself ([?] in [start_inner]) ends the coordinator.  The
    serialization of messages does not fail.  The texts of errors are abbreviated. *)

From Stdlib Require Import ZArith Lia Ascii.
From stdpp Require Import base gmap sets list strings.
From S2P Require Import Prelude Message Text Descriptor Store CoordState.
Local Open Scope list_scope.

(** Seconds as a duration in nanoseconds. *)
Definition secs (n : Z) : Duration := n * 1000000000.

(** ** Outputs and the world *)

Inductive Output :=
| OSent (channel : ChannelId) (message : ToDaemon)
| OReply (to : RequestId) (reply : res ControlRequestReply)
| OFound (to : RequestId) (found : bool)
| OSubscribed (to : RequestId) (result : res Uuid)
| ODone (to : RequestId)
| ODaemonId (to : RequestId) (daemon_id : DaemonId)
| OLog (channel : ChannelId) (message : LogMessage)
| OFrame (channel : ChannelId) (subscription_id : Uuid) (payload : list Byte.byte).

(** The outcome of sending to a client: done, the channel is closed, or no progress in time. *)
Inductive SendOutcome := SendOk | SendClosed | SendTimeout.

(** [deliver] tells whether a connection takes a message, [exchange] what comes back for a
    command ([Ok None] is a reply that cannot be decoded); [client_send] and [client_closed]
    are the channels of log and topic subscribers.  [fresh_uuid] and [petname] are the random
    identifiers and names, in the order in which they are drawn. *)
Class World := {
  deliver : list Output → ChannelId → ToDaemon → bool;
  exchange : list Output → ChannelId → DaemonCoordinatorEvent → res (option DaemonCoordinatorReply);
  client_send : list Output → ChannelId → SendOutcome;
  client_closed : list Output → ChannelId → bool;
  fresh_uuid : nat → Uuid;
  petname : nat → option string;
  ros2_json : Ros2BridgeConfig → res string;
  descriptor_to_json : Descriptor → res string;
  descriptor_from_json : string → res Descriptor;
  value_to_vec : string → list Byte.byte;
  value_from_slice : list Byte.byte → option string
}.

(** ** State *)

(** A task of [schedule_param_replay_for_ready_dataflow] that has not run yet. *)
Record ReplayTask := mkReplayTask {
  replay_dataflow_id : Uuid;
  replay_daemon_id : DaemonId;
  replay_node_ids : list NodeId;
  replay_channel : ChannelId
}.

(** [finished_builds] and [archived_dataflows] are [IndexMap]s: association lists in insertion
    order with distinct keys. *)
Record Coord (S : Type) := mkCoord {
  running_builds : gmap Uuid RunningBuild;
  finished_builds : list (Uuid * CachedResult);
  running_dataflows : gmap Uuid RunningDataflow;
  dataflow_results : gmap Uuid (gmap DaemonId (gmap NodeId NodeResult));
  archived_dataflows : list (Uuid * ArchivedDataflow);
  connections : gmap DaemonId DaemonConnection;
  aborted : bool;
  replay_tasks : list ReplayTask;
  store : S;
  trace : list Output;
  drawn : nat;
  now : Instant;
  now_millis : Z
}.
Arguments mkCoord {S}.
Arguments running_builds {S}. Arguments finished_builds {S}. Arguments running_dataflows {S}.
Arguments dataflow_results {S}. Arguments archived_dataflows {S}. Arguments connections {S}.
Arguments aborted {S}. Arguments replay_tasks {S}. Arguments store {S}. Arguments trace {S}.
Arguments drawn {S}. Arguments now {S}. Arguments now_millis {S}.

Definition upd_builds {S} f (c : Coord S) := {| c with running_builds := f (running_builds c) |}.
Definition upd_finished {S} f (c : Coord S) := {| c with finished_builds := f (finished_builds c) |}.
Definition upd_running {S} f (c : Coord S) := {| c with running_dataflows := f (running_dataflows c) |}.
Definition upd_results {S} f (c : Coord S) := {| c with dataflow_results := f (dataflow_results c) |}.
Definition upd_archived {S} f (c : Coord S) := {| c with archived_dataflows := f (archived_dataflows c) |}.
Definition upd_connections {S} f (c : Coord S) := {| c with connections := f (connections c) |}.
Definition upd_tasks {S} f (c : Coord S) := {| c with replay_tasks := f (replay_tasks c) |}.
Definition upd_trace {S} f (c : Coord S) := {| c with trace := f (trace c) |}.
Definition upd_store {S} (s : S) (c : Coord S) := {| c with store := s |}.

(** ** The handler monad *)

Definition CM (S A : Type) : Type := Coord S → res A * Coord S.

#[export] Instance CM_ret S : MRet (CM S) := λ A a c, (Ok a, c).
#[export] Instance CM_bind S : MBind (CM S) := λ A B f m c,
  match m c with
  | (Ok a, c) => f a c
  | (Err e, c) => (Err e, c)
  | (Panic, c) => (Panic, c)
  end.

Section monad.
Context {S : Type}.
Definition gets {A} (f : Coord S → A) : CM S A := λ c, (Ok (f c), c).
Definition modify (f : Coord S → Coord S) : CM S unit := λ c, (Ok tt, f c).
Definition fail {A} (e : string) : CM S A := λ c, (Err e, c).
Definition lift {A} (r : res A) : CM S A := λ c, (r, c).
Definition catch {A} (m : CM S A) : CM S (res A) := λ c,
  match m c with
  | (Panic, c) => (Panic, c)
  | (r, c) => (Ok r, c)
  end.
Definition emit (o : Output) : CM S unit := modify (upd_trace (λ t, t ++ [o])).
Definition with_store {A} (f : S → res A * S) : CM S A := λ c,
  let '(r, s) := f (store c) in (r, upd_store s c).
Fixpoint for_each {A} (f : A → CM S unit) (l : list A) : CM S unit :=
  match l with
  | [] => mret tt
  | a :: l => f a;; for_each f l
  end.
Definition modify_df (uuid : Uuid) (f : RunningDataflow → RunningDataflow) : CM S unit :=
  modify (upd_running (alter f uuid)).
Definition modify_build (build_id : Uuid) (f : RunningBuild → RunningBuild) : CM S unit :=
  modify (upd_builds (alter f build_id)).
Definition send_reply (to : RequestId) (r : res ControlRequestReply) : CM S unit := emit (OReply to r).
Definition send_replies (l : Replies) : CM S unit := for_each (λ '(to, r), send_reply to r) l.
(** Run a handler and answer the request with its result. *)
Definition answer (to : RequestId) (m : CM S ControlRequestReply) : CM S unit :=
  r ← catch m; send_reply to r.
Definition get_df (uuid : Uuid) (e : string) : CM S RunningDataflow := λ c,
  (res_of_option e (running_dataflows c !! uuid), c).
Definition get_connection (id : DaemonId) : CM S DaemonConnection := λ c,
  (res_of_option "no daemon connection" (connections c !! id), c).
End monad.

Section handlers.
Context `{HashOrder} `{UuidFormat} {S : Type} `{CoordinatorStore S} `{World}.

Definition new_uuid : CM S Uuid := λ c,
  (Ok (fresh_uuid (drawn c)), {| c with drawn := Datatypes.S (drawn c) |}).

(** ** Connections

    [DaemonConnection::send] and [send_and_receive]. *)

Definition send (channel : ChannelId) (message : ToDaemon) : CM S unit := λ c,
  (if deliver (trace c) channel message then Ok tt else Err "WS daemon send channel closed",
   upd_trace (λ t, t ++ [OSent channel message]) c).

Definition send_and_receive (channel : ChannelId) (event : DaemonCoordinatorEvent)
    : CM S (option DaemonCoordinatorReply) := λ c,
  (exchange (trace c) channel event, upd_trace (λ t, t ++ [OSent channel (ToEvent event)]) c).

(** A command with a decoded reply; [expect] picks the result out of the expected one. *)
Definition request {A} (conn : DaemonConnection) (event : DaemonCoordinatorEvent)
    (expect : DaemonCoordinatorReply → option (res A)) : CM S A :=
  raw ← send_and_receive (conn_channel conn) event;
  reply ← lift (res_of_option "failed to deserialize reply from daemon" raw);
  result ← lift (res_of_option "unexpected reply" (expect reply));
  lift result.

Definition expect_stop (r : DaemonCoordinatorReply) : option (res unit) :=
  match r with StopResult r => Some r | _ => None end.
Definition expect_spawn (r : DaemonCoordinatorReply) : option (res unit) :=
  match r with TriggerSpawnResult r => Some r | _ => None end.
Definition expect_build (r : DaemonCoordinatorReply) : option (res unit) :=
  match r with TriggerBuildResult r => Some r | _ => None end.
Definition expect_reload (r : DaemonCoordinatorReply) : option (res unit) :=
  match r with ReloadResult r => Some r | _ => None end.
Definition expect_restart_node (r : DaemonCoordinatorReply) : option (res unit) :=
  match r with RestartNodeResult r => Some r | _ => None end.
Definition expect_stop_node (r : DaemonCoordinatorReply) : option (res unit) :=
  match r with StopNodeResult r => Some r | _ => None end.
Definition expect_logs (r : DaemonCoordinatorReply) : option (res (list Byte.byte)) :=
  match r with LogsResult r => Some r | _ => None end.
Definition expect_destroy (r : DaemonCoordinatorReply) : option (res unit) :=
  match r with DestroyResult r => Some r | _ => None end.
Definition expect_start_topic (r : DaemonCoordinatorReply) : option (res unit) :=
  match r with StartTopicDebugStreamResult r => Some r | _ => None end.
Definition expect_stop_topic (r : DaemonCoordinatorReply) : option (res unit) :=
  match r with StopTopicDebugStreamResult r => Some r | _ => None end.
Definition ensure_set_param_forward_applied (r : DaemonCoordinatorReply) : option (res unit) :=
  match r with SetParamResult r => Some r | _ => None end.
Definition ensure_delete_param_forward_applied (r : DaemonCoordinatorReply) : option (res unit) :=
  match r with DeleteParamResult r => Some r | _ => None end.

(** ** Persistence *)

(** [make_record(status).and_then(|r| store.put_dataflow(&r))]; an error is only logged. *)
Definition persist_df (df : RunningDataflow) (status : DataflowStatus) : CM S RunningDataflow :=
  now ← gets now_millis;
  let '(record, df) := make_record descriptor_to_json now df status in
  _ ← catch (record ← lift record; with_store (put_dataflow record));
  mret df.

Definition persist (uuid : Uuid) (status : DataflowStatus) : CM S unit :=
  running ← gets running_dataflows;
  match running !! uuid with
  | Some df => df ← persist_df df status; modify (upd_running <[uuid := df]>)
  | None => mret tt
  end.

(** ** Placement and spawning (run/mod.rs) *)

Definition resolve_daemon (conns : gmap DaemonId DaemonConnection) (deploy : option Deploy) : res DaemonId :=
  let any := res_of_option "no unnamed daemon connections" (head (unnamed conns)) in
  match deploy with
  | Some d =>
      match deploy_machine d with
      | Some machine => res_of_option "no matching daemon for machine id" (get_matching_daemon_id conns machine)
      | None =>
          if bool_decide (deploy_labels d = ∅) then any
          else res_of_option "no daemon matches labels" (get_matching_daemon_by_labels conns (deploy_labels d))
      end
  | None => any
  end.

(** The nodes grouped by the daemon that is to run them. *)
Fixpoint nodes_by_daemon (conns : gmap DaemonId DaemonConnection) (nodes : list ResolvedNode)
    (groups : gmap DaemonId (list ResolvedNode)) : res (gmap DaemonId (list ResolvedNode)) :=
  match nodes with
  | [] => Ok groups
  | node :: nodes =>
      daemon_id ← resolve_daemon conns (r_deploy node);
      nodes_by_daemon conns nodes (<[daemon_id := default [] (groups !! daemon_id) ++ [node]]> groups)
  end.

Definition MAX_ROLLBACK_ERROR_BYTES : nat := Z.to_nat 1024.

Fixpoint rollback_spawned_daemons (dataflow_id : Uuid) (spawned : list DaemonId)
    : CM S (list (DaemonId * string)) :=
  match spawned with
  | [] => mret []
  | daemon_id :: spawned =>
      result ← catch (conn ← get_connection daemon_id;
                      request conn (StopDataflow dataflow_id None true) expect_stop);
      errors ← rollback_spawned_daemons dataflow_id spawned;
      mret (match result with
            | Err e => (daemon_id, truncate_str e MAX_ROLLBACK_ERROR_BYTES) :: errors
            | _ => errors
            end)
  end.

(** The daemons are asked one after the other; when one fails, those before it are stopped. *)
Fixpoint spawn_on_daemons (command : gset NodeId → SpawnDataflowNodes) (dataflow_id : Uuid)
    (groups : list (DaemonId * list ResolvedNode)) (daemons : gset DaemonId)
    (node_to_daemon : gmap NodeId DaemonId) : CM S (gset DaemonId * gmap NodeId DaemonId) :=
  match groups with
  | [] => mret (daemons, node_to_daemon)
  | (daemon_id, nodes) :: groups =>
      conn ← get_connection daemon_id;
      spawn_result ← catch (request conn (Spawn (command (list_to_set (r_id <$> nodes)))) expect_spawn);
      match spawn_result with
      | Ok _ =>
          spawn_on_daemons command dataflow_id groups ({[daemon_id]} ∪ daemons)
            (foldl (λ m n, <[r_id n := daemon_id]> m) node_to_daemon nodes)
      | Err spawn_err =>
          _ ← rollback_spawned_daemons dataflow_id (btree_elems daemons);
          fail spawn_err
      | Panic => lift Panic
      end
  end.

Record SpawnedDataflow := mkSpawned {
  spawned_uuid : Uuid;
  spawned_daemons : gset DaemonId;
  spawned_nodes : gmap NodeId ResolvedNode;
  spawned_node_to_daemon : gmap NodeId DaemonId
}.

Definition spawn_dataflow (build_id : option Uuid) (session_id : Uuid) (dataflow : Descriptor)
    (local_working_dir : option string) (uv : bool) (write_events_to : option string)
    : CM S SpawnedDataflow :=
  nodes ← lift (resolve_aliases_and_set_defaults ros2_json dataflow);
  uuid ← new_uuid;
  conns ← gets connections;
  groups ← lift (nodes_by_daemon conns (btree_iter nodes).*2 ∅);
  let command := λ spawn_nodes,
    mkSpawnNodes build_id session_id uuid local_working_dir nodes dataflow spawn_nodes uv
      write_events_to None in
  '(daemons, node_to_daemon) ← spawn_on_daemons command uuid (btree_iter groups) ∅ ∅;
  mret (mkSpawned uuid daemons nodes node_to_daemon).

(** ** Handlers (handlers.rs) *)

Definition start_dataflow (build_id : option Uuid) (session_id : Uuid) (dataflow : Descriptor)
    (local_working_dir : option string) (name : option string) (uv : bool)
    (write_events_to : option string) : CM S RunningDataflow :=
  s ← spawn_dataflow build_id session_id dataflow local_working_dir uv write_events_to;
  created_at ← gets now_millis;
  let daemons := spawned_daemons s in
  mret {| df_name := name;
          df_uuid := spawned_uuid s;
          df_descriptor := dataflow;
          daemons := daemons;
          pending_daemons := if (1 <? size daemons)%nat then daemons else ∅;
          exited_before_subscribe := [];
          df_nodes := spawned_nodes s;
          node_to_daemon := spawned_node_to_daemon s;
          node_metrics := ∅;
          network_metrics := None;
          spawn_result := new_result;
          stop_reply_senders := [];
          buffered_log_messages := [];
          log_subscribers := [];
          topic_subscribers := ∅;
          pending_spawn_results := daemons;
          df_created_at := created_at;
          store_generation := 0;
          last_recovery_attempt := ∅;
          last_replay_attempt := ∅;
          df_uv := uv;
          state_log_sequence := 0;
          state_log := [];
          daemon_ack_sequence := gset_to_gmap 0%Z daemons |}.

(** The entries of the sources of the nodes of a group. *)
Definition sources_of (nodes : list ResolvedNode) (sources : gmap NodeId GitSource) : gmap NodeId GitSource :=
  filter (λ e, e.1 ∈ r_id <$> nodes) sources.

Fixpoint build_on_daemons (command : list ResolvedNode → BuildDataflowNodes)
    (groups : list (DaemonId * list ResolvedNode)) (daemons : gset DaemonId) : CM S (gset DaemonId) :=
  match groups with
  | [] => mret daemons
  | (daemon_id, nodes) :: groups =>
      conn ← get_connection daemon_id;
      request conn (Build (command nodes)) expect_build;;
      build_on_daemons command groups ({[daemon_id]} ∪ daemons)
  end.

Definition build_dataflow (build_id session_id : Uuid) (dataflow : Descriptor)
    (git_sources prev_git_sources : gmap NodeId GitSource) (local_working_dir : option string) (uv : bool)
    : CM S RunningBuild :=
  nodes ← lift (resolve_aliases_and_set_defaults ros2_json dataflow);
  conns ← gets connections;
  groups ← lift (nodes_by_daemon conns (btree_iter nodes).*2 ∅);
  let command := λ nodes,
    mkBuildNodes build_id session_id local_working_dir (sources_of nodes git_sources)
      (sources_of nodes prev_git_sources) dataflow (list_to_set (r_id <$> nodes)) uv in
  daemons ← build_on_daemons command (btree_iter groups) ∅;
  mret (mkRunningBuild [] new_result [] [] daemons).

(** One command to each daemon of a dataflow, until one fails. *)
Definition command_daemons (ids : list DaemonId) (event : DaemonCoordinatorEvent)
    (expect : DaemonCoordinatorReply → option (res unit)) : CM S unit :=
  for_each (λ id, conn ← get_connection id; request conn event expect) ids.

Definition stop_dataflow (uuid : Uuid) (grace_duration : option Duration) (force : bool) : CM S unit :=
  df ← get_df uuid "no known running dataflow";
  command_daemons (btree_elems (daemons df)) (StopDataflow uuid grace_duration force) expect_stop.

Definition reload_dataflow (dataflow_id : Uuid) (node_id : NodeId) (operator_id : option OperatorId)
    : CM S unit :=
  df ← get_df dataflow_id "No running dataflow found";
  command_daemons (btree_elems (daemons df)) (ReloadDataflow dataflow_id node_id operator_id) expect_reload.

Definition dispatch_node_command (dataflow_id : Uuid) (node_id : NodeId) (event : DaemonCoordinatorEvent)
    (expect : DaemonCoordinatorReply → option (res unit)) : CM S unit :=
  df ← get_df dataflow_id "No running dataflow found";
  daemon_id ← lift (res_of_option "node not found in dataflow" (node_to_daemon df !! node_id));
  conn ← get_connection daemon_id;
  request conn event expect.

Definition restart_node (dataflow_id : Uuid) (node_id : NodeId) (grace_duration : option Duration) : CM S unit :=
  dispatch_node_command dataflow_id node_id (RestartNode dataflow_id node_id grace_duration) expect_restart_node.
Definition stop_node (dataflow_id : Uuid) (node_id : NodeId) (grace_duration : option Duration) : CM S unit :=
  dispatch_node_command dataflow_id node_id (StopNode dataflow_id node_id grace_duration) expect_stop_node.

(** *** Names, results and logs *)

Definition assoc_lookup {V} (k : Uuid) (l : list (Uuid * V)) : option V :=
  snd <$> head (retain (λ e, bool_decide (e.1 = k)) l).

Definition resolve_name (name : string) (running : gmap Uuid RunningDataflow)
    (archived : list (Uuid * ArchivedDataflow)) : res Uuid :=
  let uuids := (retain (λ e, bool_decide (df_name e.2 = Some name)) (hash_iter running)).*1 in
  let archived_uuids := (retain (λ e, bool_decide (arch_name e.2 = Some name)) archived).*1 in
  match uuids with
  | [] =>
      match archived_uuids with
      | [] => Err "no dataflow with name"
      | [uuid] => Ok uuid
      | _ => Err "multiple archived dataflows found with name"
      end
  | [uuid] => Ok uuid
  | _ => Err "multiple dataflows found with name"
  end.

(** [node_results.extend(..)] of the daemons in order: later entries win. *)
Definition dataflow_result (results : gmap DaemonId (gmap NodeId NodeResult)) (uuid : Uuid) : DataflowResult :=
  mkDataflowResult uuid (foldl (λ m r, r ∪ m) ∅ (btree_iter results).*2).

Definition stopped_reply (results : gmap Uuid (gmap DaemonId (gmap NodeId NodeResult))) (uuid : Uuid)
    : ControlRequestReply :=
  DataflowStopped uuid (match results !! uuid with
                        | Some r => dataflow_result r uuid
                        | None => mkDataflowResult uuid ∅
                        end).

Definition filter_rank (f : option LogLevel) : Z := match f with Some l => level_rank l | None => 0 end.

Definition log_subscriber_wants (s : LogSubscriber) (m : LogMessage) : bool :=
  match log_level m with
  | LLevel l => (level_rank l <=? filter_rank (sub_level s))%Z
  | LStdout => true
  end.

(** [send_message] under a timeout; only the timeout closes the subscriber. *)
Definition send_log_to (m : LogMessage) (s : LogSubscriber) : CM S LogSubscriber := λ c,
  if negb (log_subscriber_wants s m) then (Ok s, c)
  else match sub_sender s with
       | None => (Ok s, c)
       | Some channel =>
           match client_send (trace c) channel with
           | SendOk => (Ok s, upd_trace (λ t, t ++ [OLog channel m]) c)
           | SendClosed => (Ok s, c)
           | SendTimeout => (Ok {| s with sub_sender := None |}, c)
           end
       end.

Definition channel_open (t : list Output) (sender : option ChannelId) : bool :=
  match sender with Some channel => negb (client_closed t channel) | None => false end.

Definition send_log_message (subscribers : list LogSubscriber) (m : LogMessage) : CM S (list LogSubscriber) :=
  subscribers ← (fix go l := match l with
                  | [] => mret []
                  | s :: l => s ← send_log_to m s; l ← go l; mret (s :: l)
                  end) subscribers;
  t ← gets trace;
  mret (retain (λ s, channel_open t (sub_sender s)) subscribers).

Definition MAX_TOPIC_DEBUG_PAYLOAD_BYTES : Z := 64 * 1024 * 1024.
Definition MAX_CONSECUTIVE_TOPIC_SEND_TIMEOUTS : Z := 100.

Definition send_frame_to (payload : list Byte.byte) (subscription_id : Uuid)
    (subscribers : gmap Uuid TopicSubscriber) : CM S (gmap Uuid TopicSubscriber) := λ c,
  match subscribers !! subscription_id with
  | None => (Ok subscribers, c)
  | Some s =>
      let put := λ s, <[subscription_id := s]> subscribers in
      match topic_sender s with
      | None => (Ok (put {| s with topic_sender := None |}), c)
      | Some channel =>
          match client_send (trace c) channel with
          | SendOk => (Ok (put {| s with consecutive_timeouts := 0%Z |}),
                       upd_trace (λ t, t ++ [OFrame channel subscription_id payload]) c)
          | SendClosed => (Ok (put {| s with topic_sender := None |}), c)
          | SendTimeout =>
              let timeouts := (consecutive_timeouts s + 1)%Z in
              let sender := if (MAX_CONSECUTIVE_TOPIC_SEND_TIMEOUTS <=? timeouts)%Z
                            then None else topic_sender s in
              (Ok (put {| s with consecutive_timeouts := timeouts; topic_sender := sender |}), c)
          end
      end
  end.

Fixpoint send_frames (payload : list Byte.byte) (ids : list Uuid) (subscribers : gmap Uuid TopicSubscriber)
    : CM S (gmap Uuid TopicSubscriber) :=
  match ids with
  | [] => mret subscribers
  | id :: ids => subscribers ← send_frame_to payload id subscribers; send_frames payload ids subscribers
  end.

Definition send_topic_frames (subscribers : gmap Uuid TopicSubscriber) (ids : list Uuid)
    (payload : list Byte.byte) : CM S (gmap Uuid TopicSubscriber) :=
  if (MAX_TOPIC_DEBUG_PAYLOAD_BYTES <? Z.of_nat (length payload))%Z then mret subscribers
  else
    subscribers ← send_frames payload ids subscribers;
    t ← gets trace;
    mret (filter (λ e, channel_open t (topic_sender e.2) = true) subscribers).

(** The machine is taken from the deployment of the node only; [node_to_daemon] is not used. *)
Definition retrieve_logs (dataflow_id : Uuid) (node_id : NodeId) (tail : option Z) : CM S (list Byte.byte) :=
  archived ← gets archived_dataflows;
  running ← gets running_dataflows;
  nodes ← (match assoc_lookup dataflow_id archived, running !! dataflow_id with
           | Some a, _ => mret (arch_nodes a)
           | None, Some df => mret (df_nodes df)
           | None, None => fail "No dataflow found with UUID"
           end);
  let machine_ids := (λ n, r_deploy n ≫= deploy_machine) <$>
    retain (λ n, bool_decide (r_id n = node_id)) (btree_iter nodes).*2 in
  machine ← (match machine_ids with
             | [machine] => mret machine
             | [] => fail "No machine contains the node"
             | _ => fail "More than one machine contains the node"
             end);
  conns ← gets connections;
  let daemon_ids := match machine with
                    | None => unnamed conns
                    | Some machine => option_list (get_matching_daemon_id conns machine)
                    end in
  daemon_id ← (match daemon_ids with
               | [id] => mret id
               | [] => fail "no matching daemon connections"
               | _ => fail "multiple matching daemon connections"
               end);
  conn ← get_connection daemon_id;
  request conn (Logs dataflow_id node_id tail) expect_logs.

(** *** Destruction *)

(** The daemons are asked concurrently; the first error, in their order, is returned after all
    have answered. *)
Fixpoint destroy_each (conns : list (DaemonId * DaemonConnection)) : CM S (res unit) :=
  match conns with
  | [] => mret (Ok tt)
  | (_, conn) :: conns =>
      r ← catch (request conn Destroy expect_destroy);
      rest ← destroy_each conns;
      mret (match r with Ok _ => rest | e => e end)
  end.

Definition destroy_daemons : CM S unit :=
  conns ← gets connections;
  modify (upd_connections (λ _, ∅));;
  r ← destroy_each (btree_iter conns);
  lift r.

Definition handle_destroy : CM S unit :=
  modify (λ c, {| c with aborted := true |});;
  running ← gets running_dataflows;
  for_each (λ uuid, persist uuid DStopping) (hash_keys running);;
  for_each (λ uuid, stop_dataflow uuid None false) (hash_keys running);;
  destroy_daemons.

(** [restart_dataflow] of lib.rs: stop, start anew, and only then forget the old dataflow. *)
Definition restart_dataflow (uuid : Uuid) (grace_duration : option Duration) (force : bool)
    : CM S ControlRequestReply :=
  df ← get_df uuid "no running dataflow with UUID";
  stop_dataflow uuid grace_duration force;;
  persist uuid DStopping;;
  session_id ← new_uuid;
  new_df ← start_dataflow None session_id (df_descriptor df) None (df_name df) (df_uv df) None;
  modify (upd_running (delete uuid));;
  new_df ← persist_df new_df DPending;
  modify (upd_running <[df_uuid new_df := new_df]>);;
  mret (DataflowRestarted uuid (df_uuid new_df)).

(** ** Topic inspection (lib.rs) *)

Fixpoint group_outputs (df : RunningDataflow) (topics : list (NodeId * DataId))
    (acc : gmap DaemonId (list (NodeId * DataId))) : res (gmap DaemonId (list (NodeId * DataId))) :=
  match topics with
  | [] => Ok acc
  | (node_id, data_id) :: topics =>
      if negb (existsb (λ n, bool_decide (n_id n = node_id) && bool_decide (data_id ∈ n_outputs n))
                 (d_nodes (df_descriptor df)))
      then Err "no such output in dataflow"
      else
        daemon_id ← res_of_option "no daemon mapping found for node" (node_to_daemon df !! node_id);
        group_outputs df topics (<[daemon_id := default [] (acc !! daemon_id) ++ [(node_id, data_id)]]> acc)
  end.

Definition topic_outputs_by_daemon (running : gmap Uuid RunningDataflow) (dataflow_id : Uuid)
    (topics : list (NodeId * DataId)) : res (gmap DaemonId (list (NodeId * DataId))) :=
  df ← res_of_option "no running dataflow with ID" (running !! dataflow_id);
  group_outputs df topics ∅.

Definition topic_debug_enabled (running : gmap Uuid RunningDataflow) (dataflow_id : Uuid) : res bool :=
  df ← res_of_option "no running dataflow with ID" (running !! dataflow_id);
  Ok (d_enable_debug_inspection (df_descriptor df)).

Definition upd_topic_subscribers (f : gmap Uuid TopicSubscriber → gmap Uuid TopicSubscriber)
    (df : RunningDataflow) : RunningDataflow :=
  {| df with topic_subscribers := f (topic_subscribers df) |}.

Definition rollback_topic_debug_stream (dataflow_id subscription_id : Uuid) (started : list DaemonId)
    : CM S unit :=
  running ← gets running_dataflows;
  match running !! dataflow_id ≫= λ df, topic_subscribers df !! subscription_id with
  | None => mret tt
  | Some _ =>
      modify_df dataflow_id (upd_topic_subscribers (delete subscription_id));;
      for_each (λ daemon_id,
        conns ← gets connections;
        match conns !! daemon_id with
        | None => mret tt
        | Some conn =>
            raw ← send_and_receive (conn_channel conn) (StopTopicDebugStream dataflow_id subscription_id);
            _ ← lift (res_of_option "failed to deserialize rollback reply" raw);
            mret tt
        end) started
  end.

(** All connections are looked up before the first request is sent. *)
Fixpoint lookup_connections {A} (l : list (DaemonId * A)) : CM S (list (DaemonId * A * DaemonConnection)) :=
  match l with
  | [] => mret []
  | (daemon_id, a) :: l =>
      conn ← get_connection daemon_id;
      rest ← lookup_connections l;
      mret ((daemon_id, a, conn) :: rest)
  end.

(** The daemons that started the stream, and the first error. *)
Fixpoint start_streams (dataflow_id subscription_id : Uuid)
    (l : list (DaemonId * list (NodeId * DataId) * DaemonConnection))
    : CM S (list DaemonId * option string) :=
  match l with
  | [] => mret ([], None)
  | (daemon_id, outputs, conn) :: l =>
      r ← catch (request conn (StartTopicDebugStream dataflow_id outputs subscription_id) expect_start_topic);
      '(started, err) ← start_streams dataflow_id subscription_id l;
      mret (match r with
            | Ok _ => (daemon_id :: started, err)
            | Err e => (started, Some e)
            | Panic => (started, err)
            end)
  end.

Definition start_topic_debug_stream (dataflow_id : Uuid) (topics : list (NodeId * DataId))
    (sender : ChannelId) : CM S Uuid :=
  running ← gets running_dataflows;
  outputs ← lift (topic_outputs_by_daemon running dataflow_id topics);
  enabled ← lift (topic_debug_enabled running dataflow_id);
  if negb enabled then fail "topic inspection requires enable_debug_inspection" else
  subscription_id ← new_uuid;
  modify_df dataflow_id (upd_topic_subscribers <[subscription_id := mkTopicSubscriber outputs (Some sender) 0]>);;
  requests ← lookup_connections (btree_iter outputs);
  '(started, first_error) ← start_streams dataflow_id subscription_id requests;
  match first_error with
  | Some err => rollback_topic_debug_stream dataflow_id subscription_id started;; fail err
  | None => mret subscription_id
  end.

Fixpoint stop_streams (dataflow_id subscription_id : Uuid) (l : list DaemonId) : CM S (option string) :=
  match l with
  | [] => mret None
  | daemon_id :: l =>
      conns ← gets connections;
      match conns !! daemon_id with
      | None => stop_streams dataflow_id subscription_id l
      | Some conn =>
          r ← catch (request conn (StopTopicDebugStream dataflow_id subscription_id) expect_stop_topic);
          err ← stop_streams dataflow_id subscription_id l;
          mret (match r with Err e => Some e | _ => err end)
      end
  end.

Definition stop_topic_debug_stream (subscription_id : Uuid) : CM S unit :=
  running ← gets running_dataflows;
  match head (omap (λ e : Uuid * RunningDataflow, (λ s, (e.1, s)) <$> topic_subscribers e.2 !! subscription_id)
                (hash_iter running)) with
  | None => mret tt
  | Some (dataflow_id, s) =>
      modify_df dataflow_id (upd_topic_subscribers (delete subscription_id));;
      err ← stop_streams dataflow_id subscription_id (btree_keys (topic_outputs s));
      match err with Some e => fail e | None => mret tt end
  end.

(** Any error is only logged. *)
Definition restore_topic_debug_streams_for_daemon (daemon_id : DaemonId) (reported : gset Uuid) : CM S unit :=
  conns ← gets connections;
  running ← gets running_dataflows;
  match conns !! daemon_id with
  | None => mret tt
  | Some conn =>
      for_each (λ e : Uuid * RunningDataflow,
        if negb (bool_decide (e.1 ∈ reported)) then mret tt
        else for_each (λ s : Uuid * TopicSubscriber,
               match topic_outputs s.2 !! daemon_id with
               | None => mret tt
               | Some outputs =>
                   catch (send_and_receive (conn_channel conn) (StartTopicDebugStream e.1 outputs s.1));;
                   mret tt
               end) (btree_iter (topic_subscribers e.2)))
        (hash_iter running)
  end.

(** ** Parameters *)

Inductive ParamTarget := TargetRunning (daemon_id : DaemonId) | TargetPersistedOnly.

Definition resolve_param_target (dataflow_id : Uuid) (node_id : NodeId) : CM S ParamTarget :=
  running ← gets running_dataflows;
  match running !! dataflow_id with
  | Some df =>
      daemon_id ← lift (res_of_option "node not found in dataflow" (node_to_daemon df !! node_id));
      mret (TargetRunning daemon_id)
  | None =>
      record ← with_store (get_dataflow dataflow_id);
      record ← lift (res_of_option "cannot operate params on unknown dataflow" record);
      descriptor ← lift (descriptor_from_json (record_descriptor_json record));
      if existsb (λ n, bool_decide (n_id n = node_id)) (d_nodes descriptor)
      then mret TargetPersistedOnly else fail "node not found in dataflow"
  end.

Definition get_params (dataflow_id : Uuid) (node_id : NodeId) : CM S ControlRequestReply :=
  resolve_param_target dataflow_id node_id;;
  params ← with_store (list_node_params dataflow_id node_id);
  mret (ParamList (omap (λ e : string * list Byte.byte, (λ v, (e.1, v)) <$> value_from_slice e.2) params)).

Definition get_param (dataflow_id : Uuid) (node_id : NodeId) (key : string) : CM S ControlRequestReply :=
  resolve_param_target dataflow_id node_id;;
  bytes ← with_store (get_node_param dataflow_id node_id key);
  bytes ← lift (res_of_option "param not found" bytes);
  value ← lift (res_of_option "corrupt param value" (value_from_slice bytes));
  mret (ParamValue key value).

(** The change is persisted, logged for catch-up and then forwarded; a failure to forward is
    reported but does not undo the change. *)
Definition forward_param (dataflow_id : Uuid) (target : ParamTarget) (operation : StateCatchUpOperation)
    (event : DaemonCoordinatorEvent) (expect : DaemonCoordinatorReply → option (res unit)) : CM S unit :=
  match target with
  | TargetPersistedOnly => mret tt
  | TargetRunning daemon_id =>
      get_df dataflow_id "running dataflow disappeared";;
      modify_df dataflow_id (λ df, append_state_log df operation);;
      conn ← get_connection daemon_id;
      request conn event expect
  end.

Definition set_param (dataflow_id : Uuid) (node_id : NodeId) (key value : string) : CM S ControlRequestReply :=
  target ← resolve_param_target dataflow_id node_id;
  with_store (put_node_param dataflow_id node_id key (value_to_vec value));;
  forward_param dataflow_id target (CatchUpSetParam node_id key value)
    (SetParam dataflow_id node_id key value) ensure_set_param_forward_applied;;
  mret ParamSet.

Definition delete_param (dataflow_id : Uuid) (node_id : NodeId) (key : string) : CM S ControlRequestReply :=
  target ← resolve_param_target dataflow_id node_id;
  with_store (delete_node_param dataflow_id node_id key);;
  forward_param dataflow_id target (CatchUpDeleteParam node_id key)
    (DeleteParam dataflow_id node_id key) ensure_delete_param_forward_applied;;
  mret ParamDeleted.

(** *** Replay of persisted parameters *)

Fixpoint collect_param_replay_items (dataflow_id : Uuid) (node_ids : list NodeId)
    : CM S (list (NodeId * string * list Byte.byte)) :=
  match node_ids with
  | [] => mret []
  | node_id :: node_ids =>
      params ← catch (with_store (list_node_params dataflow_id node_id));
      rest ← collect_param_replay_items dataflow_id node_ids;
      mret (match params with
            | Ok params => ((λ e : string * list Byte.byte, (node_id, e.1, e.2)) <$> params) ++ rest
            | _ => rest
            end)
  end.

Definition replay_item (dataflow_id : Uuid) (channel : ChannelId) (item : NodeId * string * list Byte.byte)
    : CM S unit :=
  let '(node_id, key, bytes) := item in
  value ← lift (res_of_option "invalid persisted param JSON" (value_from_slice bytes));
  raw ← send_and_receive channel (SetParam dataflow_id node_id key value);
  reply ← lift (res_of_option "failed to deserialize reply" raw);
  result ← lift (res_of_option "unexpected reply" (ensure_set_param_forward_applied reply));
  lift result.

(** The number of items attempted and failed. *)
Fixpoint replay_items (dataflow_id : Uuid) (channel : ChannelId) (items : list (NodeId * string * list Byte.byte))
    : CM S (nat * nat) :=
  match items with
  | [] => mret (0, 0)
  | item :: items =>
      r ← catch (replay_item dataflow_id channel item);
      '(attempted, failed) ← replay_items dataflow_id channel items;
      mret (Datatypes.S attempted, match r with Ok _ => failed | _ => Datatypes.S failed end)
  end.

Definition replay_persisted_params_for_daemon (dataflow_id : Uuid) (node_ids : list NodeId)
    (channel : ChannelId) : CM S (nat * nat) :=
  items ← collect_param_replay_items dataflow_id node_ids;
  replay_items dataflow_id channel items.

Definition nodes_on_daemon (df : RunningDataflow) (daemon_id : DaemonId) : list NodeId :=
  (retain (λ e, bool_decide (e.2 = daemon_id)) (btree_iter (node_to_daemon df))).*1.

Definition schedule_param_replay_for_ready_dataflow (dataflow_id : Uuid) (df : RunningDataflow) : CM S unit :=
  for_each (λ daemon_id,
    conns ← gets connections;
    match conns !! daemon_id with
    | None => mret tt
    | Some conn =>
        modify (upd_tasks (λ l, l ++ [mkReplayTask dataflow_id daemon_id (nodes_on_daemon df daemon_id)
                                        (conn_channel conn)]))
    end) (btree_elems (daemons df)).

Definition FALLBACK_REPLAY_BACKOFF : Duration := secs 5.

Definition handle_pruned_state_catchup_fallback (dataflow_id : Uuid) (daemon_id : DaemonId) : CM S unit :=
  df ← get_df dataflow_id "no running dataflow";
  now ← gets now;
  conns ← gets connections;
  if match last_replay_attempt df !! daemon_id with
     | Some last => (now - last <? FALLBACK_REPLAY_BACKOFF)%Z
     | None => false
     end then mret tt
  else match conns !! daemon_id with
       | None => mret tt
       | Some conn =>
           modify_df dataflow_id (λ df,
             {| df with last_replay_attempt := <[daemon_id := now]> (last_replay_attempt df) |});;
           '(attempted, failed) ←
             replay_persisted_params_for_daemon dataflow_id (nodes_on_daemon df daemon_id) (conn_channel conn);
           if bool_decide (failed = 0) then
             modify_df dataflow_id (mark_replayed daemon_id)
           else mret tt
       end.

(** ** Dynamic topology *)

(** The node is resolved on its own and put on the first daemon of the dataflow; the reply of
    the daemon is not inspected. *)
Definition add_node (dataflow_id : Uuid) (node : Node) : CM S ControlRequestReply :=
  df ← get_df dataflow_id "no running dataflow";
  if bool_decide (is_Some (node_to_daemon df !! n_id node)) then fail "node already exists in dataflow" else
  resolved ← lift (resolve_aliases_and_set_defaults ros2_json (mkDescriptor [node] None false None None [] None));
  '(node_id, resolved) ← lift (res_of_option "node descriptor resolved to empty map" (head (btree_iter resolved)));
  daemon_id ← lift (res_of_option "no daemons registered for dataflow" (head (btree_elems (daemons df))));
  conn ← get_connection daemon_id;
  send_and_receive (conn_channel conn) (AddNode dataflow_id resolved (df_uv df));;
  modify_df dataflow_id (λ df,
    {| df with node_to_daemon := <[node_id := daemon_id]> (node_to_daemon df);
               df_descriptor := (let d := df_descriptor df in {| d with d_nodes := d_nodes d ++ [node] |});
               df_nodes := <[node_id := resolved]> (df_nodes df) |});;
  mret (NodeAdded dataflow_id node_id).

Definition remove_node (dataflow_id : Uuid) (node_id : NodeId) (grace_duration : option Duration)
    : CM S ControlRequestReply :=
  df ← get_df dataflow_id "no running dataflow";
  daemon_id ← lift (res_of_option "node not found in dataflow" (node_to_daemon df !! node_id));
  conn ← get_connection daemon_id;
  send_and_receive (conn_channel conn) (RemoveNode dataflow_id node_id grace_duration);;
  modify_df dataflow_id (λ df,
    {| df with node_to_daemon := delete node_id (node_to_daemon df);
               df_descriptor := (let d := df_descriptor df in
                 {| d with d_nodes := retain (λ n, negb (bool_decide (n_id n = node_id))) (d_nodes d) |});
               df_nodes := delete node_id (df_nodes df) |});;
  mret (NodeRemoved dataflow_id node_id).

Definition change_mapping (dataflow_id : Uuid) (target_node : NodeId) (event : DaemonCoordinatorEvent)
    (reply : ControlRequestReply) : CM S ControlRequestReply :=
  df ← get_df dataflow_id "no running dataflow";
  daemon_id ← lift (res_of_option "target node not found in dataflow" (node_to_daemon df !! target_node));
  conn ← get_connection daemon_id;
  send_and_receive (conn_channel conn) event;;
  mret reply.

(** ** Requests of clients *)

Definition name_taken (name : string) (running : gmap Uuid RunningDataflow) : bool :=
  existsb (λ df, bool_decide (df_name df = Some name)) (hash_values running).

Definition draw_name (name : option string) : CM S (option string) :=
  match name with
  | Some name => mret (Some name)
  | None => λ c, (Ok (petname (drawn c)), {| c with drawn := Datatypes.S (drawn c) |})
  end.

Definition start_request (build_id : option Uuid) (session_id : Uuid) (dataflow : Descriptor)
    (name : option string) (local_working_dir : option string) (uv : bool)
    (write_events_to : option string) : CM S ControlRequestReply :=
  name ← draw_name name;
  running ← gets running_dataflows;
  if from_option (λ name, name_taken name running) false name
  then fail "there is already a running dataflow with name" else
  df ← start_dataflow build_id session_id dataflow local_working_dir name uv write_events_to;
  df ← persist_df df DPending;
  modify (upd_running <[df_uuid df := df]>);;
  mret (DataflowStartTriggered (df_uuid df)).

(** [Stop] and [StopByName]: a dataflow with any result is taken to be stopped. *)
Definition stop_request (reply_sender : RequestId) (uuid : Uuid) (grace_duration : option Duration)
    (force : bool) : CM S unit :=
  results ← gets dataflow_results;
  if bool_decide (is_Some (results !! uuid)) then send_reply reply_sender (Ok (stopped_reply results uuid))
  else
    r ← catch (stop_dataflow uuid grace_duration force);
    match r with
    | Ok _ =>
        persist uuid DStopping;;
        modify_df uuid (λ df, {| df with stop_reply_senders := stop_reply_senders df ++ [reply_sender] |})
    | Err e => send_reply reply_sender (Err e)
    | Panic => lift Panic
    end.

Definition wait_for_build (reply_sender : RequestId) (build_id : Uuid) : CM S unit :=
  builds ← gets running_builds;
  finished ← gets finished_builds;
  match builds !! build_id, assoc_lookup build_id finished with
  | Some build, _ =>
      let '(result, replies) := register (build_result build) reply_sender in
      modify_build build_id (λ b, {| b with build_result := result |});;
      send_replies replies
  | None, Some result =>
      let '(result, replies) := register result reply_sender in
      modify (upd_finished (fmap (λ e, if bool_decide (e.1 = build_id) then (e.1, result) else e)));;
      send_replies replies
  | None, None => send_reply reply_sender (Err "unknown build id")
  end.

Definition wait_for_spawn (reply_sender : RequestId) (dataflow_id : Uuid) : CM S unit :=
  running ← gets running_dataflows;
  match running !! dataflow_id with
  | Some df =>
      let '(result, replies) := register (spawn_result df) reply_sender in
      modify_df dataflow_id (λ df, {| df with spawn_result := result |});;
      send_replies replies
  | None => send_reply reply_sender (Err "unknown dataflow")
  end.

Definition build_request (session_id : Uuid) (dataflow : Descriptor)
    (git_sources prev_git_sources : gmap NodeId GitSource) (local_working_dir : option string) (uv : bool)
    : CM S ControlRequestReply :=
  build_id ← new_uuid;
  build ← build_dataflow build_id session_id dataflow git_sources prev_git_sources local_working_dir uv;
  modify (upd_builds <[build_id := build]>);;
  mret (DataflowBuildTriggered build_id).

(** The order of [Option<String>] and then of the UUID. *)
Definition list_key (df : RunningDataflow) : option string * Uuid := (df_name df, df_uuid df).
Definition insert_sorted (df : RunningDataflow) : list RunningDataflow → list RunningDataflow :=
  fix go l := match l with
              | [] => [df]
              | x :: l => if key_leb (list_key df) (list_key x) then df :: x :: l else x :: go l
              end.

Definition result_ok (r : NodeResult) : bool := match r with inl _ => true | inr _ => false end.
Definition daemon_result_ok (r : gmap NodeId NodeResult) : bool :=
  forallb result_ok (btree_iter r).*2.

Definition list_dataflows_reply (c : Coord S) : ControlRequestReply :=
  let running := foldr insert_sorted [] (hash_values (running_dataflows c)) in
  DataflowList (
    ((λ df, mkListEntry (df_uuid df) (df_name df) ListedRunning) <$> running) ++
    ((λ e : Uuid * gmap DaemonId (gmap NodeId NodeResult),
        mkListEntry e.1 (assoc_lookup e.1 (archived_dataflows c) ≫= arch_name)
          (if forallb daemon_result_ok (btree_iter e.2).*2 then ListedFinished else ListedFailed)) <$>
     hash_iter (dataflow_results c))).

Definition node_infos (c : Coord S) : list NodeInfo :=
  hash_values (running_dataflows c) ≫= λ df,
    btree_keys (df_nodes df) ≫= λ node_id,
      match node_to_daemon df !! node_id with
      | Some daemon_id => [mkNodeInfo (df_uuid df) (df_name df) node_id daemon_id
                             (node_metrics df !! node_id) (network_metrics df)]
      | None => []
      end.

Definition connected_daemons (c : Coord S) : list (DaemonId * Z * option FaultToleranceSnapshot) :=
  (λ e : DaemonId * DaemonConnection,
     (e.1, ((now c - conn_last_heartbeat e.2) / 1000000)%Z, conn_ft_stats e.2)) <$> btree_iter (connections c).

Definition handle_request (request : ControlRequest) (to : RequestId) : CM S unit :=
  match request with
  | RBuild session_id dataflow git_sources prev_git_sources local_working_dir uv =>
      answer to (build_request session_id dataflow git_sources prev_git_sources local_working_dir uv)
  | RWaitForBuild build_id => wait_for_build to build_id
  | RStart build_id session_id dataflow name local_working_dir uv write_events_to =>
      answer to (start_request build_id session_id dataflow name local_working_dir uv write_events_to)
  | RWaitForSpawn dataflow_id => wait_for_spawn to dataflow_id
  | RCheck uuid =>
      running ← gets running_dataflows;
      results ← gets dataflow_results;
      send_reply to (Ok (match running !! uuid with
                         | Some _ => DataflowSpawned uuid
                         | None => stopped_reply results uuid
                         end))
  | RReload dataflow_id node_id operator_id =>
      answer to (reload_dataflow dataflow_id node_id operator_id;; mret (DataflowReloaded dataflow_id))
  | RRestartNode dataflow_id node_id grace_duration =>
      answer to (restart_node dataflow_id node_id grace_duration;; mret (NodeRestarted dataflow_id node_id))
  | RStopNode dataflow_id node_id grace_duration =>
      answer to (stop_node dataflow_id node_id grace_duration;; mret (NodeStopped dataflow_id node_id))
  | RStop uuid grace_duration force => stop_request to uuid grace_duration force
  | RStopByName name grace_duration force =>
      running ← gets running_dataflows;
      archived ← gets archived_dataflows;
      match resolve_name name running archived with
      | Ok uuid => stop_request to uuid grace_duration force
      | Err e => send_reply to (Err e)
      | Panic => lift Panic
      end
  | RRestart uuid grace_duration force => answer to (restart_dataflow uuid grace_duration force)
  | RRestartByName name grace_duration force =>
      answer to (running ← gets running_dataflows;
                 archived ← gets archived_dataflows;
                 uuid ← lift (resolve_name name running archived);
                 restart_dataflow uuid grace_duration force)
  | RLogs uuid name node tail =>
      answer to (running ← gets running_dataflows;
                 archived ← gets archived_dataflows;
                 uuid ← lift (match uuid, name with
                              | Some uuid, _ => Ok uuid
                              | None, Some name => resolve_name name running archived
                              | None, None => Err "No uuid"
                              end);
                 _ ← lift (node_id_from node);
                 bytes ← retrieve_logs uuid node tail;
                 mret (LogsReply bytes))
  | RInfo uuid =>
      answer to (df ← get_df uuid "No running dataflow with uuid";
                 mret (DataflowInfo (df_uuid df) (df_name df) (df_descriptor df)))
  | RDestroy => answer to (handle_destroy;; mret DestroyOk)
  | RList => reply ← gets list_dataflows_reply; send_reply to (Ok reply)
  | RDaemonConnected =>
      conns ← gets connections; send_reply to (Ok (DaemonConnected (negb (bool_decide (conns = ∅)))))
  | RConnectedMachines =>
      l ← gets connected_daemons; send_reply to (Ok (ConnectedDaemons l))
  | RCliAndDefaultDaemonOnSameMachine =>
      conns ← gets connections;
      send_reply to (Ok (CliAndDefaultDaemonIps (bool_decide (is_Some (head (unnamed conns))))))
  | RGetNodeInfo => l ← gets node_infos; send_reply to (Ok (NodeInfoList l))
  | RGetParams dataflow_id node_id => answer to (get_params dataflow_id node_id)
  | RGetParam dataflow_id node_id key => answer to (get_param dataflow_id node_id key)
  | RSetParam dataflow_id node_id key value => answer to (set_param dataflow_id node_id key value)
  | RDeleteParam dataflow_id node_id key => answer to (delete_param dataflow_id node_id key)
  | RAddNode dataflow_id node => answer to (add_node dataflow_id node)
  | RRemoveNode dataflow_id node_id grace_duration => answer to (remove_node dataflow_id node_id grace_duration)
  | RAddMapping dataflow_id source_node source_output target_node target_input =>
      answer to (change_mapping dataflow_id target_node
                   (AddMapping dataflow_id source_node source_output target_node target_input)
                   (MappingAdded dataflow_id source_node source_output target_node target_input))
  | RRemoveMapping dataflow_id source_node source_output target_node target_input =>
      answer to (change_mapping dataflow_id target_node
                   (RemoveMapping dataflow_id source_node source_output target_node target_input)
                   (MappingRemoved dataflow_id source_node source_output target_node target_input))
  | RHandledSeparately => send_reply to (Err "request should be handled separately")
  end.

(** ** Other events of clients *)

Fixpoint flush_logs (buffered : list LogMessage) (subscribers : list LogSubscriber)
    : CM S (list LogSubscriber) :=
  match buffered with
  | [] => mret subscribers
  | m :: buffered => subscribers ← send_log_message subscribers m; flush_logs buffered subscribers
  end.

Definition subscribe_logs (dataflow_id : Uuid) (level : option LogLevel) (sender : ChannelId)
    (found_tx : RequestId) : CM S unit :=
  running ← gets running_dataflows;
  match running !! dataflow_id with
  | Some df =>
      subscribers ← flush_logs (buffered_log_messages df)
                      (log_subscribers df ++ [mkLogSubscriber level (Some sender)]);
      modify_df dataflow_id (λ df, {| df with log_subscribers := subscribers; buffered_log_messages := [] |});;
      emit (OFound found_tx true)
  | None => emit (OFound found_tx false)
  end.

Definition subscribe_build_logs (build_id : Uuid) (level : option LogLevel) (sender : ChannelId)
    (found_tx : RequestId) : CM S unit :=
  builds ← gets running_builds;
  match builds !! build_id with
  | Some build =>
      subscribers ← flush_logs (build_buffered_log_messages build)
                      (build_log_subscribers build ++ [mkLogSubscriber level (Some sender)]);
      modify_build build_id (λ b,
        {| b with build_log_subscribers := subscribers; build_buffered_log_messages := [] |});;
      emit (OFound found_tx true)
  | None => emit (OFound found_tx false)
  end.

Definition handle_control (event : ControlEvent) : CM S unit :=
  match event with
  | IncomingRequest request reply_sender => handle_request request reply_sender
  | ControlError _ => mret tt
  | LogSubscribe dataflow_id level sender found_tx => subscribe_logs dataflow_id level sender found_tx
  | BuildLogSubscribe build_id level sender found_tx => subscribe_build_logs build_id level sender found_tx
  | TopicSubscribe dataflow_id topics sender done_tx =>
      r ← catch (start_topic_debug_stream dataflow_id topics sender); emit (OSubscribed done_tx r)
  | TopicCheck dataflow_id topics found_tx =>
      running ← gets running_dataflows;
      let found := is_ok (topic_outputs_by_daemon running dataflow_id topics) &&
                   match topic_debug_enabled running dataflow_id with Ok b => b | _ => false end in
      emit (OFound found_tx found)
  | TopicUnsubscribe subscription_id done_tx =>
      catch (stop_topic_debug_stream subscription_id);; emit (ODone done_tx)
  end.

(** ** Events of daemons *)

Definition handle_register (version_check_result : res unit) (machine : option string)
    (labels : gmap string string) (channel : ChannelId) (daemon_id_tx : RequestId) : CM S unit :=
  conns ← gets connections;
  let existing := match machine with
                  | Some id => get_matching_daemon_id conns id
                  | None => head (unnamed conns)
                  end in
  daemon_id ← (match existing with
               | Some id => mret id
               | None => uuid ← new_uuid; mret (mkDaemonId machine uuid)
               end);
  let reply := match version_check_result with Ok _ => Ok daemon_id | Err e => Err e | Panic => Panic end in
  sent ← catch (send channel (ToRegister reply));
  now ← gets now;
  match version_check_result, sent with
  | Ok _, Ok _ =>
      emit (ODaemonId daemon_id_tx daemon_id);;
      modify (upd_connections <[daemon_id := mkConnection channel now labels None]>);;
      catch (with_store (register_daemon (mkDaemonInfo daemon_id (machine_id daemon_id) labels)));;
      mret tt
  | _, _ => mret tt
  end.

(** A failure to send [AllNodesReady] to a connected daemon ends the event loop. *)
Definition handle_ready (uuid : Uuid) (daemon_id : DaemonId) (exited : list NodeId) : CM S unit :=
  running ← gets running_dataflows;
  match running !! uuid with
  | None => mret tt
  | Some df =>
      let df := {| df with pending_daemons := pending_daemons df ∖ {[daemon_id]};
                           exited_before_subscribe := exited_before_subscribe df ++ exited |} in
      modify (upd_running <[uuid := df]>);;
      if negb (bool_decide (pending_daemons df = ∅)) then mret tt
      else
        for_each (λ id,
          conns ← gets connections;
          match conns !! id with
          | None => mret tt
          | Some conn => send (conn_channel conn) (ToEvent (AllNodesReady uuid (exited_before_subscribe df)))
          end) (btree_elems (daemons df));;
        schedule_param_replay_for_ready_dataflow uuid df
  end.

(** The errors of the nodes, by daemon and node: [format!("{node_id}: {e}")]. *)
Definition node_errors (results : gmap DaemonId (gmap NodeId NodeResult)) : list string :=
  (btree_iter results).*2 ≫= λ r, btree_iter r ≫= λ '(node_id, result),
    match result with
    | inr e => [String.append node_id (String.append ": " (display_node_error e))]
    | inl _ => []
    end.

Definition final_status (results : gmap DaemonId (gmap NodeId NodeResult)) : DataflowStatus :=
  match node_errors results with
  | [] => DSucceeded
  | errors => DFailed (String.concat "; " errors)
  end.

Definition MAX_ARCHIVED_DATAFLOWS : nat := 200.
Definition MAX_FINISHED_BUILDS : nat := 100.

(** [entry(k).or_insert(v)] of an [IndexMap], and [while len > max { shift_remove_index(0) }]. *)
Definition assoc_or_insert {V} (k : Uuid) (v : V) (l : list (Uuid * V)) : list (Uuid * V) :=
  match assoc_lookup k l with Some _ => l | None => l ++ [(k, v)] end.
Definition assoc_insert {V} (k : Uuid) (v : V) (l : list (Uuid * V)) : list (Uuid * V) :=
  match assoc_lookup k l with
  | Some _ => (λ e, if bool_decide (e.1 = k) then (e.1, v) else e) <$> l
  | None => l ++ [(k, v)]
  end.
Definition evict {V} (max : nat) (l : list (Uuid * V)) : list (Uuid * V) := drop (length l - max) l.

Definition close_topic_subscribers_on_finish (df : RunningDataflow) : RunningDataflow :=
  upd_topic_subscribers (fmap (λ s, {| s with topic_sender := None |})) df.

(** The last daemon of a dataflow has finished. *)
Definition finish_dataflow (uuid : Uuid) (df : RunningDataflow) : CM S unit :=
  modify (upd_archived (λ l, evict MAX_ARCHIVED_DATAFLOWS (assoc_or_insert uuid (archive df) l)));;
  modify (upd_running (delete uuid));;
  let df := close_topic_subscribers_on_finish df in
  _ ← send_log_message (log_subscribers df)
        (mkLog None (Some (df_uuid df)) (LLevel LInfo) "dataflow finished");
  all_results ← gets dataflow_results;
  let results := default ∅ (all_results !! uuid) in
  df ← persist_df df (final_status results);
  for_each (λ sender, send_reply sender (Ok (stopped_reply all_results uuid))) (stop_reply_senders df);;
  let msg := match node_errors results with
             | [] => "dataflow exited before spawn completed"%string
             | errors => String.append "dataflow failed to start:" (String.concat "," errors)
             end in
  send_replies (set_result (spawn_result df) (Err msg)).2.

Definition handle_finished (uuid : Uuid) (daemon_id : DaemonId) (result : gmap NodeId NodeResult) : CM S unit :=
  running ← gets running_dataflows;
  match running !! uuid with
  | None => mret tt
  | Some df =>
      let df := {| df with daemons := daemons df ∖ {[daemon_id]} |} in
      modify (upd_running <[uuid := df]>);;
      modify (upd_results (λ m, <[uuid := <[daemon_id := result]> (default ∅ (m !! uuid))]> m));;
      if bool_decide (daemons df = ∅) then finish_dataflow uuid df else mret tt
  end.

Definition MAX_BUFFERED_LOG_MESSAGES : nat := Z.to_nat 10000.
Definition buffer_log (l : list LogMessage) (m : LogMessage) : list LogMessage :=
  if (length l <? MAX_BUFFERED_LOG_MESSAGES)%nat then l ++ [m] else l.

Definition handle_log (m : LogMessage) : CM S unit :=
  running ← gets running_dataflows;
  builds ← gets running_builds;
  match log_dataflow_id m, log_build_id m with
  | Some dataflow_id, _ =>
      match running !! dataflow_id with
      | None => mret tt
      | Some df =>
          if bool_decide (log_subscribers df = []) then
            modify_df dataflow_id (λ df, {| df with buffered_log_messages := buffer_log (buffered_log_messages df) m |})
          else
            subscribers ← send_log_message (log_subscribers df) m;
            modify_df dataflow_id (λ df, {| df with log_subscribers := subscribers |})
      end
  | None, Some build_id =>
      match builds !! build_id with
      | None => mret tt
      | Some build =>
          if bool_decide (build_log_subscribers build = []) then
            modify_build build_id (λ b,
              {| b with build_buffered_log_messages := buffer_log (build_buffered_log_messages b) m |})
          else
            subscribers ← send_log_message (build_log_subscribers build) m;
            modify_build build_id (λ b, {| b with build_log_subscribers := subscribers |})
      end
  | None, None => mret tt
  end.

Definition handle_heartbeat (daemon_id : DaemonId) (ft_stats : option FaultToleranceSnapshot) : CM S unit :=
  now ← gets now;
  modify (upd_connections (alter (λ conn,
    {| conn with conn_last_heartbeat := now;
                 conn_ft_stats := match ft_stats with Some s => Some s | None => conn_ft_stats conn end |})
    daemon_id)).

Definition handle_daemon_exit (daemon_id : DaemonId) : CM S unit :=
  modify (upd_connections (delete daemon_id));;
  catch (with_store (unregister_daemon daemon_id));;
  mret tt.

Definition handle_node_metrics (dataflow_id : Uuid) (metrics : gmap NodeId NodeMetrics)
    (network : option NetworkMetrics) : CM S unit :=
  modify_df dataflow_id (λ df,
    {| df with node_metrics := metrics ∪ node_metrics df;
               network_metrics := match network with Some n => Some n | None => network_metrics df end |}).

Definition handle_topic_data (dataflow_id : Uuid) (subscription_ids : list Uuid) (payload : list Byte.byte)
    : CM S unit :=
  running ← gets running_dataflows;
  match running !! dataflow_id with
  | None => mret tt
  | Some df =>
      subscribers ← send_topic_frames (topic_subscribers df) subscription_ids payload;
      modify_df dataflow_id (upd_topic_subscribers (λ _, subscribers))
  end.

Definition handle_build_result (build_id : Uuid) (daemon_id : DaemonId) (result : res unit) : CM S unit :=
  builds ← gets running_builds;
  match builds !! build_id with
  | None => mret tt
  | Some build =>
      let build :=
        {| build with pending_build_results := pending_build_results build ∖ {[daemon_id]};
                      rb_errors := rb_errors build ++ match result with Err e => [e] | _ => [] end |} in
      modify (upd_builds <[build_id := build]>);;
      if negb (bool_decide (pending_build_results build = ∅)) then mret tt
      else
        modify (upd_builds (delete build_id));;
        let outcome := match rb_errors build with
                       | [] => Ok tt
                       | errors => Err (String.append "build failed: " (String.concat "; " errors))
                       end in
        let '(cached, replies) := set_result (build_result build) (Ok (DataflowBuildFinished build_id outcome)) in
        send_replies replies;;
        modify (upd_finished (λ l, evict MAX_FINISHED_BUILDS (assoc_insert build_id cached l)))
  end.

Definition handle_spawn_result (dataflow_id : Uuid) (daemon_id : DaemonId) (result : res unit) : CM S unit :=
  running ← gets running_dataflows;
  match running !! dataflow_id with
  | None => mret tt
  | Some df =>
      let df := {| df with pending_spawn_results := pending_spawn_results df ∖ {[daemon_id]} |} in
      modify (upd_running <[dataflow_id := df]>);;
      match result with
      | Ok _ =>
          if negb (bool_decide (pending_spawn_results df = ∅)) then mret tt
          else
            let '(cached, replies) := set_result (spawn_result df) (Ok (DataflowSpawned dataflow_id)) in
            modify_df dataflow_id (λ df, {| df with spawn_result := cached |});;
            send_replies replies;;
            persist dataflow_id DRunning
      | Err err =>
          persist dataflow_id (DFailed (String.append "spawn failed: " err));;
          let '(cached, replies) := set_result (spawn_result df) (Err err) in
          modify_df dataflow_id (λ df, {| df with spawn_result := cached |});;
          send_replies replies
      | Panic => lift Panic
      end
  end.

(** *** The watchdog *)

(** The daemons without a heartbeat for thirty seconds, or to which none can be sent. *)
Fixpoint check_daemons (l : list (DaemonId * DaemonConnection)) : CM S (gset DaemonId) :=
  match l with
  | [] => mret ∅
  | (id, conn) :: l =>
      now ← gets now;
      if (secs 30 <? now - conn_last_heartbeat conn)%Z then
        rest ← check_daemons l; mret ({[id]} ∪ rest)
      else
        r ← catch (send (conn_channel conn) (ToEvent Heartbeat));
        rest ← check_daemons l;
        mret (match r with Ok _ => rest | _ => {[id]} ∪ rest end)
  end.

Definition disconnect_daemons (gone : gset DaemonId) : CM S unit :=
  for_each (λ id, modify (upd_connections (delete id));;
                  catch (with_store (unregister_daemon id));; mret tt) (btree_elems gone);;
  modify (upd_running (fmap (forget_daemons gone)));;
  for_each (λ gone_id,
    conns ← gets connections;
    for_each (λ e : DaemonId * DaemonConnection,
      catch (send (conn_channel e.2) (ToEvent (PeerDaemonDisconnected gone_id)));; mret tt)
      (btree_iter conns)) (btree_elems gone).

Definition RECOVERY_TIMEOUT_SECS : Z := 60.

Definition recovery_expired (now_ms : Z) (record : DataflowRecord) : bool :=
  bool_decide (record_status record = DRecovering) &&
  (RECOVERY_TIMEOUT_SECS * 1000 <? saturating_sub now_ms (record_updated_at record))%Z.

Definition fail_recovery (now_ms : Z) (record : DataflowRecord) : DataflowRecord :=
  {| record with record_status := DFailed "recovery timeout: no daemon reconnected";
                 record_generation := (record_generation record + 1)%Z;
                 record_updated_at := now_ms |}.

Definition expire_recoveries : CM S unit :=
  now_ms ← gets now_millis;
  records ← catch (with_store list_dataflows);
  match records with
  | Ok records =>
      for_each (λ record,
        if recovery_expired now_ms record
        then catch (with_store (put_dataflow (fail_recovery now_ms record)));; mret tt
        else mret tt) records
  | _ => mret tt
  end.

Definition handle_heartbeat_interval : CM S unit :=
  conns ← gets connections;
  gone ← check_daemons (btree_iter conns);
  (if bool_decide (gone = ∅) then mret tt else disconnect_daemons gone);;
  expire_recoveries.

(** *** Status reports of daemons *)

Definition reconcile (uuid : Uuid) : CM S unit :=
  now_ms ← gets now_millis;
  record ← catch (with_store (get_dataflow uuid));
  match record with
  | Ok (Some record) =>
      match record_status record with
      | DFailed _ | DPending | DRecovering =>
          catch (with_store (put_dataflow
            {| record with record_status := DRunning;
                           record_generation := (record_generation record + 1)%Z;
                           record_updated_at := now_ms |}));; mret tt
      | _ => mret tt
      end
  | _ => mret tt
  end.

Definition RECOVERY_BACKOFF : Duration := secs 30.

Definition recover_dataflow (daemon_id : DaemonId) (reported : gset Uuid) (uuid : Uuid) : CM S unit :=
  df ← get_df uuid "no running dataflow";
  now ← gets now;
  conns ← gets connections;
  if negb (bool_decide (daemon_id ∈ daemons df)) then mret tt
  else if bool_decide (uuid ∈ reported) then
    modify_df uuid (λ df, {| df with last_recovery_attempt := delete daemon_id (last_recovery_attempt df) |})
  else if match last_recovery_attempt df !! daemon_id with
          | Some last => (now - last <? RECOVERY_BACKOFF)%Z
          | None => false
          end then mret tt
  else
    let nodes := nodes_on_daemon df daemon_id in
    if bool_decide (nodes = []) then mret tt
    else
      modify_df uuid (λ df, {| df with last_recovery_attempt := <[daemon_id := now]> (last_recovery_attempt df) |});;
      session_id ← new_uuid;
      match conns !! daemon_id with
      | None => mret tt
      | Some conn =>
          catch (send (conn_channel conn) (ToEvent (Spawn
            (mkSpawnNodes None session_id uuid None (df_nodes df) (df_descriptor df) (list_to_set nodes)
               (df_uv df) None None))));; mret tt
      end.

Definition catch_up_dataflow (daemon_id : DaemonId) (reported : gset Uuid) (uuid : Uuid) : CM S unit :=
  df ← get_df uuid "no running dataflow";
  conns ← gets connections;
  let last_ack := ack_of df daemon_id in
  if negb (bool_decide (daemon_id ∈ daemons df) && bool_decide (uuid ∈ reported)) then mret tt
  else if (state_log_sequence df <=? last_ack)%Z then mret tt
  else match state_log_delta df last_ack with
       | Some [] => mret tt
       | Some entries =>
           match conns !! daemon_id with
           | None => mret tt
           | Some conn => catch (send (conn_channel conn) (ToEvent (StateCatchUp uuid entries)));; mret tt
           end
       | None => handle_pruned_state_catchup_fallback uuid daemon_id
       end.

Definition handle_status_report (daemon_id : DaemonId) (reports : list (Uuid * list NodeId)) : CM S unit :=
  let reported : gset Uuid := list_to_set reports.*1 in
  for_each reconcile reports.*1;;
  restore_topic_debug_streams_for_daemon daemon_id reported;;
  running ← gets running_dataflows;
  for_each (recover_dataflow daemon_id reported) (hash_keys running);;
  for_each (catch_up_dataflow daemon_id reported) (hash_keys running).

Definition handle_catch_up_ack (daemon_id : DaemonId) (dataflow_id : Uuid) (ack_sequence : Z) : CM S unit :=
  modify_df dataflow_id (acknowledge daemon_id ack_sequence).

(** ** The event loop *)

Definition handle_event (event : Event) : CM S unit :=
  match event with
  | ERegister version_check machine labels channel daemon_id_tx =>
      handle_register version_check machine labels channel daemon_id_tx
  | EDataflow uuid (ReadyOnDaemon daemon_id exited) => handle_ready uuid daemon_id exited
  | EDataflow uuid (DataflowFinishedOnDaemon daemon_id result) => handle_finished uuid daemon_id result
  | EControl event => handle_control event
  | EDaemonHeartbeatInterval => handle_heartbeat_interval
  | ECtrlC => handle_destroy
  | EDaemonHeartbeat daemon_id ft_stats => handle_heartbeat daemon_id ft_stats
  | ELog message => handle_log message
  | ETopicDebugData dataflow_id subscription_ids payload => handle_topic_data dataflow_id subscription_ids payload
  | EDaemonExit daemon_id => handle_daemon_exit daemon_id
  | ENodeMetrics dataflow_id metrics network => handle_node_metrics dataflow_id metrics network
  | EDataflowBuildResult build_id daemon_id result => handle_build_result build_id daemon_id result
  | EDataflowSpawnResult dataflow_id daemon_id result => handle_spawn_result dataflow_id daemon_id result
  | EDaemonStatusReport daemon_id reports => handle_status_report daemon_id reports
  | EDaemonStateCatchUpAck daemon_id dataflow_id ack => handle_catch_up_ack daemon_id dataflow_id ack
  end.

(** A replay task runs in the background; the model runs it between two events. *)
Definition run_replay_task (i : nat) : CM S unit :=
  tasks ← gets replay_tasks;
  match tasks !! i with
  | None => mret tt
  | Some task =>
      modify (upd_tasks (remove_at i));;
      replay_persisted_params_for_daemon (replay_dataflow_id task) (replay_node_ids task) (replay_channel task);;
      mret tt
  end.

(** What the event loop is given: an event and the time at which it is handled, or the chance
    to run a background task. *)
Inductive Input := IEvent (at_ : Instant) (at_millis : Z) (event : Event) | ITask (i : nat).

Definition step (i : Input) : CM S unit :=
  match i with
  | IEvent at_ at_millis event =>
      modify (λ c, {| c with now := at_; now_millis := at_millis |});; handle_event event
  | ITask i => run_replay_task i
  end.

(** The loop ends with the first error, or when the stream of events is aborted. *)
Fixpoint run (inputs : list Input) : CM S unit :=
  match inputs with
  | [] => mret tt
  | i :: inputs => stop ← gets aborted; if stop : bool then mret tt else step i;; run inputs
  end.

(** *** Start-up *)

Definition recovering (now_ms : Z) (record : DataflowRecord) : option DataflowRecord :=
  match record_status record with
  | DPending | DRunning | DStopping | DRecovering =>
      Some {| record with record_status := DRecovering;
                          record_generation := (record_generation record + 1)%Z;
                          record_updated_at := now_ms |}
  | DSucceeded | DFailed _ => None
  end.

Definition start_up : CM S unit :=
  known ← catch (with_store list_daemons);
  (match known with
   | Ok known => for_each (λ info, catch (with_store (unregister_daemon (info_daemon_id info)));; mret tt) known
   | _ => mret tt
   end);;
  now_ms ← gets now_millis;
  records ← catch (with_store list_dataflows);
  match records with
  | Ok records =>
      for_each (λ record, match recovering now_ms record with
                          | Some record => catch (with_store (put_dataflow record));; mret tt
                          | None => mret tt
                          end) records
  | _ => mret tt
  end.

Definition initial (s : S) (at_ : Instant) (at_millis : Z) : Coord S :=
  mkCoord ∅ [] ∅ ∅ [] ∅ false [] s [] 0 at_ at_millis.

(** [start_inner]. *)
Definition start_inner (s : S) (at_ : Instant) (at_millis : Z) (inputs : list Input) : res unit * Coord S :=
  (start_up;; run inputs) (initial s at_ at_millis).
End handlers.
