(* ===== verification/CoordLogic.v ===== *)
(** * A small logic for the coordinator's handlers

    [ensures I m Q]: the handler [m] keeps the invariant [I] of the coordinator, also when it
    fails, and its result satisfies [Q].  The rules follow the structure of the handlers; an
    invariant that does not mention messages, the store, connections and clocks ([Framed]) is
    kept by all the communication of the coordinator. *)

From Stdlib Require Import ZArith Lia Ascii.
From stdpp Require Import base gmap sets list strings.
From S2P Require Import Prelude Message Text Descriptor Store CoordState Coordinator.
Local Open Scope list_scope.

Section logic.
Context {S : Type}.
Implicit Types (I : Coord S → Prop).

Definition ensures {A} I (m : CM S A) (Q : A → Prop) : Prop :=
  ∀ c, I c → I (m c).2 ∧ match (m c).1 with Ok a => Q a | _ => True end.

Lemma ens_ret {A} I (a : A) (Q : A → Prop) : Q a → ensures I (mret a) Q.
Proof. intros HQ c Hc. done. Qed.

Lemma ens_bind {A B} I (m : CM S A) (k : A → CM S B) (Q : A → Prop) (Q' : B → Prop) :
  ensures I m Q → (∀ a, Q a → ensures I (k a) Q') → ensures I (m ≫= k) Q'.
Proof.
  intros Hm Hk c Hc. specialize (Hm c Hc). unfold mbind, CM_bind.
  destruct (m c) as [[a|e|] c']; cbn in *; destruct Hm as [Hc' Ha]; [|done..]. by apply Hk.
Qed.

Lemma ens_weaken {A} I (m : CM S A) (Q Q' : A → Prop) :
  ensures I m Q → (∀ a, Q a → Q' a) → ensures I m Q'.
Proof.
  intros Hm HQ c Hc. destruct (Hm c Hc) as [? H]. split; [done|]. destruct (m c) as [[]]; cbn in *; auto.
Qed.

Lemma ens_gets {A} I (f : Coord S → A) (Q : A → Prop) :
  (∀ c, I c → Q (f c)) → ensures I (gets f) Q.
Proof. intros H c Hc. split; [done|]. by apply H. Qed.

Lemma ens_modify I f (Q : unit → Prop) : Q tt → (∀ c, I c → I (f c)) → ensures I (modify f) Q.
Proof. intros HQ H c Hc. split; [by apply H|done]. Qed.

Lemma ens_fail {A} I e (Q : A → Prop) : ensures I (fail e) Q.
Proof. intros c Hc. done. Qed.

Lemma ens_lift {A} I (r : res A) (Q : A → Prop) : (∀ a, r = Ok a → Q a) → ensures I (lift r) Q.
Proof. intros H c Hc. split; [done|]. cbn. destruct r; auto. Qed.

Lemma ens_catch {A} I (m : CM S A) (Q : A → Prop) :
  ensures I m Q → ensures I (catch m) (λ r, match r with Ok a => Q a | _ => True end).
Proof.
  intros Hm c Hc. specialize (Hm c Hc). unfold catch. by destruct (m c) as [[a|e|] c'].
Qed.

Lemma ens_get_df I uuid e (Q : RunningDataflow → Prop) :
  (∀ c df, I c → running_dataflows c !! uuid = Some df → Q df) → ensures I (get_df uuid e) Q.
Proof.
  intros H c Hc. split; [done|]. cbn. destruct (running_dataflows c !! uuid) eqn:E; cbn; [by eapply H|done].
Qed.

Lemma ens_get_connection I id (Q : DaemonConnection → Prop) :
  (∀ c conn, I c → connections c !! id = Some conn → Q conn) → ensures I (get_connection id) Q.
Proof.
  intros H c Hc. split; [done|]. cbn. destruct (connections c !! id) eqn:E; cbn; [by eapply H|done].
Qed.

(** The same under a bind, where the continuation learns where the value comes from. *)

Lemma ens_bind_gets {A B} I (f : Coord S → A) (k : A → CM S B) (Q : B → Prop) :
  (∀ c, I c → ensures I (k (f c)) Q) → ensures I (gets f ≫= k) Q.
Proof. intros Hk c Hc. by apply Hk. Qed.

Lemma ens_bind_lift {A B} I (r : res A) (k : A → CM S B) (Q : B → Prop) :
  (∀ a, r = Ok a → ensures I (k a) Q) → ensures I (lift r ≫= k) Q.
Proof. intros Hk. eapply ens_bind; [by apply (ens_lift _ _ (λ a, r = Ok a))|done]. Qed.

Lemma ens_bind_get_df {B} I uuid e (k : RunningDataflow → CM S B) (Q : B → Prop) :
  (∀ c df, I c → running_dataflows c !! uuid = Some df → ensures I (k df) Q) →
  ensures I (get_df uuid e ≫= k) Q.
Proof.
  intros Hk. eapply (ens_bind _ _ _ (λ df, ∃ c, I c ∧ running_dataflows c !! uuid = Some df)).
  - apply ens_get_df. eauto.
  - intros df (c & Hc & Hdf). by eapply Hk.
Qed.

Lemma ens_bind_get_connection {B} I id (k : DaemonConnection → CM S B) (Q : B → Prop) :
  (∀ conn, ensures I (k conn) Q) → ensures I (get_connection id ≫= k) Q.
Proof. intros Hk. eapply (ens_bind _ _ _ (λ _, True)); [by apply ens_get_connection|auto]. Qed.

Lemma ens_bind_any {A B} I (m : CM S A) (k : A → CM S B) (Q : B → Prop) :
  ensures I m (λ _, True) → (∀ a, ensures I (k a) Q) → ensures I (m ≫= k) Q.
Proof. intros Hm Hk. eapply ens_bind; [exact Hm|auto]. Qed.

Lemma ens_catch_any {A} I (m : CM S A) (Q : res A → Prop) :
  ensures I m (λ _, True) → (∀ r, Q r) → ensures I (catch m) Q.
Proof. intros Hm HQ. eapply ens_weaken; [by apply ens_catch|]. intros r _. apply HQ. Qed.

Lemma ens_for_each {A} I (f : A → CM S unit) l (Q : unit → Prop) :
  Q tt → (∀ a, a ∈ l → ensures I (f a) (λ _, True)) → ensures I (for_each f l) Q.
Proof.
  intros HQ Hf. induction l as [|a l IH]; cbn [for_each]; [by apply ens_ret|].
  eapply ens_bind; [apply Hf; left|]. intros _ _. apply IH. intros b Hb. apply Hf. by right.
Qed.

(** ** Framed invariants *)

Class Framed I : Prop := {
  framed_trace f c : I c → I (upd_trace f c);
  framed_store s c : I c → I (upd_store s c);
  framed_connections f c : I c → I (upd_connections f c);
  framed_tasks f c : I c → I (upd_tasks f c);
  framed_results f c : I c → I (upd_results f c);
  framed_drawn n (c : Coord S) : I c → I {| c with drawn := n |};
  framed_aborted b (c : Coord S) : I c → I {| c with aborted := b |};
  framed_time t ms (c : Coord S) : I c → I {| c with now := t; now_millis := ms |}
}.

Section framed.
Context I `{!Framed I} `{HashOrder} `{UuidFormat} `{CoordinatorStore S} `{World}.

Lemma ens_emit o (Q : unit → Prop) : Q tt → ensures I (emit o) Q.
Proof. intros HQ. apply ens_modify; [done|]. intros c. apply framed_trace. Qed.

Lemma ens_with_store {A} (f : S → res A * S) (Q : A → Prop) :
  (∀ a, Q a) → ensures I (with_store f) Q.
Proof.
  intros HQ c Hc. unfold with_store. destruct (f (store c)) as [r s]. cbn.
  split; [by apply framed_store|]. destruct r; auto.
Qed.

Lemma ens_new_uuid (Q : Uuid → Prop) : (∀ u, Q u) → ensures I new_uuid Q.
Proof. intros HQ c Hc. split; [by apply framed_drawn|]. apply HQ. Qed.

Lemma ens_send ch m (Q : unit → Prop) : Q tt → ensures I (send ch m) Q.
Proof. intros HQ c Hc. split; [by apply framed_trace|]. cbn. by destruct (deliver _ _ _). Qed.

Lemma ens_send_and_receive ch e (Q : option DaemonCoordinatorReply → Prop) :
  (∀ r, Q r) → ensures I (send_and_receive ch e) Q.
Proof. intros HQ c Hc. split; [by apply framed_trace|]. cbn. destruct (exchange _ _ _); auto. Qed.

Lemma ens_send_reply to r (Q : unit → Prop) : Q tt → ensures I (send_reply to r) Q.
Proof. apply ens_emit. Qed.

Lemma ens_send_log_to m s (Q : LogSubscriber → Prop) : (∀ s, Q s) → ensures I (send_log_to m s) Q.
Proof.
  intros HQ c Hc. unfold send_log_to. destruct (negb _); [by split; [|apply HQ]|].
  destruct (sub_sender s); [|by split; [|apply HQ]].
  destruct (client_send _ _); (split; [|apply HQ]); cbn; try done. by apply framed_trace.
Qed.

Lemma ens_send_frame_to p id subs (Q : gmap Uuid TopicSubscriber → Prop) :
  (∀ s, Q s) → ensures I (send_frame_to p id subs) Q.
Proof.
  intros HQ c Hc. unfold send_frame_to. destruct (subs !! id); [|by split; [|apply HQ]].
  destruct (topic_sender t); [|by split; [|apply HQ]].
  destruct (client_send _ _); (split; [|apply HQ]); cbn; try done. by apply framed_trace.
Qed.

Lemma ens_draw_name name (Q : option string → Prop) : (∀ n, Q n) → ensures I (draw_name name) Q.
Proof.
  intros HQ. destruct name; cbn [draw_name]; [by apply ens_ret|].
  intros c Hc. split; [by apply framed_drawn|]. apply HQ.
Qed.
End framed.
End logic.

(** ** Automation

    [ens] applies the rules as far as they go; changes of the coordinator's tables and loops
    are left to lemmas of the database [ens]. *)

Create HintDb ens discriminated.
#[export] Hint Extern 0 (Framed _) => exact _ : ens.

Ltac ens_split x := let E := fresh "E" in destruct x eqn:E.
Ltac ens_step :=
  cbv beta zeta;
  lazymatch goal with
  | |- True => exact I
  | |- Framed _ => exact _
  | |- ∀ _, True => intros; exact I
  | |- ensures _ (gets _ ≫= _) _ => apply ens_bind_gets; intros ? ?
  | |- ensures _ (lift _ ≫= _) _ => apply ens_bind_lift; intros ? ?
  | |- ensures _ (get_df _ _ ≫= _) _ => apply ens_bind_get_df; intros ? ? ? ?
  | |- ensures _ (get_connection _ ≫= _) _ => apply ens_bind_get_connection; intros ?
  | |- ensures _ (_ ≫= _) _ => apply ens_bind_any; [|intros ?]
  | |- ensures _ (mret _) _ => apply ens_ret
  | |- ensures _ (fail _) _ => apply ens_fail
  | |- ensures _ (lift _) _ => apply ens_lift; intros ? ?
  | |- ensures _ (gets _) _ => apply ens_gets; intros ? ?
  | |- ensures _ (catch _) _ => apply ens_catch_any
  | |- ensures _ (for_each _ _) _ => apply ens_for_each; [|intros ? ?]
  | |- ensures _ (emit _) _ => apply ens_emit
  | |- ensures _ (send_reply _ _) _ => apply ens_send_reply
  | |- ensures _ (send_replies _) _ => unfold send_replies
  | |- ensures _ (answer _ _) _ => unfold answer
  | |- ensures _ (with_store _) _ => apply ens_with_store
  | |- ensures _ new_uuid _ => apply ens_new_uuid
  | |- ensures _ (send _ _) _ => apply ens_send
  | |- ensures _ (send_and_receive _ _) _ => apply ens_send_and_receive
  | |- ensures _ (send_log_to _ _) _ => apply ens_send_log_to
  | |- ensures _ (send_frame_to _ _ _) _ => apply ens_send_frame_to
  | |- ensures _ (draw_name _) _ => apply ens_draw_name
  | |- ensures _ (modify (upd_connections _)) _ => apply ens_modify; [|intros ?; apply framed_connections]
  | |- ensures _ (modify (upd_tasks _)) _ => apply ens_modify; [|intros ?; apply framed_tasks]
  | |- ensures _ (modify (upd_results _)) _ => apply ens_modify; [|intros ?; apply framed_results]
  | |- ensures _ (if ?b then _ else _) _ => ens_split b
  | |- ensures _ (match ?x with _ => _ end) _ => ens_split x
  | |- ensures _ ((match ?x with _ => _ end) _) _ => ens_split x
  end.
Ltac ens := repeat (ens_step || solve [eauto with ens]).

(** ** Communication keeps framed invariants *)

Section communication.
Context {S : Type} (I : Coord S → Prop) `{!Framed I} `{HashOrder} `{UuidFormat} `{CoordinatorStore S} `{World}.

Lemma ens_request {A} conn e (expect : DaemonCoordinatorReply → option (res A)) :
  ensures I (request conn e expect) (λ _, True).
Proof. unfold request. ens. Qed.
#[local] Hint Resolve ens_request : ens.

Lemma ens_command_daemons ids e expect : ensures I (command_daemons ids e expect) (λ _, True).
Proof. unfold command_daemons. ens. Qed.
#[local] Hint Resolve ens_command_daemons : ens.

Lemma ens_stop_dataflow uuid grace force : ensures I (stop_dataflow uuid grace force) (λ _, True).
Proof. unfold stop_dataflow. ens. Qed.
Lemma ens_reload_dataflow uuid node op : ensures I (reload_dataflow uuid node op) (λ _, True).
Proof. unfold reload_dataflow. ens. Qed.
Lemma ens_dispatch uuid node e expect : ensures I (dispatch_node_command uuid node e expect) (λ _, True).
Proof. unfold dispatch_node_command. ens. Qed.

Lemma ens_rollback_spawned uuid l : ensures I (rollback_spawned_daemons uuid l) (λ _, True).
Proof. induction l; cbn [rollback_spawned_daemons]; ens. Qed.
#[local] Hint Resolve ens_rollback_spawned : ens.

Lemma ens_spawn_on command uuid l ds m : ensures I (spawn_on_daemons command uuid l ds m) (λ _, True).
Proof. revert ds m. induction l as [|[] l IH]; intros ds m; cbn [spawn_on_daemons]; ens. Qed.
#[local] Hint Resolve ens_spawn_on : ens.
Lemma ens_spawn_dataflow b s d dir uv w : ensures I (spawn_dataflow b s d dir uv w) (λ _, True).
Proof. unfold spawn_dataflow. ens. Qed.
#[local] Hint Resolve ens_spawn_dataflow : ens.

Lemma ens_build_on command l ds : ensures I (build_on_daemons command l ds) (λ _, True).
Proof. revert ds. induction l as [|[] l IH]; intros ds; cbn [build_on_daemons]; ens. Qed.
#[local] Hint Resolve ens_build_on : ens.

Lemma ens_send_log_message subs m : ensures I (send_log_message subs m) (λ _, True).
Proof. unfold send_log_message. ens. induction subs; ens. Qed.
#[local] Hint Resolve ens_send_log_message : ens.
Lemma ens_flush_logs l subs : ensures I (flush_logs l subs) (λ _, True).
Proof. revert subs. induction l; intros subs; cbn [flush_logs]; ens. Qed.

Lemma ens_send_frames p ids subs : ensures I (send_frames p ids subs) (λ _, True).
Proof. revert subs. induction ids; intros subs; cbn [send_frames]; ens. Qed.
#[local] Hint Resolve ens_send_frames : ens.
Lemma ens_send_topic_frames subs ids p : ensures I (send_topic_frames subs ids p) (λ _, True).
Proof. unfold send_topic_frames. ens. Qed.

Lemma ens_retrieve_logs uuid node tail : ensures I (retrieve_logs uuid node tail) (λ _, True).
Proof. unfold retrieve_logs. ens. Qed.

Lemma ens_destroy_each l : ensures I (destroy_each l) (λ _, True).
Proof. induction l as [|[] l IH]; cbn [destroy_each]; ens. Qed.
#[local] Hint Resolve ens_destroy_each : ens.
Lemma ens_destroy_daemons : ensures I destroy_daemons (λ _, True).
Proof. unfold destroy_daemons. ens. Qed.

Lemma ens_lookup_connections {A} (l : list (DaemonId * A)) : ensures I (lookup_connections l) (λ _, True).
Proof. induction l as [|[] l IH]; cbn [lookup_connections]; ens. Qed.
Lemma ens_start_streams uuid sub l : ensures I (start_streams uuid sub l) (λ _, True).
Proof. induction l as [|[[] ] l IH]; cbn [start_streams]; ens. Qed.
Lemma ens_stop_streams uuid sub l : ensures I (stop_streams uuid sub l) (λ _, True).
Proof. induction l as [|d l IH]; cbn [stop_streams]; ens. Qed.
Lemma ens_restore_topics d reported : ensures I (restore_topic_debug_streams_for_daemon d reported) (λ _, True).
Proof. unfold restore_topic_debug_streams_for_daemon. ens. Qed.

Lemma ens_resolve_param_target uuid node : ensures I (resolve_param_target uuid node) (λ _, True).
Proof. unfold resolve_param_target. ens. Qed.
#[local] Hint Resolve ens_resolve_param_target : ens.
Lemma ens_get_params uuid node : ensures I (get_params uuid node) (λ _, True).
Proof. unfold get_params. ens. Qed.
Lemma ens_get_param uuid node key : ensures I (get_param uuid node key) (λ _, True).
Proof. unfold get_param. ens. Qed.

Lemma ens_collect uuid l : ensures I (collect_param_replay_items uuid l) (λ _, True).
Proof. induction l; cbn [collect_param_replay_items]; ens. Qed.
#[local] Hint Resolve ens_collect : ens.
Lemma ens_replay_items uuid ch l : ensures I (replay_items uuid ch l) (λ _, True).
Proof. induction l as [|[[] ] l IH]; cbn [replay_items replay_item]; ens. Qed.
#[local] Hint Resolve ens_replay_items : ens.
Lemma ens_replay uuid l ch : ensures I (replay_persisted_params_for_daemon uuid l ch) (λ _, True).
Proof. unfold replay_persisted_params_for_daemon. ens. Qed.
#[local] Hint Resolve ens_replay : ens.
Lemma ens_schedule uuid df : ensures I (schedule_param_replay_for_ready_dataflow uuid df) (λ _, True).
Proof. unfold schedule_param_replay_for_ready_dataflow. ens. Qed.
Lemma ens_run_replay_task i : ensures I (run_replay_task i) (λ _, True).
Proof. unfold run_replay_task. ens. Qed.

Lemma ens_change_mapping uuid node e r : ensures I (change_mapping uuid node e r) (λ _, True).
Proof. unfold change_mapping. ens. Qed.

Lemma ens_register v machine labels ch tx : ensures I (handle_register v machine labels ch tx) (λ _, True).
Proof. unfold handle_register. ens. Qed.
Lemma ens_heartbeat d ft : ensures I (handle_heartbeat d ft) (λ _, True).
Proof. unfold handle_heartbeat. ens. Qed.
Lemma ens_daemon_exit d : ensures I (handle_daemon_exit d) (λ _, True).
Proof. unfold handle_daemon_exit. ens. Qed.
Lemma ens_check_daemons l : ensures I (check_daemons l) (λ _, True).
Proof. induction l as [|[] l IH]; cbn [check_daemons]; ens. Qed.
Lemma ens_expire : ensures I expire_recoveries (λ _, True).
Proof. unfold expire_recoveries. ens. Qed.
Lemma ens_reconcile uuid : ensures I (reconcile uuid) (λ _, True).
Proof. unfold reconcile. ens. Qed.
Lemma ens_start_up : ensures I start_up (λ _, True).
Proof. unfold start_up. ens. Qed.
End communication.

#[export] Hint Resolve ens_request ens_command_daemons ens_stop_dataflow ens_reload_dataflow
  ens_dispatch ens_rollback_spawned ens_spawn_on ens_spawn_dataflow ens_build_on
  ens_send_log_message ens_flush_logs ens_send_frames ens_send_topic_frames ens_retrieve_logs
  ens_destroy_daemons ens_lookup_connections ens_start_streams ens_stop_streams
  ens_restore_topics ens_resolve_param_target ens_get_params ens_get_param ens_replay
  ens_schedule ens_run_replay_task ens_change_mapping ens_register ens_heartbeat
  ens_daemon_exit ens_check_daemons ens_expire ens_reconcile ens_start_up : ens.

(** ** Evaluating handlers *)

Section evaluation.
Context `{World} {S : Type}.
Implicit Types (c : Coord S).

Lemma bind_Ok {A B} (m : CM S A) (k : A → CM S B) c a c' : m c = (Ok a, c') → (m ≫= k) c = k a c'.
Proof. intros Hm. unfold mbind, CM_bind. by rewrite Hm. Qed.
Lemma bind_Err {A B} (m : CM S A) (k : A → CM S B) c e c' : m c = (Err e, c') → (m ≫= k) c = (Err e, c').
Proof. intros Hm. unfold mbind, CM_bind. by rewrite Hm. Qed.
Lemma bind_Panic {A B} (m : CM S A) (k : A → CM S B) c c' : m c = (Panic, c') → (m ≫= k) c = (Panic, c').
Proof. intros Hm. unfold mbind, CM_bind. by rewrite Hm. Qed.
Lemma bind_lift {A B} (r : res A) (k : A → CM S B) c :
  (lift r ≫= k) c = match r with Ok a => k a c | Err e => (Err e, c) | Panic => (Panic, c) end.
Proof. by destruct r. Qed.
Lemma bind_gets {A B} (f : Coord S → A) (k : A → CM S B) c : (gets f ≫= k) c = k (f c) c.
Proof. done. Qed.

(** The state after sending some outputs. *)
Definition sent (l : list Output) c : Coord S := upd_trace (λ t, t ++ l) c.

Lemma sent_nil c : sent [] c = c.
Proof. destruct c. unfold sent, upd_trace. cbn. by rewrite app_nil_r. Qed.
Lemma sent_sent l1 l2 c : sent l2 (sent l1 c) = sent (l1 ++ l2) c.
Proof. destruct c. unfold sent, upd_trace. cbn. by rewrite app_assoc. Qed.
Lemma trace_sent l c : trace (sent l c) = trace c ++ l.
Proof. done. Qed.

(** What a command makes of the answer of the daemon. *)
Definition decode {A} (expect : DaemonCoordinatorReply → option (res A))
    (raw : res (option DaemonCoordinatorReply)) : res A :=
  raw ← raw;
  reply ← res_of_option "failed to deserialize reply from daemon" raw;
  result ← res_of_option "unexpected reply" (expect reply);
  result.

Lemma request_run {A} conn event (expect : DaemonCoordinatorReply → option (res A)) c :
  request conn event expect c =
    (decode expect (exchange (trace c) (conn_channel conn) event),
     sent [OSent (conn_channel conn) (ToEvent event)] c).
Proof.
  unfold request, send_and_receive, mbind, CM_bind, lift, decode.
  destruct (exchange _ _ _) as [[reply|]|e|]; cbn; [|done..]. destruct (expect reply) as [[]|]; done.
Qed.

Lemma catch_run {A} (m : CM S A) c r c' : m c = (r, c') → r ≠ Panic → catch m c = (Ok r, c').
Proof. intros Hm Hr. unfold catch. rewrite Hm. by destruct r. Qed.
Lemma catch_Panic {A} (m : CM S A) c c' : m c = (Panic, c') → catch m c = (Panic, c').
Proof. intros Hm. unfold catch. by rewrite Hm. Qed.
End evaluation.
#[global] Arguments sent : simpl never.
