(* ===== verification/CoordInv.v ===== *)
(** * Invariants of the coordinator

    What holds of the coordinator's tables after any sequence of events: running dataflows are
    stored under their own UUID and have distinct names, their logs represent a history of
    changes, and every table that outlives a dataflow is bounded. *)

From Stdlib Require Import ZArith Lia Ascii.
From stdpp Require Import base gmap sets list strings.
From S2P Require Import Prelude Message Text Descriptor Store CoordState StateLog Coordinator CoordLogic.
Local Open Scope list_scope.

(** ** The invariant *)

(** The daemons that have reported a dataflow ready so far. *)
Abbreviation Reports := (Uuid → DaemonId → Prop) (only parsing).

(** Of a dataflow on several daemons, those no longer waited for have reported. *)
Definition barrier (R : Reports) (uuid : Uuid) (df : RunningDataflow) : Prop :=
  2 ≤ size (daemons df) → ∀ d, d ∈ daemons df → d ∈ pending_daemons df ∨ R uuid d.

Record dataflow_ok (R : Reports) (uuid : Uuid) (df : RunningDataflow) : Prop := {
  dfok_uuid : df_uuid df = uuid;
  dfok_logs : length (buffered_log_messages df) ≤ MAX_BUFFERED_LOG_MESSAGES;
  dfok_rep : ∃ hist k, log_rep df hist k;
  dfok_barrier : barrier R uuid df
}.

Record tables_ok {S} (c : Coord S) : Prop := {
  ok_archived : length (archived_dataflows c) ≤ MAX_ARCHIVED_DATAFLOWS;
  ok_archived_keys : NoDup (archived_dataflows c).*1;
  ok_finished : length (finished_builds c) ≤ MAX_FINISHED_BUILDS;
  ok_finished_keys : NoDup (finished_builds c).*1;
  ok_builds id b : running_builds c !! id = Some b →
    length (build_buffered_log_messages b) ≤ MAX_BUFFERED_LOG_MESSAGES
}.

(** The names of the running dataflows. *)
Abbreviation Names := (gmap Uuid (option string)) (only parsing).
Definition names {S} (c : Coord S) : Names := df_name <$> running_dataflows c.

Definition names_unique (ns : Names) : Prop :=
  ∀ u1 u2 n, ns !! u1 = Some (Some n) → ns !! u2 = Some (Some n) → u1 = u2.

(** The invariant for given names, which most handlers keep. *)
Record Invariant {S} (R : Reports) (ns : Names) (c : Coord S) : Prop := {
  inv_names : names c = ns;
  inv_df u df : running_dataflows c !! u = Some df → dataflow_ok R u df;
  inv_tables : tables_ok c
}.

Definition WF {S} (R : Reports) (c : Coord S) : Prop := ∃ ns, names_unique ns ∧ Invariant R ns c.

#[export] Instance Inv_framed {S} R ns : Framed (S := S) (Invariant R ns).
Proof. split; intros; destruct H as [Hn Hd [? ? ? ? ?]]; (split; [exact Hn|exact Hd|by split]). Qed.
#[export] Instance WF_framed {S} R : Framed (S := S) (WF R).
Proof.
  split; intros; destruct H as (ns & Hu & Hi); exists ns; (split; [done|]); revert Hi;
    [apply framed_trace|apply framed_store|apply framed_connections|apply framed_tasks|
     apply framed_results|apply framed_drawn|apply framed_aborted|apply framed_time].
Qed.

Section inv.
Context {S : Type}.
Variable R : Reports.
Abbreviation Inv := (Invariant R).
Abbreviation dfok := (dataflow_ok R).
Implicit Types (c : Coord S) (ns : Names).

Lemma inv_name ns c u df : Inv ns c → running_dataflows c !! u = Some df → ns !! u = Some (df_name df).
Proof. intros [<- _ _] Hdf. unfold names. by rewrite lookup_fmap, Hdf. Qed.

Lemma WF_of {A} (m : CM S A) Q : (∀ ns, ensures (Inv ns) m Q) → ensures (WF R) m Q.
Proof. intros Hm c (ns & Hu & Hi). destruct (Hm ns c Hi). split; [by exists ns|done]. Qed.

(** ** Changes of a dataflow *)

Lemma log_rep_ext df df' hist k :
  state_log_sequence df' = state_log_sequence df → state_log df' = state_log df →
  daemon_ack_sequence df' = daemon_ack_sequence df → daemons df' ⊆ daemons df →
  log_rep df hist k → log_rep df' hist k.
Proof.
  intros Hs Hl Ha Hd [? ? ? ? ? ? ?]. split; rewrite ?Hs, ?Hl, ?Ha; try done. set_solver.
Qed.

(** Updates that keep the identity, the buffer and the log. *)
Definition same_log (df df' : RunningDataflow) : Prop :=
  df_uuid df' = df_uuid df ∧ df_name df' = df_name df ∧
  length (buffered_log_messages df') ≤ MAX_BUFFERED_LOG_MESSAGES ∧
  state_log_sequence df' = state_log_sequence df ∧ state_log df' = state_log df ∧
  daemon_ack_sequence df' = daemon_ack_sequence df ∧ daemons df' ⊆ daemons df ∧
  pending_daemons df' = pending_daemons df.

Lemma barrier_shrink u df df' :
  daemons df' ⊆ daemons df → (∀ d, d ∈ daemons df' → d ∈ pending_daemons df → d ∈ pending_daemons df' ∨ R u d) →
  barrier R u df → barrier R u df'.
Proof.
  intros Hd Hp Hb Hs d Hin. pose proof (subseteq_size _ _ Hd).
  destruct (Hb ltac:(lia) d) as [Hpd|Hr]; [by apply Hd|by apply Hp|by right].
Qed.

Lemma same_log_ok u df df' : dfok u df → same_log df df' → dfok u df' ∧ df_name df' = df_name df.
Proof.
  intros [Hu Hl (hist & k & Hr) Hbar] (Hu' & Hn & Hb & Hs & Hlog & Ha & Hd & Hp). split; [|done].
  split; [congruence|done| |]; [exists hist, k; by eapply log_rep_ext|].
  apply (barrier_shrink u df); [done| |done]. rewrite Hp. by left.
Qed.

Lemma dfok_rep_ok u df df' :
  dfok u df → df_uuid df' = df_uuid df → df_name df' = df_name df →
  buffered_log_messages df' = buffered_log_messages df → daemons df' ⊆ daemons df →
  pending_daemons df ∩ daemons df' ⊆ pending_daemons df' →
  (∀ hist k, log_rep df hist k → ∃ hist' k', log_rep df' hist' k') → dfok u df' ∧ df_name df' = df_name df.
Proof.
  intros [Hu Hl (hist & k & Hr) Hbar] Hu' Hn Hb Hd Hp Hrep. split; [|done].
  split; [congruence|by rewrite Hb|by eapply Hrep|]. apply (barrier_shrink u df); [done| |done]. set_solver.
Qed.

Lemma ens_modify_df ns uuid f (Q : unit → Prop) :
  Q tt → (∀ df, dfok uuid df → dfok uuid (f df) ∧ df_name (f df) = df_name df) →
  ensures (S := S) (Inv ns) (modify_df uuid f) Q.
Proof.
  intros HQ Hf. apply ens_modify; [done|]. intros c [Hn Hd [? ? ? ? ?]]. split; [| |by split].
  - rewrite <- Hn. apply map_eq. intros u. unfold names, upd_running. cbn. rewrite !lookup_fmap.
    destruct (decide (uuid = u)) as [<-|].
    + rewrite lookup_alter_eq. destruct (running_dataflows c !! uuid) as [df|] eqn:E; [|done]. cbn.
      f_equal. by apply Hf, Hd.
    + by rewrite lookup_alter_ne.
  - intros u df. cbn. intros [(-> & df0 & Hdf & ->)|[Hne Hdf]]%lookup_alter_Some; [|by apply Hd].
    by apply Hf, Hd.
Qed.

Lemma Inv_insert ns uuid df c :
  Inv ns c → dfok uuid df → Inv (<[uuid := df_name df]> ns) (upd_running <[uuid := df]> c).
Proof.
  intros [Hn Hd [? ? ? ? ?]] Hdf. split; [| |by split].
  - unfold names. cbn. by rewrite fmap_insert, <- Hn.
  - cbn. intros u df' [[<- <-]|[_ ?]]%lookup_insert_Some; [done|by apply Hd].
Qed.

Lemma Inv_delete ns uuid c : Inv ns c → Inv (delete uuid ns) (upd_running (delete uuid) c).
Proof.
  intros [Hn Hd [? ? ? ? ?]]. split; [| |by split].
  - unfold names. cbn. by rewrite fmap_delete, <- Hn.
  - cbn. intros u df' [_ ?]%lookup_delete_Some. by apply Hd.
Qed.

Lemma ens_insert_df ns uuid df (Q : unit → Prop) :
  Q tt → ns !! uuid = Some (df_name df) → dfok uuid df →
  ensures (S := S) (Inv ns) (modify (upd_running <[uuid := df]>)) Q.
Proof.
  intros HQ Hn Hdf. apply ens_modify; [done|]. intros c Hc.
  rewrite <- (insert_id ns uuid (df_name df)) by done. by apply Inv_insert.
Qed.
End inv.

Ltac same_df :=
  match goal with
  | H : dataflow_ok ?R ?u ?df |- dataflow_ok ?R ?u _ ∧ _ =>
      apply (same_log_ok R u df); [exact H|destruct H as [? ? ? ?]; repeat split; cbn; auto; set_solver]
  end.

(** ** Handlers that keep the names *)

Section handlers.
Context `{HashOrder} `{UuidFormat} {S : Type} `{CoordinatorStore S} `{World}.
Variables (R : Reports) (ns : Names).
Abbreviation I := (Invariant (S := S) R ns).
Abbreviation dfok := (dataflow_ok R).

Definition next_generation (df : RunningDataflow) : RunningDataflow :=
  {| df with store_generation := (store_generation df + 1)%Z |}.

Lemma ens_persist_df (J : Coord S → Prop) `{!Framed J} df status :
  ensures J (persist_df df status) (λ df', df' = next_generation df).
Proof. unfold persist_df. apply ens_bind_gets. intros c Hc. cbn. ens. Qed.

Lemma ens_persist_df_any (J : Coord S → Prop) `{!Framed J} df status :
  ensures J (persist_df df status) (λ _, True).
Proof. by eapply ens_weaken; [apply ens_persist_df, _|]. Qed.

Lemma next_generation_ok u df : dfok u df → dfok u (next_generation df) ∧ df_name (next_generation df) = df_name df.
Proof. intros Hdf. same_df. Qed.

Lemma ens_persist uuid status : ensures I (persist uuid status) (λ _, True).
Proof.
  unfold persist. apply ens_bind_gets. intros c Hc. destruct (running_dataflows c !! uuid) as [df|] eqn:E; [|ens].
  eapply ens_bind; [apply ens_persist_df, _|]. intros ? ->.
  destruct (next_generation_ok uuid df) as [? Hn]; [by eapply inv_df|].
  apply ens_insert_df; [done| |done]. rewrite Hn. by eapply inv_name.
Qed.

(** A dataflow read from the table and changed is written back. *)
Lemma ens_write_back c uuid df df' (Q : unit → Prop) :
  Q tt → I c → running_dataflows c !! uuid = Some df → same_log df df' →
  ensures I (modify (upd_running <[uuid := df']>)) Q.
Proof.
  intros HQ Hc Hdf Hs. destruct (same_log_ok R uuid df df') as [? Hn]; [by eapply inv_df|done|].
  apply ens_insert_df; [done| |done]. rewrite Hn. by eapply inv_name.
Qed.

Lemma ens_modify_build id f (Q : unit → Prop) :
  Q tt →
  (∀ b, length (build_buffered_log_messages b) ≤ MAX_BUFFERED_LOG_MESSAGES →
        length (build_buffered_log_messages (f b)) ≤ MAX_BUFFERED_LOG_MESSAGES) →
  ensures I (modify_build id f) Q.
Proof.
  intros HQ Hf. apply ens_modify; [done|]. intros c [Hn Hd [? ? ? ? Hb]]. split; [done|done|split; try done].
  cbn. intros id' b [(-> & b0 & Hb0 & ->)|[_ Hb0]]%lookup_alter_Some; [|by eapply Hb].
  by eapply Hf, Hb.
Qed.

Lemma ens_upd_builds f (Q : unit → Prop) :
  Q tt →
  (∀ m, (∀ id b, m !! id = Some b → length (build_buffered_log_messages b) ≤ MAX_BUFFERED_LOG_MESSAGES) →
        ∀ id b, f m !! id = Some b → length (build_buffered_log_messages b) ≤ MAX_BUFFERED_LOG_MESSAGES) →
  ensures I (modify (upd_builds f)) Q.
Proof.
  intros HQ Hf. apply ens_modify; [done|]. intros c [Hn Hd [? ? ? ? Hb]]. split; [done|done|split; try done].
  cbn. by apply Hf.
Qed.

Lemma ens_upd_finished f (Q : unit → Prop) :
  Q tt →
  (∀ l, length l ≤ MAX_FINISHED_BUILDS → NoDup l.*1 → length (f l) ≤ MAX_FINISHED_BUILDS ∧ NoDup (f l).*1) →
  ensures I (modify (upd_finished f)) Q.
Proof.
  intros HQ Hf. apply ens_modify; [done|]. intros c [Hn Hd [? ? Hl Hk ?]].
  destruct (Hf _ Hl Hk). split; [done|done|by split].
Qed.

Lemma ens_upd_archived f (Q : unit → Prop) :
  Q tt →
  (∀ l, length l ≤ MAX_ARCHIVED_DATAFLOWS → NoDup l.*1 → length (f l) ≤ MAX_ARCHIVED_DATAFLOWS ∧ NoDup (f l).*1) →
  ensures I (modify (upd_archived f)) Q.
Proof.
  intros HQ Hf. apply ens_modify; [done|]. intros c [Hn Hd [Hl Hk ? ? ?]].
  destruct (Hf _ Hl Hk). split; [done|done|by split].
Qed.

(** *** Index maps *)

Lemma assoc_lookup_None {V} k (l : list (Uuid * V)) : assoc_lookup k l = None → k ∉ l.*1.
Proof.
  unfold assoc_lookup. intros Hl%fmap_None Hk. apply list_elem_of_fmap in Hk as ([k' v] & -> & Hin).
  assert ((k', v) ∈ retain (λ e : Uuid * V, bool_decide (e.1 = k')) l) as Hr.
  { apply elem_of_retain. split; [by apply bool_decide_eq_true|done]. }
  cbn in Hl. destruct (retain _ l); [by apply elem_of_nil in Hr|done].
Qed.

Lemma snoc_keys {V} k (v : V) (l : list (Uuid * V)) : k ∉ l.*1 → NoDup l.*1 → NoDup (l ++ [(k, v)]).*1.
Proof.
  intros Hk Hl. rewrite fmap_app. apply NoDup_app. split_and!; [done| |apply NoDup_singleton].
  intros x Hx ->%list_elem_of_singleton. done.
Qed.

Lemma assoc_or_insert_keys {V} k (v : V) l : NoDup l.*1 → NoDup (assoc_or_insert k v l).*1.
Proof.
  intros Hl. unfold assoc_or_insert. destruct (assoc_lookup k l) eqn:E; [done|].
  by apply snoc_keys; [apply assoc_lookup_None|].
Qed.

Lemma assoc_update_keys {V} k (v : Uuid * V → V) (l : list (Uuid * V)) :
  ((λ e, if bool_decide (e.1 = k) then (e.1, v e) else e) <$> l).*1 = l.*1.
Proof. rewrite <- list_fmap_compose. apply list_fmap_ext. intros ? [] _. cbn. by case_bool_decide. Qed.

Lemma assoc_insert_keys {V} k (v : V) l : NoDup l.*1 → NoDup (assoc_insert k v l).*1.
Proof.
  intros Hl. unfold assoc_insert. destruct (assoc_lookup k l) eqn:E.
  - by rewrite (assoc_update_keys k (λ _, v)).
  - by apply snoc_keys; [apply assoc_lookup_None|].
Qed.

Lemma evict_ok {V} max (l : list (Uuid * V)) :
  NoDup l.*1 → length (evict max l) ≤ max ∧ NoDup (evict max l).*1.
Proof.
  intros Hl. unfold evict. rewrite length_drop. split; [lia|]. rewrite fmap_drop.
  eapply sublist_NoDup; [exact Hl|]. apply sublist_drop.
Qed.
End handlers.

(** *** Automation *)

(** A changed dataflow: its bounds are those of the dataflow that was read. *)
Ltac same_read :=
  match goal with
  | Hc : Invariant _ _ ?c, Hdf : running_dataflows ?c !! _ = Some ?df |- same_log ?df _ =>
      destruct (inv_df _ _ _ Hc _ _ Hdf); repeat split; cbn; auto; set_solver
  end.

Ltac keep :=
  repeat first
    [ ens_step
    | solve [eauto with ens]
    | lazymatch goal with
      | |- ensures _ (modify_df _ _) _ => apply ens_modify_df; [exact Logic.I|intros ? ?; try same_df]
      | |- ensures _ (modify_build _ _) _ => apply ens_modify_build; [exact Logic.I|intros ? ?; try done]
      | |- ensures _ (modify (upd_running <[_ := _]>)) _ =>
          eapply ens_write_back; [exact Logic.I|eassumption|eassumption|]
      end ].

#[export] Hint Resolve ens_persist ens_persist_df_any : ens.

Section keepers.
Context `{HashOrder} `{UuidFormat} {S : Type} `{CoordinatorStore S} `{World}.
Variables (R : Reports) (ns : Names).
Abbreviation I := (Invariant (S := S) R ns).
Abbreviation dfok := (dataflow_ok R).

Lemma ens_wait_for_build to id : ensures I (wait_for_build to id) (λ _, True).
Proof.
  unfold wait_for_build. keep. apply ens_upd_finished; [done|]. intros fin Hl Hk.
  rewrite (assoc_update_keys _ (λ _, _)), length_fmap. done.
Qed.
Lemma ens_wait_for_spawn to id : ensures I (wait_for_spawn to id) (λ _, True).
Proof. unfold wait_for_spawn. keep. Qed.
Lemma ens_stop_request to uuid grace force : ensures I (stop_request to uuid grace force) (λ _, True).
Proof. unfold stop_request. keep. Qed.

Lemma ens_build_dataflow b s d g p dir uv :
  ensures I (build_dataflow b s d g p dir uv) (λ b, build_buffered_log_messages b = []).
Proof. unfold build_dataflow. keep. Qed.
Lemma ens_build_request s d g p dir uv : ensures I (build_request s d g p dir uv) (λ _, True).
Proof.
  unfold build_request. apply ens_bind_any; [keep|]. intros id.
  eapply ens_bind; [apply ens_build_dataflow|]. intros b Hb. apply ens_bind_any; [|intros _; keep].
  apply ens_upd_builds; [done|]. intros m Hm id' b' [[<- <-]|[_ ?]]%lookup_insert_Some; [|by eapply Hm].
  rewrite Hb. cbn. lia.
Qed.

Lemma ens_add_node uuid n : ensures I (add_node uuid n) (λ _, True).
Proof. unfold add_node. keep. Qed.
Lemma ens_remove_node uuid n grace : ensures I (remove_node uuid n grace) (λ _, True).
Proof. unfold remove_node. keep. Qed.

Lemma append_ok u df op : dfok u df → dfok u (append_state_log df op) ∧ df_name (append_state_log df op) = df_name df.
Proof.
  intros Hdf. eapply dfok_rep_ok; [done..|set_solver|]. intros hist k Hr.
  exists (hist ++ [op]). by apply (append_rep _ _ k).
Qed.
Lemma ens_forward_param uuid target op e expect : ensures I (forward_param uuid target op e expect) (λ _, True).
Proof. unfold forward_param. keep. by apply append_ok. Qed.
#[local] Hint Resolve ens_forward_param : ens.
Lemma ens_set_param uuid n key value : ensures I (set_param uuid n key value) (λ _, True).
Proof. unfold set_param. keep. Qed.
Lemma ens_delete_param uuid n key : ensures I (delete_param uuid n key) (λ _, True).
Proof. unfold delete_param. keep. Qed.

Lemma ens_rollback_topic uuid sub l : ensures I (rollback_topic_debug_stream uuid sub l) (λ _, True).
Proof. unfold rollback_topic_debug_stream. keep. Qed.
#[local] Hint Resolve ens_rollback_topic : ens.
Lemma ens_start_topic uuid topics sender : ensures I (start_topic_debug_stream uuid topics sender) (λ _, True).
Proof. unfold start_topic_debug_stream. keep. Qed.
Lemma ens_stop_topic sub : ensures I (stop_topic_debug_stream sub) (λ _, True).
Proof. unfold stop_topic_debug_stream. keep. Qed.
#[local] Hint Resolve ens_start_topic ens_stop_topic : ens.

Lemma ens_subscribe_logs uuid level sender tx : ensures I (subscribe_logs uuid level sender tx) (λ _, True).
Proof.
  unfold subscribe_logs. keep.
  match goal with H : dataflow_ok _ _ ?df |- _ => apply (same_log_ok _ _ df); [done|]; repeat split; cbn; auto; lia end.
Qed.
Lemma ens_subscribe_build_logs id level sender tx :
  ensures I (subscribe_build_logs id level sender tx) (λ _, True).
Proof. unfold subscribe_build_logs. keep. cbn. lia. Qed.
#[local] Hint Resolve ens_subscribe_logs ens_subscribe_build_logs : ens.

Lemma ens_handle_ready uuid d exited : R uuid d → ensures I (handle_ready uuid d exited) (λ _, True).
Proof.
  intros HR. unfold handle_ready. apply ens_bind_gets. intros c Hc.
  destruct (running_dataflows c !! uuid) as [df|] eqn:Edf; [|keep]. cbv zeta.
  set (df' := {| df with pending_daemons := _; exited_before_subscribe := _ |}).
  apply ens_bind_any; [|intros _; keep]. destruct (inv_df _ _ _ Hc _ _ Edf) as [Hu Hl (hist & k & Hr) Hb].
  apply ens_insert_df; [done|exact (inv_name R ns c uuid df Hc Edf)|]. split; [done|done| |].
  - exists hist, k. by apply (log_rep_ext df).
  - apply (barrier_shrink _ uuid df); [done| |done]. intros d' _ Hd'. cbn.
    destruct (decide (d' = d)) as [->|]; [by right|left; set_solver].
Qed.

Lemma buffer_log_bound l m :
  length l ≤ MAX_BUFFERED_LOG_MESSAGES → length (buffer_log l m) ≤ MAX_BUFFERED_LOG_MESSAGES.
Proof.
  intros Hl. unfold buffer_log. destruct (length l <? MAX_BUFFERED_LOG_MESSAGES)%nat eqn:E; [|done].
  apply Nat.ltb_lt in E. rewrite length_app. cbn. lia.
Qed.

Lemma ens_handle_log m : ensures I (handle_log m) (λ _, True).
Proof.
  unfold handle_log. keep; cbn [build_buffered_log_messages]; [|by apply buffer_log_bound].
  match goal with H : dataflow_ok _ _ ?df |- _ => apply (same_log_ok _ _ df); [done|]; destruct H; repeat split; auto end.
  by apply buffer_log_bound.
Qed.

Lemma ens_node_metrics uuid m net : ensures I (handle_node_metrics uuid m net) (λ _, True).
Proof. unfold handle_node_metrics. keep. Qed.
Lemma ens_topic_data uuid ids p : ensures I (handle_topic_data uuid ids p) (λ _, True).
Proof. unfold handle_topic_data. keep. Qed.

Lemma ens_build_result id d r : ensures I (handle_build_result id d r) (λ _, True).
Proof.
  unfold handle_build_result. apply ens_bind_gets. intros c Hc.
  destruct (running_builds c !! id) as [b|] eqn:Eb; [|keep]. cbv zeta.
  apply ens_bind_any.
  { apply ens_upd_builds; [done|]. intros m Hm id' b' [[<- <-]|[_ ?]]%lookup_insert_Some; [|by eapply Hm].
    cbn. by eapply ok_builds; [eapply inv_tables|]. }
  intros _. destruct (negb _); [keep|]. apply ens_bind_any.
  { apply ens_upd_builds; [done|]. intros m Hm id' b' [_ ?]%lookup_delete_Some. by eapply Hm. }
  intros _. destruct (set_result _ _) as [cached replies]. apply ens_bind_any; [keep|]. intros _.
  apply ens_upd_finished; [done|]. intros l _ Hk. by apply evict_ok, assoc_insert_keys.
Qed.

Lemma ens_spawn_result uuid d r : ensures I (handle_spawn_result uuid d r) (λ _, True).
Proof. unfold handle_spawn_result. keep; same_read. Qed.

Lemma ens_disconnect gone : ensures I (disconnect_daemons gone) (λ _, True).
Proof.
  unfold disconnect_daemons. keep. apply ens_modify; [done|]. intros c [Hn Hd [? ? ? ? ?]].
  assert (∀ u df, dfok u df → dfok u (forget_daemons gone df)) as Hf.
  { intros u df Hdf. apply (dfok_rep_ok _ u df); [done..|cbn; set_solver|cbn; set_solver|]. intros hist k Hr. exists hist, k. by apply forget_rep. }
  split; [| |by split].
  - rewrite <- Hn. unfold names. cbn. rewrite <- map_fmap_compose. by apply map_fmap_ext.
  - cbn. intros u df' (df & <- & Hdf)%lookup_fmap_Some. by apply Hf, Hd.
Qed.
#[local] Hint Resolve ens_disconnect : ens.
Lemma ens_heartbeat_interval : ensures I handle_heartbeat_interval (λ _, True).
Proof. unfold handle_heartbeat_interval. keep. Qed.

Lemma ens_fallback uuid d : ensures I (handle_pruned_state_catchup_fallback uuid d) (λ _, True).
Proof.
  unfold handle_pruned_state_catchup_fallback. keep.
  match goal with Hd : dataflow_ok _ _ ?df |- _ => apply (dfok_rep_ok _ _ df); [done..|cbn; set_solver|] end.
  intros hist k Hr. exists hist, k. by apply mark_replayed_rep.
Qed.
#[local] Hint Resolve ens_fallback : ens.
Lemma ens_recover d reported uuid : ensures I (recover_dataflow d reported uuid) (λ _, True).
Proof. unfold recover_dataflow. keep. Qed.
Lemma ens_catch_up d reported uuid : ensures I (catch_up_dataflow d reported uuid) (λ _, True).
Proof. unfold catch_up_dataflow. keep. Qed.
#[local] Hint Resolve ens_recover ens_catch_up : ens.
Lemma ens_status_report d reports : ensures I (handle_status_report d reports) (λ _, True).
Proof. unfold handle_status_report. keep. Qed.

Lemma ens_catch_up_ack d uuid ack : ensures I (handle_catch_up_ack d uuid ack) (λ _, True).
Proof.
  unfold handle_catch_up_ack. apply ens_modify_df; [done|]. intros df Hdf.
  apply (dfok_rep_ok _ _ df); [done|unfold acknowledge; case_bool_decide; cbn; set_solver..|].
  intros hist k Hr. exists hist. by eapply acknowledge_rep.
Qed.

Lemma ens_handle_destroy : ensures I handle_destroy (λ _, True).
Proof. unfold handle_destroy. keep. apply ens_modify; [done|]. intros c. apply framed_aborted. Qed.
End keepers.
#[export] Hint Resolve ens_wait_for_build ens_wait_for_spawn ens_stop_request ens_build_request
  ens_add_node ens_remove_node ens_set_param ens_delete_param ens_start_topic ens_stop_topic
  ens_subscribe_logs ens_subscribe_build_logs ens_handle_ready ens_handle_log ens_node_metrics
  ens_topic_data ens_build_result ens_spawn_result ens_heartbeat_interval ens_status_report
  ens_catch_up_ack ens_handle_destroy : ens.

(** ** Handlers that change the names *)

Section names.
Context `{HashOrder} `{UuidFormat} {S : Type} `{CoordinatorStore S} `{World}.
Variable R : Reports.
Abbreviation I ns := (Invariant (S := S) R ns).
Abbreviation dfok := (dataflow_ok R).

(** From the invariant for given names to [WF]. *)
Definition leaves {A} (ns : Names) (m : CM S A) : Prop := ∀ c, I ns c → WF R (m c).2.

Lemma leaves_bind {A B} ns (m : CM S A) (k : A → CM S B) (Q : A → Prop) :
  names_unique ns → ensures (I ns) m Q → (∀ a, Q a → leaves ns (k a)) → leaves ns (m ≫= k).
Proof.
  intros Hu Hm Hk c Hc. destruct (Hm c Hc) as [Hc' Ha]. unfold mbind, CM_bind.
  destruct (m c) as [[a|e|] c']; cbn in *; [by apply Hk|by exists ns..].
Qed.

Lemma leaves_change {B} ns ns' f (k : unit → CM S B) :
  (∀ c, I ns c → I ns' (f c)) → leaves ns' (k tt) → leaves ns (modify f ≫= k).
Proof. intros Hf Hk c Hc. apply Hk. by apply Hf. Qed.

Lemma leaves_ensures {A} ns (m : CM S A) Q : names_unique ns → ensures (I ns) m Q → leaves ns m.
Proof. intros Hu Hm c Hc. exists ns. split; [done|]. by apply Hm. Qed.

Lemma WF_leaves {A} (m : CM S A) : (∀ ns, names_unique ns → leaves ns m) → ensures (WF R) m (λ _, True).
Proof.
  intros Hm c (ns & Hu & Hc). split; [by eapply Hm|]. by destruct (m c).1.
Qed.

Lemma names_unique_insert ns uuid name :
  names_unique ns → (∀ n, name = Some n → ∀ u, ns !! u ≠ Some (Some n)) → names_unique (<[uuid := name]> ns).
Proof.
  intros Hu Hn u1 u2 n [[<- Hn1]|[? Hu1]]%lookup_insert_Some [[<- Hn2]|[? Hu2]]%lookup_insert_Some;
    [done|by destruct (Hn n Hn1 u2)|by destruct (Hn n Hn2 u1)|by eapply Hu].
Qed.
Lemma names_unique_delete ns uuid : names_unique ns → names_unique (delete uuid ns).
Proof. intros Hu u1 u2 n [_ Hu1]%lookup_delete_Some [_ Hu2]%lookup_delete_Some. by eapply Hu. Qed.

Lemma ens_start_dataflow ns b s d dir name uv w :
  ensures (I ns) (start_dataflow b s d dir name uv w) (λ df, dfok (df_uuid df) df ∧ df_name df = name).
Proof.
  unfold start_dataflow. keep. split; [|done]. split; [done|cbn; lia| |].
  - exists [], 0. apply fresh_rep. by split_and!.
  - intros Hs d' Hd'. left. cbn [daemons pending_daemons] in *.
    by rewrite (proj2 (Nat.ltb_lt 1 _)) by lia.
Qed.

Lemma name_taken_spec ns c name :
  I ns c → name_taken name (running_dataflows c) = false → ∀ u, ns !! u ≠ Some (Some name).
Proof.
  intros Hc Ht u Hu. rewrite <- (inv_names _ _ _ Hc) in Hu. unfold names in Hu.
  rewrite lookup_fmap in Hu. destruct (running_dataflows c !! u) as [df|] eqn:Edf; [|done].
  injection Hu as Hu. unfold name_taken in Ht. rewrite <- not_true_iff_false in Ht. apply Ht.
  apply existsb_exists. exists df. split; [|by apply bool_decide_eq_true].
  apply list_elem_of_In. unfold hash_values. apply list_elem_of_fmap. exists (u, df). split; [done|].
  by rewrite hash_iter_perm, elem_of_map_to_list.
Qed.

(** Register a dataflow that has just been started. *)
Lemma leaves_insert ns df {B} (k : unit → CM S B) Q :
  names_unique (<[df_uuid df := df_name df]> ns) → dfok (df_uuid df) df →
  ensures (I (<[df_uuid df := df_name df]> ns)) (k tt) Q →
  leaves ns (modify (upd_running <[df_uuid df := df]>) ≫= k).
Proof.
  intros Hu Hdf Hk. eapply leaves_change; [|by eapply leaves_ensures].
  intros c Hc. by apply Inv_insert.
Qed.

Lemma WF_start_request b s d name dir uv w : ensures (WF R) (start_request b s d name dir uv w) (λ _, True).
Proof.
  apply WF_leaves. intros ns Hu. unfold start_request.
  eapply leaves_bind; [done|by apply (ens_draw_name _ _ (λ _, True))|]. intros name' _.
  eapply (leaves_bind _ _ _ (λ r, from_option (λ n, name_taken n r) false name' = false →
                                 ∀ n, name' = Some n → ∀ u, ns !! u ≠ Some (Some n)));
    [done|apply ens_gets; intros c Hc Ht n ->; by eapply name_taken_spec|].
  intros running Hfree. destruct (from_option _ _ _); [apply (leaves_ensures _ _ (λ _, True)); [done|apply ens_fail]|].
  specialize (Hfree eq_refl).
  eapply leaves_bind; [done|apply ens_start_dataflow|]. intros df [Hdf <-].
  eapply leaves_bind; [done|apply ens_persist_df, _|]. intros ? ->.
  destruct (next_generation_ok R (df_uuid df) df Hdf) as [Hok Hn].
  eapply (leaves_insert _ _ _ (λ _, True)); [by apply names_unique_insert|done|by apply ens_ret].
Qed.

Lemma WF_restart_dataflow uuid grace force : ensures (WF R) (restart_dataflow uuid grace force) (λ _, True).
Proof.
  apply WF_leaves. intros ns Hu. unfold restart_dataflow.
  eapply (leaves_bind _ _ _ (λ df, ns !! uuid = Some (df_name df)));
    [done|apply ens_get_df; intros; by eapply inv_name|]. intros df0 Hname.
  eapply leaves_bind; [done|by apply ens_stop_dataflow, _|]. intros _ _.
  eapply leaves_bind; [done|apply ens_persist|]. intros _ _.
  eapply leaves_bind; [done|by apply (ens_new_uuid _ (λ _, True))|]. intros session _.
  eapply leaves_bind; [done|apply ens_start_dataflow|]. intros df [Hdf Hn0].
  eapply leaves_change; [intros c; apply Inv_delete|].
  assert (names_unique (delete uuid ns)) as Hu' by by apply names_unique_delete.
  eapply leaves_bind; [done|apply ens_persist_df, _|]. intros ? ->.
  destruct (next_generation_ok R (df_uuid df) df Hdf) as [Hok Hn].
  eapply (leaves_insert _ _ _ (λ _, True)); [|done|by apply ens_ret]. apply names_unique_insert; [done|].
  intros n Hn1 u [Hne Hu1]%lookup_delete_Some. apply Hne.
  eapply Hu; [|exact Hu1]. rewrite Hname. f_equal. congruence.
Qed.

Lemma WF_finish_dataflow ns uuid df :
  names_unique ns → leaves ns (finish_dataflow uuid df).
Proof.
  intros Hu. unfold finish_dataflow.
  eapply leaves_bind; [done|apply (ens_upd_archived _ _ _ (λ _, True)); [done|]|].
  { intros l _ Hk. by apply evict_ok, assoc_or_insert_keys. }
  intros _ _. eapply leaves_change; [intros c; apply Inv_delete|].
  apply (leaves_ensures _ _ (λ _, True)); [by apply names_unique_delete|]. keep.
Qed.

Lemma WF_handle_finished uuid d r : ensures (WF R) (handle_finished uuid d r) (λ _, True).
Proof.
  apply WF_leaves. intros ns Hu. unfold handle_finished. intros c Hc. unfold gets, mbind at 1, CM_bind at 1.
  destruct (running_dataflows c !! uuid) as [df|] eqn:Edf; [|by exists ns].
  revert c Hc Edf. intros c Hc Edf. cbv zeta.
  set (df' := {| df with daemons := _ |}).
  assert (leaves ns (modify (upd_running <[uuid:=df']>);;
     modify (upd_results (λ m, <[uuid:=<[d:=r]> (default ∅ (m !! uuid))]> m));;
     (if bool_decide (daemons df' = ∅) then finish_dataflow uuid df' else mret tt))) as Hl; [|by apply Hl].
  eapply leaves_bind; [done|eapply (ens_write_back _ _ _ _ _ _ (λ _, True)); [done|done|done|same_read]|].
  intros _ _. eapply leaves_bind; [done|apply (ens_modify _ _ (λ _, True)); [done|]|].
  { intros ?. apply framed_results. }
  intros _ _. case_bool_decide; [by apply WF_finish_dataflow|by apply (leaves_ensures _ _ (λ _, True)); [|apply ens_ret]].
Qed.

(** ** All events *)

Lemma WF_handle_request r to : ensures (WF R) (handle_request r to) (λ _, True).
Proof.
  pose proof WF_start_request. pose proof WF_restart_dataflow.
  destruct r; cbn [handle_request]; try (apply WF_of; intros ns; keep; fail);
    ens; try (apply WF_of; intros ns; keep; fail).
Qed.

Lemma WF_handle_event e :
  (∀ u d ex, e = EDataflow u (ReadyOnDaemon d ex) → R u d) → ensures (WF R) (handle_event e) (λ _, True).
Proof.
  intros HR. pose proof WF_handle_finished. pose proof WF_handle_request.
  destruct e as [| u [d ex|]|[]| | | | | | | | | | |]; cbn [handle_event handle_control];
    try done; apply WF_of; intros ns; [by keep| |by keep..].
  apply ens_handle_ready. by eapply HR.
Qed.

(** The report of an input, and the reports among some inputs. *)
Definition report (i : Input) : option (Uuid * DaemonId) :=
  match i with IEvent _ _ (EDataflow u (ReadyOnDaemon d _)) => Some (u, d) | _ => None end.
Definition reports (inputs : list Input) : list (Uuid * DaemonId) := omap report inputs.

Lemma WF_step i : (∀ u d, report i = Some (u, d) → R u d) → ensures (WF R) (step i) (λ _, True).
Proof.
  intros HR. destruct i as [t ms e|i]; cbn [step].
  - apply ens_bind_any; [|intros _; apply WF_handle_event; intros u d ex ->; by apply HR]. apply ens_modify; [done|].
    intros c. apply framed_time.
  - apply WF_of. intros ns. keep.
Qed.

Lemma WF_run inputs : (∀ u d, (u, d) ∈ reports inputs → R u d) → ensures (WF R) (run inputs) (λ _, True).
Proof.
  induction inputs as [|i inputs IH]; intros HR; cbn [run]; ens.
  - apply WF_step. intros u d Hi. apply HR. unfold reports. cbn. rewrite Hi. left.
  - apply IH. intros u d Hin. apply HR. unfold reports. cbn. destruct (report i); [by right|done].
Qed.

Lemma WF_start_inner s t ms inputs :
  (∀ u d, (u, d) ∈ reports inputs → R u d) → WF R (start_inner s t ms inputs).2.
Proof.
  intros HR. unfold start_inner. assert (ensures (WF R) (start_up;; run inputs) (λ _, True)) as Hr.
  { ens. by apply WF_run. }
  apply Hr. exists ∅. split; [by intros ? ? ?|]. split; [done|done|]. split; cbn; try apply NoDup_nil_2; try lia. done.
Qed.

Lemma resolve_name_running ns c u df name archived :
  names_unique ns → I ns c → running_dataflows c !! u = Some df → df_name df = Some name →
  resolve_name name (running_dataflows c) archived = Ok u.
Proof.
  intros Hu Hc Hdf Hn. unfold resolve_name.
  set (l := retain _ (hash_iter (running_dataflows c))).
  assert (∀ e, e ∈ l ↔ running_dataflows c !! e.1 = Some e.2 ∧ df_name e.2 = Some name) as Hl.
  { intros [u' df']. unfold l. rewrite elem_of_retain, bool_decide_eq_true, hash_iter_perm, elem_of_map_to_list.
    cbn. tauto. }
  assert (∀ e, e ∈ l → e = (u, df)) as Hone.
  { intros [u' df'] [H1' H2']%Hl. cbn in *. assert (u' = u) as ->; [|congruence].
    apply (Hu u' u name); [rewrite <- H2'|rewrite <- Hn]; by eapply inv_name. }
  assert (NoDup l) as Hnd.
  { unfold l, retain. apply NoDup_filter. rewrite hash_iter_perm. apply NoDup_map_to_list. }
  assert ((u, df) ∈ l) as Hin by by apply Hl.
  destruct l as [|e [|e' l']]; [by apply elem_of_nil in Hin| |].
  - rewrite (Hone e); [done|left].
  - exfalso. apply NoDup_cons in Hnd as [Hnd _]. apply Hnd.
    rewrite (Hone e), (Hone e'); [left|right; left|left].
Qed.

End names.

Section theorems.
Context `{HashOrder} `{UuidFormat} {S : Type} `{CoordinatorStore S} `{World}.

(** C1. Whatever daemons, clients and the store do, the tables of the coordinator stay
    consistent: a running dataflow is stored under its own UUID, its name leads to it and to no
    other, the acknowledgements kept for it include all of its daemons, and its buffers, the
    archive and the finished builds stay within their bounds. *)
Theorem coordinator_tables (s : S) (t : Instant) (ms : Z) (inputs : list Input) :
  let c := (start_inner s t ms inputs).2 in
  (∀ u df, running_dataflows c !! u = Some df →
    df_uuid df = u ∧
    (∀ name archived, df_name df = Some name → resolve_name name (running_dataflows c) archived = Ok u) ∧
    daemons df ⊆ dom (daemon_ack_sequence df) ∧
    length (state_log df) ≤ MAX_STATE_LOG_ENTRIES ∧
    length (buffered_log_messages df) ≤ MAX_BUFFERED_LOG_MESSAGES) ∧
  length (archived_dataflows c) ≤ MAX_ARCHIVED_DATAFLOWS ∧ NoDup (archived_dataflows c).*1 ∧
  length (finished_builds c) ≤ MAX_FINISHED_BUILDS ∧ NoDup (finished_builds c).*1.
Proof.
  cbv zeta. destruct (WF_start_inner (λ _ _, True) s t ms inputs) as (ns & Hu & Hc); [done|]. set (c := (start_inner _ _ _ _).2) in *.
  destruct (inv_tables _ _ _ Hc). split_and!; try done. intros u df Hdf.
  destruct (inv_df _ _ _ Hc u df Hdf) as [Hid Hb (hist & k & Hr) _]. split_and!; try done.
  - intros name archived Hn. by eapply resolve_name_running.
  - apply (rep_daemons _ _ _ Hr).
  - rewrite (rep_log _ _ _ Hr), length_number, length_drop. apply (rep_bound _ _ _ Hr).
Qed.
End theorems.
