(* ===== verification/CoordSample.v ===== *)
(** * A concrete environment of the coordinator

    Daemons that accept every command except on the channels of [down], a store in memory, and
    a dataflow of two nodes on two machines, for evaluating the definitions. *)

From Stdlib Require Import ZArith.
From Stdlib Require Strings.String.
From stdpp Require Import base gmap sets list strings.
From S2P Require Import Prelude Message Text Descriptor Store CoordState StateLog Coordinator.
Local Open Scope list_scope.
Local Open Scope string_scope.

Definition accept (e : DaemonCoordinatorEvent) : option DaemonCoordinatorReply :=
  match e with
  | Build _ => Some (TriggerBuildResult (Ok tt))
  | Spawn _ => Some (TriggerSpawnResult (Ok tt))
  | StopDataflow _ _ _ => Some (StopResult (Ok tt))
  | ReloadDataflow _ _ _ => Some (ReloadResult (Ok tt))
  | Logs _ _ _ => Some (LogsResult (Ok []))
  | RestartNode _ _ _ => Some (RestartNodeResult (Ok tt))
  | StopNode _ _ _ => Some (StopNodeResult (Ok tt))
  | SetParam _ _ _ _ => Some (SetParamResult (Ok tt))
  | DeleteParam _ _ _ => Some (DeleteParamResult (Ok tt))
  | Destroy => Some (DestroyResult (Ok tt))
  | StartTopicDebugStream _ _ _ => Some (StartTopicDebugStreamResult (Ok tt))
  | StopTopicDebugStream _ _ => Some (StopTopicDebugStreamResult (Ok tt))
  | _ => None
  end.

Definition sample_camera : Node :=
  let n := plain_node "camera" ∅ {["image"]} in
  {| n with n_deploy := Some (mkDeploy (Some "a") None ∅ DistLocal) |}.
Definition sample_detector : Node :=
  let n := plain_node "detector" {["image" := from_node "camera" "image"]} ∅ in
  {| n with n_deploy := Some (mkDeploy (Some "b") None ∅ DistLocal) |}.
Definition sample_flow : Descriptor := plain_descriptor [sample_camera; sample_detector].

Definition sample_world (down : ChannelId → bool) : World := {|
  deliver := λ _ channel _, negb (down channel);
  exchange := λ _ channel e, if down channel then Err "timeout" else Ok (accept e);
  client_send := λ _ _, SendOk;
  client_closed := λ _ _, false;
  fresh_uuid := λ n, N.of_nat (100 + n);
  petname := λ _, Some "quiet-panda";
  ros2_json := λ _, Err "no ROS2 nodes";
  descriptor_to_json := λ _, Ok "flow";
  descriptor_from_json := λ _, Ok sample_flow;
  value_to_vec := String.list_byte_of_string;
  value_from_slice := λ l, Some (String.string_of_list_byte l)
|}.

(** Two daemons register on channels 1 and 2 and a client starts the dataflow. *)
Definition sample_start : list Input :=
  [IEvent 0 0 (ERegister (Ok tt) (Some "a") ∅ 1%N 10%N);
   IEvent 0 0 (ERegister (Ok tt) (Some "b") ∅ 2%N 11%N);
   IEvent 1 1 (EControl (IncomingRequest (RStart None 5%N sample_flow (Some "demo") None false None) 12%N))]%Z.

Definition sample_a : DaemonId := mkDaemonId (Some "a") 100%N.
Definition sample_b : DaemonId := mkDaemonId (Some "b") 101%N.
Definition sample_uuid : Uuid := 102%N.

Definition sample_coord (inputs : list Input) (down : ChannelId → bool) : Coord InMemoryStore :=
  (@start_inner hash_order_default bits_uuid _ _ (sample_world down) mem_new 0%Z 0%Z inputs).2.
Definition sample_df (c : Coord InMemoryStore) : RunningDataflow :=
  default sample_running (running_dataflows c !! sample_uuid).
Definition sample_view (c : Coord InMemoryStore) : StoreView :=
  let s := store c in mkStoreView (mem_daemons s) (mem_dataflows s) (mem_builds s) (mem_params s).
Lemma sample_view_rep c : store_rep (store c) (sample_view c).
Proof. reflexivity. Qed.
