(* ===== verification/CoordSpawn.v ===== *)
(** * Placing and spawning a dataflow

    What [spawn_dataflow] does on every path: each node goes to a connected daemon that meets
    its deployment, each daemon gets one spawn command with exactly its nodes and answers that
    it accepts, and when a daemon does not accept, those that accepted before it are told to
    stop. *)

From Stdlib Require Import ZArith Lia.
From stdpp Require Import base gmap sets list strings.
From S2P Require Import Prelude Message Text Descriptor Store CoordState StateLog Coordinator CoordLogic CoordSample.
Local Open Scope list_scope.

(** ** Placement *)

(** A connected daemon that meets the deployment of a node. *)
Definition satisfies (conns : gmap DaemonId DaemonConnection) (deploy : option Deploy) (d : DaemonId) : Prop :=
  ∃ conn, conns !! d = Some conn ∧
    match deploy ≫= deploy_machine with
    | Some machine => machine_id d = Some machine
    | None => let labels := from_option deploy_labels ∅ deploy in
              if bool_decide (labels = ∅) then machine_id d = None else labels ⊆ conn_labels conn
    end.

Lemma head_retain {A} (P : A → bool) l a : head (retain P l) = Some a → P a = true ∧ a ∈ l.
Proof. intros Hh. apply elem_of_retain. destruct (retain P l); [done|]. injection Hh as ->. left. Qed.

Lemma labels_match_subseteq required conn : labels_match required conn = true → required ⊆ conn_labels conn.
Proof.
  unfold labels_match. intros Hf. apply map_subseteq_spec. intros k v Hk.
  rewrite forallb_forall in Hf. specialize (Hf (k, v)). cbn in Hf.
  rewrite bool_decide_eq_true in Hf. apply Hf, list_elem_of_In. by apply elem_of_btree_iter.
Qed.

Lemma resolve_daemon_satisfies conns deploy d : resolve_daemon conns deploy = Ok d → satisfies conns deploy d.
Proof.
  assert (∀ d, res_of_option "no unnamed daemon connections" (head (unnamed conns)) = Ok d →
    ∃ conn, conns !! d = Some conn ∧ machine_id d = None) as Hany.
  { intros d' Hd. destruct (head (unnamed conns)) as [d0|] eqn:E; [|done]. injection Hd as ->.
    apply head_retain in E as [Hu [conn Hc]%elem_of_btree_keys]. exists conn. split; [done|].
    unfold is_unnamed in Hu. by destruct (machine_id d'). }
  unfold resolve_daemon, satisfies. destruct deploy as [[[m|] dir labels strategy]|]; cbn.
  - destruct (get_matching_daemon_id conns m) as [d0|] eqn:E; [|done]. intros [= ->].
    apply head_retain in E as [Hm [conn Hc]%elem_of_btree_keys]. exists conn. split; [done|].
    unfold matches_machine_id in Hm. destruct (machine_id d); [|done].
    apply bool_decide_eq_true in Hm. by subst.
  - case_bool_decide; [apply Hany|]. unfold get_matching_daemon_by_labels.
    destruct (fst <$> head _) as [d0|] eqn:E; [|done]. intros [= ->].
    apply fmap_Some in E as ([? conn] & [Hl Hin%elem_of_btree_iter]%head_retain & ->). exists conn. split; [done|].
    by apply labels_match_subseteq.
  - rewrite bool_decide_true by done. apply Hany.
Qed.

Lemma head_retain_None {A} (P : A → bool) l a : head (retain P l) = None → a ∈ l → P a = false.
Proof.
  intros Hh Ha. destruct (P a) eqn:E; [|done]. assert (a ∈ retain P l) as Hin by by apply elem_of_retain.
  destruct (retain P l); [by apply elem_of_nil in Hin|done].
Qed.

Lemma subseteq_labels_match required conn : required ⊆ conn_labels conn → labels_match required conn = true.
Proof.
  unfold labels_match. intros Hs. apply forallb_forall. intros [k v] Hk. apply bool_decide_eq_true.
  eapply lookup_weaken; [|done]. apply elem_of_btree_iter. by apply list_elem_of_In.
Qed.

(** A node is turned down only when no connected daemon meets its deployment. *)
Lemma resolve_daemon_complete conns deploy :
  match resolve_daemon conns deploy with Ok _ => True | Err _ => ∀ d, ¬ satisfies conns deploy d | Panic => False end.
Proof.
  assert (match res_of_option "no unnamed daemon connections" (head (unnamed conns)) with
    | Ok _ => True | Err _ => ∀ d conn, conns !! d = Some conn → machine_id d ≠ None | Panic => False end) as Hany.
  { destruct (head (unnamed conns)) eqn:E; [done|]. cbn. intros d conn Hd Hm.
    apply (head_retain_None _ _ d) in E; [|apply elem_of_btree_keys; by exists conn].
    unfold is_unnamed in E. by rewrite Hm in E. }
  unfold resolve_daemon, satisfies. destruct deploy as [[[m|] dir labels strategy]|]; cbn.
  - destruct (get_matching_daemon_id conns m) eqn:E; [done|]. cbn. intros d (conn & Hd & Hm).
    apply (head_retain_None _ _ d) in E; [|apply elem_of_btree_keys; by exists conn].
    unfold matches_machine_id in E. rewrite Hm in E. by apply bool_decide_eq_false in E.
  - case_bool_decide.
    { destruct (res_of_option _ _); [done| |done]. intros d (conn & Hd & Hm). by eapply Hany. }
    unfold get_matching_daemon_by_labels. destruct (fst <$> head _) eqn:E; [done|]. cbn.
    intros d (conn & Hd & Hl). apply fmap_None in E.
    apply (head_retain_None _ _ (d, conn)) in E; [|by apply elem_of_btree_iter].
    cbn in E. by rewrite subseteq_labels_match in E.
  - destruct (res_of_option _ _); [done| |done]. rewrite bool_decide_true by done.
    intros d (conn & Hd & Hm). by eapply Hany.
Qed.

(** The daemon a node is put on. *)
Definition placed_on (conns : gmap DaemonId DaemonConnection) (d : DaemonId) (n : ResolvedNode) : bool :=
  match resolve_daemon conns (r_deploy n) with Ok d' => bool_decide (d' = d) | _ => false end.

Lemma nodes_by_daemon_groups conns nodes groups groups' :
  nodes_by_daemon conns nodes groups = Ok groups' →
  (∀ d, default [] (groups' !! d) = default [] (groups !! d) ++ retain (placed_on conns d) nodes) ∧
  (∀ d, is_Some (groups' !! d) ↔ is_Some (groups !! d) ∨ ∃ n, n ∈ nodes ∧ resolve_daemon conns (r_deploy n) = Ok d) ∧
  (∀ n, n ∈ nodes → ∃ d, resolve_daemon conns (r_deploy n) = Ok d).
Proof.
  revert groups. induction nodes as [|n nodes IH]; intros groups; cbn [nodes_by_daemon].
  { intros [= ->]. split_and!.
    - intros d. by rewrite app_nil_r.
    - intros d. split; [by left|]. intros [?|(? & []%elem_of_nil & _)]. done.
    - by intros n []%elem_of_nil. }
  intros (d0 & Hd0 & Hrest)%res_bind_Ok. destruct (IH _ Hrest) as (Hg & Hk & Hp). split_and!.
  - intros d. rewrite Hg. rewrite retain_cons. unfold placed_on at 2. rewrite Hd0. case_bool_decide as Hd.
    + subst d. rewrite lookup_insert_eq. cbn. by rewrite <- app_assoc.
    + by rewrite lookup_insert_ne.
  - intros d. rewrite Hk. rewrite lookup_insert_is_Some. setoid_rewrite elem_of_cons. split.
    + intros [[->|[_ ?]]|(n' & ? & ?)]; [right; by exists n; auto|by left|right; exists n'; auto].
    + destruct (decide (d0 = d)) as [->|]; [by left; left|].
      intros [?|(n' & [->|?] & ?)]; [left; by right|congruence|right; by exists n'].
  - intros n' [->|Hn']%elem_of_cons; [by eexists|by apply Hp].
Qed.

Lemma nodes_by_daemon_complete conns nodes groups :
  match nodes_by_daemon conns nodes groups with
  | Ok _ => True
  | Err _ => ∃ n, n ∈ nodes ∧ ∀ d, ¬ satisfies conns (r_deploy n) d
  | Panic => False
  end.
Proof.
  revert groups. induction nodes as [|n nodes IH]; intros groups; cbn [nodes_by_daemon]; [done|].
  pose proof (resolve_daemon_complete conns (r_deploy n)) as Hr.
  destruct (resolve_daemon _ _) as [d|e|]; cbn; [|exists n; split; [left|done]|done].
  specialize (IH (<[d := default [] (groups !! d) ++ [n]]> groups)).
  destruct (nodes_by_daemon _ _ _); [done| |done]. destruct IH as (n' & ? & ?). exists n'. split; [by right|done].
Qed.

(** ** Spawning *)

Section spawning.
Context `{HashOrder} `{UuidFormat} {S : Type} `{CoordinatorStore S} `{World}.
Implicit Types (c : Coord S) (conns : gmap DaemonId DaemonConnection).

(** The daemon takes the spawn command and says so; anything else (a refusal, an error of the
    exchange, a reply that cannot be read or is of another kind) is not an acceptance. *)
Definition accepts (t : list Output) (conn : DaemonConnection) (command : SpawnDataflowNodes) : Prop :=
  exchange t (conn_channel conn) (Spawn command) = Ok (Some (TriggerSpawnResult (Ok tt))).
Definition spawn_output (conn : DaemonConnection) (command : SpawnDataflowNodes) : Output :=
  OSent (conn_channel conn) (ToEvent (Spawn command)).

(** The daemons are sent their commands one after the other and each of them accepts: [l] is
    what was sent after [t]. *)
Inductive all_accept conns : list Output → list (DaemonId * SpawnDataflowNodes) → list Output → Prop :=
  | accept_nil t : all_accept conns t [] []
  | accept_cons t d command conn commands l :
      conns !! d = Some conn → accepts t conn command →
      all_accept conns (t ++ [spawn_output conn command]) commands l →
      all_accept conns t ((d, command) :: commands) (spawn_output conn command :: l).

(** The message that tells the daemon [d] to stop the dataflow, forcibly. *)
Definition stop_output conns (dataflow_id : Uuid) (d : DaemonId) (o : Output) : Prop :=
  ∃ conn, conns !! d = Some conn ∧ o = OSent (conn_channel conn) (ToEvent (StopDataflow dataflow_id None true)).

(** The command of a group of nodes. *)
Definition group_command (command : gset NodeId → SpawnDataflowNodes) (g : DaemonId * list ResolvedNode)
    : DaemonId * SpawnDataflowNodes := (g.1, command (list_to_set (r_id <$> g.2))).

Definition place_group (m : gmap NodeId DaemonId) (g : DaemonId * list ResolvedNode) : gmap NodeId DaemonId :=
  foldl (λ m n, <[r_id n := g.1]> m) m g.2.

(** Some exchange with a daemon panics: no answer of a daemon does that. *)
Definition exchange_panics : Prop :=
  ∃ t channel event, decode expect_stop (exchange t channel event) = Panic ∨
                     decode expect_spawn (exchange t channel event) = Panic.

Lemma decode_spawn_Ok r : decode expect_spawn r = Ok tt ↔ r = Ok (Some (TriggerSpawnResult (Ok tt))).
Proof. unfold decode. destruct r as [[[]|]| |]; cbn; try done; split; intros; simplify_eq/=; done. Qed.

Lemma rollback_run dataflow_id ids c :
  (∀ d, d ∈ ids → is_Some (connections c !! d)) →
  let r := rollback_spawned_daemons dataflow_id ids c in
  ∃ l, r.2 = sent l c ∧
    (r.1 = Panic ∧ exchange_panics ∨ is_ok r.1 = true ∧ Forall2 (stop_output (connections c) dataflow_id) ids l).
Proof.
  cbv zeta. revert c. induction ids as [|d ids IH]; intros c Hc; cbn [rollback_spawned_daemons].
  { exists []. split; [by rewrite sent_nil|]. right. split; [done|constructor]. }
  destruct (Hc d) as [conn Hd]; [left|].
  set (m := get_connection d ≫= _). set (o := OSent (conn_channel conn) (ToEvent (StopDataflow dataflow_id None true))).
  assert (m c = (decode expect_stop (exchange (trace c) (conn_channel conn) (StopDataflow dataflow_id None true)),
    sent [o] c)) as Hm.
  { unfold m. erewrite bind_Ok; [apply request_run|]. unfold get_connection. by rewrite Hd. }
  destruct (IH (sent [o] c)) as (l & Hs & Hl); [by intros d' Hd'; apply Hc; right|].
  rewrite sent_sent in Hs. destruct (decode _ _) as [a|e|] eqn:Er.
  3: { exists [o]. erewrite bind_Panic by (by eapply catch_Panic). split; [done|]. left. split; [done|].
       unfold exchange_panics. eauto. }
  all: erewrite bind_Ok by (by eapply catch_run); exists ([o] ++ l).
  all: destruct (rollback_spawned_daemons _ _ _) as [[errors|e'|] c'] eqn:Eb; cbn [fst snd] in *; subst c'.
  all: destruct Hl as [[[=] ?]|[[=] Hl]]; unfold mbind, CM_bind; rewrite Eb; (split; [done|]).
  all: first [by left|right; split; [done|]; constructor; [by exists conn|done]].
Qed.

Lemma spawn_on_daemons_run command dataflow_id groups ds ntd c :
  (∀ d, d ∈ groups.*1 ∨ d ∈ ds → is_Some (connections c !! d)) →
  let r := spawn_on_daemons command dataflow_id groups ds ntd c in
  ∃ l, r.2 = sent l c ∧
  match r.1 with
  | Ok (ds', ntd') =>
      ds' = list_to_set groups.*1 ∪ ds ∧
      ntd' = foldl place_group ntd groups ∧
      all_accept (connections c) (trace c) (group_command command <$> groups) l
  | Err _ =>
      ∃ accepted refused rest conn l1 l2, groups = accepted ++ refused :: rest ∧
        connections c !! refused.1 = Some conn ∧
        l = l1 ++ spawn_output conn (group_command command refused).2 :: l2 ∧
        all_accept (connections c) (trace c) (group_command command <$> accepted) l1 ∧
        ¬ accepts (trace c ++ l1) conn (group_command command refused).2 ∧
        Forall2 (stop_output (connections c) dataflow_id) (btree_elems (list_to_set accepted.*1 ∪ ds)) l2
  | Panic => exchange_panics
  end.
Proof.
  cbv zeta. revert ds ntd c. induction groups as [|[d nodes] groups IH]; intros ds ntd c Hc;
    cbn [spawn_on_daemons].
  { exists []. cbn. rewrite sent_nil. split_and!; [done|set_solver|done|constructor]. }
  destruct (Hc d) as [conn Hd]; [left; left|].
  erewrite bind_Ok by (unfold get_connection; by rewrite Hd).
  set (cmd := command (list_to_set (r_id <$> nodes))).
  pose proof (request_run conn (Spawn cmd) expect_spawn c) as Hreq. fold (spawn_output conn cmd) in Hreq.
  destruct (decode _ _) as [[]|e|] eqn:Ed.
  3: { erewrite bind_Panic by (by eapply catch_Panic). exists [spawn_output conn cmd]. split; [done|].
       unfold exchange_panics. cbn [fst]. eauto. }
  all: erewrite bind_Ok by (by eapply catch_run); cbv beta iota.
  - apply decode_spawn_Ok in Ed.
    destruct (IH ({[d]} ∪ ds) (foldl (λ m n, <[r_id n := d]> m) ntd nodes) (sent [spawn_output conn cmd] c))
      as (l & Hs & Hl); [intros d' Hd'; apply Hc; set_solver|].
    exists (spawn_output conn cmd :: l). split; [by rewrite Hs, sent_sent|].
    destruct (spawn_on_daemons _ _ _ _ _ _) as [[[ds' ntd']|e|] c']; cbn [fst snd] in *; [| |done].
    + destruct Hl as (-> & -> & Ha). split_and!; [cbn; set_solver|done|]. by econstructor.
    + destruct Hl as (accepted & refused & rest & conn' & l1 & l2 & -> & Hr & -> & Ha & Hn & Hst).
      exists ((d, nodes) :: accepted), refused, rest, conn', (spawn_output conn cmd :: l1), l2.
      split_and!; [done..|by econstructor| |].
      * by rewrite trace_sent, <- (app_assoc (trace c)) in Hn.
      * cbn. by rewrite (union_comm_L {[d]}), <- (union_assoc_L _ {[d]}).
  - assert (¬ accepts (trace c ++ []) conn cmd) as Hno.
    { rewrite app_nil_r. unfold accepts. intros Ha. rewrite Ha in Ed. done. }
    destruct (rollback_run dataflow_id (btree_elems ds) (sent [spawn_output conn cmd] c)) as (l & Hs & Hl).
    { intros d' Hd'%elem_of_btree_elems. apply Hc. by right. }
    exists (spawn_output conn cmd :: l). rewrite sent_sent in Hs.
    destruct (rollback_spawned_daemons _ _ _) as [[errors|e'|] c'] eqn:Er; cbn [fst snd] in *; subst c'.
    all: destruct Hl as [[[=] ?]|[[=] Hl]]; unfold mbind, CM_bind; rewrite Er; (split; [done|]); try done.
    exists [], (d, nodes), groups, conn, [], l. split_and!; [done..|constructor|done|].
    cbn. by rewrite union_empty_l_L.
Qed.

(** The group of each daemon decides where its nodes are. *)
Lemma place_group_lookup m g n d :
  place_group m g !! n = Some d → m !! n = Some d ∨ g.1 = d ∧ ∃ node, node ∈ g.2 ∧ r_id node = n.
Proof.
  destruct g as [d0 nodes]. unfold place_group. cbn. revert m.
  induction nodes as [|node nodes IH]; intros m; cbn [foldl]; [by left|].
  intros [[[<- <-]|[_ ?]]%lookup_insert_Some|(-> & node' & ? & ?)]%IH; [right|by left|right].
  - split; [done|]. exists node. split; [left|done].
  - split; [done|]. exists node'. split; [by right|done].
Qed.
Lemma place_groups_lookup groups m n d :
  foldl place_group m groups !! n = Some d →
  m !! n = Some d ∨ ∃ nodes node, (d, nodes) ∈ groups ∧ node ∈ nodes ∧ r_id node = n.
Proof.
  revert m. induction groups as [|[d0 nodes] groups IH]; intros m; cbn [foldl]; [by left|].
  intros [[?|(<- & node & ? & ?)]%place_group_lookup|(nodes' & node & ? & ? & ?)]%IH; [by left|right..].
  - exists nodes, node. split_and!; [left|done..].
  - exists nodes', node. split_and!; [by right|done..].
Qed.

Lemma place_group_dom m g n :
  is_Some (m !! n) ∨ (∃ node, node ∈ g.2 ∧ r_id node = n) → is_Some (place_group m g !! n).
Proof.
  destruct g as [d nodes]. unfold place_group. cbn. revert m.
  induction nodes as [|node nodes IH]; intros m; cbn [foldl].
  { intros [?|(? & []%elem_of_nil & _)]. done. }
  intros Hn. apply IH. rewrite lookup_insert_is_Some'.
  destruct Hn as [?|(node' & [->|?]%elem_of_cons & ?)]; [by left; right|by left; left|by right; exists node'].
Qed.
Lemma place_groups_dom groups m n :
  is_Some (m !! n) ∨ (∃ g node, g ∈ groups ∧ node ∈ g.2 ∧ r_id node = n) →
  is_Some (foldl place_group m groups !! n).
Proof.
  revert m. induction groups as [|g groups IH]; intros m; cbn [foldl].
  { intros [?|(? & ? & []%elem_of_nil & _)]. done. }
  intros Hn. apply IH. destruct Hn as [?|(g' & node & [->|?]%elem_of_cons & ? & ?)];
    [left; apply place_group_dom; by left|left; apply place_group_dom; right; by exists node|
     right; by exists g', node].
Qed.

(** The nodes of a group are those that [node_to_daemon] puts on its daemon. *)
Definition nodes_on (m : gmap NodeId DaemonId) (d : DaemonId) : gset NodeId :=
  dom (filter (λ e, e.2 = d) m).

Section placement.
Variables (conns : gmap DaemonId DaemonConnection) (nodes : gmap NodeId ResolvedNode).
Variable groups : gmap DaemonId (list ResolvedNode).
Hypothesis Hkeyed : keyed nodes.
Hypothesis Hgroups : nodes_by_daemon conns (btree_iter nodes).*2 ∅ = Ok groups.
Abbreviation placed := (foldl place_group ∅ (btree_iter groups)).

Lemma group_member d l node :
  (d, l) ∈ btree_iter groups →
  node ∈ l ↔ nodes !! r_id node = Some node ∧ resolve_daemon conns (r_deploy node) = Ok d.
Proof.
  destruct (nodes_by_daemon_groups _ _ _ _ Hgroups) as (Hg & _ & _).
  intros Hl%elem_of_btree_iter. specialize (Hg d). rewrite Hl, lookup_empty in Hg. cbn in Hg. subst l.
  rewrite elem_of_retain, list_elem_of_fmap. unfold placed_on. split.
  - intros [Hp ([n node'] & -> & Hn%elem_of_btree_iter)]. cbn in *.
    rewrite (Hkeyed _ _ Hn). split; [done|]. destruct (resolve_daemon _ _); [|done..].
    apply bool_decide_eq_true in Hp. by subst.
  - intros [Hn ->]. split; [by apply bool_decide_eq_true|]. exists (r_id node, node).
    split; [done|]. by apply elem_of_btree_iter.
Qed.

Lemma placed_lookup n d :
  placed !! n = Some d ↔ ∃ node, nodes !! n = Some node ∧ resolve_daemon conns (r_deploy node) = Ok d.
Proof.
  assert (∀ d', placed !! n = Some d' → ∃ node, nodes !! n = Some node ∧ resolve_daemon conns (r_deploy node) = Ok d')
    as Hfwd.
  { intros d' [Hl|(l & node & Hin & Hnode & <-)]%place_groups_lookup; [by rewrite lookup_empty in Hl|].
    exists node. by apply (group_member d' l). }
  split; [apply Hfwd|]. intros (node & Hn & Hr).
  destruct (nodes_by_daemon_groups _ _ _ _ Hgroups) as (_ & Hk & _).
  destruct (proj2 (Hk d)) as [l Hl].
  { right. exists node. split; [|done]. apply list_elem_of_fmap. exists (n, node). split; [done|].
    by apply elem_of_btree_iter. }
  pose proof (Hkeyed _ _ Hn) as Hid. destruct (place_groups_dom (btree_iter groups) ∅ n) as [d' Hd'].
  { right. exists (d, l), node. split_and!; [by apply elem_of_btree_iter| |done].
    eapply group_member; [by apply elem_of_btree_iter|]. by rewrite Hid. }
  rewrite Hd'. destruct (Hfwd d' Hd') as (node' & ? & ?). congruence.
Qed.

Lemma group_nodes d l : (d, l) ∈ btree_iter groups → list_to_set (r_id <$> l) = nodes_on placed d.
Proof.
  intros Hl. apply set_eq. intros n. unfold nodes_on.
  rewrite elem_of_list_to_set, list_elem_of_fmap, elem_of_dom. split.
  - intros (node & -> & [Hn Hr]%(group_member d l)); [|done]. exists d. apply map_lookup_filter_Some.
    split; [|done]. apply placed_lookup. by exists node.
  - intros [d' [(node & Hn & Hr)%placed_lookup Hd]%map_lookup_filter_Some]. cbn in Hd. subst d'.
    exists node. rewrite (Hkeyed _ _ Hn). split; [done|]. apply (group_member d l); [done|].
    by rewrite (Hkeyed _ _ Hn).
Qed.

Lemma group_daemons d : d ∈ (btree_iter groups).*1 ↔ ∃ n, placed !! n = Some d.
Proof.
  destruct (nodes_by_daemon_groups _ _ _ _ Hgroups) as (_ & Hk & _).
  fold (btree_keys groups). rewrite elem_of_btree_keys, Hk, lookup_empty. setoid_rewrite placed_lookup. split.
  - intros [[? [=]]|(node & ([n ?] & -> & ?%elem_of_btree_iter)%list_elem_of_fmap & ?)]. by exists n, r.
  - intros (n & node & ? & ?). right. exists node. split; [|done]. apply list_elem_of_fmap.
    exists (n, node). split; [done|]. by apply elem_of_btree_iter.
Qed.
End placement.

(** A placement of all the nodes, each on a connected daemon that meets its deployment. *)
Definition placement conns (nodes : gmap NodeId ResolvedNode) (m : gmap NodeId DaemonId) : Prop :=
  dom m = dom nodes ∧
  ∀ n d node, m !! n = Some d → nodes !! n = Some node → satisfies conns (r_deploy node) d.

Section grouped.
Variables (conns : gmap DaemonId DaemonConnection) (nodes : gmap NodeId ResolvedNode).
Variable groups : gmap DaemonId (list ResolvedNode).
Hypothesis Hkeyed : keyed nodes.
Hypothesis Hgroups : nodes_by_daemon conns (btree_iter nodes).*2 ∅ = Ok groups.
Abbreviation placed := (foldl place_group ∅ (btree_iter groups)).

Lemma placed_placement : placement conns nodes placed.
Proof.
  split.
  - apply set_eq. intros n. rewrite !elem_of_dom. split.
    + intros [d (node & ? & _)%(placed_lookup _ _ _ Hkeyed Hgroups)]. by eexists.
    + intros [node Hn]. destruct (nodes_by_daemon_groups _ _ _ _ Hgroups) as (_ & _ & Hp).
      destruct (Hp node) as [d Hd].
      { apply list_elem_of_fmap. exists (n, node). split; [done|]. by apply elem_of_btree_iter. }
      exists d. apply (placed_lookup _ _ _ Hkeyed Hgroups). by exists node.
  - intros n d node (node' & Hn & Hr)%(placed_lookup _ _ _ Hkeyed Hgroups) Hn'. simplify_eq.
    by apply resolve_daemon_satisfies.
Qed.

Lemma group_connected d : d ∈ (btree_iter groups).*1 → is_Some (conns !! d).
Proof.
  intros (n & (node & _ & (conn & ? & _)%resolve_daemon_satisfies)%(placed_lookup _ _ _ Hkeyed Hgroups))%
    (group_daemons _ _ _ Hkeyed Hgroups). by eexists.
Qed.

Lemma group_prefix accepted g rest :
  btree_iter groups = accepted ++ g :: rest →
  NoDup (accepted.*1 ++ [g.1]) ∧ accepted ++ [g] ⊆ btree_iter groups.
Proof.
  clear Hkeyed Hgroups. intros Hg. pose proof (NoDup_btree_keys groups) as Hk. unfold btree_keys in Hk.
  rewrite Hg, fmap_app, fmap_cons in *. split; [|set_solver].
  apply NoDup_app in Hk as (? & Hd & [? _]%NoDup_cons). apply NoDup_app. split_and!; [done| |apply NoDup_singleton].
  intros x Hx ->%list_elem_of_singleton. eapply Hd; [done|left].
Qed.

Lemma group_commands command gs :
  gs ⊆ btree_iter groups →
  group_command command <$> gs = (λ d, (d, command (nodes_on placed d))) <$> gs.*1.
Proof.
  intros Hsub. rewrite <- list_fmap_compose. apply list_fmap_ext. intros i [d l] Hi%list_elem_of_lookup_2.
  unfold group_command. cbn. by rewrite (group_nodes _ _ _ Hkeyed Hgroups d l) by auto.
Qed.
End grouped.

(** C3. Starting a dataflow gives one of three outcomes.  It succeeds: every node is placed on
    a connected daemon that meets its deployment, each daemon that has nodes was sent one spawn
    command with exactly its nodes, and every one of them answered that it accepts.  It fails
    with nothing sent: the descriptor does not resolve, or some node has a deployment that no
    connected daemon meets.  It fails because a daemon did not accept its command: the daemons
    asked before it had all accepted, no daemon is asked after it, and each one that had
    accepted is sent one message to stop the dataflow, forcibly.  In no case do the tables of
    the coordinator change. *)
Theorem spawn_dataflow_spec build_id session_id dataflow local_working_dir uv write_events_to c :
  let r := spawn_dataflow build_id session_id dataflow local_working_dir uv write_events_to c in
  let uuid := fresh_uuid (drawn c) in
  let resolved := resolve_aliases_and_set_defaults ros2_json dataflow in
  let command nodes m d :=
    mkSpawnNodes build_id session_id uuid local_working_dir nodes dataflow (nodes_on m d) uv
      write_events_to None in
  running_dataflows r.2 = running_dataflows c ∧ connections r.2 = connections c ∧
  ∃ sent_now, trace r.2 = trace c ++ sent_now ∧
  match r.1 with
  | Ok s =>
      spawned_uuid s = uuid ∧ resolved = Ok (spawned_nodes s) ∧
      placement (connections c) (spawned_nodes s) (spawned_node_to_daemon s) ∧
      ∃ ds, NoDup ds ∧ spawned_daemons s = list_to_set ds ∧
        (∀ d, d ∈ ds ↔ ∃ n, spawned_node_to_daemon s !! n = Some d) ∧
        all_accept (connections c) (trace c)
          ((λ d, (d, command (spawned_nodes s) (spawned_node_to_daemon s) d)) <$> ds) sent_now
  | Err _ =>
      (sent_now = [] ∧
        ∀ nodes, resolved = Ok nodes →
          ∃ n node, nodes !! n = Some node ∧ ∀ d, ¬ satisfies (connections c) (r_deploy node) d) ∨
      ∃ nodes m accepted refused conn spawns stopped stops,
        resolved = Ok nodes ∧ placement (connections c) nodes m ∧
        NoDup (accepted ++ [refused]) ∧ (∀ d, d ∈ accepted ++ [refused] → ∃ n, m !! n = Some d) ∧
        connections c !! refused = Some conn ∧
        sent_now = spawns ++ spawn_output conn (command nodes m refused) :: stops ∧
        all_accept (connections c) (trace c) ((λ d, (d, command nodes m d)) <$> accepted) spawns ∧
        ¬ accepts (trace c ++ spawns) conn (command nodes m refused) ∧
        stopped ≡ₚ accepted ∧ Forall2 (stop_output (connections c) uuid) stopped stops
  | Panic => resolved = Panic ∨ exchange_panics
  end.
Proof.
  cbv zeta. unfold spawn_dataflow. rewrite bind_lift.
  destruct (resolve_aliases_and_set_defaults ros2_json dataflow) as [nodes|e|] eqn:En.
  2, 3: cbn; split_and!; [done..|exists []; rewrite app_nil_r; split; [done|]; left; done].
  unfold new_uuid. erewrite bind_Ok by reflexivity. rewrite bind_gets, bind_lift.
  set (c1 := {| c with drawn := Datatypes.S (drawn c) |}).
  pose proof (nodes_by_daemon_complete (connections c1) (btree_iter nodes).*2 ∅) as Hcomplete.
  destruct (nodes_by_daemon (connections c1) _ _) as [groups|e|] eqn:Eg; [| |done].
  2: { cbn. split_and!; [done..|]. exists []. rewrite app_nil_r. split; [done|]. left. split; [done|].
       destruct Hcomplete as (node & ([n ?] & -> & Hn%elem_of_btree_iter)%list_elem_of_fmap & ?).
       intros ? [= <-]. eauto. }
  clear Hcomplete. pose proof (resolve_keyed _ _ _ En) as Hkeyed.
  set (command := λ spawn_nodes, mkSpawnNodes _ _ _ _ _ _ spawn_nodes _ _ _).
  destruct (spawn_on_daemons_run command (fresh_uuid (drawn c)) (btree_iter groups) ∅ ∅ c1) as (l & Hs & Hrun).
  { intros d [?|[]%elem_of_empty]. by eapply group_connected. }
  destruct (spawn_on_daemons _ _ _ _ _ _) as [[[ds ntd]|e|] c'] eqn:Es; cbn [fst snd] in *; subst c'.
  - erewrite bind_Ok by exact Es. cbn. do 2 (split; [done|]). exists l. split; [done|].
    destruct Hrun as (-> & -> & Hrun). do 2 (split; [done|]). split; [by apply placed_placement|].
    exists (btree_iter groups).*1. split_and!; [apply NoDup_btree_keys|set_solver| |].
    { intros d. by apply (group_daemons (connections c) nodes). }
    by rewrite (group_commands (connections c) nodes groups) in Hrun.
  - erewrite bind_Err by exact Es. cbn. do 2 (split; [done|]). exists l. split; [done|]. right.
    destruct Hrun as (accepted & [d ns] & rest & conn & l1 & l2 & Hg & Hc & -> & Ha & Hn & Hst).
    destruct (group_prefix _ _ _ _ Hg) as [Hnd Hsub]. cbn in Hnd.
    exists nodes, (foldl place_group ∅ (btree_iter groups)), accepted.*1, d, conn, l1,
      (btree_elems (list_to_set accepted.*1)), l2.
    rewrite (group_commands (connections c) nodes groups) in Ha by (done || set_solver).
    unfold group_command in Hn. cbn in Hn, Hc. rewrite (union_empty_r_L (list_to_set accepted.*1)) in Hst.
    assert (list_to_set (r_id <$> ns) = nodes_on (foldl place_group ∅ (btree_iter groups)) d) as Hns.
    { eapply group_nodes; [done..|]. apply Hsub. set_solver. }
    split_and!; [done|by apply placed_placement|done| |done|..].
    + intros x Hx. apply (group_daemons (connections c) nodes); [done..|].
      rewrite Hg, fmap_app, fmap_cons. set_solver.
    + cbn. by rewrite Hns.
    + done.
    + by rewrite Hns in Hn.
    + apply NoDup_Permutation; [apply NoDup_btree_elems|by apply NoDup_app in Hnd as [? _]|].
      intros x. by rewrite elem_of_btree_elems, elem_of_list_to_set.
    + done.
  - erewrite bind_Panic by exact Es. cbn. do 2 (split; [done|]). exists l. auto.
Qed.
End spawning.
