(* ===== verification/CoordBarrier.v ===== *)
(** * The start barrier of the coordinator

    A dataflow on several daemons starts when all of them have reported their nodes ready: the
    last report releases the nodes on every connected daemon, and no earlier one does. *)

From Stdlib Require Import ZArith Lia.
From stdpp Require Import base gmap sets list strings.
From S2P Require Import Prelude Message Text Descriptor Store CoordState StateLog Coordinator CoordLogic CoordInv CoordSample.
Local Open Scope list_scope.

Section barrier.
Context `{HashOrder} `{UuidFormat} {S : Type} `{CoordinatorStore S} `{World}.
Implicit Types (c : Coord S).

(** The message to one daemon of the dataflow, if it is connected. *)
Definition ready_message (uuid : Uuid) (exited : list NodeId) (conns : gmap DaemonId DaemonConnection)
    (id : DaemonId) : option Output :=
  (λ conn, OSent (conn_channel conn) (ToEvent (AllNodesReady uuid exited))) <$> conns !! id.

Definition send_ready (uuid : Uuid) (exited : list NodeId) (id : DaemonId) : CM S unit :=
  conns ← gets connections;
  match conns !! id with
  | None => mret tt
  | Some conn => send (conn_channel conn) (ToEvent (AllNodesReady uuid exited))
  end.

(** All sends succeed. *)
Lemma send_ready_all uuid exited ids c :
  (∀ t id conn m, connections c !! id = Some conn → deliver t (conn_channel conn) m = true) →
  for_each (send_ready uuid exited) ids c =
    (Ok tt, sent (omap (ready_message uuid exited (connections c)) ids) c).
Proof.
  revert c. induction ids as [|id ids IH]; intros c Hd.
  { cbn. by rewrite sent_nil. }
  cbn [for_each]. unfold mbind, CM_bind, send_ready at 1, gets. cbn. unfold mbind, CM_bind.
  unfold ready_message at 1. destruct (connections c !! id) as [conn|] eqn:E; cbn.
  - unfold send. rewrite Hd with (id := id) by done. rewrite IH by done. f_equal.
    apply sent_sent.
  - by apply IH.
Qed.

(** One of the daemons cannot be reached. *)
Lemma send_ready_fails uuid exited ids id conn c :
  id ∈ ids → connections c !! id = Some conn → (∀ t m, deliver t (conn_channel conn) m = false) →
  ∃ e, (for_each (send_ready uuid exited) ids c).1 = Err e.
Proof.
  revert c. induction ids as [|id' ids IH]; intros c Hin Hc Hd; [by apply elem_of_nil in Hin|].
  cbn [for_each]. unfold mbind, CM_bind, send_ready at 1, gets. cbn. unfold mbind, CM_bind.
  destruct (decide (id' = id)) as [->|Hne].
  { rewrite Hc. unfold send. rewrite Hd. by eexists. }
  apply elem_of_cons in Hin as [->|Hin]; [done|].
  destruct (connections c !! id') as [conn'|] eqn:E'; cbn; [|by apply IH].
  unfold send. destruct (deliver _ _ _); cbn; [|by eexists]. by apply IH.
Qed.

Lemma schedule_keeps_trace uuid df c : trace (schedule_param_replay_for_ready_dataflow uuid df c).2 = trace c.
Proof.
  unfold schedule_param_replay_for_ready_dataflow. generalize (btree_elems (daemons df)). intros ids.
  revert c. induction ids as [|id ids IH]; intros c; [done|]. cbn [for_each].
  unfold mbind, CM_bind, gets. cbn. unfold mbind, CM_bind. destruct (connections c !! id); cbn; by rewrite IH.
Qed.

Definition reported_ready (uuid : Uuid) (d : DaemonId) (exited : list NodeId) (df : RunningDataflow) : RunningDataflow :=
  {| df with pending_daemons := pending_daemons df ∖ {[d]};
             exited_before_subscribe := exited_before_subscribe df ++ exited |}.

Lemma handle_ready_unfold uuid d exited df c :
  running_dataflows c !! uuid = Some df →
  handle_ready uuid d exited c =
    (if negb (bool_decide (pending_daemons df ∖ {[d]} = ∅)) then mret tt
     else for_each (send_ready uuid (exited_before_subscribe df ++ exited)) (btree_elems (daemons df));;
          schedule_param_replay_for_ready_dataflow uuid (reported_ready uuid d exited df))
    (upd_running <[uuid := reported_ready uuid d exited df]> c).
Proof. intros Hdf. unfold handle_ready, gets, mbind at 1, CM_bind at 1. by rewrite Hdf. Qed.

(** C10. In every state the coordinator reaches, a report that a dataflow on several daemons is
    ready releases nothing while another daemon of the dataflow has not reported; and the
    report of the last daemon that is waited for tells every connected daemon of the dataflow,
    once, that all nodes are ready, with all nodes that exited early. *)
Theorem ready_barrier s t ms inputs uuid d exited df :
  let c := (start_inner s t ms inputs).2 in
  let c' := (handle_ready uuid d exited c).2 in
  running_dataflows c !! uuid = Some df → 2 ≤ size (daemons df) →
  ((∃ d', d' ∈ daemons df ∧ d' ≠ d ∧ (uuid, d') ∉ reports inputs) → trace c' = trace c) ∧
  (pending_daemons df ⊆ {[d]} →
   (∀ t id conn m, connections c !! id = Some conn → deliver t (conn_channel conn) m = true) →
   trace c' = trace c ++ omap (ready_message uuid (exited_before_subscribe df ++ exited) (connections c))
                           (btree_elems (daemons df))).
Proof.
  cbv zeta. intros Hdf Hs.
  destruct (WF_start_inner (λ u d, (u, d) ∈ reports inputs) s t ms inputs) as (ns & _ & Hi); [done|].
  set (c := (start_inner _ _ _ _).2) in *. clearbody c.
  rewrite (handle_ready_unfold _ _ _ df) by done. split.
  - intros (d' & Hd' & Hne & Hr). rewrite bool_decide_false; [done|]. intros Hempty.
    destruct (dfok_barrier _ _ _ (inv_df _ _ _ Hi _ _ Hdf) Hs d' Hd') as [Hp|]; [|done]. set_solver.
  - intros Hp Hdel. rewrite bool_decide_true by set_solver. cbn [negb]. unfold mbind, CM_bind.
    rewrite send_ready_all by done. rewrite schedule_keeps_trace. by destruct c.
Qed.

(** If one connected daemon of a dataflow cannot be sent the release when the dataflow gets
    ready, the event loop of the coordinator ends, whatever events would follow. *)
Theorem ready_send_failure_ends_loop c at_ ms uuid d exited df id conn inputs :
  aborted c = false → running_dataflows c !! uuid = Some df → pending_daemons df ⊆ {[d]} →
  id ∈ daemons df → connections c !! id = Some conn → (∀ t m, deliver t (conn_channel conn) m = false) →
  ∃ e, (run (IEvent at_ ms (EDataflow uuid (ReadyOnDaemon d exited)) :: inputs) c).1 = Err e.
Proof.
  intros Ha Hdf Hp Hid Hc Hd. cbn [run]. unfold mbind at 1, CM_bind at 1, gets at 1. rewrite Ha.
  cbn [step handle_event]. unfold mbind, CM_bind, modify at 1.
  rewrite (handle_ready_unfold _ _ _ df) by done. rewrite bool_decide_true by set_solver. cbn [negb].
  unfold mbind, CM_bind.
  destruct (send_ready_fails uuid (exited_before_subscribe df ++ exited) (btree_elems (daemons df)) id conn
    (upd_running <[uuid := reported_ready uuid d exited df]> {| c with now := at_; now_millis := ms |}))
    as [e He]; [by apply elem_of_btree_elems|done|done|].
  destruct (for_each _ _ _) as [[]]; cbn in He; by simplify_eq; eexists.
Qed.
End barrier.

(** The detector's daemon has reported, the camera's has not. *)
Definition sample_waiting : list Input :=
  sample_start ++ [IEvent 2 2 (EDataflow sample_uuid (ReadyOnDaemon sample_b []))].

Lemma ready_barrier_witness :
  let c := sample_coord sample_start (λ _, false) in
  let c2 := sample_coord sample_waiting (λ _, false) in
  let ready := λ c, trace (@handle_ready _ (sample_world (λ _, false)) sample_uuid sample_a ["camera"%string] c).2 in
  2 ≤ size (daemons (sample_df c)) ∧ ready c = trace c ∧
  ready c2 = trace c2 ++ [OSent 1 (ToEvent (AllNodesReady sample_uuid ["camera"%string]));
                          OSent 2 (ToEvent (AllNodesReady sample_uuid ["camera"%string]))]%N.
Proof.
  cbv zeta. split; [vm_compute; lia|]. split.
  - pose proof (@ready_barrier hash_order_default bits_uuid _ _ (sample_world (λ _, false)) mem_new 0%Z 0%Z
      sample_start sample_uuid sample_a ["camera"%string] (sample_df (sample_coord sample_start (λ _, false)))) as Hb.
    cbv zeta in Hb. fold (sample_coord sample_start (λ _, false)) in Hb.
    refine (proj1 (Hb _ _) _); [vm_compute; reflexivity|vm_compute; lia|].
    exists sample_b. split; [vm_compute; reflexivity|]. split; [discriminate|].
    vm_compute. intros Hin. inversion Hin.
  - pose proof (@ready_barrier hash_order_default bits_uuid _ _ (sample_world (λ _, false)) mem_new 0%Z 0%Z
      sample_waiting sample_uuid sample_a ["camera"%string] (sample_df (sample_coord sample_waiting (λ _, false)))) as Hb.
    cbv zeta in Hb. fold (sample_coord sample_waiting (λ _, false)) in Hb.
    rewrite (proj2 (Hb ltac:(vm_compute; reflexivity) ltac:(vm_compute; lia)));
      [vm_compute; reflexivity| |intros; reflexivity].
    apply (bool_decide_unpack _). vm_compute. exact Logic.I.
Defined.

Lemma ready_send_failure_ends_loop_witness :
  ∃ e, (@run hash_order_default bits_uuid _ _ (sample_world (λ ch, bool_decide (ch = 2%N)))
          [IEvent 3%Z 3%Z (EDataflow sample_uuid (ReadyOnDaemon sample_a [])); ITask 0]
          (sample_coord sample_waiting (λ _, false))).1 = Err e.
Proof.
  apply (@ready_send_failure_ends_loop hash_order_default bits_uuid _ _ (sample_world (λ ch, bool_decide (ch = 2%N)))
    (sample_coord sample_waiting (λ _, false)) 3%Z 3%Z sample_uuid sample_a []
    (sample_df (sample_coord sample_waiting (λ _, false))) sample_b (mkConnection 2%N 0%Z ∅ None));
    [vm_compute; reflexivity|vm_compute; reflexivity| |vm_compute; reflexivity|vm_compute; reflexivity|done].
  apply (bool_decide_unpack _). vm_compute. exact Logic.I.
Defined.
