(* ===== verification/CoordParams.v ===== *)
(** * Parameters of nodes

    The coordinator's parameter requests against any store that keeps its laws
    ([StoreLaws]): the store and the catch-up log change together or not at all, and what the
    replay of persisted parameters can and cannot repair. *)

From Stdlib Require Import ZArith Lia.
From Stdlib Require Strings.String.
From stdpp Require Import base gmap sets list strings.
From S2P Require Import Prelude Message Text Descriptor Store CoordState StateLog Coordinator CoordLogic CoordSample.
Local Open Scope list_scope.

Section params.
Context `{HashOrder} `{UuidFormat} {S : Type} `{StoreLaws S} `{World}.
Implicit Types (c : Coord S) (v : StoreView).

Lemma alter_as_insert {V} (f : V → V) (m : gmap Uuid V) k x : m !! k = Some x → alter f k m = <[k := f x]> m.
Proof.
  intros Hk. apply map_eq. intros i. destruct (decide (k = i)) as [<-|].
  - by rewrite lookup_alter_eq, lookup_insert_eq, Hk.
  - by rewrite lookup_alter_ne, lookup_insert_ne.
Qed.

(** A parameter request on a dataflow that runs goes to the daemon of the node. *)
Lemma resolve_running u n df c :
  running_dataflows c !! u = Some df →
  resolve_param_target u n c =
    (TargetRunning <$> res_of_option "node not found in dataflow" (node_to_daemon df !! n), c).
Proof.
  intros Hdf. unfold resolve_param_target. rewrite bind_gets, Hdf, bind_lift. by destruct (node_to_daemon df !! n).
Qed.

(** The state after a change has been persisted and logged. *)
Definition logged (u : Uuid) (op : StateCatchUpOperation) (df : RunningDataflow) c c' : Prop :=
  running_dataflows c' = <[u := append_state_log df op]> (running_dataflows c) ∧ connections c' = connections c.

Lemma forward_running u d op event expect df c :
  running_dataflows c !! u = Some df →
  let out := forward_param u (TargetRunning d) op event expect c in
  logged u op df c out.2 ∧ store out.2 = store c ∧
  match connections c !! d with
  | Some conn => out.1 = decode expect (exchange (trace c) (conn_channel conn) event) ∧
                 trace out.2 = trace c ++ [OSent (conn_channel conn) (ToEvent event)]
  | None => is_ok out.1 = false ∧ trace out.2 = trace c
  end.
Proof.
  intros Hdf. cbv zeta. unfold forward_param. erewrite bind_Ok by (unfold get_df; by rewrite Hdf).
  unfold modify_df, modify. erewrite bind_Ok by reflexivity. set (c1 := upd_running _ c).
  assert (running_dataflows c1 = <[u := append_state_log df op]> (running_dataflows c)) as Hrun.
  { unfold c1. cbn. exact (alter_as_insert (λ df, append_state_log df op) _ u df Hdf). }
  unfold get_connection. destruct (connections c !! d) as [conn|] eqn:Ec.
  - erewrite bind_Ok by (cbn; by rewrite Ec). rewrite request_run. cbn [fst snd]. by split_and!.
  - erewrite bind_Err by (cbn; by rewrite Ec). split_and!; done.
Qed.

Lemma decode_set_param_Ok r :
  is_ok (decode ensure_set_param_forward_applied r) = true ↔ r = Ok (Some (SetParamResult (Ok tt))).
Proof.
  unfold decode. destruct r as [[reply|]| |]; cbn; [|done..].
  destruct reply as [| | | | | | | |x| | |]; cbn; try done. destruct x as [[]| |]; cbn; split; congruence.
Qed.

(** The daemon [d] is connected and answers the request that the node sets the parameter with
    its confirmation. *)
Definition daemon_confirms c (d : DaemonId) (event : DaemonCoordinatorEvent) : Prop :=
  ∃ conn, connections c !! d = Some conn ∧
    exchange (trace c) (conn_channel conn) event = Ok (Some (SetParamResult (Ok tt))).

(** C34. Setting a parameter of a running dataflow changes the persisted parameters and the
    catch-up log together or not at all.  Not at all, and with nothing sent, if the node is not
    in the dataflow or the store refuses the value.  Otherwise both have the change, also when
    the daemon cannot be told or refuses; the daemon of the node, if it is connected, is sent the
    request once; and the request succeeds exactly when that daemon confirms it: without a
    connection, without an answer, with an unreadable or another answer or with a refusal it
    fails.  Reading the parameter afterwards gives the value or fails. *)
Theorem set_param_atomic u n key value df v c :
  value_from_slice (value_to_vec value) = Some value →
  store_rep (store c) v → running_dataflows c !! u = Some df →
  let out := set_param u n key value c in
  let event := SetParam u n key value in
  (is_ok out.1 = false ∧ running_dataflows out.2 = running_dataflows c ∧ store_rep (store out.2) v ∧
     trace out.2 = trace c ∧
     (node_to_daemon df !! n = None ∨ is_ok (put_node_param u n key (value_to_vec value) (store c)).1 = false)) ∨
  (store_rep (store out.2) (upd_view_params <[(u, n, key) := value_to_vec value]> v) ∧
   logged u (CatchUpSetParam n key value) df c out.2 ∧
   (∃ d, node_to_daemon df !! n = Some d ∧ (is_ok out.1 = true ↔ daemon_confirms c d event) ∧
      trace out.2 = trace c ++
        option_list ((λ conn, OSent (conn_channel conn) (ToEvent event)) <$> connections c !! d)) ∧
   ∀ reply, (get_param u n key out.2).1 = Ok reply → reply = ParamValue key value).
Proof.
  intros Hjson Hv Hdf. cbv zeta. unfold set_param.
  pose proof (resolve_running u n df c Hdf) as Hres.
  destruct (node_to_daemon df !! n) as [d|] eqn:Ed; cbn in Hres; [|left; erewrite bind_Err by done; by auto 6].
  erewrite bind_Ok by exact Hres. pose proof (put_node_param_law u n key (value_to_vec value) (store c) v Hv) as Hput.
  unfold with_store. unfold writes in Hput.
  destruct (put_node_param _ _ _ _ _) as [[[]|e|] s'] eqn:Ep; cbn [fst snd] in Hput.
  2: { left. erewrite bind_Err by (by rewrite Ep). cbn. auto 6. }
  2: { left. erewrite bind_Panic by (by rewrite Ep). cbn. auto 6. }
  right. erewrite bind_Ok by (by rewrite Ep).
  pose proof (forward_running u d (CatchUpSetParam n key value) (SetParam u n key value)
    ensure_set_param_forward_applied df (upd_store s' c) Hdf) as (Hlog & Hst & Hok).
  set (fwd := forward_param _ _ _ _ _) in *.
  assert (∀ r c', fwd (upd_store s' c) = (r, c') →
    (fwd;; mret ParamSet) (upd_store s' c) = (r ≫= λ _, Ok ParamSet, c')) as Hrun.
  { intros [] c' Hr; [by erewrite bind_Ok|by erewrite bind_Err|by erewrite bind_Panic]. }
  destruct (fwd (upd_store s' c)) as [r c'] eqn:Ef. rewrite (Hrun r c' eq_refl). cbn [fst snd] in *.
  split_and!; [by rewrite Hst|done| |].
  - exists d. split; [done|]. assert (is_ok (r ≫= λ _, Ok ParamSet) = is_ok r) as -> by by destruct r.
    unfold daemon_confirms. cbn in Hok. destruct (connections c !! d) as [conn|]; destruct Hok as [Hr Htr].
    + rewrite Hr, decode_set_param_Ok. split; [|done]. split; [eauto|]. by intros (? & [= <-] & ?).
    + rewrite Hr. split; [|cbn; by rewrite app_nil_r]. split; [done|]. by intros (? & [=] & ?).
  - intros reply. unfold get_param. destruct Hlog as [Hrunning _].
    assert (running_dataflows c' !! u = Some (append_state_log df (CatchUpSetParam n key value))) as Hdf'
      by (rewrite Hrunning; apply lookup_insert_eq).
    erewrite bind_Ok by (rewrite (resolve_running _ n _ _ Hdf'); cbn; by rewrite Ed).
    pose proof (get_node_param_law u n key (store c') _ ltac:(rewrite Hst; exact Hput)) as [_ Hget].
    destruct (get_node_param u n key (store c')) as [[o|e|] s''] eqn:Eg; cbn [fst snd] in Hget.
    + erewrite bind_Ok by (unfold with_store; by rewrite Eg). subst o. cbn. rewrite lookup_insert_eq.
      unfold mbind, CM_bind, lift. cbn. rewrite Hjson. cbn. by intros [= <-].
    + erewrite bind_Err by (unfold with_store; by rewrite Eg). done.
    + erewrite bind_Panic by (unfold with_store; by rewrite Eg). done.
Qed.

(** ** Replay of the persisted parameters *)

Lemma upd_store_twice s1 s2 c : upd_store s2 (upd_store s1 c) = upd_store s2 c.
Proof. by destruct c. Qed.
Lemma upd_store_same c : upd_store (store c) c = c.
Proof. by destruct c. Qed.

Lemma collect_run u nodes v c :
  (∀ n s, (list_node_params u n s).1 ≠ Panic) → store_rep (store c) v →
  ∃ items s', collect_param_replay_items u nodes c = (Ok items, upd_store s' c) ∧ store_rep s' v ∧
    Forall (λ item, view_params v !! (u, item.1.1, item.1.2) = Some item.2) items.
Proof.
  intros Hsafe. revert c. induction nodes as [|n nodes IH]; intros c Hv; cbn [collect_param_replay_items].
  { exists [], (store c). rewrite upd_store_same. done. }
  pose proof (list_node_params_law u n (store c) v Hv) as [Hv' Hl]. specialize (Hsafe n (store c)).
  destruct (list_node_params u n (store c)) as [r s1] eqn:El. cbn [fst snd] in *.
  destruct (IH (upd_store s1 c) Hv') as (items & s' & Hrun & Hs' & Hitems).
  erewrite bind_Ok by (eapply catch_run; [unfold with_store; by rewrite El|done]).
  erewrite bind_Ok by exact Hrun. unfold mret, CM_ret. rewrite upd_store_twice.
  destruct r as [params|e|]; [|by exists items, s'|done].
  exists (((λ e : string * list Byte.byte, (n, e.1, e.2)) <$> params) ++ items), s'. split_and!; [done..|].
  apply Forall_app. split; [|done]. apply Forall_fmap, Forall_forall. intros [key bytes] Hin. cbn.
  by apply (proj2 Hl).
Qed.

Lemma replay_run u ch items c :
  (∀ t n key value, exchange t ch (SetParam u n key value) = Ok (Some (SetParamResult (Ok tt)))) →
  Forall (λ item, is_Some (value_from_slice item.2)) items →
  ∃ msgs, replay_items u ch items c = (Ok (length items, 0), sent msgs c) ∧
    Forall (λ o, ∃ n key bytes value, (n, key, bytes) ∈ items ∧
                 o = OSent ch (ToEvent (SetParam u n key value))) msgs.
Proof.
  intros Hex. revert c. induction items as [|[[n key] bytes] items IH]; intros c Hdec; cbn [replay_items].
  { exists []. by rewrite sent_nil. }
  apply Forall_cons in Hdec as [[value Hval] Hdec]. cbn in Hval. set (o := OSent ch (ToEvent (SetParam u n key value))).
  destruct (IH (sent [o] c) Hdec) as (msgs & Hrun & Hmsgs).
  assert (replay_item u ch (n, key, bytes) c = (Ok tt, sent [o] c)) as Hitem.
  { unfold replay_item. rewrite Hval. unfold send_and_receive, lift, mbind, CM_bind. cbn. by rewrite Hex. }
  exists (o :: msgs). split.
  - erewrite bind_Ok by (by eapply catch_run). erewrite bind_Ok by exact Hrun. by rewrite sent_sent.
  - apply Forall_cons. split; [exists n, key, bytes, value; by split; [left|]|].
    eapply Forall_impl; [exact Hmsgs|]. intros ? (n' & key' & bytes' & value' & ? & ->).
    exists n', key', bytes', value'. split; [by right|done].
Qed.

(** When a daemon has missed changes that are no longer in the catch-up log, the
    coordinator resends the persisted parameters and then takes the daemon to be up to date;
    but a parameter that has been deleted in the meantime is not mentioned in what is sent, so
    the node keeps it. *)
Theorem fallback_keeps_deleted_param u d df conn n key v c :
  store_rep (store c) v → running_dataflows c !! u = Some df → connections c !! d = Some conn →
  last_replay_attempt df !! d = None →
  (∀ n s, (list_node_params u n s).1 ≠ Panic) →
  (∀ k bytes, view_params v !! k = Some bytes → is_Some (value_from_slice bytes)) →
  (∀ t n key value, exchange t (conn_channel conn) (SetParam u n key value) = Ok (Some (SetParamResult (Ok tt)))) →
  view_params v !! (u, n, key) = None →
  ∃ df' msgs,
    let c' := (handle_pruned_state_catchup_fallback u d c).2 in
    running_dataflows c' !! u = Some df' ∧ ack_of df' d = state_log_sequence df' ∧
    trace c' = trace c ++ msgs ∧
    ∀ ch event, OSent ch (ToEvent event) ∈ msgs →
      event ≠ DeleteParam u n key ∧ ∀ value, event ≠ SetParam u n key value.
Proof.
  intros Hv Hdf Hconn Hlast Hsafe Hdec Hex Hnone. cbv zeta.
  set (df1 := {| df with last_replay_attempt := <[d := now c]> (last_replay_attempt df) |}).
  set (c1 := upd_running <[u := df1]> c).
  destruct (collect_run u (nodes_on_daemon df d) v c1 Hsafe Hv) as (items & s' & Hcol & _ & Hitems).
  destruct (replay_run u (conn_channel conn) items (upd_store s' c1) Hex) as (msgs & Hrep & Hmsgs).
  { eapply Forall_impl; [exact Hitems|]. intros item Hi. exact (Hdec _ _ Hi). }
  exists (mark_replayed d df1), msgs.
  assert (handle_pruned_state_catchup_fallback u d c =
    (Ok tt, upd_running (alter (mark_replayed d) u) (sent msgs (upd_store s' c1)))) as ->.
  { unfold handle_pruned_state_catchup_fallback.
    erewrite bind_Ok by (unfold get_df; by rewrite Hdf). rewrite !bind_gets, Hlast, Hconn.
    unfold modify_df at 1, modify. erewrite bind_Ok by reflexivity. unfold replay_persisted_params_for_daemon.
    replace (upd_running _ c) with c1; [|unfold c1, upd_running; f_equal; by erewrite alter_as_insert].
    erewrite bind_Ok by (erewrite bind_Ok by exact Hcol; exact Hrep). cbv beta iota.
    by rewrite bool_decide_true. }
  split_and!; [| |done|].
  - cbn [snd running_dataflows upd_running]. rewrite lookup_alter_eq.
    change (running_dataflows _) with (<[u := df1]> (running_dataflows c)). by rewrite lookup_insert_eq.
  - unfold ack_of, mark_replayed. cbn [daemon_ack_sequence state_log_sequence]. by rewrite lookup_insert_eq.
  - intros ch event (n' & key' & bytes & value & Hin & [= _ ->])%(proj1 (Forall_forall _ _) Hmsgs). split; [done|].
    intros value' [= -> -> _]. rewrite Forall_forall in Hitems. specialize (Hitems _ Hin). cbn in Hitems. congruence.
Qed.
End params.

Lemma set_param_atomic_witness :
  let c := sample_coord sample_start (λ _, false) in
  let out := @set_param _ _ (sample_world (λ _, false)) sample_uuid "camera" "fps" "30" c in
  is_ok out.1 = true ∧
  (is_ok out.1 = false ∨
   store_rep (store out.2) (upd_view_params <[(sample_uuid, "camera"%string, "fps"%string) :=
     String.list_byte_of_string "30"]> (sample_view c))).
Proof.
  cbv zeta. split; [vm_compute; reflexivity|].
  destruct (@set_param_atomic _ _ _ (sample_world (λ _, false)) sample_uuid "camera"
    "fps" "30" (sample_df (sample_coord sample_start (λ _, false))) (sample_view (sample_coord sample_start (λ _, false)))
    (sample_coord sample_start (λ _, false))) as [Hl|Hr];
    [vm_compute; reflexivity|reflexivity|vm_compute; reflexivity|left; exact (proj1 Hl)|right; exact (proj1 Hr)].
Defined.

(** The detector's daemon has missed a deletion. *)
Lemma fallback_keeps_deleted_param_witness :
  let c := sample_coord sample_start (λ _, false) in
  ∃ df' msgs,
    let c' := (@handle_pruned_state_catchup_fallback _ _ (sample_world (λ _, false)) sample_uuid sample_b c).2 in
    running_dataflows c' !! sample_uuid = Some df' ∧ ack_of df' sample_b = state_log_sequence df' ∧
    trace c' = trace c ++ msgs ∧
    ∀ ch event, OSent ch (ToEvent event) ∈ msgs →
      event ≠ DeleteParam sample_uuid "detector" "threshold" ∧
      ∀ value, event ≠ SetParam sample_uuid "detector" "threshold" value.
Proof.
  apply (@fallback_keeps_deleted_param _ _ _ (sample_world (λ _, false)) sample_uuid
    sample_b (sample_df (sample_coord sample_start (λ _, false))) (mkConnection 2%N 0%Z ∅ None) "detector" "threshold"
    (sample_view (sample_coord sample_start (λ _, false))));
    [reflexivity|vm_compute; reflexivity|vm_compute; reflexivity|vm_compute; reflexivity|intros ? ? [=]|
     intros; eexists; reflexivity|intros; reflexivity|vm_compute; reflexivity].
Defined.
