(* ===== verification/CoordRecovery.v ===== *)
(** * Recovery of persisted dataflows

    What a restarted coordinator makes of the store its predecessor left, for any store that
    keeps its laws and does not fail: no daemon is registered, and every dataflow that had not
    ended is waiting for its daemons to report. *)

From Stdlib Require Import ZArith Lia.
From stdpp Require Import base gmap sets list strings.
From S2P Require Import Prelude Message Text Descriptor Store CoordState StateLog Coordinator CoordLogic CoordSample.
Local Open Scope list_scope.

(** Records and daemons are stored under their own identifier. *)
Definition dataflows_keyed (v : StoreView) : Prop :=
  ∀ u r, view_dataflows v !! u = Some r → record_uuid r = u.

(** The record as the new coordinator leaves it. *)
Definition recovered (now_ms : Z) (r : DataflowRecord) : DataflowRecord := default r (recovering now_ms r).

Lemma recovered_uuid now_ms r : record_uuid (recovered now_ms r) = record_uuid r.
Proof. unfold recovered, recovering. by destruct (record_status r). Qed.

(** What a restart makes of a record: one that had ended is kept; any other one waits for the
    daemons to report, under the next generation and with the time of the restart, and is
    otherwise as it was. *)
Record restarted (now_ms : Z) (r r' : DataflowRecord) : Prop := {
  restarted_same :
    record_uuid r' = record_uuid r ∧ record_name r' = record_name r ∧
    record_descriptor_json r' = record_descriptor_json r ∧ record_daemon_ids r' = record_daemon_ids r ∧
    record_node_to_daemon r' = record_node_to_daemon r ∧ record_uv r' = record_uv r ∧
    record_created_at r' = record_created_at r;
  restarted_ended : record_status r = DSucceeded ∨ (∃ error, record_status r = DFailed error) → r' = r;
  restarted_open : record_status r ≠ DSucceeded → (∀ error, record_status r ≠ DFailed error) →
    record_status r' = DRecovering ∧ record_generation r' = (record_generation r + 1)%Z ∧
    record_updated_at r' = now_ms
}.

Lemma recovered_restarted now_ms r : restarted now_ms r (recovered now_ms r).
Proof.
  unfold recovered, recovering. split; destruct (record_status r) eqn:E; try done; try naive_solver.
Qed.

(** A store whose operations at start-up do not fail. *)
Class Reliable (S : Type) `{CoordinatorStore S} : Prop := {
  unregister_reliable id s : is_ok (unregister_daemon id s).1 = true;
  list_daemons_reliable s : is_ok (list_daemons s).1 = true;
  put_dataflow_reliable r s : is_ok (put_dataflow r s).1 = true;
  list_dataflows_reliable s : is_ok (list_dataflows s).1 = true
}.

#[export] Instance InMemoryStore_reliable : Reliable InMemoryStore.
Proof. by split. Qed.

Section recovery.
Context `{HashOrder} `{UuidFormat} {S : Type} `{StoreLaws S} `{!Reliable S} `{World}.
Implicit Types (c : Coord S) (v : StoreView).

(** A sequence of writes whose errors are ignored. *)
Lemma for_each_write {A B} (g : A → option B) (op : B → S → res unit * S) (f : B → StoreView → StoreView) l v c :
  (∀ b s v, store_rep s v → is_ok (op b s).1 = true ∧ store_rep (op b s).2 (f b v)) →
  store_rep (store c) v →
  ∃ s', for_each (λ a, match g a with Some b => catch (with_store (op b));; mret tt | None => mret tt end) l c
          = (Ok tt, upd_store s' c) ∧
        store_rep s' (foldl (λ v b, f b v) v (omap g l)).
Proof.
  intros Hop. revert v c. induction l as [|a l IH]; intros v c Hv; cbn [for_each].
  { exists (store c). split; [by destruct c|done]. }
  cbn. destruct (g a) as [b|]; cbn [foldl]; [|apply IH, Hv].
  destruct (Hop b (store c) v Hv) as [Hok Hv']. destruct (op b (store c)) as [r s1] eqn:Eo. cbn [fst snd] in *.
  destruct (IH (f b v) (upd_store s1 c) Hv') as (s' & Hrun & Hs'). exists s'. split; [|done].
  erewrite bind_Ok; [|erewrite bind_Ok; [reflexivity|eapply catch_run; [unfold with_store; by rewrite Eo|]]].
  - rewrite Hrun. by destruct c.
  - by intros ->.
Qed.

Lemma unregister_write id s v : store_rep s v →
  is_ok (unregister_daemon id s).1 = true ∧ store_rep (unregister_daemon id s).2 (upd_view_daemons (delete id) v).
Proof.
  intros Hv. pose proof (unregister_reliable id s) as Hok. split; [done|].
  pose proof (unregister_daemon_law id s v Hv) as Hw. unfold writes in Hw.
  by destruct (unregister_daemon id s) as [[]].
Qed.

Lemma put_dataflow_write r s v : store_rep s v →
  is_ok (put_dataflow r s).1 = true ∧
  store_rep (put_dataflow r s).2 (upd_view_dataflows <[record_uuid r := r]> v).
Proof.
  intros Hv. pose proof (put_dataflow_reliable r s) as Hok. split; [done|].
  pose proof (put_dataflow_law r s v Hv) as Hw. unfold writes in Hw.
  by destruct (put_dataflow r s) as [[]].
Qed.

(** All registered daemons are unregistered. *)
Lemma unregister_all ids v :
  (∀ id, is_Some (view_daemons v !! id) → id ∈ ids) →
  let v' := foldl (λ v id, upd_view_daemons (delete id) v) v ids in
  view_daemons v' = ∅ ∧ view_dataflows v' = view_dataflows v ∧ view_builds v' = view_builds v ∧
  view_params v' = view_params v.
Proof.
  cbv zeta. revert v. induction ids as [|id ids IH]; intros v Hl; cbn [foldl].
  { split_and!; try done. apply map_eq. intros id. rewrite lookup_empty. apply eq_None_not_Some.
    intros Hid. by apply Hl, elem_of_nil in Hid. }
  apply (IH (upd_view_daemons (delete id) v)). intros id'. cbn. intros [Hne Hid]%lookup_delete_is_Some.
  apply Hl, elem_of_cons in Hid as [->|?]; done.
Qed.

Lemma elem_of_values {K V} `{Countable K} (m : gmap K V) x : x ∈ values m ↔ ∃ k, m !! k = Some x.
Proof.
  unfold values. rewrite list_elem_of_fmap. split.
  - intros ([k ?] & -> & ?%elem_of_map_to_list). by exists k.
  - intros [k ?]. exists (k, x). split; [done|]. by apply elem_of_map_to_list.
Qed.

Lemma values_ids (m : gmap Uuid DataflowRecord) :
  (∀ u r, m !! u = Some r → record_uuid r = u) → record_uuid <$> values m = (map_to_list m).*1.
Proof.
  intros Hk. unfold values. rewrite <- list_fmap_compose. apply list_fmap_ext.
  intros i [u r] Hi%list_elem_of_lookup_2%elem_of_map_to_list. by apply Hk.
Qed.

(** The records that had not ended are replaced one by one. *)
Lemma recover_all now_ms l v :
  NoDup (record_uuid <$> l) → (∀ r, r ∈ l → view_dataflows v !! record_uuid r = Some r) →
  let v' := foldl (λ v r, upd_view_dataflows <[record_uuid r := r]> v) v (omap (recovering now_ms) l) in
  view_daemons v' = view_daemons v ∧ view_builds v' = view_builds v ∧ view_params v' = view_params v ∧
  ∀ u, view_dataflows v' !! u =
    if decide (u ∈ record_uuid <$> l) then recovered now_ms <$> view_dataflows v !! u else view_dataflows v !! u.
Proof.
  cbv zeta. revert v. induction l as [|r l IH]; intros v Hnd Hl; [done|].
  cbn in Hnd. apply NoDup_cons in Hnd as [Hr Hnd].
  set (v1 := match recovering now_ms r with
             | Some r' => upd_view_dataflows <[record_uuid r' := r']> v | None => v end).
  assert (∀ u, view_dataflows v1 !! u = if decide (record_uuid r = u) then Some (recovered now_ms r)
                                        else view_dataflows v !! u) as Hv1.
  { intros u. unfold v1. pose proof (recovered_uuid now_ms r) as Hid. unfold recovered in *.
    destruct (recovering now_ms r) as [r'|]; cbn in *.
    - rewrite Hid. destruct (decide _) as [<-|]; [by rewrite lookup_insert_eq|by rewrite lookup_insert_ne].
    - destruct (decide _) as [<-|]; [apply Hl; left|done]. }
  assert (view_daemons v1 = view_daemons v ∧ view_builds v1 = view_builds v ∧ view_params v1 = view_params v)
    as (Hd & Hb & Hp) by (unfold v1; by destruct (recovering now_ms r)).
  assert (foldl (λ v r, upd_view_dataflows <[record_uuid r := r]> v) v (omap (recovering now_ms) (r :: l)) =
    foldl (λ v r, upd_view_dataflows <[record_uuid r := r]> v) v1 (omap (recovering now_ms) l)) as ->.
  { cbn. unfold v1. by destruct (recovering now_ms r). }
  destruct (IH v1) as (-> & -> & -> & Hu); [done| |].
  { intros r' Hr'. rewrite Hv1, decide_False; [by apply Hl; right|].
    intros Heq. apply Hr. rewrite Heq. by apply list_elem_of_fmap_2. }
  split_and!; [done..|]. intros u. rewrite Hu, Hv1. cbn.
  destruct (decide (record_uuid r = u)) as [<-|Hne].
  - rewrite decide_False by done. rewrite decide_True by left. by rewrite (Hl r) by left.
  - destruct (decide (u ∈ record_uuid <$> l)); [rewrite decide_True by (by right)|rewrite decide_False]; [done..|].
    by intros [?|?]%elem_of_cons.
Qed.

End recovery.

