(* ===== verification/ShmemChannel.v ===== *)
(** * Request and reply over shared memory

    Models [libraries/shared-memory-server]: the layout of the region ([channel.rs], [offsets]),
    [ShmemChannel] with [send_raw], [receive] and [Drop], and [ShmemServer] and [ShmemClient] on
    top of it.  Server and client run concurrently, so that each operation is a sequence of
    atomic steps on the shared region: single bytes are written and read, the length and the
    disconnect flag are atomics, and the two events wake the other side.  The events come from
    a library; the model covers both of their possible meanings, with a signal that is kept
    until the next wait ([latched]) and one that only wakes a side that waits already. *)

From Stdlib Require Import ZArith Lia.
From stdpp Require Import base sets list strings.
From S2P Require Import Prelude.
Local Open Scope nat_scope.
Local Open Scope list_scope.

Abbreviation Bytes := (list Byte.byte) (only parsing).

(** ** The layout of the region *)

Module Layout.
Local Open Scope Z_scope.

(** [pointer.align_offset(align)] for a power of two. *)
Definition align_offset (ptr align : Z) : Z := (align - ptr mod align) mod align.

(** Sizes and alignments of [AtomicBool] and [AtomicU64]. *)
Definition BOOL_SIZE : Z := 1.
Definition BOOL_ALIGN : Z := 1.
Definition U64_SIZE : Z := 8.
Definition U64_ALIGN : Z := 8.

Definition offset_ptrs (next_free : Z) : Z * Z * Z :=
  let disconnect_ptr := u64_wrap (next_free + align_offset next_free BOOL_ALIGN) in
  let len_ptr_unaligned := u64_wrap (disconnect_ptr + BOOL_SIZE) in
  let len_ptr := u64_wrap (len_ptr_unaligned + align_offset len_ptr_unaligned U64_ALIGN) in
  (disconnect_ptr, len_ptr, u64_wrap (len_ptr + U64_SIZE)).

(** The offsets of the disconnect flag, the length and the data. *)
Definition offsets (base_ptr server_event_len client_event_len : Z) : Z * Z * Z :=
  let '(disconnect, len, data) :=
    offset_ptrs (u64_wrap (u64_wrap (base_ptr + server_event_len) + client_event_len)) in
  (disconnect - base_ptr, len - base_ptr, data - base_ptr).

(** The fields lie behind the events and do not overlap, the length is aligned, and at most
    16 bytes are spent on them, wherever the region is mapped. *)
Lemma offsets_layout base s c disconnect len data :
  0 ≤ base → 0 ≤ s → 0 ≤ c → base + s + c + 16 < 2 ^ 64 →
  offsets base s c = (disconnect, len, data) →
  s + c ≤ disconnect ∧ disconnect + BOOL_SIZE ≤ len ∧ len + U64_SIZE = data ∧
  (base + len) mod U64_ALIGN = 0 ∧ data ≤ s + c + 16.
Proof.
  intros Hb Hs Hc Hmax. unfold offsets, offset_ptrs, align_offset, BOOL_ALIGN, BOOL_SIZE, U64_ALIGN, U64_SIZE.
  rewrite (u64_wrap_small (base + s)) by lia. rewrite (u64_wrap_small (base + s + c)) by lia.
  rewrite !Z.mod_1_r, Z.add_0_r. rewrite (u64_wrap_small (base + s + c)) by lia.
  rewrite (u64_wrap_small (base + s + c + 1)) by lia. set (p := base + s + c + 1).
  assert (0 ≤ (8 - p mod 8) mod 8 < 8) by (apply Z.mod_pos_bound; lia).
  assert ((p + (8 - p mod 8) mod 8) mod 8 = 0) as Hal.
  { rewrite Zplus_mod_idemp_r. replace (p + (8 - p mod 8)) with (8 + (p - p mod 8)) by lia.
    rewrite <- Zplus_mod_idemp_r, Zminus_mod_idemp_r, Z.sub_diag. reflexivity. }
  rewrite (u64_wrap_small (p + _)) by lia. rewrite u64_wrap_small by lia.
  intros [= <- <- <-]. split_and!; [lia|lia|lia| |lia]. by rewrite Zplus_minus.
Qed.

End Layout.

(** ** The channel *)

(** Where an endpoint is within [send_raw] and [receive], and in [drop] of the client before the
    signal. *)
Inductive Pc :=
  | PIdle
  | PWrite (msg : Bytes) (k : nat)
  | PStoreLen (msg : Bytes)
  | PSignal (msg : Bytes)
  | PLoadDisc
  | PWait
  | PCheckDisc
  | PLoadLen
  | PRead (msg_len : nat) (read : Bytes)
  | PDropped
  | PDropping.

Record Chan := mkChan {
  data : Bytes;
  data_len : nat;
  disconnect : bool;
  server_event : bool;
  client_event : bool
}.

(** Both endpoints, the value of the last operation of each, and the history: the requests that
    were sent and received, the request being served, and pairs of a request and its reply as
    sent by the server and as received by the client. *)
Record System := mkSystem {
  chan : Chan;
  client : Pc;
  server : Pc;
  reply_expected : bool;
  client_result : option (res Bytes);
  server_result : option (res (option Bytes));
  c_req : Bytes;
  s_req : Bytes;
  c_sent : list Bytes;
  s_recv : list Bytes;
  s_log : list (Bytes * Bytes);
  c_log : list (Bytes * Bytes)
}.

Section channel.
(** The size of the data area, whether events keep their signal, and the messages that can be
    deserialised. *)
Context (capacity : nat) (latched : bool) (decodes : Bytes → bool).

(** [ShmemChannel::new_server] and [new_client]. *)
Definition new_channel (memory : Bytes) : System :=
  mkSystem (mkChan memory 0 false false false) PIdle PIdle false None None [] [] [] [] [] [].

(** [event.set(EventState::Signaled)] for the event of an endpoint. *)
Definition signal (waiter : Pc) (event : bool) : bool :=
  event || latched || match waiter with PWait => true | _ => false end.

(** The start of [send_raw]: where the sender goes on, or an error. *)
Definition send_start (msg : Bytes) : res Pc :=
  if decide (capacity < length msg) then Err "message too large for shared memory" else Ok (PWrite msg 0).

Definition load_len (ch : Chan) : res Pc :=
  if decide (data_len ch = 0) then Err "received message with zero length"
  else if decide (capacity ≤ data_len ch) then Err "received message exceeds shared memory bounds"
  else Ok (PRead (data_len ch) []).

(** [ShmemClient::request], and what happens within it.  [None]: the client waits. *)
Definition client_request (msg : Bytes) (σ : System) : option System :=
  match client σ with
  | PIdle =>
      Some match send_start msg with
           | Ok pc => {| σ with client := pc; c_req := msg; client_result := None |}
           | Err e => {| σ with client_result := Some (Err e) |}
           | Panic => {| σ with client_result := Some Panic |}
           end
  | _ => None
  end.

Definition client_return (r : res Bytes) (σ : System) : System :=
  {| σ with client := PIdle; client_result := Some r |}.

Definition client_tick (σ : System) : option System :=
  let ch := chan σ in
  match client σ with
  | PIdle | PDropped => None
  | PDropping =>
      Some {| σ with chan := {| ch with server_event := signal (server σ) (server_event ch) |}; client := PDropped |}
  | PWrite msg k =>
      Some match msg !! k with
           | Some b => {| σ with chan := {| ch with data := <[k := b]> (data ch) |}; client := PWrite msg (S k) |}
           | None => {| σ with client := PStoreLen msg |}
           end
  | PStoreLen msg => Some {| σ with chan := {| ch with data_len := length msg |}; client := PSignal msg |}
  | PSignal msg =>
      Some {| σ with chan := {| ch with server_event := signal (server σ) (server_event ch) |};
                     client := PLoadDisc; c_sent := c_sent σ ++ [msg] |}
  | PLoadDisc =>
      Some (if disconnect ch then client_return (Err "server closed the connection") σ
            else {| σ with client := PWait |})
  | PWait =>
      if client_event ch
      then Some {| σ with chan := {| ch with client_event := false |}; client := PCheckDisc |}
      else None
  | PCheckDisc =>
      Some (if disconnect ch then client_return (Err "server disconnected unexpectedly") σ
            else {| σ with client := PLoadLen |})
  | PLoadLen =>
      Some match load_len ch with
           | Ok pc => {| σ with client := pc |}
           | Err e => client_return (Err e) σ
           | Panic => client_return Panic σ
           end
  | PRead msg_len read =>
      if decide (length read < msg_len) then
        match data ch !! length read with
        | Some b => Some {| σ with client := PRead msg_len (read ++ [b]) |}
        | None => None
        end
      else
        Some (if decodes read
              then client_return (Ok read) {| σ with c_log := c_log σ ++ [(c_req σ, read)] |}
              else client_return (Err "failed to deserialize value") σ)
  end.

(** The wait of the client may be given up. *)
Definition client_timeout (σ : System) : option System :=
  match client σ with
  | PWait => Some (client_return (Err "failed to receive from ShmemChannel") σ)
  | _ => None
  end.

(** [drop] of the client stores the flag; its next step wakes up the server. *)
Definition client_drop (σ : System) : option System :=
  match client σ with
  | PIdle =>
      let ch := chan σ in
      Some {| σ with chan := {| ch with disconnect := true |}; client := PDropping |}
  | _ => None
  end.

(** [ShmemServer::listen] and [send_reply]. *)
Definition server_listen (σ : System) : option System :=
  match server σ with
  | PIdle =>
      Some (if reply_expected σ
            then {| σ with server_result := Some (Err "listen called while a reply is still pending") |}
            else {| σ with server := PWait; server_result := None |})
  | _ => None
  end.

Definition server_send_reply (value : Bytes) (σ : System) : option System :=
  match server σ with
  | PIdle =>
      Some (if reply_expected σ then
              match send_start value with
              | Ok pc => {| σ with server := pc; server_result := None |}
              | Err e => {| σ with server_result := Some (Err e) |}
              | Panic => {| σ with server_result := Some Panic |}
              end
            else {| σ with server_result := Some (Err "send_reply called without a pending request") |})
  | _ => None
  end.

Definition server_return (r : res (option Bytes)) (σ : System) : System :=
  {| σ with server := PIdle; server_result := Some r |}.

Definition server_tick (σ : System) : option System :=
  let ch := chan σ in
  match server σ with
  | PIdle | PDropped | PDropping => None
  | PWrite msg k =>
      Some match msg !! k with
           | Some b => {| σ with chan := {| ch with data := <[k := b]> (data ch) |}; server := PWrite msg (S k) |}
           | None => {| σ with server := PStoreLen msg |}
           end
  | PStoreLen msg => Some {| σ with chan := {| ch with data_len := length msg |}; server := PSignal msg |}
  | PSignal msg =>
      Some {| σ with chan := {| ch with client_event := signal (client σ) (client_event ch) |};
                     server := PLoadDisc; s_log := s_log σ ++ [(s_req σ, msg)] |}
  | PLoadDisc =>
      Some (if disconnect ch then server_return (Err "server closed the connection") σ
            else server_return (Ok None) {| σ with reply_expected := false |})
  | PWait =>
      if server_event ch
      then Some {| σ with chan := {| ch with server_event := false |}; server := PCheckDisc |}
      else None
  | PCheckDisc =>
      Some (if disconnect ch then server_return (Ok None) σ else {| σ with server := PLoadLen |})
  | PLoadLen =>
      Some match load_len ch with
           | Ok pc => {| σ with server := pc |}
           | Err e => server_return (Err e) σ
           | Panic => server_return Panic σ
           end
  | PRead msg_len read =>
      if decide (length read < msg_len) then
        match data ch !! length read with
        | Some b => Some {| σ with server := PRead msg_len (read ++ [b]) |}
        | None => None
        end
      else
        Some (if decodes read
              then server_return (Ok (Some read))
                     {| σ with reply_expected := true; s_req := read; s_recv := s_recv σ ++ [read] |}
              else server_return (Err "failed to deserialize value") σ)
  end.

(** Dropping the server does not wake the client. *)
Definition server_drop (σ : System) : option System :=
  match server σ with
  | PIdle =>
      let ch := chan σ in
      Some {| σ with chan := {| ch with disconnect := true |}; server := PDropped |}
  | _ => None
  end.

(** ** Interleavings *)

Inductive Action :=
  | ClientRequest (msg : Bytes) | ClientTick | ClientTimeout | ClientDrop
  | ServerListen | ServerReply (value : Bytes) | ServerTick | ServerDrop.

Definition step (σ : System) (a : Action) : option System :=
  match a with
  | ClientRequest msg => client_request msg σ
  | ClientTick => client_tick σ
  | ClientTimeout => client_timeout σ
  | ClientDrop => client_drop σ
  | ServerListen => server_listen σ
  | ServerReply value => server_send_reply value σ
  | ServerTick => server_tick σ
  | ServerDrop => server_drop σ
  end.

Fixpoint steps (σ : System) (actions : list Action) : option System :=
  match actions with
  | [] => Some σ
  | a :: actions => σ ← step σ a; steps σ actions
  end.

(** ** Whose turn it is *)

(** The region holds a complete message. *)
Definition holds (ch : Chan) (msg : Bytes) : Prop :=
  take (length msg) (data ch) = msg ∧ data_len ch = length msg.

(** An endpoint within [send_raw], up to the signal, and one within [receive], from the wake-up. *)
Definition sending (pc : Pc) (ch : Chan) (msg : Bytes) : Prop :=
  match pc with
  | PWrite m k => m = msg ∧ k ≤ length m ≤ capacity ∧ take k (data ch) = take k m
  | PStoreLen m => m = msg ∧ take (length m) (data ch) = m
  | PSignal m => m = msg ∧ holds ch m
  | _ => False
  end.
Definition receiving (pc : Pc) (msg : Bytes) : Prop :=
  match pc with
  | PCheckDisc | PLoadLen => True
  | PRead len read => len = length msg ∧ length read ≤ len ∧ read = take (length read) msg
  | _ => False
  end.
Definition reading (pc : Pc) : bool := match pc with PLoadLen | PRead _ _ => true | _ => false end.
Definition waiting (pc : Pc) : bool := match pc with PLoadDisc | PWait => true | _ => false end.

(** The server has nothing to do with the region: it ends a reply, or has none to send. *)
Definition server_off (σ : System) : Prop :=
  server σ = PLoadDisc ∨ (server σ = PIdle ∨ server σ = PWait) ∧ reply_expected σ = false.

(** A message that the receiver accepts. *)
Definition good (msg : Bytes) : bool := bool_decide (0 < length msg < capacity) && decodes msg.

(** A signal or a message may have been lost. *)
Definition lossy (σ : System) : Prop := latched = false ∨ ∃ msg, msg ∈ c_sent σ ∧ good msg = false.

(** The region belongs to the client, to a request, to the server or to a reply.  If a signal
    or a message is lost both sides wait.  After an endpoint is gone, the other one does not
    read any more. *)
Inductive Phase (σ : System) : Prop :=
  | PhClient :
      client σ = PIdle ∨ sending (client σ) (chan σ) (c_req σ) →
      disconnect (chan σ) = false → server_event (chan σ) = false → client_event (chan σ) = false →
      server_off σ → Phase σ
  | PhRequest pre :
      waiting (client σ) = true → disconnect (chan σ) = false → client_event (chan σ) = false →
      holds (chan σ) (c_req σ) → c_sent σ = pre ++ [c_req σ] → s_recv σ `sublist_of` pre →
      server_event (chan σ) = true ∧ server_off σ ∨
      server_event (chan σ) = false ∧ reply_expected σ = false ∧ receiving (server σ) (c_req σ) → Phase σ
  | PhServer r :
      waiting (client σ) = true → disconnect (chan σ) = false →
      server_event (chan σ) = false → client_event (chan σ) = false →
      reply_expected σ = true → s_req σ = c_req σ → c_req σ ∈ s_recv σ →
      server σ = PIdle ∨ sending (server σ) (chan σ) r → Phase σ
  | PhReply pre r :
      holds (chan σ) r → s_log σ = pre ++ [(c_req σ, r)] → c_log σ `sublist_of` pre →
      server_event (chan σ) = false →
      client_event (chan σ) = true ∧ waiting (client σ) = true ∨
      client_event (chan σ) = false ∧ receiving (client σ) r →
      disconnect (chan σ) = false ∧ server_off σ ∨ server σ = PDropped ∧ disconnect (chan σ) = true ∧ reading (client σ) = true →
      Phase σ
  | PhStuck :
      waiting (client σ) = true → disconnect (chan σ) = false →
      server_event (chan σ) = false → client_event (chan σ) = false → server_off σ → lossy σ → Phase σ
  | PhServerGone :
      server σ = PDropped → disconnect (chan σ) = true → reading (client σ) = false → Phase σ
  | PhClientGone :
      client σ = PDropping ∨ client σ = PDropped → disconnect (chan σ) = true → reading (server σ) = false → Phase σ.

Record Inv (σ : System) : Prop := {
  inv_phase : Phase σ;
  inv_data : length (data (chan σ)) = capacity;
  inv_log : c_log σ `sublist_of` s_log σ;
  inv_recv : s_recv σ `sublist_of` c_sent σ;
  inv_served : ∀ p, p ∈ s_log σ → p.1 ∈ s_recv σ;
  inv_req : reply_expected σ = true → s_req σ ∈ s_recv σ;
  inv_sender : match server σ with PWrite _ _ | PStoreLen _ | PSignal _ => reply_expected σ = true | _ => True end
}.

Lemma sending_step pc ch msg :
  sending pc ch msg → length (data ch) = capacity →
  match pc with
  | PWrite m k =>
      match m !! k with
      | Some b => sending (PWrite m (S k)) {| ch with data := <[k := b]> (data ch) |} msg
      | None => sending (PStoreLen m) ch msg
      end
  | PStoreLen m => sending (PSignal m) {| ch with data_len := length m |} msg
  | PSignal m => m = msg ∧ holds ch msg
  | _ => False
  end.
Proof.
  destruct pc as [|m k|m|m| | | | | | |]; simpl; try done.
  - intros (-> & [Hk Hcap] & Ht) Hlen. destruct (msg !! k) as [b|] eqn:Hb; simpl.
    + apply lookup_lt_Some in Hb as Hlt. split_and!; [done|lia|lia|].
      rewrite (take_S_r _ _ b) by (rewrite list_lookup_insert_eq; [done|lia]).
      rewrite take_insert_ge by lia. by rewrite (take_S_r _ _ b Hb), Ht.
    + apply lookup_ge_None in Hb. split; [done|]. replace (length msg) with k by lia.
      rewrite Ht. apply take_ge. lia.
  - intros [-> Ht] _. done.
  - by intros [-> ?].
Qed.

Lemma receiving_read ch msg read b :
  holds ch msg → receiving (PRead (length msg) read) msg → length read < length msg →
  data ch !! length read = Some b → receiving (PRead (length msg) (read ++ [b])) msg.
Proof.
  intros [Hd _] (_ & Hl & Hr) Hlt Hb. simpl. rewrite length_app. simpl. split_and!; [done|lia|].
  assert (msg !! length read = Some b) as Hm by (rewrite <- Hd, lookup_take_lt by lia; done).
  rewrite Nat.add_1_r, (take_S_r _ _ b Hm). by rewrite <- Hr.
Qed.

Lemma receiving_done msg read :
  receiving (PRead (length msg) read) msg → ¬ length read < length msg → read = msg.
Proof. intros (_ & Hl & ->) Hge. rewrite length_take in *. apply take_ge. lia. Qed.

#[local] Hint Constructors Phase : shmem.

Ltac projections :=
  cbn [chan client server reply_expected client_result server_result c_req s_req c_sent s_recv s_log c_log
       data data_len disconnect server_event client_event] in *.
Ltac reveal_system σ :=
  destruct σ as [[dat len disc se ce] c s exp cr sr creq sreq csent srecv slog clog];
  projections.
Ltac split_phase H :=
  destruct H as [Hc Hd Hse Hce Hs|pre Hw Hd Hce Hh Hcs Hsub Hs|r Hw Hd Hse Hce Hexp Hsr Hin Hs
    |pre r Hh Hsl Hsub Hse Hc Hs|Hw Hd Hse Hce Hs Hlossy|Hs Hd Hnr|Hc Hd Hnr]; projections; subst.

Lemma signal_lost pc event : signal pc event = false → latched = false.
Proof. unfold signal. by destruct event, latched. Qed.

Lemma lost_bad msg (sent : list Bytes) : msg ∈ sent → good msg = false → ∃ msg, msg ∈ sent ∧ good msg = false.
Proof. eauto. Qed.

Lemma client_tick_inv σ σ' : Inv σ → client_tick σ = Some σ' → Inv σ'.
Proof.
  intros [Hph Hdata Hlog Hrecv Hserved Hreq Hsend]. reveal_system σ. unfold client_tick. cbn [client chan].
  split_phase Hph.
  - destruct Hc as [->|Hc]; [done|]. destruct c as [|m k|m|m| | | | | | |]; try done.
    + pose proof (sending_step _ _ _ Hc Hdata) as Hst. cbn [data] in *.
      destruct (m !! k) as [b|]; intros [= <-]; split; simpl; try done; try (by rewrite length_insert);
        apply PhClient; simpl; auto.
    + pose proof (sending_step _ _ _ Hc Hdata) as Hst. intros [= <-]. split; simpl; try done. apply PhClient; simpl; auto.
    + destruct Hc as [-> Hh]. intros [= <-]. split; simpl; try done.
      2: { etrans; [done|]. by apply sublist_inserts_r. }
      destruct (signal _ _) eqn:E; [|by apply PhStuck; auto; left; apply (signal_lost s false)].
      by eapply PhRequest; simpl; auto.
  - destruct c; try done; intros [= <-]. split; simpl; try done. eapply PhRequest; eauto.
  - destruct c; try done; intros [= <-]. split; simpl; try done. eapply PhServer; eauto.
  - destruct Hc as [[-> Hw]|[-> Hc]].
    + destruct Hs as [[-> Hs]|(_ & _ & Hrd)]; [|by destruct c].
      destruct c; try done; intros [= <-]; split; simpl; try done; eapply PhReply; simpl; eauto.
    + assert (∀ τ, client τ = PIdle → server τ = s → reply_expected τ = exp → disconnect (chan τ) = disc →
        server_event (chan τ) = false → client_event (chan τ) = false → Phase τ) as Hdone.
      { intros τ Hc' Hs' He' Hd' Hse' Hce'. destruct Hs as [[-> Hs]|(-> & -> & _)].
        - apply PhClient; auto. unfold server_off in *. by rewrite Hs', He'.
        - apply PhServerGone; auto. by rewrite Hc'. }
      destruct c as [|m k|m|m| | | | |len' read| |]; try done.
      * destruct Hs as [[-> Hs]|(_ & _ & Hrd)]; [|done]. intros [= <-]. split; simpl; try done. eapply PhReply; simpl; eauto.
      * pose proof Hh as [_ Hlen]. cbn in Hlen. subst len. unfold load_len. cbn [data_len]. repeat case_decide; intros [= <-]; split; simpl; try done; auto.
        eapply PhReply; simpl; eauto. right. split; [done|]. split_and!; [done|lia|done].
      * destruct Hc as (-> & Hc). case_decide as Hlt.
        -- destruct (dat !! length read) as [b|] eqn:Hb; [|done]. intros [= <-]. split; simpl; try done.
           eapply PhReply; simpl; eauto. right. split; [done|]. by eapply (receiving_read (mkChan dat len disc false false)).
        -- assert (read = r) as -> by (apply receiving_done; [split|]; done).
           destruct (decodes r); intros [= <-]; split; simpl; try done; auto.
           by apply sublist_app.
  - destruct c; try done; intros [= <-]. split; simpl; try done. apply PhStuck; auto.
  - destruct c as [|m k|m|m| | | | | | |]; try done.
    all: try match goal with |- context [?m !! ?k] => destruct (m !! k) end. all: try (destruct ce; [|done]).
    all: intros [= <-]; split; simpl; try done; try (by rewrite length_insert).
    all: try by apply PhServerGone.
    etrans; [done|]. by apply sublist_inserts_r.
  - destruct Hc as [->| ->]; [|done]. intros [= <-]. split; simpl; try done. apply PhClientGone; auto.
Qed.

Lemma server_tick_inv σ σ' : Inv σ → server_tick σ = Some σ' → Inv σ'.
Proof.
  intros [Hph Hdata Hlog Hrecv Hserved Hreq Hsend]. reveal_system σ. unfold server_tick. cbn [server chan].
  split_phase Hph.
  - destruct Hs as [Hs|[[Hs|Hs] He]]; projections; subst; try done. intros [= <-].
    split; simpl; try done. apply PhClient; simpl; auto. right. auto.
  - destruct Hs as [[-> [Hs|[[Hs|Hs] He]]]|(-> & -> & Hs)]; projections; subst; try done.
    + intros [= <-]. split; simpl; try done. eapply PhRequest; simpl; eauto; left; (split; [done|]); right; auto.
    + intros [= <-]. split; simpl; try done. by eapply PhRequest; simpl; eauto; right.
    + destruct s as [|m k|m|m| | | | |len' read| |]; try done.
      * intros [= <-]. split; simpl; try done. eapply PhRequest; simpl; eauto.
      * pose proof Hh as [_ Hlen]. cbn in Hlen. subst len. unfold load_len. cbn [data_len].
        repeat case_decide; intros [= <-]; split; simpl; try done.
        -- apply PhStuck; simpl; auto; right; [auto|]. apply (lost_bad creq); [set_solver|]. unfold good. by rewrite bool_decide_false by lia.
        -- apply PhStuck; simpl; auto; right; [auto|]. apply (lost_bad creq); [set_solver|]. unfold good. by rewrite bool_decide_false by lia.
        -- eapply PhRequest; simpl; eauto. right. split_and!; [done|done|done|simpl; lia|done].
      * destruct Hs as (-> & Hs). case_decide as Hlt.
        -- destruct (dat !! length read) as [b|] eqn:Hb; [|done]. intros [= <-]. split; simpl; try done.
           eapply PhRequest; simpl; eauto. right. split; [done|]. split; [done|].
           by eapply (receiving_read (mkChan dat len false false false)).
        -- assert (read = creq) as -> by (apply receiving_done; [split|]; done).
           destruct (decodes creq) eqn:Hdec; intros [= <-]; split; simpl; try done.
           ++ eapply (PhServer _ []); simpl; auto. set_solver.
           ++ by apply sublist_app.
           ++ intros p Hp. apply elem_of_app. auto.
           ++ intros _. set_solver.
           ++ apply PhStuck; simpl; auto; right; [auto|]. apply (lost_bad creq); [set_solver|]. unfold good. by rewrite Hdec, andb_false_r.
  - destruct Hs as [Hs|Hs]; [by subst|]. destruct s as [|m k|m|m| | | | | | |]; try done.
    + pose proof (sending_step _ _ _ Hs Hdata) as Hst. cbn [data] in *.
      destruct (m !! k) as [b|]; intros [= <-]; split; simpl; try done; try (by rewrite length_insert);
        eapply PhServer; simpl; eauto.
    + pose proof (sending_step _ _ _ Hs Hdata) as Hst. intros [= <-]. split; simpl; try done.
      by eapply (PhServer _ r); simpl; eauto; right.
    + destruct Hs as [-> Hh]. intros [= <-]. split; simpl; try done.
      * destruct (signal _ _) eqn:E; [|by apply PhStuck; simpl; auto; left; [|apply (signal_lost c false)]].
        by eapply PhReply; simpl; eauto; left; (split; [done|]); left.
      * by apply sublist_inserts_r.
      * intros p [Hp| ->%list_elem_of_singleton]%elem_of_app; [by apply Hserved|done].
  - destruct Hs as [[-> Hs]|(-> & _)]; [|done]. destruct Hs as [Hs|[[Hs|Hs] He]]; projections; subst; try done.
    intros [= <-]. split; simpl; try done. eapply PhReply; simpl; eauto; left; (split; [done|]); right; auto.
  - destruct Hs as [Hs|[[Hs|Hs] He]]; projections; subst; try done. intros [= <-].
    split; simpl; try done. apply PhStuck; simpl; auto. right. auto.
  - done.
  - destruct s as [|m k|m|m| | | | | | |]; try done.
    all: try match goal with |- context [?m !! ?k] => destruct (m !! k) end.
    all: try (destruct se; [|done]).
    all: intros [= <-]; split; simpl; try done; try (by rewrite length_insert).
    all: try by apply PhClientGone.
    + by apply sublist_inserts_r.
    + intros p [Hp| ->%list_elem_of_singleton]%elem_of_app; [by apply Hserved|by apply Hreq].
Qed.

Lemma client_request_inv msg σ σ' : Inv σ → client_request msg σ = Some σ' → Inv σ'.
Proof.
  intros [Hph Hdata Hlog Hrecv Hserved Hreq Hsend]. reveal_system σ. unfold client_request. cbn [client].
  destruct c; try done. unfold send_start. case_decide as Hcap; intros [= <-].
  - split; simpl; try done. split_phase Hph; try done.
    + apply PhClient; simpl; auto.
    + by destruct Hc as [[_ ?]|[_ ?]].
    + by apply PhServerGone.
    + by destruct Hc.
  - split; simpl; try done. split_phase Hph; try done.
    + apply PhClient; simpl; auto. right. split_and!; [done|lia|lia|done].
    + by destruct Hc as [[_ ?]|[_ ?]].
    + by apply PhServerGone.
    + by destruct Hc.
Qed.

Lemma client_drop_inv σ σ' : Inv σ → client_drop σ = Some σ' → Inv σ'.
Proof.
  intros [Hph Hdata Hlog Hrecv Hserved Hreq Hsend]. reveal_system σ. unfold client_drop. cbn [client].
  destruct c; try done. intros [= <-]. split; simpl; try done. apply PhClientGone; simpl; auto. split_phase Hph; try done.
  - by destruct Hs as [Hs|[[Hs|Hs] _]]; simpl in Hs; subst.
  - by destruct Hc as [[_ ?]|[_ ?]].
Qed.

Lemma server_idle_inv σ σ' :
  Inv σ → server σ = PIdle → chan σ' = chan σ → client σ' = client σ → c_req σ' = c_req σ → s_req σ' = s_req σ →
  c_sent σ' = c_sent σ → s_recv σ' = s_recv σ → s_log σ' = s_log σ → c_log σ' = c_log σ →
  reply_expected σ' = reply_expected σ →
  server σ' = PIdle ∨ server σ' = PWait ∧ reply_expected σ = false ∨
  (∃ msg, server σ' = PWrite msg 0 ∧ length msg ≤ capacity ∧ reply_expected σ = true) → Inv σ'.
Proof.
  intros [Hph Hdata Hlog Hrecv Hserved Hreq Hsend]. reveal_system σ.
  destruct σ' as [ch' c' s' exp' cr' sr' creq' sreq' csent' srecv' slog' clog']. projections.
  intros -> -> -> -> -> -> -> -> -> -> Hs'.
  split; simpl; try done; [|by destruct Hs' as [->|[[-> _]|(msg & -> & _ & ->)]]].
  assert (server_off (mkSystem (mkChan dat len disc se ce) c PIdle exp cr sr creq sreq csent srecv slog clog) →
    server_off (mkSystem (mkChan dat len disc se ce) c s' exp cr' sr' creq sreq csent srecv slog clog)) as Hoff.
  { intros [Hs|[_ He]]; [done|]. cbn in He. subst exp. right. split; [|done]. cbn. naive_solver. }
  split_phase Hph; try done.
  - apply PhClient; auto.
  - eapply PhRequest; projections; eauto. destruct Hs as [[? ?]|(_ & _ & ?)]; [auto|done].
  - destruct Hs' as [->|[[_ ?]|(msg & -> & Hl & _)]]; [|done|].
    + eapply (PhServer _ []); simpl; auto.
    + eapply (PhServer _ msg); simpl; auto. right. split_and!; [done|lia|lia|done].
  - eapply PhReply; projections; eauto. destruct Hs as [[? ?]|(? & _)]; [auto|done].
  - apply PhStuck; auto.
  - apply PhClientGone; auto. cbn. by destruct Hs' as [->|[[-> _]|(msg & -> & _)]].
Qed.

Lemma server_drop_inv σ σ' : Inv σ → server_drop σ = Some σ' → Inv σ'.
Proof.
  intros [Hph Hdata Hlog Hrecv Hserved Hreq Hsend]. reveal_system σ. unfold server_drop. cbn [server chan].
  destruct s; try done. intros [= <-]. split; simpl; try done.
  destruct (reading c) eqn:Hrd; [|by apply PhServerGone].
  split_phase Hph; try done; try (by destruct c).
  - destruct Hc as [->|Hc]; [done|]. by destruct c.
  - eapply PhReply; projections; eauto.
  - by destruct Hc as [->| ->].
Qed.

Lemma step_inv σ a σ' : Inv σ → a ≠ ClientTimeout → step σ a = Some σ' → Inv σ'.
Proof.
  intros Hi Ha. destruct a as [msg| | | | |value| |]; simpl; [|by apply client_tick_inv|done| | | |by apply server_tick_inv|].
  - by apply client_request_inv.
  - by apply client_drop_inv.
  - unfold server_listen. destruct (server σ) eqn:E; try done. destruct (reply_expected σ) eqn:He; intros [= <-];
      apply (server_idle_inv σ); simpl; auto.
  - unfold server_send_reply. destruct (server σ) eqn:E; try done. unfold send_start.
    destruct (reply_expected σ) eqn:He; [case_decide|]; intros [= <-]; apply (server_idle_inv σ); simpl; auto.
    right; right. exists value. split_and!; [done|lia|done].
  - by apply server_drop_inv.
Qed.

Lemma steps_inv actions σ σ' :
  Inv σ → ClientTimeout ∉ actions → steps σ actions = Some σ' → Inv σ'.
Proof.
  revert σ. induction actions as [|a actions IH]; intros σ Hi Ha; simpl; [by intros [= <-]|].
  apply not_elem_of_cons in Ha as [Hne Ha]. destruct (step σ a) as [σ1|] eqn:E; [|done]. simpl.
  apply IH; [|done]. by eapply step_inv.
Qed.

Lemma new_channel_inv memory : length memory = capacity → Inv (new_channel memory).
Proof.
  intros Hm. split; simpl; try done; try set_solver. apply PhClient; simpl; auto. right. auto.
Qed.

(** C13. Without time limits, remote calls over the region are exact, however the steps of client
    and server interleave, whatever they send and whichever side goes away: the server
    receives requests as they were sent, in their order and without repetition, and a reply
    that the client gets is the one that the server sent for this very request, so that no
    message is mixed up, torn or duplicated. *)
Theorem shmem_calls_exact memory actions σ :
  length memory = capacity → ClientTimeout ∉ actions → steps (new_channel memory) actions = Some σ →
  c_log σ `sublist_of` s_log σ ∧ s_recv σ `sublist_of` c_sent σ ∧ (∀ m r, (m, r) ∈ s_log σ → m ∈ s_recv σ).
Proof.
  intros Hm Ha Hs. destruct (steps_inv actions (new_channel memory) σ) as [_ _ Hl Hr Hp _ _]; [by apply new_channel_inv|done|done|].
  split_and!; [done|done|]. intros m r. apply Hp.
Qed.

(** ** Progress *)

(** The steps that are left to an endpoint until it returns or waits for the other side. *)
Definition remaining (pc : Pc) : nat :=
  match pc with
  | PIdle | PDropped => 0
  | PDropping => 1
  | PWrite msg k => (length msg - k) + capacity + 8
  | PStoreLen _ => capacity + 7
  | PSignal _ => capacity + 6
  | PLoadDisc => capacity + 5
  | PWait => capacity + 4
  | PCheckDisc => capacity + 3
  | PLoadLen => capacity + 2
  | PRead msg_len read => (msg_len - length read) + 1
  end.
Definition remaining_steps (σ : System) : nat := remaining (client σ) + remaining (server σ).

Definition is_tick (a : Action) : bool := match a with ClientTick | ServerTick => true | _ => false end.

Lemma load_len_bound ch pc : load_len ch = Ok pc → remaining pc < capacity + 2.
Proof. unfold load_len. repeat case_decide; try done. intros [= <-]. simpl. lia. Qed.

Lemma tick_decreases σ a σ' :
  is_tick a = true → step σ a = Some σ' → remaining_steps σ' < remaining_steps σ.
Proof.
  unfold remaining_steps. destruct a; try done; intros _; simpl; unfold client_tick, server_tick;
    [destruct (client σ) as [|m k|m|m| | | | |len read| |] eqn:E|destruct (server σ) as [|m k|m|m| | | | |len read| |] eqn:E];
    try done.
  all: try (destruct (m !! k) eqn:Hk; [apply lookup_lt_Some in Hk|]).
  all: try (destruct (load_len (chan σ)) as [pc| |] eqn:Hl; [apply load_len_bound in Hl|..]).
  all: repeat case_match; intros [= <-]; simpl; rewrite ?E; simpl; try lia.
  all: rewrite length_app; simpl; lia.
Qed.

Lemma ticks_bounded ticks σ σ' :
  Forall (λ a, is_tick a = true) ticks → steps σ ticks = Some σ' → length ticks + remaining_steps σ' ≤ remaining_steps σ.
Proof.
  intros Ht. revert σ. induction Ht as [|a ticks Ha _ IH]; intros σ; simpl; [by intros [= <-]|].
  destruct (step σ a) as [σ1|] eqn:E; [|done]. simpl. intros Hs%IH. apply tick_decreases in E; [lia|done].
Qed.

(** What a program does that neither goes away nor waits with a time limit nor sends what
    cannot be received ([good]: not empty, shorter than the region, decodable). *)
Definition proper (a : Action) : Prop :=
  match a with
  | ClientRequest msg => good msg = true
  | ClientTimeout | ClientDrop | ServerDrop => False
  | _ => True
  end.

Definition client_proper (pc : Pc) : Prop :=
  match pc with
  | PWrite msg _ | PStoreLen msg | PSignal msg => good msg = true
  | PDropped | PDropping => False
  | _ => True
  end.
Record Proper (σ : System) : Prop := {
  proper_client : client_proper (client σ);
  proper_server : server σ ≠ PDropped;
  proper_sent : ∀ msg, msg ∈ c_sent σ → good msg = true
}.

Lemma step_proper σ a σ' : Proper σ → proper a → step σ a = Some σ' → Proper σ'.
Proof.
  intros [Hc Hs Hg] Ha. destruct a; simpl in *; try done.
  - unfold client_request, send_start. destruct (client σ) eqn:E; try done.
    case_decide; intros [= <-]; split; simpl; try done.
  - unfold client_tick, load_len. destruct (client σ) eqn:E; try done.
    all: repeat case_match; intros [= <-]; simplify_eq; split; simpl; try done. set_solver.
  - unfold server_listen. destruct (server σ) eqn:E; try done. case_match; intros [= <-]; split; simpl; (congruence || done).
  - unfold server_send_reply, send_start. destruct (server σ) eqn:E; try done.
    repeat case_match; intros [= <-]; split; simpl; (congruence || done).
  - unfold server_tick, load_len. destruct (server σ) eqn:E; try done.
    all: repeat case_match; intros [= <-]; simplify_eq; split; simpl; (congruence || done).
Qed.

Lemma steps_proper actions σ σ' : Proper σ → Forall proper actions → steps σ actions = Some σ' → Proper σ'.
Proof.
  intros Hp Ha. revert σ Hp. induction Ha as [|a actions Ha _ IH]; intros σ Hp; simpl; [by intros [= <-]|].
  destruct (step σ a) as [σ1|] eqn:E; [|done]. simpl. apply IH. by eapply step_proper.
Qed.

Lemma sending_ticks pc ch msg : sending pc ch msg → ∃ m k, pc = PWrite m k ∨ pc = PStoreLen m ∨ pc = PSignal m.
Proof.
  destruct pc as [|m k|m|m| | | | | | |]; simpl; try done; intros _; [exists m, k|exists m, 0|exists m, 0]; auto.
Qed.

Lemma receiving_ticks pc ch msg :
  holds ch msg → receiving pc msg →
  match pc with
  | PCheckDisc | PLoadLen => True
  | PRead len read => length read < len → is_Some (data ch !! length read)
  | _ => False
  end.
Proof.
  intros [Hd _]. destruct pc; simpl; try done. intros (-> & _ & _) Hlt. apply lookup_lt_is_Some.
  apply (f_equal length) in Hd. rewrite length_take in Hd. lia.
Qed.

(** C37. With events that keep their signal, a call of a well-behaved program never hangs.
    Well-behaved means that neither side is dropped, that the client waits without a time
    limit, and that every request has at least one byte, is strictly shorter than the region
    and decodes. Then client and server together make only a bounded number of steps, and when
    both of them have to wait it is for their own program: the client is ready for the next
    request, or the server for the next call of listen or send_reply. The conditions are
    needed: a request as long as the region is accepted by the sender and refused by the
    receiver ([full_message_refused]), so that the client keeps waiting, and a server that is
    dropped does not wake its client ([client_not_woken]). *)
Theorem shmem_no_deadlock memory actions σ :
  latched = true → length memory = capacity → Forall proper actions →
  steps (new_channel memory) actions = Some σ →
  (∀ ticks σ', Forall (λ a, is_tick a = true) ticks → steps σ ticks = Some σ' → length ticks ≤ remaining_steps σ) ∧
  (client_tick σ = None → server_tick σ = None → client σ = PIdle ∨ server σ = PIdle).
Proof.
  intros Hlatch Hm Ha Hs. split; [intros ticks σ' Ht Hst; apply ticks_bounded in Hst; [lia|done]|].
  assert (Inv σ) as [Hph _ _ _ _ _ _].
  { eapply steps_inv; [by apply (new_channel_inv memory)| |done]. rewrite Forall_forall in Ha. intros Hin%Ha. done. }
  assert (Proper σ) as [Hc Hsv Hg]. { eapply (steps_proper actions (new_channel memory)); [|done|done]. split; simpl; (done || set_solver). }
  unfold client_tick, server_tick. destruct Hph as [Hcl _ _ _ _|pre Hw _ _ Hh _ _ Hs'|r Hw _ _ _ _ _ _ Hs'
    |pre r Hh _ _ _ Hcl _|_ _ _ _ _ [Hl|(msg & Hin & Hb)]|?|Hcl].
  - destruct Hcl as [?|Hcl]; [by left|]. by destruct (sending_ticks _ _ _ Hcl) as (m & k & [-> | [-> | ->]]).
  - intros _ Hst. destruct Hs' as [[He [E|[[E|E] _]]]|(_ & _ & Hr)]; [by rewrite E in Hst|auto|by rewrite E, He in Hst|].
    apply (receiving_ticks _ _ _ Hh) in Hr. destruct (server σ); try done. case_decide; [|done].
    destruct Hr as [b Hb]; [done|]. by rewrite Hb in Hst.
  - intros _ Hst. destruct Hs' as [?|Hs']; [auto|]. by destruct (sending_ticks _ _ _ Hs') as (m & k & [E | [E | E]]); rewrite E in Hst.
  - intros Hct _. destruct Hcl as [[He Hw]|[_ Hr]]; [destruct (client σ); try done; by rewrite He in Hct|].
    apply (receiving_ticks _ _ _ Hh) in Hr. destruct (client σ); try done. case_decide; [|done].
    destruct Hr as [b Hb]; [done|]. by rewrite Hb in Hct.
  - congruence.
  - rewrite Hg in Hb by done. done.
  - done.
  - by destruct Hcl as [E|E]; rewrite E in Hc.
Qed.

(** ** Where calls fail *)

(** A message that fills the region to the last byte is accepted by the sender and refused
    by the receiver: the two bounds differ by one. *)
Theorem full_message_refused msg ch :
  length msg = capacity → holds ch msg →
  send_start msg = Ok (PWrite msg 0) ∧ ∃ e, load_len ch = Err e.
Proof.
  intros Hl [_ Hh]. unfold send_start, load_len. rewrite decide_False by lia. split; [done|].
  case_decide; [eauto|]. rewrite decide_True by lia. eauto.
Qed.

(** A client that waits for a reply is not woken when the server goes away: it waits until
    its time limit, or for ever without one. *)
Theorem client_not_woken σ actions σ' :
  client σ = PWait → client_event (chan σ) = false → server σ = PDropped → ClientTimeout ∉ actions →
  steps σ actions = Some σ' → client σ' = PWait.
Proof.
  revert σ. induction actions as [|a actions IH]; intros σ Hc He Hs Ha; simpl; [by intros [= <-]|].
  apply not_elem_of_cons in Ha as [Hne Ha].
  destruct a; simpl; try done; unfold client_request, client_tick, client_drop, server_listen, server_send_reply,
    server_tick, server_drop; rewrite ?Hc, ?Hs, ?He; done.
Qed.

End channel.

(** ** Sample runs *)

Definition sample_call (m r : Bytes) : list Action :=
  ServerListen :: ClientRequest m :: replicate (length m + 4) ClientTick ++
  replicate (length m + 4) ServerTick ++ ServerReply r :: replicate (length r + 4) ServerTick ++
  replicate (length r + 4) ClientTick.

Definition sample_memory : Bytes := replicate 4 Byte.x00.

Ltac absent := cbn; repeat (apply not_elem_of_cons; split; [discriminate|]); apply not_elem_of_nil.

Lemma shmem_calls_exact_witness :
  ∃ σ, steps 4 true (λ _, true) (new_channel sample_memory)
         (sample_call [Byte.x01; Byte.x02] [Byte.x0a] ++ sample_call [Byte.x03] [Byte.x0b; Byte.x0c]) = Some σ ∧
    c_log σ = [([Byte.x01; Byte.x02], [Byte.x0a]); ([Byte.x03], [Byte.x0b; Byte.x0c])] ∧
    c_log σ `sublist_of` s_log σ.
Proof.
  eexists. split; [vm_compute; reflexivity|]. split; [reflexivity|].
  eapply (shmem_calls_exact 4 true (λ _, true) sample_memory
    (sample_call [Byte.x01; Byte.x02] [Byte.x0a] ++ sample_call [Byte.x03] [Byte.x0b; Byte.x0c])).
  - reflexivity.
  - absent.
  - vm_compute. reflexivity.
Defined.

Lemma shmem_no_deadlock_witness :
  ∃ σ, steps 4 true (λ _, true) (new_channel sample_memory)
         [ClientRequest [Byte.x01]; ClientTick; ClientTick; ClientTick; ClientTick; ClientTick] = Some σ ∧
    client_tick 4 true (λ _, true) σ = None ∧ server_tick 4 true (λ _, true) σ = None ∧ server σ = PIdle.
Proof.
  eexists. split; [vm_compute; reflexivity|].
  match goal with |- client_tick _ _ _ ?s = None ∧ _ => set (σ := s) end.
  assert (client_tick 4 true (λ _, true) σ = None) as Hc by reflexivity.
  assert (server_tick 4 true (λ _, true) σ = None) as Hs by reflexivity.
  split; [exact Hc|]. split; [exact Hs|].
  destruct (shmem_no_deadlock 4 true (λ _, true) sample_memory
    [ClientRequest [Byte.x01]; ClientTick; ClientTick; ClientTick; ClientTick; ClientTick] σ) as [_ Hd].
  - reflexivity.
  - reflexivity.
  - repeat constructor.
  - vm_compute. reflexivity.
  - destruct (Hd Hc Hs) as [He|He]; [discriminate He|exact He].
Defined.

Lemma full_message_refused_witness :
  ∃ e, load_len 4 (mkChan sample_memory 4 false false false) = Err e.
Proof. apply (full_message_refused 4 sample_memory (mkChan sample_memory 4 false false false)); [reflexivity|by split]. Defined.

Lemma client_not_woken_witness :
  ∃ σ, steps 4 true (λ _, true) (new_channel sample_memory)
         ([ClientRequest [Byte.x01]] ++ replicate 5 ClientTick ++ [ServerDrop]) = Some σ ∧
    (∀ actions σ', ClientTimeout ∉ actions → steps 4 true (λ _, true) σ actions = Some σ' → client σ' = PWait).
Proof.
  eexists. split; [vm_compute; reflexivity|]. intros actions σ'.
  apply (client_not_woken 4 true (λ _, true)); reflexivity.
Defined.

(** A call that runs into the time limit of the client spoils the next one: the late reply
    to the first request is taken for the reply to the second. *)
Theorem timeout_mixes_replies :
  ∃ actions σ, steps 4 true (λ _, true) (new_channel sample_memory) actions = Some σ ∧
    s_recv σ = [[Byte.x01]] ∧ s_log σ = [([Byte.x01], [Byte.x0a])] ∧ c_log σ = [([Byte.x02], [Byte.x0a])].
Proof.
  exists ([ServerListen; ClientRequest [Byte.x01]] ++ replicate 5 ClientTick ++ replicate 5 ServerTick ++
          [ClientTimeout; ClientRequest [Byte.x02]] ++ replicate 5 ClientTick ++
          ServerReply [Byte.x0a] :: replicate 5 ServerTick ++ replicate 5 ClientTick).
  eexists. split; [vm_compute; reflexivity|]. done.
Qed.

(** With events that only wake a side that waits already, a signal can be lost and both sides
    wait for ever. *)
Lemma edge_events_deadlock :
  ∃ actions σ, Forall (proper 4 (λ _, true)) actions ∧
    steps 4 false (λ _, true) (new_channel sample_memory) actions = Some σ ∧
    client σ = PWait ∧ server σ = PWait ∧
    client_tick 4 false (λ _, true) σ = None ∧ server_tick 4 false (λ _, true) σ = None.
Proof.
  exists ([ClientRequest [Byte.x01]] ++ replicate 5 ClientTick ++ [ServerListen]).
  eexists. split; [repeat constructor|]. split; [vm_compute; reflexivity|]. done.
Qed.
