(* ===== verification/WsDaemon.v ===== *)
(** * The coordinator's connection to a daemon

    Models [binaries/coordinator/src/ws_daemon.rs] and the commands of [DaemonConnection] in
    [state.rs]: registration, translation of the daemon's events, and replies that find
    their command by its identifier.  Parsing of JSON is serde's, so that frames are given
    in parsed form; what the connection, the event loop and the clock do are inputs. *)

From Stdlib Require Import ZArith Lia.
From stdpp Require Import base gmap sets list strings.
From S2P Require Import Prelude Message Descriptor Store CoordState.
Local Open Scope nat_scope.
Local Open Scope list_scope.

(** ** Messages of a daemon *)

Record DaemonRegisterRequest := mkRegisterRequest {
  reg_version_check : res unit;
  reg_machine_id : option string;
  reg_labels : gmap string string
}.

(** [daemon_to_coordinator::DaemonEvent]. *)
Inductive DaemonEvent :=
  | DBuildResult (build_id : Uuid) (result : res unit)
  | DSpawnResult (dataflow_id : Uuid) (result : res unit)
  | DAllNodesReady (dataflow_id : Uuid) (exited_before_subscribe : list NodeId)
  | DAllNodesFinished (dataflow_id : Uuid) (result : gmap NodeId NodeResult)
  | DHeartbeat (ft_stats : option FaultToleranceSnapshot)
  | DLog (message : LogMessage)
  | DExit
  | DNodeMetrics (dataflow_id : Uuid) (metrics : gmap NodeId NodeMetrics) (network : option NetworkMetrics)
  | DTopicDebugData (dataflow_id : Uuid) (subscription_ids : list Uuid) (payload : list Byte.byte)
  | DStatusReport (running_dataflows : list (Uuid * list NodeId))
  | DStateCatchUpAck (dataflow_id : Uuid) (ack_sequence : Z).

Inductive CoordinatorRequest :=
  | Register (request : DaemonRegisterRequest)
  | DaemonEventRequest (daemon_id : DaemonId) (event : DaemonEvent).

Record WsResponse := mkWsResponse { resp_id : Uuid; resp_result : option string; resp_error : option string }.

(** A frame as the handler distinguishes it: by its kind, then by the key ["method"]. *)
Inductive Frame :=
  | FRequest (request : CoordinatorRequest)
  | FBadRequest
  | FResponse (response : WsResponse)
  | FBadResponse
  | FInvalidJson
  | FPing
  | FOther
  | FClose
  | FError.

(** ** The handler *)

Definition MAX_PENDING_REPLIES : nat := 256.
Definition MAX_MACHINE_ID : nat := 256.

(** The state of the handler and of the part of [DaemonConnection] it shares: the commands in
    the channel, the table of replies, the calls of [send_and_receive] that still wait; and
    what came out: events for the coordinator, frames written, and results of the calls. *)
Record DaemonWs := mkDaemonWs {
  tracked_daemon_id : option DaemonId;
  pending_replies : gmap Uuid RequestId;
  cmd_queue : list (Uuid * string);
  waiting_calls : gset RequestId;
  ws_running : bool;
  ws_events : list Event;
  ws_written : list (Uuid * string);
  ws_answers : list (RequestId * res string)
}.

Definition new_daemon_ws : DaemonWs := mkDaemonWs None ∅ [] ∅ true [] [] [].

Definition translate_daemon_event (daemon_id : DaemonId) (event : DaemonEvent) : Event :=
  match event with
  | DAllNodesReady dataflow_id exited => EDataflow dataflow_id (ReadyOnDaemon daemon_id exited)
  | DAllNodesFinished dataflow_id result => EDataflow dataflow_id (DataflowFinishedOnDaemon daemon_id result)
  | DHeartbeat ft_stats => EDaemonHeartbeat daemon_id ft_stats
  | DLog message => ELog message
  | DExit => EDaemonExit daemon_id
  | DNodeMetrics dataflow_id metrics network => ENodeMetrics dataflow_id metrics network
  | DTopicDebugData dataflow_id subscription_ids payload => ETopicDebugData dataflow_id subscription_ids payload
  | DBuildResult build_id result => EDataflowBuildResult build_id daemon_id result
  | DSpawnResult dataflow_id result => EDataflowSpawnResult dataflow_id daemon_id result
  | DStatusReport running => EDaemonStatusReport daemon_id running
  | DStateCatchUpAck dataflow_id ack => EDaemonStateCatchUpAck daemon_id dataflow_id ack
  end.

(** The event loop takes an event or is gone, and answers a registration with an identifier or
    drops it. *)
Record RequestEnv := mkRequestEnv {
  loop_open : bool;
  assigned_id : option DaemonId;
  env_channel : ChannelId;
  env_request : RequestId
}.

Definition emit (env : RequestEnv) (event : Event) (w : DaemonWs) : bool * DaemonWs :=
  if loop_open env then (true, {| w with ws_events := ws_events w ++ [event] |}) else (false, w).

(** [handle_daemon_request]: false closes the connection. *)
Definition handle_daemon_request (env : RequestEnv) (request : CoordinatorRequest) (w : DaemonWs) : bool * DaemonWs :=
  match request with
  | Register r =>
      match tracked_daemon_id w with
      | Some _ => (false, w)
      | None =>
          if bool_decide (is_Some (reg_machine_id r)) &&
             bool_decide (MAX_MACHINE_ID < String.length (default "" (reg_machine_id r)))
          then (false, w)
          else
            let '(ok, w) := emit env (ERegister (reg_version_check r) (reg_machine_id r) (reg_labels r)
                                        (env_channel env) (env_request env)) w in
            if ok then
              (true, match assigned_id env with
                     | Some id => {| w with tracked_daemon_id := Some id |}
                     | None => w
                     end)
            else (false, w)
      end
  | DaemonEventRequest daemon_id event =>
      if bool_decide (is_Some (tracked_daemon_id w)) && negb (bool_decide (tracked_daemon_id w = Some daemon_id))
      then (false, w)
      else emit env (translate_daemon_event daemon_id event) w
  end.

(** The text that [send_and_receive] gets for a response. *)
Definition response_text (r : WsResponse) : string :=
  match resp_result r, resp_error r with
  | Some value, _ => value
  | None, Some err => String.append "ws_error: " err
  | None, None => "null"
  end.

(** The result of a call; the call may be gone already. *)
Definition answer (rq : RequestId) (r : res string) (w : DaemonWs) : DaemonWs :=
  if decide (rq ∈ waiting_calls w)
  then {| w with waiting_calls := waiting_calls w ∖ {[rq]}; ws_answers := ws_answers w ++ [(rq, r)] |}
  else w.

Definition handle_daemon_response (r : WsResponse) (w : DaemonWs) : DaemonWs :=
  match pending_replies w !! resp_id r with
  | Some rq => answer rq (Ok (response_text r)) {| w with pending_replies := delete (resp_id r) (pending_replies w) |}
  | None => w
  end.

(** The end of the loop. *)
Definition close_ws (loop_open : bool) (w : DaemonWs) : DaemonWs :=
  let w := {| w with ws_running := false |} in
  match tracked_daemon_id w with
  | Some daemon_id =>
      if loop_open then {| w with ws_events := ws_events w ++ [EDaemonExit daemon_id] |} else w
  | None => w
  end.

Definition handle_frame (env : RequestEnv) (frame : Frame) (w : DaemonWs) : DaemonWs :=
  match frame with
  | FRequest request =>
      let '(continue, w) := handle_daemon_request env request w in
      if continue then w else close_ws (loop_open env) w
  | FResponse response => handle_daemon_response response w
  | FClose | FError => close_ws (loop_open env) w
  | FBadRequest | FBadResponse | FInvalidJson | FPing | FOther => w
  end.

(** ** Commands *)

(** [DaemonConnection::send_and_receive] up to the wait for the reply.  The channel is closed
    once the handler has ended; the entry in the table of replies stays then.  The channel has
    64 places and serves senders in their order, so that [cmd_queue] holds its content followed
    by the commands of the senders that wait for a place; such a sender, when the handler ends,
    is left to the time limit here, while the channel fails it at once. *)
Definition send_and_receive (rq : RequestId) (id : Uuid) (message : string) (w : DaemonWs) : DaemonWs :=
  let w := {| w with waiting_calls := {[rq]} ∪ waiting_calls w |} in
  if decide (MAX_PENDING_REPLIES ≤ size (pending_replies w))
  then answer rq (Err "too many pending daemon replies, refusing new request") w
  else
    let w := {| w with pending_replies := <[id := rq]> (pending_replies w) |} in
    if ws_running w then {| w with cmd_queue := cmd_queue w ++ [(id, message)] |}
    else answer rq (Err "WS daemon send channel closed") w.

(** The time limit of the wait. *)
Definition reply_timeout (rq : RequestId) (id : Uuid) (w : DaemonWs) : DaemonWs :=
  answer rq (Err "timeout waiting for daemon WS reply") {| w with pending_replies := delete id (pending_replies w) |}.

(** [DaemonConnection::send]. *)
Definition send (id : Uuid) (message : string) (w : DaemonWs) : res unit * DaemonWs :=
  if ws_running w then (Ok tt, {| w with cmd_queue := cmd_queue w ++ [(id, message)] |})
  else (Err "WS daemon send channel closed", w).

(** ** Runs *)

Inductive WsInput :=
  | WsFrame (env : RequestEnv) (frame : Frame)
  (** the next command is written, or writing fails *)
  | WsWrite (ok loop_open : bool)
  | WsCall (rq : RequestId) (id : Uuid) (message : string)
  | WsSend (id : Uuid) (message : string)
  | WsTimeout (rq : RequestId) (id : Uuid).

Definition ws_step (w : DaemonWs) (input : WsInput) : DaemonWs :=
  match input with
  | WsFrame env frame => if ws_running w then handle_frame env frame w else w
  | WsWrite ok loop_open =>
      if ws_running w then
        match cmd_queue w with
        | command :: queue =>
            let w := {| w with cmd_queue := queue |} in
            if ok then {| w with ws_written := ws_written w ++ [command] |} else close_ws loop_open w
        | [] => w
        end
      else w
  | WsCall rq id message => send_and_receive rq id message w
  | WsSend id message => (send id message w).2
  | WsTimeout rq id => if decide (pending_replies w !! id = Some rq) then reply_timeout rq id w else w
  end.

Definition ws_run (w : DaemonWs) (inputs : list WsInput) : DaemonWs := foldl ws_step w inputs.

(** ** Replies *)

Definition call_of (input : WsInput) : option RequestId := match input with WsCall rq _ _ => Some rq | _ => None end.
Definition call_id (input : WsInput) : option Uuid := match input with WsCall _ id _ => Some id | _ => None end.

(** A result that the response of the daemon to this very call justifies. *)
Definition justified (inputs : list WsInput) (rq : RequestId) (text : string) : Prop :=
  ∃ id message env r, WsCall rq id message ∈ inputs ∧ WsFrame env (FResponse r) ∈ inputs ∧
    resp_id r = id ∧ text = response_text r.

Record WsInv (inputs : list WsInput) (w : DaemonWs) : Prop := {
  wi_once : NoDup (ws_answers w).*1;
  wi_split : ∀ rq, rq ∈ omap call_of inputs ↔ rq ∈ (ws_answers w).*1 ∨ rq ∈ waiting_calls w;
  wi_disjoint : ∀ rq, rq ∈ (ws_answers w).*1 → rq ∉ waiting_calls w;
  wi_pending : ∀ id rq, pending_replies w !! id = Some rq → ∃ message, WsCall rq id message ∈ inputs;
  wi_waiting : ∀ rq, rq ∈ waiting_calls w → ∃ id, pending_replies w !! id = Some rq;
  wi_justified : ∀ rq text, (rq, Ok text) ∈ ws_answers w → justified inputs rq text;
  wi_size : size (pending_replies w) ≤ MAX_PENDING_REPLIES
}.

Lemma justified_mono inputs inputs' rq text : inputs ⊆ inputs' → justified inputs rq text → justified inputs' rq text.
Proof. intros Hs (id & m & env & r & Hc & Hf & E). exists id, m, env, r. split; [set_solver|]. split; [set_solver|done]. Qed.

(** Inputs that are no calls and change none of the tables. *)
Lemma WsInv_same inputs input w w' :
  call_of input = None → pending_replies w' = pending_replies w → waiting_calls w' = waiting_calls w →
  ws_answers w' = ws_answers w → WsInv inputs w → WsInv (inputs ++ [input]) w'.
Proof.
  intros Hc Ep Ew Ea [H1 H2 H3 H4 H5 H6 H7]. split; rewrite ?Ep, ?Ew, ?Ea; try done.
  - intros rq. rewrite omap_app. simpl. rewrite Hc, app_nil_r. apply H2.
  - intros id rq [m Hm]%H4. exists m. set_solver.
  - intros rq text Hin. eapply justified_mono; [|by apply H6]. set_solver.
Qed.

(** A call gets its result, and its entry is removed. *)
Lemma WsInv_answer inputs w id rq r :
  WsInv inputs w → pending_replies w !! id = Some rq →
  (∀ text, r = Ok text → justified inputs rq text) →
  WsInv inputs (answer rq r {| w with pending_replies := delete id (pending_replies w) |}).
Proof.
  intros [H1 H2 H3 H4 H5 H6 H7] Hp Hj.
  assert (size (delete id (pending_replies w)) ≤ MAX_PENDING_REPLIES) as Hsize.
  { rewrite map_size_delete, Hp. simpl. lia. }
  unfold answer. simpl. case_decide as Hw.
  - assert (rq ∉ (ws_answers w).*1) as Hnot by (intros Hin; by apply (H3 rq)).
    split; simpl; [|..|done]; rewrite ?fmap_app; simpl.
    + apply NoDup_app. split; [done|]. split; [set_solver|apply NoDup_singleton].
    + intros rq'. rewrite H2. destruct (decide (rq' = rq)) as [->|]; set_solver.
    + set_solver.
    + intros id' rq' [_ Hl]%lookup_delete_Some. eauto.
    + intros rq' Hin. assert (rq' ≠ rq) by set_solver. destruct (H5 rq') as [id' Hid']; [set_solver|].
      exists id'. rewrite lookup_delete_ne; [done|]. intros ->. congruence.
    + intros rq' text [Hin|[= -> E]%list_elem_of_singleton]%elem_of_app; [by apply H6|by apply Hj].
  - split; simpl; try done.
    + intros id' rq' [_ Hl]%lookup_delete_Some. eauto.
    + intros rq' Hin. destruct (H5 rq' Hin) as [id' Hid']. exists id'. rewrite lookup_delete_ne; [done|]. intros ->. congruence.
Qed.

(** A new call. *)
Lemma WsInv_call inputs w rq id message :
  WsInv inputs w → rq ∉ omap call_of inputs → id ∉ omap call_id inputs →
  WsInv (inputs ++ [WsCall rq id message]) (send_and_receive rq id message w).
Proof.
  intros [H1 H2 H3 H4 H5 H6 H7] Hrq Hid.
  assert (pending_replies w !! id = None) as Hnone.
  { destruct (pending_replies w !! id) as [rq'|] eqn:E; [|done]. apply H4 in E as [m Hm]. exfalso. apply Hid.
    apply list_elem_of_omap. by eexists. }
  assert (rq ∉ (ws_answers w).*1) as Hna by (intros Hin; apply Hrq; set_solver).
  assert (rq ∉ waiting_calls w) as Hnw by (intros Hin; apply Hrq; set_solver).
  assert (∀ rq' text, (rq', Ok text) ∈ ws_answers w → justified (inputs ++ [WsCall rq id message]) rq' text) as Hj.
  { intros rq' text Hin. eapply justified_mono; [|by apply H6]. set_solver. }
  assert (∀ rq', rq' ∈ omap call_of (inputs ++ [WsCall rq id message]) ↔
    rq' = rq ∨ rq' ∈ (ws_answers w).*1 ∨ rq' ∈ waiting_calls w) as Hsplit.
  { intros rq'. rewrite omap_app. simpl. rewrite elem_of_app, H2. set_solver. }
  assert (∀ id' rq', pending_replies w !! id' = Some rq' → ∃ m, WsCall rq' id' m ∈ inputs ++ [WsCall rq id message]) as Hpend.
  { intros id' rq' [m Hm]%H4. exists m. set_solver. }
  unfold send_and_receive. simpl. case_decide as Hfull; [|case_match].
  - unfold answer. simpl. rewrite decide_True by set_solver. split; simpl; rewrite ?fmap_app; simpl.
    + apply NoDup_app. split; [done|]. split; [set_solver|apply NoDup_singleton].
    + intros rq'. rewrite Hsplit. destruct (decide (rq' = rq)) as [->|]; set_solver.
    + set_solver.
    + done.
    + intros rq' Hin. apply H5. set_solver.
    + intros rq' text [Hin|[=]%list_elem_of_singleton]%elem_of_app. by apply Hj.
    + done.
  - split; simpl; [done| |set_solver| | |done|].
    + intros rq'. rewrite Hsplit. set_solver.
    + intros id' rq' [[<- <-]|[_ ?]]%lookup_insert_Some; [exists message; set_solver|by apply Hpend].
    + intros rq' [->%elem_of_singleton|Hin]%elem_of_union; [exists id; apply lookup_insert_eq|].
      destruct (H5 rq' Hin) as [id' Hid']. exists id'. rewrite lookup_insert_ne; [done|]. intros ->. congruence.
    + rewrite map_size_insert_None by done. lia.
  - unfold answer. simpl. rewrite decide_True by set_solver. split; simpl; rewrite ?fmap_app; simpl.
    + apply NoDup_app. split; [done|]. split; [set_solver|apply NoDup_singleton].
    + intros rq'. rewrite Hsplit. destruct (decide (rq' = rq)) as [->|]; set_solver.
    + set_solver.
    + intros id' rq' [[<- <-]|[_ ?]]%lookup_insert_Some; [exists message; set_solver|by apply Hpend].
    + intros rq' Hin. destruct (H5 rq') as [id' Hid']; [set_solver|]. exists id'. rewrite lookup_insert_ne; [done|].
      intros ->. congruence.
    + intros rq' text [Hin|[=]%list_elem_of_singleton]%elem_of_app. by apply Hj.
    + rewrite map_size_insert_None by done. lia.
Qed.

Lemma close_ws_tables b w :
  pending_replies (close_ws b w) = pending_replies w ∧ waiting_calls (close_ws b w) = waiting_calls w ∧
  ws_answers (close_ws b w) = ws_answers w.
Proof. unfold close_ws. simpl. repeat case_match; done. Qed.

Lemma request_tables env request w :
  pending_replies (handle_daemon_request env request w).2 = pending_replies w ∧
  waiting_calls (handle_daemon_request env request w).2 = waiting_calls w ∧
  ws_answers (handle_daemon_request env request w).2 = ws_answers w.
Proof. unfold handle_daemon_request, emit. repeat case_match; simplify_eq/=; done. Qed.

Lemma ws_step_inv inputs w input :
  WsInv inputs w → (∀ rq, call_of input = Some rq → rq ∉ omap call_of inputs) →
  (∀ id, call_id input = Some id → id ∉ omap call_id inputs) → WsInv (inputs ++ [input]) (ws_step w input).
Proof.
  intros Hi Hrq Hid. destruct input as [env frame|ok lo|rq id m|id m|rq id]; simpl.
  - destruct (ws_running w); [|by apply (WsInv_same inputs _ w)]. destruct frame as [request| |r| | | | | |]; simpl;
      try (by apply (WsInv_same inputs _ w)).
    + pose proof (request_tables env request w) as (Ep & Ew & Ea).
      destruct (handle_daemon_request env request w) as [[] w1]; simpl in *; [by apply (WsInv_same inputs _ w)|].
      destruct (close_ws_tables (loop_open env) w1) as (Ep' & Ew' & Ea').
      apply (WsInv_same inputs _ w); [done|congruence..|done].
    + unfold handle_daemon_response. destruct (pending_replies w !! resp_id r) as [rq|] eqn:E; [|by apply (WsInv_same inputs _ w)].
      apply (WsInv_answer (inputs ++ [WsFrame env (FResponse r)])); [by apply (WsInv_same inputs _ w)|done|].
      intros text [= <-]. destruct (wi_pending _ _ Hi _ _ E) as [m Hm]. exists (resp_id r), m, env, r. set_solver.
    + destruct (close_ws_tables (loop_open env) w) as (? & ? & ?). by apply (WsInv_same inputs _ w).
    + destruct (close_ws_tables (loop_open env) w) as (? & ? & ?). by apply (WsInv_same inputs _ w).
  - repeat case_match; try (by apply (WsInv_same inputs _ w)).
    match goal with |- WsInv _ (close_ws ?b ?x) => destruct (close_ws_tables b x) as (? & ? & ?) end.
    by apply (WsInv_same inputs _ w).
  - apply WsInv_call; [done|by apply Hrq|by apply Hid].
  - unfold send. case_match; by apply (WsInv_same inputs _ w).
  - case_decide as E; [|by apply (WsInv_same inputs _ w)]. unfold reply_timeout.
    apply (WsInv_answer (inputs ++ [WsTimeout rq id])); [by apply (WsInv_same inputs _ w)|done|done].
Qed.

(** C15. Calls to a daemon get their own replies: in any run in which identifiers are fresh,
    every call ends at most once, a result that is no error is the response that carries the
    identifier of this call, a call that has not ended is found by the response to it, and at
    most 256 replies are awaited. *)
Theorem daemon_replies_exact inputs :
  NoDup (omap call_of inputs) → NoDup (omap call_id inputs) →
  let w := ws_run new_daemon_ws inputs in
  NoDup (ws_answers w).*1 ∧
  (∀ rq, rq ∈ omap call_of inputs ↔ rq ∈ (ws_answers w).*1 ∨ ∃ id, pending_replies w !! id = Some rq ∧ rq ∈ waiting_calls w) ∧
  (∀ rq text, (rq, Ok text) ∈ ws_answers w → justified inputs rq text) ∧
  size (pending_replies w) ≤ MAX_PENDING_REPLIES.
Proof.
  intros Hrq Hid.
  assert (WsInv inputs (ws_run new_daemon_ws inputs)) as [H1 H2 H3 H4 H5 H6 H7].
  { induction inputs as [|input inputs IH] using rev_ind.
    - split; simpl; done || set_solver || (unfold MAX_PENDING_REPLIES; rewrite map_size_empty; lia).
    - rewrite omap_app in Hrq, Hid. unfold ws_run. rewrite foldl_app. simpl.
      apply NoDup_app in Hrq as (Hrq & Hrq' & _). apply NoDup_app in Hid as (Hid & Hid' & _).
      apply ws_step_inv; [by apply IH|..].
      + intros rq E Hin. apply (Hrq' _ Hin). simpl. rewrite E. set_solver.
      + intros id E Hin. apply (Hid' _ Hin). simpl. rewrite E. set_solver. }
  split_and!; [done| |done|done]. intros rq. rewrite H2. split; [|naive_solver].
  intros [?|Hw]; [by left|]. right. destruct (H5 rq Hw) as [id Hp]. eauto.
Qed.


(** ** Identity *)

(** The daemon that an event is attributed to. *)
Definition event_daemon (event : Event) : option DaemonId :=
  match event with
  | EDaemonHeartbeat id _ | EDaemonExit id | EDataflowBuildResult _ id _ | EDataflowSpawnResult _ id _
  | EDaemonStatusReport id _ | EDaemonStateCatchUpAck id _ _ => Some id
  | EDataflow _ (ReadyOnDaemon id _) | EDataflow _ (DataflowFinishedOnDaemon id _) => Some id
  | _ => None
  end.

Definition is_register (event : Event) : bool := match event with ERegister _ _ _ _ _ => true | _ => false end.

(** What a registered connection may add to the events. *)
Definition own_event (id : DaemonId) (event : Event) : Prop :=
  is_register event = false ∧ (event_daemon event = None ∨ event_daemon event = Some id).

Record Registered (id : DaemonId) (w w' : DaemonWs) : Prop := {
  rg_tracked : tracked_daemon_id w' = Some id;
  rg_events : ∃ new, ws_events w' = ws_events w ++ new ∧ Forall (own_event id) new;
  rg_stopped : ws_running w = false → ws_running w' = false ∧ ws_events w' = ws_events w
}.

Lemma Registered_same id w w' :
  tracked_daemon_id w = Some id → tracked_daemon_id w' = tracked_daemon_id w → ws_events w' = ws_events w →
  ws_running w' = ws_running w → Registered id w w'.
Proof.
  intros Ht Ht' He Hr. split; [congruence| |by rewrite Hr, He]. exists []. by rewrite app_nil_r.
Qed.

Lemma close_ws_registered id b w : tracked_daemon_id w = Some id → ws_running w = true → Registered id w (close_ws b w).
Proof.
  intros Ht Hr. unfold close_ws. simpl. rewrite Ht. destruct b; (split; simpl; [done| |by rewrite Hr]).
  - exists [EDaemonExit id]. split; [done|]. constructor; [|constructor]. split; [done|by right].
  - exists []. by rewrite app_nil_r.
Qed.

Lemma Registered_trans id w w' w'' : Registered id w w' → Registered id w' w'' → Registered id w w''.
Proof.
  intros [T1 (n1 & E1 & F1) R1] [T2 (n2 & E2 & F2) R2]. split; [done| |].
  - exists (n1 ++ n2). rewrite E2, E1, app_assoc. split; [done|]. by apply Forall_app.
  - intros [Hs He]%R1. destruct (R2 Hs). split; [done|congruence].
Qed.

Lemma answer_fields rq r w :
  tracked_daemon_id (answer rq r w) = tracked_daemon_id w ∧ ws_events (answer rq r w) = ws_events w ∧
  ws_running (answer rq r w) = ws_running w.
Proof. unfold answer. case_decide; done. Qed.

Lemma translate_own id event : own_event id (translate_daemon_event id event).
Proof. destruct event; (split; [done|]); simpl; auto. Qed.

Lemma ws_step_registered id w input : tracked_daemon_id w = Some id → Registered id w (ws_step w input).
Proof.
  intros Ht. destruct input as [env frame|ok lo|rq uid m|uid m|rq uid]; simpl.
  - destruct (ws_running w) eqn:Hr; [|by apply Registered_same].
    destruct frame as [request| |r| | | | | |]; simpl; try (by apply Registered_same); try (by apply close_ws_registered).
    + destruct request as [reg|did event]; simpl; rewrite Ht; [by apply close_ws_registered|].
      case_bool_decide; [simpl|naive_solver]. case_bool_decide as Hid; simpl; [|by apply close_ws_registered].
      injection Hid as <-. unfold emit. destruct (loop_open env); [|by apply close_ws_registered].
      split; simpl; [done| |by rewrite Hr]. eexists. split; [done|]. constructor; [apply translate_own|constructor].
    + unfold handle_daemon_response. destruct (pending_replies w !! resp_id r); [|by apply Registered_same].
      match goal with |- Registered _ _ (answer ?a ?b ?c) => destruct (answer_fields a b c) as (?&?&?) end.
      by apply Registered_same.
  - destruct (ws_running w) eqn:Hr; [|by apply Registered_same]. destruct (cmd_queue w) as [|c q]; [by apply Registered_same|].
    destruct ok; [by apply Registered_same|].
    eapply Registered_trans; [|by apply close_ws_registered]. by apply Registered_same.
  - unfold send_and_receive. repeat case_match;
      try match goal with |- Registered _ _ (answer ?a ?b ?c) => destruct (answer_fields a b c) as (?&?&?) end;
      by apply Registered_same.
  - unfold send. case_match; by apply Registered_same.
  - unfold reply_timeout. case_decide; [|by apply Registered_same].
    match goal with |- Registered _ _ (answer ?a ?b ?c) => destruct (answer_fields a b c) as (?&?&?) end.
    by apply Registered_same.
Qed.

(** A registered connection speaks for its own daemon only, whatever it sends: every event
    that reaches the coordinator afterwards is attributed to the registered daemon or to
    none, it cannot register again, and once the connection has ended there are no more
    events. *)
Theorem registered_identity w inputs id :
  tracked_daemon_id w = Some id →
  let w' := ws_run w inputs in
  tracked_daemon_id w' = Some id ∧
  (∃ new, ws_events w' = ws_events w ++ new ∧ Forall (own_event id) new) ∧
  (ws_running w = false → ws_events w' = ws_events w).
Proof.
  intros Ht w'. assert (Registered id w w') as [? ? Hs]; [|split_and!; [done|done|naive_solver]].
  subst w'. revert w Ht. induction inputs as [|input inputs IH]; intros w Ht; simpl; [by apply Registered_same|].
  pose proof (ws_step_registered id w input Ht) as Hstep. eapply Registered_trans; [done|].
  apply IH. apply Hstep.
Qed.

(** The calls that wait when the connection ends are not told: only their time limit ends
    them. *)
Lemma close_leaves_calls_waiting env w inputs :
  ws_running w = true → Forall (λ i, match i with WsTimeout _ _ | WsCall _ _ _ => False | _ => True end) inputs →
  let w' := ws_run (ws_step w (WsFrame env FClose)) inputs in
  waiting_calls w' = waiting_calls w ∧ ws_answers w' = ws_answers w.
Proof.
  intros Hr Hf. simpl. rewrite Hr.
  destruct (close_ws_tables (loop_open env) w) as (_ & <- & <-).
  assert (ws_running (close_ws (loop_open env) w) = false) as Hs by (unfold close_ws; simpl; by repeat case_match).
  revert Hs. generalize (close_ws (loop_open env) w). induction Hf as [|i inputs Hi _ IH]; intros v Hv; simpl; [done|].
  assert (ws_step v i = v) as ->; [|by apply IH]. destruct i; simpl; rewrite ?Hv; try done.
  unfold send. by rewrite Hv.
Qed.

(** ** A sample connection *)

Definition sample_env : RequestEnv := mkRequestEnv true (Some (mkDaemonId (Some "a") 1%N)) 0%N 0%N.
Definition sample_inputs : list WsInput :=
  [WsFrame sample_env (FRequest (Register (mkRegisterRequest (Ok tt) (Some "a") ∅)));
   WsCall 7%N 100%N "stop"; WsCall 8%N 101%N "list"; WsWrite true true; WsWrite true true;
   WsFrame sample_env (FResponse (mkWsResponse 101%N (Some "[]") None)); WsTimeout 7%N 100%N].

Lemma daemon_replies_exact_witness :
  ws_answers (ws_run new_daemon_ws sample_inputs) = [(8%N, Ok "[]"); (7%N, Err "timeout waiting for daemon WS reply")] ∧
  justified sample_inputs 8%N "[]".
Proof.
  split; [vm_compute; reflexivity|].
  refine (proj1 (proj2 (proj2 (daemon_replies_exact sample_inputs _ _))) 8%N "[]" _).
  - cbn. repeat constructor; set_solver.
  - cbn. repeat constructor; set_solver.
  - vm_compute. left.
Defined.

Lemma registered_identity_witness :
  let w := ws_run new_daemon_ws sample_inputs in
  let other := mkDaemonId (Some "b") 2%N in
  ∃ new, ws_events (ws_run w [WsFrame sample_env (FRequest (DaemonEventRequest other DExit))]) = ws_events w ++ new ∧
    Forall (own_event (mkDaemonId (Some "a") 1%N)) new.
Proof.
  intros w other.
  refine (proj1 (proj2 (registered_identity w [WsFrame sample_env (FRequest (DaemonEventRequest other DExit))]
    (mkDaemonId (Some "a") 1%N) _))).
  vm_compute. reflexivity.
Defined.
