(* ===== verification/WsControl.v ===== *)
(** * Control sessions

    Models the control connection between the command line and the coordinator:
    [session_loop] and [handle_response] of [binaries/cli/src/ws_client.rs] on one side,
    [handle_control_ws] of [binaries/coordinator/src/ws_control.rs] on the other, and the
    WebSocket between them as two queues of frames.  JSON is serde's, so that frames are given
    in parsed form; the answers of the coordinator's event loop are inputs of the handler. *)

From Stdlib Require Import ZArith Lia.
From stdpp Require Import base gmap sets list strings sorting.
From S2P Require Import Prelude Message Descriptor Store CoordState.
Local Open Scope nat_scope.
Local Open Scope list_scope.

(** ** Frames *)

Abbreviation Topics := (list (NodeId * DataId)) (only parsing).

Inductive CliRequest :=
  (** with the message of a failed version check *)
  | QHello (mismatch : option string)
  | QLogSubscribe (dataflow_id : Uuid)
  | QBuildLogSubscribe (build_id : Uuid)
  | QTopicSubscribe (dataflow_id : Uuid) (topics : Topics)
  | QTopicUnsubscribe (subscription_id : Uuid)
  | QTopicPublish (dataflow_id : Uuid) (node_id : NodeId) (output_id : DataId) (data_json : string)
  | QControl (request : ControlRequest)
  (** a request this coordinator does not know *)
  | QUnknown.

Inductive CliReply :=
  | HelloOk
  | Subscribed
  | TopicSubscribed (subscription_id : Uuid)
  | Unsubscribed (subscription_id : Uuid)
  | TopicPublished
  | CoordinatorStopped
  | Reply (reply : ControlRequestReply)
  | ErrorReply (err : string).

(** The [result] or the [error] of a response. *)
Abbreviation Outcome := (sum CliReply string) (only parsing).

Inductive ServerFrame :=
  | SResponse (id : Uuid) (outcome : Outcome)
  | SLog (payload : string)
  | SBinary (subscription_id : Uuid) (payload : list Byte.byte).

(** ** The coordinator's side *)

Definition MAX_TOPICS_PER_SUBSCRIBE : nat := 64.
Definition MAX_SUBSCRIPTIONS_PER_CONNECTION : nat := 16.

Record ActiveTopicSubscription := mkActive {
  active_id : Uuid;
  active_dataflow : Uuid;
  active_topics : Topics
}.

(** What the event loop answers: whether the target of a subscription is there, the
    subscription, the result of a publication, and the reply ([None]: dropped). *)
Record ControlEnv := mkControlEnv {
  env_found : bool;
  env_subscription : option (res Uuid);
  env_published : res unit;
  env_reply : option (res CliReply);
  env_loop_open : bool
}.

(** [normalized_topics.sort()]. *)
Definition topic_le (a b : NodeId * DataId) : Prop :=
  String.ltb a.1 b.1 = true ∨ a.1 = b.1 ∧ String.leb a.2 b.2 = true.
#[export] Instance topic_le_dec a b : Decision (topic_le a b).
Proof. unfold topic_le. apply _. Defined.
Definition normalize (topics : Topics) : Topics := merge_sort topic_le topics.

Definition find_subscription (dataflow_id : Uuid) (topics : Topics) (l : list ActiveTopicSubscription)
    : option ActiveTopicSubscription :=
  head (retain (λ s, bool_decide (active_dataflow s = dataflow_id) && bool_decide (active_topics s = topics)) l).

(** The arms of the handler, each with the response, the subscriptions, and whether the handler
    goes on. *)
Definition topic_subscribe (env : ControlEnv) (dataflow_id : Uuid) (topics : Topics) (subs : list ActiveTopicSubscription)
    : Outcome * list ActiveTopicSubscription * bool :=
  let normalized := normalize topics in
  match find_subscription dataflow_id normalized subs with
  | Some existing => (inl (TopicSubscribed (active_id existing)), subs, true)
  | None =>
      if decide (MAX_TOPICS_PER_SUBSCRIBE < length topics) then (inr "too many topics", subs, true)
      else if decide (MAX_SUBSCRIPTIONS_PER_CONNECTION ≤ length subs)
      then (inr "too many active subscriptions", subs, true)
      else
        match env_subscription env with
        | Some (Ok id) => (inl (TopicSubscribed id), subs ++ [mkActive id dataflow_id normalized], true)
        | Some (Err e) => (inr e, subs, true)
        | Some Panic | None => (inr "topic subscribe request dropped before completion", subs, true)
        end
  end.

Definition topic_publish (env : ControlEnv) : Outcome :=
  if env_found env then
    match env_published env with
    | Ok _ => inl TopicPublished
    | Err e => inl (ErrorReply e)
    | Panic => inl (ErrorReply "")
    end
  else inr "dataflow not found, output unavailable, or debug inspection is not enabled".

Definition forward_request (env : ControlEnv) : Outcome * bool :=
  if env_loop_open env then
    let reply := match env_reply env with
                 | Some (Ok reply) => reply
                 | Some (Err e) => ErrorReply e
                 | Some Panic | None => ErrorReply "coordinator dropped the request without a reply"
                 end in
    (inl reply, match reply with CoordinatorStopped => false | _ => true end)
  else (inr "coordinator stopped", false).

Definition handle_request (env : ControlEnv) (request : CliRequest) (subs : list ActiveTopicSubscription)
    : Outcome * list ActiveTopicSubscription * bool :=
  match request with
  | QUnknown => (inr "invalid params", subs, true)
  | QHello None => (inl HelloOk, subs, true)
  | QHello (Some msg) => (inr msg, subs, true)
  | QLogSubscribe _ =>
      (if env_found env then inl Subscribed else inr "no running dataflow with id", subs, true)
  | QBuildLogSubscribe _ =>
      (if env_found env then inl Subscribed else inr "no running build with id", subs, true)
  | QTopicSubscribe dataflow_id topics => topic_subscribe env dataflow_id topics subs
  | QTopicUnsubscribe id =>
      (inl (Unsubscribed id), retain (λ s, negb (bool_decide (active_id s = id))) subs, true)
  | QTopicPublish _ _ _ _ => (topic_publish env, subs, true)
  | QControl _ => let '(outcome, continue) := forward_request env in (outcome, subs, continue)
  end.

(** ** The command line's side *)

Abbreviation SlotId := N (only parsing).
Abbreviation ReceiverId := N (only parsing).

Inductive SessionCommand :=
  | CmdRequest
  | CmdSubscribeLogs (log_rx : ReceiverId)
  | CmdSubscribeTopics (data_rx : ReceiverId).

(** What a caller gets. *)
Inductive CliResult := GotReply (reply : CliReply) | GotAck | GotSubscription (id : Uuid) | GotError (err : string).

Record Session := mkSession {
  pending_requests : gmap Uuid SlotId;
  pending_subscribes : gmap Uuid (SlotId * ReceiverId);
  log_subscribers : list ReceiverId;
  pending_topic_subscribes : gmap Uuid (SlotId * ReceiverId);
  topic_subscribers : gmap Uuid ReceiverId;
  results : list (SlotId * CliResult);
  log_deliveries : list (ReceiverId * string);
  data_deliveries : list (ReceiverId * list Byte.byte)
}.

Definition new_session : Session := mkSession ∅ ∅ [] ∅ ∅ [] [] [].

Definition give (slot : SlotId) (r : CliResult) (s : Session) : Session :=
  {| s with results := results s ++ [(slot, r)] |}.

(** How the outcome of a response is given to each kind of command. *)
Definition request_result (outcome : Outcome) : CliResult :=
  match outcome with inl reply => GotReply reply | inr error => GotReply (ErrorReply error) end.
Definition subscribe_result (outcome : Outcome) : CliResult :=
  match outcome with inl _ => GotAck | inr error => GotError error end.
Definition topic_result (outcome : Outcome) : CliResult :=
  match outcome with
  | inr error => GotError error
  | inl (TopicSubscribed id) => GotSubscription id
  | inl (ErrorReply e) => GotError e
  | inl _ => GotError "unexpected topic subscribe reply"
  end.

Definition handle_response (id : Uuid) (outcome : Outcome) (s : Session) : Session :=
  match pending_subscribes s !! id with
  | Some (slot, log_rx) =>
      let s := {| s with pending_subscribes := delete id (pending_subscribes s) |} in
      let s := match outcome with
               | inl _ => {| s with log_subscribers := log_subscribers s ++ [log_rx] |}
               | inr _ => s
               end in
      give slot (subscribe_result outcome) s
  | None =>
      match pending_topic_subscribes s !! id with
      | Some (slot, data_rx) =>
          let s := {| s with pending_topic_subscribes := delete id (pending_topic_subscribes s) |} in
          let s := match outcome with
                   | inl (TopicSubscribed sub) =>
                       {| s with topic_subscribers := <[sub := data_rx]> (topic_subscribers s) |}
                   | _ => s
                   end in
          give slot (topic_result outcome) s
      | None =>
          match pending_requests s !! id with
          | Some slot =>
              give slot (request_result outcome) {| s with pending_requests := delete id (pending_requests s) |}
          | None => s
          end
      end
  end.

(** A frame from the coordinator; [alive] tells whether a receiver still exists. *)
Definition receive_frame (alive : ReceiverId → bool) (frame : ServerFrame) (s : Session) : Session :=
  match frame with
  | SResponse id outcome => handle_response id outcome s
  | SLog payload =>
      let subscribers := retain alive (log_subscribers s) in
      {| s with log_subscribers := subscribers;
                log_deliveries := log_deliveries s ++ ((λ rx, (rx, payload)) <$> subscribers) |}
  | SBinary id payload =>
      match topic_subscribers s !! id with
      | Some rx =>
          if alive rx then {| s with data_deliveries := data_deliveries s ++ [(rx, payload)] |}
          else {| s with topic_subscribers := delete id (topic_subscribers s) |}
      | None => s
      end
  end.

(** A command of a caller. *)
Definition start_command (slot : SlotId) (id : Uuid) (command : SessionCommand) (s : Session) : Session :=
  match command with
  | CmdRequest => {| s with pending_requests := <[id := slot]> (pending_requests s) |}
  | CmdSubscribeLogs rx => {| s with pending_subscribes := <[id := (slot, rx)]> (pending_subscribes s) |}
  | CmdSubscribeTopics rx =>
      {| s with pending_topic_subscribes := <[id := (slot, rx)]> (pending_topic_subscribes s) |}
  end.

(** The clean-up after the loop. *)
Definition pending_slots (s : Session) : list SlotId :=
  (map_to_list (pending_requests s)).*2 ++ (map_to_list (pending_subscribes s)).*2.*1 ++
  (map_to_list (pending_topic_subscribes s)).*2.*1.
Definition end_session (s : Session) : Session :=
  {| s with pending_requests := ∅; pending_subscribes := ∅; pending_topic_subscribes := ∅;
            results := results s ++ ((λ slot, (slot, GotError "WS connection closed")) <$> pending_slots s) |}.

(** ** A connection *)

(** Both ends, the frames under way, and the history: commands and responses. *)
Record Connection := mkConnection {
  cli : Session;
  subscriptions : list ActiveTopicSubscription;
  up : list (Uuid * CliRequest);
  down : list ServerFrame;
  cli_running : bool;
  server_running : bool;
  (** [TopicUnsubscribe] events for the coordinator *)
  unsubscribed : list Uuid;
  commands : list (SlotId * Uuid * SessionCommand * CliRequest);
  responses : list (Uuid * CliRequest * Outcome)
}.

Definition new_connection : Connection := mkConnection new_session [] [] [] true true [] [] [].

Inductive ConnStep :=
  | CliCommand (slot : SlotId) (id : Uuid) (command : SessionCommand) (request : CliRequest)
  | CliReceive (alive : ReceiverId → bool)
  | ServerReceive (env : ControlEnv)
  | ServerLog (payload : string)
  | ServerData (subscription_id : Uuid) (payload : list Byte.byte)
  (** the connection breaks for one side; the rest of its frames is lost *)
  | CliBreak
  | ServerBreak.

(** The end of the handler gives its subscriptions back. *)
Definition end_handler (c : Connection) : Connection :=
  {| c with server_running := false; subscriptions := [];
            unsubscribed := unsubscribed c ++ (active_id <$> subscriptions c) |}.

Definition conn_step (c : Connection) (step : ConnStep) : Connection :=
  match step with
  | CliCommand slot id command request =>
      if cli_running c then
        {| c with cli := start_command slot id command (cli c); up := up c ++ [(id, request)];
                  commands := commands c ++ [(slot, id, command, request)] |}
      else c
  | CliReceive alive =>
      if cli_running c then
        match down c with
        | frame :: rest => {| c with cli := receive_frame alive frame (cli c); down := rest |}
        | [] => if server_running c then c else {| c with cli := end_session (cli c); cli_running := false |}
        end
      else c
  | ServerReceive env =>
      if server_running c then
        match up c with
        | (id, request) :: rest =>
            let '(outcome, subs, continue) := handle_request env request (subscriptions c) in
            let c := {| c with subscriptions := subs; up := rest; down := down c ++ [SResponse id outcome];
                               unsubscribed := unsubscribed c ++
                                 match request with QTopicUnsubscribe id => [id] | _ => [] end;
                               responses := responses c ++ [(id, request, outcome)] |} in
            if continue : bool then c else end_handler c
        | [] => c
        end
      else c
  | ServerLog payload => if server_running c then {| c with down := down c ++ [SLog payload] |} else c
  | ServerData id payload => if server_running c then {| c with down := down c ++ [SBinary id payload] |} else c
  | CliBreak =>
      if cli_running c then {| c with cli := end_session (cli c); cli_running := false |} else c
  | ServerBreak => if server_running c then end_handler c else c
  end.

Definition conn_run (c : Connection) (steps : list ConnStep) : Connection := foldl conn_step c steps.

(** ** Results *)

Abbreviation CommandEntry := (SlotId * Uuid * SessionCommand * CliRequest)%type (only parsing).
Definition entry_slot (e : CommandEntry) : SlotId := e.1.1.1.
Definition entry_id (e : CommandEntry) : Uuid := e.1.1.2.

Definition result_of (command : SessionCommand) (outcome : Outcome) : CliResult :=
  match command with
  | CmdRequest => request_result outcome
  | CmdSubscribeLogs _ => subscribe_result outcome
  | CmdSubscribeTopics _ => topic_result outcome
  end.

(** A result that comes from the response to this very command. *)
Definition answered (c : Connection) (slot : SlotId) (r : CliResult) : Prop :=
  ∃ id command request outcome, (slot, id, command, request) ∈ commands c ∧ (id, request, outcome) ∈ responses c ∧
    r = result_of command outcome.

Definition response_ids (frames : list ServerFrame) : list Uuid :=
  omap (λ f, match f with SResponse id _ => Some id | _ => None end) frames.

(** The commands a session waits for. *)
Definition awaits (s : Session) (slot : SlotId) (id : Uuid) (command : SessionCommand) : Prop :=
  match command with
  | CmdRequest => pending_requests s !! id = Some slot
  | CmdSubscribeLogs rx => pending_subscribes s !! id = Some (slot, rx)
  | CmdSubscribeTopics rx => pending_topic_subscribes s !! id = Some (slot, rx)
  end.

Record ConnInv (c : Connection) : Prop := {
  ci_ids : NoDup (entry_id <$> commands c);
  ci_awaits : ∀ slot id command, awaits (cli c) slot id command → ∃ request, (slot, id, command, request) ∈ commands c;
  ci_up : ∀ id request, (id, request) ∈ up c → ∃ slot command, (slot, id, command, request) ∈ commands c;
  ci_down : ∀ id outcome, SResponse id outcome ∈ down c → ∃ slot command request,
    (slot, id, command, request) ∈ commands c ∧ (id, request, outcome) ∈ responses c;
  ci_slots : (results (cli c)).*1 ++ pending_slots (cli c) ≡ₚ entry_slot <$> commands c;
  ci_results : ∀ slot r, (slot, r) ∈ results (cli c) → r = GotError "WS connection closed" ∨ answered c slot r;
  ci_flight : cli_running c = true → ∀ slot id command, awaits (cli c) slot id command →
    id ∈ (up c).*1 ∨ id ∈ response_ids (down c);
  ci_ended : cli_running c = false → pending_slots (cli c) = []
}.

Lemma pending_slots_start slot id command s :
  (∀ slot' command', ¬ awaits s slot' id command') →
  pending_slots (start_command slot id command s) ≡ₚ slot :: pending_slots s.
Proof.
  intros Hfree. unfold pending_slots. destruct command as [|rx|rx]; simpl.
  - rewrite map_to_list_insert; [simpl; solve_Permutation|]. destruct (_ !! id) eqn:E; [|done]. by apply (Hfree _ CmdRequest) in E.
  - rewrite map_to_list_insert; [simpl; solve_Permutation|]. destruct (_ !! id) as [[s' rx']|] eqn:E; [|done].
    by apply (Hfree s' (CmdSubscribeLogs rx')) in E.
  - rewrite map_to_list_insert; [simpl; solve_Permutation|]. destruct (_ !! id) as [[s' rx']|] eqn:E; [|done].
    by apply (Hfree s' (CmdSubscribeTopics rx')) in E.
Qed.

Lemma awaits_start slot id command s slot' id' command' :
  awaits (start_command slot id command s) slot' id' command' →
  awaits s slot' id' command' ∨ (slot', id', command') = (slot, id, command).
Proof.
  destruct command, command'; simpl; auto; (destruct (decide (id = id')) as [->|];
    [rewrite lookup_insert_eq; intros ?; simplify_eq|rewrite lookup_insert_ne by done]; auto).
Qed.

Definition remove_awaited (id : Uuid) (command : SessionCommand) (s : Session) : Session :=
  match command with
  | CmdRequest => {| s with pending_requests := delete id (pending_requests s) |}
  | CmdSubscribeLogs _ => {| s with pending_subscribes := delete id (pending_subscribes s) |}
  | CmdSubscribeTopics _ => {| s with pending_topic_subscribes := delete id (pending_topic_subscribes s) |}
  end.

Lemma awaits_remove s id command slot' id' command' :
  (∀ a b, awaits s a id b → b = command) →
  awaits (remove_awaited id command s) slot' id' command' → awaits s slot' id' command' ∧ id' ≠ id.
Proof.
  intros Hu. destruct (decide (id' = id)) as [->|Hne].
  - destruct command' as [|rx'|rx'];
      [pose proof (Hu slot' CmdRequest) as Hx|pose proof (Hu slot' (CmdSubscribeLogs rx')) as Hx
      |pose proof (Hu slot' (CmdSubscribeTopics rx')) as Hx];
      destruct command; simpl in *; rewrite ?lookup_delete_eq; naive_solver.
  - destruct command, command'; simpl; rewrite ?lookup_delete_ne by done; auto.
Qed.

Lemma pending_slots_remove s slot id command :
  awaits s slot id command → slot :: pending_slots (remove_awaited id command s) ≡ₚ pending_slots s.
Proof.
  unfold pending_slots. destruct command as [|rx|rx]; simpl; intros Ha.
  - rewrite <- (map_to_list_delete _ _ _ Ha). simpl. solve_Permutation.
  - rewrite <- (map_to_list_delete _ _ _ Ha). simpl. solve_Permutation.
  - rewrite <- (map_to_list_delete _ _ _ Ha). simpl. solve_Permutation.
Qed.

(** A response ends the command that waits for it, if any. *)
Lemma handle_response_spec s id outcome :
  (∀ a b a' b', awaits s a id b → awaits s a' id b' → b = b') →
  (∃ slot command, awaits s slot id command ∧
     results (handle_response id outcome s) = results s ++ [(slot, result_of command outcome)] ∧
     pending_slots (handle_response id outcome s) = pending_slots (remove_awaited id command s) ∧
     ∀ slot' id' command', awaits (handle_response id outcome s) slot' id' command' ↔
                           awaits (remove_awaited id command s) slot' id' command') ∨
  (∀ slot command, ¬ awaits s slot id command) ∧ handle_response id outcome s = s.
Proof.
  intros Hu. unfold handle_response.
  destruct (pending_subscribes s !! id) as [[slot rx]|] eqn:E1.
  { left. exists slot, (CmdSubscribeLogs rx). split; [done|]. by destruct outcome. }
  destruct (pending_topic_subscribes s !! id) as [[slot rx]|] eqn:E2.
  { left. exists slot, (CmdSubscribeTopics rx). split; [done|]. by destruct outcome as [[]|]. }
  destruct (pending_requests s !! id) as [slot|] eqn:E3.
  { left. exists slot, CmdRequest. by split. }
  right. split; [|done]. intros slot []; simpl; congruence.
Qed.

Lemma receive_other s alive frame :
  (∀ id o, frame ≠ SResponse id o) →
  results (receive_frame alive frame s) = results s ∧ pending_slots (receive_frame alive frame s) = pending_slots s ∧
  ∀ slot id command, awaits (receive_frame alive frame s) slot id command ↔ awaits s slot id command.
Proof. intros Hf. destruct frame as [id o|p|id p]; [by destruct (Hf id o)|done|]. simpl. repeat case_match; done. Qed.

Lemma entry_unique (l : list CommandEntry) e e' :
  NoDup (entry_id <$> l) → e ∈ l → e' ∈ l → entry_id e = entry_id e' → e = e'.
Proof.
  intros Hn [i Hi]%list_elem_of_lookup [j Hj]%list_elem_of_lookup E.
  assert (i = j) as ->; [|congruence].
  apply (NoDup_lookup _ i j (entry_id e) Hn); rewrite list_lookup_fmap; [by rewrite Hi|rewrite Hj; simpl; by rewrite E].
Qed.

Lemma awaits_unique c id : ConnInv c → ∀ a b a' b', awaits (cli c) a id b → awaits (cli c) a' id b' → b = b'.
Proof.
  intros Hi a b a' b' [r Ha]%(ci_awaits c Hi) [r' Ha']%(ci_awaits c Hi).
  pose proof (entry_unique _ _ _ (ci_ids c Hi) Ha Ha' eq_refl). congruence.
Qed.

(** Histories only grow. *)
Lemma answered_mono c c' slot r :
  commands c ⊆ commands c' → responses c ⊆ responses c' → answered c slot r → answered c' slot r.
Proof. intros Hc Hr (id & cmd & req & o & ? & ? & ?). exists id, cmd, req, o. set_solver. Qed.

Lemma end_session_inv c : ConnInv c → cli_running c = true →
  ConnInv {| c with cli := end_session (cli c); cli_running := false |}.
Proof.
  intros [H0 H1 H2 H3 H4 H5 H6 H7] Hr. split; simpl; try done.
  - intros slot id []; simpl; by rewrite lookup_empty.
  - unfold pending_slots at 2. simpl. rewrite !map_to_list_empty. simpl. rewrite app_nil_r, fmap_app.
    rewrite <- list_fmap_compose. unfold compose. simpl. by rewrite list_fmap_id.
  - intros slot r [Hin|Hin]%elem_of_app; [by apply H5|]. left. apply list_elem_of_fmap in Hin as (? & [= _ ->] & _). done.
Qed.

Lemma end_handler_inv c : ConnInv c → ConnInv (end_handler c).
Proof. intros [H0 H1 H2 H3 H4 H5 H6 H7]. by split. Qed.

Lemma cli_command_inv c slot id command request :
  ConnInv c → cli_running c = true → id ∉ entry_id <$> commands c →
  ConnInv {| c with cli := start_command slot id command (cli c); up := up c ++ [(id, request)];
                    commands := commands c ++ [(slot, id, command, request)] |}.
Proof.
  intros [H0 H1 H2 H3 H4 H5 H6 H7] Hrun Hid. set (e := (slot, id, command, request)).
  assert (∀ slot' command', ¬ awaits (cli c) slot' id command') as Hfree.
  { intros slot' command' [r Hin]%H1. apply Hid, list_elem_of_fmap. by exists (slot', id, command', r). }
  assert (results (start_command slot id command (cli c)) = results (cli c)) as Hres by by destruct command.
  split; simpl; [|intros slot' id' command' [Ha|[= -> -> ->]]%awaits_start|..|].
  - rewrite fmap_app. apply NoDup_app. split; [done|]. split; [|apply NoDup_singleton]. simpl. set_solver.
  - destruct (H1 _ _ _ Ha) as [r ?]. exists r. set_solver.
  - exists request. set_solver.
  - intros id' r [Hin|[= -> ->]%list_elem_of_singleton]%elem_of_app; [|exists slot, command; set_solver].
    destruct (H2 _ _ Hin) as (s' & c' & ?). exists s', c'. set_solver.
  - intros id' o (s' & c' & r & ? & ?)%H3. exists s', c', r. set_solver.
  - rewrite Hres, pending_slots_start, fmap_app by done. simpl. rewrite <- H4. solve_Permutation.
  - rewrite Hres. intros s' r [?|Ha]%H5; [by left|]. right. eapply answered_mono; [..|done]; simpl; set_solver.
  - intros _ slot' id' command' [Ha|[= -> -> ->]]%awaits_start; [|rewrite fmap_app; set_solver].
    destruct (H6 Hrun _ _ _ Ha); [left; rewrite fmap_app; set_solver|by right].
  - by rewrite Hrun.
Qed.

Lemma cli_receive_inv c alive frame rest :
  ConnInv c → cli_running c = true → down c = frame :: rest →
  ConnInv {| c with cli := receive_frame alive frame (cli c); down := rest |}.
Proof.
  intros Hi Hrun E. pose proof Hi as [H0 H1 H2 H3 H4 H5 H6 H7].
  assert (∀ id o, SResponse id o ∈ rest → ∃ slot command request,
    (slot, id, command, request) ∈ commands c ∧ (id, request, o) ∈ responses c) as H3'.
  { intros id o Hin. apply H3. rewrite E. by right. }
  assert ((∃ id o, frame = SResponse id o) ∨ ∀ id o, frame ≠ SResponse id o) as [(id & o & ->)|Hno] by (destruct frame; eauto; by right).
  - assert (∀ slot' id' command', awaits (cli c) slot' id' command' → id' ≠ id → id' ∈ (up c).*1 ∨ id' ∈ response_ids rest) as H6'.
    { intros slot' id' command' Ha Hne. destruct (H6 Hrun _ _ _ Ha) as [?|Hin]; [by left|]. right. rewrite E in Hin.
      simpl in Hin. set_solver. }
    simpl. destruct (handle_response_spec (cli c) id o (awaits_unique c id Hi)) as [(slot & cmd & Ha & Hres & Hps & Haw)|[Hna Hsame]].
    + assert (∀ slot' id' command', awaits (handle_response id o (cli c)) slot' id' command' →
        awaits (cli c) slot' id' command' ∧ id' ≠ id) as Hrem.
      { intros slot' id' command' Hx%Haw. eapply awaits_remove; [|done]. intros x y Hxy. by eapply awaits_unique. }
      split; simpl; [done| |done|done| | |intros _ slot' id' command' [Hx Hne]%Hrem; by eapply H6'|by rewrite Hrun].
      * intros slot' id' command' [Hx _]%Hrem. by apply (H1 slot').
      * rewrite Hres, Hps, fmap_app, <- H4, <- (pending_slots_remove _ _ _ _ Ha). simpl. solve_Permutation.
      * rewrite Hres. intros slot' r [Hin|[= -> ->]%list_elem_of_singleton]%elem_of_app; [by apply H5|]. right.
        destruct (H1 _ _ _ Ha) as [req Hreq]. destruct (H3 id o) as (s2 & c2 & r2 & Hc2 & Hr2); [rewrite E; by left|].
        pose proof (entry_unique _ _ _ H0 Hreq Hc2 eq_refl) as Eq. exists id, cmd, req, o.
        split; [done|]. split; [|done]. injection Eq as -> -> ->. done.
    + rewrite Hsame. split; simpl; try done. intros _ slot' id' command' Ha. eapply H6'; [done|]. intros ->. by eapply Hna.
  - destruct (receive_other (cli c) alive frame) as (Hres & Hps & Haw); [naive_solver|].
    assert (response_ids (down c) = response_ids rest) as Hids by (rewrite E; destruct frame; naive_solver).
    split; simpl; try done.
    + intros slot' id' command' Ha%Haw. by apply (H1 slot').
    + by rewrite Hres, Hps.
    + by rewrite Hres.
    + intros _ slot' id' command' Ha%Haw. rewrite <- Hids. by eapply H6.
    + by rewrite Hrun.
Qed.

Lemma server_receive_inv c id request rest outcome subs uns :
  ConnInv c → up c = (id, request) :: rest →
  ConnInv {| c with subscriptions := subs; up := rest; down := down c ++ [SResponse id outcome];
                    unsubscribed := uns; responses := responses c ++ [(id, request, outcome)] |}.
Proof.
  intros [H0 H1 H2 H3 H4 H5 H6 H7] E. split; simpl; try done.
  - intros id' r Hin. apply H2. rewrite E. by right.
  - intros id' o [Hin|[= -> ->]%list_elem_of_singleton]%elem_of_app.
    + destruct (H3 _ _ Hin) as (s' & c' & r & ? & ?). exists s', c', r. set_solver.
    + destruct (H2 id request) as (s' & c' & Hin); [rewrite E; by left|]. exists s', c', request. set_solver.
  - intros s' r [?|Ha]%H5; [by left|]. right. eapply answered_mono; [..|done]; simpl; set_solver.
  - intros Hrun slot' id' command' Ha. unfold response_ids. rewrite omap_app. simpl.
    destruct (H6 Hrun _ _ _ Ha) as [Hin|Hin]; [|right; apply elem_of_app; by left].
    rewrite E in Hin. simpl in Hin. set_solver.
Qed.

Lemma push_inv c frame :
  ConnInv c → (∀ id o, frame ≠ SResponse id o) → ConnInv {| c with down := down c ++ [frame] |}.
Proof.
  intros [H0 H1 H2 H3 H4 H5 H6 H7] Hf. split; simpl; try done.
  - intros id o [Hin| <-%list_elem_of_singleton]%elem_of_app; [by apply H3|by destruct (Hf id o)].
  - intros Hrun slot id command Ha. unfold response_ids. rewrite omap_app. destruct (H6 Hrun _ _ _ Ha); set_solver.
Qed.

Definition step_ids (step : ConnStep) : option Uuid := match step with CliCommand _ id _ _ => Some id | _ => None end.

Lemma conn_step_inv c step :
  ConnInv c → (∀ id, step_ids step = Some id → id ∉ entry_id <$> commands c) → ConnInv (conn_step c step).
Proof.
  intros Hi Hid. destruct step as [slot id command request|alive|env|p|id p| |]; simpl.
  - destruct (cli_running c) eqn:Hr; [|done]. pose proof (cli_command_inv c slot id command request Hi Hr (Hid id eq_refl)) as Hn.
    by rewrite Hr in Hn.
  - destruct (cli_running c) eqn:Hr; [|done]. destruct (down c) as [|frame rest] eqn:E.
    + destruct (server_running c) eqn:Hs; [done|]. pose proof (end_session_inv c Hi Hr) as Hn. by rewrite E, Hs in Hn.
    + pose proof (cli_receive_inv c alive frame rest Hi Hr E) as Hn. by rewrite Hr in Hn.
  - destruct (server_running c) eqn:Hs; [|done]. destruct (up c) as [|[id request] rest] eqn:E; [done|].
    destruct (handle_request env request (subscriptions c)) as [[o subs] []].
    + pose proof (server_receive_inv c id request rest o subs
        (unsubscribed c ++ match request with QTopicUnsubscribe id => [id] | _ => [] end) Hi E) as Hn.
      by rewrite Hs in Hn.
    + apply end_handler_inv. pose proof (server_receive_inv c id request rest o subs
        (unsubscribed c ++ match request with QTopicUnsubscribe id => [id] | _ => [] end) Hi E) as Hn.
      by rewrite Hs in Hn.
  - destruct (server_running c) eqn:Hs; [|done]. eapply (push_inv c (SLog p)) in Hi; [|done]. by rewrite Hs in Hi.
  - destruct (server_running c) eqn:Hs; [|done]. eapply (push_inv c (SBinary id p)) in Hi; [|done]. by rewrite Hs in Hi.
  - destruct (cli_running c) eqn:Hr; [|done]. by apply end_session_inv.
  - destruct (server_running c); [by apply end_handler_inv|done].
Qed.

Lemma step_commands c step : (entry_id <$> commands (conn_step c step)) ⊆ (entry_id <$> commands c) ++ option_list (step_ids step).
Proof. destruct step; simpl; repeat case_match; simpl; rewrite ?fmap_app; set_solver. Qed.

Lemma conn_run_inv steps :
  NoDup (omap step_ids steps) →
  let c := conn_run new_connection steps in
  ConnInv c ∧ (entry_id <$> commands c) ⊆ omap step_ids steps.
Proof.
  induction steps as [|step steps IH] using rev_ind; intros Hn; simpl.
  - split; [|set_solver]. split; simpl; try done; try set_solver; try apply NoDup_nil_2.
    all: try (intros _). all: intros slot id []; simpl; by rewrite lookup_empty.
  - rewrite omap_app in *. apply NoDup_app in Hn as (Hn & Hd & _). destruct (IH Hn) as [Hi Hsub].
    unfold conn_run in *. rewrite foldl_app. simpl. split.
    + apply conn_step_inv; [done|]. intros id E Hin. apply Hsub in Hin. apply (Hd _ Hin). simpl. rewrite E. set_solver.
    + etrans; [apply step_commands|]. simpl. destruct (step_ids step); set_solver.
Qed.

Lemma pending_slots_awaits s slot : slot ∈ pending_slots s → ∃ id command, awaits s slot id command.
Proof.
  unfold pending_slots. rewrite !elem_of_app, !list_elem_of_fmap. intros [([id x] & -> & Hin)|[(y & -> & Hin)|(y & -> & Hin)]].
  - exists id, CmdRequest. by apply elem_of_map_to_list in Hin.
  - apply list_elem_of_fmap in Hin as ([id [sl rx]] & -> & Hin). exists id, (CmdSubscribeLogs rx).
    by apply elem_of_map_to_list in Hin.
  - apply list_elem_of_fmap in Hin as ([id [sl rx]] & -> & Hin). exists id, (CmdSubscribeTopics rx).
    by apply elem_of_map_to_list in Hin.
Qed.

(** C14. Over a control connection, every command of the command line is answered once and with
    its own answer: whatever the commands, the pushed frames and the interleaving, the
    callers that have a result and those that wait are exactly the callers, a result is what
    the coordinator answered to this very request or the error that the connection was
    closed, nobody waits after the session has ended, and nobody waits without a request
    under way. *)
Theorem control_calls_exact steps :
  NoDup (omap step_ids steps) →
  let c := conn_run new_connection steps in
  (results (cli c)).*1 ++ pending_slots (cli c) ≡ₚ entry_slot <$> commands c ∧
  (∀ slot r, (slot, r) ∈ results (cli c) → r = GotError "WS connection closed" ∨ answered c slot r) ∧
  (cli_running c = false → pending_slots (cli c) = []) ∧
  (up c = [] → response_ids (down c) = [] → pending_slots (cli c) = []).
Proof.
  intros Hn c. destruct (conn_run_inv steps Hn) as [[_ _ _ _ H4 H5 H6 H7] _]. fold c in H4, H5, H6, H7.
  split_and!; [done|done|done|]. intros Hu Hd. destruct (cli_running c) eqn:Hr; [|by apply H7].
  destruct (pending_slots (cli c)) as [|slot l] eqn:E; [done|]. exfalso.
  destruct (pending_slots_awaits (cli c) slot) as (id & command & Ha); [rewrite E; by left|].
  destruct (H6 eq_refl _ _ _ Ha) as [Hin|Hin]; [rewrite Hu in Hin|rewrite Hd in Hin]; set_solver.
Qed.

(** ** Subscriptions *)

Record SubsInv (c : Connection) : Prop := {
  si_held : ∀ id request sub, (id, request, inl (TopicSubscribed sub)) ∈ responses c →
    (∃ d ts, request = QTopicSubscribe d ts) → sub ∈ active_id <$> subscriptions c ∨ sub ∈ unsubscribed c;
  si_bound : length (subscriptions c) ≤ MAX_SUBSCRIPTIONS_PER_CONNECTION;
  si_topics : Forall (λ s, length (active_topics s) ≤ MAX_TOPICS_PER_SUBSCRIBE) (subscriptions c);
  si_ended : server_running c = false → subscriptions c = []
}.

Lemma find_subscription_spec d ts l s : find_subscription d ts l = Some s → s ∈ l.
Proof. unfold find_subscription, retain. intros Hh%head_Some_elem_of. by apply list_elem_of_filter in Hh as [_ ?]. Qed.

Lemma length_normalize topics : length (normalize topics) = length topics.
Proof. apply Permutation_length, merge_sort_Permutation. Qed.

Lemma handle_request_subs env request subs o subs' continue :
  handle_request env request subs = (o, subs', continue) →
  length subs ≤ MAX_SUBSCRIPTIONS_PER_CONNECTION →
  Forall (λ s, length (active_topics s) ≤ MAX_TOPICS_PER_SUBSCRIBE) subs →
  length subs' ≤ MAX_SUBSCRIPTIONS_PER_CONNECTION ∧
  Forall (λ s, length (active_topics s) ≤ MAX_TOPICS_PER_SUBSCRIBE) subs' ∧
  (∀ sub, sub ∈ active_id <$> subs → sub ∈ active_id <$> subs' ∨ request = QTopicUnsubscribe sub) ∧
  (∀ sub d ts, request = QTopicSubscribe d ts → o = inl (TopicSubscribed sub) → sub ∈ active_id <$> subs').
Proof.
  intros E Hl Hf. destruct request as [m| | |d ts|sub|d n out j|r|]; simpl in E.
  - destruct m; simplify_eq; naive_solver.
  - simplify_eq. naive_solver.
  - simplify_eq. naive_solver.
  - unfold topic_subscribe in E. destruct (find_subscription d (normalize ts) subs) as [ex|] eqn:Hfind.
    + simplify_eq. split_and!; [done|done|auto|]. intros sub d' ts' _ [= <-]. apply list_elem_of_fmap. exists ex.
      split; [done|]. by eapply find_subscription_spec.
    + repeat case_decide; simplify_eq; try naive_solver. destruct (env_subscription env) as [[id| |]|]; simplify_eq; try naive_solver.
      rewrite length_app, fmap_app. simpl. split_and!; [lia| |set_solver|].
      * apply Forall_app. split; [done|]. constructor; [|done]. simpl. rewrite length_normalize. lia.
      * intros sub d' ts' _ [= <-]. set_solver.
  - simplify_eq. split_and!; [|by apply Forall_retain| |done].
    + pose proof (length_retain (λ s, negb (bool_decide (active_id s = sub))) subs). lia.
    + intros sub' (s & -> & Hin)%list_elem_of_fmap. destruct (decide (active_id s = sub)) as [<-|Hne]; [by right|]. left.
      apply list_elem_of_fmap. exists s. split; [done|]. apply list_elem_of_filter. split; [|done].
      by rewrite bool_decide_false.
  - simplify_eq. naive_solver.
  - destruct (forward_request env); simplify_eq. naive_solver.
  - simplify_eq. naive_solver.
Qed.

Lemma end_handler_subs c : SubsInv c → SubsInv (end_handler c).
Proof.
  intros [S1 S2 S3 S4]. split; simpl; [|lia|done|done]. intros id request sub Hin Hr. right.
  destruct (S1 _ _ _ Hin Hr); set_solver.
Qed.

Lemma conn_step_subs c step : SubsInv c → SubsInv (conn_step c step).
Proof.
  intros Hi. destruct step as [slot id command request|alive|env|p|id p| |]; simpl;
    try (repeat case_match; try done; destruct Hi; split; simpl; (congruence || done || by auto)).
  - destruct (server_running c) eqn:Hs; [|done]. destruct (up c) as [|[id request] rest]; [done|].
    destruct (handle_request env request (subscriptions c)) as [[o subs] continue] eqn:E.
    pose proof Hi as [S1 S2 S3 S4].
    destruct (handle_request_subs _ _ _ _ _ _ E S2 S3) as (Hl & Hf & Hkeep & Hnew).
    match goal with |- SubsInv (if continue then ?x else _) => assert (SubsInv x) as Hc1 end.
    { split; simpl; [|done|done|done]. intros id' request' sub [Hin|[= -> -> <-]%list_elem_of_singleton]%elem_of_app Hr.
      - destruct (S1 _ _ _ Hin Hr) as [Ha|?]; [|set_solver]. destruct (Hkeep _ Ha) as [?| ->]; set_solver.
      - destruct Hr as (d & ts & ->). left. by eapply Hnew. }
    destruct continue; [done|by apply end_handler_subs].
  - destruct (server_running c); [by apply end_handler_subs|done].
Qed.

(** A control connection does not leak subscriptions: it never has more than 16 of them with
    more than 64 topics each, and when its handler has ended, for whatever reason, every
    subscription that the client was given has been given back to the coordinator. *)
Theorem subscriptions_released steps :
  let c := conn_run new_connection steps in
  length (subscriptions c) ≤ MAX_SUBSCRIPTIONS_PER_CONNECTION ∧
  Forall (λ s, length (active_topics s) ≤ MAX_TOPICS_PER_SUBSCRIBE) (subscriptions c) ∧
  (server_running c = false → ∀ id d ts sub,
     (id, QTopicSubscribe d ts, inl (TopicSubscribed sub)) ∈ responses c → sub ∈ unsubscribed c).
Proof.
  assert (SubsInv (conn_run new_connection steps)) as [S1 S2 S3 S4].
  { induction steps as [|step steps IH] using rev_ind; simpl.
    - split; simpl; [set_solver|lia|done|done].
    - unfold conn_run in *. rewrite foldl_app. by apply conn_step_subs. }
  simpl. split_and!; [done|done|]. intros Hs id d ts sub Hin.
  destruct (S1 _ _ _ Hin) as [Ha|?]; [eauto| |done]. rewrite S4 in Ha by done. set_solver.
Qed.

(** ** Sample sessions *)

Definition sample_env : ControlEnv := mkControlEnv true (Some (Ok 50%N)) (Ok tt) (Some (Ok (Reply DestroyOk))) true.
Definition all_alive : ReceiverId → bool := λ _, true.

Definition sample_steps : list ConnStep :=
  [CliCommand 1%N 11%N CmdRequest (QControl RDestroy); CliCommand 2%N 12%N (CmdSubscribeLogs 7%N) (QLogSubscribe 3%N);
   ServerReceive sample_env; ServerReceive sample_env; ServerLog "hello"; CliReceive all_alive; CliReceive all_alive;
   CliReceive all_alive; CliCommand 4%N 14%N CmdRequest (QControl RList); CliBreak].

Lemma control_calls_exact_witness :
  let c := conn_run new_connection sample_steps in
  results (cli c) = [(1%N, GotReply (Reply DestroyOk)); (2%N, GotAck); (4%N, GotError "WS connection closed")] ∧
  answered c 1%N (GotReply (Reply DestroyOk)).
Proof.
  intros c. split; [vm_compute; reflexivity|].
  destruct (control_calls_exact sample_steps) as (_ & Hj & _).
  - cbn. repeat constructor; set_solver.
  - destruct (Hj 1%N (GotReply (Reply DestroyOk))) as [E|Ha]; [vm_compute; left|discriminate E|exact Ha].
Defined.

Lemma server_receive_step c env id request rest o subs :
  server_running c = true → up c = (id, request) :: rest →
  handle_request env request (subscriptions c) = (o, subs, true) →
  conn_step c (ServerReceive env) =
    {| c with subscriptions := subs; up := rest; down := down c ++ [SResponse id o];
              unsubscribed := unsubscribed c ++ match request with QTopicUnsubscribe id => [id] | _ => [] end;
              responses := responses c ++ [(id, request, o)] |}.
Proof. intros Hs Hu Hh. unfold conn_step. by rewrite Hs, Hu, Hh. Qed.

(** A second subscription to the same topics takes over the stream of the first: the
    coordinator answers with the subscription that exists, and the frames of it go to the
    new receiver only. *)
Theorem resubscription_silences dataflow topics payload :
  let steps :=
    [CliCommand 1%N 11%N (CmdSubscribeTopics 7%N) (QTopicSubscribe dataflow topics);
     CliCommand 2%N 12%N (CmdSubscribeTopics 8%N) (QTopicSubscribe dataflow topics);
     ServerReceive sample_env; ServerReceive sample_env; CliReceive all_alive; CliReceive all_alive;
     ServerData 50%N payload; CliReceive all_alive] in
  length topics ≤ MAX_TOPICS_PER_SUBSCRIBE →
  let c := conn_run new_connection steps in
  results (cli c) = [(1%N, GotSubscription 50%N); (2%N, GotSubscription 50%N)] ∧
  data_deliveries (cli c) = [(8%N, payload)].
Proof.
  intros steps Hl. set (active := [mkActive 50%N dataflow (normalize topics)]).
  assert (handle_request sample_env (QTopicSubscribe dataflow topics) [] = (inl (TopicSubscribed 50%N), active, true)) as E1.
  { unfold handle_request, topic_subscribe. cbn -[normalize MAX_TOPICS_PER_SUBSCRIBE MAX_SUBSCRIPTIONS_PER_CONNECTION].
    rewrite decide_False by lia. done. }
  assert (handle_request sample_env (QTopicSubscribe dataflow topics) active = (inl (TopicSubscribed 50%N), active, true)) as E2.
  { unfold handle_request, topic_subscribe, find_subscription, retain, active.
    rewrite filter_cons_True; [done|]. cbn -[normalize]. by rewrite !bool_decide_true. }
  unfold steps, conn_run. cbn [foldl].
  set (c2 := conn_step (conn_step new_connection _) _).
  rewrite (server_receive_step c2 sample_env 11%N _ [(12%N, QTopicSubscribe dataflow topics)] _ _ eq_refl eq_refl E1).
  set (c3 := mkConnection _ _ _ _ _ _ _ _ _). rewrite (server_receive_step c3 sample_env 12%N _ [] _ _ eq_refl eq_refl E2).
  done.
Qed.

Lemma resubscription_silences_witness :
  let topics := [("camera", "image")] in
  MAX_TOPICS_PER_SUBSCRIBE = 64 ∧ length topics = 1 ∧
  data_deliveries (cli (conn_run new_connection
    [CliCommand 1%N 11%N (CmdSubscribeTopics 7%N) (QTopicSubscribe 3%N topics);
     CliCommand 2%N 12%N (CmdSubscribeTopics 8%N) (QTopicSubscribe 3%N topics);
     ServerReceive sample_env; ServerReceive sample_env; CliReceive all_alive; CliReceive all_alive;
     ServerData 50%N [Byte.x01]; CliReceive all_alive])) = [(8%N, [Byte.x01])].
Proof.
  intros topics. split; [reflexivity|]. split; [reflexivity|].
  refine (proj2 (resubscription_silences 3%N topics [Byte.x01] _)). apply Nat.leb_le. reflexivity.
Defined.

(** All log events of a connection go to all its receivers, also if they subscribed to
    different dataflows. *)
Lemma logs_not_separated :
  let c := conn_run new_connection
    [CliCommand 1%N 11%N (CmdSubscribeLogs 7%N) (QLogSubscribe 3%N);
     CliCommand 2%N 12%N (CmdSubscribeLogs 8%N) (QLogSubscribe 4%N);
     ServerReceive sample_env; ServerReceive sample_env; CliReceive all_alive; CliReceive all_alive;
     ServerLog "of dataflow 3"; CliReceive all_alive] in
  log_deliveries (cli c) = [(7%N, "of dataflow 3"); (8%N, "of dataflow 3")].
Proof. vm_compute. reflexivity. Qed.
